(* ===== verification/_CoqProject ===== *)
-Q . S2P
Prelude.v
UInt256.v
RLP.v
Common.v
Attestation.v
VotePool.v
Registry.v
Lifecycle.v
StateDB.v
Trie.v
TrieTree.v
TrieEncoding.v
TrieOps.v
TrieRoot.v
Blocks.v
Keccak.v
Ripemd160.v
Blake2b.v
EvmData.v
Interpreter.v
EvmState.v
EvmSafety.v
EvmExec.v
EvmGas.v
EvmCalls.v
EvmRun.v
EvmEffects.v
EvmJumps.v
EvmRefund.v
Precompiles.v
Machine.v
Transaction.v
Transition.v
TransitionFacts.v
CoreBlock.v
CoreBlockFacts.v
Processor.v
ProcessorFacts.v
Poa.v
TxPool.v
TxPoolFacts.v
Secp256k1.v
Secp256k1Facts.v
EcdsaFacts.v
Database.v
FileDb.v
FileDbFacts.v
RawDb.v
RawDbFacts.v
Chain.v
ChainFacts.v
Genesis.v
Backend.v
ChainSafety.v
Builder.v
BuilderFacts.v
