(* ===== verification/Prelude.v ===== *)
(** * padi-chain: a verification development

    padi-chain is an Ethereum-style proof-of-stake node in Go.  Blocks hold
    transactions executed by an EVM over a journaled world state, the state
    lives in Merkle Patricia tries over a key-value store, validators stake
    through a registry kept in contract storage, and blocks are made final by
    BLS attestations gathered into quorum certificates.

    ** Parts and files

    - [Prelude] (this file): results of fallible code, unsigned machine
      integers with their wrap-around, big-endian byte strings, the tactics
      [bsimp] and [bcase], the hint database [padi].
    - [UInt256] models src/uint256: words of four 64-bit limbs and the EVM's
      arithmetic on them, limb by limb (carry chains, schoolbook product,
      shift-and-subtract division, signed operations, shifts, byte strings).
    - [RLP] models src/rlp: headers, byte strings and lists, the stream
      reader, and the reflective encoder and decoder over a universe of Go
      types with the struct tags the code reads.
    - [Common] models src/common: addresses, hashes, padding, and the
      interface [Keccak] of the hash function.
    - [Attestation] models src/core/attestation.go and aggregate.go: votes,
      their signing messages, equivocation proofs, quorum certificates.  The
      signature scheme is the interface [Bls] with its laws [BlsLaws].
    - [VotePool] models src/consensus/finality.go: the pool that counts votes,
      refuses second votes and assembles certificates.
    - [Registry] models src/staking/params.go and registry.go: the validator
      records packed into contract storage slots, over the interface
      [StateAccess] of a state with its laws [StateLaws].
    - [Lifecycle] models src/staking/lifecycle.go: deposits, exits, slashing,
      withdrawals and the epoch transition on top of [Registry].
    - [StateDB] models src/state and src/core/account.go: account objects with
      pending and committed storage, the journal, snapshots and reverts, the
      access list, logs, finalisation and commit, over the interface
      [TrieStore] of a trie and a database.  It discharges [StateAccess] and
      [StateLaws], which the staking theorems use.
    - [Trie] models src/trie (trie.go, hasher.go, proof.go): nodes with cached
      hashes, lookup, insertion and deletion through nodes loaded on demand,
      hashing, commits, decoding, proofs, and the roots of lists.
      [TrieTree], [TrieEncoding], [TrieOps] and [TrieRoot] prove it correct:
      an abstract tree with a canonical form that its contents determine, its
      encoding and decoding, the operations as operations on the tree, and the
      root hash, commits and proofs.
    - [Blocks], [Keccak], [Ripemd160] and [Blake2b] model src/crypto/keccak,
      ripemd160 and blake2b: the permutation or compression function, the
      padding, and the streaming digest.  [Keccak.keccak256] is the instance
      of the interface [Keccak] the node runs with.
    - [EvmData] models the data of src/evm: instructions, errors, the operand
      stack, memory, gas arithmetic, frames, the bitmap of jump destinations.
    - [Interpreter] models src/evm/interpreter.go and evm.go: the gas and the
      effect of every instruction, the loop of a frame, and the calls and
      creations that start one, in a state-and-error monad.  The native
      contracts are the interface [Precompiles].
    - [EvmState], [EvmSafety], [EvmExec], [EvmGas], [EvmCalls] and [EvmRun]
      prove what one instruction, one call and a whole run preserve;
      [EvmEffects] derives what a run can do to the state, [EvmJumps] where the
      program counter can be, [EvmRefund] a defect of refunds across the
      transactions of a block.
    - [Precompiles] models src/evm/precompiles.go and precompiles_extended.go
      and discharges the interface of the interpreter; curve operations and
      SHA-256 are the interface [NativeCrypto].
    - [Machine] states the theorems on message calls and creations.
    - [Transaction] models src/core/transaction.go: payloads, encodings, fees,
      signing and recovery of the sender, over the interface [Signing].
    - [Transition] models src/processor/transition.go and the staking
      operations of staking.go: a message buys gas, runs on the machine or on
      the registry, and settles; [TransitionFacts] proves it.
    - [CoreBlock] models src/core/block.go, receipt.go and bloom.go: headers with
      their sealing and block hashes, blocks with their encoding and the check of
      the transaction root, receipts and the fields derived on reading, bloom
      filters; [CoreBlockFacts] proves them.
    - [Processor] models src/processor/processor.go and the epoch boundary of
      staking.go: the transactions of a block in order on one machine, the randao
      reveal, participation read from the certificates of the last epoch, base
      fee and gas limit; [ProcessorFacts] proves it.  The chain a block extends
      is a record of its two lookups.
    - [Poa] models src/consensus/poa.go: validator sets, the schedule of rounds,
      the checks of a header, preparing and sealing, with its theorems.  Readings
      of the clock are arguments.
    - [TxPool] models src/txpool/txpool.go: admission, replacement, promotion,
      removal, reset and selection, with the order of Go's map iterations as an
      argument; [TxPoolFacts] proves it.
    - [Secp256k1] models src/crypto/secp256k1: Jacobian points, keys and their
      encodings, ECDSA and key exchange, over math/big; the constants of the
      curve are a record.  [Secp256k1Facts] proves the arithmetic (modular
      inverse, exponentiation, the formulas against the chord and tangent law),
      [EcdsaFacts] the signatures, from the class of laws [CurveLaws], and
      discharges the interface [Signing] of the transactions.
    - [Database] models src/db/db.go: the in-memory store, batches, ordered
      iteration and the tracking of writes.
    - [FileDb] models src/db/filedb.go: the log with its records and checksum, the
      buffer of writes, replay, batches and compaction, the file being its bytes;
      [FileDbFacts] proves that it is a map and what a crash leaves.
    - [RawDb] models src/chain/rawdb.go: the keys and records of blocks, receipts,
      transactions and the canonical index; [RawDbFacts] proves that what was
      written is read.  The store is the interface [ChainStore] with [StoreLaws].
    - [Chain] models src/chain/blockchain.go and finality.go: lookups, validator
      sets, verification, execution, fork choice, reorganisation, finality and
      snapshots.  An operation returns the chain it leaves; loops that follow
      parents take the height as fuel, which is proved enough.  [ChainFacts]
      proves the invariant and each operation.
    - [Genesis] models src/chain/genesis.go and the opening of a chain.
      [ChainSafety] states the theorems over all runs of a chain, and executes a
      small chain on which they are instantiated.
    - [Backend] instantiates the interfaces of the state and the chain with the
      modelled trie over the in-memory store, and discharges their laws.
    - [Builder] models src/miner/builder.go: the draft of a header, the loop over
      the candidates with a snapshot for each, the closing steps, the seal and the
      import.  [BuilderFacts] proves what becomes of a candidate and that the
      chain's checks accept what was built.

    Each file has one Module per component; definitions keep the Go names where
    Rocq allows, and where two Go names fall together (a type and a method, or a
    keyword) the comment at the definition says which is meant.

    ** Conventions

    A Go function that returns an error is a function into [result]; a run-time
    panic is [None] or a constructor of the error type named [GoPanic].
    Machine integers are [Z] with the wrap-around written out.  Mutated objects
    are passed and returned.  Maps are [gmap]s; where the code iterates over a
    map and sorts, the model sorts the elements of the map.  Locks are not
    modelled: every exported method holds its mutex throughout, so calls are
    sequential.  Big integers that the code never lets wrap are plain [Z].

    ** What the theorems show

    - Arithmetic: each operation on limbs is the operation on integers it
      stands for, modulo 2^256, with the EVM's conventions for zero divisors,
      sign and shifts of 256 or more.
    - RLP: decoding inverts encoding and is canonical, loops end on every
      input, and exactly which inputs make [Raw] panic.
    - Finality: two certificates for different blocks at one height convict
      more than a third of the validators; signing messages are unambiguous;
      an honest pool keeps one vote per validator and height, makes at most
      one certificate per height, and makes it once a quorum has voted.
    - Staking: the registry refines an abstract table of records, the staking
      account always backs the sum of balances, statuses only move forward,
      withdrawals pay once after the delay, activations respect the churn
      limit.
    - State: reverting to a snapshot restores every observation, and each
      operation changes the cells it names and no others.
    - Trie: it is a finite map; its root determines and is determined by its
      contents up to a hash collision among its own nodes; committing and
      reopening gives the same map; proofs are sound and complete; the root of
      a list commits to the list.
    - Hashes: a digest fed in any pieces sums to the specified hash of the
      whole message, and the published vectors evaluate.
    - EVM: every message call and creation returns, without panic, within as
      many instructions as it has gas; a failed call leaves no trace; a static
      call changes nothing; no value is created; execution only visits
      instructions; modular exponentiation is right for every operand length.
    - Transactions: they are read back from their encodings; a signature binds
      chain and content; a signed transaction has its signer as sender, but its
      signature values can be rewritten.
    - Messages: every message is applied without panic and accounted for in gas;
      whatever runs, the base fee is burnt and no balance goes below zero, that of
      the staking contract as long as it covers its validators; a failed message
      costs its fee and nothing else.
    - Blocks: a block's hash binds header and transactions, a seal binds the
      header, blocks and receipts are read back from their encodings, a bloom
      filter never misses a log.
    - Block processing: every block is processed without panic; an accepted one
      has a receipt per transaction whose totals add up to the gas the header
      claims; receipts can be derived from the block; the base fee follows
      demand within its bounds; participation is what the certificates say.
    - The engine: a prepared and sealed block is accepted, an accepted header was
      sealed in turn and in time, every validator has its round, and after the
      last round the schedule is stuck.
    - The pool: what is listed is indexed after any operations, and what is
      indexed is listed as long as resets find room; pending transactions are
      executable, senders can pay, the best-paying come first; a reset without
      room can strand a transaction.
    - secp256k1: the Jacobian formulas implement the group of the curve and keep
      points well formed; signatures verify and recover to their signer, and
      verification and recovery decide the same thing; keys are read back from
      their encodings, of which the parser accepts too many; key exchange agrees.
    - Stores: the file store is a map, and a crash anywhere in a batch recovers a
      beginning of it; its checksum does not protect the lengths.
    - The chain: on every run of openings, imports, certificates and restarts the
      index is the branch of the head, finality only moves forward, an import is
      all or nothing, reorganisations succeed, certificates settle, and a restart
      recovers the chain; the head descends from the finalized block while no
      import moves finality, and need not once one does.
    - The builder: a block it seals, its certificate included, passes the checks of
      every chain with its view, a rejected candidate leaves no trace but in the gas pool, and the
      loop accounts for every candidate.

    Theorems about a defect state what the code does; the manifest lists them
    with the comment or test they contradict.

    ** Bounds and fuel

    Nested frames of the interpreter take their fuel as the largest call depth
    plus one, and a frame's loop takes more steps than it has gas: each
    instruction that does not end the frame costs at least one.

    The loops of the trie carry a fuel of twice the path length plus three:
    every second step consumes a nibble, since a resolved node is never again a
    reference.  The theorems on them state success, so the fuel is enough.
    Decoding uses the length of its input.  Values and keys in a trie are
    bounded by 2^32 bytes, far below the sizes where lengths of encodings would
    leave [int].  The division loop runs 256 times, as the code does.  The
    walk of a proof takes its fuel as an argument: soundness holds for every
    fuel and completeness from the stated one on.

    ** Not modelled

    - Pairing-friendly curves and BLS signatures (src/crypto/bls12381, bn254)
      and the SHA-256 of the Go library: they are reached through the interfaces
      [Bls] and [NativeCrypto], whose laws are lengths and, for BLS, completeness
      of verification; that aggregates of a set's own keys cannot be forged is a
      hypothesis of the theorem on accountable safety.
    - The mathematics of secp256k1 itself: that its moduli are prime, that the
      chord and tangent law is associative and that the order annihilates every
      point are the laws of [CurveLaws], hypotheses of the theorems on
      signatures, shown consistent on a curve with 31 points.
    - The pruner of src/chain, and the JSON form of a genesis.
    - The network, the node, the command line, RPC, metrics and snap sync
      (src/p2p, src/node, src/cmd, src/rpc, src/metrics, src/statesync):
      goroutines, sockets, files and JSON around the parts above.
    - Errors of the operating system, failed writes to a store among them, and
      mutexes and subscribers around the stores and the chain.
    - Tracing, pools of reused buffers, text forms of opcodes, errors, hashes
      and addresses. *)

From Stdlib Require Import ZArith List Lia Bool.
Import ListNotations.
Local Open Scope Z_scope.

(** * Results of fallible Go code

    A Go function returning [(T, error)] is a function into [result E T]: [Ok]
    is a nil error, [Err e] a non-nil one.  A run-time panic is kept apart, as
    [None] of an [option]. *)

Inductive result (E A : Type) : Type :=
| Ok (a : A)
| Err (e : E).
Arguments Ok {E A} a.
Arguments Err {E A} e.

Definition rbind {E A B : Type} (r : result E A) (k : A -> result E B) : result E B :=
  match r with
  | Ok a => k a
  | Err e => Err e
  end.

Definition obind {A B : Type} (o : option A) (k : A -> option B) : option B :=
  match o with
  | Some a => k a
  | None => None
  end.

Declare Scope go_scope.
Delimit Scope go_scope with go.

Notation "'let!' x := e 'in' k" := (rbind e (fun x => k))
  (at level 10, x pattern, e at level 200, k at level 200) : go_scope.
Notation "'let?' x := e 'in' k" := (obind e (fun x => k))
  (at level 10, x pattern, e at level 200, k at level 200) : go_scope.

(** * Boolean tests

    [bsimp] turns every boolean comparison of the context into its
    proposition; [bcase] splits on the first test of the goal. *)

Ltac bsimp :=
  repeat match goal with
  | H : (_ && _)%bool = true |- _ => apply andb_prop in H; destruct H
  | H : (_ || _)%bool = false |- _ => apply orb_false_elim in H; destruct H
  | H : negb _ = true |- _ => apply negb_true_iff in H
  | H : negb _ = false |- _ => apply negb_false_iff in H
  | H : Z.eqb _ _ = true |- _ => apply Z.eqb_eq in H
  | H : Z.eqb _ _ = false |- _ => apply Z.eqb_neq in H
  | H : Z.ltb _ _ = true |- _ => apply Z.ltb_lt in H
  | H : Z.ltb _ _ = false |- _ => apply Z.ltb_ge in H
  | H : Z.leb _ _ = true |- _ => apply Z.leb_le in H
  | H : Z.leb _ _ = false |- _ => apply Z.leb_gt in H
  | H : Nat.eqb _ _ = true |- _ => apply Nat.eqb_eq in H
  | H : Nat.eqb _ _ = false |- _ => apply Nat.eqb_neq in H
  | H : Nat.ltb _ _ = true |- _ => apply Nat.ltb_lt in H
  | H : Nat.ltb _ _ = false |- _ => apply Nat.ltb_ge in H
  end.

Ltac bcase :=
  match goal with
  | |- context [if ?b then _ else _] => destruct b eqn:?; bsimp
  end.

Ltac bcase_in H :=
  match type of H with
  | context [if ?b then _ else _] => destruct b eqn:?; bsimp
  end.

(** * Unsigned machine integers

    A Go [uint64] is a [Z] kept in [[0, 2^64)], [byte] a [Z] in [[0, 256)];
    the wrap-around of each operation is written out. *)

Definition two64 : Z := 18446744073709551616.
Definition max_uint64 : Z := 18446744073709551615.
Definition max_int64 : Z := 9223372036854775807.

Definition u64_ok (v : Z) : Prop := 0 <= v < two64.
Definition byte_ok (b : Z) : Prop := 0 <= b < 256.

Definition wrap64 (v : Z) : Z := v mod two64.
Definition wrap8 (v : Z) : Z := v mod 256.

Notation "x +w y" := (wrap64 (x + y)) (at level 50, left associativity) : go_scope.
Notation "x -w y" := (wrap64 (x - y)) (at level 50, left associativity) : go_scope.
Notation "x *w y" := (wrap64 (x * y)) (at level 40, left associativity) : go_scope.

(** A signed 64-bit Go [int] wraps into [[-2^63, 2^63)]. *)
Definition wrap_int (v : Z) : Z :=
  let w := v mod two64 in if w <=? max_int64 then w else w - two64.

Create HintDb padi.
Create Rewrite HintDb len.

Lemma two64_pow : two64 = 2 ^ 64.
Proof. reflexivity. Qed.

Lemma wrap64_ok v : u64_ok (wrap64 v).
Proof. unfold u64_ok, wrap64, two64. apply Z.mod_pos_bound. lia. Qed.

Lemma wrap64_small v : u64_ok v -> wrap64 v = v.
Proof. unfold u64_ok, wrap64. apply Z.mod_small. Qed.

Lemma wrap8_ok v : byte_ok (wrap8 v).
Proof. unfold byte_ok, wrap8. apply Z.mod_pos_bound. lia. Qed.

Lemma wrap8_small v : byte_ok v -> wrap8 v = v.
Proof. unfold byte_ok, wrap8. apply Z.mod_small. Qed.

Lemma wrap_int_small v : - (max_int64 + 1) <= v <= max_int64 -> wrap_int v = v.
Proof.
  unfold wrap_int, max_int64, two64. intros H.
  destruct (Z_lt_le_dec v 0).
  - rewrite <- (Z.mod_unique v 18446744073709551616 (-1) (v + 18446744073709551616)) by lia.
    bcase; lia.
  - rewrite Z.mod_small by lia. bcase; lia.
Qed.

#[export] Hint Resolve wrap64_ok wrap64_small wrap8_ok wrap8_small : padi.

(** * Byte strings *)

Abbreviation bytes := (list Z).
Definition bytes_ok (b : bytes) : Prop := Forall byte_ok b.

Definition len {A} (l : list A) : Z := Z.of_nat (length l).

(** Decidable equality of byte strings, Go's [bytes.Equal]. *)
Definition bytes_eqb (a b : bytes) : bool :=
  if list_eq_dec Z.eq_dec a b then true else false.

Lemma bytes_eqb_eq a b : bytes_eqb a b = true <-> a = b.
Proof. unfold bytes_eqb. destruct (list_eq_dec Z.eq_dec a b); split; congruence. Qed.

Lemma bytes_eqb_refl a : bytes_eqb a a = true.
Proof. apply bytes_eqb_eq. reflexivity. Qed.

Lemma bytes_eqb_neq a b : bytes_eqb a b = false <-> a <> b.
Proof. unfold bytes_eqb. destruct (list_eq_dec Z.eq_dec a b); split; congruence. Qed.

(** Big-endian value of a byte string, Go's [big.Int.SetBytes]. *)
Fixpoint be_val_acc (acc : Z) (b : bytes) : Z :=
  match b with
  | [] => acc
  | c :: r => be_val_acc (acc * 256 + c) r
  end.
Definition be_val (b : bytes) : Z := be_val_acc 0 b.

(** The [n] low bytes of [v], big-endian. *)
Fixpoint be_bytes (n : nat) (v : Z) : bytes :=
  match n with
  | O => []
  | S m => be_bytes m (v / 256) ++ [v mod 256]
  end.

Lemma len_nonneg {A} (l : list A) : 0 <= len l.
Proof. unfold len. lia. Qed.

Lemma len_app {A} (a b : list A) : len (a ++ b) = len a + len b.
Proof. unfold len. rewrite length_app. lia. Qed.

Lemma len_cons {A} (x : A) l : len (x :: l) = 1 + len l.
Proof. unfold len. cbn [length]. lia. Qed.

Lemma len_nil {A} : len (@nil A) = 0.
Proof. reflexivity. Qed.

#[export] Hint Rewrite @len_app @len_cons @len_nil : len.

Lemma be_val_acc_spec b : forall acc, be_val_acc acc b = acc * 256 ^ len b + be_val b.
Proof.
  unfold be_val. induction b as [|c r IH]; intros acc; cbn [be_val_acc].
  - rewrite len_nil. lia.
  - rewrite IH, (IH (0 * 256 + c)), len_cons, Z.pow_add_r by (pose proof (len_nonneg r); lia).
    ring.
Qed.

Lemma be_val_nil : be_val [] = 0.
Proof. reflexivity. Qed.

Lemma be_val_cons c r : be_val (c :: r) = c * 256 ^ len r + be_val r.
Proof.
  change (be_val (c :: r)) with (be_val_acc (0 * 256 + c) r).
  rewrite be_val_acc_spec. ring.
Qed.

Lemma be_val_app a b : be_val (a ++ b) = be_val a * 256 ^ len b + be_val b.
Proof.
  induction a as [|c r IH]; cbn [app].
  - rewrite be_val_nil. ring.
  - rewrite !be_val_cons, IH, len_app.
    rewrite Z.pow_add_r by (unfold len; lia). ring.
Qed.

Lemma be_val_snoc a c : be_val (a ++ [c]) = be_val a * 256 + c.
Proof. rewrite be_val_app. cbn. unfold be_val. cbn. ring. Qed.

Lemma pow256_pos {A} (l : list A) : 0 < 256 ^ len l.
Proof. apply Z.pow_pos_nonneg; [lia | apply len_nonneg]. Qed.

Lemma be_val_bounds b : bytes_ok b -> 0 <= be_val b < 256 ^ len b.
Proof.
  induction 1 as [|c r Hc Hr IH].
  - unfold be_val, len. cbn. lia.
  - rewrite be_val_cons, len_cons, Z.pow_add_r by (unfold len; lia).
    unfold byte_ok in Hc. nia.
Qed.

Lemma length_be_bytes n : forall v, length (be_bytes n v) = n.
Proof. induction n; intros v; cbn; [reflexivity|]. rewrite length_app, IHn. cbn. lia. Qed.

Lemma len_be_bytes n v : len (be_bytes n v) = Z.of_nat n.
Proof. unfold len. rewrite length_be_bytes. reflexivity. Qed.

Lemma be_bytes_ok n : forall v, bytes_ok (be_bytes n v).
Proof.
  induction n; intros v; cbn; [constructor|].
  apply Forall_app. split; [apply IHn|].
  constructor; [|constructor]. unfold byte_ok. apply Z.mod_pos_bound. lia.
Qed.

Lemma be_val_be_bytes n : forall v, be_val (be_bytes n v) = v mod 256 ^ Z.of_nat n.
Proof.
  induction n; intros v; cbn [be_bytes].
  - cbn. rewrite Z.mod_1_r. reflexivity.
  - rewrite be_val_snoc, IHn, Nat2Z.inj_succ, Z.pow_succ_r by lia.
    rewrite (Z.rem_mul_r v 256 (256 ^ Z.of_nat n)) by (try apply Z.pow_nonzero; lia).
    ring.
Qed.

Lemma be_val_inj a : forall b, bytes_ok a -> bytes_ok b -> length a = length b ->
  be_val a = be_val b -> a = b.
Proof.
  induction a as [|x a IH]; intros [|y b] Ha Hb Hl Hv; try discriminate; [reflexivity|].
  rewrite !be_val_cons in Hv. injection Hl as Hl.
  assert (len a = len b) as Hlen by (unfold len; congruence).
  rewrite <- Hlen in Hv.
  inversion_clear Ha as [|? ? Hx Ha']. inversion_clear Hb as [|? ? Hy Hb'].
  pose proof (be_val_bounds a Ha'). pose proof (be_val_bounds b Hb').
  rewrite <- Hlen in *. pose proof (pow256_pos a).
  assert (x = y) as -> by nia.
  f_equal. apply IH; auto. lia.
Qed.

Lemma be_bytes_be_val b : bytes_ok b -> be_bytes (length b) (be_val b) = b.
Proof.
  intros H. apply be_val_inj; auto using be_bytes_ok, length_be_bytes.
  rewrite be_val_be_bytes. apply Z.mod_small. apply (be_val_bounds b H).
Qed.

(** Leading zero bytes, as Go's [big.Int.Bytes] drops them. *)
Fixpoint strip_zeros (b : bytes) : bytes :=
  match b with
  | 0 :: r => strip_zeros r
  | _ => b
  end.

Definition no_leading_zero (b : bytes) : Prop := hd 1 b <> 0.

Lemma strip_zeros_cons0 r : strip_zeros (0 :: r) = strip_zeros r.
Proof. reflexivity. Qed.

Lemma strip_zeros_id b : no_leading_zero b -> strip_zeros b = b.
Proof.
  destruct b as [|c r]; [reflexivity|]. unfold no_leading_zero. cbn [hd].
  intros H. destruct c; [contradiction | reflexivity | reflexivity].
Qed.

Lemma strip_zeros_val b : be_val (strip_zeros b) = be_val b.
Proof.
  induction b as [|c r IH]; [reflexivity|].
  destruct c; [|reflexivity|reflexivity].
  rewrite strip_zeros_cons0, IH, be_val_cons. ring.
Qed.

Lemma strip_zeros_nlz b : no_leading_zero (strip_zeros b).
Proof.
  induction b as [|c r IH]; unfold no_leading_zero; [cbn; lia|].
  destruct c; [exact IH| |]; cbn; lia.
Qed.

Lemma strip_zeros_ok b : bytes_ok b -> bytes_ok (strip_zeros b).
Proof.
  induction 1 as [|c r Hc Hr IH]; [constructor|].
  destruct c; [exact IH| |]; constructor; auto.
Qed.

Lemma strip_zeros_len b : len (strip_zeros b) <= len b.
Proof.
  induction b as [|c r IH]; [reflexivity|].
  destruct c; [|reflexivity|reflexivity]. rewrite strip_zeros_cons0, len_cons. lia.
Qed.

(** A canonical string of [n] bytes has a value of at least [256^(n-1)], so
    canonical strings with equal values are equal. *)
Lemma nlz_lower b : bytes_ok b -> no_leading_zero b -> b <> [] -> 256 ^ (len b - 1) <= be_val b.
Proof.
  destruct b as [|c r]; intros Hok Hn Hne; [contradiction|].
  inversion_clear Hok as [|? ? Hc Hr].
  rewrite be_val_cons, len_cons. replace (1 + len r - 1) with (len r) by lia.
  pose proof (be_val_bounds r Hr). pose proof (pow256_pos r).
  unfold no_leading_zero in Hn. cbn in Hn. unfold byte_ok in Hc. nia.
Qed.

Lemma nlz_len_le a b : bytes_ok a -> bytes_ok b -> no_leading_zero a ->
  be_val a <= be_val b -> len a <= len b.
Proof.
  intros Ha Hb Hn Hv. destruct a as [|c r]; [rewrite len_nil; apply len_nonneg|].
  pose proof (nlz_lower _ Ha Hn ltac:(discriminate)) as Hlo.
  pose proof (be_val_bounds b Hb) as Hhi.
  assert (256 ^ (len (c :: r) - 1) < 256 ^ len b) as Hp by lia.
  apply Z.pow_lt_mono_r_iff in Hp; lia || apply len_nonneg.
Qed.

Lemma nlz_val_inj a b : bytes_ok a -> bytes_ok b -> no_leading_zero a -> no_leading_zero b ->
  be_val a = be_val b -> a = b.
Proof.
  intros Ha Hb Na Nb Hv. apply be_val_inj; auto.
  pose proof (nlz_len_le a b Ha Hb Na ltac:(lia)).
  pose proof (nlz_len_le b a Hb Ha Nb ltac:(lia)). unfold len in *. lia.
Qed.

(** [big.Int.Bytes] of a non-negative integer: minimal big-endian bytes. *)
Definition big_bytes (v : Z) : bytes :=
  strip_zeros (be_bytes (Z.to_nat (Z.log2 v / 8 + 1)) v).

Lemma big_bytes_ok v : bytes_ok (big_bytes v).
Proof. apply strip_zeros_ok, be_bytes_ok. Qed.

Lemma big_bytes_nlz v : no_leading_zero (big_bytes v).
Proof. apply strip_zeros_nlz. Qed.

Lemma big_bytes_val v : 0 <= v -> be_val (big_bytes v) = v.
Proof.
  intros H. unfold big_bytes. rewrite strip_zeros_val, be_val_be_bytes.
  pose proof (Z.log2_nonneg v) as Hl.
  rewrite Z2Nat.id by (apply Z.add_nonneg_nonneg; [apply Z.div_pos; lia | lia]).
  apply Z.mod_small. split; [exact H|].
  destruct (Z.eq_dec v 0) as [->|Hv]; [cbn; lia|].
  pose proof (Z.log2_spec v ltac:(lia)) as [_ Hub].
  eapply Z.lt_le_trans; [exact Hub|].
  change 256 with (2 ^ 8). rewrite <- Z.pow_mul_r by (try apply Z.add_nonneg_nonneg; try apply Z.div_pos; lia).
  apply Z.pow_le_mono_r; [lia|].
  pose proof (Z.mul_succ_div_gt (Z.log2 v) 8 ltac:(lia)). lia.
Qed.

Lemma big_bytes_unique b : bytes_ok b -> no_leading_zero b -> big_bytes (be_val b) = b.
Proof.
  intros Hb Hn. apply nlz_val_inj; auto using big_bytes_ok, big_bytes_nlz.
  apply big_bytes_val. apply (be_val_bounds b Hb).
Qed.

Lemma big_bytes_len v n : 0 <= n -> 0 <= v < 256 ^ n -> len (big_bytes v) <= n.
Proof.
  intros Hn Hv. destruct (big_bytes v) as [|c r] eqn:E; [rewrite len_nil; lia|].
  pose proof (nlz_lower (big_bytes v) (big_bytes_ok v) (big_bytes_nlz v)) as Hlo.
  rewrite E in Hlo. specialize (Hlo ltac:(discriminate)).
  rewrite <- E, big_bytes_val in Hlo by lia.
  assert (256 ^ (len (big_bytes v) - 1) < 256 ^ n) as Hp by lia.
  apply Z.pow_lt_mono_r_iff in Hp; [rewrite <- E; lia | lia | lia].
Qed.

#[export] Hint Resolve be_bytes_ok big_bytes_ok big_bytes_nlz strip_zeros_ok len_nonneg : padi.

(** * Slices

    [slice l i j] is Go's [l[i:j]] on indices already known to be in range. *)

Definition slice {A} (l : list A) (i j : Z) : list A :=
  firstn (Z.to_nat (j - i)) (skipn (Z.to_nat i) l).

(** [firstn]/[skipn] at an append boundary. *)
Lemma firstn_len_app {A} (a b : list A) n : n = length a -> firstn n (a ++ b) = a.
Proof. intros ->. rewrite firstn_app, Nat.sub_diag, firstn_all. apply app_nil_r. Qed.

Lemma skipn_len_app {A} (a b : list A) n : n = length a -> skipn n (a ++ b) = b.
Proof. intros ->. rewrite skipn_app, Nat.sub_diag, skipn_all. reflexivity. Qed.

(** Sum of a list of integers. *)
Definition zsum (l : list Z) : Z := fold_right Z.add 0 l.

Lemma zsum_app a b : zsum (a ++ b) = zsum a + zsum b.
Proof. unfold zsum. induction a as [|x a IH]; cbn; [reflexivity|]. rewrite IH. lia. Qed.

Lemma zsum_nonneg l : Forall (fun x => 0 <= x) l -> 0 <= zsum l.
Proof. unfold zsum. induction 1; cbn; lia. Qed.

(** * Bits *)

(** Disjoint bits: or is addition. *)
Lemma lor_add a b : Z.land a b = 0 -> Z.lor a b = a + b.
Proof. intros H. rewrite Z.add_nocarry_lxor by exact H. symmetry. apply Z.lxor_lor, H. Qed.

(** Bits below [n] and a multiple of [2^n] are disjoint. *)
Lemma lor_low_high a b n : 0 <= n -> 0 <= a < 2 ^ n -> Z.lor a (b * 2 ^ n) = a + b * 2 ^ n.
Proof.
  intros Hn Ha. apply lor_add. apply Z.bits_inj'. intros i Hi. rewrite Z.land_spec, Z.bits_0.
  destruct (Z.lt_ge_cases i n).
  - rewrite Z.mul_pow2_bits_low by lia. apply andb_false_r.
  - rewrite <- (Z.mod_small a (2 ^ n)) by exact Ha. rewrite Z.mod_pow2_bits_high by lia. reflexivity.
Qed.

Lemma land_pow2_eqb a n : 0 <= n -> (Z.land a (2 ^ n) =? 0) = negb (Z.testbit a n).
Proof.
  intros Hn. destruct (Z.testbit a n) eqn:E; cbn [negb].
  - apply Z.eqb_neq. intros H. assert (Z.testbit (Z.land a (2 ^ n)) n = false) as Hf
      by (rewrite H; apply Z.bits_0).
    rewrite Z.land_spec, E, Z.pow2_bits_true in Hf by lia. discriminate.
  - apply Z.eqb_eq. apply Z.bits_inj'. intros i Hi. rewrite Z.land_spec, Z.bits_0.
    destruct (Z.eq_dec n i) as [->|]; [rewrite E; reflexivity|].
    rewrite Z.pow2_bits_false by lia. apply andb_false_r.
Qed.
