(* ===== verification/UInt256.v ===== *)
(** The fixed-width 256-bit integer of the EVM (src/uint256/uint256.go).

    [Int] is the four-limb array of the source, least significant limb first;
    [val] reads it as an integer and [wf] says that each limb is a [uint64].
    The Go methods write their result through the receiver [z]; a method whose
    receiver aliases an operand reads limb [i] before writing limb [i], or goes
    through a temporary, so the pure functions below return the value that is
    stored.  [bits.Div64] panics when the quotient overflows, so the division
    family returns an [option]; the theorems show that it is always [Some]. *)

From Stdlib Require Import ZArith Zpow_facts List Lia Bool.
From S2P Require Import Prelude.
Import ListNotations.
Local Open Scope Z_scope.
Local Open Scope go_scope.

Module U256.

(** * The standard library's math/bits *)

Definition Add64 (x y carry : Z) : Z * Z :=
  (wrap64 (x + y + carry), (x + y + carry) / two64).

Definition Sub64 (x y borrow : Z) : Z * Z :=
  (wrap64 (x - y - borrow), if x <? y + borrow then 1 else 0).

Definition Mul64 (x y : Z) : Z * Z := ((x * y) / two64, wrap64 (x * y)).

Definition Div64 (hi lo y : Z) : option (Z * Z) :=
  if y <=? hi then None
  else Some ((hi * two64 + lo) / y, (hi * two64 + lo) mod y).

Definition Len64 (x : Z) : Z := if x =? 0 then 0 else Z.log2 x + 1.

Definition shl64 (x n : Z) : Z := wrap64 (Z.shiftl x n).

Definition not64 (x : Z) : Z := Z.lxor x max_uint64.

(** * The integer *)

Record Int := mkInt { l0 : Z; l1 : Z; l2 : Z; l3 : Z }.

Definition limb (z : Int) (i : Z) : Z :=
  if i =? 0 then l0 z else if i =? 1 then l1 z else if i =? 2 then l2 z else l3 z.

Definition set_limb (z : Int) (i v : Z) : Int :=
  if i =? 0 then mkInt v (l1 z) (l2 z) (l3 z)
  else if i =? 1 then mkInt (l0 z) v (l2 z) (l3 z)
  else if i =? 2 then mkInt (l0 z) (l1 z) v (l3 z)
  else mkInt (l0 z) (l1 z) (l2 z) v.

Definition zero : Int := mkInt 0 0 0 0.
Definition one : Int := mkInt 1 0 0 0.

Definition SetUint64 (v : Z) : Int := mkInt v 0 0 0.

Definition IsZero (z : Int) : bool :=
  Z.lor (Z.lor (Z.lor (l0 z) (l1 z)) (l2 z)) (l3 z) =? 0.

Definition IsUint64 (z : Int) : bool := Z.lor (Z.lor (l1 z) (l2 z)) (l3 z) =? 0.

Definition Uint64WithOverflow (z : Int) : Z * bool := (l0 z, negb (IsUint64 z)).

Fixpoint set_bytes_loop (z : Int) (b : bytes) : Int :=
  match b with
  | [] => z
  | c :: r =>
      let pos := len r in
      set_bytes_loop
        (set_limb z (pos / 8) (Z.lor (limb z (pos / 8)) (shl64 c (8 * (pos mod 8))))) r
  end.

Definition SetBytes (b : bytes) : Int :=
  set_bytes_loop zero (if 32 <? len b then skipn (length b - 32) b else b).

Definition limb_bytes (v : Z) : bytes :=
  map (fun j => wrap8 (Z.shiftr v (8 * j))) [7; 6; 5; 4; 3; 2; 1; 0].

Definition Bytes32 (z : Int) : bytes :=
  limb_bytes (l3 z) ++ limb_bytes (l2 z) ++ limb_bytes (l1 z) ++ limb_bytes (l0 z).

Definition Bytes (z : Int) : bytes := strip_zeros (Bytes32 z).

Definition BitLen (z : Int) : Z :=
  if negb (l3 z =? 0) then 192 + Len64 (l3 z)
  else if negb (l2 z =? 0) then 128 + Len64 (l2 z)
  else if negb (l1 z =? 0) then 64 + Len64 (l1 z)
  else Len64 (l0 z).

Definition ByteLen (z : Int) : Z := (BitLen z + 7) / 8.

Definition Bit (z : Int) (i : Z) : Z :=
  if (i <? 0) || (256 <=? i) then 0
  else Z.land (Z.shiftr (limb z (i / 64)) (i mod 64)) 1.

Definition Sign (z : Int) : Z := if IsZero z then 0 else 1.

Definition Cmp (z x : Int) : Z :=
  if negb (l3 z =? l3 x) then (if l3 z <? l3 x then -1 else 1)
  else if negb (l2 z =? l2 x) then (if l2 z <? l2 x then -1 else 1)
  else if negb (l1 z =? l1 x) then (if l1 z <? l1 x then -1 else 1)
  else if negb (l0 z =? l0 x) then (if l0 z <? l0 x then -1 else 1)
  else 0.

Definition Eq (z x : Int) : bool :=
  (l0 z =? l0 x) && (l1 z =? l1 x) && (l2 z =? l2 x) && (l3 z =? l3 x).

Definition Lt (z x : Int) : bool := Cmp z x <? 0.
Definition Gt (z x : Int) : bool := 0 <? Cmp z x.

Definition IsNegative (z : Int) : bool := negb (Z.land (l3 z) 9223372036854775808 =? 0).

Definition SLt (z x : Int) : bool :=
  if IsNegative z && negb (IsNegative x) then true
  else if negb (IsNegative z) && IsNegative x then false
  else Lt z x.

Definition SGt (z x : Int) : bool :=
  if IsNegative z && negb (IsNegative x) then false
  else if negb (IsNegative z) && IsNegative x then true
  else Gt z x.

Definition AddOverflow (x y : Int) : Int * bool :=
  let (z0, c0) := Add64 (l0 x) (l0 y) 0 in
  let (z1, c1) := Add64 (l1 x) (l1 y) c0 in
  let (z2, c2) := Add64 (l2 x) (l2 y) c1 in
  let (z3, c3) := Add64 (l3 x) (l3 y) c2 in
  (mkInt z0 z1 z2 z3, negb (c3 =? 0)).

Definition Add (x y : Int) : Int :=
  let (z0, c0) := Add64 (l0 x) (l0 y) 0 in
  let (z1, c1) := Add64 (l1 x) (l1 y) c0 in
  let (z2, c2) := Add64 (l2 x) (l2 y) c1 in
  let (z3, _) := Add64 (l3 x) (l3 y) c2 in
  mkInt z0 z1 z2 z3.

Definition SubOverflow (x y : Int) : Int * bool :=
  let (z0, b0) := Sub64 (l0 x) (l0 y) 0 in
  let (z1, b1) := Sub64 (l1 x) (l1 y) b0 in
  let (z2, b2) := Sub64 (l2 x) (l2 y) b1 in
  let (z3, b3) := Sub64 (l3 x) (l3 y) b2 in
  (mkInt z0 z1 z2 z3, negb (b3 =? 0)).

Definition Sub (x y : Int) : Int :=
  let (z0, b0) := Sub64 (l0 x) (l0 y) 0 in
  let (z1, b1) := Sub64 (l1 x) (l1 y) b0 in
  let (z2, b2) := Sub64 (l2 x) (l2 y) b1 in
  let (z3, _) := Sub64 (l3 x) (l3 y) b2 in
  mkInt z0 z1 z2 z3.

Definition Neg (x : Int) : Int := Sub zero x.

Definition Not (x : Int) : Int := mkInt (not64 (l0 x)) (not64 (l1 x)) (not64 (l2 x)) (not64 (l3 x)).

Definition And (x y : Int) : Int :=
  mkInt (Z.land (l0 x) (l0 y)) (Z.land (l1 x) (l1 y)) (Z.land (l2 x) (l2 y)) (Z.land (l3 x) (l3 y)).

Definition Or (x y : Int) : Int :=
  mkInt (Z.lor (l0 x) (l0 y)) (Z.lor (l1 x) (l1 y)) (Z.lor (l2 x) (l2 y)) (Z.lor (l3 x) (l3 y)).

Definition Xor (x y : Int) : Int :=
  mkInt (Z.lxor (l0 x) (l0 y)) (Z.lxor (l1 x) (l1 y)) (Z.lxor (l2 x) (l2 y)) (Z.lxor (l3 x) (l3 y)).

(** [SetBig] and [ToBig]: a [*big.Int] is [None] when nil. *)
Definition SetBig (v : option Z) : Int :=
  match v with
  | None => zero
  | Some v => if v <? 0 then Neg (SetBytes (big_bytes (- v))) else SetBytes (big_bytes v)
  end.

Definition ToBig (z : Int) : Z := be_val (Bytes32 z).

(** ** Multiplication: eight-limb accumulator as a list *)

Definition nth_limb (l : list Z) (i : nat) : Z := nth i l 0.

Fixpoint upd (l : list Z) (i : nat) (v : Z) : list Z :=
  match l, i with
  | [], _ => []
  | _ :: r, O => v :: r
  | x :: r, S j => x :: upd r j v
  end.

(** The inner [for c != 0 && carryPos < 8] loop; [n] is [8 - carryPos]. *)
Fixpoint ripple (n : nat) (out : list Z) (pos : nat) (c : Z) : list Z :=
  match n with
  | O => out
  | S m =>
      if c =? 0 then out
      else let (v, c') := Add64 (nth_limb out pos) 0 c in
           ripple m (upd out pos v) (S pos) c'
  end.

Definition mul_step (x y : Int) (out : list Z) (ij : nat * nat) : list Z :=
  let (i, j) := ij in
  let (hi, lo) := Mul64 (limb x (Z.of_nat i)) (limb y (Z.of_nat j)) in
  let p := (i + j)%nat in
  let (v0, c0) := Add64 (nth_limb out p) lo 0 in
  let out1 := upd out p v0 in
  let (hi', _) := Add64 hi 0 c0 in
  let (v1, c1) := Add64 (nth_limb out1 (S p)) hi' 0 in
  let out2 := upd out1 (S p) v1 in
  ripple (8 - (p + 2)) out2 (p + 2) c1.

Definition mul_indices : list (nat * nat) :=
  list_prod [0; 1; 2; 3]%nat [0; 1; 2; 3]%nat.

Definition umul (x y : Int) : list Z :=
  fold_left (mul_step x y) mul_indices [0; 0; 0; 0; 0; 0; 0; 0].

Definition low_limbs (p : list Z) : Int :=
  mkInt (nth_limb p 0) (nth_limb p 1) (nth_limb p 2) (nth_limb p 3).

Definition Mul (x y : Int) : Int := low_limbs (umul x y).

Definition MulOverflow (x y : Int) : Int * bool :=
  let p := umul x y in
  (low_limbs p,
   negb (Z.lor (Z.lor (Z.lor (nth_limb p 4) (nth_limb p 5)) (nth_limb p 6)) (nth_limb p 7) =? 0)).

(** ** Shifts *)

Definition lsh_limb (x : Int) (limbShift bitShift i : Z) : Z :=
  let src := i - limbShift in
  if src <? 0 then 0
  else
    let v := shl64 (limb x src) bitShift in
    if (0 <? bitShift) && (0 <? src)
    then Z.lor v (Z.shiftr (limb x (src - 1)) (64 - bitShift)) else v.

Definition Lsh (x : Int) (n : Z) : Int :=
  if 256 <=? n then zero
  else
    let limbShift := n / 64 in
    let bitShift := n mod 64 in
    mkInt (lsh_limb x limbShift bitShift 0) (lsh_limb x limbShift bitShift 1)
          (lsh_limb x limbShift bitShift 2) (lsh_limb x limbShift bitShift 3).

Definition rsh_limb (x : Int) (limbShift bitShift i : Z) : Z :=
  let src := i + limbShift in
  if 4 <=? src then 0
  else
    let v := Z.shiftr (limb x src) bitShift in
    if (0 <? bitShift) && (src + 1 <? 4)
    then Z.lor v (shl64 (limb x (src + 1)) (64 - bitShift)) else v.

Definition Rsh (x : Int) (n : Z) : Int :=
  if 256 <=? n then zero
  else
    let limbShift := n / 64 in
    let bitShift := n mod 64 in
    mkInt (rsh_limb x limbShift bitShift 0) (rsh_limb x limbShift bitShift 1)
          (rsh_limb x limbShift bitShift 2) (rsh_limb x limbShift bitShift 3).

Definition SetAllOnes : Int := mkInt max_uint64 max_uint64 max_uint64 max_uint64.

Definition SRsh (x : Int) (n : Z) : Int :=
  let negative := IsNegative x in
  if 256 <=? n then (if negative then SetAllOnes else zero)
  else
    let z := Rsh x n in
    if negative && (0 <? n) then Or z (Lsh SetAllOnes (256 - n)) else z.

(** ** Division *)

Definition or_limb (z : Int) (i v : Z) : Int := set_limb z i (Z.lor (limb z i) v).

(** The shift-and-subtract loop over bits [k-1 .. 0]. *)
Fixpoint div_loop (x y : Int) (k : nat) (q rem : Int) : Int * Int :=
  match k with
  | O => (q, rem)
  | S i =>
      let iz := Z.of_nat i in
      let rem := Lsh rem 1 in
      let rem := or_limb rem 0 (Bit x iz) in
      if 0 <=? Cmp rem y
      then div_loop x y i (or_limb q (iz / 64) (shl64 1 (iz mod 64))) (Sub rem y)
      else div_loop x y i q rem
  end.

Definition divMod (x y : Int) : option (Int * Int) :=
  if IsZero y then Some (zero, zero)
  else if Cmp x y <? 0 then Some (zero, x)
  else if IsUint64 y then
    let d := l0 y in
    let? (q3, r3) := Div64 0 (l3 x) d in
    let? (q2, r2) := Div64 r3 (l2 x) d in
    let? (q1, r1) := Div64 r2 (l1 x) d in
    let? (q0, r0) := Div64 r1 (l0 x) d in
    Some (mkInt q0 q1 q2 q3, SetUint64 r0)
  else Some (div_loop x y (Z.to_nat (BitLen x)) zero zero).

Definition Div (x y : Int) : option Int := let? (q, _) := divMod x y in Some q.
Definition Mod (x y : Int) : option Int := let? (_, r) := divMod x y in Some r.

Definition absOf (x : Int) : Int := if IsNegative x then Neg x else x.

Definition SDiv (x y : Int) : option Int :=
  if IsZero y then Some zero
  else
    let negative := xorb (IsNegative x) (IsNegative y) in
    let? (q, _) := divMod (absOf x) (absOf y) in
    Some (if negative then Neg q else q).

Definition SMod (x y : Int) : option Int :=
  if IsZero y then Some zero
  else
    let negative := IsNegative x in
    let? (_, r) := divMod (absOf x) (absOf y) in
    Some (if negative then Neg r else r).

Definition AddMod (x y m : Int) : option Int :=
  if IsZero m then Some zero
  else
    let? xr := Mod x m in
    let? yr := Mod y m in
    let (sum, overflow) := AddOverflow xr yr in
    Some (if overflow || (0 <=? Cmp sum m) then Sub sum m else sum).

(** The reduction of the 512-bit product [p], over bits [k-1 .. 0]. *)
Fixpoint mulmod_loop (p : list Z) (m : Int) (k : nat) (rem : Int) : Int :=
  match k with
  | O => rem
  | S i =>
      let top := negb (Z.land (l3 rem) 9223372036854775808 =? 0) in
      let rem := Lsh rem 1 in
      let rem := or_limb rem 0 (Z.land (Z.shiftr (nth_limb p (i / 64)) (Z.of_nat (i mod 64))) 1) in
      mulmod_loop p m i (if top || (0 <=? Cmp rem m) then Sub rem m else rem)
  end.

Definition MulMod (x y m : Int) : Int :=
  if IsZero m then zero else mulmod_loop (umul x y) m 512 zero.

(** [for i := 0; i < exponent.BitLen(); i++]; [k] iterations are left. *)
Fixpoint exp_loop (exponent : Int) (k : nat) (i : Z) (result b : Int) : Int :=
  match k with
  | O => result
  | S k' =>
      exp_loop exponent k' (i + 1) (if Bit exponent i =? 1 then Mul result b else result) (Mul b b)
  end.

Definition Exp (base exponent : Int) : Int :=
  exp_loop exponent (Z.to_nat (BitLen exponent)) 0 one base.

Definition Byte (x n : Int) : Int :=
  if negb (IsUint64 n) || (32 <=? l0 n) then zero
  else SetUint64 (nth (Z.to_nat (l0 n)) (Bytes32 x) 0).

Definition SignExtend (n x : Int) : Int :=
  if negb (IsUint64 n) || (31 <=? l0 n) then x
  else
    let signBit := l0 n * 8 + 7 in
    let mask := Lsh SetAllOnes (signBit + 1) in
    if Bit x signBit =? 1 then Or x mask else And x (Not mask).

(** * The value of an integer *)

Definition two128 : Z := 340282366920938463463374607431768211456.
Definition two192 : Z := 6277101735386680763835789423207666416102355444464034512896.
Definition two255 : Z := 57896044618658097711785492504343953926634992332820282019728792003956564819968.
Definition two256 : Z := 115792089237316195423570985008687907853269984665640564039457584007913129639936.

Definition val (z : Int) : Z := l0 z + l1 z * two64 + l2 z * two128 + l3 z * two192.

Definition wf (z : Int) : Prop := u64_ok (l0 z) /\ u64_ok (l1 z) /\ u64_ok (l2 z) /\ u64_ok (l3 z).

(** The signed reading of a 256-bit value. *)
Definition signed (v : Z) : Z := if v <? two255 then v else v - two256.

Definition is_of (z : Int) (v : Z) : Prop := wf z /\ val z = v mod two256.

Ltac uconst := unfold two64, two128, two192, two255, two256, max_uint64 in *.
Ltac ulia := uconst; lia.
Ltac dint x := let a := fresh x "0" in let b := fresh x "1" in let c := fresh x "2" in
  let d := fresh x "3" in destruct x as [a b c d].

Lemma val_bounds z : wf z -> 0 <= val z < two256.
Proof. unfold wf, val, u64_ok. ulia. Qed.

Lemma val_inj x y : wf x -> wf y -> val x = val y -> x = y.
Proof.
  dint x; dint y. unfold wf, val, u64_ok. cbn [l0 l1 l2 l3]. uconst. intros Hx Hy H.
  f_equal; lia.
Qed.

Lemma val_mod z : wf z -> val z mod two256 = val z.
Proof. intros H. apply Z.mod_small, val_bounds, H. Qed.

Lemma wf_zero : wf zero.
Proof. unfold wf, u64_ok; cbn; ulia. Qed.

Lemma val_zero : val zero = 0.
Proof. reflexivity. Qed.

Lemma wf_one : wf one.
Proof. unfold wf, u64_ok; cbn; ulia. Qed.

Lemma val_SetUint64 v : val (SetUint64 v) = v.
Proof. unfold val, SetUint64; cbn [l0 l1 l2 l3]. lia. Qed.

Lemma wf_SetUint64 v : u64_ok v -> wf (SetUint64 v).
Proof. unfold wf, SetUint64, u64_ok; cbn [l0 l1 l2 l3]. ulia. Qed.

#[export] Hint Resolve wf_zero wf_one val_bounds wf_SetUint64 : padi.

(** ** Addition and subtraction *)

Lemma Add64_spec x y c : u64_ok x -> u64_ok y -> 0 <= c < two64 ->
  let (d, c') := Add64 x y c in
  u64_ok d /\ 0 <= c' /\ c' * two64 <= x + y + c /\ d = x + y + c - c' * two64.
Proof.
  unfold Add64, wrap64, u64_ok. intros Hx Hy Hc. cbv beta iota.
  pose proof (Z.div_mod (x + y + c) two64 ltac:(discriminate)).
  pose proof (Z.mod_pos_bound (x + y + c) two64 ltac:(reflexivity)). ulia.
Qed.

(** [add_step x y c as d c'] replaces [Add64 x y c] by its specification. *)
Tactic Notation "add_step" constr(x) constr(y) constr(c) "as" ident(d) ident(c') :=
  let H := fresh "H" in
  pose proof (Add64_spec x y c ltac:(tauto) ltac:(tauto)
    ltac:(unfold u64_ok in *; ulia)) as H;
  destruct (Add64 x y c) as [d c']; destruct H as (? & ? & ? & ?).

Lemma AddOverflow_spec x y : wf x -> wf y ->
  wf (fst (AddOverflow x y)) /\ val (fst (AddOverflow x y)) = (val x + val y) mod two256 /\
  snd (AddOverflow x y) = (two256 <=? val x + val y).
Proof.
  dint x; dint y. unfold wf, AddOverflow. cbn [l0 l1 l2 l3]. intros Hx Hy.
  add_step x0 y0 0 as d0 c0. add_step x1 y1 c0 as d1 c1.
  add_step x2 y2 c1 as d2 c2. add_step x3 y3 c2 as d3 c3.
  cbn [fst snd l0 l1 l2 l3]. unfold val, u64_ok in *; cbn [l0 l1 l2 l3].
  split; [ulia|]. split.
  - apply Z.mod_unique with (q := c3); ulia.
  - apply eq_true_iff_eq. rewrite negb_true_iff, Z.eqb_neq, Z.leb_le. ulia.
Qed.

Lemma Add_AddOverflow x y : Add x y = fst (AddOverflow x y).
Proof. reflexivity. Qed.

Lemma Add_spec x y : wf x -> wf y -> wf (Add x y) /\ val (Add x y) = (val x + val y) mod two256.
Proof. intros Hx Hy. rewrite Add_AddOverflow. pose proof (AddOverflow_spec x y Hx Hy). tauto. Qed.

(** A borrow is one exactly when the difference is negative. *)
Lemma Sub64_spec x y b : u64_ok x -> u64_ok y -> 0 <= b <= 1 ->
  let (d, b') := Sub64 x y b in u64_ok d /\ 0 <= b' <= 1 /\ d = x - y - b + b' * two64.
Proof.
  unfold Sub64, wrap64, u64_ok. intros Hx Hy Hb. cbv beta iota.
  destruct (Z.ltb_spec x (y + b)).
  - rewrite <- (Z.mod_unique (x - y - b) two64 (-1) (x - y - b + two64)); ulia.
  - rewrite Z.mod_small by ulia. ulia.
Qed.

Tactic Notation "sub_step" constr(x) constr(y) constr(c) "as" ident(d) ident(c') :=
  let H := fresh "H" in
  pose proof (Sub64_spec x y c ltac:(tauto) ltac:(tauto) ltac:(lia)) as H;
  destruct (Sub64 x y c) as [d c']; destruct H as (? & ? & ?).

Lemma SubOverflow_spec x y : wf x -> wf y ->
  wf (fst (SubOverflow x y)) /\ val (fst (SubOverflow x y)) = (val x - val y) mod two256 /\
  snd (SubOverflow x y) = (val x <? val y).
Proof.
  dint x; dint y. unfold wf, SubOverflow. cbn [l0 l1 l2 l3]. intros Hx Hy.
  sub_step x0 y0 0 as d0 b0. sub_step x1 y1 b0 as d1 b1.
  sub_step x2 y2 b1 as d2 b2. sub_step x3 y3 b2 as d3 b3.
  cbn [fst snd l0 l1 l2 l3]. unfold val, u64_ok in *; cbn [l0 l1 l2 l3].
  split; [ulia|]. split.
  - apply Z.mod_unique with (q := - b3); ulia.
  - apply eq_true_iff_eq. rewrite negb_true_iff, Z.eqb_neq, Z.ltb_lt. ulia.
Qed.

Lemma Sub_SubOverflow x y : Sub x y = fst (SubOverflow x y).
Proof.
  unfold Sub, SubOverflow. repeat destruct (Sub64 _ _ _). reflexivity.
Qed.

Lemma Sub_spec x y : wf x -> wf y -> wf (Sub x y) /\ val (Sub x y) = (val x - val y) mod two256.
Proof. intros Hx Hy. rewrite Sub_SubOverflow. pose proof (SubOverflow_spec x y Hx Hy). tauto. Qed.

Lemma Neg_spec x : wf x -> wf (Neg x) /\ val (Neg x) = (- val x) mod two256.
Proof. intros Hx. unfold Neg. pose proof (Sub_spec zero x wf_zero Hx) as H. rewrite val_zero in H. exact H. Qed.

(** ** Comparisons *)

Lemma Cmp_spec x y : wf x -> wf y ->
  Cmp x y = match val x ?= val y with Datatypes.Lt => -1 | Datatypes.Eq => 0 | Datatypes.Gt => 1 end.
Proof.
  dint x; dint y. unfold wf, Cmp, val, u64_ok; cbn [l0 l1 l2 l3]. intros Hx Hy.
  set (a := x0 + _ + _ + _). set (b := y0 + _ + _ + _).
  repeat (bcase; try (destruct (Z.compare_spec a b); unfold a, b in *; ulia)).
Qed.

Lemma Cmp_ltb x y : wf x -> wf y -> (Cmp x y <? 0) = (val x <? val y).
Proof.
  intros Hx Hy. rewrite Cmp_spec by assumption. unfold Z.ltb at 2.
  destruct (val x ?= val y); reflexivity.
Qed.

Lemma Cmp_geb x y : wf x -> wf y -> (0 <=? Cmp x y) = (val y <=? val x).
Proof.
  intros Hx Hy. rewrite Cmp_spec by assumption. unfold Z.leb at 2.
  rewrite (Z.compare_antisym (val x) (val y)). destruct (val x ?= val y); reflexivity.
Qed.

Lemma lor_eq0 a b : 0 <= a -> 0 <= b -> (Z.lor a b = 0 <-> a = 0 /\ b = 0).
Proof. intros _ _. apply Z.lor_eq_0_iff. Qed.

Lemma IsZero_spec x : wf x -> IsZero x = (val x =? 0).
Proof.
  dint x. unfold wf, IsZero, val, u64_ok; cbn [l0 l1 l2 l3]. intros Hx.
  apply eq_true_iff_eq. rewrite !Z.eqb_eq, !Z.lor_eq_0_iff. ulia.
Qed.

Lemma IsUint64_spec x : wf x -> IsUint64 x = (val x <? two64).
Proof.
  dint x. unfold wf, IsUint64, val, u64_ok; cbn [l0 l1 l2 l3]. intros Hx.
  apply eq_true_iff_eq. rewrite Z.eqb_eq, Z.ltb_lt, !Z.lor_eq_0_iff. ulia.
Qed.

Lemma IsUint64_l0 x : wf x -> IsUint64 x = true -> l0 x = val x.
Proof.
  dint x. unfold wf, IsUint64, val, u64_ok; cbn [l0 l1 l2 l3]. intros Hx.
  rewrite Z.eqb_eq, !Z.lor_eq_0_iff. ulia.
Qed.

(** ** Bits *)

Lemma u64_bits a : u64_ok a -> forall i, 64 <= i -> Z.testbit a i = false.
Proof.
  unfold u64_ok. intros Ha i Hi. destruct (Z.eq_dec a 0) as [->|]; [apply Z.bits_0|].
  apply Z.bits_above_log2; [lia|].
  assert (Z.log2 a < 64); [|lia]. apply Z.log2_lt_pow2; [lia|]. rewrite <- two64_pow. lia.
Qed.

Lemma u64_of_bits a : 0 <= a -> (forall i, 64 <= i -> Z.testbit a i = false) -> u64_ok a.
Proof.
  intros Ha H. unfold u64_ok. split; [exact Ha|].
  assert (a = a mod two64) as ->.
  { apply Z.bits_inj'. intros i Hi. rewrite two64_pow.
    destruct (Z.lt_ge_cases i 64).
    - rewrite Z.mod_pow2_bits_low by lia. reflexivity.
    - rewrite Z.mod_pow2_bits_high by lia. apply H. lia. }
  apply Z.mod_pos_bound. reflexivity.
Qed.

Lemma u64_land a b : u64_ok a -> u64_ok b -> u64_ok (Z.land a b).
Proof.
  intros Ha Hb. apply u64_of_bits.
  - apply Z.land_nonneg. left. apply Ha.
  - intros i Hi. rewrite Z.land_spec, (u64_bits a) by assumption. reflexivity.
Qed.

Lemma u64_lor a b : u64_ok a -> u64_ok b -> u64_ok (Z.lor a b).
Proof.
  intros Ha Hb. apply u64_of_bits.
  - apply Z.lor_nonneg. split; [apply Ha | apply Hb].
  - intros i Hi. rewrite Z.lor_spec, (u64_bits a), (u64_bits b) by assumption. reflexivity.
Qed.

Lemma u64_lxor a b : u64_ok a -> u64_ok b -> u64_ok (Z.lxor a b).
Proof.
  intros Ha Hb. apply u64_of_bits.
  - apply Z.lxor_nonneg. split; intros _; [apply Hb | apply Ha].
  - intros i Hi. rewrite Z.lxor_spec, (u64_bits a), (u64_bits b) by assumption. reflexivity.
Qed.

Lemma u64_shiftr a n : u64_ok a -> 0 <= n -> u64_ok (Z.shiftr a n).
Proof.
  intros Ha Hn. apply u64_of_bits.
  - apply Z.shiftr_nonneg. apply Ha.
  - intros i Hi. rewrite Z.shiftr_spec by lia. apply (u64_bits a Ha). lia.
Qed.

Lemma u64_shl64 a n : u64_ok (shl64 a n).
Proof. apply wrap64_ok. Qed.

Lemma u64_max : u64_ok max_uint64.
Proof. unfold u64_ok. ulia. Qed.

#[export] Hint Resolve u64_land u64_lor u64_lxor u64_shiftr u64_shl64 u64_max : padi.

(** A bit of [a + b * 2^n], for [a] below [2^n]. *)
Lemma testbit_split n a b i : 0 <= n -> 0 <= a < 2 ^ n -> 0 <= i ->
  Z.testbit (a + b * 2 ^ n) i = if i <? n then Z.testbit a i else Z.testbit b (i - n).
Proof.
  intros Hn Ha Hi. assert (0 < 2 ^ n) by (apply Z.pow_pos_nonneg; lia). bcase.
  - rewrite <- (Z.mod_pow2_bits_low _ n) by lia.
    rewrite Z.mod_add, Z.mod_small by lia. reflexivity.
  - replace i with (i - n + n) at 1 by lia. rewrite <- Z.div_pow2_bits by lia.
    rewrite Z.div_add, Z.div_small by lia. reflexivity.
Qed.

Lemma testbit_limb z i : wf z -> 0 <= i < 256 ->
  Z.testbit (val z) i = Z.testbit (limb z (i / 64)) (i mod 64).
Proof.
  dint z. unfold wf, val, limb; cbn [l0 l1 l2 l3]. intros (H0 & H1 & H2 & H3) Hi.
  unfold u64_ok in *.
  assert (z0 + z1 * two64 + z2 * two128 + z3 * two192
          = z0 + (z1 + (z2 + z3 * 2 ^ 64) * 2 ^ 64) * 2 ^ 64) as -> by (rewrite <- two64_pow; ulia).
  rewrite !two64_pow in *.
  pose proof (Z.div_mod i 64 ltac:(lia)). pose proof (Z.mod_pos_bound i 64 ltac:(lia)).
  rewrite (testbit_split 64) by lia. destruct (Z.ltb_spec i 64).
  { replace (i / 64) with 0 in * by lia. cbn [Z.eqb]. f_equal. lia. }
  rewrite (testbit_split 64) by lia. destruct (Z.ltb_spec (i - 64) 64).
  { replace (i / 64) with 1 in * by lia. cbn. f_equal. lia. }
  rewrite (testbit_split 64) by lia. destruct (Z.ltb_spec (i - 64 - 64) 64).
  { replace (i / 64) with 2 in * by lia. cbn. f_equal. lia. }
  replace (i / 64) with 3 in * by lia. cbn. f_equal. lia.
Qed.

Lemma testbit_high z i : wf z -> 256 <= i -> Z.testbit (val z) i = false.
Proof.
  intros Hz Hi. pose proof (val_bounds z Hz) as Hb.
  destruct (Z.eq_dec (val z) 0) as [->|]; [apply Z.bits_0|].
  apply Z.bits_above_log2; [lia|].
  assert (Z.log2 (val z) < 256); [|lia]. apply Z.log2_lt_pow2; [lia|]. exact (proj2 Hb).
Qed.

Lemma limb_ok z i : wf z -> u64_ok (limb z i).
Proof. unfold wf, limb. intros. repeat bcase; tauto. Qed.

(** Two integers are equal when their bits are. *)
Lemma val_bits_inj z v : wf z -> 0 <= v < two256 ->
  (forall i, 0 <= i < 256 -> Z.testbit (limb z (i / 64)) (i mod 64) = Z.testbit v i) -> val z = v.
Proof.
  intros Hz Hv H. rewrite <- (Z.mod_small v two256 Hv).
  rewrite <- (Z.mod_small (val z) two256) by (apply val_bounds; assumption).
  change two256 with (2 ^ 256). apply Z.bits_inj'. intros i Hi.
  destruct (Z.lt_ge_cases i 256).
  - rewrite !Z.mod_pow2_bits_low by lia. rewrite testbit_limb by (auto; lia). apply H. lia.
  - rewrite !Z.mod_pow2_bits_high by lia. reflexivity.
Qed.

Lemma index_cases i : 0 <= i < 256 ->
  (i / 64 = 0 \/ i / 64 = 1 \/ i / 64 = 2 \/ i / 64 = 3) /\ 0 <= i mod 64 < 64.
Proof.
  intros Hi. pose proof (Z.div_mod i 64 ltac:(lia)).
  pose proof (Z.mod_pos_bound i 64 ltac:(lia)). lia.
Qed.

(** A limbwise operator of bitwise operator [f] is [f] on the value. *)
Lemma map2_limb (f : Z -> Z -> Z) (g : bool -> bool -> bool) x y z :
  (forall a b i, Z.testbit (f a b) i = g (Z.testbit a i) (Z.testbit b i)) ->
  (forall a b, u64_ok a -> u64_ok b -> u64_ok (f a b)) ->
  (forall a b, 0 <= a -> 0 <= b -> 0 <= f a b) -> g false false = false ->
  wf x -> wf y ->
  z = mkInt (f (l0 x) (l0 y)) (f (l1 x) (l1 y)) (f (l2 x) (l2 y)) (f (l3 x) (l3 y)) ->
  wf z /\ val z = f (val x) (val y).
Proof.
  intros Hf Hu Hn Hg Hx Hy ->. pose proof (val_bounds x Hx). pose proof (val_bounds y Hy).
  assert (wf (mkInt (f (l0 x) (l0 y)) (f (l1 x) (l1 y)) (f (l2 x) (l2 y)) (f (l3 x) (l3 y)))) as Hz.
  { destruct Hx as (? & ? & ? & ?), Hy as (? & ? & ? & ?).
    unfold wf; cbn [l0 l1 l2 l3]; auto. }
  split; [exact Hz|]. apply Z.bits_inj'. intros i Hi.
  destruct (Z.lt_ge_cases i 256) as [Hlt|Hge].
  - rewrite Hf, !testbit_limb by (auto; lia).
    destruct (index_cases i ltac:(lia)) as [[E|[E|[E|E]]] _]; rewrite E; cbn [limb Z.eqb]; apply Hf.
  - rewrite Hf, !testbit_high by (auto; lia). auto.
Qed.

Lemma And_spec x y : wf x -> wf y -> wf (And x y) /\ val (And x y) = Z.land (val x) (val y).
Proof.
  intros Hx Hy. apply (map2_limb Z.land andb x y); auto using u64_land.
  - apply Z.land_spec.
  - intros. apply Z.land_nonneg. auto.
Qed.

Lemma Or_spec x y : wf x -> wf y -> wf (Or x y) /\ val (Or x y) = Z.lor (val x) (val y).
Proof.
  intros Hx Hy. apply (map2_limb Z.lor orb x y); auto using u64_lor.
  - apply Z.lor_spec.
  - intros. apply Z.lor_nonneg. auto.
Qed.

Lemma Xor_spec x y : wf x -> wf y -> wf (Xor x y) /\ val (Xor x y) = Z.lxor (val x) (val y).
Proof.
  intros Hx Hy. apply (map2_limb Z.lxor xorb x y); auto using u64_lxor.
  - apply Z.lxor_spec.
  - intros. apply Z.lxor_nonneg. tauto.
Qed.

Lemma wf_SetAllOnes : wf SetAllOnes.
Proof. unfold wf, SetAllOnes; cbn. auto using u64_max. Qed.

Lemma Not_Xor x : Not x = Xor x SetAllOnes.
Proof. reflexivity. Qed.

Lemma not64_spec x : u64_ok x -> not64 x = max_uint64 - x.
Proof.
  intros Hx. unfold not64. apply Z.bits_inj'. intros i Hi.
  assert (max_uint64 - x = Z.lnot x + 1 * 2 ^ 64) as ->
    by (unfold Z.lnot; rewrite <- two64_pow; ulia).
  rewrite Z.lxor_spec. change max_uint64 with (Z.ones 64).
  destruct (Z.lt_ge_cases i 64).
  - rewrite <- (Z.mod_pow2_bits_low (Z.lnot x + _) 64) by lia.
    rewrite Z.mod_add by lia. rewrite Z.mod_pow2_bits_low by lia.
    rewrite Z.lnot_spec, Z.ones_spec_low by lia. apply xorb_true_r.
  - rewrite u64_bits, Z.ones_spec_high by (auto; lia).
    symmetry. apply u64_bits; [|lia]. unfold u64_ok, Z.lnot in *. rewrite <- two64_pow. ulia.
Qed.

Lemma Not_spec x : wf x -> wf (Not x) /\ val (Not x) = two256 - 1 - val x.
Proof.
  intros Hx. split; [rewrite Not_Xor; apply Xor_spec; auto using wf_SetAllOnes|].
  dint x. destruct Hx as (? & ? & ? & ?). cbn [l0 l1 l2 l3] in *.
  unfold Not, val; cbn [l0 l1 l2 l3]. rewrite !not64_spec by assumption. ulia.
Qed.

Lemma land_1_testbit a n : 0 <= n -> Z.land (Z.shiftr a n) 1 = Z.b2z (Z.testbit a n).
Proof.
  intros Hn. change 1 with (Z.ones 1). rewrite Z.land_ones by lia.
  rewrite Z.shiftr_div_pow2 by lia. change (2 ^ 1) with 2.
  symmetry. apply Z.testbit_spec'. lia.
Qed.

Lemma Bit_spec z i : wf z -> 0 <= i -> Bit z i = Z.b2z (Z.testbit (val z) i).
Proof.
  intros Hz Hi. unfold Bit. destruct (Z.ltb_spec i 0); [lia|].
  destruct (Z.leb_spec 256 i); cbn [orb].
  - rewrite testbit_high by assumption. reflexivity.
  - rewrite land_1_testbit, testbit_limb by (auto; try apply Z.mod_pos_bound; lia). reflexivity.
Qed.

(** ** Shifts *)

Lemma testbit_top a n : 0 <= n -> 0 <= a < 2 ^ (n + 1) -> Z.testbit a n = (2 ^ n <=? a).
Proof.
  intros Hn Ha. rewrite Z.pow_add_r in Ha by lia.
  assert (0 < 2 ^ n) by (apply Z.pow_pos_nonneg; lia).
  rewrite Z.testbit_eqb by lia. destruct (Z.leb_spec (2 ^ n) a).
  - rewrite <- (Z.div_unique a (2 ^ n) 1 (a - 2 ^ n)) by lia. reflexivity.
  - rewrite Z.div_small by lia. reflexivity.
Qed.

Lemma IsNegative_testbit z : IsNegative z = Z.testbit (l3 z) 63.
Proof.
  unfold IsNegative. change 9223372036854775808 with (2 ^ 63).
  rewrite land_pow2_eqb by lia. apply negb_involutive.
Qed.

Lemma IsNegative_spec z : wf z -> IsNegative z = (two255 <=? val z).
Proof.
  intros Hz. rewrite IsNegative_testbit. change (l3 z) with (limb z (255 / 64)).
  change 63 with (255 mod 64). rewrite <- testbit_limb by (auto; lia).
  apply testbit_top; [lia|]. apply (val_bounds z Hz).
Qed.

Lemma shl64_bits a b r : 0 <= r -> 0 <= b -> Z.testbit (shl64 a b) r = (r <? 64) && Z.testbit a (r - b).
Proof.
  intros Hr Hb. unfold shl64, wrap64. rewrite two64_pow. destruct (Z.ltb_spec r 64).
  - rewrite Z.mod_pow2_bits_low, Z.shiftl_spec by lia. reflexivity.
  - rewrite Z.mod_pow2_bits_high by lia. reflexivity.
Qed.

(** Splitting a bit index: [q * 64 + r] has limb [q] and offset [r]. *)
Lemma split64 q r i : i = q * 64 + r -> 0 <= r < 64 -> i / 64 = q /\ i mod 64 = r.
Proof.
  intros -> Hr. rewrite Z.div_add_l, Z.div_small by lia.
  rewrite (Z.add_comm (q * 64) r), Z.mod_add, Z.mod_small by lia. lia.
Qed.

Lemma testbit_at z q r i : wf z -> i = q * 64 + r -> 0 <= r < 64 -> 0 <= q < 4 ->
  Z.testbit (val z) i = Z.testbit (limb z q) r.
Proof.
  intros Hz E Hr Hq. destruct (split64 q r i E Hr) as [E1 E2].
  rewrite testbit_limb by (auto; lia). rewrite E1, E2. reflexivity.
Qed.

Lemma limb_mk (f : Z -> Z) a : 0 <= a < 4 -> limb (mkInt (f 0) (f 1) (f 2) (f 3)) a = f a.
Proof.
  intros Ha. assert (a = 0 \/ a = 1 \/ a = 2 \/ a = 3) as [-> | [-> | [-> | ->]]] by lia; reflexivity.
Qed.

Lemma lsh_limb_ok x s b i : wf x -> 0 <= b < 64 -> u64_ok (lsh_limb x s b i).
Proof.
  intros Hx Hb. unfold lsh_limb. bcase; [unfold u64_ok; ulia|].
  bcase; [apply u64_lor; [|apply u64_shiftr; [apply limb_ok, Hx | lia]]|]; apply u64_shl64.
Qed.

Lemma lsh_limb_bits x s b a r : wf x -> 0 <= s -> 0 <= b < 64 -> 0 <= a < 4 -> 0 <= r < 64 ->
  Z.testbit (lsh_limb x s b a) r = Z.testbit (val x) (a * 64 + r - (s * 64 + b)).
Proof.
  intros Hx Hs Hb Ha Hr. unfold lsh_limb.
  destruct (Z.ltb_spec (a - s) 0).
  { rewrite Z.bits_0, (Z.testbit_neg_r (val x)) by lia. reflexivity. }
  assert (r < b -> 0 < a - s ->
    Z.testbit (val x) (a * 64 + r - (s * 64 + b)) = Z.testbit (limb x (a - s - 1)) (r + (64 - b))) as Hlow
    by (intros; apply testbit_at; auto; lia).
  assert (b <= r -> Z.testbit (val x) (a * 64 + r - (s * 64 + b)) = Z.testbit (limb x (a - s)) (r - b))
    as Hhigh by (intros; apply testbit_at; auto; lia).
  destruct (Z.lt_ge_cases r b) as [Hrb|Hrb].
  - destruct (Z.ltb_spec 0 b); [|lia]. destruct (Z.ltb_spec 0 (a - s)); cbn [andb].
    + rewrite Z.lor_spec, shl64_bits, (Z.testbit_neg_r _ (r - b)), andb_false_r by lia.
      rewrite Z.shiftr_spec, Hlow by lia. reflexivity.
    + rewrite shl64_bits, !(Z.testbit_neg_r _ _) by lia. apply andb_false_r.
  - rewrite Hhigh by lia. bcase.
    + rewrite Z.lor_spec, shl64_bits by lia. destruct (Z.ltb_spec r 64); [|lia].
      rewrite Z.shiftr_spec, (u64_bits (limb x (a - s - 1))) by (try apply limb_ok; auto; lia).
      apply orb_false_r.
    + rewrite shl64_bits by lia. destruct (Z.ltb_spec r 64); [reflexivity | lia].
Qed.

Lemma Lsh_spec x n : wf x -> 0 <= n -> wf (Lsh x n) /\ val (Lsh x n) = (val x * 2 ^ n) mod two256.
Proof.
  intros Hx Hn. unfold Lsh. destruct (Z.leb_spec 256 n).
  { split; [apply wf_zero|]. rewrite val_zero. replace n with (256 + (n - 256)) by lia.
    rewrite Z.pow_add_r by lia. change (2 ^ 256) with two256.
    rewrite Z.mul_assoc, (Z.mul_comm _ two256), <- Z.mul_assoc, Z.mul_comm, Z.mod_mul by discriminate.
    reflexivity. }
  destruct (index_cases n ltac:(lia)) as [Hs Hb]. pose proof (Z.div_mod n 64 ltac:(lia)) as Hd.
  assert (wf (mkInt (lsh_limb x (n / 64) (n mod 64) 0) (lsh_limb x (n / 64) (n mod 64) 1)
    (lsh_limb x (n / 64) (n mod 64) 2) (lsh_limb x (n / 64) (n mod 64) 3))) as Hz
    by (unfold wf; cbn [l0 l1 l2 l3]; auto using lsh_limb_ok).
  split; [exact Hz|]. apply val_bits_inj; [exact Hz | apply Z.mod_pos_bound; reflexivity|].
  intros i Hi. rewrite (limb_mk (lsh_limb x (n / 64) (n mod 64))) by (destruct (index_cases i Hi); lia).
  destruct (index_cases i Hi) as [Hq Hr]. rewrite lsh_limb_bits by (auto; lia).
  change two256 with (2 ^ 256). rewrite Z.mod_pow2_bits_low, Z.mul_pow2_bits by lia.
  f_equal. pose proof (Z.div_mod i 64 ltac:(lia)). lia.
Qed.

Lemma rsh_limb_ok x s b i : wf x -> 0 <= b < 64 -> u64_ok (rsh_limb x s b i).
Proof.
  intros Hx Hb. unfold rsh_limb. bcase; [unfold u64_ok; ulia|].
  bcase; [apply u64_lor; [|apply u64_shl64]|]; apply u64_shiftr; try apply limb_ok; auto; lia.
Qed.

Lemma rsh_limb_bits x s b a r : wf x -> 0 <= s -> 0 <= b < 64 -> 0 <= a < 4 -> 0 <= r < 64 ->
  Z.testbit (rsh_limb x s b a) r = Z.testbit (val x) (a * 64 + r + (s * 64 + b)).
Proof.
  intros Hx Hs Hb Ha Hr. unfold rsh_limb.
  destruct (Z.leb_spec 4 (a + s)).
  { rewrite Z.bits_0, testbit_high by (auto; lia). reflexivity. }
  destruct (Z.lt_ge_cases (r + b) 64) as [Hrb|Hrb].
  - rewrite (testbit_at x (a + s) (r + b)) by (auto; lia). bcase.
    + rewrite Z.lor_spec, Z.shiftr_spec, shl64_bits, (Z.testbit_neg_r (limb x (a + s + 1))) by lia.
      rewrite andb_false_r. apply orb_false_r.
    + rewrite Z.shiftr_spec by lia. reflexivity.
  - assert (Z.testbit (Z.shiftr (limb x (a + s)) b) r = false) as Hf.
    { rewrite Z.shiftr_spec by lia. apply u64_bits; [apply limb_ok, Hx | lia]. }
    destruct (Z.ltb_spec 0 b); [|lia]. destruct (Z.ltb_spec (a + s + 1) 4); cbn [andb].
    + rewrite Z.lor_spec, Hf, shl64_bits by lia. destruct (Z.ltb_spec r 64); [|lia].
      rewrite (testbit_at x (a + s + 1) (r - (64 - b))) by (auto; lia). reflexivity.
    + rewrite Hf, testbit_high by (auto; lia). reflexivity.
Qed.

Lemma Rsh_spec x n : wf x -> 0 <= n -> wf (Rsh x n) /\ val (Rsh x n) = val x / 2 ^ n.
Proof.
  intros Hx Hn. pose proof (val_bounds x Hx) as Hv. unfold Rsh. destruct (Z.leb_spec 256 n).
  { split; [apply wf_zero|]. rewrite val_zero, Z.div_small; [reflexivity|].
    split; [lia|]. apply Z.lt_le_trans with (2 ^ 256); [apply Hv | apply Z.pow_le_mono_r; lia]. }
  destruct (index_cases n ltac:(lia)) as [Hs Hb]. pose proof (Z.div_mod n 64 ltac:(lia)) as Hd.
  assert (wf (mkInt (rsh_limb x (n / 64) (n mod 64) 0) (rsh_limb x (n / 64) (n mod 64) 1)
    (rsh_limb x (n / 64) (n mod 64) 2) (rsh_limb x (n / 64) (n mod 64) 3))) as Hz
    by (unfold wf; cbn [l0 l1 l2 l3]; auto using rsh_limb_ok).
  assert (1 <= 2 ^ n) by (pose proof (Z.pow_pos_nonneg 2 n ltac:(lia) Hn); lia).
  split; [exact Hz|]. apply val_bits_inj; [exact Hz| |].
  { split; [apply Z.div_pos; lia|]. apply Z.le_lt_trans with (val x); [|lia].
    apply Z.div_le_upper_bound; [lia|]. nia. }
  intros i Hi. rewrite (limb_mk (rsh_limb x (n / 64) (n mod 64))) by (destruct (index_cases i Hi); lia).
  destruct (index_cases i Hi) as [Hq Hr]. rewrite rsh_limb_bits by (auto; lia).
  rewrite Z.div_pow2_bits by lia. f_equal. pose proof (Z.div_mod i 64 ltac:(lia)). lia.
Qed.

Lemma val_SetAllOnes : val SetAllOnes = two256 - 1.
Proof. reflexivity. Qed.

(** [mask.Lsh(ones, k)]: the ones from bit [k] upwards. *)
Lemma mask_spec k : 0 <= k <= 256 ->
  wf (Lsh SetAllOnes k) /\ val (Lsh SetAllOnes k) = (2 ^ (256 - k) - 1) * 2 ^ k.
Proof.
  intros Hk. destruct (Lsh_spec SetAllOnes k wf_SetAllOnes ltac:(lia)) as [Hw Hv].
  split; [exact Hw|]. rewrite Hv, val_SetAllOnes. symmetry.
  assert (two256 = 2 ^ (256 - k) * 2 ^ k) as E
    by (rewrite <- Z.pow_add_r by lia; replace (256 - k + k) with 256 by lia; reflexivity).
  assert (0 < 2 ^ k) by (apply Z.pow_pos_nonneg; lia).
  assert (0 < 2 ^ (256 - k)) by (apply Z.pow_pos_nonneg; lia).
  apply Z.mod_unique with (q := 2 ^ k - 1); [left; nia|]. nia.
Qed.

Lemma SRsh_spec x n : wf x -> 0 <= n ->
  wf (SRsh x n) /\ val (SRsh x n) = (signed (val x) / 2 ^ n) mod two256.
Proof.
  intros Hx Hn. unfold SRsh. rewrite IsNegative_spec by assumption. unfold signed.
  pose proof (val_bounds x Hx) as Hv.
  assert (0 < 2 ^ n) as Hp by (apply Z.pow_pos_nonneg; lia).
  assert (256 <= n -> two256 <= 2 ^ n) as Hbig
    by (intros; change two256 with (2 ^ 256); apply Z.pow_le_mono_r; lia).
  destruct (Rsh_spec x n Hx Hn) as [Hrw Hrv].
  destruct (Z.leb_spec two255 (val x)), (Z.ltb_spec (val x) two255); try lia;
    destruct (Z.leb_spec 256 n); cbn [andb].
  - split; [apply wf_SetAllOnes|]. rewrite val_SetAllOnes.
    rewrite <- (Z.div_unique (val x - two256) (2 ^ n) (-1) (val x - two256 + 2 ^ n)) by ulia. reflexivity.
  - destruct (Z.ltb_spec 0 n).
    + destruct (mask_spec (256 - n) ltac:(lia)) as [Hmw Hmv].
      destruct (Or_spec _ _ Hrw Hmw) as [Hw Ho]. split; [exact Hw|].
      rewrite Ho, Hrv, Hmv. replace (256 - (256 - n)) with n by lia.
      assert (two256 = 2 ^ (256 - n) * 2 ^ n) as E
        by (rewrite <- Z.pow_add_r by lia; replace (256 - n + n) with 256 by lia; reflexivity).
      assert (0 < 2 ^ (256 - n)) by (apply Z.pow_pos_nonneg; lia).
      rewrite lor_low_high by (solve [lia | split; [apply Z.div_pos; lia | apply Z.div_lt_upper_bound; lia]]).
      replace (val x - two256) with (val x + (- 2 ^ (256 - n)) * 2 ^ n) by lia.
      rewrite Z.div_add by lia.
      pose proof (Z.div_pos (val x) (2 ^ n) ltac:(lia) ltac:(lia)).
      assert (val x / 2 ^ n < 2 ^ (256 - n)) by (apply Z.div_lt_upper_bound; lia).
      apply Z.mod_unique with (q := -1); [left|]; nia.
    + assert (n = 0) as -> by lia. split; [exact Hrw|]. rewrite Hrv, !Z.div_1_r.
      symmetry. replace (val x - two256) with (val x + (-1) * two256) by lia.
      rewrite Z.mod_add by discriminate. apply val_mod, Hx.
  - split; [apply wf_zero|]. rewrite val_zero, Z.div_small by ulia. reflexivity.
  - split; [exact Hrw|]. rewrite Hrv. symmetry. apply Z.mod_small.
    split; [apply Z.div_pos; lia|]. apply Z.le_lt_trans with (val x); [|lia].
    apply Z.div_le_upper_bound; nia.
Qed.

(** ** Multiplication *)

Fixpoint arr_val (l : list Z) : Z :=
  match l with
  | [] => 0
  | x :: r => x + two64 * arr_val r
  end.

Lemma arr_val_bounds l : Forall u64_ok l -> 0 <= arr_val l < two64 ^ len l.
Proof.
  induction 1 as [|x l Hx Hl IH]; cbn [arr_val].
  - unfold len. cbn. lia.
  - rewrite len_cons, Z.pow_add_r by (unfold len; lia). unfold u64_ok in Hx.
    change (two64 ^ 1) with two64. nia.
Qed.

Lemma length_upd l : forall i v, length (upd l i v) = length l.
Proof. induction l; intros [|i] v; cbn; auto. Qed.

Lemma upd_ok l : forall i v, Forall u64_ok l -> u64_ok v -> Forall u64_ok (upd l i v).
Proof.
  induction l; intros [|i] v Hl Hv; cbn; auto; inversion_clear Hl; constructor; auto.
Qed.

Lemma arr_val_upd l : forall i v, (i < length l)%nat ->
  arr_val (upd l i v) = arr_val l + (v - nth_limb l i) * two64 ^ Z.of_nat i.
Proof.
  induction l as [|x l IH]; intros [|i] v Hi; cbn [length] in Hi; try lia.
  - cbn. ring.
  - cbn [upd arr_val nth_limb nth]. rewrite IH by lia. unfold nth_limb.
    rewrite Nat2Z.inj_succ, Z.pow_succ_r by lia. ring.
Qed.

Lemma nth_limb_ok l i : Forall u64_ok l -> u64_ok (nth_limb l i).
Proof.
  intros H. unfold nth_limb. destruct (nth_in_or_default i l 0) as [Hin|E].
  - rewrite Forall_forall in H. auto.
  - rewrite E. unfold u64_ok. ulia.
Qed.

(** What the accumulator holds: [n] limbs of total value [v]. *)
Definition acc_is (n : nat) (l : list Z) (v : Z) : Prop :=
  length l = n /\ Forall u64_ok l /\ arr_val l = v.

(** Adding [d] to one limb of the accumulator, with the carry [c'] still owed. *)
Lemma acc_add n l v p d c s c' : acc_is n l v -> (p < n)%nat -> u64_ok d -> 0 <= c < two64 ->
  Add64 (nth_limb l p) d c = (s, c') ->
  acc_is n (upd l p s) (v + (d + c - c' * two64) * two64 ^ Z.of_nat p) /\
  0 <= c' /\ c' * two64 <= nth_limb l p + d + c /\ u64_ok (nth_limb l p).
Proof.
  intros (Hl & Hok & Hv) Hp Hd Hc E. pose proof (nth_limb_ok l p Hok) as Hn.
  pose proof (Add64_spec (nth_limb l p) d c Hn Hd Hc) as H. rewrite E in H.
  destruct H as (Hs & H1 & H2 & H3). split; [|auto]. split; [|split].
  - rewrite length_upd. exact Hl.
  - apply upd_ok; assumption.
  - rewrite arr_val_upd by lia. rewrite Hv, H3. ring.
Qed.

Lemma ripple_spec n N : forall out pos c v, (pos + n = N)%nat -> acc_is N out v -> 0 <= c <= 1 ->
  v + c * two64 ^ Z.of_nat pos < two64 ^ Z.of_nat N ->
  acc_is N (ripple n out pos c) (v + c * two64 ^ Z.of_nat pos).
Proof.
  induction n as [|n IH]; intros out pos c v Hn Hacc Hc Hlt; cbn [ripple].
  - assert (N = pos) as -> by lia. destruct Hacc as (Hl & Hok & Hv).
    pose proof (arr_val_bounds out Hok).
    assert (c = 0) as -> by (assert (c = 0 \/ c = 1) as [-> | ->] by lia; lia).
    rewrite Z.mul_0_l, Z.add_0_r. repeat split; assumption.
  - destruct (Z.eqb_spec c 0) as [->|Hc0].
    { rewrite Z.mul_0_l, Z.add_0_r. exact Hacc. }
    destruct (Add64 (nth_limb out pos) 0 c) as [s c'] eqn:E.
    destruct (acc_add N out v pos 0 c s c' Hacc ltac:(lia) ltac:(unfold u64_ok; ulia) ltac:(ulia) E)
      as (Hacc' & Hc1 & Hc2 & Hu).
    unfold u64_ok in Hu.
    assert (v + (0 + c - c' * two64) * two64 ^ Z.of_nat pos + c' * two64 ^ Z.of_nat (S pos)
            = v + c * two64 ^ Z.of_nat pos) as Ev
      by (rewrite Nat2Z.inj_succ, Z.pow_succ_r by lia; ring).
    rewrite <- Ev. apply IH; [lia | exact Hacc' | ulia | rewrite Ev; exact Hlt].
Qed.

Definition mul_term (x y : Int) (ij : nat * nat) : Z :=
  limb x (Z.of_nat (fst ij)) * limb y (Z.of_nat (snd ij)) * two64 ^ Z.of_nat (fst ij + snd ij).

Lemma mul_hi_lo a b : u64_ok a -> u64_ok b ->
  0 <= (a * b) / two64 <= two64 - 2 /\ u64_ok (wrap64 (a * b)) /\
  a * b = (a * b) / two64 * two64 + wrap64 (a * b).
Proof.
  intros Ha Hb. unfold u64_ok in *. split; [split|split].
  - apply Z.div_pos; [nia | reflexivity].
  - assert (a * b / two64 < two64 - 1); [|lia]. apply Z.div_lt_upper_bound; [reflexivity|].
    assert (a * b <= (two64 - 1) * (two64 - 1)) by (apply Z.mul_le_mono_nonneg; lia). ulia.
  - apply wrap64_ok.
  - unfold wrap64. pose proof (Z.div_mod (a * b) two64 ltac:(discriminate)). lia.
Qed.

Lemma mul_step_spec x y out v i j : wf x -> wf y -> (i < 4)%nat -> (j < 4)%nat ->
  acc_is 8 out v -> v + mul_term x y (i, j) < two64 ^ 8 ->
  acc_is 8 (mul_step x y out (i, j)) (v + mul_term x y (i, j)).
Proof.
  intros Hx Hy Hi Hj Hacc Hlt. unfold mul_step, Mul64, mul_term in *. cbn [fst snd] in *.
  set (a := limb x (Z.of_nat i)) in *. set (b := limb y (Z.of_nat j)) in *.
  destruct (mul_hi_lo a b) as (Hhi & Hlo & Hab); [apply limb_ok, Hx | apply limb_ok, Hy|].
  set (hi := a * b / two64) in *. set (lo := wrap64 (a * b)) in *.
  destruct (Add64 (nth_limb out (i + j)) lo 0) as [v0 c0] eqn:E0.
  destruct (acc_add 8 out v (i + j) lo 0 v0 c0 Hacc ltac:(lia) Hlo ltac:(ulia) E0)
    as (Hacc0 & Hc0 & Hc0' & Hu0). unfold u64_ok in Hlo, Hu0.
  assert (0 <= c0 <= 1) as Hc01 by ulia.
  assert (Add64 hi 0 c0 = (hi + c0, 0)) as ->.
  { unfold Add64, wrap64. rewrite Z.add_0_r, Z.mod_small, Z.div_small by ulia. reflexivity. }
  destruct (Add64 (nth_limb (upd out (i + j) v0) (S (i + j))) (hi + c0) 0) as [v1 c1] eqn:E1.
  destruct (acc_add 8 _ _ (S (i + j)) (hi + c0) 0 v1 c1 Hacc0 ltac:(lia)
    ltac:(unfold u64_ok; ulia) ltac:(ulia) E1) as (Hacc1 & Hc1 & Hc1' & Hu1).
  unfold u64_ok in Hu1. assert (0 <= c1 <= 1) as Hc11 by (clear - Hc1 Hc1' Hu1 Hhi Hc01; ulia).
  rewrite Hab in *.
  match type of Hacc1 with acc_is _ _ ?w => set (v' := w) in * end.
  assert (v' + c1 * two64 ^ Z.of_nat (i + j + 2)
          = v + (hi * two64 + lo) * two64 ^ Z.of_nat (i + j)) as Ev.
  { unfold v'. replace (Z.of_nat (i + j + 2)) with (Z.succ (Z.succ (Z.of_nat (i + j)))) by (clear; lia).
    rewrite Nat2Z.inj_succ, !Z.pow_succ_r by (clear; lia). ring. }
  rewrite <- Ev. apply ripple_spec; [clear - Hi Hj; lia | exact Hacc1 | exact Hc11|].
  rewrite Ev. exact Hlt.
Qed.

Lemma mul_term_nonneg x y ij : wf x -> wf y -> 0 <= mul_term x y ij.
Proof.
  intros Hx Hy. unfold mul_term.
  pose proof (limb_ok x (Z.of_nat (fst ij)) Hx) as Ha. pose proof (limb_ok y (Z.of_nat (snd ij)) Hy) as Hb.
  destruct Ha, Hb. apply Z.mul_nonneg_nonneg; [apply Z.mul_nonneg_nonneg; assumption|].
  apply Z.pow_nonneg. discriminate.
Qed.

Lemma umul_fold x y L : wf x -> wf y -> Forall (fun ij => (fst ij < 4 /\ snd ij < 4)%nat) L ->
  forall out v, acc_is 8 out v -> v + zsum (map (mul_term x y) L) < two64 ^ 8 ->
  acc_is 8 (fold_left (mul_step x y) L out) (v + zsum (map (mul_term x y) L)).
Proof.
  intros Hx Hy HL. induction HL as [|[i j] L [Hi Hj] HL IH]; intros out v Hacc Hlt.
  - cbn. rewrite Z.add_0_r. exact Hacc.
  - cbn [map zsum fold_right fold_left] in *. fold (zsum (map (mul_term x y) L)) in *.
    assert (0 <= zsum (map (mul_term x y) L)).
    { apply zsum_nonneg. rewrite Forall_map. apply Forall_forall. intros. apply mul_term_nonneg; auto. }
    rewrite Z.add_assoc in *. apply IH; [|exact Hlt].
    apply mul_step_spec; auto. lia.
Qed.

Lemma umul_spec x y : wf x -> wf y -> acc_is 8 (umul x y) (val x * val y).
Proof.
  intros Hx Hy. pose proof (val_bounds x Hx). pose proof (val_bounds y Hy).
  assert (val x * val y = 0 + zsum (map (mul_term x y) mul_indices)) as E.
  { dint x; dint y. unfold mul_indices, mul_term, val, two64, two128, two192.
    cbn [list_prod map app fst snd zsum fold_right l0 l1 l2 l3 limb Z.eqb Nat.add
         Z.of_nat Pos.of_succ_nat Pos.succ Pos.eqb]. ring. }
  rewrite E. unfold umul. apply umul_fold; auto.
  - unfold mul_indices. cbn. repeat constructor; cbn; lia.
  - repeat split; repeat constructor; unfold u64_ok; ulia.
  - rewrite <- E. clear E. replace (two64 ^ 8) with (two256 * two256) by (vm_compute; reflexivity).
    apply Z.mul_lt_mono_nonneg; tauto.
Qed.

Lemma acc8_split l v : acc_is 8 l v ->
  wf (low_limbs l) /\ val (low_limbs l) = v mod two256 /\
  wf (mkInt (nth_limb l 4) (nth_limb l 5) (nth_limb l 6) (nth_limb l 7)) /\
  v = val (low_limbs l) + val (mkInt (nth_limb l 4) (nth_limb l 5) (nth_limb l 6) (nth_limb l 7)) * two256.
Proof.
  intros (Hl & Hok & Hv). do 9 (destruct l as [|? l]; try discriminate Hl).
  repeat match goal with H : Forall _ (_ :: _) |- _ => inversion H; clear H; subst end.
  unfold low_limbs, nth_limb, wf, val in *. cbn [nth l0 l1 l2 l3 arr_val] in *.
  unfold u64_ok in *. split; [ulia|]. split.
  - eapply Z.mod_unique with (q := z3 + z4 * two64 + z5 * two128 + z6 * two192); [left; ulia | ulia].
  - split; ulia.
Qed.

Lemma Mul_spec x y : wf x -> wf y -> wf (Mul x y) /\ val (Mul x y) = (val x * val y) mod two256.
Proof. intros Hx Hy. pose proof (acc8_split _ _ (umul_spec x y Hx Hy)). unfold Mul. tauto. Qed.

Lemma MulOverflow_spec x y : wf x -> wf y ->
  fst (MulOverflow x y) = Mul x y /\ snd (MulOverflow x y) = (two256 <=? val x * val y).
Proof.
  intros Hx Hy. split; [reflexivity|]. unfold MulOverflow. cbn [snd].
  destruct (acc8_split _ _ (umul_spec x y Hx Hy)) as (Hw & _ & Hw' & Hv).
  revert Hw Hw' Hv. generalize (umul x y) (val x * val y). intros p v Hw Hw' Hv.
  pose proof (val_bounds _ Hw). pose proof (val_bounds _ Hw').
  pose proof (IsZero_spec _ Hw') as Hz. unfold IsZero in Hz. cbn [l0 l1 l2 l3] in Hz.
  rewrite Hz, Hv. apply eq_true_iff_eq. rewrite negb_true_iff, Z.eqb_neq, Z.leb_le. ulia.
Qed.

(** ** Division *)

Lemma Len64_spec a : u64_ok a -> a <> 0 -> 2 ^ (Len64 a - 1) <= a < 2 ^ Len64 a /\ 1 <= Len64 a <= 64.
Proof.
  unfold u64_ok. intros Ha Hn. unfold Len64. destruct (Z.eqb_spec a 0); [contradiction|].
  pose proof (Z.log2_spec a ltac:(lia)) as H. pose proof (Z.log2_nonneg a).
  assert (Z.log2 a < 64) by (apply Z.log2_lt_pow2; [lia | rewrite <- two64_pow; lia]).
  replace (Z.log2 a + 1 - 1) with (Z.log2 a) by lia. rewrite <- Z.add_1_r in H. lia.
Qed.

(** [BitLen] is the length of the value in bits. *)
Lemma BitLen_spec z : wf z -> BitLen z = if val z =? 0 then 0 else Z.log2 (val z) + 1.
Proof.
  intros Hz. assert (forall k lo a, val z = lo + a * 2 ^ k -> 0 <= k -> 0 <= lo < 2 ^ k -> a <> 0 ->
    u64_ok a -> k + Len64 a = if val z =? 0 then 0 else Z.log2 (val z) + 1) as H.
  { intros k lo a E Hk Hlo Ha Hu. destruct (Len64_spec a Hu Ha) as [Hl Hl'].
    assert (0 < a) by (unfold u64_ok in Hu; lia). destruct (Z.eqb_spec (val z) 0); [nia|].
    rewrite (Z.log2_unique (val z) (k + Len64 a - 1)); [lia | lia|].
    replace (Z.succ (k + Len64 a - 1)) with (k + Len64 a) by lia.
    replace (k + Len64 a - 1) with (k + (Len64 a - 1)) by lia.
    rewrite !Z.pow_add_r by lia. nia. }
  assert (val z = 0 -> 0 = if val z =? 0 then 0 else Z.log2 (val z) + 1) as H0
    by (intros ->; reflexivity).
  revert H H0. generalize (if val z =? 0 then 0 else Z.log2 (val z) + 1). intros R H H0.
  dint z. unfold wf, u64_ok, BitLen, val in *. cbn [l0 l1 l2 l3] in *.
  destruct (Z.eqb_spec z3 0); cbn [negb].
  2: { apply (H 192 (z0 + z1 * two64 + z2 * two128)); change (2 ^ 192) with two192; ulia. }
  destruct (Z.eqb_spec z2 0); cbn [negb].
  2: { apply (H 128 (z0 + z1 * two64)); change (2 ^ 128) with two128; ulia. }
  destruct (Z.eqb_spec z1 0); cbn [negb].
  2: { apply (H 64 z0); change (2 ^ 64) with two64; ulia. }
  destruct (Z.eq_dec z0 0) as [->|Hn]; [apply H0; lia|].
  apply (H 0 0 z0); change (2 ^ 0) with 1; lia.
Qed.

Lemma BitLen_bound z : wf z -> 0 <= BitLen z <= 256 /\ val z < 2 ^ BitLen z.
Proof.
  intros Hz. rewrite BitLen_spec by exact Hz. pose proof (val_bounds z Hz) as Hb.
  destruct (Z.eqb_spec (val z) 0) as [->|]; [cbn; lia|].
  pose proof (Z.log2_nonneg (val z)). pose proof (Z.log2_spec (val z) ltac:(lia)) as [_ Hs].
  assert (Z.log2 (val z) < 256) by (apply Z.log2_lt_pow2; [lia | exact (proj2 Hb)]).
  rewrite <- Z.add_1_r in Hs. lia.
Qed.

Lemma or_limb_spec z i v : wf z -> 0 <= i < 4 -> u64_ok v -> Z.land (limb z i) v = 0 ->
  wf (or_limb z i v) /\ val (or_limb z i v) = val z + v * two64 ^ i.
Proof.
  intros Hz Hi Hv H. pose proof (u64_lor _ _ (limb_ok z i Hz) Hv) as Hu.
  unfold or_limb. rewrite lor_add in * by exact H.
  dint z. unfold wf, val, limb, set_limb in *. cbn [l0 l1 l2 l3] in *.
  assert (i = 0 \/ i = 1 \/ i = 2 \/ i = 3) as [-> | [-> | [-> | ->]]] by lia;
    cbn [Z.eqb Pos.eqb l0 l1 l2 l3] in *; (split; [tauto|]);
    [change (two64 ^ 0) with 1 | change (two64 ^ 1) with two64
    | change (two64 ^ 2) with two128 | change (two64 ^ 3) with two192]; lia.
Qed.

Lemma land_pow2_0 a n : 0 <= n -> Z.testbit a n = false -> Z.land a (2 ^ n) = 0.
Proof. intros Hn H. apply Z.eqb_eq. rewrite land_pow2_eqb, H by lia. reflexivity. Qed.

(** Setting a bit that is clear adds its weight. *)
Lemma set_bit_spec z i : wf z -> 0 <= i < 256 -> Z.testbit (val z) i = false ->
  wf (or_limb z (i / 64) (shl64 1 (i mod 64))) /\
  val (or_limb z (i / 64) (shl64 1 (i mod 64))) = val z + 2 ^ i.
Proof.
  intros Hz Hi Hb. destruct (index_cases i Hi) as [Hq Hr].
  assert (shl64 1 (i mod 64) = 2 ^ (i mod 64)) as E.
  { unfold shl64. rewrite Z.shiftl_1_l. apply wrap64_small. unfold u64_ok.
    split; [apply Z.pow_nonneg; lia|]. rewrite two64_pow. apply Z.pow_lt_mono_r; lia. }
  destruct (or_limb_spec z (i / 64) (shl64 1 (i mod 64))) as [Hw Hv];
    [exact Hz | lia | apply u64_shl64 | rewrite E; apply land_pow2_0; [lia|]; rewrite <- testbit_limb by auto; exact Hb |].
  split; [exact Hw|]. rewrite Hv, E, two64_pow, <- Z.pow_mul_r, <- Z.pow_add_r by lia.
  f_equal. f_equal. pose proof (Z.div_mod i 64 ltac:(lia)). lia.
Qed.

(** Or-ing a bit into an even value. *)
Lemma or_bit0_spec z (b : bool) : wf z -> Z.testbit (val z) 0 = false ->
  wf (or_limb z 0 (Z.b2z b)) /\ val (or_limb z 0 (Z.b2z b)) = val z + Z.b2z b.
Proof.
  intros Hz Hb. destruct (or_limb_spec z 0 (Z.b2z b)) as [Hw Hv];
    [exact Hz | lia | unfold u64_ok; destruct b; cbn; ulia | |].
  - destruct b; cbn [Z.b2z]; [|apply Z.land_0_r]. apply (land_pow2_0 _ 0); [lia|].
    rewrite <- (testbit_at z 0 0 0) by (auto; lia). exact Hb.
  - split; [exact Hw|]. rewrite Hv. cbn. lia.
Qed.

Lemma even_testbit a : Z.testbit (2 * a) 0 = false.
Proof. apply Z.testbit_even_0. Qed.

Lemma even_mod_testbit a : Z.testbit ((2 * a) mod two256) 0 = false.
Proof. change two256 with (2 ^ 256). rewrite Z.mod_pow2_bits_low by lia. apply even_testbit. Qed.

(** One more bit of a binary expansion. *)
Lemma div_pow2_step v i : 0 <= i -> v / 2 ^ i = 2 * (v / 2 ^ (i + 1)) + Z.b2z (Z.testbit v i).
Proof.
  intros Hi. rewrite Z.testbit_spec' by lia. rewrite Z.pow_add_r by lia. change (2 ^ 1) with 2.
  rewrite <- Z.div_div by (try apply Z.pow_nonzero; lia). apply Z.div_mod. lia.
Qed.

Lemma pow2_multiple_bit a i : 0 <= i -> Z.testbit (a * 2 ^ (i + 1)) i = false.
Proof. intros Hi. apply Z.mul_pow2_bits_low. lia. Qed.

Lemma div_loop_spec x y : wf x -> wf y -> 0 < val y -> forall k q rem a,
  (k <= 256)%nat -> wf q -> wf rem -> val q = a * 2 ^ Z.of_nat k -> 0 <= a -> val rem < val y ->
  val x / 2 ^ Z.of_nat k = a * val y + val rem ->
  let (q', r') := div_loop x y k q rem in
  wf q' /\ wf r' /\ val x = val q' * val y + val r' /\ val r' < val y.
Proof.
  intros Hx Hy Hpos. pose proof (val_bounds x Hx) as Hxb.
  induction k as [|k IH]; intros q rem a Hk Hq Hr Hqv Ha Hlt Hdiv; cbn [div_loop].
  { change (2 ^ Z.of_nat 0) with 1 in *. rewrite Z.div_1_r in Hdiv.
    rewrite Z.mul_1_r in Hqv. subst a. auto. }
  rewrite Nat2Z.inj_succ, <- Z.add_1_r in Hqv, Hdiv. set (i := Z.of_nat k) in *.
  assert (0 <= i < 256) as Hi by lia.
  pose proof (val_bounds rem Hr) as Hrb.
  assert (val rem < two255) as Hsmall.
  { apply Z.le_lt_trans with (val x / 2 ^ (i + 1)); [nia|].
    apply Z.div_lt_upper_bound; [apply Z.pow_pos_nonneg; lia|].
    apply Z.lt_le_trans with (2 ^ 1 * two255); [apply Hxb|].
    apply Z.mul_le_mono_nonneg_r; [ulia | apply Z.pow_le_mono_r; lia]. }
  destruct (Lsh_spec rem 1 Hr ltac:(lia)) as [Hw1 Hv1].
  rewrite Z.mul_comm, Z.mod_small in Hv1 by ulia. change (2 ^ 1) with 2 in Hv1.
  rewrite Bit_spec by (auto; lia).
  destruct (or_bit0_spec (Lsh rem 1) (Z.testbit (val x) i) Hw1) as [Hw2 Hv2];
    [rewrite Hv1; apply even_testbit|].
  rewrite Hv1 in Hv2. pose proof (div_pow2_step (val x) i ltac:(lia)) as Hstep. rewrite Hdiv in Hstep.
  set (rem2 := or_limb _ 0 _) in *. rewrite Cmp_geb by assumption.
  assert (val q = 2 * a * 2 ^ i) as Hqi by (rewrite Hqv, Z.pow_add_r by lia; ring).
  destruct (Z.leb_spec (val y) (val rem2)).
  - destruct (set_bit_spec q i Hq Hi) as [Hq' Hqv']; [rewrite Hqv; apply pow2_multiple_bit; lia|].
    destruct (Sub_spec rem2 y Hw2 Hy) as [Hs Hsv].
    pose proof (val_bounds rem2 Hw2). rewrite Z.mod_small in Hsv by lia.
    apply (IH _ _ (2 * a + 1)); auto; try lia; try (rewrite Hqv', Hqi; ring).
    all: destruct (Z.testbit (val x) i); cbn [Z.b2z] in *; lia.
  - apply (IH _ _ (2 * a)); auto; try lia.
Qed.

Lemma Div64_spec hi lo d : 0 <= hi < d -> u64_ok lo -> d < two64 ->
  exists q r, Div64 hi lo d = Some (q, r) /\ u64_ok q /\ 0 <= r < d /\ hi * two64 + lo = q * d + r.
Proof.
  intros Hh Hlo Hd. unfold Div64. destruct (Z.leb_spec d hi); [lia|]. unfold u64_ok in *.
  do 2 eexists. split; [reflexivity|]. split; [split|split].
  - apply Z.div_pos; ulia.
  - apply Z.div_lt_upper_bound; ulia.
  - apply Z.mod_pos_bound. lia.
  - pose proof (Z.div_mod (hi * two64 + lo) d ltac:(lia)). lia.
Qed.

(** [divMod] never panics and computes the Euclidean quotient and remainder,
    with both zero for a zero divisor. *)
Lemma divMod_spec x y : wf x -> wf y -> exists q r, divMod x y = Some (q, r) /\ wf q /\ wf r /\
  val q = val x / val y /\ val r = (if val y =? 0 then 0 else val x mod val y).
Proof.
  intros Hx Hy. pose proof (val_bounds x Hx) as Hxb. pose proof (val_bounds y Hy) as Hyb.
  unfold divMod. rewrite IsZero_spec by exact Hy. destruct (Z.eqb_spec (val y) 0) as [E|E].
  { do 2 eexists. split; [reflexivity|]. rewrite E, Z.div_0_r. auto using wf_zero. }
  rewrite Cmp_ltb by assumption. destruct (Z.ltb_spec (val x) (val y)).
  { do 2 eexists. split; [reflexivity|]. rewrite Z.div_small, Z.mod_small by lia. auto using wf_zero. }
  assert (forall q r, val x = q * val y + r -> 0 <= r < val y ->
    q = val x / val y /\ r = val x mod val y) as Huniq.
  { intros q r E1 E2. split; [apply Z.div_unique with r | apply Z.mod_unique with q]; lia. }
  destruct (IsUint64 y) eqn:Hu.
  - pose proof (IsUint64_l0 y Hy Hu) as El. assert (l0 y < two64) by (apply Hy).
    rewrite El in *. pose proof Hx as (Hx0 & Hx1 & Hx2 & Hx3).
    destruct (Div64_spec 0 (l3 x) (val y)) as (q3 & r3 & -> & Hq3 & Hr3 & E3); auto; [lia|]. cbn [obind].
    destruct (Div64_spec r3 (l2 x) (val y)) as (q2 & r2 & -> & Hq2 & Hr2 & E2); auto. cbn [obind].
    destruct (Div64_spec r2 (l1 x) (val y)) as (q1 & r1 & -> & Hq1 & Hr1 & E1); auto. cbn [obind].
    destruct (Div64_spec r1 (l0 x) (val y)) as (q0 & r0 & -> & Hq0 & Hr0 & E0); auto. cbn [obind].
    do 2 eexists. split; [reflexivity|].
    split; [unfold wf; cbn [l0 l1 l2 l3]; auto|]. split; [apply wf_SetUint64; unfold u64_ok; lia|].
    rewrite val_SetUint64. apply Huniq; [|exact Hr0]. set (d := val y) in *.
    unfold val; cbn [l0 l1 l2 l3]. uconst. clear - E0 E1 E2 E3. lia.
  - destruct (BitLen_bound x Hx) as [Hbl Hbv].
    pose proof (div_loop_spec x y Hx Hy ltac:(lia) (Z.to_nat (BitLen x)) zero zero 0) as H'.
    destruct (div_loop x y (Z.to_nat (BitLen x)) zero zero) as [q r].
    rewrite val_zero, Z2Nat.id in H' by lia.
    destruct H' as (Hq & Hr & Hv & Hlt); auto using wf_zero; try lia.
    { rewrite Z.div_small by lia. reflexivity. }
    exists q, r. split; [reflexivity|]. split; [exact Hq|]. split; [exact Hr|].
    apply Huniq; [exact Hv|]. pose proof (val_bounds r Hr). lia.
Qed.

(** ** Signed division *)

Lemma signed_bounds v : 0 <= v < two256 -> - two255 <= signed v < two255.
Proof. unfold signed. intros. bcase; ulia. Qed.

Lemma absOf_spec x : wf x -> wf (absOf x) /\ val (absOf x) = Z.abs (signed (val x)).
Proof.
  intros Hx. unfold absOf. rewrite IsNegative_spec by exact Hx.
  pose proof (val_bounds x Hx). unfold signed.
  destruct (Z.leb_spec two255 (val x)), (Z.ltb_spec (val x) two255); try lia.
  - destruct (Neg_spec x Hx) as [Hw Hv]. split; [exact Hw|]. rewrite Hv.
    rewrite <- (Z.mod_unique (- val x) two256 (-1) (two256 - val x)) by ulia. ulia.
  - split; [exact Hx|]. lia.
Qed.

(** Negating a value [v] below [2^256] when [b] holds. *)
Lemma neg_if_spec (b : bool) z v : wf z -> val z = v ->
  wf (if b then Neg z else z) /\
  val (if b then Neg z else z) = (if b then - v else v) mod two256.
Proof.
  intros Hz <-. destruct b; [apply Neg_spec, Hz|]. rewrite val_mod by exact Hz. auto.
Qed.

Lemma SDiv_spec x y : wf x -> wf y -> exists z, SDiv x y = Some z /\ wf z /\
  val z = (Z.quot (signed (val x)) (signed (val y))) mod two256.
Proof.
  intros Hx Hy. pose proof (val_bounds x Hx) as Hxb. pose proof (val_bounds y Hy) as Hyb.
  unfold SDiv. rewrite IsZero_spec by exact Hy. destruct (Z.eqb_spec (val y) 0) as [E|E].
  { exists zero. rewrite E. change (signed 0) with 0. rewrite Z.quot_0_r_ext by reflexivity.
    auto using wf_zero. }
  destruct (absOf_spec x Hx) as [Hax Hvx], (absOf_spec y Hy) as [Hay Hvy].
  destruct (divMod_spec _ _ Hax Hay) as (q & r & -> & Hq & Hr & Hqv & _). cbn [obind].
  rewrite !IsNegative_spec by assumption. eexists. split; [reflexivity|].
  rewrite Hvx, Hvy in Hqv.
  destruct (neg_if_spec (xorb (two255 <=? val x) (two255 <=? val y)) q _ Hq Hqv) as [Hw Hv].
  split; [exact Hw|]. rewrite Hv. f_equal.
  assert (signed (val y) <> 0) as Hny by (unfold signed; bcase; ulia).
  rewrite Z.quot_div by exact Hny. set (t := Z.abs _ / Z.abs _) in *.
  assert (signed (val x) = 0 -> t = 0) as Ht0 by (intros E0; unfold t; rewrite E0; apply Z.div_0_l; lia).
  unfold signed in *.
  destruct (Z.leb_spec two255 (val x)), (Z.ltb_spec (val x) two255); try lia;
  destruct (Z.leb_spec two255 (val y)), (Z.ltb_spec (val y) two255); try lia; cbn [xorb].
  - rewrite !Z.sgn_neg by ulia. lia.
  - rewrite Z.sgn_neg, Z.sgn_pos by ulia. lia.
  - rewrite (Z.sgn_neg (val y - two256)) by ulia.
    destruct (Z.eq_dec (val x) 0) as [E0|]; [rewrite Ht0; lia | rewrite Z.sgn_pos by lia; lia].
  - rewrite (Z.sgn_pos (val y)) by lia.
    destruct (Z.eq_dec (val x) 0) as [E0|]; [rewrite Ht0; lia | rewrite Z.sgn_pos by lia; lia].
Qed.

Lemma SMod_spec x y : wf x -> wf y -> exists z, SMod x y = Some z /\ wf z /\
  val z = (if val y =? 0 then 0 else Z.rem (signed (val x)) (signed (val y))) mod two256.
Proof.
  intros Hx Hy. pose proof (val_bounds x Hx) as Hxb. pose proof (val_bounds y Hy) as Hyb.
  unfold SMod. rewrite IsZero_spec by exact Hy. destruct (Z.eqb_spec (val y) 0) as [E|E].
  { exists zero. auto using wf_zero. }
  destruct (absOf_spec x Hx) as [Hax Hvx], (absOf_spec y Hy) as [Hay Hvy].
  destruct (divMod_spec _ _ Hax Hay) as (q & r & -> & Hq & Hr & _ & Hrv). cbn [obind].
  rewrite IsNegative_spec by assumption. eexists. split; [reflexivity|].
  assert (signed (val y) <> 0) as Hny by (unfold signed; bcase; ulia).
  rewrite Hvx, Hvy in Hrv. destruct (Z.eqb_spec (Z.abs (signed (val y))) 0); [lia|].
  destruct (neg_if_spec (two255 <=? val x) r _ Hr Hrv) as [Hw Hv].
  split; [exact Hw|]. rewrite Hv. f_equal. rewrite Z.rem_mod by exact Hny.
  set (t := Z.abs _ mod Z.abs _) in *.
  assert (signed (val x) = 0 -> t = 0) as Ht0 by (intros E0; unfold t; rewrite E0; apply Z.mod_0_l; lia).
  unfold signed in *.
  destruct (Z.leb_spec two255 (val x)), (Z.ltb_spec (val x) two255); try lia.
Qed.

(** ** Modular arithmetic on unreduced sums and products *)

Lemma Mod_spec x m : wf x -> wf m -> val m <> 0 ->
  exists z, Mod x m = Some z /\ wf z /\ val z = val x mod val m.
Proof.
  intros Hx Hm Hn. destruct (divMod_spec x m Hx Hm) as (q & r & E & _ & Hr & _ & Hv).
  exists r. unfold Mod. rewrite E. destruct (Z.eqb_spec (val m) 0); [contradiction|]. auto.
Qed.

Lemma AddMod_spec x y m : wf x -> wf y -> wf m -> exists z, AddMod x y m = Some z /\ wf z /\
  val z = if val m =? 0 then 0 else (val x + val y) mod val m.
Proof.
  intros Hx Hy Hm. pose proof (val_bounds m Hm) as Hmb. unfold AddMod.
  rewrite IsZero_spec by exact Hm. destruct (Z.eqb_spec (val m) 0) as [E|E].
  { exists zero. auto using wf_zero. }
  destruct (Mod_spec x m Hx Hm E) as (xr & -> & Hxr & Hxv).
  destruct (Mod_spec y m Hy Hm E) as (yr & -> & Hyr & Hyv). cbn [obind].
  destruct (AddOverflow_spec xr yr Hxr Hyr) as (Hw & Hv & Ho).
  destruct (AddOverflow xr yr) as [sum ov]. cbn [fst snd] in *. subst ov.
  rewrite Cmp_geb by assumption. eexists. split; [reflexivity|].
  rewrite Z.add_mod, <- Hxv, <- Hyv by exact E.
  pose proof (Z.mod_pos_bound (val x) (val m) ltac:(lia)).
  pose proof (Z.mod_pos_bound (val y) (val m) ltac:(lia)). rewrite <- Hxv, <- Hyv in *.
  destruct (Sub_spec sum m Hw Hm) as [Hsw Hsv].
  pose proof (Z.mod_pos_bound (val sum - val m) two256 ltac:(reflexivity)).
  destruct (Z.leb_spec two256 (val xr + val yr)); cbn [orb].
  - rewrite <- (Z.mod_unique (val xr + val yr) two256 1 (val xr + val yr - two256)) in Hv by lia.
    split; [exact Hsw|]. rewrite Hsv. rewrite <- (Z.mod_unique (val sum - val m) two256 (-1)
      (val xr + val yr - val m)) by lia. apply Z.mod_unique with 1; lia.
  - rewrite Z.mod_small in Hv by lia. bcase.
    + split; [exact Hsw|]. rewrite Hsv, Z.mod_small by lia. apply Z.mod_unique with 1; lia.
    + split; [exact Hw|]. rewrite Z.mod_small by lia. exact Hv.
Qed.

Lemma arr_testbit l : Forall u64_ok l -> forall i, 
  Z.testbit (arr_val l) (Z.of_nat i) = Z.testbit (nth_limb l (i / 64)) (Z.of_nat (i mod 64)).
Proof.
  induction 1 as [|x l Hx Hl IH]; intros i.
  { cbn [arr_val]. unfold nth_limb. destruct (i / 64)%nat; cbn [nth]; rewrite !Z.bits_0; reflexivity. }
  cbn [arr_val]. rewrite Z.mul_comm, two64_pow, testbit_split by (unfold u64_ok in Hx; rewrite two64_pow in Hx; lia).
  destruct (Z.ltb_spec (Z.of_nat i) 64).
  - rewrite Nat.div_small, Nat.mod_small by lia. reflexivity.
  - replace (Z.of_nat i - 64) with (Z.of_nat (i - 64)) by lia. rewrite IH.
    replace i with (i - 64 + 1 * 64)%nat at 3 4 by lia.
    rewrite Nat.div_add, Nat.Div0.mod_add by lia.
    replace ((i - 64) / 64 + 1)%nat with (S ((i - 64) / 64)) by lia. reflexivity.
Qed.

(** One step of the bitwise reduction: [2 * rem + b] reduced by [m]. *)
Lemma reduce_step rem m (b : bool) : wf rem -> wf m -> val rem < val m ->
  let top := negb (Z.land (l3 rem) 9223372036854775808 =? 0) in
  let r := or_limb (Lsh rem 1) 0 (Z.b2z b) in
  let r' := if top || (0 <=? Cmp r m) then Sub r m else r in
  wf r' /\ val r' = (2 * val rem + Z.b2z b) mod val m.
Proof.
  intros Hr Hm Hlt. cbv zeta. fold (IsNegative rem). rewrite IsNegative_spec by exact Hr.
  pose proof (val_bounds rem Hr). pose proof (val_bounds m Hm).
  destruct (Lsh_spec rem 1 Hr ltac:(lia)) as [Hw1 Hv1].
  rewrite Z.mul_comm in Hv1. change (2 ^ 1) with 2 in Hv1.
  destruct (or_bit0_spec (Lsh rem 1) b Hw1) as [Hw2 Hv2]; [rewrite Hv1; apply even_mod_testbit|].
  rewrite Hv1 in Hv2. set (r := or_limb _ _ _) in *. rewrite Cmp_geb by assumption.
  destruct (Sub_spec r m Hw2 Hm) as [Hsw Hsv].
  assert (0 <= Z.b2z b <= 1) by (destruct b; cbn; lia).
  destruct (Z.leb_spec two255 (val rem)); cbn [orb].
  - rewrite <- (Z.mod_unique (2 * val rem) two256 1 (2 * val rem - two256)) in Hv2 by ulia.
    split; [exact Hsw|]. rewrite Hsv. rewrite <- (Z.mod_unique (val r - val m) two256 (-1)
      (2 * val rem + Z.b2z b - val m)) by ulia. apply Z.mod_unique with 1; ulia.
  - rewrite Z.mod_small in Hv2 by ulia. bcase.
    + split; [exact Hsw|]. rewrite Hsv, Z.mod_small by ulia. apply Z.mod_unique with 1; lia.
    + split; [exact Hw2|]. rewrite Z.mod_small by lia. exact Hv2.
Qed.

Lemma mulmod_loop_spec p m v : acc_is 8 p v -> wf m -> 0 < val m -> forall k rem,
  wf rem -> val rem = (v / 2 ^ Z.of_nat k) mod val m ->
  wf (mulmod_loop p m k rem) /\ val (mulmod_loop p m k rem) = v mod val m.
Proof.
  intros (_ & Hok & Hv) Hm Hpos. induction k as [|k IH]; intros rem Hr Hrv; cbn [mulmod_loop].
  { change (2 ^ Z.of_nat 0) with 1 in Hrv. rewrite Z.div_1_r in Hrv. auto. }
  rewrite land_1_testbit, <- arr_testbit, Hv by (auto; lia).
  pose proof (Z.mod_pos_bound (v / 2 ^ Z.of_nat (S k)) (val m) Hpos).
  destruct (reduce_step rem m (Z.testbit v (Z.of_nat k)) Hr Hm ltac:(lia)) as [Hw Hs].
  apply IH; [exact Hw|]. rewrite Hs, Hrv, (div_pow2_step v (Z.of_nat k)) by lia.
  replace (Z.of_nat (S k)) with (Z.of_nat k + 1) by lia.
  rewrite <- Z.add_mod_idemp_l, Z.mul_mod_idemp_r, Z.add_mod_idemp_l by lia. reflexivity.
Qed.

Lemma MulMod_spec x y m : wf x -> wf y -> wf m -> wf (MulMod x y m) /\
  val (MulMod x y m) = if val m =? 0 then 0 else (val x * val y) mod val m.
Proof.
  intros Hx Hy Hm. pose proof (val_bounds m Hm). unfold MulMod. rewrite IsZero_spec by exact Hm.
  destruct (Z.eqb_spec (val m) 0); [auto using wf_zero|].
  apply mulmod_loop_spec; auto using umul_spec, wf_zero; [lia|].
  pose proof (val_bounds x Hx). pose proof (val_bounds y Hy).
  rewrite val_zero, Z.div_small, Z.mod_0_l by
    (try split; try nia; change (2 ^ Z.of_nat 512) with (two256 * two256); apply Z.mul_lt_mono_nonneg; tauto).
  reflexivity.
Qed.

(** ** Exponentiation *)

Lemma exp_digit e i k : 0 <= i -> 0 <= k ->
  (e / 2 ^ i) mod 2 ^ (k + 1) = Z.b2z (Z.testbit e i) + 2 * ((e / 2 ^ (i + 1)) mod 2 ^ k).
Proof.
  intros Hi Hk. rewrite Z.testbit_spec' by lia. rewrite (Z.add_comm k 1), Z.pow_add_r by lia.
  change (2 ^ 1) with 2. rewrite Z.rem_mul_r by (try apply Z.pow_nonzero; try apply Z.pow_pos_nonneg; lia).
  rewrite Z.div_div by (try apply Z.pow_nonzero; lia).
  rewrite (Z.pow_add_r 2 i 1) by lia. reflexivity.
Qed.

Lemma exp_loop_spec e : wf e -> forall k i result b, 0 <= i -> wf result -> wf b ->
  wf (exp_loop e k i result b) /\
  val (exp_loop e k i result b)
    = (val result * val b ^ ((val e / 2 ^ i) mod 2 ^ Z.of_nat k)) mod two256.
Proof.
  intros He. induction k as [|k IH]; intros i result b Hi Hr Hb; cbn [exp_loop].
  { change (2 ^ Z.of_nat 0) with 1. rewrite Z.mod_1_r, Z.pow_0_r, Z.mul_1_r, val_mod by exact Hr. auto. }
  destruct (Mul_spec b b Hb Hb) as [Hbw Hbv]. destruct (Mul_spec result b Hr Hb) as [Hmw Hmv].
  rewrite Bit_spec by assumption.
  destruct (IH (i + 1) (if Z.b2z (Z.testbit (val e) i) =? 1 then Mul result b else result) (Mul b b))
    as [Hw Hv]; [lia | bcase; assumption | exact Hbw |].
  split; [exact Hw|]. rewrite Hv, Hbv. replace (Z.of_nat (S k)) with (Z.of_nat k + 1) by lia.
  rewrite exp_digit by lia. set (t := (val e / 2 ^ (i + 1)) mod 2 ^ Z.of_nat k).
  assert (0 <= t) by (apply Z.mod_pos_bound, Z.pow_pos_nonneg; lia).
  rewrite <- Z.mul_mod_idemp_r, <- Zpower_mod, Z.mul_mod_idemp_r by (discriminate || reflexivity).
  rewrite Z.pow_add_r, Z.pow_mul_r by (destruct (Z.testbit (val e) i); cbn [Z.b2z]; lia).
  rewrite Z.pow_2_r. destruct (Z.testbit (val e) i); cbn [Z.b2z Z.eqb Pos.eqb].
  - rewrite Hmv, Z.mul_mod_idemp_l by discriminate. f_equal. ring.
  - f_equal. ring.
Qed.

Lemma Exp_spec base e : wf base -> wf e -> wf (Exp base e) /\ val (Exp base e) = (val base ^ val e) mod two256.
Proof.
  intros Hb He. destruct (BitLen_bound e He) as [Hl Hv]. pose proof (val_bounds e He).
  destruct (exp_loop_spec e He (Z.to_nat (BitLen e)) 0 one base) as [Hw Hr]; auto using wf_one, Z.le_refl.
  split; [exact Hw|]. unfold Exp. rewrite Hr. change (2 ^ 0) with 1. rewrite Z2Nat.id, Z.div_1_r, (Z.mod_small (val e)) by lia.
  change (val one) with 1. rewrite Z.mul_1_l. reflexivity.
Qed.

(** ** Byte encodings *)

Lemma limb_bytes_be v : u64_ok v -> limb_bytes v = be_bytes 8 v.
Proof.
  intros Hv. unfold limb_bytes, wrap8. cbn [map be_bytes app].
  rewrite !Z.shiftr_div_pow2 by lia. rewrite !Z.div_div by lia.
  repeat f_equal; cbn; rewrite ?Z.div_1_r; reflexivity.
Qed.

Lemma Bytes32_spec z : wf z -> Bytes32 z = be_bytes 32 (val z).
Proof.
  intros Hz. pose proof Hz as (H0 & H1 & H2 & H3).
  assert (length (Bytes32 z) = 32%nat) as Hlen by reflexivity.
  assert (bytes_ok (Bytes32 z)) as Hok.
  { unfold Bytes32. rewrite !limb_bytes_be by assumption.
    do 3 (apply Forall_app; split; [apply be_bytes_ok|]). apply be_bytes_ok. }
  assert (be_val (Bytes32 z) = val z) as Hv.
  { unfold Bytes32. rewrite !limb_bytes_be by assumption.
    rewrite !be_val_app, !be_val_be_bytes, !len_app, !len_be_bytes. unfold u64_ok in *.
    change (256 ^ Z.of_nat 8) with two64. rewrite !Z.mod_small by assumption.
    change (256 ^ (Z.of_nat 8 + (Z.of_nat 8 + Z.of_nat 8))) with two192.
    change (256 ^ (Z.of_nat 8 + Z.of_nat 8)) with two128. unfold val. lia. }
  apply be_val_inj; [exact Hok | apply be_bytes_ok | rewrite length_be_bytes; exact Hlen|].
  rewrite Hv, be_val_be_bytes. change (256 ^ Z.of_nat 32) with two256. symmetry. apply val_mod, Hz.
Qed.

Lemma ToBig_spec z : wf z -> ToBig z = val z.
Proof.
  intros Hz. unfold ToBig. rewrite Bytes32_spec, be_val_be_bytes by exact Hz.
  change (256 ^ Z.of_nat 32) with two256. apply val_mod, Hz.
Qed.

(** The set-bytes loop adds each byte at its weight: the bits it ors in are
    clear as long as the value so far is a multiple of [256^(len b)]. *)
Lemma set_bytes_loop_spec b : bytes_ok b -> (length b <= 32)%nat -> forall z a,
  wf z -> val z = a * 256 ^ len b -> wf (set_bytes_loop z b) /\ val (set_bytes_loop z b) = val z + be_val b.
Proof.
  induction 1 as [|c r Hc Hr IH]; intros Hl z a Hz Ha; cbn [set_bytes_loop].
  { rewrite be_val_nil. split; [exact Hz | lia]. }
  cbn [length] in Hl. set (pos := len r). assert (0 <= pos < 32) as Hp by (unfold pos, len; lia).
  pose proof (Z.div_mod pos 8 ltac:(lia)) as Hd. pose proof (Z.mod_pos_bound pos 8 ltac:(lia)) as Hm.
  set (q := pos / 8) in *. set (s := pos mod 8) in *.
  assert (shl64 c (8 * s) = c * 2 ^ (8 * s)) as E.
  { unfold shl64. rewrite Z.shiftl_mul_pow2 by lia. apply wrap64_small. unfold u64_ok, byte_ok in *.
    pose proof (Z.pow_pos_nonneg 2 (8 * s) ltac:(lia) ltac:(lia)).
    assert (2 ^ (8 * s) <= 2 ^ 56) by (apply Z.pow_le_mono_r; lia).
    change (2 ^ 56) with 72057594037927936 in *. uconst. nia. }
  rewrite len_cons in Ha. fold pos in Ha. change 256 with (2 ^ 8) in Ha.
  rewrite <- Z.pow_mul_r in Ha by lia.
  destruct (or_limb_spec z q (shl64 c (8 * s))) as [Hw Hv]; [exact Hz | lia | apply u64_shl64 | |].
  { rewrite E. apply Z.bits_inj'. intros i Hi. rewrite Z.land_spec, Z.bits_0.
    destruct (Z.lt_ge_cases i (8 * s)); [rewrite Z.mul_pow2_bits_low by lia; apply andb_false_r|].
    destruct (Z.lt_ge_cases i (8 * s + 8)).
    - rewrite <- (testbit_at z q i (q * 64 + i)) by (auto; lia).
      rewrite Ha, Z.mul_pow2_bits_low by lia. reflexivity.
    - rewrite Z.mul_pow2_bits by lia. unfold byte_ok in Hc.
      rewrite <- (Z.mod_small c (2 ^ 8)), Z.mod_pow2_bits_high by lia. apply andb_false_r. }
  assert (val (or_limb z q (shl64 c (8 * s))) = (a * 256 + c) * 256 ^ len r) as Hv'.
  { rewrite Hv, E, Ha, two64_pow, <- Z.mul_assoc, <- !Z.pow_mul_r, <- Z.pow_add_r by lia.
    fold pos. change 256 with (2 ^ 8). rewrite <- Z.pow_mul_r by lia.
    replace (8 * (1 + pos)) with (8 + 8 * pos) by lia. rewrite Z.pow_add_r by lia.
    replace (8 * s + 64 * q) with (8 * pos) by lia. ring. }
  destruct (IH ltac:(lia) _ _ Hw Hv') as [Hw2 Hv2]. split; [exact Hw2|].
  unfold or_limb in Hv2. rewrite Hv2. fold (or_limb z q (shl64 c (8 * s))).
  rewrite Hv', Ha, be_val_cons. fold pos. rewrite Z.pow_mul_r by lia.
  change (2 ^ 8) with 256. rewrite Z.pow_add_r by lia. ring.
Qed.

Lemma SetBytes_spec b : bytes_ok b -> wf (SetBytes b) /\ val (SetBytes b) = be_val b mod two256.
Proof.
  intros Hb. unfold SetBytes. destruct (Z.ltb_spec 32 (len b)) as [Hl|Hl]; unfold len in Hl.
  - set (hi := firstn (length b - 32) b). set (lo := skipn (length b - 32) b).
    assert (b = hi ++ lo) as E by (symmetry; apply firstn_skipn).
    assert (length lo = 32%nat) as Hlo by (unfold lo; rewrite length_skipn; lia).
    assert (bytes_ok lo) as Hlk by (rewrite E in Hb; apply Forall_app in Hb; apply Hb).
    destruct (set_bytes_loop_spec lo Hlk ltac:(lia) zero 0 wf_zero eq_refl) as [Hw Hv].
    split; [exact Hw|]. rewrite Hv, val_zero, Z.add_0_l, E, be_val_app.
    pose proof (be_val_bounds lo Hlk) as Hbd. unfold len in *. rewrite Hlo in *.
    change (256 ^ Z.of_nat 32) with two256 in *.
    rewrite Z.add_comm, Z.mod_add, Z.mod_small by (auto; discriminate). reflexivity.
  - destruct (set_bytes_loop_spec b Hb ltac:(lia) zero 0 wf_zero eq_refl) as [Hw Hv].
    split; [exact Hw|]. rewrite Hv, val_zero, Z.add_0_l. symmetry. apply Z.mod_small.
    pose proof (be_val_bounds b Hb) as Hbd. split; [lia|].
    apply Z.lt_le_trans with (256 ^ len b); [lia|]. change two256 with (256 ^ 32).
    apply Z.pow_le_mono_r; unfold len; lia.
Qed.

Lemma SetBig_spec v : wf (SetBig (Some v)) /\ val (SetBig (Some v)) = v mod two256.
Proof.
  unfold SetBig. destruct (Z.ltb_spec v 0).
  - destruct (SetBytes_spec _ (big_bytes_ok (- v))) as [Hw Hv].
    destruct (Neg_spec _ Hw) as [Hnw Hnv]. split; [exact Hnw|].
    rewrite Hnv, Hv, big_bytes_val by lia.
    rewrite <- Z.sub_0_l, Zminus_mod_idemp_r. f_equal. lia.
  - destruct (SetBytes_spec _ (big_bytes_ok v)) as [Hw Hv]. split; [exact Hw|].
    rewrite Hv, big_bytes_val by lia. reflexivity.
Qed.

(** ** BYTE and SIGNEXTEND *)

Lemma nth_be_bytes n : forall v k, (k < n)%nat ->
  nth k (be_bytes n v) 0 = (v / 256 ^ Z.of_nat (n - 1 - k)) mod 256.
Proof.
  induction n as [|n IH]; intros v k Hk; [lia|]. cbn [be_bytes].
  destruct (Nat.eq_dec k n) as [->|].
  - rewrite app_nth2 by (rewrite length_be_bytes; lia). rewrite length_be_bytes, Nat.sub_diag.
    replace (S n - 1 - n)%nat with 0%nat by lia. cbn [nth]. change (256 ^ Z.of_nat 0) with 1.
    rewrite Z.div_1_r. reflexivity.
  - rewrite app_nth1 by (rewrite length_be_bytes; lia). rewrite IH by lia.
    replace (S n - 1 - k)%nat with (S (n - 1 - k)) by lia.
    rewrite Nat2Z.inj_succ, Z.pow_succ_r, Z.div_div by lia. reflexivity.
Qed.

Lemma Byte_spec x n : wf x -> wf n -> wf (Byte x n) /\
  val (Byte x n) = if val n <? 32 then (val x / 256 ^ (31 - val n)) mod 256 else 0.
Proof.
  intros Hx Hn. unfold Byte. pose proof (IsUint64_spec n Hn) as Hu. pose proof (val_bounds n Hn).
  destruct (IsUint64 n) eqn:E; cbn [negb orb].
  - rewrite (IsUint64_l0 n Hn E). destruct (Z.leb_spec 32 (val n)), (Z.ltb_spec (val n) 32); try lia.
    + auto using wf_zero.
    + rewrite Bytes32_spec, nth_be_bytes, val_SetUint64 by (auto; lia).
      replace (Z.of_nat (32 - 1 - Z.to_nat (val n))) with (31 - val n) by lia.
      split; [|reflexivity]. apply wf_SetUint64. unfold u64_ok.
      match goal with |- context [?a mod 256] => pose proof (Z.mod_pos_bound a 256 ltac:(lia)) end. ulia.
  - symmetry in Hu. bsimp. destruct (Z.ltb_spec (val n) 32); [ulia|]. auto using wf_zero.
Qed.

(** The low [k] bits of [v] read as a [k]-bit two's-complement number. *)
Definition sign_extend (k v : Z) : Z :=
  let w := v mod 2 ^ k in if w <? 2 ^ (k - 1) then w else w - 2 ^ k.

Lemma SignExtend_spec n x : wf n -> wf x -> wf (SignExtend n x) /\
  val (SignExtend n x) =
    if val n <? 31 then sign_extend (8 * val n + 8) (val x) mod two256 else val x.
Proof.
  intros Hn Hx. unfold SignExtend. pose proof (IsUint64_spec n Hn) as Hu. pose proof (val_bounds n Hn).
  destruct (IsUint64 n) eqn:E; cbn [negb orb].
  2: { symmetry in Hu. bsimp. destruct (Z.ltb_spec (val n) 31); [ulia | auto]. }
  rewrite (IsUint64_l0 n Hn E). destruct (Z.leb_spec 31 (val n)), (Z.ltb_spec (val n) 31); try lia; auto.
  replace (val n * 8 + 7 + 1) with (8 * val n + 8) by lia. set (k := 8 * val n + 8).
  assert (8 <= k <= 248) as Hk by lia. replace (val n * 8 + 7) with (k - 1) by lia.
  destruct (mask_spec k ltac:(lia)) as [Hmw Hmv]. destruct (Not_spec _ Hmw) as [Hnw Hnv].
  rewrite Hmv in Hnv.
  pose proof (Z.pow_pos_nonneg 2 k ltac:(lia) ltac:(lia)) as Hpk.
  assert (two256 = 2 ^ (256 - k) * 2 ^ k) as Ep
    by (rewrite <- Z.pow_add_r by lia; replace (256 - k + k) with 256 by lia; reflexivity).
  replace (two256 - 1 - (2 ^ (256 - k) - 1) * 2 ^ k) with (Z.ones k) in Hnv
    by (rewrite Z.ones_equiv, Ep; lia).
  pose proof (Z.mod_pos_bound (val x) (2 ^ k) Hpk) as Hmb.
  assert (Z.testbit (val x) (k - 1) = (2 ^ (k - 1) <=? val x mod 2 ^ k)) as Hbit.
  { rewrite <- (Z.mod_pow2_bits_low (val x) k) by lia. apply testbit_top; [lia|].
    replace (k - 1 + 1) with k by lia. exact Hmb. }
  assert (2 ^ k <= two256) by (change two256 with (2 ^ 256); apply Z.pow_le_mono_r; lia).
  rewrite Bit_spec by (auto; lia). rewrite Hbit. unfold sign_extend.
  destruct (Z.leb_spec (2 ^ (k - 1)) (val x mod 2 ^ k)), (Z.ltb_spec (val x mod 2 ^ k) (2 ^ (k - 1)));
    try lia; cbn [Z.b2z Z.eqb Pos.eqb].
  - destruct (Or_spec _ _ Hx Hmw) as [Hw Hv]. split; [exact Hw|]. rewrite Hv, Hmv.
    assert (Z.lor (val x) ((2 ^ (256 - k) - 1) * 2 ^ k)
            = val x mod 2 ^ k + (2 ^ (256 - k) - 1) * 2 ^ k) as ->.
    { rewrite <- lor_low_high by (auto; lia). apply Z.bits_inj'. intros i Hi. rewrite !Z.lor_spec.
      destruct (Z.lt_ge_cases i k); [rewrite Z.mod_pow2_bits_low by lia; reflexivity|].
      rewrite (Z.mod_pow2_bits_high _ k i), Z.mul_pow2_bits by lia.
      replace (2 ^ (256 - k) - 1) with (Z.ones (256 - k)) by (rewrite Z.ones_equiv; lia).
      destruct (Z.lt_ge_cases i 256); [rewrite Z.ones_spec_low by lia; apply orb_true_r|].
      rewrite testbit_high by (auto; lia). reflexivity. }
    apply Z.mod_unique with (q := -1); lia.
  - destruct (And_spec _ _ Hx Hnw) as [Hw Hv]. split; [exact Hw|].
    rewrite Hv, Hnv, Z.land_ones by lia. symmetry. apply Z.mod_small. lia.
Qed.

(** ** Signed comparison *)

Lemma SLt_spec x y : wf x -> wf y -> SLt x y = (signed (val x) <? signed (val y)).
Proof.
  intros Hx Hy. unfold SLt, Lt. rewrite Cmp_ltb, !IsNegative_spec by assumption.
  pose proof (val_bounds x Hx). pose proof (val_bounds y Hy). unfold signed.
  apply eq_true_iff_eq. repeat bcase; cbn [andb negb] in *; bsimp; try discriminate;
    rewrite ?Z.ltb_lt; split; intros; try discriminate; try reflexivity; ulia.
Qed.

Lemma SGt_SLt x y : wf x -> wf y -> SGt x y = SLt y x.
Proof.
  intros Hx Hy. unfold SGt, SLt, Gt, Lt. rewrite !Cmp_spec by assumption.
  rewrite (Z.compare_antisym (val x) (val y)).
  destruct (IsNegative x), (IsNegative y), (val x ?= val y); reflexivity.
Qed.

(** * Main theorems *)

(** Addition, subtraction, negation and multiplication on the four limbs
    are the operations of the integers modulo 2^256, and the overflow flags of
    AddOverflow, SubOverflow and MulOverflow are set exactly when the true
    result does not fit in 256 bits. *)
Theorem ring_operations_refine (x y : Int) (Hx : wf x) (Hy : wf y) :
  val (Add x y) = (val x + val y) mod two256 /\
  val (Sub x y) = (val x - val y) mod two256 /\
  val (Mul x y) = (val x * val y) mod two256 /\
  val (Neg x) = (- val x) mod two256 /\
  AddOverflow x y = (Add x y, two256 <=? val x + val y) /\
  SubOverflow x y = (Sub x y, val x <? val y) /\
  MulOverflow x y = (Mul x y, two256 <=? val x * val y) /\
  (wf (Add x y) /\ wf (Sub x y) /\ wf (Mul x y) /\ wf (Neg x)).
Proof.
  destruct (Add_spec x y Hx Hy), (Sub_spec x y Hx Hy), (Mul_spec x y Hx Hy), (Neg_spec x Hx).
  destruct (AddOverflow_spec x y Hx Hy) as (_ & _ & Ha).
  destruct (SubOverflow_spec x y Hx Hy) as (_ & _ & Hs).
  destruct (MulOverflow_spec x y Hx Hy) as (Hm1 & Hm2).
  rewrite (surjective_pairing (AddOverflow x y)), Ha, <- Add_AddOverflow.
  rewrite (surjective_pairing (SubOverflow x y)), Hs, <- Sub_SubOverflow.
  rewrite (surjective_pairing (MulOverflow x y)), Hm1, Hm2. tauto.
Qed.

Lemma ring_operations_refine_witness :
  val (Mul (mkInt max_uint64 max_uint64 0 0) (mkInt 0 0 5 7)) =
  (val (mkInt max_uint64 max_uint64 0 0) * val (mkInt 0 0 5 7)) mod two256.
Proof.
  refine (proj1 (proj2 (proj2
    (ring_operations_refine (mkInt max_uint64 max_uint64 0 0) (mkInt 0 0 5 7) _ _))));
    vm_compute; intuition discriminate.
Defined.

(** Division never reaches the panic of [bits.Div64], on any of its three
    paths; it returns the Euclidean quotient and remainder, and zero for a zero
    divisor. *)
Theorem division_refines (x y : Int) (Hx : wf x) (Hy : wf y) :
  exists q r, divMod x y = Some (q, r) /\ Div x y = Some q /\ Mod x y = Some r /\
    wf q /\ wf r /\
    val q = (if val y =? 0 then 0 else val x / val y) /\
    val r = (if val y =? 0 then 0 else val x mod val y).
Proof.
  destruct (divMod_spec x y Hx Hy) as (q & r & E & Hq & Hr & Hqv & Hrv).
  exists q, r. unfold Div, Mod. rewrite E. repeat split; try apply Hq; try apply Hr; auto.
  rewrite Hqv. destruct (Z.eqb_spec (val y) 0) as [->|]; [apply Z.div_0_r | reflexivity].
Qed.

Lemma division_refines_witness :
  exists q r, divMod (mkInt 0 0 0 7) (mkInt 3 9 0 0) = Some (q, r) /\ val r < val (mkInt 3 9 0 0).
Proof.
  destruct (division_refines (mkInt 0 0 0 7) (mkInt 3 9 0 0)) as (q & r & E & _ & _ & _ & _ & _ & Hr);
    [vm_compute; intuition discriminate | vm_compute; intuition discriminate |].
  exists q, r. split; [exact E|]. rewrite Hr. apply Z.mod_pos_bound. reflexivity.
Defined.

(** SDIV and SMOD truncate toward zero on the two's-complement readings of
    their operands (the quotient of the least integer by minus one wraps), and
    SLT and SGT compare those readings. *)
Theorem signed_operations_refine (x y : Int) (Hx : wf x) (Hy : wf y) :
  (exists z, SDiv x y = Some z /\ wf z /\
     val z = (if val y =? 0 then 0 else Z.quot (signed (val x)) (signed (val y))) mod two256) /\
  (exists z, SMod x y = Some z /\ wf z /\
     val z = (if val y =? 0 then 0 else Z.rem (signed (val x)) (signed (val y))) mod two256) /\
  SLt x y = (signed (val x) <? signed (val y)) /\
  SGt x y = (signed (val y) <? signed (val x)).
Proof.
  split; [|split; [exact (SMod_spec x y Hx Hy)|]].
  - destruct (SDiv_spec x y Hx Hy) as (z & E & Hw & Hv). exists z. split; [exact E|].
    split; [exact Hw|]. rewrite Hv. destruct (Z.eqb_spec (val y) 0) as [->|]; [|reflexivity].
    change (signed 0) with 0. rewrite Z.quot_0_r_ext by reflexivity. reflexivity.
  - rewrite SGt_SLt, !SLt_spec by assumption. auto.
Qed.

Lemma signed_operations_refine_witness :
  SLt (Neg one) one = true /\ SDiv (mkInt 0 0 0 9223372036854775808) (Neg one)
    = Some (mkInt 0 0 0 9223372036854775808).
Proof.
  split; [|vm_compute; reflexivity].
  refine (eq_trans (proj1 (proj2 (proj2 (signed_operations_refine (Neg one) one _ _)))) _);
    vm_compute; intuition discriminate.
Defined.

(** ADDMOD and MULMOD reduce the unbounded sum and the full 512-bit product,
    not their 256-bit truncations, and EXP is exponentiation modulo 2^256. *)
Theorem modular_operations_refine (x y m : Int) (Hx : wf x) (Hy : wf y) (Hm : wf m) :
  (exists z, AddMod x y m = Some z /\ wf z /\
     val z = if val m =? 0 then 0 else (val x + val y) mod val m) /\
  (wf (MulMod x y m) /\ val (MulMod x y m) = if val m =? 0 then 0 else (val x * val y) mod val m) /\
  (wf (Exp x y) /\ val (Exp x y) = val x ^ val y mod two256).
Proof. auto using AddMod_spec, MulMod_spec, Exp_spec. Qed.

Lemma modular_operations_refine_witness :
  val (MulMod SetAllOnes SetAllOnes (mkInt 12 0 0 0)) = 9.
Proof.
  refine (eq_trans (proj2 (proj1 (proj2
    (modular_operations_refine SetAllOnes SetAllOnes (mkInt 12 0 0 0) _ _ _)))) _);
    vm_compute; intuition discriminate.
Defined.

(** SHL, SHR and SAR are multiplication modulo 2^256, floor division and
    signed floor division by the power of two, for every shift amount; BYTE
    selects the byte and SIGNEXTEND reads the low bytes as a signed number. *)
Theorem shift_operations_refine (x k : Int) (n : Z) (Hx : wf x) (Hk : wf k) (Hn : 0 <= n) :
  val (Lsh x n) = (val x * 2 ^ n) mod two256 /\
  val (Rsh x n) = val x / 2 ^ n /\
  val (SRsh x n) = (signed (val x) / 2 ^ n) mod two256 /\
  val (Byte x k) = (if val k <? 32 then (val x / 256 ^ (31 - val k)) mod 256 else 0) /\
  val (SignExtend k x) =
    (if val k <? 31 then sign_extend (8 * val k + 8) (val x) mod two256 else val x) /\
  (wf (Lsh x n) /\ wf (Rsh x n) /\ wf (SRsh x n) /\ wf (Byte x k) /\ wf (SignExtend k x)).
Proof.
  destruct (Lsh_spec x n Hx Hn), (Rsh_spec x n Hx Hn), (SRsh_spec x n Hx Hn),
    (Byte_spec x k Hx Hk), (SignExtend_spec k x Hk Hx). tauto.
Qed.

Lemma shift_operations_refine_witness :
  val (SRsh (Neg (mkInt 5 0 0 0)) 1) = two256 - 3.
Proof.
  refine (eq_trans (proj1 (proj2 (proj2
    (shift_operations_refine (Neg (mkInt 5 0 0 0)) one 1 _ _ _)))) _);
    vm_compute; intuition discriminate.
Defined.

Lemma SetBytes_Bytes32 z : wf z -> SetBytes (Bytes32 z) = z.
Proof.
  intros Hz. rewrite Bytes32_spec by exact Hz.
  destruct (SetBytes_spec (be_bytes 32 (val z)) (be_bytes_ok _ _)) as [Hw Hv].
  apply (val_inj _ _ Hw Hz). rewrite Hv, be_val_be_bytes.
  replace (256 ^ Z.of_nat 32) with two256 by (vm_compute; reflexivity).
  rewrite !val_mod by exact Hz. reflexivity.
Qed.

Lemma SetBytes_Bytes z : wf z -> SetBytes (Bytes z) = z.
Proof.
  intros Hz. unfold Bytes. rewrite Bytes32_spec by exact Hz.
  destruct (SetBytes_spec _ (strip_zeros_ok _ (be_bytes_ok 32 (val z)))) as [Hw Hv].
  apply (val_inj _ _ Hw Hz). rewrite Hv, strip_zeros_val, be_val_be_bytes.
  replace (256 ^ Z.of_nat 32) with two256 by (vm_compute; reflexivity).
  rewrite !val_mod by exact Hz. reflexivity.
Qed.

Lemma SetBig_val z : wf z -> SetBig (Some (val z)) = z.
Proof.
  intros Hz. destruct (SetBig_spec (val z)) as [Hw Hv]. apply (val_inj _ _ Hw Hz).
  rewrite Hv. apply val_mod, Hz.
Qed.

Lemma length_Bytes32 z : wf z -> length (Bytes32 z) = 32%nat.
Proof. intros Hz. rewrite Bytes32_spec by exact Hz. apply length_be_bytes. Qed.

(** The 32-byte and the minimal encodings are read back to the same
    integer, SetBytes reduces longer inputs modulo 2^256, the minimal encoding
    has no leading zero, and the conversions from and to big integers agree
    with the value (two's complement for negative ones). *)
Theorem bytes_roundtrip (z : Int) (b : bytes) (v : Z) (Hz : wf z) (Hb : bytes_ok b) :
  SetBytes (Bytes32 z) = z /\ SetBytes (Bytes z) = z /\
  length (Bytes32 z) = 32%nat /\ no_leading_zero (Bytes z) /\
  val (SetBytes b) = be_val b mod two256 /\
  ToBig z = val z /\ SetBig (Some (ToBig z)) = z /\ ToBig (SetBig (Some v)) = v mod two256.
Proof.
  destruct (SetBytes_spec b Hb) as [_ Hv]. destruct (SetBig_spec v) as [Hw4 Hv4].
  rewrite (ToBig_spec z Hz), (ToBig_spec _ Hw4).
  split; [apply SetBytes_Bytes32, Hz|]. split; [apply SetBytes_Bytes, Hz|].
  split; [apply length_Bytes32, Hz|]. split; [apply strip_zeros_nlz|].
  split; [exact Hv|]. split; [reflexivity|]. split; [apply SetBig_val, Hz | exact Hv4].
Qed.

Lemma bytes_roundtrip_witness :
  SetBytes (Bytes (mkInt 258 0 77 0)) = mkInt 258 0 77 0.
Proof.
  refine (proj1 (proj2 (bytes_roundtrip (mkInt 258 0 77 0) [1] 0 _ _)));
    [vm_compute; intuition discriminate | repeat constructor; vm_compute; discriminate].
Defined.

End U256.
