(* ===== verification/RLP.v ===== *)
(** Recursive length prefix encoding (src/rlp/encode.go, src/rlp/decode.go).

    A [Stream] of the source is a byte slice with a cursor; every method reads
    from the cursor on, so a stream is modelled by its unread bytes
    [data[pos:]] and a method returns what is left.  The reflective encoder and
    decoder run over a universe [GoType] of the Go types that package rlp
    handles, with values [GoVal]; types with their own EncodeRLP/DecodeRLP
    methods are not in the universe.  Decoding is into a fresh zero value. *)

From Stdlib Require Import Ascii String ZArith List Lia Bool.
From S2P Require Import Prelude.
Import ListNotations.
Local Open Scope Z_scope.
Local Open Scope list_scope.
Local Open Scope go_scope.
Local Set Warnings "-register-all".

Module Rlp.

(** * Errors *)

Inductive error :=
| ErrNegativeBigInt
| ErrUnsupported
| ErrUnexpectedEOF
| ErrExpectedString
| ErrExpectedList
| ErrCanonInt
| ErrCanonSize
| ErrOversizedLength
| ErrTrailingData
| ErrTooManyFields
| ErrTooFewFields
| ErrValueTooLarge
| ErrNotBoolean
| ErrUnknownTag
| ErrRequiredAfterOptional
| GoPanic        (* run-time panic: slice bounds out of range *)
| IllTyped       (* a value that is not of its Go type *)
| OutOfFuel.     (* the element loop of a slice ran past its bound *)

Definition EmptyString : Z := 128.
Definition EmptyList : Z := 192.

(** * Byte strings and headers *)

(** The loop of [putUint]: at most eight bytes of a [uint64]. *)
Fixpoint putUint_loop (fuel : nat) (v : Z) (tmp : bytes) : bytes :=
  match fuel with
  | O => tmp
  | S f => if 0 <? v then putUint_loop f (Z.shiftr v 8) (wrap8 v :: tmp) else tmp
  end.

Definition putUint (v : Z) : bytes := if v =? 0 then [] else putUint_loop 8 v [].

Definition writeHeader (length offset : Z) : bytes :=
  if length <? 56 then [wrap8 (offset + wrap8 length)]
  else
    let lenBytes := putUint length in
    wrap8 (offset + 55 + wrap8 (len lenBytes)) :: lenBytes.

Definition writeListHeader (payloadLen : Z) : bytes := writeHeader payloadLen 192.

Definition writeBytes (b : bytes) : bytes :=
  match b with
  | [c] => if c <? 128 then [c] else writeHeader (len b) 128 ++ b
  | _ => writeHeader (len b) 128 ++ b
  end.

Definition EncodeBytes (b : bytes) : bytes := writeBytes b.

Definition EncodeList (items : list bytes) : bytes :=
  writeListHeader (zsum (map len items)) ++ concat items.

(** * The stream *)

Inductive Kind := KByte | KString | KList.

Definition Empty (s : bytes) : bool := len s =? 0.

(** [size = size<<8 | uint64(c)] over the bytes of [raw]. *)
Definition be_uint64 (raw : bytes) : Z :=
  fold_left (fun size c => Z.lor (wrap64 (Z.shiftl size 8)) c) raw 0.

Definition peekLength (s : bytes) (lenOfLen : Z) : result error Z :=
  if 8 <? lenOfLen then Err ErrOversizedLength
  else if len s <? 1 + lenOfLen then Err ErrUnexpectedEOF
  else
    let raw := slice s 1 (1 + lenOfLen) in
    if hd 0 raw =? 0 then Err ErrCanonSize
    else
      let size := be_uint64 raw in
      if size <? 56 then Err ErrCanonSize
      else if max_int64 <? size then Err ErrOversizedLength
      else Ok size.

Definition StreamKind (s : bytes) : result error (Kind * Z) :=
  match s with
  | [] => Err ErrUnexpectedEOF
  | b :: _ =>
      if b <? 128 then Ok (KByte, 1)
      else if b <? 184 then Ok (KString, b - 128)
      else if b <? 192 then let! size := peekLength s (b - 183) in Ok (KString, size)
      else if b <? 248 then Ok (KList, b - 192)
      else let! size := peekLength s (b - 247) in Ok (KList, size)
  end.

Fixpoint byteLen_loop (fuel : nat) (v n : Z) : Z :=
  match fuel with
  | O => n
  | S f => if 0 <? v then byteLen_loop f (Z.shiftr v 8) (n + 1) else n
  end.

Definition byteLen (v : Z) : Z := byteLen_loop 8 v 0.

Definition headerSize (kind : Kind) (size : Z) : Z :=
  match kind with
  | KByte => 0
  | KString | KList => if size <? 56 then 1 else 1 + byteLen size
  end.

Definition StreamBytes (s : bytes) : result error (bytes * bytes) :=
  let! (kind, size) := StreamKind s in
  match kind with
  | KList => Err ErrExpectedString
  | KByte => Ok (firstn 1 s, skipn 1 s)
  | KString =>
      let hdr := headerSize kind size in
      if wrap64 (len s) <? hdr +w size then Err ErrUnexpectedEOF
      else if (size =? 1) && (nth (Z.to_nat hdr) s 0 <? 128) then Err ErrCanonSize
      else Ok (slice s hdr (hdr + size), skipn (Z.to_nat (hdr + size)) s)
  end.

(** [Raw]: the sum of header and size is a Go [int], so it wraps; a negative
    upper bound makes the slice expression panic. *)
Definition Raw (s : bytes) : result error (bytes * bytes) :=
  let! (kind, size) := StreamKind s in
  let total := match kind with
               | KByte => 1
               | _ => wrap_int (headerSize kind size + size)
               end in
  if len s <? total then Err ErrUnexpectedEOF
  else if total <? 0 then Err GoPanic
  else Ok (firstn (Z.to_nat total) s, skipn (Z.to_nat total) s).

Definition StreamList (s : bytes) : result error (bytes * bytes) :=
  let! (kind, size) := StreamKind s in
  match kind with
  | KList =>
      let hdr := headerSize kind size in
      if wrap64 (len s) <? hdr +w size then Err ErrUnexpectedEOF
      else Ok (slice s hdr (hdr + size), skipn (Z.to_nat (hdr + size)) s)
  | _ => Err ErrExpectedList
  end.

Definition Uint (s : bytes) : result error (Z * bytes) :=
  let! (b, r) := StreamBytes s in
  if 8 <? len b then Err ErrValueTooLarge
  else if (0 <? len b) && (hd 0 b =? 0) then Err ErrCanonInt
  else Ok (be_uint64 b, r).

Definition BigInt (s : bytes) : result error (Z * bytes) :=
  let! (b, r) := StreamBytes s in
  if (0 <? len b) && (hd 0 b =? 0) then Err ErrCanonInt
  else Ok (be_val b, r).

(** The element loop of [Split]; one byte at least goes per element. *)
Fixpoint split_loop (fuel : nat) (inner : bytes) : result error (list bytes) :=
  if Empty inner then Ok []
  else match fuel with
       | O => Err OutOfFuel
       | S f =>
           let! (item, r) := Raw inner in
           let! out := split_loop f r in
           Ok (item :: out)
       end.

Definition Split (data : bytes) : result error (list bytes) :=
  let! (inner, _) := StreamList data in
  split_loop (length inner) inner.

(** * Go types and values *)

Record Field (T : Type) := mkField
  { f_name : string; f_exported : bool; f_tag : string; f_type : T }.
Arguments mkField {T}.
Arguments f_name {T}.
Arguments f_exported {T}.
Arguments f_tag {T}.
Arguments f_type {T}.

Inductive GoType :=
| TRaw                                   (* rlp.RawValue *)
| TString
| TBool
| TUint (bits : Z)
| TBigInt                                (* big.Int *)
| TInterface                             (* any *)
| TUnsupported                           (* int, float, map, chan, func *)
| TPtr (t : GoType)
| TSlice (t : GoType)
| TArray (n : nat) (t : GoType)
| TStruct (fields : list (Field GoType)).

(** [VNil] is a nil pointer, slice or interface; [VBytes] a string, a byte
    array or a non-nil byte slice. *)
Inductive GoVal :=
| VNil
| VBytes (b : bytes)
| VBool (b : bool)
| VUint (u : Z)
| VBig (i : Z)
| VPtr (v : GoVal)
| VIface (t : GoType) (v : GoVal)
| VSeq (vs : list GoVal)
| VStruct (vs : list GoVal).

Definition is_uint8 (t : GoType) : bool :=
  match t with
  | TUint b => b =? 8
  | _ => false
  end.

(** ** Struct tags *)

Record fieldInfo := mkInfo { optional : bool; nilOK : bool }.

(** [splitTag]: the comma-separated options, none for the empty tag. *)
Fixpoint split_commas (tag cur : string) : list string :=
  match tag with
  | String.EmptyString => [cur]
  | String c r =>
      if Ascii.eqb c "," then cur :: split_commas r ""%string
      else split_commas r (cur ++ String c "")%string
  end.

Definition splitTag (tag : string) : list string :=
  if String.eqb tag "" then [] else split_commas tag "".

Fixpoint parse_tag (opts : list string) (info : fieldInfo) : result error fieldInfo :=
  match opts with
  | [] => Ok info
  | opt :: r =>
      if String.eqb opt "" || String.eqb opt "nil"
      then parse_tag r (mkInfo (optional info) (String.eqb opt "nil"))
      else if String.eqb opt "optional" then parse_tag r (mkInfo true (nilOK info))
      else Err ErrUnknownTag
  end.

(** [structFields]: entry [i] is the info of field [i], [None] when the field is
    unexported or tagged out. *)
Fixpoint structFields_loop {T} (fs : list (Field T)) (seenOptional : bool)
    : result error (list (option fieldInfo)) :=
  match fs with
  | [] => Ok []
  | f :: r =>
      if negb (f_exported f) || String.eqb (f_tag f) "-" then
        let! out := structFields_loop r seenOptional in
        Ok (None :: out)
      else
        let! info := parse_tag (splitTag (f_tag f)) (mkInfo false false) in
        if negb (optional info) && seenOptional then Err ErrRequiredAfterOptional
        else
          let! out := structFields_loop r (seenOptional || optional info) in
          Ok (Some info :: out)
  end.

Definition structFields {T} (fs : list (Field T)) : result error (list (option fieldInfo)) :=
  structFields_loop fs false.

(** ** Zero values *)

Fixpoint zero_val (t : GoType) : GoVal :=
  match t with
  | TString => VBytes []
  | TBool => VBool false
  | TUint _ => VUint 0
  | TBigInt => VBig 0
  | TArray n e => if is_uint8 e then VBytes (repeat 0 n) else VSeq (repeat (zero_val e) n)
  | TStruct fs => VStruct (map (fun f => match f with mkField _ _ _ t => zero_val t end) fs)
  | TRaw | TInterface | TUnsupported | TPtr _ | TSlice _ => VNil
  end.

(** [reflect.Value.IsZero]. *)
Fixpoint IsZero (v : GoVal) (t : GoType) {struct v} : bool :=
  match v, t with
  | VNil, _ => true
  | VBytes b, TString => len b =? 0
  | VBytes b, TArray _ _ => forallb (fun c => c =? 0) b
  | VBool b, _ => negb b
  | VUint u, _ => u =? 0
  | VBig i, _ => i =? 0
  | VSeq vs, TArray _ e => forallb (fun x => IsZero x e) vs
  | VStruct vs, TStruct fs =>
      (fix all (vs : list GoVal) (fs : list (Field GoType)) : bool :=
         match vs, fs with
         | x :: vs', f :: fs' => IsZero x (f_type f) && all vs' fs'
         | _, _ => true
         end) vs fs
  | _, _ => false
  end.

(** * Encoding *)

(** Trailing optional fields that hold their zero value are dropped: the loop
    on [last] of [encodeStruct].  An entry is (droppable, encoding). *)
Fixpoint drop_trailing (l : list (bool * result error bytes)) : list (result error bytes) :=
  match l with
  | [] => []
  | (z, e) :: r =>
      match drop_trailing r with
      | [] => if z then [] else [e]
      | r' => e :: r'
      end
  end.

(** Encoding in sequence into one buffer; the first error stops. *)
Fixpoint sequence (l : list (result error bytes)) : result error bytes :=
  match l with
  | [] => Ok []
  | e :: r =>
      let! b := e in
      let! rest := sequence r in
      Ok (b ++ rest)
  end.

Definition write_list (inner : bytes) : bytes := writeListHeader (len inner) ++ inner.

Definition is_struct (t : GoType) : bool :=
  match t with
  | TStruct _ => true
  | _ => false
  end.

(** The selected fields of a struct with their encodings. *)
Section EncodeFields.
Variable enc : GoVal -> GoType -> result error bytes.

Fixpoint encode_fields (vs : list GoVal) (fs : list (Field GoType)) (infos : list (option fieldInfo))
    : list (bool * result error bytes) :=
  match vs, fs, infos with
  | x :: vs', f :: fs', Some info :: is' =>
      (optional info && IsZero x (f_type f), enc x (f_type f)) :: encode_fields vs' fs' is'
  | _ :: vs', _ :: fs', None :: is' => encode_fields vs' fs' is'
  | _, _, _ => []
  end.

End EncodeFields.

Fixpoint encodeValue (v : GoVal) (t : GoType) {struct v} : result error bytes :=
  match t with
  | TRaw =>
      match v with
      | VNil => Ok [EmptyString]
      | VBytes raw => Ok (if len raw =? 0 then [EmptyString] else raw)
      | _ => Err IllTyped
      end
  | TPtr e =>
      match v with
      | VNil => Ok [if is_struct e then EmptyList else EmptyString]
      | VPtr x => encodeValue x e
      | _ => Err IllTyped
      end
  | TInterface =>
      match v with
      | VNil => Ok [EmptyString]
      | VIface t' x => encodeValue x t'
      | _ => Err IllTyped
      end
  | TBigInt =>
      match v with
      | VBig i => if i <? 0 then Err ErrNegativeBigInt else Ok (writeBytes (big_bytes i))
      | _ => Err IllTyped
      end
  | TStruct fs =>
      match v with
      | VStruct vs =>
          let! infos := structFields fs in
          let! inner := sequence (drop_trailing
            (encode_fields (fun x t => encodeValue x t) vs fs infos)) in
          Ok (write_list inner)
      | _ => Err IllTyped
      end
  | TString =>
      match v with
      | VBytes b => Ok (writeBytes b)
      | _ => Err IllTyped
      end
  | TBool =>
      match v with
      | VBool b => Ok [if b then 1 else EmptyString]
      | _ => Err IllTyped
      end
  | TUint _ =>
      match v with
      | VUint u => Ok (writeBytes (putUint u))
      | _ => Err IllTyped
      end
  | TSlice e =>
      match v with
      | VNil => Ok (if is_uint8 e then writeBytes [] else write_list [])
      | VBytes b => if is_uint8 e then Ok (writeBytes b) else Err IllTyped
      | VSeq vs =>
          if is_uint8 e then Err IllTyped
          else let! inner := sequence (map (fun x => encodeValue x e) vs) in Ok (write_list inner)
      | _ => Err IllTyped
      end
  | TArray _ e =>
      match v with
      | VBytes b => if is_uint8 e then Ok (writeBytes b) else Err IllTyped
      | VSeq vs =>
          if is_uint8 e then Err IllTyped
          else let! inner := sequence (map (fun x => encodeValue x e) vs) in Ok (write_list inner)
      | _ => Err IllTyped
      end
  | TUnsupported => Err ErrUnsupported
  end.

Definition Encode (v : GoVal) (t : GoType) : result error bytes := encodeValue v t.

(** * Decoding *)

(** [append([]byte(nil), b...)] of an empty slice is nil. *)
Definition bytes_value (b : bytes) : GoVal :=
  match b with
  | [] => VNil
  | _ => VBytes b
  end.

Definition is_ptr (t : GoType) : bool :=
  match t with
  | TPtr _ => true
  | _ => false
  end.

(** The [for !inner.Empty()] loop of a slice, by the decoder of its elements. *)
Fixpoint decode_elems (dec : bytes -> result error (GoVal * bytes)) (fuel : nat) (inner : bytes)
    : result error (list GoVal) :=
  if Empty inner then Ok []
  else match fuel with
       | O => Err OutOfFuel
       | S f =>
           let! (x, r) := dec inner in
           let! xs := decode_elems dec f r in
           Ok (x :: xs)
       end.

(** The loop over the [n] elements of an array. *)
Fixpoint decode_array (dec : bytes -> result error (GoVal * bytes)) (n : nat) (inner : bytes)
    : result error (list GoVal) :=
  match n with
  | O => if Empty inner then Ok [] else Err ErrTooManyFields
  | S m =>
      if Empty inner then Err ErrTooFewFields
      else
        let! (x, r) := dec inner in
        let! xs := decode_array dec m r in
        Ok (x :: xs)
  end.

(** The field loop of [decodeStruct], by the decoder of the field types. *)
Section DecodeFields.
Variable dec : GoType -> bytes -> result error (GoVal * bytes).

(** An empty item stands for an absent value of a nil-able pointer field. *)
Definition absent_item (info : fieldInfo) (ft : GoType) (inner : bytes) : result error bool :=
  if nilOK info && is_ptr ft then
    let! (kind, size) := StreamKind inner in
    Ok ((size =? 0) && match kind with KByte => false | _ => true end)
  else Ok false.

Definition decode_field (info : fieldInfo) (ft : GoType) (inner : bytes)
    : result error (GoVal * bytes) :=
  let! (absent : bool) := absent_item info ft inner in
  if absent then let! (_, inner') := Raw inner in Ok (VNil, inner')
  else dec ft inner.

Fixpoint decode_fields (fs : list (Field GoType)) (infos : list (option fieldInfo)) (inner : bytes)
    : result error (list GoVal) :=
  match fs, infos with
  | f :: fs', Some info :: is' =>
      if Empty inner then
        if optional info then
          let! xs := decode_fields fs' is' inner in Ok (zero_val (f_type f) :: xs)
        else Err ErrTooFewFields
      else
        let! (x, inner') := decode_field info (f_type f) inner in
        let! xs := decode_fields fs' is' inner' in Ok (x :: xs)
  | f :: fs', None :: is' =>
      let! xs := decode_fields fs' is' inner in Ok (zero_val (f_type f) :: xs)
  | _, _ => if Empty inner then Ok [] else Err ErrTooManyFields
  end.

End DecodeFields.

Fixpoint decodeValue (t : GoType) (s : bytes) {struct t} : result error (GoVal * bytes) :=
  match t with
  | TRaw => let! (raw, r) := Raw s in Ok (bytes_value raw, r)
  | TPtr e =>
      match e with
      | TBigInt => let! (i, r) := BigInt s in Ok (VPtr (VBig i), r)
      | _ => let! (x, r) := decodeValue e s in Ok (VPtr x, r)
      end
  | TBigInt => let! (i, r) := BigInt s in Ok (VBig i, r)
  | TStruct fs =>
      let! infos := structFields fs in
      let! (inner, r) := StreamList s in
      let! vs := decode_fields (fun t => decodeValue t) fs infos inner in
      Ok (VStruct vs, r)
  | TString => let! (b, r) := StreamBytes s in Ok (VBytes b, r)
  | TBool =>
      let! (u, r) := Uint s in
      if 1 <? u then Err ErrNotBoolean else Ok (VBool (u =? 1), r)
  | TUint bits =>
      let! (u, r) := Uint s in
      if 2 ^ bits <=? u then Err ErrValueTooLarge else Ok (VUint u, r)
  | TSlice e =>
      if is_uint8 e then let! (b, r) := StreamBytes s in Ok (bytes_value b, r)
      else
        let! (inner, r) := StreamList s in
        let! xs := decode_elems (decodeValue e) (length inner) inner in
        Ok (VSeq xs, r)
  | TArray n e =>
      if is_uint8 e then
        let! (b, r) := StreamBytes s in
        if len b =? Z.of_nat n then Ok (VBytes b, r) else Err ErrValueTooLarge
      else
        let! (inner, r) := StreamList s in
        let! xs := decode_array (decodeValue e) n inner in
        Ok (VSeq xs, r)
  | TInterface => let! (raw, r) := Raw s in Ok (VIface TRaw (bytes_value raw), r)
  | TUnsupported => Err ErrUnsupported
  end.

(** [Decode]: exactly one item. *)
Definition Decode (data : bytes) (t : GoType) : result error GoVal :=
  let! (v, r) := decodeValue t data in
  if 0 <? len r then Err ErrTrailingData else Ok v.

(** * Integers and headers *)

Lemma be_uint64_acc b : bytes_ok b -> forall acc k, 0 <= k -> k + len b <= 8 -> 0 <= acc < 256 ^ k ->
  fold_left (fun size c => Z.lor (wrap64 (Z.shiftl size 8)) c) b acc = be_val_acc acc b.
Proof.
  induction 1 as [|c r Hc Hr IH]; intros acc k Hk Hl Ha; [reflexivity|].
  cbn [fold_left be_val_acc]. rewrite len_cons in Hl. pose proof (len_nonneg r).
  unfold byte_ok in Hc. assert (256 ^ (k + 1) = 256 * 256 ^ k) as Ep by (rewrite Z.pow_add_r by lia; lia).
  assert (256 ^ (k + 1) <= 256 ^ 8) as Hp by (apply Z.pow_le_mono_r; lia).
  change (256 ^ 8) with two64 in Hp.
  rewrite Z.shiftl_mul_pow2 by lia. change (2 ^ 8) with 256.
  rewrite wrap64_small by (unfold u64_ok; lia).
  rewrite Z.lor_comm. change 256 with (2 ^ 8) at 1. rewrite lor_low_high by lia.
  change (2 ^ 8) with 256. rewrite (Z.add_comm c). apply (IH _ (k + 1)); lia.
Qed.

Lemma be_uint64_spec b : bytes_ok b -> len b <= 8 -> be_uint64 b = be_val b.
Proof. intros Hb Hl. apply (be_uint64_acc b Hb 0 0); lia. Qed.

Lemma big_bytes_0 : big_bytes 0 = [].
Proof. reflexivity. Qed.

Lemma big_bytes_step v : 0 < v -> big_bytes v = big_bytes (v / 256) ++ [v mod 256].
Proof.
  intros Hv. pose proof (Z.mod_pos_bound v 256 ltac:(lia)) as Hm.
  pose proof (Z.div_mod v 256 ltac:(lia)) as Hd.
  assert (0 <= v / 256) as Hq by (apply Z.div_pos; lia).
  apply nlz_val_inj; auto using big_bytes_ok, big_bytes_nlz.
  - apply Forall_app. split; [apply big_bytes_ok|]. repeat constructor; lia.
  - pose proof (big_bytes_nlz (v / 256)) as Hn. unfold no_leading_zero in *.
    destruct (big_bytes (v / 256)) as [|c r] eqn:E; [|exact Hn]. cbn.
    pose proof (big_bytes_val (v / 256) Hq) as Hb. rewrite E in Hb. cbn in Hb. lia.
  - rewrite be_val_snoc, !big_bytes_val by lia. lia.
Qed.

Lemma putUint_loop_spec f : forall v tmp, 0 <= v < 256 ^ Z.of_nat f ->
  putUint_loop f v tmp = big_bytes v ++ tmp.
Proof.
  induction f as [|f IH]; intros v tmp Hv.
  - change (256 ^ Z.of_nat 0) with 1 in Hv. assert (v = 0) as -> by lia. reflexivity.
  - rewrite Nat2Z.inj_succ, Z.pow_succ_r in Hv by lia. cbn [putUint_loop].
    destruct (Z.ltb_spec 0 v); [|assert (v = 0) as -> by lia; reflexivity].
    rewrite Z.shiftr_div_pow2 by lia. change (2 ^ 8) with 256. rewrite IH.
    + rewrite (big_bytes_step v) by lia. rewrite <- app_assoc. reflexivity.
    + split; [apply Z.div_pos; lia | apply Z.div_lt_upper_bound; lia].
Qed.

Lemma putUint_spec v : u64_ok v -> putUint v = big_bytes v.
Proof.
  unfold u64_ok. intros Hv. unfold putUint. destruct (Z.eqb_spec v 0) as [->|]; [reflexivity|].
  rewrite putUint_loop_spec by exact Hv. apply app_nil_r.
Qed.

Lemma byteLen_spec v : u64_ok v -> byteLen v = len (big_bytes v).
Proof.
  assert (forall f v n, 0 <= v < 256 ^ Z.of_nat f -> byteLen_loop f v n = n + len (big_bytes v)) as H.
  { induction f as [|f IH]; intros w n Hv.
    - change (256 ^ Z.of_nat 0) with 1 in Hv. assert (w = 0) as -> by lia. rewrite big_bytes_0, (@len_nil Z). cbn [byteLen_loop]. lia.
    - rewrite Nat2Z.inj_succ, Z.pow_succ_r in Hv by lia. cbn [byteLen_loop].
      destruct (Z.ltb_spec 0 w); [|assert (w = 0) as -> by lia; rewrite big_bytes_0, (@len_nil Z); lia].
      rewrite Z.shiftr_div_pow2 by lia. change (2 ^ 8) with 256. rewrite IH.
      + rewrite (big_bytes_step w), len_app, len_cons, (@len_nil Z) by lia. lia.
      + split; [apply Z.div_pos; lia | apply Z.div_lt_upper_bound; lia]. }
  intros Hv. unfold byteLen. rewrite H by exact Hv. lia.
Qed.

Lemma big_bytes_len8 v : u64_ok v -> len (big_bytes v) <= 8.
Proof. intros Hv. apply big_bytes_len; [lia | exact Hv]. Qed.

Lemma big_bytes_pos v : 0 < v -> 1 <= len (big_bytes v).
Proof.
  intros Hv. rewrite big_bytes_step, len_app by exact Hv. pose proof (len_nonneg (big_bytes (v / 256))).
  rewrite len_cons, (@len_nil Z). lia.
Qed.

Definition offset_of (k : Kind) : Z :=
  match k with
  | KList => 192
  | _ => 128
  end.

Definition payload_len (L : Z) : Prop := 0 <= L <= max_int64.

Lemma payload_u64 L : payload_len L -> u64_ok L.
Proof. unfold payload_len, u64_ok, max_int64, two64. lia. Qed.

(** The two shapes of a header. *)
Lemma writeHeader_short k L : 0 <= L < 56 -> writeHeader L (offset_of k) = [offset_of k + L].
Proof.
  intros HL. unfold writeHeader. destruct (Z.ltb_spec L 56); [|lia].
  rewrite !wrap8_small; [reflexivity| |]; unfold byte_ok, offset_of;
    rewrite ?(wrap8_small L) by (unfold byte_ok; lia); destruct k; lia.
Qed.

Lemma writeHeader_long k L : payload_len L -> 56 <= L ->
  writeHeader L (offset_of k) = (offset_of k + 55 + len (big_bytes L)) :: big_bytes L /\
  1 <= len (big_bytes L) <= 8.
Proof.
  intros HP HL. pose proof (payload_u64 L HP) as Hu.
  pose proof (big_bytes_len8 L Hu). pose proof (big_bytes_pos L ltac:(lia)).
  split; [|lia]. unfold writeHeader. destruct (Z.ltb_spec L 56); [lia|].
  rewrite putUint_spec by exact Hu. rewrite !wrap8_small; [reflexivity| |];
    unfold byte_ok, offset_of; rewrite ?(wrap8_small (len _)) by (unfold byte_ok; lia);
    destruct k; lia.
Qed.

Lemma headerSize_spec k L : k <> KByte -> payload_len L ->
  headerSize k L = len (writeHeader L (offset_of k)).
Proof.
  intros Hk HP. assert (headerSize k L = if L <? 56 then 1 else 1 + byteLen L) as ->
    by (destruct k; [contradiction|reflexivity|reflexivity]).
  destruct (Z.ltb_spec L 56).
  - rewrite writeHeader_short by (unfold payload_len in HP; lia). reflexivity.
  - destruct (writeHeader_long k L HP ltac:(lia)) as [-> _].
    rewrite len_cons, byteLen_spec by (apply payload_u64, HP). reflexivity.
Qed.

Lemma slice1 {A} (c : A) (a r : list A) n : n = len a -> slice (c :: a ++ r) 1 (1 + n) = a.
Proof.
  intros ->. unfold slice. replace (1 + len a - 1) with (len a) by lia. cbn [skipn Z.to_nat Pos.to_nat].
  change (Pos.to_nat 1) with 1%nat. cbn [skipn]. apply firstn_len_app. unfold len. lia.
Qed.

(** Reading back a header. *)
Lemma peekLength_header c L rest : payload_len L -> 56 <= L ->
  peekLength (c :: big_bytes L ++ rest) (len (big_bytes L)) = Ok L.
Proof.
  intros HP HL. pose proof (payload_u64 L HP) as Hu.
  pose proof (big_bytes_len8 L Hu) as H8. pose proof (big_bytes_pos L ltac:(lia)) as H1.
  unfold peekLength. destruct (Z.ltb_spec 8 (len (big_bytes L))); [lia|].
  rewrite len_cons, len_app. pose proof (len_nonneg rest).
  destruct (Z.ltb_spec (1 + (len (big_bytes L) + len rest)) (1 + len (big_bytes L))); [lia|].
  rewrite slice1 by reflexivity. pose proof (big_bytes_nlz L) as Hn. unfold no_leading_zero in Hn.
  assert (hd 0 (big_bytes L) <> 0) as Hh.
  { destruct (big_bytes L); [cbn in H1; lia | exact Hn]. }
  destruct (Z.eqb_spec (hd 0 (big_bytes L)) 0); [contradiction|].
  unfold payload_len in HP.
  rewrite be_uint64_spec, big_bytes_val by (auto using big_bytes_ok; lia).
  destruct (Z.ltb_spec L 56), (Z.ltb_spec max_int64 L); try lia. reflexivity.
Qed.

Lemma kind_header k L rest : k <> KByte -> payload_len L ->
  StreamKind (writeHeader L (offset_of k) ++ rest) = Ok (k, L).
Proof.
  intros Hk HP. destruct (Z.lt_ge_cases L 56).
  - unfold payload_len in HP. rewrite writeHeader_short by lia. cbn [app StreamKind].
    destruct k; [contradiction| |]; cbn [offset_of];
      repeat (bcase; try lia); f_equal; f_equal; lia.
  - destruct (writeHeader_long k L HP ltac:(lia)) as [-> Hl]. cbn [app StreamKind].
    destruct k; [contradiction| |]; cbn [offset_of]; repeat (bcase; try lia).
    + replace (128 + 55 + len (big_bytes L) - 183) with (len (big_bytes L)) by lia.
      rewrite peekLength_header by assumption. reflexivity.
    + replace (192 + 55 + len (big_bytes L) - 247) with (len (big_bytes L)) by lia.
      rewrite peekLength_header by assumption. reflexivity.
Qed.

(** A slice of Go has at most [maxInt] bytes. *)
Definition fits (s : bytes) : Prop := len s <= max_int64.

Lemma fits_app a b : fits (a ++ b) -> fits a /\ fits b.
Proof.
  unfold fits. rewrite len_app. pose proof (len_nonneg a). pose proof (len_nonneg b). lia.
Qed.

Lemma payload_of_fits b : fits b -> payload_len (len b).
Proof. unfold fits, payload_len. pose proof (len_nonneg b). lia. Qed.

Lemma cut_payload (h p rest : bytes) :
  slice (h ++ p ++ rest) (len h) (len h + len p) = p /\
  skipn (Z.to_nat (len h + len p)) (h ++ p ++ rest) = rest.
Proof.
  unfold slice, len. split.
  - rewrite Nat2Z.id, skipn_len_app by reflexivity. apply firstn_len_app. lia.
  - rewrite app_assoc. apply skipn_len_app. rewrite length_app. lia.
Qed.

(** Remaining bytes suffice for what a header announces. *)
Lemma enough_bytes (h p rest : bytes) : fits (h ++ p ++ rest) ->
  (wrap64 (len (h ++ p ++ rest)) <? wrap64 (len h + len p)) = false.
Proof.
  unfold fits. rewrite !len_app.
  pose proof (len_nonneg h). pose proof (len_nonneg p). pose proof (len_nonneg rest). intros Hf.
  rewrite !wrap64_small by (unfold u64_ok, two64, max_int64 in *; lia). apply Z.ltb_ge. lia.
Qed.

Lemma list_write_list p rest : fits (write_list p ++ rest) ->
  StreamList (write_list p ++ rest) = Ok (p, rest).
Proof.
  intros Hf. unfold write_list, writeListHeader in *. rewrite <- app_assoc in *.
  pose proof (proj2 (fits_app _ _ Hf)) as Hf2. pose proof (payload_of_fits _ (proj1 (fits_app _ _ Hf2))) as HP.
  change 192 with (offset_of KList) in *. unfold StreamList.
  rewrite kind_header by (discriminate || exact HP). cbn [rbind].
  rewrite headerSize_spec by (discriminate || exact HP). rewrite enough_bytes by exact Hf.
  destruct (cut_payload (writeHeader (len p) (offset_of KList)) p rest) as [-> ->]. reflexivity.
Qed.

Lemma writeBytes_cases b :
  (exists c, b = [c] /\ c < 128 /\ writeBytes b = [c]) \/
  (writeBytes b = writeHeader (len b) 128 ++ b /\ ~ exists c, b = [c] /\ c < 128).
Proof.
  destruct b as [|c [|d r]].
  - right. split; [reflexivity|]. intros (? & ? & _). discriminate.
  - unfold writeBytes. destruct (Z.ltb_spec c 128).
    + left. eauto.
    + right. split; [reflexivity|]. intros (? & E & ?). injection E as <-. lia.
  - right. split; [reflexivity|]. intros (? & ? & _). discriminate.
Qed.

Lemma bytes_writeBytes b rest : fits (writeBytes b ++ rest) ->
  StreamBytes (writeBytes b ++ rest) = Ok (b, rest).
Proof.
  intros Hf. destruct (writeBytes_cases b) as [(c & -> & Hc & ->)|[E Hn]].
  - unfold StreamBytes. cbn [app StreamKind]. destruct (Z.ltb_spec c 128); [|lia]. reflexivity.
  - rewrite E in *. rewrite <- app_assoc in *.
    pose proof (proj2 (fits_app _ _ Hf)) as Hf2. pose proof (payload_of_fits _ (proj1 (fits_app _ _ Hf2))) as HP.
    change 128 with (offset_of KString) in *. unfold StreamBytes.
    rewrite kind_header by (discriminate || exact HP). cbn [rbind].
    rewrite headerSize_spec by (discriminate || exact HP). rewrite enough_bytes by exact Hf.
    destruct (cut_payload (writeHeader (len b) (offset_of KString)) b rest) as [-> ->].
    destruct (Z.eqb_spec (len b) 1) as [E1|]; cbn [andb]; [|reflexivity].
    destruct b as [|c [|]]; [discriminate| |rewrite !len_cons in E1; unfold len in E1; lia].
    replace (Z.to_nat (len (writeHeader (len [c]) (offset_of KString))))
      with (length (writeHeader (len [c]) (offset_of KString))) by (unfold len; lia).
    rewrite app_nth2 by lia. rewrite Nat.sub_diag. cbn [nth app].
    destruct (Z.ltb_spec c 128); [|reflexivity].
    exfalso. apply Hn. exists c. auto.
Qed.

(** Every item starts with a header, and the announced length is canonical. *)
Lemma peekLength_inv s n L : bytes_ok s -> 1 <= n <= 8 -> peekLength s n = Ok L ->
  payload_len L /\ 56 <= L /\ n = len (big_bytes L) /\
  exists c r, s = c :: big_bytes L ++ r.
Proof.
  intros Hok Hn. unfold peekLength. destruct (Z.ltb_spec 8 n); [discriminate|].
  destruct (Z.ltb_spec (len s) (1 + n)); [discriminate|].
  destruct s as [|c t]; [unfold len in *; cbn [length] in *; lia|]. rewrite len_cons in *. inversion_clear Hok as [|? ? Hc Ht].
  assert (slice (c :: t) 1 (1 + n) = firstn (Z.to_nat n) t) as ->.
  { unfold slice. replace (1 + n - 1) with n by lia. reflexivity. }
  set (raw := firstn (Z.to_nat n) t).
  assert (len raw = n) as Hlr by (unfold raw, len in *; rewrite length_firstn; lia).
  assert (bytes_ok raw) as Hrk.
  { unfold raw. rewrite <- (firstn_skipn (Z.to_nat n) t) in Ht. apply Forall_app in Ht. apply Ht. }
  destruct (Z.eqb_spec (hd 0 raw) 0) as [|Hh]; [discriminate|].
  rewrite be_uint64_spec by (auto; lia).
  destruct (Z.ltb_spec (be_val raw) 56); [discriminate|].
  destruct (Z.ltb_spec max_int64 (be_val raw)); [discriminate|]. injection 1 as <-.
  assert (no_leading_zero raw) as Hnl.
  { unfold no_leading_zero. destruct raw; [contradiction Hh; reflexivity | exact Hh]. }
  rewrite big_bytes_unique by assumption. split; [unfold payload_len; lia|]. split; [lia|].
  split; [lia|]. exists c, (skipn (Z.to_nat n) t). unfold raw. rewrite firstn_skipn. reflexivity.
Qed.

Lemma kind_inv s k L : bytes_ok s -> StreamKind s = Ok (k, L) ->
  match k with
  | KByte => L = 1 /\ exists c r, s = c :: r /\ 0 <= c < 128
  | _ => payload_len L /\ exists r, s = writeHeader L (offset_of k) ++ r
  end.
Proof.
  intros Hok. destruct s as [|b t]; [discriminate|]. cbn [StreamKind].
  pose proof Hok as Hok'. inversion_clear Hok' as [|? ? Hb Ht]. unfold byte_ok in Hb.
  assert (forall off, peekLength (b :: t) (b - (off + 55)) = Ok L -> 1 <= b - (off + 55) <= 8 ->
    forall k, off = offset_of k -> payload_len L /\ exists r, b :: t = writeHeader L (offset_of k) ++ r) as Hlong.
  { intros off Hp Hr kk Eo. destruct (peekLength_inv _ _ _ Hok Hr Hp) as (HP & H56 & Hn & c & r & E).
    split; [exact HP|]. exists r. destruct (writeHeader_long kk L HP H56) as [-> _].
    injection E as <- ->. cbn [app]. f_equal. lia. }
  assert (forall kk, 0 <= b - offset_of kk < 56 ->
    payload_len (b - offset_of kk) /\ exists r, b :: t = writeHeader (b - offset_of kk) (offset_of kk) ++ r) as Hshort.
  { intros kk Hr. split; [unfold payload_len, max_int64; lia|]. exists t.
    rewrite writeHeader_short by exact Hr. cbn [app]. f_equal. lia. }
  destruct (Z.ltb_spec b 128).
  { injection 1 as <- <-. split; [reflexivity|]. exists b, t. split; [reflexivity | lia]. }
  destruct (Z.ltb_spec b 184).
  { injection 1 as <- <-. apply (Hshort KString). cbn [offset_of]. lia. }
  destruct (Z.ltb_spec b 192).
  { destruct (peekLength (b :: t) (b - 183)) eqn:E; [|discriminate]. injection 1 as <- ->.
    apply (Hlong 128); [exact E | lia | reflexivity]. }
  destruct (Z.ltb_spec b 248).
  { injection 1 as <- <-. apply (Hshort KList). cbn [offset_of]. lia. }
  destruct (peekLength (b :: t) (b - 247)) eqn:E; [|discriminate]. injection 1 as <- ->.
  apply (Hlong 192); [exact E | lia | reflexivity].
Qed.

Lemma bytes_ok_app a b : bytes_ok (a ++ b) -> bytes_ok a /\ bytes_ok b.
Proof. apply Forall_app. Qed.

(** An item that was read is cut off the front of the stream. *)
Lemma cut_inv s (h r : bytes) n : s = h ++ r -> len h + n <= len s -> 0 <= n ->
  s = h ++ slice s (len h) (len h + n) ++ skipn (Z.to_nat (len h + n)) s /\
  len (slice s (len h) (len h + n)) = n.
Proof.
  intros -> Hl Hn. rewrite len_app in Hl. unfold slice, len in *.
  replace (Z.to_nat (Z.of_nat (length h) + n)) with (length h + Z.to_nat n)%nat by lia.
  replace (Z.of_nat (length h) + n - Z.of_nat (length h)) with n by lia.
  rewrite Nat2Z.id, skipn_len_app by reflexivity. rewrite skipn_app.
  rewrite (skipn_all2 h) by lia. cbn [app].
  replace (length h + Z.to_nat n - length h)%nat with (Z.to_nat n) by lia.
  rewrite firstn_skipn, length_firstn. split; [reflexivity | lia].
Qed.

(** The test [uint64(s.Remaining()) < uint64(hdr)+size] on a header that is there. *)
Lemma room s h r L : fits s -> s = h ++ r -> payload_len L -> len h <= 9 ->
  (wrap64 (len s) <? wrap64 (len h + L)) = false -> len h + L <= len s.
Proof.
  unfold fits, payload_len. intros Hf -> HP Hh. pose proof (len_nonneg h). pose proof (len_nonneg (h ++ r)).
  rewrite !wrap64_small by (unfold u64_ok, two64, max_int64 in *; lia). intros. bsimp. lia.
Qed.

Lemma len_writeHeader k L : payload_len L -> 1 <= len (writeHeader L (offset_of k)) <= 9.
Proof.
  intros HP. destruct (Z.lt_ge_cases L 56).
  - unfold payload_len in HP. rewrite writeHeader_short by lia. unfold len. cbn [length]. lia.
  - destruct (writeHeader_long k L HP ltac:(lia)) as [-> ?]. rewrite len_cons. lia.
Qed.

Lemma list_inv s p r : bytes_ok s -> fits s -> StreamList s = Ok (p, r) -> s = write_list p ++ r.
Proof.
  intros Hok Hf. unfold StreamList. destruct (StreamKind s) as [[k L]|] eqn:Ek; [|discriminate]. cbn [rbind].
  destruct k; try discriminate. destruct (kind_inv s KList L Hok Ek) as (HP & t & E).
  rewrite headerSize_spec by (discriminate || exact HP).
  pose proof (len_writeHeader KList L HP). set (h := writeHeader L (offset_of KList)) in *.
  destruct (wrap64 (len s) <? wrap64 (len h + L)) eqn:Er; [discriminate|].
  apply (room s h t L) in Er; auto; [|lia].
  destruct (cut_inv s h t L E Er (proj1 HP)) as [Es El].
  injection 1 as <- <-. unfold write_list, writeListHeader. rewrite El. rewrite <- app_assoc. exact Es.
Qed.

Lemma bytes_inv s b r : bytes_ok s -> fits s -> StreamBytes s = Ok (b, r) -> s = writeBytes b ++ r.
Proof.
  intros Hok Hf. unfold StreamBytes. destruct (StreamKind s) as [[k L]|] eqn:Ek; [|discriminate]. cbn [rbind].
  destruct k; try discriminate.
  - destruct (kind_inv s KByte L Hok Ek) as (_ & c & t & -> & Hc). injection 1 as <- <-. cbn [firstn writeBytes].
    destruct (Z.ltb_spec c 128); [reflexivity | lia].
  - destruct (kind_inv s KString L Hok Ek) as (HP & t & E).
    rewrite headerSize_spec by (discriminate || exact HP).
    pose proof (len_writeHeader KString L HP). set (h := writeHeader L (offset_of KString)) in *.
    destruct (wrap64 (len s) <? wrap64 (len h + L)) eqn:Er; [discriminate|].
    apply (room s h t L) in Er; auto; [|lia].
    destruct (cut_inv s h t L E Er (proj1 HP)) as [Es El].
    set (p := slice s (len h) (len h + L)) in *.
    destruct ((L =? 1) && (nth (Z.to_nat (len h)) s 0 <? 128)) eqn:Ec; [discriminate|].
    injection 1 as <- <-. destruct (writeBytes_cases p) as [(c & Ep & Hc & _)|[-> _]].
    + exfalso. rewrite Ep in *. assert (L = 1) as -> by (rewrite <- El; reflexivity).
      rewrite Es in Ec. replace (Z.to_nat (len h)) with (length h) in Ec by (unfold len; lia).
      rewrite app_nth2, Nat.sub_diag in Ec by lia. cbn in Ec. bsimp. lia.
    + rewrite El, <- app_assoc. exact Es.
Qed.

Lemma raw_total s k L : bytes_ok s -> StreamKind s = Ok (k, L) -> 0 <= L <= max_int64 /\
  (k = KByte \/ 1 <= headerSize k L <= 9).
Proof.
  intros Hok Ek. pose proof (kind_inv s k L Hok Ek) as H. destruct k.
  - destruct H as [-> _]. unfold max_int64. split; [lia | auto].
  - destruct H as [HP _]. split; [exact HP|]. right.
    rewrite headerSize_spec by (discriminate || exact HP). apply len_writeHeader, HP.
  - destruct H as [HP _]. split; [exact HP|]. right.
    rewrite headerSize_spec by (discriminate || exact HP). apply len_writeHeader, HP.
Qed.

Lemma raw_inv s raw r : bytes_ok s -> Raw s = Ok (raw, r) -> s = raw ++ r /\ raw <> [].
Proof.
  intros Hok. unfold Raw. destruct (StreamKind s) as [[k L]|] eqn:Ek; [|discriminate]. cbn [rbind].
  destruct (raw_total s k L Hok Ek) as [HL Hh].
  set (total := match k with KByte => 1 | _ => _ end).
  destruct (Z.ltb_spec (len s) total); [discriminate|]. destruct (Z.ltb_spec total 0); [discriminate|].
  injection 1 as <- <-. split; [symmetry; apply firstn_skipn|].
  assert (0 < total) as Hp.
  { assert (forall h, 1 <= h <= 9 -> wrap_int (h + L) <> 0) as Hw.
    { intros h Hb. unfold wrap_int. rewrite Z.mod_small by (unfold two64, max_int64 in *; lia).
      bcase; unfold two64, max_int64 in *; lia. }
    unfold total in *. destruct k; [lia| |]; (destruct Hh as [Hh|Hh]; [discriminate|]);
      specialize (Hw _ Hh); lia. }
  intros E. apply (f_equal (@length Z)) in E. rewrite length_firstn in E. cbn [length] in E.
  unfold len in *. lia.
Qed.

(** Reading an item does not depend on what follows it. *)
Lemma raw_prefix b rest : bytes_ok b -> Raw b = Ok (b, []) -> fits (b ++ rest) ->
  Raw (b ++ rest) = Ok (b, rest).
Proof.
  intros Hok HR Hf. destruct (fits_app _ _ Hf) as [Hfb _].
  unfold Raw in HR |- *. destruct (StreamKind b) as [[k L]|] eqn:Ek; [|discriminate]. cbn [rbind] in HR.
  assert (StreamKind (b ++ rest) = Ok (k, L)) as ->.
  { pose proof (kind_inv b k L Hok Ek) as H. destruct k.
    - destruct H as [-> (c & t & -> & Hc)]. cbn [app StreamKind]. destruct (Z.ltb_spec c 128); [reflexivity | lia].
    - destruct H as [HP (t & ->)]. rewrite <- app_assoc. apply kind_header; [discriminate | exact HP].
    - destruct H as [HP (t & ->)]. rewrite <- app_assoc. apply kind_header; [discriminate | exact HP]. }
  cbn [rbind]. set (total := match k with KByte => 1 | _ => _ end) in *.
  destruct (Z.ltb_spec (len b) total); [discriminate|]. destruct (Z.ltb_spec total 0); [discriminate|].
  injection HR as E1 E2.
  assert (Z.to_nat total = length b) as Et.
  { apply (f_equal (@length Z)) in E1. apply (f_equal (@length Z)) in E2.
    rewrite length_firstn in E1. rewrite length_skipn in E2. cbn [length] in E2. unfold len in *. lia. }
  rewrite len_app. pose proof (len_nonneg rest). destruct (Z.ltb_spec (len b + len rest) total); [lia|].
  rewrite firstn_len_app, skipn_len_app by exact Et. reflexivity.
Qed.

(** Encoded strings and lists are items of their own. *)
Lemma raw_write_list p : fits (write_list p) -> Raw (write_list p) = Ok (write_list p, []).
Proof.
  intros Hf. unfold write_list, writeListHeader in *. change 192 with (offset_of KList) in *.
  pose proof (payload_of_fits _ (proj2 (fits_app _ _ Hf))) as HP. unfold Raw.
  rewrite kind_header by (discriminate || exact HP). cbn [rbind].
  rewrite headerSize_spec by (discriminate || exact HP). unfold fits in Hf. rewrite <- len_app.
  rewrite wrap_int_small by (split; [pose proof (len_nonneg (writeHeader (len p) (offset_of KList) ++ p));
    unfold max_int64; lia | exact Hf]).
  rewrite Z.ltb_irrefl. pose proof (len_nonneg (writeHeader (len p) (offset_of KList) ++ p)).
  bcase; [lia|]. unfold len. rewrite Nat2Z.id, firstn_all, skipn_all. reflexivity.
Qed.

Lemma raw_writeBytes b : fits (writeBytes b) -> Raw (writeBytes b) = Ok (writeBytes b, []).
Proof.
  intros Hf. destruct (writeBytes_cases b) as [(c & -> & Hc & ->)|[E _]].
  { unfold Raw. cbn [StreamKind]. destruct (Z.ltb_spec c 128); [reflexivity | lia]. }
  rewrite E in *. change 128 with (offset_of KString) in *.
  pose proof (payload_of_fits _ (proj2 (fits_app _ _ Hf))) as HP. unfold Raw.
  rewrite kind_header by (discriminate || exact HP). cbn [rbind].
  rewrite headerSize_spec by (discriminate || exact HP). unfold fits in Hf. rewrite <- len_app.
  pose proof (len_nonneg (writeHeader (len b) (offset_of KString) ++ b)).
  rewrite wrap_int_small by (split; [unfold max_int64; lia | exact Hf]).
  rewrite Z.ltb_irrefl. bcase; [lia|]. unfold len. rewrite Nat2Z.id, firstn_all, skipn_all. reflexivity.
Qed.

(** * Induction on types and values *)

Lemma GoType_nested_ind (P : GoType -> Prop) :
  P TRaw -> P TString -> P TBool -> (forall b, P (TUint b)) -> P TBigInt -> P TInterface ->
  P TUnsupported -> (forall t, P t -> P (TPtr t)) -> (forall t, P t -> P (TSlice t)) ->
  (forall n t, P t -> P (TArray n t)) ->
  (forall fs, Forall (fun f => P (f_type f)) fs -> P (TStruct fs)) -> forall t, P t.
Proof.
  intros Hraw Hstr Hbool Huint Hbig Hif Huns Hptr Hsl Harr Hst.
  fix IH 1. intros [| | |b| | | |t|t|n t|fs];
    [assumption | assumption | assumption | apply Huint | assumption | assumption | assumption
    | apply Hptr, IH | apply Hsl, IH | apply Harr, IH |].
  apply Hst. induction fs as [|f fs IHfs]; constructor; [destruct f; apply IH | exact IHfs].
Qed.

Lemma GoVal_nested_ind (P : GoVal -> Prop) :
  P VNil -> (forall b, P (VBytes b)) -> (forall b, P (VBool b)) -> (forall u, P (VUint u)) ->
  (forall i, P (VBig i)) -> (forall v, P v -> P (VPtr v)) -> (forall t v, P v -> P (VIface t v)) ->
  (forall vs, Forall P vs -> P (VSeq vs)) -> (forall vs, Forall P vs -> P (VStruct vs)) ->
  forall v, P v.
Proof.
  intros Hnil Hby Hbo Hu Hbig Hptr Hif Hseq Hst.
  fix IH 1. intros [|b|b|u|i|v|t v|vs|vs];
    [assumption | apply Hby | apply Hbo | apply Hu | apply Hbig | apply Hptr, IH | apply Hif, IH | |].
  - apply Hseq. induction vs as [|x vs IHvs]; constructor; [apply IH | exact IHvs].
  - apply Hst. induction vs as [|x vs IHvs]; constructor; [apply IH | exact IHvs].
Qed.

(** * Reading consumes *)

Lemma writeBytes_nonempty b : writeBytes b <> [].
Proof.
  destruct (writeBytes_cases b) as [(c & -> & _ & ->)|[-> _]]; [discriminate|].
  unfold writeHeader. bcase; discriminate.
Qed.

Lemma write_list_nonempty p : write_list p <> [].
Proof. unfold write_list, writeListHeader, writeHeader. bcase; discriminate. Qed.

(** [invert_read H] opens one binding of a successful read [H]. *)
Ltac invert_read H :=
  match type of H with
  | rbind ?e _ = Ok _ => destruct e as [?|] eqn:?; [cbn [rbind] in H | discriminate H]
  end.

Definition cut_off (s r : bytes) : Prop := exists e, s = e ++ r /\ e <> [].

Lemma cut_bytes s b r : bytes_ok s -> fits s -> StreamBytes s = Ok (b, r) -> cut_off s r.
Proof. intros H1 H2 H. exists (writeBytes b). auto using bytes_inv, writeBytes_nonempty. Qed.

Lemma cut_list s p r : bytes_ok s -> fits s -> StreamList s = Ok (p, r) -> cut_off s r.
Proof. intros H1 H2 H. exists (write_list p). auto using list_inv, write_list_nonempty. Qed.

Lemma cut_raw s b r : bytes_ok s -> Raw s = Ok (b, r) -> cut_off s r.
Proof. intros H1 H. exists b. apply raw_inv; assumption. Qed.

(** The payload of an integer that passes the leading-zero test. *)
Lemma int_bytes_inv s b r : bytes_ok s -> fits s -> StreamBytes s = Ok (b, r) ->
  (0 <? len b) && (hd 0 b =? 0) = false ->
  s = writeBytes b ++ r /\ bytes_ok b /\ no_leading_zero b.
Proof.
  intros Hok Hf Hs Ez. pose proof (bytes_inv _ _ _ Hok Hf Hs) as E. split; [exact E|]. split.
  - rewrite E in Hok. apply bytes_ok_app in Hok. destruct Hok as [Hok _].
    destruct (writeBytes_cases b) as [(c & -> & _ & Ec)|[Ec _]]; rewrite Ec in Hok; [exact Hok|].
    apply bytes_ok_app in Hok. apply Hok.
  - unfold no_leading_zero. destruct b as [|c t]; [cbn; lia|]. cbn [hd] in *. rewrite len_cons in Ez.
    pose proof (len_nonneg t). destruct (Z.ltb_spec 0 (1 + len t)); [|lia]. cbn [andb] in Ez. bsimp. exact Ez.
Qed.

Lemma uint_inv s u r : bytes_ok s -> fits s -> Uint s = Ok (u, r) ->
  u64_ok u /\ s = writeBytes (big_bytes u) ++ r.
Proof.
  intros Hok Hf H. unfold Uint in H. invert_read H. destruct a as [b r'].
  destruct (Z.ltb_spec 8 (len b)); [discriminate|].
  destruct ((0 <? len b) && (hd 0 b =? 0)) eqn:Ez; [discriminate|]. injection H as <- <-.
  destruct (int_bytes_inv _ _ _ Hok Hf Heqr0 Ez) as (E & Hb & Hn).
  rewrite be_uint64_spec by (auto; lia). rewrite big_bytes_unique by assumption. split; [|exact E].
  pose proof (be_val_bounds b Hb). unfold u64_ok. change two64 with (256 ^ 8).
  assert (256 ^ len b <= 256 ^ 8) by (apply Z.pow_le_mono_r; lia). lia.
Qed.

Lemma bigint_inv s i r : bytes_ok s -> fits s -> BigInt s = Ok (i, r) ->
  0 <= i /\ s = writeBytes (big_bytes i) ++ r.
Proof.
  intros Hok Hf H. unfold BigInt in H. invert_read H. destruct a as [b r'].
  destruct ((0 <? len b) && (hd 0 b =? 0)) eqn:Ez; [discriminate|]. injection H as <- <-.
  destruct (int_bytes_inv _ _ _ Hok Hf Heqr0 Ez) as (E & Hb & Hn).
  rewrite big_bytes_unique by assumption. split; [apply (be_val_bounds b Hb) | exact E].
Qed.

Lemma decode_ptr t s :
  decodeValue (TPtr t) s = let! (x, r) := decodeValue t s in Ok (VPtr x, r).
Proof. destruct t; try reflexivity. cbn. destruct (BigInt s) as [[]|]; reflexivity. Qed.

(** A value that was decoded was cut off the front of its input. *)
Lemma decode_cut t : forall s v r, bytes_ok s -> fits s -> decodeValue t s = Ok (v, r) -> cut_off s r.
Proof.
  induction t as [| | |b| | | |t IH|t IH|n t IH|fs IH] using GoType_nested_ind;
    intros s v r Hok Hf H; cbn [decodeValue] in H; try discriminate.
  - invert_read H. destruct a. injection H as _ <-. eauto using cut_raw.
  - invert_read H. destruct a. injection H as _ <-. eauto using cut_bytes.
  - invert_read H. destruct a as [u r']. bcase_in H; [discriminate|]. injection H as _ <-.
    destruct (uint_inv _ _ _ Hok Hf Heqr0) as [_ ->]. eexists; split; [reflexivity | apply writeBytes_nonempty].
  - invert_read H. destruct a as [u r']. bcase_in H; [discriminate|]. injection H as _ <-.
    destruct (uint_inv _ _ _ Hok Hf Heqr0) as [_ ->]. eexists; split; [reflexivity | apply writeBytes_nonempty].
  - invert_read H. destruct a as [u r']. injection H as _ <-.
    destruct (bigint_inv _ _ _ Hok Hf Heqr0) as [_ ->]. eexists; split; [reflexivity | apply writeBytes_nonempty].
  - invert_read H. destruct a. injection H as _ <-. eauto using cut_raw.
  - change (decodeValue (TPtr t) s = Ok (v, r)) in H. rewrite decode_ptr in H.
    invert_read H. destruct a. injection H as _ <-. eauto.
  - bcase_in H; invert_read H; destruct a; [injection H as _ <-; eauto using cut_bytes|].
    invert_read H. injection H as _ <-. eauto using cut_list.
  - bcase_in H; invert_read H; destruct a.
    + bcase_in H; [|discriminate]. injection H as _ <-. eauto using cut_bytes.
    + invert_read H. injection H as _ <-. eauto using cut_list.
  - invert_read H. invert_read H. destruct a0. invert_read H. injection H as _ <-. eauto using cut_list.
Qed.

(** * Termination of the element loops *)

Lemma cut_length s r : cut_off s r -> (length r < length s)%nat.
Proof. intros (e & -> & He). rewrite length_app. destruct e; [contradiction | cbn; lia]. Qed.

Lemma cut_ok s r : cut_off s r -> bytes_ok s -> fits s -> bytes_ok r /\ fits r.
Proof. intros (e & -> & _) H1 H2. apply bytes_ok_app in H1. apply fits_app in H2. tauto. Qed.

(** A decoder that consumes and never runs out itself. *)
Definition well_behaved (dec : bytes -> result error (GoVal * bytes)) : Prop :=
  forall s, bytes_ok s -> fits s ->
    dec s <> Err OutOfFuel /\ (forall v r, dec s = Ok (v, r) -> cut_off s r).

Lemma decode_elems_fuel dec : well_behaved dec -> forall fuel inner,
  bytes_ok inner -> fits inner -> (length inner <= fuel)%nat -> decode_elems dec fuel inner <> Err OutOfFuel.
Proof.
  intros Hd. induction fuel as [|f IH]; intros inner Hok Hf Hl; cbn [decode_elems].
  - destruct inner; [discriminate | cbn in Hl; lia].
  - destruct (Empty inner); [discriminate|]. destruct (Hd inner Hok Hf) as [Hn Hc].
    destruct (dec inner) as [[x r]|e]; cbn [rbind]; [|congruence].
    specialize (Hc x r eq_refl). pose proof (cut_length _ _ Hc). destruct (cut_ok _ _ Hc Hok Hf).
    assert (decode_elems dec f r <> Err OutOfFuel) by (apply IH; auto; lia).
    destruct (decode_elems dec f r); cbn [rbind]; congruence.
Qed.

Lemma decode_array_fuel dec : well_behaved dec -> forall n inner,
  bytes_ok inner -> fits inner -> decode_array dec n inner <> Err OutOfFuel.
Proof.
  intros Hd. induction n as [|n IH]; intros inner Hok Hf; cbn [decode_array]; bcase; try discriminate.
  destruct (Hd inner Hok Hf) as [Hn Hc].
  destruct (dec inner) as [[x r]|e]; cbn [rbind]; [|congruence].
  specialize (Hc x r eq_refl). destruct (cut_ok _ _ Hc Hok Hf).
  assert (decode_array dec n r <> Err OutOfFuel) by (apply IH; auto).
  destruct (decode_array dec n r); cbn [rbind]; congruence.
Qed.

Lemma kind_fuel s : StreamKind s <> Err OutOfFuel.
Proof.
  destruct s as [|b t]; [discriminate|]. cbn [StreamKind]. unfold peekLength.
  repeat bcase; cbn [rbind]; discriminate.
Qed.

Lemma raw_fuel s : Raw s <> Err OutOfFuel.
Proof.
  unfold Raw. pose proof (kind_fuel s). destruct (StreamKind s) as [[k L]|]; cbn [rbind]; [|congruence].
  repeat bcase; discriminate.
Qed.

Lemma bytes_fuel s : StreamBytes s <> Err OutOfFuel.
Proof.
  unfold StreamBytes. pose proof (kind_fuel s). destruct (StreamKind s) as [[k L]|]; cbn [rbind]; [|congruence].
  destruct k; repeat bcase; discriminate.
Qed.

Lemma list_fuel s : StreamList s <> Err OutOfFuel.
Proof.
  unfold StreamList. pose proof (kind_fuel s). destruct (StreamKind s) as [[k L]|]; cbn [rbind]; [|congruence].
  destruct k; repeat bcase; discriminate.
Qed.

Lemma uint_fuel s : Uint s <> Err OutOfFuel.
Proof.
  unfold Uint. pose proof (bytes_fuel s). destruct (StreamBytes s) as [[b r]|]; cbn [rbind]; [|congruence].
  repeat bcase; discriminate.
Qed.

Lemma bigint_fuel s : BigInt s <> Err OutOfFuel.
Proof.
  unfold BigInt. pose proof (bytes_fuel s). destruct (StreamBytes s) as [[b r]|]; cbn [rbind]; [|congruence].
  bcase; discriminate.
Qed.

Lemma structFields_fuel {T} (fs : list (Field T)) : forall b, structFields_loop fs b <> Err OutOfFuel.
Proof.
  assert (forall opts info, parse_tag opts info <> Err OutOfFuel) as Hp.
  { induction opts; intros info; cbn [parse_tag]; [discriminate|]. repeat bcase; auto; discriminate. }
  induction fs as [|f fs IH]; intros b; cbn [structFields_loop]; [discriminate|]. bcase.
  - specialize (IH b). destruct (structFields_loop fs b); cbn [rbind]; congruence.
  - specialize (Hp (splitTag (f_tag f)) (mkInfo false false)).
    destruct (parse_tag _ _) as [info|]; cbn [rbind]; [|congruence]. bcase; [discriminate|].
    specialize (IH (b || optional info)). destruct (structFields_loop fs _); cbn [rbind]; congruence.
Qed.

Lemma decode_field_behaved dec info ft : well_behaved (dec ft) -> well_behaved (decode_field dec info ft).
Proof.
  intros Hd s Hok Hf. destruct (Hd s Hok Hf) as [Hn Hc]. unfold decode_field, absent_item.
  pose proof (kind_fuel s) as Hk. pose proof (raw_fuel s) as Hr.
  destruct (nilOK info && is_ptr ft); cbn [rbind]; [|auto].
  destruct (StreamKind s) as [[k L]|]; cbn [rbind]; [|split; congruence].
  bcase; [|auto]. destruct (Raw s) as [[b r]|] eqn:ER; cbn [rbind]; [|split; congruence].
  split; [discriminate|]. intros v r' E. injection E as <- <-. eauto using cut_raw.
Qed.

Lemma decode_fields_fuel dec fs : Forall (fun f => well_behaved (dec (f_type f))) fs -> forall infos inner,
  bytes_ok inner -> fits inner -> decode_fields dec fs infos inner <> Err OutOfFuel.
Proof.
  induction 1 as [|f fs Hd Hfs IH]; intros infos inner Hok Hf; cbn [decode_fields]; [bcase; discriminate|].
  destruct infos as [|[info|] is']; [bcase; discriminate| |].
  - bcase.
    + bcase; [|discriminate]. specialize (IH is' inner Hok Hf).
      destruct (decode_fields dec fs is' inner); cbn [rbind]; congruence.
    + destruct (decode_field_behaved dec info _ Hd inner Hok Hf) as [Hn Hc].
      destruct (decode_field dec info (f_type f) inner) as [[x r]|]; cbn [rbind]; [|congruence].
      destruct (cut_ok _ _ (Hc x r eq_refl) Hok Hf) as [H1 H2]. specialize (IH is' r H1 H2).
      destruct (decode_fields dec fs is' r); cbn [rbind]; congruence.
  - specialize (IH is' inner Hok Hf). destruct (decode_fields dec fs is' inner); cbn [rbind]; congruence.
Qed.

Lemma list_ok s p r : bytes_ok s -> fits s -> StreamList s = Ok (p, r) -> bytes_ok p /\ fits p.
Proof.
  intros Hok Hf H. pose proof (list_inv _ _ _ Hok Hf H) as E. subst s. unfold write_list in *.
  apply bytes_ok_app in Hok as [Hok _]. apply bytes_ok_app in Hok as [_ Hok].
  apply fits_app in Hf as [Hf _]. apply fits_app in Hf as [_ Hf]. auto.
Qed.

Lemma decode_behaved t : well_behaved (decodeValue t).
Proof.
  intros s Hok Hf. split; [|intros v r H; exact (decode_cut t s v r Hok Hf H)].
  revert s Hok Hf.
  induction t as [| | |b| | | |t IH|t IH|n t IH|fs IH] using GoType_nested_ind; intros s Hok Hf;
    try (cbn [decodeValue]; discriminate).
  - cbn [decodeValue]. pose proof (raw_fuel s). destruct (Raw s) as [[]|]; cbn [rbind]; congruence.
  - cbn [decodeValue]. pose proof (bytes_fuel s). destruct (StreamBytes s) as [[]|]; cbn [rbind]; congruence.
  - cbn [decodeValue]. pose proof (uint_fuel s). destruct (Uint s) as [[]|]; cbn [rbind]; [bcase|]; congruence.
  - cbn [decodeValue]. pose proof (uint_fuel s). destruct (Uint s) as [[]|]; cbn [rbind]; [bcase|]; congruence.
  - cbn [decodeValue]. pose proof (bigint_fuel s). destruct (BigInt s) as [[]|]; cbn [rbind]; congruence.
  - cbn [decodeValue]. pose proof (raw_fuel s). destruct (Raw s) as [[]|]; cbn [rbind]; congruence.
  - rewrite decode_ptr. specialize (IH s Hok Hf). destruct (decodeValue t s) as [[]|]; cbn [rbind]; congruence.
  - assert (well_behaved (decodeValue t)) as Hd
      by (intros s' H1 H2; split; [auto | intros v r H; exact (decode_cut t s' v r H1 H2 H)]).
    cbn [decodeValue]. bcase.
    + pose proof (bytes_fuel s). destruct (StreamBytes s) as [[]|]; cbn [rbind]; congruence.
    + pose proof (list_fuel s). destruct (StreamList s) as [[p r]|] eqn:E; cbn [rbind]; [|congruence].
      destruct (list_ok _ _ _ Hok Hf E) as [H1 H2].
      pose proof (decode_elems_fuel _ Hd (length p) p H1 H2 (le_n _)).
      destruct (decode_elems (decodeValue t) (length p) p); cbn [rbind]; congruence.
  - assert (well_behaved (decodeValue t)) as Hd
      by (intros s' H1 H2; split; [auto | intros v r H; exact (decode_cut t s' v r H1 H2 H)]).
    cbn [decodeValue]. bcase.
    + pose proof (bytes_fuel s). destruct (StreamBytes s) as [[]|]; cbn [rbind]; [bcase|]; congruence.
    + pose proof (list_fuel s). destruct (StreamList s) as [[p r]|] eqn:E; cbn [rbind]; [|congruence].
      destruct (list_ok _ _ _ Hok Hf E) as [H1 H2]. pose proof (decode_array_fuel _ Hd n p H1 H2).
      destruct (decode_array (decodeValue t) n p); cbn [rbind]; congruence.
  - cbn [decodeValue]. pose proof (structFields_fuel fs false). unfold structFields.
    destruct (structFields_loop fs false) as [infos|]; cbn [rbind]; [|congruence].
    pose proof (list_fuel s). destruct (StreamList s) as [[p r]|] eqn:E; cbn [rbind]; [|congruence].
    destruct (list_ok _ _ _ Hok Hf E) as [H1 H2].
    assert (Forall (fun f => well_behaved (decodeValue (f_type f))) fs) as Hd.
    { eapply Forall_impl; [|exact IH]. intros f Hfi s' H1' H2'.
      split; [auto | intros v r' H'; exact (decode_cut _ s' v r' H1' H2' H')]. }
    pose proof (decode_fields_fuel (fun t => decodeValue t) fs Hd infos p H1 H2).
    destruct (decode_fields _ fs infos p); cbn [rbind]; congruence.
Qed.

(** * Canonicity: what was decoded encodes to what was read *)

(** Types whose structs have no optional and no nil-able field. *)
Definition plain_info (i : option fieldInfo) : bool :=
  match i with
  | Some info => negb (optional info) && negb (nilOK info)
  | None => true
  end.

Fixpoint strict_type (t : GoType) : bool :=
  match t with
  | TPtr e | TSlice e | TArray _ e => strict_type e
  | TStruct fs =>
      match structFields fs with
      | Ok infos => forallb plain_info infos
      | Err _ => true
      end && forallb (fun f => match f with mkField _ _ _ t => strict_type t end) fs
  | _ => true
  end.

(** [enc] is a left inverse of [dec] on what [dec] accepts. *)
Definition inverts (dec : bytes -> result error (GoVal * bytes)) (enc : GoVal -> result error bytes) : Prop :=
  forall s v r, bytes_ok s -> fits s -> dec s = Ok (v, r) -> exists e, enc v = Ok e /\ s = e ++ r.

Lemma inverts_cut_ok dec enc s v r e : inverts dec enc -> bytes_ok s -> fits s -> dec s = Ok (v, r) ->
  s = e ++ r -> bytes_ok r /\ fits r.
Proof. intros _ Hok Hf _ ->. apply bytes_ok_app in Hok. apply fits_app in Hf. tauto. Qed.

Lemma empty_nil s : Empty s = true -> s = [].
Proof. unfold Empty, len. intros H. bsimp. destruct s; [reflexivity | cbn in H; lia]. Qed.

Lemma decode_elems_inv dec enc : inverts dec enc -> forall fuel inner vs, bytes_ok inner -> fits inner ->
  decode_elems dec fuel inner = Ok vs -> sequence (map enc vs) = Ok inner.
Proof.
  intros Hi. induction fuel as [|f IH]; intros inner vs Hok Hf H; cbn [decode_elems] in H;
    (destruct (Empty inner) eqn:Ee; [injection H as <-; rewrite (empty_nil _ Ee); reflexivity|]); [discriminate|].
  invert_read H. destruct a as [x r]. invert_read H. injection H as <-.
  destruct (Hi _ _ _ Hok Hf Heqr) as (e & He & ->).
  apply bytes_ok_app in Hok as [_ Hok]. apply fits_app in Hf as [_ Hf].
  cbn [map sequence]. rewrite He. cbn [rbind]. rewrite (IH _ _ Hok Hf Heqr0). reflexivity.
Qed.

Lemma decode_array_inv dec enc : inverts dec enc -> forall n inner vs, bytes_ok inner -> fits inner ->
  decode_array dec n inner = Ok vs -> sequence (map enc vs) = Ok inner.
Proof.
  intros Hi. induction n as [|n IH]; intros inner vs Hok Hf H; cbn [decode_array] in H;
    destruct (Empty inner) eqn:Ee; try discriminate.
  - injection H as <-. rewrite (empty_nil _ Ee). reflexivity.
  - invert_read H. destruct a as [x r]. invert_read H. injection H as <-.
    destruct (Hi _ _ _ Hok Hf Heqr) as (e & He & ->).
    apply bytes_ok_app in Hok as [_ Hok]. apply fits_app in Hf as [_ Hf].
    cbn [map sequence]. rewrite He. cbn [rbind]. rewrite (IH _ _ Hok Hf Heqr0). reflexivity.
Qed.

Lemma drop_trailing_keep l : Forall (fun ze => fst ze = false) l -> drop_trailing l = map snd l.
Proof.
  induction 1 as [|[z e] l Hz Hl IH]; [reflexivity|]. cbn [drop_trailing map snd fst] in *. subst z.
  rewrite IH. destruct (map snd l); reflexivity.
Qed.

Lemma decode_fields_inv dec enc fs :
  Forall (fun f => inverts (dec (f_type f)) (fun v => enc v (f_type f))) fs -> forall infos inner vs,
  forallb plain_info infos = true -> bytes_ok inner -> fits inner ->
  decode_fields dec fs infos inner = Ok vs ->
  Forall (fun ze => fst ze = false) (encode_fields enc vs fs infos) /\
  sequence (map snd (encode_fields enc vs fs infos)) = Ok inner.
Proof.
  induction 1 as [|f fs Hi Hfs IH]; intros infos inner vs Hp Hok Hf H; cbn [decode_fields] in H.
  { destruct (Empty inner) eqn:Ee; [|discriminate]. injection H as <-. rewrite (empty_nil _ Ee).
    destruct infos; cbn; auto. }
  destruct infos as [|[info|] is'].
  { destruct (Empty inner) eqn:Ee; [|discriminate]. injection H as <-. rewrite (empty_nil _ Ee). cbn. auto. }
  - cbn [forallb plain_info] in Hp. apply andb_prop in Hp as [Hpi Hp].
    destruct (optional info) eqn:Eo, (nilOK info) eqn:En; try discriminate.
    destruct (Empty inner) eqn:Ee; [discriminate|].
    invert_read H. destruct a as [x r]. invert_read H. injection H as <-.
    unfold decode_field, absent_item in Heqr. rewrite En in Heqr. cbn [andb rbind] in Heqr.
    destruct (Hi _ _ _ Hok Hf Heqr) as (e & He & ->).
    apply bytes_ok_app in Hok as [_ Hok]. apply fits_app in Hf as [_ Hf].
    destruct (IH _ _ _ Hp Hok Hf Heqr0) as [H1 H2]. cbn [encode_fields map snd sequence].
    split; [constructor; [cbn; rewrite Eo; reflexivity | exact H1]|].
    rewrite He. cbn [rbind]. rewrite H2. reflexivity.
  - cbn [forallb plain_info] in Hp. invert_read H. injection H as <-. cbn [encode_fields]. eauto.
Qed.

Lemma decode_inverts t : strict_type t = true -> inverts (decodeValue t) (fun v => encodeValue v t).
Proof.
  induction t as [| | |b| | | |t IH|t IH|n t IH|fs IH] using GoType_nested_ind;
    intros Hs s v r Hok Hf H.
  - cbn [decodeValue] in H. invert_read H. destruct a as [raw r']. injection H as <- <-.
    destruct (raw_inv _ _ _ Hok Heqr0) as [-> Hne]. exists raw. split; [|reflexivity].
    destruct raw as [|c w]; [contradiction|]. cbn [bytes_value encodeValue]. rewrite len_cons.
    pose proof (len_nonneg w). bcase; [lia | reflexivity].
  - cbn [decodeValue] in H. invert_read H. destruct a as [b r']. injection H as <- <-.
    exists (writeBytes b). split; [reflexivity | exact (bytes_inv _ _ _ Hok Hf Heqr0)].
  - cbn [decodeValue] in H. invert_read H. destruct a as [u r']. bcase_in H; [discriminate|].
    injection H as <- <-. destruct (uint_inv _ _ _ Hok Hf Heqr0) as [Hu ->]. unfold u64_ok in Hu.
    assert (u = 0 \/ u = 1) as [-> | ->] by lia; eexists; split; reflexivity.
  - cbn [decodeValue] in H. invert_read H. destruct a as [u r']. bcase_in H; [discriminate|].
    injection H as <- <-. destruct (uint_inv _ _ _ Hok Hf Heqr0) as [Hu ->].
    eexists; split; [|reflexivity]. cbn [encodeValue]. rewrite putUint_spec by exact Hu. reflexivity.
  - cbn [decodeValue] in H. invert_read H. destruct a as [i r']. injection H as <- <-.
    destruct (bigint_inv _ _ _ Hok Hf Heqr0) as [Hi ->]. eexists; split; [|reflexivity].
    cbn [encodeValue]. bcase; [lia | reflexivity].
  - cbn [decodeValue] in H. invert_read H. destruct a as [raw r']. injection H as <- <-.
    destruct (raw_inv _ _ _ Hok Heqr0) as [-> Hne]. exists raw. split; [|reflexivity].
    destruct raw as [|c w]; [contradiction|]. cbn [bytes_value encodeValue]. rewrite len_cons.
    pose proof (len_nonneg w). bcase; [lia | reflexivity].
  - discriminate.
  - rewrite decode_ptr in H. invert_read H. destruct a as [x r']. injection H as <- <-.
    cbn [encodeValue]. exact (IH Hs _ _ _ Hok Hf Heqr0).
  - cbn [decodeValue] in H. destruct (is_uint8 t) eqn:Et; invert_read H; destruct a as [p r'].
    + injection H as <- <-. exists (writeBytes p). split; [|exact (bytes_inv _ _ _ Hok Hf Heqr0)].
      destruct p; cbn [bytes_value encodeValue]; rewrite Et; reflexivity.
    + invert_read H. injection H as <- <-. destruct (list_ok _ _ _ Hok Hf Heqr0) as [H1 H2].
      exists (write_list p). split; [|exact (list_inv _ _ _ Hok Hf Heqr0)].
      cbn [encodeValue]. rewrite Et, (decode_elems_inv _ _ (IH Hs) _ _ _ H1 H2 Heqr1). reflexivity.
  - cbn [decodeValue] in H. destruct (is_uint8 t) eqn:Et; invert_read H; destruct a as [p r'].
    + bcase_in H; [|discriminate]. injection H as <- <-. exists (writeBytes p).
      split; [|exact (bytes_inv _ _ _ Hok Hf Heqr0)]. cbn [encodeValue]. rewrite Et. reflexivity.
    + invert_read H. injection H as <- <-. destruct (list_ok _ _ _ Hok Hf Heqr0) as [H1 H2].
      exists (write_list p). split; [|exact (list_inv _ _ _ Hok Hf Heqr0)].
      cbn [encodeValue]. rewrite Et, (decode_array_inv _ _ (IH Hs) _ _ _ H1 H2 Heqr1). reflexivity.
  - cbn [decodeValue] in H. invert_read H. rename a into infos. invert_read H. destruct a as [p r'].
    invert_read H. injection H as <- <-. destruct (list_ok _ _ _ Hok Hf Heqr1) as [H1 H2].
    cbn [strict_type] in Hs. rewrite Heqr0 in Hs. apply andb_prop in Hs as [Hsi Hsf].
    assert (Forall (fun f => inverts (decodeValue (f_type f)) (fun v => encodeValue v (f_type f))) fs) as Hall.
    { clear - IH Hsf. induction IH as [|f fs Hf Hfs IHl]; constructor;
        cbn [forallb] in Hsf; apply andb_prop in Hsf as [H1 H2]; auto.
      apply Hf. destruct f; exact H1. }
    destruct (decode_fields_inv _ (fun x t => encodeValue x t) fs Hall _ _ _ Hsi H1 H2 Heqr2) as [Hz Hseq].
    exists (write_list p). split; [|exact (list_inv _ _ _ Hok Hf Heqr1)].
    cbn [encodeValue]. rewrite Heqr0. cbn [rbind]. rewrite drop_trailing_keep, Hseq by exact Hz. reflexivity.
Qed.

(** * Round trip: what was encoded decodes to the value *)

(** A canonical raw value is exactly one item. *)
Definition raw_item (b : bytes) : Prop := bytes_ok b /\ Raw b = Ok (b, []).

(** Every remaining field is absent: zero, and optional if it is selected. *)
Fixpoint all_omitted (vs : list GoVal) (fs : list (Field GoType)) (infos : list (option fieldInfo)) : Prop :=
  match vs, fs, infos with
  | [], [], [] => True
  | x :: vs', f :: fs', i :: is' =>
      x = zero_val (f_type f) /\
      match i with Some info => optional info = true | None => True end /\ all_omitted vs' fs' is'
  | _, _, _ => False
  end.

(** The values the decoder produces, by type: slices of bytes are nil or
    non-empty, other slices are not nil, pointers are not nil except in nil-able
    fields, skipped fields and absent trailing optional fields are zero, and
    the value behind a nil-able pointer does not encode as an empty item. *)
Section CanonFields.
Variable cn : GoVal -> GoType -> Prop.

Definition field_canon (info : fieldInfo) (x : GoVal) (ft : GoType) : Prop :=
  (nilOK info && is_ptr ft = true /\ x = VNil) \/
  (cn x ft /\ (nilOK info && is_ptr ft = true ->
     forall e, encodeValue x ft = Ok e -> hd 0 e <> 128 /\ hd 0 e <> 192)).

Fixpoint canon_fields (vs : list GoVal) (fs : list (Field GoType)) (infos : list (option fieldInfo)) : Prop :=
  match vs, fs, infos with
  | [], [], [] => True
  | x :: vs', f :: fs', None :: is' => x = zero_val (f_type f) /\ canon_fields vs' fs' is'
  | x :: vs', f :: fs', Some info :: is' =>
      all_omitted vs fs infos \/ (field_canon info x (f_type f) /\ canon_fields vs' fs' is')
  | _, _, _ => False
  end.

Fixpoint canon_all (vs : list GoVal) (t : GoType) : Prop :=
  match vs with
  | [] => True
  | x :: r => cn x t /\ canon_all r t
  end.
End CanonFields.

Fixpoint canon (v : GoVal) (t : GoType) {struct v} : Prop :=
  match t with
  | TRaw => match v with VBytes b => raw_item b | _ => False end
  | TString => match v with VBytes _ => True | _ => False end
  | TBool => match v with VBool _ => True | _ => False end
  | TUint bits => match v with VUint u => 0 <= u < 2 ^ bits /\ 0 <= bits <= 64 | _ => False end
  | TBigInt => match v with VBig i => 0 <= i | _ => False end
  | TInterface => match v with VIface TRaw (VBytes b) => raw_item b | _ => False end
  | TUnsupported => False
  | TPtr e => match v with VPtr x => canon x e | _ => False end
  | TSlice e =>
      match v with
      | VNil => is_uint8 e = true
      | VBytes b => is_uint8 e = true /\ b <> []
      | VSeq vs => is_uint8 e = false /\ canon_all (fun x t => canon x t) vs e
      | _ => False
      end
  | TArray n e =>
      match v with
      | VBytes b => is_uint8 e = true /\ length b = n
      | VSeq vs => is_uint8 e = false /\ length vs = n /\ canon_all (fun x t => canon x t) vs e
      | _ => False
      end
  | TStruct fs =>
      match v with
      | VStruct vs =>
          match structFields fs with
          | Ok infos => canon_fields (fun x t => canon x t) vs fs infos
          | Err _ => False
          end
      | _ => False
      end
  end.

Lemma forallb_zero_repeat b : forallb (fun c => c =? 0) b = true -> b = repeat 0 (length b).
Proof.
  induction b as [|c b IH]; [reflexivity|]. cbn [forallb length repeat]. intros H. bsimp. subst.
  f_equal. auto.
Qed.

Lemma zero_IsZero t : IsZero (zero_val t) t = true.
Proof.
  induction t as [| | |b| | | |t IH|t IH|n t IH|fs IH] using GoType_nested_ind; try reflexivity.
  - cbn [zero_val]. destruct (is_uint8 t); cbn [IsZero]; apply forallb_forall; intros x Hx;
      apply repeat_spec in Hx; subst x; [reflexivity | exact IH].
  - cbn [zero_val IsZero]. induction IH as [|f fs Hf Hfs IHl]; [reflexivity|]. cbn [map].
    destruct f as [nm ex tg ft]. cbn [f_type] in *. rewrite Hf. exact IHl.
Qed.

Lemma all_omitted_zero fs : forall vs is', all_omitted vs fs is' ->
  vs = map (fun f => match f with mkField _ _ _ t => zero_val t end) fs.
Proof.
  induction fs as [|f fs IH]; intros [|y vs] [|i is']; cbn [all_omitted]; try contradiction; [reflexivity|].
  intros (-> & _ & H). destruct f; cbn [map f_type]. f_equal. eauto.
Qed.

(** Zero is one value per type. *)
Lemma canon_zero v : forall t, canon v t -> IsZero v t = true -> v = zero_val t.
Proof.
  induction v as [|b|b|u|i|v IH|t' v IH|vs IH|vs IH] using GoVal_nested_ind; intros t Hc Hz;
    destruct t as [| | |w| | | |e|e|n e|fs]; cbn [canon] in Hc; try contradiction;
    cbn [IsZero] in Hz; try discriminate; cbn [zero_val].
  - reflexivity.
  - unfold len in Hz. bsimp. destruct b; [reflexivity | cbn in Hz; lia].
  - destruct Hc as [-> <-]. f_equal. apply forallb_zero_repeat, Hz.
  - destruct b; [discriminate | reflexivity].
  - bsimp. subst. reflexivity.
  - bsimp. subst. reflexivity.
  - destruct Hc as (-> & <- & Hc). f_equal. revert Hc Hz.
    induction IH as [|x vs Hx Hvs IHl]; [reflexivity|]. cbn [canon_all forallb length repeat].
    intros [H1 H2] Hz. bsimp. f_equal; auto.
  - destruct (structFields fs) as [infos|]; [|contradiction]. f_equal. revert fs infos Hc Hz.
    induction IH as [|x vs Hx Hvs IHl]; intros [|f fs] infos Hc Hz; destruct infos as [|[info|] is'];
      cbn [canon_fields] in Hc; try contradiction; [reflexivity| |];
      apply andb_prop in Hz as [Hz1 Hz2]; cbn [map]; destruct f as [nm ex tg ft]; cbn [f_type] in *.
    + destruct Hc as [Hc|[Hf Hc]].
      * exact (all_omitted_zero (mkField nm ex tg ft :: fs) (x :: vs) _ Hc).
      * f_equal; [|eauto]. destruct Hf as [[Hn ->]|[Hcx _]]; [|auto].
        apply andb_prop in Hn as [_ Hn]. destruct ft; try discriminate. reflexivity.
    + destruct Hc as [-> Hc]. f_equal. eauto.
Qed.

Lemma omitted_dropped enc fs : forall vs infos, all_omitted vs fs infos ->
  drop_trailing (encode_fields enc vs fs infos) = [].
Proof.
  induction fs as [|f fs IH]; intros [|x vs] [|i is']; cbn [all_omitted]; try contradiction; [reflexivity|].
  intros (-> & Ho & H). destruct i as [info|]; cbn [encode_fields drop_trailing]; [|auto].
  rewrite IH by exact H. rewrite Ho, zero_IsZero. reflexivity.
Qed.

Lemma omitted_decoded dec fs : forall vs infos, all_omitted vs fs infos ->
  decode_fields dec fs infos [] = Ok vs.
Proof.
  induction fs as [|f fs IH]; intros [|x vs] [|i is']; cbn [all_omitted]; try contradiction; [reflexivity|].
  intros (-> & Ho & H). destruct i as [info|]; cbn [decode_fields].
  - cbn [Empty len length Z.of_nat Z.eqb]. change (Empty []) with true. cbn [negb].
    rewrite Ho, (IH _ _ H). reflexivity.
  - rewrite (IH _ _ H). reflexivity.
Qed.

(** The encoding of [x] can be read back at the front of any stream. *)
Definition round (x : GoVal) : Prop := forall t e rest,
  canon x t -> encodeValue x t = Ok e -> fits (e ++ rest) -> decodeValue t (e ++ rest) = Ok (x, rest) /\ e <> [].

Lemma kind_zero s k : StreamKind s = Ok (k, 0) -> k <> KByte -> hd 0 s = 128 \/ hd 0 s = 192.
Proof.
  destruct s as [|b t]; [discriminate|]. cbn [StreamKind hd]. intros H Hk.
  assert (forall n, peekLength (b :: t) n <> Ok 0) as Hp.
  { intros n. unfold peekLength. cbv zeta. repeat bcase; try discriminate. intros E.
    assert (be_uint64 (slice (b :: t) 1 (1 + n)) = 0) by congruence. lia. }
  repeat bcase_in H; try (injection H as <- H); try lia; try contradiction.
  - specialize (Hp (b - 183)). destruct (peekLength (b :: t) (b - 183)); [|discriminate].
    cbn [rbind] in H. injection H as _ ->. contradiction.
  - specialize (Hp (b - 247)). destruct (peekLength (b :: t) (b - 247)); [|discriminate].
    cbn [rbind] in H. injection H as _ ->. contradiction.
Qed.

Lemma read_kind s t v r : decodeValue t s = Ok (v, r) -> exists k L, StreamKind s = Ok (k, L).
Proof.
  revert v r. induction t as [| | |b| | | |t IH|t IH|n t IH|fs IH] using GoType_nested_ind; intros v r H;
    try discriminate; try (rewrite decode_ptr in H; invert_read H; destruct a; eauto; fail);
    cbn [decodeValue] in H; try bcase_in H; try invert_read H; try (invert_read H);
    unfold Raw, StreamBytes, StreamList, Uint, BigInt, StreamBytes in *;
    destruct (StreamKind s) as [[k L]|]; try discriminate; eauto.
Qed.

Lemma Empty_cons c r : Empty (c :: r) = false.
Proof. unfold Empty. rewrite len_cons. pose proof (len_nonneg r). apply Z.eqb_neq. lia. Qed.

Lemma Empty_nonempty e r : e <> [] -> Empty (e ++ r) = false.
Proof. destruct e; [contradiction|]. intros _. apply Empty_cons. Qed.

(** The two empty items. *)
Lemma empty_item c rest : c = 128 \/ c = 192 ->
  exists k, StreamKind (c :: rest) = Ok (k, 0) /\ k <> KByte /\ Raw (c :: rest) = Ok ([c], rest).
Proof.
  intros Hc. unfold Raw. rewrite len_cons. pose proof (len_nonneg rest).
  destruct Hc as [-> | ->]; [exists KString | exists KList]; (split; [reflexivity|]); (split; [discriminate|]);
    cbn [StreamKind Z.ltb Z.compare Pos.compare Pos.compare_cont rbind];
    change (wrap_int _) with 1; (destruct (Z.ltb_spec (1 + len rest) 1); [lia | reflexivity]).
Qed.

(** One field, written and read back. *)
Lemma field_round info x ft e rest : round x -> field_canon (fun x t => canon x t) info x ft ->
  encodeValue x ft = Ok e -> fits (e ++ rest) ->
  decode_field (fun t => decodeValue t) info ft (e ++ rest) = Ok (x, rest) /\ e <> [].
Proof.
  intros Hr Hc He Hf. unfold decode_field, absent_item. destruct Hc as [[Hn ->]|[Hc Hne]].
  - rewrite Hn. apply andb_prop in Hn as [_ Hn]. destruct ft as [| | |w| | | |t|t|n t|fs]; try discriminate.
    cbn [encodeValue] in He. injection He as <-. cbn [app].
    destruct (empty_item (if is_struct t then EmptyList else EmptyString) rest) as (k & Hk & Hkb & HR);
      [destruct (is_struct t); auto|].
    rewrite Hk, HR. cbn [rbind Z.eqb andb]. destruct k; [contradiction| |]; (split; [reflexivity | discriminate]).
  - destruct (Hr ft e rest Hc He Hf) as [Hd Hnil]. split; [|exact Hnil].
    destruct (nilOK info && is_ptr ft) eqn:Hn; cbn [rbind]; [|exact Hd].
    specialize (Hne eq_refl e He). destruct (read_kind _ _ _ _ Hd) as (k & L & Hk). rewrite Hk. cbn [rbind].
    destruct ((L =? 0) && match k with KByte => false | _ => true end) eqn:Ea; [exfalso|exact Hd].
    apply andb_prop in Ea as [EL Ek]. apply Z.eqb_eq in EL. subst L.
    destruct (kind_zero _ _ Hk) as [E|E]; [destruct k; discriminate| |];
      destruct e; [contradiction| |contradiction|]; cbn in *; lia.
Qed.

Lemma fields_round vs : Forall round vs -> forall fs infos e,
  canon_fields (fun x t => canon x t) vs fs infos ->
  sequence (drop_trailing (encode_fields (fun x t => encodeValue x t) vs fs infos)) = Ok e -> fits e ->
  decode_fields (fun t => decodeValue t) fs infos e = Ok vs.
Proof.
  induction 1 as [|x vs Hx Hvs IH]; intros [|f fs] infos e Hc He Hf; destruct infos as [|[info|] is'];
    cbn [canon_fields] in Hc; try contradiction.
  - cbn in He. injection He as <-. reflexivity.
  - destruct Hc as [Ho|[Hfc Hc]].
    { rewrite (omitted_dropped _ _ _ _ Ho) in He. cbn in He. injection He as <-. apply omitted_decoded, Ho. }
    cbn [encode_fields drop_trailing] in He.
    set (d := drop_trailing (encode_fields _ vs fs is')) in *.
    assert (forall b1 rest, encodeValue x (f_type f) = Ok b1 -> sequence d = Ok rest -> e = b1 ++ rest ->
      decode_fields (fun t => decodeValue t) (f :: fs) (Some info :: is') e = Ok (x :: vs)) as Hgo.
    { intros b1 rest H1 H2 ->. destruct (field_round info x (f_type f) b1 rest Hx Hfc H1 Hf) as [Hd Hne].
      cbn [decode_fields]. rewrite Empty_nonempty by exact Hne. rewrite Hd. cbn [rbind].
      apply fits_app in Hf as [_ Hf]. rewrite (IH fs is' rest Hc H2 Hf). reflexivity. }
    destruct d as [|d0 d'] eqn:Ed.
    + destruct (optional info && IsZero x (f_type f)) eqn:Ez.
      * cbn in He. injection He as <-. apply andb_prop in Ez as [Eo Ez]. cbn [decode_fields].
        change (Empty []) with true. cbn iota. rewrite Eo, (IH fs is' [] Hc ltac:(fold d; rewrite Ed; reflexivity) Hf). cbn [rbind].
        do 2 f_equal. destruct Hfc as [[Hn ->]|[Hcx _]]; [|symmetry; apply canon_zero; assumption].
        apply andb_prop in Hn as [_ Hn]. destruct (f_type f); try discriminate. reflexivity.
      * cbn [sequence] in He. invert_read He. injection He as <-. apply (Hgo a []); auto.
    + cbn [sequence] in He. invert_read He. invert_read He. injection He as <-. apply (Hgo a a0); auto.
  - destruct Hc as [-> Hc]. cbn [encode_fields] in He. cbn [decode_fields]. rewrite (IH _ _ _ Hc He Hf). reflexivity.
Qed.

(** Elements, written in sequence and read back by the slice loop. *)
Lemma elems_round t vs : Forall round vs -> forall e fuel, canon_all (fun x t => canon x t) vs t ->
  sequence (map (fun x => encodeValue x t) vs) = Ok e -> fits e -> (length e <= fuel)%nat ->
  decode_elems (decodeValue t) fuel e = Ok vs.
Proof.
  induction 1 as [|x vs Hx Hvs IH]; intros e fuel Hc He Hf Hl.
  { cbn in He. injection He as <-. destruct fuel; reflexivity. }
  cbn [map sequence] in He. invert_read He. invert_read He. injection He as <-. destruct Hc as [Hcx Hc].
  destruct (Hx t a a0 Hcx Heqr Hf) as [Hd Hne]. rewrite length_app in Hl.
  assert (1 <= length a)%nat by (destruct a; [contradiction | cbn; lia]).
  destruct fuel as [|fuel]; [lia|]. cbn [decode_elems]. rewrite Empty_nonempty by exact Hne.
  rewrite Hd. cbn [rbind]. apply fits_app in Hf as [_ Hf].
  rewrite (IH a0 fuel Hc eq_refl Hf ltac:(lia)). reflexivity.
Qed.

Lemma array_round t vs : Forall round vs -> forall e, canon_all (fun x t => canon x t) vs t ->
  sequence (map (fun x => encodeValue x t) vs) = Ok e -> fits e ->
  decode_array (decodeValue t) (length vs) e = Ok vs.
Proof.
  induction 1 as [|x vs Hx Hvs IH]; intros e Hc He Hf.
  { cbn in He. injection He as <-. reflexivity. }
  cbn [map sequence] in He. invert_read He. invert_read He. injection He as <-. destruct Hc as [Hcx Hc].
  destruct (Hx t a a0 Hcx Heqr Hf) as [Hd Hne]. cbn [decode_array length].
  rewrite Empty_nonempty by exact Hne. rewrite Hd. cbn [rbind]. apply fits_app in Hf as [_ Hf].
  rewrite (IH a0 Hc eq_refl Hf). reflexivity.
Qed.

Lemma uint_write u rest : u64_ok u -> fits (writeBytes (big_bytes u) ++ rest) ->
  Uint (writeBytes (big_bytes u) ++ rest) = Ok (u, rest).
Proof.
  intros Hu Hf. unfold Uint. rewrite bytes_writeBytes by exact Hf. cbn [rbind].
  pose proof (big_bytes_len8 u Hu). destruct (Z.ltb_spec 8 (len (big_bytes u))); [lia|].
  pose proof (big_bytes_nlz u) as Hn. unfold no_leading_zero in Hn.
  assert ((0 <? len (big_bytes u)) && (hd 0 (big_bytes u) =? 0) = false) as ->.
  { destruct (big_bytes u) as [|c r]; [reflexivity|]. cbn [hd] in *. apply Z.eqb_neq in Hn. rewrite Hn. apply andb_false_r. }
  rewrite be_uint64_spec, big_bytes_val by (auto using big_bytes_ok; unfold u64_ok in Hu; lia). reflexivity.
Qed.

Lemma bigint_write i rest : 0 <= i -> fits (writeBytes (big_bytes i) ++ rest) ->
  BigInt (writeBytes (big_bytes i) ++ rest) = Ok (i, rest).
Proof.
  intros Hi Hf. unfold BigInt. rewrite bytes_writeBytes by exact Hf. cbn [rbind].
  pose proof (big_bytes_nlz i) as Hn. unfold no_leading_zero in Hn.
  assert ((0 <? len (big_bytes i)) && (hd 0 (big_bytes i) =? 0) = false) as ->.
  { destruct (big_bytes i) as [|c r]; [reflexivity|]. cbn [hd] in *. apply Z.eqb_neq in Hn. rewrite Hn. apply andb_false_r. }
  rewrite big_bytes_val by exact Hi. reflexivity.
Qed.

Lemma raw_item_round b rest : raw_item b -> fits (b ++ rest) -> Raw (b ++ rest) = Ok (b, rest) /\ b <> [].
Proof.
  intros [Hb Hr] Hf. split; [apply raw_prefix; assumption|]. apply (raw_inv b b []); assumption.
Qed.

Lemma raw_item_encode b : raw_item b -> (if len b =? 0 then [EmptyString] else b) = b.
Proof.
  intros [Hb Hr]. destruct (raw_inv b b [] Hb Hr) as [_ Hne]. destruct b as [|c r]; [contradiction|].
  rewrite len_cons. pose proof (len_nonneg r). bcase; [lia | reflexivity].
Qed.

Lemma bytes_value_nonempty b : b <> [] -> bytes_value b = VBytes b.
Proof. destruct b; [contradiction | reflexivity]. Qed.

Lemma list_write_round vs inner rest (k : list GoVal -> GoVal) (dec : bytes -> result error (list GoVal)) :
  fits (write_list inner ++ rest) -> (fits inner -> dec inner = Ok vs) ->
  (let! (p, r) := StreamList (write_list inner ++ rest) in let! xs := dec p in Ok (k xs, r)) = Ok (k vs, rest).
Proof.
  intros Hf Hd. rewrite list_write_list by exact Hf. cbn [rbind]. unfold write_list in Hf.
  apply fits_app in Hf as [Hf _]. apply fits_app in Hf as [_ Hf]. rewrite (Hd Hf). reflexivity.
Qed.

Lemma value_round v : round v.
Proof.
  induction v as [|b|b|u|i|v IH|t' v IH|vs IH|vs IH] using GoVal_nested_ind; intros t e rest Hc He Hf;
    destruct t as [| | |w| | | |e'|e'|n e'|fs]; cbn [canon] in Hc; try contradiction; cbn [encodeValue] in He.
  - (* nil byte slice *)
    rewrite Hc in He. assert (e = writeBytes []) as -> by congruence. split; [|discriminate].
    cbn [decodeValue]. rewrite Hc, bytes_writeBytes by exact Hf. reflexivity.
  - (* raw *)
    injection He as <-. rewrite raw_item_encode in * by exact Hc.
    destruct (raw_item_round b rest Hc Hf) as [Hr Hne]. cbn [decodeValue]. rewrite Hr. cbn [rbind].
    rewrite bytes_value_nonempty by exact Hne. auto.
  - injection He as <-. cbn [decodeValue]. rewrite bytes_writeBytes by exact Hf.
    auto using writeBytes_nonempty.
  - destruct Hc as [E Hne]. rewrite E in He. injection He as <-. cbn [decodeValue]. rewrite E.
    rewrite bytes_writeBytes by exact Hf. cbn [rbind]. rewrite bytes_value_nonempty by exact Hne.
    auto using writeBytes_nonempty.
  - destruct Hc as [E <-]. rewrite E in He. injection He as <-. cbn [decodeValue]. rewrite E.
    rewrite bytes_writeBytes by exact Hf. cbn [rbind]. unfold len. rewrite Z.eqb_refl.
    auto using writeBytes_nonempty.
  - (* bool *)
    injection He as <-. cbn [decodeValue]. split; [|destruct b; discriminate].
    pose proof (uint_write (if b then 1 else 0) rest ltac:(destruct b; unfold u64_ok, two64; lia)) as Hu.
    destruct b; specialize (Hu Hf); [change (writeBytes (big_bytes 1)) with [1] in Hu
      | change (writeBytes (big_bytes 0)) with [EmptyString] in Hu]; rewrite Hu; reflexivity.
  - (* uint *)
    destruct Hc as [Hu Hw]. injection He as <-.
    assert (u64_ok u) as Hu64.
    { unfold u64_ok. assert (2 ^ w <= 2 ^ 64) by (apply Z.pow_le_mono_r; lia). rewrite two64_pow. lia. }
    rewrite putUint_spec in * by exact Hu64. cbn [decodeValue]. rewrite uint_write by assumption. cbn [rbind].
    destruct (Z.leb_spec (2 ^ w) u); [lia|]. auto using writeBytes_nonempty.
  - (* big.Int *)
    destruct (Z.ltb_spec i 0); [lia|]. injection He as <-. cbn [decodeValue].
    rewrite bigint_write by assumption. auto using writeBytes_nonempty.
  - (* pointer *)
    destruct (IH e' e rest Hc He Hf) as [Hd Hne]. rewrite decode_ptr, Hd. auto.
  - (* interface holding a raw value *)
    destruct t'; try contradiction. destruct v; try contradiction. cbn [encodeValue] in He. injection He as <-.
    rewrite raw_item_encode in * by exact Hc. destruct (raw_item_round b rest Hc Hf) as [Hr Hne].
    cbn [decodeValue]. rewrite Hr. cbn [rbind]. rewrite bytes_value_nonempty by exact Hne. auto.
  - (* slice *)
    destruct Hc as [E Hc]. rewrite E in He. invert_read He. injection He as <-.
    split; [|apply write_list_nonempty]. cbn [decodeValue]. rewrite E.
    apply (list_write_round vs _ _ VSeq (fun p => decode_elems (decodeValue e') (length p) p)); [exact Hf|].
    intros Hfi. apply elems_round; auto.
  - (* array *)
    destruct Hc as (E & <- & Hc). rewrite E in He. invert_read He. injection He as <-.
    split; [|apply write_list_nonempty]. cbn [decodeValue]. rewrite E.
    apply (list_write_round vs _ _ VSeq (fun p => decode_array (decodeValue e') (length vs) p)); [exact Hf|].
    intros Hfi. apply array_round; auto.
  - (* struct *)
    destruct (structFields fs) as [infos|] eqn:Es; [|contradiction]. cbn [rbind] in He.
    invert_read He. injection He as <-. split; [|apply write_list_nonempty].
    cbn [decodeValue]. rewrite Es. cbn [rbind].
    apply (list_write_round vs _ _ VStruct (fun p => decode_fields (fun t => decodeValue t) fs infos p)); [exact Hf|].
    intros Hfi. apply fields_round; auto.
Qed.

(** * Lists of items *)

Lemma len_concat (l : list bytes) : len (concat l) = zsum (map len l).
Proof.
  induction l as [|x l IH]; [reflexivity|]. cbn [concat map]. rewrite len_app, IH. reflexivity.
Qed.

Lemma EncodeList_write items : EncodeList items = write_list (concat items).
Proof. unfold EncodeList, write_list. rewrite len_concat. reflexivity. Qed.

Lemma split_loop_items items : Forall raw_item items -> forall fuel, fits (concat items) ->
  (length (concat items) <= fuel)%nat -> split_loop fuel (concat items) = Ok items.
Proof.
  induction 1 as [|b items Hb Hi IH]; intros fuel Hf Hl; cbn [concat] in *.
  { destruct fuel; reflexivity. }
  destruct (raw_item_round b (concat items) Hb Hf) as [Hr Hne]. rewrite length_app in Hl.
  assert (1 <= length b)%nat by (destruct b; [contradiction | cbn; lia]).
  destruct fuel as [|fuel]; [lia|]. cbn [split_loop]. rewrite Empty_nonempty by exact Hne.
  rewrite Hr. cbn [rbind]. apply fits_app in Hf as [_ Hf]. rewrite IH by (auto; lia). reflexivity.
Qed.

Lemma split_loop_inv fuel : forall inner items, bytes_ok inner ->
  split_loop fuel inner = Ok items -> inner = concat items.
Proof.
  induction fuel as [|f IH]; intros inner items Hok H; cbn [split_loop] in H;
    (destruct (Empty inner) eqn:Ee; [injection H as <-; apply empty_nil, Ee|]); [discriminate|].
  invert_read H. destruct a as [item r]. invert_read H. injection H as <-.
  destruct (raw_inv _ _ _ Hok Heqr) as [-> _]. apply bytes_ok_app in Hok as [_ Hok].
  cbn [concat]. f_equal. eauto.
Qed.

Lemma split_loop_fuel fuel : forall inner, bytes_ok inner -> (length inner <= fuel)%nat ->
  split_loop fuel inner <> Err OutOfFuel.
Proof.
  induction fuel as [|f IH]; intros inner Hok Hl; cbn [split_loop].
  - destruct inner; [discriminate | cbn in Hl; lia].
  - destruct (Empty inner); [discriminate|]. pose proof (raw_fuel inner).
    destruct (Raw inner) as [[b r]|] eqn:E; cbn [rbind]; [|congruence].
    pose proof (cut_length _ _ (cut_raw _ _ _ Hok E)). destruct (raw_inv _ _ _ Hok E) as [E' _].
    assert (bytes_ok r) as Hr by (subst inner; apply bytes_ok_app in Hok; apply Hok).
    specialize (IH r Hr ltac:(lia)). destruct (split_loop f r); cbn [rbind]; congruence.
Qed.

(** * Main theorems *)

(** C34: encoding a value of any type of the universe and decoding the result
    into that type gives the value back, for the values a decoder can produce. *)
Theorem decode_encode (v : GoVal) (t : GoType) (e : bytes)
    (Hc : canon v t) (He : Encode v t = Ok e) (Hf : fits e) : Decode e t = Ok v.
Proof.
  unfold Decode. rewrite <- (app_nil_r e) in Hf.
  destruct (value_round v t e [] Hc He Hf) as [Hd _]. rewrite app_nil_r in Hd.
  rewrite Hd. reflexivity.
Qed.

(** A transaction-shaped struct: nonce, nil-able recipient, value, data, and a
    trailing optional field. *)
Definition sample_type : GoType := TStruct
  [mkField "Nonce" true "" (TUint 64); mkField "To" true "nil" (TPtr (TArray 2 (TUint 8)));
   mkField "Value" true "" (TPtr TBigInt); mkField "Data" true "" (TSlice (TUint 8));
   mkField "cache" false "" (TUint 64); mkField "Extra" true "optional" (TUint 64)].
Definition sample_val : GoVal :=
  VStruct [VUint 7; VNil; VPtr (VBig 1000); VBytes [1; 2; 200]; VUint 0; VUint 0].

Lemma decode_encode_witness :
  Decode [202; 7; 128; 130; 3; 232; 131; 1; 2; 200] sample_type = Err ErrUnexpectedEOF /\
  Decode [201; 7; 128; 130; 3; 232; 131; 1; 2; 200] sample_type = Ok sample_val.
Proof.
  split; [reflexivity|]. apply (decode_encode sample_val sample_type).
  - cbn. repeat match goal with
    | |- _ /\ _ => split
    | |- _ \/ _ => first [right; split; [solve [left; auto | right; cbn; intuition (discriminate || lia)]|]
                          | left; intuition (reflexivity || discriminate)]
    end; auto.
  - reflexivity.
  - unfold fits, len, max_int64. cbn. lia.
Defined.

(** Decoding is canonical.  For every type without optional or nil-able
    fields, the only input that decodes to a value is the encoding of that
    value, so no two byte strings decode to the same value. *)
Theorem encode_decode (t : GoType) (data : bytes) (v : GoVal)
    (Hs : strict_type t = true) (Hok : bytes_ok data) (Hf : fits data)
    (Hd : Decode data t = Ok v) : Encode v t = Ok data.
Proof.
  unfold Decode in Hd. invert_read Hd. destruct a as [v' r].
  destruct (Z.ltb_spec 0 (len r)) as [|Hr]; [discriminate|]. injection Hd as ->.
  destruct (decode_inverts t Hs data v r Hok Hf Heqr) as (e & He & ->).
  assert (r = []) as -> by (destruct r; [reflexivity | unfold len in Hr; cbn in Hr; lia]).
  rewrite app_nil_r. exact He.
Qed.

Lemma encode_decode_witness :
  Encode (VSeq [VSeq []; VSeq [VSeq []]]) (TSlice (TSlice (TSlice TBool))) = Ok [195; 192; 193; 192].
Proof.
  apply (encode_decode (TSlice (TSlice (TSlice TBool))) [195; 192; 193; 192]).
  - reflexivity.
  - repeat constructor; vm_compute; discriminate.
  - vm_compute. discriminate.
  - reflexivity.
Defined.

(** Every decoding loop stops: the element loops of slices and of Split
    never run past one iteration per input byte, whatever the input. *)
Theorem decoding_terminates (t : GoType) (data : bytes) (Hok : bytes_ok data) (Hf : fits data) :
  Decode data t <> Err OutOfFuel /\ Split data <> Err OutOfFuel.
Proof.
  split.
  - unfold Decode. destruct (decode_behaved t data Hok Hf) as [Hn _].
    destruct (decodeValue t data) as [[v r]|]; cbn [rbind]; [bcase|]; congruence.
  - unfold Split. pose proof (list_fuel data).
    destruct (StreamList data) as [[p r]|] eqn:E; cbn [rbind]; [|congruence].
    destruct (list_ok _ _ _ Hok Hf E) as [Hp _]. apply split_loop_fuel; auto.
Qed.

Lemma decoding_terminates_witness : Decode [193; 193] (TSlice (TSlice TBool)) <> Err OutOfFuel.
Proof.
  refine (proj1 (decoding_terminates (TSlice (TSlice TBool)) [193; 193] _ _)).
  - repeat constructor; vm_compute; discriminate.
  - vm_compute. discriminate.
Defined.

(** Split returns exactly the items EncodeList was given, each of them an
    encoded item, and the elements it returns always make up the list that was
    read. *)
Theorem split_encode_list (items : list bytes) (data : bytes) (out : list bytes)
    (Hi : Forall raw_item items) (Hf : fits (EncodeList items))
    (Hok : bytes_ok data) (Hfd : fits data) (Hd : Split data = Ok out) :
  Split (EncodeList items) = Ok items /\ exists rest, data = EncodeList out ++ rest.
Proof.
  split.
  - rewrite EncodeList_write in *. unfold Split. rewrite <- (app_nil_r (write_list _)).
    rewrite list_write_list by (rewrite app_nil_r; exact Hf). cbn [rbind].
    apply split_loop_items; auto. apply (fits_app (writeListHeader (len (concat items)))), Hf.
  - unfold Split in Hd. invert_read Hd. destruct a as [p r]. exists r. rewrite EncodeList_write.
    destruct (list_ok _ _ _ Hok Hfd Heqr) as [Hp _].
    rewrite <- (split_loop_inv _ _ _ Hp Hd). apply list_inv; assumption.
Qed.

Lemma split_encode_list_witness : Split (EncodeList [[1]; [192]]) = Ok [[1]; [192]].
Proof.
  refine (proj1 (split_encode_list [[1]; [192]] [192] [] _ _ _ _ _)).
  - repeat constructor; vm_compute; discriminate.
  - vm_compute. discriminate.
  - repeat constructor; vm_compute; discriminate.
  - vm_compute. discriminate.
  - reflexivity.
Defined.

(** Raw computes header plus size in a signed integer.  It panics exactly
    on the inputs whose header announces a size within a header's length of the
    largest integer, and nine bytes are enough for such an input. *)
Theorem raw_panics_iff (s : bytes) (Hok : bytes_ok s) :
  (Raw s = Err GoPanic <->
   exists k L, StreamKind s = Ok (k, L) /\ k <> KByte /\ max_int64 < headerSize k L + L) /\
  Raw [255; 127; 255; 255; 255; 255; 255; 255; 255] = Err GoPanic.
Proof.
  split; [|reflexivity]. unfold Raw. pose proof (len_nonneg s) as Hlen.
  destruct (StreamKind s) as [[k L]|e] eqn:Ek; cbn [rbind].
  2: { split; [|intros (? & ? & E & _); discriminate]. intros E. exfalso.
       destruct s as [|b t]; [cbn in Ek; congruence|]. cbn [StreamKind] in Ek. revert Ek.
       unfold peekLength. repeat bcase; cbn [rbind]; congruence. }
  destruct (raw_total s k L Hok Ek) as [HL Hh]. split.
  - intros H. exists k, L. split; [reflexivity|]. destruct k.
    + exfalso. destruct (Z.ltb_spec (len s) 1); [discriminate|]. discriminate.
    + destruct Hh as [Hh|Hh]; [discriminate|]. split; [discriminate|].
      destruct (Z.le_gt_cases (headerSize KString L + L) max_int64); [exfalso|lia].
      rewrite wrap_int_small in H by (unfold max_int64 in *; lia).
      repeat bcase_in H; try discriminate. lia.
    + destruct Hh as [Hh|Hh]; [discriminate|]. split; [discriminate|].
      destruct (Z.le_gt_cases (headerSize KList L + L) max_int64); [exfalso|lia].
      rewrite wrap_int_small in H by (unfold max_int64 in *; lia).
      repeat bcase_in H; try discriminate. lia.
  - intros (k' & L' & E & Hk & Hgt). injection E as <- <-.
    assert (wrap_int (headerSize k L + L) < 0) as Hneg.
    { destruct Hh as [Hh|Hh]; [contradiction|]. unfold wrap_int.
      rewrite Z.mod_small by (unfold two64, max_int64 in *; lia).
      bcase; unfold two64, max_int64 in *; lia. }
    destruct k; [contradiction| |]; (bcase; [lia|]); (bcase; [reflexivity | lia]).
Qed.

Lemma raw_panics_iff_witness :
  exists k L, StreamKind [255; 127; 255; 255; 255; 255; 255; 255; 255] = Ok (k, L) /\ k <> KByte /\
    max_int64 < headerSize k L + L.
Proof.
  apply (raw_panics_iff [255; 127; 255; 255; 255; 255; 255; 255; 255]).
  - repeat constructor; vm_compute; discriminate.
  - reflexivity.
Defined.

End Rlp.
