(* ===== verification/Common.v ===== *)
(** Addresses and hashes (src/common/types.go) and the hash function every
    other component is given (src/crypto/keccak).

    An [Address] and a [Hash] are the byte arrays of the source, as byte
    strings of length 20 and 32.  Keccak-256 is an interface: components take
    any function with 32 bytes of output. *)

From Stdlib Require Import Ascii String.
From stdpp Require Import base list gmap.
From Stdlib Require Import ZArith Lia List.
From S2P Require Import Prelude.
Local Open Scope Z_scope.

Abbreviation Address := (list Z).
Abbreviation Hash := (list Z).

Definition zeros (n : nat) : bytes := replicate n 0.

(** The rightmost [n] bytes, zero-padded on the left: the body shared by
    [BytesToAddress] and [BytesToHash]. *)
Definition fit_right (n : nat) (b : bytes) : bytes :=
  let b := if (n <? length b)%nat then drop (length b - n) b else b in
  zeros (n - length b) ++ b.

Definition BytesToAddress (b : bytes) : Address := fit_right 20 b.
Definition BytesToHash (b : bytes) : Hash := fit_right 32 b.
Definition BigToHash (v : Z) : Hash := BytesToHash (big_bytes (Z.abs v)).
Definition HashBig (h : Hash) : Z := be_val h.
Definition AddressHash (a : Address) : Hash := BytesToHash a.
Definition ZeroAddress : Address := zeros 20.
Definition ZeroHash : Hash := zeros 32.
Definition HashIsZero (h : Hash) : bool := bool_decide (h = ZeroHash).
Definition AddressIsZero (a : Address) : bool := bool_decide (a = ZeroAddress).

Definition LeftPadBytes (b : bytes) (n : nat) : bytes :=
  if (n <=? length b)%nat then drop (length b - n) b else zeros (n - length b) ++ b.

Definition RightPadBytes (b : bytes) (n : nat) : bytes :=
  if (n <=? length b)%nat then take n b else b ++ zeros (n - length b).

(** The hash function: src/crypto/keccak computes it on the concatenation of
    its arguments. *)
Class Keccak := {
  Sum256 : bytes -> Hash;
  Sum256_length : forall b, length (Sum256 b) = 32%nat;
  Sum256_ok : forall b, bytes_ok (Sum256 b)
}.

Definition Keccak256 `{Keccak} (data : list bytes) : Hash := Sum256 (concat data).

(** A well-formed hash or address. *)
Definition hash_ok (h : Hash) : Prop := length h = 32%nat /\ bytes_ok h.
Definition address_ok (a : Address) : Prop := length a = 20%nat /\ bytes_ok a.

Lemma zeros_ok n : bytes_ok (zeros n).
Proof. unfold zeros, bytes_ok. induction n; cbn; constructor; auto. unfold byte_ok. lia. Qed.

Lemma be_val_zeros n b : be_val (zeros n ++ b) = be_val b.
Proof.
  unfold zeros. induction n as [|n IH]; [reflexivity|].
  cbn [replicate app]. rewrite be_val_cons, IH. lia.
Qed.

Lemma fit_right_length n b : length (fit_right n b) = n.
Proof.
  unfold fit_right, zeros. rewrite length_app, length_replicate.
  destruct (Nat.ltb_spec n (length b)); [rewrite length_drop|]; lia.
Qed.

Lemma drop_ok n b : bytes_ok b -> bytes_ok (drop n b).
Proof. apply Forall_drop. Qed.

Lemma fit_right_ok n b : bytes_ok b -> bytes_ok (fit_right n b).
Proof.
  intros H. unfold fit_right. apply Forall_app. split; [apply zeros_ok|].
  destruct (n <? length b)%nat; [apply drop_ok|]; exact H.
Qed.

Lemma fit_right_short n b : (length b <= n)%nat -> fit_right n b = zeros (n - length b) ++ b.
Proof. intros H. unfold fit_right. destruct (Nat.ltb_spec n (length b)); [lia | reflexivity]. Qed.

Lemma fit_right_id n b : length b = n -> fit_right n b = b.
Proof. intros H. rewrite fit_right_short, H, Nat.sub_diag by lia. reflexivity. Qed.

Lemma BytesToHash_ok b : bytes_ok b -> hash_ok (BytesToHash b).
Proof. intros H. split; [apply fit_right_length | apply fit_right_ok, H]. Qed.

Lemma BigToHash_ok v : hash_ok (BigToHash v).
Proof. apply BytesToHash_ok, big_bytes_ok. Qed.

(** A 256-bit integer survives storage as a hash. *)
Lemma HashBig_BigToHash v : 0 <= v < 2 ^ 256 -> HashBig (BigToHash v) = v.
Proof.
  intros Hv. unfold HashBig, BigToHash, BytesToHash. rewrite Z.abs_eq by lia.
  assert (len (big_bytes v) <= 32) as Hl by (apply big_bytes_len; [lia | exact Hv]).
  unfold len in Hl. rewrite fit_right_short, be_val_zeros by lia. apply big_bytes_val. lia.
Qed.

(** A larger one keeps its low 256 bits. *)
Lemma be_val_drop k b : bytes_ok b -> be_val (drop k b) = be_val b mod 256 ^ len (drop k b).
Proof.
  intros Hb. rewrite <- (take_drop k b) at 2. rewrite be_val_app.
  rewrite Z.add_comm, Z_mod_plus_full, Z.mod_small; [reflexivity|]. apply be_val_bounds, Forall_drop, Hb.
Qed.

Lemma HashBig_BigToHash_mod v : 0 <= v -> HashBig (BigToHash v) = v mod 2 ^ 256.
Proof.
  intros Hv. unfold HashBig, BigToHash, BytesToHash. rewrite Z.abs_eq by lia.
  destruct (Nat.leb_spec (length (big_bytes v)) 32) as [Hl|Hl].
  - rewrite fit_right_short, be_val_zeros, big_bytes_val by assumption. symmetry. apply Z.mod_small. split; [exact Hv|].
    pose proof (be_val_bounds _ (big_bytes_ok v)) as Hb. rewrite big_bytes_val in Hb by exact Hv.
    apply (Z.lt_le_trans _ _ _ (proj2 Hb)). change (2 ^ 256) with (256 ^ 32). apply Z.pow_le_mono_r; unfold len; lia.
  - unfold fit_right. destruct (Nat.ltb_spec 32 (length (big_bytes v))); [|lia].
    rewrite be_val_zeros, be_val_drop, big_bytes_val by (auto using big_bytes_ok). f_equal.
    unfold len. rewrite length_drop. replace (length (big_bytes v) - (length (big_bytes v) - 32))%nat with 32%nat by lia.
    reflexivity.
Qed.

Lemma BigToHash_inj v w : 0 <= v < 2 ^ 256 -> 0 <= w < 2 ^ 256 -> BigToHash v = BigToHash w -> v = w.
Proof.
  intros Hv Hw E. rewrite <- (HashBig_BigToHash v Hv), <- (HashBig_BigToHash w Hw), E. reflexivity.
Qed.

Lemma HashBig_bounds h : hash_ok h -> 0 <= HashBig h < 2 ^ 256.
Proof.
  intros [Hl Hok]. pose proof (be_val_bounds h Hok) as Hb. unfold HashBig, len in *.
  rewrite Hl in Hb. exact Hb.
Qed.

Lemma BigToHash_HashBig h : hash_ok h -> BigToHash (HashBig h) = h.
Proof.
  intros Hh. pose proof (HashBig_bounds h Hh). destruct Hh as [Hl Hok].
  destruct (BigToHash_ok (HashBig h)) as [Hl' Hok'].
  apply be_val_inj; auto; [congruence|]. apply (HashBig_BigToHash (HashBig h)). assumption.
Qed.

Lemma Keccak256_ok `{Keccak} data : hash_ok (Keccak256 data).
Proof. split; [apply Sum256_length | apply Sum256_ok]. Qed.

#[export] Hint Resolve zeros_ok fit_right_ok BytesToHash_ok BigToHash_ok Keccak256_ok : padi.

(** The bytes of a string constant. *)
Fixpoint bytes_of_string (s : String.string) : bytes :=
  match s with
  | String.EmptyString => []
  | String.String c r => Z.of_N (Ascii.N_of_ascii c) :: bytes_of_string r
  end.

Lemma bytes_of_string_ok s : bytes_ok (bytes_of_string s).
Proof.
  induction s as [|c s IH]; constructor; [|exact IH].
  unfold byte_ok. pose proof (Ascii.N_ascii_bounded c). lia.
Qed.

#[export] Hint Resolve bytes_of_string_ok : padi.
