(* ===== verification/Attestation.v ===== *)
(** Votes, aggregates and quorums (src/core/attestation.go,
    src/core/aggregate.go).

    BLS signatures (src/crypto/bls12381) are an interface [Bls]: parsing,
    verification of one signature and of an aggregate over one message, and
    aggregation.  Bitfields are byte strings as in the source. *)

From Stdlib Require Import Ascii String.
From stdpp Require Import base list list_numbers sorting gmap.
From Stdlib Require Import ZArith Lia List.
From S2P Require Import Prelude RLP Common.
Local Open Scope Z_scope.
Local Open Scope go_scope.

(** * The signature scheme *)

Class Bls := {
  PublicKey : Type;
  Signature : Type;
  PublicKeyFromBytes : bytes -> option PublicKey;
  SignatureFromBytes : bytes -> option Signature;
  SignatureBytes : Signature -> bytes;
  BlsVerify : PublicKey -> bytes -> Signature -> bool;
  FastAggregateVerify : list PublicKey -> bytes -> Signature -> bool;
  AggregateSignatures : list Signature -> option Signature
}.

(** What the vote pool relies on: a serialized signature parses back and is not
    empty, two signatures always aggregate, and adding a valid signature to a valid
    aggregate gives a valid aggregate. *)
Class BlsLaws (B : Bls) := {
  signature_roundtrip : forall s, SignatureFromBytes (SignatureBytes s) = Some s;
  signature_empty : SignatureFromBytes [] = None;
  aggregate_some : forall s t, is_Some (AggregateSignatures [s; t]);
  aggregate_single : forall k m s, FastAggregateVerify [k] m s = BlsVerify k m s;
  aggregate_snoc : forall ks k m s t u,
    FastAggregateVerify ks m s = true -> BlsVerify k m t = true ->
    AggregateSignatures [s; t] = Some u -> FastAggregateVerify (ks ++ [k]) m u = true
}.

Module Att.

Inductive error :=
| ErrBitfieldLength
| ErrNoSigners
| ErrAggregateInvalid
| ErrAttestationInvalid
| ErrQuorumNotMet
| ErrUnknownAttester
| ErrWrongTarget
| ErrOverlappingSigners
| ErrBadSignature
| ErrIncompleteEvidence
| ErrNoConflict
| ErrEvidenceMismatch.

(** * Bitfields *)

Abbreviation Bitfield := (list Z).

Definition NewBitfield (validators : Z) : Bitfield := replicate (Z.to_nat ((validators + 7) / 8)) 0.

Definition out_of_range (b : Bitfield) (index : Z) : bool := (index <? 0) || (len b <=? index / 8).

Definition bit_mask (index : Z) : Z := wrap8 (Z.shiftl 1 (index mod 8)).

Definition Set_ (b : Bitfield) (index : Z) : Bitfield :=
  if out_of_range b index then b
  else
    let k := Z.to_nat (index / 8) in
    <[k := Z.lor (nth k b 0) (bit_mask index)]> b.

Definition Has (b : Bitfield) (index : Z) : bool :=
  if out_of_range b index then false
  else negb (Z.land (nth (Z.to_nat (index / 8)) b 0) (bit_mask index) =? 0).

(** The bit loop of [Count] on one byte: eight shifts empty it. *)
Fixpoint count_byte (fuel : nat) (by_ n : Z) : Z :=
  match fuel with
  | O => n
  | S f => if by_ =? 0 then n else count_byte f (Z.shiftr by_ 1) (n + Z.land by_ 1)
  end.

Definition Count (b : Bitfield) : Z := fold_left (fun n by_ => count_byte 8 by_ n) b 0.

Definition Indices (b : Bitfield) (limit : Z) : list Z :=
  List.filter (Has b) (seqZ 0 limit).

(** [b[i] |= other[i]] over the range of [b]. *)
Fixpoint Or (b other : Bitfield) : Bitfield :=
  match b, other with
  | x :: b', y :: o' => Z.lor x y :: Or b' o'
  | _, _ => b
  end.

Fixpoint Overlaps (b other : Bitfield) : bool :=
  match b, other with
  | x :: b', y :: o' => negb (Z.land x y =? 0) || Overlaps b' o'
  | _, _ => false
  end.

Definition fits (b : Bitfield) (validators : Z) : bool :=
  (len b =? (validators + 7) / 8) &&
  forallb (fun i => negb (Has b i)) (seqZ validators (len b * 8 - validators)).

(** * Messages *)

Definition attestation_domain : bytes := bytes_of_string "padi-chain/attestation/bls/v1".
Definition randao_domain : bytes := bytes_of_string "padi-chain/randao/v1".

(** [[]any{domain, chainID, number, blockHash}] *)
Definition attestation_value (chainID number : Z) (blockHash : Hash) : Rlp.GoVal :=
  Rlp.VSeq [Rlp.VIface (Rlp.TSlice (Rlp.TUint 8)) (Rlp.VBytes attestation_domain);
            Rlp.VIface (Rlp.TPtr Rlp.TBigInt) (Rlp.VPtr (Rlp.VBig chainID));
            Rlp.VIface (Rlp.TUint 64) (Rlp.VUint number);
            Rlp.VIface (Rlp.TArray 32 (Rlp.TUint 8)) (Rlp.VBytes blockHash)].

(** Encoding fails, and the source panics, only on a negative chain id; [[]]
    stands for the panic, and no theorem depends on it. *)
Definition AttestationMessage (chainID number : Z) (blockHash : Hash) : bytes :=
  match Rlp.Encode (attestation_value chainID number blockHash) (Rlp.TSlice Rlp.TInterface) with
  | Ok enc => enc
  | Err _ => []
  end.

Definition randao_value (chainID epoch : Z) : Rlp.GoVal :=
  Rlp.VSeq [Rlp.VIface (Rlp.TSlice (Rlp.TUint 8)) (Rlp.VBytes randao_domain);
            Rlp.VIface (Rlp.TPtr Rlp.TBigInt) (Rlp.VPtr (Rlp.VBig chainID));
            Rlp.VIface (Rlp.TUint 64) (Rlp.VUint epoch)].

Definition RandaoMessage (chainID epoch : Z) : bytes :=
  match Rlp.Encode (randao_value chainID epoch) (Rlp.TSlice Rlp.TInterface) with
  | Ok enc => enc
  | Err _ => []
  end.

Definition MixRandao `{Keccak} (mix : Hash) (reveal : bytes) : Hash := Keccak256 [mix; reveal].

(** * Quorum *)

Definition Quorum (validators : Z) : Z :=
  if validators <=? 0 then 0 else validators * 2 / 3 + 1.

Section WithBls.
Context `{B : Bls}.

Definition VerifyRandaoReveal (chainID epoch : Z) (key : option PublicKey) (reveal : bytes)
    : result error unit :=
  match key with
  | None => Err ErrAggregateInvalid
  | Some key =>
      match SignatureFromBytes reveal with
      | None => Err ErrAggregateInvalid
      | Some sig =>
          if BlsVerify key (RandaoMessage chainID epoch) sig then Ok tt else Err ErrAggregateInvalid
      end
  end.

(** * Single votes *)

Record Attestation := mkAttestation
  { a_number : Z; a_hash : Hash; a_index : Z; a_signature : bytes }.

Definition VerifyAttestation (chainID : Z) (a : Attestation) (key : option PublicKey) : result error unit :=
  match key with
  | None => Err ErrUnknownAttester
  | Some key =>
      match SignatureFromBytes (a_signature a) with
      | None => Err ErrAttestationInvalid
      | Some sig =>
          if BlsVerify key (AttestationMessage chainID (a_number a) (a_hash a)) sig
          then Ok tt else Err ErrAttestationInvalid
      end
  end.

Record Equivocation := mkEquivocation
  { e_validator : Address; e_number : Z; e_index : Z;
    e_first : option Attestation; e_second : option Attestation }.

(** [Ok None] is the nil proof of votes that do not conflict. *)
Definition DetectEquivocation (chainID : Z) (key : option PublicKey) (a b : Attestation)
    : result error (option Equivocation) :=
  if negb (a_number a =? a_number b) || negb (a_index a =? a_index b) then Ok None
  else if bool_decide (a_hash a = a_hash b) then Ok None
  else
    let! _ := VerifyAttestation chainID a key in
    let! _ := VerifyAttestation chainID b key in
    Ok (Some (mkEquivocation ZeroAddress (a_number a) (a_index a) (Some a) (Some b))).

Definition VerifyEquivocation (chainID : Z) (e : Equivocation) (key : option PublicKey)
    : result error unit :=
  match e_first e, e_second e with
  | Some a, Some b =>
      let! proof := DetectEquivocation chainID key a b in
      match proof with
      | None => Err ErrNoConflict
      | Some p =>
          if negb (e_number p =? e_number e) || negb (e_index p =? e_index e)
          then Err ErrEvidenceMismatch else Ok tt
      end
  | _, _ => Err ErrIncompleteEvidence
  end.

(** * Aggregates *)

Record AggregateAttestation := mkAggregate
  { ag_number : Z; ag_hash : Hash; ag_signers : Bitfield; ag_signature : bytes }.

Definition NewAggregate (number : Z) (blockHash : Hash) (validators : Z) : AggregateAttestation :=
  mkAggregate number blockHash (NewBitfield validators) [].

Definition AddSignature (a : AggregateAttestation) (index : Z) (signature : bytes)
    : result error AggregateAttestation :=
  if Has (ag_signers a) index then Ok a
  else
    match SignatureFromBytes signature with
    | None => Err ErrAggregateInvalid
    | Some sig =>
        let! signature' :=
          (if len (ag_signature a) =? 0 then Ok signature
           else match SignatureFromBytes (ag_signature a) with
                | None => Err ErrAggregateInvalid
                | Some existing =>
                    match AggregateSignatures [existing; sig] with
                    | None => Err ErrBadSignature
                    | Some combined => Ok (SignatureBytes combined)
                    end
                end) in
        Ok (mkAggregate (ag_number a) (ag_hash a) (Set_ (ag_signers a) index) signature')
    end.

Definition Merge (a other : AggregateAttestation) : result error AggregateAttestation :=
  if negb (ag_number a =? ag_number other) || negb (bool_decide (ag_hash a = ag_hash other))
  then Err ErrWrongTarget
  else if len (ag_signature other) =? 0 then Ok a
  else if Overlaps (ag_signers a) (ag_signers other) then Err ErrOverlappingSigners
  else if len (ag_signature a) =? 0 then
    Ok (mkAggregate (ag_number a) (ag_hash a) (Or (ag_signers a) (ag_signers other)) (ag_signature other))
  else
    match SignatureFromBytes (ag_signature a), SignatureFromBytes (ag_signature other) with
    | Some mine, Some theirs =>
        match AggregateSignatures [mine; theirs] with
        | Some combined =>
            Ok (mkAggregate (ag_number a) (ag_hash a) (Or (ag_signers a) (ag_signers other))
                  (SignatureBytes combined))
        | None => Err ErrBadSignature
        end
    | _, _ => Err ErrBadSignature
    end.

Definition IsEmpty (a : AggregateAttestation) : bool :=
  (len (ag_signature a) =? 0) || (Count (ag_signers a) =? 0).

(** The keys of the named signers; a validator without a key is an error. *)
Fixpoint signer_keys (keys : list (option PublicKey)) (indices : list Z) : option (list PublicKey) :=
  match indices with
  | [] => Some []
  | i :: r =>
      match nth (Z.to_nat i) keys None, signer_keys keys r with
      | Some k, Some ks => Some (k :: ks)
      | _, _ => None
      end
  end.

Definition VerifySignature (chainID : Z) (a : AggregateAttestation) (keys : list (option PublicKey))
    : result error (list Z) :=
  if IsEmpty a then Err ErrNoSigners
  else if negb (fits (ag_signers a) (len keys)) then Err ErrBitfieldLength
  else
    let indices := Indices (ag_signers a) (len keys) in
    if len indices =? 0 then Err ErrNoSigners
    else
      match signer_keys keys indices with
      | None => Err ErrAggregateInvalid
      | Some signers =>
          match SignatureFromBytes (ag_signature a) with
          | None => Err ErrAggregateInvalid
          | Some sig =>
              let message := AttestationMessage chainID (ag_number a) (ag_hash a) in
              if FastAggregateVerify signers message sig then Ok indices else Err ErrAggregateInvalid
          end
      end.

Definition VerifyCert (chainID : Z) (a : AggregateAttestation) (keys : list (option PublicKey))
    : result error (list Z) :=
  let! indices := VerifySignature chainID a keys in
  if len indices <? Quorum (len keys) then Err ErrQuorumNotMet else Ok indices.

(** [NewQuorumCert]: the votes of a map, folded in increasing index order. *)
Fixpoint add_votes (agg : AggregateAttestation) (votes : list (Z * bytes)) : result error AggregateAttestation :=
  match votes with
  | [] => Ok agg
  | (index, signature) :: r =>
      let! agg' := AddSignature agg index signature in
      add_votes agg' r
  end.

Definition vote_le (a b : Z * bytes) : Prop := fst a <= fst b.

#[local] Instance vote_le_dec a b : Decision (vote_le a b) := decide (fst a <= fst b).

Definition sorted_votes (votes : gmap Z bytes) : list (Z * bytes) :=
  merge_sort vote_le (map_to_list votes).

Definition NewQuorumCert (number : Z) (blockHash : Hash) (validators : Z) (votes : gmap Z bytes)
    : result error AggregateAttestation :=
  add_votes (NewAggregate number blockHash validators) (sorted_votes votes).

End WithBls.

(** * Bitfields as sets of indices *)

Lemma bit_mask_pow i : bit_mask i = 2 ^ (i mod 8).
Proof.
  unfold bit_mask. rewrite Z.shiftl_1_l. apply wrap8_small. unfold byte_ok.
  pose proof (Z.mod_pos_bound i 8 ltac:(lia)). split; [apply Z.pow_nonneg; lia|].
  change 256 with (2 ^ 8). apply Z.pow_lt_mono_r; lia.
Qed.

Lemma Has_testbit b i :
  Has b i = negb (out_of_range b i) && Z.testbit (nth (Z.to_nat (i / 8)) b 0) (i mod 8).
Proof.
  unfold Has. destruct (out_of_range b i); [reflexivity|]. cbn [negb andb].
  pose proof (Z.mod_pos_bound i 8 ltac:(lia)).
  rewrite bit_mask_pow, land_pow2_eqb by lia. apply negb_involutive.
Qed.

Lemma Set_length b i : length (Set_ b i) = length b.
Proof. unfold Set_. destruct (out_of_range b i); [reflexivity|]. apply length_insert. Qed.

Lemma nth_insert (l : bytes) k j v : nth j (<[k := v]> l) 0 = if decide (j = k /\ (k < length l)%nat) then v else nth j l 0.
Proof.
  rewrite !nth_lookup. destruct (decide (j = k /\ (k < length l)%nat)) as [[-> Hk]|Hn].
  - rewrite list_lookup_insert_eq by exact Hk. reflexivity.
  - destruct (decide (j = k)) as [->|Hjk].
    + rewrite list_insert_ge by (destruct (Nat.lt_ge_cases k (length l)); [tauto | lia]). reflexivity.
    + rewrite list_lookup_insert_ne by congruence. reflexivity.
Qed.

Lemma Has_Set b i j : Has (Set_ b i) j = Has b j || ((i =? j) && negb (out_of_range b i)).
Proof.
  rewrite !Has_testbit. unfold Set_. destruct (out_of_range b i) eqn:Ei.
  { cbn [negb]. rewrite andb_false_r, orb_false_r. reflexivity. }
  assert (out_of_range (<[Z.to_nat (i / 8) := Z.lor (nth (Z.to_nat (i / 8)) b 0) (bit_mask i)]> b) j
          = out_of_range b j) as -> by (unfold out_of_range, len; rewrite length_insert; reflexivity).
  destruct (out_of_range b j) eqn:Ej; cbn [negb andb].
  { destruct (Z.eqb_spec i j) as [->|]; [congruence | reflexivity]. }
  unfold out_of_range, len in Ei, Ej. bsimp.
  pose proof (Z.div_mod i 8 ltac:(lia)). pose proof (Z.div_mod j 8 ltac:(lia)).
  pose proof (Z.mod_pos_bound i 8 ltac:(lia)). pose proof (Z.mod_pos_bound j 8 ltac:(lia)).
  assert (0 <= i / 8) by (apply Z.div_pos; lia). assert (0 <= j / 8) by (apply Z.div_pos; lia).
  rewrite nth_insert, bit_mask_pow. rewrite andb_true_r.
  destruct (decide _) as [[E _]|Hn].
  - assert (j / 8 = i / 8) as Ed by lia. rewrite Ed, Z.lor_spec. f_equal.
    destruct (Z.eqb_spec i j) as [->|]; [apply Z.pow2_bits_true; lia|].
    apply Z.pow2_bits_false. lia.
  - destruct (Z.eqb_spec i j) as [->|]; [exfalso; apply Hn; lia|]. rewrite orb_false_r. reflexivity.
Qed.

Lemma Indices_spec b limit i : In i (Indices b limit) <-> 0 <= i < limit /\ Has b i = true.
Proof. unfold Indices. rewrite filter_In, <- list_elem_of_In, elem_of_seqZ. intuition lia. Qed.

Lemma seqZ_strict n : forall m, StronglySorted Z.lt (seqZ m (Z.of_nat n)).
Proof.
  induction n as [|n IH]; intros m; [constructor|].
  rewrite seqZ_cons by lia. replace (Z.pred (Z.of_nat (S n))) with (Z.of_nat n) by lia.
  constructor; [apply IH|]. apply Forall_forall. intros x Hx. rewrite <- list_elem_of_In, elem_of_seqZ in Hx. lia.
Qed.

Lemma filter_sorted {A} (R : A -> A -> Prop) (f : A -> bool) l :
  StronglySorted R l -> StronglySorted R (List.filter f l).
Proof.
  induction 1 as [|x l Hs IH Hx]; cbn [List.filter]; [constructor|]. destruct (f x); [|exact IH].
  constructor; [exact IH|]. apply Forall_forall. intros y Hy. rewrite filter_In in Hy.
  rewrite Forall_forall in Hx. apply Hx. tauto.
Qed.

Lemma Indices_sorted b limit : StronglySorted Z.lt (Indices b limit).
Proof.
  apply filter_sorted. destruct (Z.le_gt_cases 0 limit).
  - rewrite <- (Z2Nat.id limit) by lia. apply seqZ_strict.
  - rewrite seqZ_nil by lia. constructor.
Qed.

Lemma sorted_NoDup l : StronglySorted Z.lt l -> NoDup l.
Proof.
  induction 1 as [|x l Hs IH Hx]; constructor; [|exact IH].
  rewrite Forall_forall in Hx. intros Hin. specialize (Hx x Hin). lia.
Qed.

Lemma Indices_NoDup b limit : NoDup (Indices b limit).
Proof. apply sorted_NoDup, Indices_sorted. Qed.

(** Two increasing lists with the same elements are equal. *)
Lemma sorted_ext l : StronglySorted Z.lt l -> forall k, StronglySorted Z.lt k ->
  (forall i, In i l <-> In i k) -> l = k.
Proof.
  induction 1 as [|x l Hs IH Hx]; intros k Hk Hi.
  - destruct k as [|y k]; [reflexivity|]. destruct (proj2 (Hi y) (or_introl eq_refl)).
  - destruct Hk as [|y k Hk Hy]; [destruct (proj1 (Hi x) (or_introl eq_refl))|].
    rewrite Forall_forall in Hx, Hy.
    assert (x = y) as ->.
    { destruct (proj1 (Hi x) (or_introl eq_refl)) as [->|H1]; [reflexivity|].
      destruct (proj2 (Hi y) (or_introl eq_refl)) as [->|H2]; [reflexivity|].
      specialize (Hx y H2). specialize (Hy x H1). lia. }
    f_equal. apply IH; [exact Hk|]. intros i. split; intros H.
    + destruct (proj1 (Hi i) (or_intror H)) as [->|]; [|assumption].
      specialize (Hx i H). lia.
    + destruct (proj2 (Hi i) (or_intror H)) as [->|]; [|assumption].
      specialize (Hy i H). lia.
Qed.

Lemma Has_New n i : Has (NewBitfield n) i = false.
Proof.
  rewrite Has_testbit. unfold NewBitfield. rewrite nth_lookup.
  destruct (replicate _ 0 !! _) as [c|] eqn:E; cbn [default].
  - apply lookup_replicate in E as [-> _]. rewrite Z.bits_0. apply andb_false_r.
  - rewrite Z.bits_0. apply andb_false_r.
Qed.

Lemma out_of_range_new n i : 0 <= i < n -> forall b, length b = length (NewBitfield n) -> out_of_range b i = false.
Proof.
  intros Hi b Hb. unfold out_of_range, len. rewrite Hb. unfold NewBitfield. rewrite length_replicate.
  assert (i / 8 < (n + 7) / 8).
  { apply Z.div_lt_upper_bound; [lia|]. pose proof (Z.div_mod (n + 7) 8 ltac:(lia)).
    pose proof (Z.mod_pos_bound (n + 7) 8 ltac:(lia)). lia. }
  assert (0 <= i / 8) by (apply Z.div_pos; lia).
  apply orb_false_intro; [apply Z.ltb_ge; lia | apply Z.leb_gt; lia].
Qed.

(** A bitfield of the right length with nothing marked past the set. *)
Lemma fits_spec b n : 0 <= n ->
  (fits b n = true <-> length b = length (NewBitfield n) /\ forall i, n <= i -> Has b i = false).
Proof.
  intros Hn. unfold fits, NewBitfield. rewrite length_replicate.
  assert (0 <= (n + 7) / 8) by (apply Z.div_pos; lia).
  rewrite andb_true_iff, Z.eqb_eq. unfold len. split.
  - intros [Hl Hf]. split; [lia|]. intros i Hi. rewrite forallb_forall in Hf.
    destruct (Z.lt_ge_cases i (Z.of_nat (length b) * 8)) as [Hlt|Hge].
    + specialize (Hf i). rewrite <- list_elem_of_In, elem_of_seqZ in Hf.
      specialize (Hf ltac:(lia)). apply negb_true_iff in Hf. exact Hf.
    + rewrite Has_testbit. replace (out_of_range b i) with true; [reflexivity|].
      unfold out_of_range, len. symmetry. apply orb_true_intro. right. apply Z.leb_le.
      apply Z.div_le_lower_bound; lia.
  - intros [Hl Hh]. split; [lia|]. apply forallb_forall. intros i Hi.
    rewrite <- list_elem_of_In, elem_of_seqZ in Hi. rewrite Hh by lia. reflexivity.
Qed.

(** * Quorum intersection *)

Lemma range_length l n : 0 <= n -> NoDup l -> (forall i, In i l -> 0 <= i < n) -> len l <= n.
Proof.
  intros Hn Hnd Hr. unfold len. rewrite <- (Z2Nat.id n) by lia. apply inj_le.
  assert (length (seqZ 0 n) = Z.to_nat n) as <- by apply length_seqZ.
  apply NoDup_incl_length; [exact Hnd|]. intros i Hi. apply list_elem_of_In, elem_of_seqZ. auto.
Qed.

Definition common (l1 l2 : list Z) : list Z := List.filter (fun i => bool_decide (i ∈ l2)) l1.

Lemma common_spec l1 l2 i : In i (common l1 l2) <-> In i l1 /\ In i l2.
Proof. unfold common. rewrite filter_In, bool_decide_eq_true, list_elem_of_In. tauto. Qed.

Lemma filter_partition_length {A} (f : A -> bool) l :
  length l = (length (List.filter f l) + length (List.filter (fun x => negb (f x)) l))%nat.
Proof. induction l as [|x l IH]; cbn; [reflexivity|]. destruct (f x); cbn; lia. Qed.

Lemma common_length l1 l2 n : 0 <= n -> NoDup l1 -> NoDup l2 ->
  (forall i, In i l1 -> 0 <= i < n) -> (forall i, In i l2 -> 0 <= i < n) ->
  len l1 + len l2 - n <= len (common l1 l2).
Proof.
  intros Hn H1 H2 R1 R2. set (f := fun i => bool_decide (i ∈ l2)).
  set (rest := List.filter (fun i => negb (f i)) l1).
  assert (NoDup (rest ++ l2)) as Hnd.
  { apply List.NoDup_app; [apply List.NoDup_filter, H1 | exact H2 |].
    intros i Hi Hi2. rewrite <- list_elem_of_In in Hi2. unfold rest, f in Hi. rewrite filter_In in Hi.
    destruct Hi as [_ Hi]. apply negb_true_iff, bool_decide_eq_false in Hi. contradiction. }
  pose proof (range_length (rest ++ l2) n Hn Hnd) as Hl.
  rewrite len_app in Hl.
  assert (forall i, In i (rest ++ l2) -> 0 <= i < n) as Hr.
  { intros i Hi. rewrite in_app_iff in Hi. unfold rest in Hi. rewrite filter_In in Hi.
    destruct Hi as [[Hi _]|Hi]; auto. }
  specialize (Hl Hr).
  pose proof (filter_partition_length f l1) as Hp. fold rest in Hp.
  unfold common, len in *. fold f. lia.
Qed.

(** Two quorums share more than a third of the set. *)
Lemma quorum_overlap n : 0 < n -> n < 3 * (2 * Quorum n - n).
Proof.
  intros Hn. unfold Quorum. destruct (Z.leb_spec n 0); [lia|].
  pose proof (Z.div_mod (n * 2) 3 ltac:(lia)). pose proof (Z.mod_pos_bound (n * 2) 3 ltac:(lia)). lia.
Qed.

Section Certificates.
Context `{B : Bls}.

Lemma VerifySignature_inv chainID a keys idx : VerifySignature chainID a keys = Ok idx ->
  idx = Indices (ag_signers a) (len keys) /\ idx <> [] /\ fits (ag_signers a) (len keys) = true /\
  exists signers sig, signer_keys keys idx = Some signers /\
    SignatureFromBytes (ag_signature a) = Some sig /\
    FastAggregateVerify signers (AttestationMessage chainID (ag_number a) (ag_hash a)) sig = true.
Proof.
  unfold VerifySignature. destruct (IsEmpty a); [discriminate|].
  destruct (fits (ag_signers a) (len keys)); [|discriminate]. cbn [negb].
  destruct (Z.eqb_spec (len (Indices (ag_signers a) (len keys))) 0) as [|Hne]; [discriminate|].
  destruct (signer_keys keys _) as [signers|] eqn:Ek; [|discriminate].
  destruct (SignatureFromBytes (ag_signature a)) as [sig|] eqn:Es; [|discriminate].
  destruct (FastAggregateVerify _ _ _) eqn:Ev; [|discriminate]. injection 1 as <-.
  split; [reflexivity|]. split; [intros E; rewrite E in Hne; contradiction|].
  split; [reflexivity|]. exists signers, sig. auto.
Qed.

Lemma VerifyCert_inv chainID a keys idx : VerifyCert chainID a keys = Ok idx ->
  VerifySignature chainID a keys = Ok idx /\ Quorum (len keys) <= len idx.
Proof.
  unfold VerifyCert. destruct (VerifySignature chainID a keys) as [i|]; [|discriminate]. cbn [rbind].
  destruct (Z.ltb_spec (len i) (Quorum (len keys))); [discriminate|]. injection 1 as <-. auto.
Qed.

Lemma signer_keys_in keys idx signers i : signer_keys keys idx = Some signers -> In i idx ->
  exists k, nth (Z.to_nat i) keys None = Some k /\ In k signers.
Proof.
  revert signers. induction idx as [|j idx IH]; intros signers H Hin; [destruct Hin|]. cbn [signer_keys] in H.
  destruct (nth (Z.to_nat j) keys None) as [k|] eqn:Ek; [|discriminate].
  destruct (signer_keys keys idx) as [ks|]; [|discriminate]. injection H as <-.
  destruct Hin as [->|Hin]; [exists k; cbn; auto|].
  destruct (IH ks eq_refl Hin) as (k' & H1 & H2). exists k'. cbn. auto.
Qed.

Lemma signer_keys_drawn keys idx signers : signer_keys keys idx = Some signers -> forall k, In k signers -> In (Some k) keys.
Proof.
  revert signers. induction idx as [|j idx IH]; intros signers H; cbn [signer_keys] in H; [injection H as <-; intros k []|].
  destruct (nth (Z.to_nat j) keys None) as [k|] eqn:Ek; [|discriminate].
  destruct (signer_keys keys idx) as [ks|]; [|discriminate]. injection H as <-.
  intros k' [<-|Hk']; [|exact (IH ks eq_refl k' Hk')]. rewrite <- Ek. apply nth_In.
  destruct (Nat.lt_ge_cases (Z.to_nat j) (length keys)) as [|Hge]; [assumption|].
  rewrite nth_overflow in Ek by exact Hge. discriminate.
Qed.

Lemma signer_keys_app keys a b ka kb : signer_keys keys a = Some ka -> signer_keys keys b = Some kb ->
  signer_keys keys (a ++ b) = Some (ka ++ kb).
Proof.
  revert ka. induction a as [|i a IH]; intros ka Ha Hb; cbn [signer_keys app] in *.
  - injection Ha as <-. exact Hb.
  - destruct (nth (Z.to_nat i) keys None); [|discriminate].
    destruct (signer_keys keys a) as [ks|]; [|discriminate]. injection Ha as <-.
    rewrite (IH ks eq_refl Hb). reflexivity.
Qed.
End Certificates.

(** * The signed message *)

Lemma attestation_message_eq chainID number blockHash : 0 <= chainID ->
  AttestationMessage chainID number blockHash =
  Rlp.write_list (Rlp.writeBytes attestation_domain ++ Rlp.writeBytes (big_bytes chainID) ++
                  Rlp.writeBytes (Rlp.putUint number) ++ Rlp.writeBytes blockHash).
Proof.
  intros Hc. unfold AttestationMessage, Rlp.Encode, attestation_value.
  destruct (Z.ltb_spec chainID 0) as [|Hlt]; [lia|]. apply Z.ltb_ge in Hlt.
  cbn -[Rlp.writeBytes attestation_domain big_bytes Rlp.putUint Rlp.write_list]. rewrite Hlt.
  cbn -[Rlp.writeBytes attestation_domain big_bytes Rlp.putUint Rlp.write_list].
  rewrite app_nil_r. reflexivity.
Qed.

Lemma randao_message_eq chainID epoch : 0 <= chainID ->
  RandaoMessage chainID epoch =
  Rlp.write_list (Rlp.writeBytes randao_domain ++ Rlp.writeBytes (big_bytes chainID) ++
                  Rlp.writeBytes (Rlp.putUint epoch)).
Proof.
  intros Hc. unfold RandaoMessage, Rlp.Encode, randao_value.
  destruct (Z.ltb_spec chainID 0) as [|Hlt]; [lia|]. apply Z.ltb_ge in Hlt.
  cbn -[Rlp.writeBytes randao_domain big_bytes Rlp.putUint Rlp.write_list]. rewrite Hlt.
  cbn -[Rlp.writeBytes randao_domain big_bytes Rlp.putUint Rlp.write_list].
  rewrite app_nil_r. reflexivity.
Qed.

(** Strings and lists are self-delimiting. *)
Lemma writeBytes_app_inj a b x y : Rlp.fits (Rlp.writeBytes a ++ x) ->
  Rlp.writeBytes a ++ x = Rlp.writeBytes b ++ y -> a = b /\ x = y.
Proof.
  intros Hf E. pose proof (Rlp.bytes_writeBytes a x Hf) as Ha. rewrite E in Ha, Hf.
  rewrite (Rlp.bytes_writeBytes b y Hf) in Ha. injection Ha as -> ->. auto.
Qed.

Lemma write_list_inj p q : Rlp.fits (Rlp.write_list p) -> Rlp.write_list p = Rlp.write_list q -> p = q.
Proof.
  intros Hf E. rewrite <- (app_nil_r (Rlp.write_list p)) in Hf, E.
  rewrite <- (app_nil_r (Rlp.write_list q)) in E.
  pose proof (Rlp.list_write_list p [] Hf) as Hp. rewrite E in Hp, Hf.
  rewrite (Rlp.list_write_list q [] Hf) in Hp. injection Hp as ->. reflexivity.
Qed.

Lemma len_writeBytes b : Rlp.fits b -> len (Rlp.writeBytes b) <= 9 + len b.
Proof.
  intros Hf. destruct (Rlp.writeBytes_cases b) as [(c & -> & _ & ->)|[-> _]].
  - unfold len. cbn [length]. lia.
  - rewrite len_app. pose proof (Rlp.len_writeHeader Rlp.KString _ (Rlp.payload_of_fits b Hf)).
    cbn [Rlp.offset_of] in *. lia.
Qed.

Lemma len_write_list p : Rlp.fits p -> len (Rlp.write_list p) <= 9 + len p.
Proof.
  intros Hf. unfold Rlp.write_list, Rlp.writeListHeader. rewrite len_app.
  pose proof (Rlp.len_writeHeader Rlp.KList _ (Rlp.payload_of_fits p Hf)). cbn [Rlp.offset_of] in *. lia.
Qed.

Lemma small_fits b n : len b <= n -> n <= 1000 -> Rlp.fits b.
Proof. unfold Rlp.fits, max_int64. lia. Qed.

Lemma big_bytes_32 v : 0 <= v < 2 ^ 256 -> len (big_bytes v) <= 32.
Proof. intros H. apply big_bytes_len; [lia|]. exact H. Qed.

(** The parameters that bind a message: a chain id of at most 256 bits, a
    64-bit height and a 32-byte hash. *)
Definition message_params (chainID number : Z) (h : Hash) : Prop :=
  0 <= chainID < 2 ^ 256 /\ u64_ok number /\ length h = 32%nat.

Lemma len_string_le b n : len b <= n -> n <= 500 -> len (Rlp.writeBytes b) <= 9 + n.
Proof. intros H Hn. pose proof (len_writeBytes b (small_fits b n H ltac:(lia))). lia. Qed.

Lemma attestation_message_fits chainID number h : message_params chainID number h ->
  Rlp.fits (AttestationMessage chainID number h).
Proof.
  intros (Hc & Hn & Hh). rewrite attestation_message_eq by lia.
  pose proof (len_string_le (big_bytes chainID) 32 (big_bytes_32 _ Hc) ltac:(lia)).
  pose proof (Rlp.big_bytes_len8 number Hn) as Hl8. rewrite <- Rlp.putUint_spec in Hl8 by exact Hn.
  pose proof (len_string_le (Rlp.putUint number) 8 Hl8 ltac:(lia)).
  pose proof (len_string_le h 32 ltac:(unfold len; lia) ltac:(lia)).
  pose proof (len_string_le attestation_domain 32 ltac:(vm_compute; discriminate) ltac:(lia)).
  match goal with |- Rlp.fits (Rlp.write_list ?p) => assert (len p <= 150) as Hp by (rewrite !len_app; lia);
    pose proof (len_write_list p (small_fits p 150 Hp ltac:(lia))) as Hw end.
  apply (small_fits _ 200); lia.
Qed.

(** Injectivity of the message: a vote is bound to one chain, height and block. *)
Lemma attestation_message_inj c1 n1 h1 c2 n2 h2 :
  message_params c1 n1 h1 -> message_params c2 n2 h2 ->
  AttestationMessage c1 n1 h1 = AttestationMessage c2 n2 h2 -> c1 = c2 /\ n1 = n2 /\ h1 = h2.
Proof.
  intros P1 P2 E. pose proof (attestation_message_fits _ _ _ P1) as Hf.
  destruct P1 as (Hc1 & Hn1 & Hh1), P2 as (Hc2 & Hn2 & Hh2).
  rewrite !attestation_message_eq in * by lia. pose proof (write_list_inj _ _ Hf E) as E1.
  unfold Rlp.write_list in Hf. apply Rlp.fits_app in Hf as [_ Hf].
  apply writeBytes_app_inj in E1 as [_ E2]; [|exact Hf]. apply Rlp.fits_app in Hf as [_ Hf].
  apply writeBytes_app_inj in E2 as [E3 E4]; [|exact Hf]. apply Rlp.fits_app in Hf as [_ Hf].
  apply writeBytes_app_inj in E4 as [E5 E6]; [|exact Hf]. apply Rlp.fits_app in Hf as [_ Hf].
  rewrite <- (app_nil_r (Rlp.writeBytes h1)) in E6, Hf. rewrite <- (app_nil_r (Rlp.writeBytes h2)) in E6.
  apply writeBytes_app_inj in E6 as [-> _]; [|exact Hf].
  rewrite !Rlp.putUint_spec in E5 by assumption. unfold u64_ok in *.
  apply (f_equal be_val) in E3, E5. rewrite !big_bytes_val in E3, E5 by lia. auto.
Qed.

Lemma domains_differ c1 n h c2 e : message_params c1 n h -> 0 <= c2 ->
  AttestationMessage c1 n h <> RandaoMessage c2 e.
Proof.
  intros P1 Hc2 E. pose proof (attestation_message_fits _ _ _ P1) as Hf. destruct P1 as (Hc1 & _).
  rewrite attestation_message_eq, randao_message_eq in * by lia.
  pose proof (write_list_inj _ _ Hf E) as E1. unfold Rlp.write_list in Hf. apply Rlp.fits_app in Hf as [_ Hf].
  apply writeBytes_app_inj in E1 as [E2 _]; [|exact Hf]. vm_compute in E2. discriminate.
Qed.

(** * Assembling a certificate *)

Lemma count_byte_ge f : forall x n, 0 <= x -> n <= count_byte f x n.
Proof.
  induction f as [|f IH]; intros x n Hx; cbn [count_byte]; [lia|]. destruct (x =? 0); [lia|].
  assert (0 <= Z.land x 1) by (apply Z.land_nonneg; lia).
  specialize (IH (Z.shiftr x 1) (n + Z.land x 1)). rewrite Z.shiftr_nonneg in IH. lia.
Qed.

Lemma count_byte_pos f : forall x n, 0 < x < 2 ^ Z.of_nat f -> n < count_byte f x n.
Proof.
  induction f as [|f IH]; intros x n Hx.
  { change (2 ^ Z.of_nat 0) with 1 in Hx. lia. }
  cbn [count_byte]. destruct (Z.eqb_spec x 0); [lia|].
  rewrite Nat2Z.inj_succ, Z.pow_succ_r in Hx by lia.
  change (Z.land x 1) with (Z.land x (Z.ones 1)). rewrite Z.land_ones by lia. change (2 ^ 1) with 2.
  rewrite Z.shiftr_div_pow2 by lia. change (2 ^ 1) with 2.
  pose proof (Z.div_mod x 2 ltac:(lia)). pose proof (Z.mod_pos_bound x 2 ltac:(lia)).
  assert (0 <= x / 2) by (apply Z.div_pos; lia).
  destruct (Z.eq_dec (x / 2) 0) as [E|E].
  - pose proof (count_byte_ge f (x / 2) (n + x mod 2) ltac:(lia)). lia.
  - specialize (IH (x / 2) (n + x mod 2) ltac:(lia)). lia.
Qed.

Lemma Count_pos b i : bytes_ok b -> Has b i = true -> 0 < Count b.
Proof.
  intros Hok Hi. rewrite Has_testbit in Hi. apply andb_prop in Hi as [_ Hi].
  unfold Count. set (k := Z.to_nat (i / 8)) in *. set (j := i mod 8) in *. clearbody k j.
  assert (forall b n, bytes_ok b -> n <= fold_left (fun n by_ => count_byte 8 by_ n) b n) as Hmono.
  { clear. induction b as [|c b IH]; intros n Hok; cbn [fold_left]; [lia|]. inversion_clear Hok as [|? ? Hc Hb].
    unfold byte_ok in Hc. pose proof (count_byte_ge 8 c n ltac:(lia)). specialize (IH (count_byte 8 c n) Hb). lia. }
  assert (forall n, 0 <= n -> 0 < fold_left (fun n by_ => count_byte 8 by_ n) b n) as Hp; [|apply Hp; lia].
  revert k Hi. induction Hok as [|c b Hc Hb IH]; intros k Hi n Hn.
  { destruct k; cbn in Hi; rewrite Z.bits_0 in Hi; discriminate. }
  cbn [fold_left]. unfold byte_ok in Hc. destruct k as [|k]; cbn [nth] in Hi.
  - assert (0 < c) by (destruct (Z.eq_dec c 0) as [->|]; [rewrite Z.bits_0 in Hi; discriminate | lia]).
    pose proof (count_byte_pos 8 c n). change (2 ^ Z.of_nat 8) with 256 in *.
    pose proof (Hmono b (count_byte 8 c n) Hb). lia.
  - pose proof (count_byte_ge 8 c n ltac:(lia)). apply (IH k Hi). lia.
Qed.

Lemma Set_ok b i : bytes_ok b -> bytes_ok (Set_ b i).
Proof.
  intros Hb. unfold Set_. destruct (out_of_range b i); [exact Hb|]. apply Forall_insert; [exact Hb|].
  assert (byte_ok (nth (Z.to_nat (i / 8)) b 0)) as Hn.
  { destruct (nth_in_or_default (Z.to_nat (i / 8)) b 0) as [Hin| ->]; [|unfold byte_ok; lia].
    unfold bytes_ok in Hb. rewrite Forall_forall in Hb. auto. }
  unfold byte_ok in *. rewrite bit_mask_pow. pose proof (Z.mod_pos_bound i 8 ltac:(lia)).
  split; [apply Z.lor_nonneg; split; [lia | apply Z.pow_nonneg; lia]|].
  change 256 with (2 ^ 8). apply Z.log2_lt_cancel. rewrite Z.log2_lor by (try apply Z.pow_nonneg; lia).
  rewrite !Z.log2_pow2 by lia. apply Z.max_lub_lt; [|lia].
  destruct (Z.eq_dec (nth (Z.to_nat (i / 8)) b 0) 0) as [->|]; [cbn; lia|].
  apply Z.log2_lt_pow2; lia.
Qed.

Section Assemble.
Context `{B : Bls} {L : BlsLaws B}.
Variables (chainID number : Z) (blockHash : Hash) (keys : list (option PublicKey)).

Let message := AttestationMessage chainID number blockHash.

(** A vote that verifies against the key at its index. *)
Definition valid_vote (v : Z * bytes) : Prop :=
  0 <= fst v < len keys /\ exists k s, nth (Z.to_nat (fst v)) keys None = Some k /\
    SignatureFromBytes (snd v) = Some s /\ BlsVerify k message s = true.

(** The aggregate after folding in the votes of [done]. *)
Definition holds (done : list Z) (a : AggregateAttestation) : Prop :=
  ag_number a = number /\ ag_hash a = blockHash /\
  length (ag_signers a) = length (NewBitfield (len keys)) /\ bytes_ok (ag_signers a) /\
  (forall i, Has (ag_signers a) i = true <-> In i done) /\
  match done with
  | [] => ag_signature a = []
  | _ => exists s ks, SignatureFromBytes (ag_signature a) = Some s /\ signer_keys keys done = Some ks /\
           FastAggregateVerify ks message s = true
  end.

Lemma add_valid done a i sig : holds done a -> ~ In i done -> valid_vote (i, sig) ->
  exists a', AddSignature a i sig = Ok a' /\ holds (done ++ [i]) a'.
Proof.
  intros (Hn & Hh & Hl & Hok & Hhas & Hsig) Hnew ((Hi & Hi') & k & s & Hk & Hs & Hv). cbn [fst snd] in *.
  unfold AddSignature. destruct (Has (ag_signers a) i) eqn:Ehas; [apply Hhas in Ehas; contradiction|].
  rewrite Hs.
  assert (forall sg, (exists u ks, SignatureFromBytes sg = Some u /\ signer_keys keys (done ++ [i]) = Some ks /\
      FastAggregateVerify ks message u = true) ->
    holds (done ++ [i]) (mkAggregate (ag_number a) (ag_hash a) (Set_ (ag_signers a) i) sg)) as Hdone.
  { intros sg Hsg. split; [exact Hn|]. split; [exact Hh|]. split; [cbn; rewrite Set_length; exact Hl|].
    split; [apply Set_ok, Hok|]. split.
    - intros j. cbn [ag_signers]. rewrite Has_Set, orb_true_iff, Hhas, in_app_iff, andb_true_iff.
      rewrite (out_of_range_new (len keys)) by (auto; lia). cbn [In negb]. rewrite Z.eqb_eq. intuition.
    - destruct (done ++ [i]) eqn:E; [destruct done; discriminate | exact Hsg]. }
  destruct done as [|j done].
  - rewrite Hsig. cbn [len length Z.of_nat Z.eqb rbind]. change (len [] =? 0) with true. cbn [rbind].
    eexists. split; [reflexivity|]. apply Hdone. exists s, [k]. cbn [app signer_keys]. rewrite Hk.
    rewrite aggregate_single. auto.
  - destruct Hsig as (e & ks & He & Hks & Hev).
    destruct (Z.eqb_spec (len (ag_signature a)) 0) as [E0|].
    { destruct (ag_signature a); [rewrite signature_empty in He; discriminate|].
      rewrite len_cons in E0. pose proof (len_nonneg l). lia. }
    rewrite He. destruct (aggregate_some e s) as [u Hu]. rewrite Hu. cbn [rbind].
    eexists. split; [reflexivity|]. apply Hdone. exists u, (ks ++ [k]). split; [apply signature_roundtrip|].
    split; [|exact (aggregate_snoc _ _ _ _ _ _ Hev Hv Hu)].
    apply signer_keys_app; [exact Hks|]. cbn [signer_keys]. rewrite Hk. reflexivity.
Qed.

Lemma add_votes_valid votes : forall done a, holds done a ->
  NoDup (done ++ map fst votes) -> Forall valid_vote votes ->
  exists a', add_votes a votes = Ok a' /\ holds (done ++ map fst votes) a'.
Proof.
  induction votes as [|[i sig] votes IH]; intros done a Ha Hnd Hv; cbn [add_votes map fst].
  { rewrite app_nil_r. eauto. }
  inversion_clear Hv as [|? ? Hi Hv']. cbn [map fst] in Hnd.
  replace (done ++ i :: map fst votes) with ((done ++ [i]) ++ map fst votes) in * by (rewrite <- app_assoc; reflexivity).
  assert (~ In i done) as Hnew.
  { rewrite <- app_assoc in Hnd. cbn [app] in Hnd. apply NoDup_remove_2 in Hnd.
    intros Hin. apply Hnd, in_app_iff. auto. }
  destruct (add_valid done a i sig Ha Hnew Hi) as (a' & -> & Ha'). cbn [rbind]. eauto.
Qed.

Lemma new_holds : holds [] (NewAggregate number blockHash (len keys)).
Proof.
  unfold holds, NewAggregate. cbn [ag_number ag_hash ag_signers ag_signature].
  repeat (split; [reflexivity|]). split; [apply zeros_ok|]. split; [|reflexivity].
  intros i. rewrite Has_New. cbn. intuition discriminate.
Qed.

(** A certificate assembled from valid votes verifies, with exactly their
    indices. *)
Lemma holds_verifies done a : done <> [] -> StronglySorted Z.lt done -> (forall i, In i done -> 0 <= i < len keys) ->
  holds done a -> VerifySignature chainID a keys = Ok done.
Proof.
  intros Hne Hs Hr (Hn & Hh & Hl & Hok & Hhas & Hsig).
  assert (Indices (ag_signers a) (len keys) = done) as Hidx.
  { apply sorted_ext; [apply Indices_sorted | exact Hs|]. intros i. rewrite Indices_spec, Hhas.
    split; [tauto | auto]. }
  destruct done as [|i done]; [contradiction|]. destruct Hsig as (s & ks & Es & Ek & Ev).
  unfold VerifySignature, IsEmpty.
  pose proof (Count_pos (ag_signers a) i Hok (proj2 (Hhas i) (or_introl eq_refl))).
  destruct (Z.eqb_spec (Count (ag_signers a)) 0); [lia|].
  destruct (Z.eqb_spec (len (ag_signature a)) 0) as [E0|].
  { destruct (ag_signature a); [rewrite signature_empty in Es; discriminate|].
    rewrite len_cons in E0. pose proof (len_nonneg l). lia. }
  cbn [orb]. pose proof (len_nonneg keys).
  replace (fits (ag_signers a) (len keys)) with true.
  2: { symmetry. apply fits_spec; [lia|]. split; [exact Hl|]. intros j Hj.
       destruct (Has (ag_signers a) j) eqn:E; [|reflexivity]. apply Hhas in E. specialize (Hr j E). lia. }
  cbn [negb]. rewrite Hidx. rewrite len_cons. pose proof (len_nonneg done).
  destruct (Z.eqb_spec (1 + len done) 0); [lia|].
  rewrite Ek, Es, Hn, Hh. unfold message in Ev. rewrite Ev. reflexivity.
Qed.

Lemma sorted_votes_spec votes :
  StronglySorted Z.lt (map fst (sorted_votes votes)) /\
  (forall i s, In (i, s) (sorted_votes votes) <-> votes !! i = Some s) /\
  length (sorted_votes votes) = size votes.
Proof.
  assert (Permutation (sorted_votes votes) (map_to_list votes)) as HP by apply merge_sort_Permutation.
  assert (StronglySorted vote_le (sorted_votes votes)) as HS.
  { apply Sorted_StronglySorted; [intros ? ? ?; unfold vote_le; lia|].
    unfold sorted_votes. apply Sorted_merge_sort. intros ? ?; unfold vote_le; lia. }
  assert (NoDup (map fst (sorted_votes votes))) as HN.
  { rewrite HP. apply NoDup_ListNoDup, NoDup_fst_map_to_list. }
  split; [|split].
  - revert HS HN. generalize (sorted_votes votes) as l. induction 1 as [|x l Hs IH Hx]; intros HN; [constructor|].
    cbn [map] in *. inversion_clear HN as [|? ? Hni HN']. constructor; [auto|].
    apply Forall_forall. intros j Hj. rewrite in_map_iff in Hj. destruct Hj as (y & <- & Hy).
    rewrite Forall_forall in Hx. specialize (Hx y Hy). unfold vote_le in Hx.
    assert (fst x <> fst y); [|lia]. intros E. apply Hni. rewrite E.
    apply in_map. exact Hy.
  - intros i s. rewrite <- elem_of_map_to_list, <- HP. symmetry. apply list_elem_of_In.
  - rewrite HP. apply length_map_to_list.
Qed.

Lemma NewQuorumCert_valid votes : votes <> ∅ -> (forall i s, votes !! i = Some s -> valid_vote (i, s)) ->
  exists a, NewQuorumCert number blockHash (len keys) votes = Ok a /\
    ag_number a = number /\ ag_hash a = blockHash /\
    VerifySignature chainID a keys = Ok (map fst (sorted_votes votes)).
Proof.
  intros Hne Hv. destruct (sorted_votes_spec votes) as (Hs & Hin & Hlen).
  assert (Forall valid_vote (sorted_votes votes)) as Hall.
  { apply Forall_forall. intros [i s] H. apply Hv, Hin, H. }
  destruct (add_votes_valid (sorted_votes votes) [] _ new_holds (sorted_NoDup _ Hs) Hall) as (a & Ha & Hh).
  exists a. unfold NewQuorumCert. split; [exact Ha|]. cbn [app] in Hh.
  split; [apply Hh|]. split; [apply Hh|]. apply holds_verifies; auto.
  - intros E. apply Hne, map_size_empty_inv. rewrite <- Hlen. destruct (sorted_votes votes); [reflexivity | discriminate].
  - intros i Hi. rewrite in_map_iff in Hi. destruct Hi as ([j s] & <- & Hj). rewrite Forall_forall in Hall.
    apply (Hall (j, s) Hj).
Qed.
End Assemble.

(** * A concrete scheme

    Keys and signatures are integers and a signature on [m] is the key times a
    number read off [m]; verification also consults a log of what was signed,
    so that the scheme is unforgeable by construction.  It has the laws of the
    interface and is used to evaluate the theorems on concrete inputs. *)
Section Toy.
Variable log : list (Z * bytes).

Definition toy_logged (k : Z) (m : bytes) : bool :=
  existsb (fun p => (fst p =? k) && bytes_eqb (snd p) m) log.

Definition toy_point (m : bytes) : Z := be_val m + 1.

Definition toy_parse (b : bytes) : option Z :=
  match b with
  | [] => None
  | c :: r => Some (if c =? 1 then - be_val r else be_val r)
  end.

Definition toy_bytes (s : Z) : bytes := (if s <? 0 then 1 else 0) :: big_bytes (Z.abs s).

Definition toy_sign (k : Z) (m : bytes) : bytes := toy_bytes (k * toy_point m).

Definition toy_bls : Bls := {|
  PublicKey := Z;
  Signature := Z;
  PublicKeyFromBytes b := Some (be_val b);
  SignatureFromBytes := toy_parse;
  SignatureBytes := toy_bytes;
  BlsVerify k m s := (s =? k * toy_point m) && toy_logged k m;
  FastAggregateVerify ks m s := (s =? zsum ks * toy_point m) && forallb (fun k => toy_logged k m) ks;
  AggregateSignatures l := match l with [] => None | _ => Some (zsum l) end
|}.

Lemma toy_laws : BlsLaws toy_bls.
Proof.
  constructor.
  - intros s. cbn. unfold toy_bytes, toy_parse. destruct (Z.ltb_spec s 0); cbn [Z.eqb Pos.eqb];
      rewrite big_bytes_val by lia; f_equal; lia.
  - reflexivity.
  - intros s t. cbn. eauto.
  - intros k m s. cbn. rewrite Z.add_0_r, andb_true_r. reflexivity.
  - intros ks k m s t u. cbn. intros H1 H2 E. injection E as <-.
    rewrite !andb_true_iff, Z.eqb_eq in *. destruct H1 as [-> H1], H2 as [-> H2].
    rewrite zsum_app, forallb_app, H1. cbn. rewrite H2. split; [lia | reflexivity].
Qed.

Lemma toy_unforgeable ks m s : FastAggregateVerify (Bls := toy_bls) ks m s = true ->
  forall k, In k ks -> toy_logged k m = true.
Proof.
  cbn. rewrite andb_true_iff. intros [_ H] k Hk. rewrite forallb_forall in H. auto.
Qed.
End Toy.

(** * Main theorems *)

(** C1: accountable safety.  If two certificates at the same height verify
    against the same validator set and name different blocks, then more than a
    third of the set signed both of two different messages, which is what a
    validator is slashed for.  The hypothesis is unforgeability of aggregates of
    the validator set's own keys, each registered with a verified proof of
    possession: every key in such an aggregate that verifies signed the
    message.  Nothing is assumed of aggregates with other keys in them. *)
Theorem accountable_safety {B : Bls} (signed : PublicKey -> bytes -> Prop)
    (chainID : Z) (keys : list (option PublicKey)) (qc1 qc2 : AggregateAttestation) (idx1 idx2 : list Z)
    (Hunf : forall ks m s, (forall k, In k ks -> In (Some k) keys) -> FastAggregateVerify ks m s = true ->
      forall k, In k ks -> signed k m)
    (Hv1 : VerifyCert chainID qc1 keys = Ok idx1) (Hv2 : VerifyCert chainID qc2 keys = Ok idx2)
    (Hp1 : message_params chainID (ag_number qc1) (ag_hash qc1))
    (Hp2 : message_params chainID (ag_number qc2) (ag_hash qc2))
    (Hnum : ag_number qc1 = ag_number qc2) (Hdiff : ag_hash qc1 <> ag_hash qc2) :
  let m1 := AttestationMessage chainID (ag_number qc1) (ag_hash qc1) in
  let m2 := AttestationMessage chainID (ag_number qc2) (ag_hash qc2) in
  m1 <> m2 /\
  exists both, NoDup both /\ len keys < 3 * len both /\
    forall i, In i both -> Has (ag_signers qc1) i = true /\ Has (ag_signers qc2) i = true /\
      exists k, nth (Z.to_nat i) keys None = Some k /\ signed k m1 /\ signed k m2.
Proof.
  intros m1 m2. split.
  { intros E. destruct (attestation_message_inj _ _ _ _ _ _ Hp1 Hp2 E) as (_ & _ & Eh). contradiction. }
  apply VerifyCert_inv in Hv1 as [Hv1 Hq1]. apply VerifyCert_inv in Hv2 as [Hv2 Hq2].
  apply VerifySignature_inv in Hv1 as (-> & Hne & Hf1 & ks1 & s1 & Hk1 & _ & Ha1).
  apply VerifySignature_inv in Hv2 as (-> & _ & Hf2 & ks2 & s2 & Hk2 & _ & Ha2).
  pose proof (len_nonneg keys) as Hlen.
  exists (common (Indices (ag_signers qc1) (len keys)) (Indices (ag_signers qc2) (len keys))).
  split; [apply List.NoDup_filter, Indices_NoDup|]. split.
  - pose proof (common_length (Indices (ag_signers qc1) (len keys)) (Indices (ag_signers qc2) (len keys))
      (len keys) Hlen (Indices_NoDup _ _) (Indices_NoDup _ _)
      ltac:(intros i Hi; apply Indices_spec in Hi; tauto) ltac:(intros i Hi; apply Indices_spec in Hi; tauto)) as Hc.
    destruct (Z.eq_dec (len keys) 0) as [E|]; [|pose proof (quorum_overlap (len keys) ltac:(lia)); lia].
    exfalso. apply Hne. rewrite E. reflexivity.
  - intros i Hi. apply common_spec in Hi as [Hi1 Hi2].
    destruct (signer_keys_in _ _ _ _ Hk1 Hi1) as (k & Hn1 & Hin1).
    destruct (signer_keys_in _ _ _ _ Hk2 Hi2) as (k' & Hn2 & Hin2).
    apply Indices_spec in Hi1, Hi2. split; [tauto|]. split; [tauto|].
    exists k. assert (k' = k) as -> by congruence. split; [exact Hn1|].
    split; [apply (Hunf ks1 m1 s1) | apply (Hunf ks2 m2 s2)]; eauto using signer_keys_drawn.
Qed.

(** Four validators, two conflicting certificates of three signers each. *)
Definition sample_h1 : Hash := replicate 32 1.
Definition sample_h2 : Hash := replicate 32 2.
Definition sample_m1 : bytes := AttestationMessage 7 5 sample_h1.
Definition sample_m2 : bytes := AttestationMessage 7 5 sample_h2.
Definition sample_log : list (Z * bytes) :=
  [(1, sample_m1); (2, sample_m1); (3, sample_m1); (2, sample_m2); (3, sample_m2); (4, sample_m2)].
Definition sample_keys : list (option Z) := [Some 1; Some 2; Some 3; Some 4].
Definition sample_qc1 : AggregateAttestation :=
  mkAggregate 5 sample_h1 [7] (toy_bytes (6 * toy_point sample_m1)).
Definition sample_qc2 : AggregateAttestation :=
  mkAggregate 5 sample_h2 [14] (toy_bytes (9 * toy_point sample_m2)).

Lemma sample_params h : length h = 32%nat -> message_params 7 5 h.
Proof. intros Hh. split; [split; [lia | reflexivity]|]. split; [split; [lia | reflexivity] | exact Hh]. Qed.

Lemma accountable_safety_witness :
  exists both, NoDup both /\ 4 < 3 * len both /\
    forall i, In i both -> exists k, nth (Z.to_nat i) sample_keys None = Some k /\
      toy_logged sample_log k sample_m1 = true /\ toy_logged sample_log k sample_m2 = true.
Proof.
  destruct (accountable_safety (B := toy_bls sample_log) (fun k m => toy_logged sample_log k m = true)
    7 sample_keys sample_qc1 sample_qc2 [0; 1; 2] [1; 2; 3]
    (fun ks m s _ => toy_unforgeable sample_log ks m s)) as (_ & both & Hn & Hl & Hb).
  - vm_compute. reflexivity.
  - vm_compute. reflexivity.
  - apply sample_params. reflexivity.
  - apply sample_params. reflexivity.
  - reflexivity.
  - discriminate.
  - exists both. split; [exact Hn|]. split; [exact Hl|]. intros i Hi.
    destruct (Hb i Hi) as (_ & _ & k & H1 & H2 & H3). exists k. auto.
Defined.

(** The signed message binds a vote to one chain id, height and block, and
    no attestation message is also a randao message. *)
Theorem message_binding (c1 n1 c2 n2 e : Z) (h1 h2 : Hash)
    (P1 : message_params c1 n1 h1) (P2 : message_params c2 n2 h2) :
  (AttestationMessage c1 n1 h1 = AttestationMessage c2 n2 h2 -> c1 = c2 /\ n1 = n2 /\ h1 = h2) /\
  AttestationMessage c1 n1 h1 <> RandaoMessage c2 e.
Proof.
  split; [apply attestation_message_inj; assumption|].
  apply domains_differ; [exact P1 | destruct P2; lia].
Qed.

Lemma message_binding_witness : AttestationMessage 7 5 sample_h1 <> RandaoMessage 7 5.
Proof.
  refine (proj2 (message_binding 7 5 7 5 5 sample_h1 sample_h2 _ _)); apply sample_params; reflexivity.
Defined.

(** Assembling valid votes of a quorum of distinct validators gives a
    certificate that verifies and names exactly those validators. *)
Theorem certificate_complete {B : Bls} {L : BlsLaws B} (chainID number : Z) (blockHash : Hash)
    (keys : list (option PublicKey)) (votes : gmap Z bytes)
    (Hne : keys <> [])
    (Hv : forall i s, votes !! i = Some s -> valid_vote chainID number blockHash keys (i, s))
    (Hq : Quorum (len keys) <= Z.of_nat (size votes)) :
  exists qc idx, NewQuorumCert number blockHash (len keys) votes = Ok qc /\
    VerifyCert chainID qc keys = Ok idx /\ ag_number qc = number /\ ag_hash qc = blockHash /\
    (forall i, In i idx <-> is_Some (votes !! i)).
Proof.
  destruct (sorted_votes_spec votes) as (_ & Hin & Hlen).
  assert (votes <> ∅) as Hve.
  { intros ->. rewrite map_size_empty in Hq. unfold Quorum in Hq.
    assert (0 < len keys) by (destruct keys; [contradiction|]; rewrite len_cons; pose proof (len_nonneg keys); lia).
    destruct (Z.leb_spec (len keys) 0); [lia|]. pose proof (Z.div_pos (len keys * 2) 3). lia. }
  destruct (NewQuorumCert_valid chainID number blockHash keys votes Hve Hv) as (qc & Hqc & Hn & Hh & Hvs).
  exists qc, (map fst (sorted_votes votes)). split; [exact Hqc|]. split.
  - unfold VerifyCert. rewrite Hvs. cbn [rbind]. unfold len at 1. rewrite length_map, Hlen.
    destruct (Z.ltb_spec (Z.of_nat (size votes)) (Quorum (len keys))); [lia | reflexivity].
  - split; [exact Hn|]. split; [exact Hh|]. intros i. rewrite in_map_iff. split.
    + intros ([j s] & <- & Hj). exists s. apply Hin, Hj.
    + intros [s Hs]. exists (i, s). split; [reflexivity | apply Hin, Hs].
Qed.

Lemma certificate_complete_witness :
  exists qc idx, NewQuorumCert (B := toy_bls sample_log) 5 sample_h1 3
      {[0 := toy_sign 1 sample_m1; 1 := toy_sign 2 sample_m1; 2 := toy_sign 3 sample_m1]} = Ok qc /\
    VerifyCert (B := toy_bls sample_log) 7 qc [Some 1; Some 2; Some 3] = Ok idx.
Proof.
  destruct (certificate_complete (B := toy_bls sample_log) (L := toy_laws sample_log) 7 5 sample_h1
    [Some 1; Some 2; Some 3]
    {[0 := toy_sign 1 sample_m1; 1 := toy_sign 2 sample_m1; 2 := toy_sign 3 sample_m1]})
    as (qc & idx & H1 & H2 & _).
  - discriminate.
  - intros i s H. rewrite !lookup_insert_Some, lookup_singleton_Some in H.
    destruct H as [[<- <-]|[_ [[<- <-]|[_ [<- <-]]]]]; (split; [split; vm_compute; congruence|]);
      do 2 eexists; (split; [reflexivity|]); (split; [reflexivity|]); vm_compute; reflexivity.
  - vm_compute. discriminate.
  - exists qc, idx. auto.
Defined.

End Att.
