(* ===== verification/VotePool.v ===== *)
(** The attestation pool (src/consensus/finality.go).

    The pool is the record of the source without its lock: every exported
    method runs under it, so methods are atomic steps.  Nested maps are gmaps
    and a missing inner map reads as empty, as a nil map does in Go.  The two
    loops that range over a map delete entries independently of the order, so
    they are filters. *)

From stdpp Require Import base list gmap.
From Stdlib Require Import ZArith Lia.
From S2P Require Import Prelude RLP Common Attestation.
Import Att.
Local Open Scope Z_scope.
Local Open Scope go_scope.

Module Pool.

Inductive pool_error :=
| ErrUnknownIndex
| ErrEquivocation
| ErrAttestation (e : Att.error).

Section WithBls.
Context `{B : Bls}.

Record AttestationPool := mkPool
  { p_chainID : Z;
    p_keys : list (option PublicKey);
    p_addresses : list Address;
    p_votes : gmap Z (gmap Hash (gmap Z bytes));
    p_byIndex : gmap Z (gmap Z Attestation);
    p_evidence : list Equivocation;
    p_finalized : Z;
    p_retain : Z }.

Definition parse_key (raw : bytes) : option PublicKey :=
  if len raw =? 0 then None else PublicKeyFromBytes raw.

Definition setValidators (p : AttestationPool) (addresses : list Address) (keys : list bytes) : AttestationPool :=
  mkPool (p_chainID p) (map parse_key keys) addresses (p_votes p) (p_byIndex p)
         (p_evidence p) (p_finalized p) (p_retain p).

Definition NewAttestationPool (chainID : Z) (addresses : list Address) (keys : list bytes) : AttestationPool :=
  setValidators (mkPool chainID [] [] ∅ ∅ [] 0 256) addresses keys.

Definition UpdateValidators (p : AttestationPool) (addresses : list Address) (keys : list bytes) : AttestationPool :=
  setValidators p addresses keys.

Definition with_votes (p : AttestationPool) (votes : gmap Z (gmap Hash (gmap Z bytes)))
    (byIndex : gmap Z (gmap Z Attestation)) : AttestationPool :=
  mkPool (p_chainID p) (p_keys p) (p_addresses p) votes byIndex (p_evidence p) (p_finalized p) (p_retain p).

Definition add_evidence (p : AttestationPool) (proof : Equivocation) : AttestationPool :=
  mkPool (p_chainID p) (p_keys p) (p_addresses p) (p_votes p) (p_byIndex p)
         (p_evidence p ++ [proof]) (p_finalized p) (p_retain p).

(** [p.votes[number][blockHash]] and [p.byIndex[number]]. *)
Definition votes_for (p : AttestationPool) (number : Z) (blockHash : Hash) : gmap Z bytes :=
  default ∅ (default ∅ (p_votes p !! number) !! blockHash).
Definition cast_at (p : AttestationPool) (number : Z) : gmap Z Attestation :=
  default ∅ (p_byIndex p !! number).

Definition key_at (p : AttestationPool) (index : Z) : option PublicKey :=
  nth (Z.to_nat index) (p_keys p) None.

Definition named (p : AttestationPool) (index : Z) (proof : Equivocation) : Equivocation :=
  match nth_error (p_addresses p) (Z.to_nat index) with
  | Some addr => mkEquivocation addr (e_number proof) (e_index proof) (e_first proof) (e_second proof)
  | None => proof
  end.

Definition Add (p : AttestationPool) (a : Attestation) : AttestationPool * result pool_error bool :=
  let index := wrap_int (a_index a) in
  if (index <? 0) || (len (p_keys p) <=? index) then (p, Err ErrUnknownIndex)
  else match key_at p index with
  | None => (p, Err ErrUnknownIndex)
  | Some key =>
      if (0 <? p_finalized p) && (a_number a <=? p_finalized p) then (p, Ok false)
      else
        let byIndex := cast_at p (a_number a) in
        let p := with_votes p (p_votes p) (<[a_number a := byIndex]> (p_byIndex p)) in
        match byIndex !! index with
        | Some previous =>
            if bool_decide (a_hash previous = a_hash a) then (p, Ok false)
            else match DetectEquivocation (p_chainID p) (Some key) previous a with
                 | Err e => (p, Err (ErrAttestation e))
                 | Ok (Some proof) => (add_evidence p (named p index proof), Err ErrEquivocation)
                 | Ok None => (p, Ok false)
                 end
        | None =>
            let byIndex := <[index := a]> byIndex in
            let byHash := default ∅ (p_votes p !! a_number a) in
            let sigs := <[index := a_signature a]> (default ∅ (byHash !! a_hash a)) in
            (with_votes p (<[a_number a := <[a_hash a := sigs]> byHash]> (p_votes p))
                          (<[a_number a := byIndex]> (p_byIndex p)), Ok true)
        end
  end.

(** ** Certificates *)

(** A recorded vote whose index still names a validator with a key. *)
Definition has_key (p : AttestationPool) (index : Z) : bool :=
  (index <? len (p_keys p)) && bool_decide (is_Some (key_at p index)).

Definition vote_verifies (p : AttestationPool) (number : Z) (blockHash : Hash) (index : Z) (signature : bytes) : bool :=
  match VerifyAttestation (p_chainID p) (mkAttestation number blockHash (wrap64 index) signature) (key_at p index) with
  | Ok _ => true
  | Err _ => false
  end.

Definition keep_vote (p : AttestationPool) (number : Z) (blockHash : Hash) (v : Z * bytes) : bool :=
  has_key p (fst v) && vote_verifies p number blockHash (fst v) (snd v).

(** [evictInvalidLocked]: a vote without a key leaves only [votes]; a vote that
    fails verification leaves [byIndex] as well. *)
Definition evictInvalidLocked (p : AttestationPool) (number : Z) (blockHash : Hash) : AttestationPool * bool :=
  let votes := votes_for p number blockHash in
  let kept := filter (fun v => keep_vote p number blockHash v = true) votes in
  let failed index := bool_decide (is_Some (votes !! index)) && has_key p index &&
    negb (vote_verifies p number blockHash index (default [] (votes !! index))) in
  let byHash := default ∅ (p_votes p !! number) in
  let p' := with_votes p
    (match byHash !! blockHash with
     | Some _ => <[number := <[blockHash := kept]> byHash]> (p_votes p)
     | None => p_votes p
     end)
    (match p_byIndex p !! number with
     | Some m => <[number := filter (fun v => failed (fst v) = false) m]> (p_byIndex p)
     | None => p_byIndex p
     end) in
  (p', negb (size kept =? size votes)%nat).

(** The retry loop of [Certificate]; [None] is running out of [fuel]. *)
Fixpoint certificate_loop (fuel : nat) (p : AttestationPool) (number : Z) (blockHash : Hash)
    : option (AttestationPool * option AggregateAttestation) :=
  match fuel with
  | O => None
  | S f =>
      let votes := votes_for p number blockHash in
      if Z.of_nat (size votes) <? Quorum (len (p_keys p)) then Some (p, None)
      else match NewQuorumCert number blockHash (len (p_keys p)) votes with
      | Err _ => Some (p, None)
      | Ok qc =>
          match VerifySignature (p_chainID p) qc (p_keys p) with
          | Ok _ => Some (p, Some qc)
          | Err _ =>
              let (p', removed) := evictInvalidLocked p number blockHash in
              if removed then certificate_loop f p' number blockHash else Some (p', None)
          end
      end
  end.

Definition Certificate (p : AttestationPool) (number : Z) (blockHash : Hash)
    : option (AttestationPool * option AggregateAttestation) :=
  certificate_loop (S (size (votes_for p number blockHash))) p number blockHash.

Definition VoteCount (p : AttestationPool) (number : Z) (blockHash : Hash) : Z :=
  Z.of_nat (size (votes_for p number blockHash)).

Definition MarkFinalized (p : AttestationPool) (number : Z) : AttestationPool :=
  if number <=? p_finalized p then p
  else
    let p := mkPool (p_chainID p) (p_keys p) (p_addresses p) (p_votes p) (p_byIndex p)
                    (p_evidence p) number (p_retain p) in
    if number <=? p_retain p then p
    else
      let cutoff := number - p_retain p in
      with_votes p (filter (fun kv => cutoff <= fst kv) (p_votes p))
        (filter (fun kv => ~ (fst kv < cutoff /\ is_Some (p_votes p !! fst kv))) (p_byIndex p)).

Definition AddEvidence (p : AttestationPool) (proof : Equivocation) : AttestationPool * result pool_error unit :=
  let index := wrap_int (e_index proof) in
  if (index <? 0) || (len (p_keys p) <=? index) then (p, Err ErrUnknownIndex)
  else match key_at p index with
  | None => (p, Err ErrUnknownIndex)
  | Some key =>
      match VerifyEquivocation (p_chainID p) proof (Some key) with
      | Err e => (p, Err (ErrAttestation e))
      | Ok _ =>
          if existsb (fun e => (e_index e =? e_index proof) && (e_number e =? e_number proof)) (p_evidence p)
          then (p, Ok tt)
          else (add_evidence p (named p index proof), Ok tt)
      end
  end.

(** ** Executions *)

(** A 64-bit index, as the Go type has it. *)
Definition vote_typed (a : Attestation) : Prop := u64_ok (a_index a).

(** [reach hist p]: [p] is the state after some sequence of calls on a pool that
    was given the key lists of [hist], most recent first. *)
Inductive reach (chainID : Z) : list (list (option PublicKey)) -> AttestationPool -> Prop :=
| reach_new addresses keys :
    reach chainID [map parse_key keys] (NewAttestationPool chainID addresses keys)
| reach_update hist p addresses keys :
    reach chainID hist p -> reach chainID (map parse_key keys :: hist) (UpdateValidators p addresses keys)
| reach_add hist p a :
    reach chainID hist p -> vote_typed a -> reach chainID hist (fst (Add p a))
| reach_certificate hist p number blockHash p' qc :
    reach chainID hist p -> Certificate p number blockHash = Some (p', qc) -> reach chainID hist p'
| reach_finalized hist p number :
    reach chainID hist p -> reach chainID hist (MarkFinalized p number)
| reach_evidence hist p proof :
    reach chainID hist p -> u64_ok (e_index proof) -> reach chainID hist (fst (AddEvidence p proof)).

(** ** Reading the maps after an update *)

Lemma votes_for_insert p n h sigs bi n' h' :
  votes_for (with_votes p (<[n := <[h := sigs]> (default ∅ (p_votes p !! n))]> (p_votes p)) bi) n' h' =
  if decide (n = n' /\ h = h') then sigs else votes_for p n' h'.
Proof.
  unfold votes_for. cbn [p_votes with_votes]. destruct (decide (n = n')) as [<-|Hn].
  - rewrite lookup_insert_eq. cbn [default from_option id]. destruct (decide (h = h')) as [<-|Hh].
    + rewrite lookup_insert_eq, decide_True by auto. reflexivity.
    + rewrite lookup_insert_ne by exact Hh. rewrite decide_False by tauto. reflexivity.
  - rewrite lookup_insert_ne by exact Hn. rewrite decide_False by tauto. reflexivity.
Qed.

Lemma cast_at_insert p vs n m n' :
  cast_at (with_votes p vs (<[n := m]> (p_byIndex p))) n' = if decide (n = n') then m else cast_at p n'.
Proof.
  unfold cast_at. cbn [p_byIndex with_votes]. destruct (decide (n = n')) as [<-|Hn].
  - rewrite lookup_insert_eq. reflexivity.
  - rewrite lookup_insert_ne by exact Hn. reflexivity.
Qed.

(** Allocating the inner map of a height changes nothing that is read. *)
Lemma cast_at_alloc p vs n n' :
  cast_at (with_votes p vs (<[n := cast_at p n]> (p_byIndex p))) n' = cast_at p n'.
Proof. rewrite cast_at_insert. destruct (decide (n = n')) as [<-|]; reflexivity. Qed.

Lemma evict_votes_for p n h p' r n' h' : evictInvalidLocked p n h = (p', r) ->
  votes_for p' n' h' = if decide (n = n' /\ h = h')
    then filter (fun v => keep_vote p n h v = true) (votes_for p n h) else votes_for p n' h'.
Proof.
  unfold evictInvalidLocked. intros E. injection E as <- _.
  destruct (default ∅ (p_votes p !! n) !! h) as [m|] eqn:Em; [apply votes_for_insert|].
  destruct (decide (n = n' /\ h = h')) as [[<- <-]|]; [|reflexivity].
  unfold votes_for. cbn [p_votes with_votes]. rewrite Em. reflexivity.
Qed.

Lemma evict_cast_at p n h p' r n' : evictInvalidLocked p n h = (p', r) ->
  cast_at p' n' = if decide (n = n')
    then filter (fun v => (bool_decide (is_Some (votes_for p n h !! fst v)) && has_key p (fst v) &&
      negb (vote_verifies p n h (fst v) (default [] (votes_for p n h !! fst v)))) = false) (cast_at p n)
    else cast_at p n'.
Proof.
  unfold evictInvalidLocked. intros E. injection E as <- _.
  destruct (p_byIndex p !! n) as [m|] eqn:Em.
  - rewrite cast_at_insert. destruct (decide (n = n')); [|reflexivity].
    unfold cast_at. rewrite Em. reflexivity.
  - unfold cast_at. cbn [p_byIndex with_votes]. destruct (decide (n = n')) as [<-|]; [|reflexivity].
    rewrite Em. reflexivity.
Qed.

Lemma evict_frame p n h p' r : evictInvalidLocked p n h = (p', r) ->
  p_chainID p' = p_chainID p /\ p_keys p' = p_keys p /\ p_evidence p' = p_evidence p.
Proof. unfold evictInvalidLocked. intros E. injection E as <- _. auto. Qed.

(** ** The invariant *)

(** Every recorded vote is the one vote its validator has at that height. *)
Definition one_vote (p : AttestationPool) : Prop :=
  forall n h i s, votes_for p n h !! i = Some s ->
    exists a, cast_at p n !! i = Some a /\ a_hash a = h /\ a_signature a = s.

Definition cast_ok (p : AttestationPool) : Prop :=
  forall n i a, cast_at p n !! i = Some a ->
    a_number a = n /\ wrap_int (a_index a) = i /\ vote_typed a /\ 0 <= i.

(** Every proof on record verifies against a key that held its index in one of
    the sets the pool was given. *)
Definition evidence_ok (hist : list (list (option PublicKey))) (p : AttestationPool) : Prop :=
  forall e, e ∈ p_evidence p -> exists ks key, ks ∈ hist /\
    nth (Z.to_nat (e_index e)) ks None = Some key /\ VerifyEquivocation (p_chainID p) e (Some key) = Ok tt.

Definition pool_ok (chainID : Z) (hist : list (list (option PublicKey))) (p : AttestationPool) : Prop :=
  one_vote p /\ cast_ok p /\ evidence_ok hist p /\ p_chainID p = chainID /\ p_keys p ∈ hist.

Lemma evict_one_vote p n h p' r : evictInvalidLocked p n h = (p', r) -> one_vote p -> one_vote p'.
Proof.
  intros E Hone n' h' i s Hs. rewrite (evict_votes_for _ _ _ _ _ _ _ E) in Hs.
  rewrite (evict_cast_at _ _ _ _ _ _ E). destruct (decide (n = n' /\ h = h')) as [[<- <-]|Hne].
  - apply map_lookup_filter_Some in Hs as [Hs Hk]. destruct (Hone _ _ _ _ Hs) as (a & Ha & Hh & Hg).
    exists a. split; [|auto]. rewrite decide_True by reflexivity. apply map_lookup_filter_Some. split; [exact Ha|].
    cbn [fst]. rewrite Hs. cbn [default from_option id]. unfold keep_vote in Hk. cbn [fst snd] in Hk.
    apply andb_prop in Hk as [_ ->]. rewrite andb_false_r. reflexivity.
  - destruct (Hone _ _ _ _ Hs) as (a & Ha & Hh & Hg). exists a. split; [|auto].
    destruct (decide (n = n')) as [<-|]; [|exact Ha]. apply map_lookup_filter_Some. split; [exact Ha|]. cbn [fst].
    destruct (votes_for p n h !! i) as [s'|] eqn:Es; [|reflexivity]. exfalso.
    destruct (Hone _ _ _ _ Es) as (a' & Ha' & Hh' & _). apply Hne. split; [reflexivity|]. congruence.
Qed.

Lemma evict_pool_ok c hist p n h p' r : evictInvalidLocked p n h = (p', r) -> pool_ok c hist p -> pool_ok c hist p'.
Proof.
  intros E (H1 & H2 & H3 & H4 & H5). destruct (evict_frame _ _ _ _ _ E) as (Ec & Ek & Ee).
  split; [eapply evict_one_vote; eauto|]. split.
  - intros n' i a Ha. rewrite (evict_cast_at _ _ _ _ _ _ E) in Ha.
    destruct (decide (n = n')) as [<-|]; [|eauto]. apply map_lookup_filter_Some in Ha as [Ha _]. eauto.
  - unfold evidence_ok. rewrite Ec, Ek, Ee. auto.
Qed.

Lemma certificate_pool_ok c hist f : forall p n h p' qc, certificate_loop f p n h = Some (p', qc) ->
  pool_ok c hist p -> pool_ok c hist p'.
Proof.
  induction f as [|f IH]; intros p n h p' qc E Hp; cbn [certificate_loop] in E; [discriminate|].
  destruct (_ <? _); [injection E as <- _; exact Hp|].
  destruct (NewQuorumCert _ _ _ _) as [q|]; [|injection E as <- _; exact Hp].
  destruct (VerifySignature _ _ _); [injection E as <- _; exact Hp|].
  destruct (evictInvalidLocked p n h) as [p1 [|]] eqn:Ev.
  - apply (IH _ _ _ _ _ E). eapply evict_pool_ok; eauto.
  - injection E as <- _. eapply evict_pool_ok; eauto.
Qed.

Lemma named_verify p i proof key : VerifyEquivocation (p_chainID p) (named p i proof) key
  = VerifyEquivocation (p_chainID p) proof key.
Proof. unfold named. destruct (nth_error _ _); reflexivity. Qed.

Lemma named_index p i proof : e_index (named p i proof) = e_index proof.
Proof. unfold named. destruct (nth_error _ _); reflexivity. Qed.

(** An index that is in range is the 64-bit index itself. *)
Lemma wrap_int_u64 v : u64_ok v -> 0 <= wrap_int v -> wrap_int v = v.
Proof.
  unfold u64_ok, wrap_int. intros Hv. rewrite Z.mod_small by exact Hv.
  destruct (Z.leb_spec v max_int64); [reflexivity|]. unfold two64, max_int64 in *. lia.
Qed.

Lemma detect_verify c key a b proof : DetectEquivocation c key a b = Ok (Some proof) ->
  VerifyEquivocation c proof key = Ok tt /\ e_index proof = a_index a.
Proof.
  intros H. pose proof H as H'. unfold DetectEquivocation in H.
  destruct (_ || _); [discriminate|]. destruct (bool_decide _); [discriminate|].
  destruct (VerifyAttestation c a key); [|discriminate]. destruct (VerifyAttestation c b key); [|discriminate].
  cbn [rbind] in H. injection H as <-. split; [|reflexivity].
  unfold VerifyEquivocation. cbn [e_first e_second]. rewrite H'. cbn [rbind e_number e_index].
  rewrite !Z.eqb_refl. reflexivity.
Qed.

Lemma add_evidence_ok c hist p key proof : pool_ok c hist p ->
  nth (Z.to_nat (e_index proof)) (p_keys p) None = Some key ->
  VerifyEquivocation (p_chainID p) proof (Some key) = Ok tt -> pool_ok c hist (add_evidence p proof).
Proof.
  intros (H1 & H2 & H3 & H4 & H5) Hk Hv. split; [exact H1|]. split; [exact H2|].
  split; [|split; [exact H4 | exact H5]]. intros e He. cbn [p_evidence add_evidence] in He.
  apply elem_of_app in He as [He|He]; [exact (H3 e He)|]. apply list_elem_of_singleton in He as ->.
  exists (p_keys p), key. auto.
Qed.

Lemma in_range_false p index : (index <? 0) || (len (p_keys p) <=? index) = false -> 0 <= index < len (p_keys p).
Proof. intros H. bsimp. lia. Qed.

Lemma alloc_pool_ok c hist p n : pool_ok c hist p ->
  pool_ok c hist (with_votes p (p_votes p) (<[n := cast_at p n]> (p_byIndex p))).
Proof.
  intros (H1 & H2 & H3 & H4 & H5). split; [|split; [|auto]].
  - intros n' h i s Hs. destruct (H1 n' h i s Hs) as (a & Ha & Hr). exists a. rewrite cast_at_alloc. auto.
  - intros n' i a Ha. rewrite cast_at_alloc in Ha. eauto.
Qed.

Lemma Add_pool_ok c hist p a : pool_ok c hist p -> vote_typed a -> pool_ok c hist (fst (Add p a)).
Proof.
  intros Hp Ht. unfold Add. destruct ((wrap_int (a_index a) <? 0) || _) eqn:Er; [exact Hp|].
  apply in_range_false in Er. set (index := wrap_int (a_index a)) in *.
  assert (index = a_index a) as Ei by (apply wrap_int_u64; [exact Ht | apply Er]).
  destruct (key_at p index) as [key|] eqn:Ek; [|exact Hp]. destruct (_ && _); [exact Hp|].
  pose proof (alloc_pool_ok c hist p (a_number a) Hp) as Hp1. cbv zeta.
  set (p1 := with_votes p (p_votes p) (<[a_number a := cast_at p (a_number a)]> (p_byIndex p))) in *.
  destruct (cast_at p (a_number a) !! index) as [prev|] eqn:Eprev.
  - destruct (bool_decide _); [exact Hp1|].
    destruct (DetectEquivocation _ _ _ _) as [[proof|]|] eqn:Ed; [|exact Hp1|exact Hp1]. cbn [fst].
    destruct (detect_verify _ _ _ _ _ Ed) as [Hv He].
    destruct Hp as (_ & Hc & _). destruct (Hc _ _ _ Eprev) as (_ & Hi & Hprev & Hpos).
    apply (add_evidence_ok c hist p1 key); [exact Hp1| |rewrite named_verify; exact Hv].
    rewrite named_index, He. rewrite wrap_int_u64 in Hi by (auto; lia). rewrite Hi. exact Ek.
  - cbn [fst]. destruct Hp as (H1 & H2 & H3 & H4 & H5). split; [|split; [|auto]].
    + intros n h i s Hs.
      change (p_votes p1) with (p_votes p) in Hs.
      rewrite (votes_for_insert p1) in Hs.
      change (votes_for p1) with (votes_for p) in Hs.
      unfold cast_at. cbn [p_byIndex with_votes p1].
      destruct (decide (a_number a = n /\ a_hash a = h)) as [[<- <-]|Hne].
      * rewrite lookup_insert_eq. cbn [default from_option id]. apply lookup_insert_Some in Hs as [[<- <-]|[Hi Hs]].
        { exists a. rewrite lookup_insert_eq. auto. }
        destruct (H1 _ _ _ _ Hs) as (a' & Ha' & Hr). exists a'. rewrite lookup_insert_ne by exact Hi. auto.
      * destruct (H1 _ _ _ _ Hs) as (a' & Ha' & Hr). exists a'. split; [|exact Hr].
        destruct (decide (a_number a = n)) as [<-|Hn].
        { rewrite lookup_insert_eq. cbn [default from_option id].
          rewrite lookup_insert_ne; [exact Ha'|]. intros <-. congruence. }
        rewrite !lookup_insert_ne by exact Hn. exact Ha'.
    + intros n i b Hb. unfold cast_at in Hb. cbn [p_byIndex with_votes p1] in Hb.
      destruct (decide (a_number a = n)) as [<-|Hn].
      * rewrite lookup_insert_eq in Hb. cbn [default from_option id] in Hb.
        apply lookup_insert_Some in Hb as [[<- <-]|[_ Hb]]; [|exact (H2 _ _ _ Hb)].
        split; [reflexivity|]. split; [reflexivity|]. split; [exact Ht | lia].
      * rewrite !lookup_insert_ne in Hb by exact Hn. exact (H2 _ _ _ Hb).
Qed.

Lemma MarkFinalized_pool_ok c hist p n : pool_ok c hist p -> pool_ok c hist (MarkFinalized p n).
Proof.
  intros Hp. pose proof Hp as (H1 & H2 & H3 & H4 & H5). unfold MarkFinalized.
  destruct (n <=? p_finalized p); [exact Hp|].
  cbn [p_retain p_votes p_byIndex]. destruct (n <=? p_retain p); [exact Hp|].
  split; [|split; [|auto]].
  - intros n' h i s Hs. unfold votes_for in Hs. cbn [p_votes with_votes] in Hs.
    destruct (filter _ (p_votes p) !! n') as [m|] eqn:Em; [|cbn in Hs; rewrite lookup_empty in Hs; cbn in Hs;
      rewrite lookup_empty in Hs; discriminate].
    apply map_lookup_filter_Some in Em as [Em Hcut]. cbn [fst] in Hcut.
    assert (votes_for p n' h !! i = Some s) as Hs' by (unfold votes_for; rewrite Em; exact Hs).
    destruct (H1 _ _ _ _ Hs') as (a & Ha & Hr). exists a. split; [|exact Hr].
    unfold cast_at in *. cbn [p_byIndex with_votes].
    destruct (p_byIndex p !! n') as [mb|] eqn:Eb; [|cbn in Ha; rewrite lookup_empty in Ha; discriminate].
    rewrite (map_lookup_filter_Some_2 _ _ _ mb); [exact Ha | exact Eb |]. cbn [fst]. intros [Hlt _]. lia.
  - intros n' i a Ha. unfold cast_at in Ha. cbn [p_byIndex with_votes] in Ha.
    destruct (filter _ (p_byIndex p) !! n') as [m|] eqn:Em; [|cbn in Ha; rewrite lookup_empty in Ha; discriminate].
    apply map_lookup_filter_Some in Em as [Em _]. apply H2. unfold cast_at. rewrite Em. exact Ha.
Qed.

Lemma AddEvidence_pool_ok c hist p e : pool_ok c hist p -> u64_ok (e_index e) -> pool_ok c hist (fst (AddEvidence p e)).
Proof.
  intros Hp He. unfold AddEvidence. destruct ((wrap_int (e_index e) <? 0) || _) eqn:Er; [exact Hp|].
  apply in_range_false in Er. destruct (key_at p (wrap_int (e_index e))) as [key|] eqn:Ek; [|exact Hp].
  destruct (VerifyEquivocation _ _ _) as [[]|] eqn:Ev; [|exact Hp]. destruct (existsb _ _); [exact Hp|]. cbn [fst].
  apply (add_evidence_ok c hist p key); [exact Hp| |rewrite named_verify; exact Ev].
  rewrite named_index. rewrite <- (wrap_int_u64 (e_index e)) by (auto; lia). exact Ek.
Qed.

Lemma reach_pool_ok c hist p : reach c hist p -> pool_ok c hist p.
Proof.
  induction 1 as [addrs ks|hist p addrs ks Hr IH|hist p a Hr IH Ht|hist p n h p' qc Hr IH Hc|hist p n Hr IH|hist p e Hr IH He].
  - split; [|split; [|split]].
    + intros n h i s Hs. unfold votes_for in Hs. cbn in Hs. rewrite !lookup_empty in Hs. cbn in Hs.
      rewrite lookup_empty in Hs. discriminate.
    + intros n i a Ha. unfold cast_at in Ha. cbn in Ha. rewrite lookup_empty in Ha. cbn in Ha.
      rewrite lookup_empty in Ha. discriminate.
    + intros e He. cbn in He. apply elem_of_nil in He. destruct He.
    + split; [reflexivity|]. cbn. apply list_elem_of_here.
  - destruct IH as (H1 & H2 & H3 & H4 & H5). split; [exact H1|]. split; [exact H2|]. split.
    + intros e He. destruct (H3 e He) as (ks' & key & Hk & Hr'). exists ks', key. split; [|exact Hr'].
      apply list_elem_of_further, Hk.
    + split; [exact H4|]. cbn. apply list_elem_of_here.
  - apply Add_pool_ok; assumption.
  - eapply certificate_pool_ok; eauto.
  - apply MarkFinalized_pool_ok, IH.
  - apply AddEvidence_pool_ok; assumption.
Qed.

(** ** What a certificate contains *)

Lemma AddSignature_inv a i s a' : AddSignature a i s = Ok a' ->
  ag_number a' = ag_number a /\ ag_hash a' = ag_hash a /\
  (forall j, Has (ag_signers a') j = true -> Has (ag_signers a) j = true \/ i = j).
Proof.
  unfold AddSignature. destruct (Has (ag_signers a) i); [injection 1 as <-; auto|].
  destruct (SignatureFromBytes s) as [sig|]; [|discriminate].
  match goal with |- rbind ?e _ = _ -> _ => destruct e as [sg|]; [cbn [rbind]|discriminate] end.
  injection 1 as <-. split; [reflexivity|]. split; [reflexivity|]. intros j. cbn [ag_signers].
  rewrite Has_Set, orb_true_iff, andb_true_iff, Z.eqb_eq. tauto.
Qed.

Lemma add_votes_inv l : forall a a', add_votes a l = Ok a' ->
  ag_number a' = ag_number a /\ ag_hash a' = ag_hash a /\
  (forall j, Has (ag_signers a') j = true -> Has (ag_signers a) j = true \/ List.In j (map fst l)).
Proof.
  induction l as [|[i s] l IH]; intros a a' H; cbn [add_votes] in H; [injection H as <-; auto|].
  destruct (AddSignature a i s) as [a1|] eqn:E; [|discriminate]. cbn [rbind] in H.
  destruct (IH _ _ H) as (-> & -> & Hh'). destruct (AddSignature_inv _ _ _ _ E) as (-> & -> & Hh).
  split; [reflexivity|]. split; [reflexivity|]. intros j Hj. cbn [map fst List.In].
  destruct (Hh' j Hj) as [Hj'|]; [destruct (Hh j Hj')|]; auto.
Qed.

Lemma NewQuorumCert_inv n h k votes qc : NewQuorumCert n h k votes = Ok qc ->
  ag_number qc = n /\ ag_hash qc = h /\ (forall i, Has (ag_signers qc) i = true -> is_Some (votes !! i)).
Proof.
  unfold NewQuorumCert. intros H. destruct (add_votes_inv _ _ _ H) as (-> & -> & Hh).
  split; [reflexivity|]. split; [reflexivity|]. intros i Hi. destruct (Hh i Hi) as [Hn|Hin].
  - cbn [NewAggregate ag_signers] in Hn. rewrite Has_New in Hn. discriminate.
  - apply List.in_map_iff in Hin as ([j s] & <- & Hj). exists s.
    apply (proj1 (proj2 (sorted_votes_spec votes))), Hj.
Qed.

Lemma evict_size p n h p' : evictInvalidLocked p n h = (p', true) ->
  (size (votes_for p' n h) < size (votes_for p n h))%nat.
Proof.
  intros E. rewrite (evict_votes_for _ _ _ _ _ _ _ E), decide_True by auto.
  unfold evictInvalidLocked in E. injection E as _ E. apply negb_true_iff, Nat.eqb_neq in E.
  pose proof (map_subset_size (filter (fun v => keep_vote p n h v = true) (votes_for p n h)) (votes_for p n h)) as Hs.
  pose proof (map_filter_subseteq (fun v => keep_vote p n h v = true) (votes_for p n h)) as Hsub.
  apply map_subseteq_size in Hsub. lia.
Qed.

Lemma certificate_loop_total f : forall p n h, (size (votes_for p n h) < f)%nat ->
  exists p' r, certificate_loop f p n h = Some (p', r).
Proof.
  induction f as [|f IH]; intros p n h Hf; [lia|]. cbn [certificate_loop].
  destruct (_ <? _); [eauto|]. destruct (NewQuorumCert _ _ _ _); [|eauto].
  destruct (VerifySignature _ _ _); [eauto|]. destruct (evictInvalidLocked p n h) as [p1 [|]] eqn:E; [|eauto].
  apply IH. pose proof (evict_size _ _ _ _ E). lia.
Qed.

Lemma certificate_loop_sound f : forall p n h p' qc, certificate_loop f p n h = Some (p', Some qc) ->
  exists idx, VerifySignature (p_chainID p) qc (p_keys p) = Ok idx /\ ag_number qc = n /\ ag_hash qc = h /\
    forall i, Has (ag_signers qc) i = true -> is_Some (votes_for p n h !! i).
Proof.
  induction f as [|f IH]; intros p n h p' qc H; cbn [certificate_loop] in H; [discriminate|].
  destruct (_ <? _); [discriminate|]. destruct (NewQuorumCert _ _ _ _) as [q|] eqn:Eq; [|discriminate].
  destruct (VerifySignature _ _ _) as [idx|] eqn:Ev.
  - injection H as <- <-. exists idx. split; [exact Ev|]. apply (NewQuorumCert_inv _ _ _ _ _ Eq).
  - destruct (evictInvalidLocked p n h) as [p1 [|]] eqn:E; [|discriminate].
    destruct (evict_frame _ _ _ _ _ E) as (Ec & Ek & _).
    destruct (IH _ _ _ _ _ H) as (idx & H1 & H2 & H3 & H4). rewrite Ec, Ek in H1.
    exists idx. split; [exact H1|]. split; [exact H2|]. split; [exact H3|]. intros i Hi.
    destruct (H4 i Hi) as [s Hs]. rewrite (evict_votes_for _ _ _ _ _ _ _ E), decide_True in Hs by auto.
    apply map_lookup_filter_Some in Hs as [Hs _]. eauto.
Qed.

(** ** A certificate reaches the quorum *)

(** Every vote for the block is at an index of the pool's set. *)
Definition votes_in_set (p : AttestationPool) (number : Z) (blockHash : Hash) : Prop :=
  forall i, is_Some (votes_for p number blockHash !! i) -> 0 <= i < len (p_keys p).

(** Votes are only recorded at indices of a set the pool was given. *)
Definition placed (hist : list (list (option PublicKey))) (p : AttestationPool) : Prop :=
  forall n h i, is_Some (votes_for p n h !! i) -> 0 <= i /\ exists ks, ks ∈ hist /\ i < len ks.

Lemma placed_fewer hist p p' : (forall n h i, is_Some (votes_for p' n h !! i) -> is_Some (votes_for p n h !! i)) -> placed hist p -> placed hist p'.
Proof. intros H Hp n h i Hi. apply (Hp n h i), H, Hi. Qed.

Lemma evict_fewer p n h p' r : evictInvalidLocked p n h = (p', r) -> forall n' h' i, is_Some (votes_for p' n' h' !! i) -> is_Some (votes_for p n' h' !! i).
Proof.
  intros E n' h' i [s Hs]. rewrite (evict_votes_for _ _ _ _ _ _ _ E) in Hs. destruct (decide _) as [[<- <-]|]; [|eauto].
  apply map_lookup_filter_Some in Hs as [Hs _]. eauto.
Qed.

Lemma certificate_placed hist f : forall p n h p' qc, certificate_loop f p n h = Some (p', qc) -> placed hist p -> placed hist p'.
Proof.
  induction f as [|f IH]; intros p n h p' qc E Hp; cbn [certificate_loop] in E; [discriminate|].
  destruct (_ <? _); [injection E as <- _; exact Hp|]. destruct (NewQuorumCert _ _ _ _); [|injection E as <- _; exact Hp].
  destruct (VerifySignature _ _ _); [injection E as <- _; exact Hp|].
  destruct (evictInvalidLocked p n h) as [p1 [|]] eqn:Ev; [apply (IH _ _ _ _ _ E) | injection E as <- _];
    (eapply placed_fewer; [exact (evict_fewer _ _ _ _ _ Ev) | exact Hp]).
Qed.

Lemma Add_placed hist p a : p_keys p ∈ hist -> placed hist p -> placed hist (fst (Add p a)).
Proof.
  intros Hk Hp. unfold Add. destruct ((wrap_int (a_index a) <? 0) || _) eqn:Er; [exact Hp|]. apply in_range_false in Er.
  destruct (key_at _ _); [|exact Hp]. destruct (_ && _); [exact Hp|]. cbv zeta. destruct (cast_at p (a_number a) !! _).
  - destruct (bool_decide _); [exact Hp|]. destruct (DetectEquivocation _ _ _ _) as [[proof|]|]; exact Hp.
  - cbn [fst]. set (p1 := with_votes p _ _). intros n h i Hi. change (p_votes p1) with (p_votes p) in Hi. rewrite (votes_for_insert p1) in Hi.
    destruct (decide _) as [[<- <-]|]; [|exact (Hp n h i Hi)]. destruct Hi as [s Hs].
    apply lookup_insert_Some in Hs as [[<- _]|[_ Hs]]; [split; [lia | exists (p_keys p); split; [exact Hk | lia]] | apply (Hp (a_number a) (a_hash a)); eauto].
Qed.

Lemma finalized_fewer p n n' h i : is_Some (votes_for (MarkFinalized p n) n' h !! i) -> is_Some (votes_for p n' h !! i).
Proof.
  unfold MarkFinalized. destruct (n <=? p_finalized p); [auto|]. cbn [p_retain p_votes p_byIndex]. destruct (n <=? p_retain p); [auto|].
  unfold votes_for. cbn [p_votes with_votes]. destruct (filter _ (p_votes p) !! n') as [m|] eqn:Em; [|cbn; rewrite !lookup_empty; intros [? [=]]].
  apply map_lookup_filter_Some in Em as [-> _]. auto.
Qed.

Lemma evidence_votes p e n h : votes_for (fst (AddEvidence p e)) n h = votes_for p n h.
Proof.
  unfold AddEvidence. destruct (_ || _); [reflexivity|]. destruct (key_at _ _); [|reflexivity]. destruct (VerifyEquivocation _ _ _); [|reflexivity].
  destruct (existsb _ _); reflexivity.
Qed.

Lemma reach_placed c hist p : reach c hist p -> placed hist p.
Proof.
  induction 1 as [addrs ks|hist p addrs ks Hr IH|hist p a Hr IH Ht|hist p n h p' qc Hr IH Hc|hist p n Hr IH|hist p e Hr IH He].
  - intros n h i [s Hs]. unfold votes_for in Hs. cbn in Hs. rewrite !lookup_empty in Hs. cbn in Hs. rewrite lookup_empty in Hs. discriminate.
  - intros n h i Hi. destruct (IH n h i Hi) as (H0 & ks' & Hin & Hlt). split; [exact H0|]. exists ks'. split; [apply list_elem_of_further, Hin | exact Hlt].
  - apply Add_placed; [apply (reach_pool_ok _ _ _ Hr) | exact IH].
  - eapply certificate_placed; eauto.
  - eapply placed_fewer; [apply finalized_fewer | exact IH].
  - eapply placed_fewer; [|exact IH]. intros n h i. rewrite evidence_votes. auto.
Qed.

(** While the pool's set has not become smaller. *)
Lemma reach_in_set c hist p n h : reach c hist p -> Forall (fun ks => len ks <= len (p_keys p)) hist -> votes_in_set p n h.
Proof.
  intros Hr Hh i Hi. destruct (reach_placed _ _ _ Hr n h i Hi) as (H0 & ks & Hin & Hlt). rewrite Forall_forall in Hh. specialize (Hh ks Hin). lia.
Qed.

Lemma add_votes_signers l : forall a a', add_votes a l = Ok a' ->
  (forall j, Has (ag_signers a) j = true -> Has (ag_signers a') j = true) /\
  forall i, List.In i (map fst l) -> out_of_range (ag_signers a) i = false -> Has (ag_signers a') i = true.
Proof.
  induction l as [|[i s] l IH]; intros a a' H; cbn [add_votes] in H; [injection H as <-; split; [auto | intros i []]|].
  destruct (AddSignature a i s) as [a1|] eqn:E; [|discriminate]. cbn [rbind] in H. destruct (IH _ _ H) as [Hkeep Hnew].
  assert ((forall j, out_of_range (ag_signers a1) j = out_of_range (ag_signers a) j) /\
    (forall j, Has (ag_signers a) j = true -> Has (ag_signers a1) j = true) /\ (out_of_range (ag_signers a) i = false -> Has (ag_signers a1) i = true)) as (Hr & Hk & Hi).
  { unfold AddSignature in E. destruct (Has (ag_signers a) i) eqn:Eh; [injection E as <-; auto|].
    destruct (SignatureFromBytes s) as [sig|]; [|discriminate].
    match type of E with rbind ?e _ = _ => destruct e as [sg|]; [cbn [rbind] in E|discriminate] end. injection E as <-. cbn [ag_signers].
    split; [intros j; unfold out_of_range, len; rewrite Set_length; reflexivity|]. split; [intros j Hj; rewrite Has_Set, Hj; reflexivity|].
    intros Ho. rewrite Has_Set, Z.eqb_refl, Ho. apply orb_true_r. }
  split; [auto|]. intros j [<-|Hj] Ho; [apply Hkeep, Hi, Ho | apply Hnew; [exact Hj | rewrite Hr; exact Ho]].
Qed.

Lemma NewQuorumCert_signers n h k votes qc : NewQuorumCert n h k votes = Ok qc -> (forall i, is_Some (votes !! i) -> 0 <= i < k) ->
  Z.of_nat (size votes) <= len (Indices (ag_signers qc) k).
Proof.
  unfold NewQuorumCert. intros H Hr. destruct (add_votes_signers _ _ _ H) as [_ Hnew]. destruct (sorted_votes_spec votes) as (Hs & Hin & Hlen).
  unfold len. rewrite <- Hlen, <- (length_map fst). apply inj_le, List.NoDup_incl_length; [apply sorted_NoDup, Hs|].
  intros i Hi. pose proof Hi as Hi'. apply List.in_map_iff in Hi' as ([j s] & <- & Hj). apply Hin in Hj. cbn [fst] in *.
  assert (0 <= j < k) as Hjk by (apply Hr; eauto). apply Indices_spec. split; [exact Hjk|]. apply Hnew; [exact Hi|].
  apply (out_of_range_new k j Hjk). reflexivity.
Qed.

Lemma certificate_quorate f : forall p n h p' qc, certificate_loop f p n h = Some (p', Some qc) -> votes_in_set p n h ->
  exists idx, VerifyCert (p_chainID p) qc (p_keys p) = Ok idx.
Proof.
  induction f as [|f IH]; intros p n h p' qc H Hr; cbn [certificate_loop] in H; [discriminate|].
  destruct (Z.ltb_spec (Z.of_nat (size (votes_for p n h))) (Quorum (len (p_keys p)))) as [|Hq]; [discriminate|].
  destruct (NewQuorumCert _ _ _ _) as [q|] eqn:Eq; [|discriminate]. destruct (VerifySignature _ _ _) as [idx|] eqn:Ev.
  - injection H as <- <-. exists idx. unfold VerifyCert. rewrite Ev. cbn [rbind]. apply VerifySignature_inv in Ev as (-> & _).
    pose proof (NewQuorumCert_signers _ _ _ _ _ Eq Hr). destruct (Z.ltb_spec (len (Indices (ag_signers q) (len (p_keys p)))) (Quorum (len (p_keys p)))); [lia | reflexivity].
  - destruct (evictInvalidLocked p n h) as [p1 [|]] eqn:E; [|discriminate]. destruct (evict_frame _ _ _ _ _ E) as (Ec & Ek & _).
    rewrite <- Ec, <- Ek. apply (IH _ _ _ _ _ H). intros i [s Hs]. rewrite Ek. apply Hr.
    rewrite (evict_votes_for _ _ _ _ _ _ _ E), decide_True in Hs by auto. apply map_lookup_filter_Some in Hs as [Hs _]. eauto.
Qed.

(** ** Valid votes win *)

Lemma keep_valid p n h i s : 0 <= i -> keep_vote p n h (i, s) = true ->
  valid_vote (p_chainID p) n h (p_keys p) (i, s).
Proof.
  intros Hi H. unfold keep_vote, has_key, vote_verifies, VerifyAttestation, key_at in H. cbn [fst snd] in H.
  apply andb_prop in H as [Hk Hv]. apply andb_prop in Hk as [Hl _]. apply Z.ltb_lt in Hl.
  split; [cbn; lia|]. cbn [fst snd]. destruct (nth (Z.to_nat i) (p_keys p) None) as [k|]; [|discriminate].
  cbn [a_signature a_number a_hash] in Hv. destruct (SignatureFromBytes s) as [sg|]; [|discriminate].
  destruct (BlsVerify _ _ _) eqn:E; [|discriminate]. exists k, sg. auto.
Qed.

Lemma add_votes_parse {L : BlsLaws B} l : forall a,
  (len (ag_signature a) = 0 \/ is_Some (SignatureFromBytes (ag_signature a))) ->
  Forall (fun v => is_Some (SignatureFromBytes (snd v))) l -> exists a', add_votes a l = Ok a'.
Proof.
  induction l as [|[i s] l IH]; intros a Ha Hl; cbn [add_votes]; [eauto|].
  inversion_clear Hl as [|? ? [sg Hs] Hl']. cbn [snd] in Hs.
  unfold AddSignature. destruct (Has (ag_signers a) i); [cbn [rbind]; auto|]. rewrite Hs.
  destruct (Z.eqb_spec (len (ag_signature a)) 0) as [E|E]; cbn [rbind].
  - apply IH; [|exact Hl']. right. cbn. eauto.
  - destruct Ha as [?|[e He]]; [contradiction|]. rewrite He. destruct (aggregate_some e sg) as [u ->]. cbn [rbind].
    apply IH; [|exact Hl']. right. cbn. rewrite signature_roundtrip. eauto.
Qed.

Lemma NewQuorumCert_parse {L : BlsLaws B} n h k votes :
  (forall i s, votes !! i = Some s -> is_Some (SignatureFromBytes s)) -> exists qc, NewQuorumCert n h k votes = Ok qc.
Proof.
  intros H. apply add_votes_parse; [left; reflexivity|]. apply Forall_forall. intros [i s] Hin.
  apply list_elem_of_In in Hin. apply (proj1 (proj2 (sorted_votes_spec votes))) in Hin. exact (H _ _ Hin).
Qed.

Lemma quorum_pos k : 0 < k -> 0 < Quorum k.
Proof. intros H. unfold Quorum. destruct (Z.leb_spec k 0); [lia|]. pose proof (Z.div_pos (k * 2) 3). lia. Qed.

(** When every vote left is valid and they reach the quorum, the loop returns. *)
Lemma certificate_loop_valid {L : BlsLaws B} f p n h : p_keys p <> [] ->
  (forall i s, votes_for p n h !! i = Some s -> 0 <= i /\ keep_vote p n h (i, s) = true) ->
  Quorum (len (p_keys p)) <= Z.of_nat (size (votes_for p n h)) ->
  exists qc, certificate_loop (S f) p n h = Some (p, Some qc).
Proof.
  intros Hk Hall Hq. cbn [certificate_loop].
  destruct (Z.ltb_spec (Z.of_nat (size (votes_for p n h))) (Quorum (len (p_keys p)))); [lia|].
  assert (0 < len (p_keys p)) as Hpos.
  { destruct (p_keys p) as [|x l]; [contradiction|]. rewrite len_cons. pose proof (len_nonneg l). lia. }
  assert (votes_for p n h <> ∅) as Hne.
  { intros E. rewrite E, map_size_empty in Hq. pose proof (quorum_pos _ Hpos). lia. }
  destruct (NewQuorumCert_valid (p_chainID p) n h (p_keys p) (votes_for p n h) Hne) as (qc & -> & _ & _ & ->); [|eauto].
  intros i s Hs. destruct (Hall i s Hs). apply keep_valid; assumption.
Qed.

Lemma keep_vote_frame p p' n h v : p_chainID p' = p_chainID p -> p_keys p' = p_keys p ->
  keep_vote p' n h v = keep_vote p n h v.
Proof.
  intros Ec Ek. unfold keep_vote, has_key, vote_verifies, key_at. rewrite Ec, Ek. reflexivity.
Qed.

(** ** Malformed votes *)

(** One signature that does not parse makes the assembly fail. *)
Lemma add_votes_bad l i s : SignatureFromBytes s = None -> forall a, List.NoDup (map fst l) ->
  List.In (i, s) l -> Has (ag_signers a) i = false -> exists e, add_votes a l = Err e.
Proof.
  intros Hs. induction l as [|[j t] l IH]; intros a Hnd Hin Hhas; [destruct Hin|].
  cbn [map fst] in Hnd. apply List.NoDup_cons_iff in Hnd as [Hj Hnd]. cbn [add_votes].
  destruct Hin as [E|Hin].
  - injection E as -> ->. unfold AddSignature. rewrite Hhas, Hs. cbn [rbind]. eauto.
  - destruct (AddSignature a j t) as [a'|e] eqn:Ea; cbn [rbind]; [|eauto].
    apply IH; auto. destruct (AddSignature_inv _ _ _ _ Ea) as (_ & _ & Hh).
    destruct (Has (ag_signers a') i) eqn:Ei; [exfalso|reflexivity].
    destruct (Hh i Ei) as [|<-]; [congruence|]. apply Hj, List.in_map_iff. exists (j, s). auto.
Qed.

Lemma NewQuorumCert_bad n h k votes i s : votes !! i = Some s -> SignatureFromBytes s = None ->
  exists e, NewQuorumCert n h k votes = Err e.
Proof.
  intros Hi Hs. destruct (sorted_votes_spec votes) as (Hnd & Hin & _).
  apply (add_votes_bad _ i s Hs); [apply sorted_NoDup, Hnd | apply Hin, Hi | apply Has_New].
Qed.

Lemma certificate_blocked p n h i s : votes_for p n h !! i = Some s -> SignatureFromBytes s = None ->
  Certificate p n h = Some (p, None).
Proof.
  intros Hi Hs. unfold Certificate. cbn [certificate_loop]. destruct (_ <? _); [reflexivity|].
  destruct (NewQuorumCert_bad n h (len (p_keys p)) _ i s Hi Hs) as [e ->]. reflexivity.
Qed.

(** The height has a first vote of the validator: a second one never counts. *)
Lemma Add_second p a b : cast_at p (a_number b) !! wrap_int (a_index b) = Some a ->
  snd (Add p b) <> Ok true.
Proof.
  intros Hc. unfold Add. destruct (_ || _); [discriminate|]. destruct (key_at p _) as [key|]; [|discriminate].
  destruct (_ && _); [discriminate|]. rewrite Hc. destruct (bool_decide _); [discriminate|].
  destruct (DetectEquivocation _ _ _ _) as [[]|]; discriminate.
Qed.

(** What [Add] does with the first vote of a validator at an open height. *)
Lemma Add_first p a : 0 <= wrap_int (a_index a) < len (p_keys p) ->
  is_Some (key_at p (wrap_int (a_index a))) -> p_finalized p < a_number a -> 0 <= p_finalized p ->
  cast_at p (a_number a) !! wrap_int (a_index a) = None ->
  exists p', Add p a = (p', Ok true) /\ p_keys p' = p_keys p /\
    votes_for p' (a_number a) (a_hash a) = <[wrap_int (a_index a) := a_signature a]> (votes_for p (a_number a) (a_hash a)) /\
    cast_at p' (a_number a) !! wrap_int (a_index a) = Some a.
Proof.
  intros Hr [key Hk] Hf Hf0 Hc. unfold Add. rewrite Hk, Hc.
  destruct (Z.ltb_spec (wrap_int (a_index a)) 0); [lia|].
  destruct (Z.leb_spec (len (p_keys p)) (wrap_int (a_index a))); [lia|]. cbn [orb].
  destruct (Z.leb_spec (a_number a) (p_finalized p)); [lia|]. rewrite andb_false_r.
  eexists. split; [reflexivity|]. split; [reflexivity|]. split.
  - unfold votes_for. cbn [p_votes with_votes]. rewrite lookup_insert_eq. cbn [default from_option id].
    rewrite lookup_insert_eq. reflexivity.
  - unfold cast_at. cbn [p_byIndex with_votes]. rewrite lookup_insert_eq. cbn [default from_option id].
    apply lookup_insert_eq.
Qed.

End WithBls.

(** * Main theorems *)

(** C7: in every reachable pool, whatever votes arrived and however the
    validator set changed, two certificates that reach the quorum at one height
    name the same block: a validator is counted for one block per height. *)
Theorem pool_single_certificate {B : Bls} (chainID : Z) (hist : list (list (option PublicKey)))
    (p p1 p2 : AttestationPool) (n : Z) (h1 h2 : Hash) (qc1 qc2 : AggregateAttestation) (idx1 idx2 : list Z)
    (Hr : reach chainID hist p)
    (H1 : Certificate p n h1 = Some (p1, Some qc1)) (H2 : Certificate p n h2 = Some (p2, Some qc2))
    (V1 : VerifyCert chainID qc1 (p_keys p) = Ok idx1) (V2 : VerifyCert chainID qc2 (p_keys p) = Ok idx2) :
  h1 = h2.
Proof.
  destruct (decide (h1 = h2)) as [|Hne]; [assumption|exfalso].
  destruct (reach_pool_ok _ _ _ Hr) as (Hone & _).
  destruct (certificate_loop_sound _ _ _ _ _ _ H1) as (_ & _ & _ & _ & S1).
  destruct (certificate_loop_sound _ _ _ _ _ _ H2) as (_ & _ & _ & _ & S2).
  apply VerifyCert_inv in V1 as [V1 Q1]. apply VerifyCert_inv in V2 as [V2 Q2].
  apply VerifySignature_inv in V1 as (-> & Hne1 & _). apply VerifySignature_inv in V2 as (-> & _ & _).
  set (k := p_keys p) in *. pose proof (len_nonneg k) as Hk.
  pose proof (common_length (Indices (ag_signers qc1) (len k)) (Indices (ag_signers qc2) (len k)) (len k) Hk
    (Indices_NoDup _ _) (Indices_NoDup _ _) ltac:(intros i Hi; apply Indices_spec in Hi; tauto)
    ltac:(intros i Hi; apply Indices_spec in Hi; tauto)) as Hc.
  assert (common (Indices (ag_signers qc1) (len k)) (Indices (ag_signers qc2) (len k)) = []) as E.
  { destruct (common _ _) as [|i l] eqn:El; [reflexivity|exfalso].
    assert (List.In i (common (Indices (ag_signers qc1) (len k)) (Indices (ag_signers qc2) (len k)))) as Hi
      by (rewrite El; left; reflexivity).
    apply common_spec in Hi as [Hi1 Hi2]. apply Indices_spec in Hi1 as [_ Hi1]. apply Indices_spec in Hi2 as [_ Hi2].
    destruct (S1 i Hi1) as [s1 E1], (S2 i Hi2) as [s2 E2].
    destruct (Hone _ _ _ _ E1) as (a & Ea & Eh & _). destruct (Hone _ _ _ _ E2) as (b & Eb & Eh' & _). congruence. }
  rewrite E in Hc. change (len []) with 0 in Hc.
  destruct (Z.eq_dec (len k) 0) as [E0|]; [apply Hne1; rewrite E0; reflexivity|].
  pose proof (quorum_overlap (len k) ltac:(lia)). lia.
Qed.

(** [Certificate] always returns: every retry of its loop drops a vote.
    What it returns verifies against the current keys, names the block that was
    asked for, and has only recorded voters in it. *)
Theorem certificate_total {B : Bls} (p : AttestationPool) (n : Z) (h : Hash) :
  exists p' r, Certificate p n h = Some (p', r) /\
    forall qc, r = Some qc -> exists idx, VerifySignature (p_chainID p) qc (p_keys p) = Ok idx /\
      ag_number qc = n /\ ag_hash qc = h /\
      forall i, Has (ag_signers qc) i = true -> is_Some (votes_for p n h !! i).
Proof.
  unfold Certificate.
  destruct (certificate_loop_total (S (size (votes_for p n h))) p n h ltac:(lia)) as (p' & r & E).
  exists p', r. split; [exact E|]. intros qc ->. exact (certificate_loop_sound _ _ _ _ _ _ E).
Qed.

(** Bad votes do not stop a certificate as long as they parse.  If every
    recorded signature is a well-formed one and the votes that verify reach the
    quorum, [Certificate] finds them, whatever else was recorded. *)
Theorem certificate_despite_invalid {B : Bls} {L : BlsLaws B} (p : AttestationPool) (n : Z) (h : Hash)
    (Hk : p_keys p <> [])
    (Hparse : forall i s, votes_for p n h !! i = Some s -> 0 <= i /\ is_Some (SignatureFromBytes s))
    (Hq : Quorum (len (p_keys p)) <=
          Z.of_nat (size (filter (fun v => keep_vote p n h v = true) (votes_for p n h)))) :
  exists p' qc, Certificate p n h = Some (p', Some qc).
Proof.
  unfold Certificate. cbn [certificate_loop].
  pose proof (map_filter_subseteq (fun v => keep_vote p n h v = true) (votes_for p n h)) as Hsub.
  apply map_subseteq_size in Hsub.
  destruct (Z.ltb_spec (Z.of_nat (size (votes_for p n h))) (Quorum (len (p_keys p)))); [lia|].
  destruct (NewQuorumCert_parse n h (len (p_keys p)) (votes_for p n h)) as [qc Eqc];
    [intros i s Hs; apply (Hparse i s Hs)|].
  rewrite Eqc. destruct (VerifySignature (p_chainID p) qc (p_keys p)) as [idx|] eqn:Ev; [eauto|].
  destruct (evictInvalidLocked p n h) as [p1 removed] eqn:E.
  destruct (evict_frame _ _ _ _ _ E) as (Ec & Ek & _).
  pose proof (evict_votes_for _ _ _ _ _ n h E) as Hv. rewrite decide_True in Hv by auto.
  destruct removed.
  - pose proof (evict_size _ _ _ _ E) as Hs. destruct (size (votes_for p n h)) as [|f]; [lia|].
    destruct (certificate_loop_valid f p1 n h) as [qc' E']; [rewrite Ek; exact Hk | | | eauto].
    + intros i s Hs'. rewrite Hv in Hs'. apply map_lookup_filter_Some in Hs' as [Hs' Hkeep].
      split; [apply (Hparse i s Hs')|]. rewrite (keep_vote_frame p p1) by assumption. exact Hkeep.
    + rewrite Ek, Hv. exact Hq.
  - exfalso. assert (forall i s, votes_for p n h !! i = Some s -> 0 <= i /\ keep_vote p n h (i, s) = true) as Hall.
    { intros i s Hs. split; [apply (Hparse i s Hs)|].
      destruct (keep_vote p n h (i, s)) eqn:Ekeep; [reflexivity|exfalso].
      unfold evictInvalidLocked in E. injection E as _ E. apply negb_false_iff, Nat.eqb_eq in E.
      pose proof (map_subset_size (filter (fun v => keep_vote p n h v = true) (votes_for p n h)) (votes_for p n h)) as Hss.
      assert (filter (fun v => keep_vote p n h v = true) (votes_for p n h) ⊂ votes_for p n h) as Hstrict.
      { split; [apply map_filter_subseteq|]. intros Hc. rewrite map_subseteq_spec in Hc.
        specialize (Hc i s Hs). apply map_lookup_filter_Some in Hc as [_ Hc]. congruence. }
      specialize (Hss Hstrict). lia. }
    destruct (certificate_loop_valid 0 p n h Hk Hall ltac:(lia)) as [qc' E']. cbn [certificate_loop] in E'.
    destruct (Z.ltb_spec (Z.of_nat (size (votes_for p n h))) (Quorum (len (p_keys p)))); [lia|].
    rewrite Eqc, Ev, E in E'. discriminate.
Qed.

(** No honest validator is framed.  Every proof a reachable pool holds
    contains two votes for different blocks at one height that both verify
    against a key which held the named index in a set the pool was given. *)
Theorem evidence_is_sound {B : Bls} (chainID : Z) (hist : list (list (option PublicKey)))
    (p : AttestationPool) (e : Equivocation) (Hr : reach chainID hist p) (He : e ∈ p_evidence p) :
  exists ks key a b, ks ∈ hist /\ nth (Z.to_nat (e_index e)) ks None = Some key /\
    e_first e = Some a /\ e_second e = Some b /\ a_hash a <> a_hash b /\
    a_number a = e_number e /\ a_number b = e_number e /\
    VerifyAttestation chainID a (Some key) = Ok tt /\ VerifyAttestation chainID b (Some key) = Ok tt.
Proof.
  destruct (reach_pool_ok _ _ _ Hr) as (_ & _ & Hev & Hc & _).
  destruct (Hev e He) as (ks & key & Hks & Hkey & Hv). rewrite Hc in Hv. unfold VerifyEquivocation in Hv.
  destruct (e_first e) as [a|]; [|discriminate]. destruct (e_second e) as [b|]; [|discriminate].
  destruct (DetectEquivocation chainID (Some key) a b) as [[proof|]|] eqn:Ed; try discriminate. cbn [rbind] in Hv.
  destruct (negb (e_number proof =? e_number e) || _) eqn:En; [discriminate|].
  unfold DetectEquivocation in Ed.
  destruct (negb (a_number a =? a_number b) || negb (a_index a =? a_index b)) eqn:Eab; [discriminate|].
  destruct (bool_decide (a_hash a = a_hash b)) eqn:Eh; [discriminate|]. apply bool_decide_eq_false in Eh.
  destruct (VerifyAttestation chainID a (Some key)) as [[]|] eqn:Va; [|discriminate].
  destruct (VerifyAttestation chainID b (Some key)) as [[]|] eqn:Vb; [|discriminate].
  cbn [rbind] in Ed. injection Ed as <-. cbn [e_number e_index] in En. bsimp.
  exists ks, key, a, b. repeat split; auto; congruence.
Qed.

(** A vote is stored before its signature is looked at, and one that does
    not parse is never evicted: after it, no certificate is produced for the
    block it names whatever other votes are present, and the validator's own vote
    at that height is not counted any more. *)
Theorem malformed_vote_blocks {B : Bls} (p : AttestationPool) (a : Attestation)
    (Hi : 0 <= wrap_int (a_index a) < len (p_keys p)) (Hkey : is_Some (key_at p (wrap_int (a_index a))))
    (Hopen : 0 <= p_finalized p < a_number a)
    (Hnew : cast_at p (a_number a) !! wrap_int (a_index a) = None)
    (Hbad : SignatureFromBytes (a_signature a) = None) :
  exists p', Add p a = (p', Ok true) /\
    (forall q, votes_for p' (a_number a) (a_hash a) ⊆ votes_for q (a_number a) (a_hash a) ->
       Certificate q (a_number a) (a_hash a) = Some (q, None)) /\
    (forall b, a_number b = a_number a -> wrap_int (a_index b) = wrap_int (a_index a) -> snd (Add p' b) <> Ok true).
Proof.
  destruct (Add_first p a Hi Hkey ltac:(lia) ltac:(lia) Hnew) as (p' & E & _ & Hv & Hc).
  exists p'. split; [exact E|]. split.
  - intros q Hq. apply (certificate_blocked q _ _ (wrap_int (a_index a)) (a_signature a)); [|exact Hbad].
    rewrite Hv in Hq. exact (lookup_weaken _ _ _ _ (lookup_insert_eq _ _ _) Hq).
  - intros b Hn Hb. apply (Add_second p' a). rewrite Hn, Hb. exact Hc.
Qed.

(** ** Witnesses *)

(** Three validators with keys 1, 2 and 3; the first two and the third vote for
    one block, and a fourth pool also holds a vote that does not verify. *)
Definition sample_vote (index key : Z) : Attestation :=
  mkAttestation 5 sample_h1 index (toy_sign key sample_m1).
Definition sample_pool : AttestationPool (B := toy_bls sample_log) :=
  NewAttestationPool (B := toy_bls sample_log) 7 [] [[1]; [2]; [3]].
Definition sample_voted : AttestationPool (B := toy_bls sample_log) :=
  fst (Add (B := toy_bls sample_log) (fst (Add (B := toy_bls sample_log) (fst (Add (B := toy_bls sample_log) sample_pool
    (sample_vote 0 1))) (sample_vote 1 2))) (sample_vote 2 3)).

Lemma sample_reach : reach (B := toy_bls sample_log) 7 [[Some 1; Some 2; Some 3]] sample_voted.
Proof.
  unfold sample_voted, sample_pool.
  do 3 (apply reach_add; [|split; [discriminate | reflexivity]]). exact (reach_new 7 [] [[1]; [2]; [3]]).
Qed.

(** The certificate of a call, without the pool. *)
Definition cert_of {B : Bls} (r : option (AttestationPool * option AggregateAttestation)) : option AggregateAttestation :=
  match r with Some (_, qc) => qc | None => None end.

Lemma cert_of_some {B : Bls} r qc : cert_of r = Some qc -> exists p, r = Some (p, Some qc).
Proof. destruct r as [[p o]|]; [cbn; intros ->; eauto | discriminate]. Qed.

Lemma pool_single_certificate_witness :
  exists p, Certificate (B := toy_bls sample_log) sample_voted 5 sample_h1 = Some (p, Some sample_qc1) /\
    sample_h1 = sample_h1.
Proof.
  assert (cert_of (B := toy_bls sample_log) (Certificate (B := toy_bls sample_log) sample_voted 5 sample_h1) = Some sample_qc1) as E
    by (vm_compute; reflexivity).
  apply cert_of_some in E as [p E]. exists p. split; [exact E|].
  assert (VerifyCert (B := toy_bls sample_log) 7 sample_qc1 [Some 1; Some 2; Some 3] = Ok [0; 1; 2]) as V
    by (vm_compute; reflexivity).
  exact (pool_single_certificate (B := toy_bls sample_log) 7 _ _ _ _ _ _ _ _ _ _ _ sample_reach E E V V).
Defined.

(** Four validators; the fourth vote was forged. *)
Definition sample_forged : AttestationPool (B := toy_bls sample_log) :=
  fst (Add (B := toy_bls sample_log) (UpdateValidators (B := toy_bls sample_log) sample_voted [] [[1]; [2]; [3]; [4]])
    (sample_vote 3 9)).

Lemma certificate_despite_invalid_witness :
  (exists i, VerifySignature (B := toy_bls sample_log) 7 i [Some 1; Some 2; Some 3; Some 4] = Err ErrAggregateInvalid) /\
  exists p' qc, Certificate (B := toy_bls sample_log) sample_forged 5 sample_h1 = Some (p', Some qc).
Proof.
  split.
  - exists (mkAggregate 5 sample_h1 [15] (toy_bytes (15 * toy_point sample_m1))). vm_compute. reflexivity.
  - apply (certificate_despite_invalid (B := toy_bls sample_log) (L := toy_laws sample_log) sample_forged).
    + discriminate.
    + intros i s H. assert (List.In (i, s) (map_to_list (votes_for (B := toy_bls sample_log) sample_forged 5 sample_h1))) as Hin
        by (apply list_elem_of_In, elem_of_map_to_list, H).
      vm_compute in Hin. repeat (destruct Hin as [Hin|Hin]; [injection Hin as <- <-; split; [lia | eexists; reflexivity]|]).
      destruct Hin.
    + vm_compute. discriminate.
Defined.

(** Validator 1 votes for both blocks. *)
Definition sample_double : AttestationPool (B := toy_bls sample_log) :=
  fst (Add (B := toy_bls sample_log) sample_voted (mkAttestation 5 sample_h2 1 (toy_sign 2 sample_m2))).

Lemma evidence_is_sound_witness :
  exists e, p_evidence sample_double = [e] /\ e_index e = 1 /\
    exists key, nth 1 [Some 1; Some 2; Some 3] None = Some key /\ key = 2.
Proof.
  assert (map e_index (p_evidence sample_double) = [1]) as E1 by (vm_compute; reflexivity).
  destruct (p_evidence sample_double) as [|e [|e' l]] eqn:E; [discriminate E1| |discriminate E1].
  assert (e_index e = 1) as Ei by (cbn in E1; congruence).
  assert (reach (B := toy_bls sample_log) 7 [[Some 1; Some 2; Some 3]] sample_double) as Hr
    by (apply reach_add; [exact sample_reach | split; [discriminate | reflexivity]]).
  destruct (evidence_is_sound (B := toy_bls sample_log) 7 _ sample_double e Hr) as (ks & key & a & b & Hks & Hkey & _).
  { rewrite E. left. }
  exists e. split; [reflexivity|]. split; [exact Ei|]. exists key. rewrite Ei in Hkey.
  apply list_elem_of_singleton in Hks as ->. split; [exact Hkey|].
  assert (Some 2 = Some key) as H2 by exact Hkey. congruence.
Defined.

(** The third validator's slot is taken by an empty signature. *)
Lemma malformed_vote_blocks_witness :
  exists p', Add (B := toy_bls sample_log) sample_pool (mkAttestation 5 sample_h1 2 []) = (p', Ok true) /\
    Certificate (B := toy_bls sample_log) p' 5 sample_h1 = Some (p', None).
Proof.
  destruct (malformed_vote_blocks (B := toy_bls sample_log) sample_pool (mkAttestation 5 sample_h1 2 []))
    as (p' & H1 & H2 & _).
  - vm_compute. split; congruence.
  - eexists. vm_compute. reflexivity.
  - split; [discriminate | reflexivity].
  - vm_compute. reflexivity.
  - reflexivity.
  - exists p'. split; [exact H1|]. apply H2. reflexivity.
Defined.

End Pool.
