(* ===== verification/Registry.v ===== *)
(** The staking registry (src/staking/params.go, src/staking/registry.go).

    The registry is a view of account storage: every field of a validator
    record lives in a slot derived by hashing a label with an index or an
    address.  [StateAccess] is the interface of the source, with the laws its
    callers rely on.  [vals] reads the whole registry as a list; the lemmas
    after the definitions say how every write moves that list, and the
    lifecycle (Lifecycle.v) is verified against them. *)

From Stdlib Require Import Ascii String.
From stdpp Require Import base list list_numbers gmap.
From Stdlib Require Import ZArith Lia.
From S2P Require Import Prelude RLP Common.
Local Open Scope Z_scope.
Local Open Scope go_scope.

(** * The state the registry is stored in *)

Class StateAccess := {
  State : Type;
  GetState : State -> Address -> Hash -> Hash;
  SetState : State -> Address -> Hash -> Hash -> State;
  GetBalance : State -> Address -> Z;
  AddBalance : State -> Address -> Z -> State;
  SubBalance : State -> Address -> Z -> State
}.

(** Storage slots and balances are independent cells; balances are unbounded
    integers, as big.Int is. *)
Class StateLaws (SA : StateAccess) := {
  state_ok : State -> Prop;
  GetState_ok : forall s a k, state_ok s -> hash_ok (GetState s a k);
  SetState_ok : forall s a k v, state_ok s -> hash_ok v -> state_ok (SetState s a k v);
  AddBalance_ok : forall s a x, state_ok s -> state_ok (AddBalance s a x);
  SubBalance_ok : forall s a x, state_ok s -> state_ok (SubBalance s a x);
  Get_SetState_eq : forall s a k v, state_ok s -> hash_ok v -> GetState (SetState s a k v) a k = v;
  Get_SetState_ne : forall s a k v a' k', state_ok s -> hash_ok v -> (a, k) <> (a', k') ->
    GetState (SetState s a k v) a' k' = GetState s a' k';
  Get_AddBalance : forall s a x a' k, state_ok s -> GetState (AddBalance s a x) a' k = GetState s a' k;
  Get_SubBalance : forall s a x a' k, state_ok s -> GetState (SubBalance s a x) a' k = GetState s a' k;
  Balance_SetState : forall s a k v a', state_ok s -> hash_ok v -> GetBalance (SetState s a k v) a' = GetBalance s a';
  Balance_Add : forall s a x a', state_ok s ->
    GetBalance (AddBalance s a x) a' = GetBalance s a' + (if decide (a = a') then x else 0);
  Balance_Sub : forall s a x a', state_ok s ->
    GetBalance (SubBalance s a x) a' = GetBalance s a' - (if decide (a = a') then x else 0)
}.

Module Reg.

(** * Parameters *)

Definition Gwei : Z := 1000000000.
Definition Ether : Z := Gwei * Gwei.
Definition StakingAddress : Address := BytesToAddress (zeros 19 ++ [255]).
Definition MinDeposit : Z := 32 * Ether.
Definition MaxEffectiveBalance : Z := 32 * Ether.
Definition EffectiveBalanceIncrement : Z := Ether.
Definition EjectionBalance : Z := 16 * Ether.
Definition EpochLength : Z := 32.
Definition MinActivationDelay : Z := 1.
Definition WithdrawalDelay : Z := 256.
Definition MinChurnLimit : Z := 4.
Definition ChurnLimitQuotient : Z := 65536.
Definition SlashPenaltyQuotient : Z := 32.
Definition CorrelationPenaltyMultiplier : Z := 3.
Definition SlashingWindow : Z := WithdrawalDelay.
Definition CorrelationPenaltyEpochOffset : Z := SlashingWindow / 2.
Definition ProposerRewardQuotient : Z := 8.
Definition BaseRewardFactor : Z := 64.
Definition InactivityLeakThreshold : Z := 4.
Definition InactivityPenaltyQuotient : Z := Z.shiftl 1 16.

Definition EpochOf (blockNumber : Z) : Z := blockNumber / EpochLength.
Definition EpochStart (epoch : Z) : Z := epoch *w EpochLength.
Definition IsEpochBoundary (blockNumber : Z) : bool :=
  (0 <? blockNumber) && (blockNumber mod EpochLength =? 0).

Definition ChurnLimit (activeCount : Z) : Z :=
  let limit := activeCount / ChurnLimitQuotient in
  if limit <? MinChurnLimit then MinChurnLimit else limit.

Definition computeEffectiveBalance (balance : Z) : Z :=
  if MaxEffectiveBalance <=? balance then MaxEffectiveBalance
  else balance / EffectiveBalanceIncrement * EffectiveBalanceIncrement.

(** * Records *)

Inductive error :=
| ErrNotFound
| ErrBelowMinimum
| ErrNotActive
| ErrNotWithdrawable
| ErrAlreadySlashed
| ErrBadBLSKey
| ErrBadPossession
| ErrLeftTheSet
| ErrAlreadyWithdrawn
| ErrEpochProcessed.

(** A status is a byte; [StatusOther] is one the source prints as unknown. *)
Inductive Status :=
| StatusPending
| StatusActive
| StatusExiting
| StatusExited
| StatusSlashed
| StatusWithdrawn
| StatusOther (b : Z).

#[export] Instance Status_eq_dec : EqDecision Status.
Proof. solve_decision. Defined.

Definition status_byte (s : Status) : Z :=
  match s with
  | StatusPending => 0
  | StatusActive => 1
  | StatusExiting => 2
  | StatusExited => 3
  | StatusSlashed => 4
  | StatusWithdrawn => 5
  | StatusOther b => b
  end.

Definition status_of_byte (b : Z) : Status :=
  match b with
  | 0 => StatusPending
  | 1 => StatusActive
  | 2 => StatusExiting
  | 3 => StatusExited
  | 4 => StatusSlashed
  | 5 => StatusWithdrawn
  | _ => StatusOther b
  end.

Record Validator := mkValidator
  { v_index : Z;
    v_address : Address;
    v_withdrawal : Address;
    v_bls : bytes;
    v_balance : Z;
    v_effective : Z;
    v_status : Status;
    v_activation : Z;
    v_exit : Z;
    v_withdrawable : Z;
    v_slashed : Z }.

Definition IsActiveAt (v : Validator) (epoch : Z) : bool :=
  match v_status v with
  | StatusActive => v_activation v <=? epoch
  | StatusExiting => (v_activation v <=? epoch) && (epoch <? v_exit v)
  | _ => false
  end.

Definition FarFutureEpoch : Z := max_uint64.
Definition BLSPublicKeyLength : Z := 48.

(** [putUint64] into a destination of [n <= 8] bytes, and [getUint64]. *)
Definition putUint64 (n : nat) (v : Z) : bytes := be_bytes n v.
Definition getUint64 (src : bytes) : Z :=
  fold_left (fun v b => Z.lor (wrap64 (Z.shiftl v 8)) b) src 0.

Definition packCore (v : Validator) : Hash :=
  [wrap8 (status_byte (v_status v))] ++ putUint64 8 (v_activation v) ++ putUint64 8 (v_exit v)
  ++ putUint64 8 (v_withdrawable v) ++ putUint64 7 (v_slashed v).

Definition isZeroBytes (b : bytes) : bool := forallb (fun c => c =? 0) b.

Record EpochState := mkEpochState
  { es_last : Z;
    es_finalized : Z;
    es_queue_epoch : Z;
    es_queue_count : Z }.

(** * Slots *)

Section Registry.
Context `{K : Keccak} `{SA : StateAccess}.

Definition slotCount : Hash := Keccak256 [bytes_of_string "staking/count"].
Definition slotEpochState : Hash := Keccak256 [bytes_of_string "staking/epoch-state"].
Definition slotRandaoMix : Hash := Keccak256 [bytes_of_string "staking/randao-mix"].

Definition slotFor (label : String.string) (index : Z) : Hash :=
  Keccak256 [bytes_of_string label; be_bytes 8 index].
Definition slotForAddress (label : String.string) (addr : Address) : Hash :=
  Keccak256 [bytes_of_string label; addr].

Definition read (s : State) (slot : Hash) : Hash := GetState s StakingAddress slot.
Definition write (s : State) (slot value : Hash) : State := SetState s StakingAddress slot value.

(** * Reading and writing records *)

Definition Count (s : State) : Z := wrap64 (HashBig (read s slotCount)).
Definition setCount (s : State) (n : Z) : State := write s slotCount (BigToHash n).

Definition IndexOf (s : State) (addr : Address) : option Z :=
  let raw := HashBig (read s (slotForAddress "staking/index" addr)) in
  if raw =? 0 then None else Some (wrap64 raw -w 1).

Definition setIndex (s : State) (addr : Address) (index : Z) : State :=
  write s (slotForAddress "staking/index" addr) (BigToHash (index +w 1)).

(** The body of [Get] once the index is in range. *)
Definition load (s : State) (index : Z) : Validator :=
  let core := read s (slotFor "staking/core" index) in
  let balance := HashBig (read s (slotFor "staking/balance" index)) in
  let high := read s (slotFor "staking/bls-hi" index) in
  let low := read s (slotFor "staking/bls-lo" index) in
  let key := high ++ drop 16 low in
  mkValidator index
    (BytesToAddress (read s (slotFor "staking/addr" index)))
    (BytesToAddress (read s (slotFor "staking/withdrawal" index)))
    (if isZeroBytes key then [] else key)
    balance
    (computeEffectiveBalance balance)
    (status_of_byte (nth 0 core 0))
    (getUint64 (slice core 1 9))
    (getUint64 (slice core 9 17))
    (getUint64 (slice core 17 25))
    (getUint64 (slice core 25 32)).

Definition Get (s : State) (index : Z) : result error Validator :=
  if Count s <=? index then Err ErrNotFound else Ok (load s index).

Definition ByAddress (s : State) (addr : Address) : result error Validator :=
  match IndexOf s addr with
  | None => Err ErrNotFound
  | Some index => Get s index
  end.

Definition bls_high (key : bytes) : Hash :=
  if len key =? BLSPublicKeyLength then take 32 key else ZeroHash.
Definition bls_low (key : bytes) : Hash :=
  if len key =? BLSPublicKeyLength then zeros 16 ++ drop 32 key else ZeroHash.

Definition Put (s : State) (v : Validator) : State :=
  let s := write s (slotFor "staking/core" (v_index v)) (packCore v) in
  let s := write s (slotFor "staking/addr" (v_index v)) (AddressHash (v_address v)) in
  let s := write s (slotFor "staking/withdrawal" (v_index v)) (AddressHash (v_withdrawal v)) in
  let s := write s (slotFor "staking/balance" (v_index v)) (BigToHash (v_balance v)) in
  let s := write s (slotFor "staking/bls-hi" (v_index v)) (bls_high (v_bls v)) in
  write s (slotFor "staking/bls-lo" (v_index v)) (bls_low (v_bls v)).

Definition with_index (v : Validator) (i : Z) : Validator :=
  mkValidator i (v_address v) (v_withdrawal v) (v_bls v) (v_balance v) (v_effective v) (v_status v)
    (v_activation v) (v_exit v) (v_withdrawable v) (v_slashed v).

(** [Append] returns the record with the index it was given. *)
Definition Append (s : State) (v : Validator) : State * Validator :=
  let index := Count s in
  let v := with_index v index in
  let s := Put s v in
  let s := setIndex s (v_address v) index in
  (setCount s (index +w 1), v).

(** The loop of [All], from [i] on for [n] more indices. *)
Fixpoint all_loop (n : nat) (s : State) (i : Z) : result error (list Validator) :=
  match n with
  | O => Ok []
  | S n' =>
      let! v := Get s i in
      let! rest := all_loop n' s (i + 1) in
      Ok (v :: rest)
  end.

Definition All (s : State) : result error (list Validator) := all_loop (Z.to_nat (Count s)) s 0.

Definition ActiveAt (s : State) (epoch : Z) : result error (list Validator) :=
  let! all := All s in
  Ok (List.filter (fun v => IsActiveAt v epoch) all).

Definition ActiveBLSKeysAt (s : State) (epoch : Z) : result error (list bytes) :=
  let! active := ActiveAt s epoch in Ok (map v_bls active).

Definition ActiveAddressesAt (s : State) (epoch : Z) : result error (list Address) :=
  let! active := ActiveAt s epoch in Ok (map v_address active).

Definition sum_effective (l : list Validator) : Z := fold_left (fun t v => t + v_effective v) l 0.

Definition TotalActiveStake (s : State) (epoch : Z) : result error Z :=
  let! active := ActiveAt s epoch in Ok (sum_effective active).

(** * Slashed stake, epoch bookkeeping and randomness *)

Definition slotSlashedStake (epoch : Z) : Hash :=
  slotFor "staking/slashed-stake" (epoch mod SlashingWindow).

Definition SlashedStakeIn (s : State) (epoch : Z) : Z := HashBig (read s (slotSlashedStake epoch)).

Definition AddSlashedStake (s : State) (epoch amount : Z) : State :=
  write s (slotSlashedStake epoch) (BigToHash (SlashedStakeIn s epoch + amount)).

Definition ResetSlashedStake (s : State) (epoch : Z) : State :=
  write s (slotSlashedStake epoch) ZeroHash.

(** [for e := start; e <= epoch; e++]. *)
Definition CorrelatedSlashedStake (s : State) (epoch : Z) : Z :=
  let start := if SlashingWindow <? epoch then epoch - SlashingWindow else 0 in
  fold_left (fun total e => total + SlashedStakeIn s e) (seqZ start (epoch - start + 1)) 0.

Definition LoadEpochState (s : State) : EpochState :=
  let raw := read s slotEpochState in
  mkEpochState (getUint64 (slice raw 0 8)) (getUint64 (slice raw 8 16))
               (getUint64 (slice raw 16 24)) (getUint64 (slice raw 24 32)).

Definition SaveEpochState (s : State) (e : EpochState) : State :=
  write s slotEpochState (putUint64 8 (es_last e) ++ putUint64 8 (es_finalized e)
                          ++ putUint64 8 (es_queue_epoch e) ++ putUint64 8 (es_queue_count e)).

Definition RandaoMix (s : State) : Hash := read s slotRandaoMix.
Definition SetRandaoMix (s : State) (mix : Hash) : State := write s slotRandaoMix mix.

(** * Proposer selection *)

(** The walk over the active set: the first validator whose cumulative stake
    passes [target]. *)
Fixpoint pick (active : list Validator) (cumulative target : Z) : option Address :=
  match active with
  | [] => None
  | v :: r =>
      let cumulative := cumulative + v_effective v in
      if target <? cumulative then Some (v_address v) else pick r cumulative target
  end.

Definition draw (seed : Hash) (slot round : Z) : Hash :=
  Keccak256 [seed; putUint64 8 slot; putUint64 8 round].

Definition ProposerAt (s : State) (epoch : Z) (seed : Hash) (slot round : Z) : result error Address :=
  let! active := ActiveAt s epoch in
  if len active =? 0 then Err ErrNotFound
  else
    let total := sum_effective active in
    if total =? 0 then Ok (nth (Z.to_nat ((slot +w round) mod len active)) (map v_address active) ZeroAddress)
    else
      let target := HashBig (draw seed slot round) mod total in
      match pick active 0 target with
      | Some a => Ok a
      | None => Ok (List.last (map v_address active) ZeroAddress)
      end.

End Registry.

(** * The slots as keys *)

(** What is hashed to make a slot. *)
Inductive label := LCore | LAddr | LWithdrawal | LBalance | LBlsHi | LBlsLo | LSlashed.
Inductive key :=
| KCount
| KEpochState
| KRandao
| KIndex (a : Address)
| KRec (l : label) (i : Z).

#[export] Instance label_eq_dec : EqDecision label.
Proof. solve_decision. Defined.
#[export] Instance key_eq_dec : EqDecision key.
Proof. solve_decision. Defined.

Definition label_string (l : label) : String.string :=
  match l with
  | LCore => "staking/core"
  | LAddr => "staking/addr"
  | LWithdrawal => "staking/withdrawal"
  | LBalance => "staking/balance"
  | LBlsHi => "staking/bls-hi"
  | LBlsLo => "staking/bls-lo"
  | LSlashed => "staking/slashed-stake"
  end%string.

Definition key_bytes (k : key) : bytes :=
  match k with
  | KCount => bytes_of_string "staking/count"
  | KEpochState => bytes_of_string "staking/epoch-state"
  | KRandao => bytes_of_string "staking/randao-mix"
  | KIndex a => bytes_of_string "staking/index" ++ a
  | KRec l i => bytes_of_string (label_string l) ++ be_bytes 8 i
  end.

Definition key_ok (k : key) : Prop :=
  match k with
  | KIndex a => address_ok a
  | KRec _ i => u64_ok i
  | _ => True
  end.

(** The labels are distinct enough that a preimage determines its key. *)
Lemma key_bytes_inj k k' : key_ok k -> key_ok k' -> key_bytes k = key_bytes k' -> k = k'.
Proof.
  intros Hk Hk' E. pose proof (f_equal length E) as El.
  destruct k as [| | |a|[] i], k' as [| | |a'|[] i']; cbn [key_bytes label_string key_ok] in *;
    try reflexivity;
    repeat match goal with H : address_ok _ |- _ => destruct H end;
    rewrite ?length_app, ?length_be_bytes in El; cbn [bytes_of_string length Nat.add] in El;
    try (exfalso; lia); try (exfalso; cbn [bytes_of_string app] in E; discriminate E).
  { f_equal. exact (app_inv_head _ _ _ E). }
  all: f_equal; apply app_inv_head in E; apply (f_equal be_val) in E;
    rewrite !be_val_be_bytes in E; change (256 ^ Z.of_nat 8) with two64 in E;
    rewrite !Z.mod_small in E by assumption; exact E.
Qed.

(** The hash has no collision among the preimages of the registry's slots. *)
Class SlotHash (K : Keccak) :=
  slot_inj : forall k k', key_ok k -> key_ok k' ->
    Sum256 (key_bytes k) = Sum256 (key_bytes k') -> key_bytes k = key_bytes k'.

(** ** Machine integers in slots *)

Lemma getUint64_spec b : bytes_ok b -> len b <= 8 -> getUint64 b = be_val b.
Proof. apply Rlp.be_uint64_spec. Qed.

Lemma getUint64_put n v : (n <= 8)%nat -> 0 <= v < 256 ^ Z.of_nat n -> getUint64 (putUint64 n v) = v.
Proof.
  intros Hn Hv. unfold putUint64. rewrite getUint64_spec, be_val_be_bytes.
  - apply Z.mod_small, Hv.
  - apply be_bytes_ok.
  - rewrite len_be_bytes. lia.
Qed.

Lemma getUint64_u64_put v : u64_ok v -> getUint64 (putUint64 8 v) = v.
Proof. intros Hv. apply getUint64_put; [lia | exact Hv]. Qed.

Lemma getUint64_u64 b : bytes_ok b -> len b <= 8 -> 0 <= getUint64 b < 256 ^ len b.
Proof. intros Hb Hl. rewrite getUint64_spec by assumption. apply be_val_bounds, Hb. Qed.

Lemma slice_mid {A} (a b c : list A) i j : i = len a -> j = len a + len b -> slice (a ++ b ++ c) i j = b.
Proof.
  intros -> ->. unfold slice, len. rewrite Nat2Z.id, skipn_len_app by reflexivity.
  replace (Z.to_nat _) with (length b) by lia. apply firstn_len_app. reflexivity.
Qed.

Lemma slice_end {A} (a b : list A) i j : i = len a -> j = len a + len b -> slice (a ++ b) i j = b.
Proof. intros Hi Hj. rewrite <- (app_nil_r b) at 1. apply slice_mid; assumption. Qed.

Lemma slice_start {A} (a c : list A) j : j = len a -> slice (a ++ c) 0 j = a.
Proof. intros ->. apply (slice_mid []); reflexivity. Qed.

Lemma len_put n v : len (putUint64 n v) = Z.of_nat n.
Proof. apply len_be_bytes. Qed.

Lemma slice_hash h i j : hash_ok h -> 0 <= i <= j -> j <= 32 -> bytes_ok (slice h i j) /\ len (slice h i j) = j - i.
Proof.
  intros [Hl Hok] Hij Hj. unfold slice. split; [apply Forall_take, Forall_drop, Hok|].
  unfold len. rewrite length_take, length_drop, Hl. lia.
Qed.

Lemma slice_u64 h i j : hash_ok h -> 0 <= i <= j -> j <= 32 -> j - i <= 8 ->
  0 <= getUint64 (slice h i j) < 256 ^ (j - i).
Proof.
  intros Hh Hij Hj Hl. destruct (slice_hash h i j Hh Hij Hj) as [Hok E].
  rewrite <- E. apply getUint64_u64; [exact Hok | lia].
Qed.

(** ** Well-formed records *)

Definition status_ok (st : Status) : Prop := byte_ok (status_byte st) /\ status_of_byte (status_byte st) = st.

Record val_ok (v : Validator) : Prop := mk_val_ok
  { ok_index : u64_ok (v_index v);
    ok_address : address_ok (v_address v);
    ok_withdrawal : address_ok (v_withdrawal v);
    ok_bls : v_bls v = [] \/ (length (v_bls v) = 48%nat /\ bytes_ok (v_bls v) /\ isZeroBytes (v_bls v) = false);
    ok_balance : 0 <= v_balance v < 2 ^ 256;
    ok_effective : v_effective v = computeEffectiveBalance (v_balance v);
    ok_status : status_ok (v_status v);
    ok_activation : u64_ok (v_activation v);
    ok_exit : u64_ok (v_exit v);
    ok_withdrawable : u64_ok (v_withdrawable v);
    ok_slashed : 0 <= v_slashed v < 2 ^ 56 }.

Lemma status_of_byte_ok b : byte_ok b -> status_ok (status_of_byte b).
Proof.
  intros Hb. unfold status_ok.
  destruct (Z.eqb_spec b 0) as [->|]; [split; [unfold byte_ok; cbn; lia | reflexivity]|].
  destruct (Z.leb_spec b 5) as [Hle|Hgt].
  - assert (b = 1 \/ b = 2 \/ b = 3 \/ b = 4 \/ b = 5) as [E|[E|[E|[E|E] ] ] ] by (unfold byte_ok in Hb; lia);
      rewrite E; (split; [unfold byte_ok; cbn; lia | reflexivity]).
  - assert (status_of_byte b = StatusOther b) as E.
    { destruct b as [|[[[]|[]|]|[[]|[]|]|]|]; try reflexivity; lia. }
    rewrite E. split; [exact Hb | exact E].
Qed.

Lemma packCore_ok v : hash_ok (packCore v).
Proof.
  split.
  - unfold packCore, putUint64. rewrite !length_app, !length_be_bytes. reflexivity.
  - unfold packCore, putUint64, bytes_ok. rewrite !Forall_app.
    repeat split; try apply be_bytes_ok. constructor; [apply wrap8_ok | constructor].
Qed.

Lemma AddressHash_ok a : bytes_ok a -> hash_ok (AddressHash a).
Proof. apply BytesToHash_ok. Qed.

Lemma AddressHash_inv a : address_ok a -> BytesToAddress (AddressHash a) = a.
Proof.
  intros [Hl _]. unfold AddressHash, BytesToHash, BytesToAddress.
  rewrite (fit_right_short 32) by lia. rewrite Hl. unfold fit_right, zeros.
  rewrite length_app, length_replicate, Hl. cbn [Nat.sub Nat.add Nat.ltb Nat.leb].
  rewrite drop_app_length' by (rewrite length_replicate; reflexivity). rewrite Hl. reflexivity.
Qed.

Lemma BytesToAddress_ok b : bytes_ok b -> address_ok (BytesToAddress b).
Proof. intros H. split; [apply fit_right_length | apply fit_right_ok, H]. Qed.

Lemma zero_hash_ok : hash_ok ZeroHash.
Proof. split; [reflexivity | apply zeros_ok]. Qed.

Lemma bls_high_ok b : bytes_ok b -> hash_ok (bls_high b).
Proof.
  intros H. unfold bls_high. destruct (Z.eqb_spec (len b) BLSPublicKeyLength) as [E|]; [|apply zero_hash_ok].
  unfold len, BLSPublicKeyLength in E. split; [rewrite length_take; lia | apply Forall_take, H].
Qed.

Lemma bls_low_ok b : bytes_ok b -> hash_ok (bls_low b).
Proof.
  intros H. unfold bls_low. destruct (Z.eqb_spec (len b) BLSPublicKeyLength) as [E|]; [|apply zero_hash_ok].
  unfold len, BLSPublicKeyLength in E. split.
  - rewrite length_app, length_drop. unfold zeros. rewrite length_replicate. lia.
  - apply Forall_app. split; [apply zeros_ok | apply Forall_drop, H].
Qed.

(** The two key slots hold the key. *)
Lemma bls_slots v : val_ok v ->
  (if isZeroBytes (bls_high (v_bls v) ++ drop 16 (bls_low (v_bls v))) then []
   else bls_high (v_bls v) ++ drop 16 (bls_low (v_bls v))) = v_bls v.
Proof.
  intros Hv. unfold bls_high, bls_low. destruct (ok_bls v Hv) as [E|(Hl & _ & Hz)].
  - rewrite E. reflexivity.
  - destruct (Z.eqb_spec (len (v_bls v)) BLSPublicKeyLength) as [_|Hn];
      [|exfalso; apply Hn; unfold len; rewrite Hl; reflexivity].
    rewrite (drop_app_length' (zeros 16)) by reflexivity. rewrite take_drop, Hz. reflexivity.
Qed.

Lemma core_roundtrip v : val_ok v ->
  status_of_byte (nth 0 (packCore v) 0) = v_status v /\ getUint64 (slice (packCore v) 1 9) = v_activation v /\
  getUint64 (slice (packCore v) 9 17) = v_exit v /\ getUint64 (slice (packCore v) 17 25) = v_withdrawable v /\
  getUint64 (slice (packCore v) 25 32) = v_slashed v.
Proof.
  intros Hv. destruct (ok_status v Hv) as [Hb Hs]. unfold packCore. split.
  { cbn [app nth]. rewrite wrap8_small by exact Hb. exact Hs. }
  rewrite (slice_mid [_] _ _ 1 9) by (rewrite ?len_put; reflexivity).
  rewrite (app_assoc [_]), (slice_mid ([_] ++ _) _ _ 9 17) by (rewrite ?len_app, ?len_put; reflexivity).
  rewrite (app_assoc ([_] ++ _)), (slice_mid (([_] ++ _) ++ _) _ _ 17 25) by (rewrite ?len_app, ?len_put; reflexivity).
  rewrite (app_assoc (([_] ++ _) ++ _)), (slice_end ((([_] ++ _) ++ _) ++ _) _ 25 32) by (rewrite ?len_app, ?len_put; reflexivity).
  rewrite (getUint64_u64_put _ (ok_activation v Hv)), (getUint64_u64_put _ (ok_exit v Hv)),
    (getUint64_u64_put _ (ok_withdrawable v Hv)), (getUint64_put 7 (v_slashed v)) by
    (first [lia | exact (ok_slashed v Hv)]).
  auto.
Qed.

(** ** The registry as a list *)

(** A record from its slots, and the slots of a record. *)
Definition load_from (f : label -> Hash) (index : Z) : Validator :=
  let key := f LBlsHi ++ drop 16 (f LBlsLo) in
  mkValidator index (BytesToAddress (f LAddr)) (BytesToAddress (f LWithdrawal))
    (if isZeroBytes key then [] else key) (HashBig (f LBalance)) (computeEffectiveBalance (HashBig (f LBalance)))
    (status_of_byte (nth 0 (f LCore) 0)) (getUint64 (slice (f LCore) 1 9)) (getUint64 (slice (f LCore) 9 17))
    (getUint64 (slice (f LCore) 17 25)) (getUint64 (slice (f LCore) 25 32)).

Definition field (v : Validator) (l : label) : Hash :=
  match l with
  | LCore => packCore v
  | LAddr => AddressHash (v_address v)
  | LWithdrawal => AddressHash (v_withdrawal v)
  | LBalance => BigToHash (v_balance v)
  | LBlsHi => bls_high (v_bls v)
  | LBlsLo => bls_low (v_bls v)
  | LSlashed => ZeroHash
  end.

Lemma load_from_field v : val_ok v -> load_from (field v) (v_index v) = v.
Proof.
  intros Hv. unfold load_from. cbn [field]. destruct (core_roundtrip v Hv) as (-> & -> & -> & -> & ->).
  rewrite (bls_slots v Hv), (AddressHash_inv _ (ok_address v Hv)), (AddressHash_inv _ (ok_withdrawal v Hv)).
  rewrite (HashBig_BigToHash _ (ok_balance v Hv)), <- (ok_effective v Hv). destruct v; reflexivity.
Qed.

Lemma load_from_ok f i : (forall l, hash_ok (f l)) -> u64_ok i -> val_ok (load_from f i).
Proof.
  intros Hf Hi. pose proof (Hf LCore) as Hc. unfold load_from. constructor; cbn.
  - exact Hi.
  - apply BytesToAddress_ok, (Hf LAddr).
  - apply BytesToAddress_ok, (Hf LWithdrawal).
  - destruct (isZeroBytes _) eqn:E; [left; reflexivity | right].
    destruct (Hf LBlsHi) as [H1 O1], (Hf LBlsLo) as [H2 O2]. split; [rewrite length_app, length_drop, H1, H2; reflexivity|].
    split; [apply Forall_app; split; [exact O1 | apply Forall_drop, O2] | exact E].
  - apply HashBig_bounds, Hf.
  - reflexivity.
  - apply status_of_byte_ok. destruct Hc as [Hl Hok]. destruct (f LCore) as [|b r]; [discriminate Hl|].
    inversion Hok; assumption.
  - apply (slice_u64 _ 1 9 Hc); lia.
  - apply (slice_u64 _ 9 17 Hc); lia.
  - apply (slice_u64 _ 17 25 Hc); lia.
  - apply (slice_u64 _ 25 32 Hc); lia.
Qed.

Lemma field_ok v l : val_ok v -> hash_ok (field v l).
Proof.
  intros Hv. destruct l; cbn [field].
  - apply packCore_ok.
  - apply AddressHash_ok, (ok_address v Hv).
  - apply AddressHash_ok, (ok_withdrawal v Hv).
  - apply BigToHash_ok.
  - apply bls_high_ok. destruct (ok_bls v Hv) as [->|(_ & H & _)]; [constructor | exact H].
  - apply bls_low_ok. destruct (ok_bls v Hv) as [->|(_ & H & _)]; [constructor | exact H].
  - apply zero_hash_ok.
Qed.

Definition record_label (l : label) : bool := match l with LSlashed => false | _ => true end.

(** * Sums over the set *)

Lemma fold_sum {A} (f : A -> Z) l : forall acc, fold_left (fun t x => t + f x) l acc = acc + zsum (map f l).
Proof. induction l as [|x l IH]; intros acc; cbn [fold_left map zsum fold_right]; [lia|]. rewrite IH. fold (zsum (map f l)). lia. Qed.

Lemma sum_effective_zsum l : sum_effective l = zsum (map v_effective l).
Proof. unfold sum_effective. rewrite fold_sum. lia. Qed.

Lemma effective_bounds b : 0 <= b ->
  0 <= computeEffectiveBalance b <= b /\ computeEffectiveBalance b <= MaxEffectiveBalance /\
  computeEffectiveBalance b mod EffectiveBalanceIncrement = 0.
Proof.
  intros Hb. unfold computeEffectiveBalance.
  assert (0 < EffectiveBalanceIncrement) as Hi by reflexivity.
  destruct (Z.leb_spec MaxEffectiveBalance b) as [H|H].
  - assert (0 < MaxEffectiveBalance) by reflexivity. split; [lia|]. split; [lia | reflexivity].
  - pose proof (Z.mul_div_le b _ Hi). pose proof (Z.div_pos b EffectiveBalanceIncrement Hb Hi).
    split; [nia|]. split; [nia|]. apply Z.mod_mul. lia.
Qed.

(** Every validator owns the interval of targets between the stake before it
    and the stake up to it. *)
Lemma pick_spec l : Forall (fun v => 0 <= v_effective v) l -> forall acc t a,
  acc <= t -> pick l acc t = Some a -> exists v, List.In v l /\ v_address v = a.
Proof.
  induction 1 as [|v l Hv Hl IH]; intros acc t a Ht E; [discriminate|]. cbn [pick] in E.
  destruct (Z.ltb_spec t (acc + v_effective v)).
  - injection E as <-. exists v. split; [left|]; reflexivity.
  - destruct (IH _ _ _ H E) as (w & Hw & Ea). exists w. split; [right|]; assumption.
Qed.

Lemma pick_total l : forall acc t, t < acc + zsum (map v_effective l) -> acc <= t -> is_Some (pick l acc t).
Proof.
  induction l as [|v l IH]; intros acc t Ht Hacc; cbn [pick map zsum fold_right] in *; [lia|].
  fold (zsum (map v_effective l)) in Ht. destruct (Z.ltb_spec t (acc + v_effective v)); [eauto|]. apply IH; lia.
Qed.

(** How many of [n] consecutive targets pick [a]. *)
Definition hits (l : list Validator) (acc : Z) (a : Address) (ts : list Z) : Z :=
  len (List.filter (fun t => bool_decide (pick l acc t = Some a)) ts).

Lemma hits_cons v l acc a t : acc <= t -> hits (v :: l) acc a [t] =
  if t <? acc + v_effective v then (if decide (v_address v = a) then 1 else 0) else hits l (acc + v_effective v) a [t].
Proof.
  intros Ht. unfold hits. cbn [List.filter pick]. destruct (t <? acc + v_effective v) eqn:E; [|reflexivity].
  destruct (decide (v_address v = a)) as [->|Hne].
  - rewrite bool_decide_eq_true_2 by reflexivity. reflexivity.
  - rewrite bool_decide_eq_false_2 by congruence. reflexivity.
Qed.

Lemma hits_app l acc a ts us : hits l acc a (ts ++ us) = hits l acc a ts + hits l acc a us.
Proof. unfold hits. rewrite List.filter_app, len_app. reflexivity. Qed.

Lemma hits_in v l acc a n : forall t, acc <= t -> t + Z.of_nat n <= acc + v_effective v ->
  hits (v :: l) acc a (seqZ t (Z.of_nat n)) = if decide (v_address v = a) then Z.of_nat n else 0.
Proof.
  induction n as [|n IH]; intros t Ht Hn; [destruct (decide _); reflexivity|].
  rewrite seqZ_cons by lia. change (t :: ?x) with ([t] ++ x). rewrite hits_app, hits_cons by exact Ht.
  replace (Z.pred (Z.of_nat (S n))) with (Z.of_nat n) by lia. rewrite IH by lia.
  destruct (Z.ltb_spec t (acc + v_effective v)); [|lia]. destruct (decide _); lia.
Qed.

Lemma hits_after v l acc a n : 0 <= v_effective v -> forall t, acc + v_effective v <= t ->
  hits (v :: l) acc a (seqZ t (Z.of_nat n)) = hits l (acc + v_effective v) a (seqZ t (Z.of_nat n)).
Proof.
  intros Hv. induction n as [|n IH]; intros t Ht; [reflexivity|].
  rewrite seqZ_cons by lia. change (t :: ?x) with ([t] ++ x). rewrite !hits_app, hits_cons by lia.
  replace (Z.pred (Z.of_nat (S n))) with (Z.of_nat n) by lia. rewrite IH by lia.
  destruct (Z.ltb_spec t (acc + v_effective v)); [lia|]. reflexivity.
Qed.

Lemma hits_stake l a : Forall (fun v => 0 <= v_effective v) l -> forall acc,
  hits l acc a (seqZ acc (zsum (map v_effective l))) =
  zsum (map v_effective (List.filter (fun v => bool_decide (v_address v = a)) l)).
Proof.
  induction 1 as [|v l Hv Hl IH]; intros acc; [reflexivity|].
  cbn [map zsum fold_right List.filter]. fold (zsum (map v_effective l)).
  assert (0 <= zsum (map v_effective l)) as Hz.
  { apply zsum_nonneg, Forall_map, Hl. }
  rewrite seqZ_app by assumption. rewrite hits_app.
  pose proof (hits_in v l acc a (Z.to_nat (v_effective v)) acc) as Hin. rewrite Z2Nat.id in Hin by exact Hv.
  pose proof (hits_after v l acc a (Z.to_nat (zsum (map v_effective l))) Hv (acc + v_effective v)) as Haf.
  rewrite Z2Nat.id in Haf by exact Hz. rewrite Hin, Haf, IH by lia.
  destruct (decide (v_address v = a)) as [E|E].
  - rewrite bool_decide_eq_true_2 by exact E. reflexivity.
  - rewrite bool_decide_eq_false_2 by exact E. reflexivity.
Qed.

Section Laws.
Context `{K : Keccak} `{SA : StateAccess} {SH : SlotHash K} {SL : StateLaws SA}.

Definition slot (k : key) : Hash := Sum256 (key_bytes k).

Lemma slot_for l i : slotFor (label_string l) i = slot (KRec l i).
Proof. unfold slotFor, slot, Keccak256. cbn [concat key_bytes]. rewrite app_nil_r. reflexivity. Qed.
Lemma slot_count : slotCount = slot KCount.
Proof. unfold slotCount, slot, Keccak256. cbn [concat key_bytes]. rewrite app_nil_r. reflexivity. Qed.
Lemma slot_epoch : slotEpochState = slot KEpochState.
Proof. unfold slotEpochState, slot, Keccak256. cbn [concat key_bytes]. rewrite app_nil_r. reflexivity. Qed.
Lemma slot_randao : slotRandaoMix = slot KRandao.
Proof. unfold slotRandaoMix, slot, Keccak256. cbn [concat key_bytes]. rewrite app_nil_r. reflexivity. Qed.
Lemma slot_index a : slotForAddress "staking/index" a = slot (KIndex a).
Proof. unfold slotForAddress, slot, Keccak256. cbn [concat key_bytes]. rewrite app_nil_r. reflexivity. Qed.

Lemma read_write s k v k' : state_ok s -> hash_ok v -> key_ok k -> key_ok k' ->
  read (write s (slot k) v) (slot k') = if decide (k = k') then v else read s (slot k').
Proof.
  intros Hs Hv Hk Hk'. unfold read, write. destruct (decide (k = k')) as [->|Hne].
  - apply Get_SetState_eq; assumption.
  - apply Get_SetState_ne; [assumption..|]. intros E. injection E as E.
    apply Hne, (key_bytes_inj _ _ Hk Hk'), (slot_inj _ _ Hk Hk' E).
Qed.

Lemma read_ok s k : state_ok s -> hash_ok (read s k).
Proof. apply GetState_ok. Qed.

Lemma write_ok s k v : state_ok s -> hash_ok v -> state_ok (write s k v).
Proof. apply SetState_ok. Qed.

Lemma balance_write s k v a : state_ok s -> hash_ok v -> GetBalance (write s k v) a = GetBalance s a.
Proof. apply Balance_SetState. Qed.

Lemma load_eq s i : load s i = load_from (fun l => read s (slot (KRec l i))) i.
Proof.
  unfold load, load_from. rewrite <- !slot_for. reflexivity.
Qed.

Lemma load_ok s i : state_ok s -> u64_ok i -> val_ok (load s i).
Proof. intros Hs Hi. rewrite load_eq. apply load_from_ok; [intros l; apply read_ok, Hs | exact Hi]. Qed.

Lemma load_index s i : v_index (load s i) = i.
Proof. reflexivity. Qed.

(** [Put] as writes to keys. *)
Lemma Put_eq s v : Put s v =
  fold_left (fun s l => write s (slot (KRec l (v_index v))) (field v l))
    [LCore; LAddr; LWithdrawal; LBalance; LBlsHi; LBlsLo] s.
Proof. unfold Put. cbn [fold_left field]. rewrite <- !slot_for. reflexivity. Qed.

Lemma writes_spec v ls : val_ok v -> forall s, state_ok s ->
  let s' := fold_left (fun s l => write s (slot (KRec l (v_index v))) (field v l)) ls s in
  state_ok s' /\ (forall a, GetBalance s' a = GetBalance s a) /\
  (forall k, key_ok k -> read s' (slot k) =
     match k with
     | KRec l i => if decide (i = v_index v /\ l ∈ ls) then field v l else read s (slot k)
     | _ => read s (slot k)
     end).
Proof.
  intros Hv. induction ls as [|l ls IH]; intros s Hs; cbn [fold_left].
  { split; [exact Hs|]. split; [reflexivity|]. intros [] _; try reflexivity.
    destruct (decide _) as [[_ H]|]; [inversion H | reflexivity]. }
  pose proof (field_ok v l Hv) as Hf. pose proof (ok_index v Hv) as Hi.
  destruct (IH (write s (slot (KRec l (v_index v))) (field v l)) (write_ok _ _ _ Hs Hf)) as (H1 & H2 & H3).
  split; [exact H1|]. split; [intros a; rewrite H2; apply balance_write; assumption|].
  intros k Hk. rewrite (H3 k Hk). clear H3.
  assert (read (write s (slot (KRec l (v_index v))) (field v l)) (slot k) =
    if decide (KRec l (v_index v) = k) then field v l else read s (slot k)) as -> by (apply read_write; assumption).
  destruct k as [| | |a|l' i]; try (destruct (decide _); [discriminate | reflexivity]).
  destruct (decide (i = v_index v /\ l' ∈ ls)) as [[-> Hin]|Hn].
  - rewrite decide_True; [reflexivity|]. split; [reflexivity | right; exact Hin].
  - destruct (decide (KRec l (v_index v) = KRec l' i)) as [E|Hne].
    + injection E as <- <-. rewrite decide_True; [reflexivity|]. split; [reflexivity | left].
    + rewrite decide_False; [reflexivity|]. intros [-> Hin]. inversion Hin; subst; [apply Hne; reflexivity | auto].
Qed.

Lemma Put_spec s v : state_ok s -> val_ok v ->
  state_ok (Put s v) /\ (forall a, GetBalance (Put s v) a = GetBalance s a) /\
  (forall k, key_ok k -> read (Put s v) (slot k) =
     match k with
     | KRec l i => if decide (i = v_index v /\ record_label l = true) then field v l else read s (slot k)
     | _ => read s (slot k)
     end).
Proof.
  intros Hs Hv. rewrite Put_eq. destruct (writes_spec v [LCore; LAddr; LWithdrawal; LBalance; LBlsHi; LBlsLo] Hv s Hs)
    as (H1 & H2 & H3).
  split; [exact H1|]. split; [exact H2|]. intros k Hk. rewrite (H3 k Hk). destruct k as [| | |a|l i]; try reflexivity.
  destruct (decide (i = v_index v /\ l ∈ _)) as [[-> Hin]|Hn].
  - rewrite decide_True; [reflexivity|]. split; [reflexivity|].
    rewrite !elem_of_cons, elem_of_nil in Hin.
    destruct Hin as [->|[->|[->|[->|[->|[->|[] ] ] ] ] ] ]; reflexivity.
  - rewrite decide_False; [reflexivity|]. intros [-> Hl]. apply Hn. split; [reflexivity|].
    rewrite !elem_of_cons. destruct l; auto 8. discriminate.
Qed.

Lemma load_Put s v i : state_ok s -> val_ok v -> u64_ok i ->
  load (Put s v) i = if decide (i = v_index v) then v else load s i.
Proof.
  intros Hs Hv Hi. destruct (Put_spec s v Hs Hv) as (_ & _ & H). rewrite !load_eq. unfold load_from.
  rewrite !H by exact Hi. destruct (decide (i = v_index v)) as [->|Hne].
  - rewrite !decide_True by (split; reflexivity). exact (load_from_field v Hv).
  - rewrite !decide_False by tauto. reflexivity.
Qed.

(** ** Views of the state after a write *)

Definition vals (s : State) : list Validator := map (load s) (seqZ 0 (Count s)).

Lemma Count_u64 s : u64_ok (Count s).
Proof. apply wrap64_ok. Qed.

Lemma vals_len s : len (vals s) = Count s.
Proof. pose proof (Count_u64 s) as [? ?]. unfold vals, len. rewrite length_map, length_seqZ. lia. Qed.

Lemma vals_lookup s i : 0 <= i < Count s -> vals s !! Z.to_nat i = Some (load s i).
Proof.
  intros Hi. unfold vals. rewrite list_lookup_fmap. rewrite lookup_seqZ_lt by lia.
  cbn [fmap option_fmap option_map]. do 2 f_equal. lia.
Qed.

(** Two states that agree on the count and on the record slots hold the same list. *)
Lemma vals_agree s s' : Count s' = Count s ->
  (forall i, 0 <= i < Count s -> load s' i = load s i) -> vals s' = vals s.
Proof.
  intros Hc Hl. unfold vals. rewrite Hc. apply map_ext_in. intros i Hi.
  apply list_elem_of_In, elem_of_seqZ in Hi. apply Hl. lia.
Qed.

Lemma Count_read s s' : read s' (slot KCount) = read s (slot KCount) -> Count s' = Count s.
Proof. intros E. unfold Count. rewrite slot_count, E. reflexivity. Qed.

Lemma IndexOf_read s s' a : read s' (slot (KIndex a)) = read s (slot (KIndex a)) -> IndexOf s' a = IndexOf s a.
Proof. intros E. unfold IndexOf. rewrite slot_index, E. reflexivity. Qed.

Lemma load_read s s' i :
  (forall l, record_label l = true -> read s' (slot (KRec l i)) = read s (slot (KRec l i))) -> load s' i = load s i.
Proof. intros E. rewrite !load_eq. unfold load_from. rewrite !E by reflexivity. reflexivity. Qed.

Lemma Slashed_read s s' e :
  read s' (slot (KRec LSlashed (e mod SlashingWindow))) = read s (slot (KRec LSlashed (e mod SlashingWindow))) ->
  SlashedStakeIn s' e = SlashedStakeIn s e.
Proof.
  intros E. unfold SlashedStakeIn, slotSlashedStake. change "staking/slashed-stake"%string with (label_string LSlashed).
  rewrite slot_for, E. reflexivity.
Qed.

Lemma Epoch_read s s' : read s' (slot KEpochState) = read s (slot KEpochState) -> LoadEpochState s' = LoadEpochState s.
Proof. intros E. unfold LoadEpochState. rewrite slot_epoch, E. reflexivity. Qed.

Lemma Randao_read s s' : read s' (slot KRandao) = read s (slot KRandao) -> RandaoMix s' = RandaoMix s.
Proof. intros E. unfold RandaoMix. rewrite slot_randao. exact E. Qed.

Lemma window_u64 e : u64_ok (e mod SlashingWindow).
Proof. pose proof (Z.mod_pos_bound e SlashingWindow ltac:(reflexivity)). unfold u64_ok, two64, SlashingWindow, WithdrawalDelay in *. lia. Qed.

(** ** The abstract registry *)

(** What the storage represents: the records in index order, the address
    index, the ring of slashed stake, the bookkeeping record, the randomness
    and the balances. *)
Record registry := mkRegistry
  { r_vals : list Validator;
    r_index : Address -> option Z;
    r_slashed : Z -> Z;
    r_epoch : EpochState;
    r_mix : Hash;
    r_bal : Address -> Z }.

Record repr (s : State) (R : registry) : Prop := mk_repr
  { rp_ok : state_ok s;
    rp_vals : vals s = r_vals R;
    rp_index : forall a, address_ok a -> IndexOf s a = r_index R a;
    rp_slashed : forall e, SlashedStakeIn s e = r_slashed R (e mod SlashingWindow);
    rp_epoch : LoadEpochState s = r_epoch R;
    rp_mix : RandaoMix s = r_mix R;
    rp_bal : forall a, GetBalance s a = r_bal R a }.

Definition put (R : registry) (v : Validator) : registry :=
  mkRegistry (<[Z.to_nat (v_index v) := v]> (r_vals R)) (r_index R) (r_slashed R) (r_epoch R) (r_mix R) (r_bal R).

Definition append (R : registry) (v : Validator) : registry :=
  mkRegistry (r_vals R ++ [with_index v (len (r_vals R))])
    (fun a => if decide (a = v_address v) then Some (len (r_vals R)) else r_index R a)
    (r_slashed R) (r_epoch R) (r_mix R) (r_bal R).

Definition set_slashed (R : registry) (e x : Z) : registry :=
  mkRegistry (r_vals R) (r_index R)
    (fun p => if decide (p = e mod SlashingWindow) then x else r_slashed R p)
    (r_epoch R) (r_mix R) (r_bal R).

Definition set_epoch (R : registry) (e : EpochState) : registry :=
  mkRegistry (r_vals R) (r_index R) (r_slashed R) e (r_mix R) (r_bal R).

Definition set_mix (R : registry) (m : Hash) : registry :=
  mkRegistry (r_vals R) (r_index R) (r_slashed R) (r_epoch R) m (r_bal R).

Definition add_bal (R : registry) (a : Address) (x : Z) : registry :=
  mkRegistry (r_vals R) (r_index R) (r_slashed R) (r_epoch R) (r_mix R)
    (fun b => r_bal R b + (if decide (a = b) then x else 0)).

Definition epoch_ok (e : EpochState) : Prop :=
  u64_ok (es_last e) /\ u64_ok (es_finalized e) /\ u64_ok (es_queue_epoch e) /\ u64_ok (es_queue_count e).

(** Every state represents a registry. *)
Definition abs (s : State) : registry :=
  mkRegistry (vals s) (IndexOf s) (SlashedStakeIn s) (LoadEpochState s) (RandaoMix s) (GetBalance s).

Lemma repr_abs s : state_ok s -> repr s (abs s).
Proof.
  intros Hs. constructor; try reflexivity; [exact Hs|]. intros e. cbn [abs r_slashed].
  unfold SlashedStakeIn, slotSlashedStake. rewrite Zmod_mod. reflexivity.
Qed.

(** ** Reading through the representation *)

Lemma repr_count s R : repr s R -> Count s = len (r_vals R).
Proof. intros H. rewrite <- (rp_vals _ _ H), vals_len. reflexivity. Qed.

Lemma repr_lookup s R i v : repr s R -> r_vals R !! i = Some v ->
  v_index v = Z.of_nat i /\ val_ok v /\ load s (Z.of_nat i) = v /\ Z.of_nat i < Count s.
Proof.
  intros H Hi. pose proof (lookup_lt_Some _ _ _ Hi) as Hlt. pose proof (repr_count _ _ H) as Hc. unfold len in Hc.
  assert (0 <= Z.of_nat i < Count s) as Hr by lia.
  pose proof (vals_lookup s (Z.of_nat i) Hr) as E. rewrite (rp_vals _ _ H), Nat2Z.id, Hi in E. injection E as ->.
  split; [apply load_index|]. split; [|split; [reflexivity | lia]].
  apply load_ok; [apply (rp_ok _ _ H)|]. pose proof (Count_u64 s) as [? ?]. split; lia.
Qed.

Lemma repr_vals_ok s R : repr s R -> Forall val_ok (r_vals R).
Proof. intros H. apply Forall_lookup. intros i v Hi. apply (repr_lookup s R i v H Hi). Qed.

Lemma Get_repr s R i : repr s R -> 0 <= i ->
  Get s i = match r_vals R !! Z.to_nat i with Some v => Ok v | None => Err ErrNotFound end.
Proof.
  intros H Hi. unfold Get. pose proof (repr_count _ _ H) as Hc.
  destruct (Z.leb_spec (Count s) i).
  - rewrite lookup_ge_None_2; [reflexivity|]. unfold len in Hc. lia.
  - rewrite <- (rp_vals _ _ H), vals_lookup by lia. reflexivity.
Qed.

Lemma all_loop_spec s n : forall i, 0 <= i -> i + Z.of_nat n <= Count s ->
  all_loop n s i = Ok (map (load s) (seqZ i (Z.of_nat n))).
Proof.
  induction n as [|n IH]; intros i Hi Hn; [reflexivity|].
  cbn [all_loop]. unfold Get. destruct (Z.leb_spec (Count s) i); [lia|]. cbn [rbind].
  rewrite IH by lia. cbn [rbind]. rewrite (seqZ_cons i) by lia. cbn [map].
  unfold Z.succ. replace (Z.pred (Z.of_nat (S n))) with (Z.of_nat n) by lia. reflexivity.
Qed.

Lemma All_vals s : All s = Ok (vals s).
Proof.
  pose proof (Count_u64 s) as [? ?]. unfold All, vals. rewrite all_loop_spec by lia. rewrite Z2Nat.id by lia. reflexivity.
Qed.

Lemma All_repr s R : repr s R -> All s = Ok (r_vals R).
Proof. intros H. rewrite All_vals, (rp_vals _ _ H). reflexivity. Qed.

Definition active_in (R : registry) (epoch : Z) : list Validator := List.filter (fun v => IsActiveAt v epoch) (r_vals R).

Lemma ActiveAt_repr s R epoch : repr s R -> ActiveAt s epoch = Ok (active_in R epoch).
Proof. intros H. unfold ActiveAt. rewrite (All_repr s R H). reflexivity. Qed.

Lemma ByAddress_repr s R a : repr s R -> address_ok a ->
  ByAddress s a = match r_index R a with
                  | None => Err ErrNotFound
                  | Some i => match r_vals R !! Z.to_nat i with Some v => Ok v | None => Err ErrNotFound end
                  end.
Proof.
  intros H Ha. unfold ByAddress. pose proof (rp_index _ _ H a Ha) as E. rewrite <- E.
  destruct (IndexOf s a) as [i|] eqn:Ei; [|reflexivity]. apply Get_repr; [exact H|].
  unfold IndexOf in Ei. destruct (_ =? 0); [discriminate|]. injection Ei as <-.
  pose proof (wrap64_ok (wrap64 (HashBig (read s (slotForAddress "staking/index" a))) - 1)) as [? _]. assumption.
Qed.

(** ** Writing through the representation *)

Lemma repr_Put s R v : repr s R -> val_ok v -> v_index v < len (r_vals R) -> repr (Put s v) (put R v).
Proof.
  intros H Hv Hi. pose proof (rp_ok _ _ H) as Hs. destruct (Put_spec s v Hs Hv) as (H1 & H2 & H3).
  pose proof (ok_index v Hv) as [Hi0 Hi1]. pose proof (repr_count _ _ H) as Hc.
  assert (Count (Put s v) = Count s) as Ec by (apply Count_read, (H3 KCount I)).
  constructor; cbn [put r_vals r_index r_slashed r_epoch r_mix r_bal].
  - exact H1.
  - rewrite <- (rp_vals _ _ H). apply list_eq. intros j. pose proof (vals_len s) as Hl. unfold len in Hl.
    pose proof (vals_len (Put s v)) as Hl'. unfold len in Hl'. rewrite Ec in Hl'.
    destruct (decide (j < length (vals s))%nat) as [Hj|Hj];
      [|rewrite !lookup_ge_None_2; [reflexivity | rewrite length_insert; lia | lia]].
    replace j with (Z.to_nat (Z.of_nat j)) at 1 by lia. rewrite vals_lookup by lia.
    assert (u64_ok (Z.of_nat j)) as Hju by (pose proof (Count_u64 s) as [? ?]; split; lia).
    rewrite (load_Put s v _ Hs Hv Hju). destruct (decide (Z.of_nat j = v_index v)) as [E|Hne].
    + replace (Z.to_nat (v_index v)) with j by lia. rewrite list_lookup_insert_eq by lia. reflexivity.
    + rewrite list_lookup_insert_ne by lia. replace j with (Z.to_nat (Z.of_nat j)) at 2 by lia.
      rewrite vals_lookup by lia. reflexivity.
  - intros a Ha. rewrite <- (rp_index _ _ H a Ha). apply IndexOf_read, (H3 (KIndex a) Ha).
  - intros e. rewrite <- (rp_slashed _ _ H e). apply Slashed_read. rewrite (H3 (KRec _ _) (window_u64 e)).
    rewrite decide_False by (intros [_ Hx]; discriminate Hx). reflexivity.
  - rewrite <- (rp_epoch _ _ H). apply Epoch_read, (H3 KEpochState I).
  - rewrite <- (rp_mix _ _ H). apply Randao_read, (H3 KRandao I).
  - intros a. rewrite <- (rp_bal _ _ H a). apply H2.
Qed.

(** A write outside the records and the count leaves the list alone. *)
Lemma vals_write s k v : state_ok s -> hash_ok v -> key_ok k ->
  match k with KCount => False | KRec l _ => record_label l = false | _ => True end ->
  vals (write s (slot k) v) = vals s.
Proof.
  intros Hs Hv Hk Hx.
  assert (Count (write s (slot k) v) = Count s) as Ec.
  { apply Count_read. rewrite read_write by (assumption || exact I). rewrite decide_False; [reflexivity|].
    intros ->. destruct Hx. }
  apply vals_agree; [exact Ec|]. intros i Hi. apply load_read. intros l Hl.
  pose proof (Count_u64 s) as [? ?].
  rewrite read_write by (assumption || (split; lia)). rewrite decide_False; [reflexivity|].
  intros ->. congruence.
Qed.

Lemma repr_slashed s R e x : repr s R -> 0 <= x ->
  repr (write s (slotSlashedStake e) (BigToHash x)) (set_slashed R e (x mod 2 ^ 256)).
Proof.
  intros H Hx. pose proof (rp_ok _ _ H) as Hs. pose proof (BigToHash_ok x) as Hh. pose proof (window_u64 e) as Hw.
  assert (slotSlashedStake e = slot (KRec LSlashed (e mod SlashingWindow))) as E by apply (slot_for LSlashed).
  rewrite E. constructor; cbn [set_slashed r_vals r_index r_slashed r_epoch r_mix r_bal].
  - apply write_ok; assumption.
  - rewrite <- (rp_vals _ _ H). apply vals_write; auto.
  - intros a Ha. rewrite <- (rp_index _ _ H a Ha). apply IndexOf_read. rewrite read_write by assumption. reflexivity.
  - intros e'. destruct (decide (e' mod SlashingWindow = e mod SlashingWindow)) as [Ee|Hne].
    + unfold SlashedStakeIn, slotSlashedStake. rewrite (slot_for LSlashed), Ee, read_write, decide_True by auto.
      apply HashBig_BigToHash_mod, Hx.
    + rewrite <- (rp_slashed _ _ H e'). apply Slashed_read. rewrite read_write by (assumption || apply window_u64).
      rewrite decide_False by congruence. reflexivity.
  - rewrite <- (rp_epoch _ _ H). apply Epoch_read. rewrite read_write by (assumption || exact I). reflexivity.
  - rewrite <- (rp_mix _ _ H). apply Randao_read. rewrite read_write by (assumption || exact I). reflexivity.
  - intros a. rewrite <- (rp_bal _ _ H a). apply balance_write; assumption.
Qed.

Lemma repr_AddSlashedStake s R e x : repr s R -> 0 <= x ->
  repr (AddSlashedStake s e x) (set_slashed R e ((r_slashed R (e mod SlashingWindow) + x) mod 2 ^ 256)).
Proof.
  intros H Hx. unfold AddSlashedStake. rewrite (rp_slashed _ _ H). apply repr_slashed; [exact H|].
  rewrite <- (rp_slashed _ _ H). pose proof (HashBig_bounds _ (read_ok s (slotSlashedStake e) (rp_ok _ _ H))).
  unfold SlashedStakeIn. lia.
Qed.

Lemma repr_ResetSlashedStake s R e : repr s R -> repr (ResetSlashedStake s e) (set_slashed R e 0).
Proof. intros H. apply (repr_slashed s R e 0 H). lia. Qed.

Lemma epoch_roundtrip e : epoch_ok e ->
  let raw := putUint64 8 (es_last e) ++ putUint64 8 (es_finalized e)
             ++ putUint64 8 (es_queue_epoch e) ++ putUint64 8 (es_queue_count e) in
  hash_ok raw /\
  mkEpochState (getUint64 (slice raw 0 8)) (getUint64 (slice raw 8 16))
               (getUint64 (slice raw 16 24)) (getUint64 (slice raw 24 32)) = e.
Proof.
  intros (H1 & H2 & H3 & H4). cbv zeta. split.
  { split; [unfold putUint64; rewrite !length_app, !length_be_bytes; reflexivity|].
    unfold putUint64, bytes_ok. rewrite !Forall_app. repeat split; apply be_bytes_ok. }
  rewrite (slice_start (putUint64 8 (es_last e))) by (rewrite ?len_put; reflexivity).
  rewrite (slice_mid (putUint64 8 (es_last e)) _ _ 8 16) by (rewrite ?len_put; reflexivity).
  rewrite (app_assoc (putUint64 8 (es_last e))), (slice_mid (_ ++ _) _ _ 16 24) by (rewrite ?len_app, ?len_put; reflexivity).
  rewrite (app_assoc (_ ++ putUint64 8 (es_finalized e))), (slice_end ((_ ++ _) ++ _) _ 24 32) by (rewrite ?len_app, ?len_put; reflexivity).
  rewrite !getUint64_u64_put by assumption. destruct e; reflexivity.
Qed.

Lemma repr_SaveEpochState s R e : repr s R -> epoch_ok e -> repr (SaveEpochState s e) (set_epoch R e).
Proof.
  intros H He. pose proof (rp_ok _ _ H) as Hs. destruct (epoch_roundtrip e He) as [Hh E].
  unfold SaveEpochState. rewrite slot_epoch. constructor; cbn [set_epoch r_vals r_index r_slashed r_epoch r_mix r_bal].
  - apply write_ok; assumption.
  - rewrite <- (rp_vals _ _ H). apply vals_write; cbn; auto.
  - intros a Ha. rewrite <- (rp_index _ _ H a Ha). apply IndexOf_read. rewrite read_write by (assumption || exact I). reflexivity.
  - intros e'. rewrite <- (rp_slashed _ _ H e'). apply Slashed_read.
    rewrite read_write by (assumption || exact I || apply window_u64). reflexivity.
  - unfold LoadEpochState. rewrite slot_epoch, read_write by (assumption || exact I). exact E.
  - rewrite <- (rp_mix _ _ H). apply Randao_read. rewrite read_write by (assumption || exact I). reflexivity.
  - intros a. rewrite <- (rp_bal _ _ H a). apply balance_write; assumption.
Qed.

Lemma repr_SetRandaoMix s R m : repr s R -> hash_ok m -> repr (SetRandaoMix s m) (set_mix R m).
Proof.
  intros H Hm. pose proof (rp_ok _ _ H) as Hs.
  unfold SetRandaoMix. rewrite slot_randao. constructor; cbn [set_mix r_vals r_index r_slashed r_epoch r_mix r_bal].
  - apply write_ok; assumption.
  - rewrite <- (rp_vals _ _ H). apply vals_write; cbn; auto.
  - intros a Ha. rewrite <- (rp_index _ _ H a Ha). apply IndexOf_read. rewrite read_write by (assumption || exact I). reflexivity.
  - intros e'. rewrite <- (rp_slashed _ _ H e'). apply Slashed_read.
    rewrite read_write by (assumption || exact I || apply window_u64). reflexivity.
  - rewrite <- (rp_epoch _ _ H). apply Epoch_read. rewrite read_write by (assumption || exact I). reflexivity.
  - unfold RandaoMix. rewrite slot_randao, read_write by (assumption || exact I). reflexivity.
  - intros a. rewrite <- (rp_bal _ _ H a). apply balance_write; assumption.
Qed.

(** Balances are apart from storage. *)
Lemma repr_storage s s' R f : repr s R -> state_ok s' -> (forall k, read s' k = read s k) ->
  (forall a, GetBalance s' a = f a) ->
  repr s' (mkRegistry (r_vals R) (r_index R) (r_slashed R) (r_epoch R) (r_mix R) f).
Proof.
  intros H Hs Hr Hb. constructor; cbn.
  - exact Hs.
  - rewrite <- (rp_vals _ _ H). apply vals_agree; [apply Count_read, Hr|]. intros i _. apply load_read. intros; apply Hr.
  - intros a Ha. rewrite <- (rp_index _ _ H a Ha). apply IndexOf_read, Hr.
  - intros e. rewrite <- (rp_slashed _ _ H e). apply Slashed_read, Hr.
  - rewrite <- (rp_epoch _ _ H). apply Epoch_read, Hr.
  - rewrite <- (rp_mix _ _ H). apply Randao_read, Hr.
  - exact Hb.
Qed.

Lemma repr_AddBalance s R a x : repr s R -> repr (AddBalance s a x) (add_bal R a x).
Proof.
  intros H. pose proof (rp_ok _ _ H) as Hs. apply (repr_storage s); [exact H | apply AddBalance_ok, Hs | |].
  - intros k. apply Get_AddBalance, Hs.
  - intros b. rewrite Balance_Add by exact Hs. rewrite (rp_bal _ _ H). reflexivity.
Qed.

Lemma repr_SubBalance s R a x : repr s R -> repr (SubBalance s a x) (add_bal R a (- x)).
Proof.
  intros H. pose proof (rp_ok _ _ H) as Hs. apply (repr_storage s); [exact H | apply SubBalance_ok, Hs | |].
  - intros k. apply Get_SubBalance, Hs.
  - intros b. rewrite Balance_Sub by exact Hs. rewrite (rp_bal _ _ H). destruct (decide _); lia.
Qed.

(** ** Appending *)

Lemma vals_snoc s s' i v : Count s = i -> Count s' = i + 1 ->
  (forall j, 0 <= j < i -> load s' j = load s j) -> load s' i = v -> vals s' = vals s ++ [v].
Proof.
  intros Hc Hc' Hl Hv. pose proof (Count_u64 s) as [? ?]. unfold vals. rewrite Hc, Hc', seqZ_app by lia.
  rewrite map_app. f_equal.
  - apply map_ext_in. intros j Hj. apply list_elem_of_In, elem_of_seqZ in Hj. apply Hl. lia.
  - rewrite (seqZ_cons (0 + i)), (seqZ_nil _ (Z.pred 1)) by lia. cbn [map]. rewrite Z.add_0_l, Hv. reflexivity.
Qed.

Lemma with_index_ok v i : val_ok v -> u64_ok i -> val_ok (with_index v i).
Proof. intros [] Hi. constructor; assumption. Qed.

(** The slots after [Append] at index [n]. *)
Lemma Append_reads s v n : state_ok s -> val_ok v -> Count s = n -> n + 1 < two64 ->
  let s' := fst (Append s v) in
  state_ok s' /\ (forall a, GetBalance s' a = GetBalance s a) /\
  (forall k, key_ok k -> read s' (slot k) =
    match k with
    | KCount => BigToHash (n + 1)
    | KIndex a => if decide (a = v_address v) then BigToHash (n + 1) else read s (slot k)
    | KRec l i => if decide (i = n /\ record_label l = true) then field (with_index v n) l else read s (slot k)
    | _ => read s (slot k)
    end).
Proof.
  intros Hs Hv Hc Hn. pose proof (Count_u64 s) as [Hc0 _]. unfold Append. cbn [fst]. rewrite Hc. unfold setIndex, setCount.
  assert (u64_ok n) as Hnu by (split; lia). pose proof (with_index_ok v n Hv Hnu) as Hv'.
  destruct (Put_spec s _ Hs Hv') as (P1 & P2 & P3). rewrite wrap64_small by (split; lia).
  set (s1 := Put s (with_index v n)) in *. rewrite slot_index, slot_count.
  pose proof (ok_address v Hv) as Ha. cbn [with_index v_address].
  set (s2 := write s1 (slot (KIndex (v_address v))) (BigToHash (n + 1))).
  assert (state_ok s2) as Hs2 by (apply write_ok; [exact P1 | apply BigToHash_ok]).
  split; [apply write_ok; [exact Hs2 | apply BigToHash_ok]|]. split.
  - intros a. unfold s2. rewrite !balance_write by (assumption || apply BigToHash_ok). apply P2.
  - intros k Hk. unfold s2. rewrite !read_write by (assumption || exact I || apply BigToHash_ok).
    rewrite (P3 k Hk). destruct k as [| | |a|l i]; try reflexivity.
    destruct (decide (KCount = KIndex a)) as [E|_]; [discriminate E|].
    destruct (decide (KIndex (v_address v) = KIndex a)) as [E|Hne].
    + injection E as <-. rewrite decide_True by reflexivity. reflexivity.
    + rewrite decide_False; [reflexivity|]. intros ->. apply Hne. reflexivity.
Qed.

Lemma repr_Append s R v : repr s R -> val_ok v -> len (r_vals R) + 1 < two64 ->
  repr (fst (Append s v)) (append R v) /\ snd (Append s v) = with_index v (len (r_vals R)).
Proof.
  intros H Hv Hn. pose proof (rp_ok _ _ H) as Hs. pose proof (repr_count _ _ H) as Hc. pose proof (len_nonneg (r_vals R)) as Hl0.
  split; [|unfold Append; cbn [snd]; rewrite Hc; reflexivity].
  destruct (Append_reads s v (len (r_vals R)) Hs Hv Hc Hn) as (H1 & Hb & Hr).
  set (n := len (r_vals R)) in *. set (s' := fst (Append s v)) in *.
  assert (u64_ok n) as Hnu by (split; lia). pose proof (with_index_ok v n Hv Hnu) as Hv'.
  assert (n + 1 < 2 ^ 256) as Hbig by (unfold two64 in Hn; lia).
  constructor; cbn [append r_vals r_index r_slashed r_epoch r_mix r_bal].
  - exact H1.
  - rewrite <- (rp_vals _ _ H), vals_len, Hc. apply (vals_snoc s _ n); [exact Hc | | |].
    + unfold Count. rewrite slot_count, (Hr KCount I), HashBig_BigToHash by lia. apply wrap64_small. split; lia.
    + intros j Hj. apply load_read. intros l Hl. rewrite (Hr (KRec l j)) by (split; lia).
      rewrite decide_False by lia. reflexivity.
    + rewrite load_eq. unfold load_from. rewrite !Hr by exact Hnu. rewrite !decide_True by (split; reflexivity).
      exact (load_from_field _ Hv').
  - intros a Haa. unfold IndexOf. rewrite slot_index, (Hr (KIndex a) Haa). destruct (decide (a = v_address v)) as [->|Hne].
    + rewrite HashBig_BigToHash by lia. destruct (Z.eqb_spec (n + 1) 0); [lia|].
      rewrite (wrap64_small (n + 1)) by (split; lia). rewrite wrap64_small by (split; lia). f_equal. lia.
    + rewrite <- (rp_index _ _ H a Haa). unfold IndexOf. rewrite slot_index. reflexivity.
  - intros e. rewrite <- (rp_slashed _ _ H e). apply Slashed_read. rewrite (Hr (KRec _ _) (window_u64 e)).
    rewrite decide_False by (intros [_ Hx]; discriminate Hx). reflexivity.
  - rewrite <- (rp_epoch _ _ H). apply Epoch_read, (Hr KEpochState I).
  - rewrite <- (rp_mix _ _ H). apply Randao_read, (Hr KRandao I).
  - intros a. rewrite <- (rp_bal _ _ H a). apply Hb.
Qed.

End Laws.

(** * The ring of slashed stake *)

(** A window of 256 consecutive epochs reads every position of the ring once. *)
Lemma window_sum (g : Z -> Z) n : zsum (map (fun e => g (e mod 256)) (seqZ (Z.of_nat n) 256)) = zsum (map g (seqZ 0 256)).
Proof.
  induction n as [|n IH].
  - reflexivity.
  - rewrite <- IH. rewrite (seqZ_cons (Z.of_nat n) 256) by lia.
    rewrite (seqZ_app (Z.of_nat (S n)) 255 1 ltac:(lia) ltac:(lia) : seqZ (Z.of_nat (S n)) 256 = _).
    change (Z.pred 256) with 255. replace (Z.succ (Z.of_nat n)) with (Z.of_nat (S n)) by lia.
    rewrite map_app, zsum_app. rewrite (seqZ_cons (Z.of_nat (S n) + 255) 1), (seqZ_nil _ (Z.pred 1)) by lia.
    cbn [map zsum fold_right]. fold (zsum (map (fun e => g (e mod 256)) (seqZ (Z.of_nat (S n)) 255))).
    replace (Z.of_nat (S n) + 255) with (Z.of_nat n + 1 * 256) by lia. rewrite Z_mod_plus_full. lia.
Qed.

(** * Instances for concrete runs *)

(** A hash that keeps a slot's preimage without its common prefix; the
    remainder is at most 32 bytes and starts with a letter. *)
Definition toy_sum (b : bytes) : Hash := BytesToHash (map wrap8 (drop 8 b)).

Lemma map_wrap8_ok b : bytes_ok (map wrap8 b).
Proof. apply Forall_map, Forall_true. intros x. apply wrap8_ok. Qed.

#[local] Instance toy_keccak : Keccak :=
  { Sum256 := toy_sum;
    Sum256_length b := fit_right_length 32 _;
    Sum256_ok b := fit_right_ok 32 _ (map_wrap8_ok _) }.

Definition key_rest (k : key) : bytes := drop 8 (key_bytes k).

Lemma key_prefix k : key_bytes k = bytes_of_string "staking/" ++ key_rest k.
Proof. destruct k as [| | |a|[] i]; reflexivity. Qed.

Lemma key_rest_ok k : key_ok k -> bytes_ok (key_rest k) /\ no_leading_zero (key_rest k) /\ (length (key_rest k) <= 32)%nat.
Proof.
  intros Hk. assert (bytes_ok (key_bytes k)) as Hb.
  { destruct k; cbn [key_bytes]; try (apply Forall_app; split); try apply bytes_of_string_ok;
      [apply Hk | apply be_bytes_ok]. }
  split; [apply Forall_drop, Hb|]. split.
  - destruct k as [| | |a|[] i]; discriminate.
  - unfold key_rest. rewrite length_drop.
    destruct k as [| | |a|[] i]; cbn [key_bytes label_string key_ok] in *;
      rewrite ?length_app, ?length_be_bytes; try match goal with H : address_ok _ |- _ => destruct H as [-> _] end; cbn; lia.
Qed.

#[local] Instance toy_slots : SlotHash toy_keccak.
Proof.
  intros k k' Hk Hk' E. destruct (key_rest_ok k Hk) as (O1 & N1 & L1), (key_rest_ok k' Hk') as (O2 & N2 & L2).
  rewrite (key_prefix k), (key_prefix k'). f_equal.
  cbn [Sum256 toy_keccak] in E. unfold toy_sum, BytesToHash in E. fold (key_rest k) in E. fold (key_rest k') in E.
  assert (forall b, bytes_ok b -> map wrap8 b = b) as Hw.
  { induction 1 as [|c r Hc Hr IH]; cbn; [reflexivity|]. rewrite wrap8_small, IH by exact Hc. reflexivity. }
  rewrite !Hw, !fit_right_short in E by assumption. apply (f_equal be_val) in E. rewrite !be_val_zeros in E.
  apply nlz_val_inj; assumption.
Qed.

(** Plain maps as a state. *)
Record map_state := mkMapState { m_store : gmap (Address * Hash) Hash; m_bal : gmap Address Z }.

#[local] Instance map_access : StateAccess :=
  { State := map_state;
    GetState s a k := default ZeroHash (m_store s !! (a, k));
    SetState s a k v := mkMapState (<[(a, k) := v]> (m_store s)) (m_bal s);
    GetBalance s a := default 0 (m_bal s !! a);
    AddBalance s a x := mkMapState (m_store s) (<[a := default 0 (m_bal s !! a) + x]> (m_bal s));
    SubBalance s a x := mkMapState (m_store s) (<[a := default 0 (m_bal s !! a) - x]> (m_bal s)) }.

#[local] Instance map_laws : StateLaws map_access.
Proof.
  refine {| state_ok s := map_Forall (fun _ => hash_ok) (m_store s) |};
    cbn [State GetState SetState GetBalance AddBalance SubBalance map_access m_store m_bal].
  - intros s a k Hs. destruct (m_store s !! (a, k)) eqn:E; [apply (Hs _ _ E) | apply zero_hash_ok].
  - intros s a k v Hs Hv. apply map_Forall_insert_2; assumption.
  - intros s a x Hs. exact Hs.
  - intros s a x Hs. exact Hs.
  - intros s a k v _ _. rewrite lookup_insert_eq. reflexivity.
  - intros s a k v a' k' _ _ Hne. rewrite lookup_insert_ne by exact Hne. reflexivity.
  - reflexivity.
  - reflexivity.
  - reflexivity.
  - intros s a x a' _. destruct (decide (a = a')) as [->|Hne];
      [rewrite lookup_insert_eq; reflexivity | rewrite lookup_insert_ne by exact Hne; rewrite Z.add_0_r; reflexivity].
  - intros s a x a' _. destruct (decide (a = a')) as [->|Hne];
      [rewrite lookup_insert_eq; reflexivity | rewrite lookup_insert_ne by exact Hne; rewrite Z.sub_0_r; reflexivity].
Defined.

Definition empty_state : map_state := mkMapState ∅ ∅.

Lemma empty_ok : state_ok empty_state.
Proof. apply map_Forall_empty. Qed.

(** * Main theorems *)

(** C31: the storage layout implements a registry: reads return what the
    abstract registry holds, and every write moves it as the record update
    says and leaves every other part alone, so no slot overlaps another. *)
Theorem registry_refines `{K : Keccak} `{SA : StateAccess} {SH : SlotHash K} {SL : StateLaws SA}
    (s : State) (R : registry) (H : repr s R) :
  All s = Ok (r_vals R) /\
  (forall i, 0 <= i -> Get s i = match r_vals R !! Z.to_nat i with Some v => Ok v | None => Err ErrNotFound end) /\
  (forall a, address_ok a -> IndexOf s a = r_index R a) /\
  (forall v, val_ok v -> v_index v < len (r_vals R) -> repr (Put s v) (put R v)) /\
  (forall v, val_ok v -> len (r_vals R) + 1 < two64 ->
     repr (fst (Append s v)) (append R v) /\ snd (Append s v) = with_index v (len (r_vals R))) /\
  (forall e, epoch_ok e -> repr (SaveEpochState s e) (set_epoch R e)) /\
  (forall e x, 0 <= x ->
     repr (AddSlashedStake s e x) (set_slashed R e ((r_slashed R (e mod SlashingWindow) + x) mod 2 ^ 256))) /\
  (forall e, repr (ResetSlashedStake s e) (set_slashed R e 0)) /\
  (forall m, hash_ok m -> repr (SetRandaoMix s m) (set_mix R m)).
Proof.
  split; [apply All_repr, H|]. split; [intros i; apply Get_repr, H|]. split; [apply (rp_index _ _ H)|].
  split; [intros v; apply repr_Put, H|]. split; [intros v; apply repr_Append, H|].
  split; [intros e; apply repr_SaveEpochState, H|]. split; [intros e x; apply repr_AddSlashedStake, H|].
  split; [intros e; apply repr_ResetSlashedStake, H | intros m; apply repr_SetRandaoMix, H].
Qed.

(** A proposer is always found in a non-empty set, is a member of it, and
    is drawn in proportion to stake: of the equally many values a draw is
    reduced to, each address gets exactly as many as its effective balance. *)
Theorem proposer_by_stake `{K : Keccak} `{SA : StateAccess} {SH : SlotHash K} {SL : StateLaws SA}
    (s : State) (epoch : Z) (Hs : state_ok s) :
  let active := active_in (abs s) epoch in
  (forall seed slot round, active <> [] ->
     exists v, List.In v active /\ ProposerAt s epoch seed slot round = Ok (v_address v)) /\
  (forall a, hits active 0 a (seqZ 0 (sum_effective active)) =
     zsum (map v_effective (List.filter (fun v => bool_decide (v_address v = a)) active))).
Proof.
  cbv zeta. pose proof (repr_abs s Hs) as H. set (active := active_in (abs s) epoch).
  assert (Forall (fun v => 0 <= v_effective v) active) as Hpos.
  { apply List.Forall_forall. intros v Hv. apply List.filter_In in Hv as [Hv _].
    pose proof (repr_vals_ok s _ H) as Hall. apply list_elem_of_In in Hv.
    rewrite Forall_forall in Hall. specialize (Hall v Hv). rewrite (ok_effective v Hall).
    pose proof (effective_bounds (v_balance v) ltac:(apply (ok_balance v Hall))). lia. }
  split; [|intros a; rewrite sum_effective_zsum; apply hits_stake, Hpos].
  intros seed slot round Hne. unfold ProposerAt. rewrite (ActiveAt_repr s _ epoch H). cbn [rbind]. fold active.
  assert (0 < len active) as Hlen.
  { destruct active as [|v l]; [contradiction|]. rewrite len_cons. pose proof (len_nonneg l). lia. }
  destruct (Z.eqb_spec (len active) 0); [lia|].
  destruct (Z.eqb_spec (sum_effective active) 0) as [E0|E0].
  - pose proof (Z.mod_pos_bound (slot +w round) (len active) Hlen) as Hm.
    destruct (nth_error active (Z.to_nat ((slot +w round) mod len active))) as [v|] eqn:E;
      [|apply List.nth_error_None in E; unfold len in Hm, E; lia].
    exists v. split; [exact (List.nth_error_In _ _ E)|]. f_equal. apply List.nth_error_nth.
    rewrite List.nth_error_map, E. reflexivity.
  - pose proof (zsum_nonneg (map v_effective active)) as Hz. rewrite Forall_map in Hz. specialize (Hz Hpos).
    rewrite sum_effective_zsum in *.
    pose proof (Z.mod_pos_bound (HashBig (draw seed slot round)) (zsum (map v_effective active)) ltac:(lia)) as Hm.
    destruct (pick_total active 0 _ ltac:(exact (proj2 Hm)) ltac:(lia)) as [a Ea]. rewrite Ea.
    destruct (pick_spec active Hpos 0 _ a (proj1 Hm) Ea) as (v & Hv & <-). eauto.
Qed.

(** [CorrelatedSlashedStake] adds 257 entries of a ring of 256.  From epoch
    256 on it counts the current epoch's slashed stake twice; before that it is
    the sum of the epochs so far. *)
Theorem correlation_window `{K : Keccak} `{SA : StateAccess}
    (s : State) (epoch : Z) (H0 : 0 <= epoch) :
  CorrelatedSlashedStake s epoch =
    if epoch <? SlashingWindow then zsum (map (SlashedStakeIn s) (seqZ 0 (epoch + 1)))
    else zsum (map (SlashedStakeIn s) (seqZ 0 SlashingWindow)) + SlashedStakeIn s epoch.
Proof.
  unfold CorrelatedSlashedStake. rewrite fold_sum, Z.add_0_l. change SlashingWindow with 256.
  destruct (Z.ltb_spec epoch 256) as [Hlt|Hge].
  { destruct (Z.ltb_spec 256 epoch); [lia|]. rewrite Z.sub_0_r. reflexivity. }
  assert ((if 256 <? epoch then epoch - 256 else 0) = epoch - 256) as -> by (destruct (Z.ltb_spec 256 epoch); lia).
  replace (epoch - (epoch - 256) + 1) with (256 + 1) by lia. rewrite seqZ_app, map_app, zsum_app by lia.
  replace (epoch - 256 + 256) with epoch by lia. rewrite (seqZ_cons epoch), (seqZ_nil _ (Z.pred 1)) by lia.
  cbn [map]. change (zsum [SlashedStakeIn s epoch]) with (SlashedStakeIn s epoch + 0). rewrite Z.add_0_r. f_equal.
  pose proof (window_sum (SlashedStakeIn s) (Z.to_nat (epoch - 256))) as Hw. rewrite Z2Nat.id in Hw by lia.
  rewrite <- Hw. f_equal. apply map_ext. intros e.
  unfold SlashedStakeIn, slotSlashedStake. change SlashingWindow with 256. rewrite Zmod_mod. reflexivity.
Qed.

(** ** Witnesses *)

Definition sample_address (n : Z) : Address := BytesToAddress [n].
Definition sample_validator (n balance : Z) : Validator :=
  mkValidator 0 (sample_address n) (sample_address (n + 100)) [] balance (computeEffectiveBalance balance)
    StatusActive 0 FarFutureEpoch FarFutureEpoch 0.

(** Two validators, with 32 and 20 units of effective balance. *)
Definition sample_registry : map_state :=
  fst (Append (SA := map_access) (fst (Append (SA := map_access) empty_state (sample_validator 1 (40 * Ether))))
     (sample_validator 2 (20 * Ether + 5))).

Lemma sample_val_ok n b : 0 <= n < 100 -> 0 <= b < 2 ^ 256 -> val_ok (sample_validator n b).
Proof.
  intros Hn Hb. constructor;
    cbn [sample_validator v_index v_address v_withdrawal v_bls v_balance v_effective v_status v_activation v_exit
         v_withdrawable v_slashed]; try (split; [lia | reflexivity]).
  - apply BytesToAddress_ok. constructor; [unfold byte_ok; lia | constructor].
  - apply BytesToAddress_ok. constructor; [unfold byte_ok; lia | constructor].
  - left. reflexivity.
  - exact Hb.
  - reflexivity.
  - split; [split; [discriminate | reflexivity] | reflexivity].
  - split; [discriminate | reflexivity].
  - split; [discriminate | reflexivity].
Qed.

Lemma registry_refines_witness :
  exists v, All (SA := map_access) (fst (Append (SA := map_access) empty_state (sample_validator 1 (40 * Ether)))) = Ok [v] /\
    v_effective v = 32 * Ether.
Proof.
  destruct (registry_refines (SA := map_access) empty_state (abs (SA := map_access) empty_state) (repr_abs (SA := map_access) _ empty_ok)) as (_ & _ & _ & _ & Happ & _).
  destruct (Happ (sample_validator 1 (40 * Ether))) as [Hr _].
  - apply sample_val_ok; [lia | split; [discriminate | reflexivity]].
  - vm_compute. reflexivity.
  - eexists. split; [exact (All_repr _ _ Hr) | reflexivity].
Defined.

Lemma sample_registry_ok : state_ok (SA := map_access) sample_registry.
Proof.
  assert (forall s n b, state_ok (SA := map_access) s -> 0 <= n < 100 -> 0 <= b < 2 ^ 256 -> Count (SA := map_access) s + 1 < two64 ->
    state_ok (SA := map_access) (fst (Append (SA := map_access) s (sample_validator n b)))) as Hstep.
  { intros s n b Hs Hn Hb Hc. apply (Append_reads (SA := map_access) s _ _ Hs (sample_val_ok n b Hn Hb) eq_refl Hc). }
  apply Hstep; [apply Hstep; [exact empty_ok | lia | split; [discriminate | reflexivity] | vm_compute; reflexivity]
    | lia | split; [discriminate | reflexivity] | vm_compute; reflexivity].
Qed.

Lemma proposer_by_stake_witness :
  exists a, ProposerAt (SA := map_access) sample_registry 3 ZeroHash 7 0 = Ok a /\
    (a = sample_address 1 \/ a = sample_address 2).
Proof.
  destruct (proposer_by_stake (SA := map_access) sample_registry 3 sample_registry_ok) as [H _].
  destruct (H ZeroHash 7 0) as (v & Hv & E); [vm_compute; discriminate|].
  exists (v_address v). split; [exact E|].
  assert (map v_address (active_in (abs (SA := map_access) sample_registry) 3) = [sample_address 1; sample_address 2]) as Hm
    by (vm_compute; reflexivity).
  apply (List.in_map v_address) in Hv. rewrite Hm in Hv. destruct Hv as [<-|[<-|[] ] ]; auto.
Defined.

(** Ten units slashed in epoch 300 are counted as twenty. *)
Lemma correlation_window_witness :
  CorrelatedSlashedStake (SA := map_access) (AddSlashedStake (SA := map_access) empty_state 300 10) 300 = 20.
Proof.
  rewrite (correlation_window (SA := map_access) (AddSlashedStake (SA := map_access) empty_state 300 10) 300 ltac:(lia)).
  vm_compute. reflexivity.
Defined.

End Reg.
