(* ===== verification/Lifecycle.v ===== *)
(** The validator lifecycle (src/staking/lifecycle.go).

    A [Manager] is a state; every operation takes the state and returns the
    state after it with a value or an error.  [ProcessEpoch] is cut into the
    numbered steps of the source, in their order.  The theorems are proved
    through the abstract registry of Registry.v. *)

From stdpp Require Import base list list_numbers sorting gmap relations.
From Stdlib Require Import ZArith Lia.
From S2P Require Import Prelude Common Attestation Registry.
Import Reg.
Local Open Scope Z_scope.
Local Open Scope go_scope.

(** Proofs of possession, next to the signature scheme of Attestation.v. *)
Class BlsPossession (B : Bls) := VerifyPossession : PublicKey -> Signature -> bool.

Module Life.

(** * Records *)

Definition with_balance (v : Validator) (balance : Z) : Validator :=
  mkValidator (v_index v) (v_address v) (v_withdrawal v) (v_bls v) balance (computeEffectiveBalance balance)
    (v_status v) (v_activation v) (v_exit v) (v_withdrawable v) (v_slashed v).

Definition with_bls (v : Validator) (key : bytes) : Validator :=
  mkValidator (v_index v) (v_address v) (v_withdrawal v) key (v_balance v) (v_effective v)
    (v_status v) (v_activation v) (v_exit v) (v_withdrawable v) (v_slashed v).

Definition with_status (v : Validator) (st : Status) : Validator :=
  mkValidator (v_index v) (v_address v) (v_withdrawal v) (v_bls v) (v_balance v) (v_effective v)
    st (v_activation v) (v_exit v) (v_withdrawable v) (v_slashed v).

Definition with_activation (v : Validator) (epoch : Z) : Validator :=
  mkValidator (v_index v) (v_address v) (v_withdrawal v) (v_bls v) (v_balance v) (v_effective v)
    (v_status v) epoch (v_exit v) (v_withdrawable v) (v_slashed v).

Definition with_exit (v : Validator) (exit withdrawable : Z) : Validator :=
  mkValidator (v_index v) (v_address v) (v_withdrawal v) (v_bls v) (v_balance v) (v_effective v)
    (v_status v) (v_activation v) exit withdrawable (v_slashed v).

Definition with_slashed (v : Validator) (epoch : Z) : Validator :=
  mkValidator (v_index v) (v_address v) (v_withdrawal v) (v_bls v) (v_balance v) (v_effective v)
    (v_status v) (v_activation v) (v_exit v) (v_withdrawable v) epoch.

Record Participation := mkParticipation
  { Attested : gset Address;
    Proposers : gmap Address Z }.

Definition NewParticipation : Participation := mkParticipation ∅ ∅.
Definition MarkAttested (p : Participation) (addr : Address) : Participation :=
  mkParticipation (Attested p ∪ {[addr]}) (Proposers p).
Definition proposed_by (p : Participation) (addr : Address) : Z := default 0 (Proposers p !! addr).
Definition MarkProposed (p : Participation) (addr : Address) : Participation :=
  mkParticipation (Attested p) (<[addr := proposed_by p addr +w 1]> (Proposers p)).

Record EpochReport := mkReport
  { rep_epoch : Z;
    rep_activated : list Address;
    rep_exited : list Address;
    rep_ejected : list Address;
    rep_rewarded : Z;
    rep_penalised : Z;
    rep_correlated : list Address;
    rep_issued : Z;
    rep_burned : Z;
    rep_leak : bool }.

Definition new_report (epoch : Z) : EpochReport := mkReport epoch [] [] [] 0 0 [] 0 0 false.
Definition add_exited (r : EpochReport) (a : Address) : EpochReport :=
  mkReport (rep_epoch r) (rep_activated r) (rep_exited r ++ [a]) (rep_ejected r) (rep_rewarded r) (rep_penalised r)
    (rep_correlated r) (rep_issued r) (rep_burned r) (rep_leak r).
Definition set_leak (r : EpochReport) (b : bool) : EpochReport :=
  mkReport (rep_epoch r) (rep_activated r) (rep_exited r) (rep_ejected r) (rep_rewarded r) (rep_penalised r)
    (rep_correlated r) (rep_issued r) (rep_burned r) b.
Definition add_reward (r : EpochReport) (x : Z) : EpochReport :=
  mkReport (rep_epoch r) (rep_activated r) (rep_exited r) (rep_ejected r) (rep_rewarded r + 1) (rep_penalised r)
    (rep_correlated r) (rep_issued r + x) (rep_burned r) (rep_leak r).
Definition add_penalty (r : EpochReport) (x : Z) : EpochReport :=
  mkReport (rep_epoch r) (rep_activated r) (rep_exited r) (rep_ejected r) (rep_rewarded r) (rep_penalised r + 1)
    (rep_correlated r) (rep_issued r) (rep_burned r + x) (rep_leak r).
Definition add_correlated (r : EpochReport) (a : Address) (x : Z) : EpochReport :=
  mkReport (rep_epoch r) (rep_activated r) (rep_exited r) (rep_ejected r) (rep_rewarded r) (rep_penalised r)
    (rep_correlated r ++ [a]) (rep_issued r) (rep_burned r + x) (rep_leak r).
Definition add_ejected (r : EpochReport) (a : Address) : EpochReport :=
  mkReport (rep_epoch r) (rep_activated r) (rep_exited r) (rep_ejected r ++ [a]) (rep_rewarded r) (rep_penalised r)
    (rep_correlated r) (rep_issued r) (rep_burned r) (rep_leak r).
Definition add_activated (r : EpochReport) (a : Address) : EpochReport :=
  mkReport (rep_epoch r) (rep_activated r ++ [a]) (rep_exited r) (rep_ejected r) (rep_rewarded r) (rep_penalised r)
    (rep_correlated r) (rep_issued r) (rep_burned r) (rep_leak r).

Definition baseReward (effectiveBalance totalStake : Z) : Z :=
  if totalStake <=? 0 then 0
  else
    let root := Z.sqrt totalStake in
    if root =? 0 then 0 else effectiveBalance * BaseRewardFactor / root / 4.

(** [pending[i].Index < pending[j].Index] of the sort in step 5, as a total preorder. *)
Definition index_le (v w : Validator) : Prop := v_index v <= v_index w.
#[export] Instance index_le_dec v w : Decision (index_le v w) := decide (v_index v <= v_index w).

Section Manager.
Context `{K : Keccak} `{SA : StateAccess} {B : Bls} {BP : BlsPossession B}.

(** * Deposits *)

Definition Deposit (s : State) (validator withdrawal : Address) (amount epoch : Z)
    : State * result error Validator :=
  match ByAddress s validator with
  | Ok existing =>
      match v_status existing with
      | StatusExited | StatusSlashed | StatusWithdrawn => (s, Err ErrLeftTheSet)
      | _ =>
          let existing := with_balance existing (v_balance existing + amount) in
          (Put s existing, Ok existing)
      end
  | Err _ =>
      if amount <? MinDeposit then (s, Err ErrBelowMinimum)
      else
        let v := mkValidator 0 validator withdrawal [] amount (computeEffectiveBalance amount) StatusPending
                   FarFutureEpoch FarFutureEpoch FarFutureEpoch 0 in
        let (s, v) := Append s v in (s, Ok v)
  end.

Definition DepositWithKey (s : State) (validator withdrawal : Address) (blsKey possession : bytes) (amount epoch : Z)
    : State * result error Validator :=
  if negb (len blsKey =? BLSPublicKeyLength) then (s, Err ErrBadBLSKey)
  else match PublicKeyFromBytes blsKey with
  | None => (s, Err ErrBadBLSKey)
  | Some pub =>
      match SignatureFromBytes possession with
      | None => (s, Err ErrBadPossession)
      | Some proof =>
          if negb (VerifyPossession pub proof) then (s, Err ErrBadPossession)
          else match Deposit s validator withdrawal amount epoch with
          | (s, Err e) => (s, Err e)
          | (s, Ok v) =>
              if len (v_bls v) =? 0 then let v := with_bls v blsKey in (Put s v, Ok v) else (s, Ok v)
          end
      end
  end.

(** * Exits *)

Definition active_count (s : State) (epoch : Z) : Z :=
  match ActiveAt s epoch with Ok l => len l | Err _ => 0 end.

(** The queue record after one more exit. *)
Definition queue_exit (st : EpochState) (epoch limit : Z) : EpochState :=
  let earliest := epoch +w MinActivationDelay in
  let st := if es_queue_epoch st <? earliest
            then mkEpochState (es_last st) (es_finalized st) earliest 0 else st in
  let st := if limit <=? es_queue_count st
            then mkEpochState (es_last st) (es_finalized st) (es_queue_epoch st +w 1) 0 else st in
  mkEpochState (es_last st) (es_finalized st) (es_queue_epoch st) (es_queue_count st +w 1).

Definition scheduleExit (s : State) (epoch : Z) : State * Z :=
  let st := queue_exit (LoadEpochState s) epoch (ChurnLimit (active_count s epoch)) in
  (SaveEpochState s st, es_queue_epoch st).

Definition RequestExit (s : State) (validator : Address) (epoch : Z) : State * result error Validator :=
  match ByAddress s validator with
  | Err e => (s, Err e)
  | Ok v =>
      match v_status v with
      | StatusActive =>
          let (s, exitEpoch) := scheduleExit s epoch in
          let v := with_exit (with_status v StatusExiting) exitEpoch (exitEpoch +w WithdrawalDelay) in
          (Put s v, Ok v)
      | StatusPending =>
          let v := with_exit (with_status v StatusExited) epoch (epoch +w WithdrawalDelay) in
          (Put s v, Ok v)
      | _ => (s, Err ErrNotActive)
      end
  end.

(** * Slashing *)

Definition slash_penalty (v : Validator) : Z :=
  let penalty := v_effective v / SlashPenaltyQuotient in
  if v_balance v <? penalty then v_balance v else penalty.

Definition slashed_record (v : Validator) (epoch : Z) : Validator :=
  with_exit (with_slashed (with_status (with_balance v (v_balance v - slash_penalty v)) StatusSlashed) epoch)
    epoch (epoch +w WithdrawalDelay).

Definition Slash (s : State) (validator : Address) (epoch : Z) : State * result error (Validator * Z) :=
  match ByAddress s validator with
  | Err e => (s, Err e)
  | Ok v =>
      match v_status v with
      | StatusSlashed => (s, Err ErrAlreadySlashed)
      | StatusExited | StatusWithdrawn => (s, Err ErrLeftTheSet)
      | _ =>
          let penalty := slash_penalty v in
          let v := slashed_record v epoch in
          let s := Put s v in
          let s := AddSlashedStake s epoch (v_effective v) in
          (SubBalance s StakingAddress penalty, Ok (v, penalty))
      end
  end.

(** One validator of the correlation loop. *)
Definition correlation_penalty (correlated totalStake : Z) (v : Validator) : Z :=
  let scaled := correlated * CorrelationPenaltyMultiplier in
  let scaled := if totalStake <? scaled then totalStake else scaled in
  let penalty := v_effective v * scaled / totalStake in
  if v_balance v <? penalty then v_balance v else penalty.

Definition correlation_due (epoch : Z) (v : Validator) : bool :=
  bool_decide (v_status v = StatusSlashed) && negb (v_balance v =? 0)
  && (v_slashed v +w CorrelationPenaltyEpochOffset =? epoch).

Definition correlate_one (epoch correlated totalStake : Z) (sr : State * EpochReport) (v : Validator)
    : State * EpochReport :=
  if negb (correlation_due epoch v) then sr
  else
    let penalty := correlation_penalty correlated totalStake v in
    if penalty =? 0 then sr
    else
      let s := Put (fst sr) (with_balance v (v_balance v - penalty)) in
      (SubBalance s StakingAddress penalty, add_correlated (snd sr) (v_address v) penalty).

Definition applyCorrelationPenalties (s : State) (epoch : Z) (report : EpochReport)
    : State * result error EpochReport :=
  match All s, TotalActiveStake s epoch with
  | Err e, _ => (s, Err e)
  | Ok all, Err e => (s, Err e)
  | Ok all, Ok totalStake =>
      if totalStake =? 0 then (s, Ok report)
      else
        let correlated := CorrelatedSlashedStake s epoch in
        let correlated := if totalStake <? correlated then totalStake else correlated in
        let (s, report) := fold_left (correlate_one epoch correlated totalStake) all (s, report) in
        (s, Ok report)
  end.

(** * Withdrawals *)

Definition withdrawn_record (v : Validator) : Validator := with_status (with_balance v 0) StatusWithdrawn.

Definition Withdraw (s : State) (validator : Address) (epoch : Z) : State * result error Z :=
  match ByAddress s validator with
  | Err e => (s, Err e)
  | Ok v =>
      match v_status v with
      | StatusExited | StatusSlashed =>
          if epoch <? v_withdrawable v then (s, Err ErrNotWithdrawable)
          else
            let amount := v_balance v in
            let s := Put s (withdrawn_record v) in
            let s := SubBalance s StakingAddress amount in
            (AddBalance s (v_withdrawal v) amount, Ok amount)
      | StatusWithdrawn => (s, Err ErrAlreadyWithdrawn)
      | _ => (s, Err ErrNotWithdrawable)
      end
  end.

(** * The epoch transition *)

(** Step 1: exits whose epoch has arrived. *)
Definition finish_exit (epoch : Z) (sr : State * EpochReport) (v : Validator) : State * EpochReport :=
  if bool_decide (v_status v = StatusExiting) && (v_exit v <=? epoch)
  then (Put (fst sr) (with_status v StatusExited), add_exited (snd sr) (v_address v))
  else sr.

(** Step 2: rewards and penalties. *)
Definition reward_of (base proposed : Z) : Z :=
  if 0 <? proposed then base + base / ProposerRewardQuotient * proposed else base.

Definition absence_penalty (base finalityDelay : Z) (leak : bool) (v : Validator) : Z :=
  let penalty := if leak then base + v_effective v * finalityDelay / InactivityPenaltyQuotient else base in
  if v_balance v <? penalty then v_balance v else penalty.

Definition settle_one (totalStake finalityDelay : Z) (participation : Participation)
    (sr : State * EpochReport) (v : Validator) : State * EpochReport :=
  let (s, report) := sr in
  let base := baseReward (v_effective v) totalStake in
  if bool_decide (v_address v ∈ Attested participation)
  then
    let reward := reward_of base (proposed_by participation (v_address v)) in
    (Put s (with_balance v (v_balance v + reward)), add_reward report reward)
  else
    let penalty := absence_penalty base finalityDelay (rep_leak report) v in
    (Put s (with_balance v (v_balance v - penalty)), add_penalty report penalty).

Definition settle_balances (s : State) (report : EpochReport) : State :=
  let s := if 0 <? rep_issued report then AddBalance s StakingAddress (rep_issued report) else s in
  if 0 <? rep_burned report then SubBalance s StakingAddress (rep_burned report) else s.

(** Step 4: ejections.  The loop stops at the first error. *)
Fixpoint eject_loop (epoch : Z) (active : list Validator) (s : State) (report : EpochReport)
    : State * result error EpochReport :=
  match active with
  | [] => (s, Ok report)
  | v :: rest =>
      match Get s (v_index v) with
      | Err e => (s, Err e)
      | Ok current =>
          if bool_decide (v_status current = StatusActive) && (v_balance current <? EjectionBalance)
          then match RequestExit s (v_address current) epoch with
               | (s, Ok _) => eject_loop epoch rest s (add_ejected report (v_address current))
               | (s, Err _) => eject_loop epoch rest s report
               end
          else eject_loop epoch rest s report
      end
  end.

(** Step 5: activations, oldest first, up to the churn limit. *)
Fixpoint collect_pending (s : State) (all : list Validator) : result error (list Validator) :=
  match all with
  | [] => Ok []
  | v :: rest =>
      let! refreshed := Get s (v_index v) in
      let! pending := collect_pending s rest in
      if bool_decide (v_status refreshed = StatusPending) && (MinDeposit <=? v_balance refreshed)
      then Ok (refreshed :: pending) else Ok pending
  end.

Definition activate_one (epoch : Z) (sr : State * EpochReport) (v : Validator) : State * EpochReport :=
  (Put (fst sr) (with_activation (with_status v StatusActive) (epoch +w MinActivationDelay)),
   add_activated (snd sr) (v_address v)).

Definition activate (s : State) (epoch : Z) (all : list Validator) (report : EpochReport)
    : State * result error EpochReport :=
  match ActiveAt s epoch, collect_pending s all with
  | Err e, _ => (s, Err e)
  | Ok _, Err e => (s, Err e)
  | Ok activeAfter, Ok pending =>
      let limit := ChurnLimit (len activeAfter) in
      let (s, report) := fold_left (activate_one epoch) (take (Z.to_nat limit) (merge_sort index_le pending)) (s, report) in
      (s, Ok report)
  end.

Definition finality_delay (epoch finalizedEpoch : Z) : Z :=
  if finalizedEpoch <? epoch then epoch - finalizedEpoch else 0.

(** Steps 1 and 2, up to the movement of the staking account's balance. *)
Definition settle (s : State) (epoch : Z) (participation : option Participation) (finalizedEpoch : Z)
    (all : list Validator) (report : EpochReport) : State * result error (EpochReport * list Validator) :=
  let (s, report) := fold_left (finish_exit epoch) all (s, report) in
  match ActiveAt s epoch with
  | Err e => (s, Err e)
  | Ok active =>
      let totalStake := sum_effective active in
      let delay := finality_delay epoch finalizedEpoch in
      let report := set_leak report (InactivityLeakThreshold <? delay) in
      let (s, report) :=
        match participation with
        | Some p => if 0 <? totalStake then fold_left (settle_one totalStake delay p) active (s, report) else (s, report)
        | None => (s, report)
        end in
      (settle_balances s report, Ok (report, active))
  end.

Definition ProcessEpoch (s : State) (epoch : Z) (participation : option Participation) (finalizedEpoch : Z)
    : State * result error EpochReport :=
  let state := LoadEpochState s in
  if (epoch <=? es_last state) && negb (es_last state =? 0) then (s, Err ErrEpochProcessed)
  else match All s with
  | Err e => (s, Err e)
  | Ok all =>
      match settle s epoch participation finalizedEpoch all (new_report epoch) with
      | (s, Err e) => (s, Err e)
      | (s, Ok (report, active)) =>
          match applyCorrelationPenalties s epoch report with
          | (s, Err e) => (s, Err e)
          | (s, Ok report) =>
              let s := ResetSlashedStake s (epoch +w 1) in
              match eject_loop epoch active s report with
              | (s, Err e) => (s, Err e)
              | (s, Ok report) =>
                  match activate s epoch all report with
                  | (s, Err e) => (s, Err e)
                  | (s, Ok report) =>
                      let state := mkEpochState epoch finalizedEpoch (es_queue_epoch state) (es_queue_count state) in
                      (SaveEpochState s state, Ok report)
                  end
              end
          end
      end
  end.

Definition TotalStaked (s : State) : result error Z :=
  let! all := All s in Ok (fold_left (fun total v => total + v_balance v) all 0).

End Manager.

(** * How a record may evolve *)

(** The steps of a validator's status the code takes. *)
Inductive status_step : Status -> Status -> Prop :=
| step_activate : status_step StatusPending StatusActive
| step_cancel : status_step StatusPending StatusExited
| step_exit : status_step StatusActive StatusExiting
| step_exited : status_step StatusExiting StatusExited
| step_slash st : st <> StatusExited -> st <> StatusSlashed -> st <> StatusWithdrawn -> status_step st StatusSlashed
| step_withdraw : status_step StatusExited StatusWithdrawn
| step_withdraw_slashed : status_step StatusSlashed StatusWithdrawn.

(** Once an exit is scheduled the stake is locked for the withdrawal delay. *)
Definition locked (v : Validator) : Prop :=
  match v_status v with
  | StatusExiting | StatusExited | StatusSlashed | StatusWithdrawn => v_withdrawable v = v_exit v +w WithdrawalDelay
  | _ => True
  end.

Record evolves (v v' : Validator) : Prop := mk_evolves
  { ev_index : v_index v' = v_index v;
    ev_address : v_address v' = v_address v;
    ev_withdrawal : v_withdrawal v' = v_withdrawal v;
    ev_bls : v_bls v <> [] -> v_bls v' = v_bls v;
    ev_status : rtc status_step (v_status v) (v_status v');
    ev_locked : locked v -> locked v' }.

#[export] Instance evolves_preorder : PreOrder evolves.
Proof.
  split.
  - intros v. constructor; auto. apply rtc_refl.
  - intros u v w [H1 H2 H3 Hb H4 H5] [G1 G2 G3 Gb G4 G5]. constructor; try congruence.
    + intros Hne. rewrite <- (Hb Hne). apply Gb. rewrite (Hb Hne). exact Hne.
    + etrans; eassumption.
    + auto.
Qed.

(** Records are never removed or reordered, and each evolves. *)
Definition vals_evolve (l l' : list Validator) : Prop :=
  forall i v, l !! i = Some v -> exists v', l' !! i = Some v' /\ evolves v v'.

#[export] Instance vals_evolve_preorder : PreOrder vals_evolve.
Proof.
  split.
  - intros l i v Hv. exists v. split; [exact Hv | reflexivity].
  - intros l l' l'' H H' i v Hv. destruct (H i v Hv) as (v' & Hv' & E).
    destruct (H' i v' Hv') as (v'' & Hv'' & E'). exists v''. split; [exact Hv'' | etrans; eassumption].
Qed.

Lemma vals_evolve_insert l i v v' : l !! i = Some v -> evolves v v' -> vals_evolve l (<[i := v']> l).
Proof.
  intros Hi He j w Hj. destruct (decide (i = j)) as [<-|Hne].
  - exists v'. rewrite list_lookup_insert_eq by (apply (lookup_lt_Some _ _ _ Hi)). split; [reflexivity|]. congruence.
  - exists w. rewrite list_lookup_insert_ne by exact Hne. split; [exact Hj | reflexivity].
Qed.

Lemma vals_evolve_app l r : vals_evolve l (l ++ r).
Proof. intros i v Hi. exists v. split; [apply lookup_app_l_Some, Hi | reflexivity]. Qed.

Lemma vals_evolve_len l l' : vals_evolve l l' -> len l <= len l'.
Proof.
  intros H. unfold len. destruct (decide (length l = 0%nat)) as [E|E]; [lia|].
  destruct (lookup_lt_is_Some_2 l (length l - 1)%nat) as [v Hv]; [lia|].
  destruct (H _ _ Hv) as (v' & Hv' & _). apply lookup_lt_Some in Hv'. lia.
Qed.

(** * The stake and what backs it *)

Definition total (R : registry) : Z := zsum (map v_balance (r_vals R)).

(** What the staking account holds beyond the validators' balances. *)
Definition surplus (R : registry) : Z := r_bal R StakingAddress - total R.

Lemma zsum_insert {A} (f : A -> Z) l i x y : l !! i = Some x ->
  zsum (map f (<[i := y]> l)) = zsum (map f l) - f x + f y.
Proof.
  revert i. induction l as [|z l IH]; intros [|i] Hi; cbn [lookup list_lookup] in Hi; try discriminate.
  - injection Hi as ->. cbn [insert list_insert map zsum fold_right]. lia.
  - cbn [insert list_insert map zsum fold_right]. fold (zsum (map f l)).
    specialize (IH i Hi). unfold zsum at 2 in IH. cbn in IH.
    change (fold_right Z.add 0 (map f (<[i := y]> l))) with (zsum (map f (<[i := y]> l))). rewrite (IH). unfold zsum. lia.
Qed.

Lemma zsum_member {A} (f : A -> Z) l i x : Forall (fun y => 0 <= f y) l -> l !! i = Some x -> f x <= zsum (map f l).
Proof.
  intros Hl. revert i. induction Hl as [|z l Hz Hl IH]; intros [|i] Hi; cbn [lookup list_lookup] in Hi; try discriminate.
  - injection Hi as ->. cbn [map zsum fold_right]. pose proof (zsum_nonneg (map f l)) as Hn.
    rewrite Forall_map in Hn. specialize (Hn Hl). unfold zsum in Hn. lia.
  - cbn [map zsum fold_right]. specialize (IH i Hi). unfold zsum in IH. lia.
Qed.

(** [step_ok A d R R']: records evolve, the lock discipline is kept, the surplus
    moves by [d], and only the records at the indices [A] become active. *)
Record step_ok (A : list Z) (d : Z) (R R' : registry) : Prop := mk_step_ok
  { st_vals : vals_evolve (r_vals R) (r_vals R');
    st_surplus : surplus R' = surplus R + d;
    st_locked : Forall locked (r_vals R) -> Forall locked (r_vals R');
    st_active : forall i v v', r_vals R !! i = Some v -> r_vals R' !! i = Some v' ->
      v_status v' = StatusActive -> v_status v = StatusActive \/ Z.of_nat i ∈ A }.

Lemma step_refl R : step_ok [] 0 R R.
Proof. constructor; [reflexivity | lia | auto |]. intros i v v' H H' E. left. congruence. Qed.

Lemma step_trans A A' d d' R R' R'' : step_ok A d R R' -> step_ok A' d' R' R'' -> step_ok (A ++ A') (d + d') R R''.
Proof.
  intros [H1 H2 H3 H4] [G1 G2 G3 G4]. constructor; [etrans; eassumption | lia | auto |].
  intros i v v'' Hv Hv'' E. destruct (H1 i v Hv) as (v' & Hv' & _). rewrite elem_of_app.
  destruct (G4 i v' v'' Hv' Hv'' E) as [E'|]; [|auto]. destruct (H4 i v v' Hv Hv' E'); auto.
Qed.

Lemma step_quiet d d' R R' R'' : step_ok [] d R R' -> step_ok [] d' R' R'' -> step_ok [] (d + d') R R''.
Proof. apply (step_trans [] []). Qed.

Lemma step_eq A d d' R R' : step_ok A d R R' -> d = d' -> step_ok A d' R R'.
Proof. intros H <-. exact H. Qed.

Lemma step_put A R v v' : r_vals R !! Z.to_nat (v_index v') = Some v -> evolves v v' -> 0 <= v_index v' ->
  (v_status v' = StatusActive -> v_status v = StatusActive \/ v_index v' ∈ A) ->
  step_ok A (v_balance v - v_balance v') R (put R v').
Proof.
  intros Hv He Hi Ha. constructor; cbn [put r_vals].
  - apply (vals_evolve_insert _ _ v); assumption.
  - unfold surplus, total. cbn [put r_vals r_bal]. rewrite (zsum_insert v_balance _ _ v v' Hv). lia.
  - intros Hl. apply Forall_insert; [exact Hl|]. apply (ev_locked _ _ He). rewrite Forall_lookup in Hl. apply (Hl _ _ Hv).
  - intros i w w' Hw Hw' E. destruct (decide (Z.to_nat (v_index v') = i)) as [<-|Hne].
    + rewrite list_lookup_insert_eq in Hw' by (apply (lookup_lt_Some _ _ _ Hv)). injection Hw' as <-.
      rewrite Z2Nat.id by exact Hi. rewrite Hv in Hw. injection Hw as <-. apply Ha, E.
    + rewrite list_lookup_insert_ne in Hw' by exact Hne. left. congruence.
Qed.

Lemma step_append R v : locked v -> step_ok [] (- v_balance v) R (append R v).
Proof.
  intros Hl. constructor; cbn [append r_vals].
  - apply vals_evolve_app.
  - unfold surplus, total. cbn [append r_vals r_bal]. rewrite map_app, zsum_app. cbn. lia.
  - intros H. apply Forall_app. split; [exact H|]. constructor; [exact Hl | constructor].
  - intros i w w' Hw Hw' E. rewrite (lookup_app_l_Some _ _ _ _ Hw) in Hw'. left. congruence.
Qed.

(** A step that leaves the records alone. *)
Lemma step_frame R R' d : r_vals R' = r_vals R -> surplus R' = surplus R + d -> step_ok [] d R R'.
Proof.
  intros E Hd. constructor; rewrite ?E; [reflexivity | exact Hd | auto |].
  intros i v v' Hv Hv' Hs. left. congruence.
Qed.

Lemma step_bal R a x : step_ok [] (if decide (a = StakingAddress) then x else 0) R (add_bal R a x).
Proof. apply step_frame; [reflexivity|]. unfold surplus, total. cbn [add_bal r_vals r_bal]. lia. Qed.

Lemma step_epoch R e : step_ok [] 0 R (set_epoch R e).
Proof. apply step_frame; [reflexivity | symmetry; apply Z.add_0_r]. Qed.

Lemma step_slashed R e x : step_ok [] 0 R (set_slashed R e x).
Proof. apply step_frame; [reflexivity | symmetry; apply Z.add_0_r]. Qed.

(** * Updated records are well formed and evolve *)

Lemma with_balance_ok v b : val_ok v -> 0 <= b < 2 ^ 256 -> val_ok (with_balance v b).
Proof. intros [] Hb. constructor; auto. Qed.
Lemma with_status_ok v st : val_ok v -> status_ok st -> val_ok (with_status v st).
Proof. intros [] Hs. constructor; auto. Qed.
Lemma with_activation_ok v e : val_ok v -> u64_ok e -> val_ok (with_activation v e).
Proof. intros [] He. constructor; auto. Qed.
Lemma with_exit_ok v e w : val_ok v -> u64_ok e -> u64_ok w -> val_ok (with_exit v e w).
Proof. intros [] He Hw. constructor; auto. Qed.
Lemma with_slashed_ok v e : val_ok v -> 0 <= e < 2 ^ 56 -> val_ok (with_slashed v e).
Proof. intros [] He. constructor; auto. Qed.
Lemma with_bls_ok v k : val_ok v -> length k = 48%nat -> bytes_ok k -> isZeroBytes k = false -> val_ok (with_bls v k).
Proof. intros [] Hl Hk Hz. constructor; auto. Qed.

Lemma status_active_ok : status_ok StatusActive.
Proof. split; [split; [discriminate | reflexivity] | reflexivity]. Qed.
Lemma status_exiting_ok : status_ok StatusExiting.
Proof. split; [split; [discriminate | reflexivity] | reflexivity]. Qed.
Lemma status_exited_ok : status_ok StatusExited.
Proof. split; [split; [discriminate | reflexivity] | reflexivity]. Qed.
Lemma status_slashed_ok : status_ok StatusSlashed.
Proof. split; [split; [discriminate | reflexivity] | reflexivity]. Qed.
Lemma status_withdrawn_ok : status_ok StatusWithdrawn.
Proof. split; [split; [discriminate | reflexivity] | reflexivity]. Qed.

Create HintDb staking.
#[export] Hint Resolve with_balance_ok with_status_ok with_activation_ok with_exit_ok with_slashed_ok wrap64_ok
  status_active_ok status_exiting_ok status_exited_ok status_slashed_ok status_withdrawn_ok : staking.

Lemma evolves_balance v b : evolves v (with_balance v b).
Proof. constructor; auto; apply rtc_refl. Qed.
Lemma evolves_bls v k : v_bls v = [] -> evolves v (with_bls v k).
Proof. intros E. constructor; auto; [congruence | apply rtc_refl]. Qed.
Lemma evolves_activate v e : v_status v = StatusPending -> evolves v (with_activation (with_status v StatusActive) e).
Proof. intros E. constructor; auto; [rewrite E; apply rtc_once; constructor | intros _; exact I]. Qed.
Lemma evolves_exiting v e : v_status v = StatusActive ->
  evolves v (with_exit (with_status v StatusExiting) e (e +w WithdrawalDelay)).
Proof. intros E. constructor; auto; [rewrite E; apply rtc_once; constructor | intros _; reflexivity]. Qed.
Lemma evolves_cancel v e : v_status v = StatusPending ->
  evolves v (with_exit (with_status v StatusExited) e (e +w WithdrawalDelay)).
Proof. intros E. constructor; auto; [rewrite E; apply rtc_once; constructor | intros _; reflexivity]. Qed.
Lemma evolves_exited v : v_status v = StatusExiting -> evolves v (with_status v StatusExited).
Proof.
  intros E. constructor; auto; [rewrite E; apply rtc_once; constructor|].
  unfold locked. rewrite E. auto.
Qed.
Lemma evolves_slashed v e : v_status v <> StatusExited -> v_status v <> StatusSlashed -> v_status v <> StatusWithdrawn ->
  evolves v (slashed_record v e).
Proof. intros. constructor; auto; [apply rtc_once; constructor; assumption | intros _; reflexivity]. Qed.
Lemma evolves_withdrawn v : v_status v = StatusExited \/ v_status v = StatusSlashed -> evolves v (withdrawn_record v).
Proof.
  intros E. constructor; auto; [apply rtc_once; destruct E as [-> | ->]; constructor|].
  unfold locked. destruct E as [-> | ->]; auto.
Qed.

(** * Penalties never exceed the balance *)

Lemma effective_range v : val_ok v -> 0 <= v_effective v <= v_balance v /\ v_effective v <= MaxEffectiveBalance.
Proof.
  intros Hv. rewrite (ok_effective v Hv). pose proof (ok_balance v Hv).
  pose proof (effective_bounds (v_balance v)) as H0. lia.
Qed.

Lemma slash_penalty_range v : val_ok v -> 0 <= slash_penalty v <= v_balance v.
Proof.
  intros Hv. destruct (effective_range v Hv) as [He _]. unfold slash_penalty.
  assert (0 <= v_effective v / SlashPenaltyQuotient) by (apply Z.div_pos; [lia | reflexivity]).
  destruct (Z.ltb_spec (v_balance v) (v_effective v / SlashPenaltyQuotient)); lia.
Qed.

Lemma correlation_penalty_range c t v : val_ok v -> 0 <= c -> 0 < t -> 0 <= correlation_penalty c t v <= v_balance v.
Proof.
  intros Hv Hc Ht. destruct (effective_range v Hv) as [He _]. unfold correlation_penalty.
  set (sc := if t <? _ then t else _).
  assert (0 <= sc) as Hsc by (unfold sc, CorrelationPenaltyMultiplier; destruct (_ <? _); lia).
  assert (0 <= v_effective v * sc / t) by (apply Z.div_pos; [apply Z.mul_nonneg_nonneg; lia | lia]).
  destruct (Z.ltb_spec (v_balance v) (v_effective v * sc / t)); lia.
Qed.

Lemma baseReward_range e t : 0 <= e <= MaxEffectiveBalance -> 0 <= baseReward e t < 2 ^ 80.
Proof.
  intros He. unfold baseReward. destruct (Z.leb_spec t 0); [lia|].
  destruct (Z.eqb_spec (Z.sqrt t) 0) as [E|E]; [lia|].
  pose proof (Z.sqrt_nonneg t) as Hs. unfold BaseRewardFactor.
  assert (0 <= e * 64 / Z.sqrt t <= e * 64) as H0.
  { split; [apply Z.div_pos; lia|]. apply Z.div_le_upper_bound; nia. }
  assert (0 <= e * 64 / Z.sqrt t / 4 <= e * 64) as H1.
  { split; [apply Z.div_pos; lia|]. apply Z.div_le_upper_bound; lia. }
  unfold MaxEffectiveBalance, Ether, Gwei in He. lia.
Qed.

Lemma absence_penalty_range b d leak v : val_ok v -> 0 <= b -> 0 <= d -> 0 <= absence_penalty b d leak v <= v_balance v.
Proof.
  intros Hv Hb Hd. destruct (effective_range v Hv) as [He _]. unfold absence_penalty.
  assert (0 <= v_effective v * d / InactivityPenaltyQuotient) by (apply Z.div_pos; [nia | reflexivity]).
  set (x := if leak then _ else _). assert (0 <= x) by (unfold x; destruct leak; lia).
  destruct (Z.ltb_spec (v_balance v) x); lia.
Qed.

Lemma reward_range b p : 0 <= b < 2 ^ 80 -> u64_ok p -> 0 <= reward_of b p < 2 ^ 150.
Proof.
  intros Hb [Hp0 Hp]. unfold reward_of. destruct (Z.ltb_spec 0 p); [|lia].
  assert (0 <= b / ProposerRewardQuotient <= b) as Hq.
  { split; [apply Z.div_pos; [lia | reflexivity]|]. apply Z.div_le_upper_bound; [reflexivity|]. unfold ProposerRewardQuotient. lia. }
  unfold two64 in Hp. nia.
Qed.

(** * The operations through the representation *)

Section Steps.
Context `{K : Keccak} `{SA : StateAccess} {SH : SlotHash K} {SL : StateLaws SA} {B : Bls} {BP : BlsPossession B}.

Definition lookup_addr (R : registry) (a : Address) : option Validator :=
  match r_index R a with Some i => r_vals R !! Z.to_nat i | None => None end.

Lemma ByAddress_lookup s R a : repr s R -> address_ok a ->
  ByAddress s a = match lookup_addr R a with Some v => Ok v | None => Err ErrNotFound end.
Proof. intros H Ha. rewrite (ByAddress_repr s R a H Ha). unfold lookup_addr. destruct (r_index R a); reflexivity. Qed.

Lemma lookup_at s R i v : repr s R -> r_vals R !! i = Some v ->
  r_vals R !! Z.to_nat (v_index v) = Some v /\ val_ok v /\ v_index v < len (r_vals R).
Proof.
  intros H Hi. destruct (repr_lookup s R i v H Hi) as (E & Hv & _ & Hc). rewrite E, Nat2Z.id.
  rewrite (repr_count s R H) in Hc. auto.
Qed.

Lemma lookup_addr_at s R a v : repr s R -> lookup_addr R a = Some v ->
  r_vals R !! Z.to_nat (v_index v) = Some v /\ val_ok v /\ v_index v < len (r_vals R).
Proof.
  intros H Hl. unfold lookup_addr in Hl. destruct (r_index R a) as [i|]; [|discriminate].
  apply (lookup_at s R _ v H Hl).
Qed.

(** A state reached from one that represents [R], with the surplus moved by [d]. *)
Definition moved (R : registry) (d : Z) (s' : State) : Prop := exists R', repr s' R' /\ step_ok [] d R R'.

Lemma moved_eq R d d' s : moved R d s -> d = d' -> moved R d' s.
Proof. intros H <-. exact H. Qed.

Lemma moved_refl s R : repr s R -> moved R 0 s.
Proof. intros H. exists R. split; [exact H | apply step_refl]. Qed.

Lemma moved_trans R R' d d' s : step_ok [] d R R' -> moved R' d' s -> moved R (d + d') s.
Proof. intros H (R'' & Hr & Hs). exists R''. split; [exact Hr | apply (step_quiet _ _ _ R'); assumption]. Qed.

Lemma quiet_same v v' : v_status v' = v_status v -> v_status v' <> StatusActive \/ v_status v = StatusActive.
Proof. intros E. destruct (decide (v_status v = StatusActive)); [right; assumption | left; congruence]. Qed.

Lemma quiet_to v v' st : v_status v' = st -> st <> StatusActive -> v_status v' <> StatusActive \/ v_status v = StatusActive.
Proof. intros -> H. left. exact H. Qed.

Lemma moved_put s R v v' : repr s R -> r_vals R !! Z.to_nat (v_index v) = Some v -> val_ok v' -> evolves v v' ->
  v_status v' <> StatusActive \/ v_status v = StatusActive ->
  repr (Put s v') (put R v') /\ step_ok [] (v_balance v - v_balance v') R (put R v').
Proof.
  intros H Hv Ho He Hq. pose proof (ev_index _ _ He) as Ei. pose proof (ok_index _ Ho) as [Hi0 _].
  assert (r_vals R !! Z.to_nat (v_index v') = Some v) as Hv' by (rewrite Ei; exact Hv). split.
  - apply repr_Put; [assumption..|]. apply lookup_lt_Some in Hv'. unfold len. lia.
  - apply step_put; [assumption..|]. intros E. left. destruct Hq; [contradiction | assumption].
Qed.

(** ** Deposits *)

Lemma balance_bound s R v i : repr s R -> r_vals R !! i = Some v -> v_balance v <= total R.
Proof.
  intros H Hi. unfold total. apply (zsum_member v_balance _ i); [|exact Hi].
  eapply Forall_impl; [exact (repr_vals_ok s R H)|]. intros w Hw. apply (ok_balance w Hw).
Qed.

Lemma total_nonneg s R : repr s R -> 0 <= total R.
Proof.
  intros H. unfold total. apply zsum_nonneg, Forall_map.
  eapply Forall_impl; [exact (repr_vals_ok s R H)|]. intros w Hw. apply (ok_balance w Hw).
Qed.

Definition new_record (validator withdrawal : Address) (amount : Z) : Validator :=
  mkValidator 0 validator withdrawal [] amount (computeEffectiveBalance amount) StatusPending
    FarFutureEpoch FarFutureEpoch FarFutureEpoch 0.

Lemma new_record_ok a w x : address_ok a -> address_ok w -> 0 <= x < 2 ^ 256 -> val_ok (new_record a w x).
Proof.
  intros Ha Hw Hx. constructor; cbn [new_record v_index v_address v_withdrawal v_bls v_balance v_effective v_status
    v_activation v_exit v_withdrawable v_slashed]; auto; try (split; [discriminate | reflexivity]).
  split; [split; [discriminate | reflexivity] | reflexivity].
Qed.

(** What a deposit does: a top-up, a new pending record, or nothing. *)
Lemma Deposit_spec s R a w x e : repr s R -> address_ok a -> address_ok w -> 0 <= x -> total R + x < 2 ^ 256 ->
  len (r_vals R) + 1 < two64 ->
  match Deposit s a w x e with
  | (s', Err _) => s' = s
  | (s', Ok v') => exists R', repr s' R' /\ step_ok [] (- x) R R' /\
      r_vals R' !! Z.to_nat (v_index v') = Some v' /\ val_ok v' /\
      (forall v, lookup_addr R a = Some v -> v' = with_balance v (v_balance v + x)) /\
      (lookup_addr R a = None -> v' = with_index (new_record a w x) (len (r_vals R)) /\ MinDeposit <= x)
  end.
Proof.
  intros H Ha Hw Hx Ht Hn. pose proof (total_nonneg s R H). unfold Deposit. rewrite (ByAddress_lookup s R a H Ha).
  destruct (lookup_addr R a) as [v|] eqn:El.
  - destruct (lookup_addr_at s R a v H El) as (Hv & Ho & Hi). pose proof (balance_bound s R v _ H Hv).
    pose proof (ok_balance v Ho).
    assert (val_ok (with_balance v (v_balance v + x))) as Hok by (apply with_balance_ok; [exact Ho | lia]).
    destruct (moved_put s R v _ H Hv Hok (evolves_balance v _) (quiet_same _ _ eq_refl)) as [Hr Hs].
    assert (exists R', repr (Put s (with_balance v (v_balance v + x))) R' /\ step_ok [] (- x) R R' /\
      r_vals R' !! Z.to_nat (v_index v) = Some (with_balance v (v_balance v + x)) /\
      val_ok (with_balance v (v_balance v + x)) /\
      (forall v0, Some v = Some v0 -> with_balance v (v_balance v + x) = with_balance v0 (v_balance v0 + x)) /\
      (Some v = None -> with_balance v (v_balance v + x) = with_index (new_record a w x) (len (r_vals R)) /\ MinDeposit <= x)) as Hgoal.
    { exists (put R (with_balance v (v_balance v + x))). split; [exact Hr|].
      split; [apply (step_eq _ _ _ _ _ Hs); cbn; lia|]. split.
      - cbn [put r_vals with_balance v_index]. apply list_lookup_insert_eq, (lookup_lt_Some _ _ _ Hv).
      - split; [exact Hok|]. split; [intros v0 [= <-]; reflexivity | discriminate]. }
    destruct (v_status v); try exact Hgoal; reflexivity.
  - destruct (Z.ltb_spec x MinDeposit); [reflexivity|].
    destruct (repr_Append s R (new_record a w x) H (new_record_ok a w x Ha Hw ltac:(lia)) Hn) as [Hr Hs].
    unfold new_record in Hr, Hs. fold (new_record a w x) in *.
    pose proof (surjective_pairing (Append s (new_record a w x))) as Ep. rewrite Hs in Ep. fold (new_record a w x).
    rewrite Ep. exists (append R (new_record a w x)). split; [exact Hr|].
    split; [exact (step_append R (new_record a w x) I)|]. pose proof (len_nonneg (r_vals R)). split.
    + cbn [append r_vals with_index v_index]. unfold len. rewrite Nat2Z.id.
      rewrite lookup_app_r by lia. rewrite Nat.sub_diag. reflexivity.
    + split; [apply with_index_ok; [apply new_record_ok; auto; lia | split; lia]|].
      split; [discriminate|]. intros _. split; [reflexivity | assumption].
Qed.

Lemma DepositWithKey_step s R a w k pop x e : repr s R -> address_ok a -> address_ok w -> 0 <= x ->
  total R + x < 2 ^ 256 -> len (r_vals R) + 1 < two64 -> bytes_ok k ->
  (is_Some (PublicKeyFromBytes k) -> isZeroBytes k = false) ->
  match DepositWithKey s a w k pop x e with
  | (s', Err _) => s' = s
  | (s', Ok _) => moved R (- x) s'
  end.
Proof.
  intros H Ha Hw Hx Ht Hn Hk Hz. unfold DepositWithKey.
  destruct (Z.eqb_spec (len k) BLSPublicKeyLength) as [Ek|]; cbn [negb]; [|reflexivity].
  destruct (PublicKeyFromBytes k) as [pub|]; [|reflexivity]. destruct (SignatureFromBytes pop) as [proof|]; [|reflexivity].
  destruct (VerifyPossession pub proof); cbn [negb]; [|reflexivity].
  pose proof (Deposit_spec s R a w x e H Ha Hw Hx Ht Hn) as HD.
  destruct (Deposit s a w x e) as [s' [v'|err]]; [|exact HD].
  destruct HD as (R' & Hr & Hs & Hv & Ho & _). destruct (Z.eqb_spec (len (v_bls v')) 0) as [El|]; [|exists R'; auto].
  assert (v_bls v' = []) as Eb by (destruct (v_bls v'); [reflexivity | rewrite len_cons in El; pose proof (len_nonneg l); lia]).
  assert (val_ok (with_bls v' k)) as Hok.
  { apply with_bls_ok; [exact Ho | unfold len, BLSPublicKeyLength in Ek; lia | exact Hk | apply Hz; eauto]. }
  destruct (moved_put s' R' v' _ Hr Hv Hok (evolves_bls v' k Eb) (quiet_same _ _ eq_refl)) as [Hr' Hs'].
  apply (moved_eq _ (- x + 0)); [|lia]. apply (moved_trans R R' _ _ _ Hs). exists (put R' (with_bls v' k)).
  split; [exact Hr' | apply (step_eq _ _ _ _ _ Hs'); cbn; lia].
Qed.

(** ** Exits *)

Lemma epoch_state_ok s : state_ok s -> epoch_ok (LoadEpochState s).
Proof.
  intros Hs. pose proof (read_ok s slotEpochState Hs) as Hh. unfold LoadEpochState, epoch_ok.
  cbn [es_last es_finalized es_queue_epoch es_queue_count].
  split; [apply (slice_u64 _ 0 8 Hh); lia|]. split; [apply (slice_u64 _ 8 16 Hh); lia|].
  split; [apply (slice_u64 _ 16 24 Hh); lia | apply (slice_u64 _ 24 32 Hh); lia].
Qed.

Lemma queue_exit_ok st e limit : epoch_ok st -> epoch_ok (queue_exit st e limit).
Proof.
  intros (H1 & H2 & H3 & H4). unfold queue_exit, epoch_ok.
  destruct (_ <? _); [|]; destruct (_ <=? _); cbn [es_last es_finalized es_queue_epoch es_queue_count];
    repeat split; try apply wrap64_ok; try apply H1; try apply H2; try apply H3.
Qed.

Lemma active_count_repr s R e : repr s R -> active_count s e = len (active_in R e).
Proof. intros H. unfold active_count. rewrite (ActiveAt_repr s R e H). reflexivity. Qed.

(** The queue record a scheduled exit leaves. *)
Definition queued (R : registry) (e : Z) : EpochState := queue_exit (r_epoch R) e (ChurnLimit (len (active_in R e))).

Definition exiting_record (v : Validator) (exitEpoch : Z) : Validator :=
  with_exit (with_status v StatusExiting) exitEpoch (exitEpoch +w WithdrawalDelay).
Definition cancelled_record (v : Validator) (epoch : Z) : Validator :=
  with_exit (with_status v StatusExited) epoch (epoch +w WithdrawalDelay).

Lemma RequestExit_spec s R a e : repr s R -> address_ok a -> u64_ok e ->
  match RequestExit s a e with
  | (s', Err _) => s' = s
  | (s', Ok v') => exists v R', lookup_addr R a = Some v /\ repr s' R' /\ step_ok [] 0 R R' /\ v_index v' = v_index v /\
      ((v_status v = StatusActive /\ v' = exiting_record v (es_queue_epoch (queued R e)) /\
        R' = put (set_epoch R (queued R e)) v') \/
       (v_status v = StatusPending /\ v' = cancelled_record v e /\ R' = put R v'))
  end.
Proof.
  intros H Ha He. unfold RequestExit. rewrite (ByAddress_lookup s R a H Ha).
  destruct (lookup_addr R a) as [v|] eqn:El; [|reflexivity].
  destruct (lookup_addr_at s R a v H El) as (Hv & Ho & Hi). destruct (v_status v) eqn:Est; try reflexivity.
  - assert (val_ok (cancelled_record v e)) as Hok by (unfold cancelled_record; eauto with staking).
    destruct (moved_put s R v _ H Hv Hok (evolves_cancel v e Est) (quiet_to v (cancelled_record v e) StatusExited eq_refl ltac:(discriminate))) as [Hr Hs].
    exists v, (put R (cancelled_record v e)). split; [reflexivity|]. split; [exact Hr|].
    split; [apply (step_eq _ _ _ _ _ Hs); cbn; lia | split; [reflexivity | right; auto]].
  - unfold scheduleExit. rewrite (active_count_repr s R e H), (rp_epoch _ _ H). fold (queued R e).
    assert (epoch_ok (queued R e)) as Hq.
    { apply queue_exit_ok. rewrite <- (rp_epoch _ _ H). apply epoch_state_ok, (rp_ok _ _ H). }
    pose proof (repr_SaveEpochState s R _ H Hq) as H1. set (x := es_queue_epoch (queued R e)).
    assert (val_ok (exiting_record v x)) as Hok.
    { destruct Hq as (_ & _ & Hx & _). unfold exiting_record. eauto with staking. }
    destruct (moved_put _ (set_epoch R (queued R e)) v _ H1 Hv Hok (evolves_exiting v x Est) (quiet_to v (exiting_record v x) StatusExiting eq_refl ltac:(discriminate))) as [Hr Hs].
    exists v, (put (set_epoch R (queued R e)) (exiting_record v x)). split; [reflexivity|]. split; [exact Hr|]. split.
    + apply (step_eq _ (0 + (v_balance v - v_balance (exiting_record v x)))); [|cbn; lia].
      apply (step_quiet _ _ R _ _ (step_epoch R _) Hs).
    + split; [reflexivity | left; auto].
Qed.

(** ** Slashing and withdrawing *)

Lemma slashed_record_ok v e : val_ok v -> 0 <= e < 2 ^ 56 -> val_ok (slashed_record v e).
Proof.
  intros Hv He. pose proof (slash_penalty_range v Hv). pose proof (ok_balance v Hv).
  assert (u64_ok e) by (unfold u64_ok, two64; lia). unfold slashed_record. eauto 8 with staking lia.
Qed.

Lemma step_net A R R1 R2 d x : step_ok A d R R1 -> R2 = add_bal R1 StakingAddress x -> step_ok A (d + x) R R2.
Proof.
  intros H ->. rewrite <- (app_nil_r A). apply (step_trans _ _ _ _ _ R1); [exact H|]. pose proof (step_bal R1 StakingAddress x) as Hb.
  rewrite decide_True in Hb by reflexivity. exact Hb.
Qed.

Lemma Slash_spec s R a e : repr s R -> address_ok a -> 0 <= e < 2 ^ 56 ->
  match Slash s a e with
  | (s', Err _) => s' = s
  | (s', Ok (v', penalty)) => exists v R', lookup_addr R a = Some v /\ repr s' R' /\ step_ok [] 0 R R' /\
      v' = slashed_record v e /\ penalty = slash_penalty v /\ r_vals R' = <[Z.to_nat (v_index v) := v']> (r_vals R) /\
      v_status v <> StatusExited /\ v_status v <> StatusSlashed /\ v_status v <> StatusWithdrawn
  end.
Proof.
  intros H Ha He. unfold Slash. rewrite (ByAddress_lookup s R a H Ha).
  destruct (lookup_addr R a) as [v|] eqn:El; [|reflexivity].
  destruct (lookup_addr_at s R a v H El) as (Hv & Ho & Hi).
  assert (v_status v <> StatusExited -> v_status v <> StatusSlashed -> v_status v <> StatusWithdrawn ->
    exists v0 R', Some v = Some v0 /\
      repr (SubBalance (AddSlashedStake (Put s (slashed_record v e)) e (v_effective (slashed_record v e))) StakingAddress (slash_penalty v)) R' /\
      step_ok [] 0 R R' /\ slashed_record v e = slashed_record v0 e /\ slash_penalty v = slash_penalty v0 /\
      r_vals R' = <[Z.to_nat (v_index v0) := slashed_record v e]> (r_vals R) /\
      v_status v0 <> StatusExited /\ v_status v0 <> StatusSlashed /\ v_status v0 <> StatusWithdrawn) as Hgo.
  { intros N1 N2 N3. pose proof (slashed_record_ok v e Ho He) as Hok.
    destruct (moved_put s R v _ H Hv Hok (evolves_slashed v e N1 N2 N3) (quiet_to v (slashed_record v e) StatusSlashed eq_refl ltac:(discriminate))) as [Hr Hs].
    destruct (effective_range _ Hok) as [[Hpos _] _].
    pose proof (repr_AddSlashedStake _ _ e _ Hr Hpos) as Hr2. eexists v, _. split; [reflexivity|].
    split; [exact (repr_SubBalance _ _ StakingAddress (slash_penalty v) Hr2)|]. split; [|auto 10].
    apply (step_eq _ ((v_balance v - v_balance (slashed_record v e) + 0) + - slash_penalty v)).
    - apply (step_net _ R _ _ _ _ (step_quiet _ _ _ _ _ Hs (step_slashed _ e _)) eq_refl).
    - cbn [slashed_record with_exit with_slashed with_status with_balance v_balance]. lia. }
  destruct (v_status v) eqn:Est; try reflexivity; apply Hgo; discriminate.
Qed.

Lemma Withdraw_spec s R a e : repr s R -> address_ok a ->
  match Withdraw s a e with
  | (s', Err _) => s' = s
  | (s', Ok amount) => exists v R', lookup_addr R a = Some v /\ repr s' R' /\
      step_ok [] (if decide (v_withdrawal v = StakingAddress) then amount else 0) R R' /\
      amount = v_balance v /\ (v_status v = StatusExited \/ v_status v = StatusSlashed) /\ v_withdrawable v <= e /\
      r_vals R' = <[Z.to_nat (v_index v) := withdrawn_record v]> (r_vals R) /\ r_index R' = r_index R /\
      (v_withdrawal v <> StakingAddress -> r_bal R' (v_withdrawal v) = r_bal R (v_withdrawal v) + amount)
  end.
Proof.
  intros H Ha. unfold Withdraw. rewrite (ByAddress_lookup s R a H Ha).
  destruct (lookup_addr R a) as [v|] eqn:El; [|reflexivity].
  destruct (lookup_addr_at s R a v H El) as (Hv & Ho & Hi).
  assert (v_status v = StatusExited \/ v_status v = StatusSlashed -> v_withdrawable v <= e ->
    exists v0 R', Some v = Some v0 /\
      repr (AddBalance (SubBalance (Put s (withdrawn_record v)) StakingAddress (v_balance v)) (v_withdrawal v) (v_balance v)) R' /\
      step_ok [] (if decide (v_withdrawal v0 = StakingAddress) then v_balance v else 0) R R' /\
      v_balance v = v_balance v0 /\ (v_status v0 = StatusExited \/ v_status v0 = StatusSlashed) /\ v_withdrawable v0 <= e /\
      r_vals R' = <[Z.to_nat (v_index v0) := withdrawn_record v0]> (r_vals R) /\ r_index R' = r_index R /\
      (v_withdrawal v0 <> StakingAddress -> r_bal R' (v_withdrawal v0) = r_bal R (v_withdrawal v0) + v_balance v)) as Hgo.
  { intros Hst Hw. assert (val_ok (withdrawn_record v)) as Hok by (unfold withdrawn_record; eauto with staking lia).
    destruct (moved_put s R v _ H Hv Hok (evolves_withdrawn v Hst) (quiet_to v (withdrawn_record v) StatusWithdrawn eq_refl ltac:(discriminate))) as [Hr Hs].
    pose proof (repr_SubBalance _ _ StakingAddress (v_balance v) Hr) as Hr2. eexists v, _. split; [reflexivity|].
    split; [exact (repr_AddBalance _ _ (v_withdrawal v) (v_balance v) Hr2)|]. split; [|split; [reflexivity|]].
    - eapply step_eq; [apply (step_quiet _ _ _ _ _ (step_net _ R _ _ _ _ Hs eq_refl) (step_bal _ _ _))|].
      cbn [withdrawn_record with_status with_balance v_balance]. lia.
    - split; [exact Hst|]. split; [exact Hw|]. split; [reflexivity|]. split; [reflexivity|]. intros Hne. cbn [add_bal r_bal put].
      rewrite decide_False by congruence. rewrite decide_True by reflexivity. lia. }
  destruct (v_status v) eqn:Est; try reflexivity;
    (destruct (Z.ltb_spec e (v_withdrawable v)); [reflexivity | apply Hgo; auto]).
Qed.

(** ** Loops over records that are still as they were read *)

Definition current (R : registry) (l : list Validator) : Prop :=
  List.NoDup (map v_index l) /\ (forall v, v ∈ l -> r_vals R !! Z.to_nat (v_index v) = Some v).

Lemma vals_index s R : repr s R -> map v_index (r_vals R) = seqZ 0 (len (r_vals R)).
Proof.
  intros H. apply list_eq. intros i. destruct (r_vals R !! i) as [v|] eqn:E.
  - rewrite list_lookup_fmap, E. cbn [fmap option_fmap option_map]. destruct (repr_lookup s R i v H E) as (-> & _).
    apply lookup_lt_Some in E. rewrite lookup_seqZ_lt by (unfold len; lia). f_equal; lia.
  - rewrite list_lookup_fmap, E. symmetry. apply lookup_seqZ_ge. apply lookup_ge_None in E. unfold len. lia.
Qed.

Lemma current_all s R : repr s R -> current R (r_vals R).
Proof.
  intros H. split.
  - rewrite (vals_index s R H). apply NoDup_ListNoDup, NoDup_seqZ.
  - intros v Hv. apply list_elem_of_lookup in Hv as [i Hi]. apply (lookup_at s R i v H Hi).
Qed.

Lemma NoDup_map_filter {A} (f : A -> Z) (p : A -> bool) l : List.NoDup (map f l) -> List.NoDup (map f (List.filter p l)).
Proof.
  induction l as [|x l IH]; cbn; [auto|]. intros Hnd. apply List.NoDup_cons_iff in Hnd as [Hx Hnd].
  destruct (p x); [|auto]. cbn. constructor; [|auto]. intros Hin. apply Hx.
  apply List.in_map_iff in Hin as (y & <- & Hy). apply List.in_map, (List.filter_In p y l), Hy.
Qed.

Lemma current_filter R p l : current R l -> current R (List.filter p l).
Proof.
  intros [H1 H2]. split; [apply NoDup_map_filter, H1|]. intros v Hv. apply H2.
  apply list_elem_of_In, List.filter_In in Hv as [Hv _]. apply list_elem_of_In, Hv.
Qed.

Lemma current_agree R R' l : current R l ->
  (forall v, v ∈ l -> r_vals R' !! Z.to_nat (v_index v) = r_vals R !! Z.to_nat (v_index v)) -> current R' l.
Proof. intros [H1 H2] H. split; [exact H1|]. intros v Hv. rewrite (H v Hv). auto. Qed.

(** [P] holds of the records, [Q] of the reports, [T] relates the registries and
    [F] a record to what is written for it. *)
Lemma fold_steps (f : State * EpochReport -> Validator -> State * EpochReport) (phi : EpochReport -> Z)
    (A : Validator -> list Z) (P : Validator -> Prop) (Q : EpochReport -> Prop) (T : registry -> registry -> Prop)
    (F : Validator -> Validator -> Prop) `{!PreOrder T} :
  (forall s R rep v, repr s R -> r_vals R !! Z.to_nat (v_index v) = Some v -> P v -> Q rep ->
    exists R' v', repr (fst (f (s, rep) v)) R' /\ step_ok (A v) (phi (snd (f (s, rep) v)) - phi rep) R R' /\
      r_vals R' = <[Z.to_nat (v_index v) := v']> (r_vals R) /\ F v v' /\ T R R' /\ Q (snd (f (s, rep) v))) ->
  forall l s R rep, repr s R -> current R l -> Forall P l -> Q rep ->
    let sr := fold_left f l (s, rep) in
    exists R', repr (fst sr) R' /\ step_ok (concat (map A l)) (phi (snd sr) - phi rep) R R' /\
      (forall j, (forall v, v ∈ l -> j <> Z.to_nat (v_index v)) -> r_vals R' !! j = r_vals R !! j) /\
      Forall (fun v => exists v', r_vals R' !! Z.to_nat (v_index v) = Some v' /\ F v v') l /\
      T R R' /\ Q (snd sr).
Proof.
  intros Hf. induction l as [|v l IH]; intros s R rep H Hc HP HQ; cbn [fold_left].
  { exists R. split; [exact H|]. split; [apply (step_eq _ 0); [apply step_refl | cbn; lia]|].
    split; [auto|]. split; [constructor|]. split; [reflexivity | exact HQ]. }
  apply Forall_cons_1 in HP as [Hv HP]. destruct Hc as [Hnd Hl]. cbn [map] in Hnd.
  apply List.NoDup_cons_iff in Hnd as [Hx Hnd]. pose proof (Hl v ltac:(left)) as Hlv.
  destruct (Hf s R rep v H Hlv Hv HQ) as (R1 & v' & H1 & S1 & O1 & F1 & T1 & Q1).
  assert (forall w, w ∈ l -> Z.to_nat (v_index v) <> Z.to_nat (v_index w)) as Hdis.
  { intros w Hw E. apply Hx. assert (v_index w = v_index v) as <-; [|apply List.in_map, list_elem_of_In, Hw].
    destruct (lookup_at s R _ w H (Hl w ltac:(right; exact Hw))) as (_ & Ow & _).
    destruct (lookup_at s R _ v H Hlv) as (_ & Ov & _).
    pose proof (ok_index w Ow) as [? _]. pose proof (ok_index v Ov) as [? _]. lia. }
  assert (current R1 l) as Hc1.
  { apply (current_agree R); [split; [exact Hnd | intros w Hw; apply Hl; right; exact Hw]|]. intros w Hw.
    rewrite O1. apply list_lookup_insert_ne, Hdis, Hw. }
  destruct (f (s, rep) v) as [s1 rep1] eqn:Ef. cbn [fst snd] in *.
  destruct (IH s1 R1 rep1 H1 Hc1 HP Q1) as (R2 & H2 & S2 & O2 & F2 & T2 & Q2).
  exists R2. split; [exact H2|]. split; [cbn [map concat]; eapply step_eq; [exact (step_trans _ _ _ _ _ _ _ S1 S2) | lia]|].
  split; [|split; [|split; [etrans; eassumption | exact Q2]]].
  - intros j Hj. rewrite O2 by (intros w Hw; apply Hj; right; exact Hw). rewrite O1.
    apply list_lookup_insert_ne. intros E. apply (Hj v ltac:(left)). congruence.
  - constructor; [|exact F2]. exists v'. split; [|exact F1]. rewrite O2 by exact Hdis. rewrite O1.
    apply list_lookup_insert_eq, (lookup_lt_Some _ _ _ Hlv).
Qed.

(** What a loop may leave alone. *)
Definition same_len (R R' : registry) : Prop := length (r_vals R') = length (r_vals R).
Definition same_money (R R' : registry) : Prop := same_len R R' /\ r_bal R' = r_bal R.

#[local] Instance same_len_preorder : PreOrder same_len.
Proof. split; [intros R; reflexivity | intros R R' R'' H H'; unfold same_len in *; congruence]. Qed.
#[local] Instance same_money_preorder : PreOrder same_money.
Proof. split; [intros R; split; reflexivity | intros R R' R'' [H1 H2] [H3 H4]; split; [etrans; eassumption | congruence]]. Qed.

Lemma put_len R v : same_len R (put R v).
Proof. apply length_insert. Qed.
Lemma put_money R v : same_money R (put R v).
Proof. split; [apply put_len | reflexivity]. Qed.

(** Writing back a record as it was. *)
Lemma vals_same R v : r_vals R !! Z.to_nat (v_index v) = Some v -> r_vals R = <[Z.to_nat (v_index v) := v]> (r_vals R).
Proof. intros H. symmetry. apply list_insert_id, H. Qed.

Lemma concat_nil {X Y} (l : list X) : concat (map (fun _ => @nil Y) l) = [].
Proof. induction l; auto. Qed.

(** ** Step 1 *)

Definition report_same (r r' : EpochReport) : Prop :=
  rep_issued r' = rep_issued r /\ rep_burned r' = rep_burned r /\ rep_activated r' = rep_activated r.

Lemma finish_exits_spec e s R rep : repr s R ->
  let sr := fold_left (finish_exit e) (r_vals R) (s, rep) in
  exists R', repr (fst sr) R' /\ step_ok [] 0 R R' /\ same_money R R' /\ report_same rep (snd sr).
Proof.
  intros H. destruct (fold_steps (finish_exit e) (fun _ => 0) (fun _ => []) (fun _ => True) (report_same rep) same_money (fun _ _ => True))
    with (l := r_vals R) (s := s) (R := R) (rep := rep)
    as (R' & H1 & S1 & _ & _ & T1 & Q1); [|exact H | apply (current_all s), H | apply Forall_true; auto | repeat split |].
  - intros s0 R0 rep0 v H0 Hv _ HQ. unfold finish_exit. cbn [fst snd].
    destruct (bool_decide (v_status v = StatusExiting) && (v_exit v <=? e)) eqn:Ec.
    + apply andb_prop in Ec as [Ec _]. apply bool_decide_eq_true in Ec.
      destruct (lookup_at s0 R0 _ v H0 Hv) as (_ & Ho & _).
      destruct (moved_put s0 R0 v (with_status v StatusExited) H0 Hv) as [Hr Hs];
        [eauto with staking | apply evolves_exited, Ec | apply (quiet_to _ _ StatusExited); [reflexivity | discriminate]|].
      exists (put R0 (with_status v StatusExited)), (with_status v StatusExited). cbn [fst].
      split; [exact Hr|]. split; [apply (step_eq _ _ _ _ _ Hs); cbn; lia|].
      split; [reflexivity|]. split; [exact I|]. split; [apply put_money | exact HQ].
    + exists R0, v. split; [exact H0|]. split; [apply step_refl|]. split; [apply vals_same, Hv|].
      split; [exact I|]. split; [reflexivity | exact HQ].
  - exists R'. rewrite concat_nil in S1. auto.
Qed.

(** ** Step 2 *)

Definition participation_ok (p : Participation) : Prop := forall a, u64_ok (proposed_by p a).

(** The counters of a report in progress. *)
Definition report_from (acts : list Address) (r : EpochReport) : Prop :=
  0 <= rep_issued r /\ 0 <= rep_burned r /\ rep_activated r = acts.

Lemma put_balance_step s R v b : repr s R -> r_vals R !! Z.to_nat (v_index v) = Some v -> 0 <= b < 2 ^ 256 ->
  repr (Put s (with_balance v b)) (put R (with_balance v b)) /\ step_ok [] (v_balance v - b) R (put R (with_balance v b)).
Proof.
  intros H Hv Hb. destruct (lookup_at s R _ v H Hv) as (_ & Ho & _).
  exact (moved_put s R v _ H Hv (with_balance_ok v b Ho Hb) (evolves_balance v b) (quiet_same v (with_balance v b) eq_refl)).
Qed.

Lemma settle_loop_spec t d p acts s R rep l : repr s R -> current R l -> participation_ok p -> 0 <= d ->
  Forall (fun v => v_balance v < 2 ^ 200) l -> report_from acts rep ->
  let sr := fold_left (settle_one t d p) l (s, rep) in
  exists R', repr (fst sr) R' /\
    step_ok [] (rep_burned (snd sr) - rep_issued (snd sr) - (rep_burned rep - rep_issued rep)) R R' /\
    same_money R R' /\ report_from acts (snd sr).
Proof.
  intros H Hc Hp Hd Hl HQ.
  destruct (fold_steps (settle_one t d p) (fun r => rep_burned r - rep_issued r) (fun _ => [])
      (fun v => v_balance v < 2 ^ 200) (report_from acts) same_money (fun _ _ => True))
    with (l := l) (s := s) (R := R) (rep := rep) as (R' & H1 & S1 & _ & _ & T1 & Q1); try assumption.
  2:{ exists R'. rewrite concat_nil in S1. auto. }
  intros s0 R0 rep0 v H0 Hv Hb (Q1 & Q2 & Q3). destruct (lookup_at s0 R0 _ v H0 Hv) as (_ & Ho & _).
  destruct (effective_range v Ho) as [He Hm]. pose proof (ok_balance v Ho) as Hv0.
  pose proof (baseReward_range (v_effective v) t ltac:(lia)) as Hbase. unfold settle_one.
  destruct (bool_decide (v_address v ∈ Attested p)); cbn [fst snd].
  - pose proof (reward_range _ _ Hbase (Hp (v_address v))) as Hr. set (x := reward_of _ _) in *.
    destruct (put_balance_step s0 R0 v (v_balance v + x) H0 Hv) as [Hrep Hs]; [lia|].
    exists (put R0 (with_balance v (v_balance v + x))), (with_balance v (v_balance v + x)). split; [exact Hrep|].
    split; [apply (step_eq _ _ _ _ _ Hs); cbn [add_reward rep_issued rep_burned]; lia|].
    split; [reflexivity|]. split; [exact I|]. split; [apply put_money|]. repeat split; cbn [add_reward rep_issued rep_burned]; lia || assumption.
  - pose proof (absence_penalty_range _ d (rep_leak rep0) v Ho (proj1 Hbase) Hd) as Hr. set (x := absence_penalty _ _ _ _) in *.
    destruct (put_balance_step s0 R0 v (v_balance v - x) H0 Hv) as [Hrep Hs]; [lia|].
    exists (put R0 (with_balance v (v_balance v - x))), (with_balance v (v_balance v - x)). split; [exact Hrep|].
    split; [apply (step_eq _ _ _ _ _ Hs); cbn [add_penalty rep_issued rep_burned]; lia|].
    split; [reflexivity|]. split; [exact I|]. split; [apply put_money|]. repeat split; cbn [add_penalty rep_issued rep_burned]; lia || assumption.
Qed.

Lemma settle_balances_spec acts s R rep : repr s R -> report_from acts rep ->
  exists R', repr (settle_balances s rep) R' /\ step_ok [] (rep_issued rep - rep_burned rep) R R' /\ same_len R R'.
Proof.
  intros H (Hi & Hb & _). unfold settle_balances.
  assert (exists R1, repr (if 0 <? rep_issued rep then AddBalance s StakingAddress (rep_issued rep) else s) R1 /\
    step_ok [] (rep_issued rep) R R1 /\ same_len R R1) as (R1 & H1 & S1 & T1).
  { destruct (Z.ltb_spec 0 (rep_issued rep)).
    - eexists. split; [apply repr_AddBalance, H|]. split; [|reflexivity].
      pose proof (step_net [] R R _ 0 (rep_issued rep) (step_refl R) eq_refl) as Hs. exact Hs.
    - exists R. split; [exact H|]. split; [apply (step_eq _ 0); [apply step_refl | lia] | reflexivity]. }
  destruct (Z.ltb_spec 0 (rep_burned rep)).
  - eexists. split; [apply repr_SubBalance, H1|]. split; [|exact T1].
    eapply step_eq; [exact (step_net [] R R1 _ _ _ S1 eq_refl) | lia].
  - exists R1. split; [exact H1|]. split; [apply (step_eq _ _ _ _ _ S1); lia | exact T1].
Qed.

Lemma same_money_len R R' : same_money R R' -> same_len R R'.
Proof. intros [H _]. exact H. Qed.

Lemma money_total R R' d : step_ok [] d R R' -> same_money R R' -> total R' = total R - d.
Proof. intros Hs [_ Hb]. pose proof (st_surplus _ _ _ _ Hs) as E. unfold surplus in E. rewrite Hb in E. lia. Qed.

Lemma active_sub R e v : v ∈ active_in R e -> v ∈ r_vals R.
Proof. intros H. apply list_elem_of_In, List.filter_In in H as [H _]. apply list_elem_of_In, H. Qed.

(** An index of the registry. *)
Definition in_range (R : registry) (v : Validator) : Prop := 0 <= v_index v < len (r_vals R).

Lemma settle_spec s R e p fe rep : repr s R -> total R < 2 ^ 200 -> u64_ok e -> u64_ok fe ->
  match p with Some p => participation_ok p | None => True end ->
  rep_issued rep = 0 -> rep_burned rep = 0 ->
  exists s' rep' active R', settle s e p fe (r_vals R) rep = (s', Ok (rep', active)) /\ repr s' R' /\
    step_ok [] 0 R R' /\ same_len R R' /\ rep_activated rep' = rep_activated rep /\ Forall (in_range R') active.
Proof.
  intros H Ht [He _] Hfe Hp Hi Hb. unfold settle.
  destruct (finish_exits_spec e s R rep H) as (R1 & H1 & S1 & T1 & E1 & E2 & E3).
  destruct (fold_left (finish_exit e) (r_vals R) (s, rep)) as [s1 rep1]. cbn [fst snd] in *.
  rewrite (ActiveAt_repr s1 R1 e H1). set (active := active_in R1 e).
  set (delay := finality_delay e fe). assert (0 <= delay) as Hd by (unfold delay, finality_delay; destruct (Z.ltb_spec fe e); lia).
  set (rep2 := set_leak rep1 _). assert (report_from (rep_activated rep) rep2) as HQ.
  { unfold report_from, rep2. cbn [set_leak rep_issued rep_burned rep_activated]. rewrite E1, E2, E3. repeat split; lia || reflexivity. }
  assert (rep_burned rep2 - rep_issued rep2 = 0) as Hz by (unfold rep2; cbn [set_leak rep_issued rep_burned]; lia).
  assert (exists s2 rep3 R2, (match p with
      | Some p => if 0 <? sum_effective active then fold_left (settle_one (sum_effective active) delay p) active (s1, rep2) else (s1, rep2)
      | None => (s1, rep2) end) = (s2, rep3) /\ repr s2 R2 /\
      step_ok [] (rep_burned rep3 - rep_issued rep3) R1 R2 /\ same_money R1 R2 /\ report_from (rep_activated rep) rep3)
    as (s2 & rep3 & R2 & -> & H2 & S2 & T2 & Q2).
  { assert (exists s2 rep3 R2, (s1, rep2) = (s2, rep3) /\ repr s2 R2 /\ step_ok [] (rep_burned rep3 - rep_issued rep3) R1 R2 /\
      same_money R1 R2 /\ report_from (rep_activated rep) rep3) as Hsame.
    { exists s1, rep2, R1. split; [reflexivity|]. split; [exact H1|]. split; [apply (step_eq _ 0); [apply step_refl | lia]|].
      split; [reflexivity | exact HQ]. }
    destruct p as [p|]; [|exact Hsame]. destruct (0 <? sum_effective active); [|exact Hsame].
    destruct (settle_loop_spec (sum_effective active) delay p (rep_activated rep) s1 R1 rep2 active H1) as (R2 & H2 & S2 & T2 & Q2); auto.
    - apply current_filter, (current_all s1), H1.
    - apply Forall_forall. intros v Hv. apply active_sub, list_elem_of_lookup in Hv as [i Hv].
      pose proof (balance_bound s1 R1 v i H1 Hv). rewrite (money_total R R1 0 S1 T1) in *. lia.
    - eexists _, _, R2. split; [apply surjective_pairing|]. split; [exact H2|].
      split; [apply (step_eq _ _ _ _ _ S2); lia | auto]. }
  destruct (settle_balances_spec (rep_activated rep) s2 R2 rep3 H2 Q2) as (R3 & H3 & S3 & T3).
  exists (settle_balances s2 rep3), rep3, active, R3. split; [reflexivity|]. split; [exact H3|]. split.
  - eapply step_eq; [exact (step_quiet _ _ _ _ _ (step_quiet _ _ _ _ _ S1 S2) S3) | lia].
  - split; [etrans; [apply same_money_len, T1|]; etrans; [apply same_money_len, T2 | exact T3]|].
    split; [apply Q2|]. apply Forall_forall. intros v Hv. apply active_sub, list_elem_of_lookup in Hv as [i Hv].
    destruct (lookup_at s1 R1 i v H1 Hv) as (_ & Ho & Hlt). pose proof (ok_index v Ho) as [? _].
    destruct T2 as [T2 _]. unfold in_range, same_len, len in *. lia.
Qed.

(** ** Step 3 *)

Lemma sum_effective_nonneg s R e : repr s R -> 0 <= sum_effective (active_in R e).
Proof.
  intros H. rewrite sum_effective_zsum. apply zsum_nonneg, Forall_map, Forall_forall. intros v Hv.
  apply active_sub, list_elem_of_lookup in Hv as [i Hv]. destruct (lookup_at s R i v H Hv) as (_ & Ho & _).
  destruct (effective_range v Ho) as [[? _] _]. assumption.
Qed.

Lemma correlated_nonneg s e : state_ok s -> 0 <= CorrelatedSlashedStake s e.
Proof.
  intros Hs. unfold CorrelatedSlashedStake. rewrite fold_sum, Z.add_0_l. apply zsum_nonneg, Forall_map, Forall_true.
  intros x. unfold SlashedStakeIn. apply HashBig_bounds, read_ok, Hs.
Qed.

Lemma correlation_spec s R e rep : repr s R ->
  exists s' rep' R', applyCorrelationPenalties s e rep = (s', Ok rep') /\ repr s' R' /\ step_ok [] 0 R R' /\
    same_len R R' /\ rep_activated rep' = rep_activated rep.
Proof.
  intros H. unfold applyCorrelationPenalties, TotalActiveStake. rewrite (All_repr s R H), (ActiveAt_repr s R e H). cbn [rbind].
  pose proof (sum_effective_nonneg s R e H) as Ht. set (t := sum_effective _) in *.
  destruct (Z.eqb_spec t 0) as [Et|Et].
  { exists s, rep, R. split; [reflexivity|]. split; [exact H|]. split; [apply step_refl | split; reflexivity]. }
  set (c := if t <? _ then t else _). assert (0 <= c) as Hc.
  { pose proof (correlated_nonneg s e (rp_ok _ _ H)). unfold c. destruct (_ <? _); lia. }
  destruct (fold_steps (correlate_one e c t) (fun _ => 0) (fun _ => []) (fun _ => True)
      (fun r => rep_activated r = rep_activated rep) same_len (fun _ _ => True))
    with (l := r_vals R) (s := s) (R := R) (rep := rep)
    as (R' & H1 & S1 & _ & _ & T1 & Q1); [|exact H | apply (current_all s), H | apply Forall_true; auto | reflexivity |].
  - intros s0 R0 rep0 v H0 Hv _ HQ. unfold correlate_one. cbn [fst snd].
    assert (exists R' v', repr s0 R' /\ step_ok [] (0 - 0) R0 R' /\ r_vals R' = <[Z.to_nat (v_index v) := v']> (r_vals R0) /\
      True /\ same_len R0 R' /\ rep_activated rep0 = rep_activated rep) as Hsame.
    { exists R0, v. split; [exact H0|]. split; [apply step_refl|]. split; [apply vals_same, Hv | split; [exact I | split; [reflexivity | exact HQ]]]. }
    destruct (correlation_due e v); cbn [negb]; [|exact Hsame].
    destruct (lookup_at s0 R0 _ v H0 Hv) as (_ & Ho & _). pose proof (ok_balance v Ho) as Hb.
    pose proof (correlation_penalty_range c t v Ho Hc ltac:(lia)) as Hr. set (x := correlation_penalty c t v) in *.
    destruct (Z.eqb_spec x 0); [exact Hsame|]. cbn [fst snd].
    destruct (put_balance_step s0 R0 v (v_balance v - x) H0 Hv) as [Hrep Hs]; [lia|].
    eexists _, (with_balance v (v_balance v - x)). split; [exact (repr_SubBalance _ _ StakingAddress x Hrep)|].
    split; [eapply step_eq; [exact (step_net _ R0 _ _ _ _ Hs eq_refl) | lia]|].
    split; [reflexivity|]. split; [exact I|]. split; [apply put_len | exact HQ].
  - destruct (fold_left _ _ _) as [s' rep']. cbn [fst snd] in *. exists s', rep', R'. rewrite concat_nil in S1. auto.
Qed.

(** ** Step 4 *)

Lemma eject_spec e : u64_ok e -> forall l s R rep, repr s R -> Forall (in_range R) l ->
  exists s' rep' R', eject_loop e l s rep = (s', Ok rep') /\ repr s' R' /\ step_ok [] 0 R R' /\
    same_len R R' /\ rep_activated rep' = rep_activated rep.
Proof.
  intros He. induction l as [|v l IH]; intros s R rep H Hl; cbn [eject_loop].
  { exists s, rep, R. split; [reflexivity|]. split; [exact H|]. split; [apply step_refl | split; reflexivity]. }
  apply Forall_cons_1 in Hl as [[Hv0 Hv1] Hl]. rewrite (Get_repr s R _ H Hv0).
  destruct (lookup_lt_is_Some_2 (r_vals R) (Z.to_nat (v_index v))) as [w Hw]; [unfold len in Hv1; lia|]. rewrite Hw.
  destruct (_ && _); [|apply IH; assumption].
  destruct (lookup_at s R _ w H Hw) as (_ & Ho & _).
  pose proof (RequestExit_spec s R (v_address w) e H (ok_address w Ho) He) as HE.
  destruct (RequestExit s (v_address w) e) as [s1 [v'|err]]; [|subst s1; apply IH; assumption].
  destruct HE as (u & R1 & _ & H1 & S1 & _ & Hcase).
  assert (same_len R R1) as T1 by (destruct Hcase as [(_ & _ & ->)|(_ & _ & ->)]; apply length_insert).
  destruct (IH s1 R1 (add_ejected rep (v_address w)) H1) as (s2 & rep2 & R2 & E2 & H2 & S2 & T2 & Q2).
  { eapply Forall_impl; [exact Hl|]. intros x Hx. unfold in_range, same_len, len in *. lia. }
  exists s2, rep2, R2. split; [exact E2|]. split; [exact H2|].
  split; [exact (step_quiet _ _ _ _ _ S1 S2)|]. split; [etrans; eassumption | exact Q2].
Qed.

(** ** Step 5 *)

Definition eligible (v : Validator) : bool :=
  bool_decide (v_status v = StatusPending) && (MinDeposit <=? v_balance v).

Lemma collect_pending_spec s R l : repr s R -> Forall (in_range R) l ->
  collect_pending s l = Ok (List.filter eligible (map (fun v => default v (r_vals R !! Z.to_nat (v_index v))) l)).
Proof.
  intros H. induction 1 as [|v l [Hv0 Hv1] Hl IH]; [reflexivity|]. cbn [collect_pending map List.filter].
  rewrite (Get_repr s R _ H Hv0).
  destruct (lookup_lt_is_Some_2 (r_vals R) (Z.to_nat (v_index v))) as [w Hw]; [unfold len in Hv1; lia|].
  rewrite Hw, IH. cbn [rbind default from_option id]. fold (eligible w). destruct (eligible w); reflexivity.
Qed.

Lemma refresh_all s s0 R R0 : repr s R -> repr s0 R0 -> same_len R0 R ->
  map (fun v => default v (r_vals R !! Z.to_nat (v_index v))) (r_vals R0) = r_vals R.
Proof.
  intros H H0 Hl. apply list_eq. intros i. rewrite list_lookup_fmap. unfold same_len in Hl.
  destruct (r_vals R0 !! i) as [v|] eqn:E; cbn [fmap option_fmap option_map].
  - destruct (repr_lookup s0 R0 i v H0 E) as (-> & _). rewrite Nat2Z.id. apply lookup_lt_Some in E.
    destruct (lookup_lt_is_Some_2 (r_vals R) i) as [w Hw]; [lia|]. rewrite Hw. reflexivity.
  - apply lookup_ge_None in E. symmetry. apply lookup_ge_None. lia.
Qed.

#[local] Instance index_le_total : Total index_le.
Proof. intros v w. unfold index_le. lia. Qed.
#[local] Instance index_le_trans : Transitive index_le.
Proof. intros u v w. unfold index_le. lia. Qed.

(** The records chosen for activation: the first of the pending ones. *)
Definition chosen (R : registry) (limit : Z) : list Validator :=
  take (Z.to_nat limit) (merge_sort index_le (List.filter eligible (r_vals R))).

Lemma sorted_pending R : Permutation (merge_sort index_le (List.filter eligible (r_vals R))) (List.filter eligible (r_vals R)) /\
  Sorted.StronglySorted index_le (merge_sort index_le (List.filter eligible (r_vals R))).
Proof. split; [apply merge_sort_Permutation | apply Sorting.Sorted.Sorted_StronglySorted; [intros ???; unfold index_le; lia | apply (Sorted_merge_sort index_le)]]. Qed.

Lemma chosen_in R limit v : v ∈ chosen R limit -> v ∈ r_vals R /\ eligible v = true.
Proof.
  intros Hv. assert (v ∈ merge_sort index_le (List.filter eligible (r_vals R))) as Hm.
  { rewrite <- (take_drop (Z.to_nat limit)). apply elem_of_app. left. exact Hv. }
  rewrite (merge_sort_Permutation index_le) in Hm. apply list_elem_of_In, List.filter_In in Hm as [Hm He].
  split; [apply list_elem_of_In, Hm | exact He].
Qed.

Lemma chosen_current s R limit : repr s R -> current R (chosen R limit).
Proof.
  intros H. split.
  - assert (List.NoDup (map v_index (merge_sort index_le (List.filter eligible (r_vals R))))) as Hnd.
    { eapply Permutation_NoDup; [apply Permutation_map, Permutation_sym, (merge_sort_Permutation index_le)|].
      apply NoDup_map_filter, (current_all s R H). }
    unfold chosen. rewrite <- (take_drop (Z.to_nat limit) (merge_sort _ _)), map_app in Hnd.
    apply NoDup_ListNoDup in Hnd. apply NoDup_app in Hnd as [Hnd _]. apply NoDup_ListNoDup, Hnd.
  - intros v Hv. apply (current_all s R H), (chosen_in R limit v Hv).
Qed.

Lemma filter_insert_false {A} (p : A -> bool) l i x y : l !! i = Some x -> p x = false -> p y = false ->
  List.filter p (<[i := y]> l) = List.filter p l.
Proof.
  revert i. induction l as [|z l IH]; intros [|i] Hi Hx Hy; cbn [lookup list_lookup] in Hi; try discriminate.
  - injection Hi as ->. cbn. rewrite Hx, Hy. reflexivity.
  - change (<[S i := y]> (z :: l)) with (z :: <[i := y]> l). cbn [List.filter]. rewrite (IH i Hi Hx Hy). reflexivity.
Qed.

(** Activations do not change the set of the epoch they are decided in. *)
Definition same_set (e : Z) (R R' : registry) : Prop := same_len R R' /\ active_in R' e = active_in R e.
#[local] Instance same_set_preorder e : PreOrder (same_set e).
Proof. split; [intros R; split; reflexivity | intros R R' R'' [H1 H2] [H3 H4]; split; [etrans; eassumption | congruence]]. Qed.

Definition activated_record (v : Validator) (e : Z) : Validator :=
  with_activation (with_status v StatusActive) (e +w MinActivationDelay).

Lemma activate_report e l : forall s rep,
  rep_activated (snd (fold_left (activate_one e) l (s, rep))) = rep_activated rep ++ map v_address l.
Proof.
  induction l as [|v l IH]; intros s rep; cbn [fold_left map]; [rewrite app_nil_r; reflexivity|].
  unfold activate_one at 2. cbn [fst snd]. rewrite IH. cbn [add_activated rep_activated].
  rewrite <- app_assoc. reflexivity.
Qed.

Lemma concat_single {X Y} (f : X -> Y) l : concat (map (fun x => [f x]) l) = map f l.
Proof. induction l as [|x l IH]; cbn; [reflexivity | rewrite IH; reflexivity]. Qed.

Lemma activate_spec s R s0 R0 e rep : repr s R -> repr s0 R0 -> same_len R0 R -> 0 <= e < 2 ^ 56 ->
  let L := chosen R (ChurnLimit (len (active_in R e))) in
  exists s' rep' R', activate s e (r_vals R0) rep = (s', Ok rep') /\ repr s' R' /\ step_ok (map v_index L) 0 R R' /\
    same_set e R R' /\
    (forall j, (forall v, v ∈ L -> j <> Z.to_nat (v_index v)) -> r_vals R' !! j = r_vals R !! j) /\
    Forall (fun v => r_vals R' !! Z.to_nat (v_index v) = Some (activated_record v e)) L /\
    rep_activated rep' = rep_activated rep ++ map v_address L.
Proof.
  intros H H0 Hlen He L. unfold activate. rewrite (ActiveAt_repr s R e H).
  assert (Forall (in_range R) (r_vals R0)) as Hr.
  { apply Forall_forall. intros v Hv. apply list_elem_of_lookup in Hv as [i Hv].
    destruct (lookup_at s0 R0 i v H0 Hv) as (_ & Ho & Hlt). pose proof (ok_index v Ho) as [? _].
    unfold in_range, same_len, len in *. lia. }
  rewrite (collect_pending_spec s R _ H Hr), (refresh_all s s0 R R0 H H0 Hlen). fold (chosen R (ChurnLimit (len (active_in R e)))). fold L.
  pose proof (activate_report e L s rep) as Erep.
  destruct (fold_steps (activate_one e) (fun _ => 0) (fun v => [v_index v]) (fun v => eligible v = true)
      (fun _ => True) (same_set e) (fun v v' => v' = activated_record v e))
    with (l := L) (s := s) (R := R) (rep := rep) as (R' & H1 & S1 & O1 & F1 & T1 & _); auto.
  - intros s1 R1 rep1 v H1 Hv He1 _. unfold activate_one. cbn [fst snd]. fold (activated_record v e).
    apply andb_prop in He1 as [Est _]. apply bool_decide_eq_true in Est.
    destruct (lookup_at s1 R1 _ v H1 Hv) as (_ & Ho & Hlt). pose proof (ok_index v Ho) as [Hi _].
    assert (val_ok (activated_record v e)) as Hok by (unfold activated_record; eauto with staking).
    exists (put R1 (activated_record v e)), (activated_record v e). split; [apply repr_Put; assumption|]. split.
    + eapply step_eq; [apply (step_put [v_index v] R1 v (activated_record v e) Hv)|].
      * apply evolves_activate, Est.
      * exact Hi.
      * intros _. right. left.
      * cbn. lia.
    + split; [reflexivity|]. split; [reflexivity|]. split; [|exact I]. split; [apply put_len|].
      unfold active_in. cbn [put r_vals]. apply (filter_insert_false _ _ _ v); [exact Hv | |].
      * unfold IsActiveAt. rewrite Est. reflexivity.
      * unfold IsActiveAt, activated_record. cbn [with_activation with_status v_status v_activation].
        unfold MinActivationDelay. rewrite wrap64_small by (unfold u64_ok, two64; lia). apply Z.leb_gt. lia.
  - apply (chosen_current s), H.
  - apply Forall_forall. intros v Hv. apply (chosen_in R _ v Hv).
  - destruct (fold_left (activate_one e) L (s, rep)) as [s' rep'] eqn:Ef. cbn [fst snd] in *.
    exists s', rep', R'. split; [reflexivity|]. split; [exact H1|]. split.
    { rewrite concat_single in S1. exact S1. }
    split; [exact T1|]. split; [exact O1|]. split.
    + eapply Forall_impl; [exact F1|]. intros v (v' & Hv' & ->). exact Hv'.
    + exact Erep.
Qed.

(** ** The whole transition *)

Definition processed (R : registry) (e : Z) : bool := (e <=? es_last (r_epoch R)) && negb (es_last (r_epoch R) =? 0).

Lemma ProcessEpoch_spec s R e p fe : repr s R -> total R < 2 ^ 200 -> 0 <= e < 2 ^ 56 -> u64_ok fe ->
  match p with Some p => participation_ok p | None => True end -> processed R e = false ->
  exists s' rep R' R1, ProcessEpoch s e p fe = (s', Ok rep) /\ repr s' R' /\
    let L := chosen R1 (ChurnLimit (len (active_in R' e))) in
    step_ok [] 0 R R1 /\ step_ok (map v_index L) 0 R1 R' /\ (exists s1, repr s1 R1) /\
    rep_activated rep = map v_address L /\
    r_epoch R' = mkEpochState e fe (es_queue_epoch (r_epoch R)) (es_queue_count (r_epoch R)) /\
    (forall j, (forall v, v ∈ L -> j <> Z.to_nat (v_index v)) -> r_vals R' !! j = r_vals R1 !! j) /\
    Forall (fun v => r_vals R' !! Z.to_nat (v_index v) = Some (activated_record v e)) L.
Proof.
  intros H Ht He Hfe Hp Hpr. assert (u64_ok e) as Heu by (unfold u64_ok, two64; lia).
  unfold ProcessEpoch. rewrite (rp_epoch _ _ H). unfold processed in Hpr. rewrite Hpr, (All_repr s R H).
  destruct (settle_spec s R e p fe (new_report e) H Ht Heu Hfe Hp eq_refl eq_refl)
    as (s1 & rep1 & active & R1 & -> & H1 & S1 & T1 & A1 & G1).
  destruct (correlation_spec s1 R1 e rep1 H1) as (s2 & rep2 & R2 & -> & H2 & S2 & T2 & A2).
  pose proof (repr_ResetSlashedStake s2 R2 (e +w 1) H2) as H3. set (R3 := set_slashed R2 (e +w 1) 0) in *.
  assert (Forall (in_range R3) active) as G3.
  { eapply Forall_impl; [exact G1|]. intros v Hv. unfold in_range, same_len, len in *. cbn [R3 set_slashed r_vals]. lia. }
  destruct (eject_spec e Heu active _ R3 rep2 H3 G3) as (s4 & rep4 & R4 & -> & H4 & S4 & T4 & A4).
  assert (same_len R R4) as T04.
  { etrans; [exact T1|]. etrans; [exact T2|]. exact T4. }
  destruct (activate_spec s4 R4 s R e rep4 H4 H T04 He) as (s5 & rep5 & R5 & -> & H5 & S5 & [_ T5] & O5 & F5 & A5).
  set (st := mkEpochState e fe (es_queue_epoch (r_epoch R)) (es_queue_count (r_epoch R))).
  assert (epoch_ok st) as Hst.
  { pose proof (epoch_state_ok s (rp_ok _ _ H)) as (_ & _ & E3 & E4). rewrite (rp_epoch _ _ H) in E3, E4.
    split; [exact Heu|]. split; [exact Hfe|]. split; [exact E3 | exact E4]. }
  exists (SaveEpochState s5 st), rep5, (set_epoch R5 st), R4. split; [reflexivity|].
  split; [apply repr_SaveEpochState; assumption|]. cbv zeta.
  change (active_in (set_epoch R5 st) e) with (active_in R5 e). rewrite T5.
  split; [exact (step_quiet _ _ _ _ _ S1 (step_quiet _ _ _ _ _ S2 (step_quiet _ _ _ _ _ (step_slashed _ _ _) S4)))|].
  split; [rewrite <- (app_nil_r (map v_index _)); exact (step_trans _ _ _ _ _ _ _ S5 (step_epoch _ _))|].
  split; [exists s4; exact H4|]. split; [rewrite A5, A4, A2, A1; reflexivity|]. split; [reflexivity|].
  split; [exact O5 | exact F5].
Qed.

(** * Executions *)

(** Well-typed arguments and a supply the balances can hold. *)
Definition supply_ok (s : State) : Prop := total (abs s) < 2 ^ 200 /\ len (vals s) + 1 < two64.

(** [op_step s d s']: one operation on the staking state, or a change of the
    rest of the world; [d] is what the staking account gains beyond deposits. *)
Inductive op_step (s : State) : Z -> State -> Prop :=
| op_deposit a w x e s' v : address_ok a -> address_ok w -> 0 <= x < 2 ^ 200 ->
    Deposit (AddBalance s StakingAddress x) a w x e = (s', Ok v) -> op_step s 0 s'
| op_deposit_key a w k pop x e s' v : address_ok a -> address_ok w -> 0 <= x < 2 ^ 200 -> bytes_ok k ->
    (is_Some (PublicKeyFromBytes k) -> isZeroBytes k = false) ->
    DepositWithKey (AddBalance s StakingAddress x) a w k pop x e = (s', Ok v) -> op_step s 0 s'
| op_exit a e s' v : address_ok a -> u64_ok e -> RequestExit s a e = (s', Ok v) -> op_step s 0 s'
| op_slash a e s' v x : address_ok a -> 0 <= e < 2 ^ 56 -> Slash s a e = (s', Ok (v, x)) -> op_step s 0 s'
| op_withdraw a e s' x : address_ok a -> Withdraw s a e = (s', Ok x) ->
    op_step s (match ByAddress s a with
               | Ok v => if decide (v_withdrawal v = StakingAddress) then x else 0
               | Err _ => 0
               end) s'
| op_epoch e p fe s' rep : 0 <= e < 2 ^ 56 -> u64_ok fe ->
    match p with Some p => participation_ok p | None => True end ->
    ProcessEpoch s e p fe = (s', Ok rep) -> op_step s 0 s'
| op_other s' : state_ok s' -> (forall k, read s' k = read s k) ->
    GetBalance s StakingAddress <= GetBalance s' StakingAddress ->
    op_step s (GetBalance s' StakingAddress - GetBalance s StakingAddress) s'.

Lemma deposit_credit s R x : repr s R -> repr (AddBalance s StakingAddress x) (add_bal R StakingAddress x) /\
  step_ok [] x R (add_bal R StakingAddress x).
Proof.
  intros H. split; [apply repr_AddBalance, H|]. pose proof (step_bal R StakingAddress x) as Hb.
  rewrite decide_True in Hb by reflexivity. exact Hb.
Qed.

Lemma op_step_sound s d s' : state_ok s -> supply_ok s -> op_step s d s' ->
  0 <= d /\ exists A R', repr s' R' /\ step_ok A d (abs s) R'.
Proof.
  intros Hs [Ht Hn] Hop. pose proof (repr_abs s Hs) as H. set (R := abs s) in *. change (vals s) with (r_vals R) in Hn.
  pose proof (total_nonneg s R H) as Hpos.
  destruct Hop as [a w x e s' v Ha Hw Hx E | a w k pop x e s' v Ha Hw Hx Hk Hz E | a e s' v Ha He E
    | a e s' v x Ha He E | a e s' x Ha E | e p fe s' rep He Hfe Hp E | s' Hs' Hr Hb].
  - split; [lia|]. destruct (deposit_credit s R x H) as [H1 S1].
    pose proof (Deposit_spec _ _ a w x e H1 Ha Hw (proj1 Hx) ltac:(change (total R + x < 2 ^ 256); lia) Hn) as HD. rewrite E in HD.
    destruct HD as (R' & Hr & S2 & _). exists [], R'. split; [exact Hr|].
    eapply step_eq; [exact (step_quiet _ _ _ _ _ S1 S2) | lia].
  - split; [lia|]. destruct (deposit_credit s R x H) as [H1 S1].
    pose proof (DepositWithKey_step _ _ a w k pop x e H1 Ha Hw (proj1 Hx) ltac:(change (total R + x < 2 ^ 256); lia) Hn Hk Hz) as HD.
    rewrite E in HD. destruct HD as (R' & Hr & S2). exists [], R'. split; [exact Hr|].
    eapply step_eq; [exact (step_quiet _ _ _ _ _ S1 S2) | lia].
  - split; [lia|]. pose proof (RequestExit_spec s R a e H Ha He) as HE. rewrite E in HE.
    destruct HE as (u & R' & _ & Hr & S1 & _). eauto.
  - split; [lia|]. pose proof (Slash_spec s R a e H Ha He) as HE. rewrite E in HE.
    destruct HE as (u & R' & _ & Hr & S1 & _). eauto.
  - pose proof (Withdraw_spec s R a e H Ha) as HE. rewrite E in HE.
    destruct HE as (u & R' & El & Hr & S1 & Ex & _). rewrite (ByAddress_lookup s R a H Ha), El.
    destruct (lookup_addr_at s R a u H El) as (_ & Ho & _). pose proof (ok_balance u Ho).
    split; [destruct (decide _); lia | eauto].
  - split; [lia|]. destruct (processed R e) eqn:Ep.
    + unfold ProcessEpoch in E. rewrite (rp_epoch _ _ H) in E. unfold processed in Ep. rewrite Ep in E. discriminate.
    + destruct (ProcessEpoch_spec s R e p fe H Ht He Hfe Hp Ep) as (s1 & rep1 & R' & R1 & E1 & Hr & S1 & S2 & _).
      rewrite E1 in E. injection E as <- <-. exists ([] ++ map v_index (chosen R1 (ChurnLimit (len (active_in R' e))))), R'.
      split; [exact Hr|]. exact (step_trans _ _ _ _ _ _ _ S1 S2).
  - split; [lia|]. exists [], (mkRegistry (r_vals R) (r_index R) (r_slashed R) (r_epoch R) (r_mix R) (GetBalance s')).
    split; [apply (repr_storage s); auto|]. apply step_frame; [reflexivity|]. unfold surplus, total. cbn. lia.
Qed.

(** The surplus and the records depend on the state only. *)
Lemma repr_surplus s R : repr s R -> surplus R = surplus (abs s) /\ r_vals R = vals s.
Proof.
  intros H. unfold surplus, total. cbn [abs r_vals r_bal]. rewrite (rp_vals _ _ H), (rp_bal _ _ H). auto.
Qed.

(** Histories from an empty registry, with what the account gained beyond deposits. *)
Inductive history : Z -> State -> Prop :=
| h_start s : state_ok s -> vals s = [] -> 0 <= GetBalance s StakingAddress -> history (GetBalance s StakingAddress) s
| h_step n s d s' : history n s -> supply_ok s -> op_step s d s' -> history (n + d) s'.

Lemma history_inv n s : history n s -> state_ok s /\ 0 <= n /\ surplus (abs s) = n /\ Forall locked (vals s).
Proof.
  induction 1 as [s Hs Hv Hb | n s d s' _ (Hs & Hn & Hsur & Hl) Hsup Hop].
  - split; [exact Hs|]. split; [exact Hb|]. rewrite Hv. split; [|constructor].
    unfold surplus, total. cbn [abs r_vals r_bal]. rewrite Hv. cbn. lia.
  - destruct (op_step_sound s d s' Hs Hsup Hop) as (Hd & A & R' & Hr & Hstep). destruct (repr_surplus s' R' Hr) as [E1 E2].
    split; [apply (rp_ok _ _ Hr)|]. split; [lia|]. split.
    + rewrite <- E1, (st_surplus _ _ _ _ Hstep), Hsur. reflexivity.
    + rewrite <- E2. apply (st_locked _ _ _ _ Hstep), Hl.
Qed.

(** Any number of operations. *)
Definition ops : State -> State -> Prop := rtc (fun s s' => supply_ok s /\ exists d, op_step s d s').

Lemma ops_sound s s' : ops s s' -> state_ok s -> state_ok s' /\ vals_evolve (vals s) (vals s').
Proof.
  induction 1 as [s | s s1 s' (Hsup & d & Hop) _ IH]; intros Hs; [split; [exact Hs | reflexivity]|].
  destruct (op_step_sound s d s1 Hs Hsup Hop) as (_ & A & R' & Hr & Hstep).
  destruct (repr_surplus s1 R' Hr) as [_ E]. destruct (IH (rp_ok _ _ Hr)) as [Hs' Hv].
  split; [exact Hs'|]. etrans; [|exact Hv]. rewrite <- E. exact (st_vals _ _ _ _ Hstep).
Qed.

(** ** The set within an epoch *)

Lemma queue_exit_later st e limit : u64_ok (es_queue_epoch st) -> 0 <= e < 2 ^ 56 -> es_queue_epoch st + 1 < two64 ->
  e < es_queue_epoch (queue_exit st e limit).
Proof.
  intros [Hq0 _] He Hq. unfold queue_exit, MinActivationDelay.
  assert (e +w 1 = e + 1) as E by (apply wrap64_small; unfold u64_ok, two64; lia). rewrite E.
  destruct (Z.ltb_spec (es_queue_epoch st) (e + 1)); cbn [es_last es_finalized es_queue_epoch es_queue_count].
  - destruct (_ <=? _); cbn [es_queue_epoch]; [|lia]. rewrite wrap64_small; [lia | unfold u64_ok, two64; lia].
  - destruct (_ <=? _); cbn [es_queue_epoch]; [|lia]. rewrite wrap64_small; [lia | split; lia].
Qed.

Lemma filter_map_insert {A X} (p : A -> bool) (f : A -> X) l i x y : l !! i = Some x -> p y = p x -> f y = f x ->
  map f (List.filter p (<[i := y]> l)) = map f (List.filter p l).
Proof.
  revert i. induction l as [|z l IH]; intros [|i] Hi Hp Hf; cbn [lookup list_lookup] in Hi; try discriminate.
  - injection Hi as ->. change (<[0%nat := y]> (x :: l)) with (y :: l). cbn [List.filter]. rewrite Hp.
    destruct (p x); cbn [map]; [rewrite Hf|]; reflexivity.
  - change (<[S i := y]> (z :: l)) with (z :: <[i := y]> l). cbn [List.filter]. destruct (p z); cbn [map]; rewrite (IH i Hi Hp Hf); reflexivity.
Qed.

Lemma addresses_repr s R e : repr s R -> ActiveAddressesAt s e = Ok (map v_address (active_in R e)).
Proof. intros H. unfold ActiveAddressesAt. rewrite (ActiveAt_repr s R e H). reflexivity. Qed.

Lemma exit_keeps_set s R a e s' v' : repr s R -> address_ok a -> 0 <= e < 2 ^ 56 -> es_queue_epoch (r_epoch R) + 1 < two64 ->
  RequestExit s a e = (s', Ok v') -> exists R', repr s' R' /\ map v_address (active_in R' e) = map v_address (active_in R e).
Proof.
  intros H Ha He Hq E. assert (u64_ok e) as Heu by (unfold u64_ok, two64; lia).
  pose proof (RequestExit_spec s R a e H Ha Heu) as HE. rewrite E in HE.
  destruct HE as (v & R' & El & Hr & _ & Hi & Hcase). destruct (lookup_addr_at s R a v H El) as (Hv & _ & _).
  exists R'. split; [exact Hr|]. unfold active_in. destruct Hcase as [(Hst & -> & ->)|(Hst & -> & ->)]; cbn [put set_epoch r_vals].
  - apply (filter_map_insert _ v_address _ _ v); [exact Hv | | reflexivity].
    assert (e < es_queue_epoch (queued R e)) as Hlt.
    { apply queue_exit_later; [|exact He | exact Hq]. pose proof (epoch_state_ok s (rp_ok _ _ H)) as (_ & _ & H3 & _).
      rewrite (rp_epoch _ _ H) in H3. exact H3. }
    unfold IsActiveAt, exiting_record. rewrite Hst. cbn [with_exit with_status v_status v_activation v_exit].
    destruct (Z.ltb_spec e (es_queue_epoch (queued R e))); [apply andb_true_r | lia].
  - apply (filter_map_insert _ v_address _ _ v); [exact Hv | | reflexivity].
    unfold IsActiveAt, cancelled_record. rewrite Hst. reflexivity.
Qed.

Lemma withdraw_keeps_set s R a e s' x : repr s R -> address_ok a -> Withdraw s a e = (s', Ok x) ->
  exists R', repr s' R' /\ active_in R' e = active_in R e.
Proof.
  intros H Ha E. pose proof (Withdraw_spec s R a e H Ha) as HE. rewrite E in HE.
  destruct HE as (v & R' & El & Hr & _ & _ & Hst & _ & Ev & _). destruct (lookup_addr_at s R a v H El) as (Hv & _ & _).
  exists R'. split; [exact Hr|]. unfold active_in. rewrite Ev.
  apply (filter_insert_false _ _ _ v); [exact Hv | unfold IsActiveAt; destruct Hst as [-> | ->]; reflexivity | reflexivity].
Qed.

Lemma deposit_keeps_set s R a w x e s' v' : repr s R -> address_ok a -> address_ok w -> 0 <= x -> total R + x < 2 ^ 256 ->
  len (r_vals R) + 1 < two64 -> Deposit s a w x e = (s', Ok v') ->
  exists R', repr s' R' /\ map v_address (active_in R' e) = map v_address (active_in R e).
Proof.
  intros H Ha Hw Hx Ht Hn E. unfold Deposit in E. rewrite (ByAddress_lookup s R a H Ha) in E.
  destruct (lookup_addr R a) as [v|] eqn:El.
  - destruct (lookup_addr_at s R a v H El) as (Hv & Ho & Hi). pose proof (balance_bound s R v _ H Hv). pose proof (ok_balance v Ho).
    destruct (put_balance_step s R v (v_balance v + x) H Hv ltac:(lia)) as [Hr _].
    assert (s' = Put s (with_balance v (v_balance v + x))) as -> by (destruct (v_status v); congruence).
    eexists. split; [exact Hr|]. apply (filter_map_insert _ v_address _ _ v); [exact Hv | reflexivity | reflexivity].
  - destruct (x <? MinDeposit); [discriminate|]. pose proof (total_nonneg s R H).
    destruct (repr_Append s R (new_record a w x) H (new_record_ok a w x Ha Hw ltac:(lia)) Hn) as [Hr _].
    fold (new_record a w x) in E. destruct (Append s (new_record a w x)) as [s1 v1]. injection E as <- _. cbn [fst] in Hr.
    eexists. split; [exact Hr|]. unfold active_in. cbn [append r_vals]. rewrite List.filter_app, map_app. cbn. apply app_nil_r.
Qed.

(** ** The activation queue *)

Lemma sorted_split {A} (R : A -> A -> Prop) (l r : list A) x y : Sorted.StronglySorted R (l ++ r) -> List.In x l -> List.In y r -> R x y.
Proof.
  induction l as [|z l IH]; intros Hs Hx Hy; [destruct Hx|]. cbn in Hs. apply Sorting.Sorted.StronglySorted_inv in Hs as [Hs Hz].
  destruct Hx as [->|Hx]; [|apply IH; assumption]. rewrite List.Forall_forall in Hz. apply Hz, List.in_app_iff. auto.
Qed.

Lemma churn_pos n : 0 < ChurnLimit n.
Proof. unfold ChurnLimit, MinChurnLimit. destruct (Z.ltb_spec (n / ChurnLimitQuotient) 4); lia. Qed.

(** A record that stays eligible is behind everything chosen, and the limit was used up. *)
Lemma chosen_first s1 R1 R' e limit i v' : repr s1 R1 -> 0 < limit ->
  (forall j, (forall v, v ∈ chosen R1 limit -> j <> Z.to_nat (v_index v)) -> r_vals R' !! j = r_vals R1 !! j) ->
  Forall (fun v => r_vals R' !! Z.to_nat (v_index v) = Some (activated_record v e)) (chosen R1 limit) ->
  r_vals R' !! i = Some v' -> eligible v' = true ->
  len (chosen R1 limit) = limit /\ Forall (fun a => a < Z.of_nat i) (map v_index (chosen R1 limit)).
Proof.
  intros H Hlim Ho Hf Hi He.
  assert (forall v, v ∈ chosen R1 limit -> i <> Z.to_nat (v_index v)) as Hn.
  { intros v Hv ->. rewrite Forall_forall in Hf. rewrite (Hf v Hv) in Hi. injection Hi as <-. discriminate He. }
  rewrite (Ho i Hn) in Hi. destruct (repr_lookup s1 R1 i v' H Hi) as (Ei & Hok & _).
  destruct (sorted_pending R1) as [HP HS]. unfold chosen in *.
  set (M := merge_sort index_le (List.filter eligible (r_vals R1))) in *.
  assert (List.In v' M) as HM.
  { apply (Permutation_in _ (Permutation_sym HP)), List.filter_In. split; [|exact He].
    apply list_elem_of_In, (list_elem_of_lookup_2 _ _ _ Hi). }
  rewrite <- (take_drop (Z.to_nat limit) M) in HM, HS. apply List.in_app_iff in HM as [HM|HM].
  { exfalso. apply (Hn v'); [apply list_elem_of_In, HM | rewrite Ei; lia]. }
  split.
  - unfold len. rewrite length_take. assert (0 < length (drop (Z.to_nat limit) M))%nat as Hd
      by (destruct (drop _ M); [destruct HM | cbn; lia]). rewrite length_drop in Hd. lia.
  - apply Forall_map, Forall_forall. intros v Hv. pose proof (Hn v Hv) as Hne. apply list_elem_of_In in Hv.
    pose proof (sorted_split index_le _ _ v v' HS Hv HM) as Hle. unfold index_le in Hle.
    assert (val_ok v) as Hvo.
    { apply list_elem_of_In in Hv. destruct (chosen_in R1 limit v Hv) as [Hin _].
      apply list_elem_of_lookup in Hin as [j Hj]. apply (lookup_at s1 R1 j v H Hj). }
    pose proof (ok_index v Hvo) as [? _]. lia.
Qed.

End Steps.

(** * Main theorems *)

(** C4: the stake is always backed.  After any sequence of deposits, exits,
    slashings, withdrawals, epoch transitions and changes elsewhere, the staking
    account holds exactly the validators' balances plus what it was given beyond
    deposits, so a withdrawal never takes another validator's funds. *)
Theorem stake_backed `{K : Keccak} `{SA : StateAccess} {SH : SlotHash K} {SL : StateLaws SA} {B : Bls} {BP : BlsPossession B}
    (n : Z) (s : State) (H : history n s) :
  exists t, TotalStaked s = Ok t /\ GetBalance s StakingAddress = t + n /\ 0 <= t /\ 0 <= n.
Proof.
  destruct (history_inv n s H) as (Hs & Hn & Hsur & _). exists (total (abs s)).
  split; [unfold TotalStaked; rewrite All_vals; cbn [rbind]; rewrite fold_sum; reflexivity|].
  unfold surplus in Hsur. cbn [abs r_bal] in Hsur. split; [lia|].
  split; [apply (total_nonneg s), repr_abs, Hs | exact Hn].
Qed.

(** Records only move forward.  Through any operations a record keeps its
    index, address, withdrawal address and registered key, and its status follows
    pending, active, exiting, exited, withdrawn, with the shortcuts for leaving
    before activation and for slashing. *)
Theorem lifecycle_order `{K : Keccak} `{SA : StateAccess} {SH : SlotHash K} {SL : StateLaws SA} {B : Bls} {BP : BlsPossession B}
    (s s' : State) (i : nat) (v : Validator) (Hs : state_ok s) (Hops : ops s s') (Hv : vals s !! i = Some v) :
  exists v', vals s' !! i = Some v' /\ v_index v' = v_index v /\ v_address v' = v_address v /\
    v_withdrawal v' = v_withdrawal v /\ (v_bls v <> [] -> v_bls v' = v_bls v) /\
    rtc status_step (v_status v) (v_status v').
Proof.
  destruct (ops_sound s s' Hops Hs) as [_ He]. destruct (He i v Hv) as (v' & Hv' & []). eauto 10.
Qed.

(** A withdrawal pays the whole balance once, to the withdrawal address, and
    only when the delay after the exit has passed. *)
Theorem withdrawal_once_after_delay `{K : Keccak} `{SA : StateAccess} {SH : SlotHash K} {SL : StateLaws SA}
    {B : Bls} {BP : BlsPossession B} (n : Z) (s s' : State) (a : Address) (e x : Z)
    (H : history n s) (Ha : address_ok a) (E : Withdraw s a e = (s', Ok x)) :
  exists v, ByAddress s a = Ok v /\ (v_status v = StatusExited \/ v_status v = StatusSlashed) /\
    v_exit v +w WithdrawalDelay <= e /\ x = v_balance v /\
    (v_withdrawal v <> StakingAddress -> GetBalance s' (v_withdrawal v) = GetBalance s (v_withdrawal v) + x) /\
    (forall e', Withdraw s' a e' = (s', Err ErrAlreadyWithdrawn)).
Proof.
  destruct (history_inv n s H) as (Hs & _ & _ & Hl). pose proof (repr_abs s Hs) as Hr.
  pose proof (Withdraw_spec s _ a e Hr Ha) as HW. rewrite E in HW.
  destruct HW as (v & R' & El & Hr' & _ & Ex & Hst & Hw & Ev & Ei & Hpay).
  destruct (lookup_addr_at s _ a v Hr El) as (Hv & Ho & _).
  exists v. rewrite (ByAddress_lookup s _ a Hr Ha), El. split; [reflexivity|]. split; [exact Hst|]. split.
  - rewrite Forall_lookup in Hl. pose proof (Hl _ _ Hv) as Hlk. unfold locked in Hlk.
    destruct Hst as [Hst|Hst]; rewrite Hst in Hlk; lia.
  - split; [exact Ex|]. split; [intros Hne; rewrite (rp_bal _ _ Hr'); exact (Hpay Hne)|].
    intros e'. unfold Withdraw. rewrite (ByAddress_lookup s' R' a Hr' Ha). unfold lookup_addr in *. rewrite Ei.
    destruct (r_index (abs s) a) as [i|]; [|discriminate]. rewrite Ev.
    destruct (repr_lookup s _ _ v Hr El) as (Eix & _). rewrite Eix, Nat2Z.id.
    rewrite list_lookup_insert_eq by (apply (lookup_lt_Some _ _ _ El)). reflexivity.
Qed.

(** An epoch transition succeeds unless the epoch was processed, and
    activations are bounded and fair: at most [ChurnLimit] records become
    active, and one that stays eligible is behind every activated one in a full
    round. *)
Theorem activation_churn `{K : Keccak} `{SA : StateAccess} {SH : SlotHash K} {SL : StateLaws SA}
    {B : Bls} {BP : BlsPossession B} (s : State) (e fe : Z) (p : option Participation)
    (Hs : state_ok s) (Hsup : supply_ok s) (He : 0 <= e < 2 ^ 56) (Hfe : u64_ok fe)
    (Hp : match p with Some p => participation_ok p | None => True end)
    (Hnew : es_last (LoadEpochState s) < e \/ es_last (LoadEpochState s) = 0) :
  exists s' rep A, ProcessEpoch s e p fe = (s', Ok rep) /\
    let limit := ChurnLimit (len (active_in (abs s') e)) in
    len A <= limit /\ len (rep_activated rep) = len A /\
    (forall i v v', vals s !! i = Some v -> vals s' !! i = Some v' ->
       v_status v' = StatusActive -> v_status v = StatusActive \/ Z.of_nat i ∈ A) /\
    (forall i v', vals s' !! i = Some v' -> eligible v' = true ->
       len A = limit /\ Forall (fun a => a < Z.of_nat i) A) /\
    (0 < e -> ProcessEpoch s' e p fe = (s', Err ErrEpochProcessed)).
Proof.
  pose proof (repr_abs s Hs) as H. destruct Hsup as [Ht _].
  assert (processed (abs s) e = false) as Hpr.
  { unfold processed. cbn [abs r_epoch]. destruct Hnew as [Hn | ->].
    - apply andb_false_intro1, Z.leb_gt. exact Hn.
    - apply andb_false_r. }
  destruct (ProcessEpoch_spec s _ e p fe H Ht He Hfe Hp Hpr)
    as (s' & rep & R' & R1 & E & Hr & S1 & S2 & (s1 & Hr1) & Ea & Ee & Ho & Hf).
  destruct (repr_surplus s' R' Hr) as [_ Ev].
  assert (active_in R' e = active_in (abs s') e) as Eact by (unfold active_in; rewrite Ev; reflexivity).
  exists s', rep, (map v_index (chosen R1 (ChurnLimit (len (active_in R' e))))). split; [exact E|]. cbv zeta. rewrite <- Eact.
  set (L := chosen R1 _) in *. pose proof (churn_pos (len (active_in R' e))) as Hpos.
  split; [unfold len at 1; rewrite length_map; unfold L, chosen; rewrite length_take; lia|].
  split; [rewrite Ea; unfold len; rewrite !length_map; reflexivity|].
  split; [|split].
  - intros i v v' Hv Hv'. rewrite <- Ev in Hv'. change (vals s) with (r_vals (abs s)) in Hv.
    exact (st_active _ _ _ _ (step_trans _ _ _ _ _ _ _ S1 S2) i v v' Hv Hv').
  - intros i v' Hv' Hel. rewrite <- Ev in Hv'. unfold len at 1. rewrite length_map. fold (len L).
    exact (chosen_first s1 R1 R' e _ i v' Hr1 Hpos Ho Hf Hv' Hel).
  - intros He0. unfold ProcessEpoch. rewrite (rp_epoch _ _ Hr), Ee. cbn [es_last].
    destruct (Z.leb_spec e e); [|lia]. destruct (Z.eqb_spec e 0); [lia|]. reflexivity.
Qed.

(** The exit queue forgets ejections.  Whatever [ProcessEpoch] schedules
    for ejected validators, it then stores the queue as it was before, so the
    next exits are placed as if those had not been. *)
Theorem ejections_forgotten `{K : Keccak} `{SA : StateAccess} {SH : SlotHash K} {SL : StateLaws SA}
    {B : Bls} {BP : BlsPossession B} (s s' : State) (e fe : Z) (p : option Participation) (rep : EpochReport)
    (Hs : state_ok s) (Hsup : supply_ok s) (He : 0 <= e < 2 ^ 56) (Hfe : u64_ok fe)
    (Hp : match p with Some p => participation_ok p | None => True end)
    (E : ProcessEpoch s e p fe = (s', Ok rep)) :
  es_queue_epoch (LoadEpochState s') = es_queue_epoch (LoadEpochState s) /\
  es_queue_count (LoadEpochState s') = es_queue_count (LoadEpochState s).
Proof.
  pose proof (repr_abs s Hs) as H. destruct Hsup as [Ht _]. destruct (processed (abs s) e) eqn:Ep.
  - unfold ProcessEpoch in E. unfold processed in Ep. cbn [abs r_epoch] in Ep. rewrite Ep in E. discriminate.
  - destruct (ProcessEpoch_spec s _ e p fe H Ht He Hfe Hp Ep) as (s1 & rep1 & R' & R1 & E1 & Hr & _ & _ & _ & _ & Ee & _).
    rewrite E1 in E. injection E as <- <-. rewrite (rp_epoch _ _ Hr), Ee. split; reflexivity.
Qed.

(** Within an epoch the set a block is checked against does not move:
    deposits, exits and withdrawals leave the active addresses of the epoch as
    they were; only slashing removes a validator at once. *)
Theorem active_set_stable `{K : Keccak} `{SA : StateAccess} {SH : SlotHash K} {SL : StateLaws SA}
    {B : Bls} {BP : BlsPossession B} (s : State) (a w : Address) (e x : Z)
    (Hs : state_ok s) (Hsup : supply_ok s) (Ha : address_ok a) (Hw : address_ok w) (He : 0 <= e < 2 ^ 56)
    (Hx : 0 <= x < 2 ^ 200) (Hq : es_queue_epoch (LoadEpochState s) + 1 < two64) :
  (forall s' v, Deposit s a w x e = (s', Ok v) -> ActiveAddressesAt s' e = ActiveAddressesAt s e) /\
  (forall s' v, RequestExit s a e = (s', Ok v) -> ActiveAddressesAt s' e = ActiveAddressesAt s e) /\
  (forall s' y, Withdraw s a e = (s', Ok y) -> ActiveAddressesAt s' e = ActiveAddressesAt s e) /\
  (forall s' v y, Slash s a e = (s', Ok (v, y)) -> IsActiveAt v e = false /\ Get s' (v_index v) = Ok v).
Proof.
  pose proof (repr_abs s Hs) as H. destruct Hsup as [Ht Hn]. change (vals s) with (r_vals (abs s)) in Hn.
  rewrite (addresses_repr s _ e H). split; [|split; [|split]].
  - intros s' v E. destruct (deposit_keeps_set s _ a w x e s' v H Ha Hw (proj1 Hx) ltac:(lia) Hn E) as (R' & Hr & Em).
    rewrite (addresses_repr s' R' e Hr), Em. reflexivity.
  - intros s' v E. destruct (exit_keeps_set s _ a e s' v H Ha He Hq E) as (R' & Hr & Em).
    rewrite (addresses_repr s' R' e Hr), Em. reflexivity.
  - intros s' y E. destruct (withdraw_keeps_set s _ a e s' y H Ha E) as (R' & Hr & Em).
    rewrite (addresses_repr s' R' e Hr), Em. reflexivity.
  - intros s' v y E. pose proof (Slash_spec s _ a e H Ha He) as HS. rewrite E in HS.
    destruct HS as (u & R' & El & Hr & _ & -> & _ & Ev & _). split; [reflexivity|].
    destruct (lookup_addr_at s _ a u H El) as (Hu & Ho & _). pose proof (ok_index u Ho) as [Hi _].
    rewrite (Get_repr s' R' _ Hr) by exact Hi. rewrite Ev. cbn [slashed_record with_exit with_slashed with_status with_balance v_index].
    rewrite list_lookup_insert_eq by (apply (lookup_lt_Some _ _ _ Hu)). reflexivity.
Qed.

(** ** Witnesses *)

#[local] Existing Instance toy_keccak.
#[local] Existing Instance toy_slots.
#[local] Existing Instance map_access.
#[local] Existing Instance map_laws.
#[local] Instance sample_bls : Bls := Att.toy_bls [].
#[local] Instance sample_possession : BlsPossession sample_bls := fun _ _ => true.

Definition fresh : @State map_access := empty_state.
Lemma fresh_ok : state_ok fresh.
Proof. exact empty_ok. Qed.

Definition sample_a : Address := sample_address 1.
Definition sample_w : Address := sample_address 101.
Definition sample_stake : Z := 32 * Ether.

(** One deposit, then the cancellation of it. *)
Definition deposited : @State map_access :=
  fst (Deposit (AddBalance fresh StakingAddress sample_stake) sample_a sample_w sample_stake 0).
Definition cancelled : @State map_access := fst (RequestExit deposited sample_a 3).

Lemma sample_address_ok n : 0 <= n < 256 -> address_ok (sample_address n).
Proof. intros Hn. apply BytesToAddress_ok. constructor; [exact Hn | constructor]. Qed.

Lemma pair_ok {X Y} (p : X * result error Y) v : snd p = Ok v -> p = (fst p, Ok v).
Proof. intros E. rewrite (surjective_pairing p) at 1. rewrite E. reflexivity. Qed.

Lemma empty_supply : supply_ok fresh.
Proof. split; vm_compute; reflexivity. Qed.

Lemma deposited_history : history (0 + 0) deposited.
Proof.
  refine (h_step 0 fresh 0 deposited (h_start fresh fresh_ok _ _) empty_supply
    (op_deposit fresh sample_a sample_w sample_stake 0 deposited _ _ _ _ (pair_ok _ _ _))).
  - vm_compute. reflexivity.
  - vm_compute. discriminate.
  - apply sample_address_ok. lia.
  - apply sample_address_ok. lia.
  - vm_compute. split; congruence.
  - vm_compute. reflexivity.
Qed.

Lemma deposited_ok : state_ok deposited.
Proof. apply (history_inv _ _ deposited_history). Qed.

Lemma deposited_supply : supply_ok deposited.
Proof. split; vm_compute; reflexivity. Qed.

Lemma cancelled_step : op_step deposited 0 cancelled.
Proof.
  refine (op_exit deposited sample_a 3 cancelled _ _ _ (pair_ok _ _ _)).
  - apply sample_address_ok. lia.
  - split; [discriminate | reflexivity].
  - vm_compute. reflexivity.
Qed.

Lemma stake_backed_witness : exists t, TotalStaked deposited = Ok t /\ GetBalance deposited StakingAddress = t + (0 + 0).
Proof. destruct (stake_backed (0 + 0) deposited deposited_history) as (t & H1 & H2 & _). eauto. Defined.

Lemma lifecycle_order_witness :
  exists v v', vals deposited !! 0%nat = Some v /\ vals cancelled !! 0%nat = Some v' /\ rtc status_step (v_status v) (v_status v').
Proof.
  destruct (vals deposited !! 0%nat) as [v|] eqn:E; [|vm_compute in E; discriminate E].
  destruct (lifecycle_order deposited cancelled 0 v deposited_ok) as (v' & Hv' & _ & _ & _ & _ & Hs).
  - apply rtc_once. split; [exact deposited_supply | exists 0; exact cancelled_step].
  - exact E.
  - eauto.
Defined.

Lemma withdrawal_once_after_delay_witness :
  exists s v, Withdraw cancelled sample_a 259 = (s, Ok sample_stake) /\ ByAddress cancelled sample_a = Ok v /\
    v_exit v +w WithdrawalDelay <= 259 /\ Withdraw s sample_a 260 = (s, Err ErrAlreadyWithdrawn).
Proof.
  assert (Withdraw cancelled sample_a 259 = (fst (Withdraw cancelled sample_a 259), Ok sample_stake)) as E
    by (apply pair_ok; vm_compute; reflexivity).
  destruct (withdrawal_once_after_delay (0 + 0 + 0) cancelled _ sample_a 259 sample_stake
    (h_step _ _ _ _ deposited_history deposited_supply cancelled_step) (sample_address_ok 1 ltac:(lia)) E)
    as (v & H1 & _ & H2 & _ & _ & H3).
  exists (fst (Withdraw cancelled sample_a 259)), v. auto.
Defined.

Lemma activation_churn_witness :
  exists s rep, ProcessEpoch deposited 1 None 0 = (s, Ok rep) /\ len (rep_activated rep) <= 4.
Proof.
  destruct (activation_churn deposited 1 0 None deposited_ok deposited_supply) as (s & rep & A & E & Hl & Hr & _).
  - lia.
  - split; [discriminate | reflexivity].
  - exact I.
  - right. vm_compute. reflexivity.
  - exists s, rep. split; [exact E|]. rewrite Hr. etrans; [exact Hl|].
    assert (s = fst (ProcessEpoch deposited 1 None 0)) as -> by (rewrite E; reflexivity). vm_compute. discriminate.
Defined.

(** An active validator below the ejection balance. *)
Definition poor : @State map_access := fst (Append fresh (sample_validator 1 (10 * Ether))).

Lemma ejections_forgotten_witness :
  exists s rep, ProcessEpoch poor 5 None 0 = (s, Ok rep) /\ rep_ejected rep = [sample_address 1] /\
    es_queue_count (LoadEpochState s) = 0.
Proof.
  assert (rep_ejected match snd (ProcessEpoch poor 5 None 0) with Ok r => r | Err _ => new_report 0 end = [sample_address 1]) as Hej
    by (vm_compute; reflexivity).
  destruct (ProcessEpoch poor 5 None 0) as [s [rep|err]] eqn:E; [|discriminate Hej].
  assert (state_ok poor) as Hok.
  { apply (Append_reads fresh _ _ fresh_ok (sample_val_ok 1 (10 * Ether) ltac:(lia) ltac:(split; [discriminate | reflexivity])) eq_refl).
    vm_compute. reflexivity. }
  destruct (ejections_forgotten poor s 5 0 None rep Hok) as [_ Hq].
  - split; vm_compute; reflexivity.
  - lia.
  - split; [discriminate | reflexivity].
  - exact I.
  - exact E.
  - exists s, rep. split; [reflexivity|]. split; [exact Hej|]. rewrite Hq. vm_compute. reflexivity.
Defined.

Lemma active_set_stable_witness :
  ActiveAddressesAt cancelled 3 = ActiveAddressesAt deposited 3.
Proof.
  destruct (active_set_stable deposited sample_a sample_w 3 0 deposited_ok deposited_supply) as (_ & H & _).
  - apply sample_address_ok. lia.
  - apply sample_address_ok. lia.
  - lia.
  - lia.
  - vm_compute. reflexivity.
  - eapply H. apply pair_ok. vm_compute. reflexivity.
Defined.

End Life.
