(* ===== verification/StateDB.v ===== *)
(** The world state (src/state/statedb.go, journal.go, access.go;
    src/core/account.go).

    [World] holds what a [StateDB] reads and writes, [StateDB] adds the journal
    and the revisions.  Pointers to state objects never outlive the map entry
    they were read from, so objects are values of the map; loading an object or
    a slot caches it, as in the source.  The trie and the node store are an
    interface. *)

From Stdlib Require Import Ascii String.
From stdpp Require Import base list gmap relations sorting.
From Stdlib Require Import ZArith Lia.
From S2P Require Import Prelude RLP Common Registry.
Local Open Scope Z_scope.
Local Open Scope go_scope.

(** What the state uses of package trie and of the store.  [None] is an error;
    an absent key reads as the empty string. *)
Class TrieStore := {
  Trie : Type;
  Store : Type;
  trie_new : Hash -> Store -> option Trie;
  trie_get : Store -> Trie -> bytes -> option bytes;
  trie_update : Store -> Trie -> bytes -> bytes -> option Trie;
  trie_delete : Store -> Trie -> bytes -> option Trie;
  trie_commit : Store -> Trie -> option (Trie * Hash * list (bytes * bytes));
  store_get : Store -> bytes -> option bytes;
  store_write : Store -> list (bytes * bytes) -> Store
}.

Module SDB.

(** A loop that stops at the first error. *)
Fixpoint foldM {A B} (f : A -> B -> option A) (a : A) (l : list B) : option A :=
  match l with
  | [] => Some a
  | b :: l => let? a := f a b in foldM f a l
  end.

(** * Accounts *)

Record Account := mkAccount
  { Nonce : Z;
    Balance : Z;
    Root : Hash;
    CodeHash : bytes }.

Section Accounts.
Context `{K : Keccak}.

Definition EmptyCodeHash : Hash := Sum256 [].
Definition EmptyRoot : Hash := Keccak256 [[128]].

Definition NewAccount : Account := mkAccount 0 0 EmptyRoot EmptyCodeHash.

Definition HasCode (a : Account) : bool :=
  (0 <? len (CodeHash a)) && negb (bool_decide (BytesToHash (CodeHash a) = EmptyCodeHash)).

Definition IsEmpty (a : Account) : bool := (Nonce a =? 0) && (Balance a =? 0) && negb (HasCode a).
End Accounts.

Definition account_type : Rlp.GoType := Rlp.TStruct
  [Rlp.mkField "Nonce" true "" (Rlp.TUint 64); Rlp.mkField "Balance" true "" (Rlp.TPtr Rlp.TBigInt);
   Rlp.mkField "Root" true "" (Rlp.TArray 32 (Rlp.TUint 8)); Rlp.mkField "CodeHash" true "" (Rlp.TSlice (Rlp.TUint 8))].

Definition account_value (a : Account) : Rlp.GoVal :=
  Rlp.VStruct [Rlp.VUint (Nonce a); Rlp.VPtr (Rlp.VBig (Balance a)); Rlp.VBytes (Root a); Rlp.bytes_value (CodeHash a)].

Definition EncodeAccount (a : Account) : result Rlp.error bytes :=
  Rlp.Encode (Rlp.VPtr (account_value a)) (Rlp.TPtr account_type).

Definition value_bytes (v : Rlp.GoVal) : bytes := match v with Rlp.VBytes b => b | _ => [] end.

Definition account_of (v : Rlp.GoVal) : Account :=
  match v with
  | Rlp.VStruct [Rlp.VUint n; b; r; c] =>
      mkAccount n (match b with Rlp.VPtr (Rlp.VBig i) => i | _ => 0 end) (value_bytes r) (value_bytes c)
  | _ => mkAccount 0 0 [] []
  end.

Definition DecodeAccount (data : bytes) : result Rlp.error Account :=
  let! v := Rlp.Decode data account_type in Ok (account_of v).

(** [encodeStorageValue] strips leading zeros before encoding. *)
Definition encodeStorageValue (value : Hash) : result Rlp.error bytes :=
  Rlp.Encode (Rlp.bytes_value (strip_zeros value)) (Rlp.TSlice (Rlp.TUint 8)).
Definition decodeStorageValue (enc : bytes) : result Rlp.error bytes :=
  let! v := Rlp.Decode enc (Rlp.TSlice (Rlp.TUint 8)) in Ok (value_bytes v).

(** * State objects *)

Record stateObject := mkObject
  { o_address : Address;
    o_data : Account;
    o_code : option bytes;
    o_codeDirty : bool;
    o_origin : gmap Hash Hash;
    o_dirty : gmap Hash Hash;
    o_selfDestructed : bool;
    o_deleted : bool;
    o_created : bool }.

Definition with_data (o : stateObject) (d : Account) : stateObject :=
  mkObject (o_address o) d (o_code o) (o_codeDirty o) (o_origin o) (o_dirty o) (o_selfDestructed o) (o_deleted o) (o_created o).
Definition with_balance (o : stateObject) (b : Z) : stateObject :=
  with_data o (mkAccount (Nonce (o_data o)) b (Root (o_data o)) (CodeHash (o_data o))).
Definition with_nonce (o : stateObject) (n : Z) : stateObject :=
  with_data o (mkAccount n (Balance (o_data o)) (Root (o_data o)) (CodeHash (o_data o))).
Definition with_root (o : stateObject) (r : Hash) : stateObject :=
  with_data o (mkAccount (Nonce (o_data o)) (Balance (o_data o)) r (CodeHash (o_data o))).
Definition with_codehash (o : stateObject) (h : bytes) : stateObject :=
  with_data o (mkAccount (Nonce (o_data o)) (Balance (o_data o)) (Root (o_data o)) h).
Definition with_code (o : stateObject) (c : option bytes) (dirty : bool) : stateObject :=
  mkObject (o_address o) (o_data o) c dirty (o_origin o) (o_dirty o) (o_selfDestructed o) (o_deleted o) (o_created o).
Definition with_origin (o : stateObject) (m : gmap Hash Hash) : stateObject :=
  mkObject (o_address o) (o_data o) (o_code o) (o_codeDirty o) m (o_dirty o) (o_selfDestructed o) (o_deleted o) (o_created o).
Definition with_dirty (o : stateObject) (m : gmap Hash Hash) : stateObject :=
  mkObject (o_address o) (o_data o) (o_code o) (o_codeDirty o) (o_origin o) m (o_selfDestructed o) (o_deleted o) (o_created o).
Definition with_selfdestructed (o : stateObject) (b : bool) : stateObject :=
  mkObject (o_address o) (o_data o) (o_code o) (o_codeDirty o) (o_origin o) (o_dirty o) b (o_deleted o) (o_created o).
Definition with_deleted (o : stateObject) (b : bool) : stateObject :=
  mkObject (o_address o) (o_data o) (o_code o) (o_codeDirty o) (o_origin o) (o_dirty o) (o_selfDestructed o) b (o_created o).
Definition with_created (o : stateObject) (b : bool) : stateObject :=
  mkObject (o_address o) (o_data o) (o_code o) (o_codeDirty o) (o_origin o) (o_dirty o) (o_selfDestructed o) (o_deleted o) b.

Inductive error := ErrAccount | ErrStorage | ErrCode | ErrRefund.

(** [BlockHash] is filled in when receipts are stored; [Removed], which nothing
    sets, is left out. *)
Record Log := mkLog
  { l_address : Address; l_topics : list Hash; l_data : bytes; l_block : Z; l_blockHash : Hash; l_txhash : Hash; l_txindex : Z; l_index : Z }.

(** * The journal's entries *)

Inductive journalEntry :=
| createObjectChange (account : Address) (prev : option stateObject)
| balanceChange (account : Address) (prev : Z)
| nonceChange (account : Address) (prev : Z)
| codeChange (account : Address) (prevCode : option bytes) (prevHash : bytes)
| storageChange (account : Address) (key prev : Hash) (existed : bool)
| transientStorageChange (account : Address) (key prev : Hash)
| selfDestructChange (account : Address) (prev : bool) (prevBalance : Z)
| refundChange (prev : Z)
| addLogChange (txhash : Hash)
| accessListAddAccountChange (address : Address)
| accessListAddSlotChange (address : Address) (slot : Hash).

Definition dirtied (e : journalEntry) : option Address :=
  match e with
  | createObjectChange a _ | balanceChange a _ | nonceChange a _ | codeChange a _ _ | storageChange a _ _ _
  | selfDestructChange a _ _ => Some a
  | _ => None
  end.

Section State.
Context `{K : Keccak} `{TS : TrieStore}.

Record World := mkWorld
  { store : Store;
    trie : Trie;
    objects : gmap Address stateObject;
    objectsDirty : gset Address;
    codeCache : gmap Hash bytes;
    refund : Z;
    logs : gmap Hash (list Log);
    logSize : Z;
    accessedAddresses : gset Address;
    accessedSlots : gmap Address (gset Hash);
    transient : gmap Address (gmap Hash Hash);
    thash : Hash;
    txIndex : Z;
    err : option error }.

Record StateDB := mkState
  { world : World;
    entries : list journalEntry;
    dirties : gmap Address Z;
    revisions : list (Z * nat);
    nextRevID : Z }.

Definition set_objects (w : World) (m : gmap Address stateObject) : World :=
  mkWorld (store w) (trie w) m (objectsDirty w) (codeCache w) (refund w) (logs w) (logSize w) (accessedAddresses w)
    (accessedSlots w) (transient w) (thash w) (txIndex w) (err w).
Definition set_objectsDirty (w : World) (d : gset Address) : World :=
  mkWorld (store w) (trie w) (objects w) d (codeCache w) (refund w) (logs w) (logSize w) (accessedAddresses w)
    (accessedSlots w) (transient w) (thash w) (txIndex w) (err w).
Definition set_codeCache (w : World) (c : gmap Hash bytes) : World :=
  mkWorld (store w) (trie w) (objects w) (objectsDirty w) c (refund w) (logs w) (logSize w) (accessedAddresses w)
    (accessedSlots w) (transient w) (thash w) (txIndex w) (err w).
Definition set_refund (w : World) (g : Z) : World :=
  mkWorld (store w) (trie w) (objects w) (objectsDirty w) (codeCache w) g (logs w) (logSize w) (accessedAddresses w)
    (accessedSlots w) (transient w) (thash w) (txIndex w) (err w).
Definition set_logs (w : World) (l : gmap Hash (list Log)) (n : Z) : World :=
  mkWorld (store w) (trie w) (objects w) (objectsDirty w) (codeCache w) (refund w) l n (accessedAddresses w)
    (accessedSlots w) (transient w) (thash w) (txIndex w) (err w).
Definition set_access (w : World) (a : gset Address) (s : gmap Address (gset Hash)) : World :=
  mkWorld (store w) (trie w) (objects w) (objectsDirty w) (codeCache w) (refund w) (logs w) (logSize w) a
    s (transient w) (thash w) (txIndex w) (err w).
Definition set_transient (w : World) (t : gmap Address (gmap Hash Hash)) : World :=
  mkWorld (store w) (trie w) (objects w) (objectsDirty w) (codeCache w) (refund w) (logs w) (logSize w) (accessedAddresses w)
    (accessedSlots w) t (thash w) (txIndex w) (err w).
Definition set_context (w : World) (h : Hash) (i : Z) : World :=
  mkWorld (store w) (trie w) (objects w) (objectsDirty w) (codeCache w) (refund w) (logs w) (logSize w) (accessedAddresses w)
    (accessedSlots w) (transient w) h i (err w).
Definition set_backend (w : World) (s : Store) (t : Trie) : World :=
  mkWorld s t (objects w) (objectsDirty w) (codeCache w) (refund w) (logs w) (logSize w) (accessedAddresses w)
    (accessedSlots w) (transient w) (thash w) (txIndex w) (err w).

(** [setError] keeps the first error. *)
Definition setError (w : World) (e : error) : World :=
  match err w with
  | Some _ => w
  | None =>
      mkWorld (store w) (trie w) (objects w) (objectsDirty w) (codeCache w) (refund w) (logs w) (logSize w) (accessedAddresses w)
        (accessedSlots w) (transient w) (thash w) (txIndex w) (Some e)
  end.

Definition put_object (w : World) (addr : Address) (o : stateObject) : World := set_objects w (<[addr := o]> (objects w)).
Definition markDirty (w : World) (addr : Address) : World := set_objectsDirty w (objectsDirty w ∪ {[addr]}).

(** [New] on an open trie. *)
Definition new_world (s : Store) (t : Trie) : World := mkWorld s t ∅ ∅ ∅ 0 ∅ 0 ∅ ∅ ∅ ZeroHash (-1) None.
Definition New (root : Hash) (s : Store) : option StateDB :=
  let? t := trie_new root s in Some (mkState (new_world s t) [] ∅ [] 0).

(** * Loading *)

Definition newObject (addr : Address) (data : Account) : stateObject :=
  mkObject addr (mkAccount (Nonce data) (Balance data)
                   (if HashIsZero (Root data) then EmptyRoot else Root data)
                   (if len (CodeHash data) =? 0 then EmptyCodeHash else CodeHash data))
    None false ∅ ∅ false false false.

Definition getStateObject (w : World) (addr : Address) : World * option stateObject :=
  match objects w !! addr with
  | Some obj => (w, if o_deleted obj then None else Some obj)
  | None =>
      match trie_get (store w) (trie w) (Keccak256 [addr]) with
      | None => (setError w ErrAccount, None)
      | Some enc =>
          if len enc =? 0 then (w, None)
          else match DecodeAccount enc with
          | Err _ => (setError w ErrAccount, None)
          | Ok account => let obj := newObject addr account in (put_object w addr obj, Some obj)
          end
      end
  end.

(** The storage trie's value of a slot; [None] is an error. *)
Definition read_slot (s : Store) (root key : Hash) : option Hash :=
  let? st := trie_new root s in
  let? enc := trie_get s st (Keccak256 [key]) in
  if 0 <? len enc then
    match decodeStorageValue enc with Ok raw => Some (BytesToHash raw) | Err _ => None end
  else Some ZeroHash.

Definition committedState (w : World) (addr : Address) (obj : stateObject) (key : Hash) : World * Hash :=
  match o_origin obj !! key with
  | Some value => (w, value)
  | None =>
      if o_created obj then (put_object w addr (with_origin obj (<[key := ZeroHash]> (o_origin obj))), ZeroHash)
      else match read_slot (store w) (Root (o_data obj)) key with
      | None => (setError w ErrStorage, ZeroHash)
      | Some value => (put_object w addr (with_origin obj (<[key := value]> (o_origin obj))), value)
      end
  end.

Definition codeKey (hash : Hash) : bytes := bytes_of_string "c" ++ hash.

Definition codeOf (w : World) (addr : Address) (obj : stateObject) : World * option bytes :=
  match o_code obj with
  | Some code => (w, Some code)
  | None =>
      let hash := BytesToHash (CodeHash (o_data obj)) in
      if bool_decide (hash = EmptyCodeHash) then (w, None)
      else match codeCache w !! hash with
      | Some code => (put_object w addr (with_code obj (Some code) (o_codeDirty obj)), Some code)
      | None =>
          match store_get (store w) (codeKey hash) with
          | None => (setError w ErrCode, None)
          | Some code =>
              (put_object (set_codeCache w (<[hash := code]> (codeCache w))) addr
                 (with_code obj (Some code) (o_codeDirty obj)), Some code)
          end
      end
  end.

(** * Reads *)

Definition Exist (w : World) (addr : Address) : World * bool :=
  let (w, obj) := getStateObject w addr in (w, match obj with Some _ => true | None => false end).

Definition Empty (w : World) (addr : Address) : World * bool :=
  let (w, obj) := getStateObject w addr in (w, match obj with Some o => IsEmpty (o_data o) | None => true end).

Definition get_balance (w : World) (addr : Address) : World * Z :=
  let (w, obj) := getStateObject w addr in (w, match obj with Some o => Balance (o_data o) | None => 0 end).

Definition GetNonce (w : World) (addr : Address) : World * Z :=
  let (w, obj) := getStateObject w addr in (w, match obj with Some o => Nonce (o_data o) | None => 0 end).

Definition GetCodeHash (w : World) (addr : Address) : World * Hash :=
  let (w, obj) := getStateObject w addr in
  (w, match obj with Some o => BytesToHash (CodeHash (o_data o)) | None => ZeroHash end).

Definition GetCode (w : World) (addr : Address) : World * bytes :=
  let (w, obj) := getStateObject w addr in
  match obj with
  | None => (w, [])
  | Some o => let (w, code) := codeOf w addr o in (w, default [] code)
  end.

Definition GetCodeSize (w : World) (addr : Address) : World * Z :=
  let (w, code) := GetCode w addr in (w, len code).

Definition get_state (w : World) (addr : Address) (key : Hash) : World * Hash :=
  let (w, obj) := getStateObject w addr in
  match obj with
  | None => (w, ZeroHash)
  | Some o =>
      match o_dirty o !! key with
      | Some value => (w, value)
      | None => committedState w addr o key
      end
  end.

Definition GetCommittedState (w : World) (addr : Address) (key : Hash) : World * Hash :=
  let (w, obj) := getStateObject w addr in
  match obj with
  | None => (w, ZeroHash)
  | Some o => committedState w addr o key
  end.

Definition GetTransientState (w : World) (addr : Address) (key : Hash) : Hash :=
  default ZeroHash (default ∅ (transient w !! addr) !! key).

Definition HasSelfDestructed (w : World) (addr : Address) : World * bool :=
  let (w, obj) := getStateObject w addr in (w, match obj with Some o => o_selfDestructed o | None => false end).

Definition AddressInAccessList (w : World) (addr : Address) : bool := bool_decide (addr ∈ accessedAddresses w).
Definition slot_in (w : World) (addr : Address) (slot : Hash) : bool :=
  bool_decide (slot ∈ default ∅ (accessedSlots w !! addr)).
Definition SlotInAccessList (w : World) (addr : Address) (slot : Hash) : bool * bool :=
  (AddressInAccessList w addr, slot_in w addr slot).
Definition GetLogs (w : World) (h : Hash) : list Log := default [] (logs w !! h).

(** * The journal *)

Definition with_world (s : StateDB) (w : World) : StateDB :=
  mkState w (entries s) (dirties s) (revisions s) (nextRevID s).

Definition journal_append (s : StateDB) (e : journalEntry) : StateDB :=
  mkState (world s) (entries s ++ [e])
    (match dirtied e with
     | Some a => <[a := default 0 (dirties s !! a) + 1]> (dirties s)
     | None => dirties s
     end) (revisions s) (nextRevID s).

(** Journal an entry and then change the world. *)
Definition record (s : StateDB) (e : journalEntry) (w : World) : StateDB := with_world (journal_append s e) w.

(** [if obj := s.objects[a]; obj != nil { ... }] *)
Definition on_object (w : World) (a : Address) (f : stateObject -> stateObject) : World :=
  match objects w !! a with
  | Some o => put_object w a (f o)
  | None => w
  end.

Definition undo (e : journalEntry) (w : World) : World :=
  match e with
  | createObjectChange a None =>
      set_objectsDirty (set_objects w (delete a (objects w))) (objectsDirty w ∖ {[a]})
  | createObjectChange a (Some prev) => put_object w a prev
  | balanceChange a prev => on_object w a (fun o => with_balance o prev)
  | nonceChange a prev => on_object w a (fun o => with_nonce o prev)
  | codeChange a prevCode prevHash =>
      on_object w a (fun o => with_codehash (with_code o prevCode (o_codeDirty o)) prevHash)
  | storageChange a key prev existed =>
      on_object w a (fun o =>
        if negb existed && HashIsZero prev then with_dirty o (delete key (o_dirty o))
        else with_dirty o (<[key := prev]> (o_dirty o)))
  | transientStorageChange a key prev =>
      match transient w !! a with
      | None => w
      | Some slots =>
          set_transient w (<[a := if HashIsZero prev then delete key slots else <[key := prev]> slots]> (transient w))
      end
  | selfDestructChange a prev prevBalance =>
      on_object w a (fun o => with_balance (with_selfdestructed o prev) prevBalance)
  | refundChange prev => set_refund w prev
  | addLogChange h =>
      let l := GetLogs w h in
      set_logs w (if len l =? 1 then delete h (logs w) else <[h := removelast l]> (logs w)) (logSize w -w 1)
  | accessListAddAccountChange a => set_access w (accessedAddresses w ∖ {[a]}) (delete a (accessedSlots w))
  | accessListAddSlotChange a slot =>
      match accessedSlots w !! a with
      | None => w
      | Some slots => set_access w (accessedAddresses w) (<[a := slots ∖ {[slot]}]> (accessedSlots w))
      end
  end.

Definition undo_dirties (e : journalEntry) (d : gmap Address Z) : gmap Address Z :=
  match dirtied e with
  | None => d
  | Some a =>
      let n := default 0 (d !! a) - 1 in
      if n =? 0 then delete a d else <[a := n]> d
  end.

(** [journal.revert], newest first down to length [target]. *)
Definition journal_revert (s : StateDB) (target : nat) : StateDB :=
  let undone := rev (drop target (entries s)) in
  mkState (fold_left (fun w e => undo e w) undone (world s)) (take target (entries s))
    (fold_left (fun d e => undo_dirties e d) undone (dirties s)) (revisions s) (nextRevID s).

Definition Snapshot (s : StateDB) : StateDB * Z :=
  let id := nextRevID s in
  (mkState (world s) (entries s) (dirties s) (revisions s ++ [(id, length (entries s))]) (id + 1), id).

(** [sort.Search] for the first revision not below [id]. *)
Fixpoint search (l : list (Z * nat)) (id : Z) : nat :=
  match l with
  | [] => O
  | r :: rest => if id <=? fst r then O else S (search rest id)
  end.

(** [None] is the panic on an unknown snapshot. *)
Definition RevertToSnapshot (s : StateDB) (id : Z) : option StateDB :=
  let idx := search (revisions s) id in
  match revisions s !! idx with
  | Some (rid, target) =>
      if rid =? id then
        let s := journal_revert s target in
        Some (mkState (world s) (entries s) (dirties s) (take idx (revisions s)) (nextRevID s))
      else None
  | None => None
  end.

(** * Writes *)

Definition createObject (s : StateDB) (addr : Address) : StateDB * stateObject :=
  let prev := objects (world s) !! addr in
  let obj := with_created (newObject addr NewAccount) true in
  (record s (createObjectChange addr prev) (markDirty (put_object (world s) addr obj) addr), obj).

Definition getOrNewStateObject (s : StateDB) (addr : Address) : StateDB * stateObject :=
  let (w, obj) := getStateObject (world s) addr in
  let s := with_world s w in
  match obj with
  | Some o => (s, o)
  | None => createObject s addr
  end.

Definition CreateAccount (s : StateDB) (addr : Address) : StateDB :=
  let (w, prev) := getStateObject (world s) addr in
  let (s, obj) := createObject (with_world s w) addr in
  match prev with
  | None => s
  | Some p => with_world s (put_object (world s) addr (with_balance obj (Balance (o_data p))))
  end.

Definition setBalance (s : StateDB) (addr : Address) (obj : stateObject) (amount : Z) : StateDB :=
  record s (balanceChange addr (Balance (o_data obj)))
    (markDirty (put_object (world s) addr (with_balance obj amount)) addr).

Definition add_balance (s : StateDB) (addr : Address) (amount : Z) : StateDB :=
  if amount =? 0 then
    let (w, exist) := Exist (world s) addr in
    let s := with_world s w in
    if exist then fst (getOrNewStateObject s addr) else s
  else
    let (s, obj) := getOrNewStateObject s addr in
    setBalance s addr obj (Balance (o_data obj) + amount).

Definition sub_balance (s : StateDB) (addr : Address) (amount : Z) : StateDB :=
  if amount =? 0 then s
  else
    let (s, obj) := getOrNewStateObject s addr in
    setBalance s addr obj (Balance (o_data obj) - amount).

Definition SetBalance (s : StateDB) (addr : Address) (amount : Z) : StateDB :=
  let (s, obj) := getOrNewStateObject s addr in setBalance s addr obj amount.

Definition SetNonce (s : StateDB) (addr : Address) (nonce : Z) : StateDB :=
  let (s, obj) := getOrNewStateObject s addr in
  record s (nonceChange addr (Nonce (o_data obj))) (markDirty (put_object (world s) addr (with_nonce obj nonce)) addr).

(** The object as the map holds it after [codeOf] or [GetState] cached into it. *)
Definition current (w : World) (addr : Address) (obj : stateObject) : stateObject := default obj (objects w !! addr).

Definition SetCode (s : StateDB) (addr : Address) (code : bytes) : StateDB :=
  let (s, obj) := getOrNewStateObject s addr in
  let (w, prevCode) := codeOf (world s) addr obj in
  let s := with_world s w in
  let obj := current w addr obj in
  let hash := Keccak256 [code] in
  let w' := put_object w addr (with_codehash (with_code obj (Some code) true) hash) in
  record s (codeChange addr prevCode (CodeHash (o_data obj)))
    (markDirty (set_codeCache w' (<[hash := code]> (codeCache w'))) addr).

Definition hasDirty (obj : stateObject) (key : Hash) : bool := bool_decide (is_Some (o_dirty obj !! key)).

Definition set_state (s : StateDB) (addr : Address) (key value : Hash) : StateDB :=
  let (s, obj) := getOrNewStateObject s addr in
  let (w, prev) := get_state (world s) addr key in
  let s := with_world s w in
  let obj := current w addr obj in
  if bool_decide (prev = value) then s
  else record s (storageChange addr key prev (hasDirty obj key))
         (markDirty (put_object w addr (with_dirty obj (<[key := value]> (o_dirty obj)))) addr).

Definition SetTransientState (s : StateDB) (addr : Address) (key value : Hash) : StateDB :=
  let w := world s in
  let prev := GetTransientState w addr key in
  if bool_decide (prev = value) then s
  else record s (transientStorageChange addr key prev)
         (set_transient w (<[addr := <[key := value]> (default ∅ (transient w !! addr))]> (transient w))).

Definition SelfDestruct (s : StateDB) (addr : Address) : StateDB :=
  let (w, obj) := getStateObject (world s) addr in
  let s := with_world s w in
  match obj with
  | None => s
  | Some o =>
      record s (selfDestructChange addr (o_selfDestructed o) (Balance (o_data o)))
        (markDirty (put_object w addr (with_balance (with_selfdestructed o true) 0)) addr)
  end.

Definition AddRefund (s : StateDB) (gas : Z) : StateDB :=
  record s (refundChange (refund (world s))) (set_refund (world s) (refund (world s) +w gas)).

Definition SubRefund (s : StateDB) (gas : Z) : StateDB :=
  let w := world s in
  record s (refundChange (refund w))
    (if refund w <? gas then set_refund (setError w ErrRefund) 0 else set_refund w (refund w - gas)).

Definition AddLog (s : StateDB) (log : Log) : StateDB :=
  let w := world s in
  let log := mkLog (l_address log) (l_topics log) (l_data log) (l_block log) (l_blockHash log) (thash w) (wrap64 (txIndex w)) (logSize w) in
  record s (addLogChange (thash w)) (set_logs w (<[thash w := GetLogs w (thash w) ++ [log]]> (logs w)) (logSize w +w 1)).

Definition AddAddressToAccessList (s : StateDB) (addr : Address) : StateDB :=
  let w := world s in
  if AddressInAccessList w addr then s
  else record s (accessListAddAccountChange addr) (set_access w (accessedAddresses w ∪ {[addr]}) (accessedSlots w)).

Definition AddSlotToAccessList (s : StateDB) (addr : Address) (slot : Hash) : StateDB :=
  let s := AddAddressToAccessList s addr in
  let w := world s in
  if slot_in w addr slot then s
  else record s (accessListAddSlotChange addr slot)
         (set_access w (accessedAddresses w) (<[addr := default ∅ (accessedSlots w !! addr) ∪ {[slot]}]> (accessedSlots w))).

Definition SetTxContext (s : StateDB) (hash : Hash) (index : Z) : StateDB := with_world s (set_context (world s) hash index).

(** [Prepare]: the access list of a transaction. *)
Definition Prepare (s : StateDB) (sender coinbase : Address) (dest : option Address) (precompiles : list Address)
    (l : list (Address * list Hash)) : StateDB :=
  let s := with_world s (set_access (world s) ∅ ∅) in
  let s := AddAddressToAccessList s sender in
  let s := match dest with Some d => AddAddressToAccessList s d | None => s end in
  let s := fold_left AddAddressToAccessList precompiles s in
  let s := fold_left (fun s t => fold_left (fun s k => AddSlotToAccessList s (fst t) k) (snd t)
                                   (AddAddressToAccessList s (fst t))) l s in
  AddAddressToAccessList s coinbase.

(** * The end of a transaction and of a block *)

Definition finalise_object (deleteEmptyObjects : bool) (w : World) (addr : Address) : World :=
  match objects w !! addr with
  | None => w
  | Some obj =>
      if o_selfDestructed obj || (deleteEmptyObjects && IsEmpty (o_data obj))
      then put_object w addr (with_dirty (with_deleted obj true) ∅)
      else w
  end.

Definition Finalise (s : StateDB) (deleteEmptyObjects : bool) : StateDB :=
  let w := fold_left (finalise_object deleteEmptyObjects) (elements (objectsDirty (world s))) (world s) in
  mkState (set_transient (set_refund w 0) ∅) [] ∅ [] (nextRevID s).

(** [sort.Slice] on the byte strings compared as Go strings. *)
Fixpoint bytes_leb (a b : bytes) : bool :=
  match a, b with
  | [], _ => true
  | _, [] => false
  | x :: a, y :: b => if x <? y then true else if y <? x then false else bytes_leb a b
  end.
Definition sorted_keys (l : list bytes) : list bytes := merge_sort (fun a b => Is_true (bytes_leb a b)) l.

Lemma bytes_leb_refl a : bytes_leb a a = true.
Proof. induction a as [|x a IH]; [reflexivity|]. cbn. rewrite Z.ltb_irrefl. exact IH. Qed.

Lemma bytes_leb_total a : forall b, bytes_leb a b = true \/ bytes_leb b a = true.
Proof.
  induction a as [|x a IH]; intros [|y b]; cbn; auto. destruct (Z.ltb_spec x y); [auto|]. destruct (Z.ltb_spec y x); [auto|]. apply IH.
Qed.

Lemma bytes_leb_trans a : forall b c, bytes_leb a b = true -> bytes_leb b c = true -> bytes_leb a c = true.
Proof.
  induction a as [|x a IH]; intros [|y b] [|z c]; cbn; auto; try discriminate.
  destruct (Z.ltb_spec x y), (Z.ltb_spec y z), (Z.ltb_spec x z); auto; try lia; destruct (Z.ltb_spec y x), (Z.ltb_spec z y), (Z.ltb_spec z x); try lia; try discriminate. apply IH.
Qed.

Lemma bytes_leb_antisym a : forall b, bytes_leb a b = true -> bytes_leb b a = true -> a = b.
Proof.
  induction a as [|x a IH]; intros [|y b]; cbn; auto; try discriminate. destruct (Z.ltb_spec x y), (Z.ltb_spec y x); try lia; try discriminate.
  intros H1 H2. replace y with x by lia. f_equal. auto.
Qed.

Lemma leb_total : Total (fun a b => Is_true (bytes_leb a b)).
Proof. intros a b. destruct (bytes_leb_total a b); [left | right]; apply Is_true_eq_left; assumption. Qed.

Lemma leb_trans : Transitive (fun a b => Is_true (bytes_leb a b)).
Proof. intros a b c H1%Is_true_eq_true H2%Is_true_eq_true. apply Is_true_eq_left, (bytes_leb_trans a b c); assumption. Qed.

(** One batch of writes to the store. *)
Definition Batch := list (bytes * bytes).

Definition commit_slot (s : Store) (obj : stateObject) (st : Trie) (k : Hash) : option Trie :=
  let value := default ZeroHash (o_dirty obj !! k) in
  let slotKey := Keccak256 [k] in
  if HashIsZero value then trie_delete s st slotKey
  else match encodeStorageValue value with
  | Err _ => None
  | Ok enc => trie_update s st slotKey enc
  end.

(** [None] is an error; its callers abandon the state. *)
Definition commitStorage (s : Store) (obj : stateObject) : option (Hash * Batch) :=
  let? st := trie_new (Root (o_data obj)) s in
  let keys := sorted_keys (elements (dom (o_dirty obj))) in
  let? st := foldM (commit_slot s obj) st keys in
  let? c := trie_commit s st in
  Some (snd (fst c), snd c).

Definition commit_object (persist : bool) (c : World * Batch) (addr : Address) : option (World * Batch) :=
  let (w, batch) := c in
  match objects w !! addr with
  | None => Some c
  | Some obj =>
      let key := Keccak256 [addr] in
      if o_deleted obj then
        let? t := trie_delete (store w) (trie w) key in Some (set_backend w (store w) t, batch)
      else
        let? c := if bool_decide (o_dirty obj = ∅) then Some (obj, batch)
                  else let? r := commitStorage (store w) obj in Some (with_root obj (fst r), batch ++ snd r) in
        let (obj, batch) := c in
        let writes := persist && o_codeDirty obj && (0 <? len (default [] (o_code obj))) in
        let batch := if writes then batch ++ [(codeKey (BytesToHash (CodeHash (o_data obj))), default [] (o_code obj))]
                     else batch in
        let obj := if writes then with_code obj (o_code obj) false else obj in
        match EncodeAccount (o_data obj) with
        | Err _ => None
        | Ok enc =>
            let? t := trie_update (store w) (trie w) key enc in
            Some (set_backend (put_object w addr obj) (store w) t, batch)
        end
  end.

(** Committed writes become the baseline. *)
Definition rebase_object (w : World) (addr : Address) : World :=
  match objects w !! addr with
  | None => w
  | Some obj =>
      if o_deleted obj then w
      else put_object w addr (with_created (with_dirty (with_origin obj (o_dirty obj ∪ o_origin obj)) ∅) false)
  end.

Definition commitTo (s : StateDB) (persist : bool) : option (StateDB * Hash * Batch) :=
  let w := world s in
  match err w with
  | Some _ => None
  | None =>
      let addrs := sorted_keys (elements (objectsDirty w)) in
      let? c := foldM (commit_object persist) (w, []) addrs in
      let (w, batch) := c in
      let? tc := trie_commit (store w) (trie w) in
      let '(t, root, nodes) := tc in
      let w := set_backend w (store w) t in
      let w := if persist then set_objectsDirty (fold_left rebase_object addrs w) ∅ else w in
      Some (with_world s w, root, batch ++ nodes)
  end.

Definition IntermediateRoot (s : StateDB) (deleteEmptyObjects : bool) : option (StateDB * Hash) :=
  let? c := commitTo (Finalise s deleteEmptyObjects) false in Some (fst c).

Definition Commit (s : StateDB) (deleteEmptyObjects : bool) : option (StateDB * Hash) :=
  let? c := commitTo (Finalise s deleteEmptyObjects) true in
  let '(s, root, batch) := c in
  let w := world s in
  Some (with_world s (set_backend w (store_write (store w) batch) (trie w)), root).

(** A copy shares nothing, and has no journal to revert to. *)
Definition Copy (s : StateDB) : StateDB := mkState (world s) [] ∅ [] 0.

(** Every log, in the order of its index. *)
Definition log_le (a b : Log) : Prop := l_index a <= l_index b.
#[local] Instance log_le_dec a b : Decision (log_le a b) := decide (l_index a <= l_index b).
Definition Logs (w : World) : list Log := merge_sort log_le (concat (map snd (map_to_list (logs w)))).

(** * What reading shows *)

(** The object an address loads as, and the values of its slots, without the
    caching. *)
Definition load (w : World) (addr : Address) : option stateObject :=
  match trie_get (store w) (trie w) (Keccak256 [addr]) with
  | None => None
  | Some enc =>
      if len enc =? 0 then None
      else match DecodeAccount enc with Err _ => None | Ok account => Some (newObject addr account) end
  end.

Definition live (w : World) (addr : Address) : option stateObject :=
  match objects w !! addr with
  | Some obj => if o_deleted obj then None else Some obj
  | None => load w addr
  end.

Definition committed_at (st : Store) (o : stateObject) (k : Hash) : Hash :=
  match o_origin o !! k with
  | Some v => v
  | None => if o_created o then ZeroHash else default ZeroHash (read_slot st (Root (o_data o)) k)
  end.

Definition value_at (st : Store) (o : stateObject) (k : Hash) : Hash := default (committed_at st o k) (o_dirty o !! k).

(** What is held under a code hash, in the cache or in the store, and the code an
    object reads as without the caching. *)
Definition code_hash (o : stateObject) : Hash := BytesToHash (CodeHash (o_data o)).
Definition held (st : Store) (cc : gmap Hash bytes) (h : Hash) : option bytes :=
  match cc !! h with Some c => Some c | None => store_get st (codeKey h) end.
Definition code_at (st : Store) (cc : gmap Hash bytes) (o : stateObject) : bytes :=
  match o_code o with
  | Some c => c
  | None => if bool_decide (code_hash o = EmptyCodeHash) then [] else default [] (held st cc (code_hash o))
  end.

(** Code that may be found under [h] later: what is held, or code with that hash. *)
Definition known (st : Store) (cc : gmap Hash bytes) (h : Hash) (c : bytes) : Prop :=
  held st cc h = Some c \/ Keccak256 [c] = h.

(** [o'] is [o] with more loaded: equal in all that is read of it. *)
Record obj_ext (st : Store) (cc : gmap Hash bytes) (o o' : stateObject) : Prop := mkObjExt
  { oe_address : o_address o' = o_address o;
    oe_data : o_data o' = o_data o;
    oe_code : o_code o' = o_code o \/
      (o_code o = None /\ code_hash o <> EmptyCodeHash /\ exists c, o_code o' = Some c /\ known st cc (code_hash o) c);
    oe_committed : forall k, committed_at st o' k = committed_at st o k;
    oe_value : forall k, value_at st o' k = value_at st o k;
    oe_destructed : o_selfDestructed o' = o_selfDestructed o;
    oe_deleted : o_deleted o' = o_deleted o;
    oe_created : o_created o' = o_created o }.

Inductive entry_ext (st : Store) (cc : gmap Hash bytes) (loaded : option stateObject) : option stateObject -> option stateObject -> Prop :=
| ee_both o o' : obj_ext st cc o o' -> entry_ext st cc loaded (Some o) (Some o')
| ee_none : entry_ext st cc loaded None None
| ee_loaded o o' : loaded = Some o -> obj_ext st cc o o' -> entry_ext st cc loaded None (Some o').

(** [w'] is [w] with more loaded. *)
Record ext (w w' : World) : Prop := mkExt
  { ex_store : store w' = store w;
    ex_trie : trie w' = trie w;
    ex_objects : forall a, entry_ext (store w) (codeCache w) (load w a) (objects w !! a) (objects w' !! a);
    ex_cache : forall h c, codeCache w' !! h = Some c -> known (store w) (codeCache w) h c;
    ex_cached : forall h, is_Some (codeCache w !! h) -> is_Some (codeCache w' !! h);
    ex_refund : refund w' = refund w;
    ex_logs : forall h, GetLogs w' h = GetLogs w h;
    ex_logSize : logSize w' = logSize w;
    ex_addresses : accessedAddresses w' = accessedAddresses w;
    ex_slots : forall a k, slot_in w' a k = slot_in w a k;
    ex_transient : forall a k, GetTransientState w' a k = GetTransientState w a k;
    ex_transient_some : forall a, is_Some (transient w !! a) -> is_Some (transient w' !! a);
    ex_thash : thash w' = thash w;
    ex_txIndex : txIndex w' = txIndex w }.

Lemma known_cached st cc h c : cc !! h = Some c -> known st cc h c.
Proof. intros H. left. unfold held. rewrite H. reflexivity. Qed.
#[local] Hint Resolve known_cached : core.

#[local] Instance obj_ext_preorder st cc : PreOrder (obj_ext st cc).
Proof.
  split.
  - intros o. constructor; auto.
  - intros o1 o2 o3 [] []. constructor; try congruence; auto. unfold code_hash in *. rewrite oe_data0 in *.
    destruct oe_code0 as [E1|(E1 & H1 & c & Ec & Hc)], oe_code1 as [E2|(E2 & H2 & d & Ed & Hd)];
      [left; congruence | right; split_and!; [congruence | exact H2 | eauto] | right; split_and!; [exact E1 | exact H1|] | congruence].
    exists c. split; [congruence | exact Hc].
Qed.

(** What may be found later may be found now. *)
Lemma known_back w w' h c : store w' = store w -> (forall h c, codeCache w' !! h = Some c -> known (store w) (codeCache w) h c) ->
  (forall h, is_Some (codeCache w !! h) -> is_Some (codeCache w' !! h)) -> known (store w') (codeCache w') h c -> known (store w) (codeCache w) h c.
Proof.
  intros Hs Hc Hm [H|H]; [|right; exact H]. unfold held in H. rewrite Hs in H. destruct (codeCache w' !! h) as [d|] eqn:E; [injection H as <-; auto|].
  left. unfold held. destruct (codeCache w !! h) as [d|] eqn:E'; [|exact H]. destruct (Hm h); [eauto | congruence].
Qed.

Lemma obj_ext_back st st' cc cc' o o' : st' = st -> (forall h c, known st' cc' h c -> known st cc h c) -> obj_ext st' cc' o o' -> obj_ext st cc o o'.
Proof. intros -> Hk []. constructor; auto. destruct oe_code0 as [|(? & ? & c & ? & ?)]; [auto | right; eauto 6]. Qed.

Lemma load_same w w' a : store w' = store w -> trie w' = trie w -> load w' a = load w a.
Proof. intros Hs Ht. unfold load. rewrite Hs, Ht. reflexivity. Qed.

#[local] Instance ext_preorder : PreOrder ext.
Proof.
  split.
  - intros w. constructor; auto. intros a. destruct (objects w !! a) as [o|]; constructor. reflexivity.
  - intros w1 w2 w3 H12 H23. pose proof H12 as []. pose proof H23 as [].
    pose proof (fun h c => known_back w1 w2 h c ex_store0 ex_cache0 ex_cached0) as Hk.
    constructor; try congruence; auto. intros a. specialize (ex_objects0 a). specialize (ex_objects1 a).
    assert (forall o o', obj_ext (store w2) (codeCache w2) o o' -> obj_ext (store w1) (codeCache w1) o o') as Hb
      by (intros q q'; apply obj_ext_back; assumption).
    destruct ex_objects0 as [o o' Ho| |o o' Hl Ho]; inversion ex_objects1 as [q q' Hq| |q q' Hl' Hq]; subst.
    + constructor. etransitivity; [eassumption | apply Hb; assumption].
    + constructor.
    + rewrite (load_same w1 w2) in Hl' by assumption. apply ee_loaded with q; [exact Hl' | apply Hb; assumption].
    + apply ee_loaded with o; [exact Hl|]. etransitivity; [eassumption | apply Hb; assumption].
Qed.

Lemma ext_back w w' o o' : ext w w' -> obj_ext (store w') (codeCache w') o o' -> obj_ext (store w) (codeCache w) o o'.
Proof. intros []. apply obj_ext_back; [assumption|]. intros h c. apply known_back; assumption. Qed.

Lemma live_ext w w' a : ext w w' ->
  match live w a, live w' a with
  | Some o, Some o' => obj_ext (store w) (codeCache w) o o'
  | None, None => True
  | _, _ => False
  end.
Proof.
  intros H. pose proof (ex_objects _ _ H a) as Ha. unfold live.
  rewrite (load_same w w') by apply H.
  destruct Ha as [o o' Ho| |o o' Hl Ho].
  - rewrite (oe_deleted _ _ _ _ Ho). destruct (o_deleted o); auto.
  - destruct (load w a); [reflexivity | trivial].
  - rewrite Hl, (oe_deleted _ _ _ _ Ho).
    assert (o_deleted o = false) as ->; [|exact Ho].
    unfold load in Hl. destruct (trie_get _ _ _); [|discriminate]. destruct (_ =? 0); [discriminate|].
    destruct (DecodeAccount _); [|discriminate]. injection Hl as <-. reflexivity.
Qed.

(** * Reads only load *)

(** Two worlds that differ in the dirty set and the error. *)
Lemma ext_cached w w' :
  store w' = store w -> trie w' = trie w -> objects w' = objects w -> codeCache w' = codeCache w -> refund w' = refund w -> logs w' = logs w ->
  logSize w' = logSize w -> accessedAddresses w' = accessedAddresses w -> accessedSlots w' = accessedSlots w ->
  transient w' = transient w -> thash w' = thash w -> txIndex w' = txIndex w -> ext w w'.
Proof.
  intros Hs Ht Ho Hc Hr Hl Hz Ha Hk Hn Hh Hi.
  constructor; auto; unfold GetLogs, slot_in, GetTransientState; try (rewrite Ho); try (rewrite Hc); try (rewrite Hl); try (rewrite Hk); try (rewrite Hn); auto.
  intros a. destruct (objects w !! a); constructor. reflexivity.
Qed.

Lemma ext_error w e : ext w (setError w e).
Proof. unfold setError. destruct (err w); [reflexivity | apply ext_cached; reflexivity]. Qed.

Lemma ext_codeCache w h c : known (store w) (codeCache w) h c -> ext w (set_codeCache w (<[h := c]> (codeCache w))).
Proof.
  intros Hk. constructor; auto; cbn [objects codeCache set_codeCache].
  - intros a. destruct (objects w !! a); constructor. reflexivity.
  - intros h' c'. rewrite lookup_insert. destruct (decide (h = h')) as [<-|]; [intros [= <-]; exact Hk | auto].
  - intros h' H'. rewrite lookup_insert. destruct (decide (h = h')); eauto.
Qed.

Lemma ext_put w a o o' :
  objects w !! a = Some o \/ (objects w !! a = None /\ load w a = Some o) -> obj_ext (store w) (codeCache w) o o' -> ext w (put_object w a o').
Proof.
  intros Ha Ho. constructor; auto. intros b. cbn [objects put_object set_objects].
  destruct (decide (a = b)) as [<-|Hne].
  - rewrite lookup_insert_eq. destruct Ha as [-> | [-> Hl]]; econstructor; eassumption.
  - rewrite lookup_insert_ne by exact Hne. destruct (objects w !! b); constructor. reflexivity.
Qed.

Lemma getStateObject_spec w a : exists w',
  getStateObject w a = (w', live w a) /\ ext w w' /\ live w' a = live w a /\
  (forall o, live w a = Some o -> objects w' !! a = Some o) /\ (live w a = None -> objects w' !! a = objects w !! a).
Proof.
  unfold getStateObject, live. destruct (objects w !! a) as [o|] eqn:Eo.
  { exists w. rewrite Eo. destruct (o_deleted o) eqn:Ed; split_and!; try reflexivity; congruence. }
  assert (forall e, objects (setError w e) !! a = None /\ load (setError w e) a = load w a) as He.
  { intros e. unfold setError. destruct (err w); split; try assumption; reflexivity. }
  assert (load w a = None -> forall w', w' = w \/ w' = setError w ErrAccount -> exists w'',
    (w', @None stateObject) = (w'', load w a) /\ ext w w'' /\
    match objects w'' !! a with Some obj => if o_deleted obj then None else Some obj | None => load w'' a end = load w a /\
    (forall o, load w a = Some o -> objects w'' !! a = Some o) /\ (load w a = None -> objects w'' !! a = None)) as Hnone.
  { intros Hl w' Hw. exists w'. rewrite Hl. destruct Hw as [-> | ->].
    - rewrite Eo. split_and!; auto; try reflexivity; congruence.
    - destruct (He ErrAccount) as [-> ->]. split_and!; auto using ext_error; congruence. }
  destruct (load w a) as [o|] eqn:HL; pose proof HL as El; unfold load in El; destruct (trie_get _ _ _) as [enc|]; try discriminate;
    try (apply Hnone; auto; fail); destruct (len enc =? 0); try discriminate;
    try (apply Hnone; auto; fail); destruct (DecodeAccount enc) as [account|] eqn:Ed; try discriminate;
    try (apply Hnone; auto; fail).
  injection El as <-. eexists. split; [reflexivity|]. cbn [objects put_object set_objects]. rewrite lookup_insert_eq.
  split; [|split_and!; try reflexivity; congruence].
  eapply ext_put; [right; split; [exact Eo|] | reflexivity]. assumption.
Qed.

Lemma committedState_spec w a o k : objects w !! a = Some o -> exists w' o',
  committedState w a o k = (w', committed_at (store w) o k) /\ ext w w' /\
  objects w' !! a = Some o' /\ obj_ext (store w) (codeCache w) o o' /\ o_dirty o' = o_dirty o.
Proof.
  intros Ha. unfold committedState.
  assert (forall v, committed_at (store w) o k = v -> o_origin o !! k = None ->
    obj_ext (store w) (codeCache w) o (with_origin o (<[k := v]> (o_origin o)))) as Hext.
  { intros v Hv Hn.
    assert (forall j, committed_at (store w) (with_origin o (<[k := v]> (o_origin o))) j = committed_at (store w) o j) as Hc.
    { intros j. unfold committed_at at 1. cbn [o_origin with_origin]. destruct (decide (k = j)) as [<-|Hne].
      - rewrite lookup_insert_eq. congruence.
      - rewrite lookup_insert_ne by exact Hne. reflexivity. }
    constructor; auto. intros j. unfold value_at. rewrite Hc. reflexivity. }
  unfold committed_at in *. destruct (o_origin o !! k) as [v|] eqn:Eo.
  { exists w, o. split; [reflexivity|]. split; [reflexivity|]. split; [exact Ha|]. split; reflexivity. }
  assert (forall v, (if o_created o then ZeroHash else default ZeroHash (read_slot (store w) (Root (o_data o)) k)) = v ->
    exists w' o', (put_object w a (with_origin o (<[k := v]> (o_origin o))), v) = (w', v) /\ ext w w' /\
      objects w' !! a = Some o' /\ obj_ext (store w) (codeCache w) o o' /\ o_dirty o' = o_dirty o) as Hput.
  { intros v Hv. eexists _, _. split; [reflexivity|]. cbn [objects put_object set_objects]. rewrite lookup_insert_eq.
    split; [eapply ext_put; [left; exact Ha | apply Hext; [exact Hv | reflexivity]]|].
    split; [reflexivity|]. split; [apply Hext; [exact Hv | reflexivity] | reflexivity]. }
  destruct (o_created o); [apply (Hput _ eq_refl)|].
  destruct (read_slot _ _ _) as [v|]; [apply (Hput v eq_refl)|].
  exists (setError w ErrStorage), o. split; [reflexivity|]. split; [apply ext_error|].
  split; [unfold setError; destruct (err w); exact Ha|]. split; reflexivity.
Qed.

Lemma obj_ext_code st cc o c : o_code o = None -> code_hash o <> EmptyCodeHash -> held st cc (code_hash o) = Some c ->
  obj_ext st cc o (with_code o (Some c) (o_codeDirty o)).
Proof. intros H Hne Hh. constructor; auto. right. split_and!; [exact H | exact Hne | exists c; split; [reflexivity | left; exact Hh]]. Qed.

Lemma codeOf_spec w a o : objects w !! a = Some o -> exists w' c o',
  codeOf w a o = (w', c) /\ ext w w' /\ objects w' !! a = Some o' /\ obj_ext (store w) (codeCache w) o o' /\ c = o_code o' /\
  default [] c = code_at (store w) (codeCache w) o.
Proof.
  intros Ha. unfold codeOf, code_at. destruct (o_code o) as [c|] eqn:Ec.
  { exists w, (Some c), o. split_and!; auto; reflexivity. }
  change (BytesToHash (CodeHash (o_data o))) with (code_hash o). case_bool_decide as Hh.
  { exists w, None, o. split_and!; auto; reflexivity. }
  assert (forall c, held (store w) (codeCache w) (code_hash o) = Some c -> ext w (put_object w a (with_code o (Some c) (o_codeDirty o)))) as Hput.
  { intros c Hc. eapply ext_put; [left; exact Ha | apply obj_ext_code; assumption]. }
  unfold held in *. destruct (codeCache w !! code_hash o) as [c|] eqn:E.
  { eexists _, _, _. split; [reflexivity|]. cbn [objects put_object set_objects]. rewrite lookup_insert_eq.
    split_and!; [apply Hput; reflexivity | reflexivity | apply obj_ext_code; unfold held; rewrite ?E; auto | reflexivity | reflexivity]. }
  destruct (store_get _ _) as [c|] eqn:Es.
  - eexists _, _, _. split; [reflexivity|]. cbn [objects put_object set_objects set_codeCache]. rewrite lookup_insert_eq.
    split_and!; [|reflexivity | apply obj_ext_code; unfold held; rewrite ?E; auto | reflexivity | reflexivity].
    etransitivity; [apply Hput; reflexivity|]. apply (ext_codeCache (put_object w a _)). left. unfold held. cbn [codeCache put_object set_objects store]. rewrite E. exact Es.
  - exists (setError w ErrCode), None, o. split; [reflexivity|]. split; [apply ext_error|].
    split; [unfold setError; destruct (err w); exact Ha|]. split_and!; [reflexivity | auto | reflexivity].
Qed.

Definition slot_value (w : World) (a : Address) (k : Hash) : Hash :=
  match live w a with Some o => value_at (store w) o k | None => ZeroHash end.

Lemma get_state_spec w a k : exists w',
  get_state w a k = (w', slot_value w a k) /\ ext w w' /\
  (forall o, live w a = Some o -> exists o', objects w' !! a = Some o' /\ obj_ext (store w) (codeCache w) o o' /\ o_dirty o' = o_dirty o).
Proof.
  unfold get_state, slot_value. destruct (getStateObject_spec w a) as (w1 & -> & H1 & _ & Hs & _).
  destruct (live w a) as [o|]; [|exists w1; split_and!; auto; congruence].
  specialize (Hs o eq_refl). unfold value_at. destruct (o_dirty o !! k) as [v|] eqn:Ed.
  { exists w1. split_and!; auto. intros q [= <-]. exists o. split_and!; auto. reflexivity. }
  destruct (committedState_spec w1 a o k Hs) as (w2 & o' & -> & H2 & Ho' & Hext & Hd).
  apply (ext_back _ _ _ _ H1) in Hext. rewrite (ex_store _ _ H1). exists w2. split_and!; [reflexivity | etransitivity; eassumption|].
  intros q [= <-]. exists o'. auto.
Qed.

(** * Undoing *)

(** What an entry needs to be undone: the object, the map or the log it
    changed is there. *)
Definition applicable (e : journalEntry) (w : World) : Prop :=
  match e with
  | balanceChange a _ | nonceChange a _ | codeChange a _ _ | storageChange a _ _ _ | selfDestructChange a _ _ =>
      is_Some (objects w !! a)
  | transientStorageChange a _ _ => is_Some (transient w !! a)
  | addLogChange h => GetLogs w h <> []
  | _ => True
  end.

Lemma applicable_mono e w w' : ext w w' -> applicable e w -> applicable e w'.
Proof.
  intros H. destruct e; cbn [applicable]; auto;
    try (intros [o Ho]; pose proof (ex_objects _ _ H account) as Ha; rewrite Ho in Ha; inversion Ha; eauto; fail).
  - apply H.
  - rewrite (ex_logs _ _ H). auto.
Qed.

Lemma ext_on_object w w' a f :
  ext w w' -> is_Some (objects w !! a) -> (forall o o', obj_ext (store w) (codeCache w) o o' -> obj_ext (store w) (codeCache w) (f o) (f o')) ->
  ext (on_object w a f) (on_object w' a f).
Proof.
  intros H [o Ho] Hf. pose proof (ex_objects _ _ H a) as Ha. rewrite Ho in Ha. inversion Ha as [x o' Hoo Ex Eo'| |]; subst x.
  unfold on_object. rewrite Ho, <- Eo'. destruct H. constructor; auto.
  intros b. cbn [objects put_object set_objects]. destruct (decide (a = b)) as [<-|Hne].
  - rewrite !lookup_insert_eq. constructor. apply Hf, Hoo.
  - rewrite !lookup_insert_ne by exact Hne. destruct (ex_objects0 b); econstructor; eassumption.
Qed.

(** A change to an object that leaves its storage alone. *)
Lemma obj_ext_storage st cc o o' (g : stateObject -> stateObject) :
  (forall q, o_origin (g q) = o_origin q /\ o_dirty (g q) = o_dirty q /\ o_created (g q) = o_created q /\
     Root (o_data (g q)) = Root (o_data q)) ->
  o_address (g o') = o_address (g o) -> o_data (g o') = o_data (g o) -> 
  (o_code (g o') = o_code (g o) \/ forall q, o_code (g q) = o_code q /\ code_hash (g q) = code_hash q) ->
  o_selfDestructed (g o') = o_selfDestructed (g o) -> o_deleted (g o') = o_deleted (g o) ->
  obj_ext st cc o o' -> obj_ext st cc (g o) (g o').
Proof.
  intros Hg Ha Hd Hc Hs Hdel H. destruct (Hg o) as (E1 & E2 & E3 & E4), (Hg o') as (F1 & F2 & F3 & F4). destruct H.
  assert (forall k q, committed_at st (g q) k = committed_at st q k) as Hcom.
  { intros k q. destruct (Hg q) as (G1 & G2 & G3 & G4). unfold committed_at. rewrite G1, G3, G4. reflexivity. }
  constructor; auto; [| | |congruence].
  - destruct Hc as [|Hc]; [auto|]. destruct (Hc o) as [-> ->], (Hc o') as [-> _]. assumption.
  - intros k. rewrite !Hcom. auto.
  - intros k. unfold value_at. rewrite !Hcom, F2, E2. apply oe_value0.
Qed.

Lemma obj_ext_dirty st cc o o' m m' :
  (forall k, default (committed_at st o k) (m' k) = default (committed_at st o k) (m k)) ->
  forall d d', (forall k, d !! k = m k) -> (forall k, d' !! k = m' k) ->
  obj_ext st cc o o' -> obj_ext st cc (with_dirty o d) (with_dirty o' d').
Proof.
  intros Hm d d' Hd Hd' []. constructor; auto. intros k. unfold value_at. cbn [o_dirty with_dirty]. rewrite Hd, Hd'.
  change (committed_at st (with_dirty o' d') k) with (committed_at st o' k). rewrite oe_committed0. apply Hm.
Qed.

Lemma undo_storage_mono st cc o o' key prev (existed : bool) :
  obj_ext st cc o o' ->
  obj_ext st cc (if negb existed && HashIsZero prev then with_dirty o (delete key (o_dirty o)) else with_dirty o (<[key := prev]> (o_dirty o)))
    (if negb existed && HashIsZero prev then with_dirty o' (delete key (o_dirty o')) else with_dirty o' (<[key := prev]> (o_dirty o'))).
Proof.
  intros H. pose proof (oe_value _ _ _ _ H) as Hv. unfold value_at in Hv. setoid_rewrite (oe_committed _ _ _ _ H) in Hv.
  destruct (_ && _); (eapply obj_ext_dirty; [|intros; reflexivity|intros; reflexivity|exact H]); intros k; cbn beta;
    (destruct (decide (key = k)) as [<-|Hne];
     [rewrite ?lookup_delete_eq, ?lookup_insert_eq | rewrite ?lookup_delete_ne, ?lookup_insert_ne by exact Hne]; auto).
Qed.

(** Updates of the parts of the world beside the objects. *)
Lemma ext_transient w w' t t' :
  ext w w' ->
  (forall a k, default ZeroHash (default ∅ (t' !! a) !! k) = default ZeroHash (default ∅ (t !! a) !! k)) ->
  (forall a, is_Some (t !! a) -> is_Some (t' !! a)) -> ext (set_transient w t) (set_transient w' t').
Proof. intros [] Hv Hs. constructor; first [assumption | reflexivity]. Qed.

Lemma ext_logs_set w w' l l' n :
  ext w w' -> (forall h, default [] (l' !! h) = default [] (l !! h)) -> ext (set_logs w l n) (set_logs w' l' n).
Proof. intros [] Hv. constructor; first [assumption | reflexivity]. Qed.

Lemma ext_access w w' x m m' :
  ext w w' -> (forall a k, bool_decide (k ∈ default ∅ (m' !! a)) = bool_decide (k ∈ default (∅ : gset Hash) (m !! a))) ->
  ext (set_access w x m) (set_access w' x m').
Proof. intros [] Hv. constructor; first [assumption | reflexivity]. Qed.

Lemma undo_log_value w h g :
  GetLogs w h <> [] ->
  GetLogs (undo (addLogChange h) w) g = if decide (h = g) then removelast (GetLogs w h) else GetLogs w g.
Proof.
  intros Hne. cbn [undo]. unfold GetLogs at 1. cbn [logs set_logs].
  destruct (Z.eqb_spec (len (GetLogs w h)) 1) as [E|E]; destruct (decide (h = g)) as [<-|Hg].
  - rewrite lookup_delete_eq. destruct (GetLogs w h) as [|x [|y l]]; [reflexivity..|]. rewrite !len_cons in E.
    pose proof (len_nonneg l). lia.
  - rewrite lookup_delete_ne by exact Hg. reflexivity.
  - rewrite lookup_insert_eq. reflexivity.
  - rewrite lookup_insert_ne by exact Hg. reflexivity.
Qed.

Lemma undo_slot_in w a slot b k :
  slot_in (undo (accessListAddSlotChange a slot) w) b k = slot_in w b k && negb (bool_decide (a = b /\ slot = k)).
Proof.
  cbn [undo]. unfold slot_in. destruct (accessedSlots w !! a) as [m|] eqn:E.
  - cbn [accessedSlots set_access]. destruct (decide (a = b)) as [<-|Hne].
    + rewrite lookup_insert_eq, E. cbn [from_option id]. apply eq_true_iff_eq. rewrite andb_true_iff, negb_true_iff, bool_decide_eq_false, !bool_decide_eq_true.
      rewrite elem_of_difference, elem_of_singleton. intuition congruence.
    + rewrite lookup_insert_ne by exact Hne. rewrite (bool_decide_eq_false_2 (a = b /\ slot = k)) by tauto.
      symmetry. apply andb_true_r.
  - destruct (decide (a = b)) as [<-|Hne].
    + rewrite E. cbn [from_option id]. rewrite bool_decide_eq_false_2 by set_solver. reflexivity.
    + rewrite (bool_decide_eq_false_2 (a = b /\ slot = k)) by tauto. symmetry. apply andb_true_r.
Qed.

Lemma undo_slot_access w a k : exists m, undo (accessListAddSlotChange a k) w = set_access w (accessedAddresses w) m.
Proof. cbn [undo]. destruct (accessedSlots w !! a); [eauto|]. exists (accessedSlots w). destruct w; reflexivity. Qed.

Lemma undo_transient_value w a key prev b k :
  is_Some (transient w !! a) ->
  GetTransientState (undo (transientStorageChange a key prev) w) b k =
  if decide (a = b /\ key = k) then prev else GetTransientState w b k.
Proof.
  intros [m Hm]. cbn [undo]. rewrite Hm. unfold GetTransientState, HashIsZero. cbn [transient set_transient].
  destruct (decide (a = b)) as [<-|Hne].
  - rewrite lookup_insert_eq, Hm. cbn [from_option id].
    destruct (decide (key = k)) as [<-|Hk].
    + rewrite decide_True by auto. case_bool_decide; [rewrite lookup_delete_eq; auto | rewrite lookup_insert_eq; reflexivity].
    + rewrite decide_False by tauto. case_bool_decide; [rewrite lookup_delete_ne by exact Hk | rewrite lookup_insert_ne by exact Hk]; reflexivity.
  - rewrite lookup_insert_ne by exact Hne. rewrite decide_False by tauto. reflexivity.
Qed.

Lemma ext_map w w' m m' d d' :
  ext w w' -> (forall a, entry_ext (store w) (codeCache w) (load w a) (m !! a) (m' !! a)) ->
  ext (set_objectsDirty (set_objects w m) d) (set_objectsDirty (set_objects w' m') d').
Proof. intros [] Hm. constructor; assumption. Qed.

(** Undoing an entry keeps what two worlds have in common. *)
Lemma undo_mono e w w' : ext w w' -> applicable e w -> ext (undo e w) (undo e w').
Proof.
  intros H Happ. destruct e; cbn [applicable] in Happ;
    try (lazymatch goal with |- context [storageChange] => fail | _ => idtac end; cbn [undo];
         lazymatch goal with |- ext (on_object _ _ ?f) _ =>
           apply ext_on_object; [exact H | exact Happ|]; intros o o' Ho; pose proof Ho as [];
           apply (obj_ext_storage _ _ o o' f); try assumption; cbn; auto; congruence end).
  - destruct prev as [p|]; cbn [undo].
    + destruct H. constructor; try assumption. intros b. cbn [objects put_object set_objects].
      destruct (decide (account = b)) as [<-|Hne].
      * rewrite !lookup_insert_eq. constructor. reflexivity.
      * rewrite !lookup_insert_ne by exact Hne. apply ex_objects0.
    + apply ext_map; [exact H|]. intros b. destruct (decide (account = b)) as [<-|Hne].
      * rewrite !lookup_delete_eq. constructor.
      * rewrite !lookup_delete_ne by exact Hne. apply H.
  - apply ext_on_object; [exact H | exact Happ|]. intros o o' Ho. apply undo_storage_mono, Ho.
  - destruct (ex_transient_some _ _ H _ Happ) as [m' Hm']. pose proof Happ as [m Hm].
    pose proof (fun b k => undo_transient_value w account key prev b k Happ) as Hv.
    pose proof (fun b k => undo_transient_value w' account key prev b k (ex_intro _ m' Hm')) as Hv'.
    cbn [undo] in *. rewrite Hm, Hm' in *. apply ext_transient; [exact H| |].
    + intros b k. specialize (Hv b k). specialize (Hv' b k). unfold GetTransientState in Hv at 1, Hv' at 1.
      cbn [transient set_transient] in Hv, Hv'. rewrite Hv, Hv', (ex_transient _ _ H). reflexivity.
    + intros b. destruct (decide (account = b)) as [<-|Hne]; [rewrite !lookup_insert_eq; eauto|].
      rewrite !lookup_insert_ne by exact Hne. apply H.
  - destruct H. constructor; first [assumption | reflexivity].
  - pose proof (fun g => undo_log_value w txhash g Happ) as Hv.
    rewrite <- (ex_logs _ _ H) in Happ. pose proof (fun g => undo_log_value w' txhash g Happ) as Hv'.
    cbn [undo] in *. rewrite (ex_logSize _ _ H). apply ext_logs_set; [exact H|].
    intros g. specialize (Hv g). specialize (Hv' g). unfold GetLogs in Hv at 1, Hv' at 1.
    cbn [logs set_logs] in Hv, Hv'. rewrite Hv, Hv', !(ex_logs _ _ H). reflexivity.
  - cbn [undo]. rewrite (ex_addresses _ _ H). apply ext_access; [exact H|]. intros b k.
    destruct (decide (address = b)) as [<-|Hne]; [rewrite !lookup_delete_eq; reflexivity|].
    rewrite !lookup_delete_ne by exact Hne. apply H.
  - pose proof (undo_slot_in w address slot) as Hv. pose proof (undo_slot_in w' address slot) as Hv'.
    destruct (undo_slot_access w address slot) as [m Em], (undo_slot_access w' address slot) as [m' Em']. rewrite Em, Em' in *. rewrite (ex_addresses _ _ H).
    apply ext_access; [exact H|]. intros b k. specialize (Hv b k). specialize (Hv' b k).
    unfold slot_in in Hv at 1, Hv' at 1. cbn [accessedSlots set_access] in Hv, Hv'.
    rewrite Hv, Hv', (ex_slots _ _ H). reflexivity.
Qed.

(** * Moves: loading, and one journaled change *)

Definition wf (w : World) : Prop :=
  (forall a k, slot_in w a k = true -> a ∈ accessedAddresses w) /\ u64_ok (logSize w).

Lemma wf_ext w w' : ext w w' -> wf w -> wf w'.
Proof.
  intros H [Hs Hl]. unfold wf. rewrite (ex_addresses _ _ H), (ex_logSize _ _ H). split; [|exact Hl].
  intros a k. rewrite (ex_slots _ _ H). apply Hs.
Qed.

Inductive move (s : StateDB) : StateDB -> Prop :=
| move_load w : ext (world s) w -> move s (with_world s w)
| move_write e w : applicable e w -> ext (world s) (undo e w) -> wf w -> move s (record s e w).

Definition undo_all (es : list journalEntry) (w : World) : World := fold_left (fun w e => undo e w) es w.

(** The entries of [es], newest first, can be undone one after the other. *)
Fixpoint chain (w : World) (es : list journalEntry) : Prop :=
  match es with
  | [] => True
  | e :: es => applicable e w /\ wf (undo e w) /\ chain (undo e w) es
  end.

Lemma chain_mono es : forall w w', ext w w' -> chain w es -> chain w' es /\ ext (undo_all es w) (undo_all es w').
Proof.
  induction es as [|e es IH]; cbn [chain undo_all fold_left]; intros w w' H Hc; [auto|].
  destruct Hc as (Ha & Hw & Hc). pose proof (undo_mono e w w' H Ha) as Hu. destruct (IH _ _ Hu Hc) as [Hc' He].
  split_and!; [eapply applicable_mono; eassumption | eapply wf_ext; eassumption | exact Hc' | exact He].
Qed.

Lemma chain_app es : forall w fs, chain w (es ++ fs) <-> chain w es /\ chain (undo_all es w) fs.
Proof.
  induction es as [|e es IH]; intros w fs; cbn [chain app undo_all fold_left]; [tauto|].
  rewrite IH. unfold undo_all. tauto.
Qed.

Lemma chain_wf es : forall w, wf w -> chain w es -> wf (undo_all es w).
Proof.
  induction es as [|e es IH]; intros w Hw Hc; [exact Hw|]. destruct Hc as (_ & Hu & Hc). apply (IH _ Hu Hc).
Qed.

Definition undo_to (n : nat) (s : StateDB) : World := undo_all (rev (drop n (entries s))) (world s).

(** The journal can be undone, revisions are in order. *)
Record inv (s : StateDB) : Prop := mkInv
  { inv_wf : wf (world s);
    inv_chain : chain (world s) (rev (entries s));
    inv_order : forall i j r q, (i < j)%nat -> revisions s !! i = Some r -> revisions s !! j = Some q -> fst r < fst q /\ (snd r <= snd q)%nat;
    inv_bounds : forall i r, revisions s !! i = Some r -> fst r < nextRevID s /\ (snd r <= length (entries s))%nat }.

(** Where revision [id] is listed, undoing down to it leads back to [S]. *)
Record kept (S : StateDB) (id : Z) (s : StateDB) : Prop := mkKept
  { kept_id : id < nextRevID s;
    kept_at : forall i n, revisions s !! i = Some (id, n) ->
      take n (entries s) = entries S /\ take i (revisions s) = revisions S /\ ext (world S) (undo_to n s) }.

Lemma rev_drop_snoc {A} n (l : list A) x : (n <= length l)%nat -> rev (drop n (l ++ [x])) = x :: rev (drop n l).
Proof. intros H. rewrite drop_app_le by exact H. rewrite rev_app_distr. reflexivity. Qed.

Lemma move_inv s s' : move s s' -> inv s -> inv s'.
Proof.
  intros Hm Hi. pose proof Hi as [Hw Hc Ho Hb]. destruct Hm as [w He | e w Ha He Hwf].
  - constructor; cbn [world entries revisions nextRevID with_world]; auto; [eapply wf_ext; eassumption|].
    eapply chain_mono; eassumption.
  - constructor; cbn [world entries revisions nextRevID with_world record journal_append]; auto.
    + rewrite rev_app_distr. cbn [rev app chain]. split_and!; [exact Ha | eapply wf_ext; eassumption|].
      eapply chain_mono; eassumption.
    + intros i r Hr. destruct (Hb i r Hr). rewrite length_app. cbn [length]. lia.
Qed.

Lemma move_kept S id s s' : move s s' -> inv s -> kept S id s -> kept S id s'.
Proof.
  intros Hm Hi [Hid Hk]. pose proof Hi as [Hw Hc Ho Hb]. destruct Hm as [w He | e w Ha He Hwf].
  - constructor; [exact Hid|]. cbn [world entries revisions nextRevID with_world]. intros i n Hr.
    destruct (Hk i n Hr) as (E1 & E2 & E3). split_and!; auto. etransitivity; [exact E3|].
    unfold undo_to. cbn [world entries with_world]. eapply chain_mono; [exact He|].
    rewrite <- (take_drop n (entries s)), rev_app_distr in Hc. apply chain_app in Hc. apply Hc.
  - constructor; [exact Hid|]. cbn [world entries revisions nextRevID with_world record journal_append]. intros i n Hr.
    destruct (Hk i n Hr) as (E1 & E2 & E3). destruct (Hb _ _ Hr) as [_ Hn]. cbn [snd] in Hn.
    split_and!; auto; [rewrite take_app_le by exact Hn; exact E1|].
    etransitivity; [exact E3|]. unfold undo_to. cbn [world entries with_world record journal_append].
    rewrite rev_drop_snoc by exact Hn. unfold undo_all. cbn [fold_left]. eapply chain_mono; [exact He|].
    rewrite <- (take_drop n (entries s)), rev_app_distr in Hc. apply chain_app in Hc. apply Hc.
Qed.

Lemma revert_fields s id s' : RevertToSnapshot s id = Some s' -> exists i n,
  revisions s !! i = Some (id, n) /\ world s' = undo_to n s /\ entries s' = take n (entries s) /\
  revisions s' = take i (revisions s) /\ nextRevID s' = nextRevID s.
Proof.
  unfold RevertToSnapshot. destruct (revisions s !! search _ _) as [[rid n]|] eqn:E; [|discriminate].
  destruct (Z.eqb_spec rid id) as [->|]; [|discriminate]. intros [= <-]. exists (search (revisions s) id), n.
  split_and!; auto.
Qed.

Lemma undo_to_revert s s' n m :
  world s' = undo_to n s -> entries s' = take n (entries s) -> (m <= n)%nat -> undo_to m s' = undo_to m s.
Proof.
  intros Hw He Hm. unfold undo_to at 1. rewrite Hw, He. unfold undo_to, undo_all.
  rewrite <- fold_left_app, <- rev_app_distr. do 2 f_equal. rewrite <- (take_drop n (entries s)) at 3.
  destruct (Nat.le_gt_cases n (length (entries s))).
  - rewrite drop_app_le; [reflexivity|]. rewrite length_take. lia.
  - rewrite (take_ge (entries s)), (drop_ge (entries s) n), !app_nil_r by lia. reflexivity.
Qed.

Lemma revert_inv s id s' : RevertToSnapshot s id = Some s' -> inv s -> inv s'.
Proof.
  intros Hr [Hw Hc Ho Hb]. destruct (revert_fields _ _ _ Hr) as (i & n & Hi & Ew & Ee & Er & En).
  destruct (Hb _ _ Hi) as [_ Hn]. cbn [snd] in Hn.
  rewrite <- (take_drop n (entries s)), rev_app_distr in Hc. apply chain_app in Hc. destruct Hc as [Hc1 Hc2].
  constructor.
  - rewrite Ew. apply chain_wf; assumption.
  - rewrite Ew, Ee. exact Hc2.
  - rewrite Er. intros a b r q Hab Ha Hq. apply lookup_take_Some in Ha, Hq. apply (Ho a b r q Hab); tauto.
  - rewrite Er, En, Ee. intros a r Ha. apply lookup_take_Some in Ha. destruct Ha as [Ha Hlt].
    destruct (Hb a r Ha). destruct (Ho a i r _ Hlt Ha Hi) as [_ Hle]. cbn [snd] in Hle. rewrite length_take. lia.
Qed.

Lemma revert_kept S id s j s' : RevertToSnapshot s j = Some s' -> inv s -> kept S id s -> kept S id s'.
Proof.
  intros Hr [Hw Hc Ho Hb] [Hid Hk]. destruct (revert_fields _ _ _ Hr) as (i & n & Hi & Ew & Ee & Er & En).
  constructor; [lia|]. rewrite Er. intros a m Ha. apply lookup_take_Some in Ha. destruct Ha as [Ha Hlt].
  destruct (Hk a m Ha) as (E1 & E2 & E3). destruct (Ho a i _ _ Hlt Ha Hi) as [_ Hle]. cbn [snd] in Hle.
  rewrite Ee, (undo_to_revert s s' n m Ew Ee Hle), take_take, take_take, !Nat.min_l by lia. auto.
Qed.

Lemma snapshot_inv s : inv s -> inv (fst (Snapshot s)).
Proof.
  intros [Hw Hc Ho Hb]. constructor; cbn [world entries revisions nextRevID Snapshot fst]; auto.
  - intros i j r q Hij Hr Hq. apply lookup_app_Some in Hr, Hq.
    destruct Hr as [Hr | [Hl Hr]]; [|apply list_lookup_singleton_Some in Hr; destruct Hr as [Hz <-]].
    + destruct Hq as [Hq | [_ Hq]]; [eauto|]. apply list_lookup_singleton_Some in Hq. destruct Hq as [_ <-].
      destruct (Hb i r Hr). cbn. lia.
    + destruct Hq as [Hq | [Hl' Hq]]; [apply lookup_lt_Some in Hq; lia|]. apply list_lookup_singleton_Some in Hq. lia.
  - intros i r Hr. apply lookup_app_Some in Hr. destruct Hr as [Hr | [_ Hr]].
    + destruct (Hb i r Hr). lia.
    + apply list_lookup_singleton_Some in Hr. destruct Hr as [_ <-]. cbn. lia.
Qed.

Lemma snapshot_kept S id s : kept S id s -> kept S id (fst (Snapshot s)).
Proof.
  intros [Hid Hk]. constructor; cbn [world entries revisions nextRevID Snapshot fst]; [lia|].
  intros i n Hr. apply lookup_app_Some in Hr. destruct Hr as [Hr | [_ Hr]].
  - destruct (Hk i n Hr) as (E1 & E2 & E3). rewrite take_app_le by (apply lookup_lt_Some in Hr; lia). auto.
  - apply list_lookup_singleton_Some in Hr. destruct Hr as [_ [= E]]. lia.
Qed.

(** A snapshot is kept from the start. *)
Lemma snapshot_starts s : inv s -> kept s (nextRevID s) (fst (Snapshot s)).
Proof.
  intros [Hw Hc Ho Hb]. constructor; cbn [world entries revisions nextRevID Snapshot fst]; [lia|].
  intros i n Hr. apply lookup_app_Some in Hr. destruct Hr as [Hr | [Hl Hr]].
  - destruct (Hb i _ Hr). cbn [fst] in *. lia.
  - apply list_lookup_singleton_Some in Hr. destruct Hr as [Hz [= <-]].
    replace i with (length (revisions s)) by lia. rewrite take_app_length.
    rewrite firstn_all. unfold undo_to. cbn [world entries Snapshot fst]. rewrite drop_all. split_and!; reflexivity.
Qed.

(** * Every operation is a sequence of moves *)

Lemma wf_same w w' :
  accessedAddresses w' = accessedAddresses w -> accessedSlots w' = accessedSlots w -> logSize w' = logSize w -> wf w -> wf w'.
Proof. intros Ha Hs Hl. unfold wf, slot_in. rewrite Ha, Hs, Hl. auto. Qed.

Lemma moves_inv s s' : rtc move s s' -> inv s -> inv s'.
Proof. induction 1; eauto using move_inv. Qed.

Lemma moves_kept S id s s' : rtc move s s' -> inv s -> kept S id s -> kept S id s'.
Proof. induction 1; eauto using move_inv, move_kept. Qed.

Lemma move_wf s s' : move s s' -> wf (world s) -> wf (world s').
Proof. intros [w H | e w _ _ H] Hw; [eapply wf_ext; eassumption | exact H]. Qed.

Lemma moves_wf s s' : rtc move s s' -> wf (world s) -> wf (world s').
Proof. induction 1; eauto using move_wf. Qed.

(** Moves leave the revisions alone. *)
Lemma moves_revisions s s' : rtc move s s' -> revisions s' = revisions s /\ nextRevID s' = nextRevID s.
Proof.
  induction 1 as [|s s1 s2 Hm _ [IH1 IH2]]; [auto|]. rewrite IH1, IH2. destruct Hm; split; reflexivity.
Qed.

Lemma ext_dirty w d : ext w (set_objectsDirty w d).
Proof. apply ext_cached; reflexivity. Qed.

(** A journaled change to one object, undone by [f]. *)
Lemma move_object s a o o' e f w' :
  wf (world s) -> objects (world s) !! a = Some o -> (forall w, undo e w = on_object w a f) ->
  (forall w, is_Some (objects w !! a) -> applicable e w) -> obj_ext (store (world s)) (codeCache (world s)) o (f o') ->
  ext (put_object (world s) a o') w' -> move s (record s e w').
Proof.
  intros Hw Ho He Happ Hf Hext.
  assert (is_Some (objects (put_object (world s) a o') !! a)) as Hs.
  { cbn [objects put_object set_objects]. rewrite lookup_insert_eq. eauto. }
  apply move_write.
  - eapply applicable_mono; [exact Hext | apply Happ, Hs].
  - etransitivity; [|apply undo_mono; [exact Hext | apply Happ, Hs]]. rewrite He. unfold on_object.
    cbn [objects put_object set_objects]. rewrite lookup_insert_eq. unfold put_object. cbn [objects set_objects].
    rewrite insert_insert_eq. exact (ext_put (world s) a o (f o') (or_introl Ho) Hf).
  - eapply wf_ext; [exact Hext|]. eapply wf_same; [..|exact Hw]; reflexivity.
Qed.

Lemma getOrNew_moves s a : wf (world s) ->
  rtc move s (fst (getOrNewStateObject s a)) /\
  objects (world (fst (getOrNewStateObject s a))) !! a = Some (snd (getOrNewStateObject s a)).
Proof.
  intros Hw. unfold getOrNewStateObject. destruct (getStateObject_spec (world s) a) as (w & -> & He & Hl & Hs & Hn).
  destruct (live (world s) a) as [o|] eqn:El.
  { cbn [fst snd]. split; [apply rtc_once, move_load, He | apply Hs, eq_refl]. }
  split.
  - eapply rtc_l; [apply move_load, He|]. apply rtc_once. unfold createObject. cbn [fst world with_world].
    apply move_write.
    + destruct (objects w !! a); exact I.
    + destruct (objects w !! a) as [p|] eqn:Ep; cbn [undo world with_world].
      * unfold put_object, markDirty. cbn [objects set_objects set_objectsDirty]. rewrite insert_insert_eq, (insert_id _ a p) by exact Ep.
        apply ext_cached; reflexivity.
      * unfold put_object, markDirty. cbn [objects set_objects set_objectsDirty]. rewrite delete_insert_id by exact Ep.
        apply ext_cached; reflexivity.
    + apply (wf_same w); try reflexivity. eapply wf_ext; eassumption.
  - unfold createObject. cbn. apply lookup_insert_eq.
Qed.

Lemma obj_ext_balance st cc o b : obj_ext st cc o (with_balance (with_balance o b) (Balance (o_data o))).
Proof. destruct o as [? []]. reflexivity. Qed.

Lemma setBalance_moves s a o b :
  wf (world s) -> objects (world s) !! a = Some o -> move s (setBalance s a o b).
Proof.
  intros Hw Ho. unfold setBalance.
  apply (move_object s a o (with_balance o b) _ (fun q => with_balance q (Balance (o_data o)))); auto.
  - apply obj_ext_balance.
  - apply ext_dirty.
Qed.

Lemma SetBalance_moves s a b : wf (world s) -> rtc move s (SetBalance s a b).
Proof.
  intros Hw. unfold SetBalance. destruct (getOrNew_moves s a Hw) as [Hm Ho].
  destruct (getOrNewStateObject s a) as [s1 o]. cbn [fst snd] in *.
  eapply rtc_r; [exact Hm|]. apply setBalance_moves; [eapply moves_wf; eassumption | exact Ho].
Qed.

Lemma add_balance_moves s a x : wf (world s) -> rtc move s (add_balance s a x).
Proof.
  intros Hw. unfold add_balance, Exist. destruct (x =? 0).
  - destruct (getStateObject_spec (world s) a) as (w & -> & He & _ & _ & _).
    assert (rtc move s (with_world s w)) as H1 by (apply rtc_once, move_load, He).
    destruct (live (world s) a); [|exact H1]. etransitivity; [exact H1|]. apply getOrNew_moves.
    eapply moves_wf; eassumption.
  - destruct (getOrNew_moves s a Hw) as [Hm Ho]. destruct (getOrNewStateObject s a) as [s1 o]. cbn [fst snd] in *.
    eapply rtc_r; [exact Hm|]. apply setBalance_moves; [eapply moves_wf; eassumption | exact Ho].
Qed.

Lemma sub_balance_moves s a x : wf (world s) -> rtc move s (sub_balance s a x).
Proof.
  intros Hw. unfold sub_balance. destruct (x =? 0); [constructor|].
  destruct (getOrNew_moves s a Hw) as [Hm Ho]. destruct (getOrNewStateObject s a) as [s1 o]. cbn [fst snd] in *.
  eapply rtc_r; [exact Hm|]. apply setBalance_moves; [eapply moves_wf; eassumption | exact Ho].
Qed.

(** A new object is undone by restoring the entry it displaced. *)
Lemma undo_create w a q w' :
  ext (put_object w a q) w' ->
  ext w (undo (createObjectChange a (objects w !! a)) w').
Proof.
  intros He. etransitivity; [|apply undo_mono; [exact He | destruct (objects w !! a); exact I]].
  destruct (objects w !! a) as [p|] eqn:Ep; cbn [undo]; unfold put_object; cbn [objects set_objects].
  - rewrite insert_insert_eq, (insert_id _ a p) by exact Ep. apply ext_cached; reflexivity.
  - rewrite delete_insert_id by exact Ep. apply ext_cached; reflexivity.
Qed.

Lemma CreateAccount_moves s a : wf (world s) -> rtc move s (CreateAccount s a).
Proof.
  intros Hw. unfold CreateAccount. destruct (getStateObject_spec (world s) a) as (w & -> & He & _ & _ & _).
  eapply rtc_l; [apply move_load, He|]. apply rtc_once.
  assert (wf w) as Hw' by (eapply wf_ext; eassumption).
  unfold createObject. cbn [world with_world record]. destruct (live (world s) a) as [p|]; cbn [world with_world].
  - apply (move_write (with_world s w)); [destruct (objects w !! a); exact I| |apply (wf_same w); try reflexivity; exact Hw'].
    apply undo_create with (q := with_balance (with_created (newObject a NewAccount) true) (Balance (o_data p))).
    unfold put_object, markDirty. cbn [objects set_objects set_objectsDirty]. rewrite insert_insert_eq.
    apply ext_cached; reflexivity.
  - apply (move_write (with_world s w)); [destruct (objects w !! a); exact I| |apply (wf_same w); try reflexivity; exact Hw'].
    eapply undo_create. apply ext_dirty.
Qed.

Lemma SetNonce_moves s a n : wf (world s) -> rtc move s (SetNonce s a n).
Proof.
  intros Hw. unfold SetNonce. destruct (getOrNew_moves s a Hw) as [Hm Ho].
  destruct (getOrNewStateObject s a) as [s1 o]. cbn [fst snd] in *. eapply rtc_r; [exact Hm|].
  apply (move_object s1 a o (with_nonce o n) _ (fun q => with_nonce q (Nonce (o_data o)))); auto.
  - eapply moves_wf; eassumption.
  - destruct o as [? []]. reflexivity.
  - apply ext_dirty.
Qed.

Lemma SetCode_moves s a c : wf (world s) -> rtc move s (SetCode s a c).
Proof.
  intros Hw. unfold SetCode. destruct (getOrNew_moves s a Hw) as [Hm Ho].
  destruct (getOrNewStateObject s a) as [s1 o]. cbn [fst snd] in *.
  destruct (codeOf_spec _ _ _ Ho) as (w & pc & o' & -> & He & Ho' & Hx & Hpc & _).
  eapply rtc_r; [eapply rtc_r; [exact Hm | apply move_load, He]|].
  unfold current. rewrite Ho'. cbn [from_option id].
  eapply (move_object (with_world s1 w) a o' (with_codehash (with_code o' (Some c) true) (Keccak256 [c])) _
    (fun q => with_codehash (with_code q pc (o_codeDirty q)) (CodeHash (o_data o')))); auto; cbn [world with_world].
  - eapply wf_ext; [exact He|]. eapply moves_wf; eassumption.
  - rewrite Hpc. destruct o' as [? []]. constructor; auto.
  - etransitivity; [|apply ext_dirty]. apply ext_codeCache. right. reflexivity.
Qed.

Lemma live_not_deleted w a o : live w a = Some o -> o_deleted o = false.
Proof.
  unfold live, load. destruct (objects w !! a) as [q|].
  { destruct (o_deleted q) eqn:E; [discriminate | intros [= <-]; exact E]. }
  destruct (trie_get _ _ _); [|discriminate]. destruct (_ =? 0); [discriminate|].
  destruct (DecodeAccount _); [|discriminate]. intros [= <-]. reflexivity.
Qed.

Lemma getOrNew_live s a : live (world (fst (getOrNewStateObject s a))) a = Some (snd (getOrNewStateObject s a)).
Proof.
  unfold getOrNewStateObject. destruct (getStateObject_spec (world s) a) as (w & -> & He & Hl & Hs & Hn).
  destruct (live (world s) a) as [o|] eqn:El; [exact Hl|].
  unfold live, createObject. cbn. rewrite lookup_insert_eq. reflexivity.
Qed.

Lemma undo_write_storage st cc o key value :
  obj_ext st cc o
    (if negb (hasDirty o key) && HashIsZero (value_at st o key)
     then with_dirty (with_dirty o (<[key := value]> (o_dirty o))) (delete key (<[key := value]> (o_dirty o)))
     else with_dirty (with_dirty o (<[key := value]> (o_dirty o))) (<[key := value_at st o key]> (<[key := value]> (o_dirty o)))).
Proof.
  assert (forall d, (forall k, default (committed_at st o k) (d !! k) = value_at st o k) ->
    obj_ext st cc o (with_dirty (with_dirty o (<[key := value]> (o_dirty o))) d)) as Hd.
  { intros d Hd. constructor; auto. }
  unfold hasDirty. destruct (_ && _) eqn:E; apply Hd; intros k; (destruct (decide (key = k)) as [<-|Hne];
    [rewrite ?lookup_delete_eq, ?lookup_insert_eq | rewrite ?lookup_delete_ne, ?lookup_insert_ne by exact Hne]; [|reflexivity]).
  - unfold value_at. apply andb_prop in E. destruct E as [E _]. apply negb_true_iff, bool_decide_eq_false in E.
    destruct (o_dirty o !! key); [destruct E; eauto | reflexivity].
  - reflexivity.
Qed.

Lemma set_state_moves s a k v : wf (world s) -> rtc move s (set_state s a k v).
Proof.
  intros Hw. unfold set_state. destruct (getOrNew_moves s a Hw) as [Hm Ho]. pose proof (getOrNew_live s a) as Hl.
  destruct (getOrNewStateObject s a) as [s1 o]. cbn [fst snd] in *.
  destruct (get_state_spec (world s1) a k) as (w & -> & He & Hobj).
  assert (rtc move s (with_world s1 w)) as H1 by (eapply rtc_r; [exact Hm | apply move_load, He]).
  destruct (Hobj o Hl) as (o' & Ho' & Hx & Hd). unfold slot_value. rewrite Hl, <- (oe_value _ _ _ _ Hx).
  unfold current. rewrite Ho'. cbn [from_option id]. case_bool_decide; [exact H1|].
  eapply rtc_r; [exact H1|]. rewrite <- (ex_store _ _ He).
  eapply (move_object (with_world s1 w) a o' (with_dirty o' (<[k := v]> (o_dirty o'))) _ _); try reflexivity; cbn [world with_world].
  - exact (moves_wf _ _ H1 Hw).
  - exact Ho'.
  - auto.
  - apply undo_write_storage.
  - apply ext_dirty.
Qed.

Lemma SelfDestruct_moves s a : wf (world s) -> rtc move s (SelfDestruct s a).
Proof.
  intros Hw. unfold SelfDestruct. destruct (getStateObject_spec (world s) a) as (w & -> & He & _ & Hs & _).
  assert (rtc move s (with_world s w)) as H1 by (apply rtc_once, move_load, He).
  destruct (live (world s) a) as [o|]; [|exact H1]. eapply rtc_r; [exact H1|].
  eapply (move_object (with_world s w) a o (with_balance (with_selfdestructed o true) 0) _ _); try reflexivity; cbn [world with_world].
  - exact (moves_wf _ _ H1 Hw).
  - auto.
  - auto.
  - destruct o as [? []]. reflexivity.
  - apply ext_dirty.
Qed.

Lemma SetTransientState_moves s a k v : wf (world s) -> rtc move s (SetTransientState s a k v).
Proof.
  intros Hw. unfold SetTransientState. case_bool_decide; [constructor|]. apply rtc_once.
  set (w' := set_transient _ _).
  assert (is_Some (transient w' !! a)) as Hs by (unfold w'; cbn [transient set_transient]; rewrite lookup_insert_eq; eauto).
  assert (forall b j, GetTransientState (undo (transientStorageChange a k (GetTransientState (world s) a k)) w') b j =
    GetTransientState (world s) b j) as Hv.
  { intros b j. rewrite undo_transient_value by exact Hs. destruct (decide _) as [[-> ->]|Hn]; [reflexivity|].
    unfold w', GetTransientState. cbn [transient set_transient]. destruct (decide (a = b)) as [<-|Hne].
    - rewrite lookup_insert_eq. cbn [from_option id]. rewrite lookup_insert_ne by tauto. reflexivity.
    - rewrite lookup_insert_ne by exact Hne. reflexivity. }
  apply move_write; [exact Hs| |apply (wf_same (world s)); try reflexivity; exact Hw].
  cbn [undo] in *. destruct Hs as [m Hm]. rewrite Hm in *. destruct (world s).
  constructor; try reflexivity; cbn; auto.
  - intros b. destruct (objects0 !! b); constructor. reflexivity.
  - intros b Hb. destruct (decide (a = b)) as [<-|Hne]; [rewrite lookup_insert_eq; eauto|].
    rewrite !lookup_insert_ne by exact Hne. exact Hb.
Qed.

Lemma refund_moves s g w : wf (world s) -> ext (set_refund (world s) g) w -> rtc move s (record s (refundChange (refund (world s))) w).
Proof.
  intros Hw He. apply rtc_once, move_write; [exact I| |eapply wf_ext; [exact He|]; apply (wf_same (world s)); try reflexivity; exact Hw].
  etransitivity; [|apply undo_mono; [exact He | exact I]]. cbn [undo]. apply ext_cached; reflexivity.
Qed.

Lemma AddRefund_moves s g : wf (world s) -> rtc move s (AddRefund s g).
Proof. intros Hw. eapply refund_moves; [exact Hw | reflexivity]. Qed.

Lemma SubRefund_moves s g : wf (world s) -> rtc move s (SubRefund s g).
Proof.
  intros Hw. unfold SubRefund. destruct (refund (world s) <? g).
  - apply refund_moves with (g := 0); [exact Hw|]. unfold setError. destruct (err (world s)); [reflexivity|].
    apply ext_cached; reflexivity.
  - eapply refund_moves; [exact Hw | reflexivity].
Qed.

Lemma AddLog_moves s l : wf (world s) -> rtc move s (AddLog s l).
Proof.
  intros Hw. unfold AddLog. apply rtc_once. set (lg := mkLog _ _ _ _ _ _ _ _). set (w' := set_logs _ _ _).
  assert (GetLogs w' (thash (world s)) = GetLogs (world s) (thash (world s)) ++ [lg]) as Hl.
  { unfold w', GetLogs at 1. cbn [logs set_logs]. rewrite lookup_insert_eq. reflexivity. }
  assert (GetLogs w' (thash (world s)) <> []) as Hne by (rewrite Hl; intros E; apply app_eq_nil in E; destruct E; discriminate).
  assert (u64_ok (logSize w') /\ logSize w' -w 1 = logSize (world s)) as [Hu He].
  { unfold w'. cbn [logSize set_logs]. destruct Hw as [_ Hu]. split; [apply wrap64_ok|].
    unfold wrap64. rewrite Zminus_mod_idemp_l. replace (logSize (world s) + 1 - 1) with (logSize (world s)) by lia.
    apply (wrap64_small _ Hu). }
  apply move_write; [exact Hne| |].
  - pose proof (fun h => undo_log_value w' (thash (world s)) h Hne) as Hv. cbn [undo] in *. setoid_rewrite He in Hv. rewrite He.
    constructor; try reflexivity; try exact (known_cached _ _); try exact (fun _ H => H); cbn [objects set_logs].
    + intros a. unfold w'. cbn [objects set_logs]. destruct (objects (world s) !! a); constructor. reflexivity.
    + intros h. rewrite Hv, Hl, removelast_last. destruct (decide _) as [->|Hn]; [reflexivity|].
      unfold w', GetLogs. cbn [logs set_logs]. rewrite lookup_insert_ne by exact Hn. reflexivity.
  - split; [apply Hw | exact Hu].
Qed.

Lemma AddAddress_moves s a : wf (world s) -> rtc move s (AddAddressToAccessList s a).
Proof.
  intros Hw. unfold AddAddressToAccessList, AddressInAccessList. case_bool_decide as Ha; [constructor|].
  apply rtc_once. apply move_write; [exact I| |].
  - cbn [undo accessedAddresses accessedSlots set_access].
    assert (forall k, slot_in (world s) a k = false) as Hno.
    { intros k. destruct (slot_in (world s) a k) eqn:E; [|reflexivity]. destruct (Ha (proj1 Hw _ _ E)). }
    constructor; try reflexivity; auto.
    + intros b. cbn [objects set_access]. destruct (objects (world s) !! b); constructor. reflexivity.
    + cbn [accessedAddresses set_access]. apply leibniz_equiv. intros x. rewrite elem_of_difference, elem_of_union, elem_of_singleton.
      destruct (decide (x = a)); [subst; tauto | tauto].
    + intros b k. unfold slot_in at 1. cbn [accessedSlots set_access]. destruct (decide (a = b)) as [<-|Hne].
      * rewrite lookup_delete_eq, Hno. apply bool_decide_eq_false_2, not_elem_of_empty.
      * rewrite lookup_delete_ne by exact Hne. reflexivity.
  - destruct Hw as [Hs Hl]. split; [|exact Hl]. intros b k Hb. cbn [accessedAddresses set_access].
    apply elem_of_union_l, (Hs b k Hb).
Qed.

Lemma AddSlot_moves s a k : wf (world s) -> rtc move s (AddSlotToAccessList s a k).
Proof.
  intros Hw. unfold AddSlotToAccessList. pose proof (AddAddress_moves s a Hw) as Hm.
  assert (a ∈ accessedAddresses (world (AddAddressToAccessList s a))) as Hin.
  { unfold AddAddressToAccessList, AddressInAccessList. case_bool_decide; [assumption|].
    cbn [world record with_world accessedAddresses set_access]. apply elem_of_union_r, elem_of_singleton_2. reflexivity. }
  pose proof (moves_wf _ _ Hm Hw) as Hw1. set (s1 := AddAddressToAccessList s a) in *.
  destruct (slot_in (world s1) a k) eqn:Es; [exact Hm|]. eapply rtc_r; [exact Hm|].
  set (w' := set_access _ _ _).
  assert (forall b j, slot_in w' b j = slot_in (world s1) b j || bool_decide (a = b /\ k = j)) as Hv.
  { intros b j. unfold w', slot_in. cbn [accessedSlots set_access]. destruct (decide (a = b)) as [<-|Hne].
    - rewrite lookup_insert_eq. cbn [from_option id]. apply eq_true_iff_eq.
      rewrite orb_true_iff, !bool_decide_eq_true, elem_of_union, elem_of_singleton. intuition congruence.
    - rewrite lookup_insert_ne by exact Hne. rewrite (bool_decide_eq_false_2 (a = b /\ k = j)) by tauto.
      symmetry. apply orb_false_r. }
  apply move_write; [exact I| |].
  - pose proof (undo_slot_in w' a k) as Hu.
    destruct (undo_slot_access w' a k) as [m Em]. rewrite Em in *. constructor; try reflexivity; auto.
    + intros b. cbn [objects set_access]. unfold w'. cbn [objects set_access]. destruct (objects (world s1) !! b); constructor. reflexivity.
    + intros b j. rewrite Hu, Hv. case_bool_decide as Hb; [|rewrite orb_false_r, andb_true_r; reflexivity].
      destruct Hb as [<- <-]. rewrite Es. reflexivity.
  - destruct Hw1 as [Hs Hl]. split; [|exact Hl]. intros b j. rewrite Hv, orb_true_iff, bool_decide_eq_true.
    intros [Hb | [<- _]]; [apply (Hs b j Hb) | exact Hin].
Qed.

Inductive op :=
| ReadAccount (a : Address)
| ReadCode (a : Address)
| ReadState (a : Address) (k : Hash)
| ReadCommitted (a : Address) (k : Hash)
| DoCreateAccount (a : Address)
| DoAddBalance (a : Address) (x : Z)
| DoSubBalance (a : Address) (x : Z)
| DoSetBalance (a : Address) (x : Z)
| DoSetNonce (a : Address) (n : Z)
| DoSetCode (a : Address) (c : bytes)
| DoSetState (a : Address) (k v : Hash)
| DoSetTransient (a : Address) (k v : Hash)
| DoSelfDestruct (a : Address)
| DoAddRefund (g : Z)
| DoSubRefund (g : Z)
| DoAddLog (l : Log)
| DoAddAddress (a : Address)
| DoAddSlot (a : Address) (k : Hash)
| DoSnapshot
| DoRevert (id : Z).

(** The operations a transaction performs between two [Finalise]. *)
Definition exec (s : StateDB) (o : op) : option StateDB :=
  match o with
  | ReadAccount a => Some (with_world s (fst (getStateObject (world s) a)))
  | ReadCode a => Some (with_world s (fst (GetCode (world s) a)))
  | ReadState a k => Some (with_world s (fst (get_state (world s) a k)))
  | ReadCommitted a k => Some (with_world s (fst (GetCommittedState (world s) a k)))
  | DoCreateAccount a => Some (CreateAccount s a)
  | DoAddBalance a x => Some (add_balance s a x)
  | DoSubBalance a x => Some (sub_balance s a x)
  | DoSetBalance a x => Some (SetBalance s a x)
  | DoSetNonce a n => Some (SetNonce s a n)
  | DoSetCode a c => Some (SetCode s a c)
  | DoSetState a k v => Some (set_state s a k v)
  | DoSetTransient a k v => Some (SetTransientState s a k v)
  | DoSelfDestruct a => Some (SelfDestruct s a)
  | DoAddRefund g => Some (AddRefund s g)
  | DoSubRefund g => Some (SubRefund s g)
  | DoAddLog l => Some (AddLog s l)
  | DoAddAddress a => Some (AddAddressToAccessList s a)
  | DoAddSlot a k => Some (AddSlotToAccessList s a k)
  | DoSnapshot => Some (fst (Snapshot s))
  | DoRevert id => RevertToSnapshot s id
  end.

Lemma read_moves s w : ext (world s) w -> rtc move s (with_world s w).
Proof. intros H. apply rtc_once, move_load, H. Qed.

Lemma getStateObject_ext w a : ext w (fst (getStateObject w a)).
Proof. destruct (getStateObject_spec w a) as (w' & -> & He & _). exact He. Qed.

Lemma get_state_ext w a k : ext w (fst (get_state w a k)).
Proof. destruct (get_state_spec w a k) as (w' & -> & He & _). exact He. Qed.

Lemma GetCommittedState_ext w a k : ext w (fst (GetCommittedState w a k)).
Proof.
  unfold GetCommittedState. destruct (getStateObject_spec w a) as (w' & -> & He & _ & Hs & _).
  destruct (live w a) as [o|]; [|exact He]. destruct (committedState_spec w' a o k (Hs o eq_refl)) as (w2 & o' & -> & He2 & _).
  etransitivity; eassumption.
Qed.

Lemma GetCode_ext w a : ext w (fst (GetCode w a)).
Proof.
  unfold GetCode. destruct (getStateObject_spec w a) as (w' & -> & He & _ & Hs & _).
  destruct (live w a) as [o|]; [|exact He]. destruct (codeOf_spec w' a o (Hs o eq_refl)) as (w2 & c & o' & -> & He2 & _).
  etransitivity; eassumption.
Qed.

Lemma exec_cases s o s' : wf (world s) -> exec s o = Some s' ->
  rtc move s s' \/ s' = fst (Snapshot s) \/ exists id, o = DoRevert id /\ RevertToSnapshot s id = Some s'.
Proof.
  intros Hw. destruct o; cbn [exec]; try (intros [= <-]; left; solve [
    auto using read_moves, getStateObject_ext, GetCode_ext, get_state_ext, GetCommittedState_ext, CreateAccount_moves,
      add_balance_moves, sub_balance_moves, SetBalance_moves, SetNonce_moves, SetCode_moves, set_state_moves,
      SetTransientState_moves, SelfDestruct_moves, AddRefund_moves, SubRefund_moves, AddLog_moves, AddAddress_moves, AddSlot_moves]).
  - intros [= <-]. auto.
  - eauto.
Qed.

Lemma exec_inv s o s' : exec s o = Some s' -> inv s -> inv s'.
Proof.
  intros He Hi. destruct (exec_cases _ _ _ (inv_wf _ Hi) He) as [H | [-> | (id & -> & H)]];
    eauto using moves_inv, snapshot_inv, revert_inv.
Qed.

Lemma exec_kept S id s o s' : exec s o = Some s' -> inv s -> kept S id s -> kept S id s'.
Proof.
  intros He Hi. destruct (exec_cases _ _ _ (inv_wf _ Hi) He) as [H | [-> | (j & -> & H)]];
    eauto using moves_kept, snapshot_kept, revert_kept.
Qed.

Lemma execs_kept S id ops : forall s s', foldM exec s ops = Some s' -> inv s -> kept S id s -> inv s' /\ kept S id s'.
Proof.
  induction ops as [|o ops IH]; intros s s'; cbn [foldM].
  - intros [= <-]. auto.
  - destruct (exec s o) as [s1|] eqn:E; [|discriminate]. intros H Hi Hk. apply (IH s1); eauto using exec_inv, exec_kept.
Qed.

Lemma execs_inv ops : forall s s', foldM exec s ops = Some s' -> inv s -> inv s'.
Proof.
  induction ops as [|o ops IH]; intros s s'; cbn [foldM].
  - intros [= <-]. auto.
  - destruct (exec s o) as [s1|] eqn:E; [|discriminate]. intros H Hi. apply (IH s1); eauto using exec_inv.
Qed.

(** Code that is not loaded is looked up by its hash, in a cache that undoing does
    not empty.  [c] is read at [a] now and was not to be found in [w]: it has the
    account's code hash, under which something else or nothing was held. *)
Definition recoded (w : World) (a : Address) (c : bytes) : Prop :=
  exists o, live w a = Some o /\ o_code o = None /\ code_hash o <> EmptyCodeHash /\ Keccak256 [c] = code_hash o /\
    held (store w) (codeCache w) (code_hash o) <> Some c.

(** Everything the state lets a caller read of it. *)
Definition same_reads (w w' : World) : Prop :=
  (forall a, snd (Exist w' a) = snd (Exist w a) /\ snd (Empty w' a) = snd (Empty w a) /\
     snd (get_balance w' a) = snd (get_balance w a) /\ snd (GetNonce w' a) = snd (GetNonce w a) /\
     snd (GetCodeHash w' a) = snd (GetCodeHash w a) /\ snd (HasSelfDestructed w' a) = snd (HasSelfDestructed w a)) /\
  (forall a k, snd (get_state w' a k) = snd (get_state w a k) /\
     snd (GetCommittedState w' a k) = snd (GetCommittedState w a k) /\
     GetTransientState w' a k = GetTransientState w a k /\ SlotInAccessList w' a k = SlotInAccessList w a k) /\
  (forall h, GetLogs w' h = GetLogs w h) /\ logSize w' = logSize w /\ refund w' = refund w /\
  (forall a, (snd (GetCode w' a) = snd (GetCode w a) /\ snd (GetCodeSize w' a) = snd (GetCodeSize w a)) \/ recoded w a (snd (GetCode w' a))).

Lemma getStateObject_cache w a : codeCache (fst (getStateObject w a)) = codeCache w.
Proof.
  unfold getStateObject, setError. destruct (objects w !! a); [reflexivity|]. destruct (trie_get _ _ _); [|destruct (err w); reflexivity].
  destruct (_ =? 0); [reflexivity|]. destruct (DecodeAccount _); [reflexivity | destruct (err w); reflexivity].
Qed.

Lemma GetCode_value w a :
  snd (GetCode w a) = match live w a with Some o => code_at (store w) (codeCache w) o | None => [] end.
Proof.
  unfold GetCode. pose proof (getStateObject_cache w a) as Hc. destruct (getStateObject_spec w a) as (w' & E & He & _ & Hs & _). rewrite E in *. cbn [fst] in Hc.
  destruct (live w a) as [o|]; [|reflexivity]. destruct (codeOf_spec w' a o (Hs o eq_refl)) as (w2 & c & o' & -> & _ & _ & _ & _ & H).
  cbn [snd]. rewrite H, Hc, (ex_store _ _ He). reflexivity.
Qed.

Lemma GetCodeSize_value w a : snd (GetCodeSize w a) = len (snd (GetCode w a)).
Proof. unfold GetCodeSize. destruct (GetCode w a). reflexivity. Qed.

Lemma held_ext w w' h : ext w w' -> held (store w') (codeCache w') h = held (store w) (codeCache w) h \/
  exists c, held (store w') (codeCache w') h = Some c /\ known (store w) (codeCache w) h c.
Proof.
  intros H. destruct (codeCache w' !! h) as [c|] eqn:E.
  - right. exists c. split; [unfold held; rewrite E; reflexivity | exact (ex_cache _ _ H h c E)].
  - left. unfold held. rewrite E, (ex_store _ _ H). destruct (codeCache w !! h) eqn:E'; [|reflexivity].
    destruct (ex_cached _ _ H h); [eauto | congruence].
Qed.

Lemma ext_code w w' a : ext w w' -> snd (GetCode w' a) = snd (GetCode w a) \/ recoded w a (snd (GetCode w' a)).
Proof.
  intros H. rewrite !GetCode_value. unfold recoded. pose proof (live_ext w w' a H) as Hl.
  destruct (live w a) as [o|], (live w' a) as [o'|]; try contradiction; [|auto]. unfold code_at.
  assert (o_code o = None -> code_hash o <> EmptyCodeHash -> forall c, known (store w) (codeCache w) (code_hash o) c ->
    c = default [] (held (store w) (codeCache w) (code_hash o)) \/ exists q, Some o = Some q /\ o_code q = None /\ code_hash q <> EmptyCodeHash /\
      Keccak256 [c] = code_hash q /\ held (store w) (codeCache w) (code_hash q) <> Some c) as Hk.
  { intros Ho Hne c [->|Hc]; [auto|]. destruct (decide (held (store w) (codeCache w) (code_hash o) = Some c)) as [->|]; [auto | right; exists o; auto]. }
  assert (code_hash o' = code_hash o) as Eh by (unfold code_hash; rewrite (oe_data _ _ _ _ Hl); reflexivity). rewrite Eh.
  destruct (oe_code _ _ _ _ Hl) as [->|(Ho & Hne & c & -> & Hc)].
  - destruct (o_code o) as [c|] eqn:Ho; [auto|]. case_bool_decide as Hne; [auto|].
    destruct (held_ext w w' (code_hash o) H) as [->|(c & -> & Hc)]; [auto | apply Hk; auto].
  - rewrite Ho, (bool_decide_eq_false_2 _ Hne). apply Hk; auto.
Qed.

Lemma GetCommittedState_value w a k :
  snd (GetCommittedState w a k) = match live w a with Some o => committed_at (store w) o k | None => ZeroHash end.
Proof.
  unfold GetCommittedState. destruct (getStateObject_spec w a) as (w' & -> & He & _ & Hs & _).
  destruct (live w a) as [o|]; [|reflexivity]. destruct (committedState_spec w' a o k (Hs o eq_refl)) as (w2 & o' & -> & _).
  cbn [snd]. rewrite (ex_store _ _ He). reflexivity.
Qed.

Lemma get_state_value w a k : snd (get_state w a k) = slot_value w a k.
Proof. destruct (get_state_spec w a k) as (w' & -> & _). reflexivity. Qed.

Lemma ext_same_reads w w' : ext w w' -> same_reads w w'.
Proof.
  intros H. split; [|split; [|split_and!; try apply H]].
  - intros a. unfold Exist, Empty, get_balance, GetNonce, GetCodeHash, HasSelfDestructed. pose proof (live_ext w w' a H) as Hl.
    destruct (getStateObject_spec w a) as (w1 & -> & _), (getStateObject_spec w' a) as (w2 & -> & _). cbn [snd].
    destruct (live w a) as [o|], (live w' a) as [o'|]; try contradiction; [|auto 10].
    destruct Hl. split_and!; congruence.
  - intros a k. rewrite !GetCommittedState_value, !get_state_value. unfold slot_value. pose proof (live_ext w w' a H) as Hl.
    unfold SlotInAccessList, AddressInAccessList. rewrite (ex_slots _ _ H), (ex_addresses _ _ H), (ex_transient _ _ H), (ex_store _ _ H).
    destruct (live w a) as [o|], (live w' a) as [o'|]; try contradiction; [|auto].
    destruct Hl. auto.
  - intros a. rewrite !GetCodeSize_value. destruct (ext_code w w' a H) as [->|]; auto.
Qed.

Lemma search_found l id n : forall i,
  (forall i j r q, (i < j)%nat -> l !! i = Some r -> l !! j = Some q -> fst r < fst q /\ (snd r <= snd q)%nat) ->
  l !! i = Some (id, n) -> search l id = i.
Proof.
  induction l as [|r l IH]; intros i Ho Hi; [discriminate|]. cbn [search]. destruct i as [|i].
  - injection Hi as ->. cbn [fst]. rewrite Z.leb_refl. reflexivity.
  - destruct (Ho 0%nat (S i) r _ ltac:(lia) eq_refl Hi) as [Hlt _]. cbn [fst] in Hlt.
    destruct (Z.leb_spec id (fst r)); [lia|]. f_equal. apply IH; [|exact Hi].
    intros j k p q Hjk Hp Hq. apply (Ho (S j) (S k) p q); [lia | exact Hp | exact Hq].
Qed.

(** [o] does not revert past revision [id]. *)
Definition keeps (id : Z) (o : op) : Prop := match o with DoRevert j => id < j | _ => True end.

Lemma exec_listed s o s' i r : exec s o = Some s' -> inv s -> keeps (fst r) o ->
  revisions s !! i = Some r -> revisions s' !! i = Some r.
Proof.
  intros He Hi Hk Hr. destruct (exec_cases _ _ _ (inv_wf _ Hi) He) as [H | [-> | (j & -> & H)]].
  - destruct (moves_revisions _ _ H) as [-> _]. exact Hr.
  - cbn [Snapshot fst revisions]. apply lookup_app_l_Some, Hr.
  - destruct (revert_fields _ _ _ H) as (p & n & Hp & _ & _ & -> & _). cbn [keeps] in Hk.
    apply lookup_take_Some. split; [exact Hr|]. destruct (Nat.lt_trichotomy i p) as [|[-> | Hpi]]; [assumption| |].
    + rewrite Hp in Hr. injection Hr as <-. cbn [fst] in Hk. lia.
    + destruct (inv_order _ Hi p i _ _ Hpi Hp Hr) as [Hlt _]. cbn [fst] in Hlt. lia.
Qed.

Lemma execs_listed i r ops : forall s s', foldM exec s ops = Some s' -> inv s -> Forall (keeps (fst r)) ops ->
  revisions s !! i = Some r -> revisions s' !! i = Some r.
Proof.
  induction ops as [|o ops IH]; intros s s'; cbn [foldM].
  - intros [= <-]. auto.
  - destruct (exec s o) as [s1|] eqn:E; [|discriminate]. intros H Hi Hf Hr. apply Forall_cons_1 in Hf. destruct Hf.
    apply (IH s1); eauto using exec_inv, exec_listed.
Qed.

Lemma inv_start s : entries s = [] -> revisions s = [] -> wf (world s) -> inv s.
Proof.
  intros He Hr Hw. constructor; [exact Hw | rewrite He; exact I | |]; rewrite Hr.
  - intros i j r q _ H. rewrite lookup_nil in H. discriminate.
  - intros i r H. rewrite lookup_nil in H. discriminate.
Qed.

(** C5: [RevertToSnapshot] undoes everything since its snapshot.  From a state
    with an empty journal, take any operations, a snapshot, and any further
    operations, nested snapshots and reverts included: reverting to the
    snapshot makes every read (existence, emptiness, balance, nonce, code and its
    hash and size, storage, committed and transient storage, access list, logs,
    refund) return what it returned when the snapshot was taken, and restores the
    journal and the revisions.  The one exception is code that had not been loaded
    and was missing or wrong where it is kept: code with that very hash, set
    since then, is found in its place.  The revert does not panic unless an older snapshot was
    reverted to in between. *)
Theorem snapshot_revert s0 before s after s2 :
  entries s0 = [] -> revisions s0 = [] -> wf (world s0) ->
  foldM exec s0 before = Some s -> foldM exec (fst (Snapshot s)) after = Some s2 ->
  (forall s3, RevertToSnapshot s2 (snd (Snapshot s)) = Some s3 ->
     same_reads (world s) (world s3) /\ entries s3 = entries s /\ revisions s3 = revisions s) /\
  (Forall (keeps (snd (Snapshot s))) after -> exists s3, RevertToSnapshot s2 (snd (Snapshot s)) = Some s3).
Proof.
  intros He Hr Hw H1 H2. pose proof (execs_inv _ _ _ H1 (inv_start s0 He Hr Hw)) as Hi.
  destruct (execs_kept s (nextRevID s) _ _ _ H2 (snapshot_inv s Hi) (snapshot_starts s Hi)) as [Hi2 Hk].
  split.
  - intros s3 H3. destruct (revert_fields _ _ _ H3) as (i & n & Hl & Ew & Ee & Er & _).
    destruct (kept_at _ _ _ Hk i n Hl) as (E1 & E2 & E3). rewrite Ew, Ee, Er. auto using ext_same_reads.
  - intros Hf. assert (revisions s2 !! length (revisions s) = Some (nextRevID s, length (entries s))) as Hl.
    { eapply execs_listed; [exact H2 | apply snapshot_inv, Hi | exact Hf|]. cbn [Snapshot fst revisions].
      rewrite lookup_app_r, Nat.sub_diag by lia. reflexivity. }
    unfold RevertToSnapshot. cbn [Snapshot snd]. rewrite (search_found _ _ _ _ (inv_order _ Hi2) Hl), Hl, Z.eqb_refl. eauto.
Qed.

(** * The state as storage cells and balances *)

Definition balance_at (w : World) (a : Address) : Z := match live w a with Some o => Balance (o_data o) | None => 0 end.

Definition same_cells (w w' : World) : Prop :=
  (forall a k, slot_value w' a k = slot_value w a k) /\ (forall a, balance_at w' a = balance_at w a).

#[local] Instance same_cells_preorder : PreOrder same_cells.
Proof. split; [split; auto | intros w1 w2 w3 [H1 H2] [H3 H4]; split; congruence]. Qed.

Lemma ext_same_cells w w' : ext w w' -> same_cells w w'.
Proof.
  intros H. split; intros a; [intros k|]; unfold slot_value, balance_at; pose proof (live_ext w w' a H) as Hl;
    destruct (live w a), (live w' a); try contradiction; auto; destruct Hl; rewrite ?(ex_store _ _ H); auto; congruence.
Qed.

(** An object put in place of the one an address had. *)
Lemma live_put w w' a o b :
  store w' = store w -> trie w' = trie w -> objects w' = <[a := o]> (objects w) -> o_deleted o = false ->
  live w' b = if decide (a = b) then Some o else live w b.
Proof.
  intros Hs Ht Ho Hd. unfold live. rewrite Ho, (load_same w w') by assumption. destruct (decide (a = b)) as [<-|Hne].
  - rewrite lookup_insert_eq, Hd. reflexivity.
  - rewrite lookup_insert_ne by exact Hne. reflexivity.
Qed.

Lemma getOrNew_cells s a : same_cells (world s) (world (fst (getOrNewStateObject s a))).
Proof.
  unfold getOrNewStateObject. destruct (getStateObject_spec (world s) a) as (w & -> & He & Hl & Hs & Hn).
  destruct (live (world s) a) as [o|] eqn:El; [apply ext_same_cells, He|].
  etransitivity; [apply ext_same_cells, He|]. unfold createObject. cbn [fst world record with_world].
  set (w' := markDirty _ _).
  assert (forall b, live w' b = if decide (a = b) then Some (with_created (newObject a NewAccount) true) else live w b) as Hlive.
  { intros b. apply live_put; reflexivity. }
  split; intros b; [intros k|]; unfold slot_value, balance_at; rewrite Hlive; (destruct (decide (a = b)) as [<-|]; [|reflexivity]); rewrite Hl;
    reflexivity.
Qed.

Lemma setBalance_cells s a o x :
  objects (world s) !! a = Some o -> o_deleted o = false ->
  (forall b k, slot_value (world (setBalance s a o x)) b k = slot_value (world s) b k) /\
  (forall b, balance_at (world (setBalance s a o x)) b = if decide (a = b) then x else balance_at (world s) b).
Proof.
  intros Ho Hd. set (w' := world (setBalance s a o x)).
  assert (forall b, live w' b = if decide (a = b) then Some (with_balance o x) else live (world s) b) as Hlive.
  { intros b. apply live_put; auto. }
  assert (live (world s) a = Some o) as Hl by (unfold live; rewrite Ho, Hd; reflexivity).
  split; intros b; [intros k|]; unfold slot_value, balance_at; rewrite Hlive; (destruct (decide (a = b)) as [<-|]; [|reflexivity]).
  - rewrite Hl. reflexivity.
  - reflexivity.
Qed.

Lemma credit_cells s a (f : Z -> Z) :
  let (s1, o) := getOrNewStateObject s a in
  (forall b k, slot_value (world (setBalance s1 a o (f (Balance (o_data o))))) b k = slot_value (world s) b k) /\
  (forall b, balance_at (world (setBalance s1 a o (f (Balance (o_data o))))) b =
     if decide (a = b) then f (balance_at (world s) b) else balance_at (world s) b).
Proof.
  pose proof (getOrNew_cells s a) as [Hc Hb]. pose proof (getOrNew_live s a) as Hl.
  assert (objects (world (fst (getOrNewStateObject s a))) !! a = Some (snd (getOrNewStateObject s a))) as Ho.
  { unfold getOrNewStateObject. destruct (getStateObject_spec (world s) a) as (w & -> & _ & _ & Hs & _).
    destruct (live (world s) a); [apply Hs, eq_refl | apply lookup_insert_eq]. }
  destruct (getOrNewStateObject s a) as [s1 o]. cbn [fst snd] in *.
  destruct (setBalance_cells s1 a o (f (Balance (o_data o))) Ho (live_not_deleted _ _ _ Hl)) as [E1 E2].
  split; intros b; [intros k; rewrite E1; apply Hc|]. rewrite E2. destruct (decide (a = b)) as [<-|]; [|apply Hb].
  rewrite <- Hb. unfold balance_at. rewrite Hl. reflexivity.
Qed.

Lemma add_balance_cells s a x :
  (forall b k, slot_value (world (add_balance s a x)) b k = slot_value (world s) b k) /\
  (forall b, balance_at (world (add_balance s a x)) b = balance_at (world s) b + if decide (a = b) then x else 0).
Proof.
  unfold add_balance. destruct (Z.eqb_spec x 0) as [->|_].
  - assert (forall w', same_cells (world s) w' -> (forall b k, slot_value w' b k = slot_value (world s) b k) /\
      (forall b, balance_at w' b = balance_at (world s) b + if decide (a = b) then 0 else 0)) as Hsame.
    { intros w' [H1 H2]. split; [exact H1|]. intros b. rewrite H2. destruct (decide _); lia. }
    unfold Exist. destruct (getStateObject_spec (world s) a) as (w & -> & He & _).
    destruct (live (world s) a); apply Hsame; [|apply ext_same_cells, He].
    etransitivity; [apply ext_same_cells, He | apply getOrNew_cells].
  - pose proof (credit_cells s a (fun b => b + x)) as H. destruct (getOrNewStateObject s a) as [s1 o].
    destruct H as [H1 H2]. split; [exact H1|]. intros b. rewrite H2. destruct (decide _); lia.
Qed.

Lemma sub_balance_cells s a x :
  (forall b k, slot_value (world (sub_balance s a x)) b k = slot_value (world s) b k) /\
  (forall b, balance_at (world (sub_balance s a x)) b = balance_at (world s) b - if decide (a = b) then x else 0).
Proof.
  unfold sub_balance. destruct (Z.eqb_spec x 0) as [->|_].
  - split; [reflexivity|]. intros b. destruct (decide _); lia.
  - pose proof (credit_cells s a (fun b => b - x)) as H. destruct (getOrNewStateObject s a) as [s1 o].
    destruct H as [H1 H2]. split; [exact H1|]. intros b. rewrite H2. destruct (decide _); lia.
Qed.

Lemma set_state_cells s a k v :
  (forall b j, slot_value (world (set_state s a k v)) b j = if decide ((a, k) = (b, j)) then v else slot_value (world s) b j) /\
  (forall b, balance_at (world (set_state s a k v)) b = balance_at (world s) b).
Proof.
  unfold set_state. pose proof (getOrNew_cells s a) as Hc1. pose proof (getOrNew_live s a) as Hl.
  destruct (getOrNewStateObject s a) as [s1 o]. cbn [fst snd] in *.
  destruct (get_state_spec (world s1) a k) as (w & -> & He & Hobj).
  destruct (Hobj o Hl) as (o' & Ho' & Hx & Hd). unfold current. rewrite Ho'. cbn [from_option id].
  assert (same_cells (world s) w) as [Hc Hb] by (etransitivity; [exact Hc1 | apply ext_same_cells, He]).
  assert (live w a = Some o') as Hlw.
  { unfold live. rewrite Ho', (oe_deleted _ _ _ _ Hx), (live_not_deleted _ _ _ Hl). reflexivity. }
  case_bool_decide as Hv.
  - split; [|exact Hb]. intros b j. cbn [world with_world]. rewrite Hc. destruct (decide _) as [[= <- <-]|]; [|reflexivity].
    rewrite <- Hv. symmetry. apply Hc1.
  - cbn [world record with_world]. set (w' := markDirty _ _).
    assert (forall b, live w' b = if decide (a = b) then Some (with_dirty o' (<[k := v]> (o_dirty o'))) else live w b) as Hlive.
    { intros b. apply live_put; try reflexivity. exact (live_not_deleted _ _ _ Hlw). }
    split; intros b; [intros j; rewrite <- Hc | rewrite <- Hb]; unfold slot_value, balance_at; rewrite Hlive;
      (destruct (decide (a = b)) as [<-|Hne]; [rewrite Hlw | rewrite ?decide_False by congruence; reflexivity]); [|reflexivity].
    unfold value_at. cbn [o_dirty with_dirty]. destruct (decide ((a, k) = (a, j))) as [[= <-]|Hj].
    + rewrite lookup_insert_eq. reflexivity.
    + rewrite lookup_insert_ne by congruence. reflexivity.
Qed.

Definition cells_ok (w : World) : Prop := forall a k, hash_ok (slot_value w a k).

(** A [StateDB] is a state for the staking contract.  What a read caches is
    never observed. *)
#[local] Instance statedb_access : StateAccess :=
  {| State := StateDB;
     GetState s a k := snd (get_state (world s) a k); SetState := set_state;
     GetBalance s a := snd (get_balance (world s) a); AddBalance := add_balance; SubBalance := sub_balance |}.

Lemma get_balance_value w a : snd (get_balance w a) = balance_at w a.
Proof. unfold get_balance. destruct (getStateObject_spec w a) as (w' & -> & _). reflexivity. Qed.

#[local] Instance statedb_laws : StateLaws statedb_access.
Proof.
  refine {| state_ok := fun s : @State statedb_access => cells_ok (world s) |};
    cbn [State GetState SetState GetBalance AddBalance SubBalance statedb_access]; intros;
    rewrite ?get_state_value, ?get_balance_value.
  - auto.
  - intros b j. rewrite (proj1 (set_state_cells _ _ _ _)). destruct (decide _); auto.
  - intros b j. rewrite (proj1 (add_balance_cells _ _ _)). auto.
  - intros b j. rewrite (proj1 (sub_balance_cells _ _ _)). auto.
  - rewrite (proj1 (set_state_cells _ _ _ _)). apply decide_True, eq_refl.
  - rewrite (proj1 (set_state_cells _ _ _ _)). apply decide_False. assumption.
  - apply add_balance_cells.
  - apply sub_balance_cells.
  - apply set_state_cells.
  - apply add_balance_cells.
  - apply sub_balance_cells.
Qed.

Lemma SelfDestruct_cells s a :
  (forall b k, slot_value (world (SelfDestruct s a)) b k = slot_value (world s) b k) /\
  (forall b, balance_at (world (SelfDestruct s a)) b = if decide (a = b) then 0 else balance_at (world s) b).
Proof.
  unfold SelfDestruct. destruct (getStateObject_spec (world s) a) as (w & -> & He & Hl & _ & _).
  pose proof (ext_same_cells _ _ He) as [Hc Hb].
  destruct (live (world s) a) as [o|] eqn:El; cbn [world record with_world].
  - set (w' := markDirty _ _).
    assert (forall b, live w' b = if decide (a = b) then Some (with_balance (with_selfdestructed o true) 0) else live w b) as Hlive.
    { intros b. apply live_put; try reflexivity. exact (live_not_deleted _ _ _ El). }
    split; intros b; [intros k; rewrite <- Hc | rewrite <- Hb]; unfold slot_value, balance_at; rewrite Hlive;
      (destruct (decide (a = b)) as [<-|]; [|reflexivity]); rewrite ?Hl; reflexivity.
  - split; [exact Hc|]. intros b. rewrite Hb. destruct (decide (a = b)) as [<-|]; [|reflexivity].
    unfold balance_at. rewrite El. reflexivity.
Qed.

Lemma CreateAccount_cells s a :
  (forall b k, slot_value (world (CreateAccount s a)) b k = if decide (a = b) then ZeroHash else slot_value (world s) b k) /\
  (forall b, balance_at (world (CreateAccount s a)) b = balance_at (world s) b).
Proof.
  unfold CreateAccount. destruct (getStateObject_spec (world s) a) as (w & -> & He & Hl & _ & _).
  pose proof (ext_same_cells _ _ He) as [Hc Hb]. unfold createObject. cbn [world with_world record].
  set (bal := match live (world s) a with Some p => Balance (o_data p) | None => 0 end).
  assert (forall w', (forall b, live w' b = if decide (a = b) then Some (with_balance (with_created (newObject a NewAccount) true) bal) else live w b) ->
    store w' = store w ->
    (forall b k, slot_value w' b k = if decide (a = b) then ZeroHash else slot_value (world s) b k) /\
    (forall b, balance_at w' b = balance_at (world s) b)) as Hgo.
  { intros w' Hlive Hst. split; intros b; [intros k; rewrite <- Hc | rewrite <- Hb]; unfold slot_value, balance_at; rewrite Hlive, ?Hst;
      (destruct (decide (a = b)) as [<-|]; [|reflexivity]); [reflexivity|]. rewrite Hl. reflexivity. }
  subst bal. destruct (live (world s) a) as [p|]; cbn [world with_world]; apply Hgo; try reflexivity; intros b; apply live_put; try reflexivity.
  cbn. apply insert_insert_eq.
Qed.

(** The world state is a set of independent cells.  A storage write shows at
    its slot and nowhere else; credits and debits change one balance by exactly
    the amount; self-destruction empties one balance; creating a contract clears
    the storage of its address and keeps the balance; none of them disturbs the
    other cells, whether or not the account was loaded, existed or had been
    deleted before. *)
Theorem state_cells s a b k j v x :
  snd (get_state (world (set_state s a k v)) b j) = (if decide ((a, k) = (b, j)) then v else snd (get_state (world s) b j)) /\
  snd (get_balance (world (set_state s a k v)) b) = snd (get_balance (world s) b) /\
  snd (get_state (world (add_balance s a x)) b j) = snd (get_state (world s) b j) /\
  snd (get_balance (world (add_balance s a x)) b) = snd (get_balance (world s) b) + (if decide (a = b) then x else 0) /\
  snd (get_state (world (sub_balance s a x)) b j) = snd (get_state (world s) b j) /\
  snd (get_balance (world (sub_balance s a x)) b) = snd (get_balance (world s) b) - (if decide (a = b) then x else 0) /\
  snd (get_state (world (SelfDestruct s a)) b j) = snd (get_state (world s) b j) /\
  snd (get_balance (world (SelfDestruct s a)) b) = (if decide (a = b) then 0 else snd (get_balance (world s) b)) /\
  snd (get_state (world (CreateAccount s a)) b j) = (if decide (a = b) then ZeroHash else snd (get_state (world s) b j)) /\
  snd (get_balance (world (CreateAccount s a)) b) = snd (get_balance (world s) b).
Proof.
  rewrite !get_state_value, !get_balance_value.
  split_and!; first [apply set_state_cells | apply add_balance_cells | apply sub_balance_cells | apply SelfDestruct_cells | apply CreateAccount_cells].
Qed.

Definition survives (de : bool) (o : stateObject) : bool := negb (o_selfDestructed o || (de && IsEmpty (o_data o))).

Lemma finalise_objects de l : forall w a o,
  objects w !! a = Some o -> survives de o = true ->
  let w' := fold_left (finalise_object de) l w in objects w' !! a = Some o /\ store w' = store w /\ trie w' = trie w.
Proof.
  induction l as [|b l IH]; intros w a o Ho Hs; cbn [fold_left]; [auto|].
  assert (objects (finalise_object de w b) !! a = Some o /\ store (finalise_object de w b) = store w /\
    trie (finalise_object de w b) = trie w) as (E1 & E2 & E3).
  { unfold finalise_object. destruct (objects w !! b) as [q|] eqn:Eq; [|auto]. destruct (_ || _) eqn:Ed; [|auto].
    split; [|auto]. cbn [objects put_object set_objects]. rewrite lookup_insert_ne; [exact Ho|]. intros ->.
    rewrite Eq in Ho. injection Ho as ->. unfold survives in Hs. rewrite Ed in Hs. discriminate. }
  destruct (IH _ a o E1 Hs) as (F1 & F2 & F3). rewrite F2, F3. auto.
Qed.

Lemma Finalise_live s de a o :
  live (world s) a = Some o -> objects (world s) !! a = Some o -> survives de o = true ->
  live (world (Finalise s de)) a = Some o /\ store (world (Finalise s de)) = store (world s).
Proof.
  intros Hl Ho Hs. unfold Finalise. destruct (finalise_objects de (elements (objectsDirty (world s))) _ a o Ho Hs) as (E1 & E2 & E3).
  cbn [world]. set (w' := fold_left _ _ _) in *. split; [|exact E2]. unfold live. cbn [objects set_transient set_refund].
  rewrite E1, (live_not_deleted _ _ _ Hl). reflexivity.
Qed.

(** Within a block, the value [GetCommittedState] returns is not the one at the
    start of the transaction: after a transaction wrote a slot and was finalised,
    the next one reads the written value, and as the committed value the one
    from before the write. *)
Lemma stale_committed s a k v de o :
  live (world s) a = Some o -> survives de o = true ->
  snd (get_state (world (Finalise (set_state s a k v) de)) a k) = v /\
  snd (GetCommittedState (world (Finalise (set_state s a k v) de)) a k) = snd (GetCommittedState (world s) a k).
Proof.
  intros Hl Hs. rewrite !GetCommittedState_value, get_state_value, Hl. unfold slot_value.
  assert (exists o', live (world (set_state s a k v)) a = Some o' /\ objects (world (set_state s a k v)) !! a = Some o' /\
    o_data o' = o_data o /\ o_selfDestructed o' = o_selfDestructed o /\
    committed_at (store (world s)) o' k = committed_at (store (world s)) o k /\
    store (world (set_state s a k v)) = store (world s)) as (o' & H1 & H2 & H3 & H4 & H5 & H6).
  { unfold set_state, getOrNewStateObject. destruct (getStateObject_spec (world s) a) as (w & -> & He & Hlw & Hsome & _).
    rewrite Hl in *. cbn [world with_world]. destruct (get_state_spec w a k) as (w2 & -> & He2 & Hobj).
    destruct (Hobj o Hlw) as (o' & Ho' & Hx & Hd). unfold current. rewrite Ho'. cbn [from_option id].
    rewrite (ex_store _ _ He) in Hx. pose proof (live_not_deleted _ _ _ Hl) as Hdel. rewrite <- (oe_deleted _ _ _ _ Hx) in Hdel.
    assert (store w2 = store (world s)) as Hst by (rewrite (ex_store _ _ He2); apply He). destruct Hx.
    case_bool_decide; cbn [world record with_world].
    - exists o'. unfold live. rewrite Ho', Hdel. auto 10.
    - exists (with_dirty o' (<[k := v]> (o_dirty o'))). cbn [objects markDirty set_objectsDirty put_object set_objects].
      unfold live. cbn [objects markDirty set_objectsDirty put_object set_objects]. rewrite lookup_insert_eq.
      cbn [o_deleted with_dirty]. rewrite Hdel. split_and!; auto. apply (oe_committed0 k). }
  destruct (Finalise_live _ de a o' H1 H2) as [-> ->]; [unfold survives; rewrite H3, H4; exact Hs|].
  rewrite H6, H5. split; [|reflexivity].
  pose proof (proj1 (set_state_cells s a k v) a k) as Hv. unfold slot_value in Hv. rewrite H1, H6 in Hv. rewrite Hv.
  apply decide_True, eq_refl.
Qed.

End State.

(** ** Witnesses *)

#[local] Existing Instance Reg.toy_keccak.

(** A trie and a store that are plain maps, with nothing persisted. *)
#[local] Instance map_store : TrieStore :=
  {| Trie := gmap bytes bytes; Store := gmap bytes bytes;
     trie_new _ _ := Some ∅;
     trie_get _ t k := Some (default [] (t !! k));
     trie_update _ t k v := Some (<[k := v]> t);
     trie_delete _ t k := Some (delete k t);
     trie_commit _ t := Some (t, ZeroHash, []);
     store_get s k := s !! k;
     store_write s b := fold_left (fun s p => <[fst p := snd p]> s) b s |}.

Definition sample_addr : Address := BytesToAddress [7].
Definition sample_key : Hash := BytesToHash [1].
Definition sample_value : Hash := BytesToHash [9].

Definition sample_start : StateDB := mkState (new_world (∅ : gmap bytes bytes) (∅ : gmap bytes bytes)) [] ∅ [] 0.
Definition sample_before : list op := [DoAddBalance sample_addr 5; DoSetCode sample_addr [1; 2]; DoAddLog (mkLog sample_addr [] [] 0 [] [] 0 0)].
Definition sample_after : list op :=
  [DoSetState sample_addr sample_key sample_value; DoAddSlot sample_addr sample_key; DoSnapshot; DoSubBalance sample_addr 2;
   DoSelfDestruct sample_addr; DoRevert 1; DoSetCode sample_addr [96; 0]; DoCreateAccount sample_addr].

Lemma sample_wf : wf (world sample_start).
Proof.
  split; [|cbn; unfold u64_ok, two64; lia]. intros a k H. unfold slot_in in H. cbn in H. rewrite lookup_empty in H.
  apply bool_decide_eq_true, not_elem_of_empty in H. contradiction.
Qed.

Lemma snapshot_revert_witness :
  exists s s2 s3, foldM exec sample_start sample_before = Some s /\ foldM exec (fst (Snapshot s)) sample_after = Some s2 /\
    RevertToSnapshot s2 0 = Some s3 /\ snd (get_balance (world s2) sample_addr) = 5 /\
    snd (get_state (world s3) sample_addr sample_key) = ZeroHash /\ snd (GetCode (world s2) sample_addr) = [] /\
    snd (GetCode (world s3) sample_addr) = [1; 2] /\ same_reads (world s) (world s3).
Proof.
  assert (match foldM exec sample_start sample_before with Some s => snd (Snapshot s) | None => 1 end = 0) as E0 by (vm_compute; reflexivity).
  assert (match foldM exec sample_start sample_before with
          | Some s => match foldM exec (fst (Snapshot s)) sample_after with
                      | Some s2 => (snd (get_balance (world s2) sample_addr), snd (get_state (world s) sample_addr sample_key), snd (GetCode (world s2) sample_addr),
                                    option_map (fun s3 => snd (GetCode (world s3) sample_addr)) (RevertToSnapshot s2 0))
                      | None => (0, [], [], None) end
          | None => (0, [], [], None) end = (5, ZeroHash, [], Some [1; 2])) as E by (vm_compute; reflexivity).
  destruct (foldM exec sample_start sample_before) as [s|] eqn:E1; [|discriminate].
  destruct (foldM exec (fst (Snapshot s)) sample_after) as [s2|] eqn:E2; [|discriminate].
  destruct (snapshot_revert sample_start sample_before s sample_after s2 eq_refl eq_refl sample_wf E1 E2) as [H1 H2].
  rewrite E0 in *. destruct H2 as [s3 H3]; [repeat constructor|]. destruct (H1 s3 H3) as (Hr & _).
  rewrite H3 in E. injection E as Eb Es Ec Ed. exists s, s2, s3. split_and!; auto. rewrite <- Es. apply Hr.
Defined.

Definition sample_funded : StateDB := add_balance sample_start sample_addr 5.

End SDB.
