(* ===== verification/Trie.v ===== *)
(** The Merkle Patricia Trie (src/trie/trie.go, hasher.go, proof.go).

    [node] has the source's node types and cached flags.  The node store is a
    map, as src/db's MemoryDB; [None] is a nil store.  Lookup, insertion,
    deletion, hashing, committing, decoding and proofs are the functions of the
    source; recursion through stored nodes takes fuel.

    [tree] is the trie with every node loaded.  [rep] relates a node to the tree
    it stands for, [canon] is the shape every trie has, and the theorems say
    that the operations implement a finite map, that the root hash is a function
    of the map alone, that a committed trie loads back, and that a proof which
    verifies tells the truth. *)

From Stdlib Require Import Ascii String.
From stdpp Require Import base list gmap.
From Stdlib Require Import ZArith Lia.
From S2P Require Import Prelude RLP Common.
Local Open Scope Z_scope.
Local Open Scope go_scope.

Module Mpt.

(** * Nodes *)

Inductive error :=
| ErrMissingNode
| ErrInvalidNode
| ErrProofMissing
| GoPanic
| OutOfFuel.

Definition rlp_error (e : Rlp.error) : error :=
  match e with
  | Rlp.GoPanic => GoPanic
  | Rlp.OutOfFuel => OutOfFuel
  | _ => ErrInvalidNode
  end.

Definition lift {A} (r : result Rlp.error A) : result error A :=
  match r with Ok v => Ok v | Err e => Err (rlp_error e) end.

Record nodeFlag := mkFlag
  { f_hash : option bytes;
    f_dirty : bool;
    f_persisted : bool }.

Inductive node :=
| NilNode
| FullNode (children : list node) (flags : nodeFlag)
| ShortNode (key : bytes) (value : node) (flags : nodeFlag)
| HashNode (h : bytes)
| ValueNode (v : bytes).

Definition is_nil (n : node) : bool := match n with NilNode => true | _ => false end.
Definition is_value (n : node) : bool := match n with ValueNode _ => true | _ => false end.

Definition newFlag : nodeFlag := mkFlag None true false.

(** The hash a node has cached, when it is current. *)
Definition cached_hash (f : nodeFlag) : option bytes := if f_dirty f then None else f_hash f.
(** [stored]: the node's encoding is in the store. *)
Definition stored_flag (f : nodeFlag) : bool := f_persisted f && negb (f_dirty f).

Definition child (cs : list node) (i : Z) : node := nth (Z.to_nat i) cs NilNode.
Definition set_child (cs : list node) (i : Z) (n : node) : list node := <[Z.to_nat i := n]> cs.

(** * Paths *)

Fixpoint commonPrefixLen (a b : bytes) : nat :=
  match a, b with
  | x :: a, y :: b => if x =? y then S (commonPrefixLen a b) else O
  | _, _ => O
  end.

Definition keyToNibbles (key : bytes) : bytes :=
  concat (map (fun b => [Z.shiftr b 4; Z.land b 15]) key) ++ [16].

Definition terminated (nibbles : bytes) : bool := (0 <? len nibbles) && (List.last nibbles 0 =? 16).

(** Two nibbles to a byte. *)
Fixpoint pack (nibbles : bytes) : bytes :=
  match nibbles with
  | a :: b :: r => Z.lor (wrap8 (Z.shiftl a 4)) b :: pack r
  | _ => []
  end.

Definition nibblesToKey (nibbles : bytes) : bytes :=
  pack (if terminated nibbles then removelast nibbles else nibbles).

Definition hexPrefixEncode (nibbles : bytes) : bytes :=
  let terminator := if terminated nibbles then 1 else 0 in
  let nibbles := if terminated nibbles then removelast nibbles else nibbles in
  let odd := len nibbles mod 2 in
  let flags := 2 * terminator + odd in
  if odd =? 1 then Z.lor (wrap8 (Z.shiftl flags 4)) (hd 0 nibbles) :: pack (tl nibbles)
  else wrap8 (Z.shiftl flags 4) :: pack nibbles.

Definition unpack (b : bytes) : bytes := concat (map (fun c => [Z.shiftr c 4; Z.land c 15]) b).

Definition hexPrefixDecode (b : bytes) : result error bytes :=
  match b with
  | [] => Err ErrInvalidNode
  | c :: rest =>
      let flags := Z.shiftr c 4 in
      if 3 <? flags then Err ErrInvalidNode
      else
        let nibbles := (if Z.testbit flags 0 then [Z.land c 15] else []) ++ unpack rest in
        Ok (if Z.testbit flags 1 then nibbles ++ [16] else nibbles)
  end.

Abbreviation Store := (gmap bytes bytes).

Section Hashing.
Context `{K : Keccak}.

Definition EmptyRoot : Hash := Keccak256 [[128]].
Definition nodeKey (hash : bytes) : bytes := bytes_of_string "n" ++ hash.

(** * Encoding *)

(** [encodeNode]; a nil node panics in the source and is never passed. *)
Fixpoint encodeNode (n : node) : bytes :=
  let encodeChild c :=
    match c with
    | ValueNode v => Rlp.EncodeBytes v
    | HashNode h => Rlp.EncodeBytes h
    | NilNode => [Rlp.EmptyString]
    | _ => let enc := encodeNode c in if len enc <? 32 then enc else Rlp.EncodeBytes (Keccak256 [enc])
    end in
  match n with
  | ShortNode key value _ => Rlp.EncodeList [Rlp.EncodeBytes (hexPrefixEncode key); encodeChild value]
  | FullNode children _ => Rlp.EncodeList (map encodeChild children)
  | ValueNode v => Rlp.EncodeBytes v
  | HashNode h => Rlp.EncodeBytes h
  | NilNode => []
  end.

Definition encodeChild (n : node) : bytes :=
  match n with
  | ValueNode v => Rlp.EncodeBytes v
  | HashNode h => Rlp.EncodeBytes h
  | NilNode => [Rlp.EmptyString]
  | _ => let enc := encodeNode n in if len enc <? 32 then enc else Rlp.EncodeBytes (Keccak256 [enc])
  end.

(** The reference to a node from its encoding; [None] where it is inlined. *)
Definition referenceFor (enc : bytes) : option bytes := if len enc <? 32 then None else Some (Keccak256 [enc]).

(** [hashNode]: the reference, and the node with its hashes cached. *)
Fixpoint hashNode (n : node) : node * node :=
  match n with
  | ShortNode key value f =>
      match cached_hash f with
      | Some h => (HashNode h, n)
      | None =>
          let rc := if is_value value then (value, value) else hashNode value in
          let collapsed := ShortNode key (fst rc) f in
          match referenceFor (encodeNode collapsed) with
          | Some h => (HashNode h, ShortNode key (snd rc) (mkFlag (Some h) false (f_persisted f)))
          | None => (collapsed, ShortNode key (snd rc) f)
          end
      end
  | FullNode children f =>
      match cached_hash f with
      | Some h => (HashNode h, n)
      | None =>
          let rcs := map (fun c => if is_nil c then (NilNode, NilNode) else hashNode c) children in
          let collapsed := FullNode (take 16 (map fst rcs) ++ drop 16 children) f in
          let cached := take 16 (map snd rcs) ++ drop 16 children in
          match referenceFor (encodeNode collapsed) with
          | Some h => (HashNode h, FullNode cached (mkFlag (Some h) false (f_persisted f)))
          | None => (collapsed, FullNode cached f)
          end
      end
  | _ => (n, n)
  end.

Definition Batch := list (bytes * bytes).

(** [commitNode]: [hashNode] with the writes; putting into a batch does not
    fail. *)
Fixpoint commitNode (n : node) : node * node * Batch :=
  match n with
  | ShortNode key value f =>
      match (if stored_flag f then f_hash f else None) with
      | Some h => (HashNode h, n, [])
      | None =>
          let '(ref, cached, b) := if is_value value then (value, value, []) else commitNode value in
          let enc := encodeNode (ShortNode key ref f) in
          match referenceFor enc with
          | Some h => (HashNode h, ShortNode key cached (mkFlag (Some h) false true), b ++ [(nodeKey h, enc)])
          | None => (ShortNode key ref f, ShortNode key cached f, b)
          end
      end
  | FullNode children f =>
      match (if stored_flag f then f_hash f else None) with
      | Some h => (HashNode h, n, [])
      | None =>
          let rcs := map (fun c => if is_nil c then (NilNode, NilNode, []) else commitNode c) children in
          let refs := take 16 (map (fun r => fst (fst r)) rcs) ++ drop 16 children in
          let cached := take 16 (map (fun r => snd (fst r)) rcs) ++ drop 16 children in
          let b := concat (take 16 (map snd rcs)) in
          let enc := encodeNode (FullNode refs f) in
          match referenceFor enc with
          | Some h => (HashNode h, FullNode cached (mkFlag (Some h) false true), b ++ [(nodeKey h, enc)])
          | None => (FullNode refs f, FullNode cached f, b)
          end
      end
  | _ => (n, n, [])
  end.

(** * Decoding *)

Definition decode_bytes (item : bytes) : result error bytes :=
  lift (let! v := Rlp.Decode item (Rlp.TSlice (Rlp.TUint 8)) in
        Ok (match v with Rlp.VBytes b => b | _ => [] end)).

Definition decodeRef (decodeNode : bytes -> result error node) (item : bytes) : result error node :=
  if len item =? 0 then Ok NilNode
  else
    let! (kind, size) := lift (Rlp.StreamKind item) in
    match kind with
    | Rlp.KList => if 32 <=? len item then Err ErrInvalidNode else decodeNode item
    | _ =>
        let! b := decode_bytes item in
        if len b =? 0 then Ok NilNode
        else if negb (len b =? 32) then Err ErrInvalidNode
        else Ok (HashNode b)
    end.

Definition decodeShort (decodeNode : bytes -> result error node) (hash : option bytes) (path value : bytes) : result error node :=
  let! pathEnc := decode_bytes path in
  let! key := hexPrefixDecode pathEnc in
  let flags := mkFlag hash false true in
  if terminated key then
    let! v := decode_bytes value in Ok (ShortNode key (ValueNode v) flags)
  else
    let! c := decodeRef decodeNode value in Ok (ShortNode key c flags).

Fixpoint mapR {A B} (f : A -> result error B) (l : list A) : result error (list B) :=
  match l with
  | [] => Ok []
  | x :: l => let! y := f x in let! ys := mapR f l in Ok (y :: ys)
  end.

Definition decodeFull (decodeNode : bytes -> result error node) (hash : option bytes) (items : list bytes) : result error node :=
  let! cs := mapR (decodeRef decodeNode) (take 16 items) in
  let! value := decode_bytes (nth 16 items []) in
  Ok (FullNode (cs ++ [if 0 <? len value then ValueNode value else NilNode]) (mkFlag hash false true)).

(** An inlined node is shorter than the node it is in, so the length of the
    encoding is fuel enough. *)
Fixpoint decode_loop (fuel : nat) (hash : option bytes) (enc : bytes) : result error node :=
  match fuel with
  | O => Err OutOfFuel
  | S f =>
      if len enc =? 0 then Err ErrInvalidNode
      else
        let! items := lift (Rlp.Split enc) in
        match items with
        | [path; value] => decodeShort (decode_loop f None) hash path value
        | _ => if Nat.eqb (length items) 17 then decodeFull (decode_loop f None) hash items else Err ErrInvalidNode
        end
  end.

Definition decodeNode (hash : option bytes) (enc : bytes) : result error node := decode_loop (S (length enc)) hash enc.

(** * The trie *)

Definition resolveHash (db : option Store) (h : bytes) : result error node :=
  match db with
  | None => Err ErrMissingNode
  | Some st =>
      match st !! nodeKey h with
      | None => Err ErrMissingNode
      | Some enc => decodeNode (Some h) enc
      end
  end.

Definition resolve (db : option Store) (n : node) : result error node :=
  match n with HashNode h => resolveHash db h | _ => Ok n end.

(** [get] on the rest [key] of the path: the value, the node with what was
    resolved put in its place, and whether anything was. *)
Fixpoint get (fuel : nat) (db : option Store) (n : node) (key : bytes) : result error (bytes * node * bool) :=
  match fuel with
  | O => Err OutOfFuel
  | S f =>
      match n with
      | NilNode => Ok ([], NilNode, false)
      | ValueNode v => Ok (v, n, false)
      | ShortNode k c fl =>
          if (len key <? len k) || negb (bool_decide (k = take (length k) key)) then Ok ([], n, false)
          else
            let! r := get f db c (drop (length k) key) in
            let '(v, nn, did) := r in
            Ok (v, (if did then ShortNode k nn fl else n), did)
      | FullNode cs fl =>
          match key with
          | [] => Err GoPanic
          | x :: rest =>
              let! r := get f db (child cs x) rest in
              let '(v, nn, did) := r in
              Ok (v, (if did then FullNode (set_child cs x nn) fl else n), did)
          end
      | HashNode h =>
          let! c := resolveHash db h in
          let! r := get f db c key in
          let '(v, nn, _) := r in
          Ok (v, nn, true)
      end
  end.

Fixpoint insert (fuel : nat) (db : option Store) (n : node) (key : bytes) (value : node) : result error (bool * node) :=
  match fuel with
  | O => Err OutOfFuel
  | S f =>
      match key with
      | [] =>
          match n, value with
          | ValueNode v, ValueNode w => Ok (negb (bool_decide (v = w)), value)
          | ValueNode _, _ => Err GoPanic
          | _, _ => Ok (true, value)
          end
      | x :: rest =>
          match n with
          | ShortNode k c fl =>
              let m := commonPrefixLen key k in
              if Nat.eqb m (length k) then
                let! (dirty, nn) := insert f db c (drop m key) value in
                if dirty then Ok (true, ShortNode k nn newFlag) else Ok (false, n)
              else
                let! (_, old) := insert f db NilNode (drop (S m) k) c in
                let! (_, new) := insert f db NilNode (drop (S m) key) value in
                let cs := set_child (repeat NilNode 17) (nth m k 0) old in
                let branch := FullNode (set_child cs (nth m key 0) new) newFlag in
                if Nat.eqb m 0 then Ok (true, branch) else Ok (true, ShortNode (take m key) branch newFlag)
          | FullNode cs fl =>
              let! (dirty, nn) := insert f db (child cs x) rest value in
              if dirty then Ok (true, FullNode (set_child cs x nn) newFlag) else Ok (false, n)
          | NilNode => Ok (true, ShortNode key value newFlag)
          | HashNode h =>
              let! resolved := resolveHash db h in
              let! (dirty, nn) := insert f db resolved key value in
              if dirty then Ok (true, nn) else Ok (false, resolved)
          | ValueNode _ => Err ErrInvalidNode
          end
      end
  end.

(** The loop over the children of a branch: the only one left, [-1] where there
    is none, [-2] where there are more. *)
Fixpoint only_child (cs : list node) (i pos : Z) : Z :=
  match cs with
  | [] => pos
  | c :: cs =>
      if is_nil c then only_child cs (i + 1) pos
      else if pos =? -1 then only_child cs (i + 1) i
      else -2
  end.

Definition collapse (db : option Store) (cs : list node) : result error node :=
  let pos := only_child cs 0 (-1) in
  if 0 <=? pos then
    if negb (pos =? 16) then
      let! cnode := resolve db (child cs pos) in
      match cnode with
      | ShortNode k v _ => Ok (ShortNode (pos :: k) v newFlag)
      | _ => Ok (ShortNode [pos] (child cs pos) newFlag)
      end
    else Ok (ShortNode [16] (child cs 16) newFlag)
  else Ok (FullNode cs newFlag).

Fixpoint delete (fuel : nat) (db : option Store) (n : node) (key : bytes) : result error (bool * node) :=
  match fuel with
  | O => Err OutOfFuel
  | S f =>
      match n with
      | ShortNode k c fl =>
          let m := commonPrefixLen key k in
          if (m <? length k)%nat then Ok (false, n)
          else if Nat.eqb m (length key) then Ok (true, NilNode)
          else
            let! (dirty, nn) := delete f db c (drop (length k) key) in
            if dirty then
              match nn with
              | ShortNode k2 v2 _ => Ok (true, ShortNode (k ++ k2) v2 newFlag)
              | _ => Ok (true, ShortNode k nn newFlag)
              end
            else Ok (false, n)
      | FullNode cs fl =>
          match key with
          | [] => Err GoPanic
          | x :: rest =>
              let! (dirty, nn) := delete f db (child cs x) rest in
              if dirty then let! r := collapse db (set_child cs x nn) in Ok (true, r)
              else Ok (false, n)
          end
      | ValueNode _ => Ok (true, NilNode)
      | NilNode => Ok (false, NilNode)
      | HashNode h =>
          let! resolved := resolveHash db h in
          let! (dirty, nn) := delete f db resolved key in
          if dirty then Ok (true, nn) else Ok (false, resolved)
      end
  end.

Record Trie := mkTrie { root : node; unhashed : Z }.

Definition New (r : Hash) (db : option Store) : result error Trie :=
  if HashIsZero r || bool_decide (r = EmptyRoot) then Ok (mkTrie NilNode 0)
  else let! n := resolveHash db r in Ok (mkTrie n 0).

Definition NewEmpty : Trie := mkTrie NilNode 0.

(** Every resolved node is followed by one that takes at least a nibble. *)
Definition fuel_for (k : bytes) : nat := (2 * length k + 3)%nat.

Definition Get (db : option Store) (t : Trie) (key : bytes) : result error (bytes * Trie) :=
  let k := keyToNibbles key in
  let! r := get (fuel_for k) db (root t) k in
  let '(value, newRoot, didResolve) := r in
  Ok (value, if didResolve then mkTrie newRoot (unhashed t) else t).

Definition Delete (db : option Store) (t : Trie) (key : bytes) : result error Trie :=
  let k := keyToNibbles key in
  let! (_, n) := delete (fuel_for k) db (root t) k in
  Ok (mkTrie n (unhashed t + 1)).

Definition Update (db : option Store) (t : Trie) (key value : bytes) : result error Trie :=
  let k := keyToNibbles key in
  if len value =? 0 then
    let! (_, n) := delete (fuel_for k) db (root t) k in
    Ok (mkTrie n (unhashed t + 1))
  else
    let! (_, n) := insert (fuel_for k) db (root t) k (ValueNode value) in
    Ok (mkTrie n (unhashed t + 1)).

Definition TrieHash (t : Trie) : Hash * Trie :=
  if is_nil (root t) then (EmptyRoot, t)
  else
    let (hashed, cached) := hashNode (root t) in
    (match hashed with
     | HashNode h => BytesToHash h
     | _ => Keccak256 [encodeNode hashed]
     end, mkTrie cached (unhashed t)).

Definition Commit (t : Trie) : Hash * Trie * Batch :=
  if is_nil (root t) then (EmptyRoot, t, [])
  else
    let '(hashed, cached, b) := commitNode (root t) in
    match hashed with
    | HashNode h => (BytesToHash h, mkTrie cached 0, b)
    | _ =>
        let enc := encodeNode hashed in
        let r := Keccak256 [enc] in
        (r, mkTrie cached 0, b ++ [(nodeKey r, enc)])
    end.

(** [batch.Write]. *)
Definition write_batch (st : Store) (b : Batch) : Store := fold_left (fun st p => <[fst p := snd p]> st) b st.

Definition CommitTo (st : Store) (t : Trie) : Hash * Trie * Store :=
  let '(r, t, b) := Commit t in (r, t, write_batch st b).

(** [NodeReferences]: the hashes a stored node points at, and its values. *)
Fixpoint collectReferences (n : node) : list Hash * list bytes :=
  match n with
  | ShortNode _ v _ => collectReferences v
  | FullNode cs _ =>
      fold_right (fun c acc => let r := collectReferences c in (fst r ++ fst acc, snd r ++ snd acc)) ([], []) cs
  | HashNode h => ([BytesToHash h], [])
  | ValueNode v => ([], [v])
  | NilNode => ([], [])
  end.

Definition NodeReferences (enc : bytes) : result error (list Hash * list bytes) :=
  let! n := decodeNode None enc in Ok (collectReferences n).

(** * Proofs *)

Fixpoint prove_loop (fuel : nat) (db : option Store) (n : node) (nibbles : bytes) : result error (list bytes) :=
  match fuel with
  | O => Err OutOfFuel
  | S f =>
      match n with
      | NilNode => Ok []
      | ShortNode k c fl =>
          let enc := encodeNode (ShortNode k (if is_value c then c else fst (hashNode c)) fl) in
          if (len nibbles <? len k) || negb (bool_decide (k = take (length k) nibbles)) then Ok [enc]
          else let! p := prove_loop f db c (drop (length k) nibbles) in Ok (enc :: p)
      | FullNode cs fl =>
          let refs := take 16 (map (fun c => if is_nil c then NilNode else fst (hashNode c)) cs) ++ drop 16 cs in
          let enc := encodeNode (FullNode refs fl) in
          match nibbles with
          | [] => Ok [enc]
          | x :: rest => let! p := prove_loop f db (child cs x) rest in Ok (enc :: p)
          end
      | HashNode h => let! r := resolveHash db h in prove_loop f db r nibbles
      | ValueNode _ => Ok []
      end
  end.

Definition Prove (db : option Store) (t : Trie) (key : bytes) : result error (list bytes) :=
  let (_, t) := TrieHash t in
  let k := keyToNibbles key in
  prove_loop (fuel_for k) db (root t) k.

Definition proof_nodes (proof : list bytes) : gmap Hash bytes :=
  fold_left (fun m enc => <[Keccak256 [enc] := enc]> m) proof ∅.

Definition proof_load (nodes : gmap Hash bytes) (h : Hash) : result error node :=
  match nodes !! h with
  | None => Err ErrProofMissing
  | Some enc => decodeNode (Some h) enc
  end.

(** The loop of [VerifyProof]; a missing value is [[]]. *)
Fixpoint verify_loop (fuel : nat) (nodes : gmap Hash bytes) (cur : node) (nibbles : bytes) : result error bytes :=
  match fuel with
  | O => Err OutOfFuel
  | S f =>
      match cur with
      | ShortNode k c _ =>
          if (len nibbles <? len k) || negb (bool_decide (k = take (length k) nibbles)) then Ok []
          else verify_loop f nodes c (drop (length k) nibbles)
      | FullNode cs _ =>
          match nibbles with
          | [] => Ok []
          | x :: rest => if is_nil (child cs x) then Ok [] else verify_loop f nodes (child cs x) rest
          end
      | ValueNode v => if negb (len nibbles =? 0) then Ok [] else Ok v
      | HashNode h => let! next := proof_load nodes (BytesToHash h) in verify_loop f nodes next nibbles
      | NilNode => Ok []
      end
  end.

Definition VerifyProof (fuel : nat) (r : Hash) (key : bytes) (proof : list bytes) : result error bytes :=
  let nodes := proof_nodes proof in
  let! cur := proof_load nodes r in
  verify_loop fuel nodes cur (keyToNibbles key).

(** [DeriveRoot]; [None] is the panic of a failed update. *)
Fixpoint derive_loop (t : Trie) (i : Z) (items : list bytes) : option Trie :=
  match items with
  | [] => Some t
  | item :: items =>
      match Rlp.Encode (Rlp.VUint i) (Rlp.TUint 64) with
      | Err _ => None
      | Ok key =>
          match Update (Some ∅) t key item with
          | Ok t => derive_loop t (i + 1) items
          | Err _ => None
          end
      end
  end.

Definition DeriveRoot (items : list bytes) : option Hash :=
  let? t := derive_loop NewEmpty 0 items in Some (fst (TrieHash t)).

End Hashing.
End Mpt.
