(* ===== verification/TrieTree.v ===== *)
(** Tries with every node loaded: the trees that src/trie's nodes stand for,
    their contents, their canonical shape and their encoding.

    A canonical tree is determined by its contents, whatever operations built
    it. *)

From stdpp Require Import base list gmap.
From Stdlib Require Import ZArith Lia.
From S2P Require Import Prelude RLP Common Trie.
Local Open Scope Z_scope.

Module Tree.
Import Mpt.

Inductive tree :=
| TNil
| TVal (v : bytes)
| TShort (k : bytes) (t : tree)
| TFull (ts : list tree).

(** ** Contents *)

Fixpoint strip (k key : bytes) : option bytes :=
  match k, key with
  | [], _ => Some key
  | x :: k, y :: key => if x =? y then strip k key else None
  | _, [] => None
  end.

Fixpoint tget (t : tree) (key : bytes) : option bytes :=
  match t with
  | TNil => None
  | TVal v => match key with [] => Some v | _ => None end
  | TShort k c => match strip k key with Some r => tget c r | None => None end
  | TFull ts =>
      match key with
      | [] => None
      | x :: r =>
          (fix go (ts : list tree) (i : nat) : option bytes :=
             match ts, i with
             | t :: _, O => tget t r
             | _ :: ts, S i => go ts i
             | [], _ => None
             end) ts (Z.to_nat x)
      end
  end.

Lemma tget_full ts x r : tget (TFull ts) (x :: r) = match ts !! Z.to_nat x with Some t => tget t r | None => None end.
Proof.
  cbn [tget]. generalize (Z.to_nat x). induction ts as [|t ts IH]; intros i; [reflexivity|].
  destruct i as [|i]; [reflexivity | apply IH].
Qed.

Lemma strip_app k r : strip k (k ++ r) = Some r.
Proof. induction k as [|x k IH]; cbn; [reflexivity|]. rewrite Z.eqb_refl. exact IH. Qed.

Lemma strip_Some k : forall key r, strip k key = Some r -> key = k ++ r.
Proof.
  induction k as [|x k IH]; intros key r; cbn [strip]; [intros [= ->]; reflexivity|].
  destruct key as [|y key]; [discriminate|]. destruct (Z.eqb_spec x y) as [->|]; [|discriminate].
  intros H. cbn. f_equal. apply IH, H.
Qed.

Lemma tget_short k c r : tget (TShort k c) (k ++ r) = tget c r.
Proof. cbn [tget]. rewrite strip_app. reflexivity. Qed.

Lemma strip_spec k key : strip k key = if bool_decide (take (length k) key = k) then Some (drop (length k) key) else None.
Proof.
  destruct (strip k key) as [r|] eqn:E.
  - apply strip_Some in E. subst. rewrite take_app_length, drop_app_length, bool_decide_true by reflexivity. reflexivity.
  - case_bool_decide as H; [|reflexivity]. rewrite <- (take_drop (length k) key), H, strip_app in E. discriminate.
Qed.

(** ** Paths *)

Definition nibs (k : bytes) : Prop := Forall (fun x => 0 <= x < 16) k.
Definition path (key : bytes) : Prop := exists ns, nibs ns /\ key = ns ++ [16].

Lemma path_16 : path [16].
Proof. exists []. split; [constructor | reflexivity]. Qed.

Lemma path_cons x r : 0 <= x < 16 -> path r -> path (x :: r).
Proof. intros Hx (ns & Hn & ->). exists (x :: ns). split; [constructor; assumption | reflexivity]. Qed.

Lemma path_app k r : nibs k -> path r -> path (k ++ r).
Proof. intros Hk Hr. induction Hk; cbn [app]; auto using path_cons. Qed.

Lemma path_inv x r : path (x :: r) -> (0 <= x < 16 /\ path r) \/ (x = 16 /\ r = []).
Proof.
  intros ([|y ns] & Hn & E); injection E as -> ->; [right; auto|]. left. apply Forall_cons_1 in Hn as [Hy Hn].
  split; [exact Hy | exists ns; auto].
Qed.

Lemma path_nonempty key : path key -> key <> [].
Proof. intros (ns & _ & ->) E. apply app_eq_nil in E. destruct E. discriminate. Qed.

(** A path ends at its first terminator. *)
Lemma path_drop k : forall r, path (k ++ r) -> r <> [] -> nibs k /\ path r.
Proof.
  induction k as [|x k IH]; intros r H Hr; [split; [constructor | exact H]|].
  cbn [app] in H. apply path_inv in H. destruct H as [[Hx Hp] | [_ E]].
  - destruct (IH r Hp Hr). split; [constructor; assumption | assumption].
  - apply app_eq_nil in E. destruct E. contradiction.
Qed.

Lemma path_prefix key r : path key -> path (key ++ r) -> r = [].
Proof.
  intros (ns & Hn & ->) H. destruct r as [|y r]; [reflexivity|]. rewrite <- app_assoc in H.
  assert (path ([16] ++ y :: r)) as H2 by (apply (path_drop ns); [exact H | discriminate]).
  apply path_inv in H2. destruct H2 as [[Hx _] | [_ E]]; [lia | discriminate].
Qed.

Lemma nibs_not_path k r : nibs k -> path (k ++ r) -> r <> [] /\ path r.
Proof.
  intros Hk H. destruct r as [|y r].
  - exfalso. rewrite app_nil_r in H. destruct H as (ns & _ & ->). apply Forall_app in Hk as [_ Hk].
    apply Forall_cons_1 in Hk as [Hx _]. lia.
  - split; [discriminate|]. apply (path_drop k); [exact H | discriminate].
Qed.

(** ** The canonical shape *)

(** Lengths a machine can hold, far above any key or value. *)
Definition max_item : Z := 2 ^ 32.
Definition val_ok (v : bytes) : Prop := v <> [] /\ bytes_ok v /\ len v <= max_item.

(** [canon d t]: leaves end in a terminator, extensions lead to branches,
    branches have two entries at least, and paths are at most [d] long. *)
Inductive canon : nat -> tree -> Prop :=
| canon_leaf d k v : nibs k -> val_ok v -> (length k + 1 <= d)%nat -> canon d (TShort (k ++ [16]) (TVal v))
| canon_ext d k ts : nibs k -> k <> [] -> (length k <= d)%nat -> canon (d - length k) (TFull ts) -> canon d (TShort k (TFull ts))
| canon_full d ts : length ts = 17%nat ->
    (forall i t, ts !! i = Some t -> (i < 16)%nat -> t <> TNil -> canon d t) ->
    (forall t, ts !! 16%nat = Some t -> t <> TNil -> exists b, t = TVal b /\ val_ok b) ->
    (exists i j t u, i <> j /\ ts !! i = Some t /\ ts !! j = Some u /\ t <> TNil /\ u <> TNil) ->
    canon (S d) (TFull ts).

Definition canon_root (d : nat) (t : tree) : Prop := t = TNil \/ canon d t.

Lemma canon_mono d t : canon d t -> forall e, (d <= e)%nat -> canon e t.
Proof.
  induction 1 as [d k v Hk Hv Hd | d k ts Hk Hn Hd Hc IH | d ts Hl Hc IH Hv Ht]; intros e He.
  - constructor; auto. lia.
  - constructor; auto; [lia|]. apply IH. lia.
  - destruct e as [|e]; [lia|]. constructor; auto. intros i t Hi Hlt Hnn. apply (IH i t Hi Hlt Hnn). lia.
Qed.

Lemma canon_not_nil d t : canon d t -> t <> TNil.
Proof. destruct 1; discriminate. Qed.

(** An entry of a branch holds some key. *)
Definition entry_path (i : nat) (r : bytes) : Prop := (i < 16)%nat /\ path r \/ i = 16%nat /\ r = [].

Lemma entry_path_path i r : entry_path i r -> path (Z.of_nat i :: r).
Proof. intros [[Hi Hr] | [-> ->]]; [apply path_cons; [lia | exact Hr] | apply path_16]. Qed.

Lemma canon_inhabited d t : canon d t -> exists key v, path key /\ tget t key = Some v.
Proof.
  induction 1 as [d k v Hk Hv Hd | d k ts Hk Hn Hd Hc (key & v & Hp & Hg) | d ts Hl Hc IH Hv (i & j & t & u & Hij & Hi & Hj & Ht & Hu)].
  - exists (k ++ [16]), v. split; [exists k; auto|]. cbn [tget]. rewrite <- (app_nil_r (k ++ [16])) at 2. rewrite strip_app. reflexivity.
  - exists (k ++ key), v. split; [apply path_app; assumption|]. rewrite tget_short. exact Hg.
  - destruct (Nat.lt_ge_cases i 16) as [Hlt|Hge].
    + destruct (IH i t Hi Hlt Ht) as (key & v & Hp & Hg). exists (Z.of_nat i :: key), v.
      split; [apply path_cons; [lia | exact Hp]|]. rewrite tget_full, Nat2Z.id, Hi. exact Hg.
    + assert (i = 16%nat) as -> by (apply lookup_lt_Some in Hi; lia). destruct (Hv t Hi Ht) as (b & -> & _).
      exists [16], b. split; [apply path_16|]. rewrite tget_full. change (Z.to_nat 16) with 16%nat. rewrite Hi. reflexivity.
Qed.

Lemma canon_full_inv d ts : canon d (TFull ts) -> exists e, d = S e /\ length ts = 17%nat /\
  (forall i t, ts !! i = Some t -> (i < 16)%nat -> t <> TNil -> canon e t) /\
  (forall t, ts !! 16%nat = Some t -> t <> TNil -> exists b, t = TVal b /\ val_ok b) /\
  (exists i j t u, i <> j /\ ts !! i = Some t /\ ts !! j = Some u /\ t <> TNil /\ u <> TNil).
Proof. intros H. inversion H; subst. exists d0. auto 10. Qed.

Lemma entry_inhabited d ts i t : canon (S d) (TFull ts) -> ts !! i = Some t -> t <> TNil ->
  exists r v, path (Z.of_nat i :: r) /\ tget (TFull ts) (Z.of_nat i :: r) = Some v.
Proof.
  intros H Hi Ht. apply canon_full_inv in H as (e & [= <-] & Hl & Hc & Hv & _).
  destruct (Nat.lt_ge_cases i 16) as [Hlt|Hge].
  - destruct (canon_inhabited _ _ (Hc i t Hi Hlt Ht)) as (r & v & Hp & Hg). exists r, v.
    split; [apply path_cons; [lia | exact Hp]|]. rewrite tget_full, Nat2Z.id, Hi. exact Hg.
  - assert (i = 16%nat) as -> by (apply lookup_lt_Some in Hi; lia). destruct (Hv t Hi Ht) as (b & -> & _).
    exists [], b. split; [apply path_16|]. rewrite tget_full, Nat2Z.id, Hi. reflexivity.
Qed.

(** A branch holds keys that differ at once. *)
Lemma full_two d ts : canon d (TFull ts) -> exists x r y s v w, x <> y /\ path (x :: r) /\ path (y :: s) /\
  tget (TFull ts) (x :: r) = Some v /\ tget (TFull ts) (y :: s) = Some w.
Proof.
  intros H. pose proof H as H0. apply canon_full_inv in H0 as (e & -> & Hl & Hc & Hv & (i & j & t & u & Hij & Hi & Hj & Ht & Hu)).
  destruct (entry_inhabited _ _ _ _ H Hi Ht) as (r & v & Hp & Hg).
  destruct (entry_inhabited _ _ _ _ H Hj Hu) as (s & w & Hp' & Hg').
  exists (Z.of_nat i), r, (Z.of_nat j), s, v, w. split; [lia | auto].
Qed.

Lemma short_keys k c key v : tget (TShort k c) key = Some v -> exists r, key = k ++ r /\ tget c r = Some v.
Proof.
  cbn [tget]. destruct (strip k key) as [r|] eqn:E; [|discriminate]. intros H. apply strip_Some in E. eauto.
Qed.

Lemma leaf_keys k v key w : tget (TShort k (TVal v)) key = Some w -> key = k /\ w = v.
Proof.
  intros H. apply short_keys in H as (r & -> & Hr). cbn in Hr. destruct r; [|discriminate].
  injection Hr as <-. rewrite app_nil_r. auto.
Qed.

(** A common prefix of two keys that part after [k] is a prefix of [k]. *)
Lemma prefix_of_both (k k' : bytes) x r y s a b : x <> y -> k ++ x :: r = k' ++ a -> k ++ y :: s = k' ++ b -> exists q, k = k' ++ q.
Proof.
  revert k. induction k' as [|z k' IH]; intros k Hxy E1 E2; [exists k; reflexivity|].
  destruct k as [|p k]; cbn [app] in *; [congruence|]. injection E1 as -> E1. injection E2 as E2.
  destruct (IH k Hxy E1 E2) as [q ->]. exists q. reflexivity.
Qed.

Lemma app_prefix_antisym (k k' q q' : bytes) : k = k' ++ q -> k' = k ++ q' -> k = k'.
Proof.
  intros E1 E2. assert (length q = 0%nat) as Hq.
  { apply (f_equal length) in E1, E2. rewrite length_app in E1, E2. lia. }
  destruct q; [rewrite app_nil_r in E1; exact E1 | discriminate].
Qed.

Lemma path_tget_leaf k v d : canon d (TShort k (TVal v)) -> path k /\ val_ok v.
Proof. intros H. inversion H; subst. split; [exists k0; auto | assumption]. Qed.
(** ** A canonical tree is determined by its contents *)

Definition same_content (t u : tree) : Prop := forall key, path key -> tget t key = tget u key.

Lemma same_content_sym t u : same_content t u -> same_content u t.
Proof. intros H key Hp. symmetry. apply H, Hp. Qed.

Lemma leaf_unique k v d u : canon d (TShort k (TVal v)) -> forall e, canon e u -> same_content (TShort k (TVal v)) u -> TShort k (TVal v) = u.
Proof.
  intros Hl e Hu Hs. destruct (path_tget_leaf _ _ _ Hl) as [Hk _].
  assert (forall key w, path key -> tget u key = Some w -> key = k /\ w = v) as Honly.
  { intros key w Hp Hg. rewrite <- (Hs key Hp) in Hg. apply leaf_keys, Hg. }
  destruct Hu as [e k' v' Hk' Hv' He | e k' ts Hk' Hn He Hc | e ts Hl' Hc Hv Ht].
  - destruct (Honly (k' ++ [16]) v') as [-> ->]; [exists k'; auto| |reflexivity].
    cbn [tget]. rewrite <- (app_nil_r (k' ++ [16])) at 2. rewrite strip_app. reflexivity.
  - exfalso. destruct (full_two _ _ Hc) as (x & r & y & s & w & w' & Hxy & Hp & Hp' & Hg & Hg').
    destruct (Honly (k' ++ x :: r) w) as [E1 _]; [apply path_app; assumption | rewrite tget_short; exact Hg|].
    destruct (Honly (k' ++ y :: s) w') as [E2 _]; [apply path_app; assumption | rewrite tget_short; exact Hg'|].
    rewrite <- E1 in E2. apply app_inv_head in E2. congruence.
  - exfalso. destruct (full_two (S e) ts) as (x & r & y & s & w & w' & Hxy & Hp & Hp' & Hg & Hg'); [constructor; assumption|].
    destruct (Honly _ _ Hp Hg), (Honly _ _ Hp' Hg'). congruence.
Qed.

(** An extension and a branch differ. *)
Lemma ext_not_full d e k ts us : canon d (TShort k (TFull ts)) -> k <> [] -> canon e (TFull us) ->
  same_content (TShort k (TFull ts)) (TFull us) -> False.
Proof.
  intros H1 Hk H2 Hs. destruct (full_two _ _ H2) as (x & r & y & s & w & w' & Hxy & Hp & Hp' & Hg & Hg').
  rewrite <- (Hs _ Hp) in Hg. rewrite <- (Hs _ Hp') in Hg'.
  apply short_keys in Hg as (a & E1 & _), Hg' as (b & E2 & _). destruct k; [contradiction|]. cbn in E1, E2. congruence.
Qed.

Lemma full_child_content d e ts us i t u : canon (S d) (TFull ts) -> canon (S e) (TFull us) -> same_content (TFull ts) (TFull us) ->
  ts !! i = Some t -> us !! i = Some u -> (i < 16)%nat -> same_content t u.
Proof.
  intros H1 H2 Hs Ht Hu Hi key Hp. specialize (Hs (Z.of_nat i :: key)). rewrite !tget_full, Nat2Z.id, Ht, Hu in Hs.
  apply Hs, path_cons; [lia | exact Hp].
Qed.

Lemma nil_or_canon t d : (t <> TNil -> canon d t) -> t = TNil \/ canon d t.
Proof. intros H. destruct t; [left; reflexivity | right; apply H; discriminate..]. Qed.

(** Extensions with the same contents share their path. *)
Lemma ext_prefix k k' ts us d : nibs k -> canon d (TFull ts) ->
  same_content (TShort k (TFull ts)) (TShort k' (TFull us)) -> exists q, k = k' ++ q.
Proof.
  intros Hk Hc Hs. destruct (full_two _ _ Hc) as (x & r & y & s & w & w' & Hxy & Hp & Hp' & Hg & Hg').
  assert (forall z, path z -> forall o, tget (TFull ts) z = Some o -> exists p, k ++ z = k' ++ p) as Hz.
  { intros z Hz o Ho. specialize (Hs (k ++ z) (path_app _ _ Hk Hz)). rewrite tget_short, Ho in Hs.
    symmetry in Hs. apply short_keys in Hs as (p & Ep & _). eauto. }
  destruct (Hz _ Hp _ Hg) as [p E1], (Hz _ Hp' _ Hg') as [p' E2]. eapply prefix_of_both; eassumption.
Qed.

Lemma canon_unique d t : canon d t -> forall e u, canon e u -> same_content t u -> t = u.
Proof.
  induction 1 as [d k v Hk Hv Hd | d k ts Hk Hn Hd Hc IH | d ts Hl Hc IH Hv Ht]; intros e u Hu Hs.
  - eapply leaf_unique; [constructor; eassumption | exact Hu | exact Hs].
  - assert (canon d (TShort k (TFull ts))) as H1 by (constructor; assumption).
    destruct Hu as [e k' v' Hk' Hv' He | e k' us Hk' Hn' He Hc' | e us Hl' Hc' Hv' Ht'].
    + symmetry. eapply leaf_unique; [constructor; eassumption | exact H1 | apply same_content_sym, Hs].
    + destruct (ext_prefix k k' ts us _ Hk Hc Hs) as [q Eq].
      destruct (ext_prefix k' k us ts _ Hk' Hc' (same_content_sym _ _ Hs)) as [q' Eq'].
      assert (k = k') as <- by (eapply app_prefix_antisym; eassumption). f_equal. eapply IH; [exact Hc'|].
      intros key Hp. specialize (Hs (k ++ key) (path_app _ _ Hk Hp)). rewrite !tget_short in Hs. exact Hs.
    + exfalso. eapply ext_not_full; [exact H1 | exact Hn | constructor; eassumption | exact Hs].
  - assert (canon (S d) (TFull ts)) as H1 by (constructor; assumption).
    destruct Hu as [e k' v' Hk' Hv' He | e k' us Hk' Hn' He Hc' | e us Hl' Hc' Hv' Ht'].
    + symmetry. eapply leaf_unique; [constructor; eassumption | exact H1 | apply same_content_sym, Hs].
    + exfalso. eapply ext_not_full; [constructor; eassumption | exact Hn' | exact H1 | apply same_content_sym, Hs].
    + f_equal. apply list_eq_same_length with 17%nat; [exact Hl' | exact Hl|].
      intros i t u Hi Hti Hui. assert (canon (S e) (TFull us)) as H2 by (constructor; assumption).
      destruct (Nat.lt_ge_cases i 16) as [Hlt|Hge].
      * pose proof (full_child_content _ _ _ _ _ _ _ H1 H2 Hs Hti Hui Hlt) as Hcc.
        destruct (nil_or_canon t d (Hc i t Hti Hlt)) as [->|Ht1], (nil_or_canon u e (Hc' i u Hui Hlt)) as [->|Hu1].
        -- reflexivity.
        -- destruct (canon_inhabited _ _ Hu1) as (key & v & Hp & Hg). rewrite <- (Hcc key Hp) in Hg. discriminate.
        -- destruct (canon_inhabited _ _ Ht1) as (key & v & Hp & Hg). rewrite (Hcc key Hp) in Hg. discriminate.
        -- apply (IH i t Hti Hlt (canon_not_nil _ _ Ht1) e u Hu1 Hcc).
      * assert (i = 16%nat) as -> by lia. specialize (Hs [16] path_16). rewrite !tget_full in Hs. change (Z.to_nat 16) with 16%nat in Hs.
        rewrite Hti, Hui in Hs. specialize (Hv t Hti). specialize (Hv' u Hui).
        destruct t, u; try (destruct Hv as (? & ? & _); [discriminate | congruence]);
          try (destruct Hv' as (? & ? & _); [discriminate | congruence]); cbn in Hs; congruence.
Qed.

(** ** Nibbles and bytes *)

Lemma nibble_byte_check :
  forallb (fun a => forallb (fun b =>
    let c := Z.lor (wrap8 (Z.shiftl a 4)) b in
    (c =? 16 * a + b) && (Z.shiftr c 4 =? a) && (Z.land c 15 =? b)) (seqZ 0 16)) (seqZ 0 16) = true.
Proof. vm_compute. reflexivity. Qed.

Lemma nibble_byte a b : 0 <= a < 16 -> 0 <= b < 16 ->
  let c := Z.lor (wrap8 (Z.shiftl a 4)) b in c = 16 * a + b /\ Z.shiftr c 4 = a /\ Z.land c 15 = b.
Proof.
  intros Ha Hb c. pose proof nibble_byte_check as H. rewrite forallb_forall in H.
  specialize (H a ltac:(apply list_elem_of_In, elem_of_seqZ; lia)). rewrite forallb_forall in H.
  specialize (H b ltac:(apply list_elem_of_In, elem_of_seqZ; lia)). fold c in H. cbv beta zeta in H.
  apply andb_prop in H as [H H3]. apply andb_prop in H as [H1 H2].
  apply Z.eqb_eq in H1, H2, H3. auto.
Qed.

Lemma pack_ok n : forall ns, (length ns <= n)%nat -> nibs ns -> bytes_ok (pack ns).
Proof.
  induction n as [|n IH]; intros ns Hl Hn; [destruct ns; [constructor | cbn in Hl; lia]|].
  destruct ns as [|a [|b r]]; cbn [pack]; try constructor.
  - apply Forall_cons_1 in Hn as [Ha Hn]. apply Forall_cons_1 in Hn as [Hb Hn].
    destruct (nibble_byte a b Ha Hb) as (-> & _). unfold byte_ok. lia.
  - apply Forall_cons_1 in Hn as [Ha Hn]. apply Forall_cons_1 in Hn as [Hb Hn]. apply IH; [cbn in Hl; lia | exact Hn].
Qed.

Lemma unpack_pack n : forall ns, (length ns <= n)%nat -> nibs ns -> len ns mod 2 = 0 -> unpack (pack ns) = ns.
Proof.
  induction n as [|n IH]; intros ns Hl Hn He; [destruct ns; [reflexivity | cbn in Hl; lia]|].
  destruct ns as [|a [|b r]]; [reflexivity | discriminate He|].
  apply Forall_cons_1 in Hn as [Ha Hn]. apply Forall_cons_1 in Hn as [Hb Hn].
  destruct (nibble_byte a b Ha Hb) as (_ & E1 & E2). unfold unpack. cbn [pack map concat]. rewrite E1, E2.
  cbn [app]. do 2 f_equal. apply IH; [cbn in Hl; lia | exact Hn|]. rewrite !len_cons in He.
  replace (1 + (1 + len r)) with (len r + 1 * 2) in He by lia. rewrite Z_mod_plus_full in He. exact He.
Qed.

Lemma length_pack n : forall ns, (length ns <= n)%nat -> (length (pack ns) <= length ns)%nat.
Proof.
  induction n as [|n IH]; intros ns Hl; [destruct ns; [cbn; lia | cbn in Hl; lia]|].
  destruct ns as [|a [|b r]]; cbn [pack length]; try lia. specialize (IH r). cbn in Hl. lia.
Qed.

(** A path of an extension or of a leaf. *)
Definition short_path (k : bytes) : Prop := nibs k \/ path k.

Lemma terminated_path k : path k -> terminated k = true /\ nibs (removelast k) /\ k = removelast k ++ [16].
Proof.
  intros (ns & Hn & ->). unfold terminated. rewrite last_last, removelast_last, len_app. pose proof (len_nonneg ns).
  split; [|auto]. cbn [len length]. destruct (Z.ltb_spec 0 (len ns + len [16])); [reflexivity | unfold len in *; cbn in *; lia].
Qed.

Lemma terminated_nibs k : nibs k -> terminated k = false.
Proof.
  intros Hk. unfold terminated. destruct (Z.eqb_spec (List.last k 0) 16) as [E|]; [|apply andb_false_r].
  destruct k as [|x k]; [reflexivity|]. exfalso. assert (In (List.last (x :: k) 0) (x :: k)) as Hin.
  { rewrite (app_removelast_last 0) at 2 by discriminate. apply in_or_app. right. left. reflexivity. }
  rewrite E in Hin. apply list_elem_of_In in Hin. pose proof (proj1 (Forall_forall _ _) Hk _ Hin) as H. cbn in H. lia.
Qed.

Lemma flag_byte_check :
  forallb (fun f => forallb (fun b =>
    let c := Z.lor (wrap8 (Z.shiftl f 4)) b in
    (0 <=? c) && (c <? 256) && (Z.shiftr c 4 =? f) && (Z.land c 15 =? b)) (seqZ 0 16)) (seqZ 0 4) = true.
Proof. vm_compute. reflexivity. Qed.

Lemma hexPrefix_round k : short_path k ->
  hexPrefixDecode (hexPrefixEncode k) = Ok k /\ bytes_ok (hexPrefixEncode k) /\ len (hexPrefixEncode k) <= len k + 1.
Proof.
  intros Hk.
  assert (exists tm ns, (tm = 0 \/ tm = 1) /\ nibs ns /\ (if terminated k then 1 else 0) = tm /\
    (if terminated k then removelast k else k) = ns /\ k = (if tm =? 1 then ns ++ [16] else ns)) as (tm & ns & Htm & Hns & E1 & E2 & Ek).
  { destruct Hk as [Hk|Hk].
    - rewrite (terminated_nibs k Hk). exists 0, k. auto 10.
    - destruct (terminated_path k Hk) as (-> & Hn & E). exists 1, (removelast k). auto 10. }
  unfold hexPrefixEncode. rewrite E1, E2.
  assert (len ns <= len k) as Hlen by (rewrite Ek; destruct (tm =? 1); [rewrite len_app; unfold len; cbn; lia | lia]).
  clear E1 E2.
  assert (forall f b r, 0 <= f < 4 -> 0 <= b < 16 -> nibs r -> len r mod 2 = 0 ->
    (if Z.testbit f 0 then [b] else []) ++ r = ns -> Z.testbit f 1 = (tm =? 1) -> len r <= len ns ->
    hexPrefixDecode (Z.lor (wrap8 (Z.shiftl f 4)) b :: pack r) = Ok k /\
    bytes_ok (Z.lor (wrap8 (Z.shiftl f 4)) b :: pack r) /\ len (Z.lor (wrap8 (Z.shiftl f 4)) b :: pack r) <= len k + 1) as Hgo.
  { intros f b r Hf Hb Hr He Ens Eb Hlr. pose proof flag_byte_check as H. rewrite forallb_forall in H.
    specialize (H f ltac:(apply list_elem_of_In, elem_of_seqZ; lia)). rewrite forallb_forall in H.
    specialize (H b ltac:(apply list_elem_of_In, elem_of_seqZ; lia)). set (c := Z.lor _ _) in *. cbv zeta in H.
    apply andb_prop in H as [H H4]. apply andb_prop in H as [H H3]. apply andb_prop in H as [H1 H2].
    apply Z.leb_le in H1. apply Z.ltb_lt in H2. apply Z.eqb_eq in H3, H4. split; [|split].
    - cbn [hexPrefixDecode]. rewrite H3, H4. destruct (Z.ltb_spec 3 f); [lia|]. rewrite (unpack_pack (length r)) by auto.
      rewrite Ens, Eb, Ek. reflexivity.
    - constructor; [unfold byte_ok; lia | apply (pack_ok (length r)); auto].
    - rewrite len_cons. pose proof (length_pack (length r) r ltac:(lia)). unfold len in *. lia. }
  destruct (Z.eqb_spec (len ns mod 2) 1) as [Hodd|Heven].
  - destruct ns as [|b r]; [discriminate Hodd|]. cbn [hd tl]. apply Forall_cons_1 in Hns as [Hb Hr]. rewrite Hodd.
    rewrite len_cons in Hodd. apply Hgo; auto.
    + lia.
    + rewrite Z.add_comm, <- Zplus_mod_idemp_l in Hodd. pose proof (Z.mod_pos_bound (len r) 2 ltac:(lia)).
      destruct (Z.eq_dec (len r mod 2) 0); [assumption|]. assert (len r mod 2 = 1) as E by lia. rewrite E in Hodd. discriminate.
    + destruct Htm as [-> | ->]; reflexivity.
    + destruct Htm as [-> | ->]; reflexivity.
    + rewrite len_cons. lia.
  - assert (len ns mod 2 = 0) as He by (pose proof (Z.mod_pos_bound (len ns) 2 ltac:(lia)); lia). rewrite He.
    replace (wrap8 (Z.shiftl (2 * tm + 0) 4)) with (Z.lor (wrap8 (Z.shiftl (2 * tm + 0) 4)) 0) by apply Z.lor_0_r.
    apply Hgo; auto; try lia; destruct Htm as [-> | ->]; reflexivity.
Qed.

End Tree.
