(* ===== verification/TrieEncoding.v ===== *)
(** The encoding of trees, decoding of stored nodes, and the relation between
    a node and the tree it stands for.

    A stored node decodes to the one it was encoded from, with the larger
    children as hash references and the smaller ones in place. *)

From stdpp Require Import base list gmap.
From Stdlib Require Import ZArith Lia.
From S2P Require Import Prelude RLP Common Trie TrieTree.
Local Open Scope Z_scope.

Module Enc.
Import Mpt Tree.

Section Encoding.
Context `{K : Keccak}.

(** ** Encoding *)

Fixpoint tenc (t : tree) : bytes :=
  let tchild c :=
    match c with
    | TVal v => Rlp.EncodeBytes v
    | TNil => [Rlp.EmptyString]
    | _ => let enc := tenc c in if len enc <? 32 then enc else Rlp.EncodeBytes (Keccak256 [enc])
    end in
  match t with
  | TShort k c => Rlp.EncodeList [Rlp.EncodeBytes (hexPrefixEncode k); tchild c]
  | TFull ts => Rlp.EncodeList (map tchild ts)
  | TVal v => Rlp.EncodeBytes v
  | TNil => []
  end.

Definition tchild (c : tree) : bytes :=
  match c with
  | TVal v => Rlp.EncodeBytes v
  | TNil => [Rlp.EmptyString]
  | _ => let enc := tenc c in if len enc <? 32 then enc else Rlp.EncodeBytes (Keccak256 [enc])
  end.

Definition thash (t : tree) : Hash := Keccak256 [tenc t].

Lemma tenc_short k c : tenc (TShort k c) = Rlp.EncodeList [Rlp.EncodeBytes (hexPrefixEncode k); tchild c].
Proof. reflexivity. Qed.
Lemma tenc_full ts : tenc (TFull ts) = Rlp.EncodeList (map tchild ts).
Proof. reflexivity. Qed.

(** What a child is decoded as, and a node with it. *)
Fixpoint shallow (hash : option bytes) (t : tree) : node :=
  let tref c :=
    match c with
    | TNil => NilNode
    | TVal v => ValueNode v
    | _ => if len (tenc c) <? 32 then shallow None c else HashNode (thash c)
    end in
  match t with
  | TShort k c => ShortNode k (tref c) (mkFlag hash false true)
  | TFull ts => FullNode (map tref ts) (mkFlag hash false true)
  | TVal v => ValueNode v
  | TNil => NilNode
  end.

Definition tref (c : tree) : node :=
  match c with
  | TNil => NilNode
  | TVal v => ValueNode v
  | _ => if len (tenc c) <? 32 then shallow None c else HashNode (thash c)
  end.

Lemma shallow_short hash k c : shallow hash (TShort k c) = ShortNode k (tref c) (mkFlag hash false true).
Proof. reflexivity. Qed.
Lemma shallow_full hash ts : shallow hash (TFull ts) = FullNode (map tref ts) (mkFlag hash false true).
Proof. reflexivity. Qed.

(** ** Sizes *)

Definition big : Z := 2 ^ 40.

Lemma big_fits b : len b <= big -> Rlp.fits b.
Proof. unfold big, Rlp.fits, max_int64. intros H. lia. Qed.

Lemma writeHeader_ok L off : 0 <= L <= big -> (off = 128 \/ off = 192) ->
  bytes_ok (Rlp.writeHeader L off) /\ len (Rlp.writeHeader L off) <= 9.
Proof.
  intros HL Hoff. assert (exists k, k <> Rlp.KByte /\ off = Rlp.offset_of k) as (k & Hk & ->).
  { destruct Hoff as [-> | ->]; [exists Rlp.KString | exists Rlp.KList]; split; (discriminate || reflexivity). }
  assert (Rlp.payload_len L) as HP by (unfold Rlp.payload_len, max_int64, big in *; lia).
  split; [|apply (Rlp.len_writeHeader k L HP)].
  assert (Rlp.offset_of k = 128 \/ Rlp.offset_of k = 192) as Ho by (destruct k; [contradiction | left | right]; reflexivity).
  destruct (Z.lt_ge_cases L 56) as [Hs|Hs].
  - rewrite Rlp.writeHeader_short by lia. constructor; [unfold byte_ok; lia | constructor].
  - rewrite (proj1 (Rlp.writeHeader_long k L HP ltac:(lia))). constructor; [|apply big_bytes_ok].
    pose proof (Rlp.big_bytes_len8 L (Rlp.payload_u64 L HP)). pose proof (Rlp.big_bytes_pos L ltac:(lia)). unfold byte_ok. lia.
Qed.

Lemma EncodeBytes_ok b : bytes_ok b -> len b <= 2 ^ 39 ->
  Rlp.raw_item (Rlp.EncodeBytes b) /\ len (Rlp.EncodeBytes b) <= len b + 9.
Proof.
  intros Hb Hl. unfold Rlp.EncodeBytes. pose proof (len_nonneg b).
  assert (bytes_ok (Rlp.writeBytes b) /\ len (Rlp.writeBytes b) <= len b + 9) as [H1 H2].
  { destruct (Rlp.writeBytes_cases b) as [(c & -> & _ & ->) | [-> _]]; [split; [exact Hb | lia]|].
    destruct (writeHeader_ok (len b) 128) as [Hok Hh]; [unfold big; lia | auto|].
    split; [apply Forall_app; auto | rewrite len_app; lia]. }
  split; [|exact H2]. split; [exact H1|]. apply Rlp.raw_writeBytes, big_fits. unfold big. lia.
Qed.

Lemma EncodeList_ok items : Forall bytes_ok items -> len (concat items) <= 2 ^ 39 ->
  Rlp.raw_item (Rlp.EncodeList items) /\ len (Rlp.EncodeList items) <= len (concat items) + 9.
Proof.
  intros Hi Hl. rewrite Rlp.EncodeList_write. set (p := concat items) in *. pose proof (len_nonneg p).
  assert (bytes_ok p) as Hp.
  { unfold p. clear -Hi. induction Hi; cbn [concat]; [constructor | apply Forall_app; auto]. }
  unfold Rlp.write_list, Rlp.writeListHeader in *.
  destruct (writeHeader_ok (len p) 192) as [Hok Hh]; [unfold big; lia | auto|].
  assert (len (Rlp.writeHeader (len p) 192 ++ p) <= len p + 9) as H2 by (rewrite len_app; lia).
  split; [|exact H2]. split; [apply Forall_app; auto|].
  apply (Rlp.raw_write_list p), big_fits. unfold Rlp.write_list, Rlp.writeListHeader, big. lia.
Qed.

(** The reference to a node is an item of a bounded size. *)
Lemma hash_len h : hash_ok h -> len h = 32.
Proof. intros [H _]. unfold len. rewrite H. reflexivity. Qed.

Lemma thash_ok t : hash_ok (thash t).
Proof. apply Keccak256_ok. Qed.

Definition item_ok (b : bytes) : Prop := Rlp.raw_item b /\ len b <= max_item + 9.

Lemma tchild_ok c : (forall v, c = TVal v -> bytes_ok v /\ len v <= max_item) -> Rlp.raw_item (tenc c) \/ c = TNil -> item_ok (tchild c).
Proof.
  intros Hv He. unfold item_ok, max_item in *.
  assert (forall e, Rlp.raw_item e -> let r := if len e <? 32 then e else Rlp.EncodeBytes (Keccak256 [e]) in
    Rlp.raw_item r /\ len r <= 2 ^ 32 + 9) as Hgo.
  { intros e Hr. destruct (Z.ltb_spec (len e) 32); [split; [exact Hr | lia]|].
    destruct (EncodeBytes_ok (Keccak256 [e])) as [H1 H2]; [apply Keccak256_ok | rewrite hash_len by apply Keccak256_ok; lia|].
    split; [exact H1|]. rewrite (hash_len (Keccak256 [e])) in H2 by apply Keccak256_ok. lia. }
  destruct c as [|v|k c|ts]; cbn [tchild].
  - split; [|unfold len; cbn [length]; lia]. split; [repeat constructor; unfold byte_ok, Rlp.EmptyString; lia | reflexivity].
  - destruct (Hv v eq_refl) as [Hok Hl]. destruct (EncodeBytes_ok v) as [H1 H2]; [exact Hok | lia|]. split; [exact H1 | lia].
  - apply Hgo. destruct He as [He|]; [exact He | discriminate].
  - apply Hgo. destruct He as [He|]; [exact He | discriminate].
Qed.

Lemma concat_bound (l : list bytes) B : Forall (fun b => len b <= B) l -> len (concat l) <= Z.of_nat (length l) * B.
Proof.
  induction 1 as [|b l Hb Hl IH]; [reflexivity|]. cbn [concat length]. rewrite len_app. lia.
Qed.

Definition depth_ok (d : nat) : Prop := Z.of_nat d <= max_item.

Lemma canon_short_path d k c : canon d (TShort k c) -> short_path k /\ (length k <= d)%nat.
Proof.
  intros H. inversion H; subst.
  - split; [right; exists k0; auto | rewrite length_app; cbn; lia].
  - split; [left; assumption | assumption].
Qed.

Lemma full_children d ts c : canon d (TFull ts) -> c ∈ ts -> c = TNil \/ (exists v, c = TVal v /\ val_ok v) \/
  exists e, (e <= d)%nat /\ canon e c.
Proof.
  intros H Hc. apply canon_full_inv in H as (e & -> & Hl & Hch & Hv & _). apply list_elem_of_lookup in Hc as [i Hi].
  destruct c as [|v|k c|us]; [left; reflexivity|..]; right; destruct (Nat.lt_ge_cases i 16) as [Hlt|Hge];
    try (right; exists e; split; [lia|]; apply (Hch i _ Hi Hlt); discriminate);
    (assert (i = 16%nat) as -> by (apply lookup_lt_Some in Hi; lia));
    (destruct (Hv _ Hi) as (b & Eb & Hb); [discriminate|]); try discriminate.
  left. injection Eb as ->. eauto.
Qed.

Lemma tenc_ok d t : canon d t -> depth_ok d -> Rlp.raw_item (tenc t) /\ len (tenc t) <= big.
Proof.
  intros Ht. induction Ht as [d k v Hk Hv Hd | d k ts Hk Hn Hd Hc IH | d ts Hl Hc IH Hv Ht]; intros Hdep; unfold depth_ok, max_item in *.
  - rewrite tenc_short. destruct (hexPrefix_round (k ++ [16])) as (_ & Hok & Hlen); [right; exists k; auto|].
    destruct Hv as (Hne & Hvo & Hvl). unfold max_item in Hvl.
    assert (len (k ++ [16]) <= 2 ^ 32) by (unfold len; rewrite length_app; cbn; lia).
    destruct (EncodeBytes_ok (hexPrefixEncode (k ++ [16]))) as [H1 H2]; [exact Hok | lia|].
    destruct (EncodeBytes_ok v) as [H3 H4]; [exact Hvo | lia|]. cbn [tchild].
    destruct (EncodeList_ok [Rlp.EncodeBytes (hexPrefixEncode (k ++ [16])); Rlp.EncodeBytes v]) as [H5 H6].
    + repeat constructor; [apply H1 | apply H3].
    + cbn [concat]. rewrite !len_app, (@len_nil Z). lia.
    + split; [exact H5|]. cbn [concat] in H6. rewrite !len_app, (@len_nil Z) in H6. unfold big. lia.
  - rewrite tenc_short. destruct (hexPrefix_round k) as (_ & Hok & Hlen); [left; exact Hk|].
    assert (len k <= 2 ^ 32) by (unfold len; lia).
    destruct (EncodeBytes_ok (hexPrefixEncode k)) as [H1 H2]; [exact Hok | lia|].
    destruct (tchild_ok (TFull ts)) as [H3 H4]; [discriminate | left; apply IH; lia|]. unfold max_item in H4.
    destruct (EncodeList_ok [Rlp.EncodeBytes (hexPrefixEncode k); tchild (TFull ts)]) as [H5 H6].
    + repeat constructor; [apply H1 | apply H3].
    + cbn [concat]. rewrite !len_app, (@len_nil Z). lia.
    + split; [exact H5|]. cbn [concat] in H6. rewrite !len_app, (@len_nil Z) in H6. unfold big. lia.
  - rewrite tenc_full.
    assert (Forall (fun c => item_ok (tchild c)) ts) as Hall.
    { apply Forall_lookup. intros i c Hi. apply tchild_ok.
      - intros v ->. destruct (Nat.lt_ge_cases i 16) as [Hlt|Hge].
        + pose proof (Hc i _ Hi Hlt ltac:(discriminate)) as Hbad. inversion Hbad.
        + assert (i = 16%nat) as -> by (apply lookup_lt_Some in Hi; lia).
          destruct (Hv _ Hi ltac:(discriminate)) as (b & [= ->] & _ & Hb). exact Hb.
      - destruct (Nat.lt_ge_cases i 16) as [Hlt|Hge].
        + destruct (nil_or_canon c d (Hc i c Hi Hlt)) as [->|Hcc]; [auto|]. left. apply (IH i c Hi Hlt (canon_not_nil _ _ Hcc)). lia.
        + assert (i = 16%nat) as -> by (apply lookup_lt_Some in Hi; lia).
          destruct c as [|v|k c|us]; [auto|..]; destruct (Hv _ Hi ltac:(discriminate)) as (b & Eb & Hb); try discriminate.
          injection Eb as ->. left. destruct Hb as (_ & Hb & Hbl). unfold max_item in Hbl. apply EncodeBytes_ok; [exact Hb | lia]. }
    assert (len (concat (map tchild ts)) <= 17 * (max_item + 9)) as Hbound.
    { replace 17 with (Z.of_nat (length (map tchild ts))) by (rewrite length_map, Hl; reflexivity). apply concat_bound, Forall_map.
      eapply Forall_impl; [exact Hall|]. intros c [_ H]. exact H. }
    unfold max_item in Hbound. destruct (EncodeList_ok (map tchild ts)) as [H5 H6].
    + apply Forall_map. eapply Forall_impl; [exact Hall|]. intros c [[H _] _]. exact H.
    + lia.
    + split; [exact H5|]. unfold big. lia.
Qed.
(** ** Decoding what was encoded *)

Lemma children_items d ts : canon d (TFull ts) -> depth_ok d -> Forall (fun c => item_ok (tchild c)) ts.
Proof.
  intros H Hd. apply Forall_forall. intros c Hc. destruct (full_children _ _ _ H Hc) as [-> | [(v & -> & Hv) | (e & He & Hce)]].
  - apply tchild_ok; [discriminate | auto].
  - destruct Hv as (_ & Hb & Hl). apply tchild_ok; [intros w [= <-]; auto|]. left. unfold max_item in Hl. apply EncodeBytes_ok; [exact Hb | lia].
  - apply tchild_ok; [intros v ->; inversion Hce | left; apply (tenc_ok e); [exact Hce | unfold depth_ok in *; lia]].
Qed.

Lemma Split_items items : Forall Rlp.raw_item items -> Rlp.fits (Rlp.EncodeList items) -> Rlp.Split (Rlp.EncodeList items) = Ok items.
Proof.
  intros Hi Hf. rewrite Rlp.EncodeList_write in *. unfold Rlp.Split. rewrite <- (app_nil_r (Rlp.write_list _)).
  rewrite Rlp.list_write_list by (rewrite app_nil_r; exact Hf). cbn [rbind].
  apply Rlp.split_loop_items; auto. apply (Rlp.fits_app (Rlp.writeListHeader (len (concat items)))), Hf.
Qed.

Lemma decode_bytes_round b : Rlp.fits (Rlp.EncodeBytes b) -> decode_bytes (Rlp.EncodeBytes b) = Ok b.
Proof.
  intros Hf. unfold decode_bytes, Rlp.Decode, Rlp.EncodeBytes in *. cbn [Rlp.decodeValue Rlp.is_uint8].
  rewrite <- (app_nil_r (Rlp.writeBytes b)). change (Rlp.is_uint8 (Rlp.TUint 8)) with true. cbv iota.
  rewrite Rlp.bytes_writeBytes by (rewrite app_nil_r; exact Hf). cbn [rbind]. destruct b; reflexivity.
Qed.

Lemma kind_list items : Rlp.fits (Rlp.EncodeList items) -> exists L, Rlp.StreamKind (Rlp.EncodeList items) = Ok (Rlp.KList, L).
Proof.
  intros Hf. rewrite Rlp.EncodeList_write in *. unfold Rlp.write_list, Rlp.writeListHeader in *.
  rewrite (Rlp.kind_header Rlp.KList); [eauto | discriminate|]. apply Rlp.payload_of_fits, (Rlp.fits_app (Rlp.writeHeader (len (concat items)) 192)), Hf.
Qed.

Lemma kind_hash h : hash_ok h -> exists k L, Rlp.StreamKind (Rlp.EncodeBytes h) = Ok (k, L) /\ k <> Rlp.KList.
Proof.
  intros Hh. pose proof (hash_len h Hh) as Hl. unfold Rlp.EncodeBytes.
  destruct (Rlp.writeBytes_cases h) as [(c & -> & _) | [-> _]]; [discriminate Hl|].
  rewrite (Rlp.kind_header Rlp.KString); [eexists _, _; split; [reflexivity | discriminate] | discriminate|].
  unfold Rlp.payload_len, max_int64. lia.
Qed.

Definition is_branch (t : tree) : Prop := match t with TShort _ _ | TFull _ => True | _ => False end.

Lemma canon_branch d t : canon d t -> is_branch t.
Proof. destruct 1; exact I. Qed.

Lemma tenc_list t : is_branch t -> exists items, tenc t = Rlp.EncodeList items.
Proof. destruct t; intros H; try contradiction; eexists; reflexivity. Qed.

Lemma tenc_nonempty t : is_branch t -> 0 < len (tenc t).
Proof.
  intros H. destruct (tenc_list t H) as [items ->]. rewrite Rlp.EncodeList_write.
  pose proof (Rlp.write_list_nonempty (concat items)) as Hne. destruct (Rlp.write_list _) as [|x r]; [contradiction|].
  rewrite len_cons. pose proof (len_nonneg r). lia.
Qed.

Lemma decodeRef_nil dec : decodeRef dec [Rlp.EmptyString] = Ok NilNode.
Proof. reflexivity. Qed.

Lemma decodeRef_branch dec d c : canon d c -> depth_ok d ->
  (len (tenc c) < 32 -> dec (tenc c) = Ok (shallow None c)) -> decodeRef dec (tchild c) = Ok (tref c).
Proof.
  intros Hc Hd Hdec. destruct (tenc_ok d c Hc Hd) as [_ Hb]. pose proof (canon_branch _ _ Hc) as Hbr.
  assert (tchild c = (if len (tenc c) <? 32 then tenc c else Rlp.EncodeBytes (thash c)) /\
          tref c = (if len (tenc c) <? 32 then shallow None c else HashNode (thash c))) as [-> ->]
    by (destruct c; try contradiction; split; reflexivity).
  unfold decodeRef. destruct (Z.ltb_spec (len (tenc c)) 32) as [Hs|Hs].
  - pose proof (tenc_nonempty c Hbr). destruct (Z.eqb_spec (len (tenc c)) 0); [lia|].
    destruct (tenc_list c Hbr) as [items Ei]. destruct (kind_list items) as [L Hk]; [rewrite <- Ei; apply big_fits, Hb|].
    rewrite Ei, Hk. rewrite Ei in Hs. cbn [lift rbind]. destruct (Z.leb_spec 32 (len (Rlp.EncodeList items))); [lia|].
    rewrite <- Ei. apply Hdec. rewrite Ei. exact Hs.
  - pose proof (thash_ok c) as Hh. destruct (kind_hash _ Hh) as (k & L & Hk & Hnl).
    destruct (EncodeBytes_ok (thash c)) as [_ Hlen]; [apply Hh | rewrite (hash_len _ Hh); lia|]. rewrite (hash_len _ Hh) in Hlen.
    assert ((len (Rlp.EncodeBytes (thash c)) =? 0) = false) as ->.
    { apply Z.eqb_neq. pose proof (Rlp.writeBytes_nonempty (thash c)) as Hne. unfold Rlp.EncodeBytes.
      destruct (Rlp.writeBytes _) as [|x r]; [contradiction|]. rewrite len_cons. pose proof (len_nonneg r). lia. }
    rewrite Hk. cbn [lift rbind]. rewrite decode_bytes_round by (apply big_fits; unfold big; lia). cbn [rbind].
    rewrite (hash_len _ Hh). destruct k; [reflexivity | reflexivity | contradiction].
Qed.

Lemma mapR_map {A B} (f : A -> result error B) g (l : list A) : Forall (fun x => f x = Ok (g x)) l -> mapR f l = Ok (map g l).
Proof. induction 1 as [|x l Hx Hl IH]; [reflexivity|]. cbn [mapR map]. rewrite Hx. cbn [rbind]. rewrite IH. reflexivity. Qed.

Lemma mapR_compose {A B C} (f : B -> result error C) (g : A -> B) (l : list A) : mapR f (map g l) = mapR (fun x => f (g x)) l.
Proof. induction l as [|x l IH]; [reflexivity|]. cbn [map mapR]. rewrite IH. reflexivity. Qed.

(** A child is shorter than its branch. *)
Lemma item_shorter items b : b ∈ items -> len b < len (Rlp.EncodeList items).
Proof.
  intros Hb. rewrite Rlp.EncodeList_write. unfold Rlp.write_list. rewrite len_app.
  assert (0 < len (Rlp.writeListHeader (len (concat items)))) as Hh.
  { unfold Rlp.writeListHeader, Rlp.writeHeader. destruct (_ <? 56); rewrite len_cons; apply Z.lt_le_trans with (1 + 0); try lia;
      apply Zplus_le_compat_l, len_nonneg. }
  assert (len b <= len (concat items)); [|lia]. clear Hh. induction items as [|c items IH]; [apply elem_of_nil in Hb; contradiction|].
  cbn [concat]. rewrite len_app. pose proof (len_nonneg (concat items)). pose proof (len_nonneg c).
  apply elem_of_cons in Hb as [->|Hb]; [lia|]. specialize (IH Hb). lia.
Qed.

Lemma tchild_inline c : is_branch c -> len (tenc c) < 32 -> tchild c = tenc c.
Proof.
  intros Hb Hl. assert (tchild c = if len (tenc c) <? 32 then tenc c else Rlp.EncodeBytes (thash c)) as -> by (destruct c; try contradiction; reflexivity).
  destruct (Z.ltb_spec (len (tenc c)) 32); [reflexivity | lia].
Qed.

Lemma list17 {A} (l : list A) : length l = 17%nat -> exists x, l !! 16%nat = Some x /\ l = take 16 l ++ [x].
Proof.
  intros H. destruct (lookup_lt_is_Some_2 l 16) as [x Hx]; [lia|]. exists x. split; [exact Hx|].
  rewrite <- (take_drop 16 l) at 1. f_equal. rewrite (drop_S l x 16) by exact Hx. rewrite drop_ge by lia. reflexivity.
Qed.

Lemma decode_full dec hash d ts : canon (S d) (TFull ts) -> depth_ok (S d) ->
  (forall c, c ∈ ts -> is_branch c -> len (tenc c) < 32 -> dec (tenc c) = Ok (shallow None c)) ->
  decodeFull dec hash (map tchild ts) = Ok (shallow hash (TFull ts)).
Proof.
  intros H Hd Hdec. pose proof H as Hf. apply canon_full_inv in H as (e & [= <-] & Hl & Hc & Hv & _).
  destruct (list17 ts Hl) as (v & Hv16 & Ets). unfold decodeFull. rewrite shallow_full, firstn_map, mapR_compose.
  rewrite (mapR_map _ tref).
  2: { apply Forall_lookup. intros i c Hi. apply lookup_take_Some in Hi as [Hi Hlt].
       destruct (nil_or_canon c d (Hc i c Hi Hlt)) as [->|Hcc]; [apply decodeRef_nil|].
       apply (decodeRef_branch dec d); [exact Hcc | unfold depth_ok in *; lia|].
       apply Hdec; [apply list_elem_of_lookup; eauto | apply (canon_branch _ _ Hcc)]. }
  cbn [rbind]. erewrite (nth_lookup_Some (map tchild ts) 16%nat []) by (rewrite list_lookup_fmap, Hv16; reflexivity).
  assert (decode_bytes (tchild v) = Ok (match v with TVal b => b | _ => [] end) /\
    tref v = (if 0 <? len (match v with TVal b => b | _ => [] end) then ValueNode (match v with TVal b => b | _ => [] end) else NilNode)) as [-> Etref].
  { destruct v as [|b|k c|us]; [split; reflexivity|..]; destruct (Hv _ Hv16 ltac:(discriminate)) as (b' & Eb & Hne & Hb & Hbl); try discriminate.
    injection Eb as <-. unfold max_item in Hbl. destruct (EncodeBytes_ok b Hb ltac:(lia)) as [_ Hlb].
    cbn [tchild tref]. rewrite decode_bytes_round by (apply big_fits; unfold big; lia). split; [reflexivity|].
    destruct b as [|x r]; [contradiction|]. rewrite len_cons. pose proof (len_nonneg r). destruct (Z.ltb_spec 0 (1 + len r)); [reflexivity | lia]. }
  cbn [rbind]. rewrite Ets at 2. rewrite map_app. cbn [map]. rewrite Etref. reflexivity.
Qed.

Local Open Scope go_scope.

(** Decoding a short node comes down to decoding its second item. *)
Lemma decode_short fuel hash k item : short_path k -> len k <= 2 ^ 32 -> Rlp.raw_item item ->
  len (Rlp.EncodeList [Rlp.EncodeBytes (hexPrefixEncode k); item]) <= big ->
  decode_loop (S fuel) hash (Rlp.EncodeList [Rlp.EncodeBytes (hexPrefixEncode k); item]) =
  if terminated k then let! v := decode_bytes item in Ok (ShortNode k (ValueNode v) (mkFlag hash false true))
  else let! c := decodeRef (decode_loop fuel None) item in Ok (ShortNode k c (mkFlag hash false true)).
Proof.
  intros Hk Hl Hi Hb. destruct (hexPrefix_round k Hk) as (Hdec & Hok & Hlen).
  destruct (EncodeBytes_ok (hexPrefixEncode k)) as [H1 H2]; [exact Hok | lia|]. cbn [decode_loop].
  assert (0 < len (Rlp.EncodeList [Rlp.EncodeBytes (hexPrefixEncode k); item])) as Hpos.
  { rewrite Rlp.EncodeList_write. pose proof (Rlp.write_list_nonempty (concat [Rlp.EncodeBytes (hexPrefixEncode k); item])) as Hne.
    destruct (Rlp.write_list _) as [|x r]; [contradiction|]. rewrite len_cons. pose proof (len_nonneg r). lia. }
  destruct (Z.eqb_spec (len (Rlp.EncodeList [Rlp.EncodeBytes (hexPrefixEncode k); item])) 0); [lia|].
  rewrite Split_items; [|constructor; [exact H1 | constructor; [exact Hi | constructor]] | apply big_fits, Hb].
  cbn [lift rbind]. unfold decodeShort. rewrite decode_bytes_round by (apply big_fits; unfold big; lia). cbn [rbind].
  rewrite Hdec. reflexivity.
Qed.

Lemma decode_leaf d k v fuel hash : canon d (TShort k (TVal v)) -> depth_ok d -> len (tenc (TShort k (TVal v))) < Z.of_nat fuel ->
  decode_loop fuel hash (tenc (TShort k (TVal v))) = Ok (shallow hash (TShort k (TVal v))).
Proof.
  intros H Hd Hfuel. destruct (path_tget_leaf _ _ _ H) as [Hk (_ & Hvo & Hvl)]. destruct (canon_short_path _ _ _ H) as [_ Hlk].
  destruct (tenc_ok _ _ H Hd) as [_ Hbig]. pose proof (len_nonneg (tenc (TShort k (TVal v)))). destruct fuel as [|fuel]; [lia|].
  unfold max_item in Hvl. destruct (EncodeBytes_ok v) as [H3 H4]; [exact Hvo | lia|].
  rewrite tenc_short in *. cbn [tchild] in *.
  rewrite decode_short; [|right; exact Hk | unfold len, depth_ok, max_item in *; lia | exact H3 | exact Hbig].
  destruct (terminated_path k Hk) as [-> _]. rewrite decode_bytes_round by (apply big_fits; unfold big; lia). reflexivity.
Qed.

Lemma decode_ext d k ts fuel hash : canon d (TShort k (TFull ts)) -> depth_ok d -> len (tenc (TShort k (TFull ts))) < Z.of_nat fuel ->
  (forall fuel, len (tenc (TFull ts)) < Z.of_nat fuel -> decode_loop fuel None (tenc (TFull ts)) = Ok (shallow None (TFull ts))) ->
  decode_loop fuel hash (tenc (TShort k (TFull ts))) = Ok (shallow hash (TShort k (TFull ts))).
Proof.
  intros H Hdep Hfuel IH. inversion H as [|d' k' ts' Hk Hn Hd Hc|]; subst. destruct (tenc_ok _ _ H Hdep) as [_ Hbig].
  pose proof (len_nonneg (tenc (TShort k (TFull ts)))). destruct fuel as [|fuel]; [lia|].
  assert (depth_ok (d - length k)) as Hdep' by (unfold depth_ok in *; lia).
  destruct (tchild_ok (TFull ts)) as [H3 _]; [discriminate | left; apply (tenc_ok _ _ Hc Hdep')|].
  rewrite tenc_short in *. rewrite decode_short; [|left; exact Hk | unfold len, depth_ok, max_item in *; lia | exact H3 | exact Hbig].
  rewrite (terminated_nibs k Hk), (decodeRef_branch _ _ _ Hc Hdep'); [reflexivity|]. intros Hs. apply IH.
  pose proof (item_shorter [Rlp.EncodeBytes (hexPrefixEncode k); tchild (TFull ts)] (tchild (TFull ts))
    ltac:(apply elem_of_cons; right; apply elem_of_cons; auto)) as Hsh.
  rewrite (tchild_inline (TFull ts) I Hs) in Hsh at 1. lia.
Qed.

(** A stored node decodes to the node it encodes. *)
Lemma decode_shallow d t : canon d t -> depth_ok d -> forall fuel hash, len (tenc t) < Z.of_nat fuel ->
  decode_loop fuel hash (tenc t) = Ok (shallow hash t).
Proof.
  intros Ht. induction Ht as [d k v Hk Hv Hd | d k ts Hk Hn Hd Hc IH | d ts Hl Hc IH Hv Htwo]; intros Hdep fuel hash Hfuel.
  - apply (decode_leaf d); [constructor; assumption | exact Hdep | exact Hfuel].
  - apply (decode_ext d); [constructor; assumption | exact Hdep | exact Hfuel|].
    intros f Hf. apply IH; [unfold depth_ok in *; lia | exact Hf].
  - assert (canon (S d) (TFull ts)) as H0 by (constructor; assumption).
    destruct (tenc_ok _ _ H0 Hdep) as [_ Hbig]. pose proof (tenc_nonempty (TFull ts) I) as Hpos.
    destruct fuel as [|fuel]; [lia|]. cbn [decode_loop]. destruct (Z.eqb_spec (len (tenc (TFull ts))) 0); [lia|].
    rewrite tenc_full in *. rewrite Split_items; [| |apply big_fits; exact Hbig].
    2: { apply Forall_map. eapply Forall_impl; [apply (children_items (S d) ts H0 Hdep)|]. intros c [H _]. exact H. }
    cbn [lift rbind]. transitivity (decodeFull (decode_loop fuel None) hash (map tchild ts)).
    { assert (length (map tchild ts) = 17%nat) as E by (rewrite length_map; exact Hl).
      destruct (map tchild ts) as [|x1 [|x2 [|x3 r]]]; cbn [length] in *; try discriminate. rewrite E. reflexivity. }
    apply (decode_full _ _ d); [exact H0 | exact Hdep|].
    intros c Hin Hbr Hs. apply list_elem_of_lookup in Hin as Hin'. destruct Hin' as [i Hi].
    assert (len (tenc c) < Z.of_nat fuel) as Hlt.
    { pose proof (item_shorter (map tchild ts) (tchild c) ltac:(apply list_elem_of_fmap; eauto)) as Hsh.
      rewrite (tchild_inline c Hbr Hs) in Hsh. lia. }
    destruct (Nat.lt_ge_cases i 16) as [Hi16|Hi16].
    + apply (IH i c Hi Hi16); [destruct c; try contradiction; discriminate | unfold depth_ok in *; lia | exact Hlt].
    + assert (i = 16%nat) as -> by (apply lookup_lt_Some in Hi; lia).
      destruct c; try contradiction; destruct (Hv _ Hi ltac:(discriminate)) as (b & Eb & _); discriminate.
Qed.

End Encoding.
End Enc.
