(* ===== verification/TrieOps.v ===== *)
(** The trie operations implement a finite map: lookup, insertion, deletion,
    hashing, committing and reloading of src/trie, over the trees of
    [TrieTree] and the encoding of [TrieEncoding]. *)

From stdpp Require Import base list gmap.
From Stdlib Require Import ZArith Lia.
From S2P Require Import Prelude RLP Common Trie TrieTree TrieEncoding.
Local Open Scope Z_scope.
Local Open Scope go_scope.

Module Ops.
Import Mpt Tree Enc.

Section Ops.
Context `{K : Keccak}.

(** * Nodes and the trees they stand for *)

Definition db_get (db : option Store) (k : bytes) : option bytes :=
  match db with Some st => st !! k | None => None end.

Inductive sub : tree -> tree -> Prop :=
| sub_refl t : sub t t
| sub_short u k c : sub u c -> sub u (TShort k c)
| sub_full u ts i c : ts !! i = Some c -> sub u c -> sub u (TFull ts).

(** Every node below that is referenced by hash is in the store. *)
Definition stored (db : option Store) (t : tree) : Prop :=
  forall u, sub u t -> is_branch u -> 32 <= len (tenc u) -> db_get db (nodeKey (thash u)) = Some (tenc u).

(** Cached hashes are right and persisted nodes are in the store; only a root
    may be smaller than a hash reference ([top]). *)
Definition flag_ok (db : option Store) (top : bool) (f : nodeFlag) (t : tree) : Prop :=
  (forall h, cached_hash f = Some h -> h = thash t /\ (top = false -> 32 <= len (tenc t))) /\
  (forall h, stored_flag f = true -> f_hash f = Some h -> stored db t /\ db_get db (nodeKey h) = Some (tenc t)) /\
  (f_persisted f = true -> f_dirty f = false /\ (f_hash f = None -> len (tenc t) < 32)).

Inductive rep (db : option Store) : bool -> node -> tree -> Prop :=
| rep_nil top : rep db top NilNode TNil
| rep_value top v : rep db top (ValueNode v) (TVal v)
| rep_short top k c t f : rep db false c t -> flag_ok db top f (TShort k t) -> rep db top (ShortNode k c f) (TShort k t)
| rep_full top cs ts f : length cs = length ts ->
    (forall i c t, cs !! i = Some c -> ts !! i = Some t -> rep db false c t) ->
    flag_ok db top f (TFull ts) -> rep db top (FullNode cs f) (TFull ts)
| rep_hash top t : is_branch t -> stored db t -> 32 <= len (tenc t) -> rep db top (HashNode (thash t)) t.

Lemma flag_new db top t : flag_ok db top newFlag t.
Proof. split; [|split]; discriminate. Qed.

(** An inlined node was decoded with its parent. *)
Lemma flag_none db top t : len (tenc t) < 32 -> flag_ok db top (mkFlag None false true) t.
Proof. intros H. split; [|split]; try discriminate. auto. Qed.

Lemma flag_loaded db top t : stored db t -> db_get db (nodeKey (thash t)) = Some (tenc t) -> (top = false -> 32 <= len (tenc t)) ->
  flag_ok db top (mkFlag (Some (thash t)) false true) t.
Proof. intros Hs Hg Hl. split; [intros h [= <-]; auto|]. split; [intros h _ [= <-]; auto | split; [reflexivity | discriminate]]. Qed.

Lemma flag_top db f t : flag_ok db false f t -> forall top, flag_ok db top f t.
Proof. intros (H1 & H2 & H3) top. split; [|split; assumption]. intros h Hh. destruct (H1 h Hh). auto. Qed.

Lemma rep_top db n t : rep db false n t -> forall top, rep db top n t.
Proof. intros H top. inversion H; subst; constructor; eauto using flag_top. Qed.

Lemma stored_short db k c : stored db (TShort k c) -> stored db c.
Proof. intros H u Hu. apply H. constructor. exact Hu. Qed.

Lemma stored_full db ts i c : stored db (TFull ts) -> ts !! i = Some c -> stored db c.
Proof. intros H Hi u Hu. apply H. econstructor; eassumption. Qed.

(** A child read back from its parent's encoding. *)
Lemma rep_tref db d c : (c = TNil \/ (exists v, c = TVal v) \/ canon d c) -> stored db c -> rep db false (tref c) c.
Proof.
  intros Hc Hs. destruct Hc as [-> | [(v & ->) | Hc]]; [constructor..|].
  revert Hs. induction Hc as [d k v Hk Hv Hd | d k ts Hk Hn Hd Hc IH | d ts Hl Hc IH Hv Ht]; intros Hs; cbn [tref].
  - destruct (Z.ltb_spec (len (tenc (TShort (k ++ [16]) (TVal v)))) 32); [|constructor; [exact I | exact Hs | lia]].
    rewrite shallow_short. constructor; [constructor | apply flag_none; assumption].
  - destruct (Z.ltb_spec (len (tenc (TShort k (TFull ts)))) 32); [|constructor; [exact I | exact Hs | lia]].
    rewrite shallow_short. constructor; [apply IH, (stored_short _ _ _ Hs) | apply flag_none; assumption].
  - destruct (Z.ltb_spec (len (tenc (TFull ts))) 32); [|constructor; [exact I | exact Hs | lia]].
    rewrite shallow_full. constructor; [apply length_map| |apply flag_none; assumption].
    intros i c t Hci Hti. rewrite list_lookup_fmap, Hti in Hci. injection Hci as <-.
    destruct (Nat.lt_ge_cases i 16) as [Hlt|Hge].
    + destruct (nil_or_canon t d (Hc i t Hti Hlt)) as [->|Hcc]; [constructor|].
      apply (IH i t Hti Hlt (canon_not_nil _ _ Hcc)), (stored_full _ _ _ _ Hs Hti).
    + assert (i = 16%nat) as -> by (apply lookup_lt_Some in Hti; lia).
      destruct t; [constructor|..]; destruct (Hv _ Hti ltac:(discriminate)) as (b & Eb & _); try discriminate. constructor.
Qed.

(** A node read back from the store, as a root or by reference. *)
Lemma rep_shallow db d t : canon d t -> stored db t -> db_get db (nodeKey (thash t)) = Some (tenc t) ->
  rep db true (shallow (Some (thash t)) t) t /\ (32 <= len (tenc t) -> forall top, rep db top (shallow (Some (thash t)) t) t).
Proof.
  intros Hc Hs Hg.
  assert (forall top, (top = false -> 32 <= len (tenc t)) -> rep db top (shallow (Some (thash t)) t) t) as Hgo.
  { intros top Htop.
    assert (flag_ok db top (mkFlag (Some (thash t)) false true) t) as Hf by (apply flag_loaded; assumption).
    destruct Hc as [d k v Hk Hv Hd | d k ts Hk Hn Hd Hc | d ts Hl Hc Hv Ht].
    - rewrite shallow_short in *. constructor; [constructor | exact Hf].
    - rewrite shallow_short in *. constructor; [apply (rep_tref db (d - length k)); [auto | apply (stored_short _ _ _ Hs)] | exact Hf].
    - rewrite shallow_full in *. constructor; [apply length_map| |exact Hf].
      intros i c t Hci Hti. rewrite list_lookup_fmap, Hti in Hci. injection Hci as <-.
      apply (rep_tref db d); [|apply (stored_full _ _ _ _ Hs Hti)]. destruct (Nat.lt_ge_cases i 16) as [Hlt|Hge].
      + destruct (nil_or_canon t d (Hc i t Hti Hlt)); auto.
      + assert (i = 16%nat) as -> by (apply lookup_lt_Some in Hti; lia).
        destruct t; [auto|..]; destruct (Hv _ Hti ltac:(discriminate)) as (b & Eb & _); try discriminate. eauto. }
  split; [apply Hgo; discriminate | intros Hl top; apply Hgo; auto].
Qed.

Lemma decodeNode_tenc d t h : canon d t -> depth_ok d -> decodeNode h (tenc t) = Ok (shallow h t).
Proof. intros Hc Hd. apply (decode_shallow d); [exact Hc | exact Hd | unfold len; lia]. Qed.

Lemma resolve_stored db d t : canon d t -> depth_ok d -> stored db t -> 32 <= len (tenc t) ->
  resolveHash db (thash t) = Ok (shallow (Some (thash t)) t) /\ forall top, rep db top (shallow (Some (thash t)) t) t.
Proof.
  intros Hc Hd Hs Hl. pose proof (Hs t (sub_refl t) (canon_branch _ _ Hc) Hl) as Hg.
  split; [|apply (rep_shallow db d); assumption].
  unfold resolveHash, db_get in *. destruct db as [st|]; [|discriminate]. rewrite Hg. apply (decodeNode_tenc d); assumption.
Qed.

Definition is_hash (n : node) : bool := match n with HashNode _ => true | _ => false end.

Lemma shallow_not_hash h t : is_hash (shallow h t) = false.
Proof. destruct t; reflexivity. Qed.

(** * Lookup *)

(** Keys that can be asked of the subtree [t]. *)
Definition asks (d : nat) (t : tree) (key : bytes) : Prop :=
  t = TNil \/ (exists v, t = TVal v /\ key = []) \/ (canon d t /\ path key).

Lemma child_lookup cs x : child cs x = default NilNode (cs !! Z.to_nat x).
Proof. unfold child. rewrite nth_lookup. reflexivity. Qed.

Lemma full_child db top cs ts f x : rep db top (FullNode cs f) (TFull ts) -> length ts = 17%nat -> 0 <= x <= 16 ->
  exists t, ts !! Z.to_nat x = Some t /\ rep db false (child cs x) t.
Proof.
  intros H Hl Hx. inversion H; subst. destruct (lookup_lt_is_Some_2 ts (Z.to_nat x)) as [t Ht]; [lia|].
  exists t. split; [exact Ht|]. rewrite child_lookup. destruct (lookup_lt_is_Some_2 cs (Z.to_nat x)) as [c Hc]; [lia|].
  rewrite Hc. cbn. eauto.
Qed.

Lemma asks_child d ts x r t : canon (S d) (TFull ts) -> path (x :: r) -> ts !! Z.to_nat x = Some t -> asks d t r.
Proof.
  intros H Hp Ht. apply canon_full_inv in H as (e & [= <-] & Hl & Hc & Hv & _). apply path_inv in Hp as [[Hx Hr] | [-> ->]].
  - destruct (nil_or_canon t d (Hc _ t Ht ltac:(lia))) as [->|Hcc]; [left; reflexivity | right; right; auto].
  - change (Z.to_nat 16) with 16%nat in Ht. destruct t; [left; reflexivity|..];
      destruct (Hv _ Ht ltac:(discriminate)) as (b & Eb & _); try discriminate. right; left. eauto.
Qed.

Lemma path_range x r : path (x :: r) -> 0 <= x <= 16.
Proof. intros H. apply path_inv in H as [[H _] | [-> _]]; lia. Qed.

Lemma rep_set_child db cs ts x c t top f : length ts = 17%nat -> rep db top (FullNode cs f) (TFull ts) -> 0 <= x <= 16 ->
  rep db false c t -> flag_ok db top newFlag (TFull (<[Z.to_nat x := t]> ts)) ->
  rep db top (FullNode (set_child cs x c) newFlag) (TFull (<[Z.to_nat x := t]> ts)).
Proof.
  intros Hl H Hx Hc Hf. inversion H as [| | |top' cs' ts' f' Hlen Hrep Hfl|]; subst. constructor; [|..|exact Hf].
  - unfold set_child. rewrite !length_insert. exact Hlen.
  - intros i c' t' Hci Hti. unfold set_child in Hci. destruct (decide (Z.to_nat x = i)) as [<-|Hne].
    + rewrite list_lookup_insert_eq in Hci by lia. rewrite list_lookup_insert_eq in Hti by lia. injection Hci as <-. injection Hti as <-. exact Hc.
    + rewrite list_lookup_insert_ne in Hci by exact Hne. rewrite list_lookup_insert_ne in Hti by exact Hne. eauto.
Qed.

Lemma get_mismatch k key : (len key <? len k) || negb (bool_decide (k = take (length k) key)) =
  match strip k key with Some _ => false | None => true end.
Proof.
  rewrite strip_spec. case_bool_decide as H1; case_bool_decide as H2; try congruence.
  - rewrite orb_false_r. apply Z.ltb_ge. rewrite H1 at 1. unfold len. rewrite length_take. lia.
  - apply orb_true_r.
Qed.

Lemma get_spec db d key : forall fuel top n t, depth_ok d -> rep db top n t -> asks d t key ->
  (2 * length key + (if is_hash n then 2 else 1) <= fuel)%nat ->
  exists n' did, get fuel db n key = Ok (default [] (tget t key), n', did) /\ rep db top n' t.
Proof.
  intros fuel. revert d key. induction fuel as [|fuel IH]; intros d key top n t Hd Hrep Hask Hfuel; [destruct (is_hash n); lia|].
  cbn [get]. destruct Hrep as [top|top v|top k c t f Hc Hf|top cs ts f Hlen Hcs Hf|top t Hb Hst Hbig]; cbn [is_hash] in Hfuel.
  - exists NilNode, false. split; [reflexivity | constructor].
  - destruct Hask as [E | [(w & [= <-] & ->) | [Hc _]]]; [discriminate| |inversion Hc].
    exists (ValueNode v), false. split; [reflexivity | constructor].
  - destruct Hask as [E | [(w & E & _) | [Hcan Hp]]]; try discriminate. rewrite get_mismatch. cbn [tget].
    destruct (strip k key) as [r|] eqn:Es; [|exists (ShortNode k c f), false; split; [reflexivity | constructor; assumption]].
    apply strip_Some in Es. subst key. rewrite drop_app_length.
    assert (asks (d - length k) t r /\ (length k > 0)%nat) as [Hask Hk].
    { inversion Hcan as [d' k' v' Hk' Hv' Hd' | d' k' ts' Hk' Hn' Hd' Hc' |]; subst.
      - split; [|rewrite length_app; cbn; lia]. right; left. exists v'. split; [reflexivity|].
        apply (path_prefix (k' ++ [16])); [exists k'; auto | exact Hp].
      - split; [|destruct k; [contradiction | cbn; lia]]. right; right. split; [exact Hc'|]. apply (nibs_not_path k); assumption. }
    rewrite length_app in Hfuel.
    destruct (IH (d - length k)%nat r false c t) as (n' & did & -> & Hn'); [unfold depth_ok in *; lia | exact Hc | exact Hask | destruct (is_hash c); lia|].
    cbn [rbind]. eexists _, did. split; [reflexivity|]. destruct did; constructor; assumption.
  - destruct Hask as [E | [(w & E & _) | [Hcan Hp]]]; try discriminate. pose proof Hcan as H0.
    apply canon_full_inv in H0 as (e & -> & Hl & _). destruct key as [|x r]; [destruct (path_nonempty _ Hp eq_refl)|].
    assert (rep db top (FullNode cs f) (TFull ts)) as Hfull by (constructor; assumption).
    destruct (full_child _ _ _ _ _ _ Hfull Hl (path_range _ _ Hp)) as (t & Ht & Hct). rewrite tget_full, Ht.
    pose proof (asks_child _ _ _ _ _ Hcan Hp Ht) as Hask. cbn [length] in Hfuel.
    destruct (IH e r false (child cs x) t) as (n' & did & -> & Hn'); [unfold depth_ok in *; lia | exact Hct | exact Hask | destruct (is_hash (child cs x)); lia|].
    cbn [rbind]. eexists _, did. split; [reflexivity|]. destruct did; [|exact Hfull].
    assert (ts = <[Z.to_nat x := t]> ts) as Ets by (symmetry; apply list_insert_id, Ht).
    pose proof (rep_set_child db cs ts x n' t top f Hl Hfull (path_range _ _ Hp) Hn' (flag_new _ _ _)) as Hset. rewrite <- Ets in Hset.
    inversion Hset; subst. constructor; assumption.
  - destruct Hask as [-> | [(w & -> & _) | [Hcan Hp]]]; [contradiction..|].
    destruct (resolve_stored db d t Hcan Hd Hst Hbig) as [-> Hr]. cbn [rbind].
    destruct (IH d key top (shallow (Some (thash t)) t) t) as (n' & did & -> & Hn'); [exact Hd | apply Hr | right; right; auto | rewrite shallow_not_hash; lia|].
    eexists _, true. split; [reflexivity | exact Hn'].
Qed.
(** * Insertion *)

Lemma cpl_spec key : forall k, exists p r s, key = p ++ r /\ k = p ++ s /\ length p = commonPrefixLen key k /\
  match r, s with x :: _, y :: _ => x <> y | _, _ => True end.
Proof.
  induction key as [|x key IH]; intros k; [exists [], [], k; auto|]. destruct k as [|y k]; [exists [], (x :: key), []; auto|].
  cbn [commonPrefixLen]. destruct (Z.eqb_spec x y) as [->|Hne]; [|exists [], (x :: key), (y :: k); auto].
  destruct (IH k) as (p & r & s & -> & -> & Hl & Hrs). exists (y :: p), r, s. cbn [app length]. auto.
Qed.

(** An entry a branch may hold at [x]. *)
Definition entry_ok (d : nat) (x : Z) (t : tree) : Prop :=
  t <> TNil /\ (x < 16 -> canon d t) /\ (x = 16 -> exists b, t = TVal b /\ val_ok b).

Lemma full_update d ts x t : canon (S d) (TFull ts) -> 0 <= x <= 16 -> entry_ok d x t -> canon (S d) (TFull (<[Z.to_nat x := t]> ts)).
Proof.
  intros H Hx (Hne & Hlt & H16). apply canon_full_inv in H as (e & [= <-] & Hl & Hc & Hv & (i & j & a & b & Hij & Hi & Hj & Ha & Hb)).
  constructor.
  - rewrite length_insert. exact Hl.
  - intros m u Hm Hlm Hu. destruct (decide (Z.to_nat x = m)) as [<-|Hn].
    + rewrite list_lookup_insert_eq in Hm by lia. injection Hm as <-. apply Hlt. lia.
    + rewrite list_lookup_insert_ne in Hm by exact Hn. eauto.
  - intros u Hm Hu. destruct (decide (Z.to_nat x = 16%nat)) as [E|Hn].
    + rewrite E, list_lookup_insert_eq in Hm by lia. injection Hm as <-. apply H16. lia.
    + rewrite list_lookup_insert_ne in Hm by exact Hn. eauto.
  - destruct (decide (Z.to_nat x = i)) as [<-|Hni].
    + exists (Z.to_nat x), j, t, b. rewrite list_lookup_insert_eq by lia. rewrite list_lookup_insert_ne by exact Hij. auto.
    + exists i, (Z.to_nat x), a, t. rewrite list_lookup_insert_ne by exact Hni. rewrite list_lookup_insert_eq by lia. auto.
Qed.

Lemma tget_update ts x t z q : length ts = 17%nat -> 0 <= x <= 16 -> 0 <= z <= 16 ->
  tget (TFull (<[Z.to_nat x := t]> ts)) (z :: q) = if decide (z = x) then tget t q else tget (TFull ts) (z :: q).
Proof.
  intros Hl Hx Hz. rewrite !tget_full. destruct (decide (z = x)) as [->|Hne].
  - rewrite list_lookup_insert_eq by lia. reflexivity.
  - rewrite list_lookup_insert_ne by lia. reflexivity.
Qed.

(** The branch that takes over where two paths part. *)
Definition nils : list tree := repeat TNil 17.
Definition fork (x y : Z) (b a : tree) : tree := TFull (<[Z.to_nat x := b]> (<[Z.to_nat y := a]> nils)).

Lemma nils_lookup i t : nils !! i = Some t -> t = TNil.
Proof. intros H. unfold nils in H. apply list_elem_of_lookup_2 in H. apply list_elem_of_In, repeat_spec in H. exact H. Qed.

Lemma fork_get x y b a z q : 0 <= x <= 16 -> 0 <= y <= 16 -> 0 <= z <= 16 -> x <> y ->
  tget (fork x y b a) (z :: q) = if decide (z = x) then tget b q else if decide (z = y) then tget a q else None.
Proof.
  intros Hx Hy Hz Hxy. unfold fork. rewrite tget_update by (rewrite ?length_insert; auto). destruct (decide (z = x)); [reflexivity|].
  rewrite tget_update by auto. destruct (decide (z = y)); [reflexivity|]. rewrite tget_full.
  destruct (nils !! Z.to_nat z) as [t|] eqn:E; [|reflexivity]. apply nils_lookup in E. subst. reflexivity.
Qed.

Lemma fork_canon d x y b a : 0 <= x <= 16 -> 0 <= y <= 16 -> x <> y -> entry_ok d x b -> entry_ok d y a -> canon (S d) (fork x y b a).
Proof.
  intros Hx Hy Hxy (Hb & Hblt & Hb16) (Ha & Halt & Ha16).
  assert (length nils = 17%nat) as Hl by reflexivity.
  assert (forall i t, <[Z.to_nat x := b]> (<[Z.to_nat y := a]> nils) !! i = Some t -> t <> TNil ->
    (i = Z.to_nat x /\ t = b) \/ (i = Z.to_nat y /\ t = a)) as Hcases.
  { intros i t Hi Ht. destruct (decide (Z.to_nat x = i)) as [<-|Hnx].
    - rewrite list_lookup_insert_eq in Hi by (rewrite length_insert; lia). injection Hi as <-. auto.
    - rewrite list_lookup_insert_ne in Hi by exact Hnx. destruct (decide (Z.to_nat y = i)) as [<-|Hny].
      + rewrite list_lookup_insert_eq in Hi by lia. injection Hi as <-. auto.
      + rewrite list_lookup_insert_ne in Hi by exact Hny. apply nils_lookup in Hi. contradiction. }
  constructor.
  - rewrite !length_insert. reflexivity.
  - intros i t Hi Hlt Ht. destruct (Hcases i t Hi Ht) as [[-> ->] | [-> ->]]; [apply Hblt | apply Halt]; lia.
  - intros t Hi Ht. destruct (Hcases 16%nat t Hi Ht) as [[E ->] | [E ->]]; [apply Hb16 | apply Ha16]; lia.
  - exists (Z.to_nat x), (Z.to_nat y), b, a. rewrite list_lookup_insert_eq by (rewrite length_insert; lia).
    rewrite list_lookup_insert_ne by lia. rewrite list_lookup_insert_eq by lia. repeat split; auto; lia.
Qed.

(** What is left of a short node below the fork. *)
Definition rest_of (s : bytes) (c : tree) : tree := match s with [] => c | _ => TShort s c end.

Lemma tget_rest s c q : tget (rest_of s c) q = tget (TShort s c) q.
Proof. destruct s; reflexivity. Qed.

Lemma rest_entry_leaf d x r v : path (x :: r) -> val_ok v -> (length r <= d)%nat -> entry_ok d x (rest_of r (TVal v)).
Proof.
  intros Hp Hv Hl. apply path_inv in Hp as [[Hx (ns & Hn & ->)] | [-> ->]].
  - split; [destruct ns; discriminate|]. split; [|lia]. intros _. destruct (ns ++ [16]) eqn:E; [apply app_eq_nil in E; destruct E; discriminate|].
    cbn [rest_of]. rewrite <- E in *. constructor; auto. rewrite length_app in Hl. cbn in Hl. lia.
  - split; [discriminate|]. split; [lia|]. intros _. exists v. auto.
Qed.

Lemma rest_entry_ext d y s ts e : nibs (y :: s) -> canon e (TFull ts) -> (e + length s <= d)%nat -> entry_ok d y (rest_of s (TFull ts)).
Proof.
  intros Hn Hc Hl. apply Forall_cons_1 in Hn as [Hy Hs]. split; [destruct s; discriminate|]. split; [|lia]. intros _.
  destruct s as [|z s]; cbn [rest_of].
  - apply (canon_mono e); [exact Hc | cbn in Hl; lia].
  - constructor; [exact Hs | discriminate | lia|]. apply (canon_mono e); [exact Hc | lia].
Qed.

Definition wrap_short (p : bytes) (t : tree) : tree := match p with [] => t | _ => TShort p t end.

Lemma wrap_canon d p ts : nibs p -> canon d (TFull ts) -> canon (length p + d) (wrap_short p (TFull ts)).
Proof.
  intros Hp Hc. destruct p as [|z p]; [exact Hc|]. cbn [wrap_short]. constructor; [exact Hp | discriminate | lia|].
  replace (length (z :: p) + d - length (z :: p))%nat with d by lia. exact Hc.
Qed.

Lemma tget_wrap p t q : tget (wrap_short p t) q = tget (TShort p t) q.
Proof. destruct p; reflexivity. Qed.

Lemma canon_short_cases d k t : canon d (TShort k t) ->
  (path k /\ (length k <= d)%nat /\ exists v, t = TVal v /\ val_ok v) \/
  (nibs k /\ k <> [] /\ (length k <= d)%nat /\ exists ts, t = TFull ts /\ canon (d - length k) (TFull ts)).
Proof.
  intros H. inversion H; subst.
  - left. split; [exists k0; auto|]. split; [rewrite length_app; cbn; lia | eauto].
  - right. eauto 10.
Qed.

Lemma strip_app_l p s key : strip (p ++ s) key = match strip p key with Some q => strip s q | None => None end.
Proof.
  revert key. induction p as [|x p IH]; intros key; [reflexivity|]. destruct key as [|y key]; [reflexivity|].
  cbn [app strip]. destruct (x =? y); [apply IH | reflexivity].
Qed.

(** The contents after two paths part. *)
Lemma fork_contents p x r y s v c key' : path (p ++ x :: r) -> x <> y -> 0 <= y <= 16 -> path key' ->
  tget (wrap_short p (fork x y (rest_of r (TVal v)) (rest_of s c))) key' =
  if decide (key' = p ++ x :: r) then Some v else tget (TShort (p ++ y :: s) c) key'.
Proof.
  intros Hp Hxy Hy Hp'. destruct (path_drop p (x :: r) Hp ltac:(discriminate)) as [Hnp Hxr].
  rewrite tget_wrap. cbn [tget]. rewrite strip_app_l. destruct (strip p key') as [q|] eqn:Es.
  2: { rewrite decide_False; [reflexivity|]. intros ->. rewrite strip_app in Es. discriminate. }
  apply strip_Some in Es. subst key'. destruct (nibs_not_path p q Hnp Hp') as [Hq Hqp]. destruct q as [|z q]; [contradiction|].
  pose proof (path_range _ _ Hxr). pose proof (path_range _ _ Hqp). rewrite fork_get by assumption. rewrite !tget_rest. cbn [strip].
  destruct (decide (z = x)) as [->|Hzx].
  - destruct (Z.eqb_spec y x); [congruence|]. destruct (decide (p ++ x :: q = p ++ x :: r)) as [E|E].
    + apply app_inv_head in E. injection E as ->. cbn [tget]. rewrite <- (app_nil_r r) at 2. rewrite strip_app. reflexivity.
    + destruct (tget (TShort r (TVal v)) q) as [w|] eqn:Et; [|reflexivity]. apply leaf_keys in Et as [-> _]. contradiction.
  - destruct (decide (p ++ z :: q = p ++ x :: r)) as [E|_]; [apply app_inv_head in E; congruence|]. destruct (decide (z = y)) as [->|Hzy].
    + rewrite Z.eqb_refl. reflexivity.
    + destruct (Z.eqb_spec y z); [congruence | reflexivity].
Qed.

Definition rest_node (s : bytes) (n : node) : node := match s with [] => n | _ => ShortNode s n newFlag end.

Lemma insert_into_nil fuel db s n : (1 <= fuel)%nat -> insert fuel db NilNode s n = Ok (true, rest_node s n).
Proof. intros H. destruct fuel; [lia|]. destruct s; reflexivity. Qed.

Lemma rep_rest db s n t : rep db false n t -> rep db false (rest_node s n) (rest_of s t).
Proof. intros H. destruct s; [exact H | constructor; [exact H | apply flag_new]]. Qed.

Lemma rep_fork db top x y b a nb na : 0 <= x <= 16 -> 0 <= y <= 16 -> rep db false nb b -> rep db false na a ->
  rep db top (FullNode (set_child (set_child (repeat NilNode 17) y na) x nb) newFlag) (fork x y b a).
Proof.
  intros Hx Hy Hb Ha. unfold fork. eapply rep_set_child; [rewrite length_insert; reflexivity| |exact Hx | exact Hb | apply flag_new].
  eapply (rep_set_child db (repeat NilNode 17) nils y na a top newFlag); [reflexivity| |exact Hy | exact Ha | apply flag_new].
  constructor; [reflexivity| |apply flag_new]. intros i c t Hc Ht. apply nils_lookup in Ht. subst.
  apply list_elem_of_lookup_2, list_elem_of_In, repeat_spec in Hc. subst. constructor.
Qed.

(** A short node whose path parts from the key becomes a fork. *)
Lemma insert_fork db d top k c t key v fuel p x r y s :
  rep db false c t -> canon d (TShort k t) -> path key -> (length key <= d)%nat -> val_ok v ->
  key = p ++ x :: r -> k = p ++ y :: s -> length p = commonPrefixLen key k -> x <> y -> (1 <= fuel)%nat ->
  exists n' t', (let m := commonPrefixLen key k in
      let! (_, old) := insert fuel db NilNode (drop (S m) k) c in
      let! (_, new) := insert fuel db NilNode (drop (S m) key) (ValueNode v) in
      let cs := set_child (repeat NilNode 17) (nth m k 0) old in
      let branch := FullNode (set_child cs (nth m key 0) new) newFlag in
      if Nat.eqb m 0 then Ok (true, branch) else Ok (true, ShortNode (take m key) branch newFlag)) = Ok (true, n') /\
    rep db top n' t' /\ canon d t' /\
    forall key', path key' -> tget t' key' = if decide (key' = key) then Some v else tget (TShort k t) key'.
Proof.
  intros Hc Hcan Hp Hl Hv Ek Ekk Hm Hxy Hf. cbv zeta. rewrite <- Hm.
  assert (0 <= y <= 16 /\ entry_ok (d - length p - 1) y (rest_of s t) /\ nibs p) as (Hy & Hentry & Hnp).
  { assert (path (p ++ x :: r)) as Hpx by (rewrite <- Ek; exact Hp). destruct (path_drop p _ Hpx ltac:(discriminate)) as [Hnp _].
    apply canon_short_cases in Hcan. subst k. rewrite length_app in Hcan. cbn [length] in Hcan.
    destruct Hcan as [(Hpy & Hd & w & -> & Hw) | (Hn & _ & Hd & ts & -> & Hc')].
    - destruct (path_drop p _ Hpy ltac:(discriminate)) as [_ Hys]. split; [apply (path_range _ _ Hys)|]. split; [|exact Hnp].
      apply rest_entry_leaf; auto. lia.
    - apply Forall_app in Hn as [_ Hys]. pose proof (Forall_inv Hys) as Hy. cbn in Hy. split; [lia|]. split; [|exact Hnp].
      eapply rest_entry_ext; [exact Hys | exact Hc' | lia]. }
  rewrite !insert_into_nil by exact Hf. cbn [rbind].
  assert (drop (S (length p)) k = s /\ nth (length p) k 0 = y) as [-> ->].
  { subst k. split; [rewrite drop_app; rewrite drop_ge by lia; replace (S (length p) - length p)%nat with 1%nat by lia; reflexivity|].
    rewrite app_nth2 by lia. rewrite Nat.sub_diag. reflexivity. }
  assert (drop (S (length p)) key = r /\ nth (length p) key 0 = x /\ take (length p) key = p) as (-> & -> & ->).
  { subst key. split; [rewrite drop_app; rewrite drop_ge by lia; replace (S (length p) - length p)%nat with 1%nat by lia; reflexivity|].
    split; [rewrite app_nth2 by lia; rewrite Nat.sub_diag; reflexivity | apply take_app_length]. }
  subst key. destruct (path_drop p _ Hp ltac:(discriminate)) as [_ Hxr]. pose proof (path_range _ _ Hxr) as Hx.
  pose proof (rep_fork db false x y (rest_of r (TVal v)) (rest_of s t) (rest_node r (ValueNode v)) (rest_node s c) Hx Hy
    (rep_rest _ _ _ _ (rep_value _ _ _)) (rep_rest _ _ _ _ Hc)) as Hrep.
  exists (match p with [] => FullNode (set_child (set_child (repeat NilNode 17) y (rest_node s c)) x (rest_node r (ValueNode v))) newFlag
          | _ => ShortNode p (FullNode (set_child (set_child (repeat NilNode 17) y (rest_node s c)) x (rest_node r (ValueNode v))) newFlag) newFlag end),
    (wrap_short p (fork x y (rest_of r (TVal v)) (rest_of s t))).
  split; [destruct p; reflexivity|]. split; [|split].
  - destruct p; [apply rep_top, Hrep | constructor; [exact Hrep | apply flag_new]].
  - rewrite length_app in Hl. cbn [length] in Hl. replace d with (length p + S (d - length p - 1))%nat by lia. apply wrap_canon; [exact Hnp|].
    apply fork_canon; auto. apply rest_entry_leaf; auto. lia.
  - subst k. intros key' Hp'. apply fork_contents; assumption.
Qed.

(** The outcome of an insertion. *)
Definition inserted (db : option Store) (d : nat) (top : bool) (t : tree) (key v : bytes) (dirty : bool) (n' : node) : Prop :=
  exists t', rep db top n' t' /\ canon d t' /\ (dirty = false -> t' = t) /\
    (forall ts, t = TFull ts -> exists ts', t' = TFull ts') /\
    forall key', path key' -> tget t' key' = if decide (key' = key) then Some v else tget t key'.

(** At the end of the path the value is replaced. *)
Lemma insert_end fuel db top n t v : (1 <= fuel)%nat -> rep db top n t -> t = TNil \/ (exists w, t = TVal w) ->
  exists dirty, insert fuel db n [] (ValueNode v) = Ok (dirty, ValueNode v) /\ (dirty = false -> t = TVal v).
Proof.
  intros Hf Hr Ht. destruct fuel; [lia|]. cbn [insert].
  destruct Hr as [top|top w|top k c t f Hc Hfl|top cs ts f Hl Hcs Hfl|top t Hb Hst Hbig]; try (destruct Ht as [E | [w E]]; discriminate).
  - exists true. split; [reflexivity | discriminate].
  - eexists. split; [reflexivity|]. intros H. apply negb_false_iff, bool_decide_eq_true in H. congruence.
  - exfalso. destruct Ht as [-> | [w ->]]; exact Hb.
Qed.

Lemma decide_app (k a b : bytes) (X : Type) (u v : X) : (if decide (k ++ a = k ++ b) then u else v) = if decide (a = b) then u else v.
Proof.
  destruct (decide (a = b)) as [->|H]; [apply decide_True, eq_refl | apply decide_False].
  intros E. apply app_inv_head in E. contradiction.
Qed.

Lemma inserted_short db top d k t key r v n' t' : canon d (TShort k t) -> key = k ++ r -> path key ->
  rep db false n' t' -> canon d (TShort k t') ->
  (forall q, path (k ++ q) -> tget t' q = if decide (q = r) then Some v else tget t q) ->
  inserted db d top (TShort k t) key v true (ShortNode k n' newFlag).
Proof.
  intros Hc -> Hp Hr Hc' Hg. exists (TShort k t'). split; [constructor; [exact Hr | apply flag_new]|]. split; [exact Hc'|].
  split; [discriminate|]. split; [discriminate|]. intros key' Hp'. cbn [tget]. destruct (strip k key') as [q|] eqn:Es.
  - apply strip_Some in Es. subst key'. rewrite decide_app. apply Hg, Hp'.
  - rewrite decide_False; [reflexivity|]. intros ->. rewrite strip_app in Es. discriminate.
Qed.

(** The statement of the induction on fuel. *)
Definition insert_ok (db : option Store) (v : bytes) (fuel : nat) : Prop := forall d key top n t,
  depth_ok d -> rep db top n t -> canon_root d t -> path key -> (length key <= d)%nat ->
  (2 * length key + (if is_hash n then 2 else 1) <= fuel)%nat ->
  exists dirty n', insert fuel db n key (ValueNode v) = Ok (dirty, n') /\ inserted db d top t key v dirty n'.

(** Nothing changed. *)
Lemma inserted_same db d top t key v n : rep db top n t -> canon d t ->
  (forall key', path key' -> tget t key' = if decide (key' = key) then Some v else tget t key') -> inserted db d top t key v false n.
Proof. intros Hr Hc Hg. exists t. split; [exact Hr|]. split; [exact Hc|]. split; [auto|]. split; [eauto | exact Hg]. Qed.

Lemma insert_leaf db d top k c f w v fuel key : val_ok v -> rep db top (ShortNode k c f) (TShort k (TVal w)) -> canon d (TShort k (TVal w)) ->
  path key -> (exists r, key = k ++ r) -> (1 <= fuel)%nat ->
  exists dirty n', insert (S fuel) db (ShortNode k c f) key (ValueNode v) = Ok (dirty, n') /\ inserted db d top (TShort k (TVal w)) key v dirty n'.
Proof.
  intros Hv Hrep Hcan Hp (r & Ek) Hf. inversion Hrep as [| |top' k' c' t' f' Hc Hfl| |]; subst top' k' c' t' f'.
  pose proof Hcan as Hcan'. apply canon_short_cases in Hcan' as [(Hpk & Hdk & _) | (_ & _ & _ & ts & E & _)]; [|discriminate].
  assert (r = []) as -> by (apply (path_prefix k); [exact Hpk | rewrite <- Ek; exact Hp]). rewrite app_nil_r in Ek. subst key.
  destruct k as [|x k]; [destruct (path_nonempty _ Hp eq_refl)|]. cbn [insert]. set (kk := x :: k) in *.
  assert (commonPrefixLen kk kk = length kk) as -> by (clear; induction kk as [|y l IH]; [reflexivity | cbn; rewrite Z.eqb_refl, IH; reflexivity]).
  rewrite Nat.eqb_refl, drop_all. destruct (insert_end fuel db false c (TVal w) v) as (dirty & -> & Hdirty); [exact Hf | exact Hc | eauto|].
  cbn [rbind]. destruct dirty; eexists _, _; (split; [reflexivity|]).
  - apply (inserted_short db top d kk (TVal w) kk [] v _ (TVal v) Hcan); [rewrite app_nil_r; reflexivity | exact Hp | constructor| |].
    + destruct Hpk as (ns & Hns & E). rewrite E in *. rewrite length_app in Hdk. constructor; auto.
    + intros q Hq. apply (path_prefix kk) in Hq; [|exact Hpk]. subst q. reflexivity.
  - specialize (Hdirty eq_refl). injection Hdirty as <-. apply inserted_same; [exact Hrep | exact Hcan|]. intros key' Hp'.
    destruct (decide (key' = kk)) as [->|]; [|reflexivity]. rewrite <- (app_nil_r kk) at 2. rewrite tget_short. reflexivity.
Qed.

Lemma cpl_app k r : commonPrefixLen (k ++ r) k = length k.
Proof. induction k as [|y l IH]; [destruct r; reflexivity | cbn; rewrite Z.eqb_refl, IH; reflexivity]. Qed.

Lemma insert_ext db d top k c f ts v fuel r : insert_ok db v fuel -> depth_ok d -> rep db top (ShortNode k c f) (TShort k (TFull ts)) ->
  canon d (TShort k (TFull ts)) -> path (k ++ r) -> (length (k ++ r) <= d)%nat -> (2 * length (k ++ r) <= fuel)%nat ->
  exists dirty n', insert (S fuel) db (ShortNode k c f) (k ++ r) (ValueNode v) = Ok (dirty, n') /\
    inserted db d top (TShort k (TFull ts)) (k ++ r) v dirty n'.
Proof.
  intros IH Hd Hrep Hcan Hp Hl Hf. inversion Hrep as [| |top' k' c' t' f' Hc Hfl| |]; subst top' k' c' t' f'.
  pose proof Hcan as Hcan'. apply canon_short_cases in Hcan' as [(_ & _ & w & E & _) | (Hn & Hnk & Hdk & us & [= <-] & Hc')]; [discriminate|].
  assert (path r) as Hpr by (apply (nibs_not_path k); assumption). rewrite length_app in *.
  assert (1 <= length k)%nat as Hk1 by (destruct k; [contradiction | cbn; lia]).
  destruct (IH (d - length k)%nat r false c (TFull ts)) as (dirty & n' & Heq & t' & Hr' & Hcan' & Hsame & Hfull & Hg);
    [unfold depth_ok in *; lia | exact Hc | right; exact Hc' | exact Hpr | lia | destruct (is_hash c); lia|].
  destruct (Hfull ts eq_refl) as [ts' ->].
  assert (insert (S fuel) db (ShortNode k c f) (k ++ r) (ValueNode v) =
    (let! (dirty, nn) := insert fuel db c r (ValueNode v) in
     if dirty then Ok (true, ShortNode k nn newFlag) else Ok (false, ShortNode k c f))) as ->.
  { pose proof (cpl_app k r) as Hcpl. pose proof (drop_app_length k r) as Hdrop. cbn [insert]. destruct (k ++ r) as [|x rest] eqn:E; [destruct (path_nonempty _ Hp eq_refl)|].
    rewrite Hcpl, Nat.eqb_refl, Hdrop. reflexivity. }
  rewrite Heq. cbn [rbind]. destruct dirty; eexists _, _; (split; [reflexivity|]).
  - apply (inserted_short db top d k (TFull ts) (k ++ r) r v _ (TFull ts') Hcan eq_refl Hp Hr'); [constructor; auto|].
    intros q Hq. apply Hg, (nibs_not_path k); assumption.
  - specialize (Hsame eq_refl). injection Hsame as ->. apply inserted_same; [exact Hrep | exact Hcan|]. intros key' Hp'.
    destruct (decide (key' = k ++ r)) as [->|]; [|reflexivity]. rewrite tget_short, (Hg r Hpr). apply decide_True, eq_refl.
Qed.

(** Inserting below a branch. *)
Lemma insert_entry db e cs ts x rest v fuel t f top : val_ok v -> insert_ok db v fuel -> depth_ok e ->
  rep db top (FullNode cs f) (TFull ts) -> canon (S e) (TFull ts) -> path (x :: rest) -> (length rest <= e)%nat ->
  (2 * length rest + 2 <= fuel)%nat -> ts !! Z.to_nat x = Some t -> rep db false (child cs x) t ->
  exists dirty n' t', insert fuel db (child cs x) rest (ValueNode v) = Ok (dirty, n') /\ rep db false n' t' /\ entry_ok e x t' /\
    (dirty = false -> t' = t) /\ forall q, path (x :: q) -> tget t' q = if decide (q = rest) then Some v else tget t q.
Proof.
  intros Hv IH Hd Hfull Hcan Hp Hl Hf Ht Hct. pose proof (asks_child _ _ _ _ _ Hcan Hp Ht) as Hask.
  apply path_inv in Hp as [[Hx16 Hpr] | [-> ->]].
  - destruct (IH e rest false (child cs x) t) as (dirty & n' & Heq & t' & Hr' & Hc' & Hs & _ & Hg);
      [exact Hd | exact Hct| |exact Hpr | exact Hl | destruct (is_hash (child cs x)); lia|].
    { destruct Hask as [->|[(w & -> & ->)|[H _]]]; [left; reflexivity | destruct (path_nonempty _ Hpr eq_refl) | right; exact H]. }
    exists dirty, n', t'. split; [exact Heq|]. split; [exact Hr'|]. split; [split; [apply (canon_not_nil _ _ Hc') | split; [auto | lia]]|].
    split; [exact Hs|]. intros q Hq. apply Hg. apply path_inv in Hq as [[_ Hq] | [-> _]]; [exact Hq | lia].
  - destruct (insert_end fuel db false (child cs 16) t v) as (dirty & Heq & Hdirty); [lia | exact Hct| |].
    { apply canon_full_inv in Hcan as (e' & _ & _ & _ & Hv16 & _). change (Z.to_nat 16) with 16%nat in Ht.
      destruct t; [auto|..]; destruct (Hv16 _ Ht ltac:(discriminate)) as (b & Eb & _); try discriminate. eauto. }
    exists dirty, (ValueNode v), (TVal v). split; [exact Heq|]. split; [constructor|]. split; [split; [discriminate | split; [lia | eauto]]|].
    split; [intros E; symmetry; apply Hdirty, E|]. intros q Hq. apply path_inv in Hq as [[H _] | [_ ->]]; [lia | reflexivity].
Qed.

(** The contents of a branch after a change of one entry. *)
Lemma update_contents ts x t t' rest (o : option bytes) : length ts = 17%nat -> 0 <= x <= 16 -> ts !! Z.to_nat x = Some t ->
  (forall q, path (x :: q) -> tget t' q = if decide (q = rest) then o else tget t q) ->
  forall key', path key' -> tget (TFull (<[Z.to_nat x := t']> ts)) key' = if decide (key' = x :: rest) then o else tget (TFull ts) key'.
Proof.
  intros Hl Hx Ht Hg key' Hp'. destruct key' as [|z q]; [destruct (path_nonempty _ Hp' eq_refl)|].
  rewrite (tget_update ts x t' z q Hl Hx (path_range _ _ Hp')). destruct (decide (z = x)) as [->|Hz].
  - rewrite (Hg q Hp'), tget_full, Ht. destruct (decide (q = rest)) as [->|Hq]; [rewrite decide_True by reflexivity; reflexivity|].
    rewrite decide_False by congruence. reflexivity.
  - rewrite decide_False by congruence. reflexivity.
Qed.

Lemma insert_full db d top cs f ts v fuel x rest : val_ok v -> insert_ok db v fuel -> depth_ok d -> rep db top (FullNode cs f) (TFull ts) ->
  canon d (TFull ts) -> path (x :: rest) -> (length (x :: rest) <= d)%nat -> (2 * length (x :: rest) <= fuel)%nat ->
  exists dirty n', insert (S fuel) db (FullNode cs f) (x :: rest) (ValueNode v) = Ok (dirty, n') /\
    inserted db d top (TFull ts) (x :: rest) v dirty n'.
Proof.
  intros Hv IH Hd Hfull Hcan Hp Hl Hf. pose proof Hcan as H0. apply canon_full_inv in H0 as (e & -> & Hl17 & _). cbn [length] in *.
  pose proof (path_range _ _ Hp) as Hx. destruct (full_child _ _ _ _ _ _ Hfull Hl17 Hx) as (t & Ht & Hct).
  destruct (insert_entry db e cs ts x rest v fuel t f top) as (dirty & n' & t' & Heq & Hn' & Hentry & Hsame & Hg); try assumption; try lia.
  { unfold depth_ok in *. lia. }
  pose proof (update_contents ts x t t' rest (Some v) Hl17 Hx Ht Hg) as Hget. cbn [insert]. rewrite Heq. cbn [rbind].
  destruct dirty; eexists _, _; (split; [reflexivity|]).
  - exists (TFull (<[Z.to_nat x := t']> ts)). split; [eapply rep_set_child; [exact Hl17 | exact Hfull | exact Hx | exact Hn' | apply flag_new]|].
    split; [apply full_update; assumption|]. split; [discriminate|]. split; [eauto | exact Hget].
  - rewrite (Hsame eq_refl), (list_insert_id ts _ t Ht) in Hget. apply inserted_same; assumption.
Qed.

Lemma insert_empty db d top key v : val_ok v -> path key -> (length key <= d)%nat ->
  inserted db d top TNil key v true (ShortNode key (ValueNode v) newFlag).
Proof.
  intros Hv Hp Hl. exists (TShort key (TVal v)). split; [constructor; [constructor | apply flag_new]|].
  destruct Hp as (ns & Hn & E). split; [rewrite E in *; rewrite length_app in Hl; cbn in Hl; constructor; auto; lia|].
  split; [discriminate|]. split; [discriminate|]. intros key' Hp'. destruct (decide (key' = key)) as [->|Hk].
  - rewrite <- (app_nil_r key) at 2. rewrite tget_short. reflexivity.
  - destruct (tget (TShort key (TVal v)) key') as [w|] eqn:Et; [|reflexivity]. apply leaf_keys in Et as [-> _]. contradiction.
Qed.

(** A key and a short path part before the end of either, or the path is a prefix of the key. *)
Lemma key_vs_short d key k t : path key -> canon d (TShort k t) ->
  (exists r, key = k ++ r) \/
  (exists p x r y s, key = p ++ x :: r /\ k = p ++ y :: s /\ length p = commonPrefixLen key k /\ x <> y).
Proof.
  intros Hp Hcan. destruct (cpl_spec key k) as (p & r & s & Ek & Ekk & Hm & Hrs). destruct s as [|y s].
  { left. exists r. rewrite app_nil_r in Ekk. congruence. }
  right. destruct r as [|x r]; [|exists p, x, r, y, s; auto]. exfalso. rewrite app_nil_r in Ek. apply canon_short_cases in Hcan.
  rewrite Ekk, <- Ek in Hcan. destruct Hcan as [(Hpk & _) | (Hn & _)].
  - pose proof (path_prefix _ _ Hp Hpk). discriminate.
  - apply Forall_app in Hn as [Hn _]. destruct (nibs_not_path key [] Hn) as [H _]; [rewrite app_nil_r; exact Hp | contradiction].
Qed.

Lemma insert_spec db v : val_ok v -> forall fuel, insert_ok db v fuel.
Proof.
  intros Hv fuel. induction fuel as [|fuel IH]; intros d key top n t Hd Hrep Hcan Hp Hl Hfuel; [destruct (is_hash n); lia|].
  destruct key as [|x rest]; [destruct (path_nonempty _ Hp eq_refl)|].
  destruct Hrep as [top|top w|top k c t f Hc Hf|top cs ts f Hlen Hcs Hf|top t Hb Hst Hbig]; cbn [is_hash] in Hfuel.
  - exists true, (ShortNode (x :: rest) (ValueNode v) newFlag). split; [reflexivity | apply insert_empty; assumption].
  - destruct Hcan as [E|Hcan]; [discriminate | inversion Hcan].
  - destruct Hcan as [E|Hcan]; [discriminate|].
    assert (rep db top (ShortNode k c f) (TShort k t)) as Hrep by (constructor; assumption).
    destruct (key_vs_short d (x :: rest) k t Hp Hcan) as [[r Er] | (p & x' & r & y & s & Ek & Ekk & Hm & Hxy)].
    + pose proof (canon_short_cases _ _ _ Hcan) as [(_ & _ & w & -> & _) | (_ & _ & _ & ts & -> & _)].
      * apply insert_leaf; auto; [eauto | cbn [length] in Hfuel; lia].
      * rewrite Er in *. apply insert_ext; auto. lia.
    + destruct (insert_fork db d top k c t (x :: rest) v fuel p x' r y s) as (n' & t' & Heq & Hr' & Hc' & Hg); try assumption; [cbn [length] in Hfuel; lia|].
      exists true, n'. split.
      * cbn [insert]. destruct (Nat.eqb_spec (commonPrefixLen (x :: rest) k) (length k)) as [E|_]; [|exact Heq].
        rewrite <- Hm, Ekk, length_app in E. cbn in E. lia.
      * exists t'. split; [exact Hr'|]. split; [exact Hc'|]. split; [discriminate|]. split; [discriminate | exact Hg].
  - destruct Hcan as [E|Hcan]; [discriminate|]. apply insert_full; auto; [constructor; assumption | lia].
  - assert (canon d t) as Hct by (destruct Hcan as [-> | H]; [contradiction | exact H]).
    destruct (resolve_stored db d t Hct Hd Hst Hbig) as [Hres Hr]. cbn [insert]. rewrite Hres. cbn [rbind].
    destruct (IH d (x :: rest) top (shallow (Some (thash t)) t) t) as (dirty & n' & -> & Hins);
      [exact Hd | apply Hr | exact Hcan | exact Hp | exact Hl | rewrite shallow_not_hash; lia|]. cbn [rbind].
    destruct dirty; eexists _, _; (split; [reflexivity|]); [exact Hins|].
    destruct Hins as (t' & _ & _ & Hs & _ & Hg). rewrite (Hs eq_refl) in Hg. apply inserted_same; auto.
Qed.

(** * Deletion *)

Lemma only_child_seen cs : forall i pos, 0 <= pos -> only_child cs i pos = if forallb is_nil cs then pos else -2.
Proof.
  induction cs as [|c cs IH]; intros i pos Hp; cbn [only_child forallb]; [reflexivity|].
  destruct (is_nil c); cbn [andb]; [apply IH, Hp|]. destruct (Z.eqb_spec pos (-1)); [lia | reflexivity].
Qed.

Lemma not_all_nil cs : forallb is_nil cs = false -> exists j c, cs !! j = Some c /\ is_nil c = false.
Proof.
  induction cs as [|c cs IH]; cbn [forallb]; [discriminate|]. destruct (is_nil c) eqn:E; cbn [andb]; intros H.
  - destruct (IH H) as (j & c' & Hj & Hc). exists (S j), c'. auto.
  - exists 0%nat, c. auto.
Qed.

Lemma all_nil cs j c : forallb is_nil cs = true -> cs !! j = Some c -> is_nil c = true.
Proof. intros H Hj. rewrite forallb_forall in H. apply H, list_elem_of_In, list_elem_of_lookup. eauto. Qed.

Lemma only_child_spec cs : forall i, 0 <= i ->
  (only_child cs i (-1) = -1 /\ forallb is_nil cs = true) \/
  (exists j c, only_child cs i (-1) = i + Z.of_nat j /\ cs !! j = Some c /\ is_nil c = false /\
     forall j' c', cs !! j' = Some c' -> is_nil c' = false -> j' = j) \/
  (only_child cs i (-1) = -2 /\ exists j j' c c', j <> j' /\ cs !! j = Some c /\ cs !! j' = Some c' /\ is_nil c = false /\ is_nil c' = false).
Proof.
  induction cs as [|c cs IH]; intros i Hi; cbn [only_child forallb]; [left; auto|]. destruct (is_nil c) eqn:Ec; cbn [andb].
  - destruct (IH (i + 1) ltac:(lia)) as [[E Hn] | [(j & c' & E & Hj & Hc' & Hu) | (E & j & j' & a & b & Hne & Ha & Hb & Hna & Hnb)]].
    + left. auto.
    + right; left. exists (S j), c'. split; [rewrite E; lia|]. split; [exact Hj|]. split; [exact Hc'|]. intros [|j'] d Hd Hnd; [cbn in Hd; congruence|].
      f_equal. eauto.
    + right; right. split; [exact E|]. exists (S j), (S j'), a, b. auto 10.
  - rewrite Z.eqb_refl, only_child_seen by exact Hi. right. destruct (forallb is_nil cs) eqn:En.
    + left. exists 0%nat, c. split; [lia|]. split; [reflexivity|]. split; [exact Ec|]. intros [|j'] d Hd Hnd; [reflexivity|].
      pose proof (all_nil cs j' d En Hd). congruence.
    + right. destruct (not_all_nil cs En) as (j & d & Hj & Hd). split; [reflexivity|]. exists 0%nat, (S j), c, d. auto 10.
Qed.

Lemma rep_is_nil db top n t : rep db top n t -> is_nil n = true <-> t = TNil.
Proof. intros H. destruct H; cbn; split; intros E; try discriminate; auto. subst. contradiction. Qed.

(** Entries of a branch that may have lost one. *)
Definition entries_ok (e : nat) (ts : list tree) : Prop :=
  length ts = 17%nat /\ forall i t, ts !! i = Some t -> t <> TNil -> entry_ok e (Z.of_nat i) t.

Lemma resolve_rep db top e n t : depth_ok e -> canon e t -> rep db top n t ->
  exists n', resolve db n = Ok n' /\ rep db top n' t /\ is_hash n' = false.
Proof.
  intros Hd Hc Hr. destruct Hr as [top|top w|top k c t f Hcc Hf|top cs ts f Hl Hcs Hf|top t Hb Hst Hbig]; cbn [resolve].
  - inversion Hc.
  - inversion Hc.
  - eexists. split; [reflexivity|]. split; [constructor; assumption | reflexivity].
  - eexists. split; [reflexivity|]. split; [constructor; assumption | reflexivity].
  - destruct (resolve_stored db e t Hc Hd Hst Hbig) as [-> Hr]. eexists. split; [reflexivity|]. split; [apply Hr | apply shallow_not_hash].
Qed.

(** The contents of a branch with one entry left. *)
Lemma single_contents ts j t key : length ts = 17%nat -> ts !! j = Some t -> (forall i u, ts !! i = Some u -> u <> TNil -> i = j) ->
  path key -> tget (TFull ts) key = tget (TShort [Z.of_nat j] t) key.
Proof.
  intros Hl Hj Hu Hp. destruct key as [|z q]; [destruct (path_nonempty _ Hp eq_refl)|]. pose proof (path_range _ _ Hp) as Hz.
  rewrite tget_full. cbn [tget strip]. destruct (Z.eqb_spec (Z.of_nat j) z) as [<-|Hne].
  - rewrite Nat2Z.id, Hj. reflexivity.
  - destruct (ts !! Z.to_nat z) as [u|] eqn:E; [|reflexivity]. destruct u; [reflexivity|..];
      exfalso; pose proof (Hu _ _ E ltac:(discriminate)); lia.
Qed.

Lemma tget_short_short a k c key : tget (TShort a (TShort k c)) key = tget (TShort (a ++ k) c) key.
Proof. cbn [tget]. rewrite strip_app_l. destruct (strip a key); reflexivity. Qed.

(** Pulling up a short or a branch through a path. *)
Lemma canon_prepend e p k c : nibs p -> p <> [] -> canon e (TShort k c) -> canon (length p + e) (TShort (p ++ k) c).
Proof.
  intros Hp Hne H. apply canon_short_cases in H as [((ns & Hn & ->) & Hd & w & -> & Hw) | (Hn & Hnk & Hd & ts & -> & Hc)].
  - rewrite app_assoc. rewrite length_app in Hd. cbn in Hd. constructor; [apply Forall_app; auto | exact Hw | rewrite length_app; lia].
  - constructor; [apply Forall_app; auto | | rewrite length_app; lia|].
    + destruct p; [contradiction | discriminate].
    + apply (canon_mono _ _ Hc). rewrite length_app. lia.
Qed.

Lemma pull_up db top e c t j : depth_ok e -> canon e t -> rep db false c t -> 0 <= j < 16 ->
  exists n' t', (let! cnode := resolve db c in
      match cnode with
      | ShortNode k v _ => Ok (ShortNode (j :: k) v newFlag)
      | _ => Ok (ShortNode [j] c newFlag)
      end) = Ok n' /\ rep db top n' t' /\ canon (S e) t' /\ is_hash n' = false /\ forall key, tget t' key = tget (TShort [j] t) key.
Proof.
  intros Hd Hc Hr Hj. destruct (resolve_rep db false e c t Hd Hc Hr) as (cn & -> & Hcr & Hnh). cbn [rbind].
  assert (nibs [j]) as Hnib by (constructor; [lia | constructor]). remember false as tp eqn:Etp in Hcr.
  destruct Hcr as [tp|tp w|tp k v tv f Hv Hf|tp us uts f Hul Hus Hf|tp u Hub Hust Hubig]; try (inversion Hc; fail); try discriminate.
  - eexists _, (TShort (j :: k) tv). split; [reflexivity|]. split; [constructor; [exact Hv | apply flag_new]|].
    split; [apply (canon_prepend e [j] k tv Hnib); [discriminate | exact Hc]|]. split; [reflexivity|].
    intros key. rewrite tget_short_short. reflexivity.
  - eexists _, (TShort [j] (TFull uts)). split; [reflexivity|]. split; [constructor; [exact Hr | apply flag_new]|].
    split; [constructor; [exact Hnib | discriminate | cbn; lia | cbn [length]; replace (S e - 1)%nat with e by lia; exact Hc]|].
    split; reflexivity.
Qed.

Lemma collapse_spec db top e cs ts : depth_ok e -> entries_ok e ts -> length cs = length ts ->
  (forall i c t, cs !! i = Some c -> ts !! i = Some t -> rep db false c t) -> (exists i t, ts !! i = Some t /\ t <> TNil) ->
  exists n' t', collapse db cs = Ok n' /\ rep db top n' t' /\ canon (S e) t' /\ is_hash n' = false /\
    forall key, path key -> tget t' key = tget (TFull ts) key.
Proof.
  intros Hd [Hl He] Hlen Hrep (i0 & t0 & Hi0 & Ht0). unfold collapse.
  assert (forall i c, cs !! i = Some c -> exists t, ts !! i = Some t /\ rep db false c t) as Hboth.
  { intros i c Hc. destruct (lookup_lt_is_Some_2 ts i) as [t Ht]; [apply lookup_lt_Some in Hc; lia | eauto]. }
  assert (forall i t, ts !! i = Some t -> t <> TNil -> exists c, cs !! i = Some c /\ is_nil c = false) as Hback.
  { intros i t Ht Hn. destruct (lookup_lt_is_Some_2 cs i) as [c Hc]; [apply lookup_lt_Some in Ht; lia|].
    exists c. split; [exact Hc|]. destruct (is_nil c) eqn:E; [|reflexivity]. apply (rep_is_nil _ _ _ _ (Hrep i c t Hc Ht)) in E. contradiction. }
  destruct (only_child_spec cs 0 ltac:(lia)) as [[_ Hn] | [(j & c & -> & Hj & Hcn & Hu) | (-> & j & j' & c & c' & Hne & Hj & Hj' & Hc & Hc')]].
  - exfalso. destruct (Hback i0 t0 Hi0 Ht0) as (c & Hc & Hcn). pose proof (all_nil cs i0 c Hn Hc). congruence.
  - destruct (Hboth j c Hj) as (t & Ht & Hr).
    assert (t <> TNil) as Htn by (intros ->; pose proof (proj2 (rep_is_nil _ _ _ _ Hr) eq_refl); congruence).
    assert (forall i u, ts !! i = Some u -> u <> TNil -> i = j) as Hsingle by (intros i u Hiu Hun; destruct (Hback i u Hiu Hun) as (b & Hb & Hbn); eauto).
    pose proof (fun key => single_contents ts j t key Hl Ht Hsingle) as Hget. destruct (He j t Ht Htn) as (_ & Hlt & H16).
    assert (child cs (0 + Z.of_nat j) = c) as Hchild by (rewrite child_lookup, Z.add_0_l, Nat2Z.id, Hj; reflexivity).
    destruct (Z.leb_spec 0 (0 + Z.of_nat j)); [|lia]. rewrite Z.add_0_l in *. destruct (Z.eqb_spec (Z.of_nat j) 16) as [E16|Hn16]; cbn [negb].
    + rewrite E16 in Hchild, Hget. rewrite Hchild. destruct (H16 E16) as (b & -> & Hb). eexists _, (TShort [16] (TVal b)). split; [reflexivity|].
      split; [constructor; [exact Hr | apply flag_new]|]. split; [apply (canon_leaf (S e) []); [constructor | exact Hb | cbn; lia]|].
      split; [reflexivity|]. intros key Hp. symmetry. apply Hget, Hp.
    + assert (Z.of_nat j < 16) as Hj16 by (apply lookup_lt_Some in Hj; lia). specialize (Hlt Hj16). rewrite Hchild.
      destruct (pull_up db top e c t (Z.of_nat j) Hd Hlt Hr ltac:(lia)) as (n' & t' & -> & Hn' & Hc' & Hh & Hg).
      exists n', t'. split_and!; auto. intros key Hp. rewrite (Hget key Hp). apply Hg.
  - eexists _, (TFull ts). split; [reflexivity|]. split; [constructor; [exact Hlen | exact Hrep | apply flag_new]|]. split; [|auto].
    destruct (Hboth j c Hj) as (t & Ht & Hr), (Hboth j' c' Hj') as (t' & Ht' & Hr'). constructor; [exact Hl| | |].
    + intros i u Hi Hlt Hun. apply (He i u Hi Hun). lia.
    + intros u Hi Hun. apply (He 16%nat u Hi Hun). reflexivity.
    + exists j, j', t, t'. split; [exact Hne|]. split; [exact Ht|]. split; [exact Ht'|].
      split; intros ->; [pose proof (proj2 (rep_is_nil _ _ _ _ Hr) eq_refl) | pose proof (proj2 (rep_is_nil _ _ _ _ Hr') eq_refl)]; congruence.
Qed.

(** The outcome of a deletion. *)
Definition deleted (db : option Store) (d : nat) (top : bool) (t : tree) (key : bytes) (dirty : bool) (n' : node) : Prop :=
  exists t', rep db top n' t' /\ canon_root d t' /\ (dirty = false -> t' = t) /\ (dirty = true -> is_hash n' = false) /\
    (forall ts, t = TFull ts -> t' <> TNil) /\
    forall key', path key' -> tget t' key' = if decide (key' = key) then None else tget t key'.

Definition delete_ok (db : option Store) (fuel : nat) : Prop := forall d key top n t,
  depth_ok d -> rep db top n t -> canon_root d t -> path key ->
  (2 * length key + (if is_hash n then 2 else 1) <= fuel)%nat ->
  exists dirty n', delete fuel db n key = Ok (dirty, n') /\ deleted db d top t key dirty n'.

Lemma deleted_same db d top t key n : rep db top n t -> canon_root d t -> tget t key = None -> deleted db d top t key false n.
Proof.
  intros Hr Hc Hg. exists t. split_and!; auto; [discriminate| |].
  - intros ts -> E. discriminate.
  - intros key' _. destruct (decide (key' = key)) as [->|]; [exact Hg | reflexivity].
Qed.

Lemma deleted_absent db d top t key n : deleted db d top t key false n -> path key -> tget t key = None.
Proof. intros (t' & _ & _ & Hs & _ & _ & Hg) Hp. rewrite <- (Hs eq_refl), (Hg key Hp). apply decide_True, eq_refl. Qed.

Lemma delete_ext db d top k c f ts fuel r : delete_ok db fuel -> depth_ok d -> rep db top (ShortNode k c f) (TShort k (TFull ts)) ->
  canon d (TShort k (TFull ts)) -> path (k ++ r) -> (2 * length (k ++ r) <= fuel)%nat ->
  exists dirty n', delete (S fuel) db (ShortNode k c f) (k ++ r) = Ok (dirty, n') /\ deleted db d top (TShort k (TFull ts)) (k ++ r) dirty n'.
Proof.
  intros IH Hd Hrep Hcan Hp Hf. inversion Hrep as [| |top' k' c' t' f' Hc Hfl| |]; subst top' k' c' t' f'.
  pose proof Hcan as Hcan'. apply canon_short_cases in Hcan' as [(_ & _ & w & E & _) | (Hn & Hnk & Hdk & us & [= <-] & Hc')]; [discriminate|].
  destruct (nibs_not_path k r Hn Hp) as [Hr Hpr].
  assert (1 <= length k /\ 1 <= length r)%nat as [Hk1 Hr1] by (split; [destruct k; [contradiction | cbn; lia] | destruct r; [contradiction | cbn; lia]]).
  cbn [delete]. rewrite cpl_app, drop_app_length. rewrite length_app in *. destruct (Nat.ltb_spec (length k) (length k)); [lia|].
  destruct (Nat.eqb_spec (length k) (length k + length r)); [lia|].
  destruct (IH (d - length k)%nat r false c (TFull ts)) as (dirty & n' & -> & Hdel);
    [unfold depth_ok in *; lia | exact Hc | right; exact Hc' | exact Hpr | destruct (is_hash c); lia|]. cbn [rbind].
  destruct dirty.
  - destruct Hdel as (t' & Hr' & [->|Hcan'] & _ & Hh & Hnn & Hg); [destruct (Hnn ts eq_refl eq_refl)|].
    assert (forall key', path key' -> tget (TShort k t') key' = if decide (key' = k ++ r) then None else tget (TShort k (TFull ts)) key') as Hget.
    { intros key' Hp'. cbn [tget]. destruct (strip k key') as [q|] eqn:Es.
      - apply strip_Some in Es. subst key'. rewrite decide_app. apply Hg, (nibs_not_path k); assumption.
      - destruct (decide _); reflexivity. }
    specialize (Hh eq_refl). remember false as tp eqn:Etp in Hr'.
    destruct Hr' as [tp|tp w|tp k2 v2 t2 f2 Hv Hf2|tp cs2 ts2 f2 Hul Hus Hf2|tp u Hub Hust Hubig]; try (inversion Hcan'; fail); try discriminate.
    + eexists true, _. split; [reflexivity|]. exists (TShort (k ++ k2) t2). split; [constructor; [exact Hv | apply flag_new]|].
      split; [right; replace d with (length k + (d - length k))%nat by lia; apply canon_prepend; assumption|].
      split_and!; try discriminate; auto. intros key' Hp'. rewrite <- tget_short_short. apply Hget, Hp'.
    + eexists true, _. split; [reflexivity|]. exists (TShort k (TFull ts2)). subst tp.
      split; [constructor; [constructor; assumption | apply flag_new]|]. split; [right; constructor; assumption|]. split_and!; try discriminate; auto.
  - eexists false, _. split; [reflexivity|]. apply deleted_same; [exact Hrep | right; exact Hcan|]. rewrite tget_short.
    apply (deleted_absent _ _ _ _ _ _ Hdel Hpr).
Qed.

Lemma cpl_self k : commonPrefixLen k k = length k.
Proof. rewrite <- (app_nil_r k) at 1. apply cpl_app. Qed.

Lemma delete_short db d top k c f t fuel key : delete_ok db fuel -> depth_ok d -> rep db top (ShortNode k c f) (TShort k t) ->
  canon d (TShort k t) -> path key -> (2 * length key <= fuel)%nat ->
  exists dirty n', delete (S fuel) db (ShortNode k c f) key = Ok (dirty, n') /\ deleted db d top (TShort k t) key dirty n'.
Proof.
  intros IH Hd Hrep Hcan Hp Hf. destruct (key_vs_short d key k t Hp Hcan) as [[r ->] | (p & x & r & y & s & Ek & Ekk & Hm & Hxy)].
  - pose proof (canon_short_cases _ _ _ Hcan) as [(Hpk & _ & w & -> & _) | (_ & _ & _ & ts & -> & _)]; [|apply delete_ext; assumption].
    assert (r = []) as -> by (apply (path_prefix k); assumption). rewrite app_nil_r in *. exists true, NilNode. split.
    + cbn [delete]. rewrite cpl_self. destruct (Nat.ltb_spec (length k) (length k)); [lia|]. rewrite Nat.eqb_refl. reflexivity.
    + exists TNil. split; [constructor|]. split; [left; reflexivity|]. split_and!; try discriminate; auto. intros key' Hp'. change (tget TNil key') with (@None bytes).
      destruct (decide (key' = k)) as [_|Hk]; [reflexivity|]. destruct (tget (TShort k (TVal w)) key') as [o|] eqn:E; [|reflexivity].
      apply leaf_keys in E as [-> _]. contradiction.
  - exists false, (ShortNode k c f). split.
    + cbn [delete]. rewrite <- Hm. destruct (Nat.ltb_spec (length p) (length k)) as [|Hge]; [reflexivity|].
      rewrite Ekk, length_app in Hge. cbn in Hge. lia.
    + apply deleted_same; [exact Hrep | right; exact Hcan|]. cbn [tget]. rewrite Ek, Ekk, strip_app_l, strip_app. cbn [strip].
      destruct (Z.eqb_spec y x); [congruence | reflexivity].
Qed.

(** Deleting below a branch. *)
Lemma delete_entry db e cs ts x rest fuel t f top : delete_ok db fuel -> depth_ok e ->
  rep db top (FullNode cs f) (TFull ts) -> canon (S e) (TFull ts) -> path (x :: rest) ->
  (2 * length rest + 2 <= fuel)%nat -> ts !! Z.to_nat x = Some t -> rep db false (child cs x) t ->
  exists dirty n' t', delete fuel db (child cs x) rest = Ok (dirty, n') /\ rep db false n' t' /\ (t' <> TNil -> entry_ok e x t') /\
    (dirty = false -> t' = t) /\ forall q, path (x :: q) -> tget t' q = if decide (q = rest) then None else tget t q.
Proof.
  intros IH Hd Hfull Hcan Hp Hf Ht Hct. pose proof (asks_child _ _ _ _ _ Hcan Hp Ht) as Hask.
  apply path_inv in Hp as [[Hx16 Hpr] | [-> ->]].
  - destruct (IH e rest false (child cs x) t) as (dirty & n' & Heq & t' & Hr' & Hc' & Hs & _ & _ & Hg);
      [exact Hd | exact Hct| |exact Hpr | destruct (is_hash (child cs x)); lia|].
    { destruct Hask as [->|[(w & -> & ->)|[H _]]]; [left; reflexivity | destruct (path_nonempty _ Hpr eq_refl) | right; exact H]. }
    exists dirty, n', t'. split; [exact Heq|]. split; [exact Hr'|]. split.
    { intros Hn. destruct Hc' as [->|Hc']; [contradiction|]. split; [exact Hn|]. split; [auto | lia]. }
    split; [exact Hs|]. intros q Hq. apply Hg. apply path_inv in Hq as [[_ Hq] | [-> _]]; [exact Hq | lia].
  - destruct fuel; [lia|]. cbn [delete].
    assert (t = TNil \/ exists b, t = TVal b) as Hsh.
    { apply canon_full_inv in Hcan as (e' & _ & _ & _ & Hv16 & _). change (Z.to_nat 16) with 16%nat in Ht.
      destruct t; [auto|..]; destruct (Hv16 _ Ht ltac:(discriminate)) as (b & Eb & _); try discriminate. eauto. }
    assert (forall q, path (16 :: q) -> q = []) as Hq16 by (intros q Hq; apply path_inv in Hq as [[H _] | [_ ->]]; [lia | reflexivity]).
    inversion Hct as [tp E1 E2 E3|tp w E1 E2 E3|tp k c' t' f' Hc' Hf' E1 E2 E3|tp us uts f' Hl' Hu' Hf' E1 E2 E3|tp u Hub Hust Hubig E1 E2 E3];
      subst t; rewrite <- ?E2; try (destruct Hsh as [E|[b E]]; discriminate).
    + exists false, NilNode, TNil. split; [reflexivity|]. split; [apply rep_nil|]. split; [intros H; destruct (H eq_refl)|]. split; [auto|]. intros q Hq. rewrite (Hq16 q Hq). reflexivity.
    + exists true, NilNode, TNil. split; [reflexivity|]. split; [apply rep_nil|]. split; [intros H; destruct (H eq_refl)|].
      split; [discriminate|]. intros q Hq. rewrite (Hq16 q Hq). reflexivity.
    + exfalso. destruct Hsh as [-> | [b ->]]; exact Hub.
Qed.

Lemma delete_full db d top cs f ts fuel x rest : delete_ok db fuel -> depth_ok d -> rep db top (FullNode cs f) (TFull ts) ->
  canon d (TFull ts) -> path (x :: rest) -> (2 * length (x :: rest) <= fuel)%nat ->
  exists dirty n', delete (S fuel) db (FullNode cs f) (x :: rest) = Ok (dirty, n') /\ deleted db d top (TFull ts) (x :: rest) dirty n'.
Proof.
  intros IH Hd Hfull Hcan Hp Hf. pose proof Hcan as H0. apply canon_full_inv in H0 as (e & -> & Hl17 & Hch & Hv16 & (i & j & a & b & Hij & Hi & Hj & Ha & Hb)).
  cbn [length] in *. pose proof (path_range _ _ Hp) as Hx. destruct (full_child _ _ _ _ _ _ Hfull Hl17 Hx) as (t & Ht & Hct).
  assert (depth_ok e) as Hde by (unfold depth_ok in *; lia).
  destruct (delete_entry db e cs ts x rest fuel t f top) as (dirty & n' & t' & Heq & Hn' & Hentry & Hsame & Hg); try assumption; [lia|].
  pose proof (update_contents ts x t t' rest None Hl17 Hx Ht Hg) as Hget. cbn [delete]. rewrite Heq. cbn [rbind]. destruct dirty.
  - assert (rep db top (FullNode (set_child cs x n') newFlag) (TFull (<[Z.to_nat x := t']> ts))) as Hset
      by (eapply rep_set_child; [exact Hl17 | exact Hfull | exact Hx | exact Hn' | apply flag_new]).
    inversion Hset as [| | |tp us uts f' Hlen Hrep Hfl|]; subst.
    destruct (collapse_spec db top e (set_child cs x n') (<[Z.to_nat x := t']> ts)) as (n2 & t2 & -> & Hr2 & Hc2 & Hh2 & Hg2); auto.
    { split; [rewrite length_insert; exact Hl17|]. intros m u Hm Hun. destruct (decide (Z.to_nat x = m)) as [<-|Hne].
      - rewrite list_lookup_insert_eq in Hm by lia. injection Hm as <-. rewrite Z2Nat.id by lia. apply Hentry, Hun.
      - rewrite list_lookup_insert_ne in Hm by exact Hne. split; [exact Hun|]. split; [intros H; apply (Hch m); auto; lia|].
        intros H. assert (m = 16%nat) as -> by lia. auto. }
    { destruct (decide (Z.to_nat x = i)) as [E|Hne].
      - exists j, b. rewrite list_lookup_insert_ne by congruence. auto.
      - exists i, a. rewrite list_lookup_insert_ne by exact Hne. auto. }
    cbn [rbind]. exists true, n2. split; [reflexivity|]. exists t2. split; [exact Hr2|]. split; [right; exact Hc2|].
    split_and!; try discriminate; auto; [intros us _; apply (canon_not_nil _ _ Hc2)|]. intros key' Hp'. rewrite (Hg2 key' Hp'). apply Hget, Hp'.
  - exists false, (FullNode cs f). split; [reflexivity|]. apply deleted_same; [exact Hfull | right; exact Hcan|].
    rewrite (Hsame eq_refl), (list_insert_id ts _ t Ht) in Hget. rewrite (Hget _ Hp). apply decide_True, eq_refl.
Qed.

Lemma delete_spec db fuel : delete_ok db fuel.
Proof.
  induction fuel as [|fuel IH]; intros d key top n t Hd Hrep Hcan Hp Hfuel; [destruct (is_hash n); lia|].
  destruct Hrep as [top|top w|top k c t f Hc Hf|top cs ts f Hlen Hcs Hf|top t Hb Hst Hbig]; cbn [is_hash] in Hfuel.
  - exists false, NilNode. split; [reflexivity|]. apply deleted_same; [constructor | left; reflexivity | reflexivity].
  - destruct Hcan as [E|Hcan]; [discriminate | inversion Hcan].
  - destruct Hcan as [E|Hcan]; [discriminate|]. apply delete_short; auto; [constructor; assumption | lia].
  - destruct Hcan as [E|Hcan]; [discriminate|]. destruct key as [|x rest]; [destruct (path_nonempty _ Hp eq_refl)|].
    apply delete_full; auto; [constructor; assumption | lia].
  - assert (canon d t) as Hct by (destruct Hcan as [-> | H]; [contradiction | exact H]).
    destruct (resolve_stored db d t Hct Hd Hst Hbig) as [Hres Hr]. cbn [delete]. rewrite Hres. cbn [rbind].
    destruct (IH d key top (shallow (Some (thash t)) t) t) as (dirty & n' & -> & Hdel);
      [exact Hd | apply Hr | exact Hcan | exact Hp | rewrite shallow_not_hash; lia|]. cbn [rbind].
    destruct dirty; eexists _, _; (split; [reflexivity|]); [exact Hdel|].
    apply deleted_same; [apply Hr | exact Hcan | apply (deleted_absent _ _ _ _ _ _ Hdel Hp)].
Qed.

End Ops.
End Ops.
