(* ===== verification/TrieRoot.v ===== *)
(** The root hash, commits and proofs of src/trie.

    Hashing with the cached flags gives the hash of the tree's encoding, a
    committed trie loads back from its root, and what a proof verifies is what
    the trie holds.  The main theorems of the trie are at the end. *)

From stdpp Require Import base list gmap.
From Stdlib Require Import ZArith Lia.
From S2P Require Import Prelude RLP Common Trie TrieTree TrieEncoding TrieOps.
Local Open Scope Z_scope.
Local Open Scope go_scope.

Module Root.
Import Mpt Tree Enc Ops.

Section Root.
Context `{K : Keccak}.

(** * References *)

(** What a node is referred to by: its hash, or itself when it is small. *)
Definition reference (top : bool) (t : tree) (ref : node) : Prop :=
  (ref = HashNode (thash t) /\ (top = false -> 32 <= len (tenc t))) \/
  (encodeNode ref = tenc t /\ len (tenc t) < 32 /\ match ref with ShortNode _ _ _ | FullNode _ _ => True | _ => False end).

Lemma reference_child t ref : is_branch t -> reference false t ref -> encodeChild ref = tchild t.
Proof.
  intros Hb [[-> Hl] | (He & Hl & Hs)].
  - specialize (Hl eq_refl). cbn [encodeChild]. destruct t; try contradiction; cbn [tchild];
      match goal with |- context [?e <? 32] => destruct (Z.ltb_spec e 32); [lia | reflexivity] end.
  - assert (encodeChild ref = if len (encodeNode ref) <? 32 then encodeNode ref else Rlp.EncodeBytes (Keccak256 [encodeNode ref])) as ->
      by (destruct ref; try contradiction; reflexivity).
    rewrite (tchild_inline t Hb Hl), He. destruct (Z.ltb_spec (len (tenc t)) 32); [reflexivity | lia].
Qed.

Lemma encodeNode_short k c f : encodeNode (ShortNode k c f) = Rlp.EncodeList [Rlp.EncodeBytes (hexPrefixEncode k); encodeChild c].
Proof. reflexivity. Qed.
Lemma encodeNode_full cs f : encodeNode (FullNode cs f) = Rlp.EncodeList (map encodeChild cs).
Proof. reflexivity. Qed.

(** The children of a branch, with the first sixteen replaced. *)
Definition splice {A} (xs ys : list A) : list A := take 16 xs ++ drop 16 ys.

Lemma splice_lookup {A} (xs ys : list A) i : length xs = 17%nat -> length ys = 17%nat ->
  splice xs ys !! i = if decide (i < 16)%nat then xs !! i else ys !! i.
Proof.
  intros Hx Hy. unfold splice. destruct (decide (i < 16)%nat) as [Hi|Hi].
  - rewrite lookup_app_l by (rewrite length_take; lia). apply lookup_take_lt. exact Hi.
  - rewrite lookup_app_r by (rewrite length_take; lia). rewrite length_take, lookup_drop. f_equal. lia.
Qed.

Lemma splice_length {A} (xs ys : list A) : length xs = 17%nat -> length ys = 17%nat -> length (splice xs ys) = 17%nat.
Proof. intros Hx Hy. unfold splice. rewrite length_app, length_take, length_drop. lia. Qed.

Lemma map_pointwise {A B C} (f : A -> C) (g : B -> C) (xs : list A) (ys : list B) : length xs = length ys ->
  (forall i x y, xs !! i = Some x -> ys !! i = Some y -> f x = g y) -> map f xs = map g ys.
Proof.
  revert ys. induction xs as [|x xs IH]; intros [|y ys] Hl H; try discriminate; [reflexivity|]. cbn [map]. f_equal.
  - apply (H 0%nat); reflexivity.
  - apply IH; [cbn in Hl; lia|]. intros i. apply (H (S i)).
Qed.

(** A value or an empty slot encodes as itself. *)
Lemma child_end db c t : rep db false c t -> t = TNil \/ (exists v, t = TVal v) -> encodeChild c = tchild t.
Proof.
  intros Hr Ht. inversion Hr; subst; try (destruct Ht as [E|[v E]]; discriminate); try reflexivity.
  destruct Ht as [-> | [v ->]]; contradiction.
Qed.

Lemma full_entry d ts i t : canon (S d) (TFull ts) -> ts !! i = Some t ->
  (i < 16)%nat /\ (t = TNil \/ canon d t) \/ i = 16%nat /\ (t = TNil \/ exists v, t = TVal v).
Proof.
  intros H Hi. apply canon_full_inv in H as (e & [= <-] & Hl & Hc & Hv & _). destruct (Nat.lt_ge_cases i 16) as [Hlt|Hge].
  - left. split; [exact Hlt|]. apply nil_or_canon, (Hc i t Hi Hlt).
  - assert (i = 16%nat) as -> by (apply lookup_lt_Some in Hi; lia). right. split; [reflexivity|].
    destruct t; [auto|..]; destruct (Hv _ Hi ltac:(discriminate)) as (b & Eb & _); try discriminate. eauto.
Qed.

(** The flags after the encoding was hashed. *)
Lemma reference_of db top t f collapsed : flag_ok db top f t -> cached_hash f = None -> encodeNode collapsed = tenc t ->
  match collapsed with ShortNode _ _ _ | FullNode _ _ => True | _ => False end ->
  match referenceFor (encodeNode collapsed) with
  | Some h => h = thash t /\ 32 <= len (tenc t) /\ f_persisted f = false
  | None => reference top t collapsed
  end.
Proof.
  intros (Hf1 & Hf2 & Hf3) Hc He Hsh. unfold referenceFor. rewrite He. destruct (Z.ltb_spec (len (tenc t)) 32) as [Hs|Hs].
  - right. auto.
  - split; [reflexivity|]. split; [exact Hs|]. destruct (f_persisted f) eqn:Ep; [|reflexivity]. destruct (Hf3 eq_refl) as [Hd Hn].
    unfold cached_hash in Hc. rewrite Hd in Hc. specialize (Hn Hc). lia.
Qed.

Lemma flag_hashed db top t : 32 <= len (tenc t) -> flag_ok db top (mkFlag (Some (thash t)) false false) t.
Proof. intros H. split; [intros h [= <-]; auto|]. split; discriminate. Qed.

(** ** Hashing *)

Definition hash_result (db : option Store) (top : bool) (t : tree) (r : node * node) : Prop :=
  reference top t (fst r) /\ rep db top (snd r) t.

Lemma hash_finish db top t f collapsed cached : flag_ok db top f t -> cached_hash f = None -> encodeNode collapsed = tenc t ->
  match collapsed with ShortNode _ _ _ | FullNode _ _ => True | _ => False end ->
  (forall f', flag_ok db top f' t -> rep db top (cached f') t) ->
  hash_result db top t (match referenceFor (encodeNode collapsed) with
    | Some h => (HashNode h, cached (mkFlag (Some h) false (f_persisted f)))
    | None => (collapsed, cached f)
    end).
Proof.
  intros Hf Hc He Hsh Hrep. pose proof (reference_of db top t f collapsed Hf Hc He Hsh) as Hr.
  destruct (referenceFor (encodeNode collapsed)) as [h|].
  - destruct Hr as (-> & Hl & ->). split; [left; auto | apply Hrep, flag_hashed, Hl].
  - split; [exact Hr | apply Hrep, Hf].
Qed.

(** Processing the children of a branch one by one. *)
Section Children.
Context (db db' : option Store) {R : Type} (ref cached : R -> node) (g : node -> R) (nil_result : R).
Hypothesis nil_ref : ref nil_result = NilNode.
Hypothesis nil_cached : cached nil_result = NilNode.

Definition results (cs : list node) : list R := map (fun c => if is_nil c then nil_result else g c) cs.

Lemma children_spec e cs ts : canon (S e) (TFull ts) -> length cs = length ts ->
  (forall i c t, cs !! i = Some c -> ts !! i = Some t -> rep db false c t) ->
  (forall i c t, cs !! i = Some c -> ts !! i = Some t -> rep db' false c t) ->
  (forall i c t, cs !! i = Some c -> ts !! i = Some t -> canon e t -> reference false t (ref (g c)) /\ rep db' false (cached (g c)) t) ->
  Rlp.EncodeList (map encodeChild (splice (map ref (results cs)) cs)) = tenc (TFull ts) /\
  forall top f, flag_ok db' top f (TFull ts) -> rep db' top (FullNode (splice (map cached (results cs)) cs) f) (TFull ts).
Proof.
  intros Hcan Hlen Hcs Hcs' IH. pose proof Hcan as H0. apply canon_full_inv in H0 as (e' & _ & Hl17 & _).
  assert (length (results cs) = 17%nat) as Hlr by (unfold results; rewrite length_map; lia). assert (length cs = 17%nat) as Hlc by lia.
  assert (forall i c t, cs !! i = Some c -> ts !! i = Some t -> (i < 16)%nat -> exists r, results cs !! i = Some r /\
    encodeChild (ref r) = tchild t /\ rep db' false (cached r) t) as Hpt.
  { intros i c t Hi Ht Hlt. eexists. split; [unfold results; rewrite list_lookup_fmap, Hi; reflexivity|]. cbn beta.
    destruct (full_entry _ _ _ _ Hcan Ht) as [[_ [->|Hct]] | [-> _]]; [| |lia].
    - rewrite (proj2 (rep_is_nil _ _ _ _ (Hcs i c TNil Hi Ht)) eq_refl), nil_ref, nil_cached. split; [reflexivity | constructor].
    - assert (is_nil c = false) as ->.
      { destruct (is_nil c) eqn:E; [|reflexivity]. apply (rep_is_nil _ _ _ _ (Hcs i c t Hi Ht)) in E. subst. inversion Hct. }
      destruct (IH i c t Hi Ht Hct) as [Href Hrep]. split; [apply reference_child; [apply (canon_branch _ _ Hct) | exact Href] | exact Hrep]. }
  split.
  - rewrite tenc_full. f_equal. apply map_pointwise; [rewrite splice_length; rewrite ?length_map; auto|].
    intros i c t Hi Ht. rewrite splice_lookup in Hi by (rewrite ?length_map; assumption). destruct (decide (i < 16)%nat) as [Hlt|Hge].
    + destruct (lookup_lt_is_Some_2 cs i) as [c0 Hc0]; [lia|]. destruct (Hpt i c0 t Hc0 Ht Hlt) as (r & Hr & He & _).
      rewrite list_lookup_fmap, Hr in Hi. injection Hi as <-. exact He.
    + destruct (full_entry _ _ _ _ Hcan Ht) as [[Hlt _] | [_ Hend]]; [lia|]. apply (child_end db); [eauto | exact Hend].
  - intros top f Hf. constructor; [rewrite splice_length; rewrite ?length_map; auto| |exact Hf].
    intros i c t Hi Ht. rewrite splice_lookup in Hi by (rewrite ?length_map; assumption). destruct (decide (i < 16)%nat) as [Hlt|Hge]; [|eauto].
    destruct (lookup_lt_is_Some_2 cs i) as [c0 Hc0]; [lia|]. destruct (Hpt i c0 t Hc0 Ht Hlt) as (r & Hr & _ & Hrep).
    rewrite list_lookup_fmap, Hr in Hi. injection Hi as <-. exact Hrep.
Qed.
End Children.

Lemma hash_spec db top n t : rep db top n t -> forall d, canon d t -> hash_result db top t (hashNode n).
Proof.
  induction 1 as [top|top v|top k c t f Hc IH Hf|top cs ts f Hlen Hcs IH Hf|top t Hb Hst Hbig]; intros d Hcan;
    try (inversion Hcan; fail).
  - cbn [hashNode]. destruct (cached_hash f) as [h|] eqn:Eh.
    { destruct (proj1 Hf h Eh) as [-> Hl]. split; [left; auto | constructor; assumption]. }
    set (rc := if is_value c then (c, c) else hashNode c).
    assert (encodeChild (fst rc) = tchild t /\ rep db false (snd rc) t) as [He Hr].
    { pose proof (canon_short_cases _ _ _ Hcan) as [(_ & _ & w & -> & _) | (_ & _ & _ & ts & -> & Hc')]; subst rc.
      - inversion Hc; subst; [|contradiction]. cbn. split; [reflexivity | constructor].
      - assert (is_value c = false) as -> by (inversion Hc; reflexivity). destruct (IH _ Hc') as [Href Hrep].
        split; [apply reference_child; [exact I | exact Href] | exact Hrep]. }
    apply (hash_finish db top (TShort k t) f (ShortNode k (fst rc) f) (fun f' => ShortNode k (snd rc) f')); auto; [|intros f' Hf'; constructor; assumption].
    rewrite encodeNode_short, He. reflexivity.
  - cbn [hashNode]. destruct (cached_hash f) as [h|] eqn:Eh.
    { destruct (proj1 Hf h Eh) as [-> Hl]. split; [left; auto | constructor; assumption]. }
    pose proof Hcan as H0. apply canon_full_inv in H0 as (e & -> & _).
    destruct (children_spec db db fst snd hashNode (NilNode, NilNode) eq_refl eq_refl e cs ts Hcan Hlen Hcs Hcs) as [He Hr].
    { intros i c t Hi Ht Hct. apply (IH i c t Hi Ht e Hct). }
    apply (hash_finish db top (TFull ts) f (FullNode (splice (map fst (results hashNode (NilNode, NilNode) cs)) cs) f)
      (fun f' => FullNode (splice (map snd (results hashNode (NilNode, NilNode) cs)) cs) f')); auto.
  - split; [left; auto | constructor; assumption].
Qed.

(** ** Committing *)

Definition extends (db db' : option Store) : Prop := forall k v, db_get db k = Some v -> db_get db' k = Some v.
Definition holds (db : option Store) (b : Batch) : Prop := forall k v, (k, v) ∈ b -> db_get db k = Some v.

Lemma stored_extends db db' t : extends db db' -> stored db t -> stored db' t.
Proof. intros He Hs u Hu Hb Hl. apply He, Hs; assumption. Qed.

Lemma flag_extends db db' top f t : extends db db' -> flag_ok db top f t -> flag_ok db' top f t.
Proof.
  intros He (H1 & H2 & H3). split; [exact H1|]. split; [|exact H3]. intros h Hs Hh. destruct (H2 h Hs Hh).
  split; [eapply stored_extends; eassumption | apply He; assumption].
Qed.

Lemma rep_extends db db' top n t : extends db db' -> rep db top n t -> rep db' top n t.
Proof.
  intros He H. induction H; constructor; auto; eauto using flag_extends, stored_extends.
Qed.

Lemma holds_app db a b : holds db (a ++ b) <-> holds db a /\ holds db b.
Proof.
  unfold holds. split.
  - intros H. split; intros k v Hi; apply H, elem_of_app; auto.
  - intros [Ha Hb] k v Hi. apply elem_of_app in Hi as [Hi|Hi]; auto.
Qed.

Lemma holds_concat db l b : holds db (concat l) -> b ∈ l -> holds db b.
Proof.
  intros H Hb k v Hi. apply H. clear H. induction l as [|c l IH]; [apply elem_of_nil in Hb; contradiction|].
  cbn [concat]. apply elem_of_app. apply elem_of_cons in Hb as [->|Hb]; auto.
Qed.

Lemma stored_short_intro db k c : stored db c ->
  (32 <= len (tenc (TShort k c)) -> db_get db (nodeKey (thash (TShort k c))) = Some (tenc (TShort k c))) -> stored db (TShort k c).
Proof. intros Hc Hs u Hu Hb Hl. inversion Hu; subst; [apply Hs, Hl | apply Hc; assumption]. Qed.

Lemma stored_full_intro db ts : (forall i c, ts !! i = Some c -> stored db c) ->
  (32 <= len (tenc (TFull ts)) -> db_get db (nodeKey (thash (TFull ts))) = Some (tenc (TFull ts))) -> stored db (TFull ts).
Proof. intros Hc Hs u Hu Hb Hl. inversion Hu; subst; [apply Hs, Hl | eapply Hc; eassumption]. Qed.

Lemma stored_end db t : t = TNil \/ (exists v, t = TVal v) -> stored db t.
Proof. intros [-> | [v ->]] u Hu Hb _; inversion Hu; subst; contradiction. Qed.

Definition commit_result (db' : option Store) (top : bool) (t : tree) (r : node * node * Batch) : Prop :=
  (fst (fst r) = HashNode (thash t) /\ (top = false -> 32 <= len (tenc t)) /\ db_get db' (nodeKey (thash t)) = Some (tenc t) \/
   encodeNode (fst (fst r)) = tenc t /\ len (tenc t) < 32 /\ match fst (fst r) with ShortNode _ _ _ | FullNode _ _ => True | _ => False end) /\
  rep db' top (snd (fst r)) t /\ stored db' t.

Lemma commit_reference db' top t r : commit_result db' top t r -> reference top t (fst (fst r)).
Proof. intros [[(H1 & H2 & _) | H] _]; [left; auto | right; exact H]. Qed.

Lemma commit_stored_flag db db' top t f h n : extends db db' -> flag_ok db top f t -> (if stored_flag f then f_hash f else None) = Some h ->
  rep db top n t -> commit_result db' top t (HashNode h, n, []).
Proof.
  intros He (H1 & H2 & H3) Hh Hr. destruct (stored_flag f) eqn:Es; [|discriminate]. destruct (H2 h eq_refl Hh) as [Hst Hg].
  assert (cached_hash f = Some h) as Hc.
  { unfold stored_flag in Es. apply andb_prop in Es as [_ Es]. unfold cached_hash. destruct (f_dirty f); [discriminate | exact Hh]. }
  destruct (H1 h Hc) as [-> Hl]. split; [left; auto|]. split; [eapply rep_extends; eassumption | eapply stored_extends; eassumption].
Qed.

(** Writing a node whose children are written. *)
Lemma commit_finish db' top t f collapsed cached b : flag_ok db' top f t -> encodeNode collapsed = tenc t ->
  match collapsed with ShortNode _ _ _ | FullNode _ _ => True | _ => False end ->
  ((32 <= len (tenc t) -> db_get db' (nodeKey (thash t)) = Some (tenc t)) -> stored db' t) ->
  (forall f', flag_ok db' top f' t -> rep db' top (cached f') t) ->
  let r := match referenceFor (encodeNode collapsed) with
    | Some h => (HashNode h, cached (mkFlag (Some h) false true), b ++ [(nodeKey h, encodeNode collapsed)])
    | None => (collapsed, cached f, b)
    end in
  holds db' (snd r) -> commit_result db' top t r.
Proof.
  intros Hf He Hsh Hst Hrep r Hh. subst r. unfold referenceFor in *. rewrite He in *.
  destruct (Z.ltb_spec (len (tenc t)) 32) as [Hs|Hs]; cbn [snd] in Hh.
  - split; [right; cbn [fst]; auto|]. split; [apply Hrep, Hf | apply Hst; lia].
  - assert (db_get db' (nodeKey (thash t)) = Some (tenc t)) as Hg by (apply Hh, elem_of_app; right; apply elem_of_cons; auto).
    specialize (Hst (fun _ => Hg)). split; [left; cbn [fst]; auto|]. split; [apply Hrep, flag_loaded; auto | exact Hst].
Qed.

Lemma commit_spec db db' top n t : extends db db' -> rep db top n t -> forall d, canon d t -> holds db' (snd (commitNode n)) ->
  commit_result db' top t (commitNode n).
Proof.
  intros He. induction 1 as [top|top v|top k c t f Hc IH Hf|top cs ts f Hlen Hcs IH Hf|top t Hb Hst Hbig]; intros d Hcan Hh;
    try (inversion Hcan; fail).
  - assert (rep db top (ShortNode k c f) (TShort k t)) as Hrep by (constructor; assumption). cbn [commitNode] in *.
    destruct (if stored_flag f then f_hash f else None) as [h|] eqn:Eh; [eapply commit_stored_flag; eassumption|].
    destruct (if is_value c then (c, c, []) else commitNode c) as [[ref cached] b] eqn:Ec.
    assert (holds db' b) as Hb.
    { destruct (referenceFor _); cbn [snd] in Hh; [apply holds_app in Hh; apply Hh | exact Hh]. }
    assert (encodeChild ref = tchild t /\ rep db' false cached t /\ stored db' t) as (Henc & Hcr & Hcs).
    { pose proof (canon_short_cases _ _ _ Hcan) as [(_ & _ & w & -> & _) | (_ & _ & _ & ts & -> & Hc')].
      - inversion Hc; subst; [|contradiction]. injection Ec as <- <- <-. split; [reflexivity|]. split; [constructor | apply stored_end; eauto].
      - assert (is_value c = false) as Ev by (inversion Hc; reflexivity). rewrite Ev in Ec. rewrite Ec in IH.
        specialize (IH _ Hc' Hb). split; [|split; apply IH]. apply reference_child; [exact I|]. apply (commit_reference _ _ _ _ IH). }
    apply (commit_finish db' top (TShort k t) f (ShortNode k ref f) (fun f' => ShortNode k cached f') b); auto.
    + eapply flag_extends; eassumption.
    + rewrite encodeNode_short, Henc. reflexivity.
    + intros Hs. apply stored_short_intro; assumption.
    + intros f' Hf'. constructor; assumption.
  - assert (rep db top (FullNode cs f) (TFull ts)) as Hrep by (constructor; assumption). cbn [commitNode] in *.
    destruct (if stored_flag f then f_hash f else None) as [h|] eqn:Eh; [eapply commit_stored_flag; eassumption|].
    pose proof Hcan as H0. apply canon_full_inv in H0 as (e & -> & Hl17 & _). set (rcs := map _ cs) in *.
    assert (holds db' (concat (take 16 (map snd rcs)))) as Hb.
    { destruct (referenceFor _); cbn [snd] in Hh; [apply holds_app in Hh; apply Hh | exact Hh]. }
    assert (forall i c t, cs !! i = Some c -> ts !! i = Some t -> canon e t -> commit_result db' false t (commitNode c)) as IH'.
    { intros i c t Hi Ht Hct. apply (IH i c t Hi Ht e Hct). apply (holds_concat _ _ _ Hb).
      destruct (full_entry _ _ _ _ Hcan Ht) as [[Hlt _] | [_ [->|[v ->]]]]; [|inversion Hct..].
      apply list_elem_of_lookup. exists i. rewrite lookup_take_lt by exact Hlt. rewrite list_lookup_fmap. unfold rcs.
      rewrite list_lookup_fmap, Hi. cbn. destruct (is_nil c) eqn:E; [|reflexivity].
      apply (rep_is_nil _ _ _ _ (Hcs i c t Hi Ht)) in E. subst. inversion Hct. }
    destruct (children_spec db db' (fun r => fst (fst r)) (fun r => snd (fst r)) commitNode (NilNode, NilNode, []) eq_refl eq_refl e cs ts Hcan Hlen Hcs)
      as [Henc Hr].
    { intros i c t Hi Ht. eapply rep_extends; eauto. }
    { intros i c t Hi Ht Hct. specialize (IH' i c t Hi Ht Hct). split; [apply (commit_reference _ _ _ _ IH') | apply IH']. }
    apply (commit_finish db' top (TFull ts) f (FullNode (splice (map (fun r => fst (fst r)) rcs) cs) f)
      (fun f' => FullNode (splice (map (fun r => snd (fst r)) rcs) cs) f') (concat (take 16 (map snd rcs)))); auto.
    + eapply flag_extends; eassumption.
    + intros Hs. apply stored_full_intro; [|exact Hs]. intros i t Ht. destruct (lookup_lt_is_Some_2 cs i) as [c Hc]; [apply lookup_lt_Some in Ht; lia|].
      destruct (full_entry _ _ _ _ Hcan Ht) as [[Hlt [->|Hct]] | [_ Hend]]; [apply stored_end; auto | apply (IH' i c t Hc Ht Hct) | apply stored_end, Hend].
  - split; [left; cbn [fst]; split_and!; auto; apply He, Hst; auto; constructor|].
    split; [constructor; [exact Hb | eapply stored_extends; eassumption | exact Hbig] | eapply stored_extends; eassumption].
Qed.

(** * Tries as finite maps of byte strings *)

Lemma byte_nibbles_check :
  forallb (fun b => (0 <=? Z.shiftr b 4) && (Z.shiftr b 4 <? 16) && (0 <=? Z.land b 15) && (Z.land b 15 <? 16) &&
    (16 * Z.shiftr b 4 + Z.land b 15 =? b)) (seqZ 0 256) = true.
Proof. vm_compute. reflexivity. Qed.

Lemma byte_nibbles b : byte_ok b -> 0 <= Z.shiftr b 4 < 16 /\ 0 <= Z.land b 15 < 16 /\ 16 * Z.shiftr b 4 + Z.land b 15 = b.
Proof.
  intros Hb. pose proof byte_nibbles_check as H. rewrite forallb_forall in H.
  specialize (H b ltac:(apply list_elem_of_In, elem_of_seqZ; unfold byte_ok in Hb; lia)). cbv beta in H.
  repeat (apply andb_prop in H as [H ?]). lia.
Qed.

Lemma keyToNibbles_path key : bytes_ok key -> path (keyToNibbles key).
Proof.
  intros H. exists (concat (map (fun b => [Z.shiftr b 4; Z.land b 15]) key)). split; [|reflexivity].
  induction H as [|b key Hb Hk IH]; [constructor|]. cbn [map concat app]. destruct (byte_nibbles b Hb) as (H1 & H2 & _).
  constructor; [exact H1|]. constructor; [exact H2 | exact IH].
Qed.

Lemma keyToNibbles_inj a : forall b, bytes_ok a -> bytes_ok b -> keyToNibbles a = keyToNibbles b -> a = b.
Proof.
  unfold keyToNibbles. induction a as [|x a IH]; intros [|y b] Ha Hb E; cbn [map concat app] in E; [reflexivity|..].
  - injection E as E _. apply Forall_cons_1 in Hb as [Hy _]. destruct (byte_nibbles y Hy) as (H & _). lia.
  - injection E as E _. apply Forall_cons_1 in Ha as [Hx _]. destruct (byte_nibbles x Hx) as (H & _). lia.
  - injection E as E1 E2 E3. apply Forall_cons_1 in Ha as [Hx Ha]. apply Forall_cons_1 in Hb as [Hy Hb].
    destruct (byte_nibbles x Hx) as (_ & _ & Ex), (byte_nibbles y Hy) as (_ & _ & Ey). f_equal; [lia | apply IH; assumption].
Qed.

Lemma keyToNibbles_length key : length (keyToNibbles key) = (2 * length key + 1)%nat.
Proof. unfold keyToNibbles. rewrite length_app. induction key as [|b key IH]; [reflexivity|]. cbn [map concat app length] in *. lia. Qed.

(** Paths are bounded far above any key in use. *)
Definition max_depth : nat := Z.to_nat max_item.
Lemma max_depth_ok : depth_ok max_depth.
Proof. unfold depth_ok, max_depth, max_item. rewrite Z2Nat.id; lia. Qed.

Definition key_ok (key : bytes) : Prop := bytes_ok key /\ 2 * len key + 1 <= max_item.

Lemma key_depth key : key_ok key -> (length (keyToNibbles key) <= max_depth)%nat.
Proof. intros [_ H]. rewrite keyToNibbles_length. unfold max_depth, len in *. lia. Qed.

(** The tree holds exactly the entries of [m]. *)
Definition contents (t : tree) (m : gmap bytes bytes) : Prop :=
  forall p v, path p -> tget t p = Some v <-> exists key, bytes_ok key /\ p = keyToNibbles key /\ m !! key = Some v.

(** The trie implements the map [m] over the store. *)
Definition models (db : option Store) (t : Trie) (m : gmap bytes bytes) : Prop :=
  exists u, rep db true (root t) u /\ canon_root max_depth u /\ contents u m.

Lemma contents_get t m key : contents t m -> bytes_ok key -> tget t (keyToNibbles key) = m !! key.
Proof.
  intros H Hk. apply option_eq. intros v. rewrite (H _ v (keyToNibbles_path key Hk)). split.
  - intros (key' & Hk' & E & Hm). apply keyToNibbles_inj in E; [subst; exact Hm | assumption..].
  - intros Hm. exists key. auto.
Qed.

Lemma contents_update t t' m key (o : option bytes) : contents t m -> bytes_ok key ->
  (forall p, path p -> tget t' p = if decide (p = keyToNibbles key) then o else tget t p) ->
  contents t' (partial_alter (fun _ => o) key m).
Proof.
  intros H Hk Hg p v Hp. rewrite (Hg p Hp). destruct (decide (p = keyToNibbles key)) as [->|Hne].
  - split.
    + intros ->. exists key. rewrite lookup_partial_alter_eq. auto.
    + intros (key' & Hk' & E & Hm). apply keyToNibbles_inj in E; [|assumption..]. subst key'. rewrite lookup_partial_alter_eq in Hm. exact Hm.
  - rewrite (H p v Hp). split; intros (key' & Hk' & -> & Hm); exists key'; (split; [exact Hk'|]); (split; [reflexivity|]);
      (assert (key <> key') as Hkk by congruence); rewrite lookup_partial_alter_ne in * by exact Hkk; exact Hm.
Qed.

Lemma root_fuel db t u key : rep db true (root t) u -> (2 * length key + (if is_hash (root t) then 2 else 1) <= fuel_for key)%nat.
Proof. intros _. unfold fuel_for. destruct (is_hash _); lia. Qed.

Lemma models_get db t m key : models db t m -> key_ok key ->
  exists t', Get db t key = Ok (default [] (m !! key), t') /\ models db t' m.
Proof.
  intros (u & Hr & Hc & Hm) Hk. unfold Get. pose proof (keyToNibbles_path key (proj1 Hk)) as Hp.
  destruct (get_spec db max_depth (keyToNibbles key) (fuel_for (keyToNibbles key)) true (root t) u max_depth_ok Hr) as (n' & did & -> & Hr').
  - destruct Hc as [->|Hc]; [left; reflexivity | right; right; auto].
  - apply (root_fuel db t u), Hr.
  - cbn [rbind]. rewrite (contents_get u m key Hm (proj1 Hk)). eexists. split; [reflexivity|].
    destruct did; [exists u; auto | exists u; auto].
Qed.

Lemma models_delete db t m key : models db t m -> key_ok key -> exists n b, 
  delete (fuel_for (keyToNibbles key)) db (root t) (keyToNibbles key) = Ok (b, n) /\ forall c, models db (mkTrie n c) (base.delete key m).
Proof.
  intros (u & Hr & Hc & Hm) Hk. pose proof (keyToNibbles_path key (proj1 Hk)) as Hp.
  destruct (delete_spec db (fuel_for (keyToNibbles key)) max_depth (keyToNibbles key) true (root t) u max_depth_ok Hr Hc Hp (root_fuel db t u _ Hr))
    as (dirty & n' & -> & u' & Hr' & Hc' & _ & _ & _ & Hg).
  exists n', dirty. split; [reflexivity|]. intros c. exists u'. split; [exact Hr'|]. split; [exact Hc'|].
  apply (contents_update u u' m key None Hm (proj1 Hk) Hg).
Qed.

Lemma models_insert db t m key v : models db t m -> key_ok key -> val_ok v -> exists n b,
  insert (fuel_for (keyToNibbles key)) db (root t) (keyToNibbles key) (ValueNode v) = Ok (b, n) /\ forall c, models db (mkTrie n c) (<[key := v]> m).
Proof.
  intros (u & Hr & Hc & Hm) Hk Hv. pose proof (keyToNibbles_path key (proj1 Hk)) as Hp.
  destruct (insert_spec db v Hv (fuel_for (keyToNibbles key)) max_depth (keyToNibbles key) true (root t) u max_depth_ok Hr Hc Hp (key_depth key Hk)
    (root_fuel db t u _ Hr)) as (dirty & n' & -> & u' & Hr' & Hc' & _ & _ & Hg).
  exists n', dirty. split; [reflexivity|]. intros c. exists u'. split; [exact Hr'|]. split; [right; exact Hc'|].
  apply (contents_update u u' m key (Some v) Hm (proj1 Hk) Hg).
Qed.

Lemma models_update db t m key v : models db t m -> key_ok key -> val_ok v ->
  exists t', Update db t key v = Ok t' /\ models db t' (<[key := v]> m).
Proof.
  intros Hm Hk Hv. destruct (models_insert db t m key v Hm Hk Hv) as (n & b & E & Hn). eexists. unfold Update.
  destruct (Z.eqb_spec (len v) 0) as [Hz|_]; [destruct Hv as (Hv & _); destruct v; [contradiction | unfold len in Hz; cbn [length] in Hz; lia]|].
  rewrite E. split; [reflexivity | apply Hn].
Qed.

Lemma models_empty db : models db NewEmpty ∅.
Proof.
  exists TNil. split; [constructor|]. split; [left; reflexivity|]. intros p v _. cbn [tget].
  split; [discriminate | intros (key & _ & _ & Hm); rewrite lookup_empty in Hm; discriminate].
Qed.

(** The root of a tree. *)
Definition troot (t : tree) : Hash := match t with TNil => EmptyRoot | _ => thash t end.

Lemma troot_canon d t : canon d t -> troot t = thash t.
Proof. destruct 1; reflexivity. Qed.

Lemma hash_root db t u d : depth_ok d -> rep db true (root t) u -> canon_root d u ->
  fst (TrieHash t) = troot u /\ rep db true (root (snd (TrieHash t))) u.
Proof.
  intros Hd Hr Hc. unfold TrieHash. destruct Hc as [->|Hc].
  - rewrite (proj2 (rep_is_nil _ _ _ _ Hr) eq_refl). split; [reflexivity | exact Hr].
  - assert (is_nil (root t) = false) as ->.
    { destruct (is_nil (root t)) eqn:E; [|reflexivity]. apply (rep_is_nil _ _ _ _ Hr) in E. subst. inversion Hc. }
    destruct (hash_spec db true (root t) u Hr d Hc) as [Href Hrep]. destruct (hashNode (root t)) as [ref cached]. cbn [fst snd] in *.
    split; [|exact Hrep]. rewrite (troot_canon _ _ Hc). destruct Href as [[-> _] | (He & _ & Hs)].
    + apply fit_right_id, thash_ok.
    + destruct ref; try contradiction; rewrite He; reflexivity.
Qed.

Lemma commit_root db db' t u d : depth_ok d -> rep db true (root t) u -> canon_root d u -> extends db db' -> holds db' (snd (Commit t)) ->
  fst (fst (Commit t)) = troot u /\ rep db' true (root (snd (fst (Commit t)))) u /\
  (u <> TNil -> db_get db' (nodeKey (troot u)) = Some (tenc u)) /\ stored db' u.
Proof.
  intros Hd Hr Hc He Hh. unfold Commit in *. destruct Hc as [->|Hc].
  - rewrite (proj2 (rep_is_nil _ _ _ _ Hr) eq_refl) in *. split_and!; [reflexivity | eapply rep_extends; eassumption | contradiction | apply stored_end; auto].
  - assert (is_nil (root t) = false) as Hn.
    { destruct (is_nil (root t)) eqn:E; [|reflexivity]. apply (rep_is_nil _ _ _ _ Hr) in E. subst. inversion Hc. }
    rewrite Hn in *. destruct (commitNode (root t)) as [[ref cached] b] eqn:Ec.
    assert (holds db' b) as Hb by (destruct ref; cbn [snd] in Hh; try exact Hh; apply holds_app in Hh; apply Hh).
    assert (commit_result db' true u (ref, cached, b)) as (Href & Hrep & Hst).
    { rewrite <- Ec in *. apply (commit_spec db db' true (root t) u He Hr d Hc). rewrite Ec. exact Hb. }
    cbn [fst snd] in *. rewrite (troot_canon _ _ Hc). destruct Href as [(-> & _ & Hg) | (Henc & _ & Hs)].
    + cbn [fst snd root]. split_and!; auto. apply fit_right_id, thash_ok.
    + destruct ref; try contradiction; cbn [fst snd root]; rewrite Henc in *;
        (split_and!; auto; intros _; apply Hh, elem_of_app; right; apply elem_of_cons; left; reflexivity).
Qed.

Lemma contents_unique d e t u m : canon_root d t -> canon_root e u -> contents t m -> contents u m -> t = u.
Proof.
  intros Ht Hu Hmt Hmu. assert (same_content t u) as Hs by (intros p Hp; apply option_eq; intros v; rewrite (Hmt p v Hp), (Hmu p v Hp); reflexivity).
  destruct Ht as [->|Ht], Hu as [->|Hu]; [reflexivity|..].
  - destruct (canon_inhabited _ _ Hu) as (p & v & Hp & Hg). rewrite <- (Hs p Hp) in Hg. discriminate.
  - destruct (canon_inhabited _ _ Ht) as (p & v & Hp & Hg). rewrite (Hs p Hp) in Hg. discriminate.
  - eapply canon_unique; eassumption.
Qed.

(** No two different encodings are written under one key. *)
Definition no_collision (st : Store) (b : Batch) : Prop :=
  forall k e e', (k, e) ∈ b -> (k, e') ∈ b \/ st !! k = Some e' -> e' = e.

Lemma write_batch_spec b : forall st, no_collision st b -> holds (Some (write_batch st b)) b /\ extends (Some st) (Some (write_batch st b)).
Proof.
  induction b as [|[k e] b IH]; intros st Hn; cbn [write_batch fold_left fst snd].
  { split; [intros k v H; apply elem_of_nil in H; contradiction | intros k v H; exact H]. }
  assert (no_collision (<[k := e]> st) b) as Hn'.
  { intros k' a a' Ha Hor. apply (Hn k' a a' (list_elem_of_further _ _ _ Ha)). destruct Hor as [H|H]; [left; apply list_elem_of_further, H|].
    destruct (decide (k = k')) as [<-|Hne].
    - rewrite lookup_insert_eq in H. injection H as <-. left. apply list_elem_of_here.
    - rewrite lookup_insert_ne in H by exact Hne. auto. }
  destruct (IH _ Hn') as [Hh He]. split.
  - intros k' v Hi. apply elem_of_cons in Hi as [[= -> ->]|Hi]; [|apply Hh, Hi]. apply He. cbn. apply lookup_insert_eq.
  - intros k' v Hv. apply He. cbn in *. destruct (decide (k = k')) as [<-|Hne].
    + rewrite lookup_insert_eq. f_equal. symmetry. apply (Hn k e v); [apply list_elem_of_here | auto].
    + rewrite lookup_insert_ne by exact Hne. exact Hv.
Qed.

(** ** Proofs *)

Definition tree_of (db : option Store) (t : Trie) (u : tree) : Prop := rep db true (root t) u /\ canon_root max_depth u.

(** No node of a proof has the hash of another node of the tree. *)
Definition collision_free (proof : list bytes) (u : tree) : Prop :=
  forall e w, e ∈ proof -> sub w u -> is_branch w -> Keccak256 [e] = thash w -> e = tenc w.

Lemma proof_nodes_get proof : forall (m : gmap Hash bytes) h e, fold_left (fun m enc => <[Keccak256 [enc] := enc]> m) proof m !! h = Some e ->
  (m !! h = Some e) \/ (e ∈ proof /\ h = Keccak256 [e]).
Proof.
  induction proof as [|x proof IH]; intros m h e; cbn [fold_left]; [auto|]. intros H. apply IH in H as [H | [H ->]].
  - destruct (decide (Keccak256 [x] = h)) as [<-|Hne].
    + rewrite lookup_insert_eq in H. injection H as ->. right. split; [apply list_elem_of_here | reflexivity].
    + rewrite lookup_insert_ne in H by exact Hne. auto.
  - right. split; [apply list_elem_of_further, H | reflexivity].
Qed.

Lemma proof_nodes_has proof : forall (m : gmap Hash bytes) e, e ∈ proof \/ is_Some (m !! Keccak256 [e]) ->
  is_Some (fold_left (fun m enc => <[Keccak256 [enc] := enc]> m) proof m !! Keccak256 [e]).
Proof.
  induction proof as [|x proof IH]; intros m e; cbn [fold_left].
  - intros [H|H]; [apply elem_of_nil in H; contradiction | exact H].
  - intros H. apply IH. destruct (decide (Keccak256 [x] = Keccak256 [e])) as [E|Hne]; [right; rewrite E, lookup_insert_eq; eauto|].
    rewrite lookup_insert_ne by exact Hne. destruct H as [H|H]; [|auto]. apply elem_of_cons in H as [->|H]; [contradiction | auto].
Qed.

Lemma proof_load_sound d proof u w n : depth_ok d -> collision_free proof u -> sub w u -> canon d w ->
  proof_load (proof_nodes proof) (thash w) = Ok n -> n = shallow (Some (thash w)) w.
Proof.
  intros Hd Hcf Hs Hc. unfold proof_load. destruct (proof_nodes proof !! thash w) as [e|] eqn:E; [|discriminate].
  apply proof_nodes_get in E as [E | [Hin Hh]]; [rewrite lookup_empty in E; discriminate|].
  rewrite (Hcf e w Hin Hs (canon_branch _ _ Hc) (eq_sym Hh)), (decodeNode_tenc d w _ Hc Hd). intros [= <-]. reflexivity.
Qed.

Lemma proof_load_complete d proof u w : depth_ok d -> collision_free proof u -> sub w u -> canon d w -> tenc w ∈ proof ->
  proof_load (proof_nodes proof) (thash w) = Ok (shallow (Some (thash w)) w).
Proof.
  intros Hd Hcf Hs Hc Hin. destruct (proof_nodes_has proof ∅ (tenc w) (or_introl Hin)) as [e He].
  destruct (proof_load (proof_nodes proof) (thash w)) as [n|err] eqn:E.
  - f_equal. eapply proof_load_sound; eassumption.
  - exfalso. unfold proof_load, proof_nodes in E. unfold thash in E at 1. rewrite He in E.
    apply proof_nodes_get in He as [He | [Hin' Hh]]; [rewrite lookup_empty in He; discriminate|].
    rewrite (Hcf e w Hin' Hs (canon_branch _ _ Hc) (eq_sym Hh)), (decodeNode_tenc d w _ Hc Hd) in E. discriminate.
Qed.

(** Walking below a short or a branch. *)
Lemma sub_trans a b c : sub a b -> sub b c -> sub a c.
Proof. intros H1 H2. induction H2; eauto using sub. Qed.

Lemma asks_short d k c key r : asks d (TShort k c) key -> key = k ++ r -> asks d c r.
Proof.
  intros [E | [(w & E & _) | [Hcan Hp]]] ->; try discriminate.
  apply canon_short_cases in Hcan as [(Hpk & Hd & w & -> & Hw) | (Hn & Hne & Hd & ts & -> & Hc)].
  - right; left. exists w. split; [reflexivity|]. apply (path_prefix k); assumption.
  - right; right. split; [apply (canon_mono _ _ Hc); lia | apply (nibs_not_path k); assumption].
Qed.

Lemma asks_full d ts x r : asks d (TFull ts) (x :: r) -> exists t, ts !! Z.to_nat x = Some t /\ asks d t r.
Proof.
  intros [E | [(w & E & _) | [Hcan Hp]]]; try discriminate. pose proof Hcan as H0. apply canon_full_inv in H0 as (e & -> & Hl & _).
  destruct (lookup_lt_is_Some_2 ts (Z.to_nat x)) as [t Ht]; [pose proof (path_range _ _ Hp); lia|]. exists t. split; [exact Ht|].
  destruct (asks_child _ _ _ _ _ Hcan Hp Ht) as [->|[H|[Hc Hr]]]; [left; reflexivity | right; left; exact H|].
  right; right. split; [apply (canon_mono _ _ Hc); lia | exact Hr].
Qed.

Lemma tref_nil_iff t : is_nil (tref t) = true <-> t = TNil.
Proof. destruct t; cbn; split; try discriminate; auto; destruct (_ <? 32); discriminate. Qed.

Lemma child_map ts x t : ts !! Z.to_nat x = Some t -> child (map tref ts) x = tref t.
Proof. intros H. rewrite child_lookup, list_lookup_fmap, H. reflexivity. Qed.

(** Where a walk stands: at the node a subtree decodes to. *)
Definition stands (cur : node) (w : tree) : Prop := cur = tref w \/ exists h, cur = shallow h w.

Lemma stands_cases cur w : stands cur w -> is_branch w -> cur = HashNode (thash w) \/ exists h, cur = shallow h w.
Proof. intros [-> | H] Hb; [|auto]. destruct w; try contradiction; cbn [tref]; destruct (_ <? 32); eauto. Qed.

Lemma verify_sound d proof u fuel : depth_ok d -> collision_free proof u -> forall cur w nibbles v, sub w u -> stands cur w -> asks d w nibbles ->
  verify_loop fuel (proof_nodes proof) cur nibbles = Ok v -> v = default [] (tget w nibbles).
Proof.
  intros Hd Hcf. induction fuel as [|fuel IH]; intros cur w nibbles v Hs Hst Hask Hv; [discriminate|].
  destruct w as [|b|k c|ts].
  - assert (cur = NilNode) as -> by (destruct Hst as [-> | [h ->]]; reflexivity). injection Hv as <-. reflexivity.
  - assert (cur = ValueNode b) as -> by (destruct Hst as [-> | [h ->]]; reflexivity).
    destruct Hask as [E | [(w & [= <-] & ->) | [Hc _]]]; [discriminate| |inversion Hc]. injection Hv as <-. reflexivity.
  - assert (canon d (TShort k c)) as Hcan by (destruct Hask as [E | [(w & E & _) | [H _]]]; [discriminate.. | exact H]).
    destruct (stands_cases _ _ Hst I) as [-> | [h ->]].
    + cbn [verify_loop] in Hv. unfold BytesToHash in Hv. rewrite fit_right_id in Hv by apply thash_ok.
      destruct (proof_load _ _) as [n|] eqn:El; [|discriminate]. cbn [rbind] in Hv. apply (IH n (TShort k c)); auto.
      right. exists (Some (thash (TShort k c))). eapply proof_load_sound; eassumption.
    + rewrite shallow_short in Hv. cbn [verify_loop] in Hv. rewrite get_mismatch in Hv. cbn [tget].
      destruct (strip k nibbles) as [r|] eqn:Es; [|injection Hv as <-; reflexivity]. apply strip_Some in Es.
      pose proof (asks_short _ _ _ _ _ Hask Es) as Hask'. subst nibbles. rewrite drop_app_length in Hv.
      apply (IH (tref c) c); auto; [eapply sub_trans; [|exact Hs]; eauto using sub | left; reflexivity].
  - assert (canon d (TFull ts)) as Hcan by (destruct Hask as [E | [(w & E & _) | [H _]]]; [discriminate.. | exact H]).
    destruct (stands_cases _ _ Hst I) as [-> | [h ->]].
    + cbn [verify_loop] in Hv. unfold BytesToHash in Hv. rewrite fit_right_id in Hv by apply thash_ok.
      destruct (proof_load _ _) as [n|] eqn:El; [|discriminate]. cbn [rbind] in Hv. apply (IH n (TFull ts)); auto.
      right. exists (Some (thash (TFull ts))). eapply proof_load_sound; eassumption.
    + rewrite shallow_full in Hv. cbn [verify_loop] in Hv. destruct nibbles as [|x r]; [injection Hv as <-; reflexivity|].
      destruct (asks_full _ _ _ _ Hask) as (t & Ht & Hask'). rewrite tget_full, Ht. rewrite (child_map _ _ _ Ht) in Hv.
      destruct (is_nil (tref t)) eqn:En; [apply tref_nil_iff in En; subst t; injection Hv as <-; reflexivity|].
      apply (IH (tref t) t); auto; [eapply sub_trans; [|exact Hs]; eauto using sub | left; reflexivity].
Qed.

(** The encoding [Prove] emits for a node is that of its tree. *)
Lemma prove_short db top k c f t d : rep db top (ShortNode k c f) (TShort k t) -> canon d (TShort k t) ->
  encodeNode (ShortNode k (if is_value c then c else fst (hashNode c)) f) = tenc (TShort k t).
Proof.
  intros Hr Hcan. inversion Hr as [| |tp k' c' t' f' Hc Hf| |]; subst. rewrite encodeNode_short, tenc_short. do 3 f_equal.
  pose proof (canon_short_cases _ _ _ Hcan) as [(_ & _ & w & -> & _) | (_ & _ & _ & ts & -> & Hc')].
  - inversion Hc; subst; [reflexivity | contradiction].
  - assert (is_value c = false) as -> by (inversion Hc; reflexivity).
    apply reference_child; [exact I|]. apply (hash_spec db false c (TFull ts) Hc _ Hc').
Qed.

Lemma prove_full db top cs f ts d : rep db top (FullNode cs f) (TFull ts) -> canon d (TFull ts) ->
  encodeNode (FullNode (take 16 (map (fun c => if is_nil c then NilNode else fst (hashNode c)) cs) ++ drop 16 cs) f) = tenc (TFull ts).
Proof.
  intros Hr Hcan. pose proof Hcan as H0. apply canon_full_inv in H0 as (e & -> & _).
  inversion Hr as [| | |tp us uts f' Hlen Hcs Hf|]; subst.
  destruct (children_spec db db fst snd hashNode (NilNode, NilNode) eq_refl eq_refl e cs ts Hcan Hlen Hcs Hcs) as [He _].
  { intros i c t Hi Ht Hct. apply (hash_spec db false c t (Hcs i c t Hi Ht) e Hct). }
  rewrite encodeNode_full, <- He. unfold splice, results. rewrite map_map. do 4 f_equal. apply map_ext. intros c. destruct (is_nil c); reflexivity.
Qed.

(** A walk at a node of the proof goes on with its decoding. *)
Lemma verify_enter d proof u w cur nibbles fuel : depth_ok d -> collision_free proof u -> sub w u -> canon d w -> tenc w ∈ proof -> stands cur w ->
  (2 * length nibbles + (if is_hash cur then 2 else 1) <= fuel)%nat ->
  exists h fuel', (2 * length nibbles + 1 <= fuel')%nat /\
    verify_loop fuel (proof_nodes proof) cur nibbles = verify_loop fuel' (proof_nodes proof) (shallow h w) nibbles.
Proof.
  intros Hd Hcf Hs Hc Hin Hst Hf. destruct (stands_cases _ _ Hst (canon_branch _ _ Hc)) as [-> | [h ->]].
  - cbn [is_hash] in Hf. destruct fuel as [|fuel]; [lia|]. exists (Some (thash w)), fuel. split; [lia|]. cbn [verify_loop].
    unfold BytesToHash. rewrite fit_right_id by apply thash_ok. rewrite (proof_load_complete d proof u w Hd Hcf Hs Hc Hin). reflexivity.
  - rewrite shallow_not_hash in Hf. eauto.
Qed.

Definition verifies (u : tree) (w : tree) (nibbles : bytes) (p : list bytes) : Prop :=
  forall proof cur fuel, (forall e, e ∈ p -> e ∈ proof) -> collision_free proof u -> sub w u -> stands cur w ->
    (2 * length nibbles + (if is_hash cur then 2 else 1) <= fuel)%nat ->
    verify_loop fuel (proof_nodes proof) cur nibbles = Ok (default [] (tget w nibbles)).

Lemma stands_tref w : stands (tref w) w.
Proof. left. reflexivity. Qed.

Lemma prove_complete db u fuel : forall d top n w nibbles, depth_ok d -> rep db top n w -> asks d w nibbles ->
  (2 * length nibbles + (if is_hash n then 2 else 1) <= fuel)%nat ->
  exists p, prove_loop fuel db n nibbles = Ok p /\ (is_branch w -> tenc w ∈ p) /\ verifies u w nibbles p.
Proof.
  induction fuel as [|fuel IH]; intros d top n w nibbles Hd Hrep Hask Hfuel; [destruct (is_hash n); lia|]. cbn [prove_loop].
  destruct Hrep as [top|top v|top k c t f Hc Hf|top cs ts f Hlen Hcs Hf|top t Hb Hst Hbig]; cbn [is_hash] in Hfuel.
  - exists []. split; [reflexivity|]. split; [contradiction|]. intros proof cur f _ _ _ Hst Hf.
    assert (cur = NilNode) as -> by (destruct Hst as [-> | [h ->]]; reflexivity). cbn [is_hash] in Hf. destruct f; [lia | reflexivity].
  - exists []. split; [reflexivity|]. split; [contradiction|]. intros proof cur f _ _ _ Hst Hf.
    assert (cur = ValueNode v) as -> by (destruct Hst as [-> | [h ->]]; reflexivity). cbn [is_hash] in Hf. destruct f; [lia|].
    destruct Hask as [E | [(w & [= <-] & ->) | [Hc _]]]; [discriminate | reflexivity | inversion Hc].
  - assert (canon d (TShort k t)) as Hcan by (destruct Hask as [E | [(w & E & _) | [H _]]]; [discriminate.. | exact H]).
    rewrite (prove_short db top k c f t d) by (assumption || (constructor; assumption)). rewrite get_mismatch.
    destruct (strip k nibbles) as [r|] eqn:Es.
    + apply strip_Some in Es. pose proof (asks_short _ _ _ _ _ Hask Es) as Hask'. subst nibbles. rewrite drop_app_length, length_app in *.
      assert (1 <= length k)%nat as Hk by (apply canon_short_cases in Hcan as [(Hp & _) | (_ & Hn & _)];
        [apply path_nonempty in Hp|]; (destruct k; [contradiction | cbn; lia])).
      destruct (IH d false c t r Hd Hc Hask') as (p & -> & _ & Hver); [destruct (is_hash c); lia|]. cbn [rbind].
      eexists. split; [reflexivity|]. split; [intros _; apply list_elem_of_here|]. intros proof cur fl Hp Hcf Hs Hst Hfl.
      destruct (verify_enter d proof u _ cur (k ++ r) fl Hd Hcf Hs Hcan (Hp _ (list_elem_of_here _ _)) Hst Hfl) as (h & fl' & Hfl' & ->).
      rewrite length_app in Hfl'. destruct fl' as [|fl']; [lia|]. rewrite shallow_short. cbn [verify_loop]. rewrite get_mismatch, strip_app, drop_app_length, tget_short.
      apply Hver; [intros e He; apply Hp, list_elem_of_further, He | exact Hcf | eapply sub_trans; [|exact Hs]; eauto using sub | apply stands_tref |].
      destruct (is_hash (tref t)); lia.
    + eexists. split; [reflexivity|]. split; [intros _; apply list_elem_of_here|]. intros proof cur fl Hp Hcf Hs Hst Hfl.
      destruct (verify_enter d proof u _ cur nibbles fl Hd Hcf Hs Hcan (Hp _ (list_elem_of_here _ _)) Hst Hfl) as (h & fl' & Hfl' & ->).
      destruct fl' as [|fl']; [lia|]. rewrite shallow_short. cbn [verify_loop tget]. rewrite get_mismatch, Es. reflexivity.
  - assert (canon d (TFull ts)) as Hcan by (destruct Hask as [E | [(w & E & _) | [H _]]]; [discriminate.. | exact H]).
    assert (rep db top (FullNode cs f) (TFull ts)) as Hrep by (constructor; assumption). rewrite (prove_full db top cs f ts d Hrep Hcan).
    destruct nibbles as [|x r]; [destruct Hask as [E | [(w & E & _) | [_ Hp]]]; [discriminate.. | destruct (path_nonempty _ Hp eq_refl)]|].
    destruct (asks_full _ _ _ _ Hask) as (t & Ht & Hask').
    assert (path (x :: r)) as Hpx by (destruct Hask as [E | [(w & E & _) | [_ H]]]; [discriminate.. | exact H]).
    pose proof Hcan as H0. apply canon_full_inv in H0 as (e & _ & Hl17 & _).
    destruct (full_child _ _ _ _ _ _ Hrep Hl17 (path_range _ _ Hpx)) as (t' & Ht' & Hct). rewrite Ht in Ht'. injection Ht' as <-. cbn [length] in *.
    destruct (IH d false (child cs x) t r Hd Hct Hask') as (p & -> & _ & Hver); [destruct (is_hash (child cs x)); lia|]. cbn [rbind].
    eexists. split; [reflexivity|]. split; [intros _; apply list_elem_of_here|]. intros proof cur fl Hp Hcf Hs Hst Hfl.
    destruct (verify_enter d proof u _ cur (x :: r) fl Hd Hcf Hs Hcan (Hp _ (list_elem_of_here _ _)) Hst Hfl) as (h & fl' & Hfl' & ->).
    cbn [length] in Hfl'. destruct fl' as [|fl']; [lia|]. rewrite shallow_full. cbn [verify_loop]. rewrite (child_map _ _ _ Ht), tget_full, Ht.
    destruct (is_nil (tref t)) eqn:En; [apply tref_nil_iff in En; subst t; reflexivity|].
    apply Hver; [intros q Hq; apply Hp, list_elem_of_further, Hq | exact Hcf | eapply sub_trans; [|exact Hs]; eauto using sub | apply stands_tref |].
    destruct (is_hash (tref t)); lia.
  - assert (canon d t) as Hcan by (destruct Hask as [-> | [(w & -> & _) | [H _]]]; [contradiction.. | exact H]).
    destruct (resolve_stored db d t Hcan Hd Hst Hbig) as [-> Hr]. cbn [rbind].
    apply (IH d top (shallow (Some (thash t)) t) t nibbles Hd (Hr top) Hask). rewrite shallow_not_hash. lia.
Qed.

(** * Binding *)

(** Two different subtrees with one hash. *)
Definition clash (t u : tree) : Prop :=
  exists a b, sub a t /\ sub b u /\ is_branch a /\ is_branch b /\ tenc a <> tenc b /\ thash a = thash b.

Lemma clash_sub t t' u u' : clash t u -> sub t t' -> sub u u' -> clash t' u'.
Proof. intros (a & b & Ha & Hb & H) Ht Hu. exists a, b. eauto using sub_trans. Qed.

Lemma canon_shallow_eq d e t u : depth_ok d -> depth_ok e -> canon d t -> canon e u -> tenc t = tenc u -> shallow None t = shallow None u.
Proof.
  intros Hd He Ht Hu E. pose proof (decode_shallow d t Ht Hd (S (Z.to_nat (len (tenc t)))) None ltac:(lia)) as H1.
  pose proof (decode_shallow e u Hu He (S (Z.to_nat (len (tenc t)))) None ltac:(rewrite <- E; lia)) as H2.
  rewrite <- E, H1 in H2. congruence.
Qed.

(** A subtree of a canonical tree, or what a path ends in. *)
Definition canon_child (d : nat) (c : tree) : Prop := c = TNil \/ (exists v, c = TVal v) \/ canon d c.

Lemma tref_cases d c : canon_child d c -> c = TNil \/ (exists v, c = TVal v) \/
  canon d c /\ tref c = if len (tenc c) <? 32 then shallow None c else HashNode (thash c).
Proof. intros [->|[[v ->]|H]]; [left; reflexivity | right; left; eauto |]. right; right. split; [exact H|]. destruct H; reflexivity. Qed.

Lemma shallow_shape d t : canon d t -> match shallow None t with ShortNode _ _ _ | FullNode _ _ => True | _ => False end.
Proof. destruct 1; exact I. Qed.

Lemma tref_binding d e t u : depth_ok d -> depth_ok e -> canon_child d t -> canon_child e u ->
  (canon d t -> canon e u -> shallow None t = shallow None u -> t = u \/ clash t u) -> tref t = tref u -> t = u \/ clash t u.
Proof.
  intros Hd He Ht Hu IH E.
  destruct (tref_cases d t Ht) as [->|[[v ->]|[Hct Et]]], (tref_cases e u Hu) as [->|[[w ->]|[Hcu Eu]]];
    try (left; cbn [tref] in E; congruence);
    try (rewrite Et in E; pose proof (shallow_shape _ _ Hct) as Hst); try (rewrite Eu in E; pose proof (shallow_shape _ _ Hcu) as Hsu).
  1-4: cbn [tref] in E; match type of E with context [?b <? 32] => destruct (b <? 32) end;
    [first [rewrite E in Hst; destruct Hst | rewrite <- E in Hsu; destruct Hsu] | discriminate].
  destruct (len (tenc t) <? 32), (len (tenc u) <? 32); [auto | rewrite E in Hst; destruct Hst | rewrite <- E in Hsu; destruct Hsu |].
  injection E as E. destruct (decide (tenc t = tenc u)) as [Eq|Ne]; [apply IH; eauto using canon_shallow_eq|].
  right. exists t, u. split_and!; eauto using sub, canon_branch.
Qed.

Lemma list_binding {A} (P : Prop) (ts : list A) : forall us, length ts = length us ->
  (forall i x y, ts !! i = Some x -> us !! i = Some y -> x = y \/ P) -> ts = us \/ P.
Proof.
  induction ts as [|x ts IH]; intros [|y us] Hl H; try discriminate; [auto|].
  destruct (H 0%nat x y eq_refl eq_refl) as [->|]; [|auto].
  destruct (IH us ltac:(cbn in Hl; lia) (fun i => H (S i))) as [->|]; auto.
Qed.

Lemma full_canon_child d ts i t : canon d (TFull ts) -> ts !! i = Some t -> canon_child d t.
Proof.
  intros Hc Hi. pose proof Hc as H0. apply canon_full_inv in H0 as (e & -> & Hl & H1 & H2 & _).
  assert (t = TNil \/ t <> TNil) as [->|Hn] by (destruct t; auto; right; discriminate); [left; reflexivity|]. right. destruct (decide (i < 16)%nat) as [Hlt|Hge].
  - right. eapply canon_mono; [eapply H1; eassumption | lia].
  - apply lookup_lt_Some in Hi as Hi'. assert (i = 16%nat) as -> by lia. destruct (H2 t Hi Hn) as (b & -> & _). left. eauto.
Qed.

Lemma depth_le d e : depth_ok e -> (d <= e)%nat -> depth_ok d.
Proof. unfold depth_ok. lia. Qed.

Lemma shallow_binding d t : canon d t -> depth_ok d -> forall e u, depth_ok e -> canon e u ->
  shallow None t = shallow None u -> t = u \/ clash t u.
Proof.
  induction 1 as [d k v Hk Hv Hd | d k ts Hk Hn Hd Hc IH | d ts Hl Hc IH Hv Ht]; intros Hok e u He Hu E;
    destruct Hu as [e k' v' Hk' Hv' Hd' | e k' us Hk' Hn' Hd' Hc' | e us Hl' Hc' Hv' Ht']; rewrite ?shallow_short, ?shallow_full in E; try discriminate.
  - injection E as E1 E2. left. congruence.
  - injection E as E1 E2. cbn [tref] in E2. case_match; discriminate.
  - injection E as E1 E2. cbn [tref] in E2. case_match; discriminate.
  - injection E as -> E2. destruct (tref_binding (d - length k') (e - length k') (TFull ts) (TFull us)) as [->|Hx]; [eapply depth_le; [exact Hok | lia] | eapply depth_le; [exact He | lia] | right; right; exact Hc | right; right; exact Hc' | | exact E2 | auto |].
    + intros _ _. apply (IH ltac:(eapply depth_le; [exact Hok | lia]) (e - length k')%nat); [eapply depth_le; [exact He | lia] | exact Hc'].
    + right. eapply clash_sub; [exact Hx | eauto using sub..].
  - injection E as E. destruct (list_binding (clash (TFull ts) (TFull us)) ts us) as [->|Hx]; [congruence | | auto | auto].
    intros i x y Hx Hy. assert (tref x = tref y) as Ext
      by (apply (f_equal (fun l => l !! i)) in E; rewrite !list_lookup_fmap, Hx, Hy in E; cbn in E; congruence).
    destruct (tref_binding (S d) (S e) x y) as [->|Hcl]; eauto using full_canon_child, canon_full.
    + intros Hcx Hcy Es. destruct (decide (i < 16)%nat) as [Hlt|Hge].
      * apply (IH i x Hx Hlt (canon_not_nil _ _ Hcx)) with (e := S e); auto. eapply depth_le; [exact Hok | lia].
      * apply lookup_lt_Some in Hx as Hi. assert (i = 16%nat) as -> by lia. destruct (Hv x Hx (canon_not_nil _ _ Hcx)) as (b & -> & _). inversion Hcx.
    + right. eapply clash_sub; [exact Hcl | eauto using sub..].
Qed.

Lemma hash_tree db t u : tree_of db t u -> fst (TrieHash t) = troot u.
Proof. intros [Hr Hc]. apply (hash_root db t u max_depth max_depth_ok Hr Hc). Qed.

Lemma tree_nonempty db t u : tree_of db t u -> fst (TrieHash t) <> EmptyRoot -> canon max_depth u /\ fst (TrieHash t) = thash u.
Proof.
  intros Ht Hne. pose proof (hash_tree db t u Ht) as E. destruct (proj2 Ht) as [->|Hc]; [contradiction|].
  split; [exact Hc|]. rewrite E. exact (troot_canon _ _ Hc).
Qed.

Definition same_map (m m' : gmap bytes bytes) : Prop := forall key, bytes_ok key -> m !! key = m' !! key.

Lemma contents_ext u m m' : same_map m m' -> contents u m -> contents u m'.
Proof.
  intros Hs Hm p v Hp. rewrite (Hm p v Hp). split; intros (key & Hk & Ep & E); exists key; split_and!; try assumption.
  - rewrite <- (Hs key Hk). exact E.
  - rewrite (Hs key Hk). exact E.
Qed.

Lemma tree_binding db db' t t' u u' m m' : tree_of db t u -> contents u m -> tree_of db' t' u' -> contents u' m' ->
  fst (TrieHash t) = fst (TrieHash t') -> fst (TrieHash t) <> EmptyRoot -> same_map m m' \/ clash u u'.
Proof.
  intros Ht Hm Ht' Hm' E Hne. destruct (tree_nonempty _ _ _ Ht Hne) as [Hc Eh]. rewrite E in Hne. destruct (tree_nonempty _ _ _ Ht' Hne) as [Hc' Eh'].
  destruct (decide (tenc u = tenc u')) as [He|Hn]; [|right; exists u, u'; split_and!; eauto using sub, canon_branch; congruence].
  destruct (shallow_binding _ _ Hc max_depth_ok _ _ max_depth_ok Hc') as [->|Hcl]; [|left|right; exact Hcl].
  - eapply canon_shallow_eq; eauto using max_depth_ok.
  - intros key Hk. rewrite <- (contents_get u' m key Hm Hk). apply contents_get; assumption.
Qed.

(** C6: a trie is a finite map from byte strings to non-empty byte strings:
    the empty trie holds nothing, and on a trie that holds [m], read from
    memory or from the store, [Get] returns the entry of [m] (or nothing),
    [Update] stores one, [Update] with an empty value and [Delete] remove one,
    and none of them fails or runs out of steps. *)
Theorem trie_is_map db : models db NewEmpty ∅ /\
  forall t m key, models db t m -> key_ok key ->
    (exists t', Get db t key = Ok (default [] (m !! key), t') /\ models db t' m) /\
    (exists t', Delete db t key = Ok t' /\ models db t' (base.delete key m)) /\
    (exists t', Update db t key [] = Ok t' /\ models db t' (base.delete key m)) /\
    (forall v, val_ok v -> exists t', Update db t key v = Ok t' /\ models db t' (<[key := v]> m)).
Proof.
  split; [apply models_empty|]. intros t m key Hm Hk. split; [apply models_get; assumption|].
  destruct (models_delete db t m key Hm Hk) as (n & b & E & Hn). split; [|split].
  - eexists. unfold Delete. rewrite E. split; [reflexivity | apply Hn].
  - eexists. unfold Update. rewrite E. split; [reflexivity | apply Hn].
  - intros v Hv. apply models_update; assumption.
Qed.

(** C26: the root hash stands for the contents.  Tries with the same entries
    have the same root, however they were built and whether or not they have
    been hashed or committed before; tries with one root that is not the empty
    one have the same entries, unless the hash function maps two encodings of
    their nodes to one hash. *)
Theorem root_binds_contents db db' t t' u u' m m' :
  tree_of db t u -> contents u m -> tree_of db' t' u' -> contents u' m' ->
  (same_map m m' -> fst (TrieHash t) = fst (TrieHash t')) /\
  (fst (TrieHash t) = fst (TrieHash t') -> fst (TrieHash t) <> EmptyRoot -> same_map m m' \/ clash u u').
Proof.
  intros Ht Hm Ht' Hm'. split.
  - intros Hs. rewrite (hash_tree _ _ _ Ht), (hash_tree _ _ _ Ht').
    rewrite (contents_unique _ _ u u' m' (proj2 Ht) (proj2 Ht') (contents_ext _ _ _ Hs Hm) Hm'). reflexivity.
  - eapply tree_binding; eassumption.
Qed.

Lemma reload st u r : canon_root max_depth u -> r = troot u -> (HashIsZero r = true \/ r = EmptyRoot -> u = TNil) ->
  (u <> TNil -> db_get (Some st) (nodeKey r) = Some (tenc u)) -> stored (Some st) u ->
  exists t, New r (Some st) = Ok t /\ rep (Some st) true (root t) u.
Proof.
  intros Hc -> Hz Hg Hs. unfold New. destruct Hc as [->|Hc].
  - eexists. cbn [troot]. rewrite (bool_decide_eq_true_2 (EmptyRoot = EmptyRoot) eq_refl), orb_true_r. split; [reflexivity | constructor].
  - rewrite (troot_canon _ _ Hc) in *. specialize (Hg (canon_not_nil _ _ Hc)).
    assert (HashIsZero (thash u) || bool_decide (thash u = EmptyRoot) = false) as ->.
    { destruct (HashIsZero (thash u)) eqn:E1; [destruct (canon_not_nil _ _ Hc (Hz (or_introl eq_refl)))|].
      destruct (bool_decide (thash u = EmptyRoot)) eqn:E2; [|reflexivity]. apply bool_decide_eq_true in E2.
      destruct (canon_not_nil _ _ Hc (Hz (or_intror E2))). }
    destruct (rep_shallow (Some st) _ u Hc Hs Hg) as [Hr _]. unfold resolveHash, db_get in *. rewrite Hg.
    rewrite (decodeNode_tenc _ _ _ Hc max_depth_ok). cbn [rbind]. eexists. split; [reflexivity | exact Hr].
Qed.

(** C38: committing a trie writes it under its root hash.  The root [CommitTo]
    returns is the one [Hash] computes, the trie kept in memory still holds
    the same entries over the new store, and so does the trie opened from the
    root, node by node from what is stored; nothing stored before is lost.
    The batch must not map one key to two encodings, and a trie that is not
    empty must not hash to zero or to the empty root. *)
Theorem commit_reload st t m : models (Some st) t m -> no_collision st (snd (Commit t)) ->
  (HashIsZero (fst (TrieHash t)) = true \/ fst (TrieHash t) = EmptyRoot -> root t = NilNode) ->
  exists r t' st', CommitTo st t = (r, t', st') /\ r = fst (TrieHash t) /\ models (Some st') t' m /\
    (exists t2, New r (Some st') = Ok t2 /\ models (Some st') t2 m) /\ extends (Some st) (Some st').
Proof.
  intros (u & Hr & Hc & Hm) Hn Hz. destruct (write_batch_spec _ st Hn) as [Hh He].
  destruct (commit_root _ _ t u _ max_depth_ok Hr Hc He Hh) as (E & Hrep & Hg & Hs).
  rewrite (hash_tree _ _ _ (conj Hr Hc)) in Hz |- *. unfold CommitTo. destruct (Commit t) as [[r t'] b]. cbn [fst snd] in *.
  exists r, t', (write_batch st b). split_and!; [reflexivity | exact E | exists u; auto | | exact He]. rewrite <- E in Hz, Hg.
  destruct (reload (write_batch st b) u r Hc E) as (t2 & E2 & Hr2); [| exact Hg | exact Hs | exists t2; split; [exact E2 | exists u; auto]].
  intros H. apply (rep_is_nil _ _ _ _ Hr). rewrite (Hz H). reflexivity.
Qed.

(** C35: a proof cannot lie.  Whatever list of nodes is offered as a proof
    against the root of a trie, if [VerifyProof] accepts it the value returned
    is the trie's entry at the key, nothing for an absent key: unless some
    node of the proof has the hash of a different node of the trie. *)
Theorem proof_sound db t u m key proof fuel v : tree_of db t u -> contents u m -> key_ok key -> collision_free proof u ->
  fst (TrieHash t) <> EmptyRoot -> VerifyProof fuel (fst (TrieHash t)) key proof = Ok v -> v = default [] (m !! key).
Proof.
  intros Ht Hm Hk Hcf Hne Hv. destruct (tree_nonempty _ _ _ Ht Hne) as [Hc E]. rewrite E in Hv. unfold VerifyProof in Hv.
  destruct (proof_load (proof_nodes proof) (thash u)) as [n|] eqn:Ep; [|discriminate]. cbn [rbind] in Hv.
  apply (proof_load_sound _ _ _ _ _ max_depth_ok Hcf (sub_refl u) Hc) in Ep. subst n.
  rewrite <- (contents_get u m key Hm (proj1 Hk)).
  eapply verify_sound; [exact max_depth_ok | exact Hcf | apply sub_refl | right; eauto | right; right; split; [exact Hc | apply keyToNibbles_path, Hk] | exact Hv].
Qed.

(** [Prove] always produces a proof from a trie that is not empty, also
    for keys it does not hold, and [VerifyProof] accepts it with the trie's
    entry at the key. *)
Theorem proof_complete db t u m key : tree_of db t u -> contents u m -> key_ok key -> fst (TrieHash t) <> EmptyRoot ->
  exists proof, Prove db t key = Ok proof /\
    (collision_free proof u -> forall fuel, (fuel_for (keyToNibbles key) <= fuel)%nat ->
     VerifyProof fuel (fst (TrieHash t)) key proof = Ok (default [] (m !! key))).
Proof.
  intros Ht Hm Hk Hne. destruct (tree_nonempty _ _ _ Ht Hne) as [Hc E]. destruct Ht as [Hr Hcr].
  destruct (hash_root db t u _ max_depth_ok Hr Hcr) as [_ Hr']. unfold Prove. destruct (TrieHash t) as [r t'] eqn:Et. cbn [fst snd] in *.
  assert (asks max_depth u (keyToNibbles key)) as Hask by (right; right; split; [exact Hc | apply keyToNibbles_path, Hk]).
  destruct (prove_complete db u (fuel_for (keyToNibbles key)) _ true _ u _ max_depth_ok Hr' Hask) as (p & -> & Hin & Hver);
    [unfold fuel_for; destruct (is_hash (root t')); lia|].
  exists p. split; [reflexivity|]. intros Hcf fuel Hf. rewrite <- (contents_get u m key Hm (proj1 Hk)), E. unfold VerifyProof.
  rewrite (proof_load_complete _ _ _ _ max_depth_ok Hcf (sub_refl u) Hc (Hin (canon_branch _ _ Hc))). cbn [rbind].
  apply Hver; [auto | exact Hcf | apply sub_refl | right; eauto | rewrite shallow_not_hash; unfold fuel_for in Hf; lia].
Qed.

(** The proof of absence an empty trie gives is rejected. *)
Lemma empty_proof_rejected db key fuel :
  Prove db NewEmpty key = Ok [] /\ VerifyProof fuel (fst (TrieHash NewEmpty)) key [] = Err ErrProofMissing.
Proof. split; [|reflexivity]. unfold Prove, fuel_for. rewrite Nat.add_comm. reflexivity. Qed.

(** ** Roots of lists *)

Definition index_key (i : Z) : bytes := Rlp.EncodeBytes (Rlp.putUint i).

Lemma index_key_ok i : 0 <= i < two64 -> key_ok (index_key i) /\ Rlp.fits (index_key i).
Proof.
  intros Hi. unfold index_key. rewrite Rlp.putUint_spec by exact Hi. pose proof (Rlp.big_bytes_len8 i Hi) as Hl.
  destruct (EncodeBytes_ok (big_bytes i) (big_bytes_ok i) ltac:(lia)) as [(Hb & _) Hle]. split; [|unfold Rlp.fits, max_int64; lia].
  split; [exact Hb | unfold max_item; lia].
Qed.

Lemma index_key_inj i j : 0 <= i < two64 -> 0 <= j < two64 -> index_key i = index_key j -> i = j.
Proof.
  intros Hi Hj E. pose proof (decode_bytes_round _ (proj2 (index_key_ok i Hi))) as H1.
  pose proof (decode_bytes_round _ (proj2 (index_key_ok j Hj))) as H2. fold (index_key i) in H1. fold (index_key j) in H2.
  rewrite E, H2 in H1. injection H1 as H1. rewrite !Rlp.putUint_spec in H1 by assumption.
  apply (f_equal be_val) in H1. rewrite !big_bytes_val in H1 by lia. congruence.
Qed.

(** The entries [DeriveRoot] makes of a list. *)
Fixpoint indexed (i : Z) (items : list bytes) (m : gmap bytes bytes) : gmap bytes bytes :=
  match items with
  | [] => m
  | item :: items => indexed (i + 1) items (<[index_key i := item]> m)
  end.

Ltac zcase := repeat (match goal with
  | |- context [?a <=? ?b] => destruct (Z.leb_spec a b)
  | |- context [?a <? ?b] => destruct (Z.ltb_spec a b)
  end; cbn [andb]; try lia).

Lemma indexed_lookup items : forall i m j, 0 <= i -> i + len items <= two64 -> 0 <= j < two64 ->
  indexed i items m !! index_key j = if (i <=? j) && (j <? i + len items) then items !! Z.to_nat (j - i) else m !! index_key j.
Proof.
  induction items as [|x items IH]; intros i m j Hi Hl Hj; cbn [indexed].
  - rewrite (@len_nil bytes). zcase; reflexivity.
  - rewrite len_cons in *. pose proof (len_nonneg items). rewrite IH by lia. destruct (decide (i = j)) as [->|Hne].
    + rewrite lookup_insert_eq. zcase. rewrite Z.sub_diag. reflexivity.
    + rewrite lookup_insert_ne by (intros E; apply index_key_inj in E; lia).
      zcase; try reflexivity. replace (Z.to_nat (j - i)) with (S (Z.to_nat (j - (i + 1)))) by lia. reflexivity.
Qed.

Lemma derive_spec items : forall i t m, models (Some ∅) t m -> 0 <= i -> i + len items <= two64 -> Forall val_ok items ->
  exists t', derive_loop t i items = Some t' /\ models (Some ∅) t' (indexed i items m).
Proof.
  induction items as [|x items IH]; intros i t m Hm Hi Hl Hv; cbn [derive_loop indexed]; [eauto|].
  rewrite len_cons in Hl. pose proof (len_nonneg items). apply Forall_cons_1 in Hv as [Hx Hv].
  change (Rlp.Encode (Rlp.VUint i) (Rlp.TUint 64)) with (Ok (E := Rlp.error) (index_key i)). cbv iota.
  destruct (models_update _ t m (index_key i) x Hm (proj1 (index_key_ok i ltac:(lia))) Hx) as (t' & -> & Hm').
  apply IH; [exact Hm' | lia..| exact Hv].
Qed.

(** The tree of the trie [DeriveRoot] builds. *)
Definition list_tree (items : list bytes) (u : tree) : Prop :=
  exists t, derive_loop NewEmpty 0 items = Some t /\ tree_of (Some ∅) t u.

Lemma derive_tree items : Forall val_ok items -> len items <= two64 ->
  exists t u, DeriveRoot items = Some (fst (TrieHash t)) /\ derive_loop NewEmpty 0 items = Some t /\ tree_of (Some ∅) t u /\ contents u (indexed 0 items ∅).
Proof.
  intros Hv Hl. destruct (derive_spec items 0 NewEmpty ∅ (models_empty _) ltac:(lia) Hl Hv) as (t & E & u & Hr & Hc & Hm).
  exists t, u. unfold DeriveRoot. rewrite E. split_and!; [reflexivity | reflexivity | split; assumption | exact Hm].
Qed.

Lemma indexed_inj items items' : len items <= two64 -> len items' <= two64 -> same_map (indexed 0 items ∅) (indexed 0 items' ∅) -> items = items'.
Proof.
  intros Hl Hl' Hs. apply list_eq. intros i. destruct (decide (Z.of_nat i < two64)) as [Hi|Hi].
  - specialize (Hs _ (proj1 (proj1 (index_key_ok (Z.of_nat i) ltac:(lia))))). rewrite !indexed_lookup in Hs by lia.
    rewrite Z.sub_0_r, Nat2Z.id, lookup_empty in Hs. unfold len in *.
    destruct (items !! i) eqn:E1, (items' !! i) eqn:E2; try reflexivity;
      try (apply lookup_lt_Some in E1); try (apply lookup_lt_Some in E2); try (apply lookup_ge_None in E1); try (apply lookup_ge_None in E2);
      revert Hs; zcase; intros Hs; congruence.
  - unfold len in *. rewrite !lookup_ge_None_2 by lia. reflexivity.
Qed.

(** The transaction and receipt roots of a block commit to the list.
    [DeriveRoot] never panics on a list of non-empty items, and two lists
    with the same root, not the empty one, are equal item for item, unless
    two different nodes of their tries have one hash. *)
Theorem derive_root_binds items items' : Forall val_ok items -> len items <= two64 -> Forall val_ok items' -> len items' <= two64 ->
  exists r r' u u', DeriveRoot items = Some r /\ DeriveRoot items' = Some r' /\ list_tree items u /\ list_tree items' u' /\
    (r = r' -> r <> EmptyRoot -> items = items' \/ clash u u').
Proof.
  intros Hv Hl Hv' Hl'. destruct (derive_tree items Hv Hl) as (t & u & E & Hd & Ht & Hm).
  destruct (derive_tree items' Hv' Hl') as (t' & u' & E' & Hd' & Ht' & Hm').
  exists (fst (TrieHash t)), (fst (TrieHash t')), u, u'. split_and!; [exact E | exact E' | exists t; auto | exists t'; auto |].
  intros Er Hne. destruct (tree_binding _ _ _ _ _ _ _ _ Ht Hm Ht' Hm' Er Hne) as [Hs|]; [left | right; assumption].
  apply indexed_inj; assumption.
Qed.

End Root.

(** * Instances *)

(** A hash that keeps the last 32 bytes. *)
Definition tail_sum (b : bytes) : Hash := BytesToHash (map wrap8 b).

Lemma tail_sum_ok b : bytes_ok (tail_sum b).
Proof. apply fit_right_ok, Forall_map, Forall_true. intros x. apply wrap8_ok. Qed.

#[local] Instance tail_keccak : Keccak :=
  { Sum256 := tail_sum; Sum256_length b := fit_right_length 32 _; Sum256_ok := tail_sum_ok }.

(** A trie with one entry. *)
Definition one : Trie := mkTrie (ShortNode (keyToNibbles [1]) (ValueNode [7]) newFlag) 1.
Definition one_tree : tree := TShort (keyToNibbles [1]) (TVal [7]).
Definition one_map : gmap bytes bytes := {[ [1] := [7] ]}.

Lemma byte_key b : byte_ok b -> key_ok [b].
Proof. intros H. split; [apply Forall_cons_2; [exact H | constructor]|]. unfold len, max_item. cbn [length]. lia. Qed.

Lemma byte_val b : byte_ok b -> val_ok [b].
Proof. intros H. split; [discriminate|]. split; [apply Forall_cons_2; [exact H | constructor]|]. unfold len, max_item. cbn [length]. lia. Qed.

Lemma one_ok db : tree_of db one one_tree /\ contents one_tree one_map.
Proof.
  assert (bytes_ok [1]) as H1 by (apply (byte_key 1); unfold byte_ok; lia). split; [split|].
  - apply rep_short; [constructor | apply flag_new].
  - right. unfold one_tree. change (keyToNibbles [1]) with ([0; 1] ++ [16]). constructor.
    + repeat (apply Forall_cons_2; [lia|]). constructor.
    + apply byte_val. unfold byte_ok. lia.
    + pose proof (key_depth [1] (byte_key 1 ltac:(unfold byte_ok; lia))) as H. exact H.
  - intros p v Hp. unfold one_tree, one_map. cbn [tget]. split.
    + destruct (strip (keyToNibbles [1]) p) as [[|x r]|] eqn:E; [|discriminate..]. intros [= <-].
      apply strip_Some in E. rewrite app_nil_r in E. exists [1]. split_and!; [exact H1 | exact E | apply lookup_singleton_eq].
    + intros (key & Hk & -> & Hl). apply lookup_singleton_Some in Hl as [<- <-].
      reflexivity.
Qed.

Lemma trie_is_map_witness : exists t, Update None one [2] [9] = Ok t /\ models None t (<[ [2] := [9] ]> one_map).
Proof.
  destruct (one_ok None) as [[Hr Hc] Hm].
  destruct (proj2 (trie_is_map None) one one_map [2] (ex_intro _ one_tree (conj Hr (conj Hc Hm))) (byte_key 2 ltac:(unfold byte_ok; lia)))
    as (_ & _ & _ & H).
  apply H, byte_val. unfold byte_ok. lia.
Defined.

Lemma root_binds_contents_witness : fst (TrieHash one) = fst (TrieHash (snd (TrieHash one))) /\
  (same_map one_map one_map \/ clash one_tree one_tree).
Proof.
  destruct (one_ok None) as [Ht Hm].
  assert (tree_of None (snd (TrieHash one)) one_tree) as Ht'
    by (split; [apply (hash_root None one one_tree _ max_depth_ok (proj1 Ht) (proj2 Ht)) | apply Ht]).
  destruct (root_binds_contents None None one (snd (TrieHash one)) one_tree one_tree one_map one_map Ht Hm Ht' Hm) as [H1 H2].
  split; [apply H1; intros key _; reflexivity | apply H2; [|vm_compute; discriminate]]. apply H1. intros key _. reflexivity.
Defined.

Lemma commit_reload_witness : exists st t, CommitTo ∅ one = (fst (TrieHash one), snd (fst (Commit one)), st) /\
  New (fst (TrieHash one)) (Some st) = Ok t /\ models (Some st) t one_map.
Proof.
  destruct (one_ok (Some ∅)) as [[Hr Hc] Hm].
  destruct (commit_reload ∅ one one_map (ex_intro _ one_tree (conj Hr (conj Hc Hm)))) as (r & t' & st & E & -> & _ & (t2 & E2 & H2) & _).
  - intros k e e' H1 [H2|H2]; [|rewrite lookup_empty in H2; discriminate].
    change (snd (Commit one)) with [(nodeKey (thash one_tree), tenc one_tree)] in *.
    apply list_elem_of_singleton in H1, H2. congruence.
  - intros H. exfalso. vm_compute in H. destruct H; discriminate.
  - exists st, t2. split_and!; [|exact E2 | exact H2]. rewrite E. unfold CommitTo in E. destruct (Commit one) as [[? ?] ?]. cbn [fst snd]. congruence.
Defined.

Lemma one_collision_free : collision_free [tenc one_tree] one_tree.
Proof.
  intros e w He Hs Hb _. apply list_elem_of_singleton in He. subst e. inversion Hs as [|? ? ? H|]; subst; [reflexivity|].
  inversion H; subst. contradiction.
Qed.

Lemma proof_sound_witness : VerifyProof 9 (fst (TrieHash one)) [1] [tenc one_tree] = Ok [7] /\ [7] = default [] (one_map !! [1]).
Proof.
  assert (VerifyProof 9 (fst (TrieHash one)) [1] [tenc one_tree] = Ok [7]) as E by (vm_compute; reflexivity). split; [exact E|].
  destruct (one_ok None) as [Ht Hm].
  apply (proof_sound None one one_tree one_map [1] [tenc one_tree] 9 [7] Ht Hm (byte_key 1 ltac:(unfold byte_ok; lia)) one_collision_free);
    [vm_compute; discriminate | exact E].
Defined.

Lemma proof_complete_witness : exists proof, Prove None one [2] = Ok proof /\ proof = [tenc one_tree] /\
  VerifyProof 13 (fst (TrieHash one)) [2] proof = Ok (default [] (one_map !! [2])).
Proof.
  destruct (one_ok None) as [Ht Hm].
  destruct (proof_complete None one one_tree one_map [2] Ht Hm (byte_key 2 ltac:(unfold byte_ok; lia))) as (p & E & H); [vm_compute; discriminate|].
  assert (Prove None one [2] = Ok [tenc one_tree]) as E' by (vm_compute; reflexivity). rewrite E in E'. injection E' as ->.
  eexists. split_and!; [exact E | reflexivity |]. apply H; [apply one_collision_free | vm_compute; lia].
Defined.

Lemma derive_root_binds_witness : exists r r' u u', DeriveRoot [[5]] = Some r /\ DeriveRoot [[5]; [6]] = Some r' /\
  list_tree [[5]] u /\ list_tree [[5]; [6]] u' /\ (r = r' -> r <> EmptyRoot -> [[5]] = [[5]; [6]] \/ clash u u').
Proof.
  assert (val_ok [5] /\ val_ok [6]) as [H5 H6] by (split; apply byte_val; unfold byte_ok; lia).
  apply (derive_root_binds [[5]] [[5]; [6]]); [auto | unfold len, two64; cbn [length]; lia | auto | unfold len, two64; cbn [length]; lia].
Defined.

End Root.
