(* ===== verification/Blocks.v ===== *)
(** Messages taken block by block.

    A hash function absorbs a message in blocks of a fixed size and keeps what
    is left over.  [full m] is the state after the whole blocks of [m] and
    [tail m] the bytes that do not fill one; the streaming digests keep exactly
    these two. *)

From stdpp Require Import base list.
From Stdlib Require Import ZArith Lia.
From S2P Require Import Prelude.

Module Blk.
Local Open Scope Z_scope.

(** * Little-endian words: [binary.LittleEndian] *)

Definition le32 (b : bytes) (off : nat) : Z :=
  Z.lor (Z.lor (Z.lor (nth off b 0) (Z.shiftl (nth (off + 1) b 0) 8)) (Z.shiftl (nth (off + 2) b 0) 16)) (Z.shiftl (nth (off + 3) b 0) 24).
Definition put_le32 (w : Z) : bytes := map (fun j => wrap8 (Z.shiftr w (8 * Z.of_nat j))) (seq 0 4).
Definition put_le64 (w : Z) : bytes := map (fun j => wrap8 (Z.shiftr w (8 * Z.of_nat j))) (seq 0 8).
Definition le64 (b : bytes) (off : nat) : Z := Z.lor (le32 b off) (Z.shiftl (le32 b (off + 4)) 32).

Lemma put_le64_ok w : bytes_ok (put_le64 w).
Proof. apply Forall_map, Forall_true. intros j. apply wrap8_ok. Qed.
Lemma put_le32_ok w : bytes_ok (put_le32 w).
Proof. apply Forall_map, Forall_true. intros j. apply wrap8_ok. Qed.

(** * Blocks *)

Local Close Scope Z_scope.

Section Blocks.
Context {A : Type}.
Variable size : nat.
Variable compress : A -> bytes -> A.
Variable init : A.
Hypothesis size_pos : (0 < size)%nat.

Definition block (m : bytes) (i : nat) : bytes := take size (drop (size * i) m).

(** The first [k] blocks of a message, absorbed. *)
Definition absorb_blocks (k : nat) (m : bytes) : A := fold_left (fun a i => compress a (block m i)) (seq 0 k) init.

Definition full (m : bytes) : A := absorb_blocks (length m / size) m.
Definition tail (m : bytes) : bytes := drop (size * (length m / size)) m.

Lemma length_split (m : bytes) : (length m = size * (length m / size) + length (tail m) /\ length (tail m) < size)%nat.
Proof.
  pose proof (Nat.div_mod_eq (length m) size). pose proof (Nat.mod_upper_bound (length m) size). unfold tail. rewrite length_drop. lia.
Qed.

Lemma length_tail (m : bytes) : length (tail m) = (length m mod size)%nat.
Proof. pose proof (length_split m). pose proof (Nat.div_mod_eq (length m) size). lia. Qed.

Lemma block_app m p i : (size * S i <= length m)%nat -> block (m ++ p) i = block m i.
Proof. intros H. unfold block. rewrite drop_app_le by lia. apply take_app_le. rewrite length_drop. lia. Qed.

Lemma absorb_blocks_app k m p : (size * k <= length m)%nat -> absorb_blocks k (m ++ p) = absorb_blocks k m.
Proof.
  unfold absorb_blocks. induction k as [|k IH]; intros H; [reflexivity|].
  rewrite seq_S, !fold_left_app, Nat.add_0_l. cbn [fold_left]. rewrite IH, block_app by lia. reflexivity.
Qed.

Lemma absorb_blocks_S k m : absorb_blocks (S k) m = compress (absorb_blocks k m) (block m k).
Proof. unfold absorb_blocks. rewrite seq_S, fold_left_app. reflexivity. Qed.

Lemma app_div m q : (length (tail m) + length q < size)%nat -> (length (m ++ q) / size = length m / size)%nat.
Proof. intros H. pose proof (length_split m). rewrite length_app. symmetry. apply (Nat.div_unique _ _ _ (length (tail m) + length q)); lia. Qed.

Lemma fill_div m q : (length (tail m) + length q = size)%nat -> (length (m ++ q) / size = S (length m / size))%nat.
Proof. intros H. pose proof (length_split m). rewrite length_app. symmetry. apply (Nat.div_unique _ _ _ 0); lia. Qed.

(** Bytes that do not fill the block are kept. *)
Lemma append_short m q : (length (tail m) + length q < size)%nat -> full (m ++ q) = full m /\ tail (m ++ q) = tail m ++ q.
Proof.
  intros H. pose proof (length_split m). unfold full, tail. rewrite app_div by exact H. split; [apply absorb_blocks_app; lia | apply drop_app_le; lia].
Qed.

(** Bytes that fill it are absorbed with those kept. *)
Lemma append_fill m q : (length (tail m) + length q = size)%nat -> full (m ++ q) = compress (full m) (tail m ++ q) /\ tail (m ++ q) = [].
Proof.
  intros H. pose proof (length_split m). unfold full, tail. rewrite fill_div by exact H. split; [|apply drop_ge; rewrite length_app; lia].
  rewrite absorb_blocks_S, absorb_blocks_app by lia. f_equal. unfold block. rewrite drop_app_le by lia. apply take_ge.
  fold (tail m). rewrite length_app. lia.
Qed.

End Blocks.
End Blk.
