(* ===== verification/Keccak.v ===== *)
(** Keccak-256, src/crypto/keccak/keccak.go.

    The permutation, the streaming digest and the one-shot hash.  A digest
    written in any number of pieces hashes their concatenation: it is the sponge
    over the padded blocks of the message. *)

From stdpp Require Import base list.
From Stdlib Require Import ZArith Lia.
From S2P Require Import Prelude RLP Common Blocks.
Local Open Scope Z_scope.
Local Open Scope go_scope.

Module Kec.

Definition rounds : nat := 24.
Definition rate : nat := 136.
Definition Size : nat := 32.

Definition roundConstants : list Z :=
  [0x0000000000000001; 0x0000000000008082; 0x800000000000808a; 0x8000000080008000;
   0x000000000000808b; 0x0000000080000001; 0x8000000080008081; 0x8000000000008009;
   0x000000000000008a; 0x0000000000000088; 0x0000000080008009; 0x000000008000000a;
   0x000000008000808b; 0x800000000000008b; 0x8000000000008089; 0x8000000000008003;
   0x8000000000008002; 0x8000000000000080; 0x000000000000800a; 0x800000008000000a;
   0x8000000080008081; 0x8000000000008080; 0x0000000080000001; 0x8000000080008008].

Definition rotationOffsets : list Z :=
  [1; 3; 6; 10; 15; 21; 28; 36; 45; 55; 2; 14; 27; 41; 56; 8; 25; 43; 62; 18; 39; 61; 20; 44].

Definition piLane : list nat :=
  [10; 7; 11; 17; 18; 3; 5; 16; 8; 21; 24; 4; 15; 23; 19; 13; 12; 2; 20; 14; 22; 9; 6; 1]%nat.

Definition rotl (x n : Z) : Z := Z.lor (wrap64 (Z.shiftl x n)) (Z.shiftr x (64 - n)).
Definition not64 (x : Z) : Z := Z.lxor x (two64 - 1).

(** ** The permutation; the 25 lanes are a list *)

Abbreviation Lanes := (list Z).

Definition lane (a : Lanes) (i : nat) : Z := nth i a 0.

Definition theta (a : Lanes) : Lanes :=
  let c := map (fun x => Z.lxor (Z.lxor (Z.lxor (Z.lxor (lane a x) (lane a (x + 5))) (lane a (x + 10))) (lane a (x + 15))) (lane a (x + 20))) (seq 0 5) in
  fold_left (fun a x =>
    let d := Z.lxor (lane c ((x + 4) mod 5)) (rotl (lane c ((x + 1) mod 5)) 1) in
    fold_left (fun a y => <[(x + y * 5)%nat := Z.lxor (lane a (x + y * 5)) d]> a) (seq 0 5) a) (seq 0 5) a.

Definition rho_pi (a : Lanes) : Lanes :=
  fst (fold_left (fun '(a, last) i =>
    let j := nth i piLane O in
    (<[j := rotl last (nth i rotationOffsets 0)]> a, lane a j)) (seq 0 24) (a, lane a 1)).

Definition chi (a : Lanes) : Lanes :=
  fold_left (fun a y =>
    let row := take 5 (drop (y * 5) a) in
    fold_left (fun a x =>
      <[(y * 5 + x)%nat := Z.lxor (lane row x) (Z.land (not64 (lane row ((x + 1) mod 5))) (lane row ((x + 2) mod 5)))]> a) (seq 0 5) a)
    (seq 0 5) a.

Definition iota (a : Lanes) (r : nat) : Lanes := <[0%nat := Z.lxor (lane a 0) (nth r roundConstants 0)]> a.

Definition permute (a : Lanes) : Lanes := fold_left (fun a r => iota (chi (rho_pi (theta a))) r) (seq 0 rounds) a.

(** ** The digest *)

Record Digest := mkDigest { state : Lanes; buf : bytes; n : nat }.

Definition New : Digest := mkDigest (replicate 25 0) (zeros rate) 0.
Definition Reset (d : Digest) : Digest := mkDigest (replicate 25 0) (zeros rate) 0.

(** A little-endian lane of the block. *)
Definition load (b : bytes) (i : nat) : Z :=
  fold_left (fun w j => Z.lor w (wrap64 (Z.shiftl (nth (i * 8 + j) b 0) (8 * Z.of_nat j)))) (seq 0 8) 0.

Definition absorb (a : Lanes) (b : bytes) : Lanes :=
  permute (fold_left (fun a i => <[i := Z.lxor (lane a i) (load b i)]> a) (seq 0 (rate / 8)) a).

Definition absorbBlock (d : Digest) : Digest := mkDigest (absorb (state d) (buf d)) (buf d) (n d).

(** [Write]: every turn of the loop takes at least one byte. *)
Fixpoint write_loop (fuel : nat) (d : Digest) (p : bytes) : Digest :=
  match fuel with
  | O => d
  | S fuel =>
      if Nat.ltb 0 (length p) then
        let t := Nat.min (rate - n d) (length p) in
        let d := mkDigest (state d) (take (n d) (buf d) ++ take t p ++ drop (n d + t) (buf d)) (n d + t) in
        let p := drop t p in
        write_loop fuel (if Nat.eqb (n d) rate then let d := absorbBlock d in mkDigest (state d) (buf d) 0 else d) p
      else d
  end.
Definition Write (d : Digest) (p : bytes) : Digest := write_loop (length p) d p.

Definition store_lane (w : Z) : bytes := map (fun j => wrap8 (Z.shiftr w (8 * Z.of_nat j))) (seq 0 8).

(** [Sum]: the digest is copied, so that it can be written to afterwards. *)
Definition Sum (d : Digest) (b : bytes) : bytes :=
  let buf := take (n d) (buf d) ++ zeros (rate - n d) in
  let buf := <[n d := 1]> buf in
  let buf := <[(rate - 1)%nat := Z.lor (nth (rate - 1) buf 0) 128]> buf in
  let dup := absorbBlock (mkDigest (state d) buf (n d)) in
  b ++ concat (map (fun i => store_lane (lane (state dup) i)) (seq 0 (Size / 8))).

Definition Sum256 (data : list bytes) : Hash := Sum (fold_left Write data New) [].

Example sum256_empty : Sum256 [] =
  [0xc5; 0xd2; 0x46; 0x01; 0x86; 0xf7; 0x23; 0x3c; 0x92; 0x7e; 0x7d; 0xb2; 0xdc; 0xc7; 0x03; 0xc0;
   0xe5; 0x00; 0xb6; 0x53; 0xca; 0x82; 0x27; 0x3b; 0x7b; 0xfa; 0xd8; 0x04; 0x5d; 0x85; 0xa4; 0x70].
Proof. vm_compute. reflexivity. Qed.

Example sum256_abc : Sum256 [[97; 98]; [99]] =
  [0x4e; 0x03; 0x65; 0x7a; 0xea; 0x45; 0xa9; 0x4f; 0xc7; 0xd4; 0x7b; 0xa8; 0x26; 0xc8; 0xd6; 0x67;
   0xc0; 0xd1; 0xe6; 0xe3; 0x3a; 0x64; 0xa0; 0x36; 0xec; 0x44; 0xf5; 0x8f; 0xa1; 0x2d; 0x6c; 0x45].
Proof. vm_compute. reflexivity. Qed.

(** ** The sponge *)

#[local] Opaque absorb.

(** The state after the whole blocks of a message, and the bytes left over. *)
Abbreviation full := (Blk.full rate absorb (replicate 25 0)).
Abbreviation tail := (Blk.tail rate).

(** The pad10*1 rule with the domain byte 0x01. *)
Definition padding (m : bytes) : bytes :=
  let q := (rate - length m mod rate)%nat in
  if Nat.eqb q 1 then [129] else 1 :: zeros (q - 2) ++ [128].

Definition sponge (m : bytes) : Hash :=
  concat (map (fun i => store_lane (lane (full (m ++ padding m)) i)) (seq 0 (Size / 8))).

Lemma rate_pos : (0 < rate)%nat.
Proof. unfold rate. lia. Qed.

(** The digest after the bytes of [m], however they came. *)
Record holds (d : Digest) (m : bytes) : Prop := mkHolds
  { h_length : length (buf d) = rate;
    h_n : n d = length (tail m);
    h_buf : take (n d) (buf d) = tail m;
    h_state : state d = full m }.

Lemma holds_new : holds New [].
Proof. constructor; reflexivity. Qed.

(** One turn of the loop. *)
Definition fill (d : Digest) (p : bytes) (t : nat) : Digest :=
  mkDigest (state d) (take (n d) (buf d) ++ take t p ++ drop (n d + t) (buf d)) (n d + t).
Definition flush (d : Digest) : Digest := if Nat.eqb (n d) rate then let d := absorbBlock d in mkDigest (state d) (buf d) 0 else d.

Lemma holds_fill d m p : holds d m -> let t := Nat.min (rate - n d) (length p) in holds (flush (fill d p t)) (m ++ take t p).
Proof.
  intros [Hl Hn Hb Hs] t. pose proof (proj2 (Blk.length_split rate rate_pos m)) as Hr. rewrite Hn in *.
  assert (length (take t p) = t) as Ht by (rewrite length_take; lia).
  assert (length (buf (fill d p t)) = rate) as Hlf by (cbn [fill buf]; rewrite Hn, Hb, !length_app, Ht, length_drop; lia).
  unfold flush. cbn [fill n]. rewrite Hn. destruct (Nat.eqb_spec (length (tail m) + t) rate) as [E|E].
  - destruct (Blk.append_fill rate absorb (replicate 25 0) rate_pos m (take t p)) as [E1 E2]; [lia|].
    constructor; rewrite ?E1, ?E2; cbn [n buf state absorbBlock fill]; [exact Hlf | reflexivity | reflexivity|].
    rewrite Hn, Hb, Hs, (drop_ge (buf d)), app_nil_r by lia. reflexivity.
  - destruct (Blk.append_short rate absorb (replicate 25 0) rate_pos m (take t p)) as [E1 E2]; [lia|].
    constructor; rewrite ?E1, ?E2; [exact Hlf | | |exact Hs]; cbn [n buf state fill]; rewrite Hn; [rewrite length_app, Ht; reflexivity|].
    rewrite Hb, app_assoc, take_app_le by (rewrite length_app, Ht; lia). apply take_ge. rewrite length_app, Ht. lia.
Qed.

Lemma holds_write fuel : forall d m p, holds d m -> (length p <= fuel)%nat -> holds (write_loop fuel d p) (m ++ p).
Proof.
  induction fuel as [|fuel IH]; intros d m p Hd Hf; cbn [write_loop].
  - destruct p; [rewrite app_nil_r; exact Hd | cbn [length] in Hf; lia].
  - destruct (Nat.ltb_spec 0 (length p)) as [Hp|Hp]; [|destruct p; [rewrite app_nil_r; exact Hd | cbn [length] in Hp; lia]].
    set (t := Nat.min (rate - n d) (length p)). change (let d := _ in _) with (write_loop fuel (flush (fill d p t)) (drop t p)).
    pose proof (proj2 (Blk.length_split rate rate_pos m)) as Hr. pose proof (h_n _ _ Hd) as Hn.
    replace (m ++ p) with ((m ++ take t p) ++ drop t p) by (rewrite <- app_assoc, take_drop; reflexivity).
    apply IH; [apply holds_fill, Hd | rewrite length_drop; lia].
Qed.

Lemma holds_parts data : forall d m, holds d m -> holds (fold_left Write data d) (m ++ concat data).
Proof.
  induction data as [|p data IH]; intros d m Hd; cbn [fold_left concat]; [rewrite app_nil_r; exact Hd|].
  rewrite app_assoc. apply IH, holds_write; [exact Hd | lia].
Qed.

(** The block [Sum] absorbs last. *)
Lemma last_block (b : bytes) q : (1 <= q)%nat -> (length b + q = rate)%nat ->
  let buf := <[length b := 1]> (b ++ zeros q) in
  <[(rate - 1)%nat := Z.lor (nth (rate - 1) buf 0) 128]> buf = b ++ (if Nat.eqb q 1 then [129] else 1 :: zeros (q - 2) ++ [128]).
Proof.
  intros Hq Hb buf. destruct q as [|q]; [lia|]. assert (buf = b ++ 1 :: zeros q) as E.
  { unfold buf. rewrite insert_app_r_alt, Nat.sub_diag by lia. reflexivity. }
  rewrite E. clear E buf. destruct q as [|q]; cbn [Nat.eqb].
  - replace (rate - 1)%nat with (length b) by lia. rewrite insert_app_r_alt, Nat.sub_diag by lia. rewrite app_nth2, Nat.sub_diag by lia. reflexivity.
  - replace (rate - 1)%nat with (length b + S q)%nat by lia. rewrite insert_app_r_alt by lia. rewrite app_nth2 by lia.
    replace (length b + S q - length b)%nat with (S q) by lia.
    assert (nth (S q) (1 :: zeros (S q)) 0 = 0) as -> by (cbn [nth]; rewrite nth_lookup; unfold zeros; rewrite lookup_replicate_2 by lia; reflexivity).
    assert (forall x, <[S q := x]> (1 :: zeros (S q)) = 1 :: zeros q ++ [x]) as ->; [|replace (S (S q) - 2)%nat with q by lia; reflexivity].
    intros x. change (1 :: <[q := x]> (zeros (S q)) = 1 :: zeros q ++ [x]). f_equal. unfold zeros. rewrite replicate_S_end.
    rewrite insert_app_r_alt, length_replicate, Nat.sub_diag by (rewrite length_replicate; lia). reflexivity.
Qed.

Lemma length_padding m : (length (tail m) + length (padding m) = rate)%nat.
Proof.
  pose proof (proj2 (Blk.length_split rate rate_pos m)) as Hr. rewrite (Blk.length_tail rate rate_pos) in *. unfold padding.
  destruct (Nat.eqb_spec (rate - length m mod rate) 1); cbn [length]; rewrite ?length_app; unfold zeros; rewrite ?length_replicate; cbn [length]; lia.
Qed.

Lemma holds_sum d m : holds d m -> Sum d [] = sponge m.
Proof.
  intros [Hl Hn Hb Hs]. pose proof (proj2 (Blk.length_split rate rate_pos m)) as Hr. unfold Sum, sponge. cbn [app]. rewrite Hn in *. rewrite Hb.
  pose proof (last_block (tail m) (rate - length (tail m)) ltac:(lia) ltac:(lia)) as E. cbv zeta in E. rewrite E. clear E.
  rewrite (proj1 (Blk.append_fill rate absorb (replicate 25 0) rate_pos m (padding m) (length_padding m))). cbn [absorbBlock state buf]. rewrite Hs.
  unfold padding. rewrite (Blk.length_tail rate rate_pos). reflexivity.
Qed.

(** The streaming hash is the sponge.  A digest written in any number of
    pieces of any length, summed, gives Keccak-256 of their concatenation: the
    message padded with 0x01, zeros and 0x80 to whole blocks of 136 bytes, each
    block xored into the state and permuted, and the first 32 bytes of the state
    read out.  Writing never loses, repeats or reorders a byte at a block
    boundary. *)
Theorem keccak_streaming data : Sum256 data = sponge (concat data) /\ Sum256 data = Sum256 [concat data].
Proof.
  assert (forall data, Sum256 data = sponge (concat data)) as H by (intros l; apply holds_sum, (holds_parts l New []), holds_new).
  split; [apply H|]. rewrite !H. cbn [concat]. rewrite app_nil_r. reflexivity.
Qed.

(** ** The interface *)

Lemma length_store w : length (store_lane w) = 8%nat.
Proof. reflexivity. Qed.

Lemma sum256_length data : length (Sum256 data) = 32%nat.
Proof. unfold Sum256, Sum. cbn [app]. change (Size / 8)%nat with 4%nat. cbn [seq map concat]. rewrite !length_app, !length_store. reflexivity. Qed.

Lemma sum256_ok data : bytes_ok (Sum256 data).
Proof.
  unfold Sum256, Sum. cbn [app]. apply Forall_concat, Forall_map, Forall_true. intros i. apply Forall_map, Forall_true. intros j. apply wrap8_ok.
Qed.

End Kec.

(** The hash function of the program: what the components are given. *)
Definition keccak256 : Keccak := {| Sum256 b := Kec.Sum256 [b]; Sum256_length b := Kec.sum256_length [b]; Sum256_ok b := Kec.sum256_ok [b] |}.
