(* ===== verification/Ripemd160.v ===== *)
(** RIPEMD-160, src/crypto/ripemd160/ripemd160.go.

    The compression function, the streaming digest and the one-shot hash; a
    digest written in pieces hashes their concatenation, padded with 0x80, zeros
    and the length in bits. *)

From stdpp Require Import base list.
From Stdlib Require Import ZArith Lia.
From S2P Require Import Prelude RLP Common Blocks.
Local Open Scope Z_scope.
Local Open Scope go_scope.

Module Ripemd.
Import Blk.

Definition Size : nat := 20.
Definition BlockSize : nat := 64.

Definition two32 : Z := 2 ^ 32.
Definition wrap32 (v : Z) : Z := v mod two32.

Definition initialState : list Z := [0x67452301; 0xefcdab89; 0x98badcfe; 0x10325476; 0xc3d2e1f0].

Definition leftIndex : list nat :=
  [0; 1; 2; 3; 4; 5; 6; 7; 8; 9; 10; 11; 12; 13; 14; 15;
   7; 4; 13; 1; 10; 6; 15; 3; 12; 0; 9; 5; 2; 14; 11; 8;
   3; 10; 14; 4; 9; 15; 8; 1; 2; 7; 0; 6; 13; 11; 5; 12;
   1; 9; 11; 10; 0; 8; 12; 4; 13; 3; 7; 15; 14; 5; 6; 2;
   4; 0; 5; 9; 7; 12; 2; 10; 14; 1; 3; 8; 11; 6; 15; 13]%nat.
Definition rightIndex : list nat :=
  [5; 14; 7; 0; 9; 2; 11; 4; 13; 6; 15; 8; 1; 10; 3; 12;
   6; 11; 3; 7; 0; 13; 5; 10; 14; 15; 8; 12; 4; 9; 1; 2;
   15; 5; 1; 3; 7; 14; 6; 9; 11; 8; 12; 2; 10; 0; 4; 13;
   8; 6; 4; 1; 3; 11; 15; 0; 5; 12; 2; 13; 9; 7; 10; 14;
   12; 15; 10; 4; 1; 5; 8; 7; 6; 2; 13; 14; 0; 3; 9; 11]%nat.
Definition leftShift : list Z :=
  [11; 14; 15; 12; 5; 8; 7; 9; 11; 13; 14; 15; 6; 7; 9; 8;
   7; 6; 8; 13; 11; 9; 7; 15; 7; 12; 15; 9; 11; 7; 13; 12;
   11; 13; 6; 7; 14; 9; 13; 15; 14; 8; 13; 6; 5; 12; 7; 5;
   11; 12; 14; 15; 14; 15; 9; 8; 9; 14; 5; 6; 8; 6; 5; 12;
   9; 15; 5; 11; 6; 8; 13; 12; 5; 12; 13; 14; 11; 8; 5; 6].
Definition rightShift : list Z :=
  [8; 9; 9; 11; 13; 15; 15; 5; 7; 7; 8; 11; 14; 14; 12; 6;
   9; 13; 15; 7; 12; 8; 9; 11; 7; 7; 12; 7; 6; 15; 13; 11;
   9; 7; 15; 11; 8; 6; 6; 14; 12; 13; 5; 14; 13; 13; 7; 5;
   15; 5; 8; 11; 14; 14; 6; 14; 6; 9; 12; 9; 12; 5; 15; 8;
   8; 5; 12; 9; 12; 5; 14; 6; 8; 13; 6; 5; 15; 13; 11; 11].

Definition leftConstants : list Z := [0x00000000; 0x5a827999; 0x6ed9eba1; 0x8f1bbcdc; 0xa953fd4e].
Definition rightConstants : list Z := [0x50a28be6; 0x5c4dd124; 0x6d703ef3; 0x7a6d76e9; 0x00000000].

Definition rotl (x n : Z) : Z := Z.lor (wrap32 (Z.shiftl x n)) (Z.shiftr x (32 - n)).
Definition not32 (x : Z) : Z := Z.lxor x (two32 - 1).

Definition round (group : nat) (x y z : Z) : Z :=
  match group with
  | 0%nat => Z.lxor (Z.lxor x y) z
  | 1%nat => Z.lor (Z.land x y) (Z.land (not32 x) z)
  | 2%nat => Z.lxor (Z.lor x (not32 y)) z
  | 3%nat => Z.lor (Z.land x z) (Z.land y (not32 z))
  | _ => Z.lxor x (Z.lor y (not32 z))
  end.

(** One line of the compression: five words, stepped once. *)
Definition Line : Type := Z * Z * Z * Z * Z.
Definition line_step (l : Line) (f word constant shift : Z) : Line :=
  let '(a, b, c, d, e) := l in
  let t := wrap32 (a + f + word + constant) in
  let t := wrap32 (rotl t shift + e) in
  (e, t, b, rotl c 10, d).

Definition compress (state : list Z) (block : bytes) : list Z :=
  let x := map (fun i => le32 block (i * 4)) (seq 0 16) in
  let word i := nth i state 0 in
  let start := (word 0%nat, word 1%nat, word 2%nat, word 3%nat, word 4%nat) in
  let '(ll, rl) := fold_left (fun '(ll, rl) i =>
      let group := (i / 16)%nat in
      let '(_, bl, cl, dl, _) := ll in
      let '(_, br, cr, dr, _) := rl in
      (line_step ll (round group bl cl dl) (nth (nth i leftIndex O) x 0) (nth group leftConstants 0) (nth i leftShift 0),
       line_step rl (round (4 - group) br cr dr) (nth (nth i rightIndex O) x 0) (nth group rightConstants 0) (nth i rightShift 0)))
    (seq 0 80) (start, start) in
  let '(al, bl, cl, dl, el) := ll in
  let '(ar, br, cr, dr, er) := rl in
  [wrap32 (word 1%nat + cl + dr); wrap32 (word 2%nat + dl + er); wrap32 (word 3%nat + el + ar);
   wrap32 (word 4%nat + al + br); wrap32 (word 0%nat + bl + cr)].

(** ** The digest *)

Record Digest := mkDigest { state : list Z; buf : bytes; n : nat; total : Z }.

Definition New : Digest := mkDigest initialState (zeros BlockSize) 0 0.
Definition Reset (d : Digest) : Digest := mkDigest initialState (buf d) 0 0.

(** Complete the block that is buffered, if there is one. *)
Definition top_up (d : Digest) (p : bytes) : Digest * bytes :=
  if Nat.ltb 0 (n d) then
    let fill := Nat.min (BlockSize - n d) (length p) in
    let d := mkDigest (state d) (take (n d) (buf d) ++ take fill p ++ drop (n d + fill) (buf d)) (n d + fill) (total d) in
    (if Nat.eqb (n d) BlockSize then mkDigest (compress (state d) (buf d)) (buf d) 0 (total d) else d, drop fill p)
  else (d, p).

(** Whole blocks are compressed where they are. *)
Fixpoint whole_blocks (fuel : nat) (d : Digest) (p : bytes) : Digest * bytes :=
  match fuel with
  | O => (d, p)
  | S fuel =>
      if Nat.leb BlockSize (length p)
      then whole_blocks fuel (mkDigest (compress (state d) (take BlockSize p)) (buf d) (n d) (total d)) (drop BlockSize p)
      else (d, p)
  end.

Definition Write (d : Digest) (p : bytes) : Digest :=
  let d := mkDigest (state d) (buf d) (n d) (total d +w len p) in
  let (d, p) := top_up d p in
  let (d, p) := whole_blocks (length p) d p in
  if Nat.ltb 0 (length p) then mkDigest (state d) (p ++ drop (length p) (buf d)) (length p) (total d) else d.

(** The padding that closes a message of [length] bytes. *)
Definition closing (length : Z) : bytes :=
  let padLen := Z.of_nat BlockSize - (length +w 8) mod Z.of_nat BlockSize in
  let padLen := if padLen <=? 0 then padLen + Z.of_nat BlockSize else padLen in
  128 :: zeros (Z.to_nat padLen - 1) ++ put_le64 (wrap64 (Z.shiftl length 3)).

Definition Sum (d : Digest) (b : bytes) : bytes :=
  let dup := Write (mkDigest (state d) (buf d) (n d) 0) (closing (total d)) in
  b ++ concat (map put_le32 (state dup)).

Definition Sum160 (data : bytes) : bytes := Sum (Write New data) [].

Example sum160_empty : Sum160 [] =
  [0x9c; 0x11; 0x85; 0xa5; 0xc5; 0xe9; 0xfc; 0x54; 0x61; 0x28; 0x08; 0x97; 0x7e; 0xe8; 0xf5; 0x48; 0xb2; 0x25; 0x8d; 0x31].
Proof. vm_compute. reflexivity. Qed.

Example sum160_abc : Sum160 [97; 98; 99] =
  [0x8e; 0xb2; 0x08; 0xf7; 0xe0; 0x5d; 0x98; 0x7a; 0x9b; 0x04; 0x4a; 0x8e; 0x98; 0xc6; 0xb0; 0x87; 0xf1; 0x5a; 0x0b; 0xfc].
Proof. vm_compute. reflexivity. Qed.

(** ** The reference: the blocks of the closed message, compressed in turn *)

#[local] Opaque compress.

Abbreviation full := (Blk.full BlockSize compress initialState).
Abbreviation tail := (Blk.tail BlockSize).

Definition reference (m : bytes) : bytes := concat (map put_le32 (full (m ++ closing (wrap64 (len m))))).

Lemma size_pos : (0 < BlockSize)%nat.
Proof. unfold BlockSize. lia. Qed.

(** The digest after the bytes of [m], its count of bytes apart. *)
Record holds (d : Digest) (m : bytes) : Prop := mkHolds
  { h_length : length (buf d) = BlockSize;
    h_n : n d = length (tail m);
    h_buf : take (n d) (buf d) = tail m;
    h_state : state d = full m }.

(** What a phase of [Write] does: it takes [q] off the input. *)
Definition takes (d : Digest) (p : bytes) (r : Digest * bytes) (m q : bytes) : Prop :=
  p = q ++ snd r /\ holds (fst r) (m ++ q) /\ total (fst r) = total d.

Lemma top_up_takes d m p : holds d m -> exists q, takes d p (top_up d p) m q /\ (n (fst (top_up d p)) = 0%nat \/ snd (top_up d p) = []).
Proof.
  intros Hd. pose proof Hd as [Hl Hn Hb Hs]. unfold top_up. destruct (Nat.ltb_spec 0 (n d)) as [Hp|Hp]; cbn [n state buf total].
  2:{ exists []. split; [split; [reflexivity|]; split; [rewrite app_nil_r; exact Hd | reflexivity] | left; cbn [fst]; lia]. }
  pose proof (proj2 (Blk.length_split BlockSize size_pos m)) as Hr. set (t := Nat.min (BlockSize - n d) (length p)).
  assert (length (take t p) = t) as Ht by (rewrite length_take; lia). exists (take t p).
  assert (length (take (n d) (buf d) ++ take t p ++ drop (n d + t) (buf d)) = BlockSize) as Hlf by (rewrite Hb, !length_app, Ht, length_drop; lia).
  destruct (Nat.eqb_spec (n d + t) BlockSize) as [E|E].
  - destruct (Blk.append_fill BlockSize compress initialState size_pos m (take t p)) as [E1 E2]; [lia|].
    split; [|left; reflexivity]. split; [symmetry; apply take_drop|]. split; [|reflexivity].
    constructor; rewrite ?E1, ?E2; cbn [n buf state fst]; [exact Hlf | reflexivity | reflexivity|]. rewrite Hb, Hs, (drop_ge (buf d)), app_nil_r by lia. reflexivity.
  - destruct (Blk.append_short BlockSize compress initialState size_pos m (take t p)) as [E1 E2]; [lia|].
    split; [|right; apply drop_ge; lia]. split; [symmetry; apply take_drop|]. split; [|reflexivity].
    constructor; rewrite ?E1, ?E2; cbn [n buf state fst]; [exact Hlf | rewrite length_app, Ht; lia | | exact Hs].
    rewrite Hb, app_assoc, take_app_le by (rewrite length_app, Ht; lia). apply take_ge. rewrite length_app, Ht. lia.
Qed.

Lemma whole_blocks_takes fuel : forall d m p, holds d m -> n d = 0%nat -> (length p <= fuel)%nat ->
  exists q, takes d p (whole_blocks fuel d p) m q /\ n (fst (whole_blocks fuel d p)) = 0%nat /\ (length (snd (whole_blocks fuel d p)) < BlockSize)%nat.
Proof.
  induction fuel as [|fuel IH]; intros d m p Hd Hn Hf; cbn [whole_blocks].
  { exists []. split; [split; [reflexivity|]; split; [rewrite app_nil_r; exact Hd | reflexivity]|]. split; [exact Hn | cbn [snd]; unfold BlockSize; lia]. }
  destruct (Nat.leb_spec BlockSize (length p)) as [Hp|Hp].
  2:{ exists []. split; [split; [reflexivity|]; split; [rewrite app_nil_r; exact Hd | reflexivity]|]. split; [exact Hn | exact Hp]. }
  pose proof Hd as [Hl Hnt _ Hs]. assert (tail m = []) as Et by (apply length_zero_iff_nil; lia).
  assert (length (take BlockSize p) = BlockSize) as Ht by (rewrite length_take; lia).
  destruct (Blk.append_fill BlockSize compress initialState size_pos m (take BlockSize p)) as [E1 E2]; [rewrite Et, Ht; reflexivity|]. rewrite Et in E1. cbn [app] in E1.
  destruct (IH (mkDigest (compress (state d) (take BlockSize p)) (buf d) (n d) (total d)) (m ++ take BlockSize p) (drop BlockSize p)) as (q & (Q1 & Q2 & Q3) & Q4).
  - constructor; rewrite ?E1, ?E2; cbn [n buf state]; [exact Hl | exact Hn | rewrite Hn; reflexivity | rewrite Hs; reflexivity].
  - exact Hn.
  - rewrite length_drop. pose proof size_pos. lia.
  - exists (take BlockSize p ++ q). split; [|exact Q4]. split; [rewrite <- app_assoc, <- Q1; symmetry; apply take_drop|].
    split; [rewrite app_assoc; exact Q2 | exact Q3].
Qed.

Lemma write_holds d m p : holds d m -> holds (Write d p) (m ++ p) /\ total (Write d p) = total d +w len p.
Proof.
  intros Hd. unfold Write. set (d0 := mkDigest (state d) (buf d) (n d) (total d +w len p)).
  assert (holds d0 m) as Hd0 by (destruct Hd; constructor; assumption).
  destruct (top_up_takes d0 m p Hd0) as (q1 & (T1 & T2 & T3) & T4). destruct (top_up d0 p) as [d1 p1]. cbn [fst snd] in *. subst p.
  destruct T4 as [Hn | ->].
  2:{ cbn [length whole_blocks Nat.ltb Nat.leb]. split; [rewrite app_nil_r; exact T2 | exact T3]. }
  destruct (whole_blocks_takes (length p1) d1 (m ++ q1) p1 T2 Hn (Nat.le_refl _)) as (q2 & (W1 & W2 & W3) & W4 & W5).
  destruct (whole_blocks (length p1) d1 p1) as [d2 p2]. cbn [fst snd] in *. subst p1. rewrite <- app_assoc in W2. rewrite T3 in W3.
  destruct (Nat.ltb_spec 0 (length p2)) as [Hp|Hp].
  2:{ assert (p2 = []) as -> by (apply length_zero_iff_nil; lia). split; [rewrite app_nil_r; exact W2 | exact W3]. }
  split; [|exact W3]. destruct W2 as [Hl Hnt _ Hs].
  destruct (Blk.append_short BlockSize compress initialState size_pos (m ++ q1 ++ q2) p2) as [E1 E2]; [lia|]. rewrite <- !app_assoc in E1, E2.
  assert (tail (m ++ q1 ++ q2) = []) as Et by (apply length_zero_iff_nil; lia). rewrite Et in E2. cbn [app] in E2.
  constructor; rewrite ?E1, ?E2; cbn [n buf state]; [rewrite length_app, length_drop; lia | reflexivity | | exact Hs].
  rewrite take_app_le by lia. apply take_ge. lia.
Qed.

Lemma fresh_holds : holds New [].
Proof. constructor; reflexivity. Qed.

(** RIPEMD-160 is the Merkle-Damgard hash of the closed message, whichever
    way it was written: two writes, or one of the concatenation, leave a digest
    whose sum is the compression of all blocks of the message, 0x80, zeros and
    the length in bits.  [Sum] leaves the digest usable. *)
Theorem ripemd_streaming a b : Sum (Write (Write New a) b) [] = reference (a ++ b) /\ Sum160 (a ++ b) = reference (a ++ b).
Proof.
  assert (forall d m, holds d m -> total d = wrap64 (len m) -> Sum d [] = reference m) as Hsum.
  { intros d m Hd Ht. unfold Sum, reference. cbn [app]. rewrite Ht. f_equal. f_equal.
    assert (holds (mkDigest (state d) (buf d) (n d) 0) m) as Hd0 by (destruct Hd; constructor; assumption). apply (write_holds _ _ _ Hd0). }
  destruct (write_holds New [] a fresh_holds) as [H1 T1]. destruct (write_holds (Write New a) a b H1) as [H2 T2].
  destruct (write_holds New [] (a ++ b) fresh_holds) as [H3 T3]. cbn [app total New] in *.
  split; apply Hsum; auto.
  - rewrite T2, T1. cbn [Z.add]. unfold wrap64, len. rewrite length_app, Zplus_mod_idemp_l. f_equal. lia.
Qed.

Lemma sum160_ok data : bytes_ok (Sum160 data).
Proof. unfold Sum160, Sum. cbn [app]. apply Forall_concat, Forall_map, Forall_true. intros w. apply Forall_map, Forall_true. intros j. apply wrap8_ok. Qed.

End Ripemd.
