(* ===== verification/Blake2b.v ===== *)
(** The BLAKE2b compression function, src/crypto/blake2b/blake2b.go, as the
    precompiled contract at address 9 uses it. *)

From stdpp Require Import base list.
From Stdlib Require Import ZArith Lia.
From S2P Require Import Prelude RLP Common Blocks.
Local Open Scope Z_scope.
Local Open Scope go_scope.

Module B2b.
Import Blk.

Definition IV : list Z :=
  [0x6a09e667f3bcc908; 0xbb67ae8584caa73b; 0x3c6ef372fe94f82b; 0xa54ff53a5f1d36f1;
   0x510e527fade682d1; 0x9b05688c2b3e6c1f; 0x1f83d9abfb41bd6b; 0x5be0cd19137e2179].

Definition sigma : list (list nat) :=
  [[0; 1; 2; 3; 4; 5; 6; 7; 8; 9; 10; 11; 12; 13; 14; 15];
   [14; 10; 4; 8; 9; 15; 13; 6; 1; 12; 0; 2; 11; 7; 5; 3];
   [11; 8; 12; 0; 5; 2; 15; 13; 10; 14; 3; 6; 7; 1; 9; 4];
   [7; 9; 3; 1; 13; 12; 11; 14; 2; 6; 5; 10; 4; 0; 15; 8];
   [9; 0; 5; 7; 2; 4; 10; 15; 14; 1; 11; 12; 6; 8; 3; 13];
   [2; 12; 6; 10; 0; 11; 8; 3; 4; 13; 7; 5; 15; 14; 1; 9];
   [12; 5; 1; 15; 14; 13; 4; 10; 0; 7; 6; 3; 9; 2; 8; 11];
   [13; 11; 7; 14; 12; 1; 3; 9; 5; 0; 15; 4; 8; 6; 2; 10];
   [6; 15; 14; 9; 11; 3; 0; 8; 12; 2; 13; 7; 1; 4; 10; 5];
   [10; 2; 8; 4; 7; 6; 1; 5; 15; 11; 9; 14; 3; 12; 13; 0]]%nat.

Definition rotr (x n : Z) : Z := Z.lor (Z.shiftr x n) (wrap64 (Z.shiftl x (64 - n))).
Definition not64 (x : Z) : Z := Z.lxor x (two64 - 1).

Definition at_ (v : list Z) (i : nat) : Z := nth i v 0.

Definition mix (v : list Z) (a b c d : nat) (x y : Z) : list Z :=
  let v := <[a := at_ v a + at_ v b +w x]> v in
  let v := <[d := rotr (Z.lxor (at_ v d) (at_ v a)) 32]> v in
  let v := <[c := at_ v c +w at_ v d]> v in
  let v := <[b := rotr (Z.lxor (at_ v b) (at_ v c)) 24]> v in
  let v := <[a := at_ v a + at_ v b +w y]> v in
  let v := <[d := rotr (Z.lxor (at_ v d) (at_ v a)) 16]> v in
  let v := <[c := at_ v c +w at_ v d]> v in
  <[b := rotr (Z.lxor (at_ v b) (at_ v c)) 63]> v.

Definition round (m v : list Z) (r : Z) : list Z :=
  let s := nth (Z.to_nat (r mod 10)) sigma [] in
  let word i := nth (nth i s O) m 0 in
  let v := mix v 0 4 8 12 (word 0%nat) (word 1%nat) in
  let v := mix v 1 5 9 13 (word 2%nat) (word 3%nat) in
  let v := mix v 2 6 10 14 (word 4%nat) (word 5%nat) in
  let v := mix v 3 7 11 15 (word 6%nat) (word 7%nat) in
  let v := mix v 0 5 10 15 (word 8%nat) (word 9%nat) in
  let v := mix v 1 6 11 12 (word 10%nat) (word 11%nat) in
  let v := mix v 2 7 8 13 (word 12%nat) (word 13%nat) in
  mix v 3 4 9 14 (word 14%nat) (word 15%nat).

(** The rounds, counted up. *)
Fixpoint run_rounds (n : nat) (m v : list Z) (r : Z) : list Z :=
  match n with
  | O => v
  | S n => run_rounds n m (round m v r) (r + 1)
  end.

Definition F (h m : list Z) (t : Z * Z) (final : bool) (rounds : Z) : list Z :=
  let v := h ++ IV in
  let v := <[12%nat := Z.lxor (at_ v 12) (fst t)]> v in
  let v := <[13%nat := Z.lxor (at_ v 13) (snd t)]> v in
  let v := if final then <[14%nat := not64 (at_ v 14)]> v else v in
  let v := run_rounds (Z.to_nat rounds) m v 0 in
  map (fun i => Z.lxor (at_ h i) (Z.lxor (at_ v i) (at_ v (i + 8)))) (seq 0 8).

Definition InputLength : Z := 4 + 64 + 128 + 16 + 1.

(** [ParseInput]: [None] is [ok = false]. *)
Definition ParseInput (input : bytes) : option (Z * list Z * list Z * (Z * Z) * bool) :=
  if negb (len input =? InputLength) then None
  else
    let flag := nth 212 input 0 in
    if negb (flag =? 0) && negb (flag =? 1) then None
    else
      Some (be_val (take 4 input), map (fun i => le64 input (4 + i * 8)) (seq 0 8), map (fun i => le64 input (68 + i * 8)) (seq 0 16),
            (le64 input 196, le64 input 204), flag =? 1).

Definition EncodeState (h : list Z) : bytes := concat (map put_le64 h).

Lemma encode_ok h : bytes_ok (EncodeState h).
Proof. apply Forall_concat, Forall_map, Forall_true. intros w. apply put_le64_ok. Qed.

(** The compression of the message "abc" with the standard parameters (EIP-152). *)
Definition abc_input (rounds flag : Z) : bytes :=
  [0; 0; 0; rounds] ++ EncodeState (<[0%nat := Z.lxor (at_ IV 0) 0x01010040]> IV) ++ ([97; 98; 99] ++ zeros 125) ++ (3 :: zeros 15) ++ [flag].

Definition compress_input (input : bytes) : option bytes :=
  let? p := ParseInput input in let '(rounds, h, m, t, final) := p in Some (EncodeState (F h m t final rounds)).

Example twelve_rounds : option_map (take 8) (compress_input (abc_input 12 1)) = Some [0xba; 0x80; 0xa5; 0x3f; 0x98; 0x1c; 0x4d; 0x0d].
Proof. vm_compute. reflexivity. Qed.

Example zero_rounds : option_map (take 8) (compress_input (abc_input 0 1)) = Some [0x08; 0xc9; 0xbc; 0xf3; 0x67; 0xe6; 0x09; 0x6a].
Proof. vm_compute. reflexivity. Qed.

End B2b.
