(* ===== verification/EvmData.v ===== *)
(** The data of the EVM (src/evm: opcodes.go, errors.go, stack.go, memory.go,
    contract.go, gas.go) and the gas arithmetic on it.

    An opcode byte is decoded into the instruction it names; the numbered
    families keep their number.  A stack is a list with the top first; memory
    is a byte string with the fee paid for it.  [None] is a run-time panic. *)

From stdpp Require Import base list gmap.
From Stdlib Require Import ZArith Lia.
From S2P Require Import Prelude Common UInt256.
Local Open Scope Z_scope.
Local Open Scope go_scope.

Module Vm.

Abbreviation Word := U256.Int.

(** * Instructions *)

Inductive OpCode :=
| STOP | ADD | MUL | SUB | DIV | SDIV | MOD | SMOD | ADDMOD | MULMOD | EXP | SIGNEXTEND
| LT | GT | SLT | SGT | EQ | ISZERO | AND | OR | XOR | NOT | BYTE | SHL | SHR | SAR
| KECCAK256
| ADDRESS | BALANCE | ORIGIN | CALLER | CALLVALUE | CALLDATALOAD | CALLDATASIZE | CALLDATACOPY
| CODESIZE | CODECOPY | GASPRICE | EXTCODESIZE | EXTCODECOPY | RETURNDATASIZE | RETURNDATACOPY | EXTCODEHASH
| BLOCKHASH | COINBASE | TIMESTAMP | NUMBER | PREVRANDAO | GASLIMIT | CHAINID | SELFBALANCE | BASEFEE
| POP | MLOAD | MSTORE | MSTORE8 | SLOAD | SSTORE | JUMP | JUMPI | PC | MSIZE | GAS | JUMPDEST
| TLOAD | TSTORE | MCOPY | PUSH0
| PUSH (n : Z) | DUP (n : Z) | SWAP (n : Z) | LOG (n : Z)
| CREATE | CALL | CALLCODE | RETURN | DELEGATECALL | CREATE2 | STATICCALL | REVERT | INVALID | SELFDESTRUCT
| UNDEFINED (b : Z).

#[global] Instance OpCode_eq_dec : EqDecision OpCode.
Proof. solve_decision. Defined.

(** The numbered families: [PUSH n] is PUSH1 to PUSH32, [DUP n] and [SWAP n]
    are counted from 1, [LOG n] from 0. *)
Definition family (b : Z) : OpCode :=
  if (96 <=? b) && (b <=? 127) then PUSH (b - 95)
  else if (128 <=? b) && (b <=? 143) then DUP (b - 127)
  else if (144 <=? b) && (b <=? 159) then SWAP (b - 143)
  else if (160 <=? b) && (b <=? 164) then LOG (b - 160)
  else UNDEFINED b.

(** The instruction a byte stands for. *)
Definition opcode (b : Z) : OpCode :=
  match b with
  | 0 => STOP | 1 => ADD | 2 => MUL | 3 => SUB | 4 => DIV | 5 => SDIV | 6 => MOD | 7 => SMOD
  | 8 => ADDMOD | 9 => MULMOD | 10 => EXP | 11 => SIGNEXTEND
  | 16 => LT | 17 => GT | 18 => SLT | 19 => SGT | 20 => EQ | 21 => ISZERO | 22 => AND | 23 => OR
  | 24 => XOR | 25 => NOT | 26 => BYTE | 27 => SHL | 28 => SHR | 29 => SAR
  | 32 => KECCAK256
  | 48 => ADDRESS | 49 => BALANCE | 50 => ORIGIN | 51 => CALLER | 52 => CALLVALUE | 53 => CALLDATALOAD
  | 54 => CALLDATASIZE | 55 => CALLDATACOPY | 56 => CODESIZE | 57 => CODECOPY | 58 => GASPRICE
  | 59 => EXTCODESIZE | 60 => EXTCODECOPY | 61 => RETURNDATASIZE | 62 => RETURNDATACOPY | 63 => EXTCODEHASH
  | 64 => BLOCKHASH | 65 => COINBASE | 66 => TIMESTAMP | 67 => NUMBER | 68 => PREVRANDAO | 69 => GASLIMIT
  | 70 => CHAINID | 71 => SELFBALANCE | 72 => BASEFEE
  | 80 => POP | 81 => MLOAD | 82 => MSTORE | 83 => MSTORE8 | 84 => SLOAD | 85 => SSTORE | 86 => JUMP
  | 87 => JUMPI | 88 => PC | 89 => MSIZE | 90 => GAS | 91 => JUMPDEST | 92 => TLOAD | 93 => TSTORE
  | 94 => MCOPY | 95 => PUSH0
  | 240 => CREATE | 241 => CALL | 242 => CALLCODE | 243 => RETURN | 244 => DELEGATECALL | 245 => CREATE2
  | 250 => STATICCALL | 253 => REVERT | 254 => INVALID | 255 => SELFDESTRUCT
  | _ => family b
  end.

Definition IsPush (op : OpCode) : bool := match op with PUSH _ => true | _ => false end.
Definition PushSize (op : OpCode) : Z := match op with PUSH n => n | _ => 0 end.

(** * Errors *)

Inductive vm_error :=
| ErrOutOfGas
| ErrCodeStoreOutOfGas
| ErrDepthLimit
| ErrInsufficientBalance
| ErrContractAddressCollision
| ErrExecutionReverted
| ErrMaxCodeSizeExceeded
| ErrInvalidJump
| ErrWriteProtection
| ErrReturnDataOutOfBounds
| ErrGasUintOverflow
| ErrInvalidCode
| ErrNonceOverflow
| ErrStackUnderflow
| ErrStackOverflow
| ErrInvalidOpCode (op : OpCode)
| ErrPrecompile
| ErrAborted.

#[global] Instance vm_error_eq_dec : EqDecision vm_error.
Proof. solve_decision. Defined.

(** * The stack *)

Definition StackLimit : Z := 1024.
Abbreviation Stack := (list Word).

Definition back (s : Stack) (n : nat) : option Word := s !! n.
Definition swap (s : Stack) (n : nat) : option Stack :=
  match s !! 0%nat, s !! n with
  | Some x, Some y => Some (<[n := x]> (<[0%nat := y]> s))
  | _, _ => None
  end.
Definition dup (s : Stack) (n : nat) : option Stack :=
  match s !! (n - 1)%nat with
  | Some x => Some (x :: s)
  | None => None
  end.

Definition checkLimits (s : Stack) (pops pushes : Z) : result vm_error unit :=
  if len s <? pops then Err ErrStackUnderflow
  else if StackLimit <? len s - pops + pushes then Err ErrStackOverflow
  else Ok tt.

(** * Memory *)

Record Memory := mkMemory { store : bytes; lastGasCost : Z }.

Definition newMemory : Memory := mkMemory [] 0.

Definition Resize (m : Memory) (size : Z) : Memory :=
  if len (store m) <? size then mkMemory (store m ++ zeros (Z.to_nat (size - len (store m)))) (lastGasCost m) else m.

(** [copy(m.store[offset:offset+size], value)].  A slice past the length of the
    memory is a panic here; the code would panic only past its capacity. *)
Definition copy_into (m : Memory) (offset size : Z) (value : bytes) : option Memory :=
  let last := offset +w size in
  if (last <? offset) || (len (store m) <? last) then None
  else
    let v := take (Z.to_nat size) value in
    Some (mkMemory (take (Z.to_nat offset) (store m) ++ v ++ drop (Z.to_nat offset + length v) (store m)) (lastGasCost m)).

Definition MemSet (m : Memory) (offset size : Z) (value : bytes) : option Memory :=
  if size =? 0 then Some m else copy_into m offset size value.

Definition Set32 (m : Memory) (offset : Z) (value : Word) : option Memory := copy_into m offset 32 (U256.Bytes32 value).

Definition min64 (a b : Z) : Z := if a <? b then a else b.
Definition max64 (a b : Z) : Z := if b <? a then a else b.

(** [data[from:to]], a panic out of range. *)
Definition slice (data : bytes) (from to : Z) : option bytes :=
  if (to <? from) || (len data <? to) then None
  else Some (take (Z.to_nat (to - from)) (drop (Z.to_nat from) data)).

(** [make([]byte, size)] with [b] copied to its start. *)
Definition padded (b : bytes) (size : Z) : bytes := RightPadBytes b (Z.to_nat size).

Definition GetCopy (m : Memory) (offset size : Z) : option bytes :=
  if size =? 0 then Some []
  else if offset <? len (store m) then
    let? b := slice (store m) offset (min64 (offset +w size) (len (store m))) in Some (padded b size)
  else Some (padded [] size).

Definition GetPtr (m : Memory) (offset size : Z) : option bytes :=
  if (size =? 0) || (len (store m) <=? offset) then Some []
  else slice (store m) offset (min64 (offset +w size) (len (store m))).

Definition toWordSize (size : Z) : Z :=
  if max_uint64 - 31 <? size then max_uint64 / 32 + 1 else (size +w 31) / 32.

(** * Gas *)

Definition GasColdAccountAccess : Z := 2600.
Definition GasColdSloadCost : Z := 2100.
Definition GasWarmStorageRead : Z := 100.
Definition GasSstoreSet : Z := 20000.
Definition GasSstoreReset : Z := 5000.
Definition GasSstoreClear : Z := 4800.
Definition GasCallStipend : Z := 2300.
Definition GasCallValue : Z := 9000.
Definition GasNewAccount : Z := 25000.
Definition GasCreate : Z := 32000.
Definition GasCodeDeposit : Z := 200.
Definition GasKeccakWord : Z := 6.
Definition GasCopyWord : Z := 3.
Definition GasMemoryWord : Z := 3.
Definition GasInitCodeWord : Z := 2.
Definition GasExpByte : Z := 50.
Definition GasLog : Z := 375.
Definition GasLogTopic : Z := 375.
Definition GasLogByte : Z := 8.
Definition MaxCodeSize : Z := 24576.
Definition MaxInitCodeSize : Z := 2 * MaxCodeSize.
Definition MaxCallDepth : Z := 1024.

Definition safeAdd (a b : Z) : result vm_error Z :=
  let sum := a +w b in if sum <? a then Err ErrGasUintOverflow else Ok sum.

Definition safeMul (a b : Z) : result vm_error Z :=
  if (a =? 0) || (b =? 0) then Ok 0
  else
    let product := a *w b in
    if negb (product / a =? b) then Err ErrGasUintOverflow else Ok product.

Definition memoryGasCost (m : Memory) (newSize : Z) : result vm_error (Z * Memory) :=
  if newSize =? 0 then Ok (0, m)
  else if 137438953440 <? newSize then Err ErrGasUintOverflow
  else
    let newWords := toWordSize newSize in
    let newTotal := (newWords *w GasMemoryWord) +w (newWords *w newWords) / 512 in
    if newTotal <=? lastGasCost m then Ok (0, m)
    else Ok (newTotal -w lastGasCost m, mkMemory (store m) newTotal).

Definition memoryExtent (offset size : Word) : result vm_error Z :=
  if U256.IsZero size then Ok 0
  else if negb (U256.IsUint64 offset) || negb (U256.IsUint64 size) then Err ErrGasUintOverflow
  else safeAdd (U256.l0 offset) (U256.l0 size).

Definition wordCopyGas (size : Word) : result vm_error Z :=
  if U256.IsZero size then Ok 0
  else if negb (U256.IsUint64 size) then Err ErrGasUintOverflow
  else safeMul (toWordSize (U256.l0 size)) GasCopyWord.

Definition callGas (availableGas base : Z) (requested : Word) : result vm_error Z :=
  if availableGas <? base then Err ErrOutOfGas
  else
    let available := availableGas - base in
    let allowed := available - available / 64 in
    if negb (U256.IsUint64 requested) || (allowed <? U256.l0 requested) then Ok allowed
    else Ok (U256.l0 requested).

Definition sstoreGas (original current value : Hash) (cold : bool) : Z * Z :=
  let cost := if cold then GasColdSloadCost else 0 in
  if bool_decide (current = value) then (cost + GasWarmStorageRead, 0)
  else if bool_decide (original = current) then
    if HashIsZero original then (cost + GasSstoreSet, 0)
    else (cost + GasSstoreReset, if HashIsZero value then GasSstoreClear else 0)
  else
    let refund :=
      if negb (HashIsZero original) then
        if HashIsZero current then - GasSstoreClear
        else if HashIsZero value then GasSstoreClear else 0
      else 0 in
    let refund :=
      if bool_decide (original = value) then
        if HashIsZero original then refund + (GasSstoreSet - GasWarmStorageRead)
        else refund + (GasSstoreReset - GasColdSloadCost - GasWarmStorageRead)
      else refund in
    (cost + GasWarmStorageRead, refund).

(** How many values an instruction pops and pushes. *)
Definition stackRequirement (op : OpCode) : Z * Z :=
  match op with
  | PUSH _ => (0, 1)
  | DUP n => (n, n + 1)
  | SWAP n => (n + 1, n + 1)
  | LOG n => (n + 2, 0)
  | STOP | JUMPDEST => (0, 0)
  | PC | MSIZE | GAS | ADDRESS | ORIGIN | CALLER | CALLVALUE | CALLDATASIZE | CODESIZE | GASPRICE
  | RETURNDATASIZE | COINBASE | TIMESTAMP | NUMBER | PREVRANDAO | GASLIMIT | CHAINID | SELFBALANCE
  | BASEFEE | PUSH0 => (0, 1)
  | POP | JUMP | SELFDESTRUCT => (1, 0)
  | ISZERO | NOT | BALANCE | CALLDATALOAD | EXTCODESIZE | EXTCODEHASH | BLOCKHASH | MLOAD | SLOAD | TLOAD => (1, 1)
  | ADD | MUL | SUB | DIV | SDIV | MOD | SMOD | EXP | SIGNEXTEND | LT | GT | SLT | SGT | EQ | AND | OR
  | XOR | BYTE | SHL | SHR | SAR | KECCAK256 => (2, 1)
  | JUMPI | MSTORE | MSTORE8 | SSTORE | TSTORE | RETURN | REVERT => (2, 0)
  | ADDMOD | MULMOD | CREATE => (3, 1)
  | CALLDATACOPY | CODECOPY | RETURNDATACOPY | MCOPY => (3, 0)
  | EXTCODECOPY => (4, 0)
  | CREATE2 => (4, 1)
  | DELEGATECALL | STATICCALL => (6, 1)
  | CALL | CALLCODE => (7, 1)
  | INVALID | UNDEFINED _ => (0, 0)
  end.

(** The constant part of a cost; [None] for an undefined instruction. *)
Definition baseGas (op : OpCode) : option Z :=
  match op with
  | PUSH _ | DUP _ | SWAP _ => Some 3
  | LOG _ => Some GasLog
  | STOP | RETURN | REVERT => Some 0
  | JUMPDEST => Some 1
  | PUSH0 => Some 2
  | ADDRESS | ORIGIN | CALLER | CALLVALUE | CALLDATASIZE | CODESIZE | GASPRICE | COINBASE | TIMESTAMP
  | NUMBER | PREVRANDAO | GASLIMIT | POP | PC | MSIZE | GAS | RETURNDATASIZE | CHAINID | BASEFEE => Some 2
  | ADD | SUB | NOT | LT | GT | SLT | SGT | EQ | ISZERO | AND | OR | XOR | BYTE | CALLDATALOAD | MLOAD
  | MSTORE | MSTORE8 | SHL | SHR | SAR | CALLDATACOPY | CODECOPY | RETURNDATACOPY | MCOPY => Some 3
  | MUL | DIV | SDIV | MOD | SMOD | SIGNEXTEND | SELFBALANCE => Some 5
  | ADDMOD | MULMOD | JUMP => Some 8
  | JUMPI => Some 10
  | KECCAK256 => Some 30
  | EXP => Some 10
  | BLOCKHASH => Some 20
  | BALANCE | EXTCODESIZE | EXTCODEHASH | SLOAD | EXTCODECOPY => Some 0
  | TLOAD | TSTORE => Some GasWarmStorageRead
  | SSTORE => Some 0
  | CREATE | CREATE2 => Some GasCreate
  | CALL | CALLCODE | DELEGATECALL | STATICCALL => Some 0
  | SELFDESTRUCT => Some 5000
  | INVALID => Some 0
  | UNDEFINED _ => None
  end.

(** * Frames *)

Record Contract := mkContract
  { CallerAddress : Address;
    self : Address;
    Code : bytes;
    Input : bytes;
    Gas : Z;
    value : Word }.

(** Who calls: an account or another frame. *)
Inductive ContractRef := AccountRef (a : Address) | FrameRef (c : Contract).

Definition ref_address (r : ContractRef) : Address := match r with AccountRef a => a | FrameRef c => self c end.

Definition NewContract (caller : ContractRef) (object : Address) (v : option Word) (gas : Z) : Contract :=
  mkContract (ref_address caller) object [] [] gas (default U256.zero v).

(** The caller of a delegate call must be a frame; otherwise the type
    assertion panics. *)
Definition AsDelegate (caller : ContractRef) (c : Contract) : option Contract :=
  match caller with
  | FrameRef parent => Some (mkContract (CallerAddress parent) (self c) (Code c) (Input c) (Gas c) (value parent))
  | AccountRef _ => None
  end.

Definition SetCallCode (c : Contract) (code : bytes) : Contract :=
  mkContract (CallerAddress c) (self c) code (Input c) (Gas c) (value c).
Definition with_input (c : Contract) (input : bytes) : Contract :=
  mkContract (CallerAddress c) (self c) (Code c) input (Gas c) (value c).
Definition with_gas (c : Contract) (gas : Z) : Contract :=
  mkContract (CallerAddress c) (self c) (Code c) (Input c) gas (value c).

Definition UseGas (c : Contract) (amount : Z) : option Contract :=
  if Gas c <? amount then None else Some (with_gas c (Gas c - amount)).
Definition RefundGas (c : Contract) (amount : Z) : Contract := with_gas c (Gas c +w amount).

Definition GetOp (c : Contract) (pc : Z) : OpCode :=
  if pc <? len (Code c) then opcode (nth (Z.to_nat pc) (Code c) 0) else STOP.

(** * Jump destinations *)

Definition set_bit (bits : bytes) (pos : Z) : bytes :=
  let i := Z.to_nat (pos / 8) in <[i := Z.lor (nth i bits 0) (Z.shiftl 1 (pos mod 8))]> bits.
Definition isCode (bits : bytes) (pos : Z) : bool :=
  Z.land (nth (Z.to_nat (pos / 8)) bits 0) (Z.shiftl 1 (pos mod 8)) =? 0.

(** The inner loop over the immediate bytes of one push. *)
Fixpoint mark_push (bits : bytes) (codeLen pc : Z) (size : nat) : bytes :=
  match size with
  | O => bits
  | S n => if pc <? codeLen then mark_push (set_bit bits pc) codeLen (pc + 1) n else bits
  end.

Fixpoint bitmap_loop (fuel : nat) (code bits : bytes) (pc : Z) : bytes :=
  match fuel with
  | O => bits
  | S f =>
      if pc <? len code then
        let op := opcode (nth (Z.to_nat pc) code 0) in
        let pc := pc + 1 in
        if IsPush op then bitmap_loop f code (mark_push bits (len code) pc (Z.to_nat (PushSize op))) (pc + PushSize op)
        else bitmap_loop f code bits pc
      else bits
  end.

Definition codeBitmap (code : bytes) : bytes :=
  bitmap_loop (length code) code (zeros (length code / 8 + 1 + 4)) 0.

Definition validJumpdest (c : Contract) (dest : Word) : bool :=
  if negb (U256.IsUint64 dest) then false
  else
    let pos := U256.l0 dest in
    if len (Code c) <=? pos then false
    else if negb (bool_decide (opcode (nth (Z.to_nat pos) (Code c) 0) = JUMPDEST)) then false
    else isCode (codeBitmap (Code c)) pos.

(** [getDataPadded]: call data and code read past their end are zero. *)
Definition getDataPadded (data : bytes) (offset : Word) (size : Z) : option bytes :=
  if size =? 0 then Some []
  else if negb (U256.IsUint64 offset) then Some (padded [] size)
  else
    let start := U256.l0 offset in
    if len data <=? start then Some (padded [] size)
    else
      let last := start +w size in
      let last := if (len data <? last) || (last <? start) then len data else last in
      let? b := slice data start last in Some (padded b size).

End Vm.
