(* ===== verification/Interpreter.v ===== *)
(** The EVM interpreter and the calls between frames (src/evm/interpreter.go,
    src/evm/evm.go).

    Execution is a state-and-error monad over the machine and the running
    frame.  An error of the EVM is a value the caller handles; a Go panic and
    running out of steps are the faults of [result fault], which the theorems
    exclude.  Calls run nested frames, so the operations that start a frame
    take the interpreter as an argument, and [Run] ties the knot. *)

From stdpp Require Import base list gmap.
From Stdlib Require Import ZArith Lia.
From S2P Require Import Prelude RLP Common UInt256 StateDB EvmData.
Local Open Scope Z_scope.
Local Open Scope go_scope.

(** A native contract; [None] is an error. *)
Record Precompile := mkPrecompile
  { RequiredGas : bytes -> Z;
    PrecompileRun : bytes -> option bytes }.

(** The native contracts of src/evm/precompiles.go, as the calls use them. *)
Class Precompiles := {
  precompile : Address -> option Precompile;
  RequiredGas_ok : forall a p input, precompile a = Some p -> bytes_ok input -> u64_ok (RequiredGas p input);
  PrecompileRun_ok : forall a p input out, precompile a = Some p -> bytes_ok input -> PrecompileRun p input = Some out -> bytes_ok out
}.

Module Interp.
Import Vm.

(** The environment of a transaction. *)
Record Env := mkEnv
  { Coinbase : Address;
    GasLimit : Z;
    BlockNumber : Z;
    Time : Z;
    BaseFee : option Z;
    Random : Hash;
    GetHash : Z -> Hash;
    Origin : Address;
    GasPrice : Z;
    ChainID : Z }.

(** What stops a Go program, or its model. *)
Inductive fault := GoPanic | OutOfFuel.

(** A Go byte string has bytes below 256 and a length below 2^63; those read
    from the state, the block or the chain pass through this conversion, which
    keeps them. *)
Definition octets (b : bytes) : bytes := if len b <=? max_int64 then map wrap8 b else [].

Section Interpreter.
Context `{K : Keccak} `{TS : TrieStore} `{P : Precompiles}.
Variable env : Env.

(** * Machine and frame *)

(** The mutable part of [EVM] and [Interpreter]: [readOnly] is the
    interpreter's flag, [evmReadOnly] that of [EVM], which nothing sets. *)
Record VM := mkVM
  { db : SDB.StateDB;
    depth : Z;
    readOnly : bool;
    evmReadOnly : bool;
    returnData : bytes;
    abort : bool }.

Definition set_db (v : VM) (s : SDB.StateDB) : VM := mkVM s (depth v) (readOnly v) (evmReadOnly v) (returnData v) (abort v).
Definition set_depth (v : VM) (d : Z) : VM := mkVM (db v) d (readOnly v) (evmReadOnly v) (returnData v) (abort v).
Definition set_readOnly (v : VM) (b : bool) : VM := mkVM (db v) (depth v) b (evmReadOnly v) (returnData v) (abort v).
Definition set_returnData (v : VM) (r : bytes) : VM := mkVM (db v) (depth v) (readOnly v) (evmReadOnly v) r (abort v).

Record Frame := mkFrame
  { pc : Z;
    contract : Contract;
    stack : Stack;
    mem : Memory }.

Record St := mkSt { vm : VM; fr : Frame }.

Definition with_vm (s : St) (v : VM) : St := mkSt v (fr s).
Definition with_pc (s : St) (p : Z) : St := mkSt (vm s) (mkFrame p (contract (fr s)) (stack (fr s)) (mem (fr s))).
Definition with_contract (s : St) (c : Contract) : St := mkSt (vm s) (mkFrame (pc (fr s)) c (stack (fr s)) (mem (fr s))).
Definition with_stack (s : St) (k : Stack) : St := mkSt (vm s) (mkFrame (pc (fr s)) (contract (fr s)) k (mem (fr s))).
Definition with_mem (s : St) (m : Memory) : St := mkSt (vm s) (mkFrame (pc (fr s)) (contract (fr s)) (stack (fr s)) m).

(** * The monad *)

Definition M (A : Type) : Type := St -> result fault (St * result vm_error A).

Definition ret {A} (a : A) : M A := fun s => Ok (s, Ok a).
Definition fail {A} (e : vm_error) : M A := fun s => Ok (s, Err e).
Definition bind {A B} (m : M A) (k : A -> M B) : M B := fun s =>
  match m s with
  | Err f => Err f
  | Ok (s, Err e) => Ok (s, Err e)
  | Ok (s, Ok a) => k a s
  end.

Notation "'let*' x := e 'in' k" := (bind e (fun x => k)) (at level 10, x pattern, e at level 200, k at level 200).
Notation "e ';;;' k" := (bind e (fun _ => k)) (at level 90, right associativity).

Definition get {A} (f : St -> A) : M A := fun s => Ok (s, Ok (f s)).
Definition update (f : St -> St) : M unit := fun s => Ok (f s, Ok tt).
Definition lift {A} (r : result vm_error A) : M A := fun s => Ok (s, r).
Definition orPanic {A} (o : option A) : M A := fun s => match o with Some a => Ok (s, Ok a) | None => Err GoPanic end.
Definition guard (b : bool) (e : vm_error) : M unit := if b then fail e else ret tt.

(** Reads and writes of the state. *)
Definition query {A} (f : SDB.World -> SDB.World * A) : M A := fun s =>
  let (w, a) := f (SDB.world (db (vm s))) in
  Ok (with_vm s (set_db (vm s) (SDB.with_world (db (vm s)) w)), Ok a).
Definition peek_db {A} (f : SDB.World -> A) : M A := get (fun s => f (SDB.world (db (vm s)))).
Definition change (f : SDB.StateDB -> SDB.StateDB) : M unit := update (fun s => with_vm s (set_db (vm s) (f (db (vm s))))).

(** * Stack and memory of the frame *)

Definition pop : M Word := fun s =>
  match stack (fr s) with
  | [] => Err GoPanic
  | x :: r => Ok (with_stack s r, Ok x)
  end.
Definition push (x : Word) : M unit := update (fun s => with_stack s (x :: stack (fr s))).
Definition peek : M Word := fun s => match stack (fr s) with [] => Err GoPanic | x :: _ => Ok (s, Ok x) end.
Definition setTop (x : Word) : M unit := pop ;;; push x.
Definition item (n : nat) : M Word := fun s => orPanic (back (stack (fr s)) n) s.

(** [x := stack.pop(); stack.peek().F(&x, stack.peek())]. *)
Definition binary (f : Word -> Word -> Word) : M unit := let* x := pop in let* y := peek in setTop (f x y).
Definition binaryP (f : Word -> Word -> option Word) : M unit :=
  let* x := pop in let* y := peek in let* z := orPanic (f x y) in setTop z.
Definition boolToUint (b : bool) : Z := if b then 1 else 0.
Definition compare (f : Word -> Word -> bool) : M unit := binary (fun x y => U256.SetUint64 (boolToUint (f x y))).

Definition memSet (offset size : Z) (value : bytes) : M unit := fun s =>
  (let* m := orPanic (MemSet (mem (fr s)) offset size value) in update (fun s => with_mem s m)) s.
Definition memCopy (offset size : Z) : M bytes := fun s => orPanic (GetCopy (mem (fr s)) offset size) s.

Definition addressOf (w : Word) : Address := BytesToAddress (U256.Bytes w).
Definition selfAddress : M Address := get (fun s => self (contract (fr s))).
Definition isReadOnly : M bool := get (fun s => readOnly (vm s)).

(** * Gas of an instruction *)

Definition accountAccessGas (addr : Address) : M Z :=
  let* warm := peek_db (fun w => SDB.AddressInAccessList w addr) in
  if warm then ret GasWarmStorageRead
  else change (fun d => SDB.AddAddressToAccessList d addr) ;;; ret GasColdAccountAccess.

(** [SlotInAccessList] followed by [AddSlotToAccessList]: whether the slot was warm. *)
Definition touchSlot (addr : Address) (key : Hash) : M bool :=
  let* slotWarm := peek_db (fun w => snd (SDB.SlotInAccessList w addr key)) in
  change (fun d => SDB.AddSlotToAccessList d addr key) ;;; ret slotWarm.

Definition sstoreDynamic : M Z :=
  let* ro := isReadOnly in
  guard ro ErrWriteProtection ;;;
  let* gas := get (fun s => Gas (contract (fr s))) in
  guard (gas <=? GasCallStipend) ErrOutOfGas ;;;
  let* addr := selfAddress in
  let* k := item 0 in
  let* v := item 1 in
  let key := U256.Bytes32 k in
  let* slotWarm := touchSlot addr key in
  let* original := query (fun w => SDB.GetCommittedState w addr key) in
  let* current := query (fun w => SDB.get_state w addr key) in
  let (cost, refund) := sstoreGas original current (U256.Bytes32 v) (negb slotWarm) in
  (if 0 <? refund then change (fun d => SDB.AddRefund d refund)
   else if refund <? 0 then change (fun d => SDB.SubRefund d (- refund))
   else ret tt) ;;;
  ret cost.

Definition logDynamic (n : Z) : M Z :=
  let* ro := isReadOnly in
  guard ro ErrWriteProtection ;;;
  let* size := item 1 in
  guard (negb (U256.IsUint64 size)) ErrGasUintOverflow ;;;
  let* byteGas := lift (safeMul (U256.l0 size) GasLogByte) in
  let* topicGas := lift (safeMul n GasLogTopic) in
  lift (safeAdd byteGas topicGas).

Definition createDynamic (create2 : bool) : M Z :=
  let* ro := isReadOnly in
  guard ro ErrWriteProtection ;;;
  let* size := item 2 in
  guard (negb (U256.IsUint64 size)) ErrGasUintOverflow ;;;
  guard (MaxInitCodeSize <? U256.l0 size) ErrMaxCodeSizeExceeded ;;;
  let* initGas := lift (safeMul (toWordSize (U256.l0 size)) GasInitCodeWord) in
  if create2 then
    let* hashGas := lift (safeMul (toWordSize (U256.l0 size)) GasKeccakWord) in
    lift (safeAdd initGas hashGas)
  else ret initGas.

Definition callDynamic : M Z :=
  let* a := item 1 in
  let* v := item 2 in
  let addr := addressOf a in
  let* ro := isReadOnly in
  guard (ro && negb (U256.IsZero v)) ErrWriteProtection ;;;
  let* gas := accountAccessGas addr in
  if negb (U256.IsZero v) then
    let* gas := lift (safeAdd gas GasCallValue) in
    let* found := query (fun w => SDB.Exist w addr) in
    if negb found then lift (safeAdd gas GasNewAccount) else ret gas
  else ret gas.

Definition selfDestructDynamic : M Z :=
  let* ro := isReadOnly in
  guard ro ErrWriteProtection ;;;
  let* b := item 0 in
  let beneficiary := addressOf b in
  let* warm := peek_db (fun w => SDB.AddressInAccessList w beneficiary) in
  let* gas := (if negb warm then change (fun d => SDB.AddAddressToAccessList d beneficiary) ;;; ret GasColdAccountAccess else ret 0) in
  let* empty := query (fun w => SDB.Empty w beneficiary) in
  if empty then
    let* addr := selfAddress in
    let* balance := query (fun w => SDB.get_balance w addr) in
    ret (if negb (balance =? 0) then gas +w GasNewAccount else gas)
  else ret gas.

Definition dynamicGas (op : OpCode) : M Z :=
  match op with
  | KECCAK256 =>
      let* size := item 1 in
      guard (negb (U256.IsUint64 size)) ErrGasUintOverflow ;;;
      lift (safeMul (toWordSize (U256.l0 size)) GasKeccakWord)
  | CALLDATACOPY | CODECOPY | RETURNDATACOPY | MCOPY => let* size := item 2 in lift (wordCopyGas size)
  | EXTCODECOPY =>
      let* size := item 3 in
      let* copyGas := lift (wordCopyGas size) in
      let* a := item 0 in
      let* access := accountAccessGas (addressOf a) in
      lift (safeAdd copyGas access)
  | BALANCE | EXTCODESIZE | EXTCODEHASH => let* a := item 0 in accountAccessGas (addressOf a)
  | EXP =>
      let* exponent := item 1 in
      if U256.IsZero exponent then ret 0 else lift (safeMul (U256.ByteLen exponent) GasExpByte)
  | SLOAD =>
      let* k := item 0 in
      let* addr := selfAddress in
      let* slotWarm := touchSlot addr (U256.Bytes32 k) in
      ret (if slotWarm then GasWarmStorageRead else GasColdSloadCost)
  | SSTORE => sstoreDynamic
  | TSTORE => let* ro := isReadOnly in guard ro ErrWriteProtection ;;; ret 0
  | LOG n => logDynamic n
  | CREATE => createDynamic false
  | CREATE2 => createDynamic true
  | CALL => callDynamic
  | CALLCODE =>
      let* a := item 1 in
      let* gas := accountAccessGas (addressOf a) in
      let* v := item 2 in
      if negb (U256.IsZero v) then lift (safeAdd gas GasCallValue) else ret gas
  | DELEGATECALL | STATICCALL => let* a := item 1 in accountAccessGas (addressOf a)
  | SELFDESTRUCT => selfDestructDynamic
  | _ => ret 0
  end.

(** The memory an offset and a size of the stack reach to. *)
Definition extentAt (offset size : nat) : M Z := let* o := item offset in let* z := item size in lift (memoryExtent o z).

Definition wordExtent (size : Z) : M Z :=
  let* o := item 0 in
  guard (negb (U256.IsUint64 o)) ErrGasUintOverflow ;;;
  lift (safeAdd (U256.l0 o) size).

Definition twoExtents (o1 z1 o2 z2 : nat) : M Z :=
  let* a := extentAt o1 z1 in let* b := extentAt o2 z2 in ret (max64 a b).

Definition memoryNeeded (op : OpCode) : M Z :=
  match op with
  | MLOAD | MSTORE => wordExtent 32
  | MSTORE8 => wordExtent 1
  | KECCAK256 | RETURN | REVERT | LOG _ => extentAt 0 1
  | CALLDATACOPY | CODECOPY | RETURNDATACOPY => extentAt 0 2
  | MCOPY => twoExtents 0 2 1 2
  | EXTCODECOPY => extentAt 1 3
  | CREATE | CREATE2 => extentAt 1 2
  | CALL | CALLCODE => twoExtents 3 4 5 6
  | DELEGATECALL | STATICCALL => twoExtents 2 3 4 5
  | _ => ret 0
  end.

Definition payMemory (cost extent : Z) : M Z :=
  if 0 <? extent then
    let* m := get (fun s => mem (fr s)) in
    let* (fee, m) := lift (memoryGasCost m extent) in
    update (fun s => with_mem s m) ;;;
    lift (safeAdd cost fee)
  else ret cost.

(** The cost of the next instruction and the memory it needs. *)
Definition gasCost (op : OpCode) : M (Z * Z) :=
  let (pops, pushes) := stackRequirement op in
  let* k := get (fun s => stack (fr s)) in
  lift (checkLimits k pops pushes) ;;;
  match baseGas op with
  | None => fail (ErrInvalidOpCode op)
  | Some base =>
      let* extent := memoryNeeded op in
      let* cost := payMemory base extent in
      let* dynamic := dynamicGas op in
      let* cost := lift (safeAdd cost dynamic) in
      ret (cost, extent)
  end.

(** * Value transfer and addresses of new contracts *)

Definition CanTransfer (d : SDB.StateDB) (addr : Address) (amount : Z) : SDB.StateDB * bool :=
  let (w, b) := SDB.get_balance (SDB.world d) addr in (SDB.with_world d w, amount <=? b).

Definition Transfer (d : SDB.StateDB) (sender recipient : Address) (amount : Z) : SDB.StateDB :=
  if amount =? 0 then d else SDB.add_balance (SDB.sub_balance d sender amount) recipient amount.

Definition CreateAddress (sender : Address) (nonce : Z) : Address :=
  BytesToAddress (drop 12 (Keccak256 [Rlp.EncodeList [Rlp.EncodeBytes sender; Rlp.EncodeBytes (Rlp.putUint nonce)]])).

Definition CreateAddress2 (sender : Address) (salt initCode : bytes) : Address :=
  BytesToAddress (drop 12 (Keccak256 [[255]; sender; salt; Keccak256 [initCode]])).

Definition runPrecompile (p : Precompile) (input : bytes) (gas : Z) : bytes * Z * option vm_error :=
  let cost := RequiredGas p input in
  if gas <? cost then ([], 0, Some ErrOutOfGas)
  else match PrecompileRun p input with
       | Some out => (out, gas - cost, None)
       | None => ([], gas - cost, Some ErrPrecompile)
       end.

(** Reads of the state outside a frame. *)
Definition vm_query {A} (v : VM) (f : SDB.World -> SDB.World * A) : VM * A :=
  let (w, a) := f (SDB.world (db v)) in (set_db v (SDB.with_world (db v) w), a).

Definition is_reverted (e : vm_error) : bool := match e with ErrExecutionReverted => true | _ => false end.

(** * Calls *)

Section Calls.

(** The interpreter for nested frames: the machine, the frame with the gas it
    has left, its output and its error. *)
Variable run : VM -> Contract -> bytes -> bool -> result fault (VM * Contract * bytes * option vm_error).

(** The end of every call: on an error the state goes back to the snapshot,
    and the gas is gone unless the frame reverted. *)
Definition settle (v : VM) (snapshot : Z) (out : bytes) (gas : Z) (err : option vm_error)
    : result fault (VM * bytes * Z * option vm_error) :=
  match err with
  | None => Ok (v, out, gas, None)
  | Some e =>
      match SDB.RevertToSnapshot (db v) snapshot with
      | None => Err GoPanic
      | Some d => Ok (set_db v d, out, if is_reverted e then gas else 0, Some e)
      end
  end.

(** Run the code of an account in a frame. *)
Definition run_code (v : VM) (c : Contract) (code input : bytes) (static : bool)
    : result fault (VM * bytes * Z * option vm_error) :=
  let! (v, c, out, err) := run v (with_input (SetCallCode c code) input) input static in
  Ok (v, out, Gas c, err).

(** [Call] after its guards: the account is created if it must be, the value
    moves, and its code or native contract runs. *)
Definition call_account (v : VM) (caller : ContractRef) (addr : Address) (input : bytes) (gas value : Z)
    : result fault (VM * bytes * Z * option vm_error) :=
  let (d, snapshot) := SDB.Snapshot (db v) in
  let v := set_db v d in
  let pre := precompile addr in
  let (v, found) := vm_query v (fun w => SDB.Exist w addr) in
  if negb found && (match pre with None => true | Some _ => false end) && (value =? 0) then Ok (v, [], gas, None)
  else
    let d := if negb found then SDB.CreateAccount (db v) addr else db v in
    let v := set_db v (Transfer d (ref_address caller) addr value) in
    match pre with
    | Some p => let '(out, gas, err) := runPrecompile p input gas in settle v snapshot out gas err
    | None =>
        let (v, code) := vm_query v (fun w => SDB.GetCode w addr) in
        let code := octets code in
        if len code =? 0 then settle v snapshot [] gas None
        else
          let! (v, out, gas, err) := run_code v (NewContract caller addr (Some (U256.SetBig (Some value))) gas) code input false in
          settle v snapshot out gas err
    end.

Definition Call (v : VM) (caller : ContractRef) (addr : Address) (input : bytes) (gas value : Z)
    : result fault (VM * bytes * Z * option vm_error) :=
  if MaxCallDepth <? depth v then Ok (v, [], gas, Some ErrDepthLimit)
  else
    let (d, can) := if negb (value =? 0) then CanTransfer (db v) (ref_address caller) value else (db v, true) in
    let v := set_db v d in
    if negb can then Ok (v, [], gas, Some ErrInsufficientBalance)
    else if evmReadOnly v && negb (value =? 0) then Ok (v, [], gas, Some ErrWriteProtection)
    else call_account v caller addr input gas value.

(** The part [CallCode], [DelegateCall] and [StaticCall] share: a precompile,
    or the code of [addr] in the given frame. *)
Definition call_in (v : VM) (frame : option Contract) (addr : Address) (input : bytes) (gas : Z) (static : bool)
    : result fault (VM * bytes * Z * option vm_error) :=
  let (d, snapshot) := SDB.Snapshot (db v) in
  let v := set_db v d in
  match precompile addr with
  | Some p => let '(out, gas, err) := runPrecompile p input gas in settle v snapshot out gas err
  | None =>
      match frame with
      | None => Err GoPanic
      | Some c =>
          let (v, code) := vm_query v (fun w => SDB.GetCode w addr) in
          let! (v, out, gas, err) := run_code v c (octets code) input static in
          settle v snapshot out gas err
      end
  end.

Definition CallCode (v : VM) (caller : ContractRef) (addr : Address) (input : bytes) (gas value : Z)
    : result fault (VM * bytes * Z * option vm_error) :=
  if MaxCallDepth <? depth v then Ok (v, [], gas, Some ErrDepthLimit)
  else
    let (d, can) := if negb (value =? 0) then CanTransfer (db v) (ref_address caller) value else (db v, true) in
    let v := set_db v d in
    if negb can then Ok (v, [], gas, Some ErrInsufficientBalance)
    else call_in v (Some (NewContract caller (ref_address caller) (Some (U256.SetBig (Some value))) gas)) addr input gas false.

Definition DelegateCall (v : VM) (caller : ContractRef) (addr : Address) (input : bytes) (gas : Z)
    : result fault (VM * bytes * Z * option vm_error) :=
  if MaxCallDepth <? depth v then Ok (v, [], gas, Some ErrDepthLimit)
  else call_in v (AsDelegate caller (NewContract caller (ref_address caller) None gas)) addr input gas false.

Definition StaticCall (v : VM) (caller : ContractRef) (addr : Address) (input : bytes) (gas : Z)
    : result fault (VM * bytes * Z * option vm_error) :=
  if MaxCallDepth <? depth v then Ok (v, [], gas, Some ErrDepthLimit)
  else call_in v (Some (NewContract caller addr (Some U256.zero) gas)) addr input gas true.

(** What the init code returned becomes the code of the contract. *)
Definition deploy (v : VM) (address : Address) (out : bytes) (c : Contract) : VM * Contract * option vm_error :=
  if MaxCodeSize <? len out then (v, c, Some ErrMaxCodeSizeExceeded)
  else if (0 <? len out) && (hd 0 out =? 239) then (v, c, Some ErrInvalidCode)
  else match UseGas c (len out *w GasCodeDeposit) with
       | None => (v, c, Some ErrCodeStoreOutOfGas)
       | Some c => (set_db v (SDB.SetCode (db v) address out), c, None)
       end.

(** [create] after its guards: the account is made, the init code runs, and
    its output is deployed. *)
Definition init_contract (v : VM) (caller : ContractRef) (code : bytes) (gas value : Z) (address : Address)
    : result fault (VM * bytes * Address * Z * option vm_error) :=
  let (d, snapshot) := SDB.Snapshot (db v) in
  let d := SDB.SetNonce (SDB.CreateAccount d address) address 1 in
  let v := set_db v (Transfer d (ref_address caller) address value) in
  let c := SetCallCode (NewContract caller address (Some (U256.SetBig (Some value))) gas) code in
  let! (v, c, out, err) := run v c [] false in
  let '(v, c, err) := match err with Some e => (v, c, Some e) | None => deploy v address out c end in
  let! (v, out, gas, err) := settle v snapshot out (Gas c) err in
  Ok (v, out, address, gas, err).

Definition create (v : VM) (caller : ContractRef) (code : bytes) (gas value : Z) (address : Address)
    : result fault (VM * bytes * Address * Z * option vm_error) :=
  if MaxCallDepth <? depth v then Ok (v, [], ZeroAddress, gas, Some ErrDepthLimit)
  else
    let (d, can) := CanTransfer (db v) (ref_address caller) value in
    let v := set_db v d in
    if negb can then Ok (v, [], ZeroAddress, gas, Some ErrInsufficientBalance)
    else if evmReadOnly v then Ok (v, [], ZeroAddress, gas, Some ErrWriteProtection)
    else
      let (v, nonce) := vm_query v (fun w => SDB.GetNonce w (ref_address caller)) in
      let v := set_db v (SDB.SetNonce (db v) (ref_address caller) (nonce +w 1)) in
      let (v, contractHash) := vm_query v (fun w => SDB.GetCodeHash w address) in
      let (v, used) := vm_query v (fun w => SDB.GetNonce w address) in
      if negb (used =? 0) || (negb (HashIsZero contractHash) && negb (bool_decide (contractHash = SDB.EmptyCodeHash)))
      then Ok (v, [], ZeroAddress, 0, Some ErrContractAddressCollision)
      else init_contract v caller code gas value address.

Definition Create (v : VM) (caller : ContractRef) (code : bytes) (gas value : Z)
    : result fault (VM * bytes * Address * Z * option vm_error) :=
  let (v, nonce) := vm_query v (fun w => SDB.GetNonce w (ref_address caller)) in
  if nonce +w 1 <? nonce then Ok (v, [], ZeroAddress, gas, Some ErrNonceOverflow)
  else create v caller code gas value (CreateAddress (ref_address caller) nonce).

Definition Create2 (v : VM) (caller : ContractRef) (code : bytes) (gas endowment : Z) (salt : Word)
    : result fault (VM * bytes * Address * Z * option vm_error) :=
  create v caller code gas endowment (CreateAddress2 (ref_address caller) (U256.Bytes32 salt) code).

(** * Instructions *)

Definition opLog (n : nat) : M unit :=
  let* ro := isReadOnly in
  guard ro ErrWriteProtection ;;;
  let* offset := pop in
  let* size := pop in
  let* topics := (fix go (n : nat) : M (list Hash) :=
    match n with
    | O => ret []
    | S n => let* t := pop in let* ts := go n in ret (U256.Bytes32 t :: ts)
    end) n in
  let* addr := selfAddress in
  let* data := memCopy (U256.l0 offset) (U256.l0 size) in
  change (fun d => SDB.AddLog d (SDB.mkLog addr topics data (wrap64 (BlockNumber env)) ZeroHash ZeroHash 0 0)).

Definition opCreate (create2 : bool) : M unit :=
  let* ro := isReadOnly in
  guard ro ErrWriteProtection ;;;
  let* v := pop in
  let* offset := pop in
  let* size := pop in
  let* salt := (if create2 then pop else ret U256.zero) in
  let* input := memCopy (U256.l0 offset) (U256.l0 size) in
  let* c := get (fun s => contract (fr s)) in
  let gas := Gas c - Gas c / 64 in
  update (fun s => with_contract s (with_gas c (Gas c - gas))) ;;;
  let* (out, addr, leftOver, err) := (fun s =>
    let! (v', out, addr, leftOver, err) :=
      (if create2 then Create2 (vm s) (FrameRef (contract (fr s))) input gas (U256.ToBig v) salt
       else Create (vm s) (FrameRef (contract (fr s))) input gas (U256.ToBig v)) in
    Ok (with_vm s v', Ok (out, addr, leftOver, err))) in
  push (match err with Some _ => U256.zero | None => U256.SetBytes addr end) ;;;
  update (fun s => with_contract s (RefundGas (contract (fr s)) leftOver)) ;;;
  update (fun s => with_vm s (set_returnData (vm s) (match err with Some ErrExecutionReverted => out | _ => [] end))).

(** The four calls; [static] and [delegate] calls pop no value. *)
Inductive CallKind := KindCall | KindCallCode | KindDelegate | KindStatic.

Definition with_value (k : CallKind) : bool := match k with KindCall | KindCallCode => true | _ => false end.
Definition moves_value (k : CallKind) : bool := match k with KindCall => true | _ => false end.

Definition start_call (k : CallKind) (v : VM) (caller : ContractRef) (addr : Address) (input : bytes) (gas value : Z)
    : result fault (VM * bytes * Z * option vm_error) :=
  match k with
  | KindCall => Call v caller addr input gas value
  | KindCallCode => CallCode v caller addr input gas value
  | KindDelegate => DelegateCall v caller addr input gas
  | KindStatic => StaticCall v caller addr input gas
  end.

(** A call instruction once its operands are off the stack. *)
Definition perform_call (k : CallKind) (gasWord : Word) (addr : Address) (v inOffset inSize retOffset retSize : Word) : M unit :=
  let* ro := isReadOnly in
  guard (ro && moves_value k && negb (U256.IsZero v)) ErrWriteProtection ;;;
  let* input := memCopy (U256.l0 inOffset) (U256.l0 inSize) in
  let* c := get (fun s => contract (fr s)) in
  let* gas := lift (callGas (Gas c) 0 gasWord) in
  update (fun s => with_contract s (default c (UseGas c gas))) ;;;
  let gas := if with_value k && negb (U256.IsZero v) then gas +w GasCallStipend else gas in
  let* (out, leftOver, err) := (fun s =>
    let! (v', out, leftOver, err) := start_call k (vm s) (FrameRef (contract (fr s))) addr input gas (U256.ToBig v) in
    Ok (with_vm s v', Ok (out, leftOver, err))) in
  push (match err with None => U256.one | Some _ => U256.zero end) ;;;
  (if match err with None => true | Some e => is_reverted e end then
     update (fun s => with_vm s (set_returnData (vm s) out)) ;;;
     if 0 <? U256.l0 retSize then memSet (U256.l0 retOffset) (min64 (U256.l0 retSize) (len out)) out else ret tt
   else update (fun s => with_vm s (set_returnData (vm s) []))) ;;;
  update (fun s => with_contract s (RefundGas (contract (fr s)) leftOver)).

Definition opCall (k : CallKind) : M unit :=
  let* gasWord := pop in
  let* addrWord := pop in
  let* v := (if with_value k then pop else ret U256.zero) in
  let* inOffset := pop in
  let* inSize := pop in
  let* retOffset := pop in
  let* retSize := pop in
  perform_call k gasWord (addressOf addrWord) v inOffset inSize retOffset retSize.

(** [CALLDATACOPY] and [CODECOPY]: offset, source offset and size. *)
Definition copyData (data : M bytes) : M unit :=
  let* memOffset := pop in
  let* dataOffset := pop in
  let* size := pop in
  let* d := data in
  let* b := orPanic (getDataPadded d dataOffset (U256.l0 size)) in
  memSet (U256.l0 memOffset) (U256.l0 size) b.

Definition opReturnDataCopy : M unit :=
  let* memOffset := pop in
  let* dataOffset := pop in
  let* size := pop in
  let* rd := get (fun s => returnData (vm s)) in
  let (last, overflow) := U256.AddOverflow dataOffset size in
  guard (overflow || negb (U256.IsUint64 last) || (len rd <? U256.l0 last)) ErrReturnDataOutOfBounds ;;;
  let* b := orPanic (slice rd (U256.l0 dataOffset) (U256.l0 last)) in
  memSet (U256.l0 memOffset) (U256.l0 size) b.

Definition opPush (n : Z) : M unit :=
  let* p := get (fun s => pc (fr s)) in
  let* code := get (fun s => Code (contract (fr s))) in
  let start := p +w 1 in
  let* b := (if start <? len code then orPanic (slice code start (min64 (start +w n) (len code))) else ret []) in
  push (if start <? len code then U256.SetBytes (padded b n) else U256.zero) ;;;
  update (fun s => with_pc s (pc (fr s) +w n)).

Definition shift (f : Word -> Z -> Word) (over : Word -> Word) : M unit :=
  let* n := pop in
  let* x := peek in
  setTop (if U256.IsUint64 n && (U256.l0 n <? 256) then f x (U256.l0 n) else over x).

Definition jumpTo (dest : Word) : M unit :=
  let* c := get (fun s => contract (fr s)) in
  guard (negb (validJumpdest c dest)) ErrInvalidJump ;;;
  update (fun s => with_pc s (U256.l0 dest -w 1)).

Definition opBlockHash : M unit :=
  let* number := peek in
  if negb (U256.IsUint64 number) then setTop U256.zero
  else
    let current := wrap64 (BlockNumber env) in
    let requested := U256.l0 number in
    if (current <=? requested) || (256 <? current - requested) then setTop U256.zero
    else setTop (U256.SetBytes (octets (GetHash env requested))).

Definition opSelfDestruct : M unit :=
  let* ro := isReadOnly in
  guard ro ErrWriteProtection ;;;
  let* target := pop in
  let beneficiary := addressOf target in
  let* addr := selfAddress in
  let* balance := query (fun w => SDB.get_balance w addr) in
  change (fun d => SDB.add_balance d beneficiary balance) ;;;
  change (fun d => SDB.SelfDestruct d addr).

(** A write of storage or transient storage. *)
Definition opStore (write : SDB.StateDB -> Address -> Hash -> Hash -> SDB.StateDB) : M unit :=
  let* ro := isReadOnly in
  guard ro ErrWriteProtection ;;;
  let* key := pop in
  let* v := pop in
  let* addr := selfAddress in
  change (fun d => write d addr (U256.Bytes32 key) (U256.Bytes32 v)).

Definition pushFrom (f : St -> Word) : M unit := let* x := get f in push x.

(** Replace the address on top by something read of its account. *)
Definition account (f : SDB.World -> Address -> SDB.World * Word) : M unit :=
  let* a := peek in let* x := query (fun w => f w (addressOf a)) in setTop x.

Definition map_snd {A B C} (f : B -> C) (p : A * B) : A * C := (fst p, f (snd p)).

(** [execute]: the output of RETURN and REVERT, and nothing otherwise. *)
Definition execute (op : OpCode) : M bytes :=
  match op with
  | PUSH n => opPush n ;;; ret []
  | DUP n => (fun s => (let* k := orPanic (dup (stack (fr s)) (Z.to_nat n)) in update (fun s => with_stack s k)) s) ;;; ret []
  | SWAP n => (fun s => (let* k := orPanic (swap (stack (fr s)) (Z.to_nat n)) in update (fun s => with_stack s k)) s) ;;; ret []
  | LOG n => opLog (Z.to_nat n) ;;; ret []
  | STOP => ret []
  | ADD => binary U256.Add ;;; ret []
  | SUB => binary U256.Sub ;;; ret []
  | MUL => binary U256.Mul ;;; ret []
  | DIV => binaryP U256.Div ;;; ret []
  | SDIV => binaryP U256.SDiv ;;; ret []
  | MOD => binaryP U256.Mod ;;; ret []
  | SMOD => binaryP U256.SMod ;;; ret []
  | ADDMOD => (let* x := pop in let* y := pop in let* m := peek in let* z := orPanic (U256.AddMod x y m) in setTop z) ;;; ret []
  | MULMOD => (let* x := pop in let* y := pop in let* m := peek in setTop (U256.MulMod x y m)) ;;; ret []
  | EXP => binary U256.Exp ;;; ret []
  | SIGNEXTEND => binary U256.SignExtend ;;; ret []
  | LT => compare U256.Lt ;;; ret []
  | GT => compare U256.Gt ;;; ret []
  | SLT => compare U256.SLt ;;; ret []
  | SGT => compare U256.SGt ;;; ret []
  | EQ => compare U256.Eq ;;; ret []
  | ISZERO => (let* x := peek in setTop (U256.SetUint64 (boolToUint (U256.IsZero x)))) ;;; ret []
  | AND => binary U256.And ;;; ret []
  | OR => binary U256.Or ;;; ret []
  | XOR => binary U256.Xor ;;; ret []
  | NOT => (let* x := peek in setTop (U256.Not x)) ;;; ret []
  | BYTE => binary (fun index x => U256.Byte x index) ;;; ret []
  | SHL => shift U256.Lsh (fun _ => U256.zero) ;;; ret []
  | SHR => shift U256.Rsh (fun _ => U256.zero) ;;; ret []
  | SAR => shift U256.SRsh (fun x => U256.SRsh x 256) ;;; ret []
  | KECCAK256 =>
      let* offset := pop in
      let* size := pop in
      let* m := get (fun s => mem (fr s)) in
      let* data := orPanic (GetPtr m (U256.l0 offset) (U256.l0 size)) in
      push (U256.SetBytes (Keccak256 [data])) ;;; ret []
  | ADDRESS => pushFrom (fun s => U256.SetBytes (octets (self (contract (fr s))))) ;;; ret []
  | BALANCE => account (fun w a => map_snd (fun b => U256.SetBig (Some b)) (SDB.get_balance w a)) ;;; ret []
  | ORIGIN => push (U256.SetBytes (octets (Origin env))) ;;; ret []
  | CALLER => pushFrom (fun s => U256.SetBytes (octets (CallerAddress (contract (fr s))))) ;;; ret []
  | CALLVALUE => pushFrom (fun s => value (contract (fr s))) ;;; ret []
  | CALLDATALOAD =>
      let* offset := peek in
      let* input := get (fun s => Input (contract (fr s))) in
      let* b := orPanic (getDataPadded input offset 32) in
      setTop (U256.SetBytes b) ;;; ret []
  | CALLDATASIZE => pushFrom (fun s => U256.SetUint64 (wrap64 (len (Input (contract (fr s)))))) ;;; ret []
  | CALLDATACOPY => copyData (get (fun s => Input (contract (fr s)))) ;;; ret []
  | CODESIZE => pushFrom (fun s => U256.SetUint64 (wrap64 (len (Code (contract (fr s)))))) ;;; ret []
  | CODECOPY => copyData (get (fun s => Code (contract (fr s)))) ;;; ret []
  | GASPRICE => push (U256.SetBig (Some (GasPrice env))) ;;; ret []
  | EXTCODESIZE => account (fun w a => map_snd (fun n => U256.SetUint64 (wrap64 n)) (SDB.GetCodeSize w a)) ;;; ret []
  | EXTCODECOPY =>
      let* addrWord := pop in
      copyData (let* code := query (fun w => SDB.GetCode w (addressOf addrWord)) in ret (octets code)) ;;; ret []
  | EXTCODEHASH =>
      let* a := peek in
      let* empty := query (fun w => SDB.Empty w (addressOf a)) in
      (if empty then setTop U256.zero
       else let* h := query (fun w => SDB.GetCodeHash w (addressOf a)) in setTop (U256.SetBytes (octets h))) ;;; ret []
  | RETURNDATASIZE => pushFrom (fun s => U256.SetUint64 (wrap64 (len (returnData (vm s))))) ;;; ret []
  | RETURNDATACOPY => opReturnDataCopy ;;; ret []
  | BLOCKHASH => opBlockHash ;;; ret []
  | COINBASE => push (U256.SetBytes (octets (Coinbase env))) ;;; ret []
  | TIMESTAMP => push (U256.SetUint64 (wrap64 (Time env))) ;;; ret []
  | NUMBER => push (U256.SetBig (Some (BlockNumber env))) ;;; ret []
  | PREVRANDAO => push (U256.SetBytes (octets (Random env))) ;;; ret []
  | GASLIMIT => push (U256.SetUint64 (wrap64 (GasLimit env))) ;;; ret []
  | CHAINID => push (U256.SetBig (Some (ChainID env))) ;;; ret []
  | SELFBALANCE =>
      let* addr := selfAddress in
      let* b := query (fun w => SDB.get_balance w addr) in
      push (U256.SetBig (Some b)) ;;; ret []
  | BASEFEE => push (U256.SetBig (BaseFee env)) ;;; ret []
  | POP => pop ;;; ret []
  | MLOAD => (let* offset := peek in let* b := memCopy (U256.l0 offset) 32 in setTop (U256.SetBytes b)) ;;; ret []
  | MSTORE =>
      let* offset := pop in
      let* v := pop in
      let* m := get (fun s => mem (fr s)) in
      let* m := orPanic (Set32 m (U256.l0 offset) v) in
      update (fun s => with_mem s m) ;;; ret []
  | MSTORE8 => (let* offset := pop in let* v := pop in memSet (U256.l0 offset) 1 [wrap8 (U256.l0 v)]) ;;; ret []
  | MCOPY =>
      let* dst := pop in
      let* src := pop in
      let* size := pop in
      (if U256.IsZero size then ret tt
       else let* data := memCopy (U256.l0 src) (U256.l0 size) in memSet (U256.l0 dst) (U256.l0 size) data) ;;; ret []
  | SLOAD =>
      let* k := peek in
      let* addr := selfAddress in
      let* v := query (fun w => SDB.get_state w addr (U256.Bytes32 k)) in
      setTop (U256.SetBytes (octets v)) ;;; ret []
  | SSTORE => opStore SDB.set_state ;;; ret []
  | TLOAD =>
      let* k := peek in
      let* addr := selfAddress in
      let* v := peek_db (fun w => SDB.GetTransientState w addr (U256.Bytes32 k)) in
      setTop (U256.SetBytes (octets v)) ;;; ret []
  | TSTORE => opStore SDB.SetTransientState ;;; ret []
  | JUMP => (let* dest := pop in jumpTo dest) ;;; ret []
  | JUMPI => (let* dest := pop in let* c := pop in if negb (U256.IsZero c) then jumpTo dest else ret tt) ;;; ret []
  | JUMPDEST => ret []
  | PC => pushFrom (fun s => U256.SetUint64 (pc (fr s))) ;;; ret []
  | MSIZE => pushFrom (fun s => U256.SetUint64 (wrap64 (len (store (mem (fr s)))))) ;;; ret []
  | GAS => pushFrom (fun s => U256.SetUint64 (Gas (contract (fr s)))) ;;; ret []
  | PUSH0 => push U256.zero ;;; ret []
  | CREATE => opCreate false ;;; ret []
  | CREATE2 => opCreate true ;;; ret []
  | CALL => opCall KindCall ;;; ret []
  | CALLCODE => opCall KindCallCode ;;; ret []
  | DELEGATECALL => opCall KindDelegate ;;; ret []
  | STATICCALL => opCall KindStatic ;;; ret []
  | RETURN => let* offset := pop in let* size := pop in memCopy (U256.l0 offset) (U256.l0 size)
  | REVERT =>
      let* offset := pop in
      let* size := pop in
      let* out := memCopy (U256.l0 offset) (U256.l0 size) in
      update (fun s => with_vm s (set_returnData (vm s) out)) ;;; ret out
  | SELFDESTRUCT => opSelfDestruct ;;; ret []
  | INVALID => fail (ErrInvalidOpCode INVALID)
  | UNDEFINED b => fail (ErrInvalidOpCode (UNDEFINED b))
  end.

(** * The loop *)

(** One instruction: gas, memory, effect. *)
Definition step (op : OpCode) : M bytes :=
  let* (cost, memSize) := gasCost op in
  let* c := get (fun s => contract (fr s)) in
  match UseGas c cost with
  | None => fail ErrOutOfGas
  | Some c =>
      update (fun s => with_contract s c) ;;;
      (if 0 <? memSize then update (fun s => with_mem s (Resize (mem (fr s)) memSize)) else ret tt) ;;;
      execute op
  end.

(** How an instruction ends its frame: the output and the error. *)
Definition halts (op : OpCode) (out : bytes) : option (bytes * option vm_error) :=
  match op with
  | RETURN => Some (out, None)
  | REVERT => Some (out, Some ErrExecutionReverted)
  | STOP | SELFDESTRUCT => Some ([], None)
  | _ => None
  end.

Fixpoint loop (n : nat) (s : St) : result fault (St * bytes * option vm_error) :=
  match n with
  | O => Err OutOfFuel
  | S n =>
      if abort (vm s) then Ok (s, [], Some ErrAborted)
      else
        let op := GetOp (contract (fr s)) (pc (fr s)) in
        let! (s, r) := step op s in
        match r with
        | Err e => Ok (s, [], Some e)
        | Ok out =>
            match halts op out with
            | Some (out, err) => Ok (s, out, err)
            | None => loop n (with_pc s (pc (fr s) +w 1))
            end
        end
  end.

End Calls.

(** A frame goes one level down; the outermost static one sets the read-only
    flag and clears it when it is left. *)
Definition enter (v : VM) (static : bool) : VM :=
  let v := set_depth v (depth v + 1) in
  set_returnData (if static && negb (readOnly v) then set_readOnly v true else v) [].
Definition leave (entered : bool) (v : VM) : VM :=
  let v := set_depth v (depth v - 1) in if entered then set_readOnly v false else v.

(** [Run]: [d] bounds the nesting of frames, [n] the instructions of each. *)
Fixpoint Run (n d : nat) (v : VM) (c : Contract) (input : bytes) (static : bool)
    : result fault (VM * Contract * bytes * option vm_error) :=
  match d with
  | O => Err OutOfFuel
  | S d =>
      let entered := static && negb (readOnly v) in
      let v := enter v static in
      if len (Code c) =? 0 then Ok (leave entered v, c, [], None)
      else
        let! (s, out, err) := loop (Run n d) n (mkSt v (mkFrame 0 (with_input c input) [] newMemory)) in
        Ok (leave entered (vm s), contract (fr s), out, err)
  end.

End Interpreter.
End Interp.
