(* ===== verification/EvmState.v ===== *)
(** What the EVM can do to the world state.

    [evolves ro s s'] holds where [s'] is reached from [s] by the changes
    instructions make and by nested calls, each of which takes a snapshot and
    goes back to it if it fails.  With [ro] the changes are those a static call
    may make.  The facts about snapshots, balances and read-only execution are
    proved of this relation once, and the interpreter is shown to stay in it. *)

From stdpp Require Import base list gmap relations.
From Stdlib Require Import ZArith Lia.
From S2P Require Import Prelude RLP Common UInt256 Registry StateDB EvmData Interpreter.
Local Open Scope Z_scope.

Module Ev.
Import SDB.

Section Evolution.
Context `{K : Keccak} `{TS : TrieStore}.

(** One change of the state. *)
Inductive effect (ro : bool) (s : StateDB) : StateDB -> Prop :=
| ef_load w : ext (world s) w -> effect ro s (with_world s w)
| ef_warm a : effect ro s (AddAddressToAccessList s a)
| ef_warm_slot a k : effect ro s (AddSlotToAccessList s a k)
| ef_touch a : live (world s) a = None -> effect ro s (CreateAccount s a)
| ef_create a : ro = false -> effect ro s (CreateAccount s a)
| ef_add_refund g : ro = false -> effect ro s (AddRefund s g)
| ef_sub_refund g : ro = false -> effect ro s (SubRefund s g)
| ef_store a k v : ro = false -> effect ro s (set_state s a k v)
| ef_transient a k v : ro = false -> effect ro s (SetTransientState s a k v)
| ef_log l : ro = false -> effect ro s (AddLog s l)
| ef_nonce a n : ro = false -> effect ro s (SetNonce s a n)
| ef_code a c : ro = false -> effect ro s (SetCode s a c)
| ef_transfer a b x : ro = false -> 0 <= x <= balance_at (world s) a -> effect ro s (add_balance (sub_balance s a x) b x)
| ef_destruct a b : ro = false -> effect ro s (SelfDestruct (add_balance s b (balance_at (world s) a)) a).

(** Changes and nested calls, in sequence. *)
Inductive evolves (ro : bool) : StateDB -> StateDB -> Prop :=
| ev_refl s : evolves ro s s
| ev_step s s1 s2 : effect ro s s1 -> evolves ro s1 s2 -> evolves ro s s2
| ev_call s s1 s2 : evolves ro (fst (Snapshot s)) s1 -> evolves ro s1 s2 -> evolves ro s s2
| ev_undone s s1 s2 s3 : evolves ro (fst (Snapshot s)) s1 -> RevertToSnapshot s1 (snd (Snapshot s)) = Some s2 ->
    evolves ro s2 s3 -> evolves ro s s3.

Lemma evolves_trans ro s s1 s2 : evolves ro s s1 -> evolves ro s1 s2 -> evolves ro s s2.
Proof. induction 1; eauto using evolves. Qed.

#[global] Instance evolves_preorder ro : PreOrder (evolves ro).
Proof. split; [constructor | intros s s1 s2; apply evolves_trans]. Qed.

Lemma evolves_once ro s s' : effect ro s s' -> evolves ro s s'.
Proof. eauto using evolves. Qed.

Lemma effect_weaken ro s s' : effect true s s' -> effect ro s s'.
Proof. destruct 1; try discriminate; eauto using effect. Qed.

Lemma evolves_weaken ro s s' : evolves true s s' -> evolves ro s s'.
Proof. induction 1; eauto using evolves, effect_weaken. Qed.

(** ** Snapshots *)

Lemma effect_moves ro s s' : effect ro s s' -> wf (world s) -> rtc move s s'.
Proof.
  destruct 1 as [w He|a|a k|a Hl|a|g|g|a k v|a k v|l|a n|a c|a b x Hro Hx|a b]; intros Hw;
    eauto using read_moves, AddAddress_moves, AddSlot_moves, CreateAccount_moves, AddRefund_moves, SubRefund_moves, set_state_moves,
      SetTransientState_moves, AddLog_moves, SetNonce_moves, SetCode_moves.
  - pose proof (sub_balance_moves s a x Hw) as H1. etransitivity; [exact H1|]. apply add_balance_moves. eauto using moves_wf.
  - pose proof (add_balance_moves s b (balance_at (world s) a) Hw) as H1. etransitivity; [exact H1|]. apply SelfDestruct_moves. eauto using moves_wf.
Qed.

Lemma evolves_inv ro s s' : evolves ro s s' -> inv s -> inv s'.
Proof.
  induction 1 as [s|s s1 s2 He Hev IH|s s1 s2 H1 IH1 H2 IH2|s s1 s2 s3 H1 IH1 Hr H2 IH2]; intros Hi; auto.
  - apply IH. eapply moves_inv; [eapply effect_moves; [exact He | apply Hi] | exact Hi].
  - apply IH2, IH1, snapshot_inv, Hi.
  - apply IH2. eapply revert_inv; [exact Hr | apply IH1, snapshot_inv, Hi].
Qed.

(** A revision listed before stays listed: calls only revert to their own. *)
Lemma revert_listed s j s' i r : RevertToSnapshot s j = Some s' -> inv s -> fst r < j ->
  revisions s !! i = Some r -> revisions s' !! i = Some r.
Proof. intros H Hi Hlt Hr. apply (exec_listed s (DoRevert j) s' i r H Hi Hlt Hr). Qed.

Lemma evolves_listed ro s s' i r : evolves ro s s' -> inv s -> revisions s !! i = Some r -> revisions s' !! i = Some r.
Proof.
  intros Hev. revert i r. induction Hev as [s|s s1 s2 He Hev IH|s s1 s2 H1 IH1 H2 IH2|s s1 s2 s3 H1 IH1 Hr H2 IH2]; intros i r Hi Hl; auto.
  - pose proof (effect_moves _ _ _ He (inv_wf _ Hi)) as Hm. apply IH; [eapply moves_inv; eassumption|].
    destruct (moves_revisions _ _ Hm) as [-> _]. exact Hl.
  - pose proof (snapshot_inv s Hi) as Hi'. apply IH2; [eapply evolves_inv; eassumption|]. apply IH1; [exact Hi'|].
    cbn [Snapshot fst revisions]. apply lookup_app_l_Some, Hl.
  - pose proof (snapshot_inv s Hi) as Hi'. pose proof (evolves_inv _ _ _ H1 Hi') as Hi1. apply IH2; [eapply revert_inv; eassumption|].
    eapply revert_listed; [exact Hr | exact Hi1 | cbn [Snapshot snd]; apply (inv_bounds _ Hi i r Hl)|].
    apply IH1; [exact Hi'|]. cbn [Snapshot fst revisions]. apply lookup_app_l_Some, Hl.
Qed.

Lemma evolves_kept ro S id s s' : evolves ro s s' -> inv s -> kept S id s -> kept S id s'.
Proof.
  intros Hev. induction Hev as [s|s s1 s2 He Hev IH|s s1 s2 H1 IH1 H2 IH2|s s1 s2 s3 H1 IH1 Hr H2 IH2]; intros Hi Hk; auto.
  - pose proof (effect_moves _ _ _ He (inv_wf _ Hi)) as Hm. apply IH; [eapply moves_inv | eapply moves_kept]; eassumption.
  - pose proof (snapshot_inv s Hi) as Hi'. apply IH2; [eapply evolves_inv; eassumption|]. apply IH1; [exact Hi' | apply snapshot_kept, Hk].
  - pose proof (snapshot_inv s Hi) as Hi'. pose proof (evolves_inv _ _ _ H1 Hi') as Hi1. apply IH2; [eapply revert_inv; eassumption|].
    eapply revert_kept; [exact Hr | exact Hi1|]. apply IH1; [exact Hi' | apply snapshot_kept, Hk].
Qed.

(** A call can always go back to its snapshot, and does so exactly. *)
Lemma evolves_revert ro s s1 : inv s -> evolves ro (fst (Snapshot s)) s1 ->
  exists s2, RevertToSnapshot s1 (snd (Snapshot s)) = Some s2 /\ inv s2 /\ ext (world s) (world s2) /\
    entries s2 = entries s /\ revisions s2 = revisions s.
Proof.
  intros Hi Hev. pose proof (snapshot_inv s Hi) as Hi'. pose proof (evolves_inv _ _ _ Hev Hi') as Hi1.
  pose proof (evolves_kept _ _ _ _ _ Hev Hi' (snapshot_starts s Hi)) as Hk.
  assert (revisions s1 !! length (revisions s) = Some (nextRevID s, length (entries s))) as Hl.
  { eapply evolves_listed; [exact Hev | exact Hi'|]. cbn [Snapshot fst revisions]. rewrite lookup_app_r, Nat.sub_diag by lia. reflexivity. }
  assert (exists s2, RevertToSnapshot s1 (nextRevID s) = Some s2) as [s2 Hr].
  { unfold RevertToSnapshot. rewrite (search_found _ _ _ _ (inv_order _ Hi1) Hl), Hl, Z.eqb_refl. eauto. }
  exists s2. split; [exact Hr|]. split; [eapply revert_inv; eassumption|].
  destruct (revert_fields _ _ _ Hr) as (i & n & Hl2 & Ew & Ee & Er & _).
  destruct (kept_at _ _ _ Hk i n Hl2) as (E1 & E2 & E3). rewrite Ew, Ee, Er. auto.
Qed.

Lemma SetNonce_balance s a m b : balance_at (world (SetNonce s a m)) b = balance_at (world s) b.
Proof.
  unfold SetNonce. pose proof (getOrNew_cells s a) as [_ Hb]. pose proof (getOrNew_live s a) as Hl.
  destruct (getOrNewStateObject s a) as [s1 o]. cbn [fst snd] in *. rewrite <- Hb. unfold balance_at.
  erewrite (live_put (world s1) _ a _ b) by (try reflexivity; apply (live_not_deleted _ _ _ Hl)).
  destruct (decide (a = b)) as [<-|]; [|reflexivity]. rewrite Hl. reflexivity.
Qed.

End Evolution.
End Ev.
