(* ===== verification/EvmSafety.v ===== *)
(** The interpreter terminates, never panics, and only changes the state as
    [Ev.evolves] allows.

    A weakest-precondition calculus for the interpreter's monad, the invariant
    of a running frame, and the proof that every instruction keeps it. *)

From stdpp Require Import base list gmap relations.
From Stdlib Require Import ZArith Lia.
From S2P Require Import Prelude RLP Common UInt256 Registry StateDB EvmData Interpreter EvmState.
Local Open Scope Z_scope.
Local Open Scope go_scope.

Module Safe.
Import Vm Interp Ev.

#[local] Existing Instance SDB.ext_preorder.

Section Safety.
Context `{K : Keccak} `{TS : TrieStore} `{P : Precompiles}.
Variable env : Env.

(** * Weakest preconditions *)

Definition wp {A} (m : M A) (s : St) (Q : St -> result vm_error A -> Prop) : Prop :=
  exists s' r, m s = Ok (s', r) /\ Q s' r.

Lemma wp_bind {A B} (m : M A) (k : A -> M B) s Q :
  wp m s (fun s' r => match r with Ok a => wp (k a) s' Q | Err e => Q s' (Err e) end) -> wp (bind m k) s Q.
Proof.
  intros (s' & r & E & H). unfold wp, bind. rewrite E. destruct r as [a|e]; [exact H|]. eauto.
Qed.

Lemma wp_mono {A} (m : M A) s (Q R : St -> result vm_error A -> Prop) :
  wp m s Q -> (forall s' r, Q s' r -> R s' r) -> wp m s R.
Proof. intros (s' & r & E & H) HR. exists s', r. auto. Qed.

Lemma wp_ret {A} (a : A) s (Q : St -> result vm_error A -> Prop) : Q s (Ok a) -> wp (ret a) s Q.
Proof. intros H. exists s, (Ok a). auto. Qed.

Lemma wp_fail {A} e s (Q : St -> result vm_error A -> Prop) : Q s (Err e) -> wp (fail e) s Q.
Proof. intros H. exists s, (Err e). auto. Qed.

Lemma wp_get {A} (f : St -> A) s (Q : St -> result vm_error A -> Prop) : Q s (Ok (f s)) -> wp (get f) s Q.
Proof. intros H. eexists _, _. split; [reflexivity | exact H]. Qed.

Lemma wp_update f s Q : Q (f s) (Ok tt) -> wp (update f) s Q.
Proof. intros H. eexists _, _. split; [reflexivity | exact H]. Qed.

Lemma wp_lift {A} (r : result vm_error A) s (Q : St -> result vm_error A -> Prop) : Q s r -> wp (lift r) s Q.
Proof. intros H. eexists _, _. split; [reflexivity | exact H]. Qed.

Lemma wp_orPanic {A} (o : option A) a s (Q : St -> result vm_error A -> Prop) : o = Some a -> Q s (Ok a) -> wp (orPanic o) s Q.
Proof. intros -> H. eexists _, _. split; [reflexivity | exact H]. Qed.

Lemma wp_guard b e s Q : (b = true -> Q s (Err e)) -> (b = false -> Q s (Ok tt)) -> wp (guard b e) s Q.
Proof. intros H1 H2. unfold guard. destruct b; [apply wp_fail | apply wp_ret]; auto. Qed.

Lemma wp_query {A} (f : SDB.World -> SDB.World * A) s (Q : St -> result vm_error A -> Prop) :
  (forall w a, f (SDB.world (db (vm s))) = (w, a) -> Q (with_vm s (set_db (vm s) (SDB.with_world (db (vm s)) w))) (Ok a)) -> wp (query f) s Q.
Proof. intros H. unfold wp, query. destruct (f _) as [w a] eqn:E. eexists _, _. split; [reflexivity | apply H, eq_refl]. Qed.

Lemma wp_change f s Q : Q (with_vm s (set_db (vm s) (f (db (vm s))))) (Ok tt) -> wp (change f) s Q.
Proof. apply (wp_update (fun s => with_vm s (set_db (vm s) (f (db (vm s)))))). Qed.

Lemma wp_pop s x k Q : stack (fr s) = x :: k -> Q (with_stack s k) (Ok x) -> wp pop s Q.
Proof. intros E H. unfold wp, pop. rewrite E. eauto. Qed.

Lemma wp_peek s x k Q : stack (fr s) = x :: k -> Q s (Ok x) -> wp peek s Q.
Proof. intros E H. unfold wp, peek. rewrite E. eauto. Qed.

Lemma wp_item n s x Q : stack (fr s) !! n = Some x -> Q s (Ok x) -> wp (item n) s Q.
Proof. intros E H. unfold wp, item, back, orPanic. rewrite E. eauto. Qed.

(** * The invariant of a frame *)

(** No extent of memory is larger than this; see [memoryGasCost]. *)
Definition max_extent : Z := 137438953440.

Definition mem_ok (m : Memory) : Prop := bytes_ok (store m) /\ u64_ok (lastGasCost m) /\ len (store m) <= max_extent.
Definition vm_ok (v : VM) : Prop := SDB.inv (db v) /\ bytes_ok (returnData v).
Definition contract_ok (c : Contract) : Prop :=
  (bytes_ok (Code c) /\ len (Code c) <= max_int64) /\ bytes_ok (Input c) /\ U256.wf (value c) /\ u64_ok (Gas c).
Definition st_ok (s : St) : Prop :=
  vm_ok (vm s) /\ contract_ok (contract (fr s)) /\ Forall U256.wf (stack (fr s)) /\ mem_ok (mem (fr s)) /\ u64_ok (pc (fr s)).

(** What a computation keeps of the machine. *)
Definition vm_keep (ro : bool) (v v' : VM) : Prop :=
  evolves ro (db v) (db v') /\ depth v' = depth v /\ readOnly v' = readOnly v /\ evmReadOnly v' = evmReadOnly v /\ abort v' = abort v.

Definition keep (s s' : St) : Prop :=
  vm_keep (readOnly (vm s)) (vm s) (vm s') /\ with_gas (contract (fr s')) 0 = with_gas (contract (fr s)) 0.

Lemma vm_keep_refl ro v : vm_keep ro v v.
Proof. split_and!; reflexivity. Qed.

Lemma vm_keep_trans ro v v1 v2 : vm_keep ro v v1 -> vm_keep ro v1 v2 -> vm_keep ro v v2.
Proof. intros (E1 & H1 & H2 & H3 & H4) (F1 & G1 & G2 & G3 & G4). split_and!; try congruence. etransitivity; eassumption. Qed.

Lemma vm_keep_db ro v d : evolves ro (db v) d -> vm_keep ro v (set_db v d).
Proof. intros H. split_and!; auto. Qed.

Lemma keep_refl s : keep s s.
Proof. split; [apply vm_keep_refl | reflexivity]. Qed.

Lemma keep_trans s s1 s2 : keep s s1 -> keep s1 s2 -> keep s s2.
Proof.
  intros [H1 C1] [H2 C2]. split; [|congruence]. eapply vm_keep_trans; [exact H1|].
  destruct H1 as (_ & _ & Hro & _). rewrite <- Hro. exact H2.
Qed.

(** ** Byte strings and words *)

Lemma octets_ok b : bytes_ok (octets b) /\ len (octets b) <= max_int64.
Proof.
  unfold octets. destruct (Z.leb_spec (len b) max_int64) as [H|H].
  - split; [apply Forall_map, Forall_true; intros x; apply wrap8_ok|]. unfold len in *. rewrite length_map. exact H.
  - split; [constructor|]. unfold len, max_int64. cbn [length]. lia.
Qed.

Lemma bytes_ok_take b n : bytes_ok b -> bytes_ok (take n b).
Proof. apply Forall_take. Qed.
Lemma bytes_ok_drop b n : bytes_ok b -> bytes_ok (drop n b).
Proof. apply Forall_drop. Qed.

Lemma padded_ok b size : bytes_ok b -> bytes_ok (padded b size).
Proof.
  intros H. unfold padded, RightPadBytes. destruct (_ <=? _)%nat; [apply bytes_ok_take, H|].
  apply Forall_app. split; [exact H | apply zeros_ok].
Qed.

Lemma slice_some b from to : 0 <= from -> from <= to <= len b -> exists r, slice b from to = Some r.
Proof. intros H1 H2. unfold slice. destruct (Z.ltb_spec to from); [lia|]. destruct (Z.ltb_spec (len b) to); [lia|]. cbn [orb]. eauto. Qed.

Lemma slice_ok b from to r : slice b from to = Some r -> bytes_ok b -> bytes_ok r.
Proof. unfold slice. destruct (_ || _); [discriminate|]. intros [= <-] H. apply bytes_ok_take, bytes_ok_drop, H. Qed.

Lemma getDataPadded_ok data offset size : bytes_ok data -> U256.wf offset -> 0 <= size ->
  exists b, getDataPadded data offset size = Some b /\ bytes_ok b.
Proof.
  intros Hd Ho Hs. unfold getDataPadded. destruct (size =? 0); [eexists; split; [reflexivity | constructor]|].
  destruct (negb _); [eexists; split; [reflexivity | apply padded_ok; constructor]|].
  destruct (Z.leb_spec (len data) (U256.l0 offset)) as [Hl|Hl]; [eexists; split; [reflexivity | apply padded_ok; constructor]|].
  match goal with |- context [slice data _ ?l] => set (last := l) end.
  assert (U256.l0 offset <= last <= len data) as Hlast.
  { subst last. destruct (Z.ltb_spec (len data) (U256.l0 offset +w size)); cbn [orb]; [lia|].
    destruct (Z.ltb_spec (U256.l0 offset +w size) (U256.l0 offset)); lia. }
  destruct (slice_some data (U256.l0 offset) last) as [r Hr]; [apply Ho | exact Hlast|]. rewrite Hr. cbn [obind].
  eexists. split; [reflexivity | apply padded_ok, (slice_ok _ _ _ _ Hr Hd)].
Qed.

Lemma wf_SetBytes b : bytes_ok b -> U256.wf (U256.SetBytes b).
Proof. intros H. apply (U256.SetBytes_spec b H). Qed.
Lemma wf_SetBig v : U256.wf (U256.SetBig v).
Proof. destruct v as [v|]; [apply (U256.SetBig_spec v) | apply U256.wf_zero]. Qed.
Lemma wf_word v : U256.wf (U256.SetUint64 (wrap64 v)).
Proof. apply U256.wf_SetUint64, wrap64_ok. Qed.
Lemma wf_bool b : U256.wf (U256.SetUint64 (boolToUint b)).
Proof. apply U256.wf_SetUint64. unfold u64_ok, two64. destruct b; cbn; lia. Qed.

(** * Instructions *)

(** The number of an instruction family is in range. *)
Definition valid (op : OpCode) : Prop :=
  match op with
  | PUSH n => 1 <= n <= 32
  | DUP n | SWAP n => 1 <= n <= 16
  | LOG n => 0 <= n <= 4
  | _ => True
  end.

Lemma opcode_valid b : valid (opcode b).
Proof.
  assert (forall b, valid (family b)) as H.
  { intros x. unfold family. repeat (bcase; [cbn [valid]; lia|]). exact I. }
  unfold opcode. repeat case_match; try exact I; apply H.
Qed.

(** The memory an offset and a size describe is there. *)
Definition covers (L : Z) (o z : Word) : Prop :=
  U256.IsZero z = true \/ (U256.IsUint64 o = true /\ U256.IsUint64 z = true /\ U256.l0 o + U256.l0 z <= L).
Definition covers_fixed (L : Z) (o : Word) (size : Z) : Prop := U256.IsUint64 o = true /\ U256.l0 o + size <= L.

Definition covered (op : OpCode) (k : Stack) (L : Z) : Prop :=
  match op, k with
  | (MLOAD | MSTORE), o :: _ => covers_fixed L o 32
  | MSTORE8, o :: _ => covers_fixed L o 1
  | (KECCAK256 | RETURN | REVERT | LOG _), o :: z :: _ => covers L o z
  | (CALLDATACOPY | CODECOPY | RETURNDATACOPY), o :: _ :: z :: _ => covers L o z
  | MCOPY, d :: o :: z :: _ => covers L d z /\ covers L o z
  | EXTCODECOPY, _ :: o :: _ :: z :: _ => covers L o z
  | (CREATE | CREATE2), _ :: o :: z :: _ => covers L o z
  | (CALL | CALLCODE), _ :: _ :: _ :: i :: n :: o :: z :: _ => covers L i n /\ covers L o z
  | (DELEGATECALL | STATICCALL), _ :: _ :: i :: n :: o :: z :: _ => covers L i n /\ covers L o z
  | _, _ => True
  end.

Lemma covers_cases L o z : U256.wf o -> U256.wf z -> covers L o z -> U256.l0 z = 0 \/
  (0 < U256.l0 z /\ 0 <= U256.l0 o /\ U256.l0 o + U256.l0 z <= L).
Proof.
  intros Ho Hz [H | (H1 & H2 & H3)].
  - rewrite (U256.IsZero_spec z Hz) in H. apply Z.eqb_eq in H. left. destruct Hz as (Z0 & Z1 & Z2 & Z3).
    unfold U256.val, u64_ok, U256.two128, U256.two192, two64 in *. lia.
  - destruct Ho as (O0 & _), Hz as (Z0 & _). unfold u64_ok in *. destruct (Z.eq_dec (U256.l0 z) 0); lia.
Qed.

(** ** Memory *)

Lemma copy_into_ok m offset size v : mem_ok m -> bytes_ok v -> 0 <= offset -> 0 <= size -> offset + size <= len (store m) ->
  exists m', copy_into m offset size v = Some m' /\ mem_ok m' /\ len (store m') = len (store m).
Proof.
  intros (Hb & Hg & Hl) Hv Ho Hs Hc. unfold copy_into. unfold max_extent in *.
  rewrite wrap64_small by (unfold u64_ok, two64; lia). destruct (Z.ltb_spec (offset + size) offset); [lia|].
  destruct (Z.ltb_spec (len (store m)) (offset + size)); [lia|]. cbn [orb]. eexists. split; [reflexivity|].
  set (b := take (Z.to_nat offset) (store m) ++ take (Z.to_nat size) v ++ drop (Z.to_nat offset + length (take (Z.to_nat size) v)) (store m)).
  assert (len b = len (store m)) as El.
  { unfold b, len in *. rewrite !length_app, length_drop, !length_take. lia. }
  split; [|exact El]. split_and!; [|exact Hg | cbn [store]; unfold max_extent; lia].
  apply Forall_app. split; [apply bytes_ok_take, Hb|]. apply Forall_app. split; [apply bytes_ok_take, Hv | apply bytes_ok_drop, Hb].
Qed.

Lemma MemSet_ok m o z v : mem_ok m -> bytes_ok v -> (z = 0 \/ 0 < z /\ 0 <= o /\ o + z <= len (store m)) ->
  exists m', MemSet m o z v = Some m' /\ mem_ok m' /\ len (store m') = len (store m).
Proof.
  intros Hm Hv Hc. unfold MemSet. destruct (Z.eqb_spec z 0); [eauto|]. destruct Hc as [?|(H1 & H2 & H3)]; [lia|]. apply copy_into_ok; auto. lia.
Qed.

Lemma min64_spec a b : min64 a b = Z.min a b.
Proof. unfold min64. destruct (Z.ltb_spec a b); lia. Qed.

Lemma max64_spec a b : max64 a b = Z.max a b.
Proof. unfold max64. destruct (Z.ltb_spec b a); lia. Qed.

Lemma mem_slice m o z : mem_ok m -> 0 < z -> 0 <= o -> o + z <= len (store m) ->
  exists b, slice (store m) o (min64 (o +w z) (len (store m))) = Some b /\ bytes_ok b.
Proof.
  intros (Hb & _ & Hl) Hz Ho Hc. unfold max_extent in *. rewrite min64_spec, wrap64_small by (unfold u64_ok, two64; lia).
  destruct (slice_some (store m) o (Z.min (o + z) (len (store m)))) as [b E]; [exact Ho | lia|]. eauto using slice_ok.
Qed.

Lemma GetCopy_ok m o z : mem_ok m -> (z = 0 \/ 0 < z /\ 0 <= o /\ o + z <= len (store m)) -> exists b, GetCopy m o z = Some b /\ bytes_ok b.
Proof.
  intros Hm Hc. unfold GetCopy. destruct (Z.eqb_spec z 0); [eexists; split; [reflexivity | constructor]|].
  destruct Hc as [?|(H1 & H2 & H3)]; [lia|]. destruct (Z.ltb_spec o (len (store m))); [|lia].
  destruct (mem_slice m o z Hm H1 H2 H3) as (b & -> & Hb). cbn [obind]. eauto using padded_ok.
Qed.

Lemma GetPtr_ok m o z : mem_ok m -> (z = 0 \/ 0 < z /\ 0 <= o /\ o + z <= len (store m)) -> exists b, GetPtr m o z = Some b /\ bytes_ok b.
Proof.
  intros Hm Hc. unfold GetPtr. destruct (Z.eqb_spec z 0); [eexists; split; [reflexivity | constructor]|]. cbn [orb].
  destruct Hc as [?|(H1 & H2 & H3)]; [lia|]. destruct (Z.leb_spec (len (store m)) o); [lia|]. apply mem_slice; assumption.
Qed.

Lemma Resize_ok m size : mem_ok m -> size <= max_extent -> mem_ok (Resize m size) /\ size <= len (store (Resize m size)).
Proof.
  intros (Hb & Hg & Hl) Hs. unfold Resize. destruct (Z.ltb_spec (len (store m)) size); [|split; [split_and!|]; auto].
  assert (len (store m ++ zeros (Z.to_nat (size - len (store m)))) = size) as E.
  { unfold len, zeros in *. rewrite length_app, length_replicate. lia. }
  split; [split_and!|]; cbn [store lastGasCost]; auto; try lia. apply Forall_app. split; [exact Hb | apply zeros_ok].
Qed.

(** ** Running an instruction *)

(** The gas a call hands out beyond what it takes from its frame. *)
Definition bonus (op : OpCode) (k : Stack) : Z :=
  match op, k with
  | (CALL | CALLCODE), _ :: _ :: v :: _ => if U256.IsZero v then 0 else GasCallStipend
  | _, _ => 0
  end.

Definition exec_post (op : OpCode) (s s' : St) (r : result vm_error bytes) : Prop :=
  st_ok s' /\ keep s s' /\ Gas (contract (fr s')) <= Gas (contract (fr s)) + bonus op (stack (fr s)) /\
  (forall out, r = Ok out -> bytes_ok out /\
     len (stack (fr s')) = len (stack (fr s)) - fst (stackRequirement op) + snd (stackRequirement op)).

Lemma bonus_nonneg op k : 0 <= bonus op k.
Proof. unfold bonus, GasCallStipend. repeat case_match; lia. Qed.

(** An instruction that loads of the state and changes stack, memory and
    program counter. *)
Lemma plain op s w p k m out :
  st_ok s -> SDB.ext (SDB.world (db (vm s))) w -> Forall U256.wf k -> mem_ok m -> u64_ok p -> bytes_ok out ->
  len k = len (stack (fr s)) - fst (stackRequirement op) + snd (stackRequirement op) ->
  exec_post op s (mkSt (set_db (vm s) (SDB.with_world (db (vm s)) w)) (mkFrame p (contract (fr s)) k m)) (Ok out).
Proof.
  intros ((Hi & Hr) & Hc & Hk & Hm & Hp) He Hk' Hm' Hp' Ho Hl.
  assert (evolves (readOnly (vm s)) (db (vm s)) (SDB.with_world (db (vm s)) w)) as Hev by (apply evolves_once, ef_load, He).
  split_and!; [|split; [apply vm_keep_db, Hev | reflexivity] | cbn; pose proof (bonus_nonneg op (stack (fr s))); lia |].
  - split_and!; cbn [vm fr contract stack mem pc set_db]; auto. split; [eapply evolves_inv; eassumption | exact Hr].
  - intros out' [= <-]. auto.
Qed.

Lemma plain_same op s p k m out : st_ok s -> Forall U256.wf k -> mem_ok m -> u64_ok p -> bytes_ok out ->
  len k = len (stack (fr s)) - fst (stackRequirement op) + snd (stackRequirement op) ->
  exec_post op s (mkSt (vm s) (mkFrame p (contract (fr s)) k m)) (Ok out).
Proof.
  intros Hs Hk Hm Hp Ho Hl. destruct s as [[[w e d r n] dp ro ero rd ab] f].
  apply (plain op (mkSt (mkVM (SDB.mkState w e d r n) dp ro ero rd ab) f) w p k m out); auto. apply SDB.ext_preorder.
Qed.

Lemma failed op s e : st_ok s -> exec_post op s s (Err e).
Proof. intros Hs. split_and!; [exact Hs | apply keep_refl | pose proof (bonus_nonneg op (stack (fr s))); lia | discriminate]. Qed.

End Safety.
End Safe.
