(* ===== verification/EvmExec.v ===== *)
(** Every instruction keeps the invariant of its frame.

    Each group of instructions is executed symbolically; the rules of the
    calculus are in EvmSafety.v. *)

From stdpp Require Import base list gmap relations.
From Stdlib Require Import ZArith Lia.
From S2P Require Import Prelude RLP Common UInt256 Registry StateDB EvmData Interpreter EvmState EvmSafety.
Local Open Scope Z_scope.
Local Open Scope go_scope.

Module Exec.
Import Vm Interp Ev Safe.

#[local] Existing Instance SDB.ext_preorder.

(** The values an instruction pops are on the stack. *)
Ltac uncons Hlen :=
  cbn [stackRequirement fst] in Hlen;
  repeat match type of Hlen with
  | 0 <= _ => fail 1
  | ?n <= len ?k =>
      destruct k as [|? k]; [exfalso; unfold len in Hlen; cbn [length] in Hlen; lia|];
      let n' := eval compute in (n - 1) in
      rewrite len_cons in Hlen; assert (n' <= len k) by lia; clear Hlen; rename H into Hlen
  end.

Ltac words Hs :=
  let H := fresh in pose proof (proj1 (proj2 (proj2 Hs))) as H; cbn [fr stack] in H;
  repeat match type of H with
  | Forall _ (_ :: _) => apply Forall_cons_1 in H; let H' := fresh "Hw" in destruct H as [H' H]
  end.

Section Rules.
Context `{K : Keccak} `{TS : TrieStore}.

Lemma setTop_wp s x y k Q : stack (fr s) = y :: k -> Q (with_stack s (x :: k)) (Ok tt) -> wp (setTop x) s Q.
Proof. intros E H. unfold wp, setTop, bind, pop. rewrite E. eexists _, _. split; [reflexivity | exact H]. Qed.

Lemma Div_some x y : U256.wf x -> U256.wf y -> exists z, U256.Div x y = Some z /\ U256.wf z.
Proof. intros Hx Hy. unfold U256.Div. destruct (U256.divMod_spec x y Hx Hy) as (q & r & -> & Hq & _). cbn [obind]. eauto. Qed.

Lemma Mod_some x y : U256.wf x -> U256.wf y -> exists z, U256.Mod x y = Some z /\ U256.wf z.
Proof. intros Hx Hy. unfold U256.Mod. destruct (U256.divMod_spec x y Hx Hy) as (q & r & -> & _ & Hr & _). cbn [obind]. eauto. Qed.

End Rules.

(** Symbolic execution of an instruction. *)
Ltac go := cbv beta iota; lazymatch goal with
  | |- wp (bind _ _) _ _ => apply wp_bind; go
  | |- wp pop _ _ => eapply wp_pop; [reflexivity | go]
  | |- wp peek _ _ => eapply wp_peek; [reflexivity | go]
  | |- wp (setTop _) _ _ => eapply setTop_wp; [reflexivity | go]
  | |- wp (push _) _ _ => apply wp_update; go
  | |- wp (ret _) _ _ => apply wp_ret; go
  | |- wp (fail _) _ _ => apply wp_fail; go
  | |- wp (get _) _ _ => apply wp_get; go
  | |- wp (update _) _ _ => apply wp_update; go
  | |- wp selfAddress _ _ => apply wp_get; go
  | |- wp isReadOnly _ _ => apply wp_get; go
  | |- wp (peek_db _) _ _ => apply wp_get; go
  | |- wp (item _) _ _ => tryif eapply wp_item; [reflexivity|] then go else idtac
  | |- wp (lift _) _ _ => apply wp_lift; go
  | |- wp (change _) _ _ => apply wp_change; go
  | |- wp (execute _ _ _) _ _ => unfold execute; go
  | |- wp (binary _) _ _ => unfold binary; go
  | |- wp (binaryP _) _ _ => unfold binaryP; go
  | |- wp (compare _) _ _ => unfold compare, binary; go
  | |- wp (shift _ _) _ _ => unfold shift; go
  | |- wp (pushFrom _) _ _ => unfold pushFrom; go
  | |- wp (account _) _ _ => unfold account; go
  | |- wp (copyData _) _ _ => unfold copyData; go
  | |- wp (jumpTo _) _ _ => unfold jumpTo; go
  | _ => idtac
  end.

Ltac by_plain Hs :=
  refine (plain_same _ _ _ _ _ _ Hs _ _ _ _ _);
  cbn [pc mem stack fr with_stack with_mem with_pc with_vm fst snd stackRequirement];
  [| apply Hs | apply Hs | constructor | rewrite ?len_cons; lia].

Ltac by_load Hs :=
  refine (plain _ _ _ _ _ _ _ Hs _ _ _ _ _ _);
  cbn [pc mem stack fr with_stack with_mem with_pc with_vm fst snd stackRequirement vm db];
  [| | apply Hs | apply Hs | constructor | rewrite ?len_cons; lia].

Section Execute.
Context `{K : Keccak} `{TS : TrieStore} `{P : Precompiles}.
Variable env : Env.
Variable run : VM -> Contract -> bytes -> bool -> result fault (VM * Contract * bytes * option vm_error).

Definition arithmetic (op : OpCode) : Prop :=
  match op with
  | ADD | MUL | SUB | DIV | SDIV | MOD | SMOD | ADDMOD | MULMOD | EXP | SIGNEXTEND
  | LT | GT | SLT | SGT | EQ | ISZERO | AND | OR | XOR | NOT | BYTE | SHL | SHR | SAR => True
  | _ => False
  end.

Lemma exec_arithmetic op s : arithmetic op -> st_ok s -> fst (stackRequirement op) <= len (stack (fr s)) ->
  wp (execute env run op) s (exec_post op s).
Proof.
  intros Ha Hs Hlen. destruct s as [v [p c k m]]. cbn [fr stack] in Hlen.
  destruct op; try contradiction; uncons Hlen; words Hs;
    try (go; by_plain Hs; apply Forall_cons_2; [|assumption];
         first [apply U256.Add_spec | apply U256.Mul_spec | apply U256.Sub_spec | apply U256.MulMod_spec | apply U256.Exp_spec | apply U256.SignExtend_spec
               | apply wf_bool | apply U256.And_spec | apply U256.Or_spec | apply U256.Xor_spec | apply U256.Not_spec | apply U256.Byte_spec]; assumption).
  all: try match goal with |- wp (execute _ _ ?op) (mkSt _ (mkFrame _ _ (?x :: ?y :: _) _)) _ =>
    let H := lazymatch op with
      | DIV => constr:(Div_some x y) | MOD => constr:(Mod_some x y) | SDIV => constr:(U256.SDiv_spec x y) | SMOD => constr:(U256.SMod_spec x y) end in
    destruct H as (z & E & Hz); [assumption..|]; go; eapply wp_orPanic; [exact E | go]; by_plain Hs; apply Forall_cons_2; [apply Hz | assumption] end.
  - destruct (U256.AddMod_spec i i0 i1) as (z & E & Hz & _); [assumption..|]. go. eapply wp_orPanic; [exact E | go]. by_plain Hs. auto.
  - go. by_plain Hs. apply Forall_cons_2; [|assumption]. destruct (_ && _); [apply U256.Lsh_spec; [assumption | apply Hw] | apply U256.wf_zero].
  - go. by_plain Hs. apply Forall_cons_2; [|assumption]. destruct (_ && _); [apply U256.Rsh_spec; [assumption | apply Hw] | apply U256.wf_zero].
  - go. by_plain Hs. apply Forall_cons_2; [|assumption]. destruct (_ && _); (apply U256.SRsh_spec; [assumption | try apply Hw; lia]).
Qed.

Definition environment (op : OpCode) : Prop :=
  match op with
  | ADDRESS | ORIGIN | CALLER | CALLVALUE | CALLDATASIZE | CODESIZE | GASPRICE | RETURNDATASIZE | COINBASE | TIMESTAMP
  | NUMBER | PREVRANDAO | GASLIMIT | CHAINID | BASEFEE | POP | PC | MSIZE | GAS | PUSH0 | STOP | JUMPDEST | CALLDATALOAD | TLOAD
  | BLOCKHASH => True
  | _ => False
  end.

Lemma exec_environment op s : environment op -> st_ok s -> fst (stackRequirement op) <= len (stack (fr s)) ->
  wp (execute env run op) s (exec_post op s).
Proof.
  intros Ha Hs Hlen. pose proof Hs as (Hv & (Hcode & Hinput & Hvalue & Hgas) & Hk & Hm & Hp). destruct s as [v [p c k m]]. cbn [fr stack pc contract] in *.
  destruct op; try contradiction; uncons Hlen; words Hs;
    try (go; by_plain Hs; try (apply Forall_cons_2; [|assumption]); 
         first [assumption | apply wf_SetBytes, octets_ok | apply wf_word | apply wf_SetBig | apply U256.wf_zero | apply U256.wf_SetUint64; assumption]; fail).
  - destruct (getDataPadded_ok (Input c) i 32) as (b & E & Hb); [assumption.. | lia|]. go. eapply wp_orPanic; [exact E | go]. by_plain Hs.
    apply Forall_cons_2; [apply wf_SetBytes, Hb | assumption].
  - unfold execute, opBlockHash. go.
    assert (forall x, U256.wf x -> wp (setTop x) (mkSt v (mkFrame p c (i :: k) m)) (fun s' r => match r with
      | Ok _ => wp (ret []) s' (exec_post BLOCKHASH (mkSt v (mkFrame p c (i :: k) m))) | Err e => exec_post BLOCKHASH (mkSt v (mkFrame p c (i :: k) m)) s' (Err e) end)) as Hx.
    { intros x Hx. go. by_plain Hs. auto. }
    destruct (negb _); [apply Hx, U256.wf_zero|]. destruct (_ || _); apply Hx; [apply U256.wf_zero | apply wf_SetBytes, octets_ok].
Qed.

(** ** Instructions that read the state *)

Lemma get_balance_ext w a w' b : SDB.get_balance w a = (w', b) -> SDB.ext w w'.
Proof. unfold SDB.get_balance. pose proof (SDB.getStateObject_ext w a). destruct (SDB.getStateObject w a). intros [= <- _]. assumption. Qed.
Lemma Exist_ext w a w' b : SDB.Exist w a = (w', b) -> SDB.ext w w'.
Proof. unfold SDB.Exist. pose proof (SDB.getStateObject_ext w a). destruct (SDB.getStateObject w a). intros [= <- _]. assumption. Qed.
Lemma Empty_ext w a w' b : SDB.Empty w a = (w', b) -> SDB.ext w w'.
Proof. unfold SDB.Empty. pose proof (SDB.getStateObject_ext w a). destruct (SDB.getStateObject w a). intros [= <- _]. assumption. Qed.
Lemma GetNonce_ext w a w' b : SDB.GetNonce w a = (w', b) -> SDB.ext w w'.
Proof. unfold SDB.GetNonce. pose proof (SDB.getStateObject_ext w a). destruct (SDB.getStateObject w a). intros [= <- _]. assumption. Qed.
Lemma GetCodeHash_ext w a w' b : SDB.GetCodeHash w a = (w', b) -> SDB.ext w w'.
Proof. unfold SDB.GetCodeHash. pose proof (SDB.getStateObject_ext w a). destruct (SDB.getStateObject w a). intros [= <- _]. assumption. Qed.
Lemma GetCode_ext' w a w' b : SDB.GetCode w a = (w', b) -> SDB.ext w w'.
Proof. intros E. pose proof (SDB.GetCode_ext w a) as H. rewrite E in H. exact H. Qed.
Lemma get_state_ext' w a k w' b : SDB.get_state w a k = (w', b) -> SDB.ext w w'.
Proof. intros E. pose proof (SDB.get_state_ext w a k) as H. rewrite E in H. exact H. Qed.
Lemma GetCommittedState_ext' w a k w' b : SDB.GetCommittedState w a k = (w', b) -> SDB.ext w w'.
Proof. intros E. pose proof (SDB.GetCommittedState_ext w a k) as H. rewrite E in H. exact H. Qed.
Lemma map_snd_inv {A B C} (f : B -> C) (p : A * B) a c : map_snd f p = (a, c) -> exists b, p = (a, b) /\ c = f b.
Proof. destruct p as [x y]. intros [= <- <-]. eauto. Qed.

Definition loads (op : OpCode) : Prop :=
  match op with BALANCE | EXTCODESIZE | EXTCODEHASH | SELFBALANCE | SLOAD => True | _ => False end.

Lemma exec_loads op s : loads op -> st_ok s -> fst (stackRequirement op) <= len (stack (fr s)) ->
  wp (execute env run op) s (exec_post op s).
Proof.
  intros Ha Hs Hlen. destruct s as [v [p c k m]]. cbn [fr stack] in Hlen.
  destruct op; try contradiction; uncons Hlen; words Hs; go; apply wp_query; intros w x E; cbn [vm fr with_vm] in E; go.
  - apply map_snd_inv in E as (b & E & ->). by_load Hs; [eapply get_balance_ext, E | apply Forall_cons_2; [apply wf_SetBig | assumption]].
  - apply map_snd_inv in E as (b & E & ->). unfold SDB.GetCodeSize in E. destruct (SDB.GetCode _ _) as [w' code] eqn:Ec. injection E as -> <-.
    by_load Hs; [eapply GetCode_ext', Ec | apply Forall_cons_2; [apply wf_word | assumption]].
  - destruct x; go; [by_load Hs; [eapply Empty_ext, E | apply Forall_cons_2; [apply U256.wf_zero | assumption]]|].
    apply wp_query. intros w2 h E2. go. cbn [vm fr with_vm db set_db SDB.world SDB.with_world] in E2.
    refine (plain EXTCODEHASH _ w2 _ _ _ _ Hs _ _ _ _ _ _); cbn [pc mem stack fr fst snd stackRequirement vm db];
      [etransitivity; [eapply Empty_ext, E | eapply GetCodeHash_ext, E2] | apply Forall_cons_2; [apply wf_SetBytes, octets_ok | assumption]
      | apply Hs | apply Hs | constructor | rewrite ?len_cons; lia].
  - by_load Hs; [eapply get_balance_ext, E | apply Forall_cons_2; [apply wf_SetBig | assumption]].
  - by_load Hs; [eapply get_state_ext', E | apply Forall_cons_2; [apply wf_SetBytes, octets_ok | assumption]].
Qed.

(** ** Instructions on stack and program counter *)

Lemma dup_ok (k : Stack) n : (1 <= n)%nat -> (n <= length k)%nat -> Forall U256.wf k ->
  exists k', dup k n = Some k' /\ Forall U256.wf k' /\ len k' = len k + 1.
Proof.
  intros H1 H2 Hk. unfold dup. destruct (lookup_lt_is_Some_2 k (n - 1)) as [x Hx]; [lia|]. rewrite Hx. eexists. split; [reflexivity|].
  split; [apply Forall_cons_2; [eapply Forall_lookup_1; eassumption | exact Hk] | rewrite len_cons; lia].
Qed.

Lemma swap_ok (k : Stack) n : (n < length k)%nat -> Forall U256.wf k ->
  exists k', swap k n = Some k' /\ Forall U256.wf k' /\ len k' = len k.
Proof.
  intros H Hk. unfold swap. destruct (lookup_lt_is_Some_2 k 0) as [x Hx]; [lia|]. destruct (lookup_lt_is_Some_2 k n) as [y Hy]; [lia|].
  rewrite Hx, Hy. eexists. split; [reflexivity|]. split; [|unfold len; rewrite !length_insert; reflexivity].
  apply Forall_insert; [apply Forall_insert; [exact Hk | eapply Forall_lookup_1; eassumption] | eapply Forall_lookup_1; eassumption].
Qed.

Lemma exec_push n s : 1 <= n <= 32 -> st_ok s -> wp (execute env run (PUSH n)) s (exec_post (PUSH n) s).
Proof.
  intros Hn Hs. pose proof Hs as (_ & ((Hcode & Hclen) & _) & Hk & Hm & Hp). destruct s as [v [p c k m]]. cbn [fr stack pc contract] in *.
  unfold execute, opPush. go.
  assert (forall x, U256.wf x -> exec_post (PUSH n) (mkSt v (mkFrame p c k m)) (mkSt v (mkFrame (p +w n) c (x :: k) m)) (Ok [])) as Hpost.
  { intros x Hx. apply (plain_same (PUSH n) (mkSt v (mkFrame p c k m))); auto using wrap64_ok; [constructor|]. rewrite len_cons. cbn [stackRequirement fst snd fr stack]. lia. }
  cbn [pc fr contract]. destruct (Z.ltb_spec (p +w 1) (len (Code c))) as [Hlt|Hge]; [|go; apply Hpost, U256.wf_zero].
  pose proof (wrap64_ok (p + 1)) as Hst. unfold max_int64, u64_ok in *.
  destruct (slice_some (Code c) (p +w 1) (min64 ((p +w 1) +w n) (len (Code c)))) as [b E].
  { apply Hst. }
  { rewrite min64_spec, (wrap64_small (_ + n)) by (unfold u64_ok, two64; lia). lia. }
  eapply wp_orPanic; [exact E | go]. apply Hpost, wf_SetBytes, padded_ok, (slice_ok _ _ _ _ E Hcode).
Qed.

Lemma wp_with {A} (F : St -> M A) s Q : wp (F s) s Q -> wp (fun s => F s s) s Q.
Proof. exact id. Qed.

Lemma exec_dup n s : 1 <= n <= 16 -> st_ok s -> n <= len (stack (fr s)) -> wp (execute env run (DUP n)) s (exec_post (DUP n) s).
Proof.
  intros Hn Hs Hlen. pose proof Hs as (_ & _ & Hk & _). destruct s as [v [p c k m]]. cbn [fr stack] in *.
  destruct (dup_ok k (Z.to_nat n)) as (k' & E & Hk' & Hl); [lia | unfold len in Hlen; lia | exact Hk|].
  unfold execute. apply wp_bind. apply (wp_with (fun s => bind (orPanic (dup (stack (fr s)) (Z.to_nat n))) (fun k => update (fun s => with_stack s k)))).
  go. eapply wp_orPanic; [exact E | go]. refine (plain_same _ _ _ _ _ _ Hs _ _ _ _ _);
    cbn [pc mem stack fr with_stack fst snd stackRequirement]; [exact Hk' | apply Hs | apply Hs | constructor | lia].
Qed.

Lemma exec_swap n s : 1 <= n <= 16 -> st_ok s -> n + 1 <= len (stack (fr s)) -> wp (execute env run (SWAP n)) s (exec_post (SWAP n) s).
Proof.
  intros Hn Hs Hlen. pose proof Hs as (_ & _ & Hk & _). destruct s as [v [p c k m]]. cbn [fr stack] in *.
  destruct (swap_ok k (Z.to_nat n)) as (k' & E & Hk' & Hl); [unfold len in Hlen; lia | exact Hk|].
  unfold execute. apply wp_bind. apply (wp_with (fun s => bind (orPanic (swap (stack (fr s)) (Z.to_nat n))) (fun k => update (fun s => with_stack s k)))).
  go. eapply wp_orPanic; [exact E | go]. refine (plain_same _ _ _ _ _ _ Hs _ _ _ _ _);
    cbn [pc mem stack fr with_stack fst snd stackRequirement]; [exact Hk' | apply Hs | apply Hs | constructor | lia].
Qed.

(** A computation that stopped with an error after changing the stack. *)
Lemma stopped op s k e : st_ok s -> Forall U256.wf k -> exec_post op s (with_stack s k) (Err e).
Proof.
  intros (Hv & Hc & Hk & Hm & Hp) Hk'. split_and!; [split_and!; auto | split; [apply vm_keep_refl | reflexivity] | | discriminate].
  cbn. pose proof (bonus_nonneg op (stack (fr s))). lia.
Qed.

Lemma exec_jump op s : op = JUMP \/ op = JUMPI -> st_ok s -> fst (stackRequirement op) <= len (stack (fr s)) ->
  wp (execute env run op) s (exec_post op s).
Proof.
  intros Ho Hs Hlen. destruct s as [v [p c k m]]. cbn [fr stack] in Hlen. destruct Ho as [->| ->]; uncons Hlen; words Hs; go.
  - apply wp_guard; intros Hj; go; [apply (stopped JUMP _ k ErrInvalidJump Hs); assumption|].
    refine (plain_same _ _ _ _ _ _ Hs _ _ _ _ _); cbn [pc mem stack fr with_stack with_pc fst snd stackRequirement];
      [assumption | apply Hs | apply wrap64_ok | constructor | rewrite len_cons; lia].
  - destruct (negb _); go.
    + apply wp_guard; intros Hj; go; [apply (stopped JUMPI _ k ErrInvalidJump Hs); assumption|].
      refine (plain_same _ _ _ _ _ _ Hs _ _ _ _ _); cbn [pc mem stack fr with_stack with_pc fst snd stackRequirement];
        [assumption | apply Hs | apply wrap64_ok | constructor | rewrite !len_cons; lia].
    + by_plain Hs. assumption.
Qed.

(** ** Instructions on memory *)

Lemma wp_memSet o z b m s Q : MemSet (mem (fr s)) o z b = Some m -> Q (with_mem s m) (Ok tt) -> wp (memSet o z b) s Q.
Proof. intros E H. unfold memSet, wp, bind, orPanic. rewrite E. eexists _, _. split; [reflexivity | exact H]. Qed.

Lemma wp_memCopy o z b s Q : GetCopy (mem (fr s)) o z = Some b -> Q s (Ok b) -> wp (memCopy o z) s Q.
Proof. intros E H. unfold memCopy, wp, orPanic. rewrite E. eauto. Qed.

Lemma exec_data_copy op s (data : M bytes) d :
  (op = CALLDATACOPY /\ data = get (fun s => Input (contract (fr s))) \/ op = CODECOPY /\ data = get (fun s => Code (contract (fr s)))) ->
  d = match op with CALLDATACOPY => Input (contract (fr s)) | _ => Code (contract (fr s)) end ->
  st_ok s -> 3 <= len (stack (fr s)) -> covered op (stack (fr s)) (len (store (mem (fr s)))) -> wp (bind (copyData data) (fun _ => ret [])) s (exec_post op s).
Proof.
  intros Hop Hd Hs Hlen Hcov. pose proof Hs as (_ & ((Hcode & _) & Hinput & _) & Hk & Hm & Hp).
  assert (bytes_ok d) as Hb by (subst d; destruct op; assumption).
  destruct s as [v [p c k m]]. cbn [fr stack mem contract] in *. uncons Hlen; words Hs.
  assert (covers (len (store m)) i i1) as Hc by (destruct Hop as [[-> _]|[-> _]]; exact Hcov).
  destruct (getDataPadded_ok d i0 (U256.l0 i1)) as (b & E & Hbb); [assumption.. | apply Hw1|].
  destruct (MemSet_ok m (U256.l0 i) (U256.l0 i1) b Hm Hbb (covers_cases _ _ _ Hw Hw1 Hc)) as (m' & E' & Hm' & _).
  destruct Hop as [[-> ->]|[-> ->]]; go; subst d; (eapply wp_orPanic; [exact E|]); cbv beta iota;
    (eapply wp_memSet; [exact E'|]); go; (refine (plain_same _ _ _ _ _ _ Hs _ _ _ _ _);
    cbn [pc mem stack fr with_stack with_mem fst snd stackRequirement]; [assumption | exact Hm' | apply Hs | constructor | rewrite !len_cons; lia]).
Qed.

Definition memory_reads (op : OpCode) : Prop := match op with KECCAK256 | MLOAD | RETURN | REVERT => True | _ => False end.

Lemma exec_memory_reads op s : memory_reads op -> st_ok s -> fst (stackRequirement op) <= len (stack (fr s)) ->
  covered op (stack (fr s)) (len (store (mem (fr s)))) -> wp (execute env run op) s (exec_post op s).
Proof.
  intros Ha Hs Hlen Hcov. pose proof Hs as ((Hi & _) & Hc & Hk & Hm & Hp). destruct s as [v [p c k m]]. cbn [fr stack mem contract] in *.
  destruct op; try contradiction; uncons Hlen; words Hs; cbn [covered] in Hcov.
  - destruct (GetPtr_ok m (U256.l0 i) (U256.l0 i0) Hm (covers_cases _ _ _ Hw Hw0 Hcov)) as (b & E & Hb). go.
    eapply wp_orPanic; [exact E | go]. by_plain Hs. apply Forall_cons_2; [|assumption]. apply wf_SetBytes. unfold Keccak256. apply Sum256_ok.
  - destruct Hcov as [Hu Hl]. destruct (GetCopy_ok m (U256.l0 i) 32 Hm) as (b & E & Hb); [right; split; [lia|]; split; [apply Hw | exact Hl]|].
    go. eapply wp_memCopy; [exact E | go]. by_plain Hs. apply Forall_cons_2; [apply wf_SetBytes, Hb | assumption].
  - destruct (GetCopy_ok m (U256.l0 i) (U256.l0 i0) Hm (covers_cases _ _ _ Hw Hw0 Hcov)) as (b & E & Hb). go.
    eapply wp_memCopy; [exact E|]. refine (plain_same _ _ _ _ _ _ Hs _ _ _ _ _);
      cbn [pc mem stack fr with_stack fst snd stackRequirement]; [assumption | exact Hm | exact Hp | exact Hb | rewrite !len_cons; lia].
  - destruct (GetCopy_ok m (U256.l0 i) (U256.l0 i0) Hm (covers_cases _ _ _ Hw Hw0 Hcov)) as (b & E & Hb). go.
    eapply wp_memCopy; [exact E | go]. split_and!.
    + split_and!; cbn [vm fr contract stack mem pc with_vm with_stack]; auto. split; [exact Hi | exact Hb].
    + split; [|reflexivity]. split_and!; reflexivity.
    + cbn [bonus fr contract with_vm with_stack stack]. lia.
    + intros out [= <-]. split; [exact Hb|]. cbn [fr stack with_vm with_stack fst snd stackRequirement]. rewrite !len_cons. lia.
Qed.

Definition memory_writes (op : OpCode) : Prop := match op with MSTORE | MSTORE8 | MCOPY => True | _ => False end.

Lemma exec_memory_writes op s : memory_writes op -> st_ok s -> fst (stackRequirement op) <= len (stack (fr s)) ->
  covered op (stack (fr s)) (len (store (mem (fr s)))) -> wp (execute env run op) s (exec_post op s).
Proof.
  intros Ha Hs Hlen Hcov. pose proof Hs as (_ & _ & Hk & Hm & Hp). destruct s as [v [p c k m]]. cbn [fr stack mem contract] in *.
  destruct op; try contradiction; uncons Hlen; words Hs; cbn [covered] in Hcov.
  - destruct Hcov as [Hu Hl]. destruct (copy_into_ok m (U256.l0 i) 32 (U256.Bytes32 i0) Hm) as (m' & E & Hm' & _);
      [rewrite U256.Bytes32_spec by assumption; apply be_bytes_ok | apply Hw | lia | exact Hl |].
    go. eapply wp_orPanic; [exact E | go]. refine (plain_same _ _ _ _ _ _ Hs _ _ _ _ _);
      cbn [pc mem stack fr with_stack with_mem fst snd stackRequirement]; [assumption | exact Hm' | exact Hp | constructor | rewrite !len_cons; lia].
  - destruct Hcov as [Hu Hl]. destruct (MemSet_ok m (U256.l0 i) 1 [wrap8 (U256.l0 i0)] Hm) as (m' & E & Hm' & _);
      [apply Forall_cons_2; [apply wrap8_ok | constructor] | right; split; [lia|]; split; [apply Hw | exact Hl] |].
    go. eapply wp_memSet; [exact E | go]. refine (plain_same _ _ _ _ _ _ Hs _ _ _ _ _);
      cbn [pc mem stack fr with_stack with_mem fst snd stackRequirement]; [assumption | exact Hm' | exact Hp | constructor | rewrite !len_cons; lia].
  - go. destruct Hcov as [Hd Ho]. destruct (U256.IsZero i1) eqn:Ez; go; [by_plain Hs; assumption|].
    destruct (GetCopy_ok m (U256.l0 i0) (U256.l0 i1) Hm (covers_cases _ _ _ Hw0 Hw1 Ho)) as (b & E & Hb).
    destruct (MemSet_ok m (U256.l0 i) (U256.l0 i1) b Hm Hb (covers_cases _ _ _ Hw Hw1 Hd)) as (m' & E' & Hm' & _).
    eapply wp_memCopy; [exact E | go]. eapply wp_memSet; [exact E' | go]. refine (plain_same _ _ _ _ _ _ Hs _ _ _ _ _);
      cbn [pc mem stack fr with_stack with_mem fst snd stackRequirement]; [assumption | exact Hm' | exact Hp | constructor | rewrite !len_cons; lia].
Qed.

(** ** Instructions that write the state *)

(** The frame after a change of the state, of stack and of memory. *)
Lemma written op s d k m out : st_ok s -> evolves (readOnly (vm s)) (db (vm s)) d -> Forall U256.wf k -> mem_ok m -> bytes_ok out ->
  len k = len (stack (fr s)) - fst (stackRequirement op) + snd (stackRequirement op) ->
  exec_post op s (mkSt (set_db (vm s) d) (mkFrame (pc (fr s)) (contract (fr s)) k m)) (Ok out).
Proof.
  intros ((Hi & Hr) & Hc & Hk & Hm & Hp) Hev Hk' Hm' Ho Hl.
  split_and!; [|split; [apply vm_keep_db, Hev | reflexivity] | cbn; pose proof (bonus_nonneg op (stack (fr s))); lia |].
  - split_and!; cbn [vm fr contract stack mem pc set_db]; auto. split; [eapply evolves_inv; eassumption | exact Hr].
  - intros out' [= <-]. auto.
Qed.

Ltac by_written Hs :=
  refine (written _ _ _ _ _ _ Hs _ _ _ _ _);
  cbn [pc mem stack fr with_stack with_mem with_pc with_vm fst snd stackRequirement vm db set_db readOnly];
  [| | apply Hs | constructor | rewrite ?len_cons; lia].

Lemma exec_extcodecopy s : st_ok s -> 4 <= len (stack (fr s)) -> covered EXTCODECOPY (stack (fr s)) (len (store (mem (fr s)))) ->
  wp (execute env run EXTCODECOPY) s (exec_post EXTCODECOPY s).
Proof.
  intros Hs Hlen Hcov. pose proof Hs as (_ & _ & Hk & Hm & Hp). destruct s as [v [p c k m]]. cbn [fr stack mem contract] in *.
  uncons Hlen; words Hs; cbn [covered] in Hcov. go. apply wp_query. intros w code E. go. cbn [vm with_stack] in E.
  destruct (getDataPadded_ok (octets code) i1 (U256.l0 i2)) as (b & Eb & Hb); [apply octets_ok | assumption | apply Hw2|].
  destruct (MemSet_ok m (U256.l0 i0) (U256.l0 i2) b Hm Hb (covers_cases _ _ _ Hw0 Hw2 Hcov)) as (m' & E' & Hm' & _).
  eapply wp_orPanic; [exact Eb | go]. eapply wp_memSet; [exact E' | go].
  refine (plain EXTCODECOPY _ w _ _ _ _ Hs _ _ _ _ _ _); cbn [pc mem stack fr fst snd stackRequirement vm db with_vm with_stack with_mem];
    [eapply GetCode_ext', E | assumption | exact Hm' | exact Hp | constructor | rewrite !len_cons; lia].
Qed.

Lemma exec_returndatacopy s : st_ok s -> 3 <= len (stack (fr s)) -> covered RETURNDATACOPY (stack (fr s)) (len (store (mem (fr s)))) ->
  wp (execute env run RETURNDATACOPY) s (exec_post RETURNDATACOPY s).
Proof.
  intros Hs Hlen Hcov. pose proof Hs as ((_ & Hrd) & _ & Hk & Hm & Hp). destruct s as [v [p c k m]]. cbn [fr stack mem contract vm] in *.
  uncons Hlen; words Hs; cbn [covered] in Hcov. unfold execute, opReturnDataCopy. go. cbn [vm with_stack].
  pose proof (U256.AddOverflow_spec i0 i1 Hw0 Hw1) as Ha. destruct (U256.AddOverflow i0 i1) as [last over] eqn:Eo. go. cbn [fst snd] in Ha.
  apply wp_guard; intros Hg; go; [apply (stopped RETURNDATACOPY _ k ErrReturnDataOutOfBounds Hs); assumption|].
  apply orb_false_elim in Hg as [Hg Hlast]. apply orb_false_elim in Hg as [-> Hu]. apply negb_false_iff in Hu. apply Z.ltb_ge in Hlast.
  destruct Ha as (Hwl & Hval & Hov). symmetry in Hov. apply Z.leb_gt in Hov.
  pose proof (U256.val_bounds i0 Hw0) as B0. pose proof (U256.val_bounds i1 Hw1) as B1. rewrite Z.mod_small in Hval by lia.
  pose proof (U256.IsUint64_l0 _ Hwl Hu) as El. rewrite (U256.IsUint64_spec _ Hwl) in Hu. apply Z.ltb_lt in Hu.
  assert (U256.l0 i0 = U256.val i0) as E0 by (apply U256.IsUint64_l0; [assumption|]; rewrite U256.IsUint64_spec by assumption; apply Z.ltb_lt; lia).
  destruct (slice_some (returnData v) (U256.l0 i0) (U256.l0 last)) as [b Eb]; [lia | lia|].
  destruct (MemSet_ok m (U256.l0 i) (U256.l0 i1) b Hm (slice_ok _ _ _ _ Eb Hrd) (covers_cases _ _ _ Hw Hw1 Hcov)) as (m' & E' & Hm' & _).
  eapply wp_orPanic; [exact Eb | go]. eapply wp_memSet; [exact E' | go].
  refine (plain_same _ _ _ _ _ _ Hs _ _ _ _ _); cbn [pc mem stack fr with_stack with_mem fst snd stackRequirement];
    [assumption | exact Hm' | exact Hp | constructor | rewrite !len_cons; lia].
Qed.

Lemma exec_store op s : op = SSTORE \/ op = TSTORE -> st_ok s -> 2 <= len (stack (fr s)) -> wp (execute env run op) s (exec_post op s).
Proof.
  intros Hop Hs Hlen. destruct s as [v [p c k m]]. cbn [fr stack] in Hlen. uncons Hlen; words Hs.
  destruct Hop as [-> | ->]; unfold execute, opStore; go; (apply wp_guard; intros Hro; go; [apply failed; exact Hs|]);
    by_written Hs; try assumption; apply evolves_once; [apply ef_store | apply ef_transient]; exact Hro.
Qed.

Lemma exec_selfdestruct s : st_ok s -> 1 <= len (stack (fr s)) -> wp (execute env run SELFDESTRUCT) s (exec_post SELFDESTRUCT s).
Proof.
  intros Hs Hlen. destruct s as [v [p c k m]]. cbn [fr stack] in Hlen. uncons Hlen; words Hs. unfold execute, opSelfDestruct. go.
  apply wp_guard; intros Hro; go; [apply failed; exact Hs|]. apply wp_query. intros w b E. cbn [vm with_stack] in E. go. cbn [vm with_stack readOnly] in Hro.
  pose proof (get_balance_ext _ _ _ _ E) as He. pose proof (SDB.get_balance_value (SDB.world (db v)) (self c)) as Hb. cbn [fr contract with_stack] in E. rewrite E in Hb. cbn [snd] in Hb.
  refine (written SELFDESTRUCT _ _ _ _ _ Hs _ _ _ _ _);
    cbn [pc mem stack fr with_stack with_vm fst snd stackRequirement vm db set_db readOnly contract];
    [| assumption | apply Hs | constructor | rewrite len_cons; lia].
  eapply ev_step; [apply ef_load, He|]. apply evolves_once. rewrite Hb, <- (proj2 (SDB.ext_same_cells _ _ He) (self c)).
  apply (ef_destruct _ (SDB.with_world (db v) w)). exact Hro.
Qed.

(** The topics of a log. *)
Lemma wp_topics n : forall s k (Q : St -> result vm_error (list Hash) -> Prop), stack (fr s) = k -> (n <= length k)%nat ->
  (forall ts, Q (with_stack s (drop n k)) (Ok ts)) ->
  wp ((fix go (n : nat) : M (list Hash) :=
    match n with
    | O => ret []
    | S n => bind pop (fun t => bind (go n) (fun ts => ret (U256.Bytes32 t :: ts)))
    end) n) s Q.
Proof.
  induction n as [|n IH]; intros s k Q Ek Hl HQ.
  - apply wp_ret. specialize (HQ []). destruct s as [v [p c kk m]]. cbn in Ek. subst kk. exact HQ.
  - destruct k as [|x k]; [cbn in Hl; lia|]. apply wp_bind. eapply wp_pop; [exact Ek|]. cbv beta iota. apply wp_bind.
    apply (IH _ k); [reflexivity | cbn in Hl; lia|]. intros ts. cbv beta iota. apply wp_ret. exact (HQ _).
Qed.

Lemma exec_log n s : 0 <= n <= 4 -> st_ok s -> n + 2 <= len (stack (fr s)) -> covered (LOG n) (stack (fr s)) (len (store (mem (fr s)))) ->
  wp (execute env run (LOG n)) s (exec_post (LOG n) s).
Proof.
  intros Hn Hs Hlen Hcov. pose proof Hs as (_ & _ & Hk & Hm & Hp). destruct s as [v [p c k m]]. cbn [fr stack mem] in *.
  destruct k as [|i [|i0 k]]; [unfold len in Hlen; cbn [length] in Hlen; lia..|]. words Hs. cbn [covered] in Hcov. rewrite !len_cons in Hlen.
  unfold execute, opLog. go. apply wp_guard; intros Hro; go; [apply failed; exact Hs|].
  apply (wp_topics _ _ k); [reflexivity | unfold len in Hlen; lia|]. intros ts. go.
  destruct (GetCopy_ok m (U256.l0 i) (U256.l0 i0) Hm (covers_cases _ _ _ Hw Hw0 Hcov)) as (b & E & Hb). eapply wp_memCopy; [exact E | go].
  refine (written (LOG n) _ _ _ _ _ Hs _ _ _ _ _);
    cbn [pc mem stack fr with_stack with_vm fst snd stackRequirement vm db set_db readOnly contract];
    [apply evolves_once, ef_log, Hro | apply Forall_drop; assumption | exact Hm | constructor |].
  rewrite !len_cons. unfold len. rewrite length_drop. unfold len in Hlen. lia.
Qed.

End Execute.
End Exec.
