(* ===== verification/EvmGas.v ===== *)
(** The price of an instruction.

    [gasCost] never panics, changes at most the access list and the refund
    counter, and when it names a price the stack holds what the instruction
    pops, the memory it touches is within the extent paid for, and the price is
    at least one more than the gas the instruction can hand out for free. *)

From stdpp Require Import base list gmap relations.
From Stdlib Require Import ZArith Lia.
From S2P Require Import Prelude RLP Common UInt256 Registry StateDB EvmData Interpreter EvmState EvmSafety EvmExec.
Local Open Scope Z_scope.
Local Open Scope go_scope.

Module Price.
Import Vm Interp Ev Safe Exec.

#[local] Existing Instance SDB.ext_preorder.

(** ** Arithmetic *)

Lemma safeAdd_spec a b c : u64_ok a -> u64_ok b -> safeAdd a b = Ok c -> c = a + b /\ u64_ok c.
Proof.
  unfold safeAdd, u64_ok. intros Ha Hb. destruct (Z.ltb_spec (a +w b) a) as [|H]; [discriminate|]. intros [= <-].
  unfold wrap64 in *. destruct (Z_lt_le_dec (a + b) two64) as [Hs|Hs]; [rewrite Z.mod_small by lia; lia|].
  exfalso. replace ((a + b) mod two64) with (a + b - two64) in H; [lia|]. apply Z.mod_unique with 1; lia.
Qed.

Lemma safeMul_ok a b c : safeMul a b = Ok c -> u64_ok c.
Proof.
  unfold safeMul. destruct (_ || _); [intros [= <-]; unfold u64_ok, two64; lia|]. destruct (negb _); [discriminate|]. intros [= <-]. apply wrap64_ok.
Qed.

Lemma wordCopyGas_ok z c : wordCopyGas z = Ok c -> u64_ok c.
Proof. unfold wordCopyGas. destruct (U256.IsZero z); [intros [= <-]; unfold u64_ok, two64; lia|]. destruct (negb _); [discriminate | apply safeMul_ok]. Qed.

(** ** Memory *)

Lemma memoryExtent_spec o z e : U256.wf o -> U256.wf z -> memoryExtent o z = Ok e -> u64_ok e /\ forall L, e <= L -> covers L o z.
Proof.
  intros (Ho & _) (Hz & _). unfold memoryExtent, covers. destruct (U256.IsZero z); [intros [= <-]; split; [unfold u64_ok, two64; lia | auto]|].
  destruct (U256.IsUint64 o), (U256.IsUint64 z); cbn [negb orb]; try discriminate.
  intros H. apply safeAdd_spec in H as [-> H]; [|assumption..]. split; [exact H | auto].
Qed.

Lemma memoryGasCost_spec m e fee m' : mem_ok m -> memoryGasCost m e = Ok (fee, m') -> u64_ok fee /\ mem_ok m' /\ store m' = store m /\ e <= max_extent.
Proof.
  intros Hm. unfold memoryGasCost. destruct (Z.eqb_spec e 0) as [->|]; [intros [= <- <-]; unfold u64_ok, two64, max_extent; split; [lia|]; auto with lia|].
  destruct (Z.ltb_spec 137438953440 e); [discriminate|].
  destruct (_ <=? lastGasCost m); intros [= <- <-]; (split; [first [apply wrap64_ok | unfold u64_ok, two64; lia]|]); [split; [exact Hm | auto]|].
  split; [|auto]. destruct Hm as (H1 & _ & H3). split_and!; auto. apply wrap64_ok.
Qed.

Section Price.
Context `{K : Keccak} `{TS : TrieStore}.

Lemma eta_vm (v : VM) : set_db v (db v) = v.
Proof. destruct v; reflexivity. Qed.

(** ** Dynamic cost *)

Definition least (op : OpCode) (k : Stack) : Z :=
  match op with
  | STOP | RETURN | REVERT | SELFDESTRUCT | INVALID | UNDEFINED _ => 0
  | _ => 1 + bonus op k
  end.

(** The state with some of its database replaced. *)
Definition evolved (s : St) (s' : St) : Prop :=
  exists d, s' = mkSt (set_db (vm s) d) (fr s) /\ evolves (readOnly (vm s)) (db (vm s)) d.

Lemma evolved_refl s : evolved s s.
Proof. exists (db (vm s)). rewrite eta_vm. split; [destruct s; reflexivity | constructor]. Qed.

Lemma evolved_trans s s1 s2 : evolved s s1 -> evolved s1 s2 -> evolved s s2.
Proof. intros (d1 & -> & H1) (d2 & -> & H2). exists d2. split; [reflexivity|]. cbn [vm set_db readOnly db] in H2. etransitivity; eassumption. Qed.

Lemma evolved_once s d : effect (readOnly (vm s)) (db (vm s)) d -> evolved s (with_vm s (set_db (vm s) d)).
Proof. intros H. exists d. split; [reflexivity | apply evolves_once, H]. Qed.

Lemma evolved_frame s s' : evolved s s' -> fr s' = fr s /\ readOnly (vm s') = readOnly (vm s).
Proof. intros (d & -> & _). auto. Qed.

Definition charged (s : St) (lo : Z) (s' : St) (r : result vm_error Z) : Prop :=
  evolved s s' /\ forall g, r = Ok g -> lo <= g /\ u64_ok g.

Lemma charged_err s lo s' e : evolved s s' -> charged s lo s' (Err e).
Proof. intros H. split; [exact H | discriminate]. Qed.

Lemma charged_ok s lo s' g : evolved s s' -> lo <= g -> u64_ok g -> charged s lo s' (Ok g).
Proof. intros H Hl Hg. split; [exact H|]. intros g' [= <-]. auto. Qed.

Lemma charged_any s s' r : evolved s s' -> (forall g, r = Ok g -> u64_ok g) -> charged s 0 s' r.
Proof. intros H Hg. split; [exact H|]. intros g E. specialize (Hg g E). split; [apply Hg | exact Hg]. Qed.

Lemma query_evolved {A} (f : SDB.World -> SDB.World * A) s (Q : St -> result vm_error A -> Prop) :
  (forall w w' a, f w = (w', a) -> SDB.ext w w') -> (forall s' a, evolved s s' -> Q s' (Ok a)) -> wp (query f) s Q.
Proof. intros Hf HQ. apply wp_query. intros w a E. apply HQ, evolved_once, ef_load, (Hf _ _ _ E). Qed.

Lemma access_wp a s (Q : St -> result vm_error Z -> Prop) :
  (forall s' g, evolved s s' -> GasWarmStorageRead <= g <= GasColdAccountAccess -> Q s' (Ok g)) -> wp (accountAccessGas a) s Q.
Proof.
  intros HQ. unfold accountAccessGas. go. destruct (SDB.AddressInAccessList _ _); go; apply HQ; try (unfold GasWarmStorageRead, GasColdAccountAccess; lia).
  - apply evolved_refl.
  - apply evolved_once, ef_warm.
Qed.

Lemma touch_wp a k s (Q : St -> result vm_error bool -> Prop) : (forall s' b, evolved s s' -> Q s' (Ok b)) -> wp (touchSlot a k) s Q.
Proof. intros HQ. unfold touchSlot. go. apply HQ, evolved_once, ef_warm_slot. Qed.

Lemma sstoreGas_ok o c v cold : GasWarmStorageRead <= fst (sstoreGas o c v cold) <= 30000.
Proof. unfold sstoreGas, GasColdSloadCost, GasWarmStorageRead, GasSstoreSet, GasSstoreReset. repeat case_match; cbn [fst]; lia. Qed.

Lemma small_u64 g : 0 <= g <= 100000 -> u64_ok g.
Proof. unfold u64_ok, two64. lia. Qed.

Lemma sstore_charged s x y k : stack (fr s) = x :: y :: k -> wp sstoreDynamic s (charged s GasWarmStorageRead).
Proof.
  intros Ek. unfold sstoreDynamic. go. apply wp_guard; intros Hro; go; [apply charged_err, evolved_refl|].
  apply wp_guard; intros Hg; go; [apply charged_err, evolved_refl|]. eapply wp_item; [rewrite Ek; reflexivity | go].
  eapply wp_item; [rewrite Ek; reflexivity | go]. apply touch_wp. intros s1 b H1. go.
  apply query_evolved; [intros *; apply GetCommittedState_ext'|]. intros s2 original H2. go.
  apply query_evolved; [intros *; apply get_state_ext'|]. intros s3 current H3. go.
  pose proof (sstoreGas_ok original current (U256.Bytes32 y) (negb b)) as Hc. destruct (sstoreGas _ _ _ _) as [cost refund]. cbn [fst] in Hc.
  assert (evolved s s3) as H by eauto using evolved_trans. pose proof (proj2 (evolved_frame _ _ H)) as Hr. rewrite Hro in Hr.
  assert (forall s', evolved s3 s' -> charged s GasWarmStorageRead s' (Ok cost)) as Hend.
  { intros s' H4. apply charged_ok; [eauto using evolved_trans | lia | apply small_u64; unfold GasWarmStorageRead in Hc; lia]. }
  cbv beta iota. destruct (0 <? refund); [go; apply Hend, evolved_once, ef_add_refund, Hr|].
  destruct (refund <? 0); go; apply Hend; [apply evolved_once, ef_sub_refund, Hr | apply evolved_refl].
Qed.

Lemma log_charged n s x y k : stack (fr s) = x :: y :: k -> wp (logDynamic n) s (charged s 0).
Proof.
  intros Ek. unfold logDynamic. go. apply wp_guard; intros Hro; go; [apply charged_err, evolved_refl|].
  eapply wp_item; [rewrite Ek; reflexivity | go]. apply wp_guard; intros Hz; go; [apply charged_err, evolved_refl|].
  destruct (safeMul (U256.l0 y) _) as [a|e] eqn:Ea; [|apply charged_err, evolved_refl]. go.
  destruct (safeMul n _) as [b|e] eqn:Eb; [|apply charged_err, evolved_refl]. go.
  apply charged_any; [apply evolved_refl|]. intros g Hg. eapply safeAdd_spec; [eapply safeMul_ok, Ea | eapply safeMul_ok, Eb | exact Hg].
Qed.

Lemma create_charged b s x y z k : stack (fr s) = x :: y :: z :: k -> wp (createDynamic b) s (charged s 0).
Proof.
  intros Ek. unfold createDynamic. go. apply wp_guard; intros Hro; go; [apply charged_err, evolved_refl|].
  eapply wp_item; [rewrite Ek; reflexivity | go]. apply wp_guard; intros Hz; go; [apply charged_err, evolved_refl|].
  apply wp_guard; intros Hm; go; [apply charged_err, evolved_refl|].
  destruct (safeMul _ GasInitCodeWord) as [a|e] eqn:Ea; [|apply charged_err, evolved_refl]. destruct b; go.
  - destruct (safeMul _ GasKeccakWord) as [c|e] eqn:Ec; [|apply charged_err, evolved_refl]. go.
    apply charged_any; [apply evolved_refl|]. intros g Hg. eapply safeAdd_spec; [eapply safeMul_ok, Ea | eapply safeMul_ok, Ec | exact Hg].
  - apply charged_any; [apply evolved_refl|]. intros g [= <-]. eapply safeMul_ok, Ea.
Qed.

Lemma call_charged s x y z k : stack (fr s) = x :: y :: z :: k -> wp callDynamic s (charged s (1 + bonus CALL (x :: y :: z :: k))).
Proof.
  intros Ek. unfold callDynamic. eapply wp_bind, wp_item; [rewrite Ek; reflexivity | go]. eapply wp_item; [rewrite Ek; reflexivity | go].
  apply wp_guard; intros Hro; go; [apply charged_err, evolved_refl|]. apply access_wp. intros s1 g H1 Hg. cbv beta iota.
  unfold GasWarmStorageRead, GasColdAccountAccess, GasCallStipend in *. cbn [bonus]. destruct (U256.IsZero z); cbn [negb].
  - go. apply charged_ok; [exact H1 | lia | apply small_u64; lia].
  - go. destruct (safeAdd g GasCallValue) as [g1|e] eqn:E1; [|apply charged_err, H1].
    apply safeAdd_spec in E1 as [-> E1]; [|apply small_u64; lia | apply small_u64; unfold GasCallValue; lia]. unfold GasCallValue in *.
    go. apply query_evolved; [intros *; apply Exist_ext|]. intros s2 found H2. assert (evolved s s2) as H by eauto using evolved_trans.
    unfold GasCallStipend. destruct found; cbn [negb]; go; [apply charged_ok; [exact H | lia | exact E1]|].
    destruct (safeAdd (g + 9000) GasNewAccount) as [g2|e] eqn:E2; [|apply charged_err, H].
    apply safeAdd_spec in E2 as [-> E2]; [|exact E1 | apply small_u64; unfold GasNewAccount; lia]. apply charged_ok; [exact H | unfold GasNewAccount; lia | exact E2].
Qed.

Lemma callcode_charged s x y z k : stack (fr s) = x :: y :: z :: k -> wp (dynamicGas CALLCODE) s (charged s (1 + bonus CALLCODE (x :: y :: z :: k))).
Proof.
  intros Ek. unfold dynamicGas. eapply wp_bind, wp_item; [rewrite Ek; reflexivity | go]. apply access_wp. intros s1 g H1 Hg. go.
  eapply wp_item; [rewrite (proj1 (evolved_frame _ _ H1)), Ek; reflexivity | go].
  unfold GasWarmStorageRead, GasColdAccountAccess, GasCallStipend in *. cbn [bonus]. destruct (U256.IsZero z); cbn [negb]; go.
  - apply charged_ok; [exact H1 | lia | apply small_u64; lia].
  - destruct (safeAdd g GasCallValue) as [g1|e] eqn:E1; [|apply charged_err, H1].
    apply safeAdd_spec in E1 as [-> E1]; [|apply small_u64; lia | apply small_u64; unfold GasCallValue; lia]. unfold GasCallValue, GasCallStipend in *.
    apply charged_ok; [exact H1 | lia | exact E1].
Qed.

Lemma selfdestruct_charged s x k : stack (fr s) = x :: k -> wp selfDestructDynamic s (charged s 0).
Proof.
  intros Ek. unfold selfDestructDynamic. go. apply wp_guard; intros Hro; go; [apply charged_err, evolved_refl|].
  eapply wp_item; [rewrite Ek; reflexivity | go].
  assert (forall s1 g, evolved s s1 -> 0 <= g <= 2600 ->
    wp (bind (query (fun w => SDB.Empty w (addressOf x))) (fun empty => if empty : bool then
      bind selfAddress (fun addr => bind (query (fun w => SDB.get_balance w addr)) (fun balance => ret (if negb (balance =? 0) then g +w GasNewAccount else g)))
      else ret g)) s1 (charged s 0)) as Hend.
  { intros s1 g H1 Hg. apply wp_bind, query_evolved; [intros *; apply Empty_ext|]. intros s2 empty H2. destruct empty; go.
    - apply query_evolved; [intros *; apply get_balance_ext|]. intros s3 b H3. go. apply charged_any; [eauto using evolved_trans|].
      intros g' [= <-]. destruct (negb _); [apply wrap64_ok | apply small_u64; lia].
    - apply charged_any; [eauto using evolved_trans|]. intros g' [= <-]. apply small_u64; lia. }
  destruct (SDB.AddressInAccessList _ _); cbn [negb];
    [apply wp_ret | apply wp_bind, wp_change, wp_ret]; apply Hend; try (unfold GasColdAccountAccess; lia); [apply evolved_refl | apply evolved_once, ef_warm].
Qed.


Definition dyn_least (op : OpCode) (k : Stack) : Z :=
  match op with
  | BALANCE | EXTCODESIZE | EXTCODEHASH | EXTCODECOPY | SLOAD | DELEGATECALL | STATICCALL => 1
  | SSTORE => GasWarmStorageRead
  | CALL | CALLCODE => 1 + bonus op k
  | _ => 0
  end.

Lemma least_split op k b : baseGas op = Some b -> least op k <= b + dyn_least op k /\ 0 <= b <= 100000.
Proof.
  destruct op; intros [= <-]; cbn [least dyn_least bonus]; unfold GasLog, GasCreate, GasWarmStorageRead, GasCallStipend;
    try (split; lia); repeat case_match; lia.
Qed.

Lemma access_charged s a : wp (accountAccessGas a) s (charged s 1).
Proof.
  apply access_wp. intros s1 g H1 Hg. unfold GasWarmStorageRead, GasColdAccountAccess in *. apply charged_ok; [exact H1 | lia | apply small_u64; lia].
Qed.

Lemma dynamic_charged op s : st_ok s -> valid op -> fst (stackRequirement op) <= len (stack (fr s)) -> wp (dynamicGas op) s (charged s (dyn_least op (stack (fr s)))).
Proof.
  intros Hs Hv Hlen. destruct s as [v [p c k m]]. cbn [fr stack] in *.
  assert (charged (mkSt v (mkFrame p c k m)) 0 (mkSt v (mkFrame p c k m)) (Ok 0)) as Hzero by (apply charged_ok; [apply evolved_refl | lia | apply small_u64; lia]).
  destruct op; try (apply wp_ret; exact Hzero);
    lazymatch goal with
    | |- wp (dynamicGas (LOG _)) _ _ => cbn [stackRequirement fst] in Hlen; cbn [valid] in Hv; assert (2 <= len k) by lia; clear Hlen; rename H into Hlen
    | _ => idtac
    end; uncons Hlen; words Hs;
    try (eapply sstore_charged; reflexivity); try (eapply log_charged; reflexivity); try (eapply create_charged; reflexivity);
    try (eapply call_charged; reflexivity); try (eapply callcode_charged; reflexivity); try (eapply selfdestruct_charged; reflexivity);
    unfold dynamicGas; cbn [dyn_least]; go; try apply access_charged.
  all: try (apply charged_any; [apply evolved_refl|]; intros g Hg; eapply wordCopyGas_ok, Hg).
  - destruct (U256.IsZero i0); go; [exact Hzero|]. apply charged_any; [apply evolved_refl|]. intros g. apply safeMul_ok.
  - apply wp_guard; intros _; go; [apply charged_err, evolved_refl|]. apply charged_any; [apply evolved_refl|]. intros g. apply safeMul_ok.
  - destruct (wordCopyGas i2) as [a|e] eqn:Ea; go; [|apply charged_err, evolved_refl]. apply access_wp. intros s1 g H1 Hg. go.
    unfold GasWarmStorageRead, GasColdAccountAccess in Hg. apply wordCopyGas_ok in Ea. split; [exact H1|]. intros g' E.
    apply safeAdd_spec in E as [-> E]; [|exact Ea | apply small_u64; lia]. destruct Ea. split; [lia | exact E].
  - apply touch_wp. intros s1 b H1. go. destruct b; apply charged_ok; auto; try apply small_u64; unfold GasWarmStorageRead, GasColdSloadCost; lia.
  - apply wp_guard; intros _; go; [apply charged_err, evolved_refl | exact Hzero].
Qed.

(** ** The extent of memory *)

(** [m] reads the stack only, and names an extent with property [R]. *)
Definition sized (s : St) (R : Z -> Prop) (m : M Z) : Prop :=
  wp m s (fun s' r => s' = s /\ forall e, r = Ok e -> u64_ok e /\ forall L, e <= L -> R L).

Lemma extentAt_sized s i j o z : st_ok s -> stack (fr s) !! i = Some o -> stack (fr s) !! j = Some z -> sized s (fun L => covers L o z) (extentAt i j).
Proof.
  intros (_ & _ & Hk & _) Ho Hz. unfold sized, extentAt. eapply wp_bind, wp_item; [exact Ho|]. cbv beta iota. eapply wp_bind, wp_item; [exact Hz|]. go.
  split; [reflexivity|]. intros e. apply memoryExtent_spec; rewrite Forall_lookup in Hk; eauto.
Qed.

Lemma wordExtent_sized s o k n : st_ok s -> stack (fr s) = o :: k -> 0 <= n <= 32 -> sized s (fun L => covers_fixed L o n) (wordExtent n).
Proof.
  intros (_ & _ & Hk & _) Ho Hn. unfold sized, wordExtent. eapply wp_bind, wp_item; [rewrite Ho; reflexivity|]. go.
  apply wp_guard; intros Hu; go; (split; [reflexivity|]); [discriminate|]. apply negb_false_iff in Hu. intros e E.
  rewrite Ho in Hk. apply Forall_cons_1 in Hk as [(H0 & _) _]. apply safeAdd_spec in E as [-> E]; [|exact H0 | apply small_u64; lia].
  split; [exact E|]. intros L HL. split; assumption.
Qed.

Lemma twoExtents_sized s i j i' j' o z o' z' : st_ok s ->
  stack (fr s) !! i = Some o -> stack (fr s) !! j = Some z -> stack (fr s) !! i' = Some o' -> stack (fr s) !! j' = Some z' ->
  sized s (fun L => covers L o z /\ covers L o' z') (twoExtents i j i' j').
Proof.
  intros Hs Ho Hz Ho' Hz'. unfold sized, twoExtents. apply wp_bind. eapply wp_mono; [apply (extentAt_sized s i j o z Hs Ho Hz)|]. cbv beta.
  intros s1 [a|e] [-> Ha]; [|split; [reflexivity | discriminate]]. destruct (Ha a eq_refl) as [Ua Ca]. apply wp_bind.
  eapply wp_mono; [apply (extentAt_sized s i' j' o' z' Hs Ho' Hz')|]. cbv beta.
  intros s1 [b|e] [-> Hb]; [|split; [reflexivity | discriminate]]. destruct (Hb b eq_refl) as [Ub Cb]. go. split; [reflexivity|].
  intros e [= <-]. rewrite max64_spec. unfold u64_ok in *. split; [lia|]. intros L HL. split; [apply Ca | apply Cb]; lia.
Qed.

Lemma memory_sized op s : st_ok s -> valid op -> fst (stackRequirement op) <= len (stack (fr s)) -> sized s (covered op (stack (fr s))) (memoryNeeded op).
Proof.
  intros Hs Hv Hlen. assert (sized s (fun _ => True) (ret 0)) as Hzero.
  { apply wp_ret. split; [reflexivity|]. intros e [= <-]. split; [apply small_u64; lia | auto]. }
  destruct s as [v [p c k m]]. cbn [fr stack] in *.
  destruct op; try exact Hzero;
    lazymatch goal with
    | |- sized _ _ (memoryNeeded (LOG _)) => cbn [stackRequirement fst] in Hlen; cbn [valid] in Hv; assert (2 <= len k) by lia; clear Hlen; rename H into Hlen
    | _ => idtac
    end; uncons Hlen; unfold memoryNeeded; cbn [covered];
    try (eapply extentAt_sized; [exact Hs | reflexivity | reflexivity]); try (eapply twoExtents_sized; [exact Hs | reflexivity..]);
    (eapply wordExtent_sized; [exact Hs | reflexivity | lia]).
Qed.

(** ** The price *)

Definition paid (s s' : St) : Prop :=
  st_ok s' /\ keep s s' /\ contract (fr s') = contract (fr s) /\ stack (fr s') = stack (fr s) /\ pc (fr s') = pc (fr s) /\
  store (mem (fr s')) = store (mem (fr s)).

Definition priced (op : OpCode) (s s' : St) (r : result vm_error (Z * Z)) : Prop :=
  paid s s' /\ forall cost extent, r = Ok (cost, extent) ->
    least op (stack (fr s)) <= cost /\ u64_ok cost /\ 0 <= extent <= max_extent /\
    (forall L, extent <= L -> covered op (stack (fr s)) L) /\
    fst (stackRequirement op) <= len (stack (fr s)) /\
    len (stack (fr s)) - fst (stackRequirement op) + snd (stackRequirement op) <= StackLimit.

Lemma paid_refl s : st_ok s -> paid s s.
Proof. intros H. split; [exact H|]. split; [apply keep_refl | auto]. Qed.

Lemma paid_memory s m : st_ok s -> mem_ok m -> store m = store (mem (fr s)) -> paid s (with_mem s m).
Proof.
  intros (Hv & Hc & Hk & Hm & Hp) Hm' Es. split; [split_and!; assumption|]. split; [split; [apply vm_keep_refl | reflexivity] | auto].
Qed.

Lemma paid_evolved s s1 s' : st_ok s1 -> paid s s1 -> evolved s1 s' -> paid s s'.
Proof.
  intros (Hv & Hc & Hk & Hm & Hp) (Hs & Hkeep & E1 & E2 & E3 & E4) (d & -> & Hev). split; [|split]; [| |auto].
  - split; [split; [eapply evolves_inv; [exact Hev | apply Hv] | apply Hv] | auto].
  - eapply keep_trans; [exact Hkeep|]. split; [apply vm_keep_db, Hev | reflexivity].
Qed.

Lemma payMemory_spec s base e : st_ok s -> 0 <= base <= 100000 -> u64_ok e ->
  wp (payMemory base e) s (fun s' r => paid s s' /\ forall cost, r = Ok cost -> base <= cost /\ u64_ok cost /\ e <= max_extent).
Proof.
  intros Hs Hb He. unfold payMemory. destruct (Z.ltb_spec 0 e) as [Hpos|Hz].
  - go. destruct (memoryGasCost (mem (fr s)) e) as [[fee m]|err] eqn:E; [|split; [apply paid_refl, Hs | discriminate]].
    apply memoryGasCost_spec in E as (Hf & Hm & Es & Hmax); [|apply Hs]. go. split; [apply paid_memory; assumption|].
    intros cost Ec. apply safeAdd_spec in Ec as [-> Ec]; [|apply small_u64; lia | exact Hf]. unfold u64_ok in Hf. split; [lia | auto].
  - go. split; [apply paid_refl, Hs|]. intros cost [= <-]. split; [lia|]. split; [apply small_u64; lia | unfold max_extent; lia].
Qed.

Lemma gasCost_priced op s : st_ok s -> valid op -> wp (gasCost op) s (priced op s).
Proof.
  intros Hs Hv. unfold gasCost. destruct (stackRequirement op) as [pops pushes] eqn:Er. go. unfold checkLimits.
  assert (forall s' e, paid s s' -> priced op s s' (Err e)) as Herr by (intros s' e H; split; [exact H | discriminate]).
  destruct (Z.ltb_spec (len (stack (fr s))) pops); [apply Herr, paid_refl, Hs|].
  destruct (Z.ltb_spec StackLimit (len (stack (fr s)) - pops + pushes)); [apply Herr, paid_refl, Hs|].
  assert (fst (stackRequirement op) <= len (stack (fr s))) as Hpops by (rewrite Er; assumption).
  destruct (baseGas op) as [base|] eqn:Eb; [|go; apply Herr, paid_refl, Hs].
  destruct (least_split op (stack (fr s)) base Eb) as [Hl Hb]. apply wp_bind. eapply wp_mono; [apply (memory_sized op s Hs Hv Hpops)|]. cbv beta.
  intros s1 [e|err] [-> He]; [|apply Herr, paid_refl, Hs]. destruct (He e eq_refl) as [Hu Hcov]. apply wp_bind.
  eapply wp_mono; [apply (payMemory_spec s base e Hs Hb Hu)|]. cbv beta. intros s1 [cost|err] [Hp Hc]; [|apply Herr, Hp].
  destruct (Hc cost eq_refl) as (Hc1 & Hc2 & Hc3). pose proof Hp as (Hs1 & _ & _ & Ek & _). apply wp_bind.
  eapply wp_mono; [apply (dynamic_charged op s1 Hs1 Hv); rewrite Ek; exact Hpops|]. rewrite Ek. intros s2 r [H2 Hd].
  assert (paid s s2) as Hp2 by (eapply paid_evolved; eassumption).
  destruct r as [g|err]; [|apply Herr, Hp2]. destruct (Hd g eq_refl) as [Hg1 Hg2]. go.
  destruct (safeAdd cost g) as [total|err] eqn:Et; [|apply Herr, Hp2]. go. apply safeAdd_spec in Et as [-> Et]; [|assumption..].
  split; [exact Hp2|]. intros c' e' [= <- <-]. rewrite Er. unfold u64_ok in Hu. split; [lia|]. split; [exact Et|]. split; [lia|]. auto.
Qed.

End Price.
End Price.
