(* ===== verification/EvmCalls.v ===== *)
(** Calls and creations keep the invariant of the machine.

    A call that fails leaves the state as its snapshot found it, one that
    succeeds evolves it; the gas that comes back is never more than was given. *)

From stdpp Require Import base list gmap relations.
From Stdlib Require Import ZArith Lia.
From S2P Require Import Prelude RLP Common UInt256 Registry StateDB EvmData Interpreter EvmState EvmSafety EvmExec.
Local Open Scope Z_scope.
Local Open Scope go_scope.

Module Calls.
Import Vm Interp Ev Safe Exec.

#[local] Existing Instance SDB.ext_preorder.

Section Calls.
Context `{K : Keccak} `{TS : TrieStore} `{P : Precompiles}.
Variable env : Env.
Variable run : VM -> Contract -> bytes -> bool -> result fault (VM * Contract * bytes * option vm_error).

(** Frames of up to [n - 1] gas can be run from depth [low] on. *)
Variable n low : Z.

Definition run_post (v : VM) (c : Contract) (static : bool) (v' : VM) (c' : Contract) (out : bytes) : Prop :=
  vm_ok v' /\ bytes_ok out /\ 0 <= Gas c' <= Gas c /\ vm_keep (readOnly v || static) v v'.

Definition run_ok : Prop := forall v c input static, vm_ok v -> contract_ok c -> bytes_ok input -> low <= depth v <= MaxCallDepth -> Gas c < n ->
  exists v' c' out err, run v c input static = Ok (v', c', out, err) /\ run_post v c static v' c' out.

Hypothesis Hrun : run_ok.

(** What a call leaves behind: [failed] calls leave the state alone. *)
Definition call_post (v : VM) (gas : Z) (v' : VM) (out : bytes) (gas' : Z) (err : option vm_error) : Prop :=
  vm_ok v' /\ bytes_ok out /\ 0 <= gas' <= gas /\ vm_keep (readOnly v) v v' /\
  (err <> None -> SDB.ext (SDB.world (db v)) (SDB.world (db v'))).

(** ** Snapshots around a call *)

Definition same_flags (v v' : VM) : Prop :=
  depth v' = depth v /\ readOnly v' = readOnly v /\ evmReadOnly v' = evmReadOnly v /\ abort v' = abort v.

Lemma settle_ok ro s0 v out gas err : SDB.inv s0 -> bytes_ok (returnData v) -> evolves ro (fst (SDB.Snapshot s0)) (db v) -> bytes_ok out -> 0 <= gas ->
  exists v' gas', settle v (snd (SDB.Snapshot s0)) out gas err = Ok (v', out, gas', err) /\
    vm_ok v' /\ evolves ro s0 (db v') /\ same_flags v v' /\ 0 <= gas' <= gas /\ (err <> None -> SDB.ext (SDB.world s0) (SDB.world (db v'))).
Proof.
  intros Hi Hr Hev Ho Hg. unfold settle. destruct err as [e|].
  - destruct (evolves_revert _ _ _ Hi Hev) as (d & Er & Hid & He & _). rewrite Er. eexists _, _. split; [reflexivity|].
    split; [split; assumption|]. split; [eapply ev_undone; [exact Hev | exact Er | constructor]|].
    split; [split_and!; reflexivity|]. split; [destruct (is_reverted e); lia | auto].
  - eexists _, _. split; [reflexivity|].
    split; [split; [|exact Hr]; eapply evolves_inv; [exact Hev | apply SDB.snapshot_inv, Hi]|].
    split; [eapply ev_call; [exact Hev | constructor]|]. split; [split_and!; reflexivity|]. split; [lia | congruence].
Qed.

Lemma precompile_ok addr p input gas out gas' err : precompile addr = Some p -> bytes_ok input -> 0 <= gas -> runPrecompile p input gas = (out, gas', err) ->
  bytes_ok out /\ 0 <= gas' <= gas.
Proof.
  intros Hp Hin Hg. unfold runPrecompile. pose proof (RequiredGas_ok _ _ input Hp Hin) as [H0 _].
  destruct (Z.ltb_spec gas (RequiredGas p input)); [intros [= <- <- <-]; split; [constructor | lia]|].
  destruct (PrecompileRun p input) as [b|] eqn:E; intros [= <- <- <-]; (split; [|lia]); [eapply PrecompileRun_ok; eassumption | constructor].
Qed.

Lemma run_code_ok v c code input static : vm_ok v -> contract_ok c -> bytes_ok code /\ len code <= max_int64 -> bytes_ok input ->
  low <= depth v <= MaxCallDepth -> Gas c < n ->
  exists v' out gas' err, run_code run v c code input static = Ok (v', out, gas', err) /\
    vm_ok v' /\ bytes_ok out /\ 0 <= gas' <= Gas c /\ vm_keep (readOnly v || static) v v'.
Proof.
  intros Hv (Hc1 & Hc2 & Hc3 & Hc4) Hcode Hin Hd Hg.
  destruct (Hrun v (with_input (SetCallCode c code) input) input static Hv) as (v' & c' & out & err & E & H1 & H2 & H3 & H4); auto.
  { split_and!; auto; apply Hcode. }
  unfold run_code. rewrite E. cbn [rbind]. eexists _, _, _, _. split; [reflexivity|]. auto.
Qed.

Lemma vm_query_ok {A} v (f : SDB.World -> SDB.World * A) : (forall w a, f (SDB.world (db v)) = (w, a) -> SDB.ext (SDB.world (db v)) w) ->
  exists w a, vm_query v f = (set_db v (SDB.with_world (db v) w), a) /\ f (SDB.world (db v)) = (w, a) /\ SDB.ext (SDB.world (db v)) w.
Proof. intros H. unfold vm_query. destruct (f _) as [w a] eqn:E. eauto 10. Qed.

Lemma new_contract_ok caller object value gas : U256.wf (default U256.zero value) -> u64_ok gas -> contract_ok (NewContract caller object value gas).
Proof.
  intros Hv Hg. split; [split; [constructor | unfold len, max_int64; cbn [NewContract Code length]; lia]|]. split; [constructor|]. split; assumption.
Qed.

(** ** The calls without a transfer *)

Lemma call_in_ok v frame addr input gas static : vm_ok v -> (forall c, frame = Some c -> contract_ok c /\ Gas c = gas) -> frame <> None ->
  bytes_ok input -> u64_ok gas -> low <= depth v <= MaxCallDepth -> gas < n ->
  exists v' out gas' err, call_in run v frame addr input gas static = Ok (v', out, gas', err) /\ call_post v gas v' out gas' err /\
    vm_keep (readOnly v || static) v v'.
Proof.
  intros [Hi Hr] Hf Hne Hin Hg Hd Hn. unfold call_in. cbn [SDB.Snapshot].
  set (v1 := set_db v _). set (s1 := fst (SDB.Snapshot (db v))).
  assert (vm_ok v1) as Hv1 by (split; [apply SDB.snapshot_inv, Hi | exact Hr]).
  assert (forall v2 out gas2 err, evolves (readOnly v || static) s1 (db v2) -> same_flags v v2 -> bytes_ok (returnData v2) -> bytes_ok out -> 0 <= gas2 <= gas ->
    exists v' out' gas' err', settle v2 (SDB.nextRevID (db v)) out gas2 err = Ok (v', out', gas', err') /\ call_post v gas v' out' gas' err' /\
      vm_keep (readOnly v || static) v v') as Hend.
  { intros v2 out gas2 err Hev (F1 & F2 & F3 & F4) Hr2 Ho Hg2.
    destruct (settle_ok _ (db v) v2 out gas2 err Hi Hr2 Hev Ho) as (v' & gas' & E & H1 & H2 & (G1 & G2 & G3 & G4) & H4 & H5); [lia|].
    exists v', out, gas', err. split; [exact E|].
    assert (vm_keep (readOnly v || static) v v') as Hk by (split; [exact H2 | split_and!; congruence]). split; [|exact Hk].
    split; [exact H1|]. split; [exact Ho|]. split; [lia|]. split; [|exact H5]. split; [|apply Hk].
    destruct (readOnly v), static; cbn [orb] in H2; auto using evolves_weaken. }
  destruct (precompile addr) as [p|] eqn:Ep.
  - destruct (runPrecompile p input gas) as [[out gas2] err] eqn:Er. destruct (precompile_ok _ _ _ _ _ _ _ Ep Hin (proj1 Hg) Er) as [Ho Hg2].
    apply Hend; auto; [constructor | split_and!; reflexivity].
  - destruct frame as [c|]; [|contradiction]. destruct (Hf c eq_refl) as [Hc Hgc].
    destruct (vm_query_ok v1 (fun w => SDB.GetCode w addr)) as (w & code & -> & _ & He); [intros w a; apply GetCode_ext'|]. cbv beta iota.
    set (v2 := set_db v1 _).
    assert (evolves (readOnly v || static) s1 (db v2)) as Hev by (apply evolves_once, (ef_load _ s1), He).
    assert (vm_ok v2) as Hv2 by (split; [eapply evolves_inv; [exact Hev | apply Hv1] | exact Hr]).
    destruct (run_code_ok v2 c (octets code) input static Hv2 Hc (octets_ok code) Hin Hd) as (v3 & out & gas3 & err & -> & H1 & H2 & H3 & H4); [lia|].
    cbn [rbind]. destruct H4 as (Hev3 & F1 & F2 & F3 & F4). apply Hend; auto; try (split_and!; assumption); [| apply H1 | lia].
    etransitivity; [exact Hev | exact Hev3].
Qed.

Lemma depth_limit v gas : vm_ok v -> 0 <= gas -> call_post v gas v [] gas (Some ErrDepthLimit).
Proof. intros Hv Hg. split; [exact Hv|]. split; [constructor|]. split; [lia|]. split; [apply vm_keep_refl | reflexivity]. Qed.

Lemma CanTransfer_spec d a x : exists w, CanTransfer d a x = (SDB.with_world d w, x <=? SDB.balance_at (SDB.world d) a) /\ SDB.ext (SDB.world d) w.
Proof.
  unfold CanTransfer. pose proof (SDB.get_balance_value (SDB.world d) a) as Hb. destruct (SDB.get_balance _ _) as [w b] eqn:E. cbn [snd] in Hb. subst b.
  exists w. split; [reflexivity | eapply get_balance_ext, E].
Qed.

(** The test before a transfer: it only loads. *)
Lemma afford_spec v a x : vm_ok v -> exists d, (if negb (x =? 0) then CanTransfer (db v) a x else (db v, true)) =
    (d, (x =? 0) || (x <=? SDB.balance_at (SDB.world (db v)) a)) /\
  evolves true (db v) d /\ SDB.ext (SDB.world (db v)) (SDB.world d) /\ vm_ok (set_db v d).
Proof.
  intros [Hi Hr]. destruct (Z.eqb_spec x 0) as [->|Hx]; cbn [negb orb].
  - exists (db v). split; [reflexivity|]. split; [constructor|]. split; [reflexivity | split; assumption].
  - destruct (CanTransfer_spec (db v) a x) as (w & -> & He). eexists. split; [reflexivity|].
    assert (evolves true (db v) (SDB.with_world (db v) w)) as Hev by (apply evolves_once, ef_load, He).
    split; [exact Hev|]. split; [exact He|]. split; [eapply evolves_inv; eassumption | exact Hr].
Qed.

Lemma call_post_load v d gas v' out gas' err : evolves true (db v) d -> SDB.ext (SDB.world (db v)) (SDB.world d) ->
  call_post (set_db v d) gas v' out gas' err -> call_post v gas v' out gas' err.
Proof.
  intros Hev He (H1 & H2 & H3 & H4 & H5). split; [exact H1|]. split; [exact H2|]. split; [exact H3|]. split.
  - eapply vm_keep_trans; [|exact H4]. apply vm_keep_db, evolves_weaken, Hev.
  - intros Hn. etransitivity; [exact He | apply H5, Hn].
Qed.

Lemma stops_early v d gas e : evolves true (db v) d -> SDB.ext (SDB.world (db v)) (SDB.world d) -> vm_ok (set_db v d) -> 0 <= gas ->
  call_post v gas (set_db v d) [] gas (Some e).
Proof.
  intros Hev He Hv Hg. split; [exact Hv|]. split; [constructor|]. split; [lia|]. split; [apply vm_keep_db, evolves_weaken, Hev | auto].
Qed.

Lemma CallCode_ok v caller addr input gas value : vm_ok v -> bytes_ok input -> u64_ok gas -> low <= depth v -> gas < n ->
  exists v' out gas' err, CallCode run v caller addr input gas value = Ok (v', out, gas', err) /\ call_post v gas v' out gas' err.
Proof.
  intros Hv Hin Hg Hd Hn. unfold CallCode. destruct (Z.ltb_spec MaxCallDepth (depth v)); [eexists _, _, _, _; split; [reflexivity | apply depth_limit; [exact Hv | apply Hg]]|].
  destruct (afford_spec v (ref_address caller) value Hv) as (d & -> & Hev & He & Hv'). cbv beta iota.
  destruct (_ || _); cbn [negb]; [|eexists _, _, _, _; split; [reflexivity | apply stops_early; auto; apply Hg]].
  destruct (call_in_ok (set_db v d) (Some (NewContract caller (ref_address caller) (Some (U256.SetBig (Some value))) gas)) addr input gas false)
    as (v' & out & gas' & err & E & H1 & _); auto; try discriminate.
  { intros c [= <-]. split; [apply new_contract_ok; [exact (wf_SetBig (Some value)) | exact Hg] | reflexivity]. }
  exists v', out, gas', err. split; [exact E | eapply call_post_load; eassumption].
Qed.

Lemma DelegateCall_ok v c addr input gas : vm_ok v -> U256.wf (value c) -> bytes_ok input -> u64_ok gas -> low <= depth v -> gas < n ->
  exists v' out gas' err, DelegateCall run v (FrameRef c) addr input gas = Ok (v', out, gas', err) /\ call_post v gas v' out gas' err.
Proof.
  intros Hv Hc Hin Hg Hd Hn. unfold DelegateCall. destruct (Z.ltb_spec MaxCallDepth (depth v)); [eexists _, _, _, _; split; [reflexivity | apply depth_limit; [exact Hv | apply Hg]]|].
  destruct (call_in_ok v (AsDelegate (FrameRef c) (NewContract (FrameRef c) (ref_address (FrameRef c)) None gas)) addr input gas false)
    as (v' & out & gas' & err & E & H1 & _); auto; try discriminate; [|eauto 10].
  intros c' [= <-]. split; [|reflexivity]. destruct (new_contract_ok (FrameRef c) (self c) None gas U256.wf_zero Hg) as (C1 & C2 & _ & C4).
  split; [exact C1|]. split; [exact C2|]. split; [exact Hc | exact C4].
Qed.

Lemma StaticCall_ok v caller addr input gas : vm_ok v -> bytes_ok input -> u64_ok gas -> low <= depth v -> gas < n ->
  exists v' out gas' err, StaticCall run v caller addr input gas = Ok (v', out, gas', err) /\ call_post v gas v' out gas' err /\
    vm_keep true v v'.
Proof.
  intros Hv Hin Hg Hd Hn. unfold StaticCall. destruct (Z.ltb_spec MaxCallDepth (depth v)).
  { eexists _, _, _, _. split; [reflexivity|]. split; [apply depth_limit; [exact Hv | apply Hg] | apply vm_keep_refl]. }
  destruct (call_in_ok v (Some (NewContract caller addr (Some U256.zero) gas)) addr input gas true)
    as (v' & out & gas' & err & E & H1 & H2); auto; try discriminate.
  { intros c' [= <-]. split; [apply new_contract_ok; [apply U256.wf_zero | exact Hg] | reflexivity]. }
  rewrite orb_true_r in H2. exists v', out, gas', err. auto.
Qed.


(** ** Calls with a transfer *)

Lemma Exist_spec w a : exists w', SDB.Exist w a = (w', match SDB.live w a with Some _ => true | None => false end) /\
  SDB.ext w w' /\ SDB.live w' a = SDB.live w a.
Proof. unfold SDB.Exist. destruct (SDB.getStateObject_spec w a) as (w' & -> & He & Hl & _). eauto. Qed.

Lemma Transfer_ok ro d a b x : (ro = true -> x = 0) -> 0 <= x -> (x = 0 \/ x <= SDB.balance_at (SDB.world d) a) -> evolves ro d (Transfer d a b x).
Proof.
  intros Hro Hx Hb. unfold Transfer. destruct (Z.eqb_spec x 0) as [->|Hne]; [constructor|]. apply evolves_once, ef_transfer; [|lia].
  destruct ro; [specialize (Hro eq_refl); lia | reflexivity].
Qed.

(** The state a call runs in: the account exists and has the value. *)
Definition prepared (d : SDB.StateDB) (caller : ContractRef) (addr : Address) (x : Z) (found : bool) : SDB.StateDB :=
  Transfer (if negb found then SDB.CreateAccount d addr else d) (ref_address caller) addr x.

Lemma prepared_ok ro d caller addr x found : (ro = true -> x = 0) -> 0 <= x -> (x = 0 \/ x <= SDB.balance_at (SDB.world d) (ref_address caller)) ->
  (found = false -> SDB.live (SDB.world d) addr = None) -> evolves ro d (prepared d caller addr x found).
Proof.
  intros Hro Hx Hb Hl. unfold prepared. destruct found; cbn [negb]; [apply Transfer_ok; assumption|].
  eapply ev_step; [apply ef_touch, Hl, eq_refl|]. apply Transfer_ok; auto. rewrite (proj2 (SDB.CreateAccount_cells d addr)). exact Hb.
Qed.

Lemma call_account_ok v caller addr input gas x : vm_ok v -> bytes_ok input -> u64_ok gas -> low <= depth v <= MaxCallDepth -> gas < n -> 0 <= x ->
  (readOnly v = true -> x = 0) -> (x = 0 \/ x <= SDB.balance_at (SDB.world (db v)) (ref_address caller)) ->
  exists v' out gas' err, call_account run v caller addr input gas x = Ok (v', out, gas', err) /\ call_post v gas v' out gas' err.
Proof.
  intros [Hi Hr] Hin Hg Hd Hn Hx Hro Hb. unfold call_account. cbn [SDB.Snapshot]. set (s1 := fst (SDB.Snapshot (db v))).
  change (SDB.mkState (SDB.world (db v)) (SDB.entries (db v)) (SDB.dirties (db v))
    (SDB.revisions (db v) ++ [(SDB.nextRevID (db v), length (SDB.entries (db v)))]) (SDB.nextRevID (db v) + 1)) with s1.
  assert (forall v2 out gas2 err, evolves (readOnly v) s1 (db v2) -> same_flags v v2 -> bytes_ok (returnData v2) -> bytes_ok out -> 0 <= gas2 <= gas ->
    exists v' out' gas' err', settle v2 (SDB.nextRevID (db v)) out gas2 err = Ok (v', out', gas', err') /\ call_post v gas v' out' gas' err') as Hend.
  { intros v2 out gas2 err Hev (F1 & F2 & F3 & F4) Hr2 Ho Hg2.
    destruct (settle_ok _ (db v) v2 out gas2 err Hi Hr2 Hev Ho) as (v' & gas' & E & H1 & H2 & (G1 & G2 & G3 & G4) & H4 & H5); [lia|].
    exists v', out, gas', err. split; [exact E|]. split; [exact H1|]. split; [exact Ho|]. split; [lia|]. split; [|exact H5].
    split; [exact H2 | split_and!; congruence]. }
  unfold vm_query at 1. cbn [db set_db]. destruct (Exist_spec (SDB.world s1) addr) as (w & -> & He & Hl). cbn [negb db set_db].
  set (found := match SDB.live (SDB.world s1) addr with Some _ => true | None => false end).
  set (s2 := SDB.with_world s1 w).
  assert (evolves (readOnly v) s1 s2) as Hev2 by (apply evolves_once, ef_load, He).
  destruct (negb found && _ && (x =? 0)).
  { eexists _, _, _, _. split; [reflexivity|]. split; [split; [eapply evolves_inv; [exact Hev2 | apply SDB.snapshot_inv, Hi] | exact Hr]|].
    split; [constructor|]. unfold u64_ok in Hg. split; [lia|]. split; [|congruence]. apply (vm_keep_db _ v), (ev_call _ _ s2); [exact Hev2 | constructor]. }
  set (s3 := Transfer _ _ _ _).
  assert (evolves (readOnly v) s1 s3) as Hev3.
  { etransitivity; [exact Hev2|]. apply (prepared_ok (readOnly v) s2 caller addr x found); auto.
    - cbn [SDB.world s2 SDB.with_world]. rewrite (proj2 (SDB.ext_same_cells _ _ He)). exact Hb.
    - intros Hf. change (SDB.live w addr = None). rewrite Hl. unfold found in Hf. destruct (SDB.live (SDB.world s1) addr); [discriminate | reflexivity]. }
  destruct (precompile addr) as [p|] eqn:Ep.
  - destruct (runPrecompile p input gas) as [[out gas2] err] eqn:Er. destruct (precompile_ok _ _ _ _ _ _ _ Ep Hin (proj1 Hg) Er) as [Ho Hg2].
    apply Hend; auto. split_and!; reflexivity.
  - destruct (vm_query_ok (set_db (set_db (set_db v s1) s2) s3) (fun w => SDB.GetCode w addr)) as (w4 & code & -> & _ & He4);
      [intros w' a; apply GetCode_ext'|]. cbv beta iota zeta.
    set (v4 := set_db _ _).
    assert (evolves (readOnly v) s1 (db v4)) as Hev4 by (etransitivity; [exact Hev3 | apply evolves_once, (ef_load _ s3), He4]).
    assert (vm_ok v4) as Hv4 by (split; [eapply evolves_inv; [exact Hev4 | apply SDB.snapshot_inv, Hi] | exact Hr]).
    unfold u64_ok in Hg. destruct (len (octets code) =? 0); [apply Hend; auto; [split_and!; reflexivity | constructor | lia]|].
    destruct (run_code_ok v4 (NewContract caller addr (Some (U256.SetBig (Some x))) gas) (octets code) input false Hv4
      (new_contract_ok caller addr (Some (U256.SetBig (Some x))) gas (wf_SetBig (Some x)) Hg) (octets_ok code) Hin Hd Hn) as (v5 & out & gas5 & err & -> & H1 & H2 & H3 & Hev5 & F1 & F2 & F3 & F4).
    cbn [rbind]. apply Hend; auto; [|split_and!; assumption | apply H1]. rewrite orb_false_r in Hev5. etransitivity; [exact Hev4 | exact Hev5].
Qed.

Lemma Call_ok v caller addr input gas x : vm_ok v -> bytes_ok input -> u64_ok gas -> low <= depth v -> gas < n -> 0 <= x ->
  (readOnly v = true -> x = 0) ->
  exists v' out gas' err, Call run v caller addr input gas x = Ok (v', out, gas', err) /\ call_post v gas v' out gas' err.
Proof.
  intros Hv Hin Hg Hd Hn Hx Hro. unfold Call.
  destruct (Z.ltb_spec MaxCallDepth (depth v)) as [|Hdep]; [eexists _, _, _, _; split; [reflexivity | apply depth_limit; [exact Hv | apply Hg]]|].
  destruct (afford_spec v (ref_address caller) x Hv) as (d0 & -> & Hev0 & He0 & Hv0). cbv beta iota.
  destruct ((x =? 0) || _) eqn:Eaf; cbn [negb]; [|eexists _, _, _, _; split; [reflexivity | apply stops_early; auto; apply Hg]].
  destruct (evmReadOnly _ && _); [eexists _, _, _, _; split; [reflexivity | apply stops_early; auto; apply Hg]|].
  destruct (call_account_ok (set_db v d0) caller addr input gas x) as (v' & out & gas' & err & E & H); auto.
  - cbn [db set_db]. rewrite (proj2 (SDB.ext_same_cells _ _ He0)). apply orb_prop in Eaf as [E|E]; [left; apply Z.eqb_eq, E | right; apply Z.leb_le, E].
  - exists v', out, gas', err. split; [exact E | eapply call_post_load; eassumption].
Qed.


(** ** Creations *)

Definition create_post (v : VM) (gas : Z) (v' : VM) (out : bytes) (addr : Address) (gas' : Z) : Prop :=
  vm_ok v' /\ bytes_ok out /\ bytes_ok addr /\ 0 <= gas' <= gas /\ vm_keep (readOnly v) v v'.

Lemma deploy_ok v a out c v' c' err : vm_ok v -> readOnly v = false -> 0 <= Gas c -> deploy v a out c = (v', c', err) ->
  vm_ok v' /\ 0 <= Gas c' <= Gas c /\ vm_keep false v v'.
Proof.
  intros [Hi Hr] Hro Hg. unfold deploy, UseGas. pose proof (wrap64_ok (len out * GasCodeDeposit)) as [Hw _].
  destruct (_ <? len out); [intros [= <- <- <-]; split; [split; assumption|]; split; [lia | apply vm_keep_refl]|].
  destruct (_ && _); [intros [= <- <- <-]; split; [split; assumption|]; split; [lia | apply vm_keep_refl]|].
  destruct (Z.ltb_spec (Gas c) (len out *w GasCodeDeposit)); intros [= <- <- <-];
    [split; [split; assumption|]; split; [lia | apply vm_keep_refl]|].
  assert (evolves false (db v) (SDB.SetCode (db v) a out)) as Hev by (apply evolves_once, ef_code, eq_refl).
  split; [split; [eapply evolves_inv; eassumption | exact Hr]|]. split; [cbn [Gas with_gas]; lia | apply vm_keep_db, Hev].
Qed.

Lemma init_contract_ok v caller code gas x a : vm_ok v -> readOnly v = false -> bytes_ok code /\ len code <= max_int64 -> bytes_ok a -> u64_ok gas ->
  low <= depth v <= MaxCallDepth -> gas < n -> 0 <= x -> (x = 0 \/ x <= SDB.balance_at (SDB.world (db v)) (ref_address caller)) ->
  exists v' out addr gas' err, init_contract run v caller code gas x a = Ok (v', out, addr, gas', err) /\ create_post v gas v' out addr gas'.
Proof.
  intros [Hi Hr] Hro Hcode Ha Hg Hd Hn Hx Hb. unfold init_contract. cbn [SDB.Snapshot]. set (s1 := fst (SDB.Snapshot (db v))).
  change (SDB.mkState (SDB.world (db v)) (SDB.entries (db v)) (SDB.dirties (db v))
    (SDB.revisions (db v) ++ [(SDB.nextRevID (db v), length (SDB.entries (db v)))]) (SDB.nextRevID (db v) + 1)) with s1.
  set (s2 := Transfer _ _ _ _).
  assert (evolves false s1 s2) as Hev2.
  { eapply ev_step; [apply ef_create, eq_refl|]. eapply ev_step; [apply ef_nonce, eq_refl|]. apply Transfer_ok; [discriminate | exact Hx|].
    rewrite SetNonce_balance, (proj2 (SDB.CreateAccount_cells _ _)). exact Hb. }
  assert (vm_ok (set_db v s2)) as Hv2 by (split; [eapply evolves_inv; [exact Hev2 | apply SDB.snapshot_inv, Hi] | exact Hr]).
  destruct (new_contract_ok caller a (Some (U256.SetBig (Some x))) gas (wf_SetBig (Some x)) Hg) as (_ & C2 & C3 & C4).
  destruct (Hrun (set_db v s2) (SetCallCode (NewContract caller a (Some (U256.SetBig (Some x))) gas) code) [] false Hv2)
    as (v3 & c3 & out & err & -> & Hv3 & Ho & Hg3 & Hev3 & F1 & F2 & F3 & F4); [split; [exact Hcode | auto] | constructor | exact Hd | exact Hn|].
  cbn [rbind]. change (SDB.nextRevID (db v)) with (snd (SDB.Snapshot (db v))). cbn [readOnly set_db] in *. rewrite Hro in *. cbn [orb] in Hev3. cbn [Gas NewContract SetCallCode] in Hg3.
  destruct (match err with Some e => (v3, c3, Some e) | None => deploy v3 a out c3 end) as [[v4 c4] err4] eqn:E4.
  assert (vm_ok v4 /\ 0 <= Gas c4 <= Gas c3 /\ vm_keep false v3 v4) as (Hv4 & Hg4 & Hev4 & G1 & G2 & G3 & G4).
  { destruct err as [e|]; [injection E4 as <- <- <-; split; [exact Hv3|]; split; [lia | apply vm_keep_refl]|].
    eapply deploy_ok; [exact Hv3 | congruence | lia | exact E4]. }
  destruct (settle_ok false (db v) v4 out (Gas c4) err4 Hi (proj2 Hv4)) as (v5 & gas5 & -> & Hv5 & Hev5 & (K1 & K2 & K3 & K4) & Hg5 & _).
  { etransitivity; [exact Hev2|]. etransitivity; [exact Hev3 | exact Hev4]. }
  { exact Ho. } { lia. }
  cbn [rbind]. eexists _, _, _, _, _. split; [reflexivity|]. split; [exact Hv5|]. split; [exact Ho|]. split; [exact Ha|]. split; [lia|].
  rewrite Hro. cbn [depth readOnly evmReadOnly abort set_db] in *. split; [exact Hev5 | split_and!; congruence].
Qed.

Lemma address_bytes_ok b : bytes_ok b -> bytes_ok (BytesToAddress b).
Proof. apply fit_right_ok. Qed.

Lemma query_step ro v (f : SDB.World -> SDB.World * Z) : vm_ok v -> (forall w a, f (SDB.world (db v)) = (w, a) -> SDB.ext (SDB.world (db v)) w) ->
  exists v' a, vm_query v f = (v', a) /\ vm_ok v' /\ vm_keep ro v v' /\ SDB.ext (SDB.world (db v)) (SDB.world (db v')).
Proof.
  intros [Hi Hr] Hf. destruct (vm_query_ok v f Hf) as (w & a & -> & _ & He). eexists _, _. split; [reflexivity|].
  assert (evolves ro (db v) (SDB.with_world (db v) w)) as Hev by (apply evolves_once, ef_load, He).
  split; [split; [eapply evolves_inv; eassumption | exact Hr]|]. split; [apply vm_keep_db, Hev | exact He].
Qed.

Lemma create_after v v1 gas : vm_ok v1 -> vm_keep (readOnly v) v v1 -> 0 <= gas -> forall gas', 0 <= gas' <= gas -> create_post v gas v1 [] ZeroAddress gas'.
Proof. intros Hv Hk Hg gas' Hg'. split; [exact Hv|]. split; [constructor|]. split; [apply zeros_ok|]. auto. Qed.

Lemma create_ok v caller code gas x a : vm_ok v -> readOnly v = false -> bytes_ok code /\ len code <= max_int64 -> bytes_ok a -> u64_ok gas ->
  low <= depth v -> gas < n -> 0 <= x ->
  exists v' out addr gas' err, create run v caller code gas x a = Ok (v', out, addr, gas', err) /\ create_post v gas v' out addr gas'.
Proof.
  intros Hv Hro Hcode Ha Hg Hd Hn Hx. unfold create. pose proof (proj1 Hg) as Hg0.
  destruct (Z.ltb_spec MaxCallDepth (depth v)) as [|Hdep].
  { eexists _, _, _, _, _. split; [reflexivity|]. apply create_after; auto using vm_keep_refl; lia. }
  destruct (CanTransfer_spec (db v) (ref_address caller) x) as (w & -> & He). set (v1 := set_db v _).
  assert (evolves (readOnly v) (db v) (SDB.with_world (db v) w)) as Hev1 by (apply evolves_once, ef_load, He).
  assert (vm_ok v1) as Hv1 by (split; [eapply evolves_inv; [exact Hev1 | apply Hv] | apply Hv]).
  assert (vm_keep (readOnly v) v v1) as Hk1 by (apply vm_keep_db, Hev1).
  destruct (Z.leb_spec x (SDB.balance_at (SDB.world (db v)) (ref_address caller))) as [Hb|]; cbn [negb];
    [|eexists _, _, _, _, _; split; [reflexivity | apply create_after; auto; lia]].
  destruct (evmReadOnly v1); [eexists _, _, _, _, _; split; [reflexivity | apply create_after; auto; lia]|].
  destruct (query_step (readOnly v) v1 (fun w => SDB.GetNonce w (ref_address caller)) Hv1) as (v2 & nonce & -> & Hv2 & Hk2 & He2);
    [intros w' m; apply GetNonce_ext|].
  set (v3 := set_db v2 _).
  assert (vm_keep (readOnly v) v2 v3) as Hk3 by (apply vm_keep_db, evolves_once, ef_nonce, Hro).
  assert (vm_ok v3) as Hv3 by (split; [eapply evolves_inv; [apply Hk3 | apply Hv2] | apply Hv2]).
  destruct (vm_query_ok v3 (fun w => SDB.GetCodeHash w a)) as (w4 & h & -> & _ & He4); [intros w' h; apply GetCodeHash_ext|]. set (v4 := set_db v3 _).
  assert (evolves (readOnly v) (db v3) (SDB.with_world (db v3) w4)) as Hev4 by (apply evolves_once, ef_load, He4).
  assert (vm_keep (readOnly v) v3 v4) as Hk4 by (apply vm_keep_db, Hev4).
  assert (vm_ok v4) as Hv4 by (split; [eapply evolves_inv; [exact Hev4 | apply Hv3] | apply Hv3]).
  destruct (query_step (readOnly v) v4 (fun w => SDB.GetNonce w a) Hv4) as (v5 & used & -> & Hv5 & Hk5 & He5); [intros w' m; apply GetNonce_ext|].
  assert (vm_keep (readOnly v) v v5) as Hk.
  { do 4 (eapply vm_keep_trans; [|eassumption]). exact Hk1. }
  destruct (_ || _); [eexists _, _, _, _, _; split; [reflexivity | apply create_after; auto; lia]|].
  pose proof Hk as (_ & F1 & F2 & _).
  destruct (init_contract_ok v5 caller code gas x a) as (v' & out & addr & gas' & err & E & H1 & H2 & H3 & H4 & H5); auto; try congruence.
  - rewrite F1. lia.
  - right. rewrite (proj2 (SDB.ext_same_cells _ _ He5)). cbn [v4 db set_db SDB.world SDB.with_world].
    rewrite (proj2 (SDB.ext_same_cells _ _ He4)). cbn [v3 db set_db]. rewrite SetNonce_balance, (proj2 (SDB.ext_same_cells _ _ He2)). cbn [v1 db set_db SDB.world SDB.with_world].
    rewrite (proj2 (SDB.ext_same_cells _ _ He)). exact Hb.
  - eexists _, _, _, _, _. split; [exact E|]. split; [exact H1|]. split; [exact H2|]. split; [exact H3|]. split; [exact H4|].
    eapply vm_keep_trans; [exact Hk|]. rewrite F2 in H5. exact H5.
Qed.

Lemma Create_ok v caller code gas x : vm_ok v -> readOnly v = false -> bytes_ok code /\ len code <= max_int64 -> u64_ok gas -> low <= depth v -> gas < n -> 0 <= x ->
  exists v' out addr gas' err, Create run v caller code gas x = Ok (v', out, addr, gas', err) /\ create_post v gas v' out addr gas'.
Proof.
  intros Hv Hro Hcode Hg Hd Hn Hx. unfold Create.
  destruct (query_step (readOnly v) v (fun w => SDB.GetNonce w (ref_address caller)) Hv) as (v1 & nonce & -> & Hv1 & Hk1 & _); [intros w' m; apply GetNonce_ext|].
  pose proof Hk1 as (_ & F1 & F2 & _). pose proof (proj1 Hg) as Hg0.
  destruct (_ <? nonce); [eexists _, _, _, _, _; split; [reflexivity | apply create_after; auto; lia]|].
  destruct (create_ok v1 caller code gas x (CreateAddress (ref_address caller) nonce)) as (v' & out & addr & gas' & err & E & H1 & H2 & H3 & H4 & H5);
    auto; try congruence; try (rewrite F1; exact Hd); [apply address_bytes_ok, bytes_ok_drop, Keccak256_ok|].
  eexists _, _, _, _, _. split; [exact E|]. split; [exact H1|]. split; [exact H2|]. split; [exact H3|]. split; [exact H4|].
  eapply vm_keep_trans; [exact Hk1|]. rewrite F2 in H5. exact H5.
Qed.

Lemma Create2_ok v caller code gas x salt : vm_ok v -> readOnly v = false -> bytes_ok code /\ len code <= max_int64 -> u64_ok gas -> low <= depth v -> gas < n -> 0 <= x ->
  exists v' out addr gas' err, Create2 run v caller code gas x salt = Ok (v', out, addr, gas', err) /\ create_post v gas v' out addr gas'.
Proof. intros. apply create_ok; auto. apply address_bytes_ok, bytes_ok_drop, Keccak256_ok. Qed.


End Calls.
End Calls.
