(* ===== verification/EvmRun.v ===== *)
(** The interpreter is total.

    From the lemmas on instructions, prices and calls: an instruction, the loop
    and [Run] return on every program, and what they leave satisfies the
    invariant of the machine. *)

From stdpp Require Import base list gmap relations.
From Stdlib Require Import ZArith Lia.
From S2P Require Import Prelude RLP Common UInt256 Registry StateDB EvmData Interpreter EvmState EvmSafety EvmExec EvmGas EvmCalls.
Local Open Scope Z_scope.
Local Open Scope go_scope.

Module Total.
Import Vm Interp Ev Safe Exec Price Calls.

#[local] Existing Instance SDB.ext_preorder.

Lemma padded_length b size : length (padded b size) = Z.to_nat size.
Proof.
  unfold padded, RightPadBytes. destruct (Nat.leb_spec (Z.to_nat size) (length b)); [rewrite length_take; lia|].
  unfold zeros. rewrite length_app, length_replicate. lia.
Qed.

Lemma GetCopy_length m o z b : 0 <= z -> GetCopy m o z = Some b -> len b = z.
Proof.
  intros Hz. unfold GetCopy. destruct (Z.eqb_spec z 0) as [->|]; [intros [= <-]; reflexivity|].
  destruct (_ <? _); [destruct (slice _ _ _); cbn [obind]; [|discriminate]|]; intros [= <-]; unfold len, zeros;
    rewrite ?padded_length, ?length_replicate; lia.
Qed.

Lemma callGas_spec g w a : 0 <= g -> U256.wf w -> callGas g 0 w = Ok a -> 0 <= a <= g.
Proof.
  intros Hg (Hw & _). unfold callGas, u64_ok in *. destruct (Z.ltb_spec g 0); [lia|]. rewrite Z.sub_0_r.
  pose proof (Z.div_pos g 64 Hg eq_refl). assert (g / 64 <= g) by (apply Z.div_le_upper_bound; lia).
  destruct (Z.ltb_spec (g - g / 64) (U256.l0 w)); rewrite ?orb_true_r, ?orb_false_r; [intros [= <-]; lia|]. destruct (negb _); intros [= <-]; lia.
Qed.

Section Instructions.
Context `{K : Keccak} `{TS : TrieStore} `{P : Precompiles}.
Variable env : Env.
Variable run : VM -> Contract -> bytes -> bool -> result fault (VM * Contract * bytes * option vm_error).
Variable n low : Z.
Hypothesis Hrun : run_ok run n low.

(** ** Calls *)

Definition stipend (k : CallKind) (v : Word) : Z := if with_value k && negb (U256.IsZero v) then GasCallStipend else 0.

Lemma start_call_ok k v c addr input gas x : vm_ok v -> U256.wf (value c) -> bytes_ok input -> u64_ok gas -> low <= depth v -> gas < n -> 0 <= x ->
  (readOnly v && moves_value k = true -> x = 0) ->
  exists v' out gas' err, start_call run k v (FrameRef c) addr input gas x = Ok (v', out, gas', err) /\ call_post v gas v' out gas' err.
Proof.
  intros Hv Hc Hin Hg Hd Hn Hx Hro. destruct k; cbn [start_call].
  - eapply Call_ok; eauto. intros E. apply Hro. rewrite E. reflexivity.
  - eapply CallCode_ok; eauto.
  - eapply DelegateCall_ok; eauto.
  - destruct (StaticCall_ok run n low Hrun v (FrameRef c) addr input gas) as (v' & out & gas' & err & E & H & _); eauto 10.
Qed.

(** The frame once a call is over. *)
Lemma called_ok s g v' w m leftOver : st_ok s -> vm_ok v' -> U256.wf w -> mem_ok m -> vm_keep (readOnly (vm s)) (vm s) v' ->
  0 <= g <= Gas (contract (fr s)) -> 0 <= leftOver -> u64_ok (Gas (contract (fr s)) - g + leftOver) ->
  let s' := mkSt v' (mkFrame (pc (fr s)) (RefundGas (with_gas (contract (fr s)) (Gas (contract (fr s)) - g)) leftOver) (w :: stack (fr s)) m) in
  st_ok s' /\ keep s s' /\ Gas (contract (fr s')) = Gas (contract (fr s)) - g + leftOver /\ len (stack (fr s')) = len (stack (fr s)) + 1.
Proof.
  intros (Hv & (Hc1 & Hc2 & Hc3 & Hc4) & Hk & Hm & Hp) Hv' Hw Hm' Hkeep Hg Hl Hu s'.
  assert (Gas (contract (fr s')) = Gas (contract (fr s)) - g + leftOver) as Eg by (cbn; apply wrap64_small, Hu).
  split; [|split; [split; [exact Hkeep | reflexivity] | split; [exact Eg | rewrite Z.add_comm; apply len_cons]]].
  split; [exact Hv'|]. split; [split; [exact Hc1|]; split; [exact Hc2|]; split; [exact Hc3|]; rewrite Eg; exact Hu|].
  split; [apply Forall_cons_2; assumption|]. split; assumption.
Qed.

Lemma wf_flag (err : option vm_error) : U256.wf (match err with None => U256.one | Some _ => U256.zero end).
Proof. destruct err; [apply U256.wf_zero | apply U256.wf_one]. Qed.

(** [perform_call] adds one word to the stack and at most the stipend to the gas. *)
Lemma perform_call_ok k s gw addr v io iz ro rz : st_ok s -> U256.wf gw -> U256.wf v -> U256.wf io -> U256.wf iz -> U256.wf ro -> U256.wf rz ->
  covers (len (store (mem (fr s)))) io iz -> covers (len (store (mem (fr s)))) ro rz -> low <= depth (vm s) ->
  Gas (contract (fr s)) + stipend k v < n -> u64_ok (Gas (contract (fr s)) + stipend k v) ->
  wp (perform_call run k gw addr v io iz ro rz) s (fun s' r => st_ok s' /\ keep s s' /\ Gas (contract (fr s')) <= Gas (contract (fr s)) + stipend k v /\
    forall u, r = Ok u -> len (stack (fr s')) = len (stack (fr s)) + 1).
Proof.
  intros Hs Wg Wv Wio Wiz Wro Wrz Ci Cr Hd Hn Hu. pose proof Hs as (Hvm & (_ & _ & Hcv & Hg) & Hk & Hm & Hp).
  assert (0 <= stipend k v) as Hst by (unfold stipend, GasCallStipend; destruct (_ && _); lia).
  assert (forall e, st_ok s /\ keep s s /\ Gas (contract (fr s)) <= Gas (contract (fr s)) + stipend k v /\
    forall u : unit, @Err vm_error unit e = Ok u -> len (stack (fr s)) = len (stack (fr s)) + 1) as Herr
    by (intros e; split; [exact Hs|]; split; [apply keep_refl|]; split; [lia | discriminate]).
  unfold perform_call. go. apply wp_guard; intros Hro; go; [apply Herr|].
  destruct (GetCopy_ok _ _ _ Hm (covers_cases _ _ _ Wio Wiz Ci)) as (input & Ein & Hin). eapply wp_memCopy; [exact Ein | go].
  destruct (callGas _ _ _) as [g|e] eqn:Eg; [|apply Herr]. go. apply callGas_spec in Eg; [|apply Hg | exact Wg].
  set (G := Gas (contract (fr s))) in *. unfold UseGas. fold G. destruct (Z.ltb_spec G g); [lia|]. cbn [default]. unfold id.
  set (gas := if with_value k && negb (U256.IsZero v) then g +w GasCallStipend else g).
  assert (gas = g + stipend k v) as Egas.
  { unfold gas, stipend in *. destruct (_ && _); [apply wrap64_small; unfold u64_ok in *; lia | lia]. }
  assert (u64_ok gas) as Hugas by (rewrite Egas; unfold u64_ok in *; lia).
  set (c := with_gas (contract (fr s)) (G - g)).
  destruct (start_call_ok k (vm s) c addr input gas (U256.ToBig v) Hvm Hcv Hin Hugas Hd) as (v' & out & lo & err & Ecall & Hv' & Ho & Hlo & Hkeep & _).
  { lia. } { rewrite U256.ToBig_spec by exact Wv. apply U256.val_bounds, Wv. }
  { intros E. rewrite E in Hro. apply negb_false_iff in Hro. rewrite U256.ToBig_spec by exact Wv. rewrite (U256.IsZero_spec v Wv) in Hro. apply Z.eqb_eq, Hro. }
  eexists _, _. split; [cbn [vm fr with_contract contract]; rewrite Ecall; reflexivity|]. go.
  set (w := match err with None => U256.one | Some _ => U256.zero end).
  assert (forall rd m, bytes_ok rd -> mem_ok m ->
    let s' := mkSt (set_returnData v' rd) (mkFrame (pc (fr s)) (RefundGas c lo) (w :: stack (fr s)) m) in
    st_ok s' /\ keep s s' /\ Gas (contract (fr s')) <= G + stipend k v /\ forall u : unit, @Ok vm_error unit tt = Ok u -> len (stack (fr s')) = len (stack (fr s)) + 1) as Hend.
  { intros rd m Hrd Hm' s'.
    destruct (called_ok s g (set_returnData v' rd) w m lo Hs) as (H1 & H2 & H3 & H4); [split; [apply Hv' | exact Hrd] | apply wf_flag | exact Hm' | exact Hkeep | exact Eg | lia | fold G; unfold u64_ok in *; lia|].
    split; [exact H1|]. split; [exact H2|]. split; [etransitivity; [apply Z.eq_le_incl, H3|]; fold G; lia | intros _ _; exact H4]. }
  destruct (match err with None => true | Some e => is_reverted e end); go; [|apply (Hend [] (mem (fr s))); [constructor | exact Hm]].
  destruct (Z.ltb_spec 0 (U256.l0 rz)) as [Hrz|Hrz]; go; [|apply (Hend out (mem (fr s))); assumption].
  destruct (MemSet_ok (mem (fr s)) (U256.l0 ro) (min64 (U256.l0 rz) (len out)) out Hm Ho) as (m' & Em & Hm' & _).
  { rewrite min64_spec. destruct (covers_cases _ _ _ Wro Wrz Cr) as [?|(H1 & H2 & H3)]; [lia|]. assert (0 <= len out) by (unfold len; lia). lia. }
  eapply wp_memSet; [exact Em | go]. apply (Hend out m'); assumption.
Qed.


Definition call_op (op : OpCode) : Prop := match op with CALL | CALLCODE | DELEGATECALL | STATICCALL => True | _ => False end.

Lemma exec_call op s : call_op op -> st_ok s -> fst (stackRequirement op) <= len (stack (fr s)) -> covered op (stack (fr s)) (len (store (mem (fr s)))) ->
  low <= depth (vm s) -> Gas (contract (fr s)) + bonus op (stack (fr s)) < n -> u64_ok (Gas (contract (fr s)) + bonus op (stack (fr s))) ->
  wp (execute env run op) s (exec_post op s).
Proof.
  intros Hop Hs Hlen Hcov Hd Hn Hu. pose proof Hs as (Hvm & Hc & Hk & Hm & Hp). destruct s as [v [p c k m]]. cbn [fr stack mem contract vm] in *.
  assert (forall k1 kind gw a x io iz ro rz, st_ok (mkSt v (mkFrame p c k1 m)) -> U256.wf gw -> U256.wf x -> U256.wf io -> U256.wf iz -> U256.wf ro -> U256.wf rz ->
    covers (len (store m)) io iz -> covers (len (store m)) ro rz -> bonus op k = stipend kind x ->
    len k1 = len k - fst (stackRequirement op) -> snd (stackRequirement op) = 1 ->
    wp (perform_call run kind gw a x io iz ro rz) (mkSt v (mkFrame p c k1 m)) (fun s' r =>
      match r with Ok _ => wp (ret []) s' (exec_post op (mkSt v (mkFrame p c k m))) | Err e => exec_post op (mkSt v (mkFrame p c k m)) s' (Err e) end)) as Hgo.
  { intros k1 kind gw a x io iz ro rz Hs1 W1 W2 W3 W4 W5 W6 C1 C2 Hb Hl H1. rewrite Hb in Hn, Hu.
    eapply wp_mono; [apply perform_call_ok; cbn [fr mem contract vm]; eassumption|]. cbv beta. intros s' r (H2 & H3 & H4 & H5).
    assert (forall r, (forall out, r = Ok out -> bytes_ok out /\ len (stack (fr s')) = len k - fst (stackRequirement op) + snd (stackRequirement op)) ->
      exec_post op (mkSt v (mkFrame p c k m)) s' r) as Hpost
      by (intros r' Hr'; split; [exact H2|]; split; [exact H3|]; split; [cbn [fr stack contract]; rewrite Hb; exact H4 | exact Hr']).
    destruct r as [u|e]; go; apply Hpost; [|discriminate]. intros out [= <-]. split; [constructor|]. rewrite (H5 u eq_refl), H1. cbn [fr stack]. lia. }
  assert (forall k1, Forall U256.wf k1 -> st_ok (mkSt v (mkFrame p c k1 m))) as Hs1 by (intros k1 Hk1; split; [exact Hvm|]; split; [exact Hc|]; split; [exact Hk1 | split; assumption]).
  destruct op; try contradiction; uncons Hlen; words Hs; cbn [covered] in Hcov; destruct Hcov as [C1 C2]; unfold execute; apply wp_bind;
    unfold opCall; cbn [with_value]; go; (eapply (Hgo k); [apply Hs1; assumption | first [assumption | apply U256.wf_zero].. | exact C1 | exact C2 | | |]);
    cbn [bonus]; try reflexivity; try (cbn [stackRequirement fst]; rewrite !len_cons; lia).
  all: unfold stipend; cbn [with_value andb]; destruct (U256.IsZero _); reflexivity.
Qed.

(** ** Creations *)

Lemma start_create_ok (b : bool) v c code gas x salt : vm_ok v -> readOnly v = false -> bytes_ok code /\ len code <= max_int64 -> u64_ok gas -> low <= depth v -> gas < n -> 0 <= x ->
  exists v' out addr gas' err, (if b then Create2 run v c code gas x salt else Create run v c code gas x) = Ok (v', out, addr, gas', err) /\
    create_post v gas v' out addr gas'.
Proof. intros. destruct b; [eapply Create2_ok | eapply Create_ok]; eassumption. Qed.

Lemma create_gas g : 0 <= g -> 0 <= g - g / 64 <= g.
Proof. intros H. pose proof (Z.div_pos g 64 H eq_refl). assert (g / 64 <= g) by (apply Z.div_le_upper_bound; lia). lia. Qed.

(** The word and the return data a creation leaves. *)
Definition created_word (err : option vm_error) (addr : Address) : Word := match err with Some _ => U256.zero | None => U256.SetBytes addr end.
Definition created_data (err : option vm_error) (out : bytes) : bytes := match err with Some ErrExecutionReverted => out | _ => [] end.

Lemma created_ok op k s (b : bool) x code salt : let g := Gas (contract (fr s)) - Gas (contract (fr s)) / 64 in
  let c := with_gas (contract (fr s)) (Gas (contract (fr s)) - g) in
  st_ok s -> U256.wf x -> bytes_ok code /\ len code <= max_int64 -> readOnly (vm s) = false -> low <= depth (vm s) -> Gas (contract (fr s)) < n ->
  len (stack (fr s)) + 1 = len k - fst (stackRequirement op) + snd (stackRequirement op) ->
  exists v' out addr lo err,
    (if b then Create2 run (vm s) (FrameRef c) code g (U256.ToBig x) salt else Create run (vm s) (FrameRef c) code g (U256.ToBig x)) = Ok (v', out, addr, lo, err) /\
    exec_post op (with_stack s k)
      (mkSt (set_returnData v' (created_data err out)) (mkFrame (pc (fr s)) (RefundGas c lo) (created_word err addr :: stack (fr s)) (mem (fr s)))) (Ok []).
Proof.
  intros g c Hs Wx Hcode Hro Hd Hn Hl. pose proof Hs as (Hvm & (_ & _ & _ & Hg) & _ & Hm & _). pose proof (create_gas _ (proj1 Hg)) as Hgas. fold g in Hgas.
  destruct (start_create_ok b (vm s) (FrameRef c) code g (U256.ToBig x) salt) as (v' & out & addr & lo & err & E & Hv' & Ho & Ha & Hlo & Hkeep);
    auto; try lia; [unfold u64_ok in *; lia | rewrite U256.ToBig_spec by exact Wx; apply U256.val_bounds, Wx|].
  exists v', out, addr, lo, err. split; [exact E|].
  assert (bytes_ok (created_data err out)) as Hrd by (unfold created_data; repeat case_match; first [exact Ho | constructor]).
  assert (U256.wf (created_word err addr)) as Hw by (unfold created_word; destruct err; [apply U256.wf_zero | apply wf_SetBytes, Ha]).
  destruct (called_ok s g (set_returnData v' (created_data err out)) (created_word err addr) (mem (fr s)) lo) as (H1 & H2 & H3 & H4); auto;
    [split; [apply Hv' | exact Hrd] | lia | unfold u64_ok in *; lia|].
  split; [exact H1|]. split; [exact H2|]. pose proof (bonus_nonneg op k). split; [cbn [fr contract stack with_stack] in *; fold c in H3; lia|].
  intros out' [= <-]. split; [constructor|]. cbn [fr stack with_stack] in *. lia.
Qed.

Lemma exec_create op s : op = CREATE \/ op = CREATE2 -> st_ok s -> fst (stackRequirement op) <= len (stack (fr s)) ->
  covered op (stack (fr s)) (len (store (mem (fr s)))) -> low <= depth (vm s) -> Gas (contract (fr s)) < n ->
  wp (execute env run op) s (exec_post op s).
Proof.
  intros Hop Hs Hlen Hcov Hd Hn. pose proof Hs as (Hvm & Hc & Hk & Hm & Hp). destruct s as [v [p c k m]]. cbn [fr stack mem contract vm] in *.
  assert (forall k1, Forall U256.wf k1 -> st_ok (mkSt v (mkFrame p c k1 m))) as Hs1 by (intros k1 Hk1; split; [exact Hvm|]; split; [exact Hc|]; split; [exact Hk1 | split; assumption]).
  destruct Hop as [-> | ->]; uncons Hlen; words Hs; cbn [covered] in Hcov; unfold execute, opCreate; go;
    (apply wp_guard; intros Hro; go; [apply failed, Hs|]).
  all: destruct (GetCopy_ok _ _ _ Hm (covers_cases _ _ _ Hw0 Hw1 Hcov)) as (code & Ec & Hcode); (eapply wp_memCopy; [exact Ec | go]).
  all: assert (len code <= max_int64) as Hlc by (rewrite (GetCopy_length _ _ _ _ (proj1 (proj1 Hw1)) Ec); destruct Hm as (_ & _ & Hm3);
         destruct (covers_cases _ _ _ Hw0 Hw1 Hcov) as [->|(_ & ? & ?)]; unfold max_int64, max_extent in *; lia).
  - destruct (created_ok CREATE (i :: i0 :: i1 :: k) (mkSt v (mkFrame p c k m)) false i code U256.zero) as (v' & out & addr & lo & err & E & Hpost); auto;
      [cbn [stackRequirement fst snd fr stack]; rewrite !len_cons; lia|].
    eexists _, _. split; [cbn [vm fr contract] in *; unfold with_contract, with_stack; cbn [vm fr contract] in *; rewrite E; reflexivity|]. go. exact Hpost.
  - destruct (created_ok CREATE2 (i :: i0 :: i1 :: i2 :: k) (mkSt v (mkFrame p c k m)) true i code i2) as (v' & out & addr & lo & err & E & Hpost); auto;
      [cbn [stackRequirement fst snd fr stack]; rewrite !len_cons; lia|].
    eexists _, _. split; [cbn [vm fr contract] in *; unfold with_contract, with_stack; cbn [vm fr contract] in *; rewrite E; reflexivity|]. go. exact Hpost.
Qed.

(** ** Every instruction *)

Lemma execute_ok op s : valid op -> st_ok s -> fst (stackRequirement op) <= len (stack (fr s)) -> covered op (stack (fr s)) (len (store (mem (fr s)))) ->
  low <= depth (vm s) -> Gas (contract (fr s)) + bonus op (stack (fr s)) < n -> u64_ok (Gas (contract (fr s)) + bonus op (stack (fr s))) ->
  wp (execute env run op) s (exec_post op s).
Proof.
  intros Hval Hs Hlen Hcov Hd Hn Hu. pose proof (bonus_nonneg op (stack (fr s))) as Hb.
  destruct op; try (apply exec_arithmetic; [exact I | assumption..]); try (apply exec_environment; [exact I | assumption..]);
    try (apply exec_loads; [exact I | assumption..]); try (apply exec_memory_reads; [exact I | assumption..]);
    try (apply exec_memory_writes; [exact I | assumption..]); try (apply exec_call; [exact I | assumption..]);
    try (apply exec_create; [tauto | assumption.. | lia]); try (apply exec_store; [tauto | assumption..]); try (apply exec_jump; [tauto | assumption..]);
    try (apply wp_fail, failed, Hs); try (apply exec_push; assumption); try (apply exec_dup; assumption); try (apply exec_swap; assumption);
    try (apply exec_log; assumption); try (apply exec_extcodecopy; assumption); try (apply exec_returndatacopy; assumption);
    try (apply exec_selfdestruct; assumption).
  - eapply exec_data_copy; [left; split; reflexivity | reflexivity | assumption..].
  - eapply exec_data_copy; [right; split; reflexivity | reflexivity | assumption..].
Qed.

Definition step_post (op : OpCode) (s s' : St) (r : result vm_error bytes) : Prop :=
  st_ok s' /\ keep s s' /\ Gas (contract (fr s')) <= Gas (contract (fr s)) /\
  forall out, r = Ok out -> bytes_ok out /\ len (stack (fr s')) <= StackLimit /\
    (halts op out = None -> Gas (contract (fr s')) < Gas (contract (fr s))).

Definition undefined (op : OpCode) : Prop := match op with INVALID | UNDEFINED _ => True | _ => False end.

Lemma undefined_fails op s s' out : execute env run op s = Ok (s', Ok out) -> ~ undefined op.
Proof. intros E Hop. destruct op; try contradiction; discriminate. Qed.

(** An instruction that goes on costs more than it can hand out. *)
Lemma net_cost op k out : halts op out = None -> ~ undefined op -> least op k = 1 + bonus op k.
Proof. destruct op; intros E Hu; try discriminate; try reflexivity; destruct Hu; exact I. Qed.

Lemma net_bonus op k : bonus op k <= least op k.
Proof. destruct op; cbn [least bonus]; unfold GasCallStipend; repeat case_match; lia. Qed.

(** After the price is paid and the memory is there. *)
Lemma paid_state s s1 cost extent : paid s s1 -> 0 <= cost <= Gas (contract (fr s)) -> extent <= max_extent ->
  let s2 := with_contract s1 (with_gas (contract (fr s1)) (Gas (contract (fr s1)) - cost)) in
  let s3 := if 0 <? extent then with_mem s2 (Resize (mem (fr s2)) extent) else s2 in
  st_ok s3 /\ keep s s3 /\ stack (fr s3) = stack (fr s) /\ Gas (contract (fr s3)) = Gas (contract (fr s)) - cost /\ extent <= len (store (mem (fr s3))) /\
  pc (fr s3) = pc (fr s).
Proof.
  intros ((Hv & (Hc1 & Hc2 & Hc3 & Hc4) & Hk & Hm & Hp) & (Hkeep & Hck) & Ec & Ek & Ep & Em) Hcost Hext s2 s3.
  destruct (Resize_ok (mem (fr s1)) extent Hm Hext) as [Hr1 Hr2].
  assert (st_ok s2) as Hs2.
  { split; [exact Hv|]. split; [split; [exact Hc1|]; split; [exact Hc2|]; split; [exact Hc3|]; cbn; rewrite Ec in *; unfold u64_ok in *; lia|]. split; [exact Hk | split; assumption]. }
  assert (keep s s2) as Hk2 by (split; [exact Hkeep | exact Hck]).
  subst s3. destruct (Z.ltb_spec 0 extent) as [He|He].
  - split; [|split; [exact Hk2|]]; [|cbn; rewrite Ec; auto].
    destruct Hs2 as (A1 & A2 & A3 & A4 & A5). split; [exact A1|]. split; [exact A2|]. split; [exact A3|]. split; [exact Hr1 | exact A5].
  - split; [exact Hs2|]. split; [exact Hk2|]. cbn. rewrite Ec. split; [exact Ek|]. split; [reflexivity|]. split; [unfold len; lia | exact Ep].
Qed.

Lemma step_ok op s : valid op -> st_ok s -> low <= depth (vm s) -> Gas (contract (fr s)) < n -> wp (step env run op) s (step_post op s).
Proof.
  intros Hval Hs Hd Hn. unfold step. apply wp_bind. eapply wp_mono; [apply (gasCost_priced op s Hs Hval)|]. intros s1 r [Hpaid Hprice].
  pose proof Hpaid as (Hs1 & Hk1 & Ec & Ek & _).
  assert (forall e, step_post op s s1 (Err e)) as Herr.
  { intros e. split; [exact Hs1|]. split; [exact Hk1|]. split; [rewrite Ec; lia | discriminate]. }
  destruct r as [[cost extent]|e]; [|apply Herr]. destruct (Hprice cost extent eq_refl) as (Hleast & Hu & Hext & Hcov & Hpops & Hlim).
  go. unfold UseGas. destruct (Z.ltb_spec (Gas (contract (fr s1))) cost) as [|Hc]; [go; apply Herr|]. go. rewrite Ec in Hc.
  destruct (paid_state s s1 cost extent Hpaid) as (Hs3 & Hk3 & Ek3 & Eg3 & Hl3 & _); [unfold u64_ok in Hu; lia | lia|].
  set (s3 := if 0 <? extent then _ else _) in *.
  assert (wp (execute env run op) s3 (step_post op s)) as Hexec.
  { pose proof (net_bonus op (stack (fr s))) as Hnb. pose proof (bonus_nonneg op (stack (fr s))) as Hb0. pose proof Hs as (_ & (_ & _ & _ & Hgs) & _).
    assert (wp (execute env run op) s3 (exec_post op s3)) as Hx.
    { apply execute_ok; rewrite ?Ek3, ?Eg3; auto; [destruct Hk3 as [(_ & -> & _) _]; exact Hd | lia | unfold u64_ok in *; lia]. }
    destruct Hx as (s' & r & E & H1 & H2 & H3 & H4). exists s', r. split; [exact E|].
    rewrite Ek3, Eg3 in H3. split; [exact H1|]. split; [eapply keep_trans; eassumption|]. split; [lia|].
    intros out ->. destruct (H4 out eq_refl) as [Ho Hl]. split; [exact Ho|]. rewrite Ek3 in Hl. split; [lia|]. intros Hh.
    rewrite (net_cost op _ out Hh (undefined_fails _ _ _ _ E)) in Hleast. lia. }
  subst s3. destruct (0 <? extent); go; exact Hexec.
Qed.

(** The instruction itself, once paid for. *)
Lemma step_inv op s s' out : valid op -> st_ok s -> step env run op s = Ok (s', Ok out) ->
  exists s3, st_ok s3 /\ keep s s3 /\ pc (fr s3) = pc (fr s) /\ fst (stackRequirement op) <= len (stack (fr s3)) /\ execute env run op s3 = Ok (s', Ok out).
Proof.
  intros Hval Hs. unfold step, bind. destruct (gasCost_priced op s Hs Hval) as (s1 & r & -> & Hpaid & Hprice).
  destruct r as [[cost extent]|e]; [|discriminate]. destruct (Hprice cost extent eq_refl) as (_ & Hu & Hext & _ & Hpops & _). cbn [get].
  pose proof Hpaid as (_ & _ & Ec & _). unfold UseGas. destruct (Z.ltb_spec (Gas (contract (fr s1))) cost) as [|Hc]; [discriminate|]. rewrite Ec in Hc.
  destruct (paid_state s s1 cost extent Hpaid) as (Hs3 & Hk3 & Ek3 & _ & _ & Ep3); [unfold u64_ok in Hu; lia | lia|].
  set (s3 := if 0 <? extent then _ else _) in *. intros E. exists s3. split; [exact Hs3|]. split; [exact Hk3|]. split; [exact Ep3|].
  split; [rewrite Ek3; exact Hpops|]. rewrite <- E. subst s3. destruct (0 <? extent); reflexivity.
Qed.

(** ** The loop *)

Lemma with_pc_ok s p : st_ok s -> u64_ok p -> st_ok (with_pc s p) /\ keep s (with_pc s p).
Proof. intros (Hv & Hc & Hk & Hm & _) Hp. split; [split; [exact Hv|]; split; [exact Hc|]; split; [exact Hk | split; assumption]|]. split; [apply vm_keep_refl | reflexivity]. Qed.

Lemma GetOp_valid c p : valid (GetOp c p).
Proof. unfold GetOp. destruct (_ <? _); [apply opcode_valid | exact I]. Qed.

(** Every turn of the loop that goes on costs gas. *)
Lemma loop_ok fuel : forall s, st_ok s -> low <= depth (vm s) -> Gas (contract (fr s)) < n -> Gas (contract (fr s)) < Z.of_nat fuel ->
  exists s' out err, loop env run fuel s = Ok (s', out, err) /\ st_ok s' /\ keep s s' /\ bytes_ok out /\ Gas (contract (fr s')) <= Gas (contract (fr s)).
Proof.
  induction fuel as [|fuel IH]; intros s Hs Hd Hn Hf; [pose proof Hs as (_ & (_ & _ & _ & Hg) & _); unfold u64_ok in Hg; lia|].
  cbn [loop]. destruct (abort (vm s)).
  { eexists _, _, _. split; [reflexivity|]. split; [exact Hs|]. split; [apply keep_refl|]. split; [constructor | lia]. }
  destruct (step_ok (GetOp (contract (fr s)) (pc (fr s))) s (GetOp_valid _ _) Hs Hd Hn) as (s1 & r & -> & Hs1 & Hk1 & Hg1 & Hok). cbn [rbind].
  destruct r as [out|e]; [|eexists _, _, _; split; [reflexivity|]; split; [exact Hs1|]; split; [exact Hk1|]; split; [constructor | exact Hg1]].
  destruct (Hok out eq_refl) as (Ho & _ & Hlt). destruct (halts _ out) as [[out' err]|] eqn:Eh.
  { eexists _, _, _. split; [reflexivity|]. split; [exact Hs1|]. split; [exact Hk1|]. split; [|exact Hg1].
    destruct (GetOp _ _); try discriminate; injection Eh as <- _; first [exact Ho | constructor]. }
  specialize (Hlt eq_refl). destruct (with_pc_ok s1 (pc (fr s1) +w 1) Hs1 (wrap64_ok _)) as [Hs2 Hk2].
  destruct (IH (with_pc s1 (pc (fr s1) +w 1)) Hs2) as (s' & out' & err & -> & H1 & H2 & H3 & H4); cbn [vm fr contract with_pc] in *;
    [destruct Hk1 as [(_ & -> & _) _]; exact Hd | lia | lia|].
  eexists _, _, _. split; [reflexivity|]. split; [exact H1|]. split; [eapply keep_trans; [exact Hk1|]; eapply keep_trans; [exact Hk2 | exact H2]|]. split; [exact H3 | lia].
Qed.

End Instructions.

(** ** Frames *)

Section Run.
Context `{K : Keccak} `{TS : TrieStore} `{P : Precompiles}.
Variable env : Env.

Lemma enter_ok v static : vm_ok v -> vm_ok (enter v static) /\ depth (enter v static) = depth v + 1 /\ readOnly (enter v static) = readOnly v || static.
Proof. intros [Hi Hr]. destruct v as [d dp [] ero rd ab], static; cbn; (split; [split; [exact Hi | constructor] | auto]). Qed.

Lemma leave_ok v static v2 : vm_ok v2 -> vm_keep (readOnly v || static) (enter v static) v2 ->
  vm_ok (leave (static && negb (readOnly v)) v2) /\ vm_keep (readOnly v || static) v (leave (static && negb (readOnly v)) v2).
Proof.
  intros Hv2 (E1 & E2 & E3 & E4 & E5). destruct v as [d dp ro ero rd ab], v2 as [d2 dp2 ro2 ero2 rd2 ab2].
  destruct static, ro; cbn [enter leave set_depth set_readOnly set_returnData depth readOnly evmReadOnly abort db andb orb negb] in *; (split; [exact Hv2|]); (split; [exact E1|]); split_and!; auto; cbn; try lia.
Qed.

(** A frame entered at depth [1025 - d] or deeper returns with [d] levels of nesting. *)
Lemma Run_ok (n d : nat) : run_ok (Run env n d) (Z.of_nat n) (MaxCallDepth + 1 - Z.of_nat d).
Proof.
  induction d as [|d IH]; intros v c input static Hv Hc Hin Hd Hn; [lia|].
  cbn [Run]. destruct (enter_ok v static Hv) as (Hv1 & Ed & Er). destruct (Z.eqb_spec (len (Code c)) 0).
  { destruct (leave_ok v static (enter v static) Hv1 (vm_keep_refl _ _)) as [L1 L2]. eexists _, _, _, _. split; [reflexivity|].
    split; [exact L1|]. split; [constructor|]. destruct Hc as (_ & _ & _ & Hg). unfold u64_ok in Hg. split; [lia | exact L2]. }
  assert (st_ok (mkSt (enter v static) (mkFrame 0 (with_input c input) [] newMemory))) as Hs.
  { split; [exact Hv1|]. destruct Hc as (H1 & _ & H3 & H4). split; [split; [exact H1|]; split; [exact Hin|]; split; assumption|].
    split; [constructor|]. split; [split; [constructor|]; split; [apply small_u64; cbn; lia | unfold len, max_extent; cbn [length store newMemory mem fr]; lia] | apply small_u64; cbn; lia]. }
  destruct (loop_ok env (Run env n d) _ _ IH n _ Hs) as (s' & out & err & E & H1 & H2 & H3 & H4); [cbn [vm]; lia | exact Hn | exact Hn|].
  rewrite E. cbn [rbind]. destruct H2 as [Hk _]. cbn [vm] in Hk. rewrite Er in Hk.
  destruct (leave_ok v static (vm s') (proj1 H1) Hk) as [L1 L2]. eexists _, _, _, _. split; [reflexivity|].
  split; [exact L1|]. split; [exact H3|]. split; [|exact L2]. destruct H1 as (_ & (_ & _ & _ & Hg) & _). unfold u64_ok in Hg. split; [lia | exact H4].
Qed.

End Run.
End Total.
