(* ===== verification/EvmEffects.v ===== *)
(** What running code can do to the world state.

    Two consequences of the shape of an evolution: a read-only one changes
    nothing but the access list (and may leave an empty account where there was
    none), and none creates value or makes a balance negative. *)

From stdpp Require Import base list gmap relations.
From Stdlib Require Import ZArith Lia.
From S2P Require Import Prelude RLP Common UInt256 Registry StateDB EvmState.
Local Open Scope Z_scope.
Local Open Scope go_scope.

Module Effects.
Import SDB Ev.

#[local] Existing Instances ext_preorder.

Section Effects.
Context `{K : Keccak} `{TS : TrieStore}.

(** A relation that loads and single changes respect holds of an evolution:
    calls that failed are undone. *)
Lemma evolves_related ro (R : World -> World -> Prop) `{!PreOrder R} :
  (forall w w', ext w w' -> R w w') -> (forall s s', effect ro s s' -> R (world s) (world s')) ->
  forall s s', evolves ro s s' -> inv s -> R (world s) (world s').
Proof.
  intros Hext Heff s s' Hev. induction Hev as [s|s s1 s2 He Hev IH|s s1 s2 H1 IH1 H2 IH2|s s1 s2 s3 H1 IH1 Hr H2 IH2]; intros Hi.
  - reflexivity.
  - etransitivity; [apply Heff, He | apply IH]. eapply evolves_inv; [apply evolves_once, He | exact Hi].
  - etransitivity; [apply (IH1 (snapshot_inv s Hi)) | apply IH2]. eapply evolves_inv; [exact H1 | apply snapshot_inv, Hi].
  - destruct (evolves_revert _ _ _ Hi H1) as (s2' & Er & Hi2 & He & _). rewrite Er in Hr. injection Hr as <-.
    etransitivity; [apply Hext, He | apply IH2, Hi2].
Qed.

(** ** Read-only evolution *)

(** What is read of an account; one that is not there reads as an empty one. *)
Definition view (w : World) (a : Address) : option (Z * Z * Hash * Hash * bool) :=
  match live w a with
  | Some o => Some (Balance (o_data o), Nonce (o_data o), CodeHash (o_data o), Root (o_data o), o_selfDestructed o)
  | None => None
  end.

Definition empty_view (v : Z * Z * Hash * Hash * bool) : Prop := v = (0, 0, EmptyCodeHash, EmptyRoot, false).

Record unchanged (w w' : World) : Prop := mkUnchanged
  { un_view : forall a, view w' a = view w a \/ view w a = None /\ exists v, view w' a = Some v /\ empty_view v;
    un_slots : forall a k, slot_value w' a k = slot_value w a k;
    un_transient : forall a k, GetTransientState w' a k = GetTransientState w a k;
    un_logs : forall h, GetLogs w' h = GetLogs w h;
    un_logSize : logSize w' = logSize w;
    un_refund : refund w' = refund w }.

#[local] Instance unchanged_preorder : PreOrder unchanged.
Proof.
  split.
  - intros w. constructor; auto.
  - intros w1 w2 w3 [V1 S1 T1 L1 N1 R1] [V2 S2 T2 L2 N2 R2]. constructor; try congruence. intros a.
    destruct (V1 a) as [E1|(E1 & v & Ev & Hv)], (V2 a) as [E2|(E2 & v2 & Ev2 & Hv2)].
    + left. congruence.
    + right. split; [congruence | eauto].
    + right. split; [exact E1|]. exists v. split; [congruence | exact Hv].
    + congruence.
Qed.

Lemma unchanged_ext w w' : ext w w' -> unchanged w w'.
Proof.
  intros H. constructor; try apply H.
  - intros a. left. unfold view. pose proof (live_ext w w' a H) as Hl. destruct (live w a) as [o|], (live w' a) as [o'|]; try contradiction; [|reflexivity].
    destruct Hl. congruence.
  - apply ext_same_cells, H.
Qed.

(** Changes of the access list leave every object alone. *)
Lemma unchanged_access w A S : unchanged w (set_access w A S).
Proof. constructor; auto. Qed.

Lemma unchanged_warm s a : unchanged (world s) (world (AddAddressToAccessList s a)).
Proof. unfold AddAddressToAccessList. destruct (AddressInAccessList _ _); [reflexivity | apply unchanged_access]. Qed.

Lemma unchanged_warm_slot s a k : unchanged (world s) (world (AddSlotToAccessList s a k)).
Proof.
  unfold AddSlotToAccessList. etransitivity; [apply (unchanged_warm s a)|]. destruct (slot_in _ _ _); [reflexivity | apply unchanged_access].
Qed.

Lemma unchanged_touch s a : live (world s) a = None -> unchanged (world s) (world (CreateAccount s a)).
Proof.
  intros Hn. constructor; try (unfold CreateAccount; destruct (getStateObject_spec (world s) a) as (w & -> & He & Hl & _ & _); rewrite Hn;
    cbn [world with_world record createObject]; first [apply He | intros; apply He]).
  - intros b. unfold CreateAccount. destruct (getStateObject_spec (world s) a) as (w & -> & He & Hl & _ & _). rewrite Hn.
    unfold createObject. cbn [world with_world record]. set (w' := markDirty _ _).
    assert (live w' b = if decide (a = b) then Some (with_created (newObject a NewAccount) true) else live w b) as Hlive by (apply live_put; reflexivity).
    unfold view. rewrite Hlive. destruct (decide (a = b)) as [<-|].
    + right. split; [rewrite Hn; reflexivity|]. eexists. split; [reflexivity|].
      unfold empty_view, newObject, NewAccount. cbn. repeat case_match; reflexivity.
    + left. pose proof (live_ext _ _ b He) as Hx. destruct (live (world s) b) as [o|], (live w b) as [o'|]; try contradiction; [|reflexivity].
      destruct Hx. congruence.
  - intros b k. rewrite (proj1 (CreateAccount_cells s a)). destruct (decide (a = b)) as [<-|]; [|reflexivity].
    unfold slot_value. rewrite Hn. reflexivity.
Qed.

Lemma readonly_unchanged s s' : evolves true s s' -> inv s -> unchanged (world s) (world s').
Proof.
  apply evolves_related; [apply unchanged_preorder | apply unchanged_ext|]. intros s0 s1 He.
  destruct He; try discriminate; auto using unchanged_ext, unchanged_warm, unchanged_warm_slot, unchanged_touch.
Qed.

(** ** Value *)

Definition total (w : World) (l : list Address) : Z := foldr (fun a n => balance_at w a + n) 0 l.

Lemma total_le w w' l : (forall a, balance_at w' a <= balance_at w a) -> total w' l <= total w l.
Proof. intros H. induction l as [|a l IH]; cbn [total foldr]; [lia|]. specialize (H a). unfold total in IH. lia. Qed.

(** One balance of the list changes by [x]. *)
Lemma total_change w w' l a x : (forall b, balance_at w' b = balance_at w b + if decide (a = b) then x else 0) -> NoDup l ->
  total w' l = total w l + if decide (a ∈ l) then x else 0.
Proof.
  intros H. induction l as [|c l IH]; intros Hl; cbn [total foldr]; [rewrite decide_False by apply not_elem_of_nil; lia|].
  apply NoDup_cons in Hl as [Hc Hl]. specialize (IH Hl). unfold total in IH. rewrite IH, H. destruct (decide (a = c)) as [<-|Hne].
  - rewrite (decide_False (P := a ∈ l)) by exact Hc. rewrite decide_True by apply list_elem_of_here. lia.
  - destruct (decide (a ∈ l)).
    + rewrite decide_True by (apply list_elem_of_further; assumption). lia.
    + rewrite decide_False by (rewrite elem_of_cons; tauto). lia.
Qed.

(** Over any large enough list of accounts the value does not grow, and no
    balance falls below zero. *)
Definition no_mint (w w' : World) : Prop :=
  (forall a, 0 <= balance_at w a) ->
  (forall a, 0 <= balance_at w' a) /\ exists X : list Address, forall l, NoDup l -> X ⊆ l -> total w' l <= total w l.

#[local] Instance no_mint_preorder : PreOrder no_mint.
Proof.
  split.
  - intros w Hp. split; [exact Hp|]. exists []. intros l _ _. lia.
  - intros w1 w2 w3 H12 H23 Hp. destruct (H12 Hp) as [P1 (X1 & H1)]. destruct (H23 P1) as [P2 (X2 & H2)]. split; [exact P2|].
    exists (X1 ++ X2). intros l Hl Hs. etransitivity; [apply H2 | apply H1]; auto; intros a Ha; apply Hs, elem_of_app; auto.
Qed.

Lemma no_mint_same w w' : (forall a, balance_at w' a = balance_at w a) -> no_mint w w'.
Proof. intros H Hp. split; [intros a; rewrite H; apply Hp|]. exists []. intros l _ _. apply total_le. intros a. rewrite H. lia. Qed.

Lemma no_mint_transfer s a b x : 0 <= x <= balance_at (world s) a -> no_mint (world s) (world (add_balance (sub_balance s a x) b x)).
Proof.
  intros Hx Hp. pose proof (proj2 (sub_balance_cells s a x)) as H1. pose proof (proj2 (add_balance_cells (sub_balance s a x) b x)) as H2. split.
  - intros c. rewrite H2, H1. specialize (Hp c). destruct (decide (b = c)), (decide (a = c)) as [Ea|]; try (subst c); lia.
  - exists [a; b]. intros l Hl Hs. rewrite (total_change _ _ l b x H2 Hl).
    rewrite (total_change (world s) (world (sub_balance s a x)) l a (- x)); [|intros c; rewrite H1; destruct (decide _); lia | exact Hl].
    rewrite !decide_True; [lia | apply Hs; set_solver..].
Qed.

Lemma no_mint_destruct s a b : no_mint (world s) (world (SelfDestruct (add_balance s b (balance_at (world s) a)) a)).
Proof.
  set (x := balance_at (world s) a). pose proof (proj2 (add_balance_cells s b x)) as H1.
  pose proof (proj2 (SelfDestruct_cells (add_balance s b x) a)) as H2. intros Hp. assert (0 <= x) as Hx by apply Hp. split.
  - intros c. rewrite H2, H1. pose proof (Hp c). destruct (decide (a = c)), (decide (b = c)); lia.
  - exists [a; b]. intros l Hl Hs. set (y := balance_at (world (add_balance s b x)) a).
    rewrite (total_change (world (add_balance s b x)) _ l a (- y)); [|intros c; rewrite H2; subst y; destruct (decide (a = c)) as [<-|]; lia | exact Hl].
    rewrite (total_change _ _ l b x H1 Hl), !decide_True by (apply Hs; set_solver). subst y. rewrite H1. fold x. destruct (decide (b = a)); lia.
Qed.

Lemma getOrNew_object s a : objects (world (fst (getOrNewStateObject s a))) !! a = Some (snd (getOrNewStateObject s a)).
Proof.
  unfold getOrNewStateObject. destruct (getStateObject_spec (world s) a) as (w & -> & _ & _ & Hs & _).
  destruct (live (world s) a); [apply Hs, eq_refl | apply lookup_insert_eq].
Qed.

Lemma SetCode_balance s a c b : balance_at (world (SetCode s a c)) b = balance_at (world s) b.
Proof.
  unfold SetCode. pose proof (getOrNew_cells s a) as [_ Hb]. pose proof (getOrNew_live s a) as Hl. pose proof (getOrNew_object s a) as Ho.
  destruct (getOrNewStateObject s a) as [s1 o]. cbn [fst snd] in *. rewrite <- Hb.
  destruct (codeOf_spec _ _ _ Ho) as (w & pc & o' & -> & He & Ho' & Hx & _). unfold current. rewrite Ho'. cbn [from_option id].
  rewrite <- (proj2 (ext_same_cells _ _ He)). assert (o_deleted o' = false) as Hd by (rewrite (oe_deleted _ _ _ _ Hx); apply (live_not_deleted _ _ _ Hl)).
  unfold balance_at. cbn [world record with_world]. erewrite (live_put w _ a _ b) by (try reflexivity; exact Hd).
  destruct (decide (a = b)) as [<-|]; [|reflexivity]. unfold live. rewrite Ho', Hd. reflexivity.
Qed.

Lemma effect_no_mint ro s s' : effect ro s s' -> no_mint (world s) (world s').
Proof.
  destruct 1 as [w He|a|a k|a Hl|a|g|g|a k v|a k v|l|a n|a c|a b x Hro Hx|a b];
    [| | | | | | | | | | | | apply no_mint_transfer, Hx | apply no_mint_destruct]; apply no_mint_same; intros e.
  - apply ext_same_cells, He.
  - unfold AddAddressToAccessList. destruct (AddressInAccessList _ _); reflexivity.
  - unfold AddSlotToAccessList, AddAddressToAccessList. destruct (AddressInAccessList _ _), (slot_in _ _ _); reflexivity.
  - apply CreateAccount_cells.
  - apply CreateAccount_cells.
  - reflexivity.
  - unfold SubRefund. cbn [record world]. destruct (_ <? g); [|reflexivity]. unfold setError. destruct (err (world s)); reflexivity.
  - apply set_state_cells.
  - unfold SetTransientState. destruct (bool_decide _); reflexivity.
  - reflexivity.
  - apply SetNonce_balance.
  - apply SetCode_balance.
Qed.

Lemma evolves_no_mint ro s s' : evolves ro s s' -> inv s -> no_mint (world s) (world s').
Proof. apply evolves_related; [apply no_mint_preorder | intros w w' H; apply no_mint_same, ext_same_cells, H | apply effect_no_mint]. Qed.

End Effects.
End Effects.
