(* ===== verification/EvmJumps.v ===== *)
(** Where code runs.

    Decoding the code from its start, one instruction after the other, fixes
    which positions hold instructions and which the immediate bytes of a push.
    The bitmap of [codeBitmap] is that decoding, and a running frame only ever
    reads instructions at those positions. *)

From stdpp Require Import base list gmap relations.
From Stdlib Require Import ZArith Lia.
From S2P Require Import Prelude RLP Common UInt256 Registry StateDB EvmData Interpreter EvmState EvmSafety EvmExec EvmGas EvmCalls EvmRun.
Local Open Scope Z_scope.
Local Open Scope go_scope.

Module Jumps.
Import Vm Interp Ev Safe Exec Price Calls Total.

(** * Decoding *)

Definition op_at (code : bytes) (p : Z) : OpCode := opcode (nth (Z.to_nat p) code 0).
Definition next (code : bytes) (p : Z) : Z := p + 1 + PushSize (op_at code p).

(** [instruction code p]: decoding reaches position [p]. *)
Inductive instruction (code : bytes) : Z -> Prop :=
| instr_start : instruction code 0
| instr_next p : instruction code p -> p < len code -> instruction code (next code p).

Lemma PushSize_range b : 0 <= PushSize (opcode b) <= 32.
Proof.
  assert (0 <= PushSize (family b) <= 32) as H.
  { unfold family. repeat (bcase; [cbn [PushSize]; lia|]). cbn [PushSize]. lia. }
  unfold opcode. repeat case_match; try exact H; cbn [PushSize]; lia.
Qed.

Lemma next_bound code p : p + 1 <= next code p <= p + 33.
Proof. unfold next, op_at. pose proof (PushSize_range (nth (Z.to_nat p) code 0)). lia. Qed.

Lemma instruction_nonneg code p : instruction code p -> 0 <= p.
Proof. induction 1 as [|p H IH Hl]; [lia|]. pose proof (next_bound code p). lia. Qed.

(** Nothing is decoded inside an instruction. *)
Lemma instruction_gap code (n : nat) : forall p q, instruction code p -> instruction code q -> p < q -> q <= Z.of_nat n -> next code p <= q.
Proof.
  induction n as [|n IH]; intros p q Hp Hq Hlt Hn; [apply instruction_nonneg in Hp; lia|].
  destruct Hq as [|q0 Hq0 Hl]; [apply instruction_nonneg in Hp; lia|]. pose proof (next_bound code q0).
  destruct (Z.lt_trichotomy p q0) as [H1|[-> |H1]].
  - specialize (IH p q0 Hp Hq0 H1). lia.
  - lia.
  - specialize (IH q0 p Hq0 Hp H1). lia.
Qed.

(** * The bitmap *)

Lemma isCode_set bits p q : 0 <= p -> 0 <= q -> p < 8 * len bits -> isCode (set_bit bits p) q = if decide (q = p) then false else isCode bits q.
Proof.
  intros Hp Hq Hl. unfold isCode, set_bit. set (i := Z.to_nat (p / 8)). set (j := Z.to_nat (q / 8)).
  assert (i < length bits)%nat as Hi by (unfold i, len in *; pose proof (Z.div_lt_upper_bound p 8 (Z.of_nat (length bits))); lia).
  pose proof (Z.mod_pos_bound p 8 eq_refl). pose proof (Z.mod_pos_bound q 8 eq_refl).
  pose proof (Z.div_mod p 8 ltac:(lia)). pose proof (Z.div_mod q 8 ltac:(lia)).
  assert (forall x m, 0 <= m -> (Z.land x (Z.shiftl 1 m) =? 0) = negb (Z.testbit x m)) as Hbit.
  { intros x m Hm. rewrite Z.shiftl_1_l. destruct (Z.eqb_spec (Z.land x (2 ^ m)) 0) as [E|E].
    - apply (f_equal (fun z => Z.testbit z m)) in E. rewrite Z.land_spec, Z.pow2_bits_true, Z.bits_0, andb_true_r in E by lia. rewrite E. reflexivity.
    - destruct (Z.testbit x m) eqn:Et; [reflexivity|]. exfalso. apply E. apply Z.bits_inj'. intros k Hk. rewrite Z.land_spec, Z.bits_0.
      destruct (Z.eq_dec m k) as [->|Hne]; [rewrite Et; reflexivity | rewrite Z.pow2_bits_false by lia; apply andb_false_r]. }
  rewrite !Hbit by lia. rewrite !nth_lookup. destruct (decide (i = j)) as [Eij|Hij].
  - rewrite <- Eij, list_lookup_insert_eq by exact Hi. cbn [default from_option]. unfold id. rewrite Z.lor_spec, Z.shiftl_1_l.
    destruct (decide (q = p)) as [->|Hne]; [rewrite Z.pow2_bits_true by lia; rewrite orb_true_r; reflexivity|].
    rewrite Z.pow2_bits_false by (unfold i, j in Eij; apply (f_equal Z.of_nat) in Eij; rewrite !Z2Nat.id in Eij by (apply Z.div_pos; lia); lia).
    rewrite orb_false_r. reflexivity.
  - rewrite list_lookup_insert_ne by exact Hij. destruct (decide (q = p)) as [->|]; [contradiction | reflexivity].
Qed.

Lemma set_bit_len bits p : len (set_bit bits p) = len bits.
Proof. unfold set_bit, len. rewrite length_insert. reflexivity. Qed.

Lemma mark_push_spec n : forall bits L pc, 0 <= pc -> L <= 8 * len bits ->
  len (mark_push bits L pc n) = len bits /\
  forall q, 0 <= q -> isCode (mark_push bits L pc n) q = if decide (pc <= q < Z.min L (pc + Z.of_nat n)) then false else isCode bits q.
Proof.
  induction n as [|n IH]; intros bits L pc Hpc HL; cbn [mark_push].
  - split; [reflexivity|]. intros q Hq. rewrite decide_False by lia. reflexivity.
  - destruct (Z.ltb_spec pc L) as [Hlt|Hge].
    + destruct (IH (set_bit bits pc) L (pc + 1)) as [E1 E2]; [lia | rewrite set_bit_len; exact HL|]. rewrite E1, set_bit_len. split; [reflexivity|].
      intros q Hq. rewrite E2, isCode_set by lia. repeat destruct (decide _); try reflexivity; lia.
    + split; [reflexivity|]. intros q Hq. rewrite decide_False by lia. reflexivity.
Qed.

(** What holds when the scan is at position [pc]. *)
Definition scanned (code bits : bytes) (pc : Z) : Prop :=
  instruction code pc /\ len code <= 8 * len bits /\
  forall q, 0 <= q < len code -> isCode bits q = true <-> (instruction code q \/ pc <= q).

Lemma scanned_step code bits pc : scanned code bits pc -> pc < len code ->
  scanned code (mark_push bits (len code) (pc + 1) (Z.to_nat (PushSize (op_at code pc)))) (next code pc).
Proof.
  intros (Hi & HL & Hq) Hlt. pose proof (instruction_nonneg _ _ Hi) as Hpc. pose proof (PushSize_range (nth (Z.to_nat pc) code 0)) as Hs. fold (op_at code pc) in Hs.
  destruct (mark_push_spec (Z.to_nat (PushSize (op_at code pc))) bits (len code) (pc + 1) ltac:(lia) HL) as [E1 E2].
  split; [apply instr_next; assumption|]. split; [rewrite E1; exact HL|]. intros q Hr. rewrite E2 by lia. rewrite Z2Nat.id by lia.
  destruct (decide (pc + 1 <= q < Z.min (len code) (pc + 1 + PushSize (op_at code pc)))) as [Hin|Hout].
  - split; [discriminate|]. unfold next. intros [H|H]; [|lia]. pose proof (instruction_gap code (Z.to_nat q) pc q Hi H). unfold next in *. lia.
  - rewrite (Hq q Hr). unfold next in *. split; (intros [H|H]; [left; exact H|]).
    + destruct (Z.eq_dec q pc) as [->|]; [left; exact Hi | right; lia].
    + right. lia.
Qed.

Lemma bitmap_loop_spec code fuel : forall bits pc, scanned code bits pc -> len code - pc <= Z.of_nat fuel ->
  forall q, 0 <= q < len code -> isCode (bitmap_loop fuel code bits pc) q = true <-> instruction code q.
Proof.
  induction fuel as [|fuel IH]; intros bits pc Hs Hf q Hq; cbn [bitmap_loop].
  - rewrite (proj2 (proj2 Hs) q Hq). split; [intros [H|H]; [exact H | lia] | auto].
  - destruct (Z.ltb_spec pc (len code)) as [Hlt|Hge].
    + pose proof (scanned_step code bits pc Hs Hlt) as Hn. pose proof (next_bound code pc). fold (op_at code pc).
      assert (bitmap_loop fuel code (mark_push bits (len code) (pc + 1) (Z.to_nat (PushSize (op_at code pc)))) (next code pc) =
        (if IsPush (op_at code pc) then bitmap_loop fuel code (mark_push bits (len code) (pc + 1) (Z.to_nat (PushSize (op_at code pc)))) (pc + 1 + PushSize (op_at code pc))
         else bitmap_loop fuel code bits (pc + 1))) as <-.
      { unfold next. destruct (op_at code pc); cbn [IsPush PushSize Z.to_nat mark_push]; rewrite ?Z.add_0_r; reflexivity. }
      apply IH; [exact Hn | lia | exact Hq].
    + rewrite (proj2 (proj2 Hs) q Hq). split; [intros [H|H]; [exact H | lia] | auto].
Qed.

Lemma scanned_start code : scanned code (zeros (length code / 8 + 1 + 4)) 0.
Proof.
  split; [constructor|]. split.
  - unfold zeros, len. rewrite length_replicate. pose proof (Nat.div_mod_eq (length code) 8). pose proof (Nat.mod_upper_bound (length code) 8). lia.
  - intros q Hq. split; [intros _; right; lia|]. intros _. unfold isCode, zeros. rewrite nth_lookup.
    destruct (replicate _ 0 !! _) as [x|] eqn:E; [apply lookup_replicate in E as [-> _]|]; reflexivity.
Qed.

Lemma codeBitmap_spec code q : 0 <= q < len code -> isCode (codeBitmap code) q = true <-> instruction code q.
Proof. intros Hq. apply bitmap_loop_spec; [apply scanned_start | unfold len; lia | exact Hq]. Qed.

Lemma validJumpdest_spec c dest : U256.wf dest -> len (Code c) <= max_int64 ->
  validJumpdest c dest = true <-> U256.val dest < len (Code c) /\ op_at (Code c) (U256.val dest) = JUMPDEST /\ instruction (Code c) (U256.val dest).
Proof.
  intros Hw Hl. unfold validJumpdest. pose proof (U256.val_bounds dest Hw) as Hv. destruct (U256.IsUint64 dest) eqn:Eu; cbn [negb].
  - rewrite (U256.IsUint64_l0 dest Hw Eu). fold (op_at (Code c) (U256.val dest)). destruct (Z.leb_spec (len (Code c)) (U256.val dest)) as [H|H].
    + split; [discriminate|]. intros (? & _). lia.
    + case_bool_decide as Ho; cbn [negb]; [|split; [discriminate | intros (_ & ? & _); contradiction]].
      rewrite codeBitmap_spec by lia. tauto.
  - rewrite (U256.IsUint64_spec dest Hw) in Eu. apply Z.ltb_ge in Eu. unfold two64, max_int64 in *. split; [discriminate | lia].
Qed.

(** * Running *)

Section Running.
Context `{K : Keccak} `{TS : TrieStore} `{P : Precompiles}.
Variable env : Env.
Variable run : VM -> Contract -> bytes -> bool -> result fault (VM * Contract * bytes * option vm_error).

(** Computations that leave program counter and code alone. *)
Section Fixed.
Variable p0 : Z.
Variable code0 : bytes.

Definition at_pc (s : St) : Prop := pc (fr s) = p0 /\ Code (contract (fr s)) = code0.
Definition fixed {A} (m : M A) : Prop := forall s s' r, at_pc s -> m s = Ok (s', r) -> at_pc s'.

Lemma fixed_bind {A B} (m : M A) (k : A -> M B) : fixed m -> (forall a, fixed (k a)) -> fixed (bind m k).
Proof.
  intros Hm Hk s s' r Hs. unfold bind. destruct (m s) as [[s1 [a|e]]|] eqn:E; [|intros [= <- <-]; eapply Hm; eassumption | discriminate].
  intros H. eapply Hk; [eapply Hm; eassumption | exact H].
Qed.

Lemma fixed_contract {B} (k : Contract -> M B) : (forall c, Code c = code0 -> fixed (k c)) -> fixed (bind (get (fun s => contract (fr s))) k).
Proof. intros Hk s s' r Hs. apply Hk; [apply Hs | exact Hs]. Qed.

Lemma fixed_const {A} (r : result vm_error A) : fixed (fun s => Ok (s, r)).
Proof. intros s s' r' Hs [= <- <-]. exact Hs. Qed.
Lemma fixed_get {A} (f : St -> A) : fixed (get f).
Proof. intros s s' r Hs [= <- <-]. exact Hs. Qed.
Lemma fixed_update f : (forall s, at_pc s -> at_pc (f s)) -> fixed (update f).
Proof. intros H s s' r Hs [= <- <-]. apply H, Hs. Qed.
Lemma fixed_orPanic {A} (o : option A) : fixed (orPanic o).
Proof. intros s s' r Hs. unfold orPanic. destruct o; [intros [= <- <-]; exact Hs | discriminate]. Qed.
Lemma fixed_guard b e : fixed (guard b e).
Proof. unfold guard. destruct b; apply fixed_const. Qed.
Lemma fixed_query {A} (f : SDB.World -> SDB.World * A) : fixed (query f).
Proof. intros s s' r Hs. unfold query. destruct (f _). intros [= <- <-]. exact Hs. Qed.
Lemma fixed_pop : fixed pop.
Proof. intros s s' r Hs. unfold pop. destruct (stack (fr s)); [discriminate|]. intros [= <- <-]. exact Hs. Qed.
Lemma fixed_peek : fixed peek.
Proof. intros s s' r Hs. unfold peek. destruct (stack (fr s)); [discriminate|]. intros [= <- <-]. exact Hs. Qed.
Lemma fixed_item n : fixed (item n).
Proof. intros s s' r Hs. apply (fixed_orPanic _ _ _ _ Hs). Qed.

(** A computation chosen by the state it starts from. *)
Lemma fixed_of {A} (F : St -> M A) : (forall s, fixed (F s)) -> fixed (fun s => F s s).
Proof. intros H s s' r. apply H. Qed.

Ltac fixed_tac :=
  repeat first
    [ apply fixed_contract; intros ? ? | apply fixed_bind; [|intros ?] | apply fixed_const | apply fixed_get | apply fixed_orPanic | apply fixed_guard
    | apply fixed_query | apply fixed_pop | apply fixed_peek | apply fixed_item | apply fixed_update; intros ? ?; assumption
    | match goal with
      | |- fixed (let '(_, _) := ?x in _) => destruct x
      | |- fixed (if ?b then _ else _) => destruct b
      | |- fixed (match ?x with Some _ => _ | None => _ end) => destruct x
      end ].

Lemma fixed_memSet o z b : fixed (memSet o z b).
Proof. apply (fixed_of (fun s => bind (orPanic (MemSet (mem (fr s)) o z b)) (fun m => update (fun s => with_mem s m)))). intros s. fixed_tac. Qed.

Lemma fixed_memCopy o z : fixed (memCopy o z).
Proof. apply (fixed_of (fun s => orPanic (GetCopy (mem (fr s)) o z))). intros s. fixed_tac. Qed.

Lemma fixed_topics n : fixed ((fix go (n : nat) : M (list Hash) :=
    match n with
    | O => ret []
    | S n => bind pop (fun t => bind (go n) (fun ts => ret (U256.Bytes32 t :: ts)))
    end) n).
Proof. induction n as [|n IH]; [apply fixed_const|]. apply fixed_bind; [apply fixed_pop|]. intros t. apply fixed_bind; [exact IH|]. intros ts. apply fixed_const. Qed.

Lemma fixed_refund (c : Contract) g s : Code c = code0 -> at_pc s -> at_pc (with_contract s (default c (UseGas c g))).
Proof. intros Hc [Hp _]. unfold UseGas. destruct (_ <? _); (split; [exact Hp | exact Hc]). Qed.

(** A call: the frame of the caller is untouched. *)
Lemma fixed_start k c addr input gas x : fixed (fun s =>
  rbind (start_call run k (vm s) (c s) addr input gas x) (fun '(v', out, leftOver, err) => Ok (with_vm s v', Ok (out, leftOver, err)))).
Proof. intros s s' r Hs. destruct (start_call _ _ _ _ _ _ _ _) as [[[[v' out] lo] err]|]; cbn [rbind]; [intros [= <- <-]; exact Hs | discriminate]. Qed.

Lemma fixed_create (b : bool) c code gas x salt : fixed (fun s =>
  rbind (if b then Create2 run (vm s) (c s) code gas x salt else Create run (vm s) (c s) code gas x)
    (fun '(v', out, addr, leftOver, err) => Ok (with_vm s v', Ok (out, addr, leftOver, err)))).
Proof.
  intros s s' r Hs. destruct (if b then _ else _) as [[[[[v' out] a] lo] err]|]; cbn [rbind]; [intros [= <- <-]; exact Hs | discriminate].
Qed.

Ltac fixed_all :=
  repeat first
    [ apply fixed_memSet | apply fixed_memCopy | apply fixed_topics | apply (fixed_start _ (fun s => FrameRef (contract (fr s)))) | apply (fixed_create _ (fun s => FrameRef (contract (fr s))))
    | apply fixed_update; intros ? ?; apply fixed_refund; assumption
    | apply fixed_update; intros ? [? ?]; split; assumption
    | apply fixed_contract; intros ? ? | apply fixed_bind; [|intros ?] | apply fixed_const | apply fixed_get | apply fixed_orPanic | apply fixed_guard
    | apply fixed_query | apply fixed_pop | apply fixed_peek | apply fixed_item
    | match goal with
      | |- fixed (let '(_, _) := ?x in _) => destruct x
      | |- fixed (if ?b then _ else _) => destruct b
      | |- fixed (match ?x with Some _ => _ | None => _ end) => destruct x
      end ].

Lemma fixed_perform_call k gw a v io iz ro rz : fixed (perform_call run k gw a v io iz ro rz).
Proof. unfold perform_call. fixed_all. Qed.

Lemma fixed_opCreate b : fixed (opCreate run b).
Proof. unfold opCreate. fixed_all. Qed.

Definition jumps (op : OpCode) : Prop := match op with PUSH _ | JUMP | JUMPI => True | _ => False end.

Lemma fixed_execute op : ~ jumps op -> fixed (execute env run op).
Proof.
  intros Hj. destruct op; try (destruct Hj; exact I); unfold execute, opCall, opReturnDataCopy, opBlockHash, opSelfDestruct, opStore, opLog;
    try (apply fixed_bind; [apply fixed_opCreate | intros ?; apply fixed_const]); fixed_all; try apply fixed_perform_call.
  all: intros s s' r Hs; apply (fixed_orPanic _ _ _ _ Hs).
Qed.

End Fixed.
(** ** Instructions that move the program counter *)

Lemma push_execute n s s' out : execute env run (PUSH n) s = Ok (s', Ok out) ->
  pc (fr s') = pc (fr s) +w n /\ contract (fr s') = contract (fr s).
Proof.
  unfold execute, opPush, bind, get. destruct (pc (fr s) +w 1 <? len (Code (contract (fr s)))); [destruct (slice _ _ _); [|discriminate]|];
    intros [= <- _]; auto.
Qed.

(** A jump goes to a valid destination, or a conditional one falls through. *)
Definition jumped (s s' : St) : Prop :=
  pc (fr s') = pc (fr s) \/ exists dest, U256.wf dest /\ validJumpdest (contract (fr s)) dest = true /\ pc (fr s') = U256.l0 dest -w 1.

Lemma jumpTo_inv dest s s' u : U256.wf dest -> jumpTo dest s = Ok (s', Ok u) -> jumped s s' /\ contract (fr s') = contract (fr s).
Proof.
  intros Hw. unfold jumpTo, bind, get, guard. destruct (validJumpdest _ dest) eqn:E; [|discriminate]. intros [= <- _]. split; [right | reflexivity].
  exists dest. auto.
Qed.

Lemma jump_execute op s s' out : op = JUMP \/ op = JUMPI -> st_ok s -> fst (stackRequirement op) <= len (stack (fr s)) ->
  execute env run op s = Ok (s', Ok out) -> jumped s s' /\ contract (fr s') = contract (fr s).
Proof.
  intros Hop Hs Hlen. destruct s as [v [p c k m]]. cbn [fr stack] in Hlen. destruct Hop as [-> | ->]; uncons Hlen; words Hs; unfold execute, bind, pop; cbn [stack fr with_stack].
  - destruct (jumpTo i _) as [[s1 [u|e]]|] eqn:E; try discriminate. intros [= <- _]. apply jumpTo_inv in E; assumption.
  - destruct (negb (U256.IsZero i0)); [|intros [= <- _]; split; [left|]; reflexivity].
    destruct (jumpTo i _) as [[s1 [u|e]]|] eqn:E; try discriminate. intros [= <- _]. apply jumpTo_inv in E; assumption.
Qed.

(** ** The invariant of the loop *)

(** One turn of the loop that goes on. *)
Inductive turn (s : St) : St -> Prop :=
| turn_next s1 out : abort (vm s) = false -> step env run (GetOp (contract (fr s)) (pc (fr s))) s = Ok (s1, Ok out) ->
    halts (GetOp (contract (fr s)) (pc (fr s))) out = None -> turn s (with_pc s1 (pc (fr s1) +w 1)).

(** The turns as a function: [k] of them, when the loop goes on that long. *)
Fixpoint turns (k : nat) (s : St) : option St :=
  match k with
  | O => Some s
  | S k =>
      if abort (vm s) then None
      else match step env run (GetOp (contract (fr s)) (pc (fr s))) s with
           | Ok (s1, Ok out) =>
               match halts (GetOp (contract (fr s)) (pc (fr s))) out with
               | None => turns k (with_pc s1 (pc (fr s1) +w 1))
               | Some _ => None
               end
           | _ => None
           end
  end.

Lemma turns_rtc k : forall s s', turns k s = Some s' -> rtc turn s s'.
Proof.
  induction k as [|k IH]; intros s s'; cbn [turns]; [intros [= <-]; apply rtc_refl|].
  destruct (abort (vm s)) eqn:Ea; [discriminate|]. destruct (step _ _ _ s) as [[s1 [out|e]]|] eqn:Es; try discriminate.
  destruct (halts _ out) eqn:Eh; [discriminate|]. intros H. eapply rtc_l; [econstructor; eassumption | apply IH, H].
Qed.

(** The frame is about to read an instruction, or is past the end of its code. *)
Definition placed (code : bytes) (p : Z) : Prop := u64_ok p /\ (instruction code p \/ len code <= p).

Lemma placed_next code p : len code <= max_int64 -> placed code p -> p < len code -> placed code (next code p).
Proof.
  intros Hl [Hu [Hi|Hi]] Hp; [|lia]. pose proof (next_bound code p). unfold u64_ok, two64, max_int64 in *.
  split; [unfold u64_ok, two64; lia|]. left. apply instr_next; assumption.
Qed.

Lemma jumps_cases op : jumps op \/ ~ jumps op.
Proof. destruct op; cbn [jumps]; tauto. Qed.

Lemma jumps_inv op : jumps op -> (exists n, op = PUSH n) \/ op = JUMP \/ op = JUMPI.
Proof. destruct op; cbn [jumps]; try contradiction; eauto. Qed.

(** The next position, computed on 64 bits. *)
Lemma next_wrap code p k : len code <= max_int64 -> 0 <= p < len code -> k = PushSize (op_at code p) -> (p +w k) +w 1 = next code p.
Proof.
  intros Hl Hp ->. pose proof (PushSize_range (nth (Z.to_nat p) code 0)) as Hr. fold (op_at code p) in Hr. unfold next, max_int64 in *.
  rewrite (wrap64_small (p + _)) by (unfold u64_ok, two64; lia). rewrite wrap64_small by (unfold u64_ok, two64; lia). lia.
Qed.

Lemma jump_lands c dest : U256.wf dest -> len (Code c) <= max_int64 -> validJumpdest c dest = true -> placed (Code c) ((U256.l0 dest -w 1) +w 1).
Proof.
  intros Hw Hl Hv. pose proof (proj1 (validJumpdest_spec c dest Hw Hl) Hv) as (H1 & _ & H3). pose proof (U256.val_bounds dest Hw) as Hb.
  assert (U256.l0 dest = U256.val dest) as E.
  { apply U256.IsUint64_l0; [exact Hw|]. rewrite U256.IsUint64_spec by exact Hw. apply Z.ltb_lt. unfold two64, max_int64 in *. lia. }
  assert ((U256.l0 dest -w 1) +w 1 = U256.val dest) as ->.
  { rewrite E. unfold wrap64. rewrite Zplus_mod_idemp_l, Z.sub_add. apply Z.mod_small. unfold two64, max_int64 in *. lia. }
  split; [unfold u64_ok, two64, max_int64 in *; lia | left; exact H3].
Qed.

(** The position after an instruction that ran at a proper one. *)
Lemma turn_placed op s3 s1 out : let code := Code (contract (fr s3)) in
  st_ok s3 -> fst (stackRequirement op) <= len (stack (fr s3)) -> execute env run op s3 = Ok (s1, Ok out) ->
  placed code (pc (fr s3)) -> pc (fr s3) < len code -> op = op_at code (pc (fr s3)) -> placed code (pc (fr s1) +w 1).
Proof.
  intros code Hs3 Hk3 Hx Hpl Hlt Hop. pose proof Hs3 as (_ & ((_ & Hlen) & _) & _). pose proof (proj1 Hpl) as [Hp _].
  pose proof (placed_next code _ Hlen Hpl Hlt) as Hn.
  assert (PushSize op = 0 -> pc (fr s1) = pc (fr s3) -> placed code (pc (fr s1) +w 1)) as Hsame.
  { intros E0 ->. rewrite <- (next_wrap code (pc (fr s3)) 0 Hlen ltac:(lia)) in Hn by (rewrite <- Hop; auto).
    rewrite Z.add_0_r in Hn. rewrite (wrap64_small (pc (fr s3)) (proj1 Hpl)) in Hn. exact Hn. }
  destruct (jumps_cases op) as [Hj|Hj].
  - destruct (jumps_inv op Hj) as [[n En]|Hjump].
    + rewrite En in Hx. destruct (push_execute n s3 s1 out Hx) as [-> _]. rewrite (next_wrap code (pc (fr s3)) n Hlen ltac:(lia)); [exact Hn|]. rewrite <- Hop, En. reflexivity.
    + destruct (jump_execute op s3 s1 out Hjump Hs3 Hk3 Hx) as [[E | (dest & Hw & Hv & ->)] _]; [|apply jump_lands; assumption].
      apply Hsame; [destruct Hjump as [-> | ->]; reflexivity | exact E].
  - apply Hsame; [destruct op; try reflexivity; destruct Hj; exact I|].
    apply (fixed_execute (pc (fr s3)) code op Hj s3 s1 (Ok out)); [split; reflexivity | exact Hx].
Qed.

Lemma turn_code s s' : st_ok s -> turn s s' -> placed (Code (contract (fr s))) (pc (fr s)) -> placed (Code (contract (fr s))) (pc (fr s')).
Proof.
  intros Hs [s1 out Ha Hstep Hh] Hpl. cbn [fr with_pc pc]. set (op := GetOp _ _) in *.
  destruct (step_inv env run op s s1 out (GetOp_valid _ _) Hs Hstep) as (s3 & Hs3 & [_ Hc3] & Hp3 & Hk3 & Hx). apply (f_equal Code) in Hc3. cbn [Code with_gas] in Hc3.
  rewrite <- Hc3 in *. rewrite <- Hp3 in *. 
  assert (pc (fr s3) < len (Code (contract (fr s3))) /\ op = op_at (Code (contract (fr s3))) (pc (fr s3))) as [Hlt Hop].
  { subst op. unfold GetOp in *. rewrite <- Hc3, <- Hp3 in *. destruct (Z.ltb_spec (pc (fr s3)) (len (Code (contract (fr s3))))); [auto | discriminate]. }
  eapply turn_placed; eassumption.
Qed.

End Running.

(** * Frames *)

Section Frames.
Context `{K : Keccak} `{TS : TrieStore} `{P : Precompiles}.
Variable env : Env.

(** The frame [Run] starts. *)
Definition started (v : VM) (c : Contract) (input : bytes) (static : bool) : St :=
  mkSt (enter v static) (mkFrame 0 (with_input c input) [] newMemory).

Lemma started_ok v c input static : vm_ok v -> contract_ok c -> bytes_ok input -> st_ok (started v c input static).
Proof.
  intros Hv (H1 & _ & H3 & H4) Hin. split; [apply enter_ok, Hv|]. split; [split; [exact H1|]; split; [exact Hin|]; split; assumption|].
  split; [constructor|]. split; [split; [constructor|]; split; [apply small_u64; cbn; lia | unfold len, max_extent; cbn [length store newMemory mem fr started]; lia] | apply small_u64; cbn; lia].
Qed.

(** What every turn of the loop keeps. *)
Definition running (n d : nat) (code : bytes) (s : St) : Prop :=
  st_ok s /\ MaxCallDepth + 1 - Z.of_nat d <= depth (vm s) /\ Gas (contract (fr s)) < Z.of_nat n /\ Code (contract (fr s)) = code /\
  placed code (pc (fr s)) /\ len (stack (fr s)) <= StackLimit.

Lemma turn_running n d code s s' : running n d code s -> turn env (Run env n d) s s' -> running n d code s'.
Proof.
  intros (Hs & Hd & Hg & Hc & Hp & Hk) Ht. pose proof (turn_code env (Run env n d) s s' Hs Ht) as Hpl. rewrite Hc in Hpl. specialize (Hpl Hp).
  destruct Ht as [s1 out Ha Hstep Hh].
  destruct (step_ok env (Run env n d) _ _ (Run_ok env n d) _ s (GetOp_valid (contract (fr s)) (pc (fr s))) Hs Hd Hg) as (s2 & r & E & H1 & [H2 H2c] & H3 & H4).
  rewrite Hstep in E. injection E as <- <-. destruct (H4 out eq_refl) as (_ & H5 & H6). specialize (H6 Hh).
  destruct (with_pc_ok s1 (pc (fr s1) +w 1) H1 (wrap64_ok _)) as [Hok _]. apply (f_equal Code) in H2c. cbn [Code with_gas] in H2c.
  split; [exact Hok|]. cbn [vm fr contract pc stack with_pc] in *. destruct H2 as (_ & -> & _).
  split; [exact Hd|]. split; [lia|]. split; [congruence|]. split; assumption.
Qed.

(** Code runs from instruction to instruction.  In every state a frame
    reaches, the program counter is at a position where decoding the code from
    its start finds an instruction, or past the end of the code: no jump goes
    into the immediate bytes of a push, whatever the code computes its targets
    from.  The code a frame runs never changes, and its stack never holds more
    than 1024 words. *)
Theorem code_runs_at_instructions n d v c input static s :
  vm_ok v -> contract_ok c -> bytes_ok input -> MaxCallDepth - Z.of_nat d <= depth v -> Gas c < Z.of_nat n ->
  rtc (turn env (Run env n d)) (started v c input static) s ->
  (instruction (Code c) (pc (fr s)) \/ len (Code c) <= pc (fr s)) /\ Code (contract (fr s)) = Code c /\ len (stack (fr s)) <= StackLimit.
Proof.
  intros Hv Hc Hin Hd Hg Hreach.
  assert (running n d (Code c) (started v c input static)) as H0.
  { split; [apply started_ok; assumption|]. destruct (enter_ok v static Hv) as (_ & Ed & _). cbn [started vm fr contract pc stack]. split; [lia|].
    split; [exact Hg|]. split; [reflexivity|]. split; [split; [apply small_u64; lia | left; constructor] | unfold len, StackLimit; cbn [length]; lia]. }
  assert (running n d (Code c) s) as (_ & _ & _ & H1 & [_ H2] & H3).
  { clear Hd Hg. induction Hreach as [s|s s1 s2 Ht Hr IH]; [exact H0 | eauto using turn_running]. }
  auto.
Qed.

End Frames.
(** ** Witness *)

#[local] Existing Instances Reg.toy_keccak SDB.map_store.

#[local] Instance no_contracts : Precompiles.
Proof. refine {| precompile := fun _ => None |}; discriminate. Defined.

Definition jump_env : Env := mkEnv ZeroAddress 30000000 1 0 None ZeroHash (fun _ => ZeroHash) ZeroAddress 1 1.
(** PUSH1 5, JUMP, PUSH1 0x5b, JUMPDEST, STOP: the byte 0x5b at position 4 is
    the operand of a push, the one at position 5 an instruction. *)
Definition jump_code : bytes := [96; 5; 86; 96; 91; 91; 0].
Definition jump_vm : VM := mkVM SDB.sample_start 0 false false [] false.
Definition jump_contract : Contract := mkContract ZeroAddress ZeroAddress jump_code [] 100 U256.zero.

Lemma code_runs_at_instructions_witness : exists s,
  rtc (turn jump_env (Run jump_env (Z.to_nat 101) 1024)) (started jump_vm jump_contract [] false) s /\ pc (fr s) = 5 /\ instruction jump_code 5.
Proof.
  assert (match turns jump_env (Run jump_env (Z.to_nat 101) 1024) 2 (started jump_vm jump_contract [] false) with Some s => pc (fr s) | None => 0 end = 5) as Hp
    by (vm_compute; reflexivity).
  destruct (turns _ _ 2 _) as [s|] eqn:Et; [|discriminate]. apply turns_rtc in Et as Hr.
  exists s. split; [exact Hr|]. split; [exact Hp|].
  destruct (code_runs_at_instructions jump_env (Z.to_nat 101) 1024 jump_vm jump_contract [] false s) as ([H|H] & _ & _).
  - split; [apply SDB.inv_start; [reflexivity | reflexivity | exact SDB.sample_wf] | constructor].
  - split; [split; [repeat constructor; unfold byte_ok; lia | vm_compute; discriminate]|]. split; [constructor|]. split; [apply U256.wf_zero | unfold u64_ok, two64; cbn; lia].
  - constructor.
  - vm_compute. discriminate.
  - reflexivity.
  - exact Hr.
  - rewrite Hp in H. exact H.
  - rewrite Hp in H. vm_compute in H. contradiction.
Defined.

End Jumps.
