(* ===== verification/EvmRefund.v ===== *)
(** Refunds and the committed value of a slot.

    The price of a storage write compares the new value with the value the slot
    had at the start of the transaction.  [GetCommittedState] gives the value at
    the start of the block instead, so that clearing a slot in one transaction
    and writing it in the next takes back a refund that was never given. *)

From stdpp Require Import base list gmap relations.
From Stdlib Require Import ZArith Lia.
From S2P Require Import Prelude RLP Common UInt256 Registry StateDB EvmData Interpreter EvmState EvmSafety EvmExec.
Local Open Scope Z_scope.
Local Open Scope go_scope.

Module Refund.
Import Vm Interp Ev Safe Exec.

#[local] Existing Instance SDB.ext_preorder.

Lemma HashIsZero_zero : HashIsZero ZeroHash = true.
Proof. reflexivity. Qed.

(** A slot that was set when the block began and is clear now. *)
Lemma sstoreGas_takes_back original v cold : HashIsZero original = false -> HashIsZero v = false ->
  snd (sstoreGas original ZeroHash v cold) < 0.
Proof.
  intros Ho Hv. unfold sstoreGas, GasSstoreClear, GasSstoreReset, GasColdSloadCost, GasWarmStorageRead.
  rewrite bool_decide_eq_false_2 by (intros <-; discriminate). rewrite bool_decide_eq_false_2 by (intros ->; discriminate).
  rewrite Ho, HashIsZero_zero. cbn [negb]. case_bool_decide; cbn [snd]; lia.
Qed.

Section Refund.
Context `{K : Keccak} `{TS : TrieStore}.

(** Nothing is committed from a state with an error. *)
Lemma error_commit s de : SDB.err (SDB.world s) <> None -> SDB.Commit s de = None /\ SDB.IntermediateRoot s de = None.
Proof.
  intros He. assert (SDB.err (SDB.world (SDB.Finalise s de)) <> None) as Hf.
  { unfold SDB.Finalise. cbn [SDB.world SDB.err SDB.set_transient SDB.set_refund]. generalize (elements (SDB.objectsDirty (SDB.world s))) as l. intros l. revert He.
    generalize (SDB.world s) as w. induction l as [|b l IH]; intros w He; cbn [fold_left]; [exact He|]. apply IH.
    unfold SDB.finalise_object. destruct (_ !! b); [destruct (_ || _)|]; exact He. }
  unfold SDB.Commit, SDB.IntermediateRoot, SDB.commitTo. destruct (SDB.err (SDB.world (SDB.Finalise s de))); [auto | contradiction].
Qed.

Lemma SubRefund_short s g : SDB.refund (SDB.world s) < g -> SDB.err (SDB.world (SDB.SubRefund s g)) <> None.
Proof.
  intros H. unfold SDB.SubRefund. cbn [SDB.world SDB.record]. apply Z.ltb_lt in H. rewrite H. cbn [SDB.err SDB.set_refund]. unfold SDB.setError.
  destruct (SDB.err (SDB.world s)) eqn:E; [cbn; rewrite E; discriminate | discriminate].
Qed.

(** Warming a slot reads nothing. *)
Lemma warm_slot_world s a k : exists A S, SDB.world (SDB.AddSlotToAccessList s a k) = SDB.set_access (SDB.world s) A S.
Proof.
  unfold SDB.AddSlotToAccessList, SDB.AddAddressToAccessList. destruct (SDB.AddressInAccessList _ _).
  - destruct (SDB.slot_in _ _ _); [exists (SDB.accessedAddresses (SDB.world s)), (SDB.accessedSlots (SDB.world s)); destruct (SDB.world s); reflexivity | eexists _, _; reflexivity].
  - destruct (SDB.slot_in _ _ _); eexists _, _; reflexivity.
Qed.

Lemma sstore_takes_back v p c kw vw k m : let a := self c in let key := U256.Bytes32 kw in let w := SDB.world (db v) in
  readOnly v = false -> GasCallStipend < Gas c -> HashIsZero (U256.Bytes32 vw) = false ->
  HashIsZero (snd (SDB.GetCommittedState w a key)) = false -> snd (SDB.get_state w a key) = ZeroHash -> SDB.refund w = 0 ->
  wp sstoreDynamic (mkSt v (mkFrame p c (kw :: vw :: k) m)) (fun s' r => (exists cost, r = Ok cost) /\ SDB.err (SDB.world (db (vm s'))) <> None).
Proof.
  intros a key w Hro Hg Hv Ho Hc Hr. unfold sstoreDynamic. go. apply wp_guard; intros E; go; [cbn in E; congruence|].
  apply wp_guard; intros E2; go; [cbn [fr contract] in E2; apply Z.leb_le in E2; lia|]. unfold touchSlot. go. cbn [vm with_vm fr contract].
  destruct (warm_slot_world (db v) a key) as (A & S & Ew). fold a. fold key.
  set (warm := snd (SDB.SlotInAccessList _ _ _)). clearbody warm.
  apply wp_query. intros w1 original E1. go. cbn [vm with_vm db set_db] in *. rewrite Ew in E1.
  apply wp_query. intros w2 current E3. go. cbn [vm with_vm db set_db SDB.world SDB.with_world] in *.
  assert (SDB.ext (SDB.set_access w A S) w1) as He1 by (eapply GetCommittedState_ext', E1).
  assert (SDB.ext w1 w2) as He2 by (eapply get_state_ext', E3).
  assert (original = snd (SDB.GetCommittedState w a key)) as ->.
  { apply (f_equal snd) in E1. cbn [snd] in E1. rewrite <- E1, !SDB.GetCommittedState_value. reflexivity. }
  assert (current = ZeroHash) as ->.
  { apply (f_equal snd) in E3. cbn [snd] in E3. rewrite <- E3, SDB.get_state_value, (proj1 (SDB.ext_same_cells _ _ He1)), <- Hc, SDB.get_state_value. reflexivity. }
  pose proof (sstoreGas_takes_back _ (U256.Bytes32 vw) (negb warm) Ho Hv) as Hneg. destruct (sstoreGas _ _ _ _) as [cost refund]. cbn [snd] in Hneg.
  cbv beta iota. destruct (Z.ltb_spec 0 refund); [lia|]. destruct (Z.ltb_spec refund 0); [|lia]. go. split; [eauto|]. cbn [vm with_vm db set_db].
  apply SubRefund_short. cbn [SDB.world SDB.with_world]. rewrite (SDB.ex_refund _ _ He2), (SDB.ex_refund _ _ He1). cbn [SDB.refund SDB.set_access]. fold w. rewrite Hr. lia.
Qed.

(** A slot cleared by one transaction and written by the next makes the block
    impossible to commit.  Let a slot hold a value when the block begins, and a
    first transaction set it to zero and be finalised.  When the code of a later
    transaction of the block stores a value there, the price of the write takes
    back a refund the transaction was never given: the counter underflows, the
    state records an error, and neither the root of the block nor its state can
    be computed any more. *)
Theorem refund_underflow s a kw vw de o v p c k m :
  SDB.live (SDB.world s) a = Some o -> SDB.survives de o = true ->
  HashIsZero (snd (SDB.GetCommittedState (SDB.world s) a (U256.Bytes32 kw))) = false ->
  db v = SDB.Finalise (SDB.set_state s a (U256.Bytes32 kw) ZeroHash) de ->
  self c = a -> readOnly v = false -> GasCallStipend < Gas c -> HashIsZero (U256.Bytes32 vw) = false ->
  exists s' cost, sstoreDynamic (mkSt v (mkFrame p c (kw :: vw :: k) m)) = Ok (s', Ok cost) /\
    SDB.Commit (db (vm s')) true = None /\ SDB.IntermediateRoot (db (vm s')) true = None.
Proof.
  intros Hl Hs Hc Hd Ha Hro Hg Hv. subst a. destruct (SDB.stale_committed s (self c) (U256.Bytes32 kw) ZeroHash de o Hl Hs) as [E1 E2].
  destruct (sstore_takes_back v p c kw vw k m Hro Hg Hv) as (s' & r & E & (cost & ->) & He); cbv zeta; rewrite ?Hd; [rewrite E2; exact Hc | exact E1 | reflexivity|].
  exists s', cost. split; [exact E | apply error_commit, He].
Qed.

End Refund.

(** ** Witness *)

#[local] Existing Instances Reg.toy_keccak SDB.map_store.

Definition slot_word : Word := U256.SetUint64 1.
Definition new_word : Word := U256.SetUint64 9.

(** A block has been committed in which the slot holds 5. *)
Definition committed_db : SDB.StateDB :=
  match SDB.Commit (SDB.set_state SDB.sample_funded SDB.sample_addr (U256.Bytes32 slot_word) (U256.Bytes32 (U256.SetUint64 5))) true with
  | Some (s, _) => s
  | None => SDB.sample_start
  end.
Definition second_vm : VM := mkVM (SDB.Finalise (SDB.set_state committed_db SDB.sample_addr (U256.Bytes32 slot_word) ZeroHash) true) 0 false false [] false.
Definition writer : Contract := mkContract ZeroAddress SDB.sample_addr [] [] 50000 U256.zero.

Lemma refund_underflow_witness :
  exists s' cost, sstoreDynamic (mkSt second_vm (mkFrame 0 writer [slot_word; new_word] newMemory)) = Ok (s', Ok cost) /\
    SDB.Commit (db (vm s')) true = None /\ SDB.IntermediateRoot (db (vm s')) true = None.
Proof.
  assert (match SDB.live (SDB.world committed_db) SDB.sample_addr with Some o => SDB.survives true o | None => false end = true) as E by (vm_compute; reflexivity).
  destruct (SDB.live (SDB.world committed_db) SDB.sample_addr) as [o|] eqn:El; [|discriminate].
  apply (refund_underflow committed_db SDB.sample_addr slot_word new_word true o second_vm 0 writer [] newMemory El E); vm_compute; reflexivity.
Defined.

End Refund.
