(* ===== verification/Precompiles.v ===== *)
(** The precompiled contracts, src/evm/precompiles.go and
    src/evm/precompiles_extended.go.

    Each contract is its price and its function on byte strings; [native] puts
    them at the addresses 1 to 9 and discharges the interface the calls of the
    machine are proved against.  RIPEMD-160 and BLAKE2b are the modelled
    functions; SHA-256 comes from Go's library, and the curve operations of
    src/crypto/secp256k1 and src/crypto/bn254 are given by an interface. *)

From stdpp Require Import base list gmap.
From Stdlib Require Import ZArith Lia.
From S2P Require Import Prelude RLP Common UInt256 StateDB EvmData Interpreter Blocks Ripemd160 Blake2b.
Local Open Scope Z_scope.
Local Open Scope go_scope.

(** What the contracts use of the cryptographic packages.  A curve point is
    given by its affine coordinates, which fit 32 bytes; [None] is the point at
    infinity. *)
Class NativeCrypto := {
  sha256 : bytes -> bytes;
  sha256_ok : forall b, bytes_ok (sha256 b);
  Recover : bytes -> Z -> Z -> Z -> option bytes;
  G1 : Type;
  G2 : Type;
  NewG1 : Z -> Z -> option G1;
  G1_Add : G1 -> G1 -> G1;
  G1_ScalarMul : G1 -> Z -> G1;
  G1_affine : G1 -> option (Z * Z);
  NewG2 : Z -> Z -> Z -> Z -> option G2;
  PairingCheck : list (G1 * G2) -> bool
}.

Module Native.
Import Vm.

(** [big.Int.SetBytes] of a part of the input. *)
Definition int_at (b : bytes) (from size : nat) : Z := be_val (take size (drop from b)).
Definition IsUint64 (v : Z) : bool := v <? two64.
Definition BitLen (v : Z) : Z := if v =? 0 then 0 else Z.log2 v + 1.

(** ** modExp *)

Definition parseModExpLengths (input : bytes) : Z * Z * Z :=
  let padded := RightPadBytes input 96 in
  (int_at padded 0 32, int_at padded 32 32, int_at padded 64 32).

(** The leading bytes of the exponent. *)
Definition exp_head (input : bytes) (baseLength expLength : Z) : Z :=
  if (baseLength +w 96) <? len input then
    let expBytes := RightPadBytes (drop (Z.to_nat (96 +w baseLength)) input) 32 in
    let limit := if 32 <? expLength then 32 else expLength in
    be_val (take (Z.to_nat limit) expBytes)
  else 0.

Definition iteration_count (expLength expHead : Z) : Z :=
  let count :=
    if (expLength <=? 32) && (expHead =? 0) then 0
    else if expLength <=? 32 then BitLen expHead - 1
    else (8 *w (expLength -w 32)) +w Z.max (BitLen expHead - 1) 0 in
  if count =? 0 then 1 else count.

Definition modExpGas (input : bytes) : Z :=
  let '(baseLen, expLen, modLen) := parseModExpLengths input in
  if negb (IsUint64 baseLen) || negb (IsUint64 expLen) || negb (IsUint64 modLen) then max_uint64
  else
    let maxLength := if baseLen <? modLen then modLen else baseLen in
    let words := toWordSize maxLength in
    let multiplicationComplexity := words *w words in
    let iterationCount := iteration_count expLen (exp_head input baseLen expLen) in
    let gas := (multiplicationComplexity *w iterationCount) / 3 in
    if gas <? 200 then 200 else gas.

Definition maxOperand : Z := Z.shiftl 1 20.

(** The closure [read]: an operand of the body, zero past its end. *)
Definition read_operand (body : bytes) (offset length : Z) : Z :=
  if length =? 0 then 0
  else if len body <=? offset then 0
  else
    let last := offset +w length in
    let last := if len body <? last then len body else last in
    let buf := take (Z.to_nat (last - offset)) (drop (Z.to_nat offset) body) in
    be_val (buf ++ zeros (Z.to_nat length - List.length buf)).

Definition modExpRun (input : bytes) : option bytes :=
  let '(baseLen, expLen, modLen) := parseModExpLengths input in
  if negb (IsUint64 baseLen) || negb (IsUint64 expLen) || negb (IsUint64 modLen) then None
  else if modLen =? 0 then Some []
  else if (maxOperand <? baseLen) || (maxOperand <? expLen) || (maxOperand <? modLen) then None
  else
    let body := drop 96 input in
    let base := read_operand body 0 baseLen in
    let exponent := read_operand body baseLen expLen in
    let modulus := read_operand body (baseLen +w expLen) modLen in
    if modulus =? 0 then Some (zeros (Z.to_nat modLen))
    else Some (be_bytes (Z.to_nat modLen) (base ^ exponent mod modulus)).

(** ** The simple contracts *)

Definition sha256Gas (input : bytes) : Z := 60 +w (12 *w toWordSize (wrap64 (len input))).
Definition identityGas (input : bytes) : Z := 15 +w (3 *w toWordSize (wrap64 (len input))).
Definition identityRun (input : bytes) : option bytes := Some input.
Definition ripemdGas (input : bytes) : Z := 600 +w (120 *w toWordSize (wrap64 (len input))).
Definition ripemdRun (input : bytes) : option bytes := Some (LeftPadBytes (Ripemd.Sum160 input) 32).

Definition blake2FGas (input : bytes) : Z := if negb (len input =? B2b.InputLength) then 0 else be_val (take 4 input).
Definition blake2FRun (input : bytes) : option bytes :=
  let? p := B2b.ParseInput input in
  let '(rounds, h, m, t, final) := p in Some (B2b.EncodeState (B2b.F h m t final rounds)).

(** ** Contracts on curves *)

(** The order of secp256k1, and the upper bound of a canonical [s]. *)
Definition secp256k1_N : Z := 0xfffffffffffffffffffffffffffffffebaaedce6af48a03bbfd25e8cd0364141.
Definition IsLowS (s : Z) : bool := (0 <? s) && (s <=? secp256k1_N / 2).

Section Curves.
Context `{K : Keccak} `{C : NativeCrypto}.

Definition ecrecoverGas (input : bytes) : Z := 3000.
Definition ecrecoverRun (input : bytes) : option bytes :=
  let input := RightPadBytes input 128 in
  let hash := take 32 input in
  let v := int_at input 32 32 in
  let r := int_at input 64 32 in
  let s := int_at input 96 32 in
  if negb (IsUint64 v) || (negb (v =? 27) && negb (v =? 28)) then Some []
  else if (r <=? 0) || (s <=? 0) || (secp256k1_N <=? r) || (secp256k1_N <=? s) then Some []
  else if negb (IsLowS s) then Some []
  else match Recover hash r s (wrap8 (v - 27)) with
       | None => Some []
       | Some pub => Some (LeftPadBytes (drop 12 (Keccak256 [pub])) 32)
       end.

Definition sha256Run (input : bytes) : option bytes := Some (sha256 input).

Definition readG1 (input : bytes) (offset : nat) : option G1 :=
  let buf := RightPadBytes input (offset + 64) in NewG1 (int_at buf offset 32) (int_at buf (offset + 32) 32).

Definition writeG1 (p : G1) : bytes :=
  match G1_affine p with
  | None => zeros 64
  | Some (x, y) => be_bytes 32 x ++ be_bytes 32 y
  end.

Definition bn256AddGas (input : bytes) : Z := 150.
Definition bn256AddRun (input : bytes) : option bytes :=
  let? a := readG1 input 0 in let? b := readG1 input 64 in Some (writeG1 (G1_Add a b)).

Definition bn256ScalarMulGas (input : bytes) : Z := 6000.
Definition bn256ScalarMulRun (input : bytes) : option bytes :=
  let? p := readG1 input 0 in Some (writeG1 (G1_ScalarMul p (int_at (RightPadBytes input 96) 64 32))).

Definition pairSize : nat := 192.

Definition bn256PairingGas (input : bytes) : Z := 45000 +w (34000 *w (len input / Z.of_nat pairSize)).

Definition read_pair (chunk : bytes) : option (G1 * G2) :=
  let? g1 := readG1 chunk 0 in
  let? g2 := NewG2 (int_at chunk 96 32) (int_at chunk 64 32) (int_at chunk 160 32) (int_at chunk 128 32) in
  Some (g1, g2).

Fixpoint read_pairs (n : nat) (input : bytes) : option (list (G1 * G2)) :=
  match n with
  | O => Some []
  | S n => let? p := read_pair (take pairSize input) in let? r := read_pairs n (drop pairSize input) in Some (p :: r)
  end.

(** A word that is one or zero. *)
Definition truth (b : bool) : bytes := zeros 31 ++ [if b then 1 else 0].

Definition bn256PairingRun (input : bytes) : option bytes :=
  if negb (len input mod Z.of_nat pairSize =? 0) then None
  else
    let? pairs := read_pairs (length input / pairSize) input in
    Some (truth (PairingCheck pairs)).

(** ** The table *)

Definition table : list (Address * Precompile) :=
  [(BytesToAddress [1], mkPrecompile ecrecoverGas ecrecoverRun);
   (BytesToAddress [2], mkPrecompile sha256Gas sha256Run);
   (BytesToAddress [4], mkPrecompile identityGas identityRun);
   (BytesToAddress [5], mkPrecompile modExpGas modExpRun);
   (BytesToAddress [3], mkPrecompile ripemdGas ripemdRun);
   (BytesToAddress [6], mkPrecompile bn256AddGas bn256AddRun);
   (BytesToAddress [7], mkPrecompile bn256ScalarMulGas bn256ScalarMulRun);
   (BytesToAddress [8], mkPrecompile bn256PairingGas bn256PairingRun);
   (BytesToAddress [9], mkPrecompile blake2FGas blake2FRun)].

Definition PrecompileAddresses : list Address := map fst table.

Fixpoint find_precompile (l : list (Address * Precompile)) (addr : Address) : option Precompile :=
  match l with
  | [] => None
  | (a, p) :: l => if bool_decide (a = addr) then Some p else find_precompile l addr
  end.

Lemma find_in l addr p : find_precompile l addr = Some p -> exists a, (a, p) ∈ l.
Proof.
  induction l as [|[a q] l IH]; cbn [find_precompile]; [discriminate|]. case_bool_decide; [intros [= ->]; exists a; left|].
  intros H'. destruct (IH H') as [b Hb]. exists b. right. exact Hb.
Qed.

Lemma LeftPad_ok b n : bytes_ok b -> bytes_ok (LeftPadBytes b n).
Proof. intros H. unfold LeftPadBytes. destruct (_ <=? _)%nat; [apply Forall_drop, H|]. apply Forall_app. split; [apply zeros_ok | exact H]. Qed.

(** Every contract keeps to the interface: a 64-bit price and a string of
    bytes. *)
Definition sound (p : Precompile) : Prop :=
  forall input, bytes_ok input -> u64_ok (RequiredGas p input) /\ forall out, PrecompileRun p input = Some out -> bytes_ok out.

Lemma modExp_sound : sound (mkPrecompile modExpGas modExpRun).
Proof.
  intros input Hin. cbn [RequiredGas PrecompileRun]. unfold modExpGas, modExpRun. destruct (parseModExpLengths input) as [[bl el] ml].
  destruct (_ || _); [split; [unfold u64_ok, two64, max_uint64; lia | discriminate]|]. split.
  - set (g := (_ *w _) / 3). assert (0 <= g < two64) as Hg.
    { pose proof (wrap64_ok ((toWordSize (if bl <? ml then ml else bl) *w toWordSize (if bl <? ml then ml else bl)) * iteration_count el (exp_head input bl el))) as [H1 H2].
      subst g. split; [apply Z.div_pos; lia|]. eapply Z.le_lt_trans; [|exact H2]. apply Z.div_le_upper_bound; lia. }
    destruct (g <? 200); [unfold u64_ok, two64; lia | exact Hg].
  - intros out. destruct (ml =? 0); [intros [= <-]; constructor|]. destruct (_ || _); [discriminate|].
    destruct (_ =? 0); intros [= <-]; [apply zeros_ok | apply be_bytes_ok].
Qed.

Lemma blake_sound : sound (mkPrecompile blake2FGas blake2FRun).
Proof.
  intros input Hin. cbn [RequiredGas PrecompileRun]. split.
  - unfold blake2FGas. destruct (negb _); [unfold u64_ok, two64; lia|]. pose proof (be_val_bounds (take 4 input) (Forall_take _ _ _ Hin)) as Hb.
    assert (len (take 4 input) <= 4) as Hl by (unfold len; rewrite length_take; lia).
    pose proof (Z.pow_le_mono_r 256 (len (take 4 input)) 4 ltac:(lia) Hl). unfold u64_ok, two64. lia.
  - intros out. unfold blake2FRun. destruct (B2b.ParseInput input) as [[[[[rounds h] m] t] final]|]; cbn [obind]; [|discriminate].
    intros [= <-]. apply B2b.encode_ok.
Qed.

Lemma writeG1_ok p : bytes_ok (writeG1 p).
Proof. unfold writeG1. destruct (G1_affine p) as [[x y]|]; [apply Forall_app; split; apply be_bytes_ok | apply zeros_ok]. Qed.

Lemma ecrecover_sound : sound (mkPrecompile ecrecoverGas ecrecoverRun).
Proof.
  intros input Hin. cbn [RequiredGas PrecompileRun]. split; [unfold ecrecoverGas, u64_ok, two64; lia|]. intros out. unfold ecrecoverRun.
  repeat (destruct (_ || _); [intros [= <-]; constructor|]). destruct (negb _); [intros [= <-]; constructor|].
  destruct (Recover _ _ _ _); intros [= <-]; [|constructor]. apply LeftPad_ok, Forall_drop, Keccak256_ok.
Qed.

Lemma pairing_sound : sound (mkPrecompile bn256PairingGas bn256PairingRun).
Proof.
  intros input Hin. cbn [RequiredGas PrecompileRun]. split; [apply wrap64_ok|]. intros out. unfold bn256PairingRun. destruct (negb _); [discriminate|].
  destruct (read_pairs _ _); cbn [obind]; [|discriminate]. intros [= <-]. unfold truth. apply Forall_app. split; [apply zeros_ok|].
  constructor; [|constructor]. unfold byte_ok. destruct (PairingCheck _); lia.
Qed.

Lemma table_sound a p : (a, p) ∈ table -> sound p.
Proof.
  unfold table. rewrite !elem_of_cons, elem_of_nil. intros H.
  repeat (destruct H as [[= -> ->]|H]); [..|contradiction];
    first [apply ecrecover_sound | apply modExp_sound | apply blake_sound | apply pairing_sound | idtac]; intros input Hin; cbn [RequiredGas PrecompileRun];
    (split; [first [apply wrap64_ok | unfold u64_ok, two64, bn256AddGas, bn256ScalarMulGas; lia]|]); intros out.
  - intros [= <-]. apply sha256_ok.
  - intros [= <-]. exact Hin.
  - intros [= <-]. apply LeftPad_ok, Ripemd.sum160_ok.
  - unfold bn256AddRun. destruct (readG1 input 0); [|discriminate]. destruct (readG1 input 64); [|discriminate]. intros [= <-]. apply writeG1_ok.
  - unfold bn256ScalarMulRun. destruct (readG1 input 0); [|discriminate]. intros [= <-]. apply writeG1_ok.
Qed.

(** The contracts the machine is given. *)
Definition native : Precompiles.
Proof.
  refine {| precompile := find_precompile table |}.
  - intros a p input H Hin. destruct (find_in _ _ _ H) as [b Hb]. apply (table_sound b p Hb input Hin).
  - intros a p input out H Hin. destruct (find_in _ _ _ H) as [b Hb]. apply (table_sound b p Hb input Hin).
Defined.

End Curves.
(** ** modExp computes a modular power *)

Lemma int_at_app (a b c : bytes) : int_at (a ++ b ++ c) (length a) (length b) = be_val b.
Proof. unfold int_at. rewrite drop_app_length, take_app_length. reflexivity. Qed.

Definition modexp_input (b e m rest : bytes) : bytes :=
  be_bytes 32 (len b) ++ be_bytes 32 (len e) ++ be_bytes 32 (len m) ++ b ++ e ++ m ++ rest.

Lemma header_val (v : bytes) : len v <= maxOperand -> be_val (be_bytes 32 (len v)) = len v.
Proof.
  intros H. rewrite be_val_be_bytes. apply Z.mod_small. unfold len in *. change maxOperand with 1048576 in H. split; [lia|].
  change (256 ^ Z.of_nat 32) with (2 ^ 256). assert (1048576 < 2 ^ 256) by reflexivity. lia.
Qed.

Lemma parse_modexp b e m rest : len b <= maxOperand -> len e <= maxOperand -> len m <= maxOperand ->
  parseModExpLengths (modexp_input b e m rest) = (len b, len e, len m).
Proof.
  intros Hb He Hm. unfold parseModExpLengths, modexp_input.
  set (B := be_bytes 32 (len b)). set (E := be_bytes 32 (len e)). set (M := be_bytes 32 (len m)).
  assert (length B = 32%nat /\ length E = 32%nat /\ length M = 32%nat) as (LB & LE & LM) by (subst B E M; rewrite !length_be_bytes; auto).
  assert (RightPadBytes (B ++ E ++ M ++ b ++ e ++ m ++ rest) 96 = B ++ E ++ M) as ->.
  { unfold RightPadBytes. rewrite (proj2 (Nat.leb_le 96 _)) by (rewrite !length_app; lia).
    rewrite !app_assoc. rewrite <- (app_assoc B E M). rewrite <- !app_assoc. rewrite 2!app_assoc. rewrite <- (app_assoc B E M).
    apply take_app_length'. rewrite !length_app. lia. }
  f_equal; [f_equal|].
  - pose proof (int_at_app [] B (E ++ M)) as H. cbn [app length] in H. rewrite LB in H. rewrite H. apply header_val, Hb.
  - pose proof (int_at_app B E M) as H. rewrite LB, LE in H. rewrite H. apply header_val, He.
  - pose proof (int_at_app (B ++ E) M []) as H. rewrite app_nil_r, <- app_assoc, length_app, LB, LE, LM in H. change (int_at (B ++ E ++ M) 64 32 = len m). rewrite <- (header_val m Hm). exact H.
Qed.

Lemma read_operand_app (a x c : bytes) : len a <= 2 * maxOperand -> len x <= maxOperand -> read_operand (a ++ x ++ c) (len a) (len x) = be_val x.
Proof.
  intros Ha Hx. change maxOperand with 1048576 in *. unfold read_operand. destruct (Z.eqb_spec (len x) 0) as [E|E].
  { destruct x; [reflexivity | unfold len in E; cbn [length] in E; lia]. }
  rewrite !len_app. assert (0 <= len c) by (unfold len; lia). assert (0 <= len x) by (unfold len; lia). assert (0 <= len a) by (unfold len; lia).
  destruct (Z.leb_spec (len a + (len x + len c)) (len a)); [lia|]. rewrite wrap64_small by (unfold u64_ok, two64; lia).
  destruct (Z.ltb_spec (len a + (len x + len c)) (len a + len x)); [lia|]. replace (len a + len x - len a) with (len x) by lia.
  unfold len. rewrite !Nat2Z.id, drop_app_length, take_app_length, Nat.sub_diag. cbn [zeros replicate]. rewrite app_nil_r. reflexivity.
Qed.

(** The contract at address 5 computes modular powers.  On the encoding of a
    base, an exponent and a modulus of up to a megabyte each, whatever follows
    them in the input, the output has the length of the modulus and is the
    big-endian number [base ^ exponent mod modulus], or zero for a zero modulus. *)
Theorem modexp_correct b e m rest :
  bytes_ok m -> len b <= maxOperand -> len e <= maxOperand -> 0 < len m <= maxOperand ->
  exists out, modExpRun (modexp_input b e m rest) = Some out /\ length out = length m /\
    be_val out = if be_val m =? 0 then 0 else be_val b ^ be_val e mod be_val m.
Proof.
  intros Hok Hb He Hm. unfold modExpRun. rewrite parse_modexp by lia. pose proof maxOperand as Hmax.
  assert (forall v : bytes, len v <= maxOperand -> IsUint64 (len v) = true) as Hu.
  { intros v Hv. change maxOperand with 1048576 in Hv. apply Z.ltb_lt. unfold two64. lia. }
  rewrite !Hu by lia. cbn [negb orb]. destruct (Z.eqb_spec (len m) 0); [lia|].
  destruct (Z.ltb_spec maxOperand (len b)); [lia|]. destruct (Z.ltb_spec maxOperand (len e)); [lia|]. destruct (Z.ltb_spec maxOperand (len m)); [lia|]. cbn [orb].
  assert (drop 96 (modexp_input b e m rest) = b ++ e ++ m ++ rest) as ->.
  { unfold modexp_input. rewrite !app_assoc. rewrite <- 3!app_assoc. rewrite <- !app_assoc. rewrite 2!app_assoc.
    apply drop_app_length'. rewrite !length_app, !length_be_bytes. reflexivity. }
  assert (read_operand (b ++ e ++ m ++ rest) 0 (len b) = be_val b) as -> by (apply (read_operand_app [] b); [discriminate | exact Hb]).
  rewrite (read_operand_app b e (m ++ rest)) by (change maxOperand with 1048576 in *; lia).
  rewrite wrap64_small by (change maxOperand with 1048576 in *; unfold u64_ok, two64, len in *; lia). rewrite <- len_app, app_assoc.
  rewrite (read_operand_app (b ++ e) m rest) by (rewrite ?len_app; change maxOperand with 1048576 in *; lia).
  pose proof (be_val_bounds m Hok) as Hv. destruct (Z.eqb_spec (be_val m) 0) as [E|E].
  - eexists. split; [reflexivity|]. unfold zeros, len. rewrite length_replicate, Nat2Z.id. split; [reflexivity|].
    pose proof (be_val_zeros (length m) []) as Hz. rewrite app_nil_r in Hz. exact Hz.
  - eexists. split; [reflexivity|]. rewrite length_be_bytes. unfold len in *. rewrite Nat2Z.id. split; [reflexivity|].
    rewrite be_val_be_bytes. apply Z.mod_small. pose proof (Z.mod_pos_bound (be_val b ^ be_val e) (be_val m)). lia.
Qed.

(** [3 ^ 5 mod 100 = 43]. *)
Lemma modexp_correct_witness : exists out, modExpRun (modexp_input [3] [5] [100] [7; 7]) = Some out /\ be_val out = 43 /\ out = [43].
Proof.
  destruct (modexp_correct [3] [5] [100] [7; 7]) as (out & E & Hl & Hv).
  - repeat constructor; unfold byte_ok; lia.
  - vm_compute. discriminate.
  - vm_compute. discriminate.
  - split; [reflexivity | vm_compute; discriminate].
  - exists out. split; [exact E|]. split; [exact Hv|].
    assert (modExpRun (modexp_input [3] [5] [100] [7; 7]) = Some [43]) as E' by (vm_compute; reflexivity). rewrite E' in E. injection E as <-. reflexivity.
Defined.

End Native.
