(* ===== verification/Machine.v ===== *)
(** The virtual machine.

    The theorems on a whole call: it always returns, a call that fails leaves no
    trace, a static call changes nothing, and no call creates value.  [Run] is
    given 1025 levels of nesting, one more than [MaxCallDepth] allows, and more
    instructions for a frame than there is gas. *)

From stdpp Require Import base list gmap relations.
From Stdlib Require Import ZArith Lia.
From S2P Require Import Prelude RLP Common UInt256 Registry StateDB EvmData Interpreter EvmState EvmSafety EvmExec EvmGas EvmCalls EvmRun EvmEffects Precompiles.
Local Open Scope Z_scope.
Local Open Scope go_scope.

Module Machine.
Import Vm Interp Ev Safe Exec Calls Total Effects.

Definition levels : nat := 1025.

Section Machine.
Context `{K : Keccak} `{TS : TrieStore} `{P : Precompiles}.
Variable env : Env.

(** [Run] from depth zero on. *)
Lemma run_levels n : run_ok (Run env n levels) (Z.of_nat n) 0.
Proof. exact (Run_ok env n levels). Qed.

(** A machine between two messages. *)
Definition idle (v : VM) : Prop := vm_ok v /\ depth v = 0 /\ readOnly v = false.

(** C2: the virtual machine is total.  On any state that satisfies the invariant
    of the journal, for any contract code, input, gas and value, and any
    precompiled contracts, the message call and the contract creation of a
    transaction return: no instruction panics (no read past the stack, slice out
    of range or revert to a missing snapshot), nesting stops at the depth limit,
    and fewer instructions run in a frame than it has gas.  What comes back is at
    most the gas given, and the machine is ready for the next message. *)
Theorem evm_total v caller addr data gas value n :
  idle v -> bytes_ok data -> len data <= max_int64 -> u64_ok gas -> gas < Z.of_nat n -> 0 <= value ->
  (exists v' out gas' err, Call (Run env n levels) v caller addr data gas value = Ok (v', out, gas', err) /\
     idle v' /\ bytes_ok out /\ 0 <= gas' <= gas) /\
  (exists v' out new gas' err, Create (Run env n levels) v caller data gas value = Ok (v', out, new, gas', err) /\
     idle v' /\ bytes_ok out /\ 0 <= gas' <= gas).
Proof.
  intros (Hv & Hd & Hro) Hb Hl Hg Hn Hx. split.
  - destruct (Call_ok _ _ _ (run_levels n) v caller addr data gas value Hv Hb Hg) as (v' & out & gas' & err & E & H1 & H2 & H3 & (_ & F1 & F2 & _) & _); auto; try lia; try congruence.
    exists v', out, gas', err. split; [exact E|]. split; [split; [exact H1 | split; congruence] | auto].
  - destruct (Create_ok _ _ _ (run_levels n) v caller data gas value Hv Hro) as (v' & out & new & gas' & err & E & H1 & H2 & H3 & H4 & (_ & F1 & F2 & _)); auto; try lia.
    exists v', out, new, gas', err. split; [exact E|]. split; [split; [exact H1 | split; congruence] | auto].
Qed.

(** C3: a call that fails leaves no trace.  Whatever the kind of call, the depth
    it is made at and the code it runs, it returns, and when it returns an error
    (a revert, an exhausted frame, a missing balance, ...) everything that can be
    read of the state is as before: balances, nonces, code, storage, transient
    storage, logs, refunds and access lists.  The one exception is code that had
    not been loaded and was missing or wrong where it is kept: code with that very
    hash, set during the call, is found in its place. *)
Theorem failed_call_no_trace k v c addr input gas value n :
  vm_ok v -> 0 <= depth v -> U256.wf (Vm.value c) -> bytes_ok input -> u64_ok gas -> gas < Z.of_nat n -> 0 <= value ->
  (readOnly v && moves_value k = true -> value = 0) ->
  exists v' out gas' err, start_call (Run env n levels) k v (FrameRef c) addr input gas value = Ok (v', out, gas', err) /\
    (err <> None -> SDB.same_reads (SDB.world (db v)) (SDB.world (db v'))).
Proof.
  intros Hv Hd Hc Hb Hg Hn Hx Hro.
  destruct (start_call_ok _ _ _ (run_levels n) k v c addr input gas value) as (v' & out & gas' & err & E & _ & _ & _ & _ & He); auto.
  exists v', out, gas', err. split; [exact E|]. intros Hne. apply SDB.ext_same_reads, He, Hne.
Qed.

(** C19: a static call changes nothing.  A static call, and every call made while
    one is running, returns with all balances, nonces, code hashes, storage,
    transient storage, logs and the refund counter as they were, whatever the
    code does, nested calls included.  Beyond the access list the only mark it
    can leave is an empty account at an address that had none. *)
Theorem static_call_pure k v c addr input gas value n :
  vm_ok v -> 0 <= depth v -> U256.wf (Vm.value c) -> bytes_ok input -> u64_ok gas -> gas < Z.of_nat n -> 0 <= value ->
  (readOnly v && moves_value k = true -> value = 0) -> readOnly v = true \/ k = KindStatic ->
  exists v' out gas' err, start_call (Run env n levels) k v (FrameRef c) addr input gas value = Ok (v', out, gas', err) /\
    unchanged (SDB.world (db v)) (SDB.world (db v')).
Proof.
  intros Hv Hd Hc Hb Hg Hn Hx Hro [Hr | ->].
  - destruct (start_call_ok _ _ _ (run_levels n) k v c addr input gas value) as (v' & out & gas' & err & E & _ & _ & _ & (Hev & _) & _); auto.
    exists v', out, gas', err. split; [exact E|]. rewrite Hr in Hev. apply readonly_unchanged; [exact Hev | apply Hv].
  - destruct (StaticCall_ok _ _ _ (run_levels n) v (FrameRef c) addr input gas) as (v' & out & gas' & err & E & _ & (Hev & _)); auto.
    exists v', out, gas', err. split; [exact E|]. apply readonly_unchanged; [exact Hev | apply Hv].
Qed.

(** C25: running code creates no value.  If no balance is negative, then after a
    call or a creation none is, and over every list of accounts that has those
    the code paid or destroyed, the sum of the balances has not grown: transfers
    are covered by the payer's balance and a destroyed account pays out exactly
    what it had. *)
Theorem no_value_created v caller addr data gas value n :
  idle v -> bytes_ok data -> len data <= max_int64 -> u64_ok gas -> gas < Z.of_nat n -> 0 <= value ->
  (exists v' out gas' err, Call (Run env n levels) v caller addr data gas value = Ok (v', out, gas', err) /\
     no_mint (SDB.world (db v)) (SDB.world (db v'))) /\
  (exists v' out new gas' err, Create (Run env n levels) v caller data gas value = Ok (v', out, new, gas', err) /\
     no_mint (SDB.world (db v)) (SDB.world (db v'))).
Proof.
  intros (Hv & Hd & Hro) Hb Hl Hg Hn Hx. split.
  - destruct (Call_ok _ _ _ (run_levels n) v caller addr data gas value Hv Hb Hg) as (v' & out & gas' & err & E & _ & _ & _ & (Hev & _) & _); auto; try lia; try congruence.
    exists v', out, gas', err. split; [exact E | eapply evolves_no_mint; [exact Hev | apply Hv]].
  - destruct (Create_ok _ _ _ (run_levels n) v caller data gas value Hv Hro) as (v' & out & new & gas' & err & E & _ & _ & _ & _ & (Hev & _)); auto; try lia.
    exists v', out, new, gas', err. split; [exact E | eapply evolves_no_mint; [exact Hev | apply Hv]].
Qed.

End Machine.

(** ** Witnesses *)

#[local] Existing Instances Reg.toy_keccak SDB.map_store.

(** Curves on which no point is accepted. *)
#[local] Instance no_curves : NativeCrypto.
Proof.
  refine {| sha256 := fun _ => zeros 32; Recover := fun _ _ _ _ => None; G1 := unit; G2 := unit; NewG1 := fun _ _ => None;
            G1_Add := fun p _ => p; G1_ScalarMul := fun p _ => p; G1_affine := fun _ => None; NewG2 := fun _ _ _ _ => None;
            PairingCheck := fun _ => false |}.
  intros b. apply zeros_ok.
Defined.

#[local] Instance sample_contracts : Precompiles := Native.native.

Definition sample_env : Env := mkEnv ZeroAddress 30000000 1 0 None ZeroHash (fun _ => ZeroHash) ZeroAddress 1 1.
Definition alice : Address := BytesToAddress [170].
Definition code_addr : Address := BytesToAddress [187].

(** An account with funds and one with code that stores 1 at slot 0 and reverts:
    PUSH1 1 PUSH1 0 SSTORE PUSH1 0 PUSH1 0 REVERT. *)
Definition store_and_revert : bytes := [96; 1; 96; 0; 85; 96; 0; 96; 0; 253].
Definition sample_db : SDB.StateDB := SDB.SetCode (SDB.add_balance SDB.sample_start alice 1000) code_addr store_and_revert.
Definition sample_vm : VM := mkVM sample_db 0 false false [] false.

Lemma sample_db_inv : SDB.inv sample_db.
Proof.
  apply (SDB.execs_inv [SDB.DoAddBalance alice 1000; SDB.DoSetCode code_addr store_and_revert] SDB.sample_start); [reflexivity|].
  apply SDB.inv_start; [reflexivity | reflexivity | exact SDB.sample_wf].
Qed.

Lemma sample_vm_ok : vm_ok sample_vm.
Proof. split; [apply sample_db_inv | constructor]. Qed.

Lemma sample_balances a : 0 <= SDB.balance_at (SDB.world sample_db) a.
Proof.
  unfold sample_db. rewrite SetCode_balance, (proj2 (SDB.add_balance_cells SDB.sample_start alice 1000)).
  assert (SDB.balance_at (SDB.world SDB.sample_start) a = 0) as -> by (unfold SDB.balance_at, SDB.live, SDB.load; cbn; rewrite !lookup_empty; reflexivity).
  destruct (decide _); lia.
Qed.

(** The call runs 30000 units of gas' worth of code and reverts. *)
Lemma evm_total_witness : exists v' out gas' err,
  Call (Run sample_env (Z.to_nat 30001) levels) sample_vm (AccountRef alice) code_addr [] 30000 7 = Ok (v', out, gas', err) /\
  err = Some ErrExecutionReverted /\ idle v' /\ 0 <= gas' <= 30000.
Proof.
  destruct (evm_total sample_env sample_vm (AccountRef alice) code_addr [] 30000 7 (Z.to_nat 30001)) as [(v' & out & gas' & err & E & H1 & H2 & H3) _];
    [split; [exact sample_vm_ok | split; reflexivity] | constructor | vm_compute; discriminate | unfold u64_ok, two64; lia | rewrite Z2Nat.id; lia | lia|].
  exists v', out, gas', err. split; [exact E|]. split; [|auto].
  assert (match Call (Run sample_env (Z.to_nat 30001) levels) sample_vm (AccountRef alice) code_addr [] 30000 7 with Ok (_, _, _, e) => e | Err _ => None end
    = Some ErrExecutionReverted) as Ee by (vm_compute; reflexivity).
  rewrite E in Ee. exact Ee.
Defined.

(** The frame that makes the calls below. *)
Definition caller_frame : Contract := mkContract ZeroAddress alice [] [] 0 U256.zero.

Lemma failed_call_no_trace_witness : exists v' out gas' err,
  start_call (Run sample_env (Z.to_nat 30001) levels) KindCall sample_vm (FrameRef caller_frame) code_addr [] 30000 7 = Ok (v', out, gas', err) /\
  err = Some ErrExecutionReverted /\ SDB.same_reads (SDB.world sample_db) (SDB.world (db v')).
Proof.
  destruct (failed_call_no_trace sample_env KindCall sample_vm caller_frame code_addr [] 30000 7 (Z.to_nat 30001)) as (v' & out & gas' & err & E & H);
    [exact sample_vm_ok | cbn; lia | apply U256.wf_zero | constructor | unfold u64_ok, two64; lia | rewrite Z2Nat.id; lia | lia | discriminate|].
  assert (match start_call (Run sample_env (Z.to_nat 30001) levels) KindCall sample_vm (FrameRef caller_frame) code_addr [] 30000 7 with Ok (_, _, _, e) => e | Err _ => None end
    = Some ErrExecutionReverted) as Ee by (vm_compute; reflexivity).
  rewrite E in Ee. exists v', out, gas', err. split; [exact E|]. split; [exact Ee|]. apply H. rewrite Ee. discriminate.
Defined.

(** The write is refused, and the static call changes nothing. *)
Lemma static_call_pure_witness : exists v' out gas' err,
  start_call (Run sample_env (Z.to_nat 30001) levels) KindStatic sample_vm (FrameRef caller_frame) code_addr [] 30000 0 = Ok (v', out, gas', err) /\
  err = Some ErrWriteProtection /\ unchanged (SDB.world sample_db) (SDB.world (db v')).
Proof.
  destruct (static_call_pure sample_env KindStatic sample_vm caller_frame code_addr [] 30000 0 (Z.to_nat 30001)) as (v' & out & gas' & err & E & H);
    [exact sample_vm_ok | cbn; lia | apply U256.wf_zero | constructor | unfold u64_ok, two64; lia | rewrite Z2Nat.id; lia | lia | discriminate | right; reflexivity|].
  assert (match start_call (Run sample_env (Z.to_nat 30001) levels) KindStatic sample_vm (FrameRef caller_frame) code_addr [] 30000 0 with Ok (_, _, _, e) => e | Err _ => None end
    = Some ErrWriteProtection) as Ee by (vm_compute; reflexivity).
  rewrite E in Ee. exists v', out, gas', err. auto.
Defined.

(** Alice pays 7 to an account without code. *)
Lemma no_value_created_witness : exists v' out gas' err,
  Call (Run sample_env (Z.to_nat 101) levels) sample_vm (AccountRef alice) (BytesToAddress [204]) [] 100 7 = Ok (v', out, gas', err) /\
  SDB.balance_at (SDB.world (db v')) (BytesToAddress [204]) = 7 /\ no_mint (SDB.world sample_db) (SDB.world (db v')) /\
  forall a, 0 <= SDB.balance_at (SDB.world (db v')) a.
Proof.
  destruct (no_value_created sample_env sample_vm (AccountRef alice) (BytesToAddress [204]) [] 100 7 (Z.to_nat 101)) as [(v' & out & gas' & err & E & H) _];
    [split; [exact sample_vm_ok | split; reflexivity] | constructor | vm_compute; discriminate | unfold u64_ok, two64; lia | rewrite Z2Nat.id; lia | lia|].
  exists v', out, gas', err. split; [exact E|].
  assert (match Call (Run sample_env (Z.to_nat 101) levels) sample_vm (AccountRef alice) (BytesToAddress [204]) [] 100 7 with
    Ok (v, _, _, _) => SDB.balance_at (SDB.world (db v)) (BytesToAddress [204]) | Err _ => 0 end = 7) as Ee by (vm_compute; reflexivity).
  rewrite E in Ee. split; [exact Ee|]. split; [exact H | apply H, sample_balances].
Defined.

End Machine.
