(* ===== verification/Transaction.v ===== *)
(** Transactions (src/core/transaction.go): the two payload types, their wire
    encodings, the digest that is signed, and recovery of the sender.

    The payloads of a [Transaction] come from [NewTx], [SignTx] or
    [UnmarshalBinary], which leave no big integer nil; they are integers here.
    Lazily filled caches are fields of the record.  The signature scheme of
    src/crypto/secp256k1 is the interfaces [NativeCrypto] and [Signing]. *)

From Stdlib Require Import String.
From stdpp Require Import base list gmap.
From Stdlib Require Import ZArith Lia.
From S2P Require Import Prelude RLP Common Registry Precompiles.
Local Open Scope Z_scope.
Local Open Scope go_scope.

(** Signing with a private key: the signature [(r, s, v)] of a 32-byte digest,
    in canonical form, from which the public key is recovered. *)
Class Signing `{C : NativeCrypto} := {
  PrivateKey : Type;
  Public : PrivateKey -> bytes;
  Sign : PrivateKey -> bytes -> option (Z * Z * Z);
  Sign_range : forall k h r s v, Sign k h = Some (r, s, v) -> 0 < r < Native.secp256k1_N /\ Native.IsLowS s = true /\ 0 <= v < 4;
  Sign_recover : forall k h r s v, Sign k h = Some (r, s, v) -> Recover h r s v = Some (Public k)
}.

Module Tx.
Import Rlp.

Definition LegacyTxType : Z := 0.
Definition DynamicTxType : Z := 2.

Inductive tx_error :=
| ErrInvalidTxType
| ErrInvalidSignature
| ErrUnsignedTx
| ErrChainIDMismatch
| ErrEmptyEncoding
| ErrCodec (e : Rlp.error).

(** * Payloads *)

Abbreviation AccessList := (list (Address * list Hash)).

Definition StorageKeyCount (al : AccessList) : Z := zsum (map (fun t => len (snd t)) al).

Record LegacyTx := mkLegacy
  { l_nonce : Z; l_gasPrice : Z; l_gas : Z; l_to : option Address; l_value : Z; l_data : bytes;
    l_v : Z; l_r : Z; l_s : Z }.

Record DynamicFeeTx := mkDynamic
  { d_chainID : Z; d_nonce : Z; d_gasTipCap : Z; d_gasFeeCap : Z; d_gas : Z; d_to : option Address;
    d_value : Z; d_data : bytes; d_accessList : AccessList; d_v : Z; d_r : Z; d_s : Z }.

Inductive TxData := Legacy (t : LegacyTx) | Dynamic (t : DynamicFeeTx).

Definition txType (i : TxData) : Z := match i with Legacy _ => LegacyTxType | Dynamic _ => DynamicTxType end.
Definition chainID (i : TxData) : option Z :=
  match i with
  | Legacy t =>
      let v := wrap64 (l_v t) in
      if (v =? 27) || (v =? 28) then None else Some (Z.shiftr (l_v t - 35) 1)
  | Dynamic t => Some (d_chainID t)
  end.
Definition nonce (i : TxData) : Z := match i with Legacy t => l_nonce t | Dynamic t => d_nonce t end.
Definition gasLimit (i : TxData) : Z := match i with Legacy t => l_gas t | Dynamic t => d_gas t end.
Definition gasPrice (i : TxData) : Z := match i with Legacy t => l_gasPrice t | Dynamic t => d_gasFeeCap t end.
Definition gasTipCap (i : TxData) : Z := match i with Legacy t => l_gasPrice t | Dynamic t => d_gasTipCap t end.
Definition gasFeeCap (i : TxData) : Z := match i with Legacy t => l_gasPrice t | Dynamic t => d_gasFeeCap t end.
Definition to (i : TxData) : option Address := match i with Legacy t => l_to t | Dynamic t => d_to t end.
Definition value (i : TxData) : Z := match i with Legacy t => l_value t | Dynamic t => d_value t end.
Definition data (i : TxData) : bytes := match i with Legacy t => l_data t | Dynamic t => d_data t end.
Definition accessList (i : TxData) : AccessList := match i with Legacy _ => [] | Dynamic t => d_accessList t end.

Definition rawSignature (i : TxData) : Z * Z * Z :=
  match i with Legacy t => (l_v t, l_r t, l_s t) | Dynamic t => (d_v t, d_r t, d_s t) end.
Definition setSignature (i : TxData) (chain v r s : Z) : TxData :=
  match i with
  | Legacy t => Legacy (mkLegacy (l_nonce t) (l_gasPrice t) (l_gas t) (l_to t) (l_value t) (l_data t) v r s)
  | Dynamic t => Dynamic (mkDynamic chain (d_nonce t) (d_gasTipCap t) (d_gasFeeCap t) (d_gas t) (d_to t) (d_value t)
                            (d_data t) (d_accessList t) v r s)
  end.

(** * Prices *)

Definition EffectiveGasPrice (i : TxData) (baseFee : option Z) : Z :=
  match baseFee with
  | None => gasPrice i
  | Some b =>
      if txType i =? LegacyTxType then gasPrice i
      else
        let tip := gasFeeCap i - b in
        let tip := if tip <? 0 then 0 else tip in
        let tip := if gasTipCap i <? tip then gasTipCap i else tip in
        tip + b
  end.

Definition EffectiveTip (i : TxData) (baseFee : option Z) : Z :=
  match baseFee with
  | None => gasTipCap i
  | Some b => EffectiveGasPrice i baseFee - b
  end.

Definition Cost (i : TxData) : Z := gasFeeCap i * gasLimit i + value i.

(** * Wire encoding *)

Definition big_type : GoType := TPtr TBigInt.
Definition bytes_type : GoType := TSlice (TUint 8).
Definition address_type : GoType := TArray 20 (TUint 8).
Definition tuple_type : GoType := TStruct
  [mkField "Address" true "" address_type; mkField "StorageKeys" true "" (TSlice (TArray 32 (TUint 8)))].
Definition access_type : GoType := TSlice tuple_type.

Definition legacy_type : GoType := TStruct
  [mkField "Nonce" true "" (TUint 64); mkField "GasPrice" true "" big_type; mkField "Gas" true "" (TUint 64);
   mkField "To" true "nil" (TPtr address_type); mkField "Value" true "" big_type; mkField "Data" true "" bytes_type;
   mkField "V" true "" big_type; mkField "R" true "" big_type; mkField "S" true "" big_type].

Definition dynamic_type : GoType := TStruct
  [mkField "ChainID" true "" big_type; mkField "Nonce" true "" (TUint 64); mkField "GasTipCap" true "" big_type;
   mkField "GasFeeCap" true "" big_type; mkField "Gas" true "" (TUint 64); mkField "To" true "nil" (TPtr address_type);
   mkField "Value" true "" big_type; mkField "Data" true "" bytes_type; mkField "AccessList" true "" access_type;
   mkField "V" true "" big_type; mkField "R" true "" big_type; mkField "S" true "" big_type].

Definition big_value (v : Z) : GoVal := VPtr (VBig v).
Definition to_value (a : option Address) : GoVal := match a with Some b => VPtr (VBytes b) | None => VNil end.
Definition tuple_value (t : Address * list Hash) : GoVal := VStruct [VBytes (fst t); VSeq (map VBytes (snd t))].
Definition access_value (al : AccessList) : GoVal := VSeq (map tuple_value al).

Definition legacy_value (t : LegacyTx) : GoVal :=
  VStruct [VUint (l_nonce t); big_value (l_gasPrice t); VUint (l_gas t); to_value (l_to t); big_value (l_value t);
           bytes_value (l_data t); big_value (l_v t); big_value (l_r t); big_value (l_s t)].
Definition dynamic_value (t : DynamicFeeTx) : GoVal :=
  VStruct [big_value (d_chainID t); VUint (d_nonce t); big_value (d_gasTipCap t); big_value (d_gasFeeCap t);
           VUint (d_gas t); to_value (d_to t); big_value (d_value t); bytes_value (d_data t);
           access_value (d_accessList t); big_value (d_v t); big_value (d_r t); big_value (d_s t)].

(** Back from what the decoder produces. *)
Definition as_uint (v : GoVal) : Z := match v with VUint u => u | _ => 0 end.
Definition as_big (v : GoVal) : Z := match v with VPtr (VBig i) => i | _ => 0 end.
Definition as_bytes (v : GoVal) : bytes := match v with VBytes b => b | _ => [] end.
Definition as_to (v : GoVal) : option Address := match v with VPtr (VBytes b) => Some b | _ => None end.
Definition as_list (v : GoVal) : list GoVal := match v with VSeq l => l | VStruct l => l | _ => [] end.
Definition as_tuple (v : GoVal) : Address * list Hash :=
  match as_list v with
  | [a; ks] => (as_bytes a, map as_bytes (as_list ks))
  | _ => ([], [])
  end.

Definition legacy_of (v : GoVal) : LegacyTx :=
  let f n := nth n (as_list v) VNil in
  mkLegacy (as_uint (f 0%nat)) (as_big (f 1%nat)) (as_uint (f 2%nat)) (as_to (f 3%nat)) (as_big (f 4%nat))
    (as_bytes (f 5%nat)) (as_big (f 6%nat)) (as_big (f 7%nat)) (as_big (f 8%nat)).
Definition dynamic_of (v : GoVal) : DynamicFeeTx :=
  let f n := nth n (as_list v) VNil in
  mkDynamic (as_big (f 0%nat)) (as_uint (f 1%nat)) (as_big (f 2%nat)) (as_big (f 3%nat)) (as_uint (f 4%nat))
    (as_to (f 5%nat)) (as_big (f 6%nat)) (as_bytes (f 7%nat)) (map as_tuple (as_list (f 8%nat)))
    (as_big (f 9%nat)) (as_big (f 10%nat)) (as_big (f 11%nat)).

Definition MarshalBinary (i : TxData) : result Rlp.error bytes :=
  match i with
  | Legacy t => Encode (VPtr (legacy_value t)) (TPtr legacy_type)
  | Dynamic t =>
      let! payload := Encode (VPtr (dynamic_value t)) (TPtr dynamic_type) in
      Ok (DynamicTxType :: payload)
  end.

Definition codec {A} (r : result Rlp.error A) : result tx_error A :=
  match r with Ok a => Ok a | Err e => Err (ErrCodec e) end.

Definition UnmarshalBinary (b : bytes) : result tx_error TxData :=
  match b with
  | [] => Err ErrEmptyEncoding
  | c :: rest =>
      if 192 <=? c then let! v := codec (Decode b legacy_type) in Ok (Legacy (legacy_of v))
      else if c =? DynamicTxType then let! v := codec (Decode rest dynamic_type) in Ok (Dynamic (dynamic_of v))
      else Err ErrInvalidTxType
  end.

(** Inside a list a typed transaction travels as a byte string. *)
Definition EncodeRLP (i : TxData) : result Rlp.error bytes :=
  let! b := MarshalBinary i in
  if txType i =? LegacyTxType then Ok b else Ok (EncodeBytes b).

Definition DecodeRLP (s : bytes) : result tx_error (TxData * bytes) :=
  let! (kind, _) := codec (StreamKind s) in
  match kind with
  | KList => let! (raw, r) := codec (Raw s) in let! i := UnmarshalBinary raw in Ok (i, r)
  | _ => let! (b, r) := codec (StreamBytes s) in let! i := UnmarshalBinary b in Ok (i, r)
  end.

(** [None] is the panic on a payload that cannot be encoded. *)
Fixpoint EncodeForRoot (txs : list TxData) : option (list bytes) :=
  match txs with
  | [] => Some []
  | i :: r =>
      match MarshalBinary i with
      | Err _ => None
      | Ok enc => let? out := EncodeForRoot r in Some (enc :: out)
      end
  end.

(** * Transactions with their caches *)

Record Transaction := mkTx
  { inner : TxData; c_hash : option Hash; c_sender : option Address; c_size : Z }.

Definition NewTx (i : TxData) : Transaction := mkTx i None None 0.
Definition setInner (tx : Transaction) (i : TxData) : Transaction := mkTx i None None 0.

Definition addrOrEmpty (a : option Address) : bytes := match a with None => [] | Some a => a end.

Section Signer.
Context `{K : Keccak} `{C : NativeCrypto}.

Definition hash_of (i : TxData) : option Hash :=
  match MarshalBinary i with Ok enc => Some (Keccak256 [enc]) | Err _ => None end.

Definition TxHash (tx : Transaction) : option (Transaction * Hash) :=
  match c_hash tx with
  | Some h => Some (tx, h)
  | None => let? h := hash_of (inner tx) in Some (mkTx (inner tx) (Some h) (c_sender tx) (c_size tx), h)
  end.

Definition TxSize (tx : Transaction) : Transaction * Z :=
  if negb (c_size tx =? 0) then (tx, c_size tx)
  else match MarshalBinary (inner tx) with
       | Err _ => (tx, 0)
       | Ok enc => (mkTx (inner tx) (c_hash tx) (c_sender tx) (wrap64 (len enc)), wrap64 (len enc))
       end.

(** The signer is its chain id. *)
Variable signer : Z.

(** The items of the signed list, as [rlp.Encode([]any{...})] sees them. *)
Definition signed_items (i : TxData) : list GoVal :=
  match i with
  | Legacy t =>
      [VIface (TUint 64) (VUint (l_nonce t)); VIface big_type (big_value (l_gasPrice t)); VIface (TUint 64) (VUint (l_gas t));
       VIface bytes_type (VBytes (addrOrEmpty (l_to t))); VIface big_type (big_value (l_value t));
       VIface bytes_type (bytes_value (l_data t)); VIface big_type (big_value signer);
       VIface (TUint 64) (VUint 0); VIface (TUint 64) (VUint 0)]
  | Dynamic t =>
      [VIface big_type (big_value signer); VIface (TUint 64) (VUint (d_nonce t)); VIface big_type (big_value (d_gasTipCap t));
       VIface big_type (big_value (d_gasFeeCap t)); VIface (TUint 64) (VUint (d_gas t));
       VIface bytes_type (VBytes (addrOrEmpty (d_to t))); VIface big_type (big_value (d_value t));
       VIface bytes_type (bytes_value (d_data t)); VIface access_type (access_value (d_accessList t))]
  end.

(** The message that is hashed. *)
Definition signing_message (i : TxData) : result Rlp.error bytes :=
  let! enc := Encode (VSeq (signed_items i)) (TSlice TInterface) in
  Ok (match i with Legacy _ => enc | Dynamic _ => DynamicTxType :: enc end).

Definition SigningHash (i : TxData) : result Rlp.error Hash :=
  let! m := signing_message i in Ok (Keccak256 [m]).

(** The bare recovery id in [V]. *)
Definition recovery_id (i : TxData) (v : Z) : result tx_error Z :=
  match i with
  | Legacy _ =>
      let vv := wrap64 v in
      if (vv =? 27) || (vv =? 28) then Ok (wrap8 (vv - 27))
      else
        let expected := Z.shiftl signer 1 + 35 in
        let parity := v - expected in
        if (parity <? 0) || (1 <? parity) then Err ErrInvalidSignature else Ok (wrap8 (wrap64 parity))
  | Dynamic _ => if 1 <? v then Err ErrInvalidSignature else Ok (wrap8 (wrap64 v))
  end.

(** [Sender] without its cache. *)
Definition recover_sender (i : TxData) : result tx_error Address :=
  let '(v, r, s) := rawSignature i in
  if (r =? 0) && (s =? 0) then Err ErrUnsignedTx
  else if negb (Native.IsLowS s) then Err ErrInvalidSignature
  else if match chainID i with Some id => negb (id =? 0) && negb (id =? signer) | None => false end then Err ErrChainIDMismatch
  else
    let! id := recovery_id i v in
    let! hash := codec (SigningHash i) in
    match Recover hash r s id with
    | None => Err ErrInvalidSignature
    | Some pub => Ok (BytesToAddress (drop 12 (Keccak256 [pub])))
    end.

Definition Sender (tx : Transaction) : Transaction * result tx_error Address :=
  match c_sender tx with
  | Some a => (tx, Ok a)
  | None =>
      match recover_sender (inner tx) with
      | Ok a => (mkTx (inner tx) (c_hash tx) (Some a) (c_size tx), Ok a)
      | Err e => (tx, Err e)
      end
  end.

Definition SignTx `{S : !Signing} (tx : Transaction) (key : PrivateKey) : result tx_error Transaction :=
  let! hash := codec (SigningHash (inner tx)) in
  match Sign key hash with
  | None => Err ErrInvalidSignature
  | Some (r, s, v) =>
      let v := match inner tx with Legacy _ => Z.land v 1 + 35 + Z.shiftl signer 1 | Dynamic _ => Z.land v 1 end in
      Ok (NewTx (setSignature (inner tx) signer v r s))
  end.

End Signer.

(** * Well-formed payloads *)

Definition to_ok (a : option Address) : Prop := match a with Some b => address_ok b | None => True end.
Definition tuple_ok (t : Address * list Hash) : Prop := address_ok (fst t) /\ Forall hash_ok (snd t).

(** Integers in range and byte arrays of their length. *)
Definition payload_ok (i : TxData) : Prop :=
  match i with
  | Legacy t => u64_ok (l_nonce t) /\ 0 <= l_gasPrice t /\ u64_ok (l_gas t) /\ to_ok (l_to t) /\ 0 <= l_value t /\
      bytes_ok (l_data t) /\ 0 <= l_v t /\ 0 <= l_r t /\ 0 <= l_s t
  | Dynamic t => 0 <= d_chainID t /\ u64_ok (d_nonce t) /\ 0 <= d_gasTipCap t /\ 0 <= d_gasFeeCap t /\ u64_ok (d_gas t) /\
      to_ok (d_to t) /\ 0 <= d_value t /\ bytes_ok (d_data t) /\ Forall tuple_ok (d_accessList t) /\
      0 <= d_v t /\ 0 <= d_r t /\ 0 <= d_s t
  end.

Lemma canon_uint u : u64_ok u -> canon (VUint u) (TUint 64).
Proof. intros H. cbn. unfold u64_ok, two64 in H. lia. Qed.

Lemma canon_big v : 0 <= v -> canon (big_value v) big_type.
Proof. intros H. exact H. Qed.

Lemma canon_bytes b : canon (bytes_value b) bytes_type.
Proof. destruct b; cbn; [reflexivity | split; [reflexivity | discriminate]]. Qed.

Lemma as_bytes_value b : as_bytes (bytes_value b) = b.
Proof. destruct b; reflexivity. Qed.

Lemma canon_tuple t : tuple_ok t -> canon (tuple_value t) tuple_type.
Proof.
  destruct t as [a ks]. intros [Ha Hk]. cbn [fst snd] in *. right. split; [right; split; [split; [reflexivity | apply Ha] | discriminate]|].
  right. split; [|exact I]. right. split; [|discriminate]. split; [reflexivity|].
  induction Hk as [|k ks H _ IH]; cbn; [exact I | split; [split; [reflexivity | apply H] | exact IH]].
Qed.

Lemma canon_access al : Forall tuple_ok al -> canon (access_value al) access_type.
Proof. intros H. split; [reflexivity|]. induction H as [|t al Ht _ IH]; [exact I | split; [apply canon_tuple, Ht | exact IH]]. Qed.

Lemma as_access al : map as_tuple (as_list (access_value al)) = al.
Proof.
  unfold access_value. cbn [as_list]. rewrite map_map. induction al as [|[a ks] al IH]; [reflexivity|]. cbn [map].
  rewrite IH. unfold tuple_value, as_tuple. cbn [as_list fst snd as_bytes]. rewrite map_map, (map_ext _ id), map_id by reflexivity. reflexivity.
Qed.

(** A plain field, and the recipient. *)
Lemma plain_field x ft : canon x ft -> field_canon (fun x t => canon x t) (mkInfo false false) x ft.
Proof. intros H. right. split; [exact H | discriminate]. Qed.

Lemma to_field a : to_ok a -> field_canon (fun x t => canon x t) (mkInfo false true) (to_value a) (TPtr address_type).
Proof.
  destruct a as [b|]; intros H; [|left; split; reflexivity]. right. split; [split; [reflexivity | apply H]|].
  intros _ e [= <-]. destruct H as [Hl _]. destruct (writeBytes_cases b) as [(c & -> & _ & _)|[-> _]]; [discriminate|].
  change 128 with (offset_of KString). rewrite (writeHeader_short KString) by (unfold len; rewrite Hl; lia). unfold len. rewrite Hl. cbn. lia.
Qed.


(** ** Encodings exist *)

Lemma encode_big v : 0 <= v -> encodeValue (big_value v) big_type = Ok (writeBytes (big_bytes v)).
Proof. intros H. cbn. destruct (Z.ltb_spec v 0); [lia | reflexivity]. Qed.

Lemma encode_bytes b : encodeValue (bytes_value b) bytes_type = Ok (writeBytes b).
Proof. destruct b; reflexivity. Qed.

Lemma encode_to a : exists e, encodeValue (to_value a) (TPtr address_type) = Ok e.
Proof. destruct a; eexists; reflexivity. Qed.

Lemma sequence_ok l : Forall (fun r => exists e : bytes, r = Ok e) l -> exists e, sequence l = Ok e.
Proof. induction 1 as [|r l [e ->] _ [p IH]]; [eexists; reflexivity|]. cbn [sequence rbind]. rewrite IH. eexists; reflexivity. Qed.

Lemma encode_tuple x : exists e, encodeValue (tuple_value x) tuple_type = Ok e.
Proof.
  destruct x as [a ks]. unfold tuple_value, tuple_type. cbn. assert (forall l, exists e, sequence (map (fun x => encodeValue x (TArray 32 (TUint 8))) (map VBytes l)) = Ok e) as H.
  { intros l. apply sequence_ok. rewrite map_map. induction l; constructor; [eexists; reflexivity | assumption]. }
  destruct (H ks) as [e He]. cbn in He. rewrite He. eexists; reflexivity.
Qed.

Lemma encode_access al : exists e, encodeValue (access_value al) access_type = Ok e.
Proof.
  unfold access_value, access_type. cbn [encodeValue is_uint8 tuple_type].
  destruct (sequence_ok (map (fun x => encodeValue x tuple_type) (map tuple_value al))) as [e He].
  { rewrite map_map. induction al; constructor; [apply encode_tuple | assumption]. }
  rewrite He. eexists; reflexivity.
Qed.

Ltac field_bigs := repeat first [rewrite encode_big by lia | rewrite encode_bytes].

Lemma encode_legacy t : payload_ok (Legacy t) -> exists p, encodeValue (legacy_value t) legacy_type = Ok (write_list p).
Proof.
  intros (Hn & Hp & Hg & Ht & Hv & Hd & H1 & H2 & H3). destruct (encode_to (l_to t)) as [eto Eto].
  unfold legacy_value, legacy_type. cbn [encodeValue]. cbn -[encodeValue writeBytes putUint big_value big_type bytes_type bytes_value to_value address_type].
  field_bigs. rewrite Eto. cbn -[writeBytes putUint]. eexists. reflexivity.
Qed.


Lemma encode_dynamic t : payload_ok (Dynamic t) -> exists p, encodeValue (dynamic_value t) dynamic_type = Ok (write_list p).
Proof.
  intros (Hc & Hn & Hp & Hf & Hg & Ht & Hv & Hd & Ha & H1 & H2 & H3). destruct (encode_to (d_to t)) as [eto Eto]. destruct (encode_access (d_accessList t)) as [ea Ea].
  unfold dynamic_value, dynamic_type. cbn [encodeValue]. cbn -[encodeValue writeBytes putUint big_value big_type bytes_type bytes_value to_value address_type access_value access_type].
  field_bigs. rewrite Eto, Ea. cbn -[writeBytes putUint]. eexists. reflexivity.
Qed.

Lemma canon_legacy t : payload_ok (Legacy t) -> canon (legacy_value t) legacy_type.
Proof.
  intros (Hn & Hp & Hg & Ht & Hv & Hd & H1 & H2 & H3).
  do 3 (right; split; [apply plain_field; first [apply canon_uint; assumption | apply canon_big; assumption]|]).
  right. split; [apply to_field, Ht|].
  do 5 (right; split; [apply plain_field; first [apply canon_big; assumption | apply canon_bytes]|]). exact I.
Qed.

Lemma canon_dynamic t : payload_ok (Dynamic t) -> canon (dynamic_value t) dynamic_type.
Proof.
  intros (Hc & Hn & Hp & Hf & Hg & Ht & Hv & Hd & Ha & H1 & H2 & H3).
  do 5 (right; split; [apply plain_field; first [apply canon_uint; assumption | apply canon_big; assumption]|]).
  right. split; [apply to_field, Ht|].
  do 6 (right; split; [apply plain_field; first [apply canon_big; assumption | apply canon_bytes | apply canon_access; assumption]|]). exact I.
Qed.

Lemma legacy_of_value t : legacy_of (legacy_value t) = t.
Proof. destruct t as [n p g [a|] v d x r s]; unfold legacy_of, legacy_value; cbn -[bytes_value]; rewrite as_bytes_value; reflexivity. Qed.

Lemma dynamic_of_value t : dynamic_of (dynamic_value t) = t.
Proof.
  destruct t as [c n p f g [a|] v d al x r s]; unfold dynamic_of, dynamic_value; cbn -[bytes_value access_value];
    rewrite as_bytes_value, as_access; reflexivity.
Qed.

(** The first byte of a list is 192 or more. *)
Lemma write_list_head p : fits (write_list p) -> exists c r, write_list p = c :: r /\ 192 <= c.
Proof.
  intros Hf. pose proof (payload_of_fits _ (proj2 (fits_app _ _ Hf))) as HP. unfold write_list, writeListHeader. change 192 with (offset_of KList).
  destruct (Z_lt_dec (len p) 56) as [H|H].
  - rewrite writeHeader_short by (pose proof (len_nonneg p); lia). eexists _, _. split; [reflexivity|]. pose proof (len_nonneg p). cbn. lia.
  - destruct (writeHeader_long KList (len p) HP) as [-> Hl]; [lia|]. eexists _, _. split; [reflexivity|]. cbn. lia.
Qed.

Lemma decode_value v t e : canon v t -> encodeValue v t = Ok e -> fits e -> Decode e t = Ok v.
Proof.
  intros Hc He Hf. unfold Decode. rewrite <- (app_nil_r e) in Hf. destruct (value_round v t e [] Hc He Hf) as [Hd _]. rewrite app_nil_r in Hd.
  rewrite Hd. reflexivity.
Qed.

Lemma unmarshal_marshal i b : payload_ok i -> MarshalBinary i = Ok b -> fits b -> UnmarshalBinary b = Ok i.
Proof.
  destruct i as [t|t]; intros Hi Hm Hf; unfold MarshalBinary in Hm.
  - destruct (encode_legacy t Hi) as [p Ep]. change (encodeValue (legacy_value t) legacy_type = Ok b) in Hm. rewrite Ep in Hm. injection Hm as <-.
    destruct (write_list_head p Hf) as (c & r & E & Hc). unfold UnmarshalBinary. rewrite E. apply Z.leb_le in Hc. rewrite Hc, <- E.
    rewrite (decode_value _ _ _ (canon_legacy t Hi) Ep Hf). cbn [codec rbind]. rewrite legacy_of_value. reflexivity.
  - destruct (encode_dynamic t Hi) as [p Ep]. change (Encode (VPtr (dynamic_value t)) (TPtr dynamic_type)) with (encodeValue (dynamic_value t) dynamic_type) in Hm.
    rewrite Ep in Hm. cbn [rbind] in Hm. injection Hm as <-. unfold UnmarshalBinary. cbn [DynamicTxType Z.leb Z.eqb]. change (192 <=? DynamicTxType) with false. change (DynamicTxType =? DynamicTxType) with true. cbv iota.
    rewrite (decode_value _ _ _ (canon_dynamic t Hi) Ep); [|unfold fits in *; rewrite len_cons in Hf; lia]. cbn [codec rbind]. rewrite dynamic_of_value. reflexivity.
Qed.


(** ** In a stream *)

Lemma raw_list p rest : fits (write_list p ++ rest) ->
  (exists n, StreamKind (write_list p ++ rest) = Ok (KList, n)) /\ Raw (write_list p ++ rest) = Ok (write_list p, rest).
Proof.
  intros Hf. pose proof (proj1 (fits_app _ _ Hf)) as Hw. pose proof (payload_of_fits _ (proj2 (fits_app _ _ Hw))) as HP.
  assert (StreamKind (write_list p ++ rest) = Ok (KList, len p)) as Ek.
  { unfold write_list, writeListHeader. rewrite <- app_assoc. apply (kind_header KList); [discriminate | exact HP]. }
  split; [eauto|]. unfold Raw. rewrite Ek. cbn [rbind]. rewrite headerSize_spec by (discriminate || exact HP).
  replace (len (writeHeader (len p) (offset_of KList)) + len p) with (len (write_list p)) by (unfold write_list, writeListHeader; rewrite len_app; reflexivity).
  unfold fits in Hw. pose proof (len_nonneg (write_list p)). pose proof (len_nonneg rest). rewrite wrap_int_small by (split; [unfold max_int64; lia | exact Hw]).
  rewrite len_app. destruct (Z.ltb_spec (len (write_list p) + len rest) (len (write_list p))); [lia|].
  destruct (Z.ltb_spec (len (write_list p)) 0); [lia|]. rewrite firstn_len_app, skipn_len_app by (unfold len; lia). reflexivity.
Qed.

Lemma bytes_kind b rest : fits (writeBytes b ++ rest) -> exists k n, StreamKind (writeBytes b ++ rest) = Ok (k, n) /\ k <> KList.
Proof.
  intros Hf. pose proof (bytes_writeBytes b rest Hf) as E. unfold StreamBytes in E. destruct (StreamKind _) as [[k n]|]; [|discriminate].
  exists k, n. split; [reflexivity|]. intros ->. discriminate.
Qed.

Lemma decode_encode_rlp i e rest : payload_ok i -> EncodeRLP i = Ok e -> fits (e ++ rest) -> DecodeRLP (e ++ rest) = Ok (i, rest).
Proof.
  intros Hi He Hf. unfold EncodeRLP in He. destruct (MarshalBinary i) as [b|] eqn:Em; [|discriminate]. cbn [rbind] in He. unfold DecodeRLP.
  destruct i as [t|t]; cbn in He; injection He as <-.
  - destruct (encode_legacy t Hi) as [p Ep]. pose proof Em as Em'. change (encodeValue (legacy_value t) legacy_type = Ok b) in Em. rewrite Ep in Em. injection Em as <-.
    destruct (raw_list p rest Hf) as [[n ->] ->]. cbn [codec rbind]. rewrite (unmarshal_marshal _ _ Hi Em') by apply (fits_app _ _ Hf). reflexivity.
  - unfold EncodeBytes in *. destruct (bytes_kind b rest Hf) as (k & n & -> & Hk). cbn [codec rbind]. rewrite (bytes_writeBytes _ _ Hf).
    cbn [codec rbind]. assert (fits b) as Hb.
    { destruct (fits_app _ _ Hf) as [Hw _]. destruct (writeBytes_cases b) as [(c & -> & _)|[E _]]; [vm_compute; discriminate|]. rewrite E in Hw. apply (fits_app _ _ Hw). }
    destruct k; [| |contradiction]; cbn [codec rbind]; rewrite (unmarshal_marshal _ _ Hi Em Hb); reflexivity.
Qed.

(** * What the signature covers *)

(** The signed lists, as structs. *)
Definition legacy_signed : GoType := TStruct
  [mkField "Nonce" true "" (TUint 64); mkField "GasPrice" true "" big_type; mkField "Gas" true "" (TUint 64);
   mkField "To" true "" bytes_type; mkField "Value" true "" big_type; mkField "Data" true "" bytes_type;
   mkField "ChainID" true "" big_type; mkField "Zero1" true "" (TUint 64); mkField "Zero2" true "" (TUint 64)].
Definition dynamic_signed : GoType := TStruct
  [mkField "ChainID" true "" big_type; mkField "Nonce" true "" (TUint 64); mkField "GasTipCap" true "" big_type;
   mkField "GasFeeCap" true "" big_type; mkField "Gas" true "" (TUint 64); mkField "To" true "" bytes_type;
   mkField "Value" true "" big_type; mkField "Data" true "" bytes_type; mkField "AccessList" true "" access_type].

Definition legacy_content (signer : Z) (t : LegacyTx) : GoVal :=
  VStruct [VUint (l_nonce t); big_value (l_gasPrice t); VUint (l_gas t); bytes_value (addrOrEmpty (l_to t));
           big_value (l_value t); bytes_value (l_data t); big_value signer; VUint 0; VUint 0].
Definition dynamic_content (signer : Z) (t : DynamicFeeTx) : GoVal :=
  VStruct [big_value signer; VUint (d_nonce t); big_value (d_gasTipCap t); big_value (d_gasFeeCap t); VUint (d_gas t);
           bytes_value (addrOrEmpty (d_to t)); big_value (d_value t); bytes_value (d_data t); access_value (d_accessList t)].

Lemma encode_iface t v : encodeValue (VIface t v) TInterface = encodeValue v t.
Proof. reflexivity. Qed.

Lemma encode_slice b : encodeValue (VBytes b) bytes_type = Ok (writeBytes b).
Proof. reflexivity. Qed.

Lemma legacy_content_encoded signer t :
  Encode (VSeq (signed_items signer (Legacy t))) (TSlice TInterface) = encodeValue (legacy_content signer t) legacy_signed.
Proof.
  unfold Encode, signed_items, legacy_content, legacy_signed. cbn [encodeValue].
  cbn -[encodeValue writeBytes putUint big_value big_type bytes_type bytes_value]. rewrite !encode_iface, !encode_slice, !encode_bytes. reflexivity.
Qed.

Lemma dynamic_content_encoded signer t :
  Encode (VSeq (signed_items signer (Dynamic t))) (TSlice TInterface) = encodeValue (dynamic_content signer t) dynamic_signed.
Proof.
  unfold Encode, signed_items, dynamic_content, dynamic_signed. cbn [encodeValue].
  cbn -[encodeValue writeBytes putUint big_value big_type bytes_type bytes_value access_value access_type]. rewrite !encode_iface, !encode_slice, !encode_bytes. reflexivity.
Qed.


Lemma canon_legacy_content signer t : payload_ok (Legacy t) -> 0 <= signer -> canon (legacy_content signer t) legacy_signed.
Proof.
  intros (Hn & Hp & Hg & Ht & Hv & Hd & H1 & H2 & H3) Hs.
  do 9 (right; split; [apply plain_field; first [apply canon_uint; (assumption || (unfold u64_ok, two64; lia)) | apply canon_big; assumption | apply canon_bytes]|]). exact I.
Qed.

Lemma canon_dynamic_content signer t : payload_ok (Dynamic t) -> 0 <= signer -> canon (dynamic_content signer t) dynamic_signed.
Proof.
  intros (Hc & Hn & Hp & Hf & Hg & Ht & Hv & Hd & Ha & H1 & H2 & H3) Hs.
  do 9 (right; split; [apply plain_field; first [apply canon_uint; assumption | apply canon_big; assumption | apply canon_bytes | apply canon_access; assumption]|]). exact I.
Qed.

Lemma encode_inj x y t e : canon x t -> canon y t -> encodeValue x t = Ok e -> encodeValue y t = Ok e -> fits e -> x = y.
Proof. intros Hx Hy Ex Ey Hf. pose proof (decode_value x t e Hx Ex Hf) as E1. rewrite (decode_value y t e Hy Ey Hf) in E1. congruence. Qed.

Lemma bytes_value_inj a b : bytes_value a = bytes_value b -> a = b.
Proof. intros E. rewrite <- (as_bytes_value a), E. apply as_bytes_value. Qed.

Lemma addrOrEmpty_inj a b : to_ok a -> to_ok b -> addrOrEmpty a = addrOrEmpty b -> a = b.
Proof. destruct a as [a|], b as [b|]; cbn; intros Ha Hb; [congruence | intros -> | intros <- |]; [destruct Ha | destruct Hb |]; easy. Qed.

Lemma access_value_inj a b : access_value a = access_value b -> a = b.
Proof. intros E. rewrite <- (as_access a), E. apply as_access. Qed.

(** The payload without its signature and chain id field. *)
Definition content (i : TxData) : TxData := setSignature i 0 0 0 0.

Lemma signing_message_list signer i m : payload_ok i -> 0 <= signer -> signing_message signer i = Ok m -> fits m ->
  match i with
  | Legacy t => encodeValue (legacy_content signer t) legacy_signed = Ok m /\ exists c r, m = c :: r /\ 192 <= c
  | Dynamic t => exists e, m = DynamicTxType :: e /\ fits e /\ encodeValue (dynamic_content signer t) dynamic_signed = Ok e
  end.
Proof.
  intros Hi Hs Hm Hf. unfold signing_message in Hm. destruct i as [t|t].
  - rewrite legacy_content_encoded in Hm. destruct (encodeValue (legacy_content signer t) legacy_signed) as [e|] eqn:Ee; [|discriminate].
    injection Hm as ->. split; [reflexivity|]. unfold legacy_content, legacy_signed in Ee. cbn [encodeValue] in Ee.
    destruct (structFields _) as [infos|]; [|discriminate]. cbn [rbind] in Ee. destruct (sequence _) as [p|]; [|discriminate]. injection Ee as <-.
    apply write_list_head, Hf.
  - rewrite dynamic_content_encoded in Hm. destruct (encodeValue (dynamic_content signer t) dynamic_signed) as [e|]; [|discriminate].
    injection Hm as <-. exists e. split; [reflexivity|]. split; [unfold fits in *; rewrite len_cons in Hf; lia | reflexivity].
Qed.

Lemma signing_message_inj c c' i j m : payload_ok i -> payload_ok j -> 0 <= c -> 0 <= c' ->
  signing_message c i = Ok m -> signing_message c' j = Ok m -> fits m -> c = c' /\ content i = content j.
Proof.
  intros Hi Hj Hc Hc' Mi Mj Hf. pose proof (signing_message_list c i m Hi Hc Mi Hf) as Ei. pose proof (signing_message_list c' j m Hj Hc' Mj Hf) as Ej.
  destruct i as [t|t], j as [u|u].
  - destruct Ei as [Ei _], Ej as [Ej _]. pose proof (encode_inj _ _ _ _ (canon_legacy_content c t Hi Hc) (canon_legacy_content c' u Hj Hc') Ei Ej Hf) as E.
    injection E as E1 E2 E3 E4 E5 E6 E7. apply bytes_value_inj in E4, E6. apply addrOrEmpty_inj in E4; [|apply Hi | apply Hj].
    split; [assumption|]. cbn. congruence.
  - destruct Ei as [_ (h & r & -> & Hh)], Ej as (e & [= -> _] & _). unfold DynamicTxType in Hh. lia.
  - destruct Ej as [_ (h & r & -> & Hh)], Ei as (e & [= -> _] & _). unfold DynamicTxType in Hh. lia.
  - destruct Ei as (e & -> & He & Ei), Ej as (e' & [= <-] & _ & Ej).
    pose proof (encode_inj _ _ _ _ (canon_dynamic_content c t Hi Hc) (canon_dynamic_content c' u Hj Hc') Ei Ej He) as E.
    injection E as E1 E2 E3 E4 E5 E6 E7 E8 E9. apply bytes_value_inj in E6, E8. apply addrOrEmpty_inj in E6; [|apply Hi | apply Hj].
    assert (d_accessList t = d_accessList u) by (apply access_value_inj; unfold access_value; congruence).
    split; [assumption|]. cbn. congruence.
Qed.


(** * Properties *)

Section Properties.
Context `{K : Keccak} `{C : NativeCrypto}.

(** Transactions survive the wire.  A payload with integers in range always
    has an encoding; decoding it gives the payload back, and so does reading it
    from the front of a stream inside a block, whatever follows. *)
Theorem transaction_roundtrip i rest : payload_ok i ->
  (forall b, MarshalBinary i = Ok b -> fits b -> UnmarshalBinary b = Ok i) /\
  (forall e, EncodeRLP i = Ok e -> fits (e ++ rest) -> DecodeRLP (e ++ rest) = Ok (i, rest)) /\
  exists b e, MarshalBinary i = Ok b /\ EncodeRLP i = Ok e.
Proof.
  intros Hi. split; [intros b; apply unmarshal_marshal, Hi|]. split; [intros e; apply decode_encode_rlp, Hi|].
  destruct i as [t|t].
  - destruct (encode_legacy t Hi) as [p Ep]. exists (write_list p), (write_list p). split; [exact Ep|].
    unfold EncodeRLP, MarshalBinary, Encode. cbn [encodeValue]. rewrite Ep. reflexivity.
  - destruct (encode_dynamic t Hi) as [p Ep]. eexists _, _. unfold EncodeRLP, MarshalBinary, Encode. cbn [encodeValue]. rewrite Ep. split; reflexivity.
Qed.

(** A signature covers the chain and the content.  If the digests two
    transactions are signed over on two chains are equal, then the chains are
    the same and so are nonce, prices, gas, recipient, value, data and access
    list, and the kind of transaction, unless the two signed messages are a
    collision of the hash function. *)
Theorem signature_binds_content c c' i j mi mj : payload_ok i -> payload_ok j -> 0 <= c -> 0 <= c' ->
  signing_message c i = Ok mi -> signing_message c' j = Ok mj -> fits mi -> fits mj ->
  SigningHash c i = SigningHash c' j ->
  (c = c' /\ content i = content j) \/ (mi <> mj /\ Keccak256 [mi] = Keccak256 [mj]).
Proof.
  intros Hi Hj Hc Hc' Mi Mj Fi Fj E. unfold SigningHash in E. rewrite Mi, Mj in E. cbn [rbind] in E. injection E as E.
  destruct (decide (mi = mj)) as [<-|Hne]; [|right; auto]. left. eapply signing_message_inj; eauto.
Qed.

(** Signing and recovering are inverse.  The transaction [SignTx] returns has
    the content it was given, and every signer for that chain recovers the
    address of the key from it, when the recovery id of the signature is 0 or 1. *)
Theorem sign_then_sender `{S : !Signing} c tx key h r s v : 0 <= c < 2 ^ 62 ->
  SigningHash c (inner tx) = Ok h -> Sign key h = Some (r, s, v) -> v < 2 ->
  exists tx', SignTx c tx key = Ok tx' /\ content (inner tx') = content (inner tx) /\
    snd (Sender c tx') = Ok (BytesToAddress (drop 12 (Keccak256 [Public key]))).
Proof.
  intros Hc Hh Hs Hv. destruct (Sign_range _ _ _ _ _ Hs) as (Hr & Hl & Hv0). pose proof (Sign_recover _ _ _ _ _ Hs) as Hrec.
  unfold SignTx. rewrite Hh. cbn [codec rbind]. rewrite Hs. eexists. split; [reflexivity|].
  assert (v = 0 \/ v = 1) as Hv1 by lia. assert (Z.land v 1 = v) as -> by (destruct Hv1 as [-> | ->]; reflexivity).
  split; [destruct (inner tx); reflexivity|]. unfold Sender, NewTx, recover_sender. cbn [c_sender inner].
  assert (forall ch v r s, SigningHash c (setSignature (inner tx) ch v r s) = Ok h) as Hh' by (intros; rewrite <- Hh; destruct (inner tx); reflexivity).
  rewrite Hh'. cbn [codec rbind]. assert ((r =? 0) = false) as Er by (apply Z.eqb_neq; lia). rewrite Z.shiftl_mul_pow2 by lia. change (2 ^ 1) with 2.
  destruct (inner tx) as [t|t]; cbn [setSignature rawSignature l_v l_r l_s d_v d_r d_s d_chainID chainID recovery_id]; rewrite Er, Hl; cbn [andb negb].
  - rewrite wrap64_small by (unfold u64_ok, two64; lia). destruct (Z.eqb_spec (v + 35 + c * 2) 27); [lia|]. destruct (Z.eqb_spec (v + 35 + c * 2) 28); [lia|]. cbn [orb].
    rewrite Z.shiftr_div_pow2, Z.shiftl_mul_pow2 by lia. change (2 ^ 1) with 2. replace ((v + 35 + c * 2 - 35) / 2) with c by (apply (Z.div_unique _ 2 c v); lia).
    rewrite Z.eqb_refl, andb_false_r. replace (v + 35 + c * 2 - (c * 2 + 35)) with v by lia.
    destruct (Z.ltb_spec v 0); [lia|]. destruct (Z.ltb_spec 1 v); [lia|]. cbn [orb rbind].
    assert (wrap8 (wrap64 v) = v) as -> by (destruct Hv1 as [-> | ->]; reflexivity). rewrite Hrec. reflexivity.
  - rewrite Z.eqb_refl, andb_false_r. destruct (Z.ltb_spec 1 v); [lia|]. cbn [rbind].
    assert (wrap8 (wrap64 v) = v) as -> by (destruct Hv1 as [-> | ->]; reflexivity). rewrite Hrec. reflexivity.
Qed.

(** The same transaction with the chain id left out: [V] reduced to 27 or 28, or
    a zero chain id field. *)
Definition unprotected (c : Z) (i : TxData) : TxData :=
  let '(v, r, s) := rawSignature i in
  setSignature i 0 (match i with Legacy _ => v - (Z.shiftl c 1 + 35) + 27 | Dynamic _ => v end) r s.

(** Signed transactions can be rewritten by anybody.  From a transaction that
    carries its chain id and whose sender is recovered, leaving the chain id out
    of the signature value or of the chain id field gives another transaction of
    the same content, whose sender is recovered too and is the same, but whose
    encoding, and with it the hash it is known by, is a different one. *)
Theorem signature_malleable c i a b : payload_ok i -> 0 < c < 2 ^ 62 -> chainID i = Some c -> recover_sender c i = Ok a ->
  MarshalBinary i = Ok b -> fits b ->
  recover_sender c (unprotected c i) = Ok a /\ content (unprotected c i) = content i /\
  exists b', MarshalBinary (unprotected c i) = Ok b' /\ b' <> b.
Proof.
  intros Hi Hc Hid Hs Hm Hf. assert (content (unprotected c i) = content i) as Econt by (destruct i; reflexivity).
  assert (payload_ok (unprotected c i) /\ unprotected c i <> i /\ recover_sender c (unprotected c i) = Ok a) as (Hp & Hne & Hr).
  { destruct i as [t|t].
    - cbn in Hid. destruct ((wrap64 (l_v t) =? 27) || (wrap64 (l_v t) =? 28)) eqn:Ev; [discriminate|]. injection Hid as Hid.
      rewrite Z.shiftr_div_pow2 in Hid by lia. change (2 ^ 1) with 2 in Hid. set (p := l_v t - (Z.shiftl c 1 + 35)). assert (p = 0 \/ p = 1) as Hp by (unfold p; rewrite Z.shiftl_mul_pow2 by lia; change (2 ^ 1) with 2; pose proof (Z.div_mod (l_v t - 35) 2); pose proof (Z.mod_pos_bound (l_v t - 35) 2); lia).
      unfold unprotected, rawSignature. fold p. split; [cbn in *; intuition lia|]. split; [intros E; injection E as E; apply (f_equal l_v) in E; cbn [l_v] in E; assert (p = l_v t - (c * 2 + 35)) by (unfold p; rewrite Z.shiftl_mul_pow2 by lia; reflexivity); lia|].
      unfold recover_sender in *. cbn [rawSignature setSignature l_v l_r l_s] in *. destruct ((l_r t =? 0) && (l_s t =? 0)); [discriminate|].
      destruct (negb (Native.IsLowS (l_s t))); [discriminate|]. cbn [chainID recovery_id l_v] in *. rewrite Ev in Hs. fold p in Hs.
      destruct (_ && _) in Hs; [discriminate|]. destruct Hp as [Hp | Hp]; rewrite Hp in *; cbn in Hs |- *; exact Hs.
    - injection Hid as Hid. unfold unprotected, rawSignature. split; [cbn in *; intuition lia|]. split; [intros E; apply (f_equal (fun i => match i with Dynamic t => d_chainID t | _ => 0 end)) in E; cbn in E; lia|].
      unfold recover_sender in *. cbn [rawSignature setSignature d_v d_r d_s chainID d_chainID recovery_id] in *. cbn [Z.eqb negb andb].
      destruct (_ && _) in Hs |- *; [discriminate|]. destruct (negb _) in Hs |- *; [discriminate|]. destruct (_ && _) in Hs; [discriminate|]. exact Hs. }
  split; [exact Hr|]. split; [exact Econt|]. destruct (MarshalBinary (unprotected c i)) as [b'|] eqn:Em.
  - exists b'. split; [reflexivity|]. intros ->. pose proof (unmarshal_marshal _ _ Hp Em Hf) as E. rewrite (unmarshal_marshal _ _ Hi Hm Hf) in E. congruence.
  - exfalso. destruct (unprotected c i) as [t|t]; [destruct (encode_legacy t Hp) as [p Ep] | destruct (encode_dynamic t Hp) as [p Ep]];
      unfold MarshalBinary, Encode in Em; cbn [encodeValue] in Em; rewrite Ep in Em; discriminate.
Qed.

End Properties.


(** ** Witnesses *)

#[local] Existing Instance Reg.toy_keccak.

(** A scheme in which every signature is that of one key. *)
#[local] Instance one_key : NativeCrypto.
Proof.
  refine {| sha256 := fun _ => zeros 32; Recover := fun _ _ _ v => Some [v]; G1 := unit; G2 := unit; NewG1 := fun _ _ => None;
            G1_Add := fun p _ => p; G1_ScalarMul := fun p _ => p; G1_affine := fun _ => None; NewG2 := fun _ _ _ _ => None; PairingCheck := fun _ => false |}.
  intros b. apply zeros_ok.
Defined.
#[local] Instance one_signing : Signing.
Proof.
  refine {| PrivateKey := unit; Public := fun _ => [1]; Sign := fun _ _ => Some (1, 1, 1) |};
    intros k h r s v [= <- <- <-]; [split; [split; [lia | reflexivity] | split; [reflexivity | lia]] | reflexivity].
Defined.

Definition sample_legacy (v : Z) : TxData := Legacy (mkLegacy 1 10 21000 (Some (zeros 20)) 5 [1; 2] v 1 1).
Definition sample_dynamic (ch : Z) : TxData := Dynamic (mkDynamic ch 1 2 10 21000 None 5 [] [(zeros 20, [zeros 32])] 1 1 1).

Lemma sample_legacy_ok v : 0 <= v -> payload_ok (sample_legacy v).
Proof.
  intros Hv. cbn [sample_legacy payload_ok l_nonce l_gasPrice l_gas l_to l_value l_data l_v l_r l_s to_ok]. unfold u64_ok, two64.
  do 3 (split; [lia|]). split; [split; [reflexivity | apply zeros_ok]|]. split; [lia|]. split; [repeat constructor; lia|]. lia.
Qed.
Lemma sample_dynamic_ok ch : 0 <= ch -> payload_ok (sample_dynamic ch).
Proof.
  intros Hc. cbn [sample_dynamic payload_ok d_chainID d_nonce d_gasTipCap d_gasFeeCap d_gas d_to d_value d_data d_accessList d_v d_r d_s to_ok]. unfold u64_ok, two64.
  do 5 (split; [lia|]). split; [exact I|]. split; [lia|]. split; [constructor|]. split; [|lia].
  constructor; [split; [split; [reflexivity | apply zeros_ok]|] | constructor]. constructor; [split; [reflexivity | apply zeros_ok] | constructor].
Qed.

Lemma transaction_roundtrip_witness : UnmarshalBinary [3; 192] = Err ErrInvalidTxType /\
  exists b, MarshalBinary (sample_dynamic 7) = Ok b /\ UnmarshalBinary b = Ok (sample_dynamic 7).
Proof.
  split; [reflexivity|]. destruct (transaction_roundtrip (sample_dynamic 7) []) as (H & _ & b & _ & Hb & _); [apply sample_dynamic_ok; lia|].
  exists b. split; [exact Hb|]. apply H; [exact Hb|]. vm_compute in Hb. injection Hb as <-. vm_compute. discriminate.
Defined.

Lemma signature_binds_content_witness :
  (7 = 7 /\ content (sample_legacy 49) = content (sample_legacy 27)) \/
  (exists m m', m <> m' /\ Keccak256 [m] = Keccak256 [m'] /\ signing_message 7 (sample_legacy 49) = Ok m).
Proof.
  destruct (signing_message 7 (sample_legacy 49)) as [m|] eqn:E; [|vm_compute in E; discriminate].
  assert (fits m) as Hf by (vm_compute in E; injection E as <-; vm_compute; discriminate).
  destruct (signature_binds_content 7 7 (sample_legacy 49) (sample_legacy 27) m m) as [H|[H _]]; auto; try lia; try (apply sample_legacy_ok; lia).
Defined.

Lemma sign_then_sender_witness : exists tx', SignTx 7 (NewTx (sample_legacy 0)) tt = Ok tx' /\
  snd (Sender 7 tx') = Ok (BytesToAddress (drop 12 (Keccak256 [[1]]))).
Proof.
  destruct (SigningHash 7 (sample_legacy 0)) as [h|] eqn:E; [|vm_compute in E; discriminate].
  destruct (sign_then_sender (S := one_signing) 7 (NewTx (sample_legacy 0)) tt h 1 1 1) as (tx' & H1 & _ & H2); [lia | exact E | reflexivity | lia|]. exists tx'. auto.
Defined.

Lemma signature_malleable_witness :
  recover_sender 7 (sample_legacy 49) = recover_sender 7 (sample_legacy 27) /\ MarshalBinary (sample_legacy 49) <> MarshalBinary (sample_legacy 27) /\
  unprotected 7 (sample_dynamic 7) = sample_dynamic 0.
Proof.
  destruct (recover_sender 7 (sample_legacy 49)) as [a|] eqn:Ea; [|vm_compute in Ea; discriminate].
  destruct (MarshalBinary (sample_legacy 49)) as [b|] eqn:Eb; [|vm_compute in Eb; discriminate].
  destruct (signature_malleable 7 (sample_legacy 49) a b) as (H1 & _ & b' & H2 & H3); [apply sample_legacy_ok; lia | lia | reflexivity | exact Ea | exact Eb | vm_compute in Eb; injection Eb as <-; vm_compute; discriminate|].
  change (unprotected 7 (sample_legacy 49)) with (sample_legacy 27) in *. rewrite H1, H2. split; [reflexivity|]. split; [congruence | reflexivity].
Defined.


End Tx.
