(* ===== verification/Transition.v ===== *)
(** Applying one message to the state (src/processor/transition.go) and the
    staking operations that arrive as transactions (src/processor/staking.go).

    The state a transition works on is that of the machine: [StateTransition]
    holds the machine, the gas pool of the block and the gas of the message.  A
    message that is not admissible gives an error; a fault of the machine (a Go
    panic, or too little fuel) is an error of the outer [result].  Staking
    operations run the lifecycle of Lifecycle.v on the modelled state. *)

From Stdlib Require Import String.
From stdpp Require Import base list gmap.
From Stdlib Require Import ZArith Lia.
From S2P Require Import Prelude RLP Common UInt256 Attestation Registry Lifecycle StateDB EvmData Interpreter Precompiles Machine Transaction.
Local Open Scope Z_scope.
Local Open Scope go_scope.

Module Trans.
Import Interp.

(** * Messages and errors *)

Inductive error :=
| ErrNonceTooLow
| ErrNonceTooHigh
| ErrInsufficientFunds
| ErrIntrinsicGas
| ErrGasLimitReached
| ErrSenderNotEOA
| ErrFeeCapBelowBaseFee
| ErrTipAboveFeeCap
| ErrInitCodeTooLarge
| ErrGasUintOverflow.

(** Why the execution of an admitted message failed. *)
Inductive op_error :=
| ErrVm (e : Vm.vm_error)
| ErrFunds
| ErrMalformedStaking
| ErrUnknownStakingOp
| ErrManager (e : Reg.error)
| ErrNoUsableKey
| ErrEvidence (e : Att.error).

Record ExecutionResult := mkResult
  { UsedGas : Z; ResultErr : option op_error; ReturnData : bytes }.

Record Message := mkMessage
  { m_from : Address; m_to : option Address; m_nonce : Z; m_value : Z; m_gasLimit : Z; m_gasPrice : Z;
    m_gasFeeCap : option Z; m_gasTipCap : option Z; m_data : bytes; m_accessList : Tx.AccessList; m_skipChecks : bool }.

(** * Gas *)

Definition TxGas : Z := 21000.
Definition TxGasContractCreation : Z := 53000.
Definition TxDataZeroGas : Z := 4.
Definition TxDataNonZeroGas : Z := 16.
Definition TxAccessListAddressGas : Z := 2400.
Definition TxAccessListStorageKeyGas : Z := 1900.
Definition RefundQuotient : Z := 5.

Definition GasDeposit : Z := 60000.
Definition GasExit : Z := 30000.
Definition GasWithdraw : Z := 30000.
Definition GasSlash : Z := 80000.
Definition GasDepositWithKey : Z := 250000.

Definition AddGas (gp amount : Z) : Z := gp +w amount.
Definition SubGas (gp amount : Z) : result error Z := if gp <? amount then Err ErrGasLimitReached else Ok (gp - amount).

(** [gas += count * price], refused where it would overflow. *)
Definition charge (gas count price : Z) : result error Z :=
  if (max_uint64 - gas) / price <? count then Err ErrGasUintOverflow else Ok (gas +w (count *w price)).

Definition nonZeroBytes (data : bytes) : Z := len (List.filter (fun b => negb (b =? 0)) data).

Definition IntrinsicGas (data : bytes) (accessList : Tx.AccessList) (isContractCreation : bool) : result error Z :=
  let gas := if isContractCreation then TxGasContractCreation else TxGas in
  let! gas :=
    (if 0 <? len data then
       let nonZero := nonZeroBytes data in
       let zero := len data - nonZero in
       let! gas := charge gas nonZero TxDataNonZeroGas in
       let! gas := charge gas zero TxDataZeroGas in
       if isContractCreation then charge gas ((len data + 31) / 32) Vm.GasInitCodeWord else Ok gas
     else Ok gas) in
  Ok (if 0 <? len accessList
      then (gas +w (len accessList *w TxAccessListAddressGas)) +w (Tx.StorageKeyCount accessList *w TxAccessListStorageKeyGas)
      else gas).

(** * Evidence *)

Definition attestation_type : Rlp.GoType := Rlp.TStruct
  [Rlp.mkField "Number" true "" (Rlp.TUint 64); Rlp.mkField "BlockHash" true "" (Rlp.TArray 32 (Rlp.TUint 8));
   Rlp.mkField "Index" true "" (Rlp.TUint 64); Rlp.mkField "Signature" true "" (Rlp.TSlice (Rlp.TUint 8))].
Definition equivocation_type : Rlp.GoType := Rlp.TStruct
  [Rlp.mkField "Validator" true "" (Rlp.TArray 20 (Rlp.TUint 8)); Rlp.mkField "Number" true "" (Rlp.TUint 64);
   Rlp.mkField "Index" true "" (Rlp.TUint 64); Rlp.mkField "First" true "" (Rlp.TPtr attestation_type);
   Rlp.mkField "Second" true "" (Rlp.TPtr attestation_type)].

Definition attestation_of (v : Rlp.GoVal) : option Att.Attestation :=
  match v with
  | Rlp.VPtr x =>
      let f n := nth n (Tx.as_list x) Rlp.VNil in
      Some (Att.mkAttestation (Tx.as_uint (f 0%nat)) (Tx.as_bytes (f 1%nat)) (Tx.as_uint (f 2%nat)) (Tx.as_bytes (f 3%nat)))
  | _ => None
  end.
Definition equivocation_of (v : Rlp.GoVal) : Att.Equivocation :=
  let f n := nth n (Tx.as_list v) Rlp.VNil in
  Att.mkEquivocation (Tx.as_bytes (f 0%nat)) (Tx.as_uint (f 1%nat)) (Tx.as_uint (f 2%nat)) (attestation_of (f 3%nat)) (attestation_of (f 4%nat)).

Section Transition.
Context `{K : Keccak} `{TS : TrieStore} `{C : NativeCrypto} `{B : Bls} {BP : BlsPossession B}.
#[local] Instance contracts : Precompiles := Native.native.
#[local] Existing Instance SDB.statedb_access.

Definition MessageFromTx (tx : Tx.Transaction) (signer : Z) (baseFee : option Z) : Tx.Transaction * result Tx.tx_error Message :=
  match Tx.Sender signer tx with
  | (tx, Err e) => (tx, Err e)
  | (tx, Ok from) =>
      let i := Tx.inner tx in
      (tx, Ok (mkMessage from (Tx.to i) (Tx.nonce i) (Tx.value i) (Tx.gasLimit i) (Tx.EffectiveGasPrice i baseFee)
                 (Some (Tx.gasFeeCap i)) (Some (Tx.gasTipCap i)) (Tx.data i) (Tx.accessList i) false))
  end.

(** The environment of the machine, [NoBaseFee] of its configuration, and the
    message. *)
Variable env : Env.
Variable NoBaseFee : bool.
Variable msg : Message.

Record StateTransition := mkST { st_vm : VM; gasPool : Z; gas : Z; initialGas : Z }.

Definition with_db (st : StateTransition) (d : SDB.StateDB) : StateTransition :=
  mkST (set_db (st_vm st) d) (gasPool st) (gas st) (initialGas st).
Definition with_gas_left (st : StateTransition) (g : Z) : StateTransition := mkST (st_vm st) (gasPool st) g (initialGas st).
Definition st_query {A} (st : StateTransition) (f : SDB.World -> SDB.World * A) : StateTransition * A :=
  let (v, a) := vm_query (st_vm st) f in (mkST v (gasPool st) (gas st) (initialGas st), a).

(** * Buying gas *)

Definition effectiveFeeCap : Z := default (m_gasPrice msg) (m_gasFeeCap msg).

Definition buyGas (st : StateTransition) : StateTransition * result error unit :=
  let maxCost := m_gasLimit msg * effectiveFeeCap in
  let total := maxCost + m_value msg in
  let (st, have) := (if negb (m_skipChecks msg) then st_query st (fun w => SDB.get_balance w (m_from msg)) else (st, total)) in
  if have <? total then (st, Err ErrInsufficientFunds)
  else match SubGas (gasPool st) (m_gasLimit msg) with
       | Err e => (st, Err e)
       | Ok gp =>
           let st := mkST (st_vm st) gp (m_gasLimit msg) (m_gasLimit msg) in
           (if negb (m_skipChecks msg) then with_db st (SDB.sub_balance (db (st_vm st)) (m_from msg) maxCost) else st, Ok tt)
       end.

Definition preCheck (st : StateTransition) : StateTransition * result error unit :=
  if m_skipChecks msg then buyGas st
  else
    let (st, stateNonce) := st_query st (fun w => SDB.GetNonce w (m_from msg)) in
    if stateNonce <? m_nonce msg then (st, Err ErrNonceTooHigh)
    else if m_nonce msg <? stateNonce then (st, Err ErrNonceTooLow)
    else
      let (st, codeHash) := st_query st (fun w => SDB.GetCodeHash w (m_from msg)) in
      if negb (HashIsZero codeHash) && negb (bool_decide (codeHash = SDB.EmptyCodeHash)) then (st, Err ErrSenderNotEOA)
      else if match m_gasFeeCap msg, m_gasTipCap msg with Some f, Some t => f <? t | _, _ => false end then (st, Err ErrTipAboveFeeCap)
      else if match BaseFee env, m_gasFeeCap msg with Some b, Some f => negb NoBaseFee && (f <? b) | _, _ => false end
      then (st, Err ErrFeeCapBelowBaseFee)
      else buyGas st.

(** * Settling *)

Definition gasUsed (st : StateTransition) : Z := initialGas st -w gas st.

Definition refundGas (st : StateTransition) : StateTransition :=
  let refund := SDB.refund (SDB.world (db (st_vm st))) in
  let cap := gasUsed st / RefundQuotient in
  let refund := if cap <? refund then cap else refund in
  let st := with_gas_left st (gas st +w refund) in
  let st := if negb (m_skipChecks msg) then with_db st (SDB.add_balance (db (st_vm st)) (m_from msg) (gas st * effectiveFeeCap)) else st in
  mkST (st_vm st) (AddGas (gasPool st) (gas st)) (gas st) (initialGas st).

(** What the proposer gets per unit of gas. *)
Definition tip : Z :=
  match BaseFee env with
  | Some b => if NoBaseFee then m_gasPrice msg else Z.max 0 (m_gasPrice msg - b)
  | None => m_gasPrice msg
  end.

Definition payProposer (st : StateTransition) : StateTransition :=
  if m_skipChecks msg then st
  else
    let st := with_db st (SDB.add_balance (db (st_vm st)) (Coinbase env) (gasUsed st * tip)) in
    let overpaid := effectiveFeeCap - m_gasPrice msg in
    if 0 <? overpaid then with_db st (SDB.add_balance (db (st_vm st)) (m_from msg) (gasUsed st * overpaid)) else st.

Definition finish (st : StateTransition) (err : option op_error) (out : bytes) : StateTransition * result error ExecutionResult :=
  let st := payProposer (refundGas st) in (st, Ok (mkResult (gasUsed st) err out)).

(** * Staking operations *)

Definition OpDeposit : Z := 1.
Definition OpExit : Z := 2.
Definition OpWithdraw : Z := 3.
Definition OpSlash : Z := 4.
Definition depositWithKeyLength : Z := 1 + 20 + Reg.BLSPublicKeyLength + 96.

Definition IsStakingCall : bool := match m_to msg with Some a => bool_decide (a = Reg.StakingAddress) | None => false end.

(** The outcome of an operation of the manager, with the gas it costs. *)
Definition priced {A} (r : SDB.StateDB * result Reg.error A) (cost : Z) : SDB.StateDB * result op_error Z :=
  match r with
  | (d, Ok _) => (d, Ok cost)
  | (d, Err e) => (d, Err (ErrManager e))
  end.

Definition slash_call (d : SDB.StateDB) (evidence : Att.Equivocation) (epoch : Z) : SDB.StateDB * result op_error Z :=
  match Reg.Get d (Att.e_index evidence) with
  | Err e => (d, Err (ErrManager e))
  | Ok accused =>
      match PublicKeyFromBytes (Reg.v_bls accused) with
      | None => (d, Err ErrNoUsableKey)
      | Some key =>
          match Att.VerifyEquivocation (ChainID env) evidence (Some key) with
          | Err e => (d, Err (ErrEvidence e))
          | Ok _ => priced (Life.Slash d (Reg.v_address accused) epoch) GasSlash
          end
      end
  end.

Definition applyStakingCall (d : SDB.StateDB) (epoch : Z) : SDB.StateDB * result op_error Z :=
  match m_data msg with
  | [] => (d, Err ErrMalformedStaking)
  | op :: rest =>
      let data := m_data msg in
      if op =? OpDeposit then
        if m_value msg <=? 0 then (d, Err ErrMalformedStaking)
        else if depositWithKeyLength <=? len data then
          priced (Life.DepositWithKey d (m_from msg) (BytesToAddress (take 20 (drop 1 data))) (take 48 (drop 21 data))
                    (take 96 (drop 69 data)) (m_value msg) epoch) GasDepositWithKey
        else if 21 <=? len data then
          priced (Life.Deposit d (m_from msg) (BytesToAddress (take 20 (drop 1 data))) (m_value msg) epoch) GasDeposit
        else (d, Err ErrMalformedStaking)
      else if op =? OpExit then priced (Life.RequestExit d (m_from msg) epoch) GasExit
      else if op =? OpWithdraw then priced (Life.Withdraw d (m_from msg) epoch) GasWithdraw
      else if op =? OpSlash then
        if len data <? 2 then (d, Err ErrMalformedStaking)
        else match Rlp.Decode rest equivocation_type with
             | Err _ => (d, Err ErrMalformedStaking)
             | Ok v => slash_call d (equivocation_of v) epoch
             end
      else (d, Err ErrUnknownStakingOp)
  end.

Definition useGas (st : StateTransition) (amount : Z) : option StateTransition :=
  if gas st <? amount then None else Some (with_gas_left st (gas st - amount)).

Definition stakingEpochOf (blockNumber : Z) : Z := Reg.EpochOf (wrap64 blockNumber).

(** The operation itself, once the value has moved. *)
Definition staking_op (st : StateTransition) (epoch : Z) : StateTransition * Z * option op_error :=
  let (st, short) :=
    (if 0 <? m_value msg then
       let (st, have) := st_query st (fun w => SDB.get_balance w (m_from msg)) in
       if have <? m_value msg then (st, true)
       else (with_db st (SDB.add_balance (SDB.sub_balance (db (st_vm st)) (m_from msg) (m_value msg)) Reg.StakingAddress (m_value msg)), false)
     else (st, false)) in
  if (short : bool) then (st, GasExit, Some ErrFunds)
  else
    match applyStakingCall (db (st_vm st)) epoch with
    | (d, Ok used) => (with_db st d, if GasExit <? used then used else GasExit, None)
    | (d, Err e) => (with_db st d, GasExit, Some e)
    end.

Definition increment_nonce (st : StateTransition) : StateTransition :=
  let (st, n) := st_query st (fun w => SDB.GetNonce w (m_from msg)) in
  with_db st (SDB.SetNonce (db (st_vm st)) (m_from msg) (n +w 1)).

Definition revert_to (st : StateTransition) (snapshot : Z) : result fault StateTransition :=
  match SDB.RevertToSnapshot (db (st_vm st)) snapshot with
  | None => Err GoPanic
  | Some d => Ok (with_db st d)
  end.

Definition runStakingCall (st : StateTransition) : result fault (StateTransition * result error ExecutionResult) :=
  let epoch := stakingEpochOf (BlockNumber env) in
  let st := increment_nonce st in
  let (d, snapshot) := SDB.Snapshot (db (st_vm st)) in
  let '(st, cost, opErr) := staking_op (with_db st d) epoch in
  match useGas st cost with
  | None =>
      let! st := revert_to st snapshot in
      Ok (finish (with_gas_left st 0) (Some (ErrVm Vm.ErrOutOfGas)) [])
  | Some st =>
      let! st := (match opErr with Some _ => revert_to st snapshot | None => Ok st end) in
      Ok (finish st opErr [])
  end.

(** * Running *)

Definition vm_outcome (err : option Vm.vm_error) : option op_error := option_map ErrVm err.

(** The call or the creation the message stands for.  Frames get one step more
    than they have gas. *)
Definition run_evm (st : StateTransition) : result fault (StateTransition * result error ExecutionResult) :=
  let interp := Run env (S (Z.to_nat (gas st))) Machine.levels in
  match m_to msg with
  | None =>
      let! (v, out, _, g, err) := Create interp (st_vm st) (Vm.AccountRef (m_from msg)) (m_data msg) (gas st) (m_value msg) in
      Ok (finish (mkST v (gasPool st) g (initialGas st)) (vm_outcome err) out)
  | Some dest =>
      let st := increment_nonce st in
      let! (v, out, g, err) := Call interp (st_vm st) (Vm.AccountRef (m_from msg)) dest (m_data msg) (gas st) (m_value msg) in
      Ok (finish (mkST v (gasPool st) g (initialGas st)) (vm_outcome err) out)
  end.

Definition run (st : StateTransition) : result fault (StateTransition * result error ExecutionResult) :=
  let isCreate := match m_to msg with None => true | Some _ => false end in
  match preCheck st with
  | (st, Err e) => Ok (st, Err e)
  | (st, Ok _) =>
      match IntrinsicGas (m_data msg) (m_accessList msg) isCreate with
      | Err e => Ok (st, Err e)
      | Ok intrinsic =>
          if gas st <? intrinsic then Ok (st, Err ErrIntrinsicGas)
          else
            let st := with_gas_left st (gas st - intrinsic) in
            if isCreate && (Vm.MaxInitCodeSize <? len (m_data msg)) then Ok (st, Err ErrInitCodeTooLarge)
            else
              let st := with_db st (SDB.Prepare (db (st_vm st)) (m_from msg) (Coinbase env) (m_to msg) Native.PrecompileAddresses (m_accessList msg)) in
              if IsStakingCall then runStakingCall st else run_evm st
      end
  end.

Definition ApplyMessage (v : VM) (gp : Z) : result fault (StateTransition * result error ExecutionResult) :=
  run (mkST v gp 0 0).

End Transition.
End Trans.
