(* ===== verification/TransitionFacts.v ===== *)
(** Facts on applying a message: the theorems of src/processor/transition.go.

    The first part adds to the state what a transition needs of it (preparing
    the access list, writes of the staking contract, going back to a snapshot);
    the second follows a message from the purchase of gas to the payment of the
    proposer. *)

From stdpp Require Import base list gmap relations.
From Stdlib Require Import ZArith Lia.
From S2P Require Import Prelude RLP Common UInt256 Attestation Registry Lifecycle StateDB EvmData Interpreter EvmState EvmSafety EvmExec EvmCalls EvmRun EvmEffects Precompiles Machine Transaction Transition.
Local Open Scope Z_scope.
Local Open Scope go_scope.

(** * Operations of the staking contract are writes *)

Module Writes.
Import Reg Life.

Section Writes.
Context `{K : Keccak} `{SA : StateAccess} {B : Bls} {BP : BlsPossession B}.

Inductive step (s : State) : State -> Prop :=
| by_set a k v : step s (SetState s a k v)
| by_add a x : step s (AddBalance s a x)
| by_sub a x : step s (SubBalance s a x).

Definition writes : State -> State -> Prop := rtc step.

(** Writes to storage only. *)
Inductive store_step (s : State) : State -> Prop :=
| by_store a k v : store_step s (SetState s a k v).

Definition stores : State -> State -> Prop := rtc store_step.

Lemma stores_writes s s' : stores s s' -> writes s s'.
Proof. apply rtc_subrel. intros x y []. apply by_set. Qed.

Lemma stores_write s k v : stores s (write s k v).
Proof. apply rtc_once, by_store. Qed.

Lemma writes_write s k v : writes s (write s k v).
Proof. apply stores_writes, stores_write. Qed.

Lemma writes_then s s1 s2 : writes s s1 -> step s1 s2 -> writes s s2.
Proof. apply rtc_r. Qed.

Lemma Put_stores s v : stores s (Put s v).
Proof. unfold Put. do 5 (eapply rtc_r; [|apply by_store]). apply stores_write. Qed.

Lemma Put_writes s v : writes s (Put s v).
Proof. apply stores_writes, Put_stores. Qed.

Lemma Append_stores s v : stores s (fst (Append s v)).
Proof. unfold Append. cbn [fst]. do 2 (eapply rtc_r; [|apply by_store]). apply Put_stores. Qed.

Lemma Deposit_stores s a w x e : stores s (fst (Deposit s a w x e)).
Proof.
  unfold Deposit. destruct (ByAddress s a) as [v|].
  - destruct (v_status v); cbn [fst]; first [apply Put_stores | reflexivity].
  - destruct (x <? MinDeposit); [reflexivity|]. set (v := mkValidator _ _ _ _ _ _ _ _ _ _ _).
    pose proof (Append_stores s v) as H. destruct (Append s v) as [s' v']. exact H.
Qed.

Lemma DepositWithKey_stores s a w k p x e : stores s (fst (DepositWithKey s a w k p x e)).
Proof.
  unfold DepositWithKey. destruct (negb _); [reflexivity|]. destruct (PublicKeyFromBytes k); [|reflexivity].
  destruct (SignatureFromBytes p); [|reflexivity]. destruct (negb _); [reflexivity|]. pose proof (Deposit_stores s a w x e) as H.
  destruct (Deposit s a w x e) as [s' [v|]]; [|exact H]. destruct (_ =? 0); [|exact H]. cbn [fst] in *. etransitivity; [exact H | apply Put_stores].
Qed.

Lemma RequestExit_stores s a e : stores s (fst (RequestExit s a e)).
Proof.
  unfold RequestExit, scheduleExit. destruct (ByAddress s a) as [v|]; [|reflexivity].
  destruct (v_status v); cbn [fst]; try first [reflexivity | apply Put_stores]. etransitivity; [apply stores_write | apply Put_stores].
Qed.

(** A slash burns the penalty, a withdrawal pays the balance out. *)
Lemma Slash_shape s a e : stores s (fst (Slash s a e)) \/
  exists v s1, ByAddress s a = Ok v /\ stores s s1 /\ fst (Slash s a e) = SubBalance s1 StakingAddress (slash_penalty v).
Proof.
  unfold Slash. destruct (ByAddress s a) as [v|]; [|left; reflexivity]. destruct (v_status v); cbn [fst]; try (left; reflexivity).
  all: right; exists v; eexists; split; [reflexivity|]; split; [|reflexivity]; etransitivity; [apply Put_stores | apply stores_write].
Qed.

Lemma Withdraw_shape s a e : stores s (fst (Withdraw s a e)) \/
  exists v s1, ByAddress s a = Ok v /\ stores s s1 /\
    fst (Withdraw s a e) = AddBalance (SubBalance s1 StakingAddress (v_balance v)) (v_withdrawal v) (v_balance v).
Proof.
  unfold Withdraw. destruct (ByAddress s a) as [v|]; [|left; reflexivity]. destruct (v_status v); try (left; reflexivity).
  all: destruct (e <? v_withdrawable v); [left; reflexivity|]; right; exists v; eexists; split; [reflexivity|]; split; [apply Put_stores | reflexivity].
Qed.

Lemma Slash_writes s a e : writes s (fst (Slash s a e)).
Proof.
  destruct (Slash_shape s a e) as [H|(v & s1 & _ & H & ->)]; [apply stores_writes, H|]. eapply writes_then; [apply stores_writes, H | apply by_sub].
Qed.

Lemma Withdraw_writes s a e : writes s (fst (Withdraw s a e)).
Proof.
  destruct (Withdraw_shape s a e) as [H|(v & s1 & _ & H & ->)]; [apply stores_writes, H|].
  eapply writes_then; [eapply writes_then; [apply stores_writes, H | apply by_sub] | apply by_add].
Qed.

End Writes.
End Writes.

Module Facts.
Import SDB Interp Ev Safe Exec Calls Total Effects Trans.
#[local] Existing Instances ext_preorder same_cells_preorder no_mint_preorder.

Section State.
Context `{K : Keccak} `{TS : TrieStore}.

(** ** The access list of a transaction *)

Definition reset (s : StateDB) : StateDB := with_world s (set_access (world s) ∅ ∅).

Lemma undo_reset e w : undo e (set_access w ∅ ∅) = set_access (undo e w) ∅ ∅.
Proof.
  destruct e as [a [o|]| | | | |a k p| | |h|a|a k]; cbn [undo]; try reflexivity.
  all: try (unfold on_object; cbn [objects set_access]; destruct (objects w !! _); reflexivity).
  - cbn [transient set_access]. destruct (transient w !! a); reflexivity.
  - cbn [accessedAddresses accessedSlots set_access]. replace (∅ ∖ {[a]} : gset Address) with (∅ : gset Address) by (clear; set_solver). rewrite delete_empty. reflexivity.
  - cbn [accessedSlots set_access]. rewrite lookup_empty. destruct (accessedSlots w !! a); reflexivity.
Qed.

Lemma wf_reset w : wf w -> wf (set_access w ∅ ∅).
Proof. intros [_ Hl]. split; [|exact Hl]. intros a k H. unfold slot_in in H. cbn in H. rewrite lookup_empty in H. discriminate. Qed.

Lemma chain_reset es : forall w, chain w es -> chain (set_access w ∅ ∅) es.
Proof.
  induction es as [|e es IH]; intros w; cbn [chain]; [auto|]. intros (Ha & Hw & Hc). rewrite undo_reset.
  split; [destruct e; exact Ha|]. split; [apply wf_reset, Hw | apply IH, Hc].
Qed.

Lemma reset_inv s : inv s -> inv (reset s).
Proof. intros [Hw Hc Ho Hb]. constructor; auto; [apply wf_reset, Hw | apply chain_reset, Hc]. Qed.

Lemma fold_evolves {A} ro (f : StateDB -> A -> StateDB) l : (forall s x, evolves ro s (f s x)) -> forall s, evolves ro s (fold_left f l s).
Proof. intros H. induction l as [|x l IH]; intros s; cbn [fold_left]; [constructor | etransitivity; [apply H | apply IH]]. Qed.

Lemma Prepare_evolves s sender coinbase dest pre l : evolves true (reset s) (Prepare s sender coinbase dest pre l).
Proof.
  assert (forall s a, evolves true s (AddAddressToAccessList s a)) as Ha by (intros; apply evolves_once, ef_warm). unfold Prepare. fold (reset s).
  etransitivity; [|apply Ha]. etransitivity; [|apply fold_evolves; intros s1 [a ks]; cbn [fst snd]].
  - etransitivity; [|apply fold_evolves, Ha]. destruct dest; [etransitivity; [apply Ha | apply Ha] | apply Ha].
  - etransitivity; [apply Ha|]. apply fold_evolves. intros s2 k. apply evolves_once, ef_warm_slot.
Qed.

Lemma Prepare_inv s sender coinbase dest pre l : inv s -> inv (Prepare s sender coinbase dest pre l).
Proof. intros H. eapply evolves_inv; [apply Prepare_evolves | apply reset_inv, H]. Qed.

(** ** The refund counter *)

Lemma getOrNew_refund s a : refund (world (fst (getOrNewStateObject s a))) = refund (world s).
Proof.
  unfold getOrNewStateObject. destruct (getStateObject_spec (world s) a) as (w & -> & He & _).
  destruct (live (world s) a); cbn; apply (ex_refund _ _ He).
Qed.

Lemma setBalance_refund s a o x : refund (world (setBalance s a o x)) = refund (world s).
Proof. reflexivity. Qed.

Lemma add_balance_refund s a x : refund (world (add_balance s a x)) = refund (world s).
Proof.
  unfold add_balance, Exist. destruct (x =? 0).
  - destruct (getStateObject_spec (world s) a) as (w & -> & He & _). destruct (live (world s) a); [|apply (ex_refund _ _ He)].
    cbv beta iota zeta. rewrite getOrNew_refund. apply (ex_refund _ _ He).
  - pose proof (getOrNew_refund s a) as H. destruct (getOrNewStateObject s a). exact H.
Qed.

Lemma sub_balance_refund s a x : refund (world (sub_balance s a x)) = refund (world s).
Proof. unfold sub_balance. destruct (x =? 0); [reflexivity|]. pose proof (getOrNew_refund s a) as H. destruct (getOrNewStateObject s a). exact H. Qed.

Lemma set_state_refund s a k v : refund (world (set_state s a k v)) = refund (world s).
Proof.
  unfold set_state. pose proof (getOrNew_refund s a) as H. destruct (getOrNewStateObject s a) as [s1 o]. cbn [fst] in H.
  destruct (get_state_spec (world s1) a k) as (w & -> & He & _). rewrite <- H, <- (ex_refund _ _ He). case_bool_decide; reflexivity.
Qed.

Lemma SetNonce_refund s a n : refund (world (SetNonce s a n)) = refund (world s).
Proof. unfold SetNonce. pose proof (getOrNew_refund s a) as H. destruct (getOrNewStateObject s a). exact H. Qed.

Lemma SetCode_refund s a c : refund (world (SetCode s a c)) = refund (world s).
Proof.
  unfold SetCode. pose proof (getOrNew_refund s a) as H. pose proof (getOrNew_object s a) as Ho. destruct (getOrNewStateObject s a) as [s1 o]. cbn [fst snd] in *.
  destruct (codeOf_spec _ _ _ Ho) as (w & pc & o' & -> & He & _). rewrite <- H, <- (ex_refund _ _ He). reflexivity.
Qed.

Lemma CreateAccount_refund s a : refund (world (CreateAccount s a)) = refund (world s).
Proof.
  unfold CreateAccount. destruct (getStateObject_spec (world s) a) as (w & -> & He & _). rewrite <- (ex_refund _ _ He).
  destruct (live (world s) a); reflexivity.
Qed.

Lemma SelfDestruct_refund s a : refund (world (SelfDestruct s a)) = refund (world s).
Proof.
  unfold SelfDestruct. destruct (getStateObject_spec (world s) a) as (w & -> & He & _). rewrite <- (ex_refund _ _ He).
  destruct (live (world s) a); reflexivity.
Qed.

Lemma evolves_refund ro s s' : evolves ro s s' -> inv s -> 0 <= refund (world s) -> 0 <= refund (world s').
Proof.
  assert (PreOrder (fun w w' : World => 0 <= refund w -> 0 <= refund w')) as Hp by (split; [intros w | intros w1 w2 w3]; auto).
  intros H Hi. revert s s' H Hi. apply (evolves_related ro _ (PreOrder0 := Hp)).
  - intros w w' He. rewrite (ex_refund _ _ He). auto.
  - intros s s1 He H0. destruct He as [w He|a|a k|a Hl|a|g|g|a k v|a k v|lg|a n|a c|a b x Hro Hx|a b];
      rewrite ?CreateAccount_refund, ?set_state_refund, ?SetNonce_refund, ?SetCode_refund, ?SelfDestruct_refund, ?add_balance_refund, ?sub_balance_refund; auto.
    + cbn [world with_world]. rewrite (ex_refund _ _ He). exact H0.
    + rewrite (un_refund _ _ (unchanged_warm s a)). exact H0.
    + rewrite (un_refund _ _ (unchanged_warm_slot s a k)). exact H0.
    + cbn. unfold wrap64. apply Z.mod_pos_bound. reflexivity.
    + unfold SubRefund. cbn [world record]. destruct (Z.ltb_spec (refund (world s)) g); cbn; lia.
    + unfold SetTransientState. case_bool_decide; exact H0.
Qed.

(** ** Writes on a modelled state *)

#[local] Existing Instance statedb_access.

Lemma writes_moves s s' : Writes.writes (SA := statedb_access) s s' -> wf (world s) -> rtc move s s'.
Proof.
  induction 1 as [|s s1 s2 Hs _ IH]; intros Hw; [constructor|].
  assert (rtc move s s1) as H1 by (destruct Hs; [apply set_state_moves | apply add_balance_moves | apply sub_balance_moves]; exact Hw).
  etransitivity; [exact H1 | apply IH; eapply moves_wf; eassumption].
Qed.

Lemma writes_refund s s' : Writes.writes (SA := statedb_access) s s' -> refund (world s') = refund (world s).
Proof. induction 1 as [|s s1 s2 Hs _ IH]; [reflexivity|]. rewrite IH. destruct Hs; [apply set_state_refund | apply add_balance_refund | apply sub_balance_refund]. Qed.

(** Whatever was written since a snapshot can be taken back. *)
Lemma moves_revert s s1 : inv s -> rtc move (fst (Snapshot s)) s1 ->
  exists s2, RevertToSnapshot s1 (snd (Snapshot s)) = Some s2 /\ inv s2 /\ ext (world s) (world s2).
Proof.
  intros Hi Hm. pose proof (snapshot_inv s Hi) as Hi'. pose proof (moves_inv _ _ Hm Hi') as Hi1.
  pose proof (moves_kept _ _ _ _ Hm Hi' (snapshot_starts s Hi)) as Hk. destruct (moves_revisions _ _ Hm) as [Hr _].
  assert (revisions s1 !! length (revisions s) = Some (nextRevID s, length (entries s))) as Hl.
  { rewrite Hr. cbn [Snapshot fst revisions]. rewrite lookup_app_r, Nat.sub_diag by lia. reflexivity. }
  assert (exists s2, RevertToSnapshot s1 (nextRevID s) = Some s2) as [s2 E].
  { unfold RevertToSnapshot. rewrite (search_found _ _ _ _ (inv_order _ Hi1) Hl), Hl, Z.eqb_refl. eauto. }
  exists s2. split; [exact E|]. split; [eapply revert_inv; eassumption|].
  destruct (revert_fields _ _ _ E) as (i & n & Hl2 & Ew & _). rewrite Ew. apply (kept_at _ _ _ Hk i n Hl2).
Qed.

(** ** Slots and balances *)

Lemma SetNonce_cells s a n : same_cells (world s) (world (SetNonce s a n)).
Proof.
  split; [|intros b; apply SetNonce_balance]. intros b k. unfold SetNonce. pose proof (getOrNew_cells s a) as [Hc _]. pose proof (getOrNew_live s a) as Hl.
  destruct (getOrNewStateObject s a) as [s1 o]. cbn [fst snd] in *. rewrite <- Hc. unfold slot_value.
  erewrite (live_put (world s1) _ a _ b) by (try reflexivity; apply (live_not_deleted _ _ _ Hl)).
  destruct (decide (a = b)) as [<-|]; [|reflexivity]. rewrite Hl. reflexivity.
Qed.

Lemma readonly_cells s s' : evolves true s s' -> inv s -> same_cells (world s) (world s').
Proof.
  apply evolves_related; [exact _ | apply ext_same_cells|]. intros s0 s1 [w He|a|a k|a Hl|a|g|g|a k v|a k v|l|a n|a c|a b x|a b]; try discriminate.
  - apply ext_same_cells, He.
  - unfold AddAddressToAccessList. destruct (AddressInAccessList _ _); split; reflexivity.
  - unfold AddSlotToAccessList, AddAddressToAccessList. destruct (AddressInAccessList _ _), (slot_in _ _ _); split; reflexivity.
  - destruct (CreateAccount_cells s0 a) as [H1 H2]. split; [|exact H2]. intros b k. rewrite H1. destruct (decide (a = b)) as [<-|]; [|reflexivity].
    unfold slot_value. rewrite Hl. reflexivity.
Qed.

Lemma Prepare_cells s sender coinbase dest pre l : inv s -> same_cells (world s) (world (Prepare s sender coinbase dest pre l)).
Proof. intros H. apply (readonly_cells _ _ (Prepare_evolves s sender coinbase dest pre l) (reset_inv s H)). Qed.

Lemma Prepare_refund s sender coinbase dest pre l : inv s -> 0 <= refund (world s) -> 0 <= refund (world (Prepare s sender coinbase dest pre l)).
Proof. intros H. apply (evolves_refund _ _ _ (Prepare_evolves s sender coinbase dest pre l) (reset_inv s H)). Qed.

End State.

(** * A message, from the purchase of gas to the proposer *)

Section Message.
Context `{K : Keccak} `{TS : TrieStore} `{C : NativeCrypto} `{B : Bls} {BP : BlsPossession B}.
#[local] Existing Instance contracts.
#[local] Existing Instance statedb_access.
Variable env : Env.
Variable NoBaseFee : bool.
Variable msg : Message.

(** What the transition reads off a state. *)
Abbreviation world_of st := (world (db (st_vm st))).

(** Between two steps of a transition. *)
Definition ready (st : StateTransition) : Prop := Machine.idle (st_vm st) /\ 0 <= refund (world_of st).

Lemma ready_db st d : ready st -> inv d -> 0 <= refund (world d) -> ready (with_db st d).
Proof. intros [([Hi Hr] & Hd & Hro) _] Hi' H0. split; [split; [split; assumption | split; assumption] | exact H0]. Qed.

Lemma st_query_ok {A} st (f : World -> World * A) : ready st -> (forall w a, f (world_of st) = (w, a) -> ext (world_of st) w) ->
  exists st' a, st_query st f = (st', a) /\ ready st' /\ ext (world_of st) (world_of st') /\
    gasPool st' = gasPool st /\ gas st' = gas st /\ initialGas st' = initialGas st /\ snd (f (world_of st)) = a.
Proof.
  intros Hr Hf. unfold st_query. destruct (vm_query_ok (st_vm st) f Hf) as (w & a & -> & Ef & He). eexists _, _. split; [reflexivity|].
  split; [|split; [exact He | split; [reflexivity | split; [reflexivity | split; [reflexivity | rewrite Ef; reflexivity]]]]].
  apply (ready_db st (with_world (db (st_vm st)) w) Hr).
  - eapply evolves_inv; [apply (evolves_once false), ef_load, He | apply Hr].
  - cbn [world with_world]. rewrite (ex_refund _ _ He). apply Hr.
Qed.

Lemma ready_add st a x : ready st -> ready (with_db st (add_balance (db (st_vm st)) a x)).
Proof.
  intros H. apply ready_db; [exact H | | rewrite add_balance_refund; apply H]. eapply moves_inv; [apply add_balance_moves|]; apply H.
Qed.

Lemma ready_sub st a x : ready st -> ready (with_db st (sub_balance (db (st_vm st)) a x)).
Proof.
  intros H. apply ready_db; [exact H | | rewrite sub_balance_refund; apply H]. eapply moves_inv; [apply sub_balance_moves|]; apply H.
Qed.

(** ** Buying gas *)

(** The balance of [a] moves by [x]. *)
Definition paid (w w' : World) (a : Address) (x : Z) : Prop :=
  (forall b k, slot_value w' b k = slot_value w b k) /\ (forall b, balance_at w' b = balance_at w b + if decide (a = b) then x else 0).

Definition prepaid : Z := if m_skipChecks msg then 0 else m_gasLimit msg * effectiveFeeCap msg.

(** A purchase leaves the pool and the sender's account lighter by the limit. *)
Definition bought (st st' : StateTransition) : Prop :=
  ready st' /\ gasPool st' = gasPool st - m_gasLimit msg /\ m_gasLimit msg <= gasPool st /\ gas st' = m_gasLimit msg /\ initialGas st' = m_gasLimit msg /\
  paid (world_of st) (world_of st') (m_from msg) (- prepaid) /\
  (m_skipChecks msg = false -> prepaid + m_value msg <= balance_at (world_of st) (m_from msg)).

(** A refusal changes nothing. *)
Definition refused (st st' : StateTransition) : Prop :=
  ready st' /\ gasPool st' = gasPool st /\ ext (world_of st) (world_of st').

Lemma paid_ext w w' w'' a x : ext w w' -> paid w' w'' a x -> paid w w'' a x.
Proof. intros [Hs Hb]%ext_same_cells [H1 H2]. split; intros b; [intros k; rewrite H1; apply Hs | rewrite H2, Hb; reflexivity]. Qed.

Lemma paid_sub s a x : paid (world s) (world (sub_balance s a x)) a (- x).
Proof. destruct (sub_balance_cells s a x) as [H1 H2]. split; [exact H1|]. intros b. rewrite H2. destruct (decide _); lia. Qed.

Lemma paid_nothing w a : paid w w a 0.
Proof. split; [reflexivity|]. intros b. destruct (decide _); lia. Qed.

Lemma bought_ext st st1 st2 : ext (world_of st) (world_of st1) -> gasPool st1 = gasPool st -> bought st1 st2 -> bought st st2.
Proof.
  intros He Hp (H1 & H2 & H3 & H4 & H5 & H6 & H7). rewrite Hp in *. split; [exact H1|]. split; [exact H2|]. split; [exact H3|]. split; [exact H4|]. split; [exact H5|].
  split; [eapply paid_ext; eassumption|]. intros Hs. rewrite <- (proj2 (ext_same_cells _ _ He)). apply H7, Hs.
Qed.

Lemma buyGas_ok st : ready st -> exists st' r, buyGas msg st = (st', r) /\ match r with Ok _ => bought st st' | Err _ => refused st st' end.
Proof.
  intros Hr. unfold buyGas, SubGas, bought, prepaid. destruct (m_skipChecks msg); cbn [negb].
  - rewrite Z.ltb_irrefl. destruct (Z.ltb_spec (gasPool st) (m_gasLimit msg)); eexists _, _; (split; [reflexivity|]).
    + split; [exact Hr|]. split; reflexivity.
    + split; [exact Hr|]. repeat (split; [reflexivity || assumption|]). split; [apply paid_nothing | discriminate].
  - destruct (st_query_ok st (fun w => get_balance w (m_from msg)) Hr) as (st1 & have & -> & Hr1 & He & Hp & _ & _ & Hv); [intros w a; apply get_balance_ext|].
    cbv beta iota. rewrite get_balance_value in Hv. subst have. set (cost := m_gasLimit msg * effectiveFeeCap msg).
    destruct (Z.ltb_spec (balance_at (world_of st) (m_from msg)) (cost + m_value msg)); [eexists _, _; split; [reflexivity|]; split; auto|].
    rewrite Hp. destruct (Z.ltb_spec (gasPool st) (m_gasLimit msg)); [eexists _, _; split; [reflexivity|]; split; auto|].
    eexists _, _. split; [reflexivity|]. split; [apply (ready_sub (mkST (st_vm st1) _ _ _)), Hr1|]. repeat (split; [reflexivity || assumption|]).
    split; [eapply paid_ext; [exact He | apply paid_sub] | intros _; assumption].
Qed.

Lemma refused_ext st st1 st2 : ext (world_of st) (world_of st1) -> gasPool st1 = gasPool st -> refused st1 st2 -> refused st st2.
Proof. intros He Hp (H1 & H2 & H3). split; [exact H1|]. split; [congruence | etransitivity; eassumption]. Qed.

Lemma preCheck_ok st : ready st -> exists st' r, preCheck env NoBaseFee msg st = (st', r) /\
  match r with
  | Ok _ => bought st st' /\ (m_skipChecks msg = false -> NoBaseFee = false -> forall b, BaseFee env = Some b -> b <= default b (m_gasFeeCap msg))
  | Err _ => refused st st'
  end.
Proof.
  intros Hr. unfold preCheck. destruct (m_skipChecks msg) eqn:Es.
  { destruct (buyGas_ok st Hr) as (st' & r & -> & H). exists st', r. split; [reflexivity|]. destruct r; [split; [exact H | discriminate] | exact H]. }
  destruct (st_query_ok st (fun w => GetNonce w (m_from msg)) Hr) as (st1 & n & -> & Hr1 & He1 & Hp1 & _); [intros w a; apply GetNonce_ext|]. cbv beta iota.
  destruct (n <? _); [eexists _, _; split; [reflexivity|]; split; auto|]. destruct (_ <? n); [eexists _, _; split; [reflexivity|]; split; auto|].
  destruct (st_query_ok st1 (fun w => GetCodeHash w (m_from msg)) Hr1) as (st2 & h & -> & Hr2 & He2 & Hp2 & _); [intros w a; apply GetCodeHash_ext|].
  cbv beta iota. assert (refused st st2) as Href by (split; [exact Hr2|]; split; [congruence | etransitivity; eassumption]).
  destruct (_ && _); [eauto|]. destruct (match m_gasFeeCap msg, m_gasTipCap msg with Some _, Some _ => _ | _, _ => _ end); [eauto|].
  destruct (match BaseFee env, m_gasFeeCap msg with Some _, Some _ => _ | _, _ => _ end) eqn:Eb; [eauto|].
  destruct (buyGas_ok st2 Hr2) as (st' & r & -> & H). exists st', r. split; [reflexivity|]. destruct Href as (_ & Hp & He).
  destruct r; [|eapply refused_ext; eassumption]. split; [eapply bought_ext; eassumption|]. intros _ Hn b E. rewrite E, Hn in Eb. cbn [negb andb] in Eb.
  destruct (m_gasFeeCap msg); cbn [default from_option id]; [apply Z.ltb_ge, Eb | lia].
Qed.

(** ** Settling *)

(** The gas counters of a message that has run. *)
Definition counters (st : StateTransition) : Prop :=
  0 <= gas st <= initialGas st /\ 0 <= gasPool st /\ gasPool st + initialGas st < two64.

Definition settled (st : StateTransition) (used : Z) (st' : StateTransition) : Prop :=
  ready st' /\ gasPool st' = gasPool st + initialGas st - used /\
  4 * (initialGas st - gas st) <= 5 * used /\ 0 <= used <= initialGas st - gas st /\
  (m_skipChecks msg = true -> st_vm st' = st_vm st) /\
  (m_skipChecks msg = false -> (forall b k, slot_value (world_of st') b k = slot_value (world_of st) b k) /\
     forall b, balance_at (world_of st') b = balance_at (world_of st) b +
       (if decide (m_from msg = b) then (initialGas st - used) * effectiveFeeCap msg + used * Z.max 0 (effectiveFeeCap msg - m_gasPrice msg) else 0) +
       (if decide (Coinbase env = b) then used * tip env NoBaseFee msg else 0)).

(** The refund: at most a fifth of the gas used. *)
Lemma refund_amount st : ready st -> counters st -> exists r, 0 <= 5 * r <= initialGas st - gas st /\
  refundGas msg st = mkST (if negb (m_skipChecks msg) then set_db (st_vm st) (add_balance (db (st_vm st)) (m_from msg) ((gas st + r) * effectiveFeeCap msg)) else st_vm st)
    (gasPool st + (gas st + r)) (gas st + r) (initialGas st).
Proof.
  intros [_ Hf] (Hg & Hp & Hl). unfold refundGas, gasUsed, RefundQuotient, AddGas. cbn [gas with_gas_left].
  assert (initialGas st -w gas st = initialGas st - gas st) as -> by (apply wrap64_small; unfold u64_ok; lia).
  set (cap := (initialGas st - gas st) / 5). set (r := if cap <? _ then cap else _). assert (0 <= 5 * cap <= initialGas st - gas st) as Hc.
  { pose proof (Z.div_mod (initialGas st - gas st) 5). pose proof (Z.mod_pos_bound (initialGas st - gas st) 5). fold cap in H.
    assert (0 <= cap) by (apply Z.div_pos; lia). lia. }
  assert (0 <= r <= cap) as Hr by (subst r; destruct (Z.ltb_spec cap (refund (world_of st))); lia).
  exists r. split; [lia|]. assert (gas st +w r = gas st + r) as -> by (apply wrap64_small; unfold u64_ok; lia).
  assert (gasPool st +w (gas st + r) = gasPool st + (gas st + r)) as E by (apply wrap64_small; unfold u64_ok; lia).
  destruct (m_skipChecks msg); cbn [negb with_db gas gasPool initialGas st_vm with_gas_left]; rewrite E; reflexivity.
Qed.

Lemma finish_ok st err out : ready st -> counters st -> exists st' used,
  finish env NoBaseFee msg st err out = (st', Ok (mkResult used err out)) /\ settled st used st'.
Proof.
  intros Hr Hc. destruct (refund_amount st Hr Hc) as (r & Hb & E). unfold finish. rewrite E. destruct Hc as (Hg & Hp & Hl).
  set (used := initialGas st - (gas st + r)).
  assert (forall v p, gasUsed (mkST v p (gas st + r) (initialGas st)) = used) as Hu by (intros; apply wrap64_small; unfold u64_ok; lia).
  unfold payProposer. destruct (m_skipChecks msg) eqn:Es; cbn [negb].
  - eexists _, used. split; [rewrite Hu; reflexivity|]. unfold settled. rewrite Es. subst used.
    split; [exact Hr|]. cbn [gasPool]. split; [lia|]. split; [lia|]. split; [lia|]. split; [reflexivity | discriminate].
  - rewrite Hu. set (st1 := mkST _ _ _ _). set (st2 := with_db st1 _). set (over := effectiveFeeCap msg - m_gasPrice msg).
    assert (ready st1) as H1 by (apply (ready_add (mkST (st_vm st) _ _ _)), Hr). assert (ready st2) as H2 by apply (ready_add _ _ _ H1).
    destruct (add_balance_cells (db (st_vm st)) (m_from msg) ((gas st + r) * effectiveFeeCap msg)) as [S1 B1].
    destruct (add_balance_cells (db (st_vm st1)) (Coinbase env) (used * tip env NoBaseFee msg)) as [S2 B2].
    assert (gasUsed st2 = used) as Hu2 by apply Hu. unfold settled. rewrite Es. fold over. replace (initialGas st - used) with (gas st + r) by lia.
    destruct (Z.ltb_spec 0 over) as [Ho|Ho].
    + destruct (add_balance_cells (db (st_vm st2)) (m_from msg) (gasUsed st2 * over)) as [S3 B3]. rewrite Hu2 in *.
      eexists _, used. split; [f_equal; f_equal; f_equal; apply Hu|]. split; [apply (ready_add _ _ _ H2)|]. cbn [gasPool with_db st2 st1].
      split; [lia|]. split; [lia|]. split; [lia|]. split; [discriminate|]. intros _. split; [intros b k; rewrite S3; etransitivity; [apply S2 | apply S1]|].
      intros b. cbn [with_db st_vm set_db db st2]. rewrite B3. change (world (db (st_vm st2))) with (world (add_balance (db (st_vm st1)) (Coinbase env) (used * tip env NoBaseFee msg))).
      rewrite B2. change (db (st_vm st1)) with (add_balance (db (st_vm st)) (m_from msg) ((gas st + r) * effectiveFeeCap msg)). rewrite B1.
      rewrite Z.max_r by lia. destruct (decide (m_from msg = b)), (decide (Coinbase env = b)); lia.
    + eexists _, used. split; [f_equal; f_equal; f_equal; apply Hu|]. split; [exact H2|]. cbn [gasPool with_db st2 st1].
      split; [lia|]. split; [lia|]. split; [lia|]. split; [discriminate|]. intros _. split; [intros b k; etransitivity; [apply S2 | apply S1]|].
      intros b. cbn [with_db st_vm set_db db st2]. rewrite B2. change (db (st_vm st1)) with (add_balance (db (st_vm st)) (m_from msg) ((gas st + r) * effectiveFeeCap msg)). rewrite B1.
      rewrite Z.max_l by lia. destruct (decide (m_from msg = b)), (decide (Coinbase env = b)); lia.
Qed.

(** ** Running *)

(** A message as it comes from a transaction. *)
Definition msg_ok : Prop := u64_ok (m_gasLimit msg) /\ 0 <= m_value msg /\ bytes_ok (m_data msg) /\ len (m_data msg) <= max_int64.

(** The staking contract pays [x] to one account and burns [y], at most the
    balance of one validator; all other balances are kept. *)
Definition pays_out (d d' : StateDB) : Prop := exists dst x y, 0 <= x /\ 0 <= y /\
  (x + y = 0 \/ exists a v, Reg.ByAddress d a = Ok v /\ x + y <= Reg.v_balance v) /\
  forall a, balance_at (world d') a = balance_at (world d) a - (if decide (Reg.StakingAddress = a) then x + y else 0) + (if decide (dst = a) then x else 0).

(** A staking call: the sender's value goes to the contract, which then pays. *)
Definition staked (d d' : StateDB) : Prop := exists u d1, 0 <= u /\ (u <= 0 \/ u <= balance_at (world d) (m_from msg)) /\
  (forall k, slot_value (world d1) Reg.StakingAddress k = slot_value (world d) Reg.StakingAddress k) /\
  (forall a, balance_at (world d1) a = balance_at (world d) a - (if decide (m_from msg = a) then u else 0) + (if decide (Reg.StakingAddress = a) then u else 0)) /\
  pays_out d1 d'.

(** What execution does to the machine of [st]: gas left [g], outcome [err]. *)
Definition executed (st : StateTransition) (v : VM) (g : Z) (err : option op_error) : Prop :=
  ready (mkST v (gasPool st) g (initialGas st)) /\ 0 <= g <= gas st /\
  (if IsStakingCall msg then cells_ok (world_of st) -> staked (db (st_vm st)) (db v) else no_mint (world_of st) (world (db v))) /\
  (err <> None -> m_to msg <> None -> same_cells (world_of st) (world (db v))).

Lemma increment_nonce_ok st : ready st -> exists d, increment_nonce msg st = with_db st d /\ ready (with_db st d) /\ evolves false (db (st_vm st)) d /\
  same_cells (world_of st) (world d).
Proof.
  intros Hr. unfold increment_nonce, st_query.
  destruct (vm_query_ok (st_vm st) (fun w => GetNonce w (m_from msg))) as (w & n & -> & _ & He); [intros w a; apply GetNonce_ext|]. cbv beta iota.
  set (s1 := with_world (db (st_vm st)) w). exists (SetNonce s1 (m_from msg) (n +w 1)). split; [reflexivity|].
  assert (evolves false (db (st_vm st)) (SetNonce s1 (m_from msg) (n +w 1))) as Hev by (eapply ev_step; [apply ef_load, He | apply evolves_once, ef_nonce, eq_refl]).
  split; [|split; [exact Hev | etransitivity; [apply ext_same_cells, He | apply (SetNonce_cells s1)]]].
  apply ready_db; [exact Hr | eapply evolves_inv; [exact Hev | apply Hr] | eapply evolves_refund; [exact Hev | apply Hr | apply Hr]].
Qed.

Lemma keep_ready st v' p g i : ready st -> vm_ok v' -> vm_keep (readOnly (st_vm st)) (st_vm st) v' -> ready (mkST v' p g i).
Proof.
  intros [([Hi _] & Hd & Hro) H0] Hv (Hev & F1 & F2 & _). split; [split; [exact Hv | split; cbn [st_vm]; congruence]|]. eapply evolves_refund; eassumption.
Qed.

Lemma run_evm_ok st : ready st -> msg_ok -> u64_ok (gas st) -> IsStakingCall msg = false -> exists v g err out,
  run_evm env NoBaseFee msg st = Ok (finish env NoBaseFee msg (mkST v (gasPool st) g (initialGas st)) err out) /\ executed st v g err.
Proof.
  intros Hr (Hl & Hx & Hb & Hlen) Hg Hs. unfold run_evm. set (n := S (Z.to_nat (gas st))).
  assert (gas st < Z.of_nat n) as Hn by (unfold u64_ok in Hg; subst n; lia). unfold executed. rewrite Hs. destruct (m_to msg) as [dest|] eqn:Et.
  - destruct (increment_nonce_ok st Hr) as (d & -> & Hr1 & Hev & Hc). destruct Hr1 as [(Hv & Hd & Hro) H0].
    destruct (Call_ok _ _ _ (Machine.run_levels env n) (st_vm (with_db st d)) (Vm.AccountRef (m_from msg)) dest (m_data msg) (gas st) (m_value msg))
      as (v' & out & g & err & E & Hv' & _ & Hg' & Hk & He); auto; [rewrite Hd; lia | congruence|].
    cbn [gas with_db]. rewrite E. cbn [rbind]. exists v', g, (vm_outcome err), out. split; [reflexivity|].
    split; [eapply keep_ready; [|exact Hv' | exact Hk]; split; [split; [exact Hv | auto] | exact H0]|]. split; [exact Hg'|]. split.
    + etransitivity; [apply no_mint_same, Hc|]. eapply evolves_no_mint; [apply Hk | apply Hv].
    + intros Hne _. etransitivity; [exact Hc | apply ext_same_cells, He]. destruct err; [discriminate | contradiction].
  - destruct Hr as [(Hv & Hd & Hro) H0].
    destruct (Create_ok _ _ _ (Machine.run_levels env n) (st_vm st) (Vm.AccountRef (m_from msg)) (m_data msg) (gas st) (m_value msg))
      as (v' & out & new & g & err & E & Hv' & _ & _ & Hg' & Hk); auto; [rewrite Hd; lia|].
    rewrite E. cbn [rbind]. exists v', g, (vm_outcome err), out. split; [reflexivity|].
    split; [eapply keep_ready; [|exact Hv' | exact Hk]; split; [split; [exact Hv | auto] | exact H0]|]. split; [exact Hg'|].
    split; [|contradiction]. eapply evolves_no_mint; [apply Hk | apply Hv].
Qed.

(** ** Staking operations *)

Lemma priced_writes {A} d (r : StateDB * result Reg.error A) cost : Writes.writes d (fst r) -> 0 <= cost ->
  Writes.writes d (fst (priced r cost)) /\ forall used, snd (priced r cost) = Ok used -> 0 <= used.
Proof. destruct r as [d' [x|e]]; cbn [priced fst snd]; intros Hw Hc; (split; [exact Hw|]); intros used [= <-]; exact Hc. Qed.

Lemma applyStakingCall_writes d epoch : Writes.writes d (fst (applyStakingCall env msg d epoch)) /\
  forall used, snd (applyStakingCall env msg d epoch) = Ok used -> 0 <= used.
Proof.
  assert (forall e : op_error, Writes.writes d (fst (d, Err (A := Z) e)) /\ forall used, snd (d, Err e) = Ok used -> 0 <= used) as Hf
    by (intros e; split; [reflexivity | discriminate]).
  unfold applyStakingCall, slash_call. destruct (m_data msg) as [|op rest]; [apply Hf|].
  destruct (op =? OpDeposit).
  { destruct (m_value msg <=? 0); [apply Hf|]. destruct (depositWithKeyLength <=? _); [apply priced_writes; [apply Writes.stores_writes, (Writes.DepositWithKey_stores (SA := statedb_access)) | discriminate]|].
    destruct (21 <=? _); [apply priced_writes; [apply Writes.stores_writes, (Writes.Deposit_stores (SA := statedb_access)) | discriminate] | apply Hf]. }
  destruct (op =? OpExit); [apply priced_writes; [apply Writes.stores_writes, (Writes.RequestExit_stores (SA := statedb_access)) | discriminate]|].
  destruct (op =? OpWithdraw); [apply priced_writes; [apply (Writes.Withdraw_writes (SA := statedb_access)) | discriminate]|].
  destruct (op =? OpSlash); [|apply Hf]. destruct (_ <? 2); [apply Hf|]. destruct (Rlp.Decode rest equivocation_type) as [v|]; [|apply Hf].
  destruct (Reg.Get d _) as [accused|]; [|apply Hf]. destruct (PublicKeyFromBytes _) as [key|]; [|apply Hf].
  destruct (Att.VerifyEquivocation _ _ _); [|apply Hf]. apply priced_writes; [apply (Writes.Slash_writes (SA := statedb_access)) | discriminate].
Qed.

Lemma priced_fst {A} (r : StateDB * result Reg.error A) cost : fst (priced r cost) = fst r.
Proof. destruct r as [d [x|e]]; reflexivity. Qed.

Lemma stores_balances d d' : Writes.stores (SA := statedb_access) d d' -> forall a, balance_at (world d') a = balance_at (world d) a.
Proof. induction 1 as [|d1 d2 d3 Hs _ IH]; intros a; [reflexivity|]. rewrite IH. destruct Hs as [b k v]. apply (proj2 (set_state_cells d1 b k v)). Qed.

Lemma loaded_balance d a v : cells_ok (world d) -> Reg.ByAddress d a = Ok v -> 0 <= Reg.v_balance v /\ 0 <= Life.slash_penalty v <= Reg.v_balance v.
Proof.
  intros Hc. unfold Reg.ByAddress, Reg.Get. destruct (Reg.IndexOf (SA := statedb_access) d a) as [i|]; [|discriminate]. destruct (_ <=? i); [discriminate|]. intros [= <-].
  assert (0 <= Reg.v_balance (Reg.load (SA := statedb_access) d i)) as Hb.
  { unfold Reg.load, Reg.read, HashBig. cbn [Reg.v_balance GetState statedb_access]. rewrite get_state_value. apply be_val_bounds, Hc. }
  split; [exact Hb|]. assert (Reg.v_effective (Reg.load (SA := statedb_access) d i) = Reg.computeEffectiveBalance (Reg.v_balance (Reg.load (SA := statedb_access) d i))) as He by reflexivity.
  pose proof (Reg.effective_bounds _ Hb) as Hr. unfold Life.slash_penalty. rewrite He.
  assert (0 <= Reg.computeEffectiveBalance (Reg.v_balance (Reg.load (SA := statedb_access) d i)) / Reg.SlashPenaltyQuotient) by (apply Z.div_pos; [lia | reflexivity]).
  destruct (Z.ltb_spec (Reg.v_balance (Reg.load (SA := statedb_access) d i)) (Reg.computeEffectiveBalance (Reg.v_balance (Reg.load (SA := statedb_access) d i)) / Reg.SlashPenaltyQuotient)); lia.
Qed.

Lemma pays_none d d' : (forall a, balance_at (world d') a = balance_at (world d) a) -> pays_out d d'.
Proof. intros H. exists ZeroAddress, 0, 0. split; [lia|]. split; [lia|]. split; [left; lia|]. intros a. rewrite H. destruct (decide _), (decide _); lia. Qed.

Lemma stores_pays d d' : Writes.stores (SA := statedb_access) d d' -> pays_out d d'.
Proof. intros H. apply pays_none, stores_balances, H. Qed.

Lemma Slash_pays d a e : cells_ok (world d) -> pays_out d (fst (Life.Slash (SA := statedb_access) d a e)).
Proof.
  intros Hc. destruct (Writes.Slash_shape (SA := statedb_access) d a e) as [H|(v & d1 & Hv & H & ->)]; [apply stores_pays, H|].
  destruct (loaded_balance d a v Hc Hv) as [Hb Hp]. exists ZeroAddress, 0, (Life.slash_penalty v). split; [lia|]. split; [lia|].
  split; [right; exists a, v; split; [exact Hv | lia]|]. intros b. cbn [SubBalance statedb_access].
  rewrite (proj2 (sub_balance_cells d1 _ _)), (stores_balances _ _ H). destruct (decide _), (decide _); lia.
Qed.

Lemma Withdraw_pays d a e : cells_ok (world d) -> pays_out d (fst (Life.Withdraw (SA := statedb_access) d a e)).
Proof.
  intros Hc. destruct (Writes.Withdraw_shape (SA := statedb_access) d a e) as [H|(v & d1 & Hv & H & ->)]; [apply stores_pays, H|].
  destruct (loaded_balance d a v Hc Hv) as [Hb _]. exists (Reg.v_withdrawal v), (Reg.v_balance v), 0. split; [lia|]. split; [lia|].
  split; [right; exists a, v; split; [exact Hv | lia]|]. intros b. cbn [AddBalance SubBalance statedb_access].
  rewrite (proj2 (add_balance_cells (sub_balance d1 _ _) _ _)), (proj2 (sub_balance_cells d1 _ _)), (stores_balances _ _ H). destruct (decide _), (decide _); lia.
Qed.

Lemma applyStakingCall_pays d epoch : cells_ok (world d) -> pays_out d (fst (applyStakingCall env msg d epoch)).
Proof.
  intros Hc. assert (pays_out d d) as Hd by (apply pays_none; reflexivity).
  unfold applyStakingCall, slash_call. destruct (m_data msg) as [|op rest]; [exact Hd|].
  destruct (op =? OpDeposit).
  { destruct (m_value msg <=? 0); [exact Hd|]. destruct (depositWithKeyLength <=? _); [rewrite priced_fst; apply stores_pays, (Writes.DepositWithKey_stores (SA := statedb_access))|].
    destruct (21 <=? _); [rewrite priced_fst; apply stores_pays, (Writes.Deposit_stores (SA := statedb_access)) | exact Hd]. }
  destruct (op =? OpExit); [rewrite priced_fst; apply stores_pays, (Writes.RequestExit_stores (SA := statedb_access))|].
  destruct (op =? OpWithdraw); [rewrite priced_fst; apply Withdraw_pays, Hc|].
  destruct (op =? OpSlash); [|exact Hd]. destruct (_ <? 2); [exact Hd|]. destruct (Rlp.Decode rest equivocation_type) as [v|]; [|exact Hd].
  destruct (Reg.Get _ _) as [accused|]; [|exact Hd]. destruct (PublicKeyFromBytes _) as [key|]; [|exact Hd].
  destruct (Att.VerifyEquivocation _ _ _); [|exact Hd]. rewrite priced_fst. apply Slash_pays, Hc.
Qed.

Lemma staked_same d d' : same_cells (world d) (world d') -> staked d d'.
Proof.
  intros [Hs Hb]. exists 0, d. split; [lia|]. split; [left; lia|]. split; [reflexivity|]. split; [|apply pays_none, Hb].
  intros a. destruct (decide _), (decide _); lia.
Qed.

Lemma staking_op_pays st epoch : cells_ok (world_of st) -> staked (db (st_vm st)) (db (st_vm (fst (fst (staking_op env msg st epoch))))).
Proof.
  intros Hc. unfold staking_op.
  assert (forall st d, fst (fst (match applyStakingCall env msg d epoch with
      | (d, Ok used) => (with_db st d, if GasExit <? used then used else GasExit, None)
      | (d, Err e) => (with_db st d, GasExit, Some e) end)) = with_db st (fst (applyStakingCall env msg d epoch))) as Hfst
    by (intros st0 d; destruct (applyStakingCall env msg d epoch) as [d' [used|e]]; reflexivity).
  destruct (Z.ltb_spec 0 (m_value msg)) as [Hv|Hv].
  - unfold st_query. destruct (vm_query_ok (st_vm st) (fun w => get_balance w (m_from msg))) as (w & have & -> & Eq & He); [intros w a; apply get_balance_ext|].
    cbv beta iota. destruct (ext_same_cells _ _ He) as [Sw Bw]. destruct (Z.ltb_spec have (m_value msg)) as [|Hhave]; [apply staked_same; split; assumption|].
    set (d0 := with_world (db (st_vm st)) w). set (d1 := add_balance (sub_balance d0 (m_from msg) (m_value msg)) Reg.StakingAddress (m_value msg)).
    pose proof (sub_balance_cells d0 (m_from msg) (m_value msg)) as [S1 B1]. pose proof (add_balance_cells (sub_balance d0 (m_from msg) (m_value msg)) Reg.StakingAddress (m_value msg)) as [S2 B2].
    assert (have = balance_at (world_of st) (m_from msg)) as -> by (rewrite <- get_balance_value, Eq; reflexivity).
    rewrite Hfst. exists (m_value msg), d1. split; [lia|]. split; [right; exact Hhave|].
    split; [intros k; etransitivity; [apply S2 | etransitivity; [apply S1 | apply Sw]]|].
    split; [intros a; unfold d1; rewrite B2, B1; cbn [world with_world d0]; rewrite Bw; reflexivity|].
    apply applyStakingCall_pays. intros a k. unfold d1. rewrite S2, S1. cbn [world with_world d0]. rewrite Sw. apply Hc.
  - rewrite Hfst. exists 0, (db (st_vm st)). split; [lia|]. split; [left; lia|]. split; [reflexivity|].
    split; [intros a; destruct (decide _), (decide _); lia | apply applyStakingCall_pays, Hc].
Qed.

Lemma staked_from d d0 d' : same_cells (world d) (world d0) -> staked d0 d' -> staked d d'.
Proof.
  intros [Hs Hb] (u & d1 & Hu & Hle & S1 & B1 & Hp). rewrite Hb in Hle. exists u, d1. split; [exact Hu|]. split; [exact Hle|].
  split; [intros k; rewrite S1; apply Hs|]. split; [intros a; rewrite B1, Hb; reflexivity | exact Hp].
Qed.

Lemma staking_op_ok st epoch : ready st -> exists d cost err, staking_op env msg st epoch = (with_db st d, cost, err) /\
  rtc move (db (st_vm st)) d /\ refund (world d) = refund (world_of st) /\ 0 <= cost.
Proof.
  intros Hr. pose proof (inv_wf _ (proj1 (proj1 (proj1 Hr)))) as Hw.
  assert (forall d e, rtc move (db (st_vm st)) d -> refund (world d) = refund (world_of st) ->
    exists d' cost err, match applyStakingCall env msg d e with
      | (d, Ok used) => (with_db st d, if GasExit <? used then used else GasExit, None)
      | (d, Err e) => (with_db st d, GasExit, Some e) end = (with_db st d', cost, err) /\
    rtc move (db (st_vm st)) d' /\ refund (world d') = refund (world_of st) /\ 0 <= cost) as Hcall.
  { intros d e Hm Hf. destruct (applyStakingCall_writes d e) as [Hws Hcost]. destruct (applyStakingCall env msg d e) as [d' r]. cbn [fst snd] in *.
    assert (rtc move (db (st_vm st)) d') as Hm' by (etransitivity; [exact Hm | apply writes_moves; [exact Hws | eapply moves_wf; eassumption]]).
    assert (refund (world d') = refund (world_of st)) as Hf' by (rewrite (writes_refund _ _ Hws); exact Hf).
    destruct r as [used|e']; eexists _, _, _; (split; [reflexivity|]); (split; [exact Hm'|]); (split; [exact Hf'|]); [|discriminate].
    specialize (Hcost used eq_refl). destruct (GasExit <? used); [exact Hcost | discriminate]. }
  unfold staking_op. destruct (0 <? m_value msg); [|apply (Hcall (db (st_vm st))); [constructor | reflexivity]].
  unfold st_query. destruct (vm_query_ok (st_vm st) (fun w => get_balance w (m_from msg))) as (w & have & -> & _ & He); [intros w a; apply get_balance_ext|].
  cbv beta iota. set (s1 := with_world (db (st_vm st)) w). assert (rtc move (db (st_vm st)) s1) as Hm1 by (apply rtc_once, move_load, He).
  assert (refund (world s1) = refund (world_of st)) as Hf1 by apply (ex_refund _ _ He). pose proof (moves_wf _ _ Hm1 Hw) as Hw1.
  destruct (have <? m_value msg); [eexists s1, GasExit, _; split; [reflexivity|]; split; [exact Hm1|]; split; [exact Hf1 | discriminate]|].
  pose proof (sub_balance_moves s1 (m_from msg) (m_value msg) Hw1) as Hm2. pose proof (moves_wf _ _ Hm2 Hw1) as Hw2.
  apply (Hcall (add_balance (sub_balance s1 (m_from msg) (m_value msg)) Reg.StakingAddress (m_value msg))).
  - etransitivity; [exact Hm1|]. etransitivity; [exact Hm2 | apply add_balance_moves, Hw2].
  - rewrite add_balance_refund, sub_balance_refund. exact Hf1.
Qed.

Lemma runStakingCall_ok st : ready st -> 0 <= gas st -> IsStakingCall msg = true -> exists v g err out,
  runStakingCall env NoBaseFee msg st = Ok (finish env NoBaseFee msg (mkST v (gasPool st) g (initialGas st)) err out) /\ executed st v g err.
Proof.
  intros Hr Hg Hs. unfold runStakingCall, executed. rewrite Hs. destruct (increment_nonce_ok st Hr) as (d0 & -> & Hr0 & _ & Hc0).
  cbn [db st_vm with_db set_db]. destruct (Snapshot d0) as [d1 snapshot] eqn:Esn.
  assert (inv d0) as Hi0 by apply Hr0. assert (d1 = fst (Snapshot d0)) as Ed1 by (rewrite Esn; reflexivity).
  assert (ready (with_db (with_db st d0) d1)) as Hr1 by (apply ready_db; [exact Hr0 | subst d1; apply snapshot_inv, Hi0 | subst d1; apply Hr0]).
  destruct (staking_op_ok _ (stakingEpochOf (BlockNumber env)) Hr1) as (d2 & cost & err & Eop & Hm & Hf & Hcost).
  pose proof (staking_op_pays (with_db (with_db st d0) d1) (stakingEpochOf (BlockNumber env))) as Hpay. rewrite Eop in Hpay |- *. cbv beta iota. cbn [db st_vm with_db set_db fst] in Hm, Hf, Hpay.
  assert (inv d2) as Hi2 by (eapply moves_inv; [exact Hm | apply Hr1]).
  rewrite Ed1 in Hm. destruct (moves_revert d0 d2 Hi0 Hm) as (d3 & E3 & Hi3 & He3). rewrite Esn in E3. cbn [snd] in E3.
  assert (refund (world d1) = refund (world d0)) as Hf1 by (subst d1; reflexivity).
  assert (forall g, 0 <= g <= gas st -> forall e, ready (mkST (set_db (st_vm st) d3) (gasPool st) g (initialGas st)) /\ 0 <= g <= gas st /\
    (cells_ok (world_of st) -> staked (db (st_vm st)) d3) /\ (Some (A := op_error) e <> None -> m_to msg <> None -> same_cells (world_of st) (world d3))) as Hback.
  { intros g Hg' e. split; [apply (ready_db (mkST (st_vm st) _ _ _)); [exact Hr | exact Hi3 | rewrite (ex_refund _ _ He3); apply Hr0]|].
    split; [exact Hg'|]. split; [intros _; apply staked_same|intros _ _]; (etransitivity; [exact Hc0 | apply ext_same_cells, He3]). }
  unfold useGas, revert_to. cbn [gas with_db db st_vm set_db with_gas_left]. destruct (Z.ltb_spec (gas st) cost).
  - rewrite E3. cbn [rbind]. eexists _, 0, _, _. split; [reflexivity|]. apply Hback. lia.
  - cbn [st_vm with_gas_left with_db db set_db]. destruct err as [e|]; [rewrite E3; cbn [rbind]; eexists _, (gas st - cost), _, _; split; [reflexivity|]; apply Hback; lia|].
    cbn [rbind]. eexists _, (gas st - cost), _, _. split; [reflexivity|]. split.
    + apply (ready_db (mkST (st_vm st) _ _ _)); [exact Hr | exact Hi2 | rewrite Hf, Hf1; apply Hr0].
    + split; [lia|]. split; [|contradiction]. intros Hcells. apply (staked_from _ d1); [subst d1; exact Hc0|]. apply Hpay. subst d1. intros a k. rewrite (proj1 Hc0). apply Hcells.
Qed.

(** ** The whole message *)

Lemma wrap64_nonneg x : 0 <= wrap64 x.
Proof. apply (proj1 (wrap64_ok x)). Qed.

Lemma charge_nonneg g n c g' : 0 <= g -> charge g n c = Ok g' -> 0 <= g'.
Proof. unfold charge. intros H. destruct (_ <? n); [discriminate|]. intros [= <-]. apply wrap64_nonneg. Qed.

Lemma IntrinsicGas_nonneg data l create g : IntrinsicGas data l create = Ok g -> 0 <= g.
Proof.
  unfold IntrinsicGas. set (start := if create then TxGasContractCreation else TxGas). assert (0 <= start) as H0 by (subst start; destruct create; discriminate).
  destruct (if 0 <? len data then _ else Ok start) as [g1|] eqn:E1; cbn [rbind]; [|discriminate]. intros [= <-]. destruct (0 <? len l); [apply wrap64_nonneg|].
  destruct (0 <? len data); [|injection E1 as <-; exact H0]. destruct (charge start _ _) as [g2|] eqn:E2; cbn [rbind] in E1; [|discriminate].
  destruct (charge g2 _ _) as [g3|] eqn:E3; cbn [rbind] in E1; [|discriminate]. pose proof (charge_nonneg _ _ _ _ H0 E2) as H2.
  pose proof (charge_nonneg _ _ _ _ H2 E3) as H3. destruct create; [apply (charge_nonneg _ _ _ _ H3 E1) | injection E1 as <-; exact H3].
Qed.

Definition isCreate : bool := match m_to msg with None => true | Some _ => false end.

(** A message that was admitted: gas bought, the machine prepared and run, the
    rest settled. *)
Inductive admitted (v : VM) (gp : Z) (res : ExecutionResult) (st : StateTransition) : Prop :=
| admits (st1 st2 : StateTransition) (v3 : VM) (g intrinsic : Z) :
    bought (mkST v gp 0 0) st1 ->
    (m_skipChecks msg = false -> NoBaseFee = false -> forall b, BaseFee env = Some b -> b <= default b (m_gasFeeCap msg)) ->
    IntrinsicGas (m_data msg) (m_accessList msg) isCreate = Ok intrinsic -> 0 <= intrinsic <= m_gasLimit msg ->
    ready st2 -> same_cells (world_of st1) (world_of st2) -> gas st2 = m_gasLimit msg - intrinsic ->
    executed st2 v3 g (ResultErr res) -> settled (mkST v3 (gp - m_gasLimit msg) g (m_gasLimit msg)) (UsedGas res) st ->
    admitted v gp res st.

Lemma ApplyMessage_ok v gp : ready (mkST v gp 0 0) -> u64_ok gp -> msg_ok -> exists st r, ApplyMessage env NoBaseFee msg v gp = Ok (st, r) /\
  match r with
  | Ok res => admitted v gp res st
  | Err _ => ready st /\ (gasPool st = gp \/ gasPool st = gp - m_gasLimit msg)
  end.
Proof.
  intros Hr Hgp Hm. unfold ApplyMessage, run. fold isCreate. destruct (preCheck_ok _ Hr) as (st1 & r1 & -> & H1). destruct r1 as [u|e]; cbv beta iota.
  2:{ exists st1, (Err e). split; [reflexivity|]. destruct H1 as (H & Hp & _). auto. }
  destruct H1 as [Hb Hcap]. pose proof Hb as (Hr1 & Hp1 & Hle & Hg1 & Hi1 & _). cbn [gasPool] in Hp1, Hle.
  assert (ready st1 /\ (gasPool st1 = gp \/ gasPool st1 = gp - m_gasLimit msg)) as Hrej by auto.
  destruct (IntrinsicGas _ _ isCreate) as [intrinsic|e] eqn:Ein; [|eauto]. pose proof (IntrinsicGas_nonneg _ _ _ _ Ein) as Hin. rewrite Hg1.
  destruct (Z.ltb_spec (m_gasLimit msg) intrinsic) as [|Hlim]; [eauto|]. destruct (isCreate && _); [eauto|]. set (st2 := with_db _ _).
  assert (inv (db (st_vm st1))) as Hi by apply Hr1.
  assert (ready st2) as Hr2 by (apply ready_db; [exact Hr1 | apply Prepare_inv, Hi | apply Prepare_refund; [exact Hi | apply Hr1]]).
  assert (same_cells (world_of st1) (world_of st2)) as Hc by apply (Prepare_cells _ _ _ _ _ _ Hi). destruct Hm as [Hlg Hm'].
  assert (u64_ok (gas st2)) as Hg2 by (cbn; unfold u64_ok in *; lia).
  assert (exists v3 g err out, (if IsStakingCall msg then runStakingCall env NoBaseFee msg st2 else run_evm env NoBaseFee msg st2) =
    Ok (finish env NoBaseFee msg (mkST v3 (gasPool st2) g (initialGas st2)) err out) /\ executed st2 v3 g err) as (v3 & g & err & out & -> & Hex).
  { destruct (IsStakingCall msg) eqn:Es; [apply runStakingCall_ok; [exact Hr2 | apply Hg2 | exact Es] | apply run_evm_ok; [exact Hr2 | split; assumption | exact Hg2 | exact Es]]. }
  change (gasPool st2) with (gasPool st1) in *. change (initialGas st2) with (initialGas st1) in *. rewrite Hp1, Hi1.
  destruct Hex as (Hr3 & Hg & Hex).
  destruct (finish_ok (mkST v3 (gp - m_gasLimit msg) g (m_gasLimit msg)) err out) as (st & used & -> & Hs);
    [exact Hr3 | split; cbn in *; [lia | unfold u64_ok in *; lia]|].
  eexists _, _. split; [reflexivity|]. eapply (admits _ _ _ _ st1 st2 v3 g intrinsic); auto. split; [exact Hr3 | auto].
Qed.

(** C9: every message is accounted for.  On any idle machine, whatever the
    message, its code or the staking operation it carries, [ApplyMessage]
    returns: nothing panics, the snapshot of a failed staking operation is found,
    and the machine is idle again.  An admitted message uses at most its gas
    limit and, after refunds, at least four fifths of its intrinsic cost, and the
    block's gas pool falls by exactly what it used; a refused one takes nothing
    or its whole limit from the pool. *)
Theorem message_accounted v gp : ready (mkST v gp 0 0) -> u64_ok gp -> msg_ok ->
  exists st r, ApplyMessage env NoBaseFee msg v gp = Ok (st, r) /\ ready st /\
  match r with
  | Ok res => 0 <= UsedGas res <= m_gasLimit msg /\ gasPool st = gp - UsedGas res /\
      exists intrinsic, IntrinsicGas (m_data msg) (m_accessList msg) isCreate = Ok intrinsic /\ 4 * intrinsic <= 5 * UsedGas res
  | Err _ => gasPool st = gp \/ gasPool st = gp - m_gasLimit msg
  end.
Proof.
  intros Hr Hgp Hm. destruct (ApplyMessage_ok v gp Hr Hgp Hm) as (st & r & E & H). exists st, r. split; [exact E|]. destruct r as [res|e]; [|exact H].
  destruct H as [st1 st2 v3 g i Hb _ Hi Hle Hr2 _ Hg2 (_ & Hg & _) (Hr' & Hp & H4 & Hu & _)]. cbn [gasPool initialGas gas] in *.
  split; [exact Hr'|]. split; [lia|]. split; [lia|]. exists i. split; [exact Hi | lia].
Qed.

(** A message that fails costs its fee and nothing else.  When the call of a
    message runs out of gas or reverts, or the staking operation is refused, every
    storage slot is as before, the sender's balance fell by the gas used at the
    price of the message, the proposer's grew by its tip, and no other balance
    changed: the value, the transfers and the writes of the staking contract are
    all taken back. *)
Theorem failed_message_pays_fee v gp : ready (mkST v gp 0 0) -> u64_ok gp -> msg_ok -> m_skipChecks msg = false -> m_to msg <> None ->
  m_gasPrice msg <= effectiveFeeCap msg ->
  exists st r, ApplyMessage env NoBaseFee msg v gp = Ok (st, r) /\
  forall res, r = Ok res -> ResultErr res <> None ->
    (forall a k, slot_value (world_of st) a k = slot_value (world (db v)) a k) /\
    (forall a, balance_at (world_of st) a = balance_at (world (db v)) a
       - (if decide (m_from msg = a) then UsedGas res * m_gasPrice msg else 0)
       + (if decide (Coinbase env = a) then UsedGas res * tip env NoBaseFee msg else 0)).
Proof.
  intros Hr Hgp Hm Hs Hto Hprice. destruct (ApplyMessage_ok v gp Hr Hgp Hm) as (st & r & E & H). exists st, r. split; [exact E|]. intros res -> Hne.
  destruct H as [st1 st2 v3 g i (_ & _ & _ & _ & _ & [S1 B1] & _) _ _ _ _ [S2 B2] _ (_ & _ & _ & Hf) (_ & _ & _ & _ & _ & Hset)].
  destruct (Hf Hne Hto) as [S3 B3]. destruct (Hset Hs) as [S4 B4]. cbn [st_vm initialGas] in *. split.
  - intros a k. rewrite S4, S3, S2. apply S1.
  - intros a. rewrite B4, B3, B2, B1, Z.max_r by lia. unfold prepaid. rewrite Hs. destruct (decide (m_from msg = a)), (decide (Coinbase env = a)); lia.
Qed.

(** A refused transaction can keep its gas.  A message that passes the
    checks but whose gas limit is below its intrinsic cost is refused only after
    the gas was bought: its whole limit has left the block's pool and its price
    has left the sender's account, although a refused transaction is documented
    to have no effect. *)
Theorem refusal_keeps_gas v gp intrinsic : ready (mkST v gp 0 0) -> snd (preCheck env NoBaseFee msg (mkST v gp 0 0)) = Ok tt ->
  IntrinsicGas (m_data msg) (m_accessList msg) isCreate = Ok intrinsic -> m_gasLimit msg < intrinsic ->
  exists st, ApplyMessage env NoBaseFee msg v gp = Ok (st, Err ErrIntrinsicGas) /\ gasPool st = gp - m_gasLimit msg /\
    paid (world (db v)) (world_of st) (m_from msg) (- prepaid).
Proof.
  intros Hr Hpre Hi Hlt. unfold ApplyMessage, run. destruct (preCheck_ok _ Hr) as (st1 & r1 & Ep & H1). rewrite Ep in *. cbn [snd] in Hpre. subst r1.
  destruct H1 as [(_ & Hp & _ & Hg & _ & Hpaid & _) _]. fold isCreate. rewrite Hi, Hg. exists st1. rewrite (proj2 (Z.ltb_lt _ _) Hlt). auto.
Qed.

(** ** What is burnt *)

(** The contract's account covers the balance of each validator. *)
Definition backed (d : StateDB) : Prop :=
  forall a v, Reg.ByAddress d a = Ok v -> Reg.v_balance v <= balance_at (world d) Reg.StakingAddress.

(** A staking call overdraws no account, except perhaps that of the contract when
    it does not cover its validators. *)
Definition spared (d : StateDB) (a : Address) : Prop :=
  IsStakingCall msg = true -> a = Reg.StakingAddress -> m_from msg <> a /\ backed d.

(** Balances do not go below zero, and over any large enough list of accounts the
    value falls by at least [x]. *)
Definition falls (x : Z) (d d' : StateDB) : Prop :=
  (forall a, 0 <= balance_at (world d) a) ->
  (forall a, spared d a -> 0 <= balance_at (world d') a) /\
  exists X : list Address, forall l, NoDup l -> X ⊆ l -> total (world d') l + x <= total (world d) l.

Lemma ByAddress_same d d' a : (forall k, slot_value (world d') Reg.StakingAddress k = slot_value (world d) Reg.StakingAddress k) ->
  Reg.ByAddress (SA := statedb_access) d' a = Reg.ByAddress (SA := statedb_access) d a.
Proof.
  intros H. assert (forall k, Reg.read (SA := statedb_access) d' k = Reg.read (SA := statedb_access) d k) as Hr
    by (intros k; unfold Reg.read; cbn [GetState statedb_access]; rewrite !get_state_value; apply H).
  unfold Reg.ByAddress, Reg.IndexOf. rewrite Hr. destruct (_ =? 0); [reflexivity|]. unfold Reg.Get, Reg.Count, Reg.load. rewrite !Hr. reflexivity.
Qed.

Lemma backed_same d d' : (forall k, slot_value (world d') Reg.StakingAddress k = slot_value (world d) Reg.StakingAddress k) ->
  balance_at (world d') Reg.StakingAddress = balance_at (world d) Reg.StakingAddress -> backed d -> backed d'.
Proof. intros Hs Hb H a v Hv. rewrite Hb. rewrite (ByAddress_same d d' a Hs) in Hv. exact (H a v Hv). Qed.

Lemma staked_falls d d' : staked d d' -> (forall a, 0 <= balance_at (world d) a) ->
  (forall a, (a = Reg.StakingAddress -> m_from msg <> a /\ backed d) -> 0 <= balance_at (world d') a) /\
  exists X : list Address, forall l, NoDup l -> X ⊆ l -> total (world d') l <= total (world d) l.
Proof.
  intros (u & d1 & Hu & Hle & S1 & B1 & dst & x & y & Hx & Hy & Hcov & B2) Hpos. split.
  - intros a Ha. rewrite B2, B1. pose proof (Hpos a) as Ha0. assert (u <= balance_at (world d) (m_from msg)) as Hu' by (pose proof (Hpos (m_from msg)); lia).
    destruct (decide (Reg.StakingAddress = a)) as [<-|Hne].
    + destruct (Ha eq_refl) as [Hfrom Hb]. rewrite (decide_False (P := m_from msg = _)) by exact Hfrom.
      assert (x + y <= balance_at (world d) Reg.StakingAddress); [|destruct (decide _); lia].
      destruct Hcov as [E|(b & v & Hv & Hv')]; [lia|]. rewrite (ByAddress_same d d1 b S1) in Hv. specialize (Hb b v Hv). lia.
    + destruct (decide (m_from msg = a)) as [Ea|], (decide (dst = a)); try rewrite Ea in Hu'; lia.
  - exists [m_from msg; Reg.StakingAddress; dst]. intros l Hl Hsub.
    set (e1 := add_balance d (m_from msg) (- u)). set (e2 := add_balance e1 Reg.StakingAddress (u - x - y)). set (e3 := add_balance e2 dst x).
    pose proof (proj2 (add_balance_cells d (m_from msg) (- u))) as C1. pose proof (proj2 (add_balance_cells e1 Reg.StakingAddress (u - x - y))) as C2.
    pose proof (proj2 (add_balance_cells e2 dst x)) as C3. fold e1 in C1. fold e2 in C2. fold e3 in C3.
    assert (total (world d') l <= total (world e3) l) as Hle3.
    { apply total_le. intros a. rewrite C3, C2, C1, B2, B1. destruct (decide (m_from msg = a)), (decide (Reg.StakingAddress = a)), (decide (dst = a)); lia. }
    rewrite (total_change _ _ l _ _ C3 Hl), (total_change _ _ l _ _ C2 Hl), (total_change _ _ l _ _ C1 Hl), !decide_True in Hle3; [lia|..]; apply Hsub; clear; set_solver.
Qed.

Lemma settled_falls st used st' d0 : settled st used st' -> m_skipChecks msg = false ->
  0 <= initialGas st - used -> 0 <= used -> 0 <= effectiveFeeCap msg -> m_gasPrice msg <= effectiveFeeCap msg -> 0 <= tip env NoBaseFee msg ->
  falls (initialGas st * effectiveFeeCap msg) d0 (db (st_vm st)) ->
  falls (used * (m_gasPrice msg - tip env NoBaseFee msg)) d0 (db (st_vm st')).
Proof.
  intros (_ & _ & _ & _ & _ & Hset) Hs H0 Hu Hcap Hp Ht Hf Hpos. destruct (Hset Hs) as [_ Hb]. destruct (Hf Hpos) as [P (X & HX)].
  set (x := (initialGas st - used) * effectiveFeeCap msg + used * Z.max 0 (effectiveFeeCap msg - m_gasPrice msg)) in *.
  set (y := used * tip env NoBaseFee msg) in *. assert (0 <= x) by (subst x; nia). assert (0 <= y) by (subst y; nia). split.
  - intros a Ha. rewrite Hb. specialize (P a Ha). destruct (decide (m_from msg = a)), (decide (Coinbase env = a)); lia.
  - exists (m_from msg :: Coinbase env :: X). intros l Hl Hsub.
    set (mid := world (add_balance (db (st_vm st)) (m_from msg) x)). pose proof (proj2 (add_balance_cells (db (st_vm st)) (m_from msg) x)) as Bm. fold mid in Bm.
    rewrite (total_change mid _ l (Coinbase env) y); [|intros b; rewrite Hb, Bm; reflexivity | exact Hl].
    rewrite (total_change (world_of st) mid l (m_from msg) x Bm Hl), !decide_True by (apply Hsub; clear; set_solver).
    specialize (HX l Hl). assert (X ⊆ l) as Hx by (clear - Hsub; set_solver). specialize (HX Hx). subst x y. rewrite Z.max_r by lia. lia.
Qed.

(** The price of a transaction lies between the base fee and its cap. *)
Lemma price_bounds i b : Tx.payload_ok i -> b <= Tx.gasFeeCap i -> b <= Tx.EffectiveGasPrice i (Some b) <= Tx.gasFeeCap i.
Proof.
  intros Hok Hb. destruct i as [t|t]; cbn [Tx.gasFeeCap] in *.
  - unfold Tx.EffectiveGasPrice. cbn [Tx.txType Tx.gasPrice]. rewrite Z.eqb_refl. lia.
  - unfold Tx.EffectiveGasPrice. cbn [Tx.txType Tx.gasFeeCap Tx.gasTipCap]. change (Tx.DynamicTxType =? Tx.LegacyTxType) with false.
    cbv zeta iota. destruct Hok as (_ & _ & Ht & _).
    rewrite (proj2 (Z.ltb_ge (Tx.d_gasFeeCap t - b) 0)) by lia. destruct (Z.ltb_spec (Tx.d_gasTipCap t) (Tx.d_gasFeeCap t - b)); lia.
Qed.

Lemma message_of tx signer b : snd (MessageFromTx tx signer (Some b)) = Ok msg -> Tx.payload_ok (Tx.inner tx) -> len (Tx.data (Tx.inner tx)) <= max_int64 ->
  msg_ok /\ m_skipChecks msg = false /\ m_gasFeeCap msg = Some (Tx.gasFeeCap (Tx.inner tx)) /\ 0 <= Tx.gasFeeCap (Tx.inner tx) /\
  m_gasPrice msg = Tx.EffectiveGasPrice (Tx.inner tx) (Some b).
Proof.
  unfold MessageFromTx, Tx.Sender. intros Hmsg Hok Hlen.
  assert (exists from, msg = mkMessage from (Tx.to (Tx.inner tx)) (Tx.nonce (Tx.inner tx)) (Tx.value (Tx.inner tx)) (Tx.gasLimit (Tx.inner tx))
    (Tx.EffectiveGasPrice (Tx.inner tx) (Some b)) (Some (Tx.gasFeeCap (Tx.inner tx))) (Some (Tx.gasTipCap (Tx.inner tx))) (Tx.data (Tx.inner tx))
    (Tx.accessList (Tx.inner tx)) false) as [from Em].
  { destruct (Tx.c_sender tx) as [from|]; [|destruct (Tx.recover_sender _ _) as [from|]; [|discriminate]]; cbn [snd Tx.inner] in Hmsg; injection Hmsg as <-; eauto. }
  unfold msg_ok. rewrite Em. cbn [m_gasLimit m_value m_data m_skipChecks m_gasFeeCap m_gasPrice]. clear Hmsg Em.
  destruct (Tx.inner tx) as [t|t]; cbn [Tx.payload_ok Tx.gasLimit Tx.value Tx.data Tx.gasFeeCap] in *; naive_solver.
Qed.

(** What execution leaves, once the gas is bought. *)
Lemma executed_falls d st v g err : executed st v g err -> (IsStakingCall msg = true -> cells_ok (world_of st)) ->
  (forall a k, slot_value (world_of st) a k = slot_value (world d) a k) -> (forall a, m_from msg <> a -> balance_at (world_of st) a = balance_at (world d) a) ->
  (forall a, 0 <= balance_at (world_of st) a) -> (forall a, spared d a -> 0 <= balance_at (world (db v)) a) /\
    exists X : list Address, forall l, NoDup l -> X ⊆ l -> total (world (db v)) l <= total (world_of st) l.
Proof.
  intros (_ & _ & Hex & _) Hcells Hs Hb Hpos. unfold spared. destruct (IsStakingCall msg).
  - destruct (staked_falls _ _ (Hex (Hcells eq_refl)) Hpos) as [P HX]. split; [|exact HX]. intros a Ha. apply P. intros Ea.
    destruct (Ha eq_refl Ea) as [Hne Hbk]. split; [exact Hne|]. apply (backed_same d); auto. apply Hb. rewrite <- Ea. exact Hne.
  - destruct (Hex Hpos) as [P HX]. auto.
Qed.

(** C8: the base fee is burnt.  When a transaction is applied with the base fee in
    force, as the blocks of the chain are, and no balance was negative before, none
    is afterwards, and over every list of accounts that has the sender, the
    proposer and those that were paid, the sum of all balances fell by at least
    the gas used times the base fee: whatever code or staking operation runs, what
    the sender is charged covers what the sender gets back and what the proposer
    earns, and the difference is destroyed.  A staking operation takes the
    registry's slots to hold 32-byte words; the account of the staking contract
    itself stays non-negative when it does not send the transaction and covers
    the balance of each of its validators. *)
Theorem base_fee_burnt tx signer b v gp : ready (mkST v gp 0 0) -> u64_ok gp -> Tx.payload_ok (Tx.inner tx) -> len (Tx.data (Tx.inner tx)) <= max_int64 ->
  BaseFee env = Some b -> NoBaseFee = false -> snd (MessageFromTx tx signer (Some b)) = Ok msg ->
  (IsStakingCall msg = true -> cells_ok (world (db v))) ->
  exists st r, ApplyMessage env NoBaseFee msg v gp = Ok (st, r) /\
  forall res, r = Ok res -> falls (UsedGas res * b) (db v) (db (st_vm st)).
Proof.
  intros Hr Hgp Hok Hlen Hbase Hno Hmsg Hcells. destruct (message_of _ _ _ Hmsg Hok Hlen) as (Hm & Hs & Hcap & Hcap0 & Hprice).
  destruct (ApplyMessage_ok v gp Hr Hgp Hm) as (st & r & E & H). exists st, r. split; [exact E|]. intros res ->.
  destruct H as [st1 st2 v3 g i (_ & _ & _ & _ & _ & [S1 B1] & Hfunds) Hfee _ Hi _ [S2 B2] Hg2 Hex Hset]. pose proof Hex as (_ & Hg & _).
  specialize (Hfee Hs Hno b Hbase). rewrite Hcap in Hfee. cbn [default from_option id] in Hfee. pose proof (price_bounds _ b Hok Hfee) as Hpb. rewrite <- Hprice in Hpb.
  assert (effectiveFeeCap msg = Tx.gasFeeCap (Tx.inner tx)) as Hec by (unfold effectiveFeeCap; rewrite Hcap; reflexivity).
  assert (tip env NoBaseFee msg = m_gasPrice msg - b) as Ht by (unfold tip; rewrite Hbase, Hno; lia).
  replace (UsedGas res * b) with (UsedGas res * (m_gasPrice msg - tip env NoBaseFee msg)) by (rewrite Ht; f_equal; lia).
  pose proof Hset as (_ & _ & _ & Hu & _). cbn [initialGas gas] in Hu. eapply settled_falls; [exact Hset | exact Hs | cbn; lia | lia | lia | lia | lia|].
  cbn [initialGas st_vm]. intros Hpos. specialize (Hfunds Hs). destruct Hm as (_ & Hval & _). unfold prepaid in *. rewrite Hs in *. set (cost := m_gasLimit msg * _) in *.
  cbn [st_vm] in *. assert (forall a, 0 <= balance_at (world_of st2) a) as P2.
  { intros a. rewrite B2, B1. pose proof (Hpos a). destruct (decide (m_from msg = a)) as [<-|]; lia. }
  assert (forall a k, slot_value (world_of st2) a k = slot_value (world (db v)) a k) as Hslots by (intros a k; rewrite S2; apply S1).
  destruct (executed_falls (db v) st2 v3 g _ Hex) as [P3 (X & HX)]; [intros Hstk a k; rewrite Hslots; apply (Hcells Hstk) | exact Hslots | | exact P2|].
  { intros a Hne. rewrite B2, B1, decide_False by exact Hne. lia. }
  split; [exact P3|]. exists (m_from msg :: X). intros l Hl Hsub.
  assert (X ⊆ l) as Hx by set_solver. specialize (HX l Hl Hx).
  assert (total (world_of st2) l = total (world (db v)) l + - cost) as Etot.
  { rewrite (total_change (world (db v)) _ l (m_from msg) (- cost)); [|intros a; rewrite B2, B1; reflexivity | exact Hl]. rewrite decide_True by (apply Hsub; set_solver). lia. }
  lia.
Qed.

End Message.
(** ** Witnesses *)

#[local] Existing Instances Reg.toy_keccak map_store Tx.one_key.
#[local] Instance sample_bls : Bls := Att.toy_bls [].
#[local] Instance sample_possession : BlsPossession sample_bls := fun _ _ => true.

Definition proposer : Address := BytesToAddress [204].
Definition fee_env : Env := mkEnv proposer 30000000 1 0 (Some 3) ZeroHash (fun _ => ZeroHash) ZeroAddress 10 7.

(** A payment of 5 and 2 bytes of data, at most 10 per unit of gas. *)
Definition payment (limit : Z) (dest : Address) : Tx.Transaction :=
  Tx.NewTx (Tx.Legacy (Tx.mkLegacy 0 10 limit (Some dest) 5 [1; 2] 49 1 1)).
Definition message (limit : Z) (dest : Address) : Message :=
  match snd (MessageFromTx (payment limit dest) 7 (Some 3)) with
  | Ok m => m
  | Err _ => mkMessage ZeroAddress None 0 0 0 0 None None [] [] false
  end.
Definition payer : Address := Eval vm_compute in m_from (message 60000 proposer).

Definition funded_db : StateDB := SetCode (add_balance sample_start payer 1000000) Machine.code_addr Machine.store_and_revert.
Definition funded_vm : VM := mkVM funded_db 0 false false [] false.

Lemma funded_ready gp : ready (mkST funded_vm gp 0 0).
Proof.
  split; [split; [split; [|constructor] | split; reflexivity] | vm_compute; discriminate].
  apply (execs_inv [DoAddBalance payer 1000000; DoSetCode Machine.code_addr Machine.store_and_revert] sample_start); [reflexivity|].
  apply inv_start; [reflexivity | reflexivity | exact sample_wf].
Qed.

Lemma funded_balances a : 0 <= balance_at (world funded_db) a.
Proof.
  unfold funded_db. rewrite SetCode_balance, (proj2 (add_balance_cells sample_start payer 1000000)).
  assert (balance_at (world sample_start) a = 0) as -> by (unfold balance_at, live, load; cbn; rewrite !lookup_empty; reflexivity).
  destruct (decide _); lia.
Qed.

Ltac concrete := first [apply funded_ready | vm_compute; repeat constructor; discriminate | vm_compute; reflexivity | vm_compute; discriminate].

(** The outcome of a concrete message. *)
Definition outcome (r : result fault (StateTransition * result error ExecutionResult)) : option (Z * option op_error) :=
  match r with Ok (_, Ok res) => Some (UsedGas res, ResultErr res) | _ => None end.

(** The code stores and reverts; the message pays for 43144 units of gas. *)
Lemma reverted : outcome (ApplyMessage fee_env false (message 60000 Machine.code_addr) funded_vm 100000) = Some (43144, Some (ErrVm Vm.ErrExecutionReverted)).
Proof. vm_compute. reflexivity. Qed.

Lemma message_accounted_witness : exists st res,
  ApplyMessage fee_env false (message 60000 Machine.code_addr) funded_vm 100000 = Ok (st, Ok res) /\
  ResultErr res = Some (ErrVm Vm.ErrExecutionReverted) /\ gasPool st = 100000 - UsedGas res /\ ready st.
Proof.
  destruct (message_accounted fee_env false (message 60000 Machine.code_addr) funded_vm 100000) as (st & r & E & H1 & H2); [concrete..|].
  pose proof reverted as Ho. rewrite E in Ho. destruct r as [res|e]; [|discriminate]. injection Ho as _ Ho. exists st, res. split; [exact E|].
  split; [exact Ho|]. split; [apply H2 | exact H1].
Defined.

(** 43144 units at 10 each leave the payer, 7 of the 10 go to the proposer. *)
Lemma failed_message_pays_fee_witness : exists st r, ApplyMessage fee_env false (message 60000 Machine.code_addr) funded_vm 100000 = Ok (st, r) /\
  balance_at (world (db (st_vm st))) payer = 1000000 - 431440 /\ balance_at (world (db (st_vm st))) proposer = 302008 /\
  slot_value (world (db (st_vm st))) Machine.code_addr ZeroHash = ZeroHash.
Proof.
  destruct (failed_message_pays_fee fee_env false (message 60000 Machine.code_addr) funded_vm 100000) as (st & r & E & H); [concrete..|].
  pose proof reverted as Ho. rewrite E in Ho. destruct r as [res|e]; [|discriminate]. injection Ho as Hu Ho.
  destruct (H res eq_refl) as [Hslots Hbal]; [rewrite Ho; discriminate|]. exists st, (Ok res). split; [exact E|]. rewrite !Hbal, Hslots, Hu. vm_compute. auto.
Defined.

(** The intrinsic cost is 21032. *)
Lemma refusal_keeps_gas_witness : exists st,
  ApplyMessage fee_env false (message 21000 proposer) funded_vm 100000 = Ok (st, Err ErrIntrinsicGas) /\ gasPool st = 79000 /\
  balance_at (world (db (st_vm st))) payer = 790000.
Proof.
  destruct (refusal_keeps_gas fee_env false (message 21000 proposer) funded_vm 100000 21032) as (st & E & Hp & _ & Hb); [concrete..|].
  exists st. split; [exact E|]. split; [rewrite Hp; reflexivity | rewrite Hb; vm_compute; reflexivity].
Defined.

(** A first deposit, from an account that can pay it. *)
Definition staker_db : StateDB := add_balance sample_start payer (Reg.MinDeposit + 10000000).
Definition staker_vm : VM := mkVM staker_db 0 false false [] false.
Definition deposit : Tx.Transaction :=
  Tx.NewTx (Tx.Legacy (Tx.mkLegacy 0 10 200000 (Some Reg.StakingAddress) Reg.MinDeposit (OpDeposit :: replicate 20 9) 49 1 1)).
Definition deposit_message : Message :=
  match snd (MessageFromTx deposit 7 (Some 3)) with Ok m => m | Err _ => message 60000 proposer end.

Lemma staker_ready gp : ready (mkST staker_vm gp 0 0).
Proof.
  split; [split; [split; [|constructor] | split; reflexivity] | vm_compute; discriminate].
  apply (execs_inv [DoAddBalance payer (Reg.MinDeposit + 10000000)] sample_start); [reflexivity|].
  apply inv_start; [reflexivity | reflexivity | exact sample_wf].
Qed.

Lemma staker_slots a k : slot_value (world staker_db) a k = ZeroHash.
Proof.
  unfold staker_db. rewrite (proj1 (add_balance_cells sample_start payer _)). unfold slot_value, live, load. cbn. rewrite !lookup_empty. reflexivity.
Qed.

Lemma staker_balances a : 0 <= balance_at (world staker_db) a.
Proof.
  unfold staker_db. rewrite (proj2 (add_balance_cells sample_start payer _)).
  assert (balance_at (world sample_start) a = 0) as -> by (unfold balance_at, live, load; cbn; rewrite !lookup_empty; reflexivity).
  assert (0 <= Reg.MinDeposit + 10000000) by (vm_compute; discriminate). destruct (decide _); lia.
Qed.

Lemma staker_backed : backed staker_db.
Proof.
  intros a v H. exfalso. unfold Reg.ByAddress, Reg.IndexOf, Reg.read in H. cbn [GetState statedb_access] in H. rewrite get_state_value, staker_slots in H. discriminate H.
Qed.

Lemma base_fee_burnt_witness : exists st res,
  ApplyMessage fee_env false deposit_message staker_vm 300000 = Ok (st, Ok res) /\ IsStakingCall deposit_message = true /\ ResultErr res = None /\
  falls deposit_message (UsedGas res * 3) staker_db (db (st_vm st)) /\ 0 < UsedGas res /\ forall a, 0 <= balance_at (world (db (st_vm st))) a.
Proof.
  destruct (base_fee_burnt fee_env false deposit_message deposit 7 3 staker_vm 300000) as (st & r & E & H);
    [apply staker_ready | concrete.. | intros _ a k; rewrite staker_slots; split; [reflexivity | repeat constructor; vm_compute; discriminate] |].
  assert (match outcome (ApplyMessage fee_env false deposit_message staker_vm 300000) with Some (u, e) => (0 <? u, e) | None => (false, None) end = (true, None)) as Ho by (vm_compute; reflexivity).
  rewrite E in Ho. destruct r as [res|e]; [|discriminate]. injection Ho as Hu Ho. specialize (H res eq_refl).
  exists st, res. split; [exact E|]. split; [vm_compute; reflexivity|]. split; [exact Ho|]. split; [exact H|]. split; [apply Z.ltb_lt, Hu|].
  intros a. apply (H staker_balances). intros _ ->. split; [vm_compute; discriminate | exact staker_backed].
Defined.

End Facts.
