(* ===== verification/CoreBlock.v ===== *)
(** Blocks, receipts and bloom filters (src/core/block.go, receipt.go, bloom.go).

    A filter is its 256 bytes.  Header fields of type [*big.Int] are options,
    [None] standing for nil.  The encodings are those of the reflective codec of
    RLP.v; the transactions of a block travel through their own encoder
    (Transaction.v), so the two fields of a block's body are read and written
    one after the other as the codec does.  [None] of [option] is a panic. *)

From Stdlib Require Import String.
From stdpp Require Import base list gmap.
From Stdlib Require Import ZArith Lia.
From S2P Require Import Prelude RLP Common StateDB Trie EvmData Interpreter Precompiles Transaction.
Local Open Scope Z_scope.
Local Open Scope go_scope.

(** * Bloom filters *)

Module Bloom.

Abbreviation Bloom := bytes.

Section Bloom.
Context `{K : Keccak}.

Definition BloomByteLength : Z := 256.
Definition zero_bloom : Bloom := zeros 256.

(** The byte and the mask of one of the 2048 bits. *)
Definition bit_position (h : Hash) (off : nat) : nat * Z :=
  let bit := Z.land (Z.lor (Z.shiftl (nth off h 0) 8) (nth (S off) h 0)) 2047 in
  (Z.to_nat (BloomByteLength - 1 - bit / 8), wrap8 (Z.shiftl 1 (bit mod 8))).

Definition bloomPositions (d : bytes) : list (nat * Z) :=
  let h := Keccak256 [d] in [bit_position h 0; bit_position h 2; bit_position h 4].

Definition set_at (b : Bloom) (p : nat * Z) : Bloom := <[fst p := Z.lor (nth (fst p) b 0) (snd p)]> b.
Definition test_at (b : Bloom) (p : nat * Z) : bool := snd p =? Z.land (nth (fst p) b 0) (snd p).

Definition Add (b : Bloom) (d : bytes) : Bloom := fold_left set_at (bloomPositions d) b.
Definition Or (b other : Bloom) : Bloom := zip_with Z.lor b other.
Definition Test (b : Bloom) (d : bytes) : bool := forallb (test_at b) (bloomPositions d).

Definition add_log (b : Bloom) (l : SDB.Log) : Bloom := fold_left Add (SDB.l_topics l) (Add b (SDB.l_address l)).
Definition CreateBloom (logs : list SDB.Log) : Bloom := fold_left add_log logs zero_bloom.
Definition BloomLookup (b : Bloom) (topic : bytes) : bool := Test b topic.

End Bloom.
End Bloom.

(** * Receipts *)

Module Rcpt.
Import Rlp Bloom.

Section Receipts.
Context `{K : Keccak} `{C : NativeCrypto}.

Definition ReceiptStatusFailed : Z := 0.
Definition ReceiptStatusSuccessful : Z := 1.

Record Receipt := mkReceipt
  { r_type : Z; r_status : Z; r_cumulative : Z; r_bloom : Bloom; r_logs : list SDB.Log;
    r_txHash : Hash; r_contract : Address; r_gasUsed : Z; r_price : option Z;
    r_blockHash : Hash; r_blockNumber : option Z; r_txIndex : Z }.

Definition NewReceipt (txType status cumulativeGasUsed : Z) (logs : list SDB.Log) : Receipt :=
  mkReceipt txType status cumulativeGasUsed (CreateBloom logs) logs ZeroHash ZeroAddress 0 None ZeroHash None 0.

Definition CreateBloomFromReceipts (rs : list Receipt) : Bloom :=
  fold_left (fun b r => fold_left add_log (r_logs r) b) rs zero_bloom.

Definition hash_type : GoType := TArray 32 (TUint 8).

Definition log_type : GoType := TStruct
  [mkField "Address" true "" Tx.address_type; mkField "Topics" true "" (TSlice hash_type); mkField "Data" true "" Tx.bytes_type;
   mkField "BlockNumber" true "-" (TUint 64); mkField "BlockHash" true "-" hash_type; mkField "TxHash" true "-" hash_type;
   mkField "TxIndex" true "-" (TUint 64); mkField "Index" true "-" (TUint 64); mkField "Removed" true "-" TBool].

Definition receipt_type : GoType := TStruct
  [mkField "Type" true "-" (TUint 8); mkField "Status" true "" (TUint 64); mkField "CumulativeGasUsed" true "" (TUint 64);
   mkField "Bloom" true "" (TArray 256 (TUint 8)); mkField "Logs" true "" (TSlice (TPtr log_type));
   mkField "TxHash" true "-" hash_type; mkField "ContractAddress" true "-" Tx.address_type; mkField "GasUsed" true "-" (TUint 64);
   mkField "EffectiveGasPrice" true "-" Tx.big_type; mkField "BlockHash" true "-" hash_type;
   mkField "BlockNumber" true "-" Tx.big_type; mkField "TxIndex" true "-" (TUint 64)].

Definition opt_big (v : option Z) : GoVal := match v with Some n => Tx.big_value n | None => VNil end.
Definition as_opt_big (v : GoVal) : option Z := match v with VPtr (VBig i) => Some i | _ => None end.

Definition log_value (l : SDB.Log) : GoVal :=
  VStruct [VBytes (SDB.l_address l); VSeq (map VBytes (SDB.l_topics l)); bytes_value (SDB.l_data l);
           VUint (SDB.l_block l); VBytes (SDB.l_blockHash l); VBytes (SDB.l_txhash l); VUint (SDB.l_txindex l); VUint (SDB.l_index l); VBool false].
Definition log_of (v : GoVal) : SDB.Log :=
  match v with
  | VPtr x =>
      let f n := nth n (Tx.as_list x) VNil in
      SDB.mkLog (Tx.as_bytes (f 0%nat)) (map Tx.as_bytes (Tx.as_list (f 1%nat))) (Tx.as_bytes (f 2%nat)) (Tx.as_uint (f 3%nat))
        (Tx.as_bytes (f 4%nat)) (Tx.as_bytes (f 5%nat)) (Tx.as_uint (f 6%nat)) (Tx.as_uint (f 7%nat))
  | _ => SDB.mkLog [] [] [] 0 [] [] 0 0
  end.

Definition receipt_value (r : Receipt) : GoVal :=
  VStruct [VUint (r_type r); VUint (r_status r); VUint (r_cumulative r); VBytes (r_bloom r); VSeq (map (fun l => VPtr (log_value l)) (r_logs r));
           VBytes (r_txHash r); VBytes (r_contract r); VUint (r_gasUsed r); opt_big (r_price r); VBytes (r_blockHash r);
           opt_big (r_blockNumber r); VUint (r_txIndex r)].
Definition receipt_of (ty : Z) (v : GoVal) : Receipt :=
  let f n := nth n (Tx.as_list v) VNil in
  mkReceipt ty (Tx.as_uint (f 1%nat)) (Tx.as_uint (f 2%nat)) (Tx.as_bytes (f 3%nat)) (map log_of (Tx.as_list (f 4%nat)))
    (Tx.as_bytes (f 5%nat)) (Tx.as_bytes (f 6%nat)) (Tx.as_uint (f 7%nat)) (as_opt_big (f 8%nat)) (Tx.as_bytes (f 9%nat))
    (as_opt_big (f 10%nat)) (Tx.as_uint (f 11%nat)).

Definition MarshalReceipt (r : Receipt) : result Rlp.error bytes :=
  let! payload := Encode (VPtr (receipt_value r)) (TPtr receipt_type) in
  Ok (if r_type r =? Tx.LegacyTxType then payload else r_type r :: payload).

(** Into a fresh receipt. *)
Definition UnmarshalReceipt (b : bytes) : result Tx.tx_error Receipt :=
  match b with
  | [] => Err Tx.ErrEmptyEncoding
  | c :: rest =>
      if 192 <=? c then let! v := Tx.codec (Decode b receipt_type) in Ok (receipt_of Tx.LegacyTxType v)
      else let! v := Tx.codec (Decode rest receipt_type) in Ok (receipt_of c v)
  end.

Fixpoint EncodeReceiptsForRoot (rs : list Receipt) : option (list bytes) :=
  match rs with
  | [] => Some []
  | r :: rest =>
      match MarshalReceipt r with
      | Err _ => None
      | Ok enc => let? out := EncodeReceiptsForRoot rest in Some (enc :: out)
      end
  end.

Definition ReceiptsBloom (rs : list Receipt) : Bloom := fold_left (fun out r => Or out (r_bloom r)) rs zero_bloom.

(** ** Derived fields *)

Inductive derive_error := ErrCount | ErrSender (e : Tx.tx_error) | DerivePanic.

Definition derive_log (number : Z) (blockHash txHash : Hash) (index logIndex : Z) (l : SDB.Log) : SDB.Log :=
  SDB.mkLog (SDB.l_address l) (SDB.l_topics l) (SDB.l_data l) number blockHash txHash index logIndex.

Fixpoint derive_logs (number : Z) (blockHash txHash : Hash) (index logIndex : Z) (ls : list SDB.Log) : list SDB.Log * Z :=
  match ls with
  | [] => ([], logIndex)
  | l :: r =>
      let (r', n) := derive_logs number blockHash txHash index (logIndex +w 1) r in
      (derive_log number blockHash txHash index logIndex l :: r', n)
  end.

(** The loop over the receipts, the previous one's running total at hand. *)
Fixpoint derive_loop (signer : option Z) (blockHash : Hash) (number : Z) (baseFee : option Z) (index logIndex : Z) (prev : option Z)
    (rs : list Receipt) (txs : list Tx.Transaction) : result derive_error (list Receipt) :=
  match rs, txs with
  | r :: rs', tx :: txs' =>
      match Tx.TxHash tx with
      | None => Err DerivePanic
      | Some (tx, h) =>
          let i := Tx.inner tx in
          let! contract :=
            (match Tx.to i, signer with
             | None, Some s =>
                 match snd (Tx.Sender s tx) with
                 | Err e => Err (ErrSender e)
                 | Ok from => Ok (Interp.CreateAddress from (Tx.nonce i))
                 end
             | _, _ => Ok (r_contract r)
             end) in
          let gasUsed := match prev with None => r_cumulative r | Some p => r_cumulative r -w p end in
          let (logs, logIndex) := derive_logs number blockHash h index logIndex (r_logs r) in
          let r' := mkReceipt (Tx.txType i) (r_status r) (r_cumulative r) (r_bloom r) logs h contract gasUsed
                      (Some (Tx.EffectiveGasPrice i baseFee)) blockHash (Some number) index in
          let! rest := derive_loop signer blockHash number baseFee (index + 1) logIndex (Some (r_cumulative r)) rs' txs' in
          Ok (r' :: rest)
      end
  | _, _ => Ok []
  end.

Definition DeriveFields (rs : list Receipt) (signer : option Z) (blockHash : Hash) (number : Z) (baseFee : option Z) (txs : list Tx.Transaction)
    : result derive_error (list Receipt) :=
  if negb (len rs =? len txs) then Err ErrCount else derive_loop signer blockHash number baseFee 0 0 None rs txs.

End Receipts.
End Rcpt.

(** * Headers and blocks *)

Module Blk.
Import Rlp Bloom Rcpt.

Record Header := mkHeader
  { h_parentHash : Hash; h_coinbase : Address; h_stateRoot : Hash; h_txRoot : Hash; h_receiptRoot : Hash; h_bloom : Bloom;
    h_number : option Z; h_gasLimit : Z; h_gasUsed : Z; h_time : Z; h_extra : bytes; h_baseFee : option Z; h_round : Z;
    h_randaoReveal : bytes; h_justification : bytes; h_seal : bytes }.

Definition with_roots (h : Header) (txRoot receiptRoot : Hash) (bloom : Bloom) : Header :=
  mkHeader (h_parentHash h) (h_coinbase h) (h_stateRoot h) txRoot receiptRoot bloom (h_number h) (h_gasLimit h) (h_gasUsed h) (h_time h)
    (h_extra h) (h_baseFee h) (h_round h) (h_randaoReveal h) (h_justification h) (h_seal h).
Definition with_seal (h : Header) (seal : bytes) : Header :=
  mkHeader (h_parentHash h) (h_coinbase h) (h_stateRoot h) (h_txRoot h) (h_receiptRoot h) (h_bloom h) (h_number h) (h_gasLimit h)
    (h_gasUsed h) (h_time h) (h_extra h) (h_baseFee h) (h_round h) (h_randaoReveal h) (h_justification h) seal.
Definition with_number (h : Header) (number baseFee : option Z) : Header :=
  mkHeader (h_parentHash h) (h_coinbase h) (h_stateRoot h) (h_txRoot h) (h_receiptRoot h) (h_bloom h) number (h_gasLimit h)
    (h_gasUsed h) (h_time h) (h_extra h) baseFee (h_round h) (h_randaoReveal h) (h_justification h) (h_seal h).

Definition bloom_type : GoType := TArray 256 (TUint 8).
Definition header_type : GoType := TStruct
  [mkField "ParentHash" true "" hash_type; mkField "Coinbase" true "" Tx.address_type; mkField "StateRoot" true "" hash_type;
   mkField "TxRoot" true "" hash_type; mkField "ReceiptRoot" true "" hash_type; mkField "Bloom" true "" bloom_type;
   mkField "Number" true "" Tx.big_type; mkField "GasLimit" true "" (TUint 64); mkField "GasUsed" true "" (TUint 64);
   mkField "Time" true "" (TUint 64); mkField "Extra" true "" Tx.bytes_type; mkField "BaseFee" true "" Tx.big_type;
   mkField "Round" true "" (TUint 64); mkField "RandaoReveal" true "" Tx.bytes_type; mkField "Justification" true "" Tx.bytes_type;
   mkField "ProposerSeal" true "" Tx.bytes_type].

Definition header_value (h : Header) : GoVal :=
  VStruct [VBytes (h_parentHash h); VBytes (h_coinbase h); VBytes (h_stateRoot h); VBytes (h_txRoot h); VBytes (h_receiptRoot h);
           VBytes (h_bloom h); opt_big (h_number h); VUint (h_gasLimit h); VUint (h_gasUsed h); VUint (h_time h); bytes_value (h_extra h);
           opt_big (h_baseFee h); VUint (h_round h); bytes_value (h_randaoReveal h); bytes_value (h_justification h); bytes_value (h_seal h)].
Definition header_of (v : GoVal) : option Header :=
  match v with
  | VPtr x =>
      let f n := nth n (Tx.as_list x) VNil in
      Some (mkHeader (Tx.as_bytes (f 0%nat)) (Tx.as_bytes (f 1%nat)) (Tx.as_bytes (f 2%nat)) (Tx.as_bytes (f 3%nat)) (Tx.as_bytes (f 4%nat))
              (Tx.as_bytes (f 5%nat)) (as_opt_big (f 6%nat)) (Tx.as_uint (f 7%nat)) (Tx.as_uint (f 8%nat)) (Tx.as_uint (f 9%nat))
              (Tx.as_bytes (f 10%nat)) (as_opt_big (f 11%nat)) (Tx.as_uint (f 12%nat)) (Tx.as_bytes (f 13%nat)) (Tx.as_bytes (f 14%nat))
              (Tx.as_bytes (f 15%nat)))
  | _ => None
  end.

Section Blocks.
Context `{K : Keccak} `{C : NativeCrypto}.

(** The sealed list, as [rlp.Encode([]any{...})] sees it. *)
Definition sealed_items (h : Header) : list GoVal :=
  [VIface hash_type (VBytes (h_parentHash h)); VIface Tx.address_type (VBytes (h_coinbase h)); VIface hash_type (VBytes (h_stateRoot h));
   VIface hash_type (VBytes (h_txRoot h)); VIface hash_type (VBytes (h_receiptRoot h)); VIface bloom_type (VBytes (h_bloom h));
   VIface Tx.big_type (opt_big (h_number h)); VIface (TUint 64) (VUint (h_gasLimit h)); VIface (TUint 64) (VUint (h_gasUsed h));
   VIface (TUint 64) (VUint (h_time h)); VIface Tx.bytes_type (bytes_value (h_extra h)); VIface Tx.big_type (opt_big (h_baseFee h));
   VIface (TUint 64) (VUint (h_round h)); VIface Tx.bytes_type (bytes_value (h_randaoReveal h));
   VIface Tx.bytes_type (bytes_value (h_justification h))].

Definition sealing_message (h : Header) : option bytes :=
  match Encode (VSeq (sealed_items h)) (TSlice TInterface) with Ok enc => Some enc | Err _ => None end.
Definition SealingHash (h : Header) : option Hash := let? enc := sealing_message h in Some (Keccak256 [enc]).

Definition header_message (h : Header) : option bytes :=
  match Encode (VPtr (header_value h)) (TPtr header_type) with Ok enc => Some enc | Err _ => None end.
Definition HeaderHash (h : Header) : option Hash := let? enc := header_message h in Some (Keccak256 [enc]).

Definition NumberU64 (h : Header) : Z := match h_number h with None => 0 | Some n => wrap64 n end.

Record Block := mkBlock { b_header : Header; b_txs : list Tx.Transaction; b_hash : option Hash; b_size : Z }.

Definition payloads (b : Block) : list Tx.TxData := map Tx.inner (b_txs b).

(** The root of a list of encodings, that of the empty trie for none. *)
Definition list_root (encs : option (list bytes)) (empty : bool) : option Hash :=
  if empty then Some Mpt.EmptyRoot else let? e := encs in Mpt.DeriveRoot e.

Definition is_empty {A} (l : list A) : bool := match l with [] => true | _ => false end.

Definition NewBlock (header : Header) (txs : list Tx.Transaction) (receipts : list Receipt) : option Block :=
  let? txRoot := list_root (Tx.EncodeForRoot (map Tx.inner txs)) (is_empty txs) in
  let? receiptRoot := list_root (EncodeReceiptsForRoot receipts) (is_empty receipts) in
  Some (mkBlock (with_roots header txRoot receiptRoot (if is_empty receipts then h_bloom header else ReceiptsBloom receipts)) txs None 0).

Definition NewBlockWithHeader (header : Header) : Block := mkBlock header [] None 0.
Definition WithBody (b : Block) (txs : list Tx.Transaction) : Block := mkBlock (b_header b) txs None 0.
Definition WithSeal (b : Block) (seal : bytes) : Block := mkBlock (with_seal (b_header b) seal) (b_txs b) None 0.

Definition BlockHash (b : Block) : option (Block * Hash) :=
  match b_hash b with
  | Some h => Some (b, h)
  | None => let? h := HeaderHash (b_header b) in Some (mkBlock (b_header b) (b_txs b) (Some h) (b_size b), h)
  end.

(** The transaction with a given hash. *)
Fixpoint find_transaction (txs : list Tx.Transaction) (hash : Hash) : option (option Tx.Transaction) :=
  match txs with
  | [] => Some None
  | tx :: r =>
      let? (tx, h) := Tx.TxHash tx in
      if bool_decide (h = hash) then Some (Some tx) else find_transaction r hash
  end.

(** ** Wire form *)

Definition MarshalBlock (b : Block) : result Rlp.error bytes :=
  let! h := encodeValue (VPtr (header_value (b_header b))) (TPtr header_type) in
  let! txs := sequence (map Tx.EncodeRLP (payloads b)) in
  Ok (write_list (h ++ write_list txs)).

Inductive block_error :=
| ErrDecoding (e : Tx.tx_error)
| ErrNoHeader
| ErrTxRootMismatch
| BlockPanic.

(** The [for !inner.Empty()] loop of the slice of transactions. *)
Fixpoint decode_txs (fuel : nat) (inner : bytes) : result Tx.tx_error (list Tx.TxData) :=
  if Empty inner then Ok []
  else match fuel with
       | O => Err (Tx.ErrCodec OutOfFuel)
       | S f =>
           let! (x, r) := Tx.DecodeRLP inner in
           let! xs := decode_txs f r in
           Ok (x :: xs)
       end.

(** [rlp.Decode] of a [blockBody]. *)
Definition decode_body (data : bytes) : result Tx.tx_error (GoVal * list Tx.TxData) :=
  let! (inner, rest) := Tx.codec (StreamList data) in
  if Empty inner then Err (Tx.ErrCodec ErrTooFewFields)
  else
    let! (h, inner) := Tx.codec (decodeValue (TPtr header_type) inner) in
    if Empty inner then Err (Tx.ErrCodec ErrTooFewFields)
    else
      let! (l, inner) := Tx.codec (StreamList inner) in
      let! txs := decode_txs (length l) l in
      if negb (Empty inner) then Err (Tx.ErrCodec ErrTooManyFields)
      else if 0 <? len rest then Err (Tx.ErrCodec ErrTrailingData)
      else Ok (h, txs).

Definition UnmarshalBlock (data : bytes) : result block_error Block :=
  match decode_body data with
  | Err e => Err (ErrDecoding e)
  | Ok (v, txs) =>
      match header_of v with
      | None => Err ErrNoHeader
      | Some h =>
          let h := with_number h (Some (default 0 (h_number h))) (Some (default 0 (h_baseFee h))) in
          match list_root (Tx.EncodeForRoot txs) (is_empty txs) with
          | None => Err BlockPanic
          | Some want =>
              if negb (bool_decide (want = h_txRoot h)) then Err ErrTxRootMismatch
              else Ok (mkBlock h (map Tx.NewTx txs) None 0)
          end
      end
  end.

Definition BlockSize (b : Block) : Block * Z :=
  if negb (b_size b =? 0) then (b, b_size b)
  else match MarshalBlock b with
       | Err _ => (b, 0)
       | Ok enc => (mkBlock (b_header b) (b_txs b) (b_hash b) (wrap64 (len enc)), wrap64 (len enc))
       end.

End Blocks.
End Blk.
