(* ===== verification/CoreBlockFacts.v ===== *)
(** Facts on blocks, receipts and filters (CoreBlock.v): a filter never misses
    what a block logged, encodings are read back, and hashes bind what they
    cover. *)

From Stdlib Require Import String.
From stdpp Require Import base list gmap.
From Stdlib Require Import ZArith Lia.
From S2P Require Import Prelude RLP Common Keccak Registry StateDB Trie TrieTree TrieEncoding TrieOps TrieRoot EvmData Interpreter Precompiles Transaction CoreBlock.
Local Open Scope Z_scope.
Local Open Scope go_scope.

(** * Filters *)

Module BloomFacts.
Import Bloom Rcpt.

Section Filters.
Context `{K : Keccak}.

Definition wide (b : Bloom) : Prop := length b = 256%nat.
Definition inside (p : nat * Z) : Prop := (fst p < 256)%nat.

Lemma position_inside h off : inside (bit_position h off).
Proof.
  unfold inside, bit_position, BloomByteLength. cbn [fst]. set (x := Z.lor _ _). assert (0 <= Z.land x 2047 <= 2047) as H.
  { assert (Z.land x 2047 = x mod 2048) as -> by apply (Z.land_ones x 11 ltac:(lia)). pose proof (Z.mod_pos_bound x 2048 eq_refl). lia. }
  assert (0 <= Z.land x 2047 / 8) by (apply Z.div_pos; lia). lia.
Qed.

Lemma positions_inside d : Forall inside (bloomPositions d).
Proof. repeat (apply Forall_cons; split; [apply position_inside|]). constructor. Qed.

Lemma wide_zero : wide zero_bloom.
Proof. reflexivity. Qed.

Lemma wide_set b p : wide b -> wide (set_at b p).
Proof. unfold wide, set_at. rewrite length_insert. auto. Qed.

Lemma wide_or b c : wide b -> wide c -> wide (Or b c).
Proof. unfold wide, Or. intros Hb Hc. rewrite length_zip_with, Hb, Hc. reflexivity. Qed.

Lemma wide_sets ps : forall b, wide b -> wide (fold_left set_at ps b).
Proof. induction ps as [|p ps IH]; intros b Hb; cbn [fold_left]; auto using wide_set. Qed.

Lemma wide_adds ds : forall b, wide b -> wide (fold_left Add ds b).
Proof. induction ds as [|d ds IH]; intros b Hb; cbn [fold_left]; [exact Hb | apply IH, wide_sets, Hb]. Qed.

Lemma wide_logs ls : forall b, wide b -> wide (fold_left add_log ls b).
Proof. induction ls as [|l ls IH]; intros b Hb; cbn [fold_left]; [exact Hb|]. apply IH, wide_adds, wide_sets, Hb. Qed.

(** ** Bytes of a filter *)

Lemma nth_or b c i : wide b -> wide c -> nth i (Or b c) 0 = Z.lor (nth i b 0) (nth i c 0).
Proof.
  unfold wide, Or. intros Hb Hc. destruct (decide (i < 256)%nat) as [Hi|Hi].
  - rewrite !nth_lookup. rewrite lookup_zip_with. destruct (lookup_lt_is_Some_2 b i) as [x ->]; [lia|]. destruct (lookup_lt_is_Some_2 c i) as [y ->]; [lia|]. reflexivity.
  - rewrite !nth_overflow by (rewrite ?length_zip_with; lia). reflexivity.
Qed.

Lemma nth_set b p i : wide b -> inside p -> nth i (set_at b p) 0 = if decide (i = fst p) then Z.lor (nth i b 0) (snd p) else nth i b 0.
Proof.
  unfold wide, inside, set_at. intros Hb Hp. rewrite !nth_lookup. destruct (decide (i = fst p)) as [->|Hne].
  - rewrite list_lookup_insert_eq by lia. reflexivity.
  - rewrite list_lookup_insert_ne by congruence. reflexivity.
Qed.

Lemma bloom_ext b c : wide b -> wide c -> (forall i, nth i b 0 = nth i c 0) -> b = c.
Proof. unfold wide. intros Hb Hc H. apply nth_ext with 0 0; [congruence | auto]. Qed.

(** ** Merging *)

Lemma or_zero b : wide b -> Or b zero_bloom = b.
Proof.
  intros Hb. apply bloom_ext; auto using wide_or, wide_zero. intros i. rewrite nth_or by auto using wide_zero.
  replace (nth i zero_bloom 0) with 0; [apply Z.lor_0_r|]. symmetry. unfold zero_bloom, zeros. rewrite nth_lookup. destruct (replicate 256 0 !! i) as [x|] eqn:E; [|reflexivity]. apply lookup_replicate in E as [-> _]. reflexivity.
Qed.

Lemma set_or b c p : wide b -> wide c -> inside p -> set_at (Or b c) p = Or b (set_at c p).
Proof.
  intros Hb Hc Hp. apply bloom_ext; auto using wide_or, wide_set. intros i. rewrite nth_set, !nth_or, nth_set by auto using wide_or, wide_set.
  destruct (decide _); [symmetry; apply Z.lor_assoc | reflexivity].
Qed.

Lemma sets_or b ps : wide b -> Forall inside ps -> forall c, wide c -> fold_left set_at ps (Or b c) = Or b (fold_left set_at ps c).
Proof. intros Hb. induction 1 as [|p ps Hp _ IH]; intros c Hc; cbn [fold_left]; [reflexivity|]. rewrite set_or by assumption. apply IH, wide_set, Hc. Qed.

Lemma adds_or b ds : wide b -> forall c, wide c -> fold_left Add ds (Or b c) = Or b (fold_left Add ds c).
Proof.
  intros Hb. induction ds as [|d ds IH]; intros c Hc; cbn [fold_left]; [reflexivity|]. unfold Add at 2. rewrite sets_or by auto using positions_inside.
  apply IH, wide_sets, Hc.
Qed.

Lemma logs_or b ls : wide b -> forall c, wide c -> fold_left add_log ls (Or b c) = Or b (fold_left add_log ls c).
Proof.
  intros Hb. induction ls as [|l ls IH]; intros c Hc; cbn [fold_left]; [reflexivity|]. unfold add_log at 2, Add at 2.
  rewrite sets_or by auto using positions_inside. rewrite adds_or by auto using wide_sets. apply IH, wide_adds, wide_sets, Hc.
Qed.

Lemma merged rs : Forall (fun r => r_bloom r = CreateBloom (r_logs r)) rs -> forall b, wide b ->
  fold_left (fun out r => Or out (r_bloom r)) rs b = fold_left (fun b r => fold_left add_log (r_logs r) b) rs b.
Proof.
  induction 1 as [|r rs Hr _ IH]; intros b Hb; cbn [fold_left]; [reflexivity|]. rewrite Hr. unfold CreateBloom.
  rewrite <- logs_or, or_zero by auto using wide_zero. apply IH, wide_logs, Hb.
Qed.

(** ** Membership only grows *)

Lemma mask_or x y m : m = Z.land x m -> m = Z.land (Z.lor x y) m.
Proof.
  intros H. apply Z.bits_inj'. intros n Hn. rewrite Z.land_spec, Z.lor_spec. rewrite H, Z.land_spec at 1.
  rewrite H, Z.land_spec. destruct (Z.testbit x n), (Z.testbit y n), (Z.testbit m n); reflexivity.
Qed.

Lemma mask_self x m : m = Z.land (Z.lor x m) m.
Proof. apply Z.bits_inj'. intros n Hn. rewrite Z.land_spec, Z.lor_spec. destruct (Z.testbit x n), (Z.testbit m n); reflexivity. Qed.

Lemma test_set b p q : wide b -> inside q -> test_at b p = true -> test_at (set_at b q) p = true.
Proof.
  unfold test_at. intros Hb Hq H. rewrite nth_set by assumption. destruct (decide _); [|exact H]. apply Z.eqb_eq in H. apply Z.eqb_eq, mask_or, H.
Qed.

Lemma test_set_self b p : wide b -> inside p -> test_at (set_at b p) p = true.
Proof. unfold test_at. intros Hb Hp. rewrite nth_set, decide_True by auto. apply Z.eqb_eq, mask_self. Qed.

Lemma test_sets ps p : Forall inside ps -> forall b, wide b -> test_at b p = true \/ p ∈ ps -> test_at (fold_left set_at ps b) p = true.
Proof.
  induction 1 as [|q ps Hq _ IH]; intros b Hb H; cbn [fold_left]; [destruct H as [H|H]; [exact H | inversion H]|]. apply IH; [apply wide_set, Hb|].
  destruct H as [H|H]; [left; apply test_set; assumption|]. apply elem_of_cons in H as [->|H]; [left; apply test_set_self; assumption | right; exact H].
Qed.

Lemma Test_Add b d e : wide b -> Test b d = true \/ d = e -> Test (Add b e) d = true.
Proof.
  intros Hb H. unfold Test in *. apply forallb_forall. intros p Hp. apply test_sets; [apply positions_inside | exact Hb|].
  destruct H as [H| ->]; [left; apply (proj1 (forallb_forall _ _) H p Hp) | right; apply list_elem_of_In, Hp].
Qed.

Lemma Test_adds ds d : forall b, wide b -> Test b d = true \/ d ∈ ds -> Test (fold_left Add ds b) d = true.
Proof.
  induction ds as [|e ds IH]; intros b Hb H; cbn [fold_left]; [destruct H as [H|H]; [exact H | inversion H]|]. apply IH; [apply wide_sets, Hb|].
  destruct H as [H|H]; [left; apply Test_Add; auto|]. apply elem_of_cons in H as [->|H]; [left; apply Test_Add; auto | right; exact H].
Qed.

(** What a filter of logs covers. *)
Definition logged (d : bytes) (l : SDB.Log) : Prop := d = SDB.l_address l \/ d ∈ SDB.l_topics l.

Lemma Test_logs ls d : forall b, wide b -> Test b d = true \/ Exists (logged d) ls -> Test (fold_left add_log ls b) d = true.
Proof.
  induction ls as [|l ls IH]; intros b Hb H; cbn [fold_left]; [destruct H as [H|H]; [exact H | inversion H]|]. apply IH; [apply wide_adds, wide_sets, Hb|].
  rewrite Exists_cons in H. destruct H as [H|[H|H]]; [left | left | right; exact H]; (apply Test_adds; [apply wide_sets, Hb|]).
  - left. apply Test_Add; auto.
  - destruct H as [->|H]; [left; apply Test_Add; auto | right; exact H].
Qed.

(** A block's filter never misses a log.  The filter a header carries, the
    union of the filters of its receipts, is the filter of all their logs, and
    looking up the address or a topic of any log of any receipt succeeds: a
    reader who skips the block on a negative answer skips nothing. *)
Theorem bloom_complete rs r l d : Forall (fun r => r_bloom r = CreateBloom (r_logs r)) rs -> r ∈ rs -> l ∈ r_logs r -> logged d l ->
  ReceiptsBloom rs = CreateBloomFromReceipts rs /\ BloomLookup (ReceiptsBloom rs) d = true.
Proof.
  intros Hrs Hr Hl Hd. unfold ReceiptsBloom, CreateBloomFromReceipts, BloomLookup. rewrite (merged rs Hrs zero_bloom wide_zero). split; [reflexivity|].
  assert (forall rs b, wide b -> Test b d = true \/ r ∈ rs -> Test (fold_left (fun b r => fold_left add_log (r_logs r) b) rs b) d = true) as H; [|apply H; auto using wide_zero].
  clear Hrs Hr. induction rs0 as [|r0 rs0 IH]; intros b Hb H; cbn [fold_left]; [destruct H as [H|H]; [exact H | inversion H]|].
  apply IH; [apply wide_logs, Hb|]. destruct H as [H|H]; [left; apply Test_logs; auto|].
  apply elem_of_cons in H as [<-|H]; [|right; exact H]. left. apply Test_logs; [exact Hb|]. right. apply Exists_exists. eauto.
Qed.

End Filters.
(** ** Witness *)

#[local] Existing Instance keccak256.

Definition a_log : SDB.Log := SDB.mkLog [1] [[2]; [3]] [] 0 [] [] 0 0.

Lemma bloom_complete_witness : BloomLookup (ReceiptsBloom [NewReceipt 0 1 5 []; NewReceipt 2 1 9 [a_log]]) [3] = true /\
  BloomLookup (ReceiptsBloom [NewReceipt 0 1 5 []; NewReceipt 2 1 9 [a_log]]) [77] = false.
Proof.
  split; [|vm_compute; reflexivity].
  apply (bloom_complete [NewReceipt 0 1 5 []; NewReceipt 2 1 9 [a_log]] (NewReceipt 2 1 9 [a_log]) a_log [3]).
  - repeat constructor.
  - apply list_elem_of_further, list_elem_of_here.
  - apply list_elem_of_here.
  - right. apply list_elem_of_further, list_elem_of_here.
Defined.

End BloomFacts.

(** * Encodings *)

Module BlockFacts.
Import Rlp Tx Bloom BloomFacts Rcpt Blk.

Section Codec.
Context `{K : Keccak} `{C : NativeCrypto}.

(** A header as a block carries it. *)
Definition header_ok (h : Header) : Prop :=
  length (h_parentHash h) = 32%nat /\ length (h_coinbase h) = 20%nat /\ length (h_stateRoot h) = 32%nat /\ length (h_txRoot h) = 32%nat /\
  length (h_receiptRoot h) = 32%nat /\ wide (h_bloom h) /\ (exists n, h_number h = Some n /\ 0 <= n) /\ u64_ok (h_gasLimit h) /\ u64_ok (h_gasUsed h) /\
  u64_ok (h_time h) /\ (exists b, h_baseFee h = Some b /\ 0 <= b) /\ u64_ok (h_round h).

Lemma canon_array b n : length b = n -> canon (VBytes b) (TArray n (TUint 8)).
Proof. intros H. split; [reflexivity | exact H]. Qed.

Lemma canon_opt v : (exists n, v = Some n /\ 0 <= n) -> canon (opt_big v) big_type.
Proof. intros (n & -> & H). apply canon_big, H. Qed.

Ltac plain := right; split; [apply plain_field; first [apply canon_array; assumption | apply canon_opt; assumption | apply canon_uint; assumption | apply canon_bytes]|].

Lemma canon_header h : header_ok h -> canon (header_value h) header_type.
Proof. intros (H1 & H2 & H3 & H4 & H5 & H6 & H7 & H8 & H9 & H10 & H11 & H12). do 16 plain. exact I. Qed.

Lemma encode_opt v : (exists n, v = Some n /\ 0 <= n) -> exists e, encodeValue (opt_big v) big_type = Ok e.
Proof. intros (n & -> & H). eexists. apply encode_big, H. Qed.

Lemma encode_header h : header_ok h -> exists p, encodeValue (header_value h) header_type = Ok (write_list p).
Proof.
  intros (_ & _ & _ & _ & _ & _ & H7 & _ & _ & _ & H11 & _). destruct (encode_opt _ H7) as [n En]. destruct (encode_opt _ H11) as [b Eb].
  unfold header_value, header_type. cbn [encodeValue]. cbn -[encodeValue writeBytes putUint big_type bytes_type bytes_value opt_big].
  rewrite En, Eb, !encode_bytes. cbn -[writeBytes putUint]. eexists. reflexivity.
Qed.

Lemma header_of_value h : header_of (VPtr (header_value h)) = Some h.
Proof.
  destruct h as [a b c d e f n g u t x bf r rr j s]. unfold header_of, header_value. cbn -[bytes_value opt_big as_opt_big]. rewrite !as_bytes_value.
  destruct n, bf; reflexivity.
Qed.

(** ** The seal *)

(** The sealed list, as a struct. *)
Definition sealed_type : GoType := TStruct
  [mkField "ParentHash" true "" hash_type; mkField "Coinbase" true "" address_type; mkField "StateRoot" true "" hash_type;
   mkField "TxRoot" true "" hash_type; mkField "ReceiptRoot" true "" hash_type; mkField "Bloom" true "" bloom_type;
   mkField "Number" true "" big_type; mkField "GasLimit" true "" (TUint 64); mkField "GasUsed" true "" (TUint 64);
   mkField "Time" true "" (TUint 64); mkField "Extra" true "" bytes_type; mkField "BaseFee" true "" big_type;
   mkField "Round" true "" (TUint 64); mkField "RandaoReveal" true "" bytes_type; mkField "Justification" true "" bytes_type].

Definition sealed_value (h : Header) : GoVal := VStruct (firstn 15 (as_list (header_value h))).

Lemma sealed_encoded h : Encode (VSeq (sealed_items h)) (TSlice TInterface) = encodeValue (sealed_value h) sealed_type.
Proof.
  unfold Encode, sealed_items, sealed_value, header_value, sealed_type. cbn [as_list firstn encodeValue].
  cbn -[encodeValue writeBytes putUint big_type bytes_type bytes_value opt_big]. rewrite !encode_iface, !encode_bytes. reflexivity.
Qed.

Lemma canon_sealed h : header_ok h -> canon (sealed_value h) sealed_type.
Proof. intros (H1 & H2 & H3 & H4 & H5 & H6 & H7 & H8 & H9 & H10 & H11 & H12). do 15 plain. exact I. Qed.

Lemma encode_sealed h : header_ok h -> exists p, encodeValue (sealed_value h) sealed_type = Ok (write_list p).
Proof.
  intros (_ & _ & _ & _ & _ & _ & H7 & _ & _ & _ & H11 & _). destruct (encode_opt _ H7) as [n En]. destruct (encode_opt _ H11) as [b Eb].
  unfold sealed_value, header_value, sealed_type. cbn [as_list firstn encodeValue]. cbn -[encodeValue writeBytes putUint big_type bytes_type bytes_value opt_big].
  rewrite En, Eb, !encode_bytes. cbn -[writeBytes putUint]. eexists. reflexivity.
Qed.

Lemma sealed_inj h h' : sealed_value h = sealed_value h' -> with_seal h [] = with_seal h' [].
Proof.
  destruct h as [a b c d e f n g u t x bf r rr j s], h' as [a' b' c' d' e' f' n' g' u' t' x' bf' r' rr' j' s'].
  unfold sealed_value, header_value, with_seal. cbn [as_list firstn h_parentHash h_coinbase h_stateRoot h_txRoot h_receiptRoot h_bloom h_number h_gasLimit h_gasUsed h_time h_extra
    h_baseFee h_round h_randaoReveal h_justification h_seal].
  intros [= -> -> -> -> -> -> En -> -> -> Ex Eb -> Er Ej]. apply bytes_value_inj in Ex, Er, Ej. subst.
  assert (forall v w, opt_big v = opt_big w -> v = w) as Ho by (intros [v|] [w|] E; try discriminate; [injection E as ->|]; reflexivity). apply Ho in En, Eb. subst. reflexivity.
Qed.

(** ** Encodings are bytes *)

Fixpoint clean (v : GoVal) : Prop :=
  match v with
  | VBytes b => bytes_ok b
  | VPtr x | VIface _ x => clean x
  | VSeq vs | VStruct vs => (fix all l := match l with [] => True | x :: r => clean x /\ all r end) vs
  | _ => True
  end.

Lemma putUint_bytes u : bytes_ok (putUint u).
Proof.
  unfold putUint. destruct (u =? 0); [constructor|]. assert (forall f v tmp, bytes_ok tmp -> bytes_ok (putUint_loop f v tmp)) as H; [|apply H; constructor].
  induction f as [|f IH]; intros v tmp Ht; cbn [putUint_loop]; [exact Ht|]. destruct (0 <? v); [|exact Ht]. apply IH. constructor; [apply wrap8_ok | exact Ht].
Qed.

Lemma header_bytes L off : bytes_ok (writeHeader L off).
Proof. unfold writeHeader. destruct (L <? 56); (constructor; [apply wrap8_ok|]); [constructor | apply putUint_bytes]. Qed.

Lemma writeBytes_bytes b : bytes_ok b -> bytes_ok (writeBytes b).
Proof. intros H. destruct (writeBytes_cases b) as [(c & -> & _ & ->)|[-> _]]; [exact H | apply Forall_app; split; [apply header_bytes | exact H]]. Qed.

Lemma write_list_bytes p : bytes_ok p -> bytes_ok (write_list p).
Proof. intros H. apply Forall_app. split; [apply header_bytes | exact H]. Qed.

Lemma sequence_bytes l : Forall (fun r => forall e : bytes, r = Ok e -> bytes_ok e) l -> forall e, sequence l = Ok e -> bytes_ok e.
Proof.
  induction 1 as [|r l Hr _ IH]; intros e; cbn [sequence]; [intros [= <-]; constructor|]. destruct r as [b|]; cbn [rbind]; [|discriminate].
  destruct (sequence l) as [b'|]; cbn [rbind]; [|discriminate]. intros [= <-]. apply Forall_app. split; [apply Hr | apply IH]; reflexivity.
Qed.

Lemma drop_trailing_all (P : result error bytes -> Prop) l : Forall (fun x => P (snd x)) l -> Forall P (drop_trailing l).
Proof.
  induction 1 as [|[z e] l He _ IH]; cbn [drop_trailing]; [constructor|]. destruct (drop_trailing l); [|constructor; assumption].
  destruct z; [constructor | constructor; [exact He | constructor]].
Qed.

Lemma clean_all vs : (fix all l := match l with [] => True | x :: r => clean x /\ all r end) vs <-> Forall clean vs.
Proof. induction vs as [|x vs IH]; [split; constructor|]. rewrite Forall_cons, <- IH. reflexivity. Qed.

Lemma fields_bytes vs : Forall (fun v => clean v -> forall t e, encodeValue v t = Ok e -> bytes_ok e) vs -> Forall clean vs -> forall fs infos,
  Forall (fun x => forall e : bytes, snd x = Ok e -> bytes_ok e) (encode_fields (fun x t => encodeValue x t) vs fs infos).
Proof.
  induction 1 as [|x vs Hx _ IH]; intros Hc [|f fs] [|[i|] infs]; cbn [encode_fields]; try constructor; inversion Hc; subst; auto.
  intros e. apply Hx. assumption.
Qed.

Lemma encode_clean v : clean v -> forall t e, encodeValue v t = Ok e -> bytes_ok e.
Proof.
  induction v as [|b|b|u|i|v IH|t' v IH|vs IH|vs IH] using GoVal_nested_ind; intros Hc t e; destruct t; cbn [encodeValue]; try discriminate;
    repeat match goal with |- context[if ?x then _ else _] => destruct x end; try discriminate; try (intros [= <-]);
    try (repeat constructor; unfold byte_ok, EmptyString, EmptyList; lia); try (apply writeBytes_bytes; first [exact Hc | constructor | apply putUint_bytes | apply big_bytes_ok]);
    try (apply write_list_bytes; constructor); try exact Hc; try (apply IH; exact Hc).
  all: try (constructor; [apply wrap8_ok || (unfold byte_ok, EmptyString, EmptyList; lia) | constructor]).
  all: apply clean_all in Hc.
  1,2: destruct (sequence _) as [inner|] eqn:E; cbn [rbind]; [|discriminate]; intros [= <-]; apply write_list_bytes; revert E;
    apply sequence_bytes, Forall_map, Forall_forall; intros x Hx e; rewrite Forall_forall in IH, Hc; apply (IH x Hx (Hc x Hx)).
  destruct (structFields fields) as [infos|]; cbn [rbind]; [|discriminate]. destruct (sequence _) as [inner|] eqn:E; cbn [rbind]; [|discriminate].
  intros [= <-]. apply write_list_bytes. revert E. apply sequence_bytes. apply (drop_trailing_all (fun r => forall e : bytes, r = Ok e -> bytes_ok e)), fields_bytes; assumption.
Qed.

Lemma clean_bytes b : bytes_ok b -> clean (bytes_value b).
Proof. destruct b; [constructor | auto]. Qed.

Lemma clean_to a : to_ok a -> clean (to_value a).
Proof. destruct a; [intros H; apply H | constructor]. Qed.

Lemma clean_access al : Forall tuple_ok al -> clean (access_value al).
Proof.
  intros H. unfold access_value. cbn [clean]. apply clean_all. rewrite Forall_map. apply (Forall_impl _ _ _ H). intros [a ks] [Ha Hk]. cbn [tuple_value clean fst snd] in *.
  split; [apply Ha|]. split; [|exact I]. apply clean_all. rewrite Forall_map. apply (Forall_impl _ _ _ Hk). intros k Hk'. apply Hk'.
Qed.

Lemma marshal_bytes i b : payload_ok i -> MarshalBinary i = Ok b -> bytes_ok b.
Proof.
  destruct i as [t|t]; unfold MarshalBinary, Encode.
  - intros (_ & _ & _ & Ht & _ & Hd & _). apply (encode_clean (VPtr (legacy_value t))). unfold legacy_value, big_value. cbn [clean]. pose proof (clean_to _ Ht). pose proof (clean_bytes _ Hd). tauto.
  - intros (_ & _ & _ & _ & _ & Ht & _ & Hd & Ha & _). destruct (encodeValue _ _) as [p|] eqn:E; cbn [rbind]; [|discriminate]. intros [= <-].
    constructor; [unfold byte_ok, DynamicTxType; lia|]. revert E. apply (encode_clean (VPtr (dynamic_value t))). unfold dynamic_value, big_value. cbn [clean].
    pose proof (clean_to _ Ht). pose proof (clean_bytes _ Hd). pose proof (clean_access _ Ha). tauto.
Qed.

(** ** The list of transactions *)

(** Transactions that can be items of a trie. *)
Definition item_ok (i : TxData) : Prop := payload_ok i /\ exists b, MarshalBinary i = Ok b /\ len b <= Tree.max_item.

Lemma item_val i b : item_ok i -> MarshalBinary i = Ok b -> Tree.val_ok b /\ UnmarshalBinary b = Ok i.
Proof.
  intros (Hi & b' & E & Hl) Eb. rewrite E in Eb. injection Eb as <-. assert (fits b') as Hf by (unfold fits, max_int64; unfold Tree.max_item in Hl; lia).
  pose proof (unmarshal_marshal i b' Hi E Hf) as Hu. split; [|exact Hu]. split; [intros ->; discriminate|]. split; [apply (marshal_bytes i b' Hi E) | exact Hl].
Qed.

Lemma encodings is_ : Forall item_ok is_ -> exists encs, EncodeForRoot is_ = Some encs /\ Forall Tree.val_ok encs /\ length encs = length is_ /\ mapM (fun b => match UnmarshalBinary b with Ok i => Some i | Err _ => None end) encs = Some is_.
Proof.
  induction 1 as [|i l Hi _ (encs & E & Hv & Hl & Hm)]; [exists []; repeat split; constructor|]. pose proof Hi as (_ & b & Eb & _). destruct (item_val i b Hi Eb) as [Hb Hu].
  exists (b :: encs). cbn [EncodeForRoot]. rewrite Eb, E. cbn. rewrite Hu, Hm. split; [reflexivity|]. split; [constructor; assumption|]. split; [congruence | reflexivity].
Qed.

(** What is hashed for the root of a list: the encodings of the nodes of its
    trie, and the encoding of the empty string, which stands for no items. *)
Definition node_of (items : list bytes) (m : bytes) : Prop :=
  exists u a, Root.list_tree items u /\ Ops.sub a u /\ Enc.is_branch a /\ m = Enc.tenc a.
Definition body_message (l : list TxData) (m : bytes) : Prop :=
  m = [128] \/ exists items, EncodeForRoot l = Some items /\ node_of items m.

(** What is hashed for a block: its header and its transactions. *)
Definition block_message (b : Block) (m : bytes) : Prop :=
  header_message (b_header b) = Some m \/ body_message (payloads b) m.

(** A message of the one and a different message of the other with one hash. *)
Definition clash (P Q : bytes -> Prop) : Prop := exists m m', P m /\ Q m' /\ m <> m' /\ Keccak256 [m] = Keccak256 [m'].

Lemma clash_mono (P P' Q Q' : bytes -> Prop) : (forall m, P m -> P' m) -> (forall m, Q m -> Q' m) -> clash P Q -> clash P' Q'.
Proof. intros HP HQ (m & m' & Hm & Hm' & H). exists m, m'. auto. Qed.

Lemma clash_sym P Q : clash P Q -> clash Q P.
Proof. intros (m & m' & Hm & Hm' & Hne & E). exists m', m. auto. Qed.

Lemma node_body l items m : EncodeForRoot l = Some items -> node_of items m -> body_message l m.
Proof. intros E H. right. exists items. auto. Qed.

Lemma trie_clash items items' u u' : Root.list_tree items u -> Root.list_tree items' u' -> Root.clash u u' -> clash (node_of items) (node_of items').
Proof.
  intros Ht Ht' (a & b & Ha & Hb & Ba & Bb & Hne & Hh). exists (Enc.tenc a), (Enc.tenc b).
  split; [exists u, a; auto|]. split; [exists u', b; auto|]. split; [exact Hne | exact Hh].
Qed.

(** The root of a non-empty list is not that of the empty one. *)
Lemma write_list_not_empty_string p : write_list p <> [128].
Proof.
  unfold write_list, writeListHeader, writeHeader. intros E. pose proof (f_equal len E) as El. rewrite len_app in El. change (len [128]) with 1 in El. pose proof (len_nonneg p).
  destruct (Z.ltb_spec (len p) 56); [|rewrite len_cons in El; pose proof (len_nonneg (putUint (len p))); lia].
  change (len [_]) with 1 in El. destruct p as [|c p]; [discriminate|]. rewrite len_cons in El. pose proof (len_nonneg p). lia.
Qed.

Lemma root_not_empty items : items <> [] -> Forall Tree.val_ok items -> len items <= two64 -> Mpt.DeriveRoot items = Some Mpt.EmptyRoot ->
  clash (eq [128]) (node_of items).
Proof.
  intros Hne Hv Hl E. destruct (Root.derive_tree items Hv Hl) as (t & u & E' & Hd & Ht & Hm). rewrite E in E'. injection E' as Er.
  rewrite (Root.hash_tree _ _ _ Ht) in Er. assert (u <> Tree.TNil) as Hu.
  { intros ->. destruct items as [|x items]; [contradiction|]. destruct (Root.index_key_ok 0) as [[Hk _] _]; [unfold two64; lia|].
    pose proof (Root.contents_get _ _ _ Hm Hk) as Hg. rewrite Root.indexed_lookup in Hg by (lia || (unfold two64; lia)). rewrite len_cons in Hg. pose proof (len_nonneg items).
    rewrite (proj2 (Z.ltb_lt 0 (0 + (1 + len items)))) in Hg by lia. discriminate. }
  exists [128], (Enc.tenc u). destruct (proj2 Ht) as [->|Hc]; [contradiction|]. rewrite (Root.troot_canon _ _ Hc) in Er.
  pose proof (Enc.canon_branch _ _ Hc) as Hbr. split; [reflexivity|]. split; [exists u, u; split; [exists t; auto | split; [constructor | auto]]|].
  split; [|exact Er]. intros Eu. clear - Eu Hbr. destruct u as [|v|k c|ts]; [contradiction | contradiction | |].
  - rewrite Enc.tenc_short, EncodeList_write in Eu. symmetry in Eu. exact (write_list_not_empty_string _ Eu).
  - rewrite Enc.tenc_full, EncodeList_write in Eu. symmetry in Eu. exact (write_list_not_empty_string _ Eu).
Qed.

(** Lists of transactions with one root. *)
Lemma root_binds l l' r : Forall item_ok l -> Forall item_ok l' -> len l <= two64 -> len l' <= two64 ->
  list_root (EncodeForRoot l) (is_empty l) = Some r -> list_root (EncodeForRoot l') (is_empty l') = Some r ->
  l = l' \/ clash (body_message l) (body_message l').
Proof.
  intros Hl Hl' Hn Hn'. destruct (encodings l Hl) as (e & He & Hv & Hle & Hm). destruct (encodings l' Hl') as (e' & He' & Hv' & Hle' & Hm').
  assert (len e <= two64 /\ len e' <= two64) as [Hb Hb'] by (unfold len in *; rewrite Hle, Hle'; auto).
  pose proof (fun m => node_body l e m He) as Hbody. pose proof (fun m => node_body l' e' m He') as Hbody'.
  assert (forall k, forall m, [128] = m -> body_message k m) as Hempty by (intros k m <-; left; reflexivity).
  assert (l <> [] -> e <> []) as Hz by (destruct l, e; [contradiction | contradiction | discriminate Hle | discriminate]).
  assert (l' <> [] -> e' <> []) as Hz' by (destruct l', e'; [contradiction | contradiction | discriminate Hle' | discriminate]).
  rewrite He, He'. destruct (decide (l = [])) as [El|El], (decide (l' = [])) as [El'|El'].
  - left. congruence.
  - subst l. intros [= <-] E'. right. eapply clash_mono; [apply Hempty | exact Hbody' | apply (root_not_empty e'); auto]. destruct l'; [contradiction | exact E'].
  - subst l'. intros E [= <-]. right. apply clash_sym. eapply clash_mono; [apply Hempty | exact Hbody | apply (root_not_empty e); auto]. destruct l; [contradiction | exact E].
  - destruct l as [|x l]; [contradiction|]. destruct l' as [|x' l']; [contradiction|]. cbn [is_empty list_root]. intros E E'.
    destruct (decide (r = Mpt.EmptyRoot)) as [->|Hne].
    { right. apply clash_sym. eapply clash_mono; [apply Hempty | exact Hbody | apply (root_not_empty e); auto]. }
    destruct (Root.derive_tree e Hv Hb) as (t & u & Et & Hd & Ht & Hc). destruct (Root.derive_tree e' Hv' Hb') as (t' & u' & Et' & Hd' & Ht' & Hc').
    change (Mpt.DeriveRoot e = Some r) in E. change (Mpt.DeriveRoot e' = Some r) in E'. rewrite E in Et. rewrite E' in Et'. injection Et as Er. injection Et' as Er'.
    destruct (Root.tree_binding _ _ _ _ _ _ _ _ Ht Hc Ht' Hc') as [Hs|Hcl]; [congruence | congruence | left | right].
    + apply Root.indexed_inj in Hs; [|assumption..]. subst e'. congruence.
    + eapply clash_mono; [exact Hbody | exact Hbody' | apply (trie_clash e e' u u'); [exists t; auto | exists t'; auto | exact Hcl]].
Qed.

(** A block whose body matches its header. *)
Definition block_ok (b : Block) : Prop :=
  header_ok (b_header b) /\ Forall item_ok (payloads b) /\ len (payloads b) <= two64 /\
  list_root (EncodeForRoot (payloads b)) (is_empty (payloads b)) = Some (h_txRoot (b_header b)).

Lemma must_ok {E A} (r : result E A) a : match r with Ok e => Some e | Err _ => None end = Some a -> r = Ok a.
Proof. destruct r; congruence. Qed.

Lemma header_encoded h m : header_message h = Some m -> encodeValue (header_value h) header_type = Ok m.
Proof. exact (must_ok (encodeValue (header_value h) header_type) m). Qed.

Lemma header_value_inj h h' : header_value h = header_value h' -> h = h'.
Proof. intros E. pose proof (header_of_value h) as H. rewrite E, header_of_value in H. congruence. Qed.

(** C18: a block's hash binds everything in it.  Two blocks that were checked
    against their transaction roots and have the same hash have the same header,
    seal included, and the same transactions in the same order, unless the hash
    function collides on what these two blocks hash: their headers' encodings, the
    nodes of the tries of their transactions, and the empty string that stands for
    no transactions. *)
Theorem block_hash_binds b b' m m' : block_ok b -> block_ok b' -> header_message (b_header b) = Some m -> header_message (b_header b') = Some m' ->
  fits m -> fits m' -> HeaderHash (b_header b) = HeaderHash (b_header b') ->
  (b_header b = b_header b' /\ payloads b = payloads b') \/ clash (block_message b) (block_message b').
Proof.
  intros (Hh & Hi & Hl & Hr) (Hh' & Hi' & Hl' & Hr') Em Em' Hf Hf'. unfold HeaderHash. rewrite Em, Em'. intros [= Eh].
  destruct (decide (m = m')) as [<-|Hne]; [|right; exists m, m'; unfold block_message; auto].
  pose proof (encode_inj _ _ _ _ (canon_header _ Hh) (canon_header _ Hh') (header_encoded _ _ Em) (header_encoded _ _ Em') Hf) as Ev.
  apply header_value_inj in Ev. rewrite <- Ev in Hr'. destruct (root_binds _ _ _ Hi Hi' Hl Hl' Hr Hr') as [Ep|Hc]; auto.
  right. eapply clash_mono; [| |exact Hc]; unfold block_message; auto.
Qed.

(** A proposer's seal binds the whole header.  Two headers with the same
    sealing hash agree in every field but the seal itself, unless the two
    messages that are hashed collide; setting the seal does not change the hash
    that is signed. *)
Theorem seal_binds_header h h' m m' s : header_ok h -> header_ok h' -> sealing_message h = Some m -> sealing_message h' = Some m' -> fits m ->
  SealingHash h = SealingHash h' ->
  (with_seal h [] = with_seal h' [] \/ m <> m' /\ Keccak256 [m] = Keccak256 [m']) /\ SealingHash (with_seal h s) = SealingHash h.
Proof.
  intros Hh Hh' Em Em' Hf. split; [|reflexivity]. revert H. unfold SealingHash. rewrite Em, Em'. intros [= Eh]. destruct (decide (m = m')) as [<-|Hne]; [left | right; auto].
  apply sealed_inj, (encode_inj _ _ sealed_type m (canon_sealed _ Hh) (canon_sealed _ Hh')); [| |exact Hf]; rewrite <- sealed_encoded; unfold sealing_message in *.
  - exact (must_ok _ _ Em).
  - exact (must_ok _ _ Em').
Qed.

(** ** Reading a block back *)

Lemma item_encoded i : item_ok i -> exists e, EncodeRLP i = Ok e /\ e <> [].
Proof.
  intros Hi. pose proof Hi as (_ & b & E & _). destruct (item_val i b Hi E) as [(Hne & _) _]. unfold EncodeRLP. rewrite E. cbn [rbind].
  destruct (_ =? _); eexists; (split; [reflexivity|]); [exact Hne | apply writeBytes_nonempty].
Qed.

Lemma items_encoded l : Forall item_ok l -> exists p, sequence (map EncodeRLP l) = Ok p.
Proof. intros H. apply sequence_ok. rewrite Forall_map. apply (Forall_impl _ _ _ H). intros i Hi. destruct (item_encoded i Hi) as (e & E & _). eauto. Qed.

Lemma items_decoded l : Forall item_ok l -> forall p fuel, sequence (map EncodeRLP l) = Ok p -> fits p -> (length p <= fuel)%nat -> decode_txs fuel p = Ok l.
Proof.
  induction 1 as [|i l Hi _ IH]; intros p fuel; cbn [map sequence]; [intros [= <-] _ _; destruct fuel; reflexivity|].
  destruct (item_encoded i Hi) as (e & E & Hne). rewrite E. cbn [rbind]. destruct (sequence _) as [p'|]; cbn [rbind]; [|discriminate]. intros [= <-] Hf Hle.
  rewrite length_app in Hle. destruct e as [|c e]; [contradiction|]. destruct fuel as [|fuel]; [cbn in Hle; lia|]. cbn [decode_txs].
  rewrite (decode_encode_rlp i (c :: e) p' (proj1 Hi) E Hf). cbn [rbind]. destruct (fits_app _ _ Hf) as [_ Hf']. rewrite (IH p' fuel eq_refl Hf'); [reflexivity | cbn in Hle; lia].
Qed.

Lemma nonempty_item (e r : bytes) : e <> [] -> Empty (e ++ r) = false.
Proof. destruct e as [|c e]; [contradiction|]. intros _. unfold Empty. rewrite len_app, len_cons. pose proof (len_nonneg e). pose proof (len_nonneg r). apply Z.eqb_neq. lia. Qed.

Lemma body_decoded h p l q : header_ok h -> encodeValue (header_value h) header_type = Ok (write_list p) -> Forall item_ok l -> sequence (map EncodeRLP l) = Ok q ->
  fits (write_list (write_list p ++ write_list q)) -> decode_body (write_list (write_list p ++ write_list q)) = Ok (VPtr (header_value h), l).
Proof.
  intros Hh Eh Hl Eq Hf. unfold decode_body. rewrite <- (app_nil_r (write_list (_ ++ _))) at 1. rewrite <- (app_nil_r (write_list (_ ++ _))) in Hf.
  rewrite (list_write_list _ _ Hf). cbn [codec rbind]. rewrite (nonempty_item _ _ (write_list_nonempty p)). rewrite app_nil_r in Hf.
  destruct (fits_app _ _ Hf) as [_ Hi]. destruct (value_round _ _ _ (write_list q) (canon_header h Hh) Eh Hi) as [Hd _].
  assert (decodeValue (TPtr header_type) (write_list p ++ write_list q) = Ok (VPtr (header_value h), write_list q)) as ->.
  { change (decodeValue (TPtr header_type) ?s) with (let! (x, r) := decodeValue header_type s in Ok (VPtr x, r)). rewrite Hd. reflexivity. }
  cbn [codec rbind]. destruct (fits_app _ _ Hi) as [_ Hq]. rewrite <- (app_nil_r (write_list q)) in Hq |- *. rewrite (nonempty_item _ _ (write_list_nonempty q)), (list_write_list _ _ Hq).
  cbn [codec rbind]. rewrite app_nil_r in Hq. rewrite (items_decoded l Hl q (length q) Eq (proj2 (fits_app _ _ Hq)) (le_n _)). reflexivity.
Qed.

(** Blocks are read back.  A block whose body matches its header has an
    encoding, and decoding it gives the same header and the same transactions
    and accepts the body. *)
Theorem block_roundtrip b : block_ok b -> exists e, MarshalBlock b = Ok e /\
  (fits e -> UnmarshalBlock e = Ok (mkBlock (b_header b) (map NewTx (payloads b)) None 0)).
Proof.
  intros (Hh & Hi & _ & Hr). destruct (encode_header _ Hh) as [p Ep]. destruct (items_encoded _ Hi) as [q Eq]. unfold MarshalBlock.
  change (encodeValue (VPtr (header_value (b_header b))) (TPtr header_type)) with (encodeValue (header_value (b_header b)) header_type).
  rewrite Ep, Eq. cbn [rbind]. eexists. split; [reflexivity|]. intros Hf. unfold UnmarshalBlock. rewrite (body_decoded _ _ _ _ Hh Ep Hi Eq Hf), header_of_value.
  destruct Hh as (_ & _ & _ & _ & _ & _ & (n & Hn & _) & _ & _ & _ & (f & Hbf & _) & _). cbv zeta. rewrite Hn, Hbf. cbn [default from_option id].
  assert (with_number (b_header b) (Some n) (Some f) = b_header b) as -> by (rewrite <- Hn, <- Hbf; destruct (b_header b); reflexivity).
  rewrite Hr, bool_decide_eq_true_2 by reflexivity. reflexivity.
Qed.

(** Whatever bytes are decoded, an accepted block carries the transactions its header's root was
    derived from. *)
Lemma decoded_body data b : UnmarshalBlock data = Ok b ->
  list_root (EncodeForRoot (payloads b)) (is_empty (payloads b)) = Some (h_txRoot (b_header b)).
Proof.
  unfold UnmarshalBlock. destruct (decode_body data) as [[v txs]|]; [|discriminate]. destruct (header_of v) as [h|]; [|discriminate]. cbv zeta.
  destruct (list_root _ _) as [want|] eqn:E; [|discriminate]. case_bool_decide as Hw; [|discriminate]. intros [= <-]. cbn [b_header]. unfold payloads. cbn [b_txs].
  rewrite map_map. cbn [inner NewTx]. rewrite map_id, E. f_equal. exact Hw.
Qed.

Lemma assembled_body h txs rs b : NewBlock h txs rs = Some b ->
  list_root (EncodeForRoot (payloads b)) (is_empty (payloads b)) = Some (h_txRoot (b_header b)).
Proof.
  unfold NewBlock. destruct (list_root (EncodeForRoot _) _) as [r|] eqn:E; cbn [obind]; [|discriminate]. destruct (list_root _ (is_empty rs)); cbn [obind]; [|discriminate].
  intros [= <-]. unfold payloads. cbn [b_header b_txs h_txRoot with_roots]. rewrite <- E. destruct txs; reflexivity.
Qed.

(** ** Receipts *)

(** The part of a receipt that consensus covers. *)
Definition log_core (l : SDB.Log) : SDB.Log := SDB.mkLog (SDB.l_address l) (SDB.l_topics l) (SDB.l_data l) 0 ZeroHash ZeroHash 0 0.
Definition receipt_core (r : Receipt) : Receipt :=
  mkReceipt (r_type r) (r_status r) (r_cumulative r) (r_bloom r) (map log_core (r_logs r)) ZeroHash ZeroAddress 0 None ZeroHash None 0.

Definition log_ok (l : SDB.Log) : Prop := length (SDB.l_address l) = 20%nat /\ Forall (fun h => length h = 32%nat) (SDB.l_topics l).
Definition receipt_ok (r : Receipt) : Prop :=
  0 <= r_type r < 192 /\ u64_ok (r_status r) /\ u64_ok (r_cumulative r) /\ wide (r_bloom r) /\ Forall log_ok (r_logs r).

Lemma canon_topics hs : Forall (fun h : Hash => length h = 32%nat) hs -> canon (VSeq (map VBytes hs)) (TSlice hash_type).
Proof. intros H. split; [reflexivity|]. induction H as [|h hs Hh _ IH]; [exact I | split; [apply canon_array, Hh | exact IH]]. Qed.

Lemma canon_log l : log_ok l -> canon (log_value (log_core l)) log_type.
Proof.
  intros [Ha Ht]. right. split; [apply plain_field, canon_array, Ha|]. right. split; [apply plain_field, canon_topics, Ht|].
  right. split; [apply plain_field, canon_bytes|]. repeat (split; [reflexivity|]). exact I.
Qed.

Definition logs_value (ls : list SDB.Log) : GoVal := VSeq (map (fun l => VPtr (log_value l)) ls).

Lemma canon_logs ls : Forall log_ok ls -> canon (logs_value (map log_core ls)) (TSlice (TPtr log_type)).
Proof. intros H. split; [reflexivity|]. induction H as [|l ls Hl _ IH]; [exact I | split; [apply canon_log, Hl | exact IH]]. Qed.

Lemma canon_receipt r : receipt_ok r -> canon (receipt_value (mkReceipt 0 (r_status r) (r_cumulative r) (r_bloom r) (map log_core (r_logs r)) ZeroHash ZeroAddress 0 None ZeroHash None 0)) receipt_type.
Proof.
  intros (_ & Hs & Hc & Hb & Hl). split; [reflexivity|]. right. split; [apply plain_field, canon_uint, Hs|]. right. split; [apply plain_field, canon_uint, Hc|].
  right. split; [apply plain_field, canon_array, Hb|]. right. split; [apply plain_field, canon_logs, Hl|]. repeat (split; [reflexivity|]). exact I.
Qed.

Definition bare (r : Receipt) : Receipt :=
  mkReceipt 0 (r_status r) (r_cumulative r) (r_bloom r) (map log_core (r_logs r)) ZeroHash ZeroAddress 0 None ZeroHash None 0.

Definition logs_type : GoType := TSlice (TPtr log_type).

Lemma encode_logs ls : exists p, encodeValue (logs_value ls) logs_type = Ok p /\ encodeValue (logs_value (map log_core ls)) logs_type = Ok p.
Proof.
  assert (forall l, exists e, encodeValue (VPtr (log_value l)) (TPtr log_type) = Ok e /\ encodeValue (VPtr (log_value (log_core l))) (TPtr log_type) = Ok e) as Hlog.
  { intros l. destruct (sequence_ok (map (fun x => encodeValue x hash_type) (map VBytes (SDB.l_topics l)))) as [e He].
    { rewrite Forall_map, Forall_map. apply Forall_true. intros h. eexists. reflexivity. }
    exists (write_list (writeBytes (SDB.l_address l) ++ write_list e ++ writeBytes (SDB.l_data l) ++ [])). unfold log_value, log_core.
    split; cbn [encodeValue]; cbn -[encodeValue writeBytes bytes_type bytes_value hash_type map]; cbn [encodeValue];
      change (is_uint8 hash_type) with false; cbv iota; rewrite He, encode_bytes; reflexivity. }
  assert (exists p, sequence (map (fun x => encodeValue x (TPtr log_type)) (map (fun l => VPtr (log_value l)) ls)) = Ok p /\
    sequence (map (fun x => encodeValue x (TPtr log_type)) (map (fun l => VPtr (log_value l)) (map log_core ls))) = Ok p) as (p & E1 & E2).
  { induction ls as [|l ls (p & E1 & E2)]; [exists []; split; reflexivity|]. destruct (Hlog l) as (e & L1 & L2). exists (e ++ p). cbn [map sequence]. rewrite L1, L2, E1, E2. split; reflexivity. }
  exists (write_list p). unfold logs_value, logs_type. cbn [encodeValue]. change (is_uint8 (TPtr log_type)) with false. cbv iota. rewrite E1, E2. split; reflexivity.
Qed.

Lemma encode_receipt r : exists p, encodeValue (receipt_value r) receipt_type = Ok (write_list p) /\ encodeValue (receipt_value (bare r)) receipt_type = Ok (write_list p).
Proof.
  destruct (encode_logs (r_logs r)) as (l & E1 & E2).
  exists (writeBytes (putUint (r_status r)) ++ writeBytes (putUint (r_cumulative r)) ++ writeBytes (r_bloom r) ++ l ++ []). unfold receipt_value, bare.
  split; cbn [encodeValue]; cbn -[encodeValue writeBytes putUint map log_type]; fold (logs_value (r_logs r)); fold (logs_value (map log_core (r_logs r))); fold logs_type; rewrite ?E1, ?E2; reflexivity.
Qed.

Lemma log_of_core l : log_of (VPtr (log_value (log_core l))) = log_core l.
Proof.
  unfold log_of, log_value, log_core. cbn -[bytes_value]. rewrite as_bytes_value, map_map, (map_ext _ id), map_id by reflexivity. reflexivity.
Qed.

Lemma receipt_of_bare ty r : receipt_of ty (receipt_value (bare r)) = mkReceipt ty (r_status r) (r_cumulative r) (r_bloom r) (map log_core (r_logs r)) ZeroHash ZeroAddress 0 None ZeroHash None 0.
Proof.
  unfold receipt_of, receipt_value, bare. cbn -[log_of log_value log_core map]. rewrite !map_map. f_equal. apply map_ext. intros l. apply log_of_core.
Qed.

(** Receipts are read back.  A receipt has an encoding, and decoding it gives
    the receipt without the fields that are derived from the block: type, status,
    running gas total, filter, and the address, topics and data of each log. *)
Theorem receipt_roundtrip r : receipt_ok r -> exists e, MarshalReceipt r = Ok e /\ (fits e -> UnmarshalReceipt e = Ok (receipt_core r)).
Proof.
  intros Hr. destruct (encode_receipt r) as (p & E & Eb). unfold MarshalReceipt.
  change (Encode (VPtr (receipt_value r)) (TPtr receipt_type)) with (encodeValue (receipt_value r) receipt_type). rewrite E. cbn [rbind].
  eexists. split; [reflexivity|]. intros Hf. assert (fits (write_list p)) as Hp.
  { destruct (_ =? _); [exact Hf|]. unfold fits in *. rewrite len_cons in Hf. lia. }
  pose proof (decode_value _ _ _ (canon_receipt r Hr) Eb Hp) as Hd. destruct (Z.eqb_spec (r_type r) LegacyTxType) as [Et|Et].
  - destruct (write_list_head p Hp) as (c & q & Ec & Hc). unfold UnmarshalReceipt. rewrite Ec, (proj2 (Z.leb_le _ _) Hc), <- Ec, Hd. cbn [codec rbind].
    f_equal. unfold receipt_core. rewrite Et. exact (receipt_of_bare LegacyTxType r).
  - unfold UnmarshalReceipt. destruct Hr as [Ht _]. rewrite (proj2 (Z.leb_gt _ _)) by lia. rewrite Hd. cbn [codec rbind]. f_equal. exact (receipt_of_bare (r_type r) r).
Qed.

End Codec.
(** ** Witnesses *)

#[local] Existing Instances Reg.toy_keccak Tx.one_key.

Definition sample_header : Header :=
  mkHeader ZeroHash ZeroAddress ZeroHash ZeroHash ZeroHash zero_bloom (Some 7) 30000000 21000 100 [1; 2] (Some 3) 0 [] [] [9].
Definition sample_block : Block := default (NewBlockWithHeader sample_header) (NewBlock sample_header [NewTx (sample_legacy 49)] []).

Lemma sample_item : item_ok (sample_legacy 49).
Proof. split; [apply sample_legacy_ok; lia|]. eexists. split; [vm_compute; reflexivity | vm_compute; discriminate]. Qed.

Ltac wellformed := unfold header_ok; split_and!; first
  [vm_compute; reflexivity | vm_compute; split; [discriminate | reflexivity] | vm_compute; eexists; split; [reflexivity | discriminate]].

Lemma sample_block_ok : block_ok sample_block.
Proof.
  split; [|split; [|split]].
  - wellformed.
  - assert (payloads sample_block = [sample_legacy 49]) as -> by (vm_compute; reflexivity). constructor; [apply sample_item | constructor].
  - vm_compute. discriminate.
  - vm_compute. reflexivity.
Qed.

Lemma block_roundtrip_witness : exists e, MarshalBlock sample_block = Ok e /\ UnmarshalBlock e = Ok sample_block.
Proof.
  destruct (block_roundtrip sample_block sample_block_ok) as (e & E & H). exists e. split; [exact E|]. rewrite H; [vm_compute; reflexivity|].
  assert (match MarshalBlock sample_block with Ok e => len e | Err _ => 0 end <= max_int64) as Hl by (vm_compute; discriminate). rewrite E in Hl. exact Hl.
Defined.

Lemma block_hash_binds_witness : exists m, header_message (b_header sample_block) = Some m /\ Keccak256 [m] = match HeaderHash (b_header sample_block) with Some h => h | None => ZeroHash end /\
  ((b_header sample_block = b_header sample_block /\ payloads sample_block = payloads sample_block) \/ clash (block_message sample_block) (block_message sample_block)).
Proof.
  destruct (header_message (b_header sample_block)) as [m|] eqn:E; [|vm_compute in E; discriminate].
  assert (fits m) as Hf by (assert (len (default [] (header_message (b_header sample_block))) <= max_int64) as Hl by (vm_compute; discriminate); rewrite E in Hl; exact Hl).
  exists m. split; [reflexivity|]. split; [unfold HeaderHash; rewrite E; reflexivity|].
  apply (block_hash_binds sample_block sample_block m m sample_block_ok sample_block_ok E E Hf Hf eq_refl).
Defined.

Lemma seal_binds_header_witness : exists m, sealing_message sample_header = Some m /\
  with_seal sample_header [] = with_seal (with_seal sample_header [4]) [] /\ SealingHash (with_seal sample_header [4]) = SealingHash sample_header.
Proof.
  destruct (sealing_message sample_header) as [m|] eqn:E; [|vm_compute in E; discriminate].
  assert (fits m) as Hf by (assert (len (default [] (sealing_message sample_header)) <= max_int64) as Hl by (vm_compute; discriminate); rewrite E in Hl; exact Hl).
  assert (header_ok sample_header /\ header_ok (with_seal sample_header [4])) as [H1 H2] by (split; wellformed).
  destruct (seal_binds_header sample_header (with_seal sample_header [4]) m m [4] H1 H2 E E Hf eq_refl) as [[H|[H _]] Hs]; [|contradiction]. exists m. auto.
Defined.

Definition sample_log : SDB.Log := SDB.mkLog (zeros 20) [zeros 32] [5] 7 (zeros 32) (zeros 32) 0 3.
Definition sample_receipt : Receipt := NewReceipt 2 1 21000 [sample_log].

Lemma receipt_roundtrip_witness : exists e, MarshalReceipt sample_receipt = Ok e /\ UnmarshalReceipt e = Ok (receipt_core sample_receipt).
Proof.
  destruct (receipt_roundtrip sample_receipt) as (e & E & H).
  { unfold receipt_ok, u64_ok, two64, wide. split_and!; try (vm_compute; reflexivity); try (cbn; lia). constructor; [split; [reflexivity | constructor; [reflexivity | constructor]] | constructor]. }
  exists e. split; [exact E | apply H]. assert (match MarshalReceipt sample_receipt with Ok e => len e | Err _ => 0 end <= max_int64) as Hl by (vm_compute; discriminate).
  rewrite E in Hl. exact Hl.
Defined.

End BlockFacts.
