(* ===== verification/Processor.v ===== *)
(** Executing whole blocks (src/processor/processor.go and the epoch boundary of
    src/processor/staking.go).

    The chain a block extends is the interface [ChainContext]: headers by number,
    and the validator set of a height where the chain offers it.  The processor
    works on the modelled state and machine; a fault (a Go panic, or too little
    fuel) is an error of the outer [result], an error the code returns one of the
    inner. *)

From Stdlib Require Import String.
From stdpp Require Import base list gmap.
From Stdlib Require Import ZArith Lia.
From S2P Require Import Prelude RLP Common UInt256 Attestation Registry Lifecycle StateDB EvmData Interpreter Precompiles Machine Transaction Transition CoreBlock.
Local Open Scope Z_scope.
Local Open Scope go_scope.

Module Proc.
Import Interp Blk Rcpt.

(** * The fee market *)

Record Config := mkConfig
  { c_chainID : Z; ElasticityMultiplier : Z; BaseFeeChangeDenominator : Z; MinBaseFee : Z }.

Definition DefaultConfig (chainID : Z) : Config := mkConfig chainID 2 8 1000000000.

(** [Div] of big integers and [/] of [uint64], which panic on zero. *)
Definition quotient (a b : Z) : option Z := if b =? 0 then None else Some (a / b).

(** What the fee moves by. *)
Definition fee_change (c : Config) (fee delta target : Z) : option Z :=
  let? q := quotient (fee * delta) target in quotient q (BaseFeeChangeDenominator c).

Definition CalcBaseFee (c : Config) (parent : option Header) : option Z :=
  match parent with
  | None => Some (MinBaseFee c)
  | Some p =>
      match h_baseFee p with
      | None => Some (MinBaseFee c)
      | Some fee =>
          if fee =? 0 then Some (MinBaseFee c)
          else
            let? target := quotient (h_gasLimit p) (ElasticityMultiplier c) in
            if target =? 0 then Some fee
            else if h_gasUsed p =? target then Some fee
            else if target <? h_gasUsed p then
              let? change := fee_change c fee (h_gasUsed p - target) target in
              Some (fee + (if change =? 0 then 1 else change))
            else
              let? change := fee_change c fee (target - h_gasUsed p) target in
              Some (if fee - change <? MinBaseFee c then MinBaseFee c else fee - change)
      end
  end.

Inductive limit_error := ErrBaseFee | ErrBelowMinimum | ErrGasLimitDelta.

Definition VerifyBaseFee (c : Config) (header : Header) (parent : option Header) : option (result limit_error unit) :=
  let? want := CalcBaseFee c parent in
  Some (if bool_decide (h_baseFee header = Some want) then Ok tt else Err ErrBaseFee).

Definition GasLimitBoundDivisor : Z := 1024.
Definition MinGasLimit : Z := 5000.

Definition VerifyGasLimit (parentLimit limit : Z) : result limit_error unit :=
  if limit <? MinGasLimit then Err ErrBelowMinimum
  else
    let diff := if parentLimit <? limit then limit - parentLimit else parentLimit - limit in
    if parentLimit / GasLimitBoundDivisor <=? diff then Err ErrGasLimitDelta else Ok tt.

(** * Certificates in headers *)

Definition aggregate_type : Rlp.GoType := Rlp.TStruct
  [Rlp.mkField "Number" true "" (Rlp.TUint 64); Rlp.mkField "BlockHash" true "" hash_type;
   Rlp.mkField "Signers" true "" Tx.bytes_type; Rlp.mkField "Signature" true "" Tx.bytes_type].

Definition aggregate_value (a : Att.AggregateAttestation) : Rlp.GoVal :=
  Rlp.VStruct [Rlp.VUint (Att.ag_number a); Rlp.VBytes (Att.ag_hash a); Rlp.bytes_value (Att.ag_signers a); Rlp.bytes_value (Att.ag_signature a)].

Definition aggregate_of (v : Rlp.GoVal) : Att.AggregateAttestation :=
  let f n := nth n (Tx.as_list v) Rlp.VNil in
  Att.mkAggregate (Tx.as_uint (f 0%nat)) (Tx.as_bytes (f 1%nat)) (Tx.as_bytes (f 2%nat)) (Tx.as_bytes (f 3%nat)).

(** [None] inside is the nil certificate. *)
Definition DecodeQuorumCert (data : bytes) : result Rlp.error (option Att.AggregateAttestation) :=
  if len data =? 0 then Ok None
  else let! v := Rlp.Decode data aggregate_type in Ok (Some (aggregate_of v)).

Definition EncodeQuorumCert (a : Att.AggregateAttestation) : result Rlp.error bytes :=
  if Att.IsEmpty a then Ok [] else Rlp.Encode (Rlp.VPtr (aggregate_value a)) (Rlp.TPtr aggregate_type).

(** * The chain *)

Record ChainContext (E : Type) := mkChain
  { GetHeaderByNumber : Z -> option Header;
    ValidatorsAt : option (Z -> result E (list Address)) }.
Arguments mkChain {E}.
Arguments GetHeaderByNumber {E}.
Arguments ValidatorsAt {E}.

Inductive error {E : Type} :=
| ErrTransaction (index : Z) (e : Tx.tx_error)
| ErrMessage (index : Z) (e : Trans.error)
| ErrUnregistered (e : Reg.error)
| ErrNoUsableKey
| ErrReveal (e : Att.error)
| ErrValidators (e : E)
| ErrEpoch (e : Reg.error)
| ErrGasUsed.
Arguments error : clear implicits.

Section Processor.
Context `{K : Keccak} `{TS : TrieStore} `{C : NativeCrypto} `{B : Bls} {BP : BlsPossession B} {E : Type}.
#[local] Existing Instance Trans.contracts.
#[local] Existing Instance SDB.statedb_access.

(** The processor: its configuration and its chain, which may be nil. *)
Variable config : Config.
Variable chain : option (ChainContext E).

(** The hash of a header read from the chain, which was decoded and so can be
    encoded. *)
Definition getHashFn (number : Z) : Hash :=
  match chain with
  | None => ZeroHash
  | Some c =>
      match GetHeaderByNumber c number with
      | None => ZeroHash
      | Some h => default ZeroHash (HeaderHash h)
      end
  end.

(** [None]: a header without number or base fee panics. *)
Definition NewBlockContext (header : Header) (origin : Address) (price : Z) : option Env :=
  let? number := h_number header in
  let? baseFee := h_baseFee header in
  Some (mkEnv (h_coinbase header) (h_gasLimit header) number (h_time header) (Some baseFee)
          (Keccak256 [h_parentHash header; h_extra header]) getHashFn origin price (c_chainID config)).

(** [evm.NewEVM] and [evm.Reset]; what the interpreter returned last stays. *)
Definition NewEVM (d : SDB.StateDB) : VM := mkVM d 0 false false [] false.
Definition ResetVM (v : VM) (d : SDB.StateDB) : VM := mkVM d 0 (readOnly v) false (returnData v) false.

(** * Transactions *)

Definition failed (res : Trans.ExecutionResult) : bool := match Trans.ResultErr res with Some _ => true | None => false end.

(** The machine, the pool and the gas used so far, and the receipt. *)
Definition applyTransaction (header : Header) (index : Z) (v : VM) (tx : Tx.Transaction) (gp usedGas : Z)
    : result fault (VM * result (error E) (Z * Z * Receipt)) :=
  match Trans.MessageFromTx tx (c_chainID config) (h_baseFee header) with
  | (_, Err e) => Ok (v, Err (ErrTransaction index e))
  | (tx, Ok msg) =>
      match NewBlockContext header (Trans.m_from msg) (Trans.m_gasPrice msg) with
      | None => Err GoPanic
      | Some env =>
          let! (st, r) := Trans.ApplyMessage env false msg (ResetVM v (db v)) gp in
          match r with
          | Err e => Ok (Trans.st_vm st, Err (ErrMessage index e))
          | Ok res =>
              let d := SDB.Finalise (db (Trans.st_vm st)) true in
              let usedGas := usedGas +w Trans.UsedGas res in
              match Tx.TxHash tx with
              | None => Err GoPanic
              | Some (tx, h) =>
                  let i := Tx.inner tx in
                  let r := NewReceipt (Tx.txType i) (if failed res then ReceiptStatusFailed else ReceiptStatusSuccessful) usedGas (SDB.GetLogs (SDB.world d) h) in
                  let contract := match Tx.to i with None => CreateAddress (Trans.m_from msg) (Tx.nonce i) | Some _ => r_contract r end in
                  Ok (set_db (Trans.st_vm st) d,
                      Ok (Trans.gasPool st, usedGas,
                          mkReceipt (r_type r) (r_status r) (r_cumulative r) (r_bloom r) (r_logs r) h contract (Trans.UsedGas res)
                            (Some (Trans.m_gasPrice msg)) (r_blockHash r) (h_number header) (r_txIndex r)))
              end
          end
      end
  end.

(** The loop over the transactions of a block. *)
Fixpoint apply_all (header : Header) (index : Z) (v : VM) (txs : list Tx.Transaction) (gp usedGas : Z)
    : result fault (VM * result (error E) (Z * list Receipt)) :=
  match txs with
  | [] => Ok (v, Ok (usedGas, []))
  | tx :: rest =>
      match Tx.TxHash tx with
      | None => Err GoPanic
      | Some (tx, h) =>
          let v := set_db v (SDB.SetTxContext (db v) h index) in
          let! (v, r) := applyTransaction header index v tx gp usedGas in
          match r with
          | Err e => Ok (v, Err e)
          | Ok (gp, usedGas, receipt) =>
              let! (v, r) := apply_all header (index + 1) v rest gp usedGas in
              match r with
              | Err e => Ok (v, Err e)
              | Ok (total, receipts) => Ok (v, Ok (total, receipt :: receipts))
              end
          end
      end
  end.

(** * Randomness *)

Definition applyRandao (d : SDB.StateDB) (header : Header) : SDB.StateDB * result (error E) unit :=
  if len (h_randaoReveal header) =? 0 then (d, Ok tt)
  else
    match Reg.ByAddress d (h_coinbase header) with
    | Err e => (d, Err (ErrUnregistered e))
    | Ok validator =>
        match PublicKeyFromBytes (Reg.v_bls validator) with
        | None => (d, Err ErrNoUsableKey)
        | Some key =>
            match Att.VerifyRandaoReveal (c_chainID config) (Reg.EpochOf (NumberU64 header)) (Some key) (h_randaoReveal header) with
            | Err e => (d, Err (ErrReveal e))
            | Ok _ => (Reg.SetRandaoMix d (Att.MixRandao (Reg.RandaoMix d) (h_randaoReveal header)), Ok tt)
            end
        end
    end.

(** * The epoch boundary *)

(** One block of the epoch. *)
Definition mark_block (c : ChainContext E) (validators : list Address) (p : Life.Participation) (number : Z) : Life.Participation :=
  match GetHeaderByNumber c number with
  | None => p
  | Some header =>
      let p := Life.MarkProposed p (h_coinbase header) in
      match DecodeQuorumCert (h_justification header) with
      | Ok (Some qc) =>
          if Att.IsEmpty qc then p
          else fold_left (fun p i => Life.MarkAttested p (nth (Z.to_nat i) validators ZeroAddress)) (Att.Indices (Att.ag_signers qc) (len validators)) p
      | _ => p
      end
  end.

(** A nil chain panics where its headers are read. *)
Definition EpochParticipation (epoch : Z) (validators : list Address) : option Life.Participation :=
  if epoch =? 0 then Some Life.NewParticipation
  else
    let? c := chain in
    let start := Reg.EpochStart epoch in
    Some (fold_left (mark_block c validators) (seqZ start ((start +w Reg.EpochLength) - start)) Life.NewParticipation).

Definition validatorsAt (blockNumber : Z) : result (error E) (list Address) :=
  match chain with
  | Some c =>
      match ValidatorsAt c with
      | Some f => match f blockNumber with Ok l => Ok l | Err e => Err (ErrValidators e) end
      | None => Ok []
      end
  | None => Ok []
  end.

Definition ProcessEpochBoundary (d : SDB.StateDB) (header : Header) (finalizedNumber : Z)
    : result fault (SDB.StateDB * result (error E) (option Life.EpochReport)) :=
  let number := NumberU64 header in
  if negb (Reg.IsEpochBoundary number) then Ok (d, Ok None)
  else
    let epoch := Reg.EpochOf number in
    match validatorsAt (Reg.EpochStart (epoch -w 1)) with
    | Err e => Ok (d, Err e)
    | Ok validators =>
        match EpochParticipation (epoch -w 1) validators with
        | None => Err GoPanic
        | Some participation =>
            Ok (match Life.ProcessEpoch d epoch (Some participation) (Reg.EpochOf finalizedNumber) with
                | (d, Err e) => (d, Err (ErrEpoch e))
                | (d, Ok report) => (d, Ok (Some report))
                end)
        end
    end.

(** * Blocks *)

Definition Process (block : Block) (d : SDB.StateDB) (finalizedNumber : Z)
    : result fault (SDB.StateDB * result (error E) (list Receipt * list SDB.Log * Z)) :=
  let header := b_header block in
  match NewBlockContext header ZeroAddress 0 with
  | None => Err GoPanic
  | Some _ =>
      let! (v, r) := apply_all header 0 (NewEVM d) (b_txs block) (Trans.AddGas 0 (h_gasLimit header)) 0 in
      match r with
      | Err e => Ok (db v, Err e)
      | Ok (usedGas, receipts) =>
          match applyRandao (db v) header with
          | (d, Err e) => Ok (d, Err e)
          | (d, Ok _) =>
              let! (d, r) := ProcessEpochBoundary d header finalizedNumber in
              match r with
              | Err e => Ok (d, Err e)
              | Ok _ =>
                  if negb (usedGas =? h_gasUsed header) then Ok (d, Err ErrGasUsed)
                  else Ok (d, Ok (receipts, concat (map r_logs receipts), usedGas))
              end
          end
      end
  end.

End Processor.
End Proc.
