(* ===== verification/ProcessorFacts.v ===== *)
(** Facts on processing blocks (Processor.v): the fee market, and that a block is
    executed to the end with its gas accounted for. *)

From stdpp Require Import base list gmap relations sorting.
From Stdlib Require Import ZArith Lia.
From S2P Require Import Prelude RLP Common UInt256 Attestation Registry Lifecycle StateDB EvmData Interpreter EvmState EvmSafety EvmExec EvmCalls EvmRun EvmEffects Precompiles Machine Transaction Transition TransitionFacts CoreBlock CoreBlockFacts Processor.
Local Open Scope Z_scope.
Local Open Scope go_scope.

(** * The epoch transition only writes *)

Module EpochWrites.
Import Reg Life Writes.

Section Epoch.
Context `{K : Keccak} `{SA : StateAccess} {B : Bls} {BP : BlsPossession B}.

Lemma fold_writes {A R} (f : State * R -> A -> State * R) l : (forall sr x, writes (fst sr) (fst (f sr x))) -> forall sr, writes (fst sr) (fst (fold_left f l sr)).
Proof. intros H. induction l as [|x l IH]; intros sr; cbn [fold_left]; [reflexivity | etransitivity; [apply H | apply IH]]. Qed.

Lemma settle_balances_writes s r : writes s (settle_balances s r).
Proof.
  unfold settle_balances. etransitivity; [|destruct (0 <? rep_burned r); [apply rtc_once, by_sub | reflexivity]]. destruct (0 <? rep_issued r); [apply rtc_once, by_add | reflexivity].
Qed.

Lemma settle_writes s e p fe all r : writes s (fst (settle s e p fe all r)).
Proof.
  unfold settle. pose proof (fold_writes (finish_exit e) all) as H1. specialize (H1 ltac:(intros sr v; unfold finish_exit; destruct (_ && _); [apply Put_writes | reflexivity]) (s, r)).
  destruct (fold_left (finish_exit e) all (s, r)) as [s1 r1]. cbn [fst] in H1. destruct (ActiveAt s1 e) as [active|]; [|exact H1]. cbv zeta.
  set (total := sum_effective active). set (delay := finality_delay e fe). set (r2 := set_leak r1 _).
  assert (writes s1 (fst (match p with Some p => if 0 <? total then fold_left (settle_one total delay p) active (s1, r2) else (s1, r2) | None => (s1, r2) end))) as H2.
  { destruct p as [p|]; [|reflexivity]. destruct (0 <? total); [|reflexivity]. apply (fold_writes (settle_one total delay p) active) with (sr := (s1, r2)).
    intros [s' r'] v. unfold settle_one. destruct (bool_decide _); apply Put_writes. }
  destruct (match p with Some p => _ | None => _ end) as [s2 r3]. cbn [fst] in *. etransitivity; [exact H1|]. etransitivity; [exact H2 | apply settle_balances_writes].
Qed.

Lemma correlation_writes s e r : writes s (fst (applyCorrelationPenalties s e r)).
Proof.
  unfold applyCorrelationPenalties. destruct (All s) as [all|]; [|reflexivity]. destruct (TotalActiveStake s e) as [total|]; [|reflexivity]. destruct (total =? 0); [reflexivity|]. cbv zeta.
  set (c := if total <? _ then _ else _). pose proof (fold_writes (correlate_one e c total) all) as H.
  specialize (H ltac:(intros sr v; unfold correlate_one; destruct (negb _); [reflexivity|]; cbv zeta; destruct (_ =? 0); [reflexivity|]; cbn [fst]; eapply writes_then; [apply Put_writes | apply by_sub]) (s, r)).
  destruct (fold_left _ _ _). exact H.
Qed.

Lemma eject_writes e active : forall s r, writes s (fst (eject_loop e active s r)).
Proof.
  induction active as [|v active IH]; intros s r; cbn [eject_loop]; [reflexivity|]. destruct (Get s (v_index v)) as [c|]; [|reflexivity].
  destruct (_ && _); [|apply IH]. pose proof (stores_writes _ _ (RequestExit_stores s (v_address c) e)) as H. destruct (RequestExit _ _ _) as [s' [x|x]]; (etransitivity; [exact H | apply IH]).
Qed.

Lemma activate_writes s e all r : writes s (fst (activate s e all r)).
Proof.
  unfold activate. destruct (ActiveAt s e) as [active|]; [|reflexivity]. destruct (collect_pending s all) as [pending|]; [|reflexivity]. cbv zeta.
  pose proof (fold_writes (activate_one e) (take (Z.to_nat (ChurnLimit (len active))) (merge_sort index_le pending))) as H.
  specialize (H ltac:(intros sr v; apply Put_writes) (s, r)). destruct (fold_left _ _ _). exact H.
Qed.

Lemma ProcessEpoch_writes s e p fe : writes s (fst (ProcessEpoch s e p fe)).
Proof.
  unfold ProcessEpoch. cbv zeta. destruct (_ && _); [reflexivity|]. destruct (All s) as [all|]; [|reflexivity].
  pose proof (settle_writes s e p fe all (new_report e)) as H1. destruct (settle _ _ _ _ _ _) as [s1 [[r1 active]|]]; [|exact H1]. cbn [fst] in H1.
  pose proof (correlation_writes s1 e r1) as H2. destruct (applyCorrelationPenalties _ _ _) as [s2 [r2|]]; cbn [fst] in H2; [|etransitivity; eassumption].
  set (s3 := ResetSlashedStake s2 (e +w 1)). assert (writes s2 s3) as H3 by apply writes_write.
  pose proof (eject_writes e active s3 r2) as H4. destruct (eject_loop _ _ _ _) as [s4 [r4|]]; cbn [fst] in H4; [|etransitivity; [exact H1|]; etransitivity; [exact H2|]; etransitivity; eassumption].
  pose proof (activate_writes s4 e all r4) as H5. destruct (activate _ _ _ _) as [s5 [r5|]]; cbn [fst] in *;
    (etransitivity; [exact H1|]; etransitivity; [exact H2|]; etransitivity; [exact H3|]; etransitivity; [exact H4|]; etransitivity; [exact H5|]); [|reflexivity].
  unfold SaveEpochState. apply writes_write.
Qed.

End Epoch.
End EpochWrites.

Module ProcFacts.
Import SDB Interp Ev Safe Exec Calls Total Effects Trans Facts Rcpt Blk Proc.

(** * Fees *)

Section Fees.

Lemma quotient_ok a b : 0 < b -> quotient a b = Some (a / b).
Proof. intros H. unfold quotient. destruct (Z.eqb_spec b 0); [lia | reflexivity]. Qed.

(** A configuration whose divisions are defined. *)
Definition config_ok (c : Config) : Prop := 0 < ElasticityMultiplier c /\ 0 < BaseFeeChangeDenominator c /\ 0 < MinBaseFee c.

(** The change for a distance [delta] from the target. *)
Definition step (c : Config) (fee delta target : Z) : Z := fee * delta / target / BaseFeeChangeDenominator c.

Lemma fee_change_ok c fee delta target : config_ok c -> 0 < target -> fee_change c fee delta target = Some (step c fee delta target).
Proof. intros (_ & Hd & _) Ht. unfold fee_change. rewrite quotient_ok by exact Ht. cbn [obind]. apply quotient_ok, Hd. Qed.

Lemma step_mono c fee d d' target : config_ok c -> 0 < target -> 0 <= fee -> d <= d' -> step c fee d target <= step c fee d' target.
Proof. intros (_ & Hd & _) Ht Hf H. unfold step. apply Z.div_le_mono; [exact Hd|]. apply Z.div_le_mono; [exact Ht|]. apply Z.mul_le_mono_nonneg_l; assumption. Qed.

Lemma step_bounds c fee d target : config_ok c -> 0 < target -> 0 <= fee -> 0 <= d <= target -> 0 <= step c fee d target <= fee / BaseFeeChangeDenominator c.
Proof.
  intros Hc Ht Hf Hd. destruct Hc as (_ & Hc & _). unfold step. split; [apply Z.div_pos; [apply Z.div_pos; nia | exact Hc]|].
  apply Z.div_le_mono; [exact Hc|]. apply Z.div_le_upper_bound; [exact Ht | nia].
Qed.

(** The fee as a function of the gas the parent used. *)
Definition next_fee (c : Config) (fee target used : Z) : Z :=
  if used =? target then fee
  else if target <? used then fee + (if step c fee (used - target) target =? 0 then 1 else step c fee (used - target) target)
  else if fee - step c fee (target - used) target <? MinBaseFee c then MinBaseFee c else fee - step c fee (target - used) target.

Lemma CalcBaseFee_next c p fee : config_ok c -> h_baseFee p = Some fee -> 0 < fee -> 0 < h_gasLimit p / ElasticityMultiplier c ->
  CalcBaseFee c (Some p) = Some (next_fee c fee (h_gasLimit p / ElasticityMultiplier c) (h_gasUsed p)).
Proof.
  intros Hc Hf Hp Ht. unfold CalcBaseFee, next_fee. rewrite Hf. destruct (Z.eqb_spec fee 0); [lia|]. rewrite quotient_ok by apply Hc. cbn [obind].
  set (t := h_gasLimit p / ElasticityMultiplier c) in *. destruct (Z.eqb_spec t 0); [lia|]. destruct (h_gasUsed p =? t); [reflexivity|].
  rewrite !fee_change_ok by assumption. cbn [obind]. destruct (t <? h_gasUsed p); reflexivity.
Qed.

Lemma next_fee_mono c fee target u u' : config_ok c -> 0 < target -> MinBaseFee c <= fee -> u <= u' -> next_fee c fee target u <= next_fee c fee target u'.
Proof.
  intros Hc Ht Hf Hu. assert (0 <= fee) as H0 by (destruct Hc as (_ & _ & Hm); lia). unfold next_fee.
  assert (forall d, 0 <= d -> 0 <= step c fee d target) as Hpos.
  { intros d Hd. destruct Hc as (_ & Hc & _). unfold step. apply Z.div_pos; [apply Z.div_pos; nia | exact Hc]. }
  destruct (Z.eqb_spec u target) as [->|Hne], (Z.eqb_spec u' target) as [->|Hne']; try lia.
  - rewrite (proj2 (Z.ltb_lt target u')) by lia. pose proof (Hpos (u' - target)). destruct (_ =? 0); lia.
  - rewrite (proj2 (Z.ltb_ge target u)) by lia. pose proof (Hpos (target - u)). destruct (Z.ltb_spec (fee - step c fee (target - u) target) (MinBaseFee c)); lia.
  - destruct (Z.ltb_spec target u), (Z.ltb_spec target u'); try lia.
    + pose proof (step_mono c fee (u - target) (u' - target) target Hc Ht H0 ltac:(lia)). pose proof (Hpos (u - target)).
      destruct (Z.eqb_spec (step c fee (u - target) target) 0), (Z.eqb_spec (step c fee (u' - target) target) 0); lia.
    + pose proof (Hpos (target - u)). pose proof (Hpos (u' - target)). destruct (_ =? 0), (Z.ltb_spec (fee - step c fee (target - u) target) (MinBaseFee c)); lia.
    + pose proof (step_mono c fee (target - u') (target - u) target Hc Ht H0 ltac:(lia)).
      destruct (Z.ltb_spec (fee - step c fee (target - u) target) (MinBaseFee c)), (Z.ltb_spec (fee - step c fee (target - u') target) (MinBaseFee c)); lia.
Qed.

(** C37: the base fee follows demand, smoothly and above its floor.  The fee after
    a parent block is never below the configured minimum; it stays where the
    parent met its gas target, rises by at least one where it used more, and does
    not rise where it used less; where the parent used at most twice its target the
    fee moves by at most the configured fraction, or one; and a fuller parent never gives a lower fee. *)
Theorem base_fee_follows_demand c p fee used' : config_ok c -> h_baseFee p = Some fee -> MinBaseFee c <= fee ->
  0 < h_gasLimit p / ElasticityMultiplier c -> 0 <= h_gasUsed p <= 2 * (h_gasLimit p / ElasticityMultiplier c) -> h_gasUsed p <= used' ->
  exists f f', CalcBaseFee c (Some p) = Some f /\ MinBaseFee c <= f /\
    (h_gasUsed p = h_gasLimit p / ElasticityMultiplier c -> f = fee) /\
    (h_gasLimit p / ElasticityMultiplier c < h_gasUsed p -> fee < f) /\ (h_gasUsed p < h_gasLimit p / ElasticityMultiplier c -> f <= fee) /\
    Z.abs (f - fee) <= Z.max 1 (fee / BaseFeeChangeDenominator c) /\
    CalcBaseFee c (Some (mkHeader (h_parentHash p) (h_coinbase p) (h_stateRoot p) (h_txRoot p) (h_receiptRoot p) (h_bloom p) (h_number p) (h_gasLimit p) used'
      (h_time p) (h_extra p) (h_baseFee p) (h_round p) (h_randaoReveal p) (h_justification p) (h_seal p))) = Some f' /\ f <= f'.
Proof.
  intros Hc Hf Hmin Ht Hu Hu'. assert (0 < fee) as Hpos by (destruct Hc as (_ & _ & Hm); lia). set (p' := mkHeader _ _ _ _ _ _ _ _ _ _ _ _ _ _ _ _).
  rewrite (CalcBaseFee_next c p fee Hc Hf Hpos Ht), (CalcBaseFee_next c p' fee Hc Hf Hpos Ht). subst p'. cbn [h_gasLimit h_gasUsed].
  set (t := h_gasLimit p / ElasticityMultiplier c) in *. eexists _, _. split; [reflexivity|].
  pose proof (next_fee_mono c fee t _ _ Hc Ht Hmin Hu') as Hm. unfold next_fee in *.
  assert (0 <= fee / BaseFeeChangeDenominator c) as Hq by (apply Z.div_pos; [lia | apply Hc]).
  assert (t < h_gasUsed p -> 0 <= step c fee (h_gasUsed p - t) t <= fee / BaseFeeChangeDenominator c) as Hup by (intros; apply step_bounds; auto; lia).
  assert (h_gasUsed p < t -> 0 <= step c fee (t - h_gasUsed p) t <= fee / BaseFeeChangeDenominator c) as Hdown by (intros; apply step_bounds; auto; lia).
  destruct (Z.eqb_spec (h_gasUsed p) t); [split_and!; try reflexivity; try exact Hm; lia|].
  destruct (Z.ltb_spec t (h_gasUsed p)).
  - specialize (Hup H). destruct (Z.eqb_spec (step c fee (h_gasUsed p - t) t) 0); split_and!; try reflexivity; try exact Hm; lia.
  - specialize (Hdown ltac:(lia)). destruct (Z.ltb_spec (fee - step c fee (t - h_gasUsed p) t) (MinBaseFee c)); split_and!; try reflexivity; try exact Hm; lia.
Qed.

End Fees.
(** * Blocks *)

Section Blocks.
Context `{K : Keccak} `{TS : TrieStore} `{C : NativeCrypto} `{B : Bls} {BP : BlsPossession B} {E : Type}.
#[local] Existing Instance contracts.
#[local] Existing Instance statedb_access.

(** ** Between transactions *)

Lemma Finalise_inv s de : inv s -> inv (Finalise s de).
Proof.
  intros [Hw _ _ _]. apply inv_start; [reflexivity | reflexivity|]. unfold Finalise. cbn [world].
  assert (forall l w, wf w -> wf (fold_left (finalise_object de) l w)) as H.
  { induction l as [|a l IH]; intros w H; cbn [fold_left]; [exact H|]. apply IH. unfold finalise_object. destruct (objects w !! a) as [o|]; [|exact H].
    destruct (_ || _); exact H. }
  exact (H _ _ Hw).
Qed.

Lemma undo_context e w h i : undo e (set_context w h i) = set_context (undo e w) h i.
Proof.
  destruct e as [a [o|]| | | | |a k p| | |l|a|a k]; cbn [undo]; try reflexivity.
  all: try (unfold on_object; cbn [objects set_context]; destruct (objects w !! _); reflexivity).
  - cbn [transient set_context]. destruct (transient w !! a); reflexivity.
  - cbn [accessedSlots set_context]. destruct (accessedSlots w !! a); reflexivity.
Qed.

Lemma SetTxContext_inv s h i : inv s -> inv (SetTxContext s h i).
Proof.
  intros [Hw Hc Ho Hb]. constructor; auto. cbn [SetTxContext world with_world entries].
  assert (forall es w, chain w es -> chain (set_context w h i) es) as H; [|apply H, Hc].
  induction es as [|e es IH]; intros w; cbn [chain]; [auto|]. intros (Ha & Hw' & Hch). rewrite undo_context.
  split; [destruct e; exact Ha|]. split; [exact Hw' | apply IH, Hch].
Qed.

(** A machine a transaction can start on. *)
Definition startable (v : VM) : Prop := vm_ok v /\ readOnly v = false /\ 0 <= refund (world (db v)).

Lemma startable_ready v gp : startable v -> ready (mkST (ResetVM v (db v)) gp 0 0).
Proof. intros ([Hi Hr] & Hro & H0). split; [split; [split; assumption | split; [reflexivity | exact Hro]] | exact H0]. Qed.

Lemma startable_db v d : startable v -> inv d -> 0 <= refund (world d) -> startable (set_db v d).
Proof. intros ([_ Hr] & Hro & _) Hi H0. split; [split; assumption | split; assumption]. Qed.

(** Transactions the code can hash and run. *)
Definition tx_ok (tx : Tx.Transaction) : Prop := Tx.payload_ok (Tx.inner tx) /\ len (Tx.data (Tx.inner tx)) <= max_int64.

Lemma tx_hash tx : tx_ok tx -> exists tx' h, Tx.TxHash tx = Some (tx', h) /\ Tx.inner tx' = Tx.inner tx.
Proof.
  intros [Hok _]. unfold Tx.TxHash, Tx.hash_of. destruct (Tx.c_hash tx) as [h|]; [eauto|].
  assert (exists b, Tx.MarshalBinary (Tx.inner tx) = Ok b) as [b ->].
  { destruct (Tx.inner tx) as [t|t]; unfold Tx.MarshalBinary.
    - destruct (Tx.encode_legacy t Hok) as [p E']. exists (Rlp.write_list p). exact E'.
    - destruct (Tx.encode_dynamic t Hok) as [p E']. change (Rlp.Encode (Rlp.VPtr (Tx.dynamic_value t)) (Rlp.TPtr Tx.dynamic_type)) with (Rlp.encodeValue (Tx.dynamic_value t) Tx.dynamic_type).
      rewrite E'. eexists. reflexivity. }
  cbn. eauto.
Qed.

Lemma sender_inner c tx : Tx.inner (fst (Tx.Sender c tx)) = Tx.inner tx.
Proof. unfold Tx.Sender. destruct (Tx.c_sender tx); [reflexivity|]. destruct (Tx.recover_sender _ _); reflexivity. Qed.

(** Receipts in order, with their running total of gas and their filters. *)
Fixpoint running (used : Z) (rs : list Receipt) : Prop :=
  match rs with
  | [] => True
  | r :: rest => 0 <= r_gasUsed r /\ r_cumulative r = used + r_gasUsed r /\ r_bloom r = Bloom.CreateBloom (r_logs r) /\ running (r_cumulative r) rest
  end.

Variable config : Config.
Variable chain_ : option (ChainContext E).
Variable header : Header.
Hypothesis Hnumber : is_Some (h_number header).
Hypothesis Hfee : is_Some (h_baseFee header).

Lemma applyTransaction_ok i v tx gp used : startable v -> tx_ok tx -> u64_ok gp -> 0 <= used -> gp + used < two64 ->
  exists v' r, applyTransaction config chain_ header i v tx gp used = Ok (v', r) /\ startable v' /\
    match r with
    | Err _ => True
    | Ok (gp', used', receipt) => 0 <= gp' <= gp /\ used' = used + r_gasUsed receipt /\ gp' + used' = gp + used /\ running used [receipt]
    end.
Proof.
  intros Hv Htx Hgp Hused Hsum. unfold applyTransaction. destruct Hfee as [fee Ef]. destruct Hnumber as [n En]. rewrite Ef.
  destruct (MessageFromTx tx (c_chainID config) (Some fee)) as [tx1 [msg|e]] eqn:Em; [|eexists _, _; split; [reflexivity|]; split; [exact Hv | exact I]].
  assert (Tx.inner tx1 = Tx.inner tx) as Hin.
  { unfold MessageFromTx in Em. pose proof (sender_inner (c_chainID config) tx) as H. destruct (Tx.Sender _ _) as [tx' [from|]]; injection Em as <- _; exact H. }
  destruct (message_of msg tx (c_chainID config) fee) as (Hm & _); [rewrite Em; reflexivity | apply Htx | apply Htx|].
  unfold NewBlockContext. rewrite En, Ef. cbn [obind]. set (env := mkEnv _ _ _ _ _ _ _ _ _ _).
  destruct (ApplyMessage_ok env false msg (ResetVM v (db v)) gp (startable_ready v gp Hv) Hgp Hm) as (st & r & -> & Hr). cbn [rbind].
  assert (forall st, ready st -> startable (st_vm st)) as Hst by (intros st0 [((Hi & Hb) & _ & Hro) H0]; split; [split; assumption | split; assumption]).
  destruct r as [res|e]; [|eexists _, _; split; [reflexivity|]; split; [apply Hst, Hr | exact I]].
  destruct Hr as [st1 st2 v3 g intr Hb _ _ Hle _ _ Hg2 (_ & Hg & _) (Hr' & Hp & _ & Hu & _)]. cbn [initialGas gas gasPool] in *.
  destruct Hb as (_ & _ & Hlim & _). cbn [gasPool] in Hlim. assert (tx_ok tx1) as Htx1 by (unfold tx_ok; rewrite Hin; exact Htx).
  destruct (tx_hash tx1 Htx1) as (tx2 & h & -> & _). cbv zeta.
  assert (used +w UsedGas res = used + UsedGas res) as -> by (apply wrap64_small; unfold u64_ok in *; lia).
  eexists _, _. split; [reflexivity|]. split.
  - apply startable_db; [apply Hst, Hr' | apply Finalise_inv, Hr' | reflexivity].
  - cbn [r_gasUsed r_cumulative r_bloom r_logs running NewReceipt]. split; [lia|]. split; [reflexivity|]. split; [lia|]. split; [lia|]. auto.
Qed.

(** The gas of a list of receipts. *)
Definition gas_of (rs : list Receipt) : Z := zsum (map r_gasUsed rs).

Lemma apply_all_ok txs : forall i v gp used, startable v -> Forall tx_ok txs -> u64_ok gp -> 0 <= used -> gp + used < two64 ->
  exists v' r, apply_all config chain_ header i v txs gp used = Ok (v', r) /\ startable v' /\
    match r with
    | Err _ => True
    | Ok (total, rs) => length rs = length txs /\ total = used + gas_of rs /\ total <= gp + used /\ running used rs
    end.
Proof.
  induction txs as [|tx txs IH]; intros i v gp used Hv Htxs Hgp Hu Hsum; cbn [apply_all].
  { eexists _, _. split; [reflexivity|]. split; [exact Hv|]. unfold gas_of, u64_ok in *. cbn. split; [reflexivity | lia]. }
  inversion Htxs as [|? ? Htx Hrest]; subst. destruct (tx_hash tx Htx) as (tx1 & h & -> & Hin). cbv zeta.
  assert (startable (set_db v (SetTxContext (db v) h i))) as Hv1 by (apply startable_db; [exact Hv | apply SetTxContext_inv, Hv | apply Hv]).
  assert (tx_ok tx1) as Htx1 by (unfold tx_ok; rewrite Hin; exact Htx).
  destruct (applyTransaction_ok i _ tx1 gp used Hv1 Htx1 Hgp Hu Hsum) as (v2 & r & -> & Hv2 & Hr). cbn [rbind].
  destruct r as [[[gp' used'] receipt]|e]; [|eexists _, _; split; [reflexivity|]; auto].
  destruct Hr as (Hgp' & Hused & Hsum' & Hrun & Hcum & Hbl & _). rewrite Hused in *.
  destruct (IH (i + 1) v2 gp' (used + r_gasUsed receipt) Hv2 Hrest) as (v3 & r & -> & Hv3 & Hr'); [unfold u64_ok in *; lia | lia | lia|]. cbn [rbind].
  destruct r as [[total rs]|e]; [|eexists _, _; split; [reflexivity|]; auto]. destruct Hr' as (Hlen & Htot & Hmax & Hrs).
  eexists _, _. split; [reflexivity|]. split; [exact Hv3|]. split; [cbn; congruence|]. split; [change (gas_of (receipt :: rs)) with (r_gasUsed receipt + gas_of rs); lia|]. split; [lia|].
  cbn [running]. rewrite Hcum. auto.
Qed.

Lemma writes_inv d d' : Writes.writes (SA := statedb_access) d d' -> inv d -> inv d'.
Proof. intros Hw Hi. eapply moves_inv; [apply writes_moves; [exact Hw | apply inv_wf, Hi] | exact Hi]. Qed.

Lemma applyRandao_writes d : Writes.writes (SA := statedb_access) d (fst (applyRandao (E := E) config d header)).
Proof.
  unfold applyRandao. destruct (_ =? 0); [reflexivity|]. destruct (Reg.ByAddress _ _); [|reflexivity]. destruct (PublicKeyFromBytes _); [|reflexivity].
  destruct (Att.VerifyRandaoReveal _ _ _ _); [|reflexivity]. apply (Writes.writes_write (SA := statedb_access)).
Qed.

Lemma boundary_ok d fin : inv d -> chain_ <> None -> exists d' r, ProcessEpochBoundary chain_ d header fin = Ok (d', r) /\ inv d'.
Proof.
  intros Hi Hc. unfold ProcessEpochBoundary. destruct (negb _); [eauto|]. destruct (validatorsAt _ _) as [vs|]; [|eauto].
  assert (exists p, EpochParticipation chain_ (Reg.EpochOf (NumberU64 header) -w 1) vs = Some p) as [p ->].
  { unfold EpochParticipation. destruct (_ =? 0); [eauto|]. destruct chain_; [cbn; eauto | contradiction]. }
  pose proof (EpochWrites.ProcessEpoch_writes (SA := statedb_access) d (Reg.EpochOf (NumberU64 header)) (Some p) (Reg.EpochOf fin)) as Hw.
  destruct (Life.ProcessEpoch _ _ _ _) as [d' [rep|e]]; eexists _, _; (split; [reflexivity | exact (writes_inv _ _ Hw Hi)]).
Qed.

(** C12: blocks are executed to the end.  Whatever the transactions of a block and
    the state it is executed on, [Process] returns: no transaction, randomness
    reveal or epoch transition panics, and the state it leaves satisfies the
    invariant of the journal.  When it accepts the block there is one receipt per
    transaction, in order, each with the running total of gas and the filter of
    its logs; the total is what the header claims, and no more than its limit. *)
Theorem block_executed block d fin : b_header block = header -> inv d -> 0 <= refund (world d) -> u64_ok (h_gasLimit header) ->
  Forall tx_ok (b_txs block) -> chain_ <> None ->
  exists d' r, Process config chain_ block d fin = Ok (d', r) /\ inv d' /\
    forall rs logs used, r = Ok (rs, logs, used) ->
      length rs = length (b_txs block) /\ used = h_gasUsed header /\ used = gas_of rs /\ used <= h_gasLimit header /\ running 0 rs.
Proof.
  intros Eh Hi H0 Hl Htxs Hc. unfold Process. rewrite Eh. destruct Hfee as [fee Ef]. destruct Hnumber as [n En]. unfold NewBlockContext. rewrite En, Ef. cbn [obind].
  assert (AddGas 0 (h_gasLimit header) = h_gasLimit header) as -> by (unfold AddGas; apply wrap64_small; exact Hl).
  destruct (apply_all_ok (b_txs block) 0 (NewEVM d) (h_gasLimit header) 0) as (v & r & -> & Hv & Hr);
    [split; [split; [exact Hi | constructor] | split; [reflexivity | exact H0]] | exact Htxs | exact Hl | lia | unfold u64_ok in Hl; lia|].
  cbn [rbind]. destruct r as [[used rs]|e]; [|eexists _, _; split; [reflexivity|]; split; [apply Hv | discriminate]]. destruct Hr as (Hlen & Hu & Hmax & Hrun).
  pose proof (writes_inv _ _ (applyRandao_writes (db v)) (proj1 (proj1 Hv))) as Hi1. destruct (applyRandao _ _ _) as [d1 [u|e]]; cbn [fst] in Hi1;
    [|eexists _, _; split; [reflexivity|]; split; [exact Hi1 | discriminate]].
  destruct (boundary_ok d1 fin Hi1 Hc) as (d2 & r2 & -> & Hi2). cbn [rbind]. destruct r2 as [rep|e]; [|eexists _, _; split; [reflexivity|]; split; [exact Hi2 | discriminate]].
  destruct (Z.eqb_spec used (h_gasUsed header)) as [Eg|]; cbn [negb]; eexists _, _; (split; [reflexivity|]); (split; [exact Hi2|]); [|discriminate].
  intros rs' logs used' [= <- _ <-]. split; [exact Hlen|]. split; [exact Eg|]. split; [lia|]. split; [lia | exact Hrun].
Qed.

(** ** Receipts read back from storage *)

Lemma TxHash_cached tx tx' h : Tx.TxHash tx = Some (tx', h) -> Tx.TxHash tx' = Some (tx', h) /\ Tx.inner tx' = Tx.inner tx /\ Tx.c_sender tx' = Tx.c_sender tx.
Proof.
  unfold Tx.TxHash. destruct (Tx.c_hash tx) as [h'|] eqn:E'; [intros [= <- <-]; rewrite E'; auto|]. destruct (Tx.hash_of _); cbn [obind]; [|discriminate].
  intros [= <- <-]. auto.
Qed.

Lemma Sender_same c tx tx' : Tx.inner tx' = Tx.inner tx -> Tx.c_sender tx' = Tx.c_sender tx -> snd (Tx.Sender c tx') = snd (Tx.Sender c tx).
Proof. intros Hi Hs. unfold Tx.Sender. rewrite Hi, Hs. destruct (Tx.c_sender tx); [reflexivity|]. destruct (Tx.recover_sender _ _); reflexivity. Qed.

Lemma Sender_hash c tx : Tx.c_hash (fst (Tx.Sender c tx)) = Tx.c_hash tx.
Proof. unfold Tx.Sender. destruct (Tx.c_sender tx); [reflexivity|]. destruct (Tx.recover_sender _ _); reflexivity. Qed.

(** The address a creation leads to. *)
Definition created (from : Address) (i : Tx.TxData) : Address := match Tx.to i with None => CreateAddress from (Tx.nonce i) | Some _ => ZeroAddress end.

Lemma receipt_fields i v tx gp used v' gp' used' r : applyTransaction config chain_ header i v tx gp used = Ok (v', Ok (gp', used', r)) ->
  exists from tx' h, snd (Tx.Sender (c_chainID config) tx) = Ok from /\ Tx.TxHash tx = Some (tx', h) /\ r_txHash r = h /\ r_type r = Tx.txType (Tx.inner tx) /\
    r_price r = Some (Tx.EffectiveGasPrice (Tx.inner tx) (h_baseFee header)) /\ r_contract r = created from (Tx.inner tx) /\ used' = r_cumulative r.
Proof.
  unfold applyTransaction, MessageFromTx. pose proof (sender_inner (c_chainID config) tx) as Hin. pose proof (Sender_hash (c_chainID config) tx) as Hh.
  destruct (Tx.Sender (c_chainID config) tx) as [tx1 [from|e]]; [|discriminate]. cbn [fst snd] in *.
  destruct (NewBlockContext _ _ _ _ _) as [env|]; [|discriminate]. destruct (ApplyMessage _ _ _ _ _) as [[st [res|e]]|]; cbn [rbind]; [|discriminate..].
  destruct (Tx.TxHash tx1) as [[tx2 h]|] eqn:Et; [|discriminate]. cbv zeta. intros [= _ _ <- <-]. destruct (TxHash_cached _ _ _ Et) as (_ & Hin2 & _).
  assert (exists tx', Tx.TxHash tx = Some (tx', h)) as [tx' Etx].
  { unfold Tx.TxHash in *. rewrite Hh, Hin in Et. destruct (Tx.c_hash tx); [injection Et as _ ->; eauto|]. destruct (Tx.hash_of _); cbn [obind] in *; [injection Et as _ ->; eauto | discriminate]. }
  exists from, tx', h. cbn [r_txHash r_type r_price r_contract NewReceipt m_from m_gasPrice]. rewrite Hin2, Hin. unfold created.
  split; [reflexivity|]. split; [exact Etx|]. split; [reflexivity|]. split; [reflexivity|]. split; [reflexivity|]. split; [destruct (Tx.to (Tx.inner tx)); reflexivity | reflexivity].
Qed.

(** Two receipts that agree in everything but the place of the block and the
    context of the logs. *)
Definition agrees (r r' : Receipt) : Prop :=
  r_type r' = r_type r /\ r_status r' = r_status r /\ r_cumulative r' = r_cumulative r /\ r_bloom r' = r_bloom r /\ r_txHash r' = r_txHash r /\
  r_contract r' = r_contract r /\ r_gasUsed r' = r_gasUsed r /\ r_price r' = r_price r.

Lemma running_gas used rs : running used rs -> 0 <= gas_of rs.
Proof.
  revert used. induction rs as [|r rs IH]; intros used; [intros _; unfold gas_of; cbn; lia|]. intros (H1 & _ & _ & H2). apply IH in H2.
  change (gas_of (r :: rs)) with (r_gasUsed r + gas_of rs). lia.
Qed.

Lemma derive_all bh number txs : forall i v gp used v' total rs j li prev, apply_all config chain_ header i v txs gp used = Ok (v', Ok (total, rs)) ->
  running used rs -> 0 <= used -> used + gas_of rs < two64 -> (prev = None /\ used = 0 \/ prev = Some used) ->
  exists rs', derive_loop (Some (c_chainID config)) bh number (h_baseFee header) j li prev (map BlockFacts.receipt_core rs) txs = Ok rs' /\ Forall2 agrees rs rs'.
Proof.
  induction txs as [|tx txs IH]; intros i v gp used v' total rs j li prev; cbn [apply_all].
  { intros [= _ _ <-] _ _ _ _. exists []. split; [reflexivity | constructor]. }
  destruct (Tx.TxHash tx) as [[tx1 h]|] eqn:Et; [|discriminate]. destruct (TxHash_cached _ _ _ Et) as (Et1 & Hin & Hsnd).
  destruct (applyTransaction _ _ _ _ _ _ _ _) as [[v1 [[[gp1 used1] r]|e]]|] eqn:Ea; cbn [rbind]; [|discriminate..].
  destruct (apply_all _ _ _ _ _ _ _ _) as [[v2 [[tot rs1]|e]]|] eqn:Er; cbn [rbind]; [|discriminate..].
  intros [= -> -> <-] (Hg & Hcum & _ & Hrun) Hu Hmax Hprev. destruct (receipt_fields _ _ _ _ _ _ _ _ _ Ea) as (from & tx2 & h2 & Hs & Et2 & Hh & Hty & Hpr & Hco & ->).
  rewrite Et1 in Et2. injection Et2 as <- <-. rewrite Hin in *. rewrite (Sender_same _ _ _ Hin Hsnd) in Hs.
  pose proof (running_gas _ _ Hrun) as Hg0. change (gas_of (r :: rs1)) with (r_gasUsed r + gas_of rs1) in Hmax.
  cbn [map derive_loop]. change (r_cumulative (BlockFacts.receipt_core r)) with (r_cumulative r). rewrite Et, Hin. assert (snd (Tx.Sender (c_chainID config) tx1) = Ok from) as -> by (rewrite (Sender_same _ _ _ Hin Hsnd); exact Hs).
  destruct (derive_logs number bh h j li (r_logs (BlockFacts.receipt_core r))) as [ls li'].
  destruct (IH (i + 1) v1 gp1 (r_cumulative r) v' total rs1 (j + 1) li' (Some (r_cumulative r)) Er Hrun) as (rs' & Ed & Hall); [lia | lia | right; reflexivity|].
  assert ((match prev with None => r_cumulative r | Some p => r_cumulative r -w p end) = r_gasUsed r) as Eg.
  { destruct Hprev as [[-> ->]| ->]; [lia|]. rewrite Hcum. replace (r_gasUsed r) with (used + r_gasUsed r - used) at 2 by lia. apply wrap64_small. unfold u64_ok. lia. }
  destruct (Tx.to (Tx.inner tx)) as [dest|] eqn:Eto; cbn [rbind]; rewrite Ed; cbn [rbind]; eexists; (split; [reflexivity|]); (constructor; [|exact Hall]);
    unfold agrees; cbn [r_type r_status r_cumulative r_bloom r_txHash r_contract r_gasUsed r_price BlockFacts.receipt_core]; rewrite Hty, Hh, Hpr, Hco; unfold created; rewrite Eto;
    (split; [reflexivity|]); (split; [reflexivity|]); (split; [reflexivity|]); (split; [reflexivity|]); (split; [reflexivity|]); (split; [reflexivity|]); (split; [exact Eg | reflexivity]).
Qed.

(** What execution puts into a receipt is what a reader derives.  The
    receipts of an accepted block, stripped of every derived field as they are
    when stored, are filled in by [DeriveFields] from the block alone with the
    same transaction hash, type, price, contract address and gas used that
    execution recorded. *)
Theorem receipts_derivable block d fin d' rs logs used bh number : b_header block = header -> inv d -> 0 <= refund (world d) -> u64_ok (h_gasLimit header) ->
  Forall tx_ok (b_txs block) -> Process config chain_ block d fin = Ok (d', Ok (rs, logs, used)) ->
  exists rs', DeriveFields (map BlockFacts.receipt_core rs) (Some (c_chainID config)) bh number (h_baseFee header) (b_txs block) = Ok rs' /\ Forall2 agrees rs rs'.
Proof.
  intros Eh Hi H0 Hl Htxs. unfold Process. rewrite Eh. destruct (NewBlockContext _ _ _ _ _) as [env|]; [|discriminate].
  assert (AddGas 0 (h_gasLimit header) = h_gasLimit header) as -> by (unfold AddGas; apply wrap64_small; exact Hl).
  destruct (apply_all_ok (b_txs block) 0 (NewEVM d) (h_gasLimit header) 0) as (v & r & Ea & Hv & Hr);
    [split; [split; [exact Hi | constructor] | split; [reflexivity | exact H0]] | exact Htxs | exact Hl | lia | unfold u64_ok in Hl; lia|].
  rewrite Ea. cbn [rbind]. destruct r as [[u rs0]|e]; [|discriminate]. destruct Hr as (Hlen & Hu & Hmax & Hrun).
  destruct (applyRandao _ _ _) as [d1 [x|x]]; [|discriminate]. destruct (ProcessEpochBoundary _ _ _ _) as [[d2 [rep|rep]]|]; cbn [rbind]; [|discriminate..].
  destruct (negb _); [discriminate|]. intros [= _ -> _ _]. unfold DeriveFields.
  assert ((len (map BlockFacts.receipt_core rs) =? len (b_txs block)) = true) as -> by (apply Z.eqb_eq; unfold len; rewrite length_map, Hlen; reflexivity).
  cbn [negb]. eapply derive_all; [exact Ea | exact Hrun | lia | unfold u64_ok in Hl; lia | left; auto].
Qed.

End Blocks.

(** * Participation *)

Section Participation.
Context {E : Type}.

(** The certificate in the header of block [number] names [a]. *)
Definition certified (c : ChainContext E) (validators : list Address) (number : Z) (a : Address) : Prop :=
  exists header qc i, GetHeaderByNumber c number = Some header /\ DecodeQuorumCert (h_justification header) = Ok (Some qc) /\ Att.IsEmpty qc = false /\
    0 <= i < len validators /\ Att.Has (Att.ag_signers qc) i = true /\ validators !! Z.to_nat i = Some a.

Lemma attested_fold vs is_ : forall p a, a ∈ Life.Attested (fold_left (fun p i => Life.MarkAttested p (nth (Z.to_nat i) vs ZeroAddress)) is_ p) <->
  a ∈ Life.Attested p \/ exists i, i ∈ is_ /\ nth (Z.to_nat i) vs ZeroAddress = a.
Proof.
  induction is_ as [|i is_ IH]; intros p a; cbn [fold_left]; [set_solver|]. rewrite IH. cbn [Life.MarkAttested Life.Attested]. rewrite elem_of_union, elem_of_singleton.
  setoid_rewrite elem_of_cons. naive_solver.
Qed.

Lemma mark_block_attested c vs p number a : a ∈ Life.Attested (mark_block c vs p number) <-> a ∈ Life.Attested p \/ certified c vs number a.
Proof.
  unfold mark_block, certified. destruct (GetHeaderByNumber c number) as [header|]; [|split; [auto|]; intros [H|(h & qc & i & Hh & _)]; [exact H | discriminate]].
  set (p1 := Life.MarkProposed p _). change (Life.Attested p) with (Life.Attested p1).
  destruct (DecodeQuorumCert (h_justification header)) as [[qc|]|] eqn:Ed; [|split; [auto|]; intros [H|(h & qc & i & [= <-] & Hq & _)]; [exact H | congruence]..].
  destruct (Att.IsEmpty qc) eqn:Ee; [split; [auto|]; intros [H|(h & qc' & i & [= <-] & Hq & He & _)]; [exact H | congruence]|]. rewrite attested_fold.
  split; (intros [H|H]; [left; exact H | right]).
  - destruct H as (i & Hi & <-). unfold Att.Indices in Hi. apply list_elem_of_In, filter_In in Hi as [Hi Hh]. apply list_elem_of_In, elem_of_seqZ in Hi.
    exists header, qc, i. split; [reflexivity|]. split; [exact Ed|]. split; [exact Ee|]. split; [lia|]. split; [exact Hh|].
    destruct (lookup_lt_is_Some_2 vs (Z.to_nat i)) as [x Ex]; [unfold len in Hi; lia|]. rewrite Ex. f_equal. symmetry. apply nth_lookup_Some, Ex.
  - destruct H as (h & qc' & i & [= <-] & Hq & _ & Hi & Hh & Ha). rewrite Ed in Hq. injection Hq as <-. exists i. split; [|apply nth_lookup_Some; exact Ha].
    unfold Att.Indices. apply list_elem_of_In, filter_In. split; [apply list_elem_of_In, elem_of_seqZ; lia | exact Hh].
Qed.

Lemma marks_attested c vs ns : forall p a, a ∈ Life.Attested (fold_left (mark_block c vs) ns p) <-> a ∈ Life.Attested p \/ exists n, n ∈ ns /\ certified c vs n a.
Proof. induction ns as [|n ns IH]; intros p a; cbn [fold_left]; [set_solver|]. rewrite IH, mark_block_attested. set_solver. Qed.

(** Participation is what the chain shows.  After the first epoch, a
    validator counts as having attested in an epoch exactly when a non-empty
    certificate in the header of one of the epoch's 32 blocks has the bit of its
    position in the given set.  The position is looked up in the set of the epoch
    also for the certificate of its first block, which is for the last block of
    the epoch before. *)
Theorem participation_from_certificates (c : ChainContext E) epoch validators : 0 < epoch -> epoch * Reg.EpochLength + Reg.EpochLength < two64 ->
  exists p, EpochParticipation (Some c) epoch validators = Some p /\
    forall a, a ∈ Life.Attested p <-> exists number, epoch * Reg.EpochLength <= number < epoch * Reg.EpochLength + Reg.EpochLength /\ certified c validators number a.
Proof.
  intros He Hw. unfold EpochParticipation. destruct (Z.eqb_spec epoch 0); [lia|]. cbn [obind]. unfold Reg.EpochStart, Reg.EpochLength in *.
  assert (epoch *w 32 = epoch * 32) as -> by (apply wrap64_small; unfold u64_ok; lia).
  assert (epoch * 32 +w 32 = epoch * 32 + 32) as -> by (apply wrap64_small; unfold u64_ok; lia). eexists. split; [reflexivity|].
  intros a. rewrite marks_attested. replace (epoch * 32 + 32 - epoch * 32) with 32 by lia. split.
  - intros [H|(k & Hk & H)]; [cbn in H; set_solver|]. apply elem_of_seqZ in Hk. exists k. split; [lia | exact H].
  - intros (k & Hk & H). right. exists k. split; [apply elem_of_seqZ; lia | exact H].
Qed.

End Participation.
(** ** Witnesses *)

#[local] Existing Instances Reg.toy_keccak map_store Tx.one_key Facts.sample_bls Facts.sample_possession.

Definition at_height (number used : Z) (justification : bytes) : Header :=
  mkHeader ZeroHash proposer ZeroHash ZeroHash ZeroHash Bloom.zero_bloom (Some number) 100000 used 0 [] (Some 3) 0 [] justification [].

(** Half of a limit of 100000 is the target; a parent that used 90000 raises a fee
    of 4000000000 by four fifths of an eighth. *)
Definition busy_parent : Header :=
  mkHeader ZeroHash proposer ZeroHash ZeroHash ZeroHash Bloom.zero_bloom (Some 1) 100000 90000 0 [] (Some 4000000000) 0 [] [] [].

Lemma base_fee_follows_demand_witness : CalcBaseFee (DefaultConfig 7) (Some busy_parent) = Some 4400000000 /\
  exists f', CalcBaseFee (DefaultConfig 7) (Some (mkHeader ZeroHash proposer ZeroHash ZeroHash ZeroHash Bloom.zero_bloom (Some 1) 100000 95000 0 [] (Some 4000000000) 0 [] [] [])) = Some f' /\
    4400000000 <= f'.
Proof.
  assert (CalcBaseFee (DefaultConfig 7) (Some busy_parent) = Some 4400000000) as Ef by (vm_compute; reflexivity). split; [exact Ef|].
  destruct (base_fee_follows_demand (DefaultConfig 7) busy_parent 4000000000 95000) as (f & f' & E1 & _ & _ & _ & _ & _ & E2 & Hle);
    [split_and!; vm_compute; reflexivity | reflexivity | vm_compute; discriminate | vm_compute; reflexivity | vm_compute; split; discriminate | vm_compute; discriminate|].
  rewrite Ef in E1. injection E1 as <-. exists f'. split; [exact E2 | exact Hle].
Defined.

(** A chain without headers, and a block of two payments: one that succeeds and
    one that reverts. *)
Definition no_chain : ChainContext unit := mkChain (fun _ => None) None.
Definition second_payment : Tx.Transaction := Tx.NewTx (Tx.Legacy (Tx.mkLegacy 1 10 60000 (Some Machine.code_addr) 5 [1; 2] 49 1 1)).
Definition paying_block : Block := mkBlock (at_height 1 64176 []) [payment 30000 proposer; second_payment] None 0.

Lemma paying_ok : Forall tx_ok (b_txs paying_block).
Proof. repeat (constructor; [split; [repeat split; try (vm_compute; discriminate); try (vm_compute; reflexivity); repeat constructor; vm_compute; discriminate | vm_compute; discriminate]|]). constructor. Qed.

Definition receipts_of (r : result fault (StateDB * result (error unit) (list Receipt * list Log * Z))) : option (list (Z * Z * Z)) :=
  match r with Ok (_, Ok (rs, _, _)) => Some (map (fun r => (r_status r, r_gasUsed r, r_cumulative r)) rs) | _ => None end.

Lemma paid : receipts_of (Process (DefaultConfig 7) (Some no_chain) paying_block funded_db 0) = Some [(1, 21032, 21032); (0, 43144, 64176)].
Proof. vm_compute. reflexivity. Qed.

Lemma block_executed_witness : exists d' rs logs used, Process (DefaultConfig 7) (Some no_chain) paying_block funded_db 0 = Ok (d', Ok (rs, logs, used)) /\
  used = 64176 /\ length rs = 2%nat /\ running 0 rs /\ inv d'.
Proof.
  destruct (block_executed (DefaultConfig 7) (Some no_chain) (at_height 1 64176 []) (ex_intro _ 1 eq_refl) (ex_intro _ 3 eq_refl) paying_block funded_db 0 eq_refl)
    as (d' & r & Ep & Hi & H); [apply (funded_ready 0) | vm_compute; discriminate | vm_compute; split; [discriminate | reflexivity] | exact paying_ok | discriminate|].
  pose proof paid as Hp. rewrite Ep in Hp. destruct r as [[[rs logs] used]|e]; [|discriminate]. destruct (H rs logs used eq_refl) as (Hl & Hu & _ & _ & Hr).
  exists d', rs, logs, used. auto.
Defined.

Lemma receipts_derivable_witness : exists d' rs logs used rs', Process (DefaultConfig 7) (Some no_chain) paying_block funded_db 0 = Ok (d', Ok (rs, logs, used)) /\
  DeriveFields (map BlockFacts.receipt_core rs) (Some 7) ZeroHash 1 (Some 3) (b_txs paying_block) = Ok rs' /\ Forall2 agrees rs rs'.
Proof.
  destruct (Process (DefaultConfig 7) (Some no_chain) paying_block funded_db 0) as [[d' [[[rs logs] used]|e]]|] eqn:Ep;
    [|exfalso; pose proof paid as Hp; rewrite Ep in Hp; discriminate..].
  destruct (receipts_derivable (DefaultConfig 7) (Some no_chain) (at_height 1 64176 []) (ex_intro _ 1 eq_refl) (ex_intro _ 3 eq_refl) paying_block funded_db 0 d' rs logs used ZeroHash 1 eq_refl) as (rs' & Hd & Ha);
    [apply (funded_ready 0) | vm_compute; discriminate | vm_compute; split; [discriminate | reflexivity] | exact paying_ok | exact Ep|].
  exists d', rs, logs, used, rs'. auto.
Defined.

(** Block 64 carries the certificate of block 63, signed by the first validator. *)
Definition certificate : bytes := match EncodeQuorumCert (Att.mkAggregate 63 (zeros 32) [1] [9]) with Ok e => e | Err _ => [] end.
Definition boundary_chain : ChainContext unit := mkChain (fun n => if n =? 64 then Some (at_height 64 0 certificate) else None) None.

Lemma participation_from_certificates_witness : exists p, EpochParticipation (Some boundary_chain) 2 [[1]; [2]] = Some p /\ [1] ∈ Life.Attested p /\ [2] ∉ Life.Attested p.
Proof.
  destruct (participation_from_certificates boundary_chain 2 [[1]; [2]]) as (p & Ep & H); [lia | vm_compute; reflexivity|]. exists p. split; [exact Ep|].
  assert (bool_decide ([2] ∈ Life.Attested (default Life.NewParticipation (EpochParticipation (Some boundary_chain) 2 [[1]; [2]]))) = false) as Hn by (vm_compute; reflexivity).
  apply bool_decide_eq_false in Hn. rewrite Ep in Hn. split; [|exact Hn]. apply H. exists 64. split; [vm_compute; split; [discriminate | reflexivity]|].
  exists (at_height 64 0 certificate), (Att.mkAggregate 63 (zeros 32) [1] [9]), 0. split_and!; try (vm_compute; reflexivity); vm_compute; discriminate.
Defined.

End ProcFacts.
