(* ===== verification/Poa.v ===== *)
(** The round-based engine (src/consensus/poa.go): who may propose a block, when,
    and what a header must satisfy against its parent; with the 65-byte form of
    signatures (src/crypto/secp256k1/ecdsa.go).

    The chain the engine asks is given by functions: headers by hash, and where
    the set is dynamic a [Provider] of validator sets and proposers.  Readings of
    the clock are arguments, in Unix seconds, one per call of [now] in the code,
    so that time may pass between two readings.  [None] is a panic. *)

From stdpp Require Import base list sorting.
From Stdlib Require Import Sorting.Sorted.
From Stdlib Require Import ZArith Lia.
From S2P Require Import Prelude RLP Common Attestation Registry StateDB Precompiles Transaction CoreBlock.
Local Open Scope Z_scope.
Local Open Scope go_scope.

Module Poa.
Import Blk SDB.

(** * Signatures as bytes *)

Definition SignatureLength : Z := 65.

(** [Signature.Bytes]: [FillBytes] panics on an integer of more than 32 bytes. *)
Definition SignatureBytes (r s v : Z) : option bytes :=
  if (Z.abs r <? 2 ^ 256) && (Z.abs s <? 2 ^ 256) then Some (be_bytes 32 (Z.abs r) ++ be_bytes 32 (Z.abs s) ++ [v]) else None.

Definition ParseSignature (b : bytes) : option (Z * Z * Z) :=
  if negb (len b =? SignatureLength) then None
  else if 3 <? nth 64 b 0 then None
  else Some (be_val (take 32 b), be_val (take 32 (drop 32 b)), nth 64 b 0).

(** * The engine *)

Inductive error :=
| ErrUnauthorizedProposer
| ErrWrongProposerTurn
| ErrMissingSeal
| ErrInvalidSeal
| ErrFutureBlock
| ErrTimestampTooEarly
| ErrUnknownParent
| ErrInvalidNumber
| ErrNoValidators
| ErrListedTwice
| ErrExtraDataTooLong
| ErrRoundTooHigh
| ErrCoinbase
| ErrSigning.

Definition MaxExtraDataSize : Z := 32.
Definition AllowedFutureDrift : Z := 15.

(** What a chain answers; the error of [ValidatorsAt] is never looked at. *)
Record Provider := mkProvider
  { ValidatorsAt : Z -> option (list Address);
    ProposerAtHeight : Z -> Z -> option Address }.

Record PoA := mkPoA
  { validators : list Address; period : Z; roundTimeout : Z; provider : option Provider }.

Definition SetValidatorProvider (p : PoA) (v : Provider) : PoA := mkPoA (validators p) (period p) (roundTimeout p) (Some v).

Definition setFor (p : PoA) (blockNumber : Z) : list Address :=
  match provider p with
  | None => validators p
  | Some v =>
      match ValidatorsAt v blockNumber with
      | None | Some [] => validators p
      | Some set => SDB.sorted_keys set
      end
  end.

Fixpoint listed_twice (l : list Address) : bool :=
  match l with
  | a :: ((b :: _) as rest) => bool_decide (b = a) || listed_twice rest
  | _ => false
  end.

Definition NewPoA (vs : list Address) (period : Z) : result error PoA :=
  if len vs =? 0 then Err ErrNoValidators
  else
    let sorted := SDB.sorted_keys vs in
    if listed_twice sorted then Err ErrListedTwice
    else
      let period := if period =? 0 then 1 else period in
      Ok (mkPoA sorted period period None).

Definition SetRoundTimeout (p : PoA) (seconds : Z) : PoA :=
  mkPoA (validators p) (period p) (if seconds =? 0 then 1 else seconds) (provider p).

Definition Quorum (p : PoA) : Z := Att.Quorum (len (validators p)).
Definition QuorumFor (p : PoA) (blockNumber : Z) : Z := Att.Quorum (len (setFor p blockNumber)).
Definition IsValidator (p : PoA) (addr : Address) : bool := existsb (fun v => bool_decide (v = addr)) (validators p).
Definition IsValidatorAt (p : PoA) (addr : Address) (blockNumber : Z) : bool :=
  existsb (fun v => bool_decide (v = addr)) (setFor p blockNumber).

(** ** The schedule *)

Definition ProposerAtRound (p : PoA) (number round : Z) : result error Address :=
  match (let? v := provider p in ProposerAtHeight v number round) with
  | Some proposer => Ok proposer
  | None =>
      let set := setFor p number in
      if len set =? 0 then Err ErrNoValidators
      else Ok (nth (Z.to_nat ((number +w round) mod len set)) set ZeroAddress)
  end.

Definition ProposerAt (p : PoA) (number : Z) : result error Address := ProposerAtRound p number 0.

Definition earliestTimeFor (p : PoA) (parentTime round : Z) : Z :=
  parentTime +w period p +w round *w roundTimeout p.

Definition RoundFor (p : PoA) (parentTime now : Z) : Z :=
  let now := wrap64 now in
  let earliest := earliestTimeFor p parentTime 0 in
  if (now <=? earliest) || (roundTimeout p =? 0) then 0 else (now - earliest) / roundTimeout p.

(** The round a proposer claims: no more rounds than validators. *)
Definition round_at (p : PoA) (number parentTime now : Z) : Z :=
  let round := RoundFor p parentTime now in
  let max := len (setFor p number) in
  if max <? round then max else round.

Definition IsMyTurn (p : PoA) (addr : Address) (nextNumber parentTime now : Z) : bool :=
  match ProposerAtRound p nextNumber (round_at p nextNumber parentTime now) with
  | Ok proposer => bool_decide (proposer = addr)
  | Err _ => false
  end.

Section Seals.
Context `{K : Keccak} `{C : NativeCrypto}.

(** The address of a public key. *)
Definition address_of (pub : bytes) : Address := BytesToAddress (drop 12 (Keccak256 [pub])).

Definition Author (header : Header) : option (result error Address) :=
  if len (h_seal header) =? 0 then Some (Err ErrMissingSeal)
  else
    match ParseSignature (h_seal header) with
    | None => Some (Err ErrInvalidSeal)
    | Some (r, s, v) =>
        let? digest := SealingHash header in
        match Recover digest r s v with
        | None => Some (Err ErrInvalidSeal)
        | Some pub => Some (Ok (address_of pub))
        end
    end.

Definition VerifyHeader (p : PoA) (header : Header) (parent : option Header) (now : Z) : option (result error unit) :=
  match h_number header with
  | None => Some (Err ErrInvalidNumber)
  | Some number =>
      match parent with
      | None => Some (Err ErrUnknownParent)
      | Some parent =>
          let? above := h_number parent in
          if negb (number =? above + 1) then Some (Err ErrInvalidNumber)
          else
            let? ph := HeaderHash parent in
            if negb (bool_decide (h_parentHash header = ph)) then Some (Err ErrUnknownParent)
            else if MaxExtraDataSize <? len (h_extra header) then Some (Err ErrExtraDataTooLong)
            else if len (setFor p (NumberU64 header)) <? h_round header then Some (Err ErrRoundTooHigh)
            else if h_time header <? earliestTimeFor p (h_time parent) (h_round header) then Some (Err ErrTimestampTooEarly)
            else if wrap64 (now + AllowedFutureDrift) <? h_time header then Some (Err ErrFutureBlock)
            else
              let? author := Author header in
              match author with
              | Err e => Some (Err e)
              | Ok proposer =>
                  if negb (IsValidatorAt p proposer (NumberU64 header)) then Some (Err ErrUnauthorizedProposer)
                  else
                    match ProposerAtRound p (wrap64 number) (h_round header) with
                    | Err e => Some (Err e)
                    | Ok expected =>
                        if negb (bool_decide (proposer = expected)) then Some (Err ErrWrongProposerTurn)
                        else if negb (bool_decide (h_coinbase header = proposer)) then Some (Err ErrCoinbase)
                        else Some (Ok tt)
                    end
              end
      end
  end.

Definition with_turn (h : Header) (round : Z) (coinbase : Address) (time : Z) : Header :=
  mkHeader (h_parentHash h) coinbase (h_stateRoot h) (h_txRoot h) (h_receiptRoot h) (h_bloom h) (h_number h) (h_gasLimit h) (h_gasUsed h)
    time (h_extra h) (h_baseFee h) round (h_randaoReveal h) (h_justification h) (h_seal h).

(** [now] is read twice: for the round, and for the timestamp. *)
Definition Prepare (p : PoA) (GetHeaderByHash : Hash -> option Header) (header : Header) (now now' : Z) : Header * result error unit :=
  match GetHeaderByHash (h_parentHash header) with
  | None => (header, Err ErrUnknownParent)
  | Some parent =>
      let round := round_at p (NumberU64 header) (h_time parent) now in
      match ProposerAtRound p (NumberU64 header) round with
      | Err e => (with_turn header round (h_coinbase header) (h_time header), Err e)
      | Ok proposer =>
          let earliest := earliestTimeFor p (h_time parent) round in
          let now := wrap64 now' in
          (with_turn header round proposer (if now <? earliest then earliest else now), Ok tt)
      end
  end.

Definition Seal `{S : !Signing} (p : PoA) (block : Block) (key : PrivateKey) : option (result error Block) :=
  match ProposerAtRound p (NumberU64 (b_header block)) (h_round (b_header block)) with
  | Err e => Some (Err e)
  | Ok proposer =>
      if negb (bool_decide (address_of (Public key) = proposer)) then Some (Err ErrWrongProposerTurn)
      else
        let? digest := SealingHash (b_header block) in
        match Sign key digest with
        | None => Some (Err ErrSigning)
        | Some (r, s, v) => let? sig := SignatureBytes r s v in Some (Ok (WithSeal block sig))
        end
  end.

End Seals.

(** * Signatures are read back *)

Lemma signature_roundtrip r s v : 0 <= r < 2 ^ 256 -> 0 <= s < 2 ^ 256 -> 0 <= v < 4 ->
  exists b, SignatureBytes r s v = Some b /\ ParseSignature b = Some (r, s, v) /\ len b = SignatureLength.
Proof.
  intros Hr Hs Hv. unfold SignatureBytes. rewrite !Z.abs_eq by lia.
  destruct (Z.ltb_spec r (2 ^ 256)), (Z.ltb_spec s (2 ^ 256)); try lia. cbn [andb]. eexists. split; [reflexivity|].
  set (b := be_bytes 32 r ++ be_bytes 32 s ++ [v]).
  assert (len b = 65) as Hl by (subst b; rewrite !len_app, !len_be_bytes; reflexivity).
  assert (take 32 b = be_bytes 32 r) as E1 by (subst b; apply take_app_length'; rewrite length_be_bytes; reflexivity).
  assert (drop 32 b = be_bytes 32 s ++ [v]) as E2 by (subst b; apply drop_app_length'; rewrite length_be_bytes; reflexivity).
  assert (nth 64 b 0 = v) as E3.
  { subst b. rewrite app_nth2; rewrite length_be_bytes; [|lia]. rewrite app_nth2; rewrite length_be_bytes; [|lia]. reflexivity. }
  unfold ParseSignature. rewrite Hl, E1, E2, E3. rewrite take_app_length' by (rewrite length_be_bytes; reflexivity).
  rewrite !be_val_be_bytes. change (256 ^ Z.of_nat 32) with (2 ^ 256). rewrite !Z.mod_small by lia.
  destruct (Z.ltb_spec 3 v); [lia|]. split; reflexivity.
Qed.

(** * Validator sets *)

#[local] Existing Instances SDB.leb_total SDB.leb_trans.

Lemma sorted_keys_perm l : sorted_keys l ≡ₚ l.
Proof. apply merge_sort_Permutation. Qed.

Lemma sorted_keys_sorted l : StronglySorted (fun a b => Is_true (bytes_leb a b)) (sorted_keys l).
Proof. apply Sorted_StronglySorted; [exact SDB.leb_trans | apply (Sorted_merge_sort _)]. Qed.

(** In a sorted list equal elements are neighbours. *)
Lemma listed_once l : StronglySorted (fun a b => Is_true (bytes_leb a b)) l -> listed_twice l = false -> NoDup l.
Proof.
  induction 1 as [|a l Hs IH Hall]; [constructor|]. intros H. constructor.
  - destruct l as [|b l]; [inversion 1|]. cbn in H. apply orb_false_iff in H as [Hne _]. apply bool_decide_eq_false in Hne.
    inversion Hall as [|? ? Hab _]; subst. inversion Hs as [|? ? _ Hb]; subst. intros [Ha|Ha]%elem_of_cons; [congruence|].
    rewrite Forall_forall in Hb. apply Hb in Ha. apply Hne, bytes_leb_antisym; apply Is_true_true; assumption.
  - apply IH. destruct l; [reflexivity|]. cbn in H. apply orb_false_iff in H as [_ H]. exact H.
Qed.

(** An engine as the constructors build it. *)
Definition engine_ok (p : PoA) : Prop :=
  validators p <> [] /\ NoDup (validators p) /\ 0 < period p /\ 0 < roundTimeout p.

Lemma NewPoA_ok vs t p : 0 <= t -> NewPoA vs t = Ok p -> engine_ok p /\ validators p ≡ₚ vs.
Proof.
  unfold NewPoA. intros Ht. destruct (Z.eqb_spec (len vs) 0) as [E|E]; [discriminate|].
  destruct (listed_twice _) eqn:El; [discriminate|]. intros [= <-]. cbn. pose proof (sorted_keys_perm vs) as Hp.
  split; [|exact Hp]. split; [|split; [apply listed_once; [apply sorted_keys_sorted | exact El]|]].
  - cbn. intros Ev. rewrite Ev in Hp. apply Permutation_nil_l in Hp. subst. apply E. reflexivity.
  - cbn. destruct (Z.eqb_spec t 0); lia.
Qed.

Lemma SetRoundTimeout_ok p t : 0 <= t -> engine_ok p -> engine_ok (SetRoundTimeout p t).
Proof. intros Ht (H1 & H2 & H3 & H4). unfold engine_ok, SetRoundTimeout. cbn. destruct (Z.eqb_spec t 0); auto with lia. Qed.

Lemma setFor_nonempty p n : engine_ok p -> 0 < len (setFor p n).
Proof.
  intros (H & _). unfold setFor. assert (0 < len (validators p)) as Hv by (unfold len; destruct (validators p); [done | cbn; lia]).
  destruct (provider p) as [v|]; [|exact Hv]. destruct (ValidatorsAt v n) as [[|a l]|]; try exact Hv.
  pose proof (Permutation_length (sorted_keys_perm (a :: l))) as E. unfold len. rewrite E. cbn. lia.
Qed.

Lemma IsValidatorAt_spec p a n : IsValidatorAt p a n = true <-> a ∈ setFor p n.
Proof.
  unfold IsValidatorAt. rewrite existsb_exists. split.
  - intros (x & Hx & E). apply bool_decide_eq_true in E. subst. apply list_elem_of_In. exact Hx.
  - intros H. exists a. split; [apply list_elem_of_In; exact H | apply bool_decide_eq_true; reflexivity].
Qed.

(** * The schedule *)

(** A chain that draws proposers draws them from the set it reports. *)
Definition provider_ok (p : PoA) : Prop :=
  forall v n r a, provider p = Some v -> ProposerAtHeight v n r = Some a -> a ∈ setFor p n.

Lemma proposer_exists p n r : engine_ok p -> provider_ok p -> exists a, ProposerAtRound p n r = Ok a /\ a ∈ setFor p n.
Proof.
  intros Hp Hv. pose proof (setFor_nonempty p n Hp) as Hl. unfold ProposerAtRound.
  assert (exists a, (if len (setFor p n) =? 0 then Err ErrNoValidators else Ok (nth (Z.to_nat ((n +w r) mod len (setFor p n))) (setFor p n) ZeroAddress)) = Ok a /\ a ∈ setFor p n) as Hd.
  { destruct (Z.eqb_spec (len (setFor p n)) 0); [lia|]. eexists. split; [reflexivity|]. apply list_elem_of_In, nth_In.
    pose proof (Z.mod_pos_bound (n +w r) (len (setFor p n)) Hl). unfold len in *. lia. }
  destruct (provider p) as [v|] eqn:Ev; cbn [obind]; [|exact Hd]. destruct (ProposerAtHeight v n r) as [a|] eqn:Ea; [|exact Hd].
  exists a. split; [reflexivity | eapply Hv; eauto].
Qed.

(** Timestamps that do not reach the end of [uint64] before the last round. *)
Definition clock_ok (p : PoA) (number parentTime : Z) : Prop :=
  0 <= parentTime /\ parentTime + period p + len (setFor p number) * roundTimeout p < two64.

Lemma earliest_small p number parentTime round : engine_ok p -> clock_ok p number parentTime -> 0 <= round <= len (setFor p number) ->
  earliestTimeFor p parentTime round = parentTime + period p + round * roundTimeout p.
Proof.
  intros (_ & _ & Hp & Ht) [H0 H] Hr. unfold earliestTimeFor. assert (round * roundTimeout p <= len (setFor p number) * roundTimeout p) by nia.
  assert (0 <= round * roundTimeout p) by nia. rewrite (wrap64_small (round * _)) by (unfold u64_ok; lia).
  rewrite (wrap64_small (parentTime + _)) by (unfold u64_ok; lia). apply wrap64_small. unfold u64_ok. lia.
Qed.

(** The rounds as intervals of time. *)
Lemma RoundFor_spec p number parentTime now r : engine_ok p -> clock_ok p number parentTime -> u64_ok now -> 0 <= r ->
  (r = 0 \/ parentTime + period p + r * roundTimeout p <= now) -> now < parentTime + period p + (r + 1) * roundTimeout p ->
  RoundFor p parentTime now = r.
Proof.
  intros Hp Hc Hn Hr Hlo Hhi. pose proof (setFor_nonempty p number Hp) as Hl. unfold RoundFor.
  rewrite (earliest_small p number parentTime 0) by (auto; lia). rewrite wrap64_small by exact Hn.
  destruct Hp as (_ & _ & Hpp & Ht). destruct (Z.eqb_spec (roundTimeout p) 0); [lia|]. rewrite orb_false_r.
  destruct (Z.leb_spec now (parentTime + period p + 0 * roundTimeout p)).
  - destruct Hlo as [->|Hlo]; [reflexivity|]. nia.
  - symmetry. apply (Z.div_unique_pos _ _ r (now - (parentTime + period p + 0 * roundTimeout p) - r * roundTimeout p)); [|lia].
    destruct Hlo as [->|Hlo]; lia.
Qed.

Lemma round_at_bounds p number parentTime now : engine_ok p -> 0 <= round_at p number parentTime now <= len (setFor p number).
Proof.
  intros Hp. pose proof (setFor_nonempty p number Hp) as Hl. destruct Hp as (_ & _ & _ & Ht). unfold round_at.
  assert (0 <= RoundFor p parentTime now) as H0.
  { unfold RoundFor. set (e := earliestTimeFor _ _ _). set (n := wrap64 now). destruct (Z.leb_spec n e); cbn [orb]; [lia|].
    destruct (Z.eqb_spec (roundTimeout p) 0); [lia|]. apply Z.div_pos; lia. }
  destruct (Z.ltb_spec (len (setFor p number)) (RoundFor p parentTime now)); lia.
Qed.

(** A round above zero has opened when it is claimed. *)
Lemma round_at_open p number parentTime now : engine_ok p -> clock_ok p number parentTime -> u64_ok now ->
  round_at p number parentTime now = 0 \/ parentTime + period p + round_at p number parentTime now * roundTimeout p <= now.
Proof.
  intros Hp Hc Hn. pose proof (setFor_nonempty p number Hp) as Hl. unfold round_at, RoundFor.
  rewrite (earliest_small p number parentTime 0) by (auto; lia). rewrite wrap64_small by exact Hn.
  destruct Hp as (_ & _ & Hpp & Ht). destruct (Z.eqb_spec (roundTimeout p) 0); [lia|]. rewrite orb_false_r.
  destruct (Z.leb_spec now (parentTime + period p + 0 * roundTimeout p)) as [H|H].
  - left. destruct (Z.ltb_spec (len (setFor p number)) 0); lia.
  - right. set (d := now - _). pose proof (Z.mul_div_le d (roundTimeout p) Ht) as Hd.
    destruct (Z.ltb_spec (len (setFor p number)) (d / roundTimeout p)); subst d; nia.
Qed.

Lemma static_proposer p number r : engine_ok p -> provider p = None -> 0 <= number -> 0 <= r -> number + r < two64 ->
  ProposerAtRound p number r = Ok (nth (Z.to_nat ((number + r) mod len (validators p))) (validators p) ZeroAddress).
Proof.
  intros Hp Hs Hn Hr Hb. pose proof (setFor_nonempty p number Hp) as Hl. unfold ProposerAtRound. unfold setFor in *. rewrite Hs in *. cbn [obind].
  destruct (Z.eqb_spec (len (validators p)) 0); [lia|]. rewrite wrap64_small by (unfold u64_ok; lia). reflexivity.
Qed.

(** Two rounds of one cycle that point at the same place are the same. *)
Lemma rotation_inj n number r r' : 0 < n -> 0 <= r < n -> 0 <= r' < n -> (number + r) mod n = (number + r') mod n -> r = r'.
Proof.
  intros Hn Hr Hr' E. assert ((r - r') mod n = 0) as Hm.
  { replace (r - r') with ((number + r) - (number + r')) by lia. rewrite Zminus_mod, E, Z.sub_diag. apply Z.mod_0_l. lia. }
  apply Z.mod_divide in Hm as [k Hk]; [|lia]. assert (k = 0) by nia. lia.
Qed.

Lemma rotation_hits p number a : engine_ok p -> a ∈ validators p ->
  exists r, 0 <= r < len (validators p) /\ nth (Z.to_nat ((number + r) mod len (validators p))) (validators p) ZeroAddress = a.
Proof.
  intros Hp Ha. apply list_elem_of_In, (In_nth _ _ ZeroAddress) in Ha as (i & Hi & Ei). set (n := len (validators p)).
  assert (0 < n) by (subst n; unfold len; lia). exists ((Z.of_nat i - number) mod n). split; [apply Z.mod_pos_bound; lia|].
  rewrite Zplus_mod_idemp_r. replace (number + (Z.of_nat i - number)) with (Z.of_nat i) by lia.
  rewrite Z.mod_small by (subst n; unfold len; lia). rewrite Nat2Z.id. exact Ei.
Qed.

Lemma rotation_once p number a r r' : engine_ok p -> 0 <= r < len (validators p) -> 0 <= r' < len (validators p) ->
  nth (Z.to_nat ((number + r) mod len (validators p))) (validators p) ZeroAddress = a ->
  nth (Z.to_nat ((number + r') mod len (validators p))) (validators p) ZeroAddress = a -> r' = r.
Proof.
  intros (_ & Hnd & _) Hr Hr' <- E. apply NoDup_ListNoDup in Hnd. set (n := len (validators p)) in *. assert (0 < n) by lia.
  pose proof (Z.mod_pos_bound (number + r) n H). pose proof (Z.mod_pos_bound (number + r') n H).
  rewrite (NoDup_nth _ ZeroAddress) in Hnd. apply Hnd in E; [|subst n; unfold len in *; lia..].
  apply (rotation_inj n number); [lia..|]. apply Z2Nat.inj; lia.
Qed.

(** The round the clock is in, where it is one of the set's. *)
Lemma round_of_time p number parentTime now : engine_ok p -> clock_ok p number parentTime -> u64_ok now ->
  now < parentTime + period p + len (setFor p number) * roundTimeout p ->
  exists r, round_at p number parentTime now = r /\ 0 <= r < len (setFor p number) /\
    (r = 0 \/ parentTime + period p + r * roundTimeout p <= now) /\ now < parentTime + period p + (r + 1) * roundTimeout p.
Proof.
  intros Hp Hc Hn Hlt. pose proof (setFor_nonempty p number Hp) as Hl. destruct (Hp) as (_ & _ & _ & Ht).
  set (b := parentTime + period p) in *. set (r := if now <? b then 0 else (now - b) / roundTimeout p).
  assert (0 <= r /\ (r = 0 \/ b + r * roundTimeout p <= now) /\ now < b + (r + 1) * roundTimeout p) as (H0 & Hlo & Hhi).
  { subst r. destruct (Z.ltb_spec now b); [repeat split; [lia | left; reflexivity | lia]|].
    pose proof (Z.mul_div_le (now - b) (roundTimeout p) Ht). pose proof (Z.mul_succ_div_gt (now - b) (roundTimeout p) Ht).
    split; [apply Z.div_pos; lia | split; [right; nia | nia]]. }
  assert (r < len (setFor p number)) as Hr by (destruct Hlo as [->|Hlo]; [lia | nia]).
  exists r. split; [|auto]. unfold round_at. rewrite (RoundFor_spec p number parentTime now r) by auto.
  destruct (Z.ltb_spec (len (setFor p number)) r); [lia | reflexivity].
Qed.

(** Every validator has its turn.  With a fixed set of [n] validators each of
    them is the proposer of exactly one of the first [n] rounds of a height, and
    the engine gives it the turn for exactly the time that round lasts (the first
    one begins with the parent): one outage costs one round, not the chain. *)
Theorem every_validator_has_its_round p number parentTime a : engine_ok p -> provider p = None -> a ∈ validators p ->
  clock_ok p number parentTime -> 0 <= number -> number + len (validators p) < two64 ->
  exists r, 0 <= r < len (validators p) /\ ProposerAtRound p number r = Ok a /\
    (forall r', 0 <= r' < len (validators p) -> ProposerAtRound p number r' = Ok a -> r' = r) /\
    (forall now, u64_ok now -> now < parentTime + period p + len (validators p) * roundTimeout p ->
      IsMyTurn p a number parentTime now = true <->
      (r = 0 \/ parentTime + period p + r * roundTimeout p <= now) /\ now < parentTime + period p + (r + 1) * roundTimeout p).
Proof.
  intros Hp Hs Ha Hc Hn Hb. assert (setFor p number = validators p) as Eset by (unfold setFor; rewrite Hs; reflexivity).
  destruct (rotation_hits p number a Hp Ha) as (r & Hr & Er). exists r. split; [exact Hr|].
  assert (forall r', 0 <= r' < len (validators p) -> ProposerAtRound p number r' = Ok a -> r' = r) as Huniq.
  { intros r' Hr' E. rewrite static_proposer in E by (auto; lia). injection E as E. apply (rotation_once p number a); auto. }
  split; [rewrite static_proposer by (auto; lia); rewrite Er; reflexivity|]. split; [exact Huniq|].
  intros now Hnow Hlt. destruct (round_of_time p number parentTime now) as (r' & Er' & Hr' & Hlo & Hhi); [auto..|rewrite Eset; exact Hlt|].
  rewrite Eset in Hr'. unfold IsMyTurn. rewrite Er'. split.
  - destruct (ProposerAtRound p number r') as [q|] eqn:E; [|discriminate]. intros Hq. apply bool_decide_eq_true in Hq. subst q.
    apply Huniq in E; [|exact Hr']. rewrite <- E. auto.
  - intros [Hlo' Hhi']. destruct Hp as (Hp1 & Hp2 & Hp3 & Ht). assert (r' = r) as -> by (destruct Hlo, Hlo'; nia).
    rewrite static_proposer by (repeat split; auto; lia). rewrite Er. apply bool_decide_eq_true. reflexivity.
Qed.

(** After the last round there are no more.  Once as many rounds have passed as
    there are validators the engine gives the turn to the proposer of round zero,
    and to nobody else, however much time passes: if that validator is down the
    height waits for it. *)
Theorem last_round_is_final p number parentTime now a : engine_ok p -> provider p = None -> clock_ok p number parentTime ->
  0 <= number -> number + len (validators p) < two64 ->
  u64_ok now -> parentTime + period p + len (validators p) * roundTimeout p <= now ->
  IsMyTurn p a number parentTime now = true <-> ProposerAt p number = Ok a.
Proof.
  intros Hp Hs Hc Hn Hb Hnow Hlate. assert (setFor p number = validators p) as Eset by (unfold setFor; rewrite Hs; reflexivity).
  pose proof (setFor_nonempty p number Hp) as Hl. rewrite Eset in Hl.
  assert (round_at p number parentTime now = len (validators p)) as Er.
  { unfold round_at. rewrite Eset. unfold RoundFor. rewrite (earliest_small p number parentTime 0) by (auto; rewrite ?Eset; lia).
    rewrite wrap64_small by exact Hnow. destruct Hp as (_ & _ & Hpp & Ht). destruct (Z.eqb_spec (roundTimeout p) 0); [lia|]. rewrite orb_false_r.
    destruct (Z.leb_spec now (parentTime + period p + 0 * roundTimeout p)); [nia|].
    assert (len (validators p) <= (now - (parentTime + period p + 0 * roundTimeout p)) / roundTimeout p) by (apply Z.div_le_lower_bound; lia).
    destruct (Z.ltb_spec (len (validators p)) ((now - (parentTime + period p + 0 * roundTimeout p)) / roundTimeout p)); lia. }
  unfold IsMyTurn, ProposerAt. rewrite Er, !static_proposer by (auto; lia).
  replace ((number + len (validators p)) mod len (validators p)) with ((number + 0) mod len (validators p))
    by (rewrite Z.add_0_r, <- (Z.mul_1_l (len (validators p))) at 1; rewrite ?Z.mul_1_l; symmetry; rewrite <- (Z.mul_1_l (len (validators p))) at 1; apply Z.mod_add; lia).
  rewrite bool_decide_eq_true. split; [intros ->; reflexivity | intros [= ->]; reflexivity].
Qed.

(** * Headers *)

Section Headers.
Context `{K : Keccak} `{C : NativeCrypto}.

(** What acceptance of a header says, and that it says no more. *)
Definition accepted (p : PoA) (h parent : Header) (now : Z) : Prop :=
  exists m, h_number parent = Some m /\ h_number h = Some (m + 1) /\ HeaderHash parent = Some (h_parentHash h) /\
    len (h_extra h) <= MaxExtraDataSize /\ h_round h <= len (setFor p (NumberU64 h)) /\
    earliestTimeFor p (h_time parent) (h_round h) <= h_time h <= wrap64 (now + AllowedFutureDrift) /\
    Author h = Some (Ok (h_coinbase h)) /\ h_coinbase h ∈ setFor p (NumberU64 h) /\ ProposerAtRound p (NumberU64 h) (h_round h) = Ok (h_coinbase h).

Lemma VerifyHeader_spec p h parent now : VerifyHeader p h (Some parent) now = Some (Ok tt) <-> accepted p h parent now.
Proof.
  unfold VerifyHeader, accepted. split.
  - destruct (h_number h) as [n|] eqn:En; [|discriminate]. destruct (h_number parent) as [m|]; [|discriminate]. cbn [obind].
    destruct (Z.eqb_spec n (m + 1)) as [->|]; [|discriminate]. destruct (HeaderHash parent) as [ph|]; [|discriminate]. cbn [obind negb].
    case_bool_decide as Eh; [|discriminate]. cbn [negb]. destruct (Z.ltb_spec MaxExtraDataSize (len (h_extra h))); [discriminate|].
    destruct (Z.ltb_spec (len (setFor p (NumberU64 h))) (h_round h)); [discriminate|]. destruct (Z.ltb_spec (h_time h) (earliestTimeFor p (h_time parent) (h_round h))); [discriminate|].
    destruct (Z.ltb_spec (wrap64 (now + AllowedFutureDrift)) (h_time h)); [discriminate|]. destruct (Author h) as [[a|e]|]; [|discriminate..]. cbn [obind].
    destruct (IsValidatorAt p a (NumberU64 h)) eqn:Ev; [|discriminate]. apply IsValidatorAt_spec in Ev. cbn [negb].
    assert (NumberU64 h = wrap64 (m + 1)) as En' by (unfold NumberU64; rewrite En; reflexivity). rewrite <- En'.
    destruct (ProposerAtRound p (NumberU64 h) (h_round h)) as [x|]; [|discriminate]. case_bool_decide as Ea; [|discriminate]. cbn [negb].
    case_bool_decide as Ec; [|discriminate]. intros _. subst. exists m. auto 12 with lia.
  - intros (m & -> & En & Eh & He & Hr & [Ht1 Ht2] & Ea & Hin & Hpr). rewrite En. cbn [obind]. rewrite Z.eqb_refl, Eh. cbn [negb obind].
    rewrite bool_decide_true by reflexivity. cbn [negb]. destruct (Z.ltb_spec MaxExtraDataSize (len (h_extra h))); [lia|].
    destruct (Z.ltb_spec (len (setFor p (NumberU64 h))) (h_round h)); [lia|]. destruct (Z.ltb_spec (h_time h) (earliestTimeFor p (h_time parent) (h_round h))); [lia|].
    destruct (Z.ltb_spec (wrap64 (now + AllowedFutureDrift)) (h_time h)); [lia|]. rewrite Ea. cbn [obind]. apply IsValidatorAt_spec in Hin. rewrite Hin. cbn [negb].
    assert (wrap64 (m + 1) = NumberU64 h) as -> by (unfold NumberU64; rewrite En; reflexivity). rewrite Hpr, !bool_decide_true by reflexivity. reflexivity.
Qed.

(** C21: an accepted header was sealed in turn and in time.  It extends its parent
    by one, the key that signed its content is the one the schedule names for its
    round and is credited as its coinbase, and it is stamped after every earlier
    round of the height has passed; two accepted children of a parent in one
    round have the same proposer. *)
Theorem accepted_in_turn p h parent now : engine_ok p -> VerifyHeader p h (Some parent) now = Some (Ok tt) ->
  clock_ok p (NumberU64 h) (h_time parent) -> 0 <= h_round h ->
  (exists m, h_number parent = Some m /\ h_number h = Some (m + 1)) /\ HeaderHash parent = Some (h_parentHash h) /\
  Author h = Some (Ok (h_coinbase h)) /\ h_coinbase h ∈ setFor p (NumberU64 h) /\
  ProposerAtRound p (NumberU64 h) (h_round h) = Ok (h_coinbase h) /\
  h_time parent + period p + h_round h * roundTimeout p <= h_time h /\ h_time parent < h_time h /\
  forall h' now', VerifyHeader p h' (Some parent) now' = Some (Ok tt) -> h_round h' = h_round h -> h_coinbase h' = h_coinbase h.
Proof.
  intros Hp Hv Hc H0. apply VerifyHeader_spec in Hv as (m & Em & En & Eh & _ & Hr & [Ht _] & Ea & Hin & Hpr).
  rewrite (earliest_small p (NumberU64 h)) in Ht by auto. assert (h_time parent < h_time h) as Hlt by (destruct Hp as (_ & _ & ? & ?); nia).
  split; [eauto|]. split; [exact Eh|]. do 3 (split; [assumption|]). split; [exact Ht|]. split; [exact Hlt|].
  intros h' now' Hv' Er. apply VerifyHeader_spec in Hv' as (m' & Em' & En' & _ & _ & _ & _ & _ & _ & Hpr').
  assert (NumberU64 h' = NumberU64 h) as E by (unfold NumberU64; rewrite En, En'; congruence). rewrite E, Er, Hpr in Hpr'. congruence.
Qed.

(** A header that differs from the prepared one in what the builder fills in. *)
Definition same_turn (h h' : Header) : Prop :=
  h_number h' = h_number h /\ h_parentHash h' = h_parentHash h /\ h_coinbase h' = h_coinbase h /\ h_time h' = h_time h /\
  h_extra h' = h_extra h /\ h_round h' = h_round h.

(** The turn [Prepare] fills in. *)
Lemma turn_prepared p lookup parent h now now' : engine_ok p -> provider_ok p -> lookup (h_parentHash h) = Some parent -> clock_ok p (NumberU64 h) (h_time parent) ->
  u64_ok now -> u64_ok now' -> now <= now' ->
  exists r a t, Prepare p lookup h now now' = (with_turn h r a t, Ok tt) /\ ProposerAtRound p (NumberU64 h) r = Ok a /\ a ∈ setFor p (NumberU64 h) /\
    r <= len (setFor p (NumberU64 h)) /\ earliestTimeFor p (h_time parent) r <= t <= Z.max now' (h_time parent + period p).
Proof.
  intros Hp Hpr El Hc Hn Hn' Hle. unfold Prepare. rewrite El. set (r := round_at p (NumberU64 h) (h_time parent) now).
  destruct (proposer_exists p (NumberU64 h) r Hp Hpr) as (a & Ea & Hin). rewrite Ea. eexists _, _, _. split; [reflexivity|].
  pose proof (round_at_bounds p (NumberU64 h) (h_time parent) now Hp) as Hr. fold r in Hr.
  pose proof (round_at_open p (NumberU64 h) (h_time parent) now Hp Hc Hn) as Ho. fold r in Ho.
  pose proof (earliest_small p (NumberU64 h) (h_time parent) r Hp Hc Hr) as Ee. rewrite (wrap64_small now') by exact Hn'.
  split; [exact Ea|]. split; [exact Hin|]. split; [lia|]. destruct (Z.ltb_spec now' (earliestTimeFor p (h_time parent) r)); rewrite Ee in *; [|lia]. destruct Ho as [->|Ho]; lia.
Qed.

(** The seal a key makes names its address. *)
Lemma author_sealed `{S : !Signing} h key digest r s v : SealingHash h = Some digest -> Sign key digest = Some (r, s, v) ->
  exists sig, SignatureBytes r s v = Some sig /\ Author (with_seal h sig) = Some (Ok (address_of (Public key))).
Proof.
  intros Hd Hs. destruct (Sign_range _ _ _ _ _ Hs) as (Hsr & Hss & Hsv). apply andb_true_iff in Hss as [Hss1 Hss2]. apply Z.ltb_lt in Hss1. apply Z.leb_le in Hss2.
  destruct (signature_roundtrip r s v) as (b & Eb & Epb & Elb); [unfold Native.secp256k1_N in *; lia | unfold Native.secp256k1_N in *; change (_ / 2) with 57896044618658097711785492504343953926418782139537452191302581570759080747168 in Hss2; lia | lia|].
  exists b. split; [exact Eb|]. unfold Author. cbn [with_seal h_seal]. rewrite Elb, Epb. change (SignatureLength =? 0) with false. cbv iota. change (SealingHash (with_seal h b)) with (SealingHash h). rewrite Hd. cbn [obind].
  rewrite (Sign_recover _ _ _ _ _ Hs). reflexivity.
Qed.

Lemma Seal_inv `{S : !Signing} p block key sealed : Seal p block key = Some (Ok sealed) -> exists sig, sealed = WithSeal block sig /\
  ProposerAtRound p (NumberU64 (b_header block)) (h_round (b_header block)) = Ok (address_of (Public key)) /\ Author (with_seal (b_header block) sig) = Some (Ok (address_of (Public key))).
Proof.
  unfold Seal. destruct (ProposerAtRound p _ _) as [a|]; [|discriminate]. case_bool_decide as Ea; [|discriminate]. cbn [negb]. destruct (SealingHash _) as [digest|] eqn:Ed; [|discriminate]. cbn [obind].
  destruct (Sign key digest) as [[[r s] v]|] eqn:Es; [|discriminate]. destruct (author_sealed _ _ _ _ _ _ Ed Es) as (sig & -> & Hau). cbn [obind]. intros [= <-]. exists sig. rewrite Ea in *. auto.
Qed.

(** A sealed header of that turn is accepted. *)
Lemma turn_accepted p parent h r a t m h' sig now : HeaderHash parent = Some (h_parentHash h) -> h_number parent = Some m -> h_number h = Some (m + 1) -> len (h_extra h) <= MaxExtraDataSize ->
  ProposerAtRound p (NumberU64 h) r = Ok a -> a ∈ setFor p (NumberU64 h) -> r <= len (setFor p (NumberU64 h)) ->
  earliestTimeFor p (h_time parent) r <= t <= wrap64 (now + AllowedFutureDrift) -> same_turn (with_turn h r a t) h' -> Author (with_seal h' sig) = Some (Ok a) ->
  VerifyHeader p (with_seal h' sig) (Some parent) now = Some (Ok tt).
Proof.
  intros Eh Em En Hx Ea Hin Hr Ht (Fn & Fp & Fc & Ft & Fx & Fr) Hau. cbn [with_turn h_number h_parentHash h_coinbase h_time h_extra h_round] in *. apply VerifyHeader_spec. exists m.
  assert (NumberU64 (with_seal h' sig) = NumberU64 h) as Enum by (unfold NumberU64; cbn [with_seal h_number]; rewrite Fn; reflexivity). rewrite Enum.
  cbn [with_seal h_number h_parentHash h_extra h_round h_time h_coinbase]. rewrite Fn, Fp, Fx, Fr, Ft, Fc. auto 12.
Qed.

(** What an honest proposer builds is accepted.  Preparing a header on a known
    parent succeeds; whatever block is then built on it, the proposer it names can
    seal it, and every engine with the same view of the chain accepts the sealed
    header, as soon as its clock is not more than the allowed drift behind the
    proposer's and the block period has passed. *)
Theorem sealed_block_accepted `{S : !Signing} p lookup parent h m now now' : engine_ok p -> provider_ok p ->
  lookup (h_parentHash h) = Some parent -> HeaderHash parent = Some (h_parentHash h) -> h_number parent = Some m -> h_number h = Some (m + 1) ->
  len (h_extra h) <= MaxExtraDataSize -> clock_ok p (NumberU64 h) (h_time parent) -> u64_ok now -> u64_ok now' -> now <= now' ->
  exists h1, Prepare p lookup h now now' = (h1, Ok tt) /\ h_time h1 <= Z.max now' (h_time parent + period p) /\
    forall block key digest sig now'', same_turn h1 (b_header block) -> address_of (Public key) = h_coinbase h1 ->
      SealingHash (b_header block) = Some digest -> Sign key digest = Some sig ->
      u64_ok (now'' + AllowedFutureDrift) -> now' <= now'' + AllowedFutureDrift -> h_time parent + period p <= now'' + AllowedFutureDrift ->
      exists sealed, Seal p block key = Some (Ok sealed) /\ b_txs sealed = b_txs block /\ VerifyHeader p (b_header sealed) (Some parent) now'' = Some (Ok tt).
Proof.
  intros Hp Hpr El Eh Em En Hx Hc Hn Hn' Hle. destruct (turn_prepared p lookup parent h now now') as (r & a & t & Ep & Ea & Hin & Hr & Ht); [assumption..|].
  exists (with_turn h r a t). split; [exact Ep|]. split; [apply Ht|]. intros block key digest [[sr ss] sv] now'' Hturn Hkey Hd Hs Hd'' Hn'' Hperiod. pose proof Hturn as (Fn & _ & _ & _ & _ & Fr).
  cbn [with_turn h_number h_round h_coinbase] in *. assert (NumberU64 (b_header block) = NumberU64 h) as Enum by (unfold NumberU64; rewrite Fn; reflexivity).
  unfold Seal. rewrite Enum, Fr, Ea, Hkey, bool_decide_true by reflexivity. cbn [negb]. rewrite Hd. cbn [obind]. rewrite Hs.
  destruct (author_sealed _ _ _ _ _ _ Hd Hs) as (sig & Eb & Hau). rewrite Eb. cbn [obind]. eexists. split; [reflexivity|]. split; [reflexivity|]. rewrite Hkey in Hau.
  apply (turn_accepted p parent h r a t m); auto. rewrite wrap64_small by exact Hd''. lia.
Qed.

End Headers.

(** ** Witnesses *)

#[local] Existing Instances Reg.toy_keccak Tx.one_key Tx.one_signing.

Definition sealer : Address := address_of [1].
Definition trio : PoA := match NewPoA [[9]; sealer; [7]] 5 with Ok p => p | Err _ => mkPoA [] 0 0 None end.

Lemma trio_ok : engine_ok trio.
Proof. apply (NewPoA_ok [[9]; sealer; [7]] 5); [lia | vm_compute; reflexivity]. Qed.

Lemma trio_clock number : clock_ok trio number 100.
Proof. split; [lia | vm_compute; reflexivity]. Qed.

Lemma every_validator_has_its_round_witness : exists r, 0 <= r < 3 /\ ProposerAtRound trio 1 r = Ok [9] /\ IsMyTurn trio [9] 1 100 (105 + r * 5) = true.
Proof.
  destruct (every_validator_has_its_round trio 1 100 [9]) as (r & Hr & Ep & _ & Hturn);
    [exact trio_ok | reflexivity | apply (bool_decide_unpack _); vm_compute; exact I | apply trio_clock | lia | vm_compute; reflexivity|].
  change (len (validators trio)) with 3 in Hr, Hturn. change (period trio) with 5 in Hturn. change (roundTimeout trio) with 5 in Hturn.
  exists r. split; [exact Hr|]. split; [exact Ep|]. apply Hturn; unfold u64_ok, two64; lia.
Defined.

Lemma last_round_is_final_witness : IsMyTurn trio (nth 1 (validators trio) []) 1 100 5000 = true /\ ProposerAt trio 1 = Ok (nth 1 (validators trio) []).
Proof.
  assert (ProposerAt trio 1 = Ok (nth 1 (validators trio) [])) as E by (vm_compute; reflexivity). split; [|exact E].
  apply (last_round_is_final trio 1 100 5000); [exact trio_ok | reflexivity | apply trio_clock | lia | vm_compute; reflexivity | vm_compute; split; [discriminate | reflexivity] | vm_compute; discriminate | exact E].
Defined.

(** A parent and a child whose turn is the sealer's. *)
Definition old_header : Header :=
  mkHeader ZeroHash sealer ZeroHash ZeroHash ZeroHash Bloom.zero_bloom (Some 3) 5000 0 100 [] (Some 3) 0 [] [] [].
Definition parent_hash : Hash := default [] (HeaderHash old_header).
Definition draft : Header :=
  mkHeader parent_hash ZeroAddress ZeroHash ZeroHash ZeroHash Bloom.zero_bloom (Some 4) 5000 0 0 [] (Some 3) 0 [] [] [].
Definition solo : PoA := mkPoA [sealer] 5 5 None.

Lemma solo_ok : engine_ok solo.
Proof. split; [discriminate|]. split; [apply NoDup_singleton | cbn; lia]. Qed.

Lemma solo_clock number : clock_ok solo number 100.
Proof. split; [lia | vm_compute; reflexivity]. Qed.

Lemma sealed_block_accepted_witness : exists h1 sealed, Prepare solo (fun _ => Some old_header) draft 103 104 = (h1, Ok tt) /\ h_time h1 <= 105 /\
  Seal solo (NewBlockWithHeader h1) tt = Some (Ok sealed) /\ VerifyHeader solo (b_header sealed) (Some old_header) 100 = Some (Ok tt).
Proof.
  destruct (sealed_block_accepted solo (fun _ => Some old_header) old_header draft 3 103 104) as (h1 & Ep & Ht & H);
    [exact solo_ok | intros v n r a [=] | reflexivity | vm_compute; reflexivity | reflexivity | reflexivity | vm_compute; discriminate | apply solo_clock
    | vm_compute; split; [discriminate | reflexivity] | vm_compute; split; [discriminate | reflexivity] | lia|].
  assert (snd (Prepare solo (fun _ => Some old_header) draft 103 104) = Ok tt /\ h_coinbase (fst (Prepare solo (fun _ => Some old_header) draft 103 104)) = sealer /\
    is_Some (SealingHash (fst (Prepare solo (fun _ => Some old_header) draft 103 104)))) as (_ & Hc & [d Hd])
    by (split; [vm_compute; reflexivity | split; [vm_compute; reflexivity | vm_compute; eexists; reflexivity]]).
  rewrite Ep in Hc, Hd. destruct (H (NewBlockWithHeader h1) tt d (1, 1, 1) 100) as (sealed & Es & _ & Hv);
    [unfold same_turn; auto 8 | symmetry; exact Hc | exact Hd | reflexivity | vm_compute; split; [discriminate | reflexivity] | unfold AllowedFutureDrift; lia | vm_compute; discriminate|].
  exists h1, sealed. split; [exact Ep|]. split; [exact Ht | auto].
Defined.

Definition good_header : Header :=
  mkHeader parent_hash sealer ZeroHash ZeroHash ZeroHash Bloom.zero_bloom (Some 4) 5000 0 105 [] (Some 3) 0 [] [] (default [] (SignatureBytes 1 1 1)).

Lemma accepted_in_turn_witness : ProposerAtRound solo 4 0 = Ok sealer /\ 105 <= h_time good_header.
Proof.
  destruct (accepted_in_turn solo good_header old_header 100) as (_ & _ & _ & _ & Hp & Ht & _);
    [exact solo_ok | vm_compute; reflexivity | apply solo_clock | cbn; lia|].
  split; [exact Hp | exact Ht].
Defined.

End Poa.
