(* ===== verification/TxPool.v ===== *)
(** The pool of transactions waiting for a block (src/txpool/txpool.go).

    The pool is a value of the four maps of [TxPool]; an account's list is a map
    from nonces, held by one of the two maps of lists only.  Every operation runs
    under the pool's lock, so operations are sequential.  What the chain answers is
    a [Reader], one per call of the code, since the chain may advance between two
    calls; a transaction's cached hash, sender and size are read through their
    accessors.  Loops over Go maps run in an order the language does not fix: a
    [ranges] says which, and the theorems hold for all of them.  [None] is a panic
    (a transaction without encoding) or too little fuel.  Notification of
    subscribers is not modelled. *)

From stdpp Require Import base list gmap sorting.
From Stdlib Require Import ZArith Lia.
From S2P Require Import Prelude RLP Common StateDB EvmData Precompiles Transaction Transition.
Local Open Scope Z_scope.
Local Open Scope go_scope.

Module TxPool.
Import Tx.

Inductive error :=
| ErrAlreadyKnown
| ErrNonceTooLow
| ErrInsufficientFunds
| ErrIntrinsicGas
| ErrGasLimitTooHigh
| ErrUnderpriced
| ErrPoolFull
| ErrNegativeValue
| ErrOversizedData
| ErrReplaceUnderpriced
| ErrInvalidSender
| ErrSenderNotEOA
| ErrProcessor (e : Trans.error)
| ErrState.

Record Config := mkConfig
  { GlobalSlots : Z; GlobalQueue : Z; AccountSlots : Z; PriceLimit : Z; PriceBump : Z; MaxTxSize : Z }.

Definition DefaultConfig : Config := mkConfig 4096 1024 64 1 10 (128 * 1024).

(** * Lists by account *)

Abbreviation accountList := (gmap Z Transaction).
Abbreviation lists := (gmap Address accountList).

Definition tx_nonce (tx : Transaction) : Z := nonce (inner tx).

Definition list_add (l : accountList) (tx : Transaction) : accountList := <[tx_nonce tx := tx]> l.
Definition list_at (ls : lists) (from : Address) : accountList := default ∅ (ls !! from).
Definition list_get (ls : lists) (from : Address) (n : Z) : option Transaction := list_at ls from !! n.

Definition by_nonce (a b : Transaction) : Prop := tx_nonce a <= tx_nonce b.
#[global] Instance by_nonce_dec a b : Decision (by_nonce a b).
Proof. unfold by_nonce. apply _. Defined.
Definition sorted (l : accountList) : list Transaction := merge_sort by_nonce (map snd (map_to_list l)).

Record TxPool := mkPool
  { pending : lists; queue : lists; all : gmap Hash Transaction; nonces : gmap Address Z }.

Definition New : TxPool := mkPool ∅ ∅ ∅ ∅.

Definition with_pending (p : TxPool) (ls : lists) : TxPool := mkPool ls (queue p) (all p) (nonces p).
Definition with_queue (p : TxPool) (ls : lists) : TxPool := mkPool (pending p) ls (all p) (nonces p).
Definition with_all (p : TxPool) (m : gmap Hash Transaction) : TxPool := mkPool (pending p) (queue p) m (nonces p).
Definition with_nonce (p : TxPool) (a : Address) (n : Z) : TxPool := mkPool (pending p) (queue p) (all p) (<[a := n]> (nonces p)).

(** Orders of iteration. *)
Record ranges := mkRanges
  { range_all : gmap Hash Transaction -> list Transaction;
    range_lists : lists -> list Address;
    range_heads : gmap Address (list Transaction) -> list (list Transaction);
    range_all_ok : forall m, range_all m ≡ₚ map snd (map_to_list m);
    range_lists_ok : forall m, range_lists m ≡ₚ map fst (map_to_list m);
    range_heads_ok : forall m, range_heads m ≡ₚ map snd (map_to_list m) }.

Section Pool.
Context `{K : Keccak} `{T : TrieStore} `{C : NativeCrypto}.
Variables (config : Config) (signer : Z).

(** [StateReader]: the state at the chain's head, its gas limit and base fee. *)
Record Reader := mkReader
  { CurrentState : option SDB.World; CurrentGasLimit : Z; CurrentBaseFee : option Z }.

Definition nonce_at (w : SDB.World) (a : Address) : Z := snd (SDB.GetNonce w a).
Definition balance_at (w : SDB.World) (a : Address) : Z := snd (SDB.get_balance w a).
Definition code_hash_at (w : SDB.World) (a : Address) : Hash := snd (SDB.GetCodeHash w a).

Definition tx_hash (tx : Transaction) : option Hash := option_map snd (TxHash tx).
Definition tx_sender (tx : Transaction) : result tx_error Address := snd (Sender signer tx).

Definition nextNonce (p : TxPool) (addr : Address) (stateNonce : Z) : Z :=
  match nonces p !! addr with
  | Some pooled => if stateNonce <? pooled then pooled else stateNonce
  | None => stateNonce
  end.

Definition allFrom (p : TxPool) (addr : Address) : list Transaction :=
  sorted (list_at (pending p) addr) ++ sorted (list_at (queue p) addr).

Definition priceBumpSatisfied (current replacement : Transaction) : bool :=
  let bump := wrap_int (100 +w PriceBump config) in
  let feeThreshold := gasFeeCap (inner current) * bump / 100 in
  if gasFeeCap (inner replacement) <? feeThreshold then false
  else gasTipCap (inner current) * bump / 100 <=? gasTipCap (inner replacement).

(** The list an account's transaction is added to, and the index it is removed
    from when it replaces another. *)
Definition insert_tx (ls : lists) (m : gmap Hash Transaction) (from : Address) (tx : Transaction)
    : option (lists * gmap Hash Transaction * result error unit) :=
  let l := list_at ls from in
  match l !! tx_nonce tx with
  | Some existing =>
      if negb (priceBumpSatisfied existing tx) then Some (<[from := l]> ls, m, Err ErrReplaceUnderpriced)
      else let? h := tx_hash existing in Some (<[from := list_add l tx]> ls, delete h m, Ok tt)
  | None =>
      if AccountSlots config <=? Z.of_nat (size l) then Some (<[from := l]> ls, m, Err ErrPoolFull)
      else Some (<[from := list_add l tx]> ls, m, Ok tt)
  end.

(** The costs of the sender's other transactions, added up. *)
Fixpoint add_costs (hash : Hash) (needed : Z) (txs : list Transaction) : option Z :=
  match txs with
  | [] => Some needed
  | pooled :: rest =>
      let? h := tx_hash pooled in
      add_costs hash (if bool_decide (h = hash) then needed else needed + Cost (inner pooled)) rest
  end.

Definition validate (p : TxPool) (r : Reader) (tx : Transaction) : option (result error Address) :=
  let i := inner tx in
  if MaxTxSize config <? snd (TxSize tx) then Some (Err ErrOversizedData)
  else if value i <? 0 then Some (Err ErrNegativeValue)
  else if CurrentGasLimit r <? gasLimit i then Some (Err ErrGasLimitTooHigh)
  else if gasFeeCap i <? PriceLimit config then Some (Err ErrUnderpriced)
  else if gasFeeCap i <? gasTipCap i then Some (Err (ErrProcessor Trans.ErrTipAboveFeeCap))
  else
    let create := match to i with None => true | Some _ => false end in
    match Trans.IntrinsicGas (data i) (accessList i) create with
    | Err e => Some (Err (ErrProcessor e))
    | Ok intrinsic =>
        if gasLimit i <? intrinsic then Some (Err ErrIntrinsicGas)
        else if create && (Vm.MaxInitCodeSize <? len (data i)) then Some (Err (ErrProcessor Trans.ErrInitCodeTooLarge))
        else
          match tx_sender tx with
          | Err _ => Some (Err ErrInvalidSender)
          | Ok from =>
              match CurrentState r with
              | None => Some (Err ErrState)
              | Some w =>
                  let codeHash := code_hash_at w from in
                  if negb (bool_decide (codeHash = ZeroHash)) && negb (bool_decide (codeHash = SDB.EmptyCodeHash)) then Some (Err ErrSenderNotEOA)
                  else if tx_nonce tx <? nonce_at w from then Some (Err ErrNonceTooLow)
                  else
                    let? hash := tx_hash tx in
                    let? needed := add_costs hash (Cost i) (allFrom p from) in
                    Some (if balance_at w from <? needed then Err ErrInsufficientFunds else Ok from)
              end
          end
    end.

(** ** Promotion *)

Fixpoint promote_loop (fuel : nat) (p : TxPool) (addr : Address) (next : Z) : option TxPool :=
  match list_get (queue p) addr next with
  | None => Some p
  | Some tx =>
      match fuel with
      | O => None
      | S f =>
          let p := with_queue p (<[addr := delete next (list_at (queue p) addr)]> (queue p)) in
          let? r := insert_tx (pending p) (all p) addr tx in
          let '(ls, m, err) := r in
          let p := with_all (with_pending p ls) m in
          match err with
          | Err _ => let? h := tx_hash tx in Some (with_all p (delete h (all p)))
          | Ok _ => promote_loop f (with_nonce p addr (next +w 1)) addr (next +w 1)
          end
      end
  end.

Definition promote (p : TxPool) (addr : Address) (w : SDB.World) : option TxPool :=
  match queue p !! addr with
  | None => Some p
  | Some queued =>
      let? p := promote_loop (size queued) p addr (nextNonce p addr (nonce_at w addr)) in
      Some (if Z.of_nat (size (list_at (queue p) addr)) =? 0 then with_queue p (delete addr (queue p)) else p)
  end.

(** ** Admission *)

Definition queueLen (p : TxPool) : Z := zsum (map (fun l => Z.of_nat (size (snd l))) (map_to_list (queue p))).

(** A replacement, in the list that holds the nonce. *)
Definition replace_tx (p : TxPool) (ls : lists) (from : Address) (hash : Hash) (existing tx : Transaction)
    : option (lists * gmap Hash Transaction * result error unit) :=
  if negb (priceBumpSatisfied existing tx) then Some (ls, all p, Err ErrReplaceUnderpriced)
  else
    let? h := tx_hash existing in
    Some (<[from := list_add (list_at ls from) tx]> ls, <[hash := tx]> (delete h (all p)), Ok tt).

(** [r] is what [validate] reads, [r'] what is read after it. *)
Definition addLocked (p : TxPool) (r r' : Reader) (tx : Transaction) : option (TxPool * result error unit) :=
  let? hash := tx_hash tx in
  match all p !! hash with
  | Some _ => Some (p, Err ErrAlreadyKnown)
  | None =>
      let? v := validate p r tx in
      match v with
      | Err e => Some (p, Err e)
      | Ok from =>
          match list_get (pending p) from (tx_nonce tx), list_get (queue p) from (tx_nonce tx) with
          | Some existing, _ =>
              let? x := replace_tx p (pending p) from hash existing tx in
              let '(ls, m, e) := x in Some (with_all (with_pending p ls) m, e)
          | None, Some existing =>
              let? x := replace_tx p (queue p) from hash existing tx in
              let '(ls, m, e) := x in Some (with_all (with_queue p ls) m, e)
          | None, None =>
              match CurrentState r' with
              | None => Some (p, Err ErrState)
              | Some w =>
                  let currentNonce := nonce_at w from in
                  if tx_nonce tx =? nextNonce p from currentNonce then
                    let? x := insert_tx (pending p) (all p) from tx in
                    let '(ls, m, e) := x in
                    let p := with_all (with_pending p ls) m in
                    match e with
                    | Err e => Some (p, Err e)
                    | Ok _ =>
                        let p := with_nonce p from (tx_nonce tx +w 1) in
                        let? p := promote (with_all p (<[hash := tx]> (all p))) from w in
                        Some (p, Ok tt)
                    end
                  else if tx_nonce tx <? currentNonce then Some (p, Err ErrNonceTooLow)
                  else if GlobalQueue config <=? queueLen p then Some (p, Err ErrPoolFull)
                  else
                    let? x := insert_tx (queue p) (all p) from tx in
                    let '(ls, m, e) := x in
                    let p := with_all (with_queue p ls) m in
                    match e with
                    | Err e => Some (p, Err e)
                    | Ok _ => Some (with_all p (<[hash := tx]> (all p)), Ok tt)
                    end
              end
          end
      end
  end.

(** ** Removal *)

(** A nonce taken from an account's list; an empty list is dropped. *)
Definition drop_nonce (ls : lists) (from : Address) (n : Z) : lists :=
  match ls !! from with
  | None => ls
  | Some l => let l := delete n l in if Z.of_nat (size l) =? 0 then delete from ls else <[from := l]> ls
  end.

Definition removeLocked (p : TxPool) (hash : Hash) : TxPool :=
  match all p !! hash with
  | None => p
  | Some tx =>
      let p := with_all p (delete hash (all p)) in
      match tx_sender tx with
      | Err _ => p
      | Ok from => with_queue (with_pending p (drop_nonce (pending p) from (tx_nonce tx))) (drop_nonce (queue p) from (tx_nonce tx))
      end
  end.

Definition remove_included (p : TxPool) (tx : Transaction) : option TxPool :=
  let? h := tx_hash tx in Some (removeLocked p h).

(** A transaction the new state has made invalid. *)
Definition revalidate (w : SDB.World) (p : TxPool) (tx : Transaction) : option TxPool :=
  match tx_sender tx with
  | Err _ => remove_included p tx
  | Ok from =>
      if (tx_nonce tx <? nonce_at w from) || (balance_at w from <? Cost (inner tx)) then remove_included p tx else Some p
  end.

(** One account's pending list after a reset: what follows a gap is queued.  The
    error of [insert] is dropped. *)
Fixpoint close_gaps (p : TxPool) (addr : Address) (next : Z) (txs : list Transaction) : option (TxPool * Z) :=
  match txs with
  | [] => Some (p, next)
  | tx :: rest =>
      if negb (tx_nonce tx =? next) then
        let p := with_pending p (<[addr := delete (tx_nonce tx) (list_at (pending p) addr)]> (pending p)) in
        let? x := insert_tx (queue p) (all p) addr tx in
        let '(ls, m, _) := x in close_gaps (with_all (with_queue p ls) m) addr next rest
      else close_gaps p addr (next +w 1) rest
  end.

Definition recompute (w : SDB.World) (p : TxPool) (addr : Address) : option TxPool :=
  let? x := close_gaps p addr (nonce_at w addr) (sorted (list_at (pending p) addr)) in
  let (p, next) := x in Some (with_nonce p addr next).

Definition Reset (g : ranges) (p : TxPool) (r : Reader) (included : list Transaction) : option TxPool :=
  let? p := SDB.foldM remove_included p included in
  match CurrentState r with
  | None => Some p
  | Some w =>
      let? p := SDB.foldM (revalidate w) p (range_all g (all p)) in
      let p := mkPool (pending p) (queue p) (all p) ∅ in
      let? p := SDB.foldM (recompute w) p (range_lists g (pending p)) in
      SDB.foldM (fun p a => promote p a w) p (range_lists g (queue p))
  end.

Definition Clear (p : TxPool) : TxPool := New.

(** ** Reading *)

Definition Nonce (p : TxPool) (r : Reader) (addr : Address) : option Z :=
  let? w := CurrentState r in Some (nextNonce p addr (nonce_at w addr)).

Definition Stats (p : TxPool) : Z * Z :=
  (zsum (map (fun l => Z.of_nat (size (snd l))) (map_to_list (pending p))), queueLen p).

Definition Pending (p : TxPool) : gmap Address (list Transaction) :=
  omap (fun l => if 0 <? Z.of_nat (size l) then Some (sorted l) else None) (pending p).

Definition head_tip (baseFee : option Z) (txs : list Transaction) : Z :=
  match txs with [] => 0 | tx :: _ => EffectiveTip (inner tx) baseFee end.

(** The first of the heads with the largest tip. *)
Fixpoint best_from (baseFee : option Z) (heads : list (list Transaction)) (i best : nat) (tip : Z) : nat :=
  match heads with
  | [] => best
  | h :: rest => if tip <? head_tip baseFee h then best_from baseFee rest (S i) i (head_tip baseFee h) else best_from baseFee rest (S i) best tip
  end.

Definition best_head (baseFee : option Z) (heads : list (list Transaction)) : nat :=
  match heads with [] => O | h :: rest => best_from baseFee rest 1 0 (head_tip baseFee h) end.

Fixpoint ready_loop (fuel : nat) (baseFee : option Z) (limit : Z) (heads : list (list Transaction)) (out : list Transaction) : option (list Transaction) :=
  match heads with
  | [] => Some out
  | _ =>
      if (limit <=? 0) || (len out <? limit) then
        match fuel with
        | O => None
        | S f =>
            let best := best_head baseFee heads in
            match nth best heads [] with
            | [] => None
            | [tx] => ready_loop f baseFee limit (take best heads ++ drop (S best) heads) (out ++ [tx])
            | tx :: rest => ready_loop f baseFee limit (<[best := rest]> heads) (out ++ [tx])
            end
        end
      else Some out
  end.

Definition Ready (g : ranges) (p : TxPool) (r : Reader) (limit : Z) : option (list Transaction) :=
  let heads := range_heads g (Pending p) in
  ready_loop (length (concat heads)) (CurrentBaseFee r) limit heads [].

End Pool.
End TxPool.
