(* ===== verification/TxPoolFacts.v ===== *)
(** What the pool of transactions keeps: what is listed is indexed, and what is
    indexed is listed unless a reset overfilled a queue; the pending transactions
    of an account are executable in sequence, its senders can pay, and blocks are
    offered the best-paying transactions first. *)

From stdpp Require Import base list gmap sorting fin_map_dom.
From Stdlib Require Import ZArith Lia.
From S2P Require Import Prelude RLP Common Registry StateDB EvmData Precompiles Machine Transaction Transition TransitionFacts TxPool.
Local Open Scope Z_scope.
Local Open Scope go_scope.

Module PoolFacts.
Import Tx TxPool.

Lemma foldM_inv {A B} (I : A -> Prop) (f : A -> B -> option A) l : (forall a b, b ∈ l -> I a -> exists a', f a b = Some a' /\ I a') ->
  forall a, I a -> exists a', SDB.foldM f a l = Some a' /\ I a'.
Proof.
  induction l as [|b l IH]; intros Hf a Ha; [exists a; auto|]. destruct (Hf a b) as (a1 & E1 & H1); [apply list_elem_of_here | exact Ha|].
  cbn [SDB.foldM]. rewrite E1. cbn [obind]. apply IH; [|exact H1]. intros a0 b0 Hb. apply Hf. apply list_elem_of_further. exact Hb.
Qed.

(** ** Lists of accounts *)

Lemma list_at_insert ls a l b : list_at (<[a := l]> ls) b = if decide (a = b) then l else list_at ls b.
Proof. unfold list_at. rewrite lookup_insert. destruct (decide (a = b)); reflexivity. Qed.

Lemma list_at_delete ls a b : list_at (delete a ls) b = if decide (a = b) then ∅ else list_at ls b.
Proof. unfold list_at. rewrite lookup_delete. destruct (decide (a = b)); reflexivity. Qed.

Lemma list_at_drop ls a n b : list_at (drop_nonce ls a n) b = if decide (a = b) then delete n (list_at ls b) else list_at ls b.
Proof.
  unfold drop_nonce. destruct (ls !! a) as [l|] eqn:E.
  - assert (list_at ls a = l) as El by (unfold list_at; rewrite E; reflexivity).
    destruct (Z.eqb_spec (Z.of_nat (size (delete n l))) 0) as [H|H]; rewrite ?list_at_delete, ?list_at_insert; destruct (decide (a = b)) as [<-|]; try reflexivity; rewrite El; [|reflexivity].
    symmetry. apply map_size_empty_iff. lia.
  - destruct (decide (a = b)) as [<-|]; [|reflexivity]. unfold list_at. rewrite E. cbn. symmetry. apply delete_empty.
Qed.

Section Facts.
Context `{K : Keccak} `{T : TrieStore} `{C : NativeCrypto}.
Variables (config : Config) (signer : Z).
Hypothesis Hslots : 0 <= AccountSlots config.

(** ** What is listed is indexed *)

Definition proper (a : Address) (n : Z) (tx : Transaction) : Prop := tx_sender signer tx = Ok a /\ tx_nonce tx = n.

Definition entry (p : TxPool) (a : Address) (n : Z) (tx : Transaction) : Prop :=
  list_at (pending p) a !! n = Some tx \/ list_at (queue p) a !! n = Some tx.

Record pool_ok (p : TxPool) : Prop := mkOk
  { ok_entry : forall a n tx, entry p a n tx -> proper a n tx /\ exists h, tx_hash tx = Some h /\ all p !! h = Some tx;
    ok_once : forall a n, list_at (pending p) a !! n = None \/ list_at (queue p) a !! n = None;
    ok_index : forall h tx, all p !! h = Some tx -> tx_hash tx = Some h;
    ok_pending : forall a, Z.of_nat (size (list_at (pending p) a)) <= AccountSlots config;
    ok_queue : forall a, Z.of_nat (size (list_at (queue p) a)) <= AccountSlots config }.

Lemma New_ok : pool_ok New.
Proof.
  split; cbn; unfold entry; cbn; unfold list_at; intros *; rewrite ?lookup_empty; cbn; rewrite ?lookup_empty, ?map_size_empty; auto; try discriminate.
  intros [?|?]; discriminate.
Qed.

(** An edit of the lists and the index: every entry was there, and is still
    indexed, or is the new one. *)
Lemma edit_ok p p' : pool_ok p ->
  (forall a n tx, entry p' a n tx ->
    (entry p a n tx /\ forall h, tx_hash tx = Some h -> all p !! h = Some tx -> all p' !! h = Some tx) \/
    (proper a n tx /\ exists h, tx_hash tx = Some h /\ all p' !! h = Some tx)) ->
  (forall a n, list_at (pending p') a !! n = None \/ list_at (queue p') a !! n = None) ->
  (forall h tx, all p' !! h = Some tx -> tx_hash tx = Some h) ->
  (forall a, Z.of_nat (size (list_at (pending p') a)) <= AccountSlots config /\ Z.of_nat (size (list_at (queue p') a)) <= AccountSlots config) -> pool_ok p'.
Proof.
  intros Hp He Hd Hi Hs. split; [|exact Hd|exact Hi|intros a; apply Hs..]. intros a n tx H.
  destruct (He a n tx H) as [[H0 Hall]|H0]; [|exact H0]. destruct (ok_entry _ Hp _ _ _ H0) as (H1 & h & H2 & H3). eauto.
Qed.

(** Two entries with one hash are one entry. *)
Lemma entry_unique p a n tx a' n' tx' h : pool_ok p -> entry p a n tx -> entry p a' n' tx' -> tx_hash tx = Some h -> tx_hash tx' = Some h -> a' = a /\ n' = n /\ tx' = tx.
Proof.
  intros Hp H H' E E'. destruct (ok_entry _ Hp _ _ _ H) as ((Ha & Hn) & h1 & E1 & Hi). destruct (ok_entry _ Hp _ _ _ H') as ((Ha' & Hn') & h2 & E2 & Hi').
  assert (h1 = h) as -> by congruence. assert (h2 = h) as -> by congruence. assert (tx' = tx) as -> by congruence. split; [congruence | split; [congruence | reflexivity]].
Qed.

Lemma insert_fresh ls m from tx : list_at ls from !! tx_nonce tx = None ->
  insert_tx config ls m from tx = Some (if AccountSlots config <=? Z.of_nat (size (list_at ls from)) then (<[from := list_at ls from]> ls, m, Err ErrPoolFull)
    else (<[from := list_add (list_at ls from) tx]> ls, m, Ok tt)).
Proof. intros E. unfold insert_tx. rewrite E. destruct (_ <=? _); reflexivity. Qed.

Lemma same_at ls a b : list_at (<[a := list_at ls a]> ls) b = list_at ls b.
Proof. rewrite list_at_insert. destruct (decide (a = b)) as [<-|]; reflexivity. Qed.

(** A transaction that is dropped from the index is in no list. *)
Lemma remove_ok p h tx from : pool_ok p -> all p !! h = Some tx -> tx_sender signer tx = Ok from ->
  forall ls ls', (forall a, list_at ls a = if decide (from = a) then delete (tx_nonce tx) (list_at (pending p) a) else list_at (pending p) a) ->
    (forall a, list_at ls' a = if decide (from = a) then delete (tx_nonce tx) (list_at (queue p) a) else list_at (queue p) a) ->
    forall ns, pool_ok (mkPool ls ls' (delete h (all p)) ns).
Proof.
  intros Hp Eh Hs ls ls' E E' ns.
  assert (forall a n tx', entry (mkPool ls ls' (delete h (all p)) ns) a n tx' -> entry p a n tx' /\ (a <> from \/ n <> tx_nonce tx)) as Hsub.
  { unfold entry. cbn [pending queue]. intros a n tx'. rewrite E, E'. destruct (decide (from = a)) as [<-|]; [|intuition].
    rewrite !lookup_delete. destruct (decide (tx_nonce tx = n)) as [<-|]; [intros [[=]|[=]] | intros H; split; [exact H | right; congruence]]. }
  apply (edit_ok p); [exact Hp| | | |].
  - intros a n tx' H. left. destruct (Hsub _ _ _ H) as [H0 Hne]. split; [exact H0|]. intros h' Eh' Hi. cbn [all].
    rewrite lookup_delete. destruct (decide (h = h')) as [<-|]; [|exact Hi]. assert (tx' = tx) as -> by congruence.
    destruct (ok_entry _ Hp _ _ _ H0) as ((Ha & Hn) & _). destruct Hne as [Hne|Hne]; [rewrite Hs in Ha; injection Ha as <-; done | congruence].
  - intros a n. cbn [pending queue]. rewrite E, E'. destruct (ok_once _ Hp a n) as [H|H]; [left|right]; destruct (decide (from = a)); rewrite ?lookup_delete, ?H; try done; destruct (decide _); done.
  - intros h' tx'. cbn [all]. rewrite lookup_delete. destruct (decide (h = h')); [discriminate|]. apply (ok_index _ Hp).
  - intros a. cbn [pending queue]. rewrite E, E'. pose proof (ok_pending _ Hp a). pose proof (ok_queue _ Hp a).
    destruct (decide (from = a)); [|auto]. rewrite !map_size_delete.
    destruct (list_at (pending p) a !! tx_nonce tx), (list_at (queue p) a !! tx_nonce tx); cbn; lia.
Qed.

Lemma removeLocked_ok p h : pool_ok p -> pool_ok (removeLocked signer p h).
Proof.
  intros Hp. unfold removeLocked. destruct (all p !! h) as [tx|] eqn:Eh; [|exact Hp]. destruct (tx_sender signer tx) as [from|e] eqn:Es.
  - apply (remove_ok p h tx from Hp Eh Es); intros a; cbn [with_queue with_pending with_all pending queue]; apply list_at_drop.
  - apply (edit_ok p); [exact Hp| | | |]; cbn [with_all pending queue all].
    + intros a n tx' H. left. split; [exact H|]. intros h' E' Hi. rewrite lookup_delete. destruct (decide (h = h')) as [<-|]; [|exact Hi].
      assert (tx' = tx) as -> by congruence. destruct (ok_entry _ Hp _ _ _ H) as ((Ha & _) & _). congruence.
    + apply (ok_once _ Hp).
    + intros h' tx'. rewrite lookup_delete. destruct (decide (h = h')); [discriminate|]. apply (ok_index _ Hp).
    + intros a. split; [apply (ok_pending _ Hp) | apply (ok_queue _ Hp)].
Qed.

(** A pool with the same lists and index. *)
Lemma same_ok p p' : pool_ok p -> (forall a, list_at (pending p') a = list_at (pending p) a) -> (forall a, list_at (queue p') a = list_at (queue p) a) ->
  all p' = all p -> pool_ok p'.
Proof.
  intros Hp E1 E2 E3. apply (edit_ok p); [exact Hp| | | |]; unfold entry; intros *; rewrite ?E1, ?E2, ?E3; auto.
  - apply (ok_once _ Hp).
  - apply (ok_index _ Hp).
  - split; [apply (ok_pending _ Hp) | apply (ok_queue _ Hp)].
Qed.

(** A transaction that moves from one list to the other. *)
Lemma move_pending_ok p addr tx ls ls' ns : pool_ok p -> list_at (queue p) addr !! tx_nonce tx = Some tx ->
  Z.of_nat (size (list_at (pending p) addr)) < AccountSlots config ->
  (forall a, list_at ls a = if decide (addr = a) then <[tx_nonce tx := tx]> (list_at (pending p) a) else list_at (pending p) a) ->
  (forall a, list_at ls' a = if decide (addr = a) then delete (tx_nonce tx) (list_at (queue p) a) else list_at (queue p) a) ->
  pool_ok (mkPool ls ls' (all p) ns).
Proof.
  intros Hp Hq Hsz E E'. apply (edit_ok p); [exact Hp| | | |]; unfold entry; cbn [pending queue all].
  - intros a n t. rewrite E, E'. intros H. left. split; [|auto]. destruct (decide (addr = a)) as [<-|]; [|exact H].
    rewrite lookup_insert, lookup_delete in H. destruct (decide (tx_nonce tx = n)) as [<-|]; [|exact H]. destruct H as [[= <-]|[=]]. right. exact Hq.
  - intros a n. rewrite E, E'. destruct (decide (addr = a)) as [<-|]; [|apply (ok_once _ Hp)]. rewrite lookup_insert, lookup_delete.
    destruct (decide (tx_nonce tx = n)); [right; reflexivity | apply (ok_once _ Hp)].
  - apply (ok_index _ Hp).
  - intros a. rewrite E, E'. pose proof (ok_pending _ Hp a). pose proof (ok_queue _ Hp a). destruct (decide (addr = a)) as [<-|]; [|auto].
    rewrite map_size_insert, map_size_delete, Hq. destruct (list_at (pending p) addr !! tx_nonce tx); cbn; lia.
Qed.

Lemma move_queue_ok p addr tx ls ls' ns : pool_ok p -> list_at (pending p) addr !! tx_nonce tx = Some tx ->
  Z.of_nat (size (list_at (queue p) addr)) < AccountSlots config ->
  (forall a, list_at ls' a = if decide (addr = a) then <[tx_nonce tx := tx]> (list_at (queue p) a) else list_at (queue p) a) ->
  (forall a, list_at ls a = if decide (addr = a) then delete (tx_nonce tx) (list_at (pending p) a) else list_at (pending p) a) ->
  pool_ok (mkPool ls ls' (all p) ns).
Proof.
  intros Hp Hq Hsz E E'. apply (edit_ok p); [exact Hp| | | |]; unfold entry; cbn [pending queue all].
  - intros a n t. rewrite E, E'. intros H. left. split; [|auto]. destruct (decide (addr = a)) as [<-|]; [|exact H].
    rewrite lookup_insert, lookup_delete in H. destruct (decide (tx_nonce tx = n)) as [<-|]; [|exact H]. destruct H as [[=]|[= <-]]. left. exact Hq.
  - intros a n. rewrite E, E'. destruct (decide (addr = a)) as [<-|]; [|apply (ok_once _ Hp)]. rewrite lookup_insert, lookup_delete.
    destruct (decide (tx_nonce tx = n)); [left; reflexivity | apply (ok_once _ Hp)].
  - apply (ok_index _ Hp).
  - intros a. rewrite E, E'. pose proof (ok_pending _ Hp a). pose proof (ok_queue _ Hp a). destruct (decide (addr = a)) as [<-|]; [|auto].
    rewrite map_size_insert, map_size_delete, Hq. destruct (list_at (queue p) addr !! tx_nonce tx); cbn; lia.
Qed.

(** ** Promotion as steps *)

Definition moved (p : TxPool) (addr : Address) (next : Z) (tx : Transaction) : TxPool :=
  mkPool (<[addr := list_add (list_at (pending p) addr) tx]> (pending p)) (<[addr := delete next (list_at (queue p) addr)]> (queue p)) (all p)
    (<[addr := next +w 1]> (nonces p)).
Definition dropped (p : TxPool) (addr : Address) (next : Z) (h : Hash) : TxPool :=
  mkPool (<[addr := list_at (pending p) addr]> (pending p)) (<[addr := delete next (list_at (queue p) addr)]> (queue p)) (delete h (all p)) (nonces p).

Inductive promotes (addr : Address) : TxPool -> Z -> TxPool -> Prop :=
| promotes_stop p next : list_at (queue p) addr !! next = None -> promotes addr p next p
| promotes_full p next tx h : list_at (queue p) addr !! next = Some tx -> tx_hash tx = Some h ->
    AccountSlots config <= Z.of_nat (size (list_at (pending p) addr)) -> promotes addr p next (dropped p addr next h)
| promotes_move p next tx p' : list_at (queue p) addr !! next = Some tx -> Z.of_nat (size (list_at (pending p) addr)) < AccountSlots config ->
    promotes addr (moved p addr next tx) (next +w 1) p' -> promotes addr p next p'.

Lemma moved_ok p addr next tx : pool_ok p -> list_at (queue p) addr !! next = Some tx -> Z.of_nat (size (list_at (pending p) addr)) < AccountSlots config ->
  pool_ok (moved p addr next tx).
Proof.
  intros Hp Hq Hs. destruct (ok_entry _ Hp addr next tx) as ((_ & <-) & _); [right; exact Hq|].
  apply (move_pending_ok p addr tx); auto; intros a; rewrite list_at_insert; destruct (decide (addr = a)) as [<-|]; reflexivity.
Qed.

Lemma dropped_ok p addr next tx h : pool_ok p -> list_at (queue p) addr !! next = Some tx -> tx_hash tx = Some h -> pool_ok (dropped p addr next h).
Proof.
  intros Hp Hq Eh. destruct (ok_entry _ Hp addr next tx) as ((Hs & <-) & h' & Eh' & Hi); [right; exact Hq|]. assert (h' = h) as -> by congruence.
  apply (remove_ok p h tx addr Hp Hi Hs); intros a; rewrite list_at_insert; destruct (decide (addr = a)) as [<-|]; try reflexivity.
  destruct (ok_once _ Hp addr (tx_nonce tx)) as [E|E]; [rewrite delete_id by exact E; reflexivity | congruence].
Qed.

Lemma promotes_ok addr p next p' : promotes addr p next p' -> pool_ok p -> pool_ok p'.
Proof. induction 1; intros Hp; [exact Hp | eapply dropped_ok; eauto | apply IHpromotes, moved_ok; auto]. Qed.

Lemma promote_loop_steps addr fuel : forall p next, pool_ok p -> (size (list_at (queue p) addr) <= fuel)%nat ->
  exists p', promote_loop config fuel p addr next = Some p' /\ promotes addr p next p'.
Proof.
  induction fuel as [|f IH]; intros p next Hp Hf; cbn [promote_loop]; unfold list_get.
  - assert (list_at (queue p) addr = ∅) as E by (apply map_size_empty_iff; lia). rewrite E. cbn. exists p. split; [reflexivity|].
    apply promotes_stop. rewrite E. reflexivity.
  - destruct (list_at (queue p) addr !! next) as [tx|] eqn:Eq; [|exists p; split; [reflexivity | apply promotes_stop; exact Eq]].
    destruct (ok_entry _ Hp addr next tx) as ((_ & En) & h & Eh & _); [right; exact Eq|].
    cbn [with_queue pending queue all nonces]. rewrite insert_fresh by (rewrite En; destruct (ok_once _ Hp addr next); [assumption | congruence]). cbn [obind].
    destruct (Z.leb_spec (AccountSlots config) (Z.of_nat (size (list_at (pending p) addr)))); cbn [with_queue with_pending with_all with_nonce pending queue all nonces].
    + rewrite Eh. cbn [obind]. eexists. split; [reflexivity|]. apply (promotes_full addr p next tx h); assumption.
    + destruct (IH (moved p addr next tx) (next +w 1)) as (p' & E' & H'); [apply moved_ok; auto| |].
      * cbn [moved queue]. rewrite list_at_insert, decide_True, map_size_delete, Eq by reflexivity. cbn. lia.
      * exists p'. split; [exact E' | eapply promotes_move; eauto].
Qed.

(** Dropping an account's empty list changes no list. *)
Lemma tidy_lists (ls : lists) addr a : size (list_at ls addr) = 0%nat -> list_at (delete addr ls) a = list_at ls a.
Proof. intros E. rewrite list_at_delete. destruct (decide (addr = a)) as [<-|]; [|reflexivity]. symmetry. apply map_size_empty_iff. exact E. Qed.

Definition alike (p p' : TxPool) : Prop :=
  (forall a, list_at (pending p') a = list_at (pending p) a) /\ (forall a, list_at (queue p') a = list_at (queue p) a) /\ all p' = all p /\ nonces p' = nonces p.

Lemma promote_steps p addr w : pool_ok p -> exists p1 p', promote config p addr w = Some p' /\
  promotes addr p (nextNonce p addr (nonce_at w addr)) p1 /\ alike p1 p'.
Proof.
  intros Hp. unfold promote. destruct (queue p !! addr) as [l|] eqn:El.
  - assert (list_at (queue p) addr = l) as Ea by (unfold list_at; rewrite El; reflexivity).
    destruct (promote_loop_steps addr (size l) p (nextNonce p addr (nonce_at w addr)) Hp) as (p1 & E1 & H1); [rewrite Ea; lia|].
    rewrite E1. cbn [obind]. eexists p1, _. split; [reflexivity|]. split; [exact H1|].
    destruct (Z.eqb_spec (Z.of_nat (size (list_at (queue p1) addr))) 0) as [E0|]; [|repeat split].
    split; [reflexivity|]. split; [|split; reflexivity]. intros a. apply tidy_lists. lia.
  - exists p, p. split; [reflexivity|]. split; [|repeat split]. apply promotes_stop. unfold list_at. rewrite El. reflexivity.
Qed.

Lemma alike_ok p p' : alike p p' -> pool_ok p -> pool_ok p'.
Proof. intros (H1 & H2 & H3 & _) Hp. apply (same_ok p); assumption. Qed.

Lemma promote_ok p addr w : pool_ok p -> exists p', promote config p addr w = Some p' /\ pool_ok p'.
Proof.
  intros Hp. destruct (promote_steps p addr w Hp) as (p1 & p' & E & Hs & Ha). exists p'. split; [exact E|].
  eapply alike_ok; [exact Ha|]. eapply promotes_ok; eauto.
Qed.

(** ** Admission as steps *)

Lemma elem_of_sorted (l : accountList) tx : tx ∈ sorted l <-> exists n, l !! n = Some tx.
Proof.
  unfold sorted. rewrite merge_sort_Permutation, list_elem_of_fmap. split.
  - intros ([n t] & -> & H). apply elem_of_map_to_list in H. eauto.
  - intros (n & H). exists (n, tx). split; [reflexivity | apply elem_of_map_to_list; exact H].
Qed.

Lemma elem_of_allFrom p a tx : tx ∈ allFrom p a <-> exists n, entry p a n tx.
Proof. unfold allFrom, entry. rewrite elem_of_app, !elem_of_sorted. naive_solver. Qed.

Lemma add_costs_some h : forall txs needed, Forall (fun tx => is_Some (tx_hash tx)) txs -> exists c, add_costs h needed txs = Some c.
Proof.
  induction txs as [|tx txs IH]; intros needed H; cbn [add_costs]; [eauto|]. inversion H as [|? ? [x Hx] H']; subst. rewrite Hx. cbn [obind]. apply IH. exact H'.
Qed.

Lemma entries_hashed p a : pool_ok p -> Forall (fun tx => is_Some (tx_hash tx)) (allFrom p a).
Proof. intros Hp. apply Forall_forall. intros tx [n H]%elem_of_allFrom. destruct (ok_entry _ Hp _ _ _ H) as (_ & h & E & _). eauto. Qed.

(** What an admitted transaction satisfies. *)
Record admitted (p : TxPool) (r : Reader) (hash : Hash) (tx : Transaction) (from : Address) : Prop := mkAdmitted
  { ad_sender : tx_sender signer tx = Ok from;
    ad_value : 0 <= value (inner tx);
    ad_fee : PriceLimit config <= gasFeeCap (inner tx);
    ad_state : exists w needed, CurrentState r = Some w /\ nonce_at w from <= tx_nonce tx /\
      add_costs hash (Cost (inner tx)) (allFrom p from) = Some needed /\ needed <= balance_at w from }.

Lemma validate_cases p r tx hash : pool_ok p -> tx_hash tx = Some hash ->
  exists v, validate config signer p r tx = Some v /\ forall from, v = Ok from -> admitted p r hash tx from.
Proof.
  intros Hp Eh. unfold validate. destruct (_ <? snd (TxSize tx)); [eexists; split; [reflexivity | discriminate]|].
  destruct (Z.ltb_spec (value (inner tx)) 0); [eexists; split; [reflexivity | discriminate]|].
  destruct (_ <? gasLimit _); [eexists; split; [reflexivity | discriminate]|].
  destruct (Z.ltb_spec (gasFeeCap (inner tx)) (PriceLimit config)); [eexists; split; [reflexivity | discriminate]|].
  destruct (_ <? gasTipCap _); [eexists; split; [reflexivity | discriminate]|].
  destruct (Trans.IntrinsicGas _ _ _); [|eexists; split; [reflexivity | discriminate]].
  destruct (gasLimit _ <? _); [eexists; split; [reflexivity | discriminate]|]. destruct (_ && _); [eexists; split; [reflexivity | discriminate]|].
  destruct (tx_sender signer tx) as [from|] eqn:Es; [|eexists; split; [reflexivity | discriminate]].
  destruct (CurrentState r) as [w|] eqn:Ew; [|eexists; split; [reflexivity | discriminate]].
  destruct (_ && _); [eexists; split; [reflexivity | discriminate]|].
  destruct (Z.ltb_spec (tx_nonce tx) (nonce_at w from)); [eexists; split; [reflexivity | discriminate]|]. rewrite Eh. cbn [obind].
  destruct (add_costs_some hash (allFrom p from) (Cost (inner tx)) (entries_hashed p from Hp)) as [c Ec]. rewrite Ec. cbn [obind].
  eexists. split; [reflexivity|]. destruct (Z.ltb_spec (balance_at w from) c); [discriminate|]. intros from' [= <-].
  split; [exact Es | assumption | assumption | exists w, c; auto].
Qed.

(** The outcomes of [addLocked]. *)
Inductive outcome (p : TxPool) (r r' : Reader) (tx : Transaction) (hash : Hash) : TxPool -> result error unit -> Prop :=
| out_refused p' e : alike p p' -> outcome p r r' tx hash p' (Err e)
| out_replaced_pending from ex h : admitted p r hash tx from -> all p !! hash = None ->
    list_at (pending p) from !! tx_nonce tx = Some ex -> tx_hash ex = Some h -> priceBumpSatisfied config ex tx = true ->
    outcome p r r' tx hash (mkPool (<[from := list_add (list_at (pending p) from) tx]> (pending p)) (queue p) (<[hash := tx]> (delete h (all p))) (nonces p)) (Ok tt)
| out_replaced_queue from ex h : admitted p r hash tx from -> all p !! hash = None ->
    list_at (queue p) from !! tx_nonce tx = Some ex -> tx_hash ex = Some h -> priceBumpSatisfied config ex tx = true ->
    outcome p r r' tx hash (mkPool (pending p) (<[from := list_add (list_at (queue p) from) tx]> (queue p)) (<[hash := tx]> (delete h (all p))) (nonces p)) (Ok tt)
| out_pending from w p1 p' : admitted p r hash tx from -> all p !! hash = None -> CurrentState r' = Some w ->
    list_at (pending p) from !! tx_nonce tx = None -> list_at (queue p) from !! tx_nonce tx = None ->
    tx_nonce tx = nextNonce p from (nonce_at w from) -> Z.of_nat (size (list_at (pending p) from)) < AccountSlots config ->
    pool_ok (mkPool (<[from := list_add (list_at (pending p) from) tx]> (pending p)) (queue p) (<[hash := tx]> (all p)) (<[from := tx_nonce tx +w 1]> (nonces p))) ->
    promotes from (mkPool (<[from := list_add (list_at (pending p) from) tx]> (pending p)) (queue p) (<[hash := tx]> (all p)) (<[from := tx_nonce tx +w 1]> (nonces p)))
      (nextNonce (mkPool (<[from := list_add (list_at (pending p) from) tx]> (pending p)) (queue p) (<[hash := tx]> (all p)) (<[from := tx_nonce tx +w 1]> (nonces p))) from (nonce_at w from)) p1 ->
    alike p1 p' -> outcome p r r' tx hash p' (Ok tt)
| out_queued from w : admitted p r hash tx from -> all p !! hash = None -> CurrentState r' = Some w ->
    list_at (pending p) from !! tx_nonce tx = None -> list_at (queue p) from !! tx_nonce tx = None ->
    tx_nonce tx <> nextNonce p from (nonce_at w from) -> Z.of_nat (size (list_at (queue p) from)) < AccountSlots config -> queueLen p < GlobalQueue config ->
    outcome p r r' tx hash (mkPool (pending p) (<[from := list_add (list_at (queue p) from) tx]> (queue p)) (<[hash := tx]> (all p)) (nonces p)) (Ok tt).

(** A new transaction in a free place. *)
Lemma add_ok p hash tx from ls ls' ns : pool_ok p -> tx_hash tx = Some hash -> all p !! hash = None -> tx_sender signer tx = Ok from ->
  (forall a n t, entry (mkPool ls ls' (<[hash := tx]> (all p)) ns) a n t -> entry p a n t \/ a = from /\ n = tx_nonce tx /\ t = tx) ->
  (forall a n, list_at ls a !! n = None \/ list_at ls' a !! n = None) ->
  (forall a, Z.of_nat (size (list_at ls a)) <= AccountSlots config /\ Z.of_nat (size (list_at ls' a)) <= AccountSlots config) ->
  pool_ok (mkPool ls ls' (<[hash := tx]> (all p)) ns).
Proof.
  intros Hp Eh Hfree Hs He Hd Hsz. apply (edit_ok p); [exact Hp| |exact Hd| |exact Hsz]; cbn [all].
  - intros a n t [H|(-> & -> & ->)]%He.
    + left. split; [exact H|]. intros h Et Hi. rewrite lookup_insert. destruct (decide (hash = h)); [congruence | exact Hi].
    + right. split; [split; [exact Hs | reflexivity]|]. exists hash. split; [exact Eh|]. rewrite lookup_insert, decide_True; reflexivity.
  - intros h t. rewrite lookup_insert. destruct (decide (hash = h)) as [<-|]; [intros [= <-]; exact Eh | apply (ok_index _ Hp)].
Qed.

Lemma pending_added_ok p hash tx from ns : pool_ok p -> tx_hash tx = Some hash -> all p !! hash = None -> tx_sender signer tx = Ok from ->
  list_at (queue p) from !! tx_nonce tx = None -> Z.of_nat (size (list_at (pending p) from)) < AccountSlots config ->
  pool_ok (mkPool (<[from := list_add (list_at (pending p) from) tx]> (pending p)) (queue p) (<[hash := tx]> (all p)) ns).
Proof.
  intros Hp Eh Hfree Ha Hq Hsz. apply (add_ok p hash tx from); auto; unfold entry; cbn [pending queue].
  - intros a n t. rewrite list_at_insert. destruct (decide (from = a)) as [<-|]; [|auto]. unfold list_add. rewrite lookup_insert.
    destruct (decide (tx_nonce tx = n)) as [<-|]; [|auto]. intros [[= <-]|H]; auto.
  - intros a n. rewrite list_at_insert. destruct (decide (from = a)) as [<-|]; [|apply (ok_once _ Hp)]. unfold list_add. rewrite lookup_insert.
    destruct (decide (tx_nonce tx = n)) as [<-|]; [auto | apply (ok_once _ Hp)].
  - intros a. rewrite list_at_insert. pose proof (ok_pending _ Hp a). pose proof (ok_queue _ Hp a). destruct (decide (from = a)) as [<-|]; [|auto].
    unfold list_add. rewrite map_size_insert. destruct (list_at (pending p) from !! tx_nonce tx); cbn; lia.
Qed.

Lemma queue_added_ok p hash tx from ns : pool_ok p -> tx_hash tx = Some hash -> all p !! hash = None -> tx_sender signer tx = Ok from ->
  list_at (pending p) from !! tx_nonce tx = None -> Z.of_nat (size (list_at (queue p) from)) < AccountSlots config ->
  pool_ok (mkPool (pending p) (<[from := list_add (list_at (queue p) from) tx]> (queue p)) (<[hash := tx]> (all p)) ns).
Proof.
  intros Hp Eh Hfree Ha Hq Hsz. apply (add_ok p hash tx from); auto; unfold entry; cbn [pending queue].
  - intros a n t. rewrite list_at_insert. destruct (decide (from = a)) as [<-|]; [|auto]. unfold list_add. rewrite lookup_insert.
    destruct (decide (tx_nonce tx = n)) as [<-|]; [|auto]. intros [H|[= <-]]; auto.
  - intros a n. rewrite list_at_insert. destruct (decide (from = a)) as [<-|]; [|apply (ok_once _ Hp)]. unfold list_add. rewrite lookup_insert.
    destruct (decide (tx_nonce tx = n)) as [<-|]; [auto | apply (ok_once _ Hp)].
  - intros a. rewrite list_at_insert. pose proof (ok_pending _ Hp a). pose proof (ok_queue _ Hp a). destruct (decide (from = a)) as [<-|]; [|auto].
    unfold list_add. rewrite map_size_insert. destruct (list_at (queue p) from !! tx_nonce tx); cbn; lia.
Qed.

(** A replacement is a removal followed by an addition. *)
Lemma replaced_ok p hash tx from ex h : pool_ok p -> tx_hash tx = Some hash -> all p !! hash = None -> tx_sender signer tx = Ok from ->
  entry p from (tx_nonce tx) ex -> tx_hash ex = Some h ->
  let p0 := mkPool (<[from := delete (tx_nonce tx) (list_at (pending p) from)]> (pending p)) (<[from := delete (tx_nonce tx) (list_at (queue p) from)]> (queue p)) (delete h (all p)) (nonces p) in
  pool_ok p0 /\ all p0 !! hash = None.
Proof.
  intros Hp Eh Hfree Hs He Ehx p0. destruct (ok_entry _ Hp _ _ _ He) as ((Hsx & Hn) & h' & Eh' & Hi). assert (h' = h) as -> by congruence.
  split; [|subst p0; cbn [all]; rewrite lookup_delete; destruct (decide _); [reflexivity | exact Hfree]].
  apply (remove_ok p h ex from Hp Hi Hsx); intros a; rewrite list_at_insert, Hn; destruct (decide (from = a)) as [<-|]; reflexivity.
Qed.

Lemma size_replace (l : accountList) n tx ex : l !! n = Some ex -> (size (delete n l) < size l)%nat /\ <[n := tx]> (delete n l) = <[n := tx]> l.
Proof.
  intros E. split; [|apply insert_delete_eq]. rewrite map_size_delete, E. assert (size l <> 0%nat) by (eapply map_size_ne_0_lookup_2; eauto). cbn. lia.
Qed.

Lemma outcome_ok p r r' tx hash p' e : tx_hash tx = Some hash -> outcome p r r' tx hash p' e -> pool_ok p -> pool_ok p'.
Proof.
  intros Eh [p1 e1 Hal|from ex h Ha Hfree Hl Ehx _|from ex h Ha Hfree Hl Ehx _|from w p1 p2 Ha Hfree _ _ Hq _ Hsz Hok Hpr Hal|from w Ha Hfree _ Hl _ _ Hsz _] Hp.
  - eapply alike_ok; eauto.
  - pose proof (ad_sender _ _ _ _ _ Ha) as Hs. destruct (replaced_ok p hash tx from ex h) as [H0 Hf0]; auto; [left; exact Hl|].
    destruct (size_replace _ _ tx _ Hl) as [Hsz Heq]. pose proof (ok_pending _ Hp from).
    eapply same_ok; [apply (pending_added_ok _ hash tx from (nonces p) H0 Eh Hf0 Hs)| | |]; cbn [pending queue all]; try (intros a); rewrite ?list_at_insert; try reflexivity.
    + rewrite decide_True by reflexivity. rewrite lookup_delete, decide_True; reflexivity.
    + rewrite decide_True by reflexivity. lia.
    + destruct (decide (from = a)) as [<-|]; [|reflexivity]. rewrite decide_True by reflexivity. symmetry. exact Heq.
    + destruct (decide (from = a)) as [<-|]; [|reflexivity]. destruct (ok_once _ Hp from (tx_nonce tx)) as [E|E]; [congruence|]. rewrite delete_id by exact E. reflexivity.
  - pose proof (ad_sender _ _ _ _ _ Ha) as Hs. destruct (replaced_ok p hash tx from ex h) as [H0 Hf0]; auto; [right; exact Hl|].
    destruct (size_replace _ _ tx _ Hl) as [Hsz Heq]. pose proof (ok_queue _ Hp from).
    eapply same_ok; [apply (queue_added_ok _ hash tx from (nonces p) H0 Eh Hf0 Hs)| | |]; cbn [pending queue all]; try (intros a); rewrite ?list_at_insert; try reflexivity.
    + rewrite decide_True by reflexivity. rewrite lookup_delete, decide_True; reflexivity.
    + rewrite decide_True by reflexivity. lia.
    + destruct (decide (from = a)) as [<-|]; [|reflexivity]. destruct (ok_once _ Hp from (tx_nonce tx)) as [E|E]; [|congruence]. rewrite delete_id by exact E. reflexivity.
    + destruct (decide (from = a)) as [<-|]; [|reflexivity]. rewrite decide_True by reflexivity. symmetry. exact Heq.
  - eapply alike_ok; [exact Hal|]. eapply promotes_ok; [exact Hpr | exact Hok].
  - apply queue_added_ok; auto. apply (ad_sender _ _ _ _ _ Ha).
Qed.

Lemma alike_refl p : alike p p.
Proof. repeat split. Qed.

Lemma replace_cases (p : TxPool) (ls : lists) from hash ex tx n : pool_ok p -> entry p from n ex ->
  exists h, tx_hash ex = Some h /\ replace_tx config p ls from hash ex tx =
    Some (if priceBumpSatisfied config ex tx then (<[from := list_add (list_at ls from) tx]> ls, <[hash := tx]> (delete h (all p)), Ok tt) else (ls, all p, Err ErrReplaceUnderpriced)).
Proof.
  intros Hp He. destruct (ok_entry _ Hp _ _ _ He) as (_ & h & Eh & _). exists h. split; [exact Eh|]. unfold replace_tx. rewrite Eh.
  destruct (priceBumpSatisfied config ex tx); reflexivity.
Qed.

Lemma addLocked_outcome p r r' tx hash : pool_ok p -> tx_hash tx = Some hash ->
  exists p' e, addLocked config signer p r r' tx = Some (p', e) /\ outcome p r r' tx hash p' e.
Proof.
  intros Hp Eh. unfold addLocked. rewrite Eh. cbn [obind].
  destruct (all p !! hash) as [known|] eqn:Eall; [eexists _, _; split; [reflexivity | apply out_refused, alike_refl]|].
  destruct (validate_cases p r tx hash Hp Eh) as (v & Ev & Hv). rewrite Ev. cbn [obind].
  destruct v as [from|e]; [|eexists _, _; split; [reflexivity | apply out_refused, alike_refl]]. specialize (Hv from eq_refl).
  unfold list_get. destruct (list_at (pending p) from !! tx_nonce tx) as [ex|] eqn:Ep; [|destruct (list_at (queue p) from !! tx_nonce tx) as [ex|] eqn:Eq].
  - destruct (replace_cases p (pending p) from hash ex tx (tx_nonce tx) Hp) as (h & Ehx & ->); [left; exact Ep|]. cbn [obind].
    destruct (priceBumpSatisfied config ex tx) eqn:Eb; [|eexists _, _; split; [reflexivity | apply out_refused; destruct p; apply alike_refl]].
    eexists _, _. split; [reflexivity | apply (out_replaced_pending p r r' tx hash from ex h); assumption].
  - destruct (replace_cases p (queue p) from hash ex tx (tx_nonce tx) Hp) as (h & Ehx & ->); [right; exact Eq|]. cbn [obind].
    destruct (priceBumpSatisfied config ex tx) eqn:Eb; [|eexists _, _; split; [reflexivity | apply out_refused; destruct p; apply alike_refl]].
    eexists _, _. split; [reflexivity | apply (out_replaced_queue p r r' tx hash from ex h); assumption].
  - destruct (CurrentState r') as [w|] eqn:Ew; [|eexists _, _; split; [reflexivity | apply out_refused, alike_refl]].
    destruct (Z.eqb_spec (tx_nonce tx) (nextNonce p from (nonce_at w from))) as [En|En].
    + rewrite insert_fresh by exact Ep. cbn [obind].
      destruct (Z.leb_spec (AccountSlots config) (Z.of_nat (size (list_at (pending p) from)))) as [Hf|Hf].
      * eexists _, _. split; [reflexivity|]. apply out_refused. split; [intros a; apply same_at | repeat split].
      * pose proof (pending_added_ok p hash tx from (<[from := tx_nonce tx +w 1]> (nonces p)) Hp Eh Eall (ad_sender _ _ _ _ _ Hv) Eq Hf) as Hok.
        destruct (promote_steps _ from w Hok) as (p1 & p' & E & Hpr & Hal). unfold with_all, with_pending, with_nonce. cbn [pending queue all nonces]. rewrite E. cbn [obind].
        eexists _, _. split; [reflexivity|]. eapply out_pending; eauto.
    + destruct (_ <? nonce_at w from); [eexists _, _; split; [reflexivity | apply out_refused, alike_refl]|].
      destruct (Z.leb_spec (GlobalQueue config) (queueLen p)); [eexists _, _; split; [reflexivity | apply out_refused, alike_refl]|].
      rewrite insert_fresh by exact Eq. cbn [obind].
      destruct (Z.leb_spec (AccountSlots config) (Z.of_nat (size (list_at (queue p) from)))) as [Hf|Hf].
      * eexists _, _. split; [reflexivity|]. apply out_refused. split; [reflexivity | split; [intros a; apply same_at | split; reflexivity]].
      * eexists _, _. split; [reflexivity|]. apply (out_queued p r r' tx hash from w); assumption.
Qed.

(** ** Resetting *)

Lemma remove_included_ok p tx : is_Some (tx_hash tx) -> pool_ok p -> exists p', remove_included signer p tx = Some p' /\ pool_ok p'.
Proof. intros [h E] Hp. unfold remove_included. rewrite E. eexists. split; [reflexivity | apply removeLocked_ok; exact Hp]. Qed.

Lemma revalidate_ok w p tx : is_Some (tx_hash tx) -> pool_ok p -> exists p', revalidate signer w p tx = Some p' /\ pool_ok p'.
Proof.
  intros Hh Hp. unfold revalidate. destruct (tx_sender signer tx); [destruct (_ || _)|]; [apply remove_included_ok; assumption | eauto | apply remove_included_ok; assumption].
Qed.

(** A transaction after a gap: queued, or lost from the lists. *)
Lemma gap_ok p addr tx : pool_ok p -> list_at (pending p) addr !! tx_nonce tx = Some tx ->
  exists ls e, insert_tx config (queue p) (all p) addr tx = Some (ls, all p, e) /\
    pool_ok (mkPool (<[addr := delete (tx_nonce tx) (list_at (pending p) addr)]> (pending p)) ls (all p) (nonces p)) /\
    forall a, a <> addr -> list_at ls a = list_at (queue p) a.
Proof.
  intros Hp E. destruct (ok_once _ Hp addr (tx_nonce tx)) as [E'|E']; [congruence|]. rewrite insert_fresh by exact E'.
  destruct (Z.leb_spec (AccountSlots config) (Z.of_nat (size (list_at (queue p) addr)))); eexists _, _; (split; [reflexivity|]).
  - split; [|intros a _; apply same_at]. apply (edit_ok p); [exact Hp| | | |]; unfold entry; cbn [pending queue all].
    + intros a n t. rewrite same_at, list_at_insert. intros H0. left. split; [|auto]. destruct (decide (addr = a)) as [<-|]; [|exact H0].
      rewrite lookup_delete in H0. destruct (decide (tx_nonce tx = n)); [destruct H0 as [[=]|H0]; auto | exact H0].
    + intros a n. rewrite same_at, list_at_insert. destruct (decide (addr = a)) as [<-|]; [|apply (ok_once _ Hp)]. rewrite lookup_delete.
      destruct (decide (tx_nonce tx = n)); [auto | apply (ok_once _ Hp)].
    + apply (ok_index _ Hp).
    + intros a. rewrite same_at, list_at_insert. pose proof (ok_pending _ Hp a). pose proof (ok_queue _ Hp a). destruct (decide (addr = a)) as [<-|]; [|auto].
      rewrite map_size_delete, E. cbn. lia.
  - split; [|intros a Ha; rewrite list_at_insert, decide_False by congruence; reflexivity].
    apply (move_queue_ok p addr tx); auto; intros a; rewrite list_at_insert; destruct (decide (addr = a)) as [<-|]; reflexivity.
Qed.

Lemma close_gaps_ok addr txs : forall p next, pool_ok p -> NoDup (map tx_nonce txs) -> (forall tx, tx ∈ txs -> list_at (pending p) addr !! tx_nonce tx = Some tx) ->
  exists p' next', close_gaps config p addr next txs = Some (p', next') /\ pool_ok p' /\ all p' = all p /\ nonces p' = nonces p /\ forall a, a <> addr -> list_at (pending p') a = list_at (pending p) a.
Proof.
  induction txs as [|tx txs IH]; intros p next Hp Hnd Hin; cbn [close_gaps]; [exists p, next; auto|].
  apply NoDup_cons in Hnd as [Hnew Hnd]. destruct (Z.eqb_spec (tx_nonce tx) next) as [En|En]; cbn [negb].
  - apply IH; auto. intros t Ht. apply Hin. apply list_elem_of_further. exact Ht.
  - destruct (gap_ok p addr tx Hp (Hin tx (list_elem_of_here _ _))) as (ls & e & Ei & Hok & Hq). cbn [with_pending pending queue all nonces]. rewrite Ei. cbn [obind].
    edestruct (IH (mkPool (<[addr := delete (tx_nonce tx) (list_at (pending p) addr)]> (pending p)) ls (all p) (nonces p)) next) as (p' & next' & E & Hp' & Ea & En' & Ho); [exact Hok | exact Hnd| |].
    + intros t Ht. cbn [pending]. rewrite list_at_insert, decide_True by reflexivity. rewrite lookup_delete, decide_False; [apply Hin; apply list_elem_of_further; exact Ht|].
      intros Heq. apply Hnew. rewrite Heq. apply list_elem_of_fmap. eauto.
    + exists p', next'. split; [exact E|]. split; [exact Hp'|]. split; [exact Ea|]. split; [exact En'|]. intros a Ha. rewrite Ho by exact Ha.
      cbn [pending]. rewrite list_at_insert, decide_False by congruence. reflexivity.
Qed.

(** An account's list in nonce order. *)
Lemma sorted_strict p a : pool_ok p -> Sorted.StronglySorted (fun t t' => tx_nonce t < tx_nonce t') (sorted (list_at (pending p) a)) /\
  NoDup (map tx_nonce (sorted (list_at (pending p) a))) /\ forall tx, tx ∈ sorted (list_at (pending p) a) -> list_at (pending p) a !! tx_nonce tx = Some tx.
Proof.
  intros Hp. assert (forall tx n, list_at (pending p) a !! n = Some tx -> tx_nonce tx = n) as Hn by (intros tx n H; destruct (ok_entry _ Hp a n tx) as ((_ & E) & _); [left; exact H | exact E]).
  set (l := list_at (pending p) a) in *. assert (NoDup (map tx_nonce (sorted l))) as Hnd.
  { unfold sorted. rewrite (merge_sort_Permutation by_nonce). replace (map tx_nonce (map snd (map_to_list l))) with (map fst (map_to_list l)); [apply NoDup_fst_map_to_list|].
    rewrite map_map. apply map_ext_in. intros [n tx] H. cbn. symmetry. apply Hn, elem_of_map_to_list, list_elem_of_In. exact H. }
  split; [|split; [exact Hnd|]].
  - assert (Sorted.StronglySorted by_nonce (sorted l)) as Hs by (apply Sorted.Sorted_StronglySorted; [intros ? ? ?; unfold by_nonce; lia | apply Sorted_merge_sort; intros x y; unfold by_nonce; lia]).
    revert Hs Hnd. generalize (sorted l). induction 1 as [|t ts Hs IH Ht]; intros Hnd; [constructor|]. cbn in Hnd. apply NoDup_cons in Hnd as [Hnew Hnd].
    constructor; [apply IH; exact Hnd|]. apply Forall_forall. intros t' Ht'. rewrite Forall_forall in Ht. specialize (Ht t' Ht'). unfold by_nonce in Ht.
    assert (tx_nonce t <> tx_nonce t') by (intros E; apply Hnew; rewrite E; apply list_elem_of_fmap; eauto). lia.
  - intros tx [n H]%elem_of_sorted. rewrite (Hn _ _ H). exact H.
Qed.

Lemma recompute_ok w p addr : pool_ok p -> exists p', recompute config w p addr = Some p' /\ pool_ok p'.
Proof.
  intros Hp. destruct (sorted_strict p addr Hp) as (_ & Hnd & Hin). unfold recompute.
  destruct (close_gaps_ok addr _ p (nonce_at w addr) Hp Hnd Hin) as (p' & next' & E & Hp' & _). rewrite E. cbn [obind].
  eexists. split; [reflexivity|]. apply (same_ok p'); auto.
Qed.

Lemma range_all_hashed g p : pool_ok p -> forall tx, tx ∈ range_all g (all p) -> is_Some (tx_hash tx) /\ exists h, all p !! h = Some tx.
Proof.
  intros Hp tx H. rewrite (range_all_ok g) in H. apply list_elem_of_fmap in H as ([h t] & -> & H). apply elem_of_map_to_list in H.
  split; [exists h; apply (ok_index _ Hp); exact H | eauto].
Qed.

Lemma Reset_ok g p r included : pool_ok p -> Forall (fun tx => is_Some (tx_hash tx)) included -> exists p', Reset config signer g p r included = Some p' /\ pool_ok p'.
Proof.
  intros Hp Hinc. unfold Reset. rewrite Forall_forall in Hinc.
  destruct (foldM_inv pool_ok (remove_included signer) included (fun a b Hb => remove_included_ok a b (Hinc b Hb)) p Hp) as (p1 & E1 & H1). rewrite E1. cbn [obind].
  destruct (CurrentState r) as [w|]; [|eauto].
  destruct (foldM_inv pool_ok (revalidate signer w) (range_all g (all p1)) (fun a b Hb => revalidate_ok w a b (proj1 (range_all_hashed g p1 H1 b Hb))) p1 H1) as (p2 & E2 & H2).
  rewrite E2. cbn [obind]. assert (pool_ok (mkPool (pending p2) (queue p2) (all p2) ∅)) as H2' by (apply (same_ok p2); auto).
  destruct (foldM_inv pool_ok (recompute config w) (range_lists g (pending p2)) (fun a b _ => recompute_ok w a b) _ H2') as (p3 & E3 & H3).
  cbn [pending]. rewrite E3. cbn [obind]. apply foldM_inv; [|exact H3]. intros a b _. apply promote_ok.
Qed.

(** ** Every indexed transaction is in a list *)

Definition listed (p : TxPool) : Prop := forall h tx, all p !! h = Some tx -> exists a n, entry p a n tx.

(** Each account's transactions would fit in one list. *)
Definition room (p : TxPool) : Prop :=
  forall a, Z.of_nat (size (list_at (pending p) a)) + Z.of_nat (size (list_at (queue p) a)) <= AccountSlots config.

Lemma entry_fun p a n t t' : pool_ok p -> entry p a n t -> entry p a n t' -> t' = t.
Proof. intros Hp H H'. unfold entry in *. destruct (ok_once _ Hp a n) as [E|E]; rewrite E in *; destruct H, H'; congruence. Qed.

Lemma New_listed : listed New.
Proof. intros h tx H. discriminate H. Qed.

Lemma same_listed p p' : (forall a, list_at (pending p') a = list_at (pending p) a) -> (forall a, list_at (queue p') a = list_at (queue p) a) ->
  all p' = all p -> (listed p -> listed p') /\ (room p -> room p').
Proof.
  intros E1 E2 E3. split; [intros H h tx; unfold entry; rewrite E3; setoid_rewrite E1; setoid_rewrite E2; apply H | intros H a; rewrite E1, E2; apply H].
Qed.

Lemma alike_listed p p' : alike p p' -> listed p -> listed p'.
Proof. intros (H1 & H2 & H3 & _). apply same_listed; assumption. Qed.

Lemma remove_listed p h tx from ls ls' ns : pool_ok p -> all p !! h = Some tx -> tx_sender signer tx = Ok from ->
  (forall a, list_at ls a = if decide (from = a) then delete (tx_nonce tx) (list_at (pending p) a) else list_at (pending p) a) ->
  (forall a, list_at ls' a = if decide (from = a) then delete (tx_nonce tx) (list_at (queue p) a) else list_at (queue p) a) ->
  (listed p -> listed (mkPool ls ls' (delete h (all p)) ns)) /\ (room p -> room (mkPool ls ls' (delete h (all p)) ns)).
Proof.
  intros Hp Hh Hs E E'. split.
  - intros Hl h' tx' H'. cbn [all] in H'. rewrite lookup_delete in H'. destruct (decide (h = h')) as [|Hne]; [discriminate|].
    destruct (Hl _ _ Hh) as (a & n & He). destruct (Hl _ _ H') as (a' & n' & He').
    destruct (ok_entry _ Hp _ _ _ He) as ((Ha & Hn) & _). exists a', n'. unfold entry in *. cbn [pending queue]. rewrite E, E'.
    destruct (decide (from = a')) as [<-|]; [|exact He']. rewrite !lookup_delete. destruct (decide (tx_nonce tx = n')) as [<-|]; [|exact He'].
    exfalso. apply Hne. assert (a = from) as -> by congruence. subst n. pose proof (entry_fun p _ _ tx tx' Hp He He') as ->.
    pose proof (ok_index _ Hp _ _ Hh). pose proof (ok_index _ Hp _ _ H'). congruence.
  - intros Hr a. specialize (Hr a). cbn [pending queue]. rewrite E, E'. destruct (decide (from = a)); [|exact Hr]. rewrite !map_size_delete.
    destruct (list_at (pending p) a !! tx_nonce tx), (list_at (queue p) a !! tx_nonce tx); cbn; lia.
Qed.

Lemma removeLocked_listed p h : pool_ok p -> listed p -> listed (removeLocked signer p h) /\ (room p -> room (removeLocked signer p h)).
Proof.
  intros Hp Hl. unfold removeLocked. destruct (all p !! h) as [tx|] eqn:Eh; [|auto]. destruct (Hl _ _ Eh) as (a & n & He).
  destruct (ok_entry _ Hp _ _ _ He) as ((Hs & _) & _). rewrite Hs.
  edestruct (remove_listed p h tx a) as [H1 H2]; [exact Hp | exact Eh | exact Hs | | |split; [apply H1, Hl | exact H2]];
    intros b; cbn [with_queue with_pending with_all pending queue]; apply list_at_drop.
Qed.

Lemma moved_listed p addr next tx : pool_ok p -> list_at (queue p) addr !! next = Some tx -> listed p -> listed (moved p addr next tx).
Proof.
  intros Hp Hq Hl h t H. destruct (Hl h t H) as (a & n & He). destruct (ok_entry _ Hp addr next tx) as ((_ & En) & _); [right; exact Hq|].
  exists a, n. unfold entry in *. cbn [moved pending queue]. rewrite !list_at_insert. destruct (decide (addr = a)) as [<-|]; [|exact He].
  unfold list_add. rewrite lookup_insert, lookup_delete, En. destruct (decide (next = n)) as [<-|]; [|exact He].
  left. f_equal. apply (entry_fun p addr next t tx Hp He). right. exact Hq.
Qed.

Lemma dropped_listed p addr next tx h : pool_ok p -> list_at (queue p) addr !! next = Some tx -> tx_hash tx = Some h -> listed p -> listed (dropped p addr next h).
Proof.
  intros Hp Hq Eh. destruct (ok_entry _ Hp addr next tx) as ((Hs & <-) & h' & Eh' & Hi); [right; exact Hq|]. assert (h' = h) as -> by congruence.
  apply (remove_listed p h tx addr _ _ _ Hp Hi Hs); intros a; rewrite list_at_insert; destruct (decide (addr = a)) as [<-|]; try reflexivity.
  destruct (ok_once _ Hp addr (tx_nonce tx)) as [E|E]; [rewrite delete_id by exact E; reflexivity | congruence].
Qed.

Lemma promotes_listed addr p next p' : promotes addr p next p' -> pool_ok p -> listed p -> listed p'.
Proof.
  induction 1; intros Hp Hl; [exact Hl | eapply dropped_listed; eauto | apply IHpromotes; [apply moved_ok | apply moved_listed]; auto].
Qed.

Lemma promote_listed p addr w : pool_ok p /\ listed p -> exists p', promote config p addr w = Some p' /\ pool_ok p' /\ listed p'.
Proof.
  intros [Hp Hl]. destruct (promote_steps p addr w Hp) as (p1 & p' & E & Hs & Ha). exists p'. split; [exact E|].
  split; [eapply alike_ok; [exact Ha|]; eapply promotes_ok; eauto | eapply alike_listed; [exact Ha|]; eapply promotes_listed; eauto].
Qed.

(** An addition to one of an account's lists, where that nonce is free or replaced. *)
Lemma add_listed p hash tx from ls ls' m ns : pool_ok p -> listed p ->
  (forall h t, m !! h = Some t -> all p !! h = Some t /\ ~ entry p from (tx_nonce tx) t) ->
  (list_at ls from !! tx_nonce tx = Some tx \/ list_at ls' from !! tx_nonce tx = Some tx) ->
  (forall a n, a <> from \/ n <> tx_nonce tx -> list_at ls a !! n = list_at (pending p) a !! n /\ list_at ls' a !! n = list_at (queue p) a !! n) ->
  listed (mkPool ls ls' (<[hash := tx]> m) ns).
Proof.
  intros Hp Hl Hm Htx Hrest h t H. cbn [all] in H. rewrite lookup_insert in H. destruct (decide (hash = h)) as [<-|_].
  - injection H as <-. exists from, (tx_nonce tx). exact Htx.
  - destruct (Hm h t H) as [Hi Hne]. destruct (Hl h t Hi) as (a & n & He). exists a, n. unfold entry. cbn [pending queue].
    destruct (Hrest a n) as [-> ->]; [|exact He]. destruct (decide (a = from)) as [->|]; [|auto].
    destruct (decide (n = tx_nonce tx)) as [->|]; [contradiction | auto].
Qed.

Lemma added_at (ls : lists) from tx : list_at (<[from := list_add (list_at ls from) tx]> ls) from !! tx_nonce tx = Some tx /\
  forall a n, a <> from \/ n <> tx_nonce tx -> list_at (<[from := list_add (list_at ls from) tx]> ls) a !! n = list_at ls a !! n.
Proof.
  split; [rewrite list_at_insert, decide_True by reflexivity; apply lookup_insert_eq|]. intros a n H. rewrite list_at_insert.
  destruct (decide (from = a)) as [<-|]; [|reflexivity]. apply lookup_insert_ne. intuition congruence.
Qed.

(** What [hash] displaces, if anything, is the transaction at its nonce. *)
Lemma replaced_gone p from tx ex h : pool_ok p -> entry p from (tx_nonce tx) ex -> tx_hash ex = Some h ->
  forall h' t, delete h (all p) !! h' = Some t -> all p !! h' = Some t /\ ~ entry p from (tx_nonce tx) t.
Proof.
  intros Hp He Eh h' t H. rewrite lookup_delete in H. destruct (decide (h = h')) as [|Hne]; [discriminate|]. split; [exact H|].
  intros Ht. apply Hne. pose proof (entry_fun p _ _ _ _ Hp He Ht) as ->. pose proof (ok_index _ Hp _ _ H). congruence.
Qed.

Lemma outcome_listed p r r' tx hash p' e : outcome p r r' tx hash p' e -> pool_ok p -> listed p -> listed p'.
Proof.
  intros [p1 e1 Hal|from ex h _ _ Hl Ehx _|from ex h _ _ Hl Ehx _|from w p1 p2 _ _ _ Hn Hq _ _ Hok Hpr Hal|from w _ _ _ Hn Hq _ _ _] Hp Hall.
  - eapply alike_listed; eauto.
  - destruct (added_at (pending p) from tx) as [H1 H2]. apply (add_listed p hash tx from); auto. apply (replaced_gone p from tx ex); auto. left. exact Hl.
  - destruct (added_at (queue p) from tx) as [H1 H2]. apply (add_listed p hash tx from); auto. apply (replaced_gone p from tx ex); auto. right. exact Hl.
  - eapply alike_listed; [exact Hal|]. eapply promotes_listed; [exact Hpr | exact Hok|]. destruct (added_at (pending p) from tx) as [H1 H2].
    apply (add_listed p hash tx from); auto. intros h t Hi. split; [exact Hi | intros [Ht|Ht]; congruence].
  - destruct (added_at (queue p) from tx) as [H1 H2]. apply (add_listed p hash tx from); auto. intros h t Hi. split; [exact Hi | intros [Ht|Ht]; congruence].
Qed.

(** With room, what follows a gap is queued. *)
Lemma gap_listed p addr tx : pool_ok p -> room p -> listed p -> list_at (pending p) addr !! tx_nonce tx = Some tx ->
  forall ls m e, insert_tx config (queue p) (all p) addr tx = Some (ls, m, e) ->
  let p' := mkPool (<[addr := delete (tx_nonce tx) (list_at (pending p) addr)]> (pending p)) ls m (nonces p) in listed p' /\ room p'.
Proof.
  intros Hp Hr Hl E ls m e Ei. destruct (ok_once _ Hp addr (tx_nonce tx)) as [E'|E']; [congruence|]. rewrite insert_fresh in Ei by exact E'.
  assert (size (list_at (pending p) addr) <> 0%nat) as Hsz by (eapply map_size_ne_0_lookup_2; eauto). pose proof (Hr addr) as Hra.
  destruct (Z.leb_spec (AccountSlots config) (Z.of_nat (size (list_at (queue p) addr)))); [lia|]. injection Ei as <- <- _. split.
  - intros h t Hi. destruct (Hl h t Hi) as (a & n & He). exists a, n. unfold entry in *. cbn [pending queue]. rewrite !list_at_insert.
    destruct (decide (addr = a)) as [<-|]; [|exact He]. unfold list_add. rewrite lookup_insert, lookup_delete.
    destruct (decide (tx_nonce tx = n)) as [<-|]; [|exact He]. right. f_equal. apply (entry_fun p addr (tx_nonce tx) t tx Hp He). left. exact E.
  - intros a. cbn [pending queue]. rewrite !list_at_insert. destruct (decide (addr = a)) as [<-|]; [|apply Hr].
    unfold list_add. rewrite map_size_delete, E, map_size_insert, E'. cbn. lia.
Qed.

Lemma close_gaps_listed addr txs : forall p next p' next', close_gaps config p addr next txs = Some (p', next') -> pool_ok p -> room p -> listed p ->
  NoDup (map tx_nonce txs) -> (forall tx, tx ∈ txs -> list_at (pending p) addr !! tx_nonce tx = Some tx) -> listed p' /\ room p'.
Proof.
  induction txs as [|tx txs IH]; intros p next p' next' E Hp Hr Hl Hnd Hin; cbn [close_gaps] in E; [injection E as <- _; auto|].
  apply NoDup_cons in Hnd as [Hnew Hnd]. destruct (Z.eqb_spec (tx_nonce tx) next) as [En|En]; cbn [negb] in E.
  - eapply IH; eauto. intros t Ht. apply Hin. apply list_elem_of_further. exact Ht.
  - pose proof (Hin tx (list_elem_of_here _ _)) as Htx. destruct (gap_ok p addr tx Hp Htx) as (ls & e & Ei & Hok & Hq).
    destruct (gap_listed p addr tx Hp Hr Hl Htx _ _ _ Ei) as [Hl1 Hr1]. cbn [with_pending pending queue all nonces] in E. rewrite Ei in E. cbn [obind] in E.
    apply IH in E; auto. intros t Ht. cbn [with_all with_queue with_pending pending]. rewrite list_at_insert, decide_True by reflexivity.
    rewrite lookup_delete, decide_False; [apply Hin; apply list_elem_of_further; exact Ht|].
    intros Heq. apply Hnew. rewrite Heq. apply list_elem_of_fmap. eauto.
Qed.

Definition roomy (p : TxPool) : Prop := pool_ok p /\ listed p /\ room p.

Lemma remove_included_roomy p tx : is_Some (tx_hash tx) -> roomy p -> exists p', remove_included signer p tx = Some p' /\ roomy p'.
Proof.
  intros [h E] (Hp & Hl & Hr). unfold remove_included. rewrite E. eexists. split; [reflexivity|]. destruct (removeLocked_listed p h Hp Hl).
  split; [apply removeLocked_ok; exact Hp | auto].
Qed.

Lemma revalidate_roomy w p tx : is_Some (tx_hash tx) -> roomy p -> exists p', revalidate signer w p tx = Some p' /\ roomy p'.
Proof.
  intros Hh Hp. unfold revalidate. destruct (tx_sender signer tx); [destruct (_ || _)|]; [apply remove_included_roomy; assumption | eauto | apply remove_included_roomy; assumption].
Qed.

Lemma recompute_roomy w p addr : roomy p -> exists p', recompute config w p addr = Some p' /\ roomy p'.
Proof.
  intros (Hp & Hl & Hr). destruct (sorted_strict p addr Hp) as (_ & Hnd & Hin). unfold recompute.
  destruct (close_gaps_ok addr _ p (nonce_at w addr) Hp Hnd Hin) as (p' & next' & E & Hp' & _).
  destruct (close_gaps_listed _ _ _ _ _ _ E Hp Hr Hl Hnd Hin) as [Hl' Hr']. rewrite E. cbn [obind].
  eexists. split; [reflexivity|]. split; [apply (same_ok p'); auto|]. split; eapply (same_listed p'); auto.
Qed.

Lemma Reset_listed g p r included : roomy p -> Forall (fun tx => is_Some (tx_hash tx)) included ->
  exists p', Reset config signer g p r included = Some p' /\ pool_ok p' /\ listed p'.
Proof.
  intros Hp Hinc. unfold Reset. rewrite Forall_forall in Hinc.
  destruct (foldM_inv roomy (remove_included signer) included (fun a b Hb => remove_included_roomy a b (Hinc b Hb)) p Hp) as (p1 & E1 & H1). rewrite E1. cbn [obind].
  destruct (CurrentState r) as [w|]; [|exists p1; split; [reflexivity|]; split; apply H1].
  destruct (foldM_inv roomy (revalidate signer w) (range_all g (all p1)) (fun a b Hb => revalidate_roomy w a b (proj1 (range_all_hashed g p1 (proj1 H1) b Hb))) p1 H1) as (p2 & E2 & H2).
  rewrite E2. cbn [obind]. assert (roomy (mkPool (pending p2) (queue p2) (all p2) ∅)) as H2'.
  { destruct H2 as (Ha & Hb & Hc). split; [apply (same_ok p2); auto|]. split; eapply (same_listed p2); auto. }
  destruct (foldM_inv roomy (recompute config w) (range_lists g (pending p2)) (fun a b _ => recompute_roomy w a b) _ H2') as (p3 & E3 & Hp3 & Hl3 & _).
  cbn [pending]. rewrite E3. cbn [obind]. apply (foldM_inv (fun p => pool_ok p /\ listed p)); [|auto]. intros a b _. apply promote_listed.
Qed.

(** ** The pool's invariant *)

(** The operations, in the order they take the lock. *)
Inductive op :=
| DoAdd (r r' : Reader) (tx : Transaction)
| DoRemove (hash : Hash)
| DoReset (g : ranges) (r : Reader) (included : list Transaction)
| DoClear.

Definition exec (p : TxPool) (o : op) : option TxPool :=
  match o with
  | DoAdd r r' tx => let? x := addLocked config signer p r r' tx in Some (fst x)
  | DoRemove h => Some (removeLocked signer p h)
  | DoReset g r included => Reset config signer g p r included
  | DoClear => Some (Clear p)
  end.

(** Transactions the caller hands over have an encoding. *)
Definition op_ok (o : op) : Prop :=
  match o with
  | DoAdd _ _ tx => is_Some (tx_hash tx)
  | DoReset _ _ included => Forall (fun tx => is_Some (tx_hash tx)) included
  | _ => True
  end.

Lemma exec_ok p o : op_ok o -> pool_ok p -> exists p', exec p o = Some p' /\ pool_ok p'.
Proof.
  destruct o as [r r' tx|h|g r included|]; intros Ho Hp; cbn [exec op_ok] in *.
  - destruct Ho as [hash Eh]. destruct (addLocked_outcome p r r' tx hash Hp Eh) as (p' & e & E & H). rewrite E. eexists. split; [reflexivity|]. eapply outcome_ok; eauto.
  - eexists. split; [reflexivity | apply removeLocked_ok; exact Hp].
  - apply Reset_ok; assumption.
  - eexists. split; [reflexivity | apply New_ok].
Qed.

Lemma op_listed p o p' : op_ok o -> pool_ok p -> listed p -> (forall g r inc, o = DoReset g r inc -> room p) -> exec p o = Some p' -> listed p'.
Proof.
  destruct o as [r r' tx|h|g r included|]; intros Ho Hp Hl Hr E; cbn [exec op_ok] in *.
  - destruct Ho as [hash Eh]. destruct (addLocked_outcome p r r' tx hash Hp Eh) as (q & e & Eq & H). rewrite Eq in E. injection E as <-. eapply outcome_listed; eauto.
  - injection E as <-. apply removeLocked_listed; assumption.
  - destruct (Reset_listed g p r included) as (q & Eq & _ & H); [split; [exact Hp | split; [exact Hl | eapply Hr; reflexivity]] | exact Ho|].
    rewrite Eq in E. injection E as <-. exact H.
  - injection E as <-. exact New_listed.
Qed.

(** Every reset of the run finds room in the pool. *)
Fixpoint resets_with_room (p : TxPool) (ops : list op) : Prop :=
  match ops with
  | [] => True
  | o :: rest => (forall g r inc, o = DoReset g r inc -> room p) /\ forall p', exec p o = Some p' -> resets_with_room p' rest
  end.

Lemma run_listed ops : forall p, Forall op_ok ops -> pool_ok p ->
  exists p', SDB.foldM exec p ops = Some p' /\ pool_ok p' /\ (listed p -> resets_with_room p ops -> listed p').
Proof.
  induction ops as [|o ops IH]; intros p Ho Hp; [exists p; split; [reflexivity | auto]|]. inversion Ho as [|? ? Ho1 Ho2]; subst.
  destruct (exec_ok p o Ho1 Hp) as (p1 & E1 & H1). destruct (IH p1 Ho2 H1) as (p' & E' & H' & Hl'). cbn [SDB.foldM]. rewrite E1. exists p'.
  split; [exact E'|]. split; [exact H'|]. intros Hl [Hr Hrest]. apply Hl'; [exact (op_listed p o p1 Ho1 Hp Hl Hr E1) | apply Hrest; exact E1].
Qed.

(** C20: the pool's parts agree, whatever is done to it.  After any sequence of
    additions, removals and resets, on any answers of the chain and in any order
    of iteration, no operation has panicked or run forever; every transaction in a
    list is its sender's at its nonce and is found in the index under its hash; no
    nonce of an account is both pending and queued; no account holds more
    transactions in a list than its slots.  The index holds nothing else: every
    transaction in it is in a list, provided each reset of the sequence found no
    account with more transactions than its slots, pending and queued together. *)
Theorem pool_consistent ops : Forall op_ok ops -> exists p, SDB.foldM exec New ops = Some p /\ pool_ok p /\
  (resets_with_room New ops -> forall h tx, all p !! h = Some tx <-> tx_hash tx = Some h /\ exists a n, entry p a n tx).
Proof.
  intros H. destruct (run_listed ops New H New_ok) as (p & E & Hp & Hl). exists p. split; [exact E|]. split; [exact Hp|]. intros Hr h tx. split.
  - intros Hi. split; [apply (ok_index _ Hp); exact Hi | exact (Hl New_listed Hr h tx Hi)].
  - intros (Eh & a & n & He). destruct (ok_entry _ Hp _ _ _ He) as (_ & h' & Eh' & Hi). congruence.
Qed.

(** ** Pending transactions are executable *)

Section Executable.
Variable w : SDB.World.
Hypothesis Hnonces : forall a, 0 <= nonce_at w a /\ nonce_at w a + AccountSlots config < two64.

Definition exec_at (p : TxPool) (a : Address) : Prop :=
  forall n, is_Some (list_at (pending p) a !! n) <-> nonce_at w a <= n < nextNonce p a (nonce_at w a).

(** The pending transactions of every account have the nonces from the account's
    own up to the next one the pool expects, without a gap. *)
Definition executable (p : TxPool) : Prop := forall a, exec_at p a.

Lemma run_size (l : accountList) s e : (forall n, s <= n < e -> is_Some (l !! n)) -> e - s <= Z.of_nat (size l).
Proof.
  intros H. destruct (Z.le_gt_cases e s); [lia|]. assert (list_to_set (seqZ s (e - s)) ⊆ dom l) as Hsub.
  { intros n Hn. apply elem_of_list_to_set, elem_of_seqZ in Hn. apply elem_of_dom, H. lia. }
  apply subseteq_size in Hsub. rewrite size_list_to_set in Hsub by apply NoDup_seqZ. rewrite length_seqZ, size_dom in Hsub. lia.
Qed.

Lemma nextNonce_low p a : nonce_at w a <= nextNonce p a (nonce_at w a).
Proof. unfold nextNonce. destruct (nonces p !! a) as [z|]; [|lia]. destruct (Z.ltb_spec (nonce_at w a) z); lia. Qed.

Lemma next_small p a : exec_at p a -> Z.of_nat (size (list_at (pending p) a)) < AccountSlots config ->
  nextNonce p a (nonce_at w a) +w 1 = nextNonce p a (nonce_at w a) + 1.
Proof.
  intros He Hs. pose proof (run_size (list_at (pending p) a) (nonce_at w a) (nextNonce p a (nonce_at w a)) (fun n => proj2 (He n))).
  pose proof (nextNonce_low p a). pose proof (Hnonces a). apply wrap64_small. unfold u64_ok. lia.
Qed.

(** Appending at the next nonce. *)
Lemma append_exec p addr tx ls ls' m : exec_at p addr -> Z.of_nat (size (list_at (pending p) addr)) < AccountSlots config ->
  tx_nonce tx = nextNonce p addr (nonce_at w addr) ->
  exec_at (mkPool (<[addr := list_add (list_at (pending p) addr) tx]> ls) ls' m (<[addr := tx_nonce tx +w 1]> (nonces p))) addr /\
  nextNonce (mkPool (<[addr := list_add (list_at (pending p) addr) tx]> ls) ls' m (<[addr := tx_nonce tx +w 1]> (nonces p))) addr (nonce_at w addr) = tx_nonce tx +w 1.
Proof.
  intros He Hs En. pose proof (next_small p addr He Hs) as Hw. pose proof (nextNonce_low p addr) as Hl. rewrite <- En in *.
  assert (nextNonce (mkPool (<[addr := list_add (list_at (pending p) addr) tx]> ls) ls' m (<[addr := tx_nonce tx +w 1]> (nonces p))) addr (nonce_at w addr) = tx_nonce tx +w 1) as Enext.
  { unfold nextNonce at 1. cbn [nonces]. rewrite lookup_insert, decide_True by reflexivity. rewrite Hw. destruct (Z.ltb_spec (nonce_at w addr) (tx_nonce tx + 1)); lia. }
  split; [|exact Enext]. intros n. rewrite Enext, Hw. cbn [pending]. rewrite list_at_insert, decide_True by reflexivity. unfold list_add. rewrite lookup_insert.
  destruct (decide (tx_nonce tx = n)) as [<-|Hne]; [split; [lia | eauto]|]. rewrite (He n), <- En. lia.
Qed.

Lemma other_exec p p' a : list_at (pending p') a = list_at (pending p) a -> nonces p' !! a = nonces p !! a -> exec_at p a -> exec_at p' a.
Proof. intros E1 E2 He n. unfold nextNonce. rewrite E1, E2. apply He. Qed.

Lemma promotes_exec addr p next p' : promotes addr p next p' -> pool_ok p -> next = nextNonce p addr (nonce_at w addr) -> executable p -> executable p'.
Proof.
  induction 1 as [p next Hq|p next tx h Hq Eh Hf|p next tx p' Hq Hs _ IH]; intros Hp En He; [exact He| |].
  - intros a. apply (other_exec p); [apply same_at | reflexivity | apply He].
  - destruct (ok_entry _ Hp addr next tx) as ((_ & Et) & _); [right; exact Hq|]. rewrite En in Et. subst next.
    destruct (append_exec p addr tx (pending p) (<[addr := delete (nextNonce p addr (nonce_at w addr)) (list_at (queue p) addr)]> (queue p)) (all p) (He addr) Hs Et) as [Ha Hn].
    unfold moved in *. rewrite <- Et in *. apply IH; [eapply (moved_ok p); eauto | symmetry; exact Hn|].
    intros a. destruct (decide (addr = a)) as [<-|Hne]; [exact Ha|]. apply (other_exec p); cbn [pending nonces]; [rewrite list_at_insert, decide_False by exact Hne; reflexivity | rewrite lookup_insert, decide_False by exact Hne; reflexivity | apply He].
Qed.

Lemma alike_exec p p' : alike p p' -> executable p -> executable p'.
Proof. intros (E & _ & _ & En) He a. apply (other_exec p); [apply E | rewrite En; reflexivity | apply He]. Qed.

Lemma outcome_exec p r r' tx hash p' e : CurrentState r' = Some w -> pool_ok p -> outcome p r r' tx hash p' e -> executable p -> executable p'.
Proof.
  intros Ew Hp [p1 e1 Hal|from ex h Ha Hfree Hl Ehx _|from ex h Ha Hfree Hl Ehx _|from w' p1 p2 Ha Hfree Ew' Hl Hq Hn Hsz Hok Hpr Hal|from w' Ha Hfree _ Hl _ _ Hsz _] He.
  - eapply alike_exec; eauto.
  - intros a. destruct (decide (from = a)) as [<-|Hne]; [|apply (other_exec p); cbn [pending]; [rewrite list_at_insert, decide_False by exact Hne; reflexivity | reflexivity | apply He]].
    intros n. change (nextNonce (mkPool _ _ _ (nonces p)) from (nonce_at w from)) with (nextNonce p from (nonce_at w from)). rewrite <- (He from n).
    cbn [pending]. rewrite list_at_insert, decide_True by reflexivity. unfold list_add. rewrite lookup_insert. destruct (decide (tx_nonce tx = n)) as [<-|]; [|reflexivity].
    rewrite Hl. split; eauto.
  - intros a. apply (other_exec p); [reflexivity | reflexivity | apply He].
  - assert (w' = w) as -> by congruence. eapply alike_exec; [exact Hal|]. eapply promotes_exec; [exact Hpr | exact Hok | reflexivity|].
    intros a. destruct (decide (from = a)) as [<-|Hne]; [eapply append_exec; [apply He | assumption | assumption]|].
    apply (other_exec p); cbn [pending nonces]; [rewrite list_at_insert, decide_False by exact Hne; reflexivity | rewrite lookup_insert, decide_False by exact Hne; reflexivity | apply He].
  - intros a. apply (other_exec p); [reflexivity | reflexivity | apply He].
Qed.

(** What a reset leaves in an account's list. *)
Lemma close_gaps_run addr txs : forall p next p' next', close_gaps config p addr next txs = Some (p', next') ->
  pool_ok p -> nonce_at w addr <= next -> Sorted.StronglySorted (fun t t' => tx_nonce t < tx_nonce t') txs -> Forall (fun t => next <= tx_nonce t) txs ->
  (forall tx, tx ∈ txs -> list_at (pending p) addr !! tx_nonce tx = Some tx) ->
  (forall n, is_Some (list_at (pending p) addr !! n) <-> nonce_at w addr <= n < next \/ exists t, t ∈ txs /\ tx_nonce t = n) ->
  nonce_at w addr <= next' /\ forall n, is_Some (list_at (pending p') addr !! n) <-> nonce_at w addr <= n < next'.
Proof.
  induction txs as [|tx txs IH]; intros p next p' next' E Hp Hle Hs Hge Hin Hrun; cbn [close_gaps] in E.
  - injection E as <- <-. split; [exact Hle|]. intros n. rewrite Hrun. split; [intros [H|(t & H & _)]; [exact H | inversion H] | auto].
  - apply Sorted.StronglySorted_inv in Hs as [Hs Hall]. inversion Hge as [|? ? Hnx Hge']; subst. rewrite Forall_forall in Hall, Hge'.
    destruct (Z.eqb_spec (tx_nonce tx) next) as [En|En]; cbn [negb] in E.
    + assert (next +w 1 = next + 1) as Ew.
      { assert (next + 1 - nonce_at w addr <= Z.of_nat (size (list_at (pending p) addr))).
        { apply run_size. intros n Hn. apply Hrun. destruct (decide (n = next)) as [->|]; [right; exists tx; split; [apply list_elem_of_here | exact En] | left; lia]. }
        pose proof (ok_pending _ Hp addr). pose proof (Hnonces addr). apply wrap64_small. unfold u64_ok. lia. }
      rewrite Ew in E. apply (IH p (next + 1) p' next'); auto; [lia | apply Forall_forall; intros t Ht; specialize (Hall t Ht); lia | intros t Ht; apply Hin, list_elem_of_further; exact Ht|].
      intros n. rewrite Hrun. split.
      * intros [H|(t & [->|Ht]%elem_of_cons & Et)]; [left; lia | left; lia | right; eauto].
      * intros [H|(t & Ht & Et)]; [|right; exists t; split; [apply list_elem_of_further; exact Ht | exact Et]].
        destruct (decide (n = next)) as [->|]; [right; exists tx; split; [apply list_elem_of_here | exact En] | left; lia].
    + destruct (gap_ok p addr tx Hp (Hin tx (list_elem_of_here _ _))) as (ls & e & Ei & Hok & _). cbn [with_pending pending queue all nonces] in E. rewrite Ei in E. cbn [obind] in E.
      apply (IH (mkPool (<[addr := delete (tx_nonce tx) (list_at (pending p) addr)]> (pending p)) ls (all p) (nonces p)) next p' next'); auto.
      * apply Forall_forall. exact Hge'.
      * intros t Ht. cbn [pending]. rewrite list_at_insert, decide_True by reflexivity. rewrite lookup_delete, decide_False; [apply Hin, list_elem_of_further; exact Ht | specialize (Hall t Ht); lia].
      * intros n. cbn [pending]. rewrite list_at_insert, decide_True by reflexivity. rewrite lookup_delete. destruct (decide (tx_nonce tx = n)) as [<-|Hne].
        -- split; [intros [? [=]] | intros [H|(t & Ht & Et)]; [lia | specialize (Hall t Ht); lia]].
        -- rewrite Hrun. split; [intros [H|(t & [->|Ht]%elem_of_cons & Et)]; [auto | congruence | eauto] | intros [H|(t & Ht & Et)]; [auto | right; exists t; split; [apply list_elem_of_further; exact Ht | exact Et]]].
Qed.

Definition low_at (p : TxPool) (a : Address) : Prop := forall n, is_Some (list_at (pending p) a !! n) -> nonce_at w a <= n.

Lemma recompute_exec p addr : pool_ok p -> low_at p addr ->
  exists p', recompute config w p addr = Some p' /\ pool_ok p' /\ exec_at p' addr /\
    forall a, a <> addr -> list_at (pending p') a = list_at (pending p) a /\ nonces p' !! a = nonces p !! a.
Proof.
  intros Hp Hlow. destruct (sorted_strict p addr Hp) as (Hs & Hnd & Hin). unfold recompute.
  destruct (close_gaps_ok addr _ p (nonce_at w addr) Hp Hnd Hin) as (p' & next' & E & Hp' & _ & En & Ho). rewrite E. cbn [obind].
  eexists. split; [reflexivity|]. split; [apply (same_ok p'); auto|].
  destruct (close_gaps_run addr _ p (nonce_at w addr) p' next' E Hp) as [Hle Hrun]; auto; [lia| | |].
  - apply Forall_forall. intros t Ht. apply Hlow. rewrite (Hin t Ht). eauto.
  - intros n. split.
    + intros [t Ht]. right. exists t. destruct (ok_entry _ Hp addr n t) as ((_ & Et) & _); [left; exact Ht|]. split; [apply elem_of_sorted; eauto | exact Et].
    + intros [H|(t & Ht & <-)]; [lia | rewrite (Hin t Ht); eauto].
  - split; [|intros a Ha; split; [apply Ho; exact Ha | cbn [with_nonce nonces]; rewrite lookup_insert, decide_False by congruence; rewrite En; reflexivity]].
    intros n. unfold nextNonce. cbn [with_nonce pending nonces]. rewrite lookup_insert, decide_True by reflexivity. rewrite Hrun.
    destruct (Z.ltb_spec (nonce_at w addr) next'); lia.
Qed.

Lemma recompute_all l : forall p, pool_ok p -> (forall a, low_at p a) -> (forall a, a ∈ l \/ exec_at p a) -> NoDup l ->
  exists p', SDB.foldM (recompute config w) p l = Some p' /\ pool_ok p' /\ executable p'.
Proof.
  induction l as [|b l IH]; intros p Hp Hlow Hex Hnd; cbn [SDB.foldM].
  - exists p. split; [reflexivity|]. split; [exact Hp|]. intros a. destruct (Hex a) as [H|H]; [inversion H | exact H].
  - apply NoDup_cons in Hnd as [Hnew Hnd]. destruct (recompute_exec p b Hp (Hlow b)) as (p1 & E1 & H1 & He1 & Ho). rewrite E1. cbn [obind]. apply IH; auto.
    + intros a. destruct (decide (a = b)) as [->|Hne]; [intros n Hn; apply He1 in Hn; lia | intros n; rewrite (proj1 (Ho a Hne)); apply Hlow].
    + intros a. destruct (decide (a = b)) as [->|Hne]; [right; exact He1|]. destruct (Hex a) as [[->|H]%elem_of_cons|H]; [done | left; exact H|].
      right. destruct (Ho a Hne). apply (other_exec p); assumption.
Qed.

Lemma removeLocked_all p h : all (removeLocked signer p h) = delete h (all p).
Proof. unfold removeLocked. destruct (all p !! h) as [tx|] eqn:E; [destruct (tx_sender signer tx); reflexivity | symmetry; apply delete_id; exact E]. Qed.

(** After revalidation no transaction that is left is below its account's nonce. *)
Definition fresh (tx : Transaction) : Prop := forall a, tx_sender signer tx = Ok a -> nonce_at w a <= tx_nonce tx.

Lemma revalidate_fresh p tx p' h : pool_ok p -> tx_hash tx = Some h -> revalidate signer w p tx = Some p' -> all p' ⊆ all p /\ (fresh tx \/ all p' !! h = None).
Proof.
  intros Hp Eh. unfold revalidate, remove_included. rewrite Eh. cbn [obind].
  assert (all (removeLocked signer p h) ⊆ all p /\ all (removeLocked signer p h) !! h = None) as [Hsub Hnone].
  { rewrite removeLocked_all. split; [apply delete_subseteq | rewrite lookup_delete, decide_True; reflexivity]. }
  destruct (tx_sender signer tx) as [a|] eqn:Es; [|intros [= <-]; auto]. destruct (Z.ltb_spec (tx_nonce tx) (nonce_at w a)); cbn [orb]; [intros [= <-]; auto|].
  destruct (_ <? _); intros [= <-]; [auto|]. split; [reflexivity|]. left. intros a' Ha'. assert (a' = a) as -> by congruence. assumption.
Qed.

Lemma revalidate_all l : forall p, pool_ok p -> Forall (fun tx => is_Some (tx_hash tx)) l ->
  exists p', SDB.foldM (revalidate signer w) p l = Some p' /\ pool_ok p' /\ all p' ⊆ all p /\ forall tx h, tx ∈ l -> tx_hash tx = Some h -> all p' !! h = Some tx -> fresh tx.
Proof.
  induction l as [|b l IH]; intros p Hp Hh; cbn [SDB.foldM].
  - exists p. split; [reflexivity|]. split; [exact Hp|]. split; [reflexivity|]. intros tx h H. inversion H.
  - inversion Hh as [|? ? [h Eh] Hh']; subst. destruct (revalidate_ok w p b) as (p1 & E1 & H1); [eauto | exact Hp|]. rewrite E1. cbn [obind].
    destruct (revalidate_fresh p b p1 h Hp Eh E1) as [Hsub Hf]. destruct (IH p1 H1 Hh') as (p' & E' & H' & Hsub' & Hall). exists p'. split; [exact E'|]. split; [exact H'|].
    split; [etransitivity; eassumption|]. intros tx h' [->|Ht]%elem_of_cons Et Hi; [|eauto]. assert (h' = h) as -> by congruence.
    destruct Hf as [Hf|Hf]; [exact Hf|]. eapply lookup_weaken in Hi; [|exact Hsub']. congruence.
Qed.

Lemma promote_exec p a : pool_ok p /\ executable p -> exists p', promote config p a w = Some p' /\ pool_ok p' /\ executable p'.
Proof.
  intros [Hp He]. destruct (promote_steps p a w Hp) as (p1 & p' & E & Hs & Hal). exists p'. split; [exact E|].
  split; [eapply alike_ok; [exact Hal | eapply promotes_ok; eauto] | eapply alike_exec; [exact Hal | eapply promotes_exec; eauto]].
Qed.

Lemma Reset_exec g p r included : CurrentState r = Some w -> pool_ok p -> Forall (fun tx => is_Some (tx_hash tx)) included ->
  exists p', Reset config signer g p r included = Some p' /\ pool_ok p' /\ executable p'.
Proof.
  intros Ew Hp Hinc. unfold Reset. rewrite Forall_forall in Hinc.
  destruct (foldM_inv pool_ok (remove_included signer) included (fun a b Hb => remove_included_ok a b (Hinc b Hb)) p Hp) as (p1 & E1 & H1). rewrite E1, Ew. cbn [obind].
  destruct (revalidate_all (range_all g (all p1)) p1 H1) as (p2 & E2 & H2 & Hsub & Hfresh); [apply Forall_forall; intros tx Ht; apply (range_all_hashed g p1 H1 tx Ht)|].
  rewrite E2. cbn [obind pending]. set (p2' := mkPool (pending p2) (queue p2) (all p2) ∅). assert (pool_ok p2') as H2' by (apply (same_ok p2); auto).
  destruct (recompute_all (range_lists g (pending p2)) p2' H2') as (p3 & E3 & H3 & He3).
  - intros a n [tx Ht]. destruct (ok_entry _ H2 a n tx) as ((Hs & <-) & h & Eh & Hi); [left; exact Ht|].
    apply (Hfresh tx h); auto. rewrite (range_all_ok g). apply list_elem_of_fmap. exists (h, tx). split; [reflexivity|].
    apply elem_of_map_to_list. eapply lookup_weaken; eauto.
  - intros a. destruct (pending p2 !! a) as [l|] eqn:El.
    + left. rewrite (range_lists_ok g). apply list_elem_of_fmap. exists (a, l). split; [reflexivity | apply elem_of_map_to_list; exact El].
    + right. intros n. unfold list_at, nextNonce. subst p2'. cbn [pending nonces]. rewrite El, lookup_empty. cbn. rewrite lookup_empty. split; [intros [? [=]] | lia].
  - rewrite (range_lists_ok g). apply NoDup_fst_map_to_list.
  - rewrite E3. cbn [obind]. apply (foldM_inv (fun p => pool_ok p /\ executable p) (fun p a => promote config p a w)); [|auto].
    intros a b _. apply promote_exec.
Qed.

(** Transactions added one after the other while the head does not change. *)
Definition add_all (r : Reader) (p : TxPool) (txs : list Transaction) : option TxPool :=
  SDB.foldM (fun p tx => let? x := addLocked config signer p r r tx in Some (fst x)) p txs.

(** C36: what the pool calls pending can be executed.  After a reset to a new head,
    and any number of additions on that head, the pending transactions of every
    account have exactly the nonces from the account's own up to the next one the
    pool expects of it: none is missing, none is left over from before. *)
Theorem pending_executable g p r included txs : CurrentState r = Some w -> pool_ok p ->
  Forall (fun tx => is_Some (tx_hash tx)) included -> Forall (fun tx => is_Some (tx_hash tx)) txs ->
  exists p1 p2, Reset config signer g p r included = Some p1 /\ add_all r p1 txs = Some p2 /\ executable p1 /\ executable p2.
Proof.
  intros Ew Hp Hinc Htxs. destruct (Reset_exec g p r included Ew Hp Hinc) as (p1 & E1 & H1 & He1). rewrite Forall_forall in Htxs.
  destruct (foldM_inv (fun p => pool_ok p /\ executable p) (fun p tx => let? x := addLocked config signer p r r tx in Some (fst x)) txs) with (a := p1) as (p2 & E2 & _ & He2); [|auto|exists p1, p2; auto].
  intros q tx Ht [Hq He]. destruct (Htxs tx Ht) as [hash Eh]. destruct (addLocked_outcome q r r tx hash Hq Eh) as (q' & e & E & Ho). rewrite E. cbn [obind fst].
  exists q'. split; [reflexivity|]. split; [eapply outcome_ok; eauto | eapply outcome_exec; eauto].
Qed.

End Executable.

(** ** Senders can pay *)

Definition tx_cost (tx : Transaction) : Z := Cost (inner tx).
Definition cost_of (l : accountList) : Z := zsum (map tx_cost (sorted l)).
Definition total (p : TxPool) (a : Address) : Z := cost_of (list_at (pending p) a) + cost_of (list_at (queue p) a).

Lemma zsum_perm l l' : l ≡ₚ l' -> zsum l = zsum l'.
Proof. unfold zsum. induction 1; cbn; lia. Qed.

Lemma cost_of_values l : cost_of l = zsum (map tx_cost (map snd (map_to_list l))).
Proof. apply zsum_perm, Permutation_map, merge_sort_Permutation. Qed.

Lemma cost_insert l n tx : l !! n = None -> cost_of (<[n := tx]> l) = tx_cost tx + cost_of l.
Proof. intros H. rewrite !cost_of_values. rewrite (zsum_perm _ _ (Permutation_map tx_cost (Permutation_map snd (map_to_list_insert l n tx H)))). reflexivity. Qed.

Lemma cost_delete l n tx : l !! n = Some tx -> cost_of l = tx_cost tx + cost_of (delete n l).
Proof. intros H. rewrite <- (insert_delete_id l n tx H) at 1. apply cost_insert. rewrite lookup_delete, decide_True; reflexivity. Qed.

Lemma cost_replace l n tx ex : l !! n = Some ex -> cost_of (<[n := tx]> l) = cost_of l - tx_cost ex + tx_cost tx.
Proof.
  intros H. rewrite <- insert_delete_eq, cost_insert by (rewrite lookup_delete, decide_True; reflexivity). pose proof (cost_delete l n ex H). lia.
Qed.

Lemma total_allFrom p a : zsum (map tx_cost (allFrom p a)) = total p a.
Proof. unfold allFrom, total, cost_of. rewrite map_app, zsum_app. reflexivity. Qed.

Lemma add_costs_total h txs : forall c, Forall (fun tx => exists h', tx_hash tx = Some h' /\ h' <> h) txs ->
  add_costs h c txs = Some (c + zsum (map tx_cost txs)).
Proof.
  induction txs as [|tx txs IH]; intros c H; cbn [add_costs map]; [f_equal; unfold zsum; cbn; lia|].
  inversion H as [|? ? (h' & Eh & Hne) H']; subst. rewrite Eh. cbn [obind]. rewrite bool_decide_false by exact Hne. rewrite IH by exact H'. f_equal.
  change (zsum (tx_cost tx :: map tx_cost txs)) with (tx_cost tx + zsum (map tx_cost txs)). fold (tx_cost tx). lia.
Qed.

Lemma admitted_pays p r hash tx from : pool_ok p -> all p !! hash = None -> admitted p r hash tx from ->
  exists w, CurrentState r = Some w /\ tx_cost tx + total p from <= balance_at w from.
Proof.
  intros Hp Hfree Ha. destruct (ad_state _ _ _ _ _ Ha) as (w & needed & Ew & _ & En & Hle). exists w. split; [exact Ew|].
  rewrite add_costs_total in En; [injection En as <-; rewrite total_allFrom in Hle; exact Hle|].
  apply Forall_forall. intros t [n Ht]%elem_of_allFrom. destruct (ok_entry _ Hp _ _ _ Ht) as (_ & h & Eh & Hi). exists h. split; [exact Eh | congruence].
Qed.

Section Payable.
Variable w : SDB.World.

Definition pays_at (p : TxPool) (a : Address) : Prop :=
  (forall n tx, entry p a n tx -> 0 <= tx_cost tx) /\ ((exists n tx, entry p a n tx) -> total p a <= balance_at w a).

(** The state covers everything the pool holds of an account. *)
Definition payable (p : TxPool) : Prop := forall a, pays_at p a.

Lemma same_pays p p' a : list_at (pending p') a = list_at (pending p) a -> list_at (queue p') a = list_at (queue p) a -> pays_at p a -> pays_at p' a.
Proof. intros E1 E2 H. unfold pays_at, entry, total. rewrite E1, E2. exact H. Qed.

Lemma alike_pays p p' : alike p p' -> payable p -> payable p'.
Proof. intros (E1 & E2 & _) H a. apply (same_pays p); auto. Qed.

Lemma moved_pays p addr next tx : pool_ok p -> list_at (queue p) addr !! next = Some tx -> payable p -> payable (moved p addr next tx).
Proof.
  intros Hp Hq Hpay a. destruct (decide (addr = a)) as [<-|Hne]; [|apply (same_pays p); unfold moved; cbn [pending queue]; rewrite ?list_at_insert, ?decide_False by exact Hne; auto].
  destruct (ok_entry _ Hp addr next tx) as ((_ & En) & _); [right; exact Hq|]. destruct (Hpay addr) as [Hnn Hle].
  destruct (ok_once _ Hp addr next) as [Hfree|]; [|congruence].
  unfold pays_at, entry, total, moved. cbn [pending queue]. rewrite !list_at_insert, !decide_True by reflexivity. unfold list_add. rewrite En.
  rewrite cost_insert by exact Hfree. pose proof (cost_delete _ _ _ Hq). split.
  - intros n t. rewrite lookup_insert, lookup_delete. destruct (decide (next = n)); [intros [[= <-]|[=]]; apply (Hnn next); right; exact Hq | apply Hnn].
  - intros _. unfold total in Hle. rewrite (cost_delete _ _ _ Hq) in Hle. assert (exists n t, entry p addr n t) as Hex by (exists next, tx; right; exact Hq). specialize (Hle Hex). lia.
Qed.

Lemma dropped_pays p addr next tx h : list_at (queue p) addr !! next = Some tx -> payable p -> payable (dropped p addr next h).
Proof.
  intros Hq Hpay a. destruct (decide (addr = a)) as [<-|Hne]; [|apply (same_pays p); unfold dropped; cbn [pending queue]; rewrite ?list_at_insert, ?decide_False by exact Hne; auto].
  destruct (Hpay addr) as [Hnn Hle]. unfold pays_at, entry, total, dropped. cbn [pending queue]. rewrite !list_at_insert, !decide_True by reflexivity.
  assert (forall n t, list_at (pending p) addr !! n = Some t \/ delete next (list_at (queue p) addr) !! n = Some t -> entry p addr n t) as Hsub.
  { intros n t. rewrite lookup_delete. destruct (decide (next = n)); [intros [H|[=]]; left; exact H | auto]. }
  split; [intros n t H; apply (Hnn n), Hsub, H|]. intros (n & t & H%Hsub). assert (exists n t, entry p addr n t) as Hex by eauto. specialize (Hle Hex). unfold total in Hle.
  rewrite (cost_delete _ _ _ Hq) in Hle. assert (0 <= tx_cost tx) by (apply (Hnn next); right; exact Hq). lia.
Qed.

Lemma promotes_pays addr p next p' : promotes addr p next p' -> pool_ok p -> payable p -> payable p'.
Proof.
  induction 1; intros Hp Hpay; [exact Hpay | eapply dropped_pays; eauto | apply IHpromotes; [apply moved_ok; auto | apply moved_pays; auto]].
Qed.

(** One more transaction that the balance covers on top of the others. *)
Lemma added_pays p p' from tx : pool_ok p -> payable p -> 0 <= tx_cost tx -> tx_cost tx + total p from <= balance_at w from ->
  (forall n t, entry p' from n t -> entry p from n t \/ t = tx) -> total p' from <= tx_cost tx + total p from ->
  (forall a, from <> a -> list_at (pending p') a = list_at (pending p) a /\ list_at (queue p') a = list_at (queue p) a) -> payable p'.
Proof.
  intros Hp Hpay H0 Hle He Ht Ho a. destruct (decide (from = a)) as [<-|Hne]; [|destruct (Ho a Hne); apply (same_pays p); auto].
  split; [|intros _; lia]. intros n t [H| ->]%He; [apply (proj1 (Hpay from) n); exact H | exact H0].
Qed.

Hypothesis Hprice : 0 <= PriceLimit config.

Lemma outcome_pays p r r' tx hash p' e : CurrentState r = Some w -> 0 <= gasLimit (inner tx) -> pool_ok p -> outcome p r r' tx hash p' e -> payable p -> payable p'.
Proof.
  intros Ew Hgas Hp [p1 e1 Hal|from ex h Ha Hfree Hl Ehx _|from ex h Ha Hfree Hl Ehx _|from w' p1 p2 Ha Hfree Ew' Hl Hq Hn Hsz Hok Hpr Hal|from w' Ha Hfree _ Hl Hq _ Hsz _] Hpay;
    [eapply alike_pays; eauto|..];
    (destruct (admitted_pays p r hash tx from Hp Hfree Ha) as (w1 & Ew1 & Hle); assert (w1 = w) as -> by congruence;
     assert (0 <= tx_cost tx) as H0 by (pose proof (ad_value _ _ _ _ _ Ha); pose proof (ad_fee _ _ _ _ _ Ha); unfold tx_cost, Cost; nia)).
  - assert (0 <= tx_cost ex) by (apply (proj1 (Hpay from) (tx_nonce tx)); left; exact Hl).
    apply (added_pays p _ from tx); auto; unfold entry, total; cbn [pending queue]; [| |intros a Hne; rewrite list_at_insert, decide_False by exact Hne; auto].
    + intros n t. rewrite list_at_insert, decide_True by reflexivity. unfold list_add. rewrite lookup_insert. destruct (decide (tx_nonce tx = n)); [intros [[= <-]|H']; auto | auto].
    + rewrite list_at_insert, decide_True by reflexivity. unfold list_add. rewrite (cost_replace _ _ tx _ Hl). lia.
  - assert (0 <= tx_cost ex) by (apply (proj1 (Hpay from) (tx_nonce tx)); right; exact Hl).
    apply (added_pays p _ from tx); auto; unfold entry, total; cbn [pending queue]; [| |intros a Hne; rewrite list_at_insert, decide_False by exact Hne; auto].
    + intros n t. rewrite list_at_insert, decide_True by reflexivity. unfold list_add. rewrite lookup_insert. destruct (decide (tx_nonce tx = n)); [intros [H'|[= <-]]; auto | auto].
    + rewrite list_at_insert, decide_True by reflexivity. unfold list_add. rewrite (cost_replace _ _ tx _ Hl). lia.
  - eapply alike_pays; [exact Hal|]. eapply promotes_pays; [exact Hpr | exact Hok|].
    apply (added_pays p _ from tx); auto; unfold entry, total; cbn [pending queue]; [| |intros a Hne; rewrite list_at_insert, decide_False by exact Hne; auto].
    + intros n t. rewrite list_at_insert, decide_True by reflexivity. unfold list_add. rewrite lookup_insert. destruct (decide (tx_nonce tx = n)); [intros [[= <-]|H']; auto | auto].
    + rewrite list_at_insert, decide_True by reflexivity. unfold list_add. rewrite cost_insert by exact Hl. lia.
  - apply (added_pays p _ from tx); auto; unfold entry, total; cbn [pending queue]; [| |intros a Hne; rewrite list_at_insert, decide_False by exact Hne; auto].
    + intros n t. rewrite list_at_insert, decide_True by reflexivity. unfold list_add. rewrite lookup_insert. destruct (decide (tx_nonce tx = n)); [intros [H'|[= <-]]; auto | auto].
    + rewrite list_at_insert, decide_True by reflexivity. unfold list_add. rewrite cost_insert by exact Hq. lia.
Qed.

(** A sender can pay for everything the pool holds of it.  However many
    transactions are offered, accepted, replaced and promoted on one head, the
    balance of every account with transactions in the pool covers the value and
    the full fee of all of them together. *)
Theorem senders_can_pay r txs : CurrentState r = Some w -> Forall (fun tx => is_Some (tx_hash tx) /\ 0 <= gasLimit (inner tx)) txs ->
  exists p, add_all r New txs = Some p /\ forall a, (exists n tx, entry p a n tx) -> zsum (map tx_cost (allFrom p a)) <= balance_at w a.
Proof.
  intros Ew Htxs. rewrite Forall_forall in Htxs.
  destruct (foldM_inv (fun p => pool_ok p /\ payable p) (fun p tx => let? x := addLocked config signer p r r tx in Some (fst x)) txs) with (a := New) as (p & E & _ & Hpay).
  - intros q tx Ht [Hq Hpay]. destruct (Htxs tx Ht) as ([hash Eh] & Hg). destruct (addLocked_outcome q r r tx hash Hq Eh) as (q' & e & E & Ho). rewrite E. cbn [obind fst].
    exists q'. split; [reflexivity|]. split; [eapply outcome_ok; eauto | eapply outcome_pays; eauto].
  - split; [exact New_ok|]. intros a. unfold pays_at, entry, New, list_at. cbn [pending queue]. rewrite !lookup_empty. cbn.
    split; [intros n tx [H|H] | intros (n & tx & [H|H])]; rewrite lookup_empty in H; discriminate.
  - exists p. split; [exact E|]. intros a He. rewrite total_allFrom. apply (Hpay a). exact He.
Qed.

End Payable.

(** ** The best-paying first *)

Section Best.
Variable baseFee : option Z.

Lemma best_from_spec heads : forall pre i best tip, i = length pre -> (best < i)%nat -> tip = head_tip baseFee (nth best pre []) ->
  (forall h, h ∈ pre -> head_tip baseFee h <= tip) ->
  (best_from baseFee heads i best tip < length (pre ++ heads))%nat /\
  forall h, h ∈ pre ++ heads -> head_tip baseFee h <= head_tip baseFee (nth (best_from baseFee heads i best tip) (pre ++ heads) []).
Proof.
  induction heads as [|h heads IH]; intros pre i best tip Hi Hb Ht Hmax; cbn [best_from].
  - rewrite app_nil_r. split; [lia|]. rewrite <- Ht. exact Hmax.
  - assert (pre ++ h :: heads = (pre ++ [h]) ++ heads) as E by (rewrite <- app_assoc; reflexivity).
    destruct (Z.ltb_spec tip (head_tip baseFee h)); rewrite E; apply IH.
    + rewrite length_app. cbn. lia.
    + lia.
    + subst i. rewrite app_nth2 by lia. rewrite Nat.sub_diag. reflexivity.
    + intros h' [H'| ->%list_elem_of_singleton]%elem_of_app; [specialize (Hmax h' H'); lia | lia].
    + rewrite length_app. cbn. lia.
    + lia.
    + rewrite app_nth1 by lia. exact Ht.
    + intros h' [H'| ->%list_elem_of_singleton]%elem_of_app; [exact (Hmax h' H') | lia].
Qed.

Lemma best_head_spec heads : heads <> [] -> exists h, heads !! best_head baseFee heads = Some h /\ nth (best_head baseFee heads) heads [] = h /\
  forall h', h' ∈ heads -> head_tip baseFee h' <= head_tip baseFee h.
Proof.
  destruct heads as [|h heads]; [done|]. intros _. unfold best_head. destruct (best_from_spec heads [h] 1 0 (head_tip baseFee h)) as [Hlt Hmax]; auto.
  { intros h' ->%list_elem_of_singleton. lia. }
  cbn [app] in Hlt, Hmax. exists (nth (best_from baseFee heads 1 0 (head_tip baseFee h)) (h :: heads) []).
  destruct (nth_lookup_or_length (h :: heads) (best_from baseFee heads 1 0 (head_tip baseFee h)) []) as [E|E]; [auto | lia].
Qed.
(** The transactions of one account in a list, and how many. *)
Definition sent_by (a : Address) (tx : Transaction) : bool := match tx_sender signer tx with Ok b => bool_decide (b = a) | Err _ => false end.
Definition of_account (a : Address) (out : list Transaction) : list Transaction := List.filter (sent_by a) out.
Abbreviation taken a out := (length (of_account a out)).

(** Each output is the best of the transactions that are next in their accounts. *)
Definition greedy (offered : Address -> list Transaction) (out : list Transaction) : Prop :=
  forall i tx a u, out !! i = Some tx -> offered a !! taken a (take i out) = Some u -> EffectiveTip (inner u) baseFee <= EffectiveTip (inner tx) baseFee.

Variable offered : Address -> list Transaction.
Hypothesis Hown : forall a tx, tx ∈ offered a -> tx_sender signer tx = Ok a.

Record ready_inv (owners : list Address) (heads : list (list Transaction)) (out : list Transaction) : Prop := mkReady
  { ri_heads : Forall2 (fun a h => h = drop (taken a out) (offered a) /\ h <> []) owners heads;
    ri_owners : NoDup owners;
    ri_rest : forall a, a ∉ owners -> drop (taken a out) (offered a) = [];
    ri_prefix : forall a, of_account a out = take (taken a out) (offered a);
    ri_greedy : greedy offered out }.

Lemma of_account_snoc a b tx out : tx_sender signer tx = Ok b -> of_account a (out ++ [tx]) = of_account a out ++ (if decide (b = a) then [tx] else []).
Proof.
  intros Hs. unfold of_account. rewrite List.filter_app. cbn. unfold sent_by. rewrite Hs. destruct (decide (b = a)); [rewrite bool_decide_true | rewrite bool_decide_false]; done.
Qed.

Lemma ready_inv_done owners out : ready_inv owners [] out -> forall a, of_account a out = offered a.
Proof.
  intros [Hh _ Hr Hp _] a. inversion Hh; subst. rewrite Hp. specialize (Hr a ltac:(inversion 1)).
  pose proof (take_drop (taken a out) (offered a)) as E. rewrite Hr, app_nil_r in E. exact E.
Qed.

Lemma greedy_snoc owners heads out b a tx rest : ready_inv owners heads out -> owners !! b = Some a -> heads !! b = Some (tx :: rest) ->
  (forall h, h ∈ heads -> head_tip baseFee h <= head_tip baseFee (tx :: rest)) -> greedy offered (out ++ [tx]).
Proof.
  intros [Hh _ Hr _ Hg] Ho Hb Hmax i t c u Hi Hu. destruct (decide (i < length out)%nat) as [Hlt|Hge].
  - rewrite lookup_app_l in Hi by exact Hlt. rewrite take_app_le in Hu by lia. eauto.
  - rewrite lookup_app_r in Hi by lia. rewrite take_app_ge in Hu by lia. destruct (i - length out)%nat eqn:Ei; [|discriminate]. cbn in Hi. injection Hi as <-.
    cbn [take] in Hu. rewrite app_nil_r in Hu.
    destruct (decide (c ∈ owners)) as [Hc|Hc]; [|apply Hr in Hc; rewrite <- (Nat.add_0_r (taken c out)), <- lookup_drop, Hc in Hu; discriminate].
    apply list_elem_of_lookup in Hc as [j Hj]. destruct (Forall2_lookup_l _ _ _ _ _ Hh Hj) as (h & Hhj & Eh & _).
    assert (h !! 0%nat = Some u) as H0 by (rewrite Eh, lookup_drop, Nat.add_0_r; exact Hu). destruct h as [|v h]; [discriminate|]. injection H0 as ->.
    exact (Hmax _ (list_elem_of_lookup_2 _ _ _ Hhj)).
Qed.

Lemma prefix_snoc owners heads out b a tx rest : ready_inv owners heads out -> owners !! b = Some a -> heads !! b = Some (tx :: rest) ->
  tx_sender signer tx = Ok a /\ taken a (out ++ [tx]) = S (taken a out) /\ (forall c, c <> a -> taken c (out ++ [tx]) = taken c out) /\
  drop (S (taken a out)) (offered a) = rest /\ forall c, of_account c (out ++ [tx]) = take (taken c (out ++ [tx])) (offered c).
Proof.
  intros [Hh _ _ Hp _] Ho Hb. destruct (Forall2_lookup_lr _ _ _ _ _ _ Hh Ho Hb) as [Ed _].
  assert (offered a !! taken a out = Some tx) as Hx by (rewrite <- (Nat.add_0_r (taken a out)), <- lookup_drop, <- Ed; reflexivity).
  assert (tx_sender signer tx = Ok a) as Hs by (apply Hown; eapply list_elem_of_lookup_2; eauto).
  assert (taken a (out ++ [tx]) = S (taken a out)) as Et by (rewrite (of_account_snoc _ _ _ _ Hs), decide_True, length_app by reflexivity; cbn; lia).
  assert (forall c, c <> a -> of_account c (out ++ [tx]) = of_account c out) as Hoth by (intros c Hc; rewrite (of_account_snoc _ _ _ _ Hs), decide_False, app_nil_r by congruence; reflexivity).
  split; [exact Hs|]. split; [exact Et|]. split; [intros c Hc; rewrite Hoth by exact Hc; reflexivity|].
  split; [replace (S (taken a out)) with (taken a out + 1)%nat by lia; rewrite <- drop_drop, <- Ed; reflexivity|].
  intros c. destruct (decide (c = a)) as [->|Hne]; [|rewrite !Hoth by exact Hne; apply Hp].
  rewrite Et, (take_S_r _ _ tx) by exact Hx. rewrite (of_account_snoc _ _ _ _ Hs), decide_True, <- Hp by reflexivity. reflexivity.
Qed.

Lemma Forall2_others owners heads out tx a : (forall c, c <> a -> taken c (out ++ [tx]) = taken c out) -> a ∉ owners ->
  Forall2 (fun a h => h = drop (taken a out) (offered a) /\ h <> []) owners heads ->
  Forall2 (fun a h => h = drop (taken a (out ++ [tx])) (offered a) /\ h <> []) owners heads.
Proof.
  intros Hoth Ha H. induction H as [|c h owners heads [-> Hne] _ IH]; [constructor|]. apply not_elem_of_cons in Ha as [Hc Ha].
  constructor; [rewrite Hoth by congruence; auto | apply IH; exact Ha].
Qed.

Lemma ready_step owners heads out b h : ready_inv owners heads out -> heads !! b = Some h -> (forall h', h' ∈ heads -> head_tip baseFee h' <= head_tip baseFee h) ->
  exists tx rest, h = tx :: rest /\ if rest then exists owners', ready_inv owners' (take b heads ++ drop (S b) heads) (out ++ [tx])
                                    else ready_inv owners (<[b := rest]> heads) (out ++ [tx]).
Proof.
  intros Hi Hb Hmax. destruct (Forall2_lookup_r _ _ _ _ _ (ri_heads _ _ _ Hi) Hb) as (a & Ho & _ & Hne). destruct h as [|tx rest]; [done|]. exists tx, rest. split; [reflexivity|].
  destruct (prefix_snoc _ _ _ _ _ _ _ Hi Ho Hb) as (Hs & Et & Hoth & Hd & Hpre). pose proof (greedy_snoc _ _ _ _ _ _ _ Hi Ho Hb Hmax) as Hg.
  pose proof (take_drop_middle _ _ _ Ho) as Eo. pose proof (take_drop_middle _ _ _ Hb) as Eh. pose proof (ri_owners _ _ _ Hi) as Hnd. pose proof (ri_heads _ _ _ Hi) as Hh.
  rewrite <- Eo in Hnd. apply NoDup_app in Hnd as (Hn1 & Hn2 & Hn3). apply NoDup_cons in Hn3 as [Ha3 Hn3].
  assert (a ∉ take b owners) as Ha1 by (intros H; apply (Hn2 _ H), list_elem_of_here).
  rewrite <- Eo, <- Eh in Hh. apply Forall2_app_inv in Hh as [Hf1 Hf2]; [|rewrite !length_take, (Forall2_length _ _ _ (ri_heads _ _ _ Hi)); reflexivity].
  apply Forall2_cons in Hf2 as [_ Hf3]. pose proof (Forall2_others _ _ out tx a Hoth Ha1 Hf1) as Hg1. pose proof (Forall2_others _ _ out tx a Hoth Ha3 Hf3) as Hg3.
  destruct rest as [|u rest].
  - exists (take b owners ++ drop (S b) owners). split; [apply Forall2_app; assumption| | |exact Hpre|exact Hg].
    + apply NoDup_app. split; [exact Hn1|]. split; [|exact Hn3]. intros x Hx Hx'. apply (Hn2 _ Hx). apply list_elem_of_further. exact Hx'.
    + intros c Hc. destruct (decide (c = a)) as [->|Hca]; [rewrite Et; exact Hd|]. rewrite Hoth by exact Hca. apply (ri_rest _ _ _ Hi).
      intros H. apply Hc. rewrite <- Eo in H. apply elem_of_app in H as [H|[H|H]%elem_of_cons]; [apply elem_of_app; auto | done | apply elem_of_app; auto].
  - split; [| |intros c Hc|exact Hpre|exact Hg].
    + rewrite <- Eo, <- (take_drop_middle (<[b := u :: rest]> heads) b (u :: rest)) by (apply list_lookup_insert_eq; eapply lookup_lt_Some; eauto).
      rewrite take_insert_ge, drop_insert_lt by lia. apply Forall2_app; [exact Hg1|]. constructor; [|exact Hg3]. rewrite Et, Hd. split; [reflexivity | discriminate].
    + exact (ri_owners _ _ _ Hi).
    + destruct (decide (c = a)) as [->|Hca]; [exfalso; apply Hc; eapply list_elem_of_lookup_2; eauto | rewrite Hoth by exact Hca; apply (ri_rest _ _ _ Hi); exact Hc].
Qed.

Lemma ready_loop_next f limit heads out : heads <> [] -> ready_loop (S f) baseFee limit heads out =
  if (limit <=? 0) || (len out <? limit) then
    match nth (best_head baseFee heads) heads [] with
    | [] => None
    | [tx] => ready_loop f baseFee limit (take (best_head baseFee heads) heads ++ drop (S (best_head baseFee heads)) heads) (out ++ [tx])
    | tx :: rest => ready_loop f baseFee limit (<[best_head baseFee heads := rest]> heads) (out ++ [tx])
    end
  else Some out.
Proof. destruct heads; [done | reflexivity]. Qed.

Lemma ready_loop_spec limit fuel : forall owners heads out, ready_inv owners heads out -> (length (concat heads) <= fuel)%nat ->
  exists out' owners' heads', ready_loop fuel baseFee limit heads out = Some out' /\ ready_inv owners' heads' out' /\ (heads' = [] \/ 0 < limit <= len out') /\
    (0 < limit -> len out <= limit -> len out' <= limit).
Proof.
  induction fuel as [|f IH]; intros owners heads out Hi Hf.
  - destruct heads as [|h heads]; [exists out, owners, []; cbn; auto|]. exfalso. pose proof (ri_heads _ _ _ Hi) as Hh. inversion Hh as [|? ? ? ? [_ Hne] _]; subst.
    cbn in Hf. rewrite length_app in Hf. destruct h; [done | cbn in Hf; lia].
  - destruct (decide (heads = [])) as [->|Hne]; [exists out, owners, []; cbn; auto|]. rewrite ready_loop_next by exact Hne. destruct (best_head_spec heads Hne) as (h & Hb & Enth & Hmax).
    destruct ((limit <=? 0) || (len out <? limit)) eqn:Elim.
    2:{ apply orb_false_iff in Elim as [E1 E2]. apply Z.leb_gt in E1. apply Z.ltb_ge in E2. exists out, owners, heads. split; [reflexivity|]. split; [exact Hi|]. split; [right; lia | auto]. }
    destruct (ready_step owners heads out _ h Hi Hb Hmax) as (tx & rest & -> & Hstep). rewrite Enth.
    assert (0 < limit -> len (out ++ [tx]) <= limit) as Hlen by (intros Hl; rewrite len_app; change (len [tx]) with 1; destruct (Z.leb_spec limit 0); [lia|]; destruct (Z.ltb_spec (len out) limit); [lia | discriminate]).
    pose proof (take_drop_middle _ _ _ Hb) as Eh. assert (length (concat heads) = (length (concat (take (best_head baseFee heads) heads)) + S (length rest) + length (concat (drop (S (best_head baseFee heads)) heads)))%nat) as Hcount.
    { rewrite <- Eh at 1. rewrite concat_app, length_app. cbn [concat]. rewrite length_app. cbn. lia. }
    destruct rest as [|u rest]; [destruct Hstep as [owners' Hstep]|].
    + destruct (IH owners' _ _ Hstep) as (out' & ow & hs & E & H1 & H2 & H3); [rewrite concat_app, length_app; cbn in Hcount; lia|]. exists out', ow, hs. split; [exact E|]. split; [exact H1|]. split; [exact H2|]. intros Hl _. apply H3; auto.
    + destruct (IH owners _ _ Hstep) as (out' & ow & hs & E & H1 & H2 & H3); [|exists out', ow, hs; split; [exact E|]; split; [exact H1|]; split; [exact H2|]; intros Hl _; apply H3; auto].
      rewrite <- (take_drop_middle (<[best_head baseFee heads := u :: rest]> heads) (best_head baseFee heads) (u :: rest)) by (apply list_lookup_insert_eq; eapply lookup_lt_Some; eauto).
      rewrite take_insert_ge, drop_insert_lt by lia. rewrite concat_app, length_app. cbn [concat]. rewrite length_app. cbn in Hcount |- *. lia.
Qed.
End Best.

Lemma length_sorted (l : accountList) : length (sorted l) = size l.
Proof. unfold sorted. rewrite merge_sort_Permutation, length_map. apply length_map_to_list. Qed.

Lemma Pending_lookup p a : Pending p !! a = match pending p !! a with Some l => if 0 <? Z.of_nat (size l) then Some (sorted l) else None | None => None end.
Proof. unfold Pending. rewrite lookup_omap. destruct (pending p !! a); reflexivity. Qed.

Lemma Pending_some p a h : Pending p !! a = Some h -> h = sorted (list_at (pending p) a) /\ h <> [].
Proof.
  rewrite Pending_lookup. unfold list_at. destruct (pending p !! a) as [l|]; [|discriminate]. cbn. destruct (Z.ltb_spec 0 (Z.of_nat (size l))) as [H|H]; [|discriminate].
  intros [= <-]. split; [reflexivity|]. intros E. pose proof (length_sorted l) as El. rewrite E in El. cbn in El. lia.
Qed.

Lemma Pending_none p a : Pending p !! a = None -> sorted (list_at (pending p) a) = [].
Proof.
  rewrite Pending_lookup. unfold list_at. destruct (pending p !! a) as [l|]; [|reflexivity]. cbn. destruct (Z.ltb_spec 0 (Z.of_nat (size l))) as [H|H]; [discriminate|].
  intros _. apply nil_length_inv. rewrite length_sorted. lia.
Qed.

Lemma ready_start g p b : exists owners, ready_inv b (fun a => sorted (list_at (pending p) a)) owners (range_heads g (Pending p)) [].
Proof.
  destruct (Permutation_map_inv _ _ (range_heads_ok g (Pending p))) as (L & EL & HL). exists (map fst L).
  assert (forall a h, (a, h) ∈ L <-> Pending p !! a = Some h) as Hin by (intros a h; rewrite <- HL; apply elem_of_map_to_list).
  split.
  - rewrite EL. assert (forall x, x ∈ L -> snd x = sorted (list_at (pending p) (fst x)) /\ snd x <> []) as H by (intros [a h] Hx; apply Pending_some, Hin; exact Hx).
    clear -H. induction L as [|x L IH]; [constructor|]. cbn [map]. constructor; [cbn; rewrite drop_0; apply H, list_elem_of_here|]. apply IH. intros y Hy. apply H, list_elem_of_further. exact Hy.
  - rewrite <- HL. apply NoDup_fst_map_to_list.
  - intros a Ha. cbn. rewrite drop_0. apply Pending_none. destruct (Pending p !! a) as [h|] eqn:E; [|reflexivity].
    exfalso. apply Ha, list_elem_of_fmap. exists (a, h). split; [reflexivity | apply Hin; exact E].
  - intros a. reflexivity.
  - intros i tx a u Hi. discriminate.
Qed.

(** A block is offered the best-paying transactions that can be executed.
    [Ready] returns; what it returns of each account is the beginning of the
    account's pending transactions in nonce order; each transaction pays at least
    the tip of any that could have come in its place; it stops at the limit or
    when nothing is left. *)
Theorem ready_best_first g p r limit : pool_ok p -> exists out, Ready g p r limit = Some out /\
  (forall a, exists k, of_account a out = take k (sorted (list_at (pending p) a))) /\
  greedy (CurrentBaseFee r) (fun a => sorted (list_at (pending p) a)) out /\
  (0 < limit /\ len out = limit \/ (limit <= 0 \/ len out <= limit) /\ forall a, of_account a out = sorted (list_at (pending p) a)).
Proof.
  intros Hp. unfold Ready. destruct (ready_start g p (CurrentBaseFee r)) as [owners Hi].
  assert (forall a tx, tx ∈ sorted (list_at (pending p) a) -> tx_sender signer tx = Ok a) as Hown.
  { intros a tx [n H]%elem_of_sorted. destruct (ok_entry _ Hp a n tx) as ((Hs & _) & _); [left; exact H | exact Hs]. }
  destruct (ready_loop_spec (CurrentBaseFee r) _ Hown limit _ owners _ [] Hi (le_n _)) as (out & ow & hs & E & H & Hend & Hle). exists out.
  split; [exact E|]. split; [intros a; eexists; apply (ri_prefix _ _ _ _ _ H)|]. split; [apply (ri_greedy _ _ _ _ _ H)|].
  destruct (Z.le_gt_cases limit 0) as [Hl|Hl].
  - destruct Hend as [->|Hend]; [|lia]. right. split; [auto|]. apply (ready_inv_done _ _ _ _ H).
  - specialize (Hle Hl ltac:(unfold len; cbn; lia)). destruct Hend as [->|Hend]; [|left; lia]. right. split; [auto|]. apply (ready_inv_done _ _ _ _ H).
Qed.

End Facts.

(** ** Witnesses *)

#[local] Existing Instances Reg.toy_keccak SDB.map_store Tx.one_key.

(** A payment of its nonce plus one. *)
Definition pay (n price gas : Z) : Transaction := NewTx (Legacy (mkLegacy n price gas (Some Facts.proposer) (n + 1) [] 49 1 1)).
Definition rich (balance : Z) : SDB.World := SDB.world (SDB.add_balance SDB.sample_start Facts.payer balance).
Definition reader (balance : Z) : Reader := mkReader (Some (rich balance)) 30000000 (Some 3).
Definition plain : ranges :=
  mkRanges (fun m => map snd (map_to_list m)) (fun m => map fst (map_to_list m)) (fun m => map snd (map_to_list m))
    (fun m => Permutation_refl _) (fun m => Permutation_refl _) (fun m => Permutation_refl _).
Definition small : Config := mkConfig 16 16 2 1 10 1000.
Definition hash_or_zero (tx : Transaction) : Hash := default ZeroHash (tx_hash tx).

(** How many transactions are indexed, pending and queued. *)
Definition counts (p : option TxPool) : option (nat * nat * nat) :=
  option_map (fun p => (size (all p), size (list_at (pending p) Facts.payer), size (list_at (queue p) Facts.payer))) p.

Definition adds : list (op) := map (fun n => DoAdd (reader 10000000) (reader 10000000) (pay n 10 30000)) [0; 1; 3; 4].

Lemma adds_ok : Forall op_ok adds.
Proof. repeat constructor; vm_compute; eauto. Qed.

Lemma small_slots : 0 <= AccountSlots small.
Proof. discriminate. Qed.

(** One account holds everything, within its slots. *)
Definition fits_slots (p : TxPool) : bool :=
  forallb (fun e => bool_decide (fst e = Facts.payer)) (map_to_list (pending p) ++ map_to_list (queue p)) &&
  (Z.of_nat (size (list_at (pending p) Facts.payer)) + Z.of_nat (size (list_at (queue p) Facts.payer)) <=? AccountSlots small).

Lemma fits_room p : fits_slots p = true -> room small p.
Proof.
  unfold fits_slots. rewrite andb_true_iff, Z.leb_le, forallb_forall. intros [H Hs] a. destruct (decide (a = Facts.payer)) as [->|Hne]; [exact Hs|].
  assert (forall ls : lists, (forall e, In e (map_to_list ls) -> bool_decide (fst e = Facts.payer) = true) -> list_at ls a = ∅) as Hl.
  { intros ls Hls. unfold list_at. destruct (ls !! a) as [l|] eqn:E; [|reflexivity]. exfalso. apply Hne.
    apply elem_of_map_to_list, list_elem_of_In, Hls in E. exact (bool_decide_eq_true_1 _ E). }
  rewrite !Hl; [discriminate | intros e He; apply H, in_or_app; auto..].
Qed.

Lemma reset_last ops g r inc : Forall (fun o => match o with DoReset _ _ _ => False | _ => True end) ops -> forall p,
  (forall p', SDB.foldM (exec small 7) p ops = Some p' -> room small p') -> resets_with_room small 7 p (ops ++ [DoReset g r inc]).
Proof.
  induction 1 as [|o ops Ho _ IH]; intros p Hp; cbn [app resets_with_room SDB.foldM] in *.
  - split; [intros; apply Hp; reflexivity | trivial].
  - split; [intros ? ? ? ->; destruct Ho|]. intros p' E. apply IH. intros q Eq. apply Hp. rewrite E. exact Eq.
Qed.

(** Three payments, one of which is removed again. *)
Definition short_run : list op :=
  map (fun n => DoAdd (reader 10000000) (reader 10000000) (pay n 10 30000)) [0; 1; 3] ++ [DoRemove (hash_or_zero (pay 1 10 30000))].

Lemma pool_consistent_witness : exists p, SDB.foldM (exec small 7) New (short_run ++ [DoReset plain (reader 400000) []]) = Some p /\
  pool_ok small 7 p /\ (forall h tx, all p !! h = Some tx -> exists a n, entry p a n tx) /\
  counts (SDB.foldM (exec small 7) New (short_run ++ [DoReset plain (reader 400000) []])) = Some (2, 1, 1)%nat.
Proof.
  destruct (pool_consistent small 7 small_slots (short_run ++ [DoReset plain (reader 400000) []])) as (p & E & Hp & Hl).
  - repeat constructor; vm_compute; eauto.
  - exists p. split; [exact E|]. split; [exact Hp|]. split; [|vm_compute; reflexivity]. intros h tx Hi. apply (Hl (reset_last short_run _ _ _ ltac:(repeat constructor) New
      ltac:(intros p' E'; apply fits_room; assert (option_map fits_slots (SDB.foldM (exec small 7) New short_run) = Some true) as Hv by (vm_compute; reflexivity);
            rewrite E' in Hv; injection Hv as Hv; exact Hv)) h tx). exact Hi.
Defined.

Definition filled : TxPool := default New (SDB.foldM (exec small 7) New adds).

Lemma filled_ok : pool_ok small 7 filled.
Proof.
  destruct (foldM_inv (pool_ok small 7) (exec small 7) adds) with (a := New) as (p & E & Hp); [|apply New_ok; exact small_slots | unfold filled; rewrite E; exact Hp].
  intros q o Ho. apply exec_ok; [exact small_slots|]. pose proof adds_ok as H. rewrite Forall_forall in H. apply H. exact Ho.
Qed.

(** A state without accounts, and transactions that cost nothing. *)
Definition void : SDB.World := SDB.world SDB.sample_start.
Definition void_reader : Reader := mkReader (Some void) 30000000 (Some 0).
Definition gratis : Config := mkConfig 16 16 4 0 10 1000.
Definition free (n : Z) (d : Z) : Transaction := NewTx (Legacy (mkLegacy n 0 30000 (Some Facts.proposer) 0 [d] 49 1 1)).

Lemma void_nonce a : nonce_at void a = 0.
Proof. vm_compute. reflexivity. Qed.

Lemma gratis_slots : 0 <= AccountSlots gratis.
Proof. discriminate. Qed.

Lemma pending_executable_witness : exists p1 p2, Reset gratis 7 plain New void_reader [] = Some p1 /\ add_all gratis 7 void_reader p1 [free 0 1; free 2 2; free 1 3] = Some p2 /\
  (forall n, is_Some (list_at (pending p2) Facts.payer !! n) <-> 0 <= n < nextNonce p2 Facts.payer 0) /\
  counts (add_all gratis 7 void_reader p1 [free 0 1; free 2 2; free 1 3]) = Some (3, 3, 0)%nat.
Proof.
  destruct (pending_executable gratis 7 gratis_slots void) with (g := plain) (p := New) (r := void_reader) (included := @nil Transaction) (txs := [free 0 1; free 2 2; free 1 3])
    as (p1 & p2 & E1 & E2 & _ & He); [intros a; rewrite void_nonce; vm_compute; split; [discriminate | reflexivity] | reflexivity | apply New_ok, gratis_slots | constructor | repeat constructor; vm_compute; eauto|].
  exists p1, p2. split; [exact E1|]. split; [exact E2|]. split; [intros n; specialize (He Facts.payer n); rewrite void_nonce in He; exact He|].
  assert (Reset gratis 7 plain New void_reader [] = Some New) as E0 by (vm_compute; reflexivity). assert (p1 = New) as -> by congruence. vm_compute. reflexivity.
Defined.

Lemma senders_can_pay_witness : exists p, add_all small 7 (reader 700000) New [pay 0 10 30000; pay 1 10 30000; pay 2 10 30000] = Some p /\
  (exists n tx, entry p Facts.payer n tx) /\ zsum (map tx_cost (allFrom p Facts.payer)) <= balance_at (rich 700000) Facts.payer /\
  counts (add_all small 7 (reader 700000) New [pay 0 10 30000; pay 1 10 30000; pay 2 10 30000]) = Some (2, 2, 0)%nat.
Proof.
  destruct (senders_can_pay small 7 small_slots (rich 700000)) with (r := reader 700000) (txs := [pay 0 10 30000; pay 1 10 30000; pay 2 10 30000]) as (p & E & H);
    [vm_compute; discriminate | reflexivity | repeat constructor; vm_compute; try discriminate; eauto|].
  assert (exists n tx, entry p Facts.payer n tx) as Hex.
  { exists 0, (pay 0 10 30000). left. assert (option_map (fun p => list_at (pending p) Facts.payer !! 0) (add_all small 7 (reader 700000) New [pay 0 10 30000; pay 1 10 30000; pay 2 10 30000]) = Some (Some (pay 0 10 30000))) as Hv by (vm_compute; reflexivity).
    rewrite E in Hv. cbn in Hv. injection Hv as Hv. exact Hv. }
  exists p. split; [exact E|]. split; [exact Hex|]. split; [apply H; exact Hex | vm_compute; reflexivity].
Defined.

Lemma ready_best_first_witness : exists out, Ready plain filled (reader 10000000) 1 = Some out /\ out = [pay 0 10 30000] /\
  (forall a, exists k, of_account 7 a out = take k (sorted (list_at (pending filled) a))).
Proof.
  destruct (ready_best_first small 7 plain filled (reader 10000000) 1 filled_ok) as (out & E & Hk & _). exists out. split; [exact E|]. split; [|exact Hk].
  assert (Ready plain filled (reader 10000000) 1 = Some [pay 0 10 30000]) as Hv by (vm_compute; reflexivity). congruence.
Defined.

(** ** Two defects *)

Definition before_reset : list op := map (fun t => DoAdd (reader 10000000) (reader 10000000) t) [pay 0 10 60000; pay 1 10 30000; pay 3 10 30000; pay 4 10 30000].

Lemma before_reset_ok : Forall op_ok (before_reset ++ [DoReset plain (reader 500000) []]).
Proof. repeat constructor; vm_compute; eauto. Qed.

(** C39: a reset can lose a transaction for good.  When the queue of an account is
    full, a pending transaction that a reset moves behind a gap is dropped from the
    lists but stays in the index: the pool reports that it has the transaction and
    refuses it as known, while no list holds it that a block is built from. *)
Theorem reset_strands : exists p tx h, SDB.foldM (exec small 7) New (before_reset ++ [DoReset plain (reader 500000) []]) = Some p /\
  tx_hash tx = Some h /\ all p !! h = Some tx /\ (forall a n, ~ entry p a n tx) /\
  option_map snd (addLocked small 7 p (reader 500000) (reader 500000) tx) = Some (Err ErrAlreadyKnown).
Proof.
  destruct (foldM_inv (pool_ok small 7) (exec small 7) (before_reset ++ [DoReset plain (reader 500000) []])) with (a := New) as (p & E & Hp).
  - intros q o Ho. apply exec_ok; [exact small_slots|]. pose proof before_reset_ok as H. rewrite Forall_forall in H. apply H. exact Ho.
  - apply New_ok. exact small_slots.
  - set (f := fun p => (all p !! hash_or_zero (pay 1 10 30000), list_at (pending p) Facts.payer !! 1, list_at (queue p) Facts.payer !! 1,
      option_map snd (addLocked small 7 p (reader 500000) (reader 500000) (pay 1 10 30000)))).
    assert (option_map f (SDB.foldM (exec small 7) New (before_reset ++ [DoReset plain (reader 500000) []])) = Some (Some (pay 1 10 30000), None, None, Some (Err ErrAlreadyKnown))) as Hv by (vm_compute; reflexivity).
    rewrite E in Hv. cbn [option_map] in Hv. injection Hv as H1 H2 H3 H4. exists p, (pay 1 10 30000), (hash_or_zero (pay 1 10 30000)).
    split; [exact E|]. split; [vm_compute; reflexivity|]. split; [exact H1|]. split; [|exact H4].
    intros a n He. destruct (ok_entry _ _ _ Hp _ _ _ He) as ((Hs & Hn) & _). assert (a = Facts.payer) as -> by (vm_compute in Hs; injection Hs as <-; vm_compute; reflexivity).
    cbn in Hn. subst n. destruct He as [He|He]; congruence.
Qed.

(** A removed nonce is not expected again: the transaction that takes its place is
    queued, and the account's later transactions wait, until the next reset. *)
Lemma removal_leaves_gap : exists p p', SDB.foldM (exec small 7) New (map (fun t => DoAdd (reader 10000000) (reader 10000000) t) [pay 0 10 30000; pay 1 10 30000]
      ++ [DoRemove (hash_or_zero (pay 1 10 30000))]) = Some p /\
  addLocked small 7 p (reader 10000000) (reader 10000000) (pay 1 20 30000) = Some (p', Ok tt) /\
  list_at (pending p') Facts.payer !! 1 = None /\ list_at (queue p') Facts.payer !! 1 = Some (pay 1 20 30000) /\ nextNonce p' Facts.payer 0 = 2.
Proof. eexists _, _. split; [vm_compute; reflexivity|]. split; [vm_compute; reflexivity|]. vm_compute. repeat split; reflexivity. Qed.

End PoolFacts.
