(* ===== verification/Secp256k1.v ===== *)
(** The curve secp256k1 and ECDSA (src/crypto/secp256k1/curve.go, ecdsa.go).

    The package's variables [P], [N], [Gx], [Gy] and [B] are the record [Curve], so
    that the same definitions run on a curve small enough to enumerate; [secp256k1]
    holds the constants of the code.  A [big.Int] is a [Z]; the operations of
    math/big the package uses are modelled first: [Mod] is [Z.modulo] (the divisors
    are positive), [Exp] and [ModInverse] are executable.  Points are Jacobian, as
    in the code.  [None] is the error of a function, or the panic of [PublicKey] and [FillBytes]. *)

From Stdlib Require Import String.
From stdpp Require Import base list.
From Stdlib Require Import ZArith Lia.
From S2P Require Import Prelude Common.
Local Open Scope Z_scope.
Local Open Scope go_scope.

(** * math/big *)

Module BigInt.

Fixpoint exp_pos (m b : Z) (e : positive) : Z :=
  match e with
  | xH => b mod m
  | xO e => let r := exp_pos m b e in r * r mod m
  | xI e => let r := exp_pos m b e in (r * r mod m) * b mod m
  end.

(** [Exp] with an exponent that is not negative. *)
Definition Exp (b e m : Z) : Z := match e with Zpos e => exp_pos m b e | _ => 1 mod m end.

(** Euclid's algorithm with the cofactor of the second argument. *)
Fixpoint euclid (fuel : nat) (r0 r1 s0 s1 : Z) : Z * Z :=
  match fuel with
  | O => (r0, s0)
  | S f => if r1 =? 0 then (r0, s0) else let q := r0 / r1 in euclid f r1 (r0 - q * r1) s1 (s0 - q * s1)
  end.

Definition ModInverse (g n : Z) : option Z :=
  let (d, s) := euclid (Z.to_nat (2 * Z.log2 n + 4)) n (g mod n) 0 1 in
  if d =? 1 then Some (s mod n) else None.

Definition BitLen (v : Z) : Z := if v =? 0 then 0 else Z.log2 (Z.abs v) + 1.
Definition odd (v : Z) : bool := Z.testbit v 0.

(** [FillBytes] panics when the integer needs more bytes. *)
Definition FillBytes (n : nat) (v : Z) : option bytes := if Z.abs v <? 256 ^ Z.of_nat n then Some (be_bytes n (Z.abs v)) else None.

Definition hex_digit (ch : Z) : option Z :=
  if (48 <=? ch) && (ch <=? 57) then Some (ch - 48)
  else if (97 <=? ch) && (ch <=? 102) then Some (ch - 87)
  else if (65 <=? ch) && (ch <=? 70) then Some (ch - 55)
  else None.

Fixpoint hex_digits (acc : Z) (s : bytes) : option Z :=
  match s with
  | [] => Some acc
  | ch :: r => let? d := hex_digit ch in hex_digits (acc * 16 + d) r
  end.

(** [SetString(s, 16)]: an optional sign, then one digit or more up to the end. *)
Definition SetString16 (s : bytes) : option Z :=
  let (neg, s) := match s with 45 :: r => (true, r) | 43 :: r => (false, r) | _ => (false, s) end in
  if len s =? 0 then None else let? v := hex_digits 0 s in Some (if neg then - v else v).

End BigInt.

Module Secp.
Import BigInt.

(** * The curve *)

Record Curve := mkCurve { P : Z; N : Z; Gx : Z; Gy : Z; B : Z }.

Definition secp256k1 : Curve := mkCurve
  0xfffffffffffffffffffffffffffffffffffffffffffffffffffffffefffffc2f
  0xfffffffffffffffffffffffffffffffebaaedce6af48a03bbfd25e8cd0364141
  0x79be667ef9dcbbac55a06295ce870b07029bfcdb2dce28d959f2815b16f81798
  0x483ada7726a3c4655da4fbfc0e1108a8fd17b448a68554199c47d08ffb10d4b8 7.

Record Point := mkPoint { X : Z; Y : Z; Zc : Z }.

Definition Infinity : Point := mkPoint 1 1 0.
Definition NewPoint (x y : Z) : Point := mkPoint x y 1.
Definition IsInfinity (p : Point) : bool := Zc p =? 0.

Section Curve.
Variable c : Curve.

Definition Generator : Point := mkPoint (Gx c) (Gy c) 1.
Definition halfN : Z := Z.shiftr (N c) 1.
Definition sqrtExp : Z := Z.shiftr (P c + 1) 2.
Definition fmod (v : Z) : Z := v mod P c.

Definition Affine (p : Point) : option (Z * Z) :=
  if IsInfinity p then None
  else
    let? zInv := ModInverse (Zc p) (P c) in
    let zInv2 := zInv * zInv mod P c in
    let zInv3 := zInv2 * zInv mod P c in
    Some (X p * zInv2 mod P c, Y p * zInv3 mod P c).

Definition OnCurve (p : Point) : bool :=
  match Affine p with
  | None => true
  | Some (x, y) =>
      if (x <? 0) || (P c <=? x) || (y <? 0) || (P c <=? y) then false
      else
        let lhs := y * y mod P c in
        let rhs := (x * x mod P c * x + B c) mod P c in
        lhs =? rhs
  end.

Definition PointEqual (p q : Point) : bool :=
  match Affine p, Affine q with
  | Some (px, py), Some (qx, qy) => (px =? qx) && (py =? qy)
  | None, None => true
  | _, _ => false
  end.

Definition Double (p : Point) : Point :=
  if IsInfinity p || (Y p =? 0) then Infinity
  else
    let a := fmod (X p * X p) in
    let b := fmod (Y p * Y p) in
    let c := fmod (b * b) in
    let d := X p + b in
    let d := fmod (Z.shiftl (d * d - a - c) 1) in
    let e := fmod (a * 3) in
    let f := fmod (e * e) in
    let x3 := fmod (f - Z.shiftl d 1) in
    let y3 := fmod ((d - x3) * e - Z.shiftl c 3) in
    let z3 := fmod (Z.shiftl (Y p * Zc p) 1) in
    mkPoint x3 y3 z3.

Definition Add (p q : Point) : Point :=
  if IsInfinity p then q
  else if IsInfinity q then p
  else
    let z1z1 := fmod (Zc p * Zc p) in
    let z2z2 := fmod (Zc q * Zc q) in
    let u1 := fmod (X p * z2z2) in
    let u2 := fmod (X q * z1z1) in
    let s1 := fmod (Y p * Zc q * z2z2) in
    let s2 := fmod (Y q * Zc p * z1z1) in
    if u1 =? u2 then if s1 =? s2 then Double p else Infinity
    else
      let h := fmod (u2 - u1) in
      let i := Z.shiftl h 1 in
      let i := fmod (i * i) in
      let j := fmod (h * i) in
      let r := fmod (Z.shiftl (s2 - s1) 1) in
      let v := fmod (u1 * i) in
      let x3 := fmod (r * r - j - Z.shiftl v 1) in
      let y3 := fmod ((v - x3) * r - Z.shiftl (s1 * j) 1) in
      let z3 := Zc p + Zc q in
      let z3 := fmod ((z3 * z3 - z1z1 - z2z2) * h) in
      mkPoint x3 y3 z3.

Definition Neg (p : Point) : Point := mkPoint (X p) (fmod (- Y p)) (Zc p).

(** The bits [n - 1] down to [0] of [k]. *)
Fixpoint mul_loop (n : nat) (k : Z) (p result : Point) : Point :=
  match n with
  | O => result
  | S i =>
      let result := Double result in
      mul_loop i k p (if Z.testbit k (Z.of_nat i) then Add result p else result)
  end.

Definition ScalarMul (p : Point) (k : Z) : Point :=
  let k := k mod N c in
  if k =? 0 then Infinity else mul_loop (Z.to_nat (BitLen k)) k p Infinity.

Definition ScalarBaseMul (k : Z) : Point := ScalarMul Generator k.

Definition decompressY (x : Z) (yOdd : bool) : option Z :=
  if (x <? 0) || (P c <=? x) then None
  else
    let alpha := (x * x mod P c * x + B c) mod P c in
    let y := Exp alpha sqrtExp (P c) in
    if negb (y * y mod P c =? alpha) then None
    else Some (if negb (Bool.eqb (odd y) yOdd) then P c - y else y).

(** * Keys *)

(** A public key is the pair of its coordinates. *)
Abbreviation PublicKeyT := (Z * Z)%type.

Definition PrivateKeyFromBytes (b : bytes) : option Z :=
  if negb (len b =? 32) then None
  else let d := be_val b in if (d =? 0) || (N c <=? d) then None else Some d.

Definition padTo32 (v : Z) : option bytes := FillBytes 32 v.

(** [None] is the panic of [FillBytes], [Some None] the error. *)
Definition PrivateKeyFromHex (s : bytes) : option (option Z) :=
  let s := if (1 <? len s) && (nth 0 s 0 =? 48) && ((nth 1 s 0 =? 120) || (nth 1 s 0 =? 88)) then drop 2 s else s in
  match SetString16 s with
  | None => Some None
  | Some d => let? b := padTo32 d in Some (PrivateKeyFromBytes b)
  end.

Definition PublicKey (d : Z) : option PublicKeyT := Affine (ScalarBaseMul d).

Definition PublicBytes (pk : PublicKeyT) : option bytes :=
  let? x := FillBytes 32 (fst pk) in let? y := FillBytes 32 (snd pk) in Some (x ++ y).

Definition SEC1Uncompressed (pk : PublicKeyT) : option bytes := let? b := PublicBytes pk in Some (4 :: b).

Definition SEC1Compressed (pk : PublicKeyT) : option bytes :=
  let? x := FillBytes 32 (fst pk) in Some ((if odd (snd pk) then 3 else 2) :: x).

Definition PublicPoint (pk : PublicKeyT) : Point := NewPoint (fst pk) (snd pk).

Definition parse_pair (b : bytes) : option PublicKeyT :=
  let pk := (be_val (take 32 b), be_val (drop 32 b)) in if OnCurve (PublicPoint pk) then Some pk else None.

Definition ParsePublicKey (b : bytes) : option PublicKeyT :=
  if len b =? 64 then parse_pair b
  else if (len b =? 65) && (nth 0 b 0 =? 4) then parse_pair (drop 1 b)
  else if (len b =? 33) && ((nth 0 b 0 =? 2) || (nth 0 b 0 =? 3)) then
    let x := be_val (drop 1 b) in
    let? y := decompressY x (nth 0 b 0 =? 3) in Some (x, y)
  else None.

(** * Signatures *)

Record Signature := mkSig { R : Z; S : Z; V : Z }.

Section Hashes.
Context `{K : Keccak}.

Definition nonce (d : Z) (hash : bytes) (counter : Z) : option Z :=
  let? key := padTo32 d in
  Some (be_val (Keccak256 [bytes_of_string "padi-chain/secp256k1/nonce/v1"; key; hash; be_bytes 4 counter])).

Definition hashToInt (hash : bytes) : Z :=
  let z := be_val hash in
  let excess := len hash * 8 - BitLen (N c) in
  if 0 <? excess then Z.shiftr z excess else z.

(** One attempt with the nonce [k]. *)
Definition sign_with (d z k : Z) : option Signature :=
  if (k =? 0) || (N c <=? k) then None
  else
    let? a := Affine (ScalarBaseMul k) in
    let (px, py) := a in
    let r := px mod N c in
    if r =? 0 then None
    else
      let overflow := N c <=? px in
      let? kInv := ModInverse k (N c) in
      let s := (r * d + z) * kInv mod N c in
      if s =? 0 then None
      else
        let high := halfN <? s in
        let s := if high then N c - s else s in
        let yOdd := if high then negb (odd py) else odd py in
        Some (mkSig r s (Z.lor (if yOdd then 1 else 0) (if overflow then 2 else 0))).

Fixpoint sign_loop (n : nat) (d z : Z) (hash : bytes) (counter : Z) : option Signature :=
  match n with
  | O => None
  | Datatypes.S m =>
      let? k := nonce d hash counter in
      match sign_with d z k with
      | Some sig => Some sig
      | None => sign_loop m d z hash (counter + 1)
      end
  end.

Definition Sign (d : Z) (hash : bytes) : option Signature :=
  if negb (len hash =? 32) then None
  else if (d =? 0) || (N c <=? d) then None
  else sign_loop 1000 d (hashToInt hash) hash 0.

(** [ScalarBaseMul(u1) + point.ScalarMul(u2)] of a checked signature. *)
Definition Verify (pub : PublicKeyT) (hash : bytes) (sig : Signature) : bool :=
  if negb (len hash =? 32) then false
  else if (R sig <=? 0) || (S sig <=? 0) || (N c <=? R sig) || (N c <=? S sig) then false
  else if halfN <? S sig then false
  else
    let point := PublicPoint pub in
    if negb (OnCurve point) || IsInfinity point then false
    else
      match ModInverse (S sig) (N c) with
      | None => false
      | Some sInv =>
          let z := hashToInt hash in
          let u1 := z * sInv mod N c in
          let u2 := R sig * sInv mod N c in
          match Affine (Add (ScalarBaseMul u1) (ScalarMul point u2)) with
          | None => false
          | Some (x, _) => x mod N c =? R sig
          end
      end.

(** The abscissa a signature was made from. *)
Definition recover_x (sig : Signature) : option Z :=
  if negb (Z.land (V sig) 2 =? 0) then
    let x := R sig + N c in if P c <=? x then None else Some x
  else Some (R sig).

Definition Recover (hash : bytes) (sig : Signature) : option PublicKeyT :=
  if negb (len hash =? 32) then None
  else if 3 <? V sig then None
  else if (R sig <=? 0) || (S sig <=? 0) || (N c <=? R sig) || (N c <=? S sig) then None
  else
    let? x := recover_x sig in
    let? y := decompressY x (Z.land (V sig) 1 =? 1) in
    let? rInv := ModInverse (R sig) (N c) in
    let z := hashToInt hash in
    let u1 := rInv * S sig mod N c in
    let u2 := - z * rInv mod N c in
    Affine (Add (ScalarMul (NewPoint x y) u1) (ScalarBaseMul u2)).

Definition IsLowS (s : Z) : bool := (0 <? s) && (s <=? halfN).

Definition ECDH (d : Z) (pub : PublicKeyT) : option bytes :=
  let point := PublicPoint pub in
  if negb (OnCurve point) || IsInfinity point then None
  else
    let? a := Affine (ScalarMul point d) in
    let? x := padTo32 (fst a) in
    Some (Keccak256 [bytes_of_string "padi-chain/ecdh/v1"; x]).

End Hashes.
End Curve.
End Secp.
