(* ===== verification/Secp256k1Facts.v ===== *)
(** The curve operations implement the chord-and-tangent law, and signing,
    verification, recovery and key agreement fit together. *)

From stdpp Require Import base list.
From Stdlib Require Import ZArith Lia Znumtheory ZArithRing Field Setoid Morphisms.
From Stdlib.Zmod Require Import ZmodInv.
From S2P Require Import Prelude Common Secp256k1.
Local Open Scope Z_scope.
Local Open Scope go_scope.

(** * math/big *)

Module BigIntFacts.
Import BigInt.

Lemma exp_pos_spec m b e : 0 < m -> exp_pos m b e = b ^ Zpos e mod m.
Proof.
  intros Hm. induction e as [e IH|e IH|]; cbn [exp_pos].
  - rewrite IH, <- Zmult_mod, Zmult_mod_idemp_l. f_equal. rewrite Pos2Z.inj_xI. replace (2 * Zpos e + 1) with (Zpos e + Zpos e + 1) by lia.
    rewrite !Z.pow_add_r, Z.pow_1_r by lia. reflexivity.
  - rewrite IH, <- Zmult_mod. f_equal. rewrite Pos2Z.inj_xO. replace (2 * Zpos e) with (Zpos e + Zpos e) by lia. rewrite Z.pow_add_r by lia. reflexivity.
  - rewrite Z.pow_1_r. reflexivity.
Qed.

Lemma Exp_value b e m : 0 < m -> 0 <= e -> Exp b e m = b ^ e mod m.
Proof. intros Hm He. destruct e; [reflexivity | apply exp_pos_spec; exact Hm | lia]. Qed.

(** The remainders stay multiples of [g], and the last one divides both. *)
Lemma euclid_spec n g fuel : forall r0 r1 s0 s1 d s, euclid fuel r0 r1 s0 s1 = (d, s) -> 0 < n -> 0 <= r1 < r0 -> r0 * r1 < 2 ^ (Z.of_nat fuel - 1) -> (1 <= fuel)%nat ->
  eqm n r0 (s0 * g) -> eqm n r1 (s1 * g) -> d = Z.gcd r0 r1 /\ eqm n d (s * g).
Proof.
  induction fuel as [|f IH]; intros r0 r1 s0 s1 d s E Hn Hr Hp Hf H0 H1; [lia|]. cbn [euclid] in E. destruct (Z.eqb_spec r1 0) as [->|Hne].
  - injection E as <- <-. split; [rewrite Z.gcd_0_r; lia | exact H0].
  - pose proof (Z.mod_pos_bound r0 r1 ltac:(lia)) as Hmod. pose proof (Z.div_mod r0 r1 Hne) as Hdm.
    assert (r0 - r0 / r1 * r1 = r0 mod r1) as Em by lia. rewrite Em in E.
    assert (1 <= r0 / r1) by (apply Z.div_le_lower_bound; lia).
    assert (2 * (r0 mod r1) < r0) by nia. assert (1 <= f)%nat by (destruct f; [cbn in Hp; nia | lia]).
    apply IH in E; auto; [| |].
    + destruct E as [-> E]. split; [|exact E]. rewrite (Z.gcd_comm r1 (r0 mod r1)), Z.gcd_mod by lia. apply Z.gcd_comm.
    + assert (2 ^ (Z.of_nat (S f) - 1) = 2 * 2 ^ (Z.of_nat f - 1)) as Ep by (rewrite <- Z.pow_succ_r by lia; f_equal; lia). rewrite Ep in Hp. nia.
    + unfold eqm in *. rewrite <- Em. replace ((s0 - r0 / r1 * s1) * g) with (s0 * g - r0 / r1 * (s1 * g)) by ring.
      rewrite (Zminus_mod (s0 * g)), <- H0, Zmult_mod, <- H1, <- Zmult_mod, <- Zminus_mod. reflexivity.
Qed.

Lemma ModInverse_spec g n : 1 < n -> match ModInverse g n with Some i => Z.gcd g n = 1 /\ 0 <= i < n /\ g * i mod n = 1 | None => Z.gcd g n <> 1 end.
Proof.
  intros Hn. unfold ModInverse. destruct (euclid _ n (g mod n) 0 1) as [d s] eqn:E. pose proof (Z.mod_pos_bound g n ltac:(lia)) as Hg. pose proof (Z.log2_spec n ltac:(lia)) as [_ Hl].
  pose proof (Z.log2_nonneg n) as H0. apply (euclid_spec n (g mod n)) in E; try lia.
  - destruct E as [-> E]. rewrite (Z.gcd_comm n (g mod n)), Z.gcd_mod, (Z.gcd_comm n g) in * by lia. destruct (Z.eqb_spec (Z.gcd g n) 1) as [E1|E1]; [|exact E1].
    split; [exact E1|]. split; [apply Z.mod_pos_bound; lia|]. rewrite Zmult_mod_idemp_r. unfold eqm in E. rewrite Zmult_mod_idemp_r in E.
    rewrite E1, Z.mod_1_l in E by lia. rewrite Z.mul_comm. symmetry. exact E.
  - rewrite Z2Nat.id by lia. replace (2 * Z.log2 n + 4 - 1) with (Z.succ (Z.log2 n) + Z.succ (Z.log2 n) + 1) by lia. rewrite !Z.pow_add_r by lia.
    assert (0 < 2 ^ Z.succ (Z.log2 n)) by (apply Z.pow_pos_nonneg; lia). nia.
  - unfold eqm. rewrite Z.mul_0_l, Z.mod_same, Z.mod_0_l by lia. reflexivity.
  - unfold eqm. rewrite Z.mul_1_l. reflexivity.
Qed.

End BigIntFacts.

(** * The field of integers modulo a prime *)

Module Fp.
Import BigInt BigIntFacts.

Section Field.
Variable p : Z.
Hypothesis Hp : prime p.

#[local] Existing Instances eqm_setoid Zplus_eqm Zminus_eqm Zmult_eqm Zopp_eqm.
Infix "==" := (eqm p) (at level 70).

Lemma p_gt1 : 1 < p.
Proof. destruct Hp. assumption. Qed.

Lemma mod_eqm a : a mod p == a.
Proof. apply Zmod_eqm. Qed.

Lemma eqm_small a b : 0 <= a < p -> 0 <= b < p -> a == b -> a = b.
Proof. unfold eqm. intros Ha Hb E. rewrite !Z.mod_small in E by assumption. exact E. Qed.

Lemma eqm_mod a b : a == b <-> a mod p = b mod p.
Proof. reflexivity. Qed.

Lemma eqm_sub a b : a == b <-> a - b == 0.
Proof.
  pose proof p_gt1. split; intros E.
  - rewrite E. apply eqm_mod. f_equal. lia.
  - replace a with (a - b + b) by lia. rewrite E. reflexivity.
Qed.

Lemma eqm_zero a : a == 0 <-> (p | a).
Proof.
  pose proof p_gt1. unfold eqm. rewrite Z.mod_0_l by lia. split; [apply Zmod_divide; lia | intros H0; apply Zdivide_mod; exact H0].
Qed.

(** A product is zero when a factor is. *)
Lemma eqm_integral a b : a * b == 0 -> a == 0 \/ b == 0.
Proof. rewrite !eqm_zero. apply prime_mult. exact Hp. Qed.

Lemma eqm_cancel a b c : ~ a == 0 -> a * b == a * c -> b == c.
Proof.
  intros Ha E. apply eqm_sub in E. replace (a * b - a * c) with (a * (b - c)) in E by ring. destruct (eqm_integral _ _ E) as [H|H]; [done | apply eqm_sub; exact H].
Qed.

Definition finv (a : Z) : Z := default 0 (ModInverse a p).

Lemma coprime_gcd a : ~ a == 0 -> Z.gcd a p = 1.
Proof.
  intros Ha. apply Zgcd_1_rel_prime, rel_prime_sym. apply prime_rel_prime; [exact Hp|]. intros H. apply Ha, eqm_zero. exact H.
Qed.

Lemma ModInverse_some a : ~ a == 0 -> exists i, ModInverse a p = Some i /\ 0 <= i < p /\ a * i == 1 /\ finv a = i.
Proof.
  intros Ha. pose proof p_gt1 as H1. pose proof (ModInverse_spec a p H1) as H. unfold finv. destruct (ModInverse a p) as [i|]; [|destruct (H (coprime_gcd a Ha))].
  exists i. split; [reflexivity|]. split; [apply H|]. split; [|reflexivity]. unfold eqm. rewrite Z.mod_1_l by exact H1. apply H.
Qed.

Lemma finv_l a : ~ a == 0 -> finv a * a == 1.
Proof. intros Ha. destruct (ModInverse_some a Ha) as (i & _ & _ & H & ->). rewrite Z.mul_comm. exact H. Qed.

Lemma finv_unique a b : a * b == 1 -> finv a == b.
Proof.
  intros H. assert (~ a == 0) as Ha. { intros E. rewrite E in H. unfold eqm in H. pose proof p_gt1. rewrite Z.mul_0_l, Z.mod_0_l, Z.mod_1_l in H by lia. discriminate. }
  apply (eqm_cancel a); [exact Ha|]. rewrite H, Z.mul_comm. apply finv_l. exact Ha.
Qed.

#[local] Instance finv_eqm : Proper (eqm p ==> eqm p) finv.
Proof.
  intros a b E. pose proof p_gt1 as H1. unfold finv. pose proof (ModInverse_spec a p H1) as Ha. pose proof (ModInverse_spec b p H1) as Hb.
  assert (Z.gcd a p = Z.gcd b p) as Eg by (rewrite <- (Z.gcd_comm p a), <- (Z.gcd_comm p b), <- (Z.gcd_mod a p), <- (Z.gcd_mod b p), E by lia; reflexivity).
  destruct (ModInverse a p) as [i|], (ModInverse b p) as [j|]; [|destruct Hb; rewrite <- Eg; apply Ha|destruct Ha; rewrite Eg; apply Hb|reflexivity]. cbn.
  destruct Ha as (_ & _ & Ha), Hb as (_ & _ & Hb). assert (a * i == 1) as Ha' by (unfold eqm; rewrite Z.mod_1_l by exact H1; exact Ha).
  assert (b * j == 1) as Hb' by (unfold eqm; rewrite Z.mod_1_l by exact H1; exact Hb).
  transitivity (i * (b * j)); [rewrite Hb', Z.mul_1_r; reflexivity|]. rewrite <- E. replace (i * (a * j)) with (a * i * j) by ring. rewrite Ha', Z.mul_1_l. reflexivity.
Qed.

Lemma Fp_ring : ring_theory 0 1 Z.add Z.mul Z.sub Z.opp (eqm p).
Proof. split; intros; apply eqm_mod; f_equal; ring. Qed.

Lemma Fp_field : field_theory 0 1 Z.add Z.mul Z.sub Z.opp (fun a b => a * finv b) finv (eqm p).
Proof.
  split; [exact Fp_ring | | reflexivity | exact finv_l]. intros E. unfold eqm in E. pose proof p_gt1. rewrite Z.mod_0_l, Z.mod_1_l in E by lia. discriminate.
Qed.

Lemma Fp_ext : ring_eq_ext Z.add Z.mul Z.opp (eqm p).
Proof. split; solve_proper. Qed.

Lemma Fp_morph : ring_morph 0 1 Z.add Z.mul Z.sub Z.opp (eqm p) 0 1 Z.add Z.mul Z.sub Z.opp Z.eqb (fun x => x).
Proof. split; try reflexivity. intros x y E. apply Z.eqb_eq in E. rewrite E. reflexivity. Qed.

End Field.
End Fp.

(** * Points *)

Module SecpFacts.
Import BigInt BigIntFacts Secp Fp.

Section Points.
Variable c : Curve.
Hypothesis Hprime : prime (P c).
Hypothesis Hodd : P c mod 4 = 3.

#[local] Existing Instances eqm_setoid Zplus_eqm Zminus_eqm Zmult_eqm Zopp_eqm.
#[local] Instance finv_proper : Proper (eqm (P c) ==> eqm (P c)) (finv (P c)) := finv_eqm (P c) Hprime.
Infix "==" := (eqm (P c)) (at level 70).
Abbreviation inv := (finv (P c)).

Add Field Fc : (Fp_field (P c) Hprime) (setoid (eqm_setoid (P c)) (Fp_ext (P c)), morphism (Fp_morph (P c)), constants [Zcst]).

Lemma P_gt2 : 2 < P c.
Proof. pose proof (p_gt1 _ Hprime). destruct (Z.eq_dec (P c) 2) as [E|]; [rewrite E in Hodd; discriminate | lia]. Qed.

Lemma two_nonzero : ~ 2 == 0.
Proof. unfold eqm. pose proof P_gt2. rewrite Z.mod_0_l, Z.mod_small by lia. discriminate. Qed.

Lemma mod_range a : 0 <= a mod P c < P c.
Proof. pose proof P_gt2. apply Z.mod_pos_bound. lia. Qed.

Lemma nonzero_small a : 0 <= a < P c -> a <> 0 -> ~ a == 0.
Proof. intros Ha Hne E. apply Hne. apply (eqm_small _ _ _ Ha); [lia | exact E]. Qed.

(** ** The affine law *)

Abbreviation affine := (option (Z * Z)).

Definition on_curve (x y : Z) : Prop := y * y == x * x * x + B c.
Definition aff_ok (a : affine) : Prop :=
  match a with Some (x, y) => 0 <= x < P c /\ 0 <= y < P c /\ on_curve x y | None => True end.

Definition aff_neg (a : affine) : affine := match a with Some (x, y) => Some (x, (- y) mod P c) | None => None end.

(** The third point of the line with slope [l], reflected. *)
Definition third (l x1 y1 x2 : Z) : affine :=
  let x3 := (l * l - x1 - x2) mod P c in Some (x3, (l * (x1 - x3) - y1) mod P c).

Definition aff_add (a b : affine) : affine :=
  match a, b with
  | None, _ => b
  | _, None => a
  | Some (x1, y1), Some (x2, y2) =>
      if x1 =? x2 then if (y1 + y2) mod P c =? 0 then None else third (3 * x1 * x1 * inv (2 * y1)) x1 y1 x1
      else third ((y2 - y1) * inv (x2 - x1)) x1 y1 x2
  end.

(** ** Jacobian points *)

Definition jac_ok (p : Point) : Prop :=
  0 <= X p < P c /\ 0 <= Y p < P c /\ 0 <= Zc p < P c /\
  (Zc p = 0 \/ Y p * Y p == X p * X p * X p + B c * (Zc p * Zc p * Zc p * Zc p * Zc p * Zc p)).

Lemma Affine_some p : 0 <= Zc p < P c -> Zc p <> 0 ->
  exists x y, Affine c p = Some (x, y) /\ 0 <= x < P c /\ 0 <= y < P c /\ x == X p * inv (Zc p) * inv (Zc p) /\ y == Y p * inv (Zc p) * inv (Zc p) * inv (Zc p).
Proof.
  intros Hz Hne. unfold Affine, IsInfinity. destruct (Z.eqb_spec (Zc p) 0); [done|].
  destruct (ModInverse_some (P c) Hprime (Zc p) (nonzero_small _ Hz Hne)) as (i & Ei & _ & _ & Ef). rewrite Ei. cbn [obind]. rewrite <- Ef.
  eexists _, _. split; [reflexivity|]. split; [apply mod_range|]. split; [apply mod_range|]. split; rewrite !mod_eqm; ring.
Qed.

Lemma Affine_infinity p : Zc p = 0 -> Affine c p = None.
Proof. intros E. unfold Affine, IsInfinity. rewrite E. reflexivity. Qed.

Lemma Affine_ok p : jac_ok p -> aff_ok (Affine c p).
Proof.
  intros (Hx & Hy & Hz & Hc). destruct (Z.eq_dec (Zc p) 0) as [E|Hne]; [rewrite Affine_infinity by exact E; exact I|]. destruct Hc as [|Hc]; [done|].
  destruct (Affine_some p Hz Hne) as (x & y & -> & Rx & Ry & Ex & Ey). split; [exact Rx|]. split; [exact Ry|]. unfold on_curve. rewrite Ex, Ey.
  pose proof (nonzero_small _ Hz Hne) as Hnz. transitivity (Y p * Y p * (inv (Zc p) * inv (Zc p) * inv (Zc p) * inv (Zc p) * inv (Zc p) * inv (Zc p))); [ring|].
  rewrite Hc. field. exact Hnz.
Qed.

(** A point and its affine coordinates, without division. *)
Definition at_affine (p : Point) (x y : Z) : Prop := X p == x * (Zc p * Zc p) /\ Y p == y * (Zc p * Zc p * Zc p).

Lemma Affine_at p x y : 0 <= Zc p < P c -> Zc p <> 0 -> 0 <= x < P c -> 0 <= y < P c -> at_affine p x y -> Affine c p = Some (x, y).
Proof.
  intros Hz Hne Hx Hy [Ex Ey]. destruct (Affine_some p Hz Hne) as (x' & y' & -> & Rx & Ry & Ex' & Ey'). pose proof (nonzero_small _ Hz Hne) as Hnz.
  rewrite Ex in Ex'. rewrite Ey in Ey'. f_equal. f_equal; apply (eqm_small (P c)); auto; [rewrite Ex' | rewrite Ey']; field; exact Hnz.
Qed.

Lemma Affine_inv p x y : jac_ok p -> Affine c p = Some (x, y) -> Zc p <> 0 /\ ~ Zc p == 0 /\ at_affine p x y /\ 0 <= x < P c /\ 0 <= y < P c /\ on_curve x y.
Proof.
  intros Hp E. pose proof (Affine_ok p Hp) as Hok. rewrite E in Hok. destruct Hp as (_ & _ & Hz & _). destruct (Z.eq_dec (Zc p) 0) as [E0|Hne]; [rewrite Affine_infinity in E by exact E0; discriminate|].
  pose proof (nonzero_small _ Hz Hne) as Hnz. destruct (Affine_some p Hz Hne) as (x' & y' & E' & _ & _ & Ex & Ey). rewrite E in E'. injection E' as <- <-.
  split; [exact Hne|]. split; [exact Hnz|]. split; [|exact Hok]. split; [rewrite Ex | rewrite Ey]; field; exact Hnz.
Qed.

Lemma jac_of_affine p x y : 0 <= X p < P c -> 0 <= Y p < P c -> 0 <= Zc p < P c -> at_affine p x y -> on_curve x y -> jac_ok p.
Proof.
  intros Hx Hy Hz [Ex Ey] Hc. split; [exact Hx|]. split; [exact Hy|]. split; [exact Hz|]. right. rewrite Ex, Ey.
  transitivity (y * y * (Zc p * Zc p * Zc p * Zc p * Zc p * Zc p)); [ring|]. unfold on_curve in Hc. rewrite Hc. ring.
Qed.

(** The third point of a line that meets the curve in two points, or touches it. *)
Lemma third_on_curve l x1 y1 x2 : on_curve x1 y1 -> x1 * x1 + x1 * x2 + x2 * x2 == l * (l * (x1 + x2) + 2 * (y1 - l * x1)) ->
  exists x3 y3, third l x1 y1 x2 = Some (x3, y3) /\ 0 <= x3 < P c /\ 0 <= y3 < P c /\ on_curve x3 y3 /\ x3 == l * l - x1 - x2 /\ y3 == l * (x1 - x3) - y1.
Proof.
  intros Hc Hg. eexists _, _. split; [reflexivity|]. split; [apply mod_range|]. split; [apply mod_range|]. split; [|split; apply mod_eqm].
  unfold on_curve in *. rewrite !mod_eqm. apply (eqm_sub (P c) Hprime).
  set (g := l * (l * (x1 + x2) + 2 * (y1 - l * x1))) in Hg. apply (eqm_sub (P c) Hprime) in Hc. apply (eqm_sub (P c) Hprime) in Hg. subst g.
  transitivity ((y1 * y1 - (x1 * x1 * x1 + B c)) + (x1 * x1 + x1 * x2 + x2 * x2 - l * (l * (x1 + x2) + 2 * (y1 - l * x1))) * (x1 - (l * l - x1 - x2))); [ring|].
  rewrite Hc, Hg. ring.
Qed.

(** The slopes of the chord and of the tangent. *)
Lemma chord_slope x1 y1 x2 y2 : on_curve x1 y1 -> on_curve x2 y2 -> ~ x2 - x1 == 0 ->
  let l := (y2 - y1) * inv (x2 - x1) in y2 == y1 + l * (x2 - x1) /\ x1 * x1 + x1 * x2 + x2 * x2 == l * (l * (x1 + x2) + 2 * (y1 - l * x1)).
Proof.
  intros H1 H2 Hd l. assert (y2 == y1 + l * (x2 - x1)) as Hl by (subst l; field; exact Hd). split; [exact Hl|].
  apply (eqm_cancel (P c) Hprime (x2 - x1)); [exact Hd|]. unfold on_curve in *.
  transitivity ((x2 * x2 * x2 + B c) - (x1 * x1 * x1 + B c)); [ring|]. rewrite <- H1, <- H2, Hl. ring.
Qed.

Lemma tangent_slope x y : ~ y == 0 -> let l := 3 * x * x * inv (2 * y) in 3 * (x * x) == 2 * y * l /\ x * x + x * x + x * x == l * (l * (x + x) + 2 * (y - l * x)).
Proof.
  intros Hy l. assert (3 * (x * x) == 2 * y * l) as Hl by (subst l; field; split; [exact Hy | exact two_nonzero]). split; [exact Hl|].
  transitivity (3 * (x * x)); [ring|]. rewrite Hl. ring.
Qed.

Lemma nonzero_mul a b : ~ a == 0 -> ~ b == 0 -> ~ a * b == 0.
Proof. intros Ha Hb E. destruct (eqm_integral (P c) Hprime _ _ E); auto. Qed.

Lemma mod_nonzero a : ~ a == 0 -> a mod P c <> 0.
Proof. intros Ha E. apply Ha. unfold eqm. rewrite E. pose proof P_gt2. rewrite Z.mod_0_l by lia. reflexivity. Qed.

Lemma infinity_ok : jac_ok Infinity.
Proof. pose proof P_gt2. unfold jac_ok, Infinity. cbn. lia. Qed.

(** Doubling follows the tangent. *)
Lemma Double_refines p : jac_ok p -> jac_ok (Double c p) /\ Affine c (Double c p) = aff_add (Affine c p) (Affine c p).
Proof.
  intros Hp. unfold Double. destruct (IsInfinity p) eqn:Einf; cbn [orb].
  { apply Z.eqb_eq in Einf. split; [exact infinity_ok|]. rewrite (Affine_infinity p Einf). reflexivity. }
  apply Z.eqb_neq in Einf. destruct Hp as (Rx & Ry & Rz & Hc). destruct (Affine_some p Rz Einf) as (x & y & Ea & _).
  destruct (Affine_inv p x y (conj Rx (conj Ry (conj Rz Hc))) Ea) as (_ & Hz & [Ex Ey] & Hx & Hy & Hon). rewrite Ea. cbn [aff_add]. rewrite Z.eqb_refl.
  destruct (Z.eqb_spec (Y p) 0) as [E0|Hy0].
  - split; [exact infinity_ok|]. assert (y == 0) as Hy0.
    { apply (eqm_cancel (P c) Hprime (Zc p * Zc p * Zc p)); [repeat apply nonzero_mul; exact Hz|]. rewrite Z.mul_comm, <- Ey, E0. ring. }
    assert ((y + y) mod P c = 0) as -> by (pose proof P_gt2; rewrite <- (Z.mod_0_l (P c)) by lia; change (y + y == 0); rewrite Hy0; ring). reflexivity.
  - assert (~ y == 0) as Hyn by (intros E; apply (nonzero_small _ Ry Hy0); rewrite Ey, E; ring).
    assert ((y + y) mod P c <> 0) as Hyy by (apply mod_nonzero; intros E; apply (nonzero_mul 2 y two_nonzero Hyn); rewrite <- E; ring).
    destruct (Z.eqb_spec ((y + y) mod P c) 0); [done|]. destruct (tangent_slope x y Hyn) as [Hl Hg]. set (l := 3 * x * x * inv (2 * y)) in *. clearbody l.
    destruct (third_on_curve l x y x Hon Hg) as (x3 & y3 & -> & R3 & S3 & C3 & E3 & F3). cbv zeta. unfold fmod. rewrite !Z.shiftl_mul_pow2 by lia. change (2 ^ 1) with 2. change (2 ^ 3) with 8.
    set (a := X p * X p mod P c). set (b := Y p * Y p mod P c). set (cc := b * b mod P c). set (d := ((X p + b) * (X p + b) - a - cc) * 2 mod P c). set (e := a * 3 mod P c).
    set (f := e * e mod P c). set (xq := (f - d * 2) mod P c). set (yq := ((d - xq) * e - cc * 8) mod P c). set (zq := Y p * Zc p * 2 mod P c).
    set (z := Zc p) in *. assert (b == y * y * (z * z * z * (z * z * z))) as Hb by (subst b; rewrite mod_eqm, Ey; ring).
    assert (e == 2 * y * l * (z * z * (z * z))) as He by (subst e a; rewrite !mod_eqm, Ex; transitivity (3 * (x * x) * (z * z * (z * z))); [ring | rewrite Hl; ring]).
    assert (cc == b * b) as Hcc by (subst cc; apply mod_eqm). assert (d == 4 * (x * (z * z)) * b) as Hd by (subst d a; rewrite !mod_eqm, Hcc, Ex; ring).
    assert (zq == 2 * y * (z * z * (z * z))) as Hzq by (subst zq; rewrite mod_eqm, Ey; ring).
    assert (xq == x3 * (zq * zq)) as Hxq by (subst xq f; rewrite !mod_eqm, He, Hd, Hb, Hzq, E3; ring).
    assert (yq == y3 * (zq * zq * zq)) as Hyq by (subst yq; rewrite mod_eqm, Hxq, He, Hd, Hcc, Hb, Hzq, F3, E3; ring).
    assert (~ zq == 0) as Hzn by (rewrite Hzq; repeat apply nonzero_mul; auto; exact two_nonzero). assert (zq <> 0) as Hq0 by (intros E; apply Hzn; rewrite E; reflexivity).
    split; [apply (jac_of_affine _ x3 y3) | apply Affine_at]; cbn [X Y Zc]; try apply mod_range; auto; split; assumption.
Qed.

(** Two points of the curve with one abscissa are equal or opposite. *)
Lemma same_abscissa x y y' : on_curve x y -> on_curve x y' -> ~ y' - y == 0 -> y + y' == 0.
Proof.
  unfold on_curve. intros H H' Hne. assert ((y' - y) * (y + y') == 0) as E by (transitivity (y' * y' - y * y); [ring | rewrite H, H'; ring]).
  destruct (eqm_integral (P c) Hprime _ _ E); [done | assumption].
Qed.

(** Addition follows the chord. *)
Lemma Add_chord p q x1 y1 x2 y2 : jac_ok p -> jac_ok q -> Affine c p = Some (x1, y1) -> Affine c q = Some (x2, y2) -> x1 <> x2 ->
  jac_ok (Add c p q) /\ Affine c (Add c p q) = aff_add (Some (x1, y1)) (Some (x2, y2)).
Proof.
  intros Hp Hq Ep Eq Hne. destruct (Affine_inv p x1 y1 Hp Ep) as (Zp & Hzp & [Ex1 Ey1] & R1 & S1 & C1). destruct (Affine_inv q x2 y2 Hq Eq) as (Zq & Hzq & [Ex2 Ey2] & R2 & S2 & C2).
  assert (~ x2 - x1 == 0) as Hdx by (intros E; apply (eqm_sub (P c) Hprime) in E; apply Hne; symmetry; apply (eqm_small (P c)); assumption).
  unfold Add, IsInfinity. destruct (Z.eqb_spec (Zc p) 0); [done|]. destruct (Z.eqb_spec (Zc q) 0); [done|]. cbv zeta. unfold fmod. rewrite !Z.shiftl_mul_pow2 by lia. change (2 ^ 1) with 2.
  set (z1 := Zc p) in *. set (z2 := Zc q) in *. set (a := z1 * z1 mod P c). set (b := z2 * z2 mod P c). set (u1 := X p * b mod P c). set (u2 := X q * a mod P c).
  set (s1 := Y p * z2 * b mod P c). set (s2 := Y q * z1 * a mod P c). assert (a == z1 * z1) as Ha by apply mod_eqm. assert (b == z2 * z2) as Hb by apply mod_eqm.
  assert (u1 == x1 * (z1 * z1 * (z2 * z2))) as Hu1 by (subst u1; rewrite mod_eqm, Ex1, Hb; ring). assert (u2 == x2 * (z1 * z1 * (z2 * z2))) as Hu2 by (subst u2; rewrite mod_eqm, Ex2, Ha; ring).
  destruct (Z.eqb_spec u1 u2) as [Eu|Hu].
  { exfalso. apply Hdx. apply (eqm_cancel (P c) Hprime (z1 * z1 * (z2 * z2))); [repeat apply nonzero_mul; assumption|].
    transitivity (u2 - u1); [rewrite Hu1, Hu2; ring|]. rewrite Eu. ring. }
  destruct (chord_slope x1 y1 x2 y2 C1 C2 Hdx) as [Hl Hg]. cbn [aff_add]. destruct (Z.eqb_spec x1 x2); [done|]. set (l := (y2 - y1) * inv (x2 - x1)) in *. clearbody l.
  destruct (third_on_curve l x1 y1 x2 C1 Hg) as (x3 & y3 & -> & R3 & S3 & C3 & E3 & F3).
  set (h := (u2 - u1) mod P c). set (i := h * 2 * (h * 2) mod P c). set (j := h * i mod P c). set (r := (s2 - s1) * 2 mod P c). set (v := u1 * i mod P c).
  set (xs := (r * r - j - v * 2) mod P c). set (ys := ((v - xs) * r - s1 * j * 2) mod P c). set (zs := ((z1 + z2) * (z1 + z2) - a - b) * h mod P c).
  set (w := z1 * z2). set (dx := x2 - x1) in *. assert (h == dx * (w * w)) as Hh by (subst h; rewrite mod_eqm, Hu1, Hu2; subst dx w; ring).
  assert (i == 4 * (h * h)) as Hi by (subst i; rewrite mod_eqm; ring). assert (j == 4 * (h * h * h)) as Hj by (subst j; rewrite mod_eqm, Hi; ring).
  assert (s1 == y1 * (w * w * w)) as Hs1 by (subst s1 w; rewrite mod_eqm, Ey1, Hb; ring). assert (s2 == y2 * (w * w * w)) as Hs2 by (subst s2 w; rewrite mod_eqm, Ey2, Ha; ring).
  assert (r == 2 * l * h * w) as Hr by (subst r; rewrite mod_eqm, Hs1, Hs2, Hl, Hh; ring). assert (v == 4 * x1 * (w * w) * (h * h)) as Hv by (subst v; rewrite mod_eqm, Hu1, Hi; subst w; ring).
  assert (zs == 2 * w * h) as Hzs by (subst zs; rewrite mod_eqm, Ha, Hb; subst w; ring).
  assert (x2 == x1 + dx) as Hx2 by (subst dx; ring).
  assert (xs == x3 * (zs * zs)) as Hxs by (subst xs; rewrite mod_eqm, Hr, Hj, Hv, Hzs, E3, Hx2; transitivity (4 * (h * h) * (l * l * (w * w) - h - 2 * x1 * (w * w))); [ring | rewrite Hh at 3; ring]).
  assert (ys == y3 * (zs * zs * zs)) as Hys by (subst ys; rewrite mod_eqm, Hxs, Hr, Hj, Hv, Hs1, Hzs, F3; ring).
  assert (~ zs == 0) as Hzn by (rewrite Hzs, Hh; repeat apply nonzero_mul; auto; try exact two_nonzero; subst w; apply nonzero_mul; assumption).
  assert (zs <> 0) as Hq0 by (intros E; apply Hzn; rewrite E; reflexivity).
  split; [apply (jac_of_affine _ x3 y3) | apply Affine_at]; cbn [X Y Zc]; try apply mod_range; auto; split; assumption.
Qed.

Lemma Add_same p q x y1 y2 : jac_ok p -> jac_ok q -> Affine c p = Some (x, y1) -> Affine c q = Some (x, y2) ->
  jac_ok (Add c p q) /\ Affine c (Add c p q) = aff_add (Some (x, y1)) (Some (x, y2)).
Proof.
  intros Hp Hq Ep Eq. destruct (Affine_inv p x y1 Hp Ep) as (Zp & Hzp & [Ex1 Ey1] & R1 & S1 & C1). destruct (Affine_inv q x y2 Hq Eq) as (Zq & Hzq & [Ex2 Ey2] & R2 & S2 & C2).
  unfold Add, IsInfinity. destruct (Z.eqb_spec (Zc p) 0); [done|]. destruct (Z.eqb_spec (Zc q) 0); [done|]. cbv zeta. unfold fmod.
  set (z1 := Zc p) in *. set (z2 := Zc q) in *. set (w := z1 * z2).
  assert (X p * (z2 * z2 mod P c) mod P c = X q * (z1 * z1 mod P c) mod P c) as Eu by (rewrite !Zmult_mod_idemp_r; change (X p * (z2 * z2) == X q * (z1 * z1)); rewrite Ex1, Ex2; ring).
  rewrite Eu, Z.eqb_refl. rewrite !Zmult_mod_idemp_r.
  assert (Y p * z2 * (z2 * z2) == y1 * (w * w * w)) as H1 by (rewrite Ey1; subst w; ring). assert (Y q * z1 * (z1 * z1) == y2 * (w * w * w)) as H2 by (rewrite Ey2; subst w; ring).
  assert (~ w * w * w == 0) as Hw by (subst w; repeat apply nonzero_mul; assumption). cbn [aff_add]. rewrite Z.eqb_refl.
  destruct (Z.eqb_spec (Y p * z2 * (z2 * z2) mod P c) (Y q * z1 * (z1 * z1) mod P c)) as [Es|Hs].
  - assert (y1 = y2) as <- by (apply (eqm_small (P c)); auto; apply (eqm_cancel (P c) Hprime (w * w * w)); [exact Hw|]; rewrite Z.mul_comm, <- H1, (Z.mul_comm _ y2), <- H2; exact Es).
    destruct (Double_refines p Hp) as [Hd Ed]. split; [exact Hd|]. rewrite Ed, Ep. cbn [aff_add]. rewrite Z.eqb_refl. reflexivity.
  - split; [exact infinity_ok|]. assert (y1 + y2 == 0) as E0.
    { apply (same_abscissa x); auto. intros E. apply Hs. change (Y p * z2 * (z2 * z2) == Y q * z1 * (z1 * z1)). rewrite H1, H2. apply (eqm_sub (P c) Hprime) in E. rewrite E. reflexivity. }
    unfold eqm in E0. pose proof P_gt2. rewrite Z.mod_0_l in E0 by lia. rewrite E0. reflexivity.
Qed.

(** Addition of Jacobian points is the chord-and-tangent law. *)
Lemma Add_refines p q : jac_ok p -> jac_ok q -> jac_ok (Add c p q) /\ Affine c (Add c p q) = aff_add (Affine c p) (Affine c q).
Proof.
  intros Hp Hq. destruct (Z.eq_dec (Zc p) 0) as [E|Hzp].
  { rewrite (Affine_infinity p E). unfold Add, IsInfinity. rewrite E. split; [exact Hq | reflexivity]. }
  destruct (Z.eq_dec (Zc q) 0) as [E|Hzq].
  { rewrite (Affine_infinity q E). unfold Add, IsInfinity. rewrite E. destruct (Z.eqb_spec (Zc p) 0); [done|]. change (0 =? 0) with true. cbv iota. split; [exact Hp | destruct (Affine c p) as [[? ?]|]; reflexivity]. }
  destruct (Affine_some p) as (x1 & y1 & E1 & _); [apply Hp | exact Hzp|]. destruct (Affine_some q) as (x2 & y2 & E2 & _); [apply Hq | exact Hzq|]. rewrite E1, E2.
  destruct (Z.eq_dec x1 x2) as [<-|Hne]; [apply Add_same | apply Add_chord]; assumption.
Qed.

(** ** The group *)

Lemma Neg_refines p : jac_ok p -> jac_ok (Neg c p) /\ Affine c (Neg c p) = aff_neg (Affine c p).
Proof.
  intros Hp. pose proof Hp as (Hx & Hy & Hz & Hc). assert (jac_ok (Neg c p)) as Hn.
  { split; [exact Hx|]. split; [apply mod_range|]. split; [exact Hz|]. cbn [Neg X Y Zc]. destruct Hc as [Hc|Hc]; [left; exact Hc | right]. unfold fmod. rewrite mod_eqm. rewrite <- Hc. ring. }
  split; [exact Hn|]. destruct (Z.eq_dec (Zc p) 0) as [E|Hne]; [rewrite !Affine_infinity by exact E; reflexivity|].
  destruct (Affine c p) as [[x y]|] eqn:E; [|destruct (Affine_some p Hz Hne) as (? & ? & E' & _); congruence]. destruct (Affine_inv p x y Hp E) as (_ & _ & [Ex Ey] & Rx & Ry & _).
  cbn [aff_neg]. apply Affine_at; [exact Hz | exact Hne | exact Rx | apply mod_range|]. split; [exact Ex|]. cbn [Neg Y Zc]. unfold fmod. rewrite !mod_eqm. rewrite Ey. ring.
Qed.

Lemma NewPoint_ok x y : aff_ok (Some (x, y)) -> jac_ok (NewPoint x y) /\ Affine c (NewPoint x y) = Some (x, y).
Proof.
  intros (Hx & Hy & Hc). pose proof P_gt2. assert (at_affine (NewPoint x y) x y) as Hat by (split; cbn [NewPoint X Y Zc]; ring).
  split; [apply (jac_of_affine _ x y) | apply Affine_at]; cbn [NewPoint X Y Zc]; auto; lia.
Qed.

Lemma has_jacobian a : aff_ok a -> exists p, jac_ok p /\ Affine c p = a.
Proof. destruct a as [[x y]|]; intros Ha; [exists (NewPoint x y); apply NewPoint_ok; exact Ha | exists Infinity; split; [exact infinity_ok | reflexivity]]. Qed.

Lemma aff_add_ok a b : aff_ok a -> aff_ok b -> aff_ok (aff_add a b).
Proof.
  intros Ha Hb. destruct (has_jacobian a Ha) as (p & Hp & <-). destruct (has_jacobian b Hb) as (q & Hq & <-). destruct (Add_refines p q Hp Hq) as [H <-]. apply Affine_ok. exact H.
Qed.

Lemma third_ext l l' x1 y1 x2 x1' y1' x2' : l == l' -> x1 + x2 == x1' + x2' -> l * x1 - y1 == l' * x1' - y1' -> third l x1 y1 x2 = third l' x1' y1' x2'.
Proof.
  intros Hl Hx Hy. unfold third. assert ((l * l - x1 - x2) mod P c = (l' * l' - x1' - x2') mod P c) as E.
  { change (l * l - x1 - x2 == l' * l' - x1' - x2'). transitivity (l * l - (x1 + x2)); [ring|]. rewrite Hx, Hl. ring. }
  rewrite E. set (x3 := (l' * l' - x1' - x2') mod P c). f_equal. f_equal. change (l * (x1 - x3) - y1 == l' * (x1' - x3) - y1').
  transitivity (l * x1 - y1 - l * x3); [ring|]. rewrite Hy, Hl. ring.
Qed.

Lemma aff_add_comm a b : aff_ok a -> aff_ok b -> aff_add a b = aff_add b a.
Proof.
  destruct a as [[x1 y1]|], b as [[x2 y2]|]; try reflexivity. intros (R1 & S1 & C1) (R2 & S2 & C2). cbn [aff_add]. rewrite (Z.eqb_sym x2 x1), (Z.add_comm y2 y1).
  destruct (Z.eqb_spec x1 x2) as [<-|Hne].
  - destruct (Z.eqb_spec ((y1 + y2) mod P c) 0) as [|Hs]; [reflexivity|]. assert (y1 = y2) as <-; [|reflexivity].
    destruct (Z.eq_dec y1 y2) as [|Hy]; [assumption|]. exfalso. apply Hs. assert (y1 + y2 == 0) as E.
    { apply (same_abscissa x1); auto. intros E. apply Hy. symmetry. apply (eqm_small (P c)); auto. apply (eqm_sub (P c) Hprime). exact E. }
    unfold eqm in E. pose proof P_gt2. rewrite Z.mod_0_l in E by lia. exact E.
  - assert (~ x2 - x1 == 0) as Hd by (intros E; apply (eqm_sub (P c) Hprime) in E; apply Hne; symmetry; apply (eqm_small (P c)); assumption).
    assert (~ x1 - x2 == 0) as Hd' by (intros E; apply Hd; transitivity (- (x1 - x2)); [ring | rewrite E; ring]).
    apply third_ext; [field; split; assumption | ring | field; split; assumption].
Qed.

Lemma aff_neg_ok a : aff_ok a -> aff_ok (aff_neg a).
Proof. destruct a as [[x y]|]; [|done]. intros (Hx & Hy & Hc). split; [exact Hx|]. split; [apply mod_range|]. unfold on_curve in *. rewrite !mod_eqm. rewrite <- Hc. ring. Qed.

Lemma aff_add_neg a : aff_ok a -> aff_add a (aff_neg a) = None.
Proof.
  destruct a as [[x y]|]; [|done]. intros _. cbn [aff_add aff_neg]. rewrite Z.eqb_refl, Zplus_mod_idemp_r, Z.add_opp_diag_r.
  pose proof P_gt2. rewrite Z.mod_0_l by lia. reflexivity.
Qed.

(** ** Multiples *)

(** What is known of the curve: the law is associative, and every point has the
    order [N]. *)
Hypothesis Hassoc : forall a b d, aff_ok a -> aff_ok b -> aff_ok d -> aff_add a (aff_add b d) = aff_add (aff_add a b) d.

Fixpoint smul (n : nat) (a : affine) : affine := match n with O => None | Datatypes.S m => aff_add a (smul m a) end.

Lemma smul_ok n a : aff_ok a -> aff_ok (smul n a).
Proof. intros Ha. induction n; [exact I | apply aff_add_ok; assumption]. Qed.

Lemma aff_add_0_r a : aff_add a None = a.
Proof. destruct a as [[? ?]|]; reflexivity. Qed.

Lemma smul_add m n a : aff_ok a -> smul (m + n) a = aff_add (smul m a) (smul n a).
Proof. intros Ha. induction m as [|m IH]; [reflexivity|]. cbn [smul Nat.add]. rewrite IH. apply Hassoc; auto using smul_ok. Qed.

Lemma smul_mul m n a : aff_ok a -> smul (m * n) a = smul m (smul n a).
Proof. intros Ha. induction m as [|m IH]; [reflexivity|]. cbn [Nat.mul smul]. rewrite smul_add, IH by exact Ha. reflexivity. Qed.

Lemma smul_none n : smul n None = None.
Proof. induction n; [reflexivity | exact IHn]. Qed.

(** Cancelling on the left. *)
Lemma aff_cancel a b d : aff_ok a -> aff_ok b -> aff_ok d -> aff_add a b = aff_add a d -> b = d.
Proof.
  intros Ha Hb Hd E. assert (forall x, aff_ok x -> aff_add (aff_neg a) (aff_add a x) = x) as H.
  { intros x Hx. rewrite Hassoc by auto using aff_neg_ok. rewrite (aff_add_comm (aff_neg a) a), aff_add_neg by auto using aff_neg_ok. reflexivity. }
  rewrite <- (H b Hb), E. apply H. exact Hd.
Qed.

Lemma aff_add_swap a b d e : aff_ok a -> aff_ok b -> aff_ok d -> aff_ok e -> aff_add (aff_add a b) (aff_add d e) = aff_add (aff_add a d) (aff_add b e).
Proof. intros Ha Hb Hd He. rewrite <- !Hassoc by auto using aff_add_ok. f_equal. rewrite !Hassoc, (aff_add_comm b d) by auto using aff_add_ok. reflexivity. Qed.

Lemma smul_dist n a b : aff_ok a -> aff_ok b -> smul n (aff_add a b) = aff_add (smul n a) (smul n b).
Proof. intros Ha Hb. induction n as [|n IH]; [reflexivity|]. cbn [smul]. rewrite IH. apply aff_add_swap; auto using smul_ok. Qed.

Lemma mul_loop_refines p n : forall k result, 0 <= k -> jac_ok p -> jac_ok result -> Affine c result = smul (Z.to_nat (k / 2 ^ Z.of_nat n)) (Affine c p) ->
  jac_ok (mul_loop c n k p result) /\ Affine c (mul_loop c n k p result) = smul (Z.to_nat k) (Affine c p).
Proof.
  induction n as [|i IH]; intros k result Hk Hp Hr E; cbn [mul_loop].
  - rewrite Z.div_1_r in E. auto.
  - destruct (Double_refines result Hr) as [Hd Ed]. pose proof (Affine_ok p Hp) as Ha. set (u := k / 2 ^ Z.of_nat (Datatypes.S i)) in E.
    assert (0 < 2 ^ Z.of_nat i) by (apply Z.pow_pos_nonneg; lia). assert (0 <= u) by (apply Z.div_pos; [lia | apply Z.pow_pos_nonneg; lia]).
    assert (k / 2 ^ Z.of_nat i = 2 * u + Z.b2z (Z.testbit k (Z.of_nat i))) as Eu.
    { rewrite Z.testbit_spec' by lia. subst u. rewrite Nat2Z.inj_succ, Z.pow_succ_r, (Z.mul_comm 2 (2 ^ _)), <- Z.div_div by lia. apply Z.div_mod. lia. }
    assert (Affine c (Double c result) = smul (Z.to_nat (2 * u)) (Affine c p)) as E2.
    { rewrite Ed, E, <- smul_add by exact Ha. f_equal. lia. }
    destruct (Add_refines _ p Hd Hp) as [Hs Es]. apply IH; auto.
    + destruct (Z.testbit k (Z.of_nat i)); assumption.
    + rewrite Eu. destruct (Z.testbit k (Z.of_nat i)); cbn [Z.b2z]; [|rewrite Z.add_0_r; exact E2].
      rewrite Es, E2, aff_add_comm by auto using smul_ok. replace (Z.to_nat (2 * u + 1)) with (Datatypes.S (Z.to_nat (2 * u))) by lia. reflexivity.
Qed.

Hypothesis HN : prime (N c).
Hypothesis Horder : forall a, aff_ok a -> smul (Z.to_nat (N c)) a = None.

Lemma N_gt1 : 1 < N c.
Proof. apply p_gt1. exact HN. Qed.

(** Multiples by integers modulo the order. *)
Definition zmul (k : Z) (a : affine) : affine := smul (Z.to_nat (k mod N c)) a.

(** Double-and-add computes multiples. *)
Lemma ScalarMul_refines p k : jac_ok p -> jac_ok (ScalarMul c p k) /\ Affine c (ScalarMul c p k) = zmul k (Affine c p).
Proof.
  intros Hp. unfold ScalarMul, zmul. pose proof N_gt1. pose proof (Z.mod_pos_bound k (N c) ltac:(lia)). destruct (Z.eqb_spec (k mod N c) 0) as [->|Hne]; [split; [exact infinity_ok | reflexivity]|].
  apply mul_loop_refines; [lia | exact Hp | exact infinity_ok|]. unfold BitLen. destruct (Z.eqb_spec (k mod N c) 0); [done|].
  rewrite Z.abs_eq, Z2Nat.id, Z.div_small by (try lia; pose proof (Z.log2_spec (k mod N c) ltac:(lia)); pose proof (Z.log2_nonneg (k mod N c)); replace (Z.log2 (k mod N c) + 1) with (Z.succ (Z.log2 (k mod N c))) by lia; lia).
  reflexivity.
Qed.

Lemma smul_mod n a : aff_ok a -> 0 <= n -> smul (Z.to_nat (n mod N c)) a = smul (Z.to_nat n) a.
Proof.
  intros Ha Hn. pose proof N_gt1. pose proof (Z.mod_pos_bound n (N c) ltac:(lia)). pose proof (Z.div_pos n (N c) Hn ltac:(lia)).
  rewrite (Z.div_mod n (N c)) at 2 by lia. rewrite Z2Nat.inj_add, Z2Nat.inj_mul, (Nat.mul_comm (Z.to_nat (N c))), smul_add, smul_mul, Horder, smul_none by (auto; nia). reflexivity.
Qed.

Lemma zmul_ok k a : aff_ok a -> aff_ok (zmul k a).
Proof. apply smul_ok. Qed.

Lemma zmul_mod j k a : j mod N c = k mod N c -> zmul j a = zmul k a.
Proof. unfold zmul. intros ->. reflexivity. Qed.

Lemma zmul_add j k a : aff_ok a -> zmul (j + k) a = aff_add (zmul j a) (zmul k a).
Proof.
  intros Ha. pose proof N_gt1. pose proof (Z.mod_pos_bound j (N c) ltac:(lia)). pose proof (Z.mod_pos_bound k (N c) ltac:(lia)).
  unfold zmul. rewrite <- smul_add by exact Ha. rewrite <- Z2Nat.inj_add, <- (smul_mod (j mod N c + k mod N c)), <- Zplus_mod by (auto; lia). reflexivity.
Qed.

Lemma zmul_mul j k a : aff_ok a -> zmul (j * k) a = zmul j (zmul k a).
Proof.
  intros Ha. pose proof N_gt1. pose proof (Z.mod_pos_bound j (N c) ltac:(lia)). pose proof (Z.mod_pos_bound k (N c) ltac:(lia)).
  unfold zmul. rewrite <- smul_mul by exact Ha. rewrite <- Z2Nat.inj_mul, <- (smul_mod (j mod N c * (k mod N c))), <- Zmult_mod by (auto; nia). reflexivity.
Qed.

Lemma zmul_1 a : zmul 1 a = a.
Proof. unfold zmul. pose proof N_gt1. rewrite Z.mod_1_l by lia. change (Z.to_nat 1) with 1%nat. cbn [smul]. apply aff_add_0_r. Qed.

Lemma zmul_0 k a : k mod N c = 0 -> zmul k a = None.
Proof. unfold zmul. intros ->. reflexivity. Qed.

Lemma zmul_none k : zmul k None = None.
Proof. apply smul_none. Qed.

Lemma zmul_neg k a : aff_ok a -> zmul (- k) a = aff_neg (zmul k a).
Proof.
  intros Ha. apply (aff_cancel (zmul k a)); auto using zmul_ok, aff_neg_ok. rewrite <- zmul_add, aff_add_neg by auto using zmul_ok. apply zmul_0.
  pose proof N_gt1. replace (k + - k) with 0 by lia. apply Z.mod_0_l. lia.
Qed.

(** A point is its own opposite only when it is infinity. *)
Lemma zmul_inj k a : aff_ok a -> k mod N c <> 0 -> zmul k a = None -> a = None.
Proof.
  intros Ha Hk E. pose proof N_gt1. assert (~ eqm (N c) k 0) as Hk' by (unfold eqm; rewrite Z.mod_0_l by lia; exact Hk).
  destruct (ModInverse_some (N c) HN k Hk') as (i & _ & _ & Hi & _). rewrite <- (zmul_1 a), (zmul_mod 1 (i * k)), zmul_mul, E, zmul_none by (auto; rewrite Z.mul_comm; symmetry; exact Hi). reflexivity.
Qed.

(** ** Square roots *)

Lemma fermat a : ~ a == 0 -> a ^ (P c - 1) == 1.
Proof.
  intros Ha. unfold eqm. pose proof P_gt2. rewrite (Z.mod_1_l (P c)) by lia. apply Z.fermat_nz; [apply prime_alt; exact Hprime | apply mod_nonzero; exact Ha].
Qed.

Lemma sqrtExp_val : 4 * sqrtExp c = P c + 1.
Proof.
  unfold sqrtExp. rewrite Z.shiftr_div_pow2 by lia. change (2 ^ 2) with 4. pose proof (Z.div_mod (P c) 4 ltac:(lia)) as E. rewrite Hodd in E. rewrite E at 1.
  replace (4 * (P c / 4) + 3 + 1) with ((P c / 4 + 1) * 4) by lia. rewrite Z.div_mul by lia. lia.
Qed.

(** The exponent [sqrtExp] yields one of the two square roots of a square. *)
Lemma sqrt_of_square y : ~ y == 0 -> let r := Exp ((y * y) mod P c) (sqrtExp c) (P c) in 0 <= r < P c /\ (r == y \/ r == - y).
Proof.
  intros Hy r. pose proof sqrtExp_val as He. pose proof P_gt2. assert (r = (y * y) ^ sqrtExp c mod P c) as Er.
  { unfold r. rewrite Exp_value by lia. apply Z.mod_pow_l. }
  split; [rewrite Er; apply mod_range|]. assert ((r - y) * (r + y) == 0) as E.
  { transitivity (r * r - y * y); [ring|]. apply (eqm_sub _ Hprime). rewrite Er, !mod_eqm.
    rewrite <- Z.pow_add_r, <- Z.pow_2_r, <- Z.pow_mul_r by lia. replace (2 * (sqrtExp c + sqrtExp c)) with (2 + (P c - 1)) by lia.
    rewrite Z.pow_add_r, fermat by (lia || exact Hy). rewrite Z.pow_2_r. ring. }
  destruct (eqm_integral (P c) Hprime _ _ E) as [E1|E1]; [left | right]; apply (eqm_sub _ Hprime); rewrite <- E1; ring.
Qed.

Lemma odd_complement y : odd (P c - y) = negb (odd y).
Proof.
  unfold odd. rewrite !Z.bit0_odd, Z.odd_sub. replace (Z.odd (P c)) with true; [destruct (Z.odd y); reflexivity|].
  rewrite (Z.div_mod (P c) 4), Hodd by lia. replace (4 * (P c / 4) + 3) with (1 + 2 * (2 * (P c / 4) + 1)) by lia. symmetry. apply Z.odd_add_mul_2.
Qed.

Lemma alpha_val x y : on_curve x y -> (x * x mod P c * x + B c) mod P c = (y * y) mod P c.
Proof. intros H. change (x * x mod P c * x + B c == y * y). rewrite mod_eqm. symmetry. exact H. Qed.

(** A point of the curve is found again from its abscissa and the parity of its ordinate. *)
Lemma decompress_point x y : aff_ok (Some (x, y)) -> y <> 0 -> decompressY c x (odd y) = Some y.
Proof.
  intros (Hx & Hy & Hc) Hy0. pose proof (nonzero_small y Hy Hy0) as Hyz. destruct (sqrt_of_square y Hyz) as [Hr Hcase]. unfold decompressY.
  replace ((x <? 0) || (P c <=? x)) with false by (symmetry; apply orb_false_iff; split; [apply Z.ltb_ge | apply Z.leb_gt]; lia).
  rewrite (alpha_val x y Hc). set (r := Exp _ _ _) in *. cbv zeta.
  assert (r * r mod P c = y * y mod P c) as ->. { change (r * r == y * y). destruct Hcase as [E|E]; rewrite E; ring. }
  rewrite Z.eqb_refl. cbn [negb]. f_equal. destruct Hcase as [E|E].
  - apply (eqm_small (P c)) in E as ->; [|exact Hr|exact Hy]. rewrite eqb_reflx. reflexivity.
  - assert (r = P c - y) as ->. { apply (eqm_small (P c)); [exact Hr | lia|]. rewrite E. unfold eqm. rewrite <- (Z_mod_plus_full (- y) 1). f_equal. lia. }
    rewrite odd_complement. destruct (odd y); cbn; lia.
Qed.

(** What [decompressY] answers is on the curve and has the parity asked for. *)
Lemma decompress_sound x b y : decompressY c x b = Some y -> 0 <= x < P c /\ on_curve x y /\ 0 <= y <= P c /\ (y < P c -> y <> 0 -> odd y = b).
Proof.
  unfold decompressY. destruct ((x <? 0) || (P c <=? x)) eqn:Ex; [discriminate|]. apply orb_false_iff in Ex as [E1 E2]. apply Z.ltb_ge in E1. apply Z.leb_gt in E2.
  set (alpha := (x * x mod P c * x + B c) mod P c). pose proof sqrtExp_val. pose proof P_gt2. assert (0 <= Exp alpha (sqrtExp c) (P c) < P c) as Hr by (rewrite Exp_value by lia; apply mod_range).
  set (r := Exp _ _ _) in *. destruct (Z.eqb_spec (r * r mod P c) alpha) as [E|]; [|discriminate]. cbn [negb]. intros [= <-]. split; [lia|].
  assert (on_curve x r) as Hc. { unfold on_curve. transitivity (r * r mod P c); [symmetry; apply mod_eqm|]. rewrite E. unfold alpha. rewrite !mod_eqm. reflexivity. }
  destruct (Bool.eqb (odd r) b) eqn:Eb; cbn [negb].
  - apply eqb_prop in Eb. auto with lia.
  - rewrite odd_complement. split; [|split; [lia|intros; destruct (odd r), b; done]]. unfold on_curve in *. rewrite <- Hc.
    unfold eqm. replace ((P c - r) * (P c - r)) with (r * r + (P c - 2 * r) * P c) by lia. apply Z_mod_plus_full.
Qed.

End Points.
End SecpFacts.
