(* ===== verification/EcdsaFacts.v ===== *)
(** ECDSA on a curve of prime order (src/crypto/secp256k1/ecdsa.go): what [Sign]
    makes is accepted by [Verify] and gives [Recover] the public key back, [Verify]
    decides the equation of the standard, the encodings of keys are read back, and
    [ECDH] agrees on both sides.  The facts of arithmetic geometry they rest on are
    the class [CurveLaws]; the curve [y^2 = x^3 + 7] over the field with 43 elements
    satisfies it, by enumeration. *)

From Stdlib Require Import String.
From stdpp Require Import base list.
From Stdlib Require Import ZArith Lia Znumtheory Setoid Morphisms.
From S2P Require Import Prelude Common Secp256k1 Secp256k1Facts Registry Precompiles Transaction.
Local Open Scope Z_scope.
Local Open Scope go_scope.

Import BigInt BigIntFacts Secp Fp SecpFacts.

(** What is known of the curve: the field and the order are prime, the order is odd
    and more than half of the field, the chord and tangent law is associative, and
    the order annihilates every point. *)
Class CurveLaws (c : Curve) : Prop := {
  law_field : prime (P c);
  law_field_mod : P c mod 4 = 3;
  law_order : prime (N c);
  law_order_odd : 2 < N c;
  law_hasse : P c < 2 * N c;
  law_generator : aff_ok c (Some (Gx c, Gy c));
  law_assoc : forall a b d, aff_ok c a -> aff_ok c b -> aff_ok c d -> aff_add c a (aff_add c b d) = aff_add c (aff_add c a b) d;
  law_annihilates : forall a, aff_ok c a -> smul c (Z.to_nat (N c)) a = None
}.

Module Ecdsa.

Section Laws.
Context (c : Curve) {L : CurveLaws c}.

#[local] Existing Instances eqm_setoid Zplus_eqm Zminus_eqm Zmult_eqm Zopp_eqm.
Abbreviation G := (Some (Gx c, Gy c)).
Local Infix "==" := (eqm (N c)) (at level 70).

Lemma order_gt1 : 1 < N c.
Proof. pose proof law_order_odd. lia. Qed.

Lemma generator_ok : jac_ok c (Generator c) /\ Affine c (Generator c) = G.
Proof. apply (NewPoint_ok c law_field law_field_mod), law_generator. Qed.

Lemma base_mul k : jac_ok c (ScalarBaseMul c k) /\ Affine c (ScalarBaseMul c k) = zmul c k G.
Proof. destruct generator_ok as [Hok E]. rewrite <- E. apply ScalarMul_refines; auto using law_field, law_field_mod, law_order, law_assoc, law_annihilates. Qed.

Lemma mul_point x y k : aff_ok c (Some (x, y)) -> jac_ok c (ScalarMul c (NewPoint x y) k) /\ Affine c (ScalarMul c (NewPoint x y) k) = zmul c k (Some (x, y)).
Proof. intros H. destruct (NewPoint_ok c law_field law_field_mod x y H) as [Hok E]. rewrite <- E. apply ScalarMul_refines; auto using law_field, law_field_mod, law_order, law_assoc, law_annihilates. Qed.

#[local] Hint Resolve law_field law_field_mod law_order law_assoc law_annihilates law_generator zmul_ok aff_neg_ok : curve.

Lemma g_add j k a : aff_ok c a -> zmul c (j + k) a = aff_add c (zmul c j a) (zmul c k a).
Proof. intros Ha. apply zmul_add; auto with curve. Qed.

Lemma g_mul j k a : aff_ok c a -> zmul c j (zmul c k a) = zmul c (j * k) a.
Proof. intros Ha. symmetry. apply zmul_mul; auto with curve. Qed.

Lemma g_dist k a b : aff_ok c a -> aff_ok c b -> zmul c k (aff_add c a b) = aff_add c (zmul c k a) (zmul c k b).
Proof. intros Ha Hb. apply smul_dist; auto with curve. Qed.

Lemma g_mod j k a : j == k -> zmul c j a = zmul c k a.
Proof. apply zmul_mod. Qed.

Lemma g_assoc a b d : aff_ok c a -> aff_ok c b -> aff_ok c d -> aff_add c a (aff_add c b d) = aff_add c (aff_add c a b) d.
Proof. apply law_assoc. Qed.

Lemma g_comm a b : aff_ok c a -> aff_ok c b -> aff_add c a b = aff_add c b a.
Proof. apply aff_add_comm; auto with curve. Qed.

Lemma g_neg k a : aff_ok c a -> zmul c (- k) a = aff_neg c (zmul c k a).
Proof. intros Ha. apply zmul_neg; auto with curve. Qed.

Lemma g_1 a : zmul c 1 a = a.
Proof. apply zmul_1. auto with curve. Qed.

Lemma base_ok k : aff_ok c (zmul c k G).
Proof. auto with curve. Qed.

(** No point has order two, so no ordinate is zero. *)
Lemma ordinate_nonzero x y : aff_ok c (Some (x, y)) -> 0 < y < P c.
Proof.
  intros Ha. destruct (Z.eq_dec y 0) as [->|]; [exfalso | destruct Ha as (_ & ? & _); lia]. pose proof law_order_odd. pose proof (p_gt1 _ law_field).
  enough (Some (x, 0) = None) by done. apply (zmul_inj c law_field law_field_mod law_assoc law_order law_annihilates 2 _ Ha); [rewrite Z.mod_small; lia|].
  change 2 with (1 + 1). rewrite g_add, g_1 by exact Ha. cbn [aff_add]. rewrite Z.eqb_refl, Z.add_0_l, Z.mod_0_l by lia. reflexivity.
Qed.

Lemma neg_point x y : aff_ok c (Some (x, y)) -> aff_neg c (Some (x, y)) = Some (x, P c - y).
Proof. intros Ha. pose proof (ordinate_nonzero x y Ha). cbn [aff_neg]. do 2 f_equal. rewrite Z.mod_opp_l_nz, Z.mod_small by (try rewrite Z.mod_small; lia). reflexivity. Qed.

Lemma find_point x y : aff_ok c (Some (x, y)) -> decompressY c x (odd y) = Some y.
Proof. intros Ha. pose proof (ordinate_nonzero x y Ha). apply decompress_point; auto with curve. lia. Qed.

Lemma found_point x b y : decompressY c x b = Some y -> aff_ok c (Some (x, y)) /\ odd y = b.
Proof.
  intros E. destruct (decompress_sound c law_field law_field_mod x b y E) as (Hx & Hc & Hy & Hb). pose proof (p_gt1 _ law_field) as H1.
  destruct (Z.eq_dec y (P c)) as [->|Hne].
  - destruct (ordinate_nonzero x 0) as [? _]; [|lia]. split; [exact Hx|]. split; [lia|]. unfold on_curve, eqm in *. rewrite <- Hc, Z_mod_mult, Z.mod_0_l by lia. reflexivity.
  - assert (aff_ok c (Some (x, y))) as Ha by (split; [exact Hx | split; [lia | exact Hc]]). pose proof (ordinate_nonzero x y Ha). split; [exact Ha | apply Hb; lia].
Qed.

Lemma halfN_val : 2 * halfN c < N c < 2 * halfN c + 2.
Proof.
  unfold halfN. rewrite Z.shiftr_div_pow2 by lia. change (2 ^ 1) with 2. pose proof (Z.div_mod (N c) 2 ltac:(lia)). pose proof (Z.mod_pos_bound (N c) 2 ltac:(lia)).
  destruct (Z.eq_dec (N c mod 2) 0) as [E|]; [|lia]. pose proof law_order_odd. apply Zmod_divide in E; [|lia]. destruct (prime_divisors _ law_order 2 E) as [?|[?|[?|?]]]; lia.
Qed.

Lemma inverse a i : ModInverse a (N c) = Some i -> a * i == 1.
Proof. intros E. pose proof order_gt1. pose proof (ModInverse_spec a (N c) ltac:(lia)) as Hi. rewrite E in Hi. unfold eqm. rewrite (Z.mod_1_l (N c)) by lia. apply Hi. Qed.

Lemma invertible a : 0 < a < N c -> exists i, ModInverse a (N c) = Some i /\ a * i == 1.
Proof.
  intros Ha. destruct (ModInverse_some (N c) law_order a) as (i & E & _ & Hi & _); [|exists i; auto]. unfold eqm. rewrite Z.mod_0_l, Z.mod_small; lia.
Qed.

(** The signature [sig] was made with the nonce [k], whose multiple of the generator is [(px, py)]. *)
Definition made_with (d z : Z) (sig : Signature) (k px py : Z) : Prop :=
  aff_ok c (Some (px, py)) /\ zmul c k G = Some (px, py) /\ R sig = px mod N c /\ 0 < R sig /\
  V sig = Z.lor (if odd py then 1 else 0) (if N c <=? px then 2 else 0) /\ 0 < S sig <= halfN c /\ k * S sig == R sig * d + z.

Lemma sign_with_spec d z k sig : sign_with c d z k = Some sig -> exists k' px py, made_with d z sig k' px py.
Proof.
  unfold sign_with. destruct ((k =? 0) || (N c <=? k)); [discriminate|]. destruct (base_mul k) as [_ ->]. pose proof (base_ok k) as Hok. destruct (zmul c k G) as [[px py]|] eqn:Ek; [|discriminate]. cbn.
  pose proof order_gt1. pose proof (Z.mod_pos_bound px (N c) ltac:(lia)). destruct (Z.eqb_spec (px mod N c) 0); [discriminate|]. destruct (ModInverse k (N c)) as [i|] eqn:Ei; [|discriminate]. cbn.
  apply inverse in Ei. set (s := (px mod N c * d + z) * i mod N c). pose proof (Z.mod_pos_bound ((px mod N c * d + z) * i) (N c) ltac:(lia)) as Hs. fold s in Hs.
  assert (k * s == px mod N c * d + z) as Es. { unfold s. rewrite (Zmod_eqm (N c) (_ * i)). transitivity ((k * i) * (px mod N c * d + z)); [unfold eqm; f_equal; ring|]. rewrite Ei. unfold eqm; f_equal; ring. }
  pose proof halfN_val. destruct (Z.eqb_spec s 0); [discriminate|]. intros [= <-]. destruct (Z.ltb_spec (halfN c) s).
  - exists (- k), px, (P c - py). unfold made_with. cbn [R S V]. rewrite g_neg, Ek, neg_point, odd_complement by (exact Hok || auto with curve).
    split; [rewrite <- neg_point by exact Hok; auto with curve|]. do 4 (split; [reflexivity || lia|]). split; [lia|].
    rewrite <- Es. unfold eqm. replace (- k * (N c - s)) with (k * s + (- k) * N c) by ring. apply Z_mod_plus_full.
  - exists k, px, py. unfold made_with. cbn [R S V]. rewrite Ek. do 5 (split; [exact Hok || reflexivity || lia|]). split; [lia | exact Es].
Qed.

Section Hashes.
Context `{K : Keccak}.

Lemma sign_loop_spec d z hash sig n : forall counter, sign_loop c n d z hash counter = Some sig -> exists k px py, made_with d z sig k px py.
Proof.
  induction n as [|n IH]; intros counter; cbn [sign_loop]; [discriminate|]. destruct (nonce d hash counter) as [k|]; [|discriminate]. cbn.
  destruct (sign_with c d z k) eqn:E; [|apply IH]. intros [= ->]. apply sign_with_spec with k. exact E.
Qed.

Lemma sign_spec d hash sig : Sign c d hash = Some sig -> len hash = 32 /\ exists k px py, made_with d (hashToInt c hash) sig k px py.
Proof.
  unfold Sign. destruct (Z.eqb_spec (len hash) 32); [|discriminate]. cbn [negb]. destruct ((d =? 0) || (N c <=? d)); [discriminate|]. intros E. split; [assumption | exact (sign_loop_spec _ _ _ _ _ _ E)].
Qed.

Lemma recover_bits r s x y : aff_ok c (Some (x, y)) -> x mod N c = r -> let sig := mkSig r s (Z.lor (if odd y then 1 else 0) (if N c <=? x then 2 else 0)) in
  0 <= V sig < 4 /\ recover_x c sig = Some x /\ odd y = (Z.land (V sig) 1 =? 1).
Proof.
  intros Hok <- sig. subst sig. pose proof law_hasse. pose proof order_gt1. pose proof Hok as (Hpx & _). unfold recover_x. cbn [R S V].
  destruct (Z.leb_spec (N c) x).
  - assert (x mod N c = x - N c) as -> by (symmetry; apply Z.mod_unique with 1; lia). replace (x - N c + N c) with x by lia. replace (P c <=? x) with false by (symmetry; apply Z.leb_gt; lia).
    destruct (odd y); (split; [split; [easy | reflexivity] | split; reflexivity]).
  - rewrite Z.mod_small by lia. destruct (odd y); (split; [split; [easy | reflexivity] | split; reflexivity]).
Qed.

(** The recovery id leads back to the point the signature was made with. *)
Lemma recover_id d z sig k px py : made_with d z sig k px py -> 0 <= V sig < 4 /\ recover_x c sig = Some px /\ odd py = (Z.land (V sig) 1 =? 1).
Proof. destruct sig as [r s v]. intros (Hok & _ & HR & _ & HV & _). cbn [R S V] in *. rewrite HV. apply recover_bits; auto. Qed.

Lemma recover_x_mod sig x : recover_x c sig = Some x -> 0 < R sig < N c -> x mod N c = R sig.
Proof.
  unfold recover_x. intros E HR. destruct (negb _); [destruct (P c <=? R sig + N c); [discriminate|]|]; injection E as <-; [|apply Z.mod_small; lia].
  replace (R sig + N c) with (R sig + 1 * N c) by lia. rewrite Z_mod_plus_full. apply Z.mod_small. lia.
Qed.

Lemma private_key_range b d : bytes_ok b -> PrivateKeyFromBytes c b = Some d -> 0 < d < N c.
Proof.
  intros Hb. unfold PrivateKeyFromBytes. destruct (negb _); [discriminate|]. pose proof (be_val_bounds b Hb). destruct (Z.eqb_spec (be_val b) 0); [discriminate|].
  cbn [orb]. destruct (Z.leb_spec (N c) (be_val b)); [discriminate|]. intros [= <-]. lia.
Qed.

(** The equation of ECDSA: [s R = z G + r Q]. *)
Definition equation (z : Z) (sig : Signature) (Rp Q : option (Z * Z)) : Prop := zmul c (S sig) Rp = aff_add c (zmul c z G) (zmul c (R sig) Q).

Ltac side := solve [auto using aff_add_ok with curve | assumption | rewrite Z.mul_comm; assumption].

(** Solved for [R], as [Verify] does. *)
Lemma equation_R z sig Rp Q i : aff_ok c Rp -> aff_ok c Q -> S sig * i == 1 ->
  equation z sig Rp Q <-> Rp = aff_add c (zmul c (z * i mod N c) G) (zmul c (R sig * i mod N c) Q).
Proof.
  intros HR HQ Hi. rewrite (g_mod (z * i mod N c) (i * z)), (g_mod (R sig * i mod N c) (i * R sig)) by (rewrite Z.mul_comm; apply Zmod_eqm).
  rewrite <- !g_mul, <- g_dist by auto with curve. unfold equation. split; intros E.
  - rewrite <- E, g_mul, (g_mod _ 1), g_1 by side. reflexivity.
  - rewrite E at 1. rewrite g_mul, (g_mod _ 1), g_1 by side. reflexivity.
Qed.

(** Solved for [Q], as [Recover] does. *)
Lemma equation_Q z sig Rp Q i : aff_ok c Rp -> aff_ok c Q -> R sig * i == 1 ->
  equation z sig Rp Q <-> Q = aff_add c (zmul c (i * S sig mod N c) Rp) (zmul c (- z * i mod N c) G).
Proof.
  intros HR HQ Hi. rewrite (g_mod (i * S sig mod N c) (i * S sig)), (g_mod (- z * i mod N c) (i * - z)) by (rewrite ?(Z.mul_comm (- z)); apply Zmod_eqm).
  rewrite <- !g_mul, <- g_dist by auto with curve. unfold equation. assert (aff_add c (zmul c z G) (zmul c (- z) G) = None) as E0.
  { rewrite <- g_add, Z.add_opp_diag_r by auto with curve. apply zmul_0, Z.mod_0_l. pose proof order_gt1. lia. }
  split; intros E.
  - rewrite E, (g_comm (zmul c z G)), <- g_assoc, E0, aff_add_0_r, g_mul, (g_mod _ 1), g_1 by side. reflexivity.
  - rewrite E at 1. rewrite g_mul, (g_mod (R sig * i) 1), g_1 by side.
    rewrite (g_comm (zmul c (S sig) Rp)), g_assoc, E0 by auto with curve. reflexivity.
Qed.

Lemma on_curve_spec x y : 0 <= x < P c -> 0 <= y < P c -> OnCurve c (NewPoint x y) = true <-> aff_ok c (Some (x, y)).
Proof.
  intros Hx Hy. pose proof (p_gt1 _ law_field) as H1. unfold OnCurve. assert (Affine c (NewPoint x y) = Some (x, y)) as ->.
  { apply Affine_at; auto with curve; cbn; [lia | split; unfold eqm; cbn; f_equal; ring]. }
  replace ((x <? 0) || (P c <=? x) || (y <? 0) || (P c <=? y)) with false by (symmetry; rewrite !orb_false_iff, !Z.ltb_ge, !Z.leb_gt; lia).
  rewrite Z.eqb_eq. cbn [aff_ok]. unfold on_curve, eqm. rewrite (Zplus_mod (x * x mod P c * x)), Zmult_mod_idemp_l, <- Zplus_mod. tauto.
Qed.

(** [Verify] decides the equation of ECDSA, for signatures in canonical form. *)
Lemma verify_decides qx qy hash sig : 0 <= qx < P c -> 0 <= qy < P c ->
  Verify c (qx, qy) hash sig = true <->
    len hash = 32 /\ 0 < R sig < N c /\ 0 < S sig <= halfN c /\ aff_ok c (Some (qx, qy)) /\
    exists x y, aff_ok c (Some (x, y)) /\ x mod N c = R sig /\ equation (hashToInt c hash) sig (Some (x, y)) (Some (qx, qy)).
Proof.
  intros Hx Hy. pose proof (on_curve_spec qx qy Hx Hy) as Hon. pose proof halfN_val. unfold Verify. destruct (Z.eqb_spec (len hash) 32); cbn [negb]; [|split; [done | tauto]].
  destruct ((R sig <=? 0) || (S sig <=? 0) || (N c <=? R sig) || (N c <=? S sig)) eqn:Er; [split; [done | intros (_ & ? & ? & _); rewrite !orb_true_iff, !Z.leb_le in Er; lia]|].
  rewrite !orb_false_iff, !Z.leb_gt in Er. destruct (Z.ltb_spec (halfN c) (S sig)); [split; [done | lia]|]. unfold PublicPoint. cbn [fst snd].
  destruct (OnCurve c (NewPoint qx qy)); [|split; [done | intros (_ & _ & _ & H' & _); apply Hon in H'; done]]. cbn [negb orb IsInfinity NewPoint Zc Z.eqb]. pose proof (proj1 Hon eq_refl) as HQ.
  destruct (invertible (S sig) ltac:(lia)) as (i & -> & Hi). destruct (base_mul (hashToInt c hash * i mod N c)) as [J1 E1]. destruct (mul_point qx qy (R sig * i mod N c) HQ) as [J2 E2].
  destruct (Add_refines c law_field law_field_mod _ _ J1 J2) as [J3 E3]. apply Affine_ok in J3; auto with curve. rewrite E1, E2 in E3. rewrite E3 in *.
  split.
  - destruct (aff_add _ _ _) as [[x y]|] eqn:E; [|done]. intros HR. apply Z.eqb_eq in HR. repeat split; try lia; try apply HQ. exists x, y. split; [exact J3|]. split; [exact HR|]. apply (equation_R _ _ _ _ i); auto.
  - intros (_ & _ & _ & _ & x & y & Hxy & HR & E). apply (equation_R _ _ _ _ i) in E; auto. rewrite <- E. apply Z.eqb_eq. exact HR.
Qed.

(** [Recover] finds the key for which the signature and its recovery id satisfy the equation. *)
Lemma recover_decides hash sig pk : Recover c hash sig = Some pk <->
    len hash = 32 /\ V sig <= 3 /\ 0 < R sig < N c /\ 0 < S sig < N c /\ aff_ok c (Some pk) /\
    exists x y, recover_x c sig = Some x /\ odd y = (Z.land (V sig) 1 =? 1) /\ aff_ok c (Some (x, y)) /\ equation (hashToInt c hash) sig (Some (x, y)) (Some pk).
Proof.
  unfold Recover. destruct (Z.eqb_spec (len hash) 32); cbn [negb]; [|split; [done | tauto]]. destruct (Z.ltb_spec 3 (V sig)); [split; [done | lia]|].
  destruct ((R sig <=? 0) || (S sig <=? 0) || (N c <=? R sig) || (N c <=? S sig)) eqn:Er; [split; [done | intros (_ & _ & ? & ? & _); rewrite !orb_true_iff, !Z.leb_le in Er; lia]|].
  rewrite !orb_false_iff, !Z.leb_gt in Er. destruct (recover_x c sig) as [x|] eqn:Ex; cbn; [|split; [done | intros (_ & _ & _ & _ & _ & ? & ? & ? & _); done]].
  destruct (invertible (R sig) ltac:(lia)) as (i & -> & Hi). cbn. assert (forall y, aff_ok c (Some (x, y)) -> forall a, aff_ok c a ->
    (Affine c (Add c (ScalarMul c (NewPoint x y) (i * S sig mod N c)) (ScalarBaseMul c (- hashToInt c hash * i mod N c))) = a <-> equation (hashToInt c hash) sig (Some (x, y)) a)) as Heq.
  { intros y Hy a Ha. destruct (mul_point x y (i * S sig mod N c) Hy) as [J1 E1]. destruct (base_mul (- hashToInt c hash * i mod N c)) as [J2 E2].
    destruct (Add_refines c law_field law_field_mod _ _ J1 J2) as [_ ->]. rewrite E1, E2, (equation_Q _ _ _ _ i) by auto. split; congruence. }
  split.
  - destruct (decompressY c x _) as [y|] eqn:Ey; [|done]. cbn. apply found_point in Ey as [Hy Ho]. intros E. assert (aff_ok c (Some pk)) as Hpk.
    { rewrite <- E. destruct (mul_point x y (i * S sig mod N c) Hy) as [J1 _]. destruct (base_mul (- hashToInt c hash * i mod N c)) as [J2 _].
      apply Affine_ok; [..|apply Add_refines]; auto with curve. }
    repeat (split; [solve [lia | exact Hpk]|]). exists x, y. repeat (split; [done|]). apply (Heq y); auto.
  - intros (_ & _ & _ & _ & Hpk & x' & y & [= <-] & Ho & Hy & E). rewrite <- Ho, find_point by exact Hy. cbn. apply (Heq y); auto.
Qed.

Lemma public_key d : 0 < d < N c -> exists pk, PublicKey c d = Some pk /\ zmul c d G = Some pk /\ aff_ok c (Some pk).
Proof.
  intros Hd. unfold PublicKey. destruct (base_mul d) as [_ ->]. pose proof (base_ok d) as Hok. destruct (zmul c d G) as [pk|] eqn:E; [exists pk; auto|].
  apply (zmul_inj c law_field law_field_mod law_assoc law_order law_annihilates) in E; [done | auto with curve | rewrite Z.mod_small; lia].
Qed.

(** A signature satisfies the equation for the public key of its signer. *)
Lemma made_equation d z sig k px py : made_with d z sig k px py -> equation z sig (Some (px, py)) (zmul c d G).
Proof.
  intros (Hok & Ek & _ & _ & _ & _ & E). unfold equation. rewrite <- Ek, !g_mul, <- g_add by auto with curve. apply g_mod. rewrite Z.mul_comm, Z.add_comm. exact E.
Qed.

Lemma signed_recovers d hash sig : 0 < d < N c -> Sign c d hash = Some sig -> exists pk, PublicKey c d = Some pk /\ Recover c hash sig = Some pk /\ Verify c pk hash sig = true.
Proof.
  intros Hd Hs. destruct (public_key d Hd) as (pk & Epk & Ez & Hok). exists pk. split; [exact Epk|].
  apply sign_spec in Hs as (Hl & k & px & py & Hm). pose proof (made_equation _ _ _ _ _ _ Hm) as Heq. rewrite Ez in Heq. pose proof (recover_id _ _ _ _ _ _ Hm) as (HV & Hx & Ho).
  destruct Hm as (Hp & _ & HR & HR0 & _ & HS & _). pose proof halfN_val. pose proof order_gt1. pose proof (Z.mod_pos_bound px (N c) ltac:(lia)). destruct pk as [qx qy]. split.
  - apply recover_decides. repeat (split; [solve [lia | exact Hok]|]). exists px, py. auto.
  - apply verify_decides; [apply Hok..|]. repeat (split; [solve [lia | exact Hok]|]). exists px, py. auto.
Qed.

(** C24: Signatures are complete.  On a curve with the laws above, for every private
    key [PrivateKeyFromBytes] accepts, the public key exists ([PublicKey] does not
    panic), and what [Sign] returns for a hash makes [Recover] return that public key
    and [Verify] accept under it; the low-s negation and the recovery id of abscissas
    beyond the group order included. *)
Theorem sign_recover_verify b d hash sig : bytes_ok b -> PrivateKeyFromBytes c b = Some d -> Sign c d hash = Some sig ->
  exists pk, PublicKey c d = Some pk /\ Recover c hash sig = Some pk /\ Verify c pk hash sig = true.
Proof. intros Hb Hd. apply signed_recovers, (private_key_range b); assumption. Qed.

(** C32: Verification and recovery decide the same thing.  A signature in canonical
    form verifies under a public key exactly when one of the four recovery ids makes
    [Recover] return that key. *)
Theorem verify_iff_recover qx qy hash r s v0 : 0 <= qx < P c -> 0 <= qy < P c ->
  Verify c (qx, qy) hash (mkSig r s v0) = true <-> IsLowS c s = true /\ exists v, 0 <= v <= 3 /\ Recover c hash (mkSig r s v) = Some (qx, qy).
Proof.
  intros Hx Hy. pose proof halfN_val. pose proof law_hasse. pose proof order_gt1. unfold IsLowS. rewrite andb_true_iff, Z.ltb_lt, Z.leb_le. split.
  - intros Hv. apply verify_decides in Hv as (Hl & HR & HS & HQ & x & y & Hxy & Ex & E); [|exact Hx|exact Hy]. cbn [R S V] in *.
    split; [lia|]. exists (Z.lor (if odd y then 1 else 0) (if N c <=? x then 2 else 0)). destruct (recover_bits r s x y Hxy Ex) as (HV & Ex' & Eo). cbn [V] in HV, Eo. split; [lia|].
    apply recover_decides. cbn [R S V]. repeat (split; [solve [lia | exact HQ]|]). exists x, y. auto.
  - intros [HS (v & Hv & E)]. apply recover_decides in E as (Hl & _ & HR & HS' & HQ & x & y & Ex & _ & Hxy & E). cbn [R S V] in *.
    apply verify_decides; [exact Hx | exact Hy|]. cbn [R S V]. repeat (split; [solve [lia | exact HQ]|]). exists x, y. split; [exact Hxy|]. split; [|exact E].
    apply recover_x_mod in Ex; [exact Ex | exact HR].
Qed.

End Hashes.

(** ** Encodings of keys *)

Lemma fill_coordinate v : P c <= 256 ^ 32 -> 0 <= v < P c -> exists e, FillBytes 32 v = Some e /\ length e = 32%nat /\ be_val e = v.
Proof.
  intros HP Hv. exists (be_bytes 32 v). unfold FillBytes. change (Z.of_nat 32) with 32. rewrite be_val_be_bytes, Z.abs_eq, Z.mod_small by (try change (Z.of_nat 32) with 32; lia).
  destruct (Z.ltb_spec v (256 ^ 32)); [auto using length_be_bytes | lia].
Qed.

(** The three encodings of a public key are read back.  When the field fits 32
    bytes, [Bytes], [SEC1Uncompressed] and [SEC1Compressed] do not panic on the public
    key of a private key, and [ParsePublicKey] returns that key from each of them; the
    compressed form through the square root and the parity of the ordinate. *)
Theorem public_key_roundtrip b d : P c <= 256 ^ 32 -> bytes_ok b -> PrivateKeyFromBytes c b = Some d ->
  exists pk e1 e2 e3, PublicKey c d = Some pk /\ PublicBytes pk = Some e1 /\ SEC1Uncompressed pk = Some e2 /\ SEC1Compressed pk = Some e3 /\
    ParsePublicKey c e1 = Some pk /\ ParsePublicKey c e2 = Some pk /\ ParsePublicKey c e3 = Some pk.
Proof.
  intros HP Hb Hd. apply private_key_range in Hd; [|exact Hb]. destruct (public_key d Hd) as ([x y] & Epk & _ & Hok). pose proof Hok as (Hx & Hy & _).
  destruct (fill_coordinate x HP Hx) as (bx & Fx & Lx & Vx). destruct (fill_coordinate y HP Hy) as (by' & Fy & Ly & Vy). pose proof (proj2 (on_curve_spec x y Hx Hy) Hok) as Hon.
  assert (parse_pair c (bx ++ by') = Some (x, y)) as Hpair.
  { unfold parse_pair. rewrite take_app_length', drop_app_length' by auto. rewrite Vx, Vy. unfold PublicPoint. cbn [fst snd]. rewrite Hon. reflexivity. }
  exists (x, y), (bx ++ by'), (4 :: bx ++ by'), ((if odd y then 3 else 2) :: bx). split; [exact Epk|].
  unfold SEC1Uncompressed, SEC1Compressed, PublicBytes. cbn [fst snd]. rewrite Fx, Fy. cbn [obind]. do 3 (split; [reflexivity|]). unfold ParsePublicKey, len. cbn [length]. rewrite !length_app, Lx, Ly.
  pose proof (find_point x y Hok) as Hf. split; [exact Hpair|]. split; [exact Hpair|]. destruct (odd y); cbn -[be_val]; rewrite drop_0, Vx, Hf; reflexivity.
Qed.

Lemma own_point d : 0 < d < N c -> forall k, exists pk, PublicKey c d = Some pk /\ aff_ok c (Some pk) /\ OnCurve c (PublicPoint pk) = true /\
  Affine c (ScalarMul c (PublicPoint pk) k) = zmul c (k * d) G.
Proof.
  intros Hd k. destruct (public_key d Hd) as ([x y] & Epk & Ez & Hok). exists (x, y). split; [exact Epk|]. split; [exact Hok|]. split; [apply on_curve_spec; auto; apply Hok|].
  unfold PublicPoint. cbn [fst snd]. destruct (mul_point x y k Hok) as [_ ->]. rewrite <- Ez, g_mul by auto with curve. reflexivity.
Qed.

Lemma on_curve_jac p : jac_ok c p -> OnCurve c p = true.
Proof.
  intros Hp. pose proof (Affine_ok c law_field law_field_mod p Hp) as Ha. destruct (Affine c p) as [[x y]|] eqn:E; [|unfold OnCurve; rewrite E; reflexivity].
  pose proof Ha as (Hx & Hy & _). rewrite <- (proj2 (on_curve_spec x y Hx Hy) Ha). unfold OnCurve. rewrite E. destruct (NewPoint_ok c law_field law_field_mod x y Ha) as [_ ->]. reflexivity.
Qed.

(** Points stay well formed.  A point whose coordinates are reduced and satisfy the
    equation of the curve keeps being one under [Add], [Double], [Neg] and
    [ScalarMul], the generator and infinity are such points, and so is every public
    key that has reduced coordinates and that [OnCurve] accepts; [OnCurve] accepts
    all of them. *)
Theorem points_well_formed p q k x y : jac_ok c p -> jac_ok c q -> 0 <= x < P c -> 0 <= y < P c -> OnCurve c (PublicPoint (x, y)) = true ->
  Forall (fun r => jac_ok c r /\ OnCurve c r = true) [Infinity; Generator c; PublicPoint (x, y); Double c p; Add c p q; Neg c p; ScalarMul c p k; ScalarBaseMul c k].
Proof.
  intros Hp Hq Hx Hy Hon. apply on_curve_spec in Hon; [|exact Hx|exact Hy].
  assert (forall r, jac_ok c r -> jac_ok c r /\ OnCurve c r = true) as H by (intros r Hr; split; [exact Hr | apply on_curve_jac; exact Hr]).
  repeat (apply Forall_cons_2; [apply H|]); [..|apply Forall_nil_2].
  - apply infinity_ok; auto with curve.
  - apply generator_ok.
  - apply NewPoint_ok; auto with curve.
  - apply Double_refines; auto with curve.
  - apply Add_refines; auto with curve.
  - apply Neg_refines; auto with curve.
  - apply ScalarMul_refines; auto with curve.
  - apply base_mul.
Qed.

(** C33: The Jacobian formulas implement the group of the curve.  Read as affine points,
    [Double] and [Add] compute the chord and tangent law, in every case (infinity,
    equal points, opposite points), [Neg] the reflection, and the double-and-add loop
    of [ScalarMul] the sum of [k mod N] copies of the point. *)
Theorem jacobian_refines p q k : jac_ok c p -> jac_ok c q ->
  Affine c (Double c p) = aff_add c (Affine c p) (Affine c p) /\ Affine c (Add c p q) = aff_add c (Affine c p) (Affine c q) /\
  Affine c (Neg c p) = aff_neg c (Affine c p) /\ Affine c (ScalarMul c p k) = smul c (Z.to_nat (k mod N c)) (Affine c p) /\
  PointEqual c p q = bool_decide (Affine c p = Affine c q).
Proof.
  intros Hp Hq. split; [apply Double_refines; auto with curve|]. split; [apply Add_refines; auto with curve|]. split; [apply Neg_refines; auto with curve|].
  split; [apply ScalarMul_refines; auto with curve|]. unfold PointEqual. destruct (Affine c p) as [[x y]|], (Affine c q) as [[x' y']|]; try reflexivity.
  destruct (Z.eqb_spec x x'), (Z.eqb_spec y y'); cbn; symmetry; (apply bool_decide_eq_true; congruence) || (apply bool_decide_eq_false; congruence).
Qed.

(** Both sides of a key exchange derive the same secret.  For any two private keys,
    [ECDH] of one with the public key of the other succeeds and is equal both ways. *)
Theorem ecdh_agrees `{K : Keccak} b1 b2 d1 d2 : P c <= 256 ^ 32 -> bytes_ok b1 -> bytes_ok b2 -> PrivateKeyFromBytes c b1 = Some d1 -> PrivateKeyFromBytes c b2 = Some d2 ->
  exists pk1 pk2 secret, PublicKey c d1 = Some pk1 /\ PublicKey c d2 = Some pk2 /\ ECDH c d1 pk2 = Some secret /\ ECDH c d2 pk1 = Some secret.
Proof.
  intros HP Hb1 Hb2 H1 H2. apply private_key_range in H1, H2; [|assumption..]. destruct (own_point d1 H1 d2) as (pk1 & E1 & O1 & C1 & A1). destruct (own_point d2 H2 d1) as (pk2 & E2 & O2 & C2 & A2).
  exists pk1, pk2. unfold ECDH. rewrite C1, C2, A1, A2, (Z.mul_comm d2). cbn [negb orb IsInfinity PublicPoint NewPoint Zc Z.eqb].
  pose proof (base_ok (d1 * d2)) as Hok. destruct (zmul c (d1 * d2) G) as [[x y]|] eqn:E.
  - destruct (fill_coordinate x HP ltac:(apply Hok)) as (e & Fx & _). unfold padTo32. cbn [obind fst]. rewrite Fx. eexists. eauto.
  - rewrite <- g_mul in E by auto with curve. apply (zmul_inj c law_field law_field_mod law_assoc law_order law_annihilates) in E; [|auto with curve | rewrite Z.mod_small; lia].
    apply (zmul_inj c law_field law_field_mod law_assoc law_order law_annihilates) in E; [done | auto with curve | rewrite Z.mod_small; lia].
Qed.

End Laws.
(** ** The signing interface of the transactions *)

Section Interface.
Context (c : Curve) {L : CurveLaws c} `{K : Keccak} (C : NativeCrypto).
Hypothesis HP : P c <= 256 ^ 32.
Hypothesis HNc : N c <= Native.secp256k1_N.

(** [C] with the recovery of this curve, as crypto.Ecrecover calls it. *)
Definition curve_native : NativeCrypto := {|
  Precompiles.sha256 := @sha256 C; Precompiles.sha256_ok := @sha256_ok C;
  Precompiles.Recover := fun h r s v => let? pk := Secp.Recover c h (mkSig r s v) in PublicBytes pk;
  Precompiles.G1 := @G1 C; Precompiles.G2 := @G2 C; Precompiles.NewG1 := @NewG1 C; Precompiles.G1_Add := @G1_Add C; Precompiles.G1_ScalarMul := @G1_ScalarMul C;
  Precompiles.G1_affine := @G1_affine C; Precompiles.NewG2 := @NewG2 C; Precompiles.PairingCheck := @PairingCheck C |}.

Definition curve_public (d : Z) : bytes := default [] (let? pk := PublicKey c d in PublicBytes pk).
Definition curve_sign (d : Z) (h : bytes) : option (Z * Z * Z) := let? sig := Secp.Sign c d h in Some (R sig, S sig, V sig).

Lemma curve_sign_range d h r s v : curve_sign d h = Some (r, s, v) -> 0 < r < Native.secp256k1_N /\ Native.IsLowS s = true /\ 0 <= v < 4.
Proof.
  unfold curve_sign. destruct (Secp.Sign c d h) as [sig|] eqn:E; [|discriminate]. cbn [obind]. intros [= <- <- <-].
  apply (sign_spec c) in E as (_ & k & px & py & Hm). pose proof (recover_id c _ _ _ _ _ _ Hm) as (HV & _). destruct Hm as (_ & _ & HR & HR0 & _ & HS & _).
  pose proof (order_gt1 c). pose proof (Z.mod_pos_bound px (N c) ltac:(lia)). pose proof (halfN_val c). split; [lia|]. split; [|exact HV].
  unfold Native.IsLowS. apply andb_true_iff. rewrite Z.ltb_lt, Z.leb_le. split; [lia|]. apply Z.le_trans with (halfN c); [lia|]. unfold halfN. rewrite Z.shiftr_div_pow2 by lia. apply Z.div_le_mono; [reflexivity | exact HNc].
Qed.

Lemma curve_sign_recover (k : { d : Z | 0 < d < N c }) h r s v : curve_sign (`k) h = Some (r, s, v) -> @Precompiles.Recover curve_native h r s v = Some (curve_public (`k)).
Proof.
  destruct k as [d Hd]. cbn [proj1_sig]. unfold curve_sign, curve_public. destruct (Secp.Sign c d h) as [sig|] eqn:E; [|discriminate]. cbn [obind]. intros [= <- <- <-].
  destruct (public_key c d Hd) as ([x y] & Epk & Ez & Hok). cbn [Precompiles.Recover curve_native]. rewrite Epk. cbn [obind].
  destruct (signed_recovers c d h sig Hd E) as (pk & Epk' & HR & _). rewrite Epk in Epk'. injection Epk' as <-. destruct sig. cbn [R S V] in *. rewrite HR. cbn [obind].
  unfold PublicBytes. cbn [fst snd]. destruct (fill_coordinate c x HP ltac:(apply Hok)) as (bx & -> & _). destruct (fill_coordinate c y HP ltac:(apply Hok)) as (by' & -> & _). reflexivity.
Qed.

(** The laws of the interface hold of the code's ECDSA. *)
#[local] Instance curve_signing : @Signing curve_native := {|
  PrivateKey := { d : Z | 0 < d < N c }; Public := fun k => curve_public (`k); Transaction.Sign := fun k => curve_sign (`k);
  Sign_range := fun k => curve_sign_range (`k); Sign_recover := curve_sign_recover |}.

(** Transactions signed with the code's ECDSA recover to their signer.  For a
    private key [d] of the curve, whose signature of the signing hash has recovery id
    0 or 1, [SignTx] returns a transaction with the content it was given, and [Sender]
    computes from it the address of the public key of [d]. *)
Theorem signed_transaction_sender cid tx d h r s v (Hd : 0 < d < N c) : 0 <= cid < 2 ^ 62 ->
  Tx.SigningHash cid (Tx.inner tx) = Ok h -> curve_sign d h = Some (r, s, v) -> v < 2 ->
  exists tx' pk e, Tx.SignTx (S := curve_signing) cid tx (exist _ d Hd) = Ok tx' /\ Tx.content (Tx.inner tx') = Tx.content (Tx.inner tx) /\
    PublicKey c d = Some pk /\ PublicBytes pk = Some e /\ snd (Tx.Sender (C := curve_native) cid tx') = Ok (BytesToAddress (drop 12 (Keccak256 [e]))).
Proof.
  intros Hc Hh Hs Hv. destruct (Tx.sign_then_sender (S := curve_signing) cid tx (exist _ d Hd) h r s v Hc Hh Hs Hv) as (tx' & H1 & H2 & H3).
  destruct (public_key c d Hd) as ([x y] & Epk & _ & Hok). destruct (fill_coordinate c x HP ltac:(apply Hok)) as (bx & Fx & _). destruct (fill_coordinate c y HP ltac:(apply Hok)) as (by' & Fy & _).
  assert (PublicBytes (x, y) = Some (bx ++ by')) as Hb by (unfold PublicBytes; cbn [fst snd]; rewrite Fx, Fy; reflexivity).
  exists tx', (x, y), (bx ++ by'). do 2 (split; [assumption|]). split; [exact Epk|]. split; [exact Hb|]. rewrite H3. cbn [Public curve_signing proj1_sig]. unfold curve_public. rewrite Epk. cbn [obind]. rewrite Hb. reflexivity.
Qed.

End Interface.

(** ** A curve small enough to enumerate *)

Definition toy_curve : Curve := mkCurve 43 31 2 12 7.

Lemma prime_by_enumeration p : 1 < p -> forallb (fun n => Z.gcd (Z.of_nat n) p =? 1) (seq 1 (Z.to_nat p - 1)) = true -> prime p.
Proof.
  intros Hp H. split; [exact Hp|]. intros n Hn. apply Zgcd_1_rel_prime. rewrite forallb_forall in H. specialize (H (Z.to_nat n)).
  rewrite Z2Nat.id in H by lia. apply Z.eqb_eq, H, in_seq. lia.
Qed.

(** The multiples of the generator. *)
Definition toy_points : list (option (Z * Z)) := Eval vm_compute in map (fun i => smul toy_curve i (Some (2, 12))) (seq 0 31).
Definition toy_point (i : nat) : option (Z * Z) := nth i toy_points None.
Definition same (a b : option (Z * Z)) : bool := bool_decide (a = b).

Lemma below_43 (f : Z -> bool) v : forallb (fun n => f (Z.of_nat n)) (seq 0 43) = true -> 0 <= v < 43 -> f v = true.
Proof. intros H Hv. rewrite forallb_forall in H. specialize (H (Z.to_nat v)). rewrite Z2Nat.id in H by lia. apply H, in_seq. lia. Qed.

(** Every point is a multiple of the generator. *)
Lemma toy_log a : aff_ok toy_curve a -> exists i, (i < 31)%nat /\ a = toy_point i.
Proof.
  destruct a as [[x y]|]; [|exists 0%nat; split; [lia | reflexivity]]. intros (Hx & Hy & Hc). cbn in Hx, Hy. unfold on_curve, eqm in Hc. cbn [P B toy_curve] in Hc.
  set (f := fun x y => negb (y * y mod 43 =? (x * x * x + 7) mod 43) || existsb (fun i => same (Some (x, y)) (toy_point i)) (seq 0 31)).
  assert (f x y = true) as H.
  { apply (below_43 (f x)); [|exact Hy]. apply (below_43 (fun x => forallb (fun n => f x (Z.of_nat n)) (seq 0 43))); [vm_compute; reflexivity | exact Hx]. }
  unfold f in H. rewrite Hc, Z.eqb_refl in H. apply existsb_exists in H as (i & Hi & E). apply in_seq in Hi. apply bool_decide_eq_true in E. exists i. split; [lia | exact E].
Qed.

Lemma toy_add i j : (i < 31)%nat -> (j < 31)%nat -> aff_add toy_curve (toy_point i) (toy_point j) = toy_point ((i + j) mod 31).
Proof.
  intros Hi Hj. assert (forallb (fun i => forallb (fun j => same (aff_add toy_curve (toy_point i) (toy_point j)) (toy_point ((i + j) mod 31))) (seq 0 31)) (seq 0 31) = true) as H by (vm_compute; reflexivity).
  rewrite forallb_forall in H. specialize (H i ltac:(apply in_seq; lia)). rewrite forallb_forall in H. specialize (H j ltac:(apply in_seq; lia)). apply bool_decide_eq_true in H. exact H.
Qed.

#[local] Instance toy_laws : CurveLaws toy_curve.
Proof.
  split.
  - apply prime_by_enumeration; [cbn; lia | vm_compute; reflexivity].
  - reflexivity.
  - apply prime_by_enumeration; [cbn; lia | vm_compute; reflexivity].
  - reflexivity.
  - reflexivity.
  - split; [cbn; lia|]. split; [cbn; lia | reflexivity].
  - intros a b d Ha Hb Hd. apply toy_log in Ha as (i & Hi & ->), Hb as (j & Hj & ->), Hd as (k & Hk & ->).
    rewrite !toy_add by (try apply Nat.mod_upper_bound; lia). f_equal. rewrite Nat.Div0.add_mod_idemp_l, Nat.Div0.add_mod_idemp_r. f_equal. lia.
  - intros a Ha. apply toy_log in Ha as (i & Hi & ->). assert (forallb (fun i => same (smul toy_curve 31 (toy_point i)) None) (seq 0 31) = true) as H by (vm_compute; reflexivity).
    rewrite forallb_forall in H. specialize (H i ltac:(apply in_seq; lia)). apply bool_decide_eq_true in H.
    change (N toy_curve) with 31. exact H.
Qed.

(** ** Encodings the parsers accept *)

Lemma affine_reduces x y : Affine secp256k1 (NewPoint x y) = Some (x mod P secp256k1, y mod P secp256k1).
Proof.
  unfold Affine, NewPoint, IsInfinity. cbn [X Y Zc Z.eqb]. replace (ModInverse 1 (P secp256k1)) with (Some 1) by (vm_compute; reflexivity). cbv beta iota zeta delta [obind].
  replace (1 * 1 mod P secp256k1) with 1 by (vm_compute; reflexivity). replace (1 * 1 mod P secp256k1) with 1 by (vm_compute; reflexivity). rewrite !Z.mul_1_r. reflexivity.
Qed.

(** C40: One public key, two encodings.  [OnCurve] checks the range of coordinates that
    [Affine] has already reduced, so [ParsePublicKey] accepts, next to the encoding of a
    point with a small abscissa [x], the encoding with [x + P] in its place; the two keys
    differ (and so do the addresses hashed from them) but are the same point. *)
Theorem alias_keys x y : 0 <= x -> x + P secp256k1 < 256 ^ 32 -> 0 <= y < P secp256k1 ->
  ParsePublicKey secp256k1 (be_bytes 32 x ++ be_bytes 32 y) = Some (x, y) ->
  ParsePublicKey secp256k1 (be_bytes 32 (x + P secp256k1) ++ be_bytes 32 y) = Some (x + P secp256k1, y) /\
  PointEqual secp256k1 (PublicPoint (x, y)) (PublicPoint (x + P secp256k1, y)) = true.
Proof.
  intros Hx HP Hy. assert (forall v, 0 <= v < 256 ^ 32 -> ParsePublicKey secp256k1 (be_bytes 32 v ++ be_bytes 32 y) = if OnCurve secp256k1 (PublicPoint (v, y)) then Some (v, y) else None) as Hparse.
  { intros v Hv. unfold ParsePublicKey. rewrite len_app, !len_be_bytes. change (Z.of_nat 32 + Z.of_nat 32 =? 64) with true. cbv iota. unfold parse_pair.
    rewrite take_app_length', drop_app_length' by (symmetry; apply length_be_bytes). rewrite !be_val_be_bytes, !Z.mod_small; [reflexivity | | exact Hv].
    split; [lia|]. apply Z.lt_trans with (P secp256k1); [lia | reflexivity]. }
  assert (0 < P secp256k1) by reflexivity. rewrite !Hparse by lia. unfold OnCurve, PointEqual, PublicPoint. cbn [fst snd]. rewrite !affine_reduces.
  replace ((x + P secp256k1) mod P secp256k1) with (x mod P secp256k1) by (rewrite <- (Z_mod_plus_full x 1); f_equal; lia). rewrite !Z.eqb_refl.
  destruct (_ || _); [discriminate|]. destruct (_ =? _); [auto | discriminate].
Qed.

(** Hex keys may carry a sign, which is lost, and panic beyond 32 bytes. *)
Example hex_sign_lost : PrivateKeyFromHex secp256k1 (bytes_of_string "-5") = Some (Some 5).
Proof. vm_compute. reflexivity. Qed.

Example hex_panics : PrivateKeyFromHex secp256k1 (bytes_of_string "10000000000000000000000000000000000000000000000000000000000000000") = None.
Proof. vm_compute. reflexivity. Qed.

(** * Witnesses *)

#[local] Existing Instances Reg.toy_keccak Tx.one_key.

Lemma key_bytes_ok : bytes_ok (be_bytes 32 5) /\ PrivateKeyFromBytes toy_curve (be_bytes 32 5) = Some 5.
Proof. split; [apply be_bytes_ok | vm_compute; reflexivity]. Qed.

Lemma sign_recover_verify_witness : Sign toy_curve 5 (zeros 32) = Some (mkSig 2 10 0) /\
  exists pk, PublicKey toy_curve 5 = Some pk /\ Recover toy_curve (zeros 32) (mkSig 2 10 0) = Some pk /\ Verify toy_curve pk (zeros 32) (mkSig 2 10 0) = true.
Proof.
  assert (Sign toy_curve 5 (zeros 32) = Some (mkSig 2 10 0)) as E by (vm_compute; reflexivity). split; [exact E|].
  apply (sign_recover_verify toy_curve (be_bytes 32 5) 5); [apply key_bytes_ok.. | exact E].
Defined.

Lemma verify_iff_recover_witness : Verify toy_curve (2, 12) (zeros 32) (mkSig 2 10 0) = true <->
  IsLowS toy_curve 10 = true /\ exists v, 0 <= v <= 3 /\ Recover toy_curve (zeros 32) (mkSig 2 10 v) = Some (2, 12).
Proof. apply (verify_iff_recover toy_curve 2 12 (zeros 32) 2 10 0); cbn; lia. Defined.

Lemma public_key_roundtrip_witness : exists pk e1 e2 e3, PublicKey toy_curve 5 = Some pk /\ PublicBytes pk = Some e1 /\ SEC1Uncompressed pk = Some e2 /\ SEC1Compressed pk = Some e3 /\
  ParsePublicKey toy_curve e1 = Some pk /\ ParsePublicKey toy_curve e2 = Some pk /\ ParsePublicKey toy_curve e3 = Some pk.
Proof. apply (public_key_roundtrip toy_curve (be_bytes 32 5) 5); [vm_compute; discriminate | apply key_bytes_ok..]. Defined.

Lemma sample_points : jac_ok toy_curve (mkPoint 2 12 1) /\ jac_ok toy_curve (mkPoint 7 36 1).
Proof. split; (split; [cbn; lia|]; split; [cbn; lia|]; split; [cbn; lia|]; right; reflexivity). Qed.

Lemma points_well_formed_witness : Forall (fun r => jac_ok toy_curve r /\ OnCurve toy_curve r = true)
  [Infinity; Generator toy_curve; PublicPoint (7, 7); Double toy_curve (mkPoint 2 12 1); Add toy_curve (mkPoint 2 12 1) (mkPoint 7 36 1);
   Neg toy_curve (mkPoint 2 12 1); ScalarMul toy_curve (mkPoint 2 12 1) 9; ScalarBaseMul toy_curve 9].
Proof. apply (points_well_formed toy_curve (mkPoint 2 12 1) (mkPoint 7 36 1) 9 7 7); [apply sample_points.. | cbn; lia | cbn; lia | vm_compute; reflexivity]. Defined.

Lemma jacobian_refines_witness : Affine toy_curve (Add toy_curve (mkPoint 2 12 1) (mkPoint 7 36 1)) = aff_add toy_curve (Some (2, 12)) (Some (7, 36)).
Proof.
  destruct (jacobian_refines toy_curve (mkPoint 2 12 1) (mkPoint 7 36 1) 9) as (_ & E & _); [apply sample_points..|]. rewrite E. vm_compute. reflexivity.
Defined.

Lemma ecdh_agrees_witness : exists pk1 pk2 secret, PublicKey toy_curve 5 = Some pk1 /\ PublicKey toy_curve 7 = Some pk2 /\ ECDH toy_curve 5 pk2 = Some secret /\ ECDH toy_curve 7 pk1 = Some secret.
Proof.
  apply (ecdh_agrees toy_curve (be_bytes 32 5) (be_bytes 32 7) 5 7); [vm_compute; discriminate | apply be_bytes_ok | apply be_bytes_ok | vm_compute; reflexivity..].
Defined.

Definition ordinate_of_one : Z := 0x4218f20ae6c646b363db68605822fb14264ca8d2587fdd6fbc750d587e76a7ee.

Lemma alias_keys_witness : ParsePublicKey secp256k1 (be_bytes 32 (1 + P secp256k1) ++ be_bytes 32 ordinate_of_one) = Some (1 + P secp256k1, ordinate_of_one).
Proof. apply (alias_keys 1 ordinate_of_one); [lia | reflexivity | split; [discriminate | reflexivity] | vm_compute; reflexivity]. Defined.

(** A hash whose values are below 8, so that nonces fit the small order. *)
#[local] Instance small_keccak : Keccak :=
  { Sum256 b := be_bytes 32 (default 0 (last b) mod 8); Sum256_length b := length_be_bytes 32 _; Sum256_ok b := be_bytes_ok 32 _ }.

Lemma toy_field : P toy_curve <= 256 ^ 32.
Proof. vm_compute. discriminate. Qed.
Lemma toy_order : N toy_curve <= Native.secp256k1_N.
Proof. vm_compute. discriminate. Qed.
Lemma toy_key : 0 < 5 < N toy_curve.
Proof. cbn. lia. Qed.

Lemma signed_transaction_sender_witness : exists tx' pk e,
  Tx.SignTx (K := small_keccak) (S := curve_signing (K := small_keccak) toy_curve Tx.one_key toy_field toy_order) 7 (Tx.NewTx (Tx.sample_legacy 0)) (exist _ 5 toy_key) = Ok tx' /\
  PublicKey toy_curve 5 = Some pk /\ PublicBytes pk = Some e /\
  snd (Tx.Sender (K := small_keccak) (C := curve_native toy_curve Tx.one_key) 7 tx') = Ok (BytesToAddress (drop 12 (@Keccak256 small_keccak [e]))).
Proof.
  destruct (Tx.SigningHash (K := small_keccak) 7 (Tx.sample_legacy 0)) as [h|] eqn:E; [|vm_compute in E; discriminate].
  destruct (signed_transaction_sender (K := small_keccak) toy_curve Tx.one_key toy_field toy_order 7 (Tx.NewTx (Tx.sample_legacy 0)) 5 h 2 10 0 toy_key) as (tx' & pk & e & H1 & _ & H2 & H3 & H4);
    [lia | exact E | vm_compute in E; injection E as <-; vm_compute; reflexivity | lia|]. exists tx', pk, e. auto.
Defined.

End Ecdsa.
