(* ===== verification/Database.v ===== *)
(** The key-value stores of src/db/db.go: the in-memory store with its batches
    and its iteration in key order, and the wrapper that records what is written.

    A store is a finite map; the code's copies of keys and values are the sharing
    of immutable lists.  The callback of an iteration runs without the lock held,
    so it is given the store and may change it. *)

From stdpp Require Import base list gmap sorting.
From Stdlib Require Import ZArith Lia.
From S2P Require Import Prelude Common StateDB.
Local Open Scope Z_scope.
Local Open Scope go_scope.

Module Db.

Inductive error := ErrNotFound.

(** * MemoryDB *)

Abbreviation MemoryDB := (gmap bytes bytes).

Definition NewMemoryDB : MemoryDB := ∅.
Definition Get (m : MemoryDB) (key : bytes) : result error bytes := match m !! key with None => Err ErrNotFound | Some v => Ok v end.
Definition Has (m : MemoryDB) (key : bytes) : bool := bool_decide (is_Some (m !! key)).
Definition Put (m : MemoryDB) (key value : bytes) : MemoryDB := <[key := value]> m.
Definition Delete (m : MemoryDB) (key : bytes) : MemoryDB := delete key m.
Definition Len (m : MemoryDB) : Z := Z.of_nat (size m).

Definition hasPrefix (s prefix : bytes) : bool :=
  if len prefix =? 0 then true else (len prefix <=? len s) && bool_decide (take (length prefix) s = prefix).

(** The keys of an iteration, taken before the first callback. *)
Definition keys_with (m : MemoryDB) (prefix : bytes) : list bytes := SDB.sorted_keys (filter (fun k => hasPrefix k prefix = true) (elements (dom m))).

Section Iteration.
Context {A : Type}.
Variable fn : MemoryDB -> A -> bytes -> bytes -> MemoryDB * A * bool.

Fixpoint visit (keys : list bytes) (m : MemoryDB) (a : A) : MemoryDB * A :=
  match keys with
  | [] => (m, a)
  | k :: r =>
      match Get m k with
      | Err ErrNotFound => visit r m a
      | Ok v => let '(m, a, go) := fn m a k v in if go then visit r m a else (m, a)
      end
  end.

Definition Iterate (m : MemoryDB) (prefix : bytes) (a : A) : MemoryDB * A := visit (keys_with m prefix) m a.

End Iteration.

(** * Batches *)

Record memOp := mkOp { op_key : bytes; op_value : bytes; op_delete : bool }.
Abbreviation Batch := (list memOp).

Definition batch_Put (b : Batch) (key value : bytes) : Batch := b ++ [mkOp key value false].
Definition batch_Delete (b : Batch) (key : bytes) : Batch := b ++ [mkOp key [] true].
Definition apply_op (m : MemoryDB) (op : memOp) : MemoryDB := if op_delete op then delete (op_key op) m else <[op_key op := op_value op]> m.
Definition batch_Write (m : MemoryDB) (b : Batch) : MemoryDB * Batch := (fold_left apply_op b m, []).

(** * TrackingDB *)

Record TrackingDB := mkTracking { t_base : MemoryDB; tracking : bool; written : gset bytes }.

Definition NewTrackingDB (base : MemoryDB) : TrackingDB := mkTracking base false ∅.
Definition StartTracking (t : TrackingDB) : TrackingDB := mkTracking (t_base t) true ∅.
Definition StopTracking (t : TrackingDB) : TrackingDB * gset bytes := (mkTracking (t_base t) false ∅, written t).
Definition record (t : TrackingDB) (key : bytes) : TrackingDB := if tracking t then mkTracking (t_base t) true (written t ∪ {[key]}) else t.
Definition t_Put (t : TrackingDB) (key value : bytes) : TrackingDB :=
  let t := record t key in mkTracking (Put (t_base t) key value) (tracking t) (written t).
Definition t_Delete (t : TrackingDB) (key : bytes) : TrackingDB := mkTracking (Delete (t_base t) key) (tracking t) (written t).
Definition t_batch_Put (t : TrackingDB) (b : Batch) (key value : bytes) : TrackingDB * Batch := (record t key, batch_Put b key value).
Definition t_batch_Write (t : TrackingDB) (b : Batch) : TrackingDB * Batch :=
  let (m, b) := batch_Write (t_base t) b in (mkTracking m (tracking t) (written t), b).

(** * Iteration in key order *)

Lemma hasPrefix_spec s prefix : hasPrefix s prefix = true <-> exists r, s = prefix ++ r.
Proof.
  unfold hasPrefix. destruct (Z.eqb_spec (len prefix) 0) as [E|].
  - assert (prefix = []) as -> by (destruct prefix; [reflexivity | unfold len in E; cbn in E; lia]). split; [exists s; reflexivity | reflexivity].
  - rewrite andb_true_iff, Z.leb_le, bool_decide_eq_true. split.
    + intros [_ E]. exists (drop (length prefix) s). rewrite <- E at 1. rewrite take_drop. reflexivity.
    + intros (r & ->). rewrite len_app, take_app_length. split; [pose proof (len_nonneg r); lia | reflexivity].
Qed.

#[local] Existing Instances SDB.leb_total SDB.leb_trans.

(** The callback that collects what it is shown. *)
Definition collect (m : MemoryDB) (acc : list (bytes * bytes)) (k v : bytes) : MemoryDB * list (bytes * bytes) * bool := (m, acc ++ [(k, v)], true).

Lemma visit_collects m keys : (forall k, k ∈ keys -> is_Some (m !! k)) -> forall acc, visit collect keys m acc = (m, acc ++ map (fun k => (k, default [] (m !! k))) keys).
Proof.
  induction keys as [|k keys IH]; intros Hk acc; [cbn; rewrite app_nil_r; reflexivity|]. cbn [visit map]. destruct (Hk k ltac:(left)) as [v E]. unfold Get. rewrite E. cbn [collect default].
  rewrite IH by (intros k' Hin; apply Hk; right; exact Hin). rewrite <- app_assoc. reflexivity.
Qed.

(** An iteration shows exactly the entries whose key has the prefix, once each, in the order of the keys. *)
Theorem iterate_in_order m prefix : exists l, Iterate collect m prefix [] = (m, l) /\
  Sorted (fun a b => Is_true (SDB.bytes_leb a b)) (map fst l) /\ NoDup (map fst l) /\
  forall k v, (k, v) ∈ l <-> m !! k = Some v /\ exists r, k = prefix ++ r.
Proof.
  assert (forall k, k ∈ keys_with m prefix <-> is_Some (m !! k) /\ exists r, k = prefix ++ r) as Hk.
  { intros k. unfold keys_with, SDB.sorted_keys. rewrite merge_sort_Permutation, list_elem_of_filter, elem_of_elements, elem_of_dom, hasPrefix_spec. tauto. }
  unfold Iterate. rewrite visit_collects by (intros k; rewrite Hk; tauto). eexists. split; [reflexivity|]. rewrite app_nil_l, map_map. cbn [fst]. rewrite map_id.
  split; [apply Sorted_merge_sort; apply _|]. split; [unfold keys_with, SDB.sorted_keys; rewrite merge_sort_Permutation; apply NoDup_filter, NoDup_elements|].
  intros k v. rewrite list_elem_of_fmap. split.
  - intros (k' & [= <- ->] & Hin). apply Hk in Hin as [[v' E] Hr]. rewrite E. auto.
  - intros [E Hr]. exists k. rewrite E. split; [reflexivity|]. apply Hk. eauto.
Qed.

(** * Tracking *)

Inductive tracked := TPut (k v : bytes) | TDelete (k : bytes) | TQueue (k v : bytes) | TWrite.

Definition tracked_step (s : TrackingDB * Batch) (o : tracked) : TrackingDB * Batch :=
  let (t, b) := s in
  match o with
  | TPut k v => (t_Put t k v, b)
  | TDelete k => (t_Delete t k, b)
  | TQueue k v => t_batch_Put t b k v
  | TWrite => t_batch_Write t b
  end.

Definition queued_known (t : TrackingDB) (b : Batch) : Prop := Forall (fun op => op_delete op = true \/ op_key op ∈ written t) b.

Lemma write_changes (w : gset bytes) (b : Batch) k : Forall (fun op => op_delete op = true \/ op_key op ∈ w) b -> forall m0 m : MemoryDB,
  (m !! k <> m0 !! k -> is_Some (m !! k) -> k ∈ w) -> fold_left apply_op b m !! k <> m0 !! k -> is_Some (fold_left apply_op b m !! k) -> k ∈ w.
Proof.
  intros Hb m0. induction Hb as [|op b Hop _ IH]; intros m Hm; [exact Hm|]. cbn [fold_left]. apply IH. unfold apply_op. destruct (op_delete op); intros Hne Hs; destruct (decide (op_key op = k)) as [<-|].
  - rewrite lookup_delete_eq in Hs. destruct Hs. discriminate.
  - rewrite lookup_delete_ne in Hne, Hs by assumption. auto.
  - destruct Hop; [discriminate | assumption].
  - rewrite lookup_insert_ne in Hne, Hs by assumption. auto.
Qed.

Lemma tracked_one t b o : tracking t = true -> queued_known t b ->
  let (t1, b1) := tracked_step (t, b) o in tracking t1 = true /\ queued_known t1 b1 /\ written t ⊆ written t1 /\ (forall k v, o = TPut k v \/ o = TQueue k v -> k ∈ written t1) /\
    forall k, t_base t1 !! k <> t_base t !! k -> is_Some (t_base t1 !! k) -> k ∈ written t1.
Proof.
  unfold queued_known. intros Ht Hb. assert (forall k : bytes, Forall (fun op => op_delete op = true \/ op_key op ∈ written t ∪ {[k]}) b) as Hb' by (intros k; eapply Forall_impl; [exact Hb|]; set_solver).
  destruct o as [k v|k|k v|]; cbn [tracked_step t_batch_Write batch_Write]; unfold t_Put, t_Delete, t_batch_Put, record, Put, Delete, batch_Put; rewrite ?Ht; cbn [t_base tracking written].
  - split; [reflexivity|]. split; [apply Hb'|]. split; [set_solver|]. split; [intros k' v' [[= -> ->]|]; [set_solver | discriminate]|].
    intros k' Hne _. destruct (decide (k = k')) as [<-|]; [set_solver | rewrite lookup_insert_ne in Hne by assumption; done].
  - split; [reflexivity|]. split; [exact Hb|]. split; [reflexivity|]. split; [intros k' v' [|]; discriminate|].
    intros k' Hne Hs. destruct (decide (k = k')) as [<-|]; [rewrite lookup_delete_eq in Hs; destruct Hs; discriminate | rewrite lookup_delete_ne in Hne by assumption; done].
  - split; [reflexivity|]. split; [apply Forall_app; split; [apply Hb' | constructor; [right; cbn; set_solver | constructor]]|]. split; [set_solver|].
    split; [intros k' v' [|[= -> ->]]; [discriminate | set_solver] | done].
  - split; [reflexivity|]. split; [constructor|]. split; [reflexivity|]. split; [intros k' v' [|]; discriminate|]. intros k. apply (write_changes _ _ _ Hb). done.
Qed.

(** Every key put or queued since tracking began is reported when it stops, and so is every key whose value is new. *)
Theorem tracking_complete os : forall t b, tracking t = true -> queued_known t b ->
  let (t', _) := fold_left tracked_step os (t, b) in
  written t ⊆ snd (StopTracking t') /\ (forall k v, TPut k v ∈ os \/ TQueue k v ∈ os -> k ∈ snd (StopTracking t')) /\
  forall k, t_base t' !! k <> t_base t !! k -> is_Some (t_base t' !! k) -> k ∈ snd (StopTracking t').
Proof.
  cbn [StopTracking snd]. induction os as [|o os IH]; intros t b Ht Hb; cbn [fold_left].
  - split; [reflexivity|]. split; [intros k v [H|H]; inversion H | congruence].
  - pose proof (tracked_one t b o Ht Hb) as H1. destruct (tracked_step (t, b) o) as [t1 b1]. destruct H1 as (Ht1 & Hb1 & Hw & Hp & Hn).
    specialize (IH t1 b1 Ht1 Hb1). destruct (fold_left tracked_step os (t1, b1)) as [t' b']. destruct IH as (I1 & I2 & I3). split; [set_solver|]. split.
    + intros k v [H|H]; (apply elem_of_cons in H as [<-|H]; [apply I1; eapply Hp; eauto | eapply I2; eauto]).
    + intros k Hne Hs. destruct (decide (t_base t' !! k = t_base t1 !! k)) as [E|E]; [|apply I3; assumption]. apply I1, Hn; rewrite <- E; assumption.
Qed.

End Db.
