(* ===== verification/FileDb.v ===== *)
(** The durable store of src/db/filedb.go: an append-only log of checksummed
    records, an index of live values, replay on opening, and compaction.

    The file is the list of its bytes.  The buffered writer of 64 KiB in front of
    it is modelled as bufio has it, so that what has reached the file at any moment
    is known.  Operating-system errors are not modelled: every read and write of
    the file succeeds, except reads past its end. *)

From stdpp Require Import base list gmap sorting.
From Stdlib Require Import ZArith Lia.
From S2P Require Import Prelude Common StateDB Database.
Local Open Scope Z_scope.
Local Open Scope go_scope.

(** * hash/crc32 with the Castagnoli polynomial *)

Module Crc.

Definition castagnoli : Z := 0x82f63b78.
Definition shift (c : Z) : Z := if Z.testbit c 0 then Z.lxor (Z.shiftr c 1) castagnoli else Z.shiftr c 1.
Definition update (crc b : Z) : Z := Nat.iter 8 shift (Z.lxor crc b).
Definition Checksum (data : bytes) : Z := Z.lxor (fold_left update data 0xffffffff) 0xffffffff.

End Crc.

Module FileDb.
Import Db.

Inductive error := ErrClosed | ErrNotFound | ErrRead.

Definition opPut : Z := 1.
Definition opDelete : Z := 2.
Definition headerLen : Z := 13.
Definition bufferSize : Z := 65536.

Record recordLoc := mkLoc { l_offset : Z; l_length : Z }.

Record FileDB := mkFile
  { file : bytes; buffer : bytes; offset : Z; index : gmap bytes recordLoc; deadKeys : Z; closed : bool }.

(** * Replay *)

Record replay_state := mkReplay { r_pos : Z; r_index : gmap bytes recordLoc; r_dead : Z }.

(** One record of the log at [pos]. *)
Definition replay_record (s : replay_state) (op : Z) (key : bytes) (valLen : Z) : replay_state :=
  let dead := if bool_decide (is_Some (r_index s !! key)) then r_dead s + 1 else r_dead s in
  let index := if op =? opPut then <[key := mkLoc (r_pos s + headerLen + len key) valLen]> (r_index s) else delete key (r_index s) in
  mkReplay (r_pos s + headerLen + len key + valLen) index dead.

(** The loop of [replay]; [rest] is what the reader has not returned yet. *)
Fixpoint replay_loop (fuel : nat) (rest : bytes) (s : replay_state) : option replay_state :=
  match fuel with
  | O => None
  | S f =>
      if len rest <? headerLen then Some s
      else
        let header := take 13 rest in
        let rest := drop 13 rest in
        let op := nth 0 header 0 in
        let keyLen := be_val (slice header 1 5) in
        let valLen := be_val (slice header 5 9) in
        let want := be_val (slice header 9 13) in
        if negb (op =? opPut) && negb (op =? opDelete) then Some s
        else if len rest <? keyLen + valLen then Some s
        else
          let body := take (Z.to_nat (keyLen + valLen)) rest in
          if negb (Crc.Checksum body =? want) then Some s
          else replay_loop f (drop (Z.to_nat (keyLen + valLen)) rest) (replay_record s op (take (Z.to_nat keyLen) body) valLen)
  end.

(** [OpenFile] on the content of the file; the damaged tail is truncated. *)
Definition OpenFile (content : bytes) : option FileDB :=
  let? s := replay_loop (S (length content)) content (mkReplay 0 ∅ 0) in
  Some (mkFile (take (Z.to_nat (r_pos s)) content) [] (r_pos s) (r_index s) (r_dead s) false).

(** * Writing *)

(** [bufio.Writer.Write]. *)
Definition buffered_write (d : FileDB) (p : bytes) : FileDB :=
  let available := bufferSize - len (buffer d) in
  if len p <=? available then mkFile (file d) (buffer d ++ p) (offset d) (index d) (deadKeys d) (closed d)
  else
    let (f, p) := if len (buffer d) =? 0 then (file d, p)
                  else (file d ++ buffer d ++ take (Z.to_nat available) p, drop (Z.to_nat available) p) in
    if bufferSize <? len p then mkFile (f ++ p) [] (offset d) (index d) (deadKeys d) (closed d)
    else mkFile f p (offset d) (index d) (deadKeys d) (closed d).

Definition Flush (d : FileDB) : FileDB := mkFile (file d ++ buffer d) [] (offset d) (index d) (deadKeys d) (closed d).

Definition uint32 (v : Z) : Z := v mod 2 ^ 32.

Definition record_header (op : Z) (key value : bytes) : bytes :=
  op :: be_bytes 4 (uint32 (len key)) ++ be_bytes 4 (uint32 (len value)) ++ be_bytes 4 (Crc.Checksum (key ++ value)).

Definition appendRecord (d : FileDB) (op : Z) (key value : bytes) : FileDB :=
  let d := buffered_write d (record_header op key value) in
  let d := buffered_write d (key ++ value) in
  let dead := if bool_decide (is_Some (index d !! key)) then deadKeys d + 1 else deadKeys d in
  let index := if op =? opDelete then delete key (index d) else <[key := mkLoc (offset d + headerLen + len key) (uint32 (len value))]> (index d) in
  mkFile (file d) (buffer d) (offset d + headerLen + len key + len value) index dead (closed d).

Definition Put (d : FileDB) (key value : bytes) : result error FileDB :=
  if closed d then Err ErrClosed else Ok (Flush (appendRecord d opPut key value)).
Definition Delete (d : FileDB) (key : bytes) : result error FileDB :=
  if closed d then Err ErrClosed else Ok (Flush (appendRecord d opDelete key [])).

Definition append_op (d : FileDB) (op : memOp) : FileDB := appendRecord d (if op_delete op then opDelete else opPut) (op_key op) (op_value op).
Definition batch_Write (d : FileDB) (b : Batch) : result error FileDB :=
  if closed d then Err ErrClosed else Ok (Flush (fold_left append_op b d)).

(** * Reading *)

Definition ReadAt (f : bytes) (off n : Z) : option bytes :=
  if len f <? off + n then None else Some (take (Z.to_nat n) (drop (Z.to_nat off) f)).

Definition Get (d : FileDB) (key : bytes) : FileDB * result error bytes :=
  if closed d then (d, Err ErrClosed)
  else match index d !! key with
  | None => (d, Err ErrNotFound)
  | Some loc =>
      if l_length loc =? 0 then (d, Ok [])
      else
        let d := if 0 <? len (buffer d) then Flush d else d in
        (d, match ReadAt (file d) (l_offset loc) (l_length loc) with None => Err ErrRead | Some v => Ok v end)
  end.

Definition Has (d : FileDB) (key : bytes) : bool := bool_decide (is_Some (index d !! key)).

(** The keys of an iteration, and the loop over them with a callback that reads. *)
Definition keys_with (d : FileDB) (prefix : bytes) : list bytes := SDB.sorted_keys (filter (fun k => hasPrefix k prefix = true) (elements (dom (index d)))).

Section Iteration.
Context {A : Type}.
Variable fn : A -> bytes -> bytes -> A * bool.

Fixpoint visit (keys : list bytes) (d : FileDB) (a : A) : FileDB * result error A :=
  match keys with
  | [] => (d, Ok a)
  | k :: r =>
      match Get d k with
      | (d, Err ErrNotFound) => visit r d a
      | (d, Err e) => (d, Err e)
      | (d, Ok v) => let (a, go) := fn a k v in if go then visit r d a else (d, Ok a)
      end
  end.

Definition Iterate (d : FileDB) (prefix : bytes) (a : A) : FileDB * result error A := visit (keys_with d prefix) d a.

End Iteration.

(** * Compaction *)

Fixpoint live_records (f : bytes) (ls : list (bytes * recordLoc)) : option (list (bytes * bytes)) :=
  match ls with
  | [] => Some []
  | (k, loc) :: r =>
      let? v := (if 0 <? l_length loc then ReadAt f (l_offset loc) (l_length loc) else Some []) in
      let? r := live_records f r in Some ((k, v) :: r)
  end.

(** The new log, index and offset; the keys come in sorted order. *)
Fixpoint compacted (live : gmap bytes bytes) (keys : list bytes) (content : bytes) (index : gmap bytes recordLoc) (offset : Z) : bytes * gmap bytes recordLoc * Z :=
  match keys with
  | [] => (content, index, offset)
  | k :: r =>
      let value := default [] (live !! k) in
      compacted live r (content ++ record_header opPut k value ++ k ++ value) (<[k := mkLoc (offset + headerLen + len k) (uint32 (len value))]> index)
        (offset + headerLen + len k + len value)
  end.

Definition Compact (d : FileDB) : FileDB * result error unit :=
  if closed d then (d, Err ErrClosed)
  else
    let d := Flush d in
    match live_records (file d) (map_to_list (index d)) with
    | None => (d, Err ErrRead)
    | Some l =>
        let live : gmap bytes bytes := list_to_map l in
        let '(content, index, offset) := compacted live (SDB.sorted_keys (map fst l)) [] ∅ 0 in
        (mkFile content [] offset index 0 (closed d), Ok tt)
    end.

Definition NeedsCompaction (d : FileDB) : bool := (Z.of_nat (size (index d)) <? deadKeys d) && (1024 <? deadKeys d).

Definition Close (d : FileDB) : FileDB :=
  if closed d then d else let d := Flush d in mkFile (file d) (buffer d) (offset d) (index d) (deadKeys d) true.

End FileDb.
