(* ===== verification/FileDbFacts.v ===== *)
(** What the durable store promises (src/db/filedb.go): it behaves as a map, a crash
    leaves the state after some of the operations in order, and compaction keeps
    the content. *)

From stdpp Require Import base list gmap sorting.
From Stdlib Require Import ZArith Lia.
From S2P Require Import Prelude Common StateDB Database FileDb.
Local Open Scope Z_scope.
Local Open Scope go_scope.

Module FileFacts.
Import Db FileDb.

(** * Checksums fit 32 bits *)

Lemma lxor_32 a b : 0 <= a < 2 ^ 32 -> 0 <= b < 2 ^ 32 -> 0 <= Z.lxor a b < 2 ^ 32.
Proof.
  intros Ha Hb. split; [apply Z.lxor_nonneg; lia|]. destruct (Z.eq_dec (Z.lxor a b) 0) as [->|Hne]; [lia|]. assert (0 <= Z.lxor a b) by (apply Z.lxor_nonneg; lia).
  apply Z.log2_lt_pow2; [lia|]. pose proof (Z.log2_lxor a b ltac:(lia) ltac:(lia)) as Hl.
  assert (forall v, 0 <= v < 2 ^ 32 -> Z.log2 v < 32) as Hlog by (intros v Hv; destruct (Z.eq_dec v 0) as [->|]; [reflexivity | apply Z.log2_lt_pow2; lia]).
  pose proof (Hlog a Ha). pose proof (Hlog b Hb). lia.
Qed.

Lemma shift_32 c : 0 <= c < 2 ^ 32 -> 0 <= Crc.shift c < 2 ^ 32.
Proof.
  intros Hc. assert (0 <= Z.shiftr c 1 < 2 ^ 32) as Hs. { rewrite Z.shiftr_div_pow2 by lia. change (2 ^ 1) with 2. split; [apply Z.div_pos; lia | apply Z.div_lt_upper_bound; lia]. }
  unfold Crc.shift. destruct (Z.testbit c 0); [apply lxor_32; [exact Hs | unfold Crc.castagnoli; lia] | exact Hs].
Qed.

Lemma update_32 crc b : 0 <= crc < 2 ^ 32 -> byte_ok b -> 0 <= Crc.update crc b < 2 ^ 32.
Proof.
  intros Hc Hb. unfold Crc.update. assert (0 <= Z.lxor crc b < 2 ^ 32) as H by (apply lxor_32; [exact Hc | unfold byte_ok in Hb; lia]).
  generalize 8%nat. intros n. induction n as [|n IH]; [exact H | apply shift_32, IH].
Qed.

Lemma Checksum_32 data : bytes_ok data -> 0 <= Crc.Checksum data < 2 ^ 32.
Proof.
  intros H. unfold Crc.Checksum. apply lxor_32; [|lia]. assert (0 <= 0xffffffff < 2 ^ 32) as H0 by lia. revert H0. generalize 0xffffffff.
  induction H as [|b data Hb _ IH]; intros c Hc; [exact Hc | apply IH, update_32; assumption].
Qed.

(** * Records *)

Definition kind (op : memOp) : Z := if op_delete op then opDelete else opPut.
Definition enc (op : memOp) : bytes := record_header (kind op) (op_key op) (op_value op) ++ op_key op ++ op_value op.
Definition log (ops : list memOp) : bytes := concat (map enc ops).

(** Keys and values the format can hold. *)
Definition op_ok (op : memOp) : Prop := bytes_ok (op_key op) /\ bytes_ok (op_value op) /\ len (op_key op) < 2 ^ 32 /\ len (op_value op) < 2 ^ 32.

Definition step (s : replay_state) (op : memOp) : replay_state := replay_record s (kind op) (op_key op) (len (op_value op)).
Definition start : replay_state := mkReplay 0 ∅ 0.

Lemma uint32_len (b : bytes) : len b < 2 ^ 32 -> uint32 (len b) = len b.
Proof. intros H. apply Z.mod_small. pose proof (len_nonneg b). lia. Qed.

Lemma len_header op key value : len (record_header op key value) = 13.
Proof. unfold record_header. rewrite len_cons, !len_app, !len_be_bytes. reflexivity. Qed.

Lemma len_enc op : len (enc op) = 13 + len (op_key op) + len (op_value op).
Proof. unfold enc. rewrite !len_app, len_header. lia. Qed.

Lemma log_app a b : log (a ++ b) = log a ++ log b.
Proof. unfold log. rewrite map_app, concat_app. reflexivity. Qed.

Lemma log_one op : log [op] = enc op.
Proof. unfold log. cbn [map concat]. apply app_nil_r. Qed.

(** What [replay] reads in a header. *)
Lemma header_fields op key value rest : op_ok (mkOp key value op) -> let h := take 13 (record_header (kind (mkOp key value op)) key value ++ rest) in
  nth 0 h 0 = kind (mkOp key value op) /\ be_val (slice h 1 5) = len key /\ be_val (slice h 5 9) = len value /\ be_val (slice h 9 13) = Crc.Checksum (key ++ value).
Proof.
  intros (Hk & Hv & Lk & Lv). cbn [op_key op_value] in *. cbv zeta. rewrite take_app_length' by (pose proof (len_header (kind (mkOp key value op)) key value) as E; unfold len in E; lia).
  unfold record_header. rewrite !uint32_len by assumption. pose proof (Checksum_32 (key ++ value) ltac:(apply Forall_app; auto)).
  pose proof (len_nonneg key). pose proof (len_nonneg value).
  pose proof (be_val_be_bytes 4 (len key)) as E1. pose proof (be_val_be_bytes 4 (len value)) as E2. pose proof (be_val_be_bytes 4 (Crc.Checksum (key ++ value))) as E3.
  rewrite Z.mod_small in E1, E2, E3 by (change (256 ^ Z.of_nat 4) with (2 ^ 32); lia).
  set (k := kind _). clearbody k. pose proof (length_be_bytes 4 (len key)). pose proof (length_be_bytes 4 (len value)). pose proof (length_be_bytes 4 (Crc.Checksum (key ++ value))).
  destruct (be_bytes 4 (len key)) as [|? [|? [|? [|? [|]]]]]; try discriminate. destruct (be_bytes 4 (len value)) as [|? [|? [|? [|? [|]]]]]; try discriminate.
  destruct (be_bytes 4 (Crc.Checksum (key ++ value))) as [|? [|? [|? [|? [|]]]]]; try discriminate. auto.
Qed.

Lemma kind_known op : negb (kind op =? opPut) && negb (kind op =? opDelete) = false.
Proof. unfold kind. destruct (op_delete op); reflexivity. Qed.

Lemma to_nat_len {A} (l : list A) : Z.to_nat (len l) = length l.
Proof. unfold len. lia. Qed.

(** A whole record is replayed. *)
Lemma replay_whole f op rest s : op_ok op -> replay_loop (Datatypes.S f) (enc op ++ rest) s = replay_loop f rest (step s op).
Proof.
  intros Hok. destruct op as [key value del]. unfold enc. cbn [op_key op_value]. rewrite <- app_assoc. set (h := record_header _ key value). cbn [replay_loop].
  destruct (header_fields del key value ((key ++ value) ++ rest) Hok) as (E0 & E1 & E2 & E3). fold h in E0, E1, E2, E3.
  assert (length h = 13%nat) as Lh by (pose proof (len_header (kind (mkOp key value del)) key value) as E; unfold len in E; fold h in E; lia).
  replace (len (h ++ (key ++ value) ++ rest) <? headerLen) with false by (symmetry; apply Z.ltb_ge; rewrite len_app; unfold headerLen, len; lia).
  rewrite E0, E1, E2, E3, kind_known, drop_app_length' by exact Lh. rewrite <- (len_app key value), to_nat_len.
  replace (len ((key ++ value) ++ rest) <? len (key ++ value)) with false by (symmetry; apply Z.ltb_ge; rewrite (len_app (key ++ value)); pose proof (len_nonneg rest); lia).
  rewrite take_app_length, drop_app_length, Z.eqb_refl. cbn [negb]. rewrite to_nat_len, take_app_length. reflexivity.
Qed.

Lemma replay_all ops : Forall op_ok ops -> forall f rest s, replay_loop (length ops + f) (log ops ++ rest) s = replay_loop f rest (fold_left step ops s).
Proof.
  induction 1 as [|op ops Hop _ IH]; intros f rest s; [reflexivity|]. unfold log in *. cbn [map concat length Nat.add fold_left]. rewrite <- app_assoc, replay_whole by exact Hop. apply IH.
Qed.

(** A torn record is not. *)
Lemma replay_torn f op n s : op_ok op -> (n < length (enc op))%nat -> replay_loop (Datatypes.S f) (take n (enc op)) s = Some s.
Proof.
  intros Hok Hn. destruct op as [key value del]. unfold enc in *. cbn [op_key op_value] in *. set (h := record_header _ key value) in *. cbn [replay_loop].
  assert (length h = 13%nat) as Lh by (pose proof (len_header (kind (mkOp key value del)) key value) as E; unfold len in E; fold h in E; lia).
  rewrite !length_app in Hn. assert (len (take n (h ++ key ++ value)) = Z.of_nat n) as Ln by (unfold len; rewrite length_take, !length_app; lia). rewrite Ln. unfold headerLen.
  destruct (Z.ltb_spec (Z.of_nat n) 13); [reflexivity|]. rewrite take_app_ge by lia. destruct (header_fields del key value (take (n - length h) (key ++ value)) Hok) as (E0 & E1 & E2 & _).
  fold h in E0, E1, E2. rewrite E0, E1, E2, kind_known, drop_app_length' by exact Lh.
  replace (len (take (n - length h) (key ++ value)) <? len key + len value) with true; [reflexivity|]. symmetry. apply Z.ltb_lt. unfold len. rewrite length_take, length_app. lia.
Qed.

Lemma replay_empty f s : replay_loop (Datatypes.S f) [] s = Some s.
Proof. reflexivity. Qed.

Lemma length_enc op : length (enc op) = (13 + length (op_key op) + length (op_value op))%nat.
Proof. pose proof (len_enc op). unfold len in *. lia. Qed.

Lemma length_log ops : (13 * length ops <= length (log ops))%nat.
Proof. unfold log. induction ops as [|op ops IH]; [reflexivity|]. cbn [map concat length]. rewrite length_app, length_enc. lia. Qed.

(** The whole records in the first [n] bytes of a log, and what is left. *)
Lemma cut ops : forall n, (n <= length (log ops))%nat -> exists j, (j <= length ops)%nat /\ (n = length (log ops) -> j = length ops) /\ (length (log (take j ops)) <= n)%nat /\
  (take n (log ops) = log (take j ops) \/ exists op, ops !! j = Some op /\ (n - length (log (take j ops)) < length (enc op))%nat /\
     take n (log ops) = log (take j ops) ++ take (n - length (log (take j ops))) (enc op)).
Proof.
  induction ops as [|op ops IH]; intros n Hn; [exists 0%nat; cbn in *; split; [lia|]; split; [auto|]; split; [lia|]; left; destruct n; reflexivity|].
  change (log (op :: ops)) with (enc op ++ log ops) in *. rewrite length_app in Hn. destruct (decide (n < length (enc op))%nat) as [Hlt|Hge].
  - exists 0%nat. cbn [take]. change (log []) with (@nil Z). cbn [length app]. split; [lia|]. split; [rewrite length_app; lia|]. split; [lia|]. right. exists op. rewrite Nat.sub_0_r. split; [reflexivity|]. split; [exact Hlt|].
    rewrite take_app_le by lia. reflexivity.
  - destruct (IH (n - length (enc op))%nat ltac:(lia)) as (j & Hj & Hfull & Hl & Hcase). exists (Datatypes.S j). cbn [take length]. change (log (op :: take j ops)) with (enc op ++ log (take j ops)).
    rewrite !length_app. split; [lia|]. split; [intros; rewrite Hfull; lia|]. split; [lia|]. rewrite take_app_ge by lia. destruct Hcase as [-> | (op' & Eop & Hlt & ->)]; [left; reflexivity|]. right. exists op'.
    split; [exact Eop|]. replace (n - (length (enc op) + length (log (take j ops))))%nat with (n - length (enc op) - length (log (take j ops)))%nat by lia. split; [exact Hlt|]. rewrite app_assoc. reflexivity.
Qed.

(** * The invariant *)

Definition state_of (ops : list memOp) : replay_state := fold_left step ops start.
Definition contents (ops : list memOp) : gmap bytes bytes := fold_left apply_op ops ∅.

(** The log holds the records of [ops], and the index is theirs. *)
Record holds (d : FileDB) (ops : list memOp) : Prop := mkHolds
  { holds_ok : Forall op_ok ops;
    holds_log : file d ++ buffer d = log ops;
    holds_state : mkReplay (offset d) (index d) (deadKeys d) = state_of ops;
    holds_open : closed d = false }.

Lemma steps_pos ops : forall s, r_pos (fold_left step ops s) = r_pos s + len (log ops).
Proof.
  induction ops as [|op ops IH]; intros s; [change (len (log [])) with 0; cbn [fold_left]; lia|]. cbn [fold_left]. rewrite IH. change (log (op :: ops)) with (enc op ++ log ops). rewrite len_app, len_enc.
  cbn [step replay_record r_pos]. unfold headerLen. lia.
Qed.

Lemma state_pos ops : r_pos (state_of ops) = len (log ops).
Proof. unfold state_of. rewrite steps_pos. reflexivity. Qed.

Lemma open_log ops tail : Forall op_ok ops -> (forall f s, replay_loop (Datatypes.S f) tail s = Some s) ->
  exists d, OpenFile (log ops ++ tail) = Some d /\ holds d ops /\ buffer d = [].
Proof.
  intros Hok Ht. unfold OpenFile. pose proof (length_log ops) as Hl. replace (Datatypes.S (length (log ops ++ tail))) with (length ops + Datatypes.S (length (log ops ++ tail) - length ops))%nat by (rewrite length_app; lia).
  rewrite replay_all, Ht by exact Hok. cbn [obind]. fold start. fold (state_of ops). rewrite state_pos, to_nat_len, take_app_length. eexists. split; [reflexivity|]. split; [|reflexivity].
  constructor; cbn [file buffer offset index deadKeys closed]; [exact Hok | apply app_nil_r | | reflexivity]. rewrite <- state_pos. destruct (state_of ops). reflexivity.
Qed.

Lemma written_log d p : file (buffered_write d p) ++ buffer (buffered_write d p) = file d ++ buffer d ++ p /\
  offset (buffered_write d p) = offset d /\ index (buffered_write d p) = index d /\ deadKeys (buffered_write d p) = deadKeys d /\ closed (buffered_write d p) = closed d.
Proof.
  unfold buffered_write. destruct (Z.leb_spec (len p) (bufferSize - len (buffer d))); cbn [file buffer offset index deadKeys closed]; [auto|].
  destruct (Z.eqb_spec (len (buffer d)) 0) as [E|].
  - assert (buffer d = []) as -> by (destruct (buffer d); [reflexivity | unfold len in E; cbn in E; lia]). destruct (bufferSize <? len p); cbn; rewrite ?app_nil_r; auto.
  - destruct (bufferSize <? _); cbn; rewrite <- ?app_assoc, ?app_nil_r, take_drop; auto.
Qed.

Lemma append_holds d ops op : holds d ops -> op_ok op -> holds (append_op d op) (ops ++ [op]).
Proof.
  intros [Hok Hl Hs Ho] Hop. unfold append_op, appendRecord. fold (kind op).
  destruct (written_log d (record_header (kind op) (op_key op) (op_value op))) as (L1 & O1 & I1 & D1 & C1). set (d1 := buffered_write d _) in *.
  destruct (written_log d1 (op_key op ++ op_value op)) as (L2 & O2 & I2 & D2 & C2). set (d2 := buffered_write d1 _) in *.
  constructor; cbn [file buffer offset index deadKeys closed]; [apply Forall_app; auto | | | congruence].
  - rewrite L2, app_assoc, L1, log_app, log_one, <- Hl. unfold enc. rewrite <- !app_assoc. reflexivity.
  - unfold state_of. rewrite fold_left_app. fold (state_of ops). rewrite <- Hs. cbn [fold_left]. unfold step, replay_record. cbn [r_pos r_index r_dead]. rewrite I2, I1, D2, D1, O2, O1.
    rewrite uint32_len by apply Hop. unfold kind. destruct (op_delete op); reflexivity.
Qed.

Lemma flush_holds d ops : holds d ops -> holds (Flush d) ops.
Proof. intros [Hok Hl Hs Ho]. constructor; cbn [Flush file buffer offset index deadKeys closed]; auto. rewrite app_nil_r. exact Hl. Qed.

Lemma appends_hold b : forall d ops, holds d ops -> Forall op_ok b -> holds (fold_left append_op b d) (ops ++ b).
Proof.
  induction b as [|op b IH]; intros d ops Hd Hb; [rewrite app_nil_r; exact Hd|]. apply Forall_cons in Hb as [Hop Hb]. cbn [fold_left].
  replace (ops ++ op :: b) with ((ops ++ [op]) ++ b) by (rewrite <- app_assoc; reflexivity). apply IH; [apply append_holds; assumption | exact Hb].
Qed.

(** * The index *)

(** Where the value [v] is found. *)
Definition located (l : bytes) (loc : option recordLoc) (v : option bytes) : Prop :=
  match v, loc with
  | Some v, Some loc => l_length loc = len v /\ 0 <= l_offset loc /\ exists pre post, l = pre ++ v ++ post /\ len pre = l_offset loc
  | None, None => True
  | _, _ => False
  end.

Lemma located_more l loc v x : located l loc v -> located (l ++ x) loc v.
Proof.
  destruct v as [v|], loc as [loc|]; cbn; auto. intros (El & Ho & pre & post & -> & Ep). split; [exact El|]. split; [exact Ho|]. exists pre, (post ++ x). rewrite <- !app_assoc. auto.
Qed.

Lemma index_located ops : forall k, located (log ops) (r_index (state_of ops) !! k) (contents ops !! k).
Proof.
  induction ops as [|op ops IH] using rev_ind; intros k; [cbn; rewrite !lookup_empty; exact I|]. unfold state_of, contents. rewrite !fold_left_app. fold (state_of ops) (contents ops). cbn [fold_left].
  rewrite log_app, log_one. unfold step, replay_record, apply_op, kind. cbn [r_index]. specialize (IH k). destruct (op_delete op) eqn:Ed; cbn [Z.eqb opDelete opPut Pos.eqb].
  - destruct (decide (op_key op = k)) as [<-|Hne]; [rewrite !lookup_delete_eq; exact I | rewrite !lookup_delete_ne by exact Hne; apply located_more, IH].
  - destruct (decide (op_key op = k)) as [<-|Hne]; [|rewrite !lookup_insert_ne by exact Hne; apply located_more, IH]. rewrite !lookup_insert_eq. cbn [located l_length l_offset].
    rewrite state_pos. pose proof (len_nonneg (log ops)). pose proof (len_nonneg (op_key op)). split; [reflexivity|]. split; [unfold headerLen; lia|].
    exists (log ops ++ record_header (kind op) (op_key op) (op_value op) ++ op_key op), []. unfold enc. rewrite app_nil_r, <- !app_assoc. split; [reflexivity|]. rewrite !len_app, len_header. unfold headerLen. lia.
Qed.

Lemma read_located l loc v : located l (Some loc) (Some v) -> ReadAt l (l_offset loc) (l_length loc) = Some v.
Proof.
  intros (El & Ho & pre & post & -> & Ep). unfold ReadAt. rewrite El, <- Ep, !to_nat_len. replace (len (pre ++ v ++ post) <? len pre + len v) with false by (symmetry; apply Z.ltb_ge; rewrite !len_app; pose proof (len_nonneg post); lia).
  rewrite drop_app_length, take_app_length. reflexivity.
Qed.

Definition answer (v : option bytes) : result error bytes := match v with Some v => Ok v | None => Err ErrNotFound end.

Lemma holds_index d ops k : holds d ops -> located (log ops) (index d !! k) (contents ops !! k).
Proof. intros H. replace (index d) with (r_index (state_of ops)) by (rewrite <- (holds_state _ _ H); reflexivity). apply index_located. Qed.

Lemma get_answer d ops k : holds d ops -> buffer d = [] -> Get d k = (d, answer (contents ops !! k)).
Proof.
  intros H Hb. pose proof (holds_index d ops k H) as Hloc. unfold Get. rewrite (holds_open _ _ H), Hb. pose proof (holds_log _ _ H) as Hl. rewrite Hb, app_nil_r in Hl.
  destruct (contents ops !! k) as [v|], (index d !! k) as [loc|]; try (destruct Hloc; fail); [|reflexivity]. pose proof Hloc as (El & _). destruct (Z.eqb_spec (l_length loc) 0) as [E0|].
  - assert (v = []) as -> by (destruct v; [reflexivity | rewrite El in E0; unfold len in E0; cbn in E0; lia]). reflexivity.
  - change (0 <? len []) with false. cbv iota. rewrite Hl, (read_located _ _ _ Hloc). reflexivity.
Qed.

Lemma has_answer d ops k : holds d ops -> Has d k = bool_decide (is_Some (contents ops !! k)).
Proof.
  intros H. pose proof (holds_index d ops k H) as Hloc. unfold Has. destruct (contents ops !! k), (index d !! k); try (destruct Hloc; fail); reflexivity.
Qed.

(** * Compaction *)

Lemma contents_ok ops k v : Forall op_ok ops -> contents ops !! k = Some v -> op_ok (mkOp k v false).
Proof.
  intros Hok. induction ops as [|op ops IH] using rev_ind; [unfold contents; cbn; rewrite lookup_empty; discriminate|]. apply Forall_app in Hok as [Hok Hop]. apply Forall_cons in Hop as [Hop _].
  unfold contents. rewrite fold_left_app. fold (contents ops). cbn [fold_left]. unfold apply_op. destruct (op_delete op).
  - rewrite lookup_delete_Some. intros [_ E]. auto.
  - rewrite lookup_insert_Some. intros [[<- <-]|[_ E]]; [exact Hop | auto].
Qed.

Lemma live_all d ops : holds d ops -> forall ls, (forall k loc, (k, loc) ∈ ls -> index d !! k = Some loc) ->
  exists l, live_records (log ops) ls = Some l /\ map fst l = map fst ls /\ Forall (fun p => contents ops !! fst p = Some (snd p)) l.
Proof.
  intros H. induction ls as [|[k loc] ls IH]; intros Hls; [exists []; auto|]. destruct IH as (l & El & Ek & Hl); [intros; apply Hls; right; assumption|].
  pose proof (holds_index d ops k H) as Hloc. rewrite (Hls k loc ltac:(left)) in Hloc. destruct (contents ops !! k) as [v|] eqn:Ev; [|destruct Hloc]. cbn [live_records].
  assert ((if 0 <? l_length loc then ReadAt (log ops) (l_offset loc) (l_length loc) else Some []) = Some v) as ->.
  { destruct (Z.ltb_spec 0 (l_length loc)); [apply read_located; exact Hloc|]. destruct Hloc as (El' & _). destruct v; [reflexivity | unfold len in El'; cbn in El'; lia]. }
  cbn [obind]. rewrite El. cbn [obind]. exists ((k, v) :: l). split; [reflexivity|]. split; [cbn; congruence|]. constructor; assumption.
Qed.

(** The records compaction writes. *)
Definition puts (live : gmap bytes bytes) (keys : list bytes) : list memOp := map (fun k => mkOp k (default [] (live !! k)) false) keys.

Lemma compacted_puts live keys : Forall op_ok (puts live keys) -> NoDup keys -> forall content idx off, (forall k, k ∈ keys -> idx !! k = None) ->
  exists idx', fold_left step (puts live keys) (mkReplay off idx 0) = mkReplay (off + len (log (puts live keys))) idx' 0 /\
    compacted live keys content idx off = (content ++ log (puts live keys), idx', off + len (log (puts live keys))).
Proof.
  induction keys as [|k keys IH]; intros Hok Hnd content idx off Hidx.
  - exists idx. cbn. rewrite app_nil_r, Z.add_0_r. auto.
  - apply Forall_cons in Hok as [Hop Hok]. apply NoDup_cons in Hnd as [Hk Hnd]. set (v := default [] (live !! k)).
    change (puts live (k :: keys)) with (mkOp k v false :: puts live keys). change (log (mkOp k v false :: puts live keys)) with (enc (mkOp k v false) ++ log (puts live keys)).
    cbn [fold_left compacted]. fold v. destruct Hop as (_ & _ & _ & Lv). cbn [op_value] in Lv. fold v in Lv. rewrite uint32_len by exact Lv.
    assert (step (mkReplay off idx 0) (mkOp k v false) = mkReplay (off + headerLen + len k + len v) (<[k := mkLoc (off + headerLen + len k) (len v)]> idx) 0) as ->.
    { unfold step, replay_record. cbn [op_key op_value kind op_delete r_index r_dead r_pos]. rewrite (Hidx k ltac:(left)). reflexivity. }
    destruct (IH Hok Hnd (content ++ record_header opPut k v ++ k ++ v) (<[k := mkLoc (off + headerLen + len k) (len v)]> idx) (off + headerLen + len k + len v)) as (idx' & E1 & E2).
    { intros k' Hk'. rewrite lookup_insert_ne by (intros ->; done). apply Hidx. right. exact Hk'. }
    exists idx'. rewrite E1, E2, len_app, len_enc. cbn [op_key op_value]. unfold headerLen, enc, kind. cbn [op_delete op_key op_value]. rewrite <- !app_assoc.
    replace (off + 13 + len k + len v + len (log (puts live keys))) with (off + (13 + len k + len v + len (log (puts live keys)))) by lia. auto.
Qed.

Lemma puts_content live keys : NoDup keys -> (forall k, k ∈ keys <-> is_Some (live !! k)) -> contents (puts live keys) = live.
Proof.
  intros Hnd Hk. assert (forall m k, fold_left apply_op (puts live keys) m !! k = if bool_decide (k ∈ keys) then live !! k else m !! k) as H.
  { assert (forall k, k ∈ keys -> is_Some (live !! k)) as Hs by (intros k; apply Hk). clear Hk. induction keys as [|x keys IH]; intros m k; [reflexivity|]. apply NoDup_cons in Hnd as [Hx Hnd].
    cbn [puts map fold_left]. fold (puts live keys). rewrite IH by (auto; intros; apply Hs; right; assumption). unfold apply_op. cbn [op_delete op_key op_value]. destruct (Hs x ltac:(left)) as [v Ev]. rewrite Ev. cbn [default].
    destruct (decide (k ∈ keys)) as [Hin|Hin]; [rewrite !bool_decide_eq_true_2 by (try right; assumption); reflexivity|]. rewrite bool_decide_eq_false_2 by exact Hin.
    destruct (decide (k = x)) as [->|Hne]; [rewrite lookup_insert_eq, bool_decide_eq_true_2 by left; auto|]. rewrite lookup_insert_ne by congruence. rewrite bool_decide_eq_false_2; [reflexivity|]. intros [?|?]%elem_of_cons; done. }
  apply map_eq. intros k. unfold contents. rewrite H, lookup_empty. destruct (decide (k ∈ keys)) as [Hin|Hin]; [rewrite bool_decide_eq_true_2 by exact Hin; reflexivity|].
  rewrite bool_decide_eq_false_2 by exact Hin. rewrite Hk in Hin. destruct (live !! k); [destruct Hin; eauto | reflexivity].
Qed.

Lemma elem_map_fst {A B} (l : list (A * B)) k : k ∈ map fst l <-> exists v, (k, v) ∈ l.
Proof.
  rewrite list_elem_of_fmap. split; [intros ([x v] & -> & H); eauto | intros (v & H); exists (k, v); auto].
Qed.

Lemma compact_holds d ops : holds d ops -> exists d' ops', Compact d = (d', Ok tt) /\ holds d' ops' /\ contents ops' = contents ops /\ buffer d' = [] /\ deadKeys d' = 0.
Proof.
  intros H. pose proof (flush_holds _ _ H) as Hf. unfold Compact. rewrite (holds_open _ _ H). cbv zeta. assert (file (Flush d) = log ops) as -> by (rewrite <- (holds_log _ _ Hf); symmetry; apply app_nil_r).
  destruct (live_all _ _ Hf (map_to_list (index (Flush d)))) as (l & -> & Ek & Hl); [intros k loc; apply elem_of_map_to_list|].
  assert (NoDup (map fst l)) as Hnd by (rewrite Ek; apply NoDup_fst_map_to_list). assert (list_to_map l = contents ops) as Elive.
  { apply map_eq. intros k. destruct (contents ops !! k) as [v|] eqn:Ev.
    - apply elem_of_list_to_map_1; [exact Hnd|]. pose proof (holds_index _ _ k Hf) as Hloc. rewrite Ev in Hloc. destruct (index (Flush d) !! k) as [loc|] eqn:Ei; [|destruct Hloc].
      assert (k ∈ map fst l) as (v' & Hin)%elem_map_fst by (rewrite Ek; apply elem_map_fst; exists loc; apply elem_of_map_to_list; exact Ei).
      rewrite Forall_forall in Hl. specialize (Hl _ Hin). cbn in Hl. congruence.
    - apply not_elem_of_list_to_map_1. intros (v & Hin)%elem_map_fst. rewrite Forall_forall in Hl. specialize (Hl _ Hin). cbn in Hl. congruence. }
  rewrite Elive. set (keys := SDB.sorted_keys (map fst l)). assert (keys ≡ₚ map fst l) as Hp by apply merge_sort_Permutation.
  assert (forall k, k ∈ keys <-> is_Some (contents ops !! k)) as Hk.
  { intros k. rewrite Hp, elem_map_fst, <- Elive. split; [intros (v & Hin); exists v; apply elem_of_list_to_map_1; assumption | intros (v & E); exists v; apply elem_of_list_to_map_2; exact E]. }
  assert (NoDup keys) as Hnk by (rewrite Hp; exact Hnd). assert (Forall op_ok (puts (contents ops) keys)) as Hok.
  { apply Forall_map, Forall_forall. intros k Hin. apply Hk in Hin as (v & Ev). cbn. rewrite Ev. apply (contents_ok ops); [apply H | exact Ev]. }
  destruct (compacted_puts (contents ops) keys Hok Hnk [] ∅ 0) as (idx & E1 & ->); [intros; apply lookup_empty|]. exists (mkFile ([] ++ log (puts (contents ops) keys)) [] (0 + len (log (puts (contents ops) keys))) idx 0 (closed (Flush d))), (puts (contents ops) keys).
  split; [reflexivity|]. split; [|split; [apply puts_content; assumption | auto]]. constructor; [exact Hok | apply app_nil_r | symmetry; exact E1 | apply Hf].
Qed.

(** * Operations *)

Inductive dbop := DoPut (k v : bytes) | DoDelete (k : bytes) | DoBatch (b : Batch) | DoGet (k : bytes) | DoCompact | DoReopen.

Definition records (o : dbop) : list memOp :=
  match o with DoPut k v => [mkOp k v false] | DoDelete k => [mkOp k [] true] | DoBatch b => b | _ => [] end.

Definition run_op (d : FileDB) (o : dbop) : option FileDB :=
  match o with
  | DoPut k v => match Put d k v with Ok d => Some d | Err _ => None end
  | DoDelete k => match Delete d k with Ok d => Some d | Err _ => None end
  | DoBatch b => match batch_Write d b with Ok d => Some d | Err _ => None end
  | DoGet k => Some (fst (Get d k))
  | DoCompact => match Compact d with (d, Ok _) => Some d | (_, Err _) => None end
  | DoReopen => OpenFile (file (Close d))
  end.

Fixpoint run (d : FileDB) (os : list dbop) : option FileDB := match os with [] => Some d | o :: r => let? d := run_op d o in run d r end.

(** The same operations on the store in memory. *)
Definition mem_op (m : MemoryDB) (o : dbop) : MemoryDB :=
  match o with DoPut k v => Db.Put m k v | DoDelete k => Db.Delete m k | DoBatch b => fst (Db.batch_Write m b) | _ => m end.

Definition mem_run (os : list dbop) : MemoryDB := fold_left mem_op os NewMemoryDB.

Definition dbop_ok (o : dbop) : Prop := Forall op_ok (records o).

(** Between operations nothing is buffered and the log represents the map. *)
Definition is_map (d : FileDB) (m : MemoryDB) : Prop := buffer d = [] /\ exists ops, holds d ops /\ contents ops = m.

Lemma batch_is_map d m b : is_map d m -> Forall op_ok b -> exists d', batch_Write d b = Ok d' /\ is_map d' (fold_left apply_op b m).
Proof.
  intros (Hb & ops & H & <-) Hok. unfold batch_Write. rewrite (holds_open _ _ H). eexists. split; [reflexivity|]. split; [reflexivity|]. exists (ops ++ b).
  split; [apply flush_holds, appends_hold; assumption|]. unfold contents. apply fold_left_app.
Qed.

Lemma run_op_is_map d m o : is_map d m -> dbop_ok o -> exists d', run_op d o = Some d' /\ is_map d' (mem_op m o).
Proof.
  intros Hm Ho. destruct o as [k v|k|b|k| |]; cbn [run_op mem_op].
  - destruct (batch_is_map d m [mkOp k v false] Hm Ho) as (d' & E & H'). unfold batch_Write in E. unfold Put. destruct (closed d); [discriminate|]. injection E as <-. eauto.
  - destruct (batch_is_map d m [mkOp k [] true] Hm Ho) as (d' & E & H'). unfold batch_Write in E. unfold Delete. destruct (closed d); [discriminate|]. injection E as <-. eauto.
  - destruct (batch_is_map d m b Hm Ho) as (d' & -> & H'). eauto.
  - destruct Hm as (Hb & ops & H & <-). rewrite (get_answer d ops k H Hb). exists d. split; [reflexivity|]. split; eauto.
  - destruct Hm as (Hb & ops & H & <-). destruct (compact_holds d ops H) as (d' & ops' & -> & H' & E & Hb' & _). exists d'. split; [reflexivity|]. split; eauto.
  - destruct Hm as (Hb & ops & H & <-). unfold Close. rewrite (holds_open _ _ H). cbn [file Flush]. rewrite (holds_log _ _ H). rewrite <- (app_nil_r (log ops)).
    destruct (open_log ops []) as (d' & -> & H' & Hb'); [apply H | reflexivity|]. exists d'. split; [reflexivity|]. split; eauto.
Qed.

Lemma run_is_map os : Forall dbop_ok os -> forall d m, is_map d m -> exists d', run d os = Some d' /\ is_map d' (fold_left mem_op os m).
Proof.
  induction 1 as [|o os Ho _ IH]; intros d m Hm; [exists d; auto|]. destruct (run_op_is_map d m o Hm Ho) as (d1 & E & H1). cbn [run fold_left]. rewrite E. cbn [obind]. apply IH. exact H1.
Qed.

Definition new_db : FileDB := mkFile [] [] 0 ∅ 0 false.

Lemma new_is_map : OpenFile [] = Some new_db /\ is_map new_db ∅.
Proof. split; [reflexivity|]. split; [reflexivity|]. exists []. split; [|reflexivity]. constructor; reflexivity || constructor. Qed.

(** * Iteration *)

Lemma keys_agree d ops prefix : holds d ops -> keys_with d prefix = Db.keys_with (contents ops) prefix.
Proof.
  intros H. unfold keys_with, Db.keys_with. replace (dom (index d)) with (dom (contents ops)); [reflexivity|]. apply set_eq. intros k. rewrite !elem_of_dom. pose proof (holds_index d ops k H) as Hloc.
  destruct (contents ops !! k), (index d !! k); try (destruct Hloc; fail); split; eauto; intros [? ?]; discriminate.
Qed.

(** A callback that only reads, as the store in memory sees it. *)
Definition reading {A} (fn : A -> bytes -> bytes -> A * bool) (m : MemoryDB) (a : A) (k v : bytes) : MemoryDB * A * bool := let (a, go) := fn a k v in (m, a, go).

Lemma visit_agree {A} (fn : A -> bytes -> bytes -> A * bool) d ops keys : holds d ops -> buffer d = [] -> forall a,
  visit fn keys d a = (d, Ok (snd (Db.visit (reading fn) keys (contents ops) a))).
Proof.
  intros H Hb. induction keys as [|k keys IH]; intros a; [reflexivity|]. cbn [visit Db.visit]. rewrite (get_answer d ops k H Hb). unfold Db.Get, reading. destruct (contents ops !! k); cbn [answer]; [|apply IH].
  destruct (fn a k l) as [a' []]; [apply IH | reflexivity].
Qed.

(** C27: The durable store is a map.  After any sequence of [Put], [Delete], batches,
    reads, compactions and reopenings, on keys and values of less than 4 GiB, no
    operation has failed, and [Get], [Has] and [Iterate] answer as [MemoryDB] does after
    the same operations; [Get] finds nothing buffered, so it never writes. *)
Theorem filedb_refines os : Forall dbop_ok os ->
  exists d, (let? d := OpenFile [] in run d os) = Some d /\
    (forall k, Get d k = (d, match Db.Get (mem_run os) k with Ok v => Ok v | Err _ => Err ErrNotFound end)) /\ (forall k, Has d k = Db.Has (mem_run os) k) /\
    (forall (A : Type) (fn : A -> bytes -> bytes -> A * bool) prefix a, Iterate fn d prefix a = (d, Ok (snd (Db.Iterate (reading fn) (mem_run os) prefix a)))).
Proof.
  intros Hok. destruct new_is_map as [-> Hnew]. cbn [obind]. destruct (run_is_map os Hok new_db ∅ Hnew) as (d & -> & Hb & ops & H & E). exists d. split; [reflexivity|]. unfold mem_run, NewMemoryDB. rewrite <- E.
  split; [intros k; rewrite (get_answer d ops k H Hb); unfold Db.Get; destruct (contents ops !! k); reflexivity|]. split; [intros k; apply has_answer; exact H|].
  intros A fn prefix a. unfold Iterate, Db.Iterate. rewrite (keys_agree d ops prefix H). apply visit_agree; assumption.
Qed.

(** C14: A crash loses no acknowledged write and leaves no half-written record.  Whatever
    was done before, when the file ends anywhere within the records of the batch being
    written, opening it succeeds and the store holds what the operations before the batch
    and the first few operations of the batch, in order, make of it. *)
Theorem crash_recovery os d b d' n : Forall dbop_ok os -> Forall op_ok b -> (let? d := OpenFile [] in run d os) = Some d -> batch_Write d b = Ok d' ->
  len (file d) <= n <= len (file d') ->
  exists d'' j, OpenFile (take (Z.to_nat n) (file d')) = Some d'' /\ (j <= length b)%nat /\ (n = len (file d') -> j = length b) /\
    forall k, Get d'' k = (d'', answer (fold_left apply_op (take j b) (mem_run os) !! k)).
Proof.
  intros Hos Hb. destruct new_is_map as [-> Hnew]. cbn [obind]. destruct (run_is_map os Hos new_db ∅ Hnew) as (d0 & -> & Hbuf & ops & H & E). intros [= <-] Hw Hn.
  destruct (batch_is_map d0 (contents ops) b) as (d1 & Ew & Hbuf' & _); [split; eauto | exact Hb|]. rewrite Ew in Hw. injection Hw as <-. unfold batch_Write in Ew. rewrite (holds_open _ _ H) in Ew. injection Ew as <-.
  pose proof (flush_holds _ _ (appends_hold b d0 ops H Hb)) as H1. set (d1 := Flush _) in *. pose proof (holds_log _ _ H) as L0. pose proof (holds_log _ _ H1) as L1. rewrite Hbuf, app_nil_r in L0. rewrite Hbuf', app_nil_r in L1.
  rewrite L0, L1, log_app, len_app in *. pose proof (len_nonneg (log ops)). rewrite take_app_ge by (rewrite <- to_nat_len; lia). rewrite <- (to_nat_len (log ops)).
  destruct (cut b (Z.to_nat n - Z.to_nat (len (log ops)))%nat) as (j & Hj & Hfull & Hlen & Hcase); [rewrite <- (to_nat_len (log b)); lia|].
  assert (Forall op_ok (ops ++ take j b)) as Hok' by (apply Forall_app; split; [apply H | apply Forall_take; exact Hb]).
  assert (exists d'', OpenFile (log ops ++ take (Z.to_nat n - Z.to_nat (len (log ops))) (log b)) = Some d'' /\ holds d'' (ops ++ take j b) /\ buffer d'' = []) as (d'' & Eo & H'' & Hb'').
  { destruct Hcase as [-> | (op & Eop & Hlt & ->)].
    - rewrite <- log_app, <- (app_nil_r (log (ops ++ _))). apply open_log; [exact Hok' | reflexivity].
    - rewrite app_assoc, <- log_app. apply open_log; [exact Hok'|]. intros f s. apply replay_torn; [|exact Hlt]. rewrite Forall_lookup in Hb. eauto. }
  exists d'', j. split; [exact Eo|]. split; [exact Hj|]. split; [intros ->; apply Hfull; rewrite <- (to_nat_len (log b)); lia|].
  intros k. rewrite (get_answer d'' _ k H'' Hb''). unfold contents. rewrite fold_left_app. fold (contents ops). rewrite E. reflexivity.
Qed.

(** The checksum does not cover the lengths.  A record whose header gives one byte
    of its key to its value has the same checksum, and [replay] accepts it: the store
    answers for a key that was never written. *)
Theorem lengths_unprotected key x value : op_ok (mkOp (key ++ [x]) value false) -> op_ok (mkOp key (x :: value) false) ->
  exists d, OpenFile (opPut :: be_bytes 4 (len key) ++ be_bytes 4 (1 + len value) ++ be_bytes 4 (Crc.Checksum ((key ++ [x]) ++ value)) ++ (key ++ [x]) ++ value) = Some d /\
    Get d key = (d, Ok (x :: value)) /\ Get d (key ++ [x]) = (d, Err ErrNotFound).
Proof.
  intros _ Hok. pose proof Hok as (_ & _ & Lk & Lv). cbn [op_key op_value] in Lk, Lv. destruct (open_log [mkOp key (x :: value) false] []) as (d & E & H & Hb); [constructor; [exact Hok | constructor] | reflexivity|].
  exists d. split.
  - rewrite <- E, app_nil_r, log_one. unfold enc, record_header, kind. cbn [op_key op_value op_delete]. rewrite !uint32_len, len_cons by assumption. rewrite <- !app_assoc. reflexivity.
  - rewrite !(get_answer d _ _ H Hb). unfold contents. cbn [fold_left apply_op op_delete op_key op_value]. rewrite lookup_insert_eq. split; [reflexivity|].
    rewrite lookup_insert_ne, lookup_empty; [reflexivity|]. intros E'. apply (f_equal (length (A:=Z))) in E'. rewrite length_app in E'. cbn in E'. lia.
Qed.

(** * Witnesses *)

Example castagnoli_check : Crc.Checksum [49; 50; 51; 52; 53; 54; 55; 56; 57] = 0xe3069283.
Proof. vm_compute. reflexivity. Qed.

Definition sample_ops : list dbop := [DoPut [1] [10; 11]; DoPut [2] []; DoBatch [mkOp [1] [12] false; mkOp [3] [7; 7; 7] false]; DoDelete [2]; DoGet [1]; DoCompact; DoReopen].
Definition sample_batch : Batch := [mkOp [5] [1; 2] false; mkOp [1] [] true].

Lemma small_op (k v : bytes) del : bytes_ok k -> bytes_ok v -> (length k < 100)%nat -> (length v < 100)%nat -> op_ok (mkOp k v del).
Proof. intros Hk Hv Lk Lv. split; [exact Hk|]. split; [exact Hv|]. cbn [op_key op_value]. unfold len. lia. Qed.

Ltac each tac := repeat first [apply Forall_nil_2 | apply Forall_cons_2; [tac|]].
Ltac small := apply small_op; [each ltac:(unfold byte_ok; lia) | each ltac:(unfold byte_ok; lia) | cbn; lia | cbn; lia].

Lemma sample_ops_ok : Forall dbop_ok sample_ops.
Proof. unfold sample_ops. each ltac:(unfold dbop_ok; cbn [records]; each small). Qed.

Lemma sample_batch_ok : Forall op_ok sample_batch.
Proof. unfold sample_batch. each small. Qed.

Lemma filedb_refines_witness : exists d, (let? d := OpenFile [] in run d sample_ops) = Some d /\ Get d [1] = (d, Ok [12]) /\ Get d [2] = (d, Err ErrNotFound) /\ Has d [3] = true.
Proof.
  destruct (filedb_refines sample_ops sample_ops_ok) as (d & E & Hg & Hh & _). exists d. split; [exact E|]. rewrite !Hg, Hh. auto.
Defined.

(** The file ends within the second record of the batch. *)
Lemma crash_recovery_witness : exists d d' d'', (let? d := OpenFile [] in run d sample_ops) = Some d /\ batch_Write d sample_batch = Ok d' /\
  OpenFile (take (Z.to_nat 50) (file d')) = Some d''.
Proof.
  destruct (let? d := OpenFile [] in run d sample_ops) as [d|] eqn:E; [|vm_compute in E; discriminate]. destruct (batch_Write d sample_batch) as [d'|] eqn:Ew; [|vm_compute in E; injection E as <-; vm_compute in Ew; discriminate].
  assert (len (file d) <= 50 <= len (file d')) as Hn by (vm_compute in E; injection E as <-; vm_compute in Ew; injection Ew as <-; vm_compute; split; discriminate).
  destruct (crash_recovery sample_ops d sample_batch d' 50 sample_ops_ok sample_batch_ok E Ew Hn) as (d'' & j & Eo & _). exists d, d', d''. auto.
Defined.

Lemma lengths_unprotected_witness : exists d, OpenFile (opPut :: be_bytes 4 1 ++ be_bytes 4 2 ++ be_bytes 4 (Crc.Checksum (([9] ++ [8]) ++ [7])) ++ ([9] ++ [8]) ++ [7]) = Some d /\ Get d [9] = (d, Ok [8; 7]).
Proof.
  destruct (lengths_unprotected [9] 8 [7]) as (d & E & Hg & _); [small | small|]. exists d. auto.
Defined.

End FileFacts.
