(* ===== verification/RawDb.v ===== *)
(** The records of the chain in the store (src/chain/rawdb.go, and the finalized
    hash of src/chain/finality.go): keys, blocks, headers, receipts, the canonical
    index and the index of transactions.

    The store is the one the tries live in; [ChainStore] adds to [TrieStore] what the
    chain uses of it, batches with deletions, and [StoreLaws] what it relies on.
    [None] is a panic. *)

From Stdlib Require Import String.
From stdpp Require Import base list gmap.
From Stdlib Require Import ZArith Lia.
From S2P Require Import Prelude Common RLP StateDB Transaction CoreBlock Database.
From S2P Require Import Precompiles.
Local Open Scope Z_scope.
Local Open Scope go_scope.

Class ChainStore {TS : TrieStore} := store_apply : Store -> list Db.memOp -> Store.

(** The first byte of a key: the namespace it belongs to. *)
Definition namespace (key : bytes) : Z := hd 0 key.

Class StoreLaws {TS : TrieStore} (CS : ChainStore) := {
  apply_nil : forall s k, store_get (store_apply s []) k = store_get s k;
  apply_snoc : forall s b op k, store_get (store_apply s (b ++ [op])) k =
    if bool_decide (Db.op_key op = k) then (if Db.op_delete op then None else Some (Db.op_value op)) else store_get (store_apply s b) k;
  write_other : forall s l k, k ∉ map fst l -> store_get (store_write s l) k = store_get s k;
  (** The nodes of a trie live in their own namespace. *)
  commit_namespace : forall s t t' r nodes, trie_commit s t = Some (t', r, nodes) -> Forall (fun p => namespace (fst p) = 110) nodes
}.

Module RawDb.
Import Db Blk Rcpt.

Inductive error :=
| ErrNotFound
| ErrBlock (e : block_error)
| ErrCodec (e : Rlp.error)
| ErrReceipt (e : Tx.tx_error).

(** * Keys *)

Definition prefixHeader : bytes := bytes_of_string "h".
Definition prefixBody : bytes := bytes_of_string "b".
Definition prefixReceipts : bytes := bytes_of_string "r".
Definition prefixCanonical : bytes := bytes_of_string "H".
Definition prefixTxLookup : bytes := bytes_of_string "l".
Definition prefixHeaderNum : bytes := bytes_of_string "N".
Definition keyHeadBlock : bytes := bytes_of_string "LastBlock".
Definition keyGenesisHash : bytes := bytes_of_string "GenesisHash".
Definition keyChainConfig : bytes := bytes_of_string "ChainConfig".
Definition keyFinalizedBlock : bytes := bytes_of_string "FinalizedBlock".

Definition encodeNumber (n : Z) : bytes := be_bytes 8 n.
Definition canonicalKey (number : Z) : bytes := prefixCanonical ++ encodeNumber number.
Definition headerKey (number : Z) (hash : Hash) : bytes := prefixHeader ++ encodeNumber number ++ hash.
Definition bodyKey (hash : Hash) : bytes := prefixBody ++ hash.
Definition receiptsKey (hash : Hash) : bytes := prefixReceipts ++ hash.
Definition txLookupKey (hash : Hash) : bytes := prefixTxLookup ++ hash.
Definition headerNumberKey (hash : Hash) : bytes := prefixHeaderNum ++ hash.

Section Records.
Context `{K : Keccak} `{C : NativeCrypto} {TS : TrieStore}.

(** The hash of a block, whether or not it is cached. *)
Definition hash_of (b : Block) : option Hash := let? r := BlockHash b in Some (snd r).
Definition number_of (b : Block) : Z := NumberU64 (b_header b).

(** * Blocks and headers *)

(** A [nil] result of an encoder inside is an error of the function. *)
Definition WriteBlock (batch : Batch) (block : Block) : option (result error Batch) :=
  match MarshalBlock block with
  | Err e => Some (Err (ErrCodec e))
  | Ok enc =>
      let? hash := hash_of block in
      let batch := batch_Put batch (bodyKey hash) enc in
      match Rlp.Encode (Rlp.VPtr (header_value (b_header block))) (Rlp.TPtr header_type) with
      | Err e => Some (Err (ErrCodec e))
      | Ok headerEnc =>
          let batch := batch_Put batch (headerKey (number_of block) hash) headerEnc in
          Some (Ok (batch_Put batch (headerNumberKey hash) (encodeNumber (number_of block))))
      end
  end.

Definition ReadBlock (s : Store) (hash : Hash) : result error Block :=
  match store_get s (bodyKey hash) with
  | None => Err ErrNotFound
  | Some enc => match UnmarshalBlock enc with Err e => Err (ErrBlock e) | Ok b => Ok b end
  end.

Definition ReadHeader (s : Store) (number : Z) (hash : Hash) : result error Header :=
  match store_get s (headerKey number hash) with
  | None => Err ErrNotFound
  | Some enc =>
      match Rlp.Decode enc header_type with
      | Err e => Err (ErrCodec e)
      | Ok v =>
          match header_of (Rlp.VPtr v) with
          | None => Err ErrNotFound
          | Some h => Ok (with_number h (Some (default 0 (h_number h))) (Some (default 0 (h_baseFee h))))
          end
      end
  end.

Definition ReadHeaderNumber (s : Store) (hash : Hash) : result error Z :=
  match store_get s (headerNumberKey hash) with
  | None => Err ErrNotFound
  | Some enc => if len enc =? 8 then Ok (be_val enc) else Err ErrNotFound
  end.

(** * The canonical index *)

Definition WriteCanonicalHash (batch : Batch) (number : Z) (hash : Hash) : Batch := batch_Put batch (canonicalKey number) hash.
Definition DeleteCanonicalHash (batch : Batch) (number : Z) : Batch := batch_Delete batch (canonicalKey number).

(** A hash stored under a key. *)
Definition read_hash (s : Store) (key : bytes) : result error Hash := match store_get s key with None => Err ErrNotFound | Some enc => Ok (BytesToHash enc) end.

Definition ReadCanonicalHash (s : Store) (number : Z) : result error Hash := read_hash s (canonicalKey number).
Definition ReadHeadBlockHash (s : Store) : result error Hash := read_hash s keyHeadBlock.
Definition ReadGenesisHash (s : Store) : result error Hash := read_hash s keyGenesisHash.
Definition ReadFinalizedHash (s : Store) : result error Hash := read_hash s keyFinalizedBlock.
Definition WriteHeadBlockHash (batch : Batch) (hash : Hash) : Batch := batch_Put batch keyHeadBlock hash.
Definition WriteGenesisHash (batch : Batch) (hash : Hash) : Batch := batch_Put batch keyGenesisHash hash.
Definition WriteFinalizedHash (batch : Batch) (hash : Hash) : Batch := batch_Put batch keyFinalizedBlock hash.
Definition WriteChainConfig (batch : Batch) (enc : bytes) : Batch := batch_Put batch keyChainConfig enc.
Definition ReadChainConfig (s : Store) : result error bytes := match store_get s keyChainConfig with None => Err ErrNotFound | Some enc => Ok enc end.

(** * Receipts *)

Definition stored_type : Rlp.GoType := Rlp.TStruct [Rlp.mkField "Encoded" true "" (Rlp.TSlice Tx.bytes_type)].

Definition WriteReceipts (batch : Batch) (hash : Hash) (receipts : list Receipt) : option (result error Batch) :=
  let? encs := EncodeReceiptsForRoot receipts in
  match Rlp.Encode (Rlp.VPtr (Rlp.VStruct [Rlp.VSeq (map Rlp.bytes_value encs)])) (Rlp.TPtr stored_type) with
  | Err e => Some (Err (ErrCodec e))
  | Ok enc => Some (Ok (batch_Put batch (receiptsKey hash) enc))
  end.

Fixpoint read_receipts (items : list bytes) : result error (list Receipt) :=
  match items with
  | [] => Ok []
  | item :: r => match UnmarshalReceipt item with Err e => Err (ErrReceipt e) | Ok x => let! rs := read_receipts r in Ok (x :: rs) end
  end.

Definition ReadReceipts (s : Store) (hash : Hash) : result error (list Receipt) :=
  match store_get s (receiptsKey hash) with
  | None => Err ErrNotFound
  | Some enc =>
      match Rlp.Decode enc stored_type with
      | Err e => Err (ErrCodec e)
      | Ok v => read_receipts (map Tx.as_bytes (Tx.as_list (nth 0 (Tx.as_list v) Rlp.VNil)))
      end
  end.

(** * Transactions *)

Record TxLookupEntry := mkEntry { e_blockHash : Hash; e_blockIndex : Z; e_index : Z }.

Definition entry_type : Rlp.GoType := Rlp.TStruct
  [Rlp.mkField "BlockHash" true "" hash_type; Rlp.mkField "BlockIndex" true "" (Rlp.TUint 64); Rlp.mkField "Index" true "" (Rlp.TUint 64)].
Definition entry_value (e : TxLookupEntry) : Rlp.GoVal := Rlp.VStruct [Rlp.VBytes (e_blockHash e); Rlp.VUint (e_blockIndex e); Rlp.VUint (e_index e)].
Definition entry_of (v : Rlp.GoVal) : TxLookupEntry :=
  let f n := nth n (Tx.as_list v) Rlp.VNil in mkEntry (Tx.as_bytes (f 0%nat)) (Tx.as_uint (f 1%nat)) (Tx.as_uint (f 2%nat)).

Fixpoint write_lookups (batch : Batch) (hash : Hash) (number : Z) (i : Z) (txs : list Tx.Transaction) : option (result error Batch) :=
  match txs with
  | [] => Some (Ok batch)
  | tx :: r =>
      match Rlp.Encode (Rlp.VPtr (entry_value (mkEntry hash number i))) (Rlp.TPtr entry_type) with
      | Err e => Some (Err (ErrCodec e))
      | Ok enc => let? h := Tx.TxHash tx in write_lookups (batch_Put batch (txLookupKey (snd h)) enc) hash number (i + 1) r
      end
  end.

Definition WriteTxLookups (batch : Batch) (block : Block) : option (result error Batch) :=
  match b_txs block with
  | [] => Some (Ok batch)
  | txs => let? hash := hash_of block in write_lookups batch hash (number_of block) 0 txs
  end.

Fixpoint delete_lookups (batch : Batch) (txs : list Tx.Transaction) : option Batch :=
  match txs with
  | [] => Some batch
  | tx :: r => let? h := Tx.TxHash tx in delete_lookups (batch_Delete batch (txLookupKey (snd h))) r
  end.

Definition DeleteTxLookups (batch : Batch) (block : Block) : option Batch := delete_lookups batch (b_txs block).

Definition ReadTxLookup (s : Store) (hash : Hash) : result error TxLookupEntry :=
  match store_get s (txLookupKey hash) with
  | None => Err ErrNotFound
  | Some enc => match Rlp.Decode enc entry_type with Err e => Err (ErrCodec e) | Ok v => Ok (entry_of v) end
  end.

End Records.
End RawDb.
