(* ===== verification/RawDbFacts.v ===== *)
(** Reading what was written to the chain's store: the namespaces of the keys, the
    effect of a batch, and the round trips of blocks and indices. *)

From Stdlib Require Import String.
From stdpp Require Import base list gmap.
From Stdlib Require Import ZArith Lia.
From S2P Require Import Prelude Common RLP StateDB Transaction CoreBlock CoreBlockFacts Database RawDb.
From S2P Require Import Precompiles.
Local Open Scope Z_scope.
Local Open Scope go_scope.

Module RawFacts.
Import Db Blk Rcpt RawDb.

(** * Keys *)

Lemma number_inj n m : u64_ok n -> u64_ok m -> encodeNumber n = encodeNumber m -> n = m.
Proof.
  intros Hn Hm E. apply (f_equal be_val) in E. unfold encodeNumber in E. rewrite !be_val_be_bytes in E. change (256 ^ Z.of_nat 8) with two64 in E. rewrite !Z.mod_small in E by assumption. exact E.
Qed.

Lemma canonical_inj n m : u64_ok n -> u64_ok m -> canonicalKey n = canonicalKey m -> n = m.
Proof. intros Hn Hm E. apply number_inj; auto. exact (app_inv_head prefixCanonical _ _ E). Qed.

Lemma body_inj h h' : bodyKey h = bodyKey h' -> h = h'.
Proof. apply app_inv_head. Qed.

Lemma header_number_inj h h' : headerNumberKey h = headerNumberKey h' -> h = h'.
Proof. apply app_inv_head. Qed.

Lemma header_inj n m h h' : headerKey n h = headerKey m h' -> h = h'.
Proof. intros E. apply app_inv_head in E. apply app_inj_1 in E as [_ E]; [exact E | reflexivity]. Qed.

Section Effects.
Context {TS : TrieStore} {CS : ChainStore} {SL : StoreLaws CS}.

(** * Batches *)

(** What a batch does to a key: the last operation on it. *)
Definition effect (b : Batch) (k : bytes) : option (option bytes) :=
  fold_left (fun e op => if bool_decide (op_key op = k) then Some (if op_delete op then None else Some (op_value op)) else e) b None.

Lemma effect_snoc b op k : effect (b ++ [op]) k = if bool_decide (op_key op = k) then Some (if op_delete op then None else Some (op_value op)) else effect b k.
Proof. unfold effect. rewrite fold_left_app. reflexivity. Qed.

Lemma get_apply s b k : store_get (store_apply s b) k = match effect b k with Some v => v | None => store_get s k end.
Proof.
  induction b as [|op b IH] using rev_ind; [apply apply_nil|]. rewrite apply_snoc, effect_snoc. destruct (bool_decide (op_key op = k)); [reflexivity | exact IH].
Qed.

Lemma effect_put b key value k : effect (batch_Put b key value) k = if bool_decide (key = k) then Some (Some value) else effect b k.
Proof. apply effect_snoc. Qed.

Lemma effect_delete b key k : effect (batch_Delete b key) k = if bool_decide (key = k) then Some None else effect b k.
Proof. apply effect_snoc. Qed.

Lemma effect_put_other b key value k : namespace key <> namespace k -> effect (batch_Put b key value) k = effect b k.
Proof. intros H. rewrite effect_put, bool_decide_eq_false_2 by congruence. reflexivity. Qed.

Lemma effect_delete_other b key k : namespace key <> namespace k -> effect (batch_Delete b key) k = effect b k.
Proof. intros H. rewrite effect_delete, bool_decide_eq_false_2 by congruence. reflexivity. Qed.

End Effects.

Ltac elsewhere := first [rewrite effect_put_other by (cbn; discriminate) | rewrite effect_delete_other by (cbn; discriminate)].

(** * Blocks *)

Section Blocks.
Context `{K : Keccak} `{C : NativeCrypto} {TS : TrieStore} {CS : ChainStore} {SL : StoreLaws CS}.

(** A block as the network delivers it or the builder makes it: its body matches its header, a cached hash is its own, its number fits its
    accessor, and its encoding is one a slice can hold. *)
Record fine (b : Block) : Prop := mkFine
  { fine_ok : BlockFacts.block_ok b;
    fine_cache : match b_hash b with None => True | Some h => HeaderHash (b_header b) = Some h end;
    fine_txs : Forall (fun tx => match Tx.c_hash tx with None => True | Some h => Tx.hash_of (Tx.inner tx) = Some h end) (b_txs b);
    fine_size : forall e, MarshalBlock b = Ok e -> Rlp.fits e;
    fine_number : exists n, h_number (b_header b) = Some n /\ u64_ok n }.

(** A block as it is read back. *)
Definition decoded (b : Block) : Block := mkBlock (b_header b) (map Tx.NewTx (payloads b)) None 0.

Lemma header_hash h : BlockFacts.header_ok h -> exists x, HeaderHash h = Some x /\ length x = 32%nat.
Proof.
  intros H. destruct (BlockFacts.encode_header h H) as [p E]. unfold HeaderHash, header_message.
  change (Rlp.Encode (Rlp.VPtr (header_value h)) (Rlp.TPtr header_type)) with (Rlp.encodeValue (header_value h) header_type). rewrite E. eexists. split; [reflexivity | apply Sum256_length].
Qed.

Lemma hash_fine b : fine b -> exists h, hash_of b = Some h /\ HeaderHash (b_header b) = Some h /\ length h = 32%nat.
Proof.
  intros [Hok Hc _ _ _]. destruct (header_hash _ (proj1 Hok)) as (h & E & Hl). exists h. unfold hash_of, BlockHash. destruct (b_hash b) as [h'|]; [rewrite E in Hc; injection Hc as <-; auto|]. rewrite E. auto.
Qed.

Lemma hash_decoded b : hash_of (decoded b) = HeaderHash (b_header b).
Proof. unfold hash_of, BlockHash, decoded. cbn [b_hash b_header]. destruct (HeaderHash (b_header b)); reflexivity. Qed.

(** The header in a store, found through its number. *)
Definition hdr (s : Store) (h : Hash) : option Header :=
  match ReadHeaderNumber s h with Ok n => match ReadHeader s n h with Ok x => Some x | Err _ => None end | Err _ => None end.

Lemma header_enc_fits p q : Rlp.fits (Rlp.write_list (Rlp.write_list p ++ q)) -> Rlp.fits (Rlp.write_list p).
Proof. intros H. destruct (Rlp.fits_app _ _ H) as [_ Hi]. exact (proj1 (Rlp.fits_app _ _ Hi)). Qed.

Lemma WriteBlock_fine batch b h : fine b -> hash_of b = Some h -> exists e he, UnmarshalBlock e = Ok (decoded b) /\ Rlp.Decode he header_type = Ok (header_value (b_header b)) /\
  WriteBlock batch b = Some (Ok (batch_Put (batch_Put (batch_Put batch (bodyKey h) e) (headerKey (number_of b) h) he) (headerNumberKey h) (encodeNumber (number_of b)))).
Proof.
  intros Hf Eh. destruct (BlockFacts.block_roundtrip b (fine_ok b Hf)) as (e & Em & Hu). pose proof (proj1 (fine_ok b Hf)) as Hok. destruct (BlockFacts.encode_header _ Hok) as [p Ep].
  exists e, (Rlp.write_list p). split; [apply Hu, (fine_size b Hf), Em|]. split.
  - assert (Rlp.fits (Rlp.write_list p)) as Hfit.
    { pose proof (fine_size b Hf e Em) as Hs. unfold MarshalBlock in Em. change (Rlp.encodeValue (Rlp.VPtr (header_value (b_header b))) (Rlp.TPtr header_type)) with (Rlp.encodeValue (header_value (b_header b)) header_type) in Em.
      rewrite Ep in Em. cbn [rbind] in Em. destruct (Rlp.sequence _); [|discriminate]. injection Em as <-. exact (header_enc_fits _ _ Hs). }
    unfold Rlp.Decode. rewrite <- (app_nil_r (Rlp.write_list p)) in Hfit. destruct (Rlp.value_round _ _ _ [] (BlockFacts.canon_header _ Hok) Ep Hfit) as [Hd _]. rewrite app_nil_r in Hd. rewrite Hd. reflexivity.
  - unfold WriteBlock. rewrite Em, Eh. cbn [obind].
    change (Rlp.Encode (Rlp.VPtr (header_value (b_header b))) (Rlp.TPtr header_type)) with (Rlp.encodeValue (header_value (b_header b)) header_type). rewrite Ep. reflexivity.
Qed.

(** The header record of a block that was written. *)
Lemma header_read b he s : fine b -> Rlp.Decode he header_type = Ok (header_value (b_header b)) -> forall h, store_get s (headerNumberKey h) = Some (encodeNumber (number_of b)) -> store_get s (headerKey (number_of b) h) = Some he -> hdr s h = Some (b_header b).
Proof.
  intros Hf Ed h En Eh. unfold hdr, ReadHeaderNumber, ReadHeader. rewrite En. unfold encodeNumber. assert (len (be_bytes 8 (number_of b)) = 8) as -> by reflexivity. cbn [Z.eqb Pos.eqb].
  rewrite be_val_be_bytes. destruct (fine_number b Hf) as (n & Hn & Hu). assert (number_of b = n) as Enb by (unfold number_of, NumberU64; rewrite Hn; apply wrap64_small; exact Hu).
  rewrite Z.mod_small by (rewrite Enb; exact Hu). rewrite Eh, Ed, BlockFacts.header_of_value. destruct (proj1 (fine_ok b Hf)) as (_ & _ & _ & _ & _ & _ & (m & Hm & _) & _ & _ & _ & (f & Hbf & _) & _).
  rewrite Hm, Hbf. cbn [default from_option id]. f_equal. rewrite <- Hm, <- Hbf. destruct (b_header b); reflexivity.
Qed.

(** * The index of transactions *)

(** Every transaction of the block has a hash. *)
Definition hashable (b : Block) : Prop := Forall (fun tx => is_Some (Tx.TxHash tx)) (b_txs b).

Lemma payload_hash i : BlockFacts.item_ok i -> is_Some (Tx.hash_of i).
Proof. intros (_ & b & E & _). unfold Tx.hash_of. rewrite E. eauto. Qed.

Lemma fine_hashable b : fine b -> hashable b /\ hashable (decoded b).
Proof.
  intros Hf. destruct (fine_ok b Hf) as (_ & Hi & _). unfold hashable, decoded, payloads in *. cbn [b_txs]. rewrite map_map. rewrite Forall_map in Hi. split.
  - eapply Forall_impl; [exact Hi|]. intros tx H. destruct (payload_hash _ H) as [h E]. unfold Tx.TxHash. destruct (Tx.c_hash tx); [eauto|]. rewrite E. cbn. eauto.
  - apply Forall_map. eapply Forall_impl; [exact Hi|]. intros tx H. destruct (payload_hash _ H) as [h E]. unfold Tx.TxHash. cbn [Tx.c_hash Tx.inner Tx.NewTx]. rewrite E. cbn. eauto.
Qed.

Lemma entry_encodes e : exists enc, Rlp.Encode (Rlp.VPtr (entry_value e)) (Rlp.TPtr entry_type) = Ok enc.
Proof. destruct e as [h n i]. eexists. reflexivity. Qed.

Lemma write_lookups_fine txs hash number : Forall (fun tx => is_Some (Tx.TxHash tx)) txs -> forall batch i,
  exists batch', write_lookups batch hash number i txs = Some (Ok batch') /\ forall k, namespace k <> 108 -> effect batch' k = effect batch k.
Proof.
  induction 1 as [|tx txs [[tx' h] E] _ IH]; intros batch i; cbn [write_lookups]; [eauto|]. destruct (entry_encodes (mkEntry hash number i)) as [enc ->]. rewrite E. cbn [obind snd].
  destruct (IH (batch_Put batch (txLookupKey h) enc) (i + 1)) as (batch' & -> & He). exists batch'. split; [reflexivity|]. intros k Hk. rewrite He by exact Hk. apply effect_put_other. intros En. apply Hk. symmetry. exact En.
Qed.

Lemma WriteTxLookups_fine batch b h : hashable b -> hash_of b = Some h -> exists batch', WriteTxLookups batch b = Some (Ok batch') /\ forall k, namespace k <> 108 -> effect batch' k = effect batch k.
Proof. intros Hb Eh. unfold WriteTxLookups. rewrite Eh. destruct (b_txs b) eqn:E; [eauto|]. cbn [obind]. rewrite <- E. apply write_lookups_fine. exact Hb. Qed.

Lemma delete_lookups_fine txs : Forall (fun tx => is_Some (Tx.TxHash tx)) txs -> forall batch,
  exists batch', delete_lookups batch txs = Some batch' /\ forall k, namespace k <> 108 -> effect batch' k = effect batch k.
Proof.
  induction 1 as [|tx txs [[tx' h] E] _ IH]; intros batch; cbn [delete_lookups]; [eauto|]. rewrite E. cbn [obind snd].
  destruct (IH (batch_Delete batch (txLookupKey h))) as (batch' & -> & He). exists batch'. split; [reflexivity|]. intros k Hk. rewrite He by exact Hk. apply effect_delete_other. intros En. apply Hk. symmetry. exact En.
Qed.

End Blocks.
End RawFacts.
