(* ===== verification/Chain.v ===== *)
(** The chain (src/chain/blockchain.go and finality.go): import of blocks, the choice
    of the head, reorganisations, finality, and the validator sets read from the
    registry.

    [BlockChain] holds what the code keeps in memory; the store is passed along with
    it, since every write goes through the chain.  The engine is the modelled
    [PoA], with the chain as its provider; the clock is an argument.  An operation
    returns the chain it leaves, error or not, and [None] for a panic.  Locks,
    subscribers and the tracking of writes are not modelled: an event is returned
    instead of sent. *)

From Stdlib Require Import String.
From stdpp Require Import base list gmap.
From Stdlib Require Import ZArith Lia.
From S2P Require Import Prelude Common RLP Attestation Registry Lifecycle StateDB Interpreter Precompiles Transaction CoreBlock Processor Poa Database RawDb.
Local Open Scope Z_scope.
Local Open Scope go_scope.

Module Chain.
Import Db Blk Rcpt RawDb.

(** Why a validator set could not be read. *)
Inductive set_error := ErrStateMissing | ErrRegistry (e : Reg.error) | ErrUnusableKey.

Inductive error :=
| ErrKnownBlock
| ErrUnknownAncestor
| ErrStateRootMismatch
| ErrReceiptRootMismatch
| ErrBlockTooLarge
| ErrConflictsWithFinalized
| ErrFinalityRegression
| ErrQuorumNotMet
| ErrJustifiesLater
| ErrCertificateHeight
| ErrSnapshotName
| ErrSnapshotHistory
| ErrTxRootMismatch
| ErrHeader (e : Poa.error)
| ErrLimit (e : Proc.limit_error)
| ErrDecode (e : Rlp.error)
| ErrCertificate (e : Att.error)
| ErrSet (e : set_error)
| ErrState
| ErrProcess (e : Proc.error set_error)
| ErrRecord (e : RawDb.error)
| OutOfSteps.

Section Chain.
Context `{K : Keccak} {TS : TrieStore} {CS : ChainStore} `{C : NativeCrypto} `{B : Bls} {BP : BlsPossession B}.
#[local] Existing Instance SDB.statedb_access.

Record BlockChain := mkChain
  { bc_store : Store; bc_engine : Poa.PoA; bc_config : Proc.Config; bc_genesis : Block; bc_current : Block; bc_finalized : option Block }.

Record ChainEvent := mkEvent { ev_block : Block; ev_receipts : list Receipt; ev_logs : list SDB.Log; ev_reverted : list Block }.

Definition with_store (bc : BlockChain) (s : Store) : BlockChain :=
  mkChain s (bc_engine bc) (bc_config bc) (bc_genesis bc) (bc_current bc) (bc_finalized bc).
Definition with_current (bc : BlockChain) (b : Block) : BlockChain :=
  mkChain (bc_store bc) (bc_engine bc) (bc_config bc) (bc_genesis bc) b (bc_finalized bc).
Definition with_finalized (bc : BlockChain) (b : Block) : BlockChain :=
  mkChain (bc_store bc) (bc_engine bc) (bc_config bc) (bc_genesis bc) (bc_current bc) (Some b).

Definition write (bc : BlockChain) (batch : Batch) : BlockChain := with_store bc (store_apply (bc_store bc) batch).

(** * Lookups *)

Definition found {E A} (r : result E A) : option A := match r with Ok a => Some a | Err _ => None end.

Definition GetBlockByHash (bc : BlockChain) (hash : Hash) : option Block := found (ReadBlock (bc_store bc) hash).
Definition GetBlockByNumber (bc : BlockChain) (number : Z) : option Block :=
  let? hash := found (ReadCanonicalHash (bc_store bc) number) in GetBlockByHash bc hash.
Definition GetHeaderByHash (bc : BlockChain) (hash : Hash) : option Header :=
  let? number := found (ReadHeaderNumber (bc_store bc) hash) in found (ReadHeader (bc_store bc) number hash).
Definition GetHeaderByNumber (bc : BlockChain) (number : Z) : option Header :=
  let? hash := found (ReadCanonicalHash (bc_store bc) number) in found (ReadHeader (bc_store bc) number hash).
Definition HasBlock (bc : BlockChain) (hash : Hash) : bool := bool_decide (is_Some (store_get (bc_store bc) (bodyKey hash))).

Definition GetTransaction (bc : BlockChain) (hash : Hash) : option (Tx.Transaction * TxLookupEntry) :=
  let? entry := found (ReadTxLookup (bc_store bc) hash) in
  let? block := GetBlockByHash bc (e_blockHash entry) in
  if len (b_txs block) <=? e_index entry then None
  else let? tx := b_txs block !! Z.to_nat (e_index entry) in Some (tx, entry).

Definition StateAt (bc : BlockChain) (root : Hash) : option SDB.StateDB := SDB.New root (bc_store bc).

(** * Validator sets *)

Definition genesisValidators (bc : BlockChain) : list Address :=
  match StateAt bc (h_stateRoot (b_header (bc_genesis bc))) with
  | None => Poa.validators (bc_engine bc)
  | Some d => match Reg.ActiveAddressesAt d 0 with Err _ | Ok [] => Poa.validators (bc_engine bc) | Ok set => set end
  end.

Definition ValidatorsAt (bc : BlockChain) (blockNumber : Z) : result set_error (list Address) :=
  let epoch := Reg.EpochOf blockNumber in
  if epoch =? 0 then Ok (genesisValidators bc)
  else
    match GetHeaderByNumber bc (Reg.EpochStart epoch -w 1) with
    | None => Ok (genesisValidators bc)
    | Some header =>
        match StateAt bc (h_stateRoot header) with
        | None => Err ErrStateMissing
        | Some d => match Reg.ActiveAddressesAt d epoch with Err e => Err (ErrRegistry e) | Ok [] => Ok (genesisValidators bc) | Ok set => Ok set end
        end
    end.

Definition ProposerAtHeight (bc : BlockChain) (blockNumber round : Z) : option Address :=
  let epoch := Reg.EpochOf blockNumber in
  if epoch =? 0 then None
  else
    let? header := GetHeaderByNumber bc (Reg.EpochStart epoch -w 1) in
    let? d := StateAt bc (h_stateRoot header) in
    found (Reg.ProposerAt d epoch (Reg.RandaoMix d) blockNumber round).

Definition Validators (bc : BlockChain) : list Address :=
  match ValidatorsAt bc (number_of (bc_current bc) +w 1) with Ok set => set | Err _ => genesisValidators bc end.

Definition genesisBLSKeys (bc : BlockChain) : result set_error (list bytes) :=
  match StateAt bc (h_stateRoot (b_header (bc_genesis bc))) with
  | None => Err ErrStateMissing
  | Some d => match Reg.ActiveBLSKeysAt d 0 with Err e => Err (ErrRegistry e) | Ok keys => Ok keys end
  end.

Definition rawBLSKeysAt (bc : BlockChain) (blockNumber : Z) : result set_error (list bytes) :=
  let epoch := Reg.EpochOf blockNumber in
  if epoch =? 0 then genesisBLSKeys bc
  else
    match GetHeaderByNumber bc (Reg.EpochStart epoch -w 1) with
    | None => genesisBLSKeys bc
    | Some header =>
        match StateAt bc (h_stateRoot header) with
        | None => Err ErrStateMissing
        | Some d => match Reg.ActiveBLSKeysAt d epoch with Err e => Err (ErrRegistry e) | Ok [] => genesisBLSKeys bc | Ok keys => Ok keys end
        end
    end.

(** An absent key is nil; an unusable one is an error. *)
Fixpoint parse_keys (raw : list bytes) : result set_error (list (option PublicKey)) :=
  match raw with
  | [] => Ok []
  | enc :: r =>
      if len enc =? 0 then let! ks := parse_keys r in Ok (None :: ks)
      else match PublicKeyFromBytes enc with None => Err ErrUnusableKey | Some k => let! ks := parse_keys r in Ok (Some k :: ks) end
  end.

Definition BLSKeysAt (bc : BlockChain) (blockNumber : Z) : result set_error (list (option PublicKey)) :=
  let! raw := rawBLSKeysAt bc blockNumber in parse_keys raw.

(** The engine with its live view, and what the processor sees of the chain. *)
Definition engine_of (bc : BlockChain) : Poa.PoA :=
  Poa.SetValidatorProvider (bc_engine bc) (Poa.mkProvider (fun n => found (ValidatorsAt bc n)) (ProposerAtHeight bc)).
Definition context_of (bc : BlockChain) : Proc.ChainContext set_error := Proc.mkChain (GetHeaderByNumber bc) (Some (ValidatorsAt bc)).

(** A certificate checked against the set that governed its height. *)
Definition verify_certificate (bc : BlockChain) (qc : Att.AggregateAttestation) : result error unit :=
  match BLSKeysAt bc (Att.ag_number qc) with
  | Err e => Err (ErrSet e)
  | Ok keys => match Att.VerifyCert (Proc.c_chainID (bc_config bc)) qc keys with Err e => Err (ErrCertificate e) | Ok _ => Ok tt end
  end.

(** * Finality *)

(** [isDescendantLocked]: the walk goes down one parent at a time; [steps] is its bound. *)
Fixpoint descends (steps : nat) (bc : BlockChain) (current : option Block) (ancestor : Block) : option (option bool) :=
  match current with
  | None => Some (Some false)
  | Some block =>
      if number_of ancestor <? number_of block then
        match steps with
        | O => Some None
        | S n => descends n bc (GetBlockByHash bc (h_parentHash (b_header block))) ancestor
        end
      else
        let? h := hash_of block in
        let? a := hash_of ancestor in
        Some (Some (bool_decide (h = a)))
  end.

Definition isDescendantLocked (bc : BlockChain) (block ancestor : Block) : option (option bool) :=
  descends (Z.to_nat (number_of block)) bc (Some block) ancestor.

Definition checkFinalityLocked (bc : BlockChain) (block : Block) : option (result error unit) :=
  match bc_finalized bc with
  | None => Some (Ok tt)
  | Some final =>
      if number_of block <=? number_of final then
        let? hash := hash_of block in
        match ReadCanonicalHash (bc_store bc) (number_of block) with
        | Ok canonical => Some (if bool_decide (canonical = hash) then Ok tt else Err ErrConflictsWithFinalized)
        | Err _ => Some (Ok tt)
        end
      else
        let? d := isDescendantLocked bc block final in
        Some (match d with None => Err OutOfSteps | Some true => Ok tt | Some false => Err ErrConflictsWithFinalized end)
  end.

(** [finalizeLocked]: anything amiss leaves the chain as it is. *)
Definition finalizeLocked (bc : BlockChain) (qc : Att.AggregateAttestation) : option BlockChain :=
  match GetBlockByHash bc (Att.ag_hash qc) with
  | None => Some bc
  | Some block =>
      if negb (number_of block =? Att.ag_number qc) then Some bc
      else
        let? hash := hash_of block in
        let final := with_finalized (write bc (WriteFinalizedHash [] hash)) block in
        match bc_finalized bc with
        | None => Some final
        | Some old =>
            if number_of block <=? number_of old then Some bc
            else let? d := isDescendantLocked bc block old in Some (match d with Some true => final | _ => bc end)
        end
  end.

(** * Checks that need no execution *)

Definition check_justification (bc : BlockChain) (block : Block) : option (result error unit) :=
  if negb (0 <? len (h_justification (b_header block))) then Some (Ok tt)
  else
    match Proc.DecodeQuorumCert (h_justification (b_header block)) with
    | Err e => Some (Err (ErrDecode e))
    | Ok None => None
    | Ok (Some qc) => Some (if number_of block <=? Att.ag_number qc then Err ErrJustifiesLater else verify_certificate bc qc)
    end.

Definition verifyBlock (bc : BlockChain) (block parent : Block) (now : Z) : option (result error unit) :=
  let header := b_header block in
  let? r := Poa.VerifyHeader (engine_of bc) header (Some (b_header parent)) now in
  match r with
  | Err e => Some (Err (ErrHeader e))
  | Ok _ =>
      if h_gasLimit header <? h_gasUsed header then Some (Err ErrBlockTooLarge)
      else
        match Proc.VerifyGasLimit (h_gasLimit (b_header parent)) (h_gasLimit header) with
        | Err e => Some (Err (ErrLimit e))
        | Ok _ =>
            let? r := Proc.VerifyBaseFee (bc_config bc) header (Some (b_header parent)) in
            match r with
            | Err e => Some (Err (ErrLimit e))
            | Ok _ =>
                let? r := check_justification bc block in
                match r with
                | Err e => Some (Err e)
                | Ok _ =>
                    let? want := list_root (Tx.EncodeForRoot (payloads block)) (is_empty (payloads block)) in
                    Some (if bool_decide (want = h_txRoot header) then Ok tt else Err ErrTxRootMismatch)
                end
            end
        end
  end.

(** * Reorganisation *)

(** Down to the height [target], collecting what is passed. *)
Fixpoint walk_down (steps : nat) (bc : BlockChain) (block : Block) (target : Z) (passed : list Block) : result error (Block * list Block) :=
  if target <? number_of block then
    match steps with
    | O => Err OutOfSteps
    | S n =>
        match GetBlockByHash bc (h_parentHash (b_header block)) with
        | None => Err ErrUnknownAncestor
        | Some parent => walk_down n bc parent target (passed ++ [block])
        end
    end
  else Ok (block, passed).

(** Down both branches to the common ancestor. *)
Fixpoint meet (steps : nat) (bc : BlockChain) (newBlock oldBlock : Block) (newChain oldChain : list Block) : option (result error (list Block * list Block)) :=
  let? h := hash_of newBlock in
  let? h' := hash_of oldBlock in
  if bool_decide (h = h') then Some (Ok (newChain, oldChain))
  else
    match steps with
    | O => Some (Err OutOfSteps)
    | S n =>
        match GetBlockByHash bc (h_parentHash (b_header newBlock)), GetBlockByHash bc (h_parentHash (b_header oldBlock)) with
        | Some newParent, Some oldParent => meet n bc newParent oldParent (newChain ++ [newBlock]) (oldChain ++ [oldBlock])
        | _, _ => Some (Err ErrUnknownAncestor)
        end
    end.

Fixpoint drop_branch (batch : Batch) (blocks : list Block) : option Batch :=
  match blocks with
  | [] => Some batch
  | b :: r => let? batch := DeleteTxLookups batch b in drop_branch (DeleteCanonicalHash batch (number_of b)) r
  end.

Fixpoint write_branch (batch : Batch) (blocks : list Block) : option (result error Batch) :=
  match blocks with
  | [] => Some (Ok batch)
  | b :: r =>
      let? hash := hash_of b in
      let? w := WriteTxLookups (WriteCanonicalHash batch (number_of b) hash) b in
      match w with Err e => Some (Err (ErrRecord e)) | Ok batch => write_branch batch r end
  end.

(** The two branches below the common ancestor, newest first. *)
Definition branches (bc : BlockChain) (block : Block) : option (result error (list Block * list Block)) :=
  let steps b := Z.to_nat (number_of b) in
  match walk_down (steps block) bc block (number_of (bc_current bc)) [] with
  | Err e => Some (Err e)
  | Ok (newBlock, newChain) =>
      match walk_down (steps (bc_current bc)) bc (bc_current bc) (number_of newBlock) [] with
      | Err e => Some (Err e)
      | Ok (oldBlock, oldChain) => meet (steps newBlock) bc newBlock oldBlock newChain oldChain
      end
  end.

Definition reorgTo (bc : BlockChain) (block : Block) : option (BlockChain * result error (list Block)) :=
  let? r := branches bc block in
  match r with
  | Err e => Some (bc, Err e)
  | Ok (newChain, oldChain) =>
      let? batch := drop_branch [] oldChain in
      let? w := write_branch batch (rev newChain) in
      match w with
      | Err e => Some (bc, Err e)
      | Ok batch =>
          let? hash := hash_of block in
          Some (with_current (write bc (WriteHeadBlockHash batch hash)) block, Ok oldChain)
      end
  end.

(** * Import *)

Definition finalized_number (bc : BlockChain) : Z := match bc_finalized bc with None => 0 | Some b => number_of b end.

(** The block and its receipts are written, then its justification is acted on. *)
Definition store_block (bc : BlockChain) (block : Block) (receipts : list Receipt) : option (result error BlockChain) :=
  let? w := WriteBlock [] block in
  match w with
  | Err e => Some (Err (ErrRecord e))
  | Ok batch =>
      let? hash := hash_of block in
      let? w := WriteReceipts batch hash receipts in
      match w with Err e => Some (Err (ErrRecord e)) | Ok batch => Some (Ok (write bc batch)) end
  end.

Definition justify (bc : BlockChain) (block : Block) : option BlockChain :=
  match Proc.DecodeQuorumCert (h_justification (b_header block)) with
  | Ok (Some qc) => if Att.IsEmpty qc then Some bc else match verify_certificate bc qc with Ok _ => finalizeLocked bc qc | Err _ => Some bc end
  | _ => Some bc
  end.

(** Everything after the execution of the block. *)
Definition adopt (bc : BlockChain) (block : Block) (receipts : list Receipt) (logs : list SDB.Log) : option (BlockChain * result error (option ChainEvent)) :=
  let? r := store_block bc block receipts in
  match r with
  | Err e => Some (bc, Err e)
  | Ok bc =>
      let? bc := justify bc block in
      if number_of (bc_current bc) <? number_of block then
        let? r := reorgTo bc block in
        match r with
        | (bc, Err e) => Some (bc, Err e)
        | (bc, Ok reverted) => Some (bc, Ok (Some (mkEvent block receipts logs reverted)))
        end
      else Some (bc, Ok None)
  end.

(** Execution on the state of the parent; the state is committed before its root is compared. *)
Definition execute (bc : BlockChain) (block parent : Block) : option (BlockChain * result error (list Receipt * list SDB.Log)) :=
  match StateAt bc (h_stateRoot (b_header parent)) with
  | None => Some (bc, Err ErrState)
  | Some d =>
      match Proc.Process (bc_config bc) (Some (context_of bc)) block d (finalized_number bc) with
      | Err _ => None
      | Ok (_, Err e) => Some (bc, Err (ErrProcess e))
      | Ok (d, Ok (receipts, logs, _)) =>
          let? want := list_root (EncodeReceiptsForRoot receipts) (is_empty receipts) in
          if negb (bool_decide (want = h_receiptRoot (b_header block))) then Some (bc, Err ErrReceiptRootMismatch)
          else
            match SDB.commitTo (SDB.Finalise d true) true with
            | None => Some (bc, Err ErrState)
            | Some (_, root, batch) =>
                let bc := with_store bc (store_write (bc_store bc) batch) in
                Some (bc, if bool_decide (root = h_stateRoot (b_header block)) then Ok (receipts, logs) else Err ErrStateRootMismatch)
            end
      end
  end.

Definition insertLocked (bc : BlockChain) (block : Block) (now : Z) : option (BlockChain * result error (option ChainEvent)) :=
  let? hash := hash_of block in
  if HasBlock bc hash then Some (bc, Err ErrKnownBlock)
  else
    match GetBlockByHash bc (h_parentHash (b_header block)) with
    | None => Some (bc, Err ErrUnknownAncestor)
    | Some parent =>
        let? r := verifyBlock bc block parent now in
        match r with
        | Err e => Some (bc, Err e)
        | Ok _ =>
            let? r := checkFinalityLocked bc block in
            match r with
            | Err e => Some (bc, Err e)
            | Ok _ =>
                let? r := execute bc block parent in
                match r with
                | (bc, Err e) => Some (bc, Err e)
                | (bc, Ok (receipts, logs)) => adopt bc block receipts logs
                end
            end
        end
    end.

(** [InsertBlock] is [insertLocked]; [InsertChain] stops at the first failure but a known block, [i] blocks in. *)
Fixpoint InsertChain (bc : BlockChain) (blocks : list (Block * Z)) (i : Z) (events : list ChainEvent) : option (BlockChain * Z * result error (list ChainEvent)) :=
  match blocks with
  | [] => Some (bc, i, Ok events)
  | (block, now) :: rest =>
      let? r := insertLocked bc block now in
      match r with
      | (bc, Ok ev) => InsertChain bc rest (i + 1) (events ++ option_list ev)
      | (bc, Err ErrKnownBlock) => InsertChain bc rest (i + 1) events
      | (bc, Err e) => Some (bc, i, Err e)
      end
  end.

(** * Certificates from outside *)

Definition Finalize (bc : BlockChain) (qc : Att.AggregateAttestation) : option (BlockChain * result error unit) :=
  if Att.IsEmpty qc then Some (bc, Err ErrQuorumNotMet)
  else
    match verify_certificate bc qc with
    | Err e => Some (bc, Err e)
    | Ok _ =>
        match GetBlockByHash bc (Att.ag_hash qc) with
        | None => Some (bc, Err ErrUnknownAncestor)
        | Some block =>
            if negb (number_of block =? Att.ag_number qc) then Some (bc, Err ErrCertificateHeight)
            else if match bc_finalized bc with Some old => number_of block <=? number_of old | None => false end then Some (bc, Ok tt)
            else
              let? d := match bc_finalized bc with None => Some (Some true) | Some old => isDescendantLocked bc block old end in
              match d with
              | Some true =>
                  let? hash := hash_of block in
                  let canonical := default ZeroHash (found (ReadCanonicalHash (bc_store bc) (number_of block))) in
                  let? r := (if bool_decide (canonical = hash) then Some (bc, Ok []) else reorgTo bc block) in
                  match r with
                  | (bc, Err e) => Some (bc, Err e)
                  | (bc, Ok _) => Some (with_finalized (write bc (WriteFinalizedHash [] hash)) block, Ok tt)
                  end
              | Some false => Some (bc, Err ErrFinalityRegression)
              | None => Some (bc, Err OutOfSteps)
              end
        end
    end.

Definition ImportSnapshot (bc : BlockChain) (block : Block) (qc : Att.AggregateAttestation) : option (BlockChain * result error unit) :=
  if Att.IsEmpty qc then Some (bc, Err ErrQuorumNotMet)
  else
    let? hash := hash_of block in
    if negb (bool_decide (Att.ag_hash qc = hash)) || negb (Att.ag_number qc =? number_of block) then Some (bc, Err ErrSnapshotName)
    else
      match verify_certificate bc qc with
      | Err e => Some (bc, Err e)
      | Ok _ =>
          if negb (number_of (bc_current bc) =? 0) then Some (bc, Err ErrSnapshotHistory)
          else if number_of block =? 0 then Some (bc, Ok tt)
          else
            match StateAt bc (h_stateRoot (b_header block)) with
            | None => Some (bc, Err ErrState)
            | Some _ =>
                let? w := WriteBlock [] block in
                match w with
                | Err e => Some (bc, Err (ErrRecord e))
                | Ok batch =>
                    let? w := WriteTxLookups (WriteCanonicalHash batch (number_of block) hash) block in
                    match w with
                    | Err e => Some (bc, Err (ErrRecord e))
                    | Ok batch =>
                        Some (with_finalized (with_current (write bc (WriteFinalizedHash (WriteHeadBlockHash batch hash) hash)) block) block, Ok tt)
                    end
                end
            end
      end.

End Chain.
End Chain.
