(* ===== verification/ChainFacts.v ===== *)
(** What the chain keeps true (src/chain/blockchain.go, finality.go): stored blocks form a
    tree, the canonical index is the path of the head, reorganisations always succeed,
    finality only moves forward. *)

From Stdlib Require Import String.
From stdpp Require Import base list gmap.
From Stdlib Require Import ZArith Lia.
From S2P Require Import Prelude Common RLP Attestation Registry Lifecycle StateDB Interpreter Precompiles Transaction CoreBlock CoreBlockFacts Processor Poa Database RawDb RawDbFacts Chain.
Local Open Scope Z_scope.
Local Open Scope go_scope.

Module ChainFacts.
Import Db Blk Rcpt RawDb RawFacts Chain.

Section Tree.
Context `{K : Keccak} {TS : TrieStore} `{C : NativeCrypto}.

(** * Stored blocks *)

Definition blk (s : Store) (h : Hash) : option Block := found (ReadBlock s h).
Definition canon (s : Store) (n : Z) : option Hash := found (ReadCanonicalHash s n).
Definition parent (s : Store) (b : Block) : option Block := blk s (h_parentHash (b_header b)).

(** The stored blocks are a tree whose root has hash [g]: each is found under its own hash, each but the root has its parent one height below, and the header record of each is its header. *)
Record tree (s : Store) (g : Hash) : Prop := mkTree
  { tree_hash : forall h b, blk s h = Some b -> hash_of b = Some h /\ length h = 32%nat /\ hashable b;
    tree_number : forall h b, blk s h = Some b -> h_number (b_header b) = Some (number_of b) /\ u64_ok (number_of b);
    tree_parent : forall h b, blk s h = Some b -> (number_of b = 0 /\ h = g) \/ exists p, parent s b = Some p /\ number_of b = number_of p + 1;
    tree_header : forall h b, blk s h = Some b -> hdr s h = Some (b_header b) }.

(** A block whose header is stored. *)
Record stored (s : Store) (b : Block) (h : Hash) : Prop := mkStored
  { st_hash : hash_of b = Some h; st_txs : hashable b; st_block : exists b', blk s h = Some b' /\ b_header b' = b_header b }.

(** The block [k] generations up. *)
Fixpoint up (s : Store) (k : nat) (b : Block) : option Block := match k with O => Some b | S k => let? p := parent s b in up s k p end.

(** The first [k] blocks of that walk. *)
Fixpoint path (s : Store) (k : nat) (b : Block) : list Block :=
  match k with O => [] | S k => b :: match parent s b with Some p => path s k p | None => [] end end.

Section Walks.
Variable s : Store.
Variable g : Hash.
Hypothesis T : tree s g.

Lemma blk_stored h b : blk s h = Some b -> stored s b h.
Proof. intros E. destruct (tree_hash _ _ T h b E) as (H1 & _ & H2). constructor; eauto. Qed.

Lemma stored_number b h : stored s b h -> u64_ok (number_of b).
Proof. intros [_ _ (b' & E & Eh)]. unfold number_of. rewrite <- Eh. apply (tree_number _ _ T h b' E). Qed.

Lemma stored_numbered b h : stored s b h -> h_number (b_header b) = Some (number_of b).
Proof. intros [_ _ (b' & E & Eh)]. unfold number_of. rewrite <- Eh. apply (tree_number _ _ T h b' E). Qed.

Lemma stored_length b h : stored s b h -> length h = 32%nat.
Proof. intros [_ _ (b' & E & _)]. apply (tree_hash _ _ T h b' E). Qed.

Lemma stored_parent b h : stored s b h -> 0 < number_of b -> exists p, parent s b = Some p /\ number_of b = number_of p + 1 /\ stored s p (h_parentHash (b_header b)).
Proof.
  intros [_ _ (b' & E & Eh)] Hn. unfold parent, number_of in *. rewrite <- Eh in *. destruct (tree_parent _ _ T h b' E) as [[E0 _]|(p & Ep & En)]; [unfold number_of in E0; lia|].
  exists p. split; [exact Ep|]. split; [exact En|]. apply blk_stored. exact Ep.
Qed.

Lemma stored_root b h : stored s b h -> number_of b = 0 -> h = g.
Proof.
  intros [_ _ (b' & E & Eh)] Hn. unfold number_of in *. rewrite <- Eh in Hn. destruct (tree_parent _ _ T h b' E) as [[_ ->]|(p & Ep & En)]; [reflexivity|].
  pose proof (stored_number p _ (blk_stored _ _ Ep)) as Hp. unfold u64_ok, number_of in *. lia.
Qed.

Lemma same_hash b b' h : stored s b h -> stored s b' h -> b_header b = b_header b'.
Proof. intros [_ _ (x & E & <-)] [_ _ (y & E' & <-)]. congruence. Qed.

(** A stored block is named by the hash of its header. *)
Lemma stored_hash b h : stored s b h -> HeaderHash (b_header b) = Some h.
Proof.
  intros [_ _ (b' & E & <-)]. destruct (tree_hash _ _ T h b' E) as (Eh & _). unfold blk, ReadBlock in E. destruct (store_get s (bodyKey h)) as [e|]; [|discriminate]. destruct (UnmarshalBlock e) as [x|] eqn:Eu; [|discriminate].
  injection E as ->. unfold UnmarshalBlock in Eu. destruct (decode_body e) as [[v txs]|]; [|discriminate]. destruct (header_of v); [|discriminate]. cbv zeta in Eu. destruct (list_root _ _); [|discriminate]. destruct (negb _); [discriminate|].
  injection Eu as <-. unfold hash_of, BlockHash in Eh. cbn [b_hash b_header] in *. destruct (HeaderHash _); [exact Eh | discriminate].
Qed.

Lemma stored_header b h : stored s b h -> hdr s h = Some (b_header b).
Proof. intros [_ _ (b' & E & <-)]. exact (tree_header _ _ T h b' E). Qed.

Lemma up_stored k : forall b h, stored s b h -> Z.of_nat k <= number_of b -> exists x hx, up s k b = Some x /\ number_of x = number_of b - Z.of_nat k /\ stored s x hx.
Proof.
  induction k as [|k IH]; intros b h Hb Hk; [exists b, h; cbn; split; [reflexivity|]; split; [lia | exact Hb]|].
  destruct (stored_parent b h Hb ltac:(lia)) as (p & Ep & En & Hp). destruct (IH p _ Hp ltac:(lia)) as (x & hx & Ex & Ex' & Hx). exists x, hx. cbn [up]. rewrite Ep. cbn [obind].
  split; [exact Ex|]. split; [lia | exact Hx].
Qed.

Lemma up_add i j b x : up s i b = Some x -> up s (i + j) b = up s j x.
Proof.
  revert b. induction i as [|i IH]; intros b; cbn [up Nat.add]; [intros [= ->]; reflexivity|]. destruct (parent s b) as [p|]; [|discriminate]. cbn [obind]. apply IH.
Qed.

Lemma path_add i j b x : up s i b = Some x -> path s (i + j) b = path s i b ++ path s j x.
Proof.
  revert b. induction i as [|i IH]; intros b; cbn [up path Nat.add]; [intros [= ->]; reflexivity|]. destruct (parent s b) as [p|]; [|discriminate]. cbn [obind]. intros E. rewrite (IH p E). reflexivity.
Qed.

End Walks.

(** [b] is [a] or has it among its ancestors in [s]. *)
Definition below (s : Store) (b a : Block) : Prop := number_of a <= number_of b /\ exists x, up s (Z.to_nat (number_of b - number_of a)) b = Some x /\ hash_of x = hash_of a.

(** * Walking down *)

Section Reorg.
Context {CS : ChainStore} {SL : StoreLaws CS} `{B : Bls} {BP : BlsPossession B}.
Variable bc : BlockChain.
Variable g : Hash.
Abbreviation s := (bc_store bc).
Hypothesis T : tree s g.

Lemma get_parent b : GetBlockByHash bc (h_parentHash (b_header b)) = parent s b.
Proof. reflexivity. Qed.

Lemma descends_spec a ha steps : hash_of a = Some ha -> u64_ok (number_of a) -> forall b h, stored s b h -> (Z.to_nat (number_of b) <= steps)%nat ->
  exists r, descends steps bc (Some b) a = Some (Some r) /\ (number_of a <= number_of b -> r = true <-> below s b a).
Proof.
  intros Ea Ua. induction steps as [|n IH]; intros b h Hb Hn; cbn [descends]; destruct (Z.ltb_spec (number_of a) (number_of b)) as [Hlt|Hge].
  - pose proof (stored_number s g T b h Hb) as Ub. unfold u64_ok in *. lia.
  - rewrite (st_hash _ _ _ Hb), Ea. cbn [obind]. eexists. split; [reflexivity|]. intros Hle. rewrite bool_decide_eq_true. unfold below. replace (Z.to_nat (number_of b - number_of a)) with 0%nat by lia. cbn [up].
    rewrite Ea. split; [intros ->; split; [lia|]; exists b; split; [reflexivity | apply Hb] | intros (_ & x & [= <-] & E)]. rewrite (st_hash _ _ _ Hb) in E. congruence.
  - pose proof (stored_number s g T b h Hb) as Ub. destruct (stored_parent s g T b h Hb ltac:(unfold u64_ok in *; lia)) as (p & Ep & En & Hp). rewrite get_parent, Ep.
    destruct (IH p _ Hp ltac:(lia)) as (r & -> & Hr). exists r. split; [reflexivity|]. intros _. rewrite Hr by lia. unfold below.
    replace (Z.to_nat (number_of b - number_of a)) with (Datatypes.S (Z.to_nat (number_of p - number_of a))) by lia. cbn [up]. rewrite Ep. cbn [obind]. split; intros (H1 & H2); (split; [lia | exact H2]).
  - rewrite (st_hash _ _ _ Hb), Ea. cbn [obind]. eexists. split; [reflexivity|]. intros Hle. rewrite bool_decide_eq_true. unfold below. replace (Z.to_nat (number_of b - number_of a)) with 0%nat by lia. cbn [up].
    rewrite Ea. split; [intros ->; split; [lia|]; exists b; split; [reflexivity | apply Hb] | intros (_ & x & [= <-] & E)]. rewrite (st_hash _ _ _ Hb) in E. congruence.
Qed.

Lemma walk_down_spec steps : forall b h target passed, stored s b h -> 0 <= target -> (Z.to_nat (number_of b - target) <= steps)%nat ->
  exists x hx, walk_down steps bc b target passed = Ok (x, passed ++ path s (Z.to_nat (number_of b - target)) b) /\
    up s (Z.to_nat (number_of b - target)) b = Some x /\ stored s x hx /\ number_of x = Z.min (number_of b) target.
Proof.
  induction steps as [|n IH]; intros b h target passed Hb Ht Hn; cbn [walk_down]; destruct (Z.ltb_spec target (number_of b)) as [Hlt|Hge]; try lia.
  - replace (Z.to_nat (number_of b - target)) with 0%nat by lia. exists b, h. cbn. rewrite app_nil_r. split; [reflexivity|]. split; [reflexivity|]. split; [exact Hb | lia].
  - destruct (stored_parent s g T b h Hb ltac:(lia)) as (p & Ep & En & Hp). rewrite get_parent, Ep. destruct (IH p _ target (passed ++ [b]) Hp Ht ltac:(lia)) as (x & hx & E & Eu & Hx & Ex).
    replace (Z.to_nat (number_of b - target)) with (Datatypes.S (Z.to_nat (number_of p - target))) by lia. exists x, hx. cbn [path up]. rewrite Ep, E, <- app_assoc. cbn [obind]. split; [reflexivity|]. split; [exact Eu|]. split; [exact Hx | lia].
  - replace (Z.to_nat (number_of b - target)) with 0%nat by lia. exists b, h. cbn. rewrite app_nil_r. split; [reflexivity|]. split; [reflexivity|]. split; [exact Hb | lia].
Qed.

Lemma meet_spec steps : forall b h c hc A B', stored s b h -> stored s c hc -> number_of b = number_of c -> (Z.to_nat (number_of b) <= steps)%nat ->
  exists k x y hx, meet steps bc b c A B' = Some (Ok (A ++ path s k b, B' ++ path s k c)) /\ up s k b = Some x /\ up s k c = Some y /\ stored s x hx /\ stored s y hx /\ Z.of_nat k <= number_of b.
Proof.
  induction steps as [|n IH]; intros b h c hc A B' Hb Hc En Hn; cbn [meet]; rewrite (st_hash _ _ _ Hb), (st_hash _ _ _ Hc); cbn [obind]; case_bool_decide as Eh.
  - subst hc. exists 0%nat, b, c, h. cbn. rewrite !app_nil_r. pose proof (stored_number s g T b h Hb) as Ub. unfold u64_ok in Ub. do 5 (split; [first [reflexivity | assumption]|]). lia.
  - exfalso. pose proof (stored_number s g T b h Hb) as Ub. unfold u64_ok in Ub. apply Eh. rewrite (stored_root s g T b h Hb), (stored_root s g T c hc Hc) by lia. reflexivity.
  - subst hc. exists 0%nat, b, c, h. cbn. rewrite !app_nil_r. pose proof (stored_number s g T b h Hb) as Ub. unfold u64_ok in Ub. do 5 (split; [first [reflexivity | assumption]|]). lia.
  - destruct (Z.eq_dec (number_of b) 0) as [E0|Hne].
    { exfalso. apply Eh. rewrite (stored_root s g T b h Hb), (stored_root s g T c hc Hc) by lia. reflexivity. }
    pose proof (stored_number s g T b h Hb) as Ub. unfold u64_ok in Ub. destruct (stored_parent s g T b h Hb ltac:(lia)) as (p & Ep & Ep' & Hp). destruct (stored_parent s g T c hc Hc ltac:(lia)) as (q & Eq & Eq' & Hq).
    rewrite !get_parent, Ep, Eq. destruct (IH p _ q _ (A ++ [b]) (B' ++ [c]) Hp Hq ltac:(lia) ltac:(lia)) as (k & x & y & hx & E & Eu & Ev & Hx & Hy & Hk).
    exists (Datatypes.S k), x, y, hx. cbn [path up]. rewrite Ep, Eq, E, <- !app_assoc. cbn [obind]. do 5 (split; [first [reflexivity | assumption]|]). lia.
Qed.

(** The two branches end at one block. *)
Lemma branches_spec b h : stored s b h -> (exists hc, stored s (bc_current bc) hc) ->
  exists i j x y hx, branches bc b = Some (Ok (path s i b, path s j (bc_current bc))) /\ up s i b = Some x /\ up s j (bc_current bc) = Some y /\ stored s x hx /\ stored s y hx /\
    Z.of_nat i <= number_of b /\ Z.of_nat j <= number_of (bc_current bc) /\ number_of b - Z.of_nat i = number_of (bc_current bc) - Z.of_nat j.
Proof.
  intros Hb (hc & Hc). pose proof (stored_number s g T b h Hb) as Ub. pose proof (stored_number s g T _ hc Hc) as Uc. unfold u64_ok in *. unfold branches.
  destruct (walk_down_spec (Z.to_nat (number_of b)) b h (number_of (bc_current bc)) [] Hb ltac:(lia) ltac:(lia)) as (x & hx & -> & Eu & Hx & Ex).
  destruct (walk_down_spec (Z.to_nat (number_of (bc_current bc))) (bc_current bc) hc (number_of x) [] Hc ltac:(lia) ltac:(lia)) as (y & hy & -> & Ev & Hy & Ey). cbn [app].
  destruct (meet_spec (Z.to_nat (number_of x)) x hx y hy (path s (Z.to_nat (number_of b - number_of (bc_current bc))) b) (path s (Z.to_nat (number_of (bc_current bc) - number_of x)) (bc_current bc)) Hx Hy ltac:(lia) ltac:(lia))
    as (k & x' & y' & hx' & -> & Eu' & Ev' & Hx' & Hy' & Hk).
  exists (Z.to_nat (number_of b - number_of (bc_current bc)) + k)%nat, (Z.to_nat (number_of (bc_current bc) - number_of x) + k)%nat, x', y', hx'.
  rewrite (path_add s _ k b x Eu), (path_add s _ k _ y Ev), (up_add s _ k b x Eu), (up_add s _ k _ y Ev). do 5 (split; [first [reflexivity | assumption]|]). lia.
Qed.

(** * The canonical index *)

Lemma drop_branch_spec blocks : Forall hashable blocks -> forall batch, exists batch', drop_branch batch blocks = Some batch' /\
  (forall n, u64_ok n -> Forall (fun b => u64_ok (number_of b)) blocks ->
     effect batch' (canonicalKey n) = fold_left (fun e b => if number_of b =? n then Some None else e) blocks (effect batch (canonicalKey n))) /\
  (forall k, namespace k <> 108 -> namespace k <> 72 -> effect batch' k = effect batch k).
Proof.
  induction 1 as [|b blocks Hb _ IH]; intros batch; cbn [drop_branch]; [eauto|]. destruct (delete_lookups_fine _ Hb batch) as (b1 & E1 & H1). unfold DeleteTxLookups. rewrite E1. cbn [obind].
  destruct (IH (DeleteCanonicalHash b1 (number_of b))) as (batch' & -> & Hc & Ho). exists batch'. split; [reflexivity|]. split.
  - intros n Hn Hu. apply Forall_cons in Hu as [Hu Hu']. rewrite Hc by assumption. cbn [fold_left]. unfold DeleteCanonicalHash. rewrite effect_delete, H1 by (cbn; discriminate). f_equal.
    destruct (Z.eqb_spec (number_of b) n) as [->|Hne]; [rewrite bool_decide_eq_true_2 by reflexivity; reflexivity|]. rewrite bool_decide_eq_false_2; [reflexivity|]. intros E. apply Hne, canonical_inj; assumption.
  - intros k Hk Hk'. rewrite Ho by assumption. unfold DeleteCanonicalHash. rewrite effect_delete_other; [apply H1; exact Hk | intros E; apply Hk'; symmetry; exact E].
Qed.

Lemma write_branch_spec blocks : Forall (fun b => hashable b /\ is_Some (hash_of b)) blocks -> forall batch, exists batch', write_branch batch blocks = Some (Ok batch') /\
  (forall n, u64_ok n -> Forall (fun b => u64_ok (number_of b)) blocks ->
     effect batch' (canonicalKey n) = fold_left (fun e b => if number_of b =? n then Some (hash_of b) else e) blocks (effect batch (canonicalKey n))) /\
  (forall k, namespace k <> 108 -> namespace k <> 72 -> effect batch' k = effect batch k).
Proof.
  induction 1 as [|b blocks [Hb [h Eh]] _ IH]; intros batch; cbn [write_branch]; [eauto|]. rewrite Eh. cbn [obind]. destruct (WriteTxLookups_fine (WriteCanonicalHash batch (number_of b) h) b h Hb Eh) as (b1 & -> & H1). cbn [obind].
  destruct (IH b1) as (batch' & -> & Hc & Ho). exists batch'. split; [reflexivity|]. split.
  - intros n Hn Hu. apply Forall_cons in Hu as [Hu Hu']. rewrite Hc by assumption. cbn [fold_left]. rewrite H1 by (cbn; discriminate). unfold WriteCanonicalHash. rewrite effect_put, Eh. f_equal.
    destruct (Z.eqb_spec (number_of b) n) as [->|Hne]; [rewrite bool_decide_eq_true_2 by reflexivity; reflexivity|]. rewrite bool_decide_eq_false_2; [reflexivity|]. intros E. apply Hne, canonical_inj; assumption.
  - intros k Hk Hk'. rewrite Ho, H1 by assumption. unfold WriteCanonicalHash. apply effect_put_other. intros E. apply Hk'. symmetry. exact E.
Qed.

(** Every block of a walk is stored. *)
Lemma path_stored k : forall b h, stored s b h -> Z.of_nat k <= number_of b -> Forall (fun x => exists hx, stored s x hx) (path s k b).
Proof.
  induction k as [|k IH]; intros b h Hb Hk; cbn [path]; [constructor|]. destruct (stored_parent s g T b h Hb ltac:(lia)) as (p & -> & En & Hp). constructor; [eauto|]. apply (IH p _ Hp). lia.
Qed.

(** The entries of a walk, oldest first. *)
Lemma fold_path k : forall b h e n, stored s b h -> Z.of_nat k <= number_of b ->
  fold_left (fun e b => if number_of b =? n then Some (hash_of b) else e) (rev (path s k b)) e =
  if (number_of b - Z.of_nat k <? n) && (n <=? number_of b) then match up s (Z.to_nat (number_of b - n)) b with Some x => Some (hash_of x) | None => e end else e.
Proof.
  induction k as [|k IH]; intros b h e n Hb Hk; cbn [path rev fold_left].
  - destruct (Z.ltb_spec (number_of b - Z.of_nat 0) n), (Z.leb_spec n (number_of b)); try reflexivity; lia.
  - destruct (stored_parent s g T b h Hb ltac:(lia)) as (p & Ep & En & Hp). rewrite Ep. cbn [rev]. rewrite fold_left_app, (IH p _ e n Hp) by lia. cbn [fold_left].
    destruct (Z.eqb_spec (number_of b) n) as [<-|Hne].
    + destruct (Z.ltb_spec (number_of b - Z.of_nat (Datatypes.S k)) (number_of b)); [|lia]. rewrite Z.leb_refl, Z.sub_diag. reflexivity.
    + destruct (Z.ltb_spec (number_of p - Z.of_nat k) n), (Z.leb_spec n (number_of p)), (Z.ltb_spec (number_of b - Z.of_nat (Datatypes.S k)) n), (Z.leb_spec n (number_of b)); try lia; try reflexivity. cbn [andb].
      replace (Z.to_nat (number_of b - n)) with (Datatypes.S (Z.to_nat (number_of p - n))) by lia. cbn [up]. rewrite Ep. reflexivity.
Qed.

Lemma fold_drop k : forall b h (e : option (option bytes)) n, stored s b h -> Z.of_nat k <= number_of b ->
  fold_left (fun e b => if number_of b =? n then Some None else e) (path s k b) e = if (number_of b - Z.of_nat k <? n) && (n <=? number_of b) then Some None else e.
Proof.
  induction k as [|k IH]; intros b h e n Hb Hk; cbn [path fold_left].
  - destruct (Z.ltb_spec (number_of b - Z.of_nat 0) n), (Z.leb_spec n (number_of b)); try reflexivity; lia.
  - destruct (stored_parent s g T b h Hb ltac:(lia)) as (p & Ep & En & Hp). rewrite Ep, (IH p _ _ n Hp) by lia.
    destruct (Z.eqb_spec (number_of b) n), (Z.ltb_spec (number_of p - Z.of_nat k) n), (Z.leb_spec n (number_of p)), (Z.ltb_spec (number_of b - Z.of_nat (Datatypes.S k)) n), (Z.leb_spec n (number_of b)); try lia; reflexivity.
Qed.

(** The index is the path from the head to the root, and nothing else. *)
Definition canonical (st : Store) (top : Block) : Prop := forall n, u64_ok n ->
  canon st n = if n <=? number_of top then match up st (Z.to_nat (number_of top - n)) top with Some x => hash_of x | None => None end else None.

Lemma canon_apply b n : canon (store_apply s b) n = match effect b (canonicalKey n) with Some v => option_map BytesToHash v | None => canon s n end.
Proof. unfold canon, ReadCanonicalHash, read_hash. rewrite get_apply. destruct (effect b (canonicalKey n)) as [[v|]|]; reflexivity. Qed.

Lemma blk_apply b h : effect b (bodyKey h) = None -> blk (store_apply s b) h = blk s h.
Proof. intros E. unfold blk, ReadBlock. rewrite get_apply, E. reflexivity. Qed.

Lemma up_header k b b' : b_header b = b_header b' -> hash_of b = hash_of b' ->
  match up s k b with Some x => hash_of x | None => None end = match up s k b' with Some x => hash_of x | None => None end.
Proof. intros Eh E. destruct k; [exact E|]. cbn [up]. unfold parent. rewrite Eh. reflexivity. Qed.

(** Every reorganisation to a stored block succeeds: it changes nothing but the indices, makes the block the head, and makes the index the path of the block. *)
Lemma reorg_spec b h : stored s b h -> (exists hc, stored s (bc_current bc) hc) -> canonical s (bc_current bc) ->
  exists bc' old, reorgTo bc b = Some (bc', Ok old) /\ bc_current bc' = b /\ bc_finalized bc' = bc_finalized bc /\ bc_genesis bc' = bc_genesis bc /\ bc_config bc' = bc_config bc /\ bc_engine bc' = bc_engine bc /\
    (forall h, blk (bc_store bc') h = blk s h) /\ (forall n, u64_ok n -> canon (bc_store bc') n = if n <=? number_of b then match up s (Z.to_nat (number_of b - n)) b with Some x => hash_of x | None => None end else None) /\
    (exists j, old = path s j (bc_current bc)) /\ found (ReadHeadBlockHash (bc_store bc')) = Some h /\ (forall k, namespace k <> 108 -> namespace k <> 72 -> namespace k <> 76 -> store_get (bc_store bc') k = store_get s k).
Proof.
  intros Hb (hc & Hc) Hcan. destruct (branches_spec b h Hb (ex_intro _ hc Hc)) as (i & j & x & y & hx & Eb & Eu & Ev & Hx & Hy & Hi & Hj & Hij). unfold reorgTo. rewrite Eb. cbn [obind].
  pose proof (path_stored i b h Hb Hi) as Pn. pose proof (path_stored j _ hc Hc Hj) as Po.
  destruct (drop_branch_spec (path s j (bc_current bc)) ltac:(eapply Forall_impl; [exact Po|]; intros z [hz Hz]; apply Hz) []) as (b1 & -> & D1 & D2). cbn [obind].
  destruct (write_branch_spec (rev (path s i b)) ltac:(apply Forall_rev; eapply Forall_impl; [exact Pn|]; intros z [hz Hz]; split; [apply Hz | rewrite (st_hash _ _ _ Hz); eauto]) b1) as (b2 & -> & W1 & W2). cbn [obind].
  rewrite (st_hash _ _ _ Hb). cbn [obind]. eexists _, _. split; [reflexivity|]. cbn [with_current write with_store bc_current bc_finalized bc_genesis bc_config bc_engine bc_store]. do 5 (split; [reflexivity|]). split; [|split; [|split; [eauto | split]]].
  - intros h'. apply blk_apply. unfold WriteHeadBlockHash. rewrite effect_put_other by (cbn; discriminate). rewrite W2, D2 by (cbn; discriminate). reflexivity.
  - intros n Hn. rewrite canon_apply. unfold WriteHeadBlockHash. rewrite effect_put_other by (cbn; discriminate).
    rewrite W1, D1; [|exact Hn|eapply Forall_impl; [exact Po|]; intros z [hz Hz]; apply (stored_number s g T z hz Hz)|exact Hn|apply Forall_rev; eapply Forall_impl; [exact Pn|]; intros z [hz Hz]; apply (stored_number s g T z hz Hz)].
    rewrite (fold_path i b h _ n Hb Hi), (fold_drop j _ hc _ n Hc Hj). unfold u64_ok in Hn. change (effect [] (canonicalKey n)) with (@None (option bytes)).
    destruct (Z.leb_spec n (number_of b)) as [Hle|Hgt].
    + destruct (Z.ltb_spec (number_of b - Z.of_nat i) n) as [Hin|Hout]; cbn [andb].
      * destruct (up_stored s g T (Z.to_nat (number_of b - n)) b h Hb ltac:(lia)) as (z & hz & Ez & _ & Hz). rewrite Ez, (st_hash _ _ _ Hz). cbn [option_map]. f_equal. apply fit_right_id, (stored_length s g T z hz Hz).
      * destruct (Z.ltb_spec (number_of (bc_current bc) - Z.of_nat j) n); [lia|]. cbn [andb]. rewrite Hcan by exact Hn. destruct (Z.leb_spec n (number_of (bc_current bc))); [|lia].
        replace (Z.to_nat (number_of b - n)) with (i + Z.to_nat (number_of b - Z.of_nat i - n))%nat by lia. replace (Z.to_nat (number_of (bc_current bc) - n)) with (j + Z.to_nat (number_of b - Z.of_nat i - n))%nat by lia.
        rewrite (up_add s i _ b x Eu), (up_add s j _ _ y Ev). apply up_header; [symmetry; apply (same_hash s x y hx); assumption | rewrite (st_hash _ _ _ Hx), (st_hash _ _ _ Hy); reflexivity].
    + rewrite andb_false_r. destruct (Z.ltb_spec (number_of (bc_current bc) - Z.of_nat j) n) as [Hin|Hout]; cbn [andb]; [|lia].
      destruct (Z.leb_spec n (number_of (bc_current bc))); [reflexivity|]. rewrite Hcan by exact Hn. destruct (Z.leb_spec n (number_of (bc_current bc))); [lia | reflexivity].
  - unfold ReadHeadBlockHash, read_hash. rewrite get_apply. unfold WriteHeadBlockHash. rewrite effect_put, bool_decide_eq_true_2 by reflexivity. cbn [found]. f_equal. apply fit_right_id, (stored_length s g T b h Hb).
  - intros k K1 K2 K3. cbn [with_current write with_store bc_store]. rewrite get_apply. unfold WriteHeadBlockHash. rewrite effect_put_other by (intros E; apply K3; symmetry; exact E). rewrite W2, D2 by assumption. reflexivity.
Qed.

End Reorg.

(** * Stores with the same blocks *)

Section Extensions.

(** Blocks are only added. *)
Definition extends (s s' : Store) : Prop := forall h b, blk s h = Some b -> blk s' h = Some b.

Lemma extends_refl s : extends s s.
Proof. intros h b E. exact E. Qed.

Lemma extends_trans s1 s2 s3 : extends s1 s2 -> extends s2 s3 -> extends s1 s3.
Proof. intros H1 H2 h b E. apply H2, H1, E. Qed.

Lemma same_extends s s' : (forall h, blk s' h = blk s h) -> extends s s'.
Proof. intros H h b E. rewrite H. exact E. Qed.

Lemma up_extends s s' k : extends s s' -> forall b x, up s k b = Some x -> up s' k b = Some x.
Proof.
  intros He. induction k as [|k IH]; intros b x; cbn [up]; [auto|]. unfold parent. destruct (blk s (h_parentHash (b_header b))) as [p|] eqn:E; [|discriminate]. cbn [obind].
  rewrite (He _ _ E). apply IH.
Qed.

Lemma kept_stored s s' b h : extends s s' -> stored s b h -> stored s' b h.
Proof. intros He [H1 H2 (b' & E & Eh)]. constructor; [assumption..|]. exists b'. split; [apply He, E | exact Eh]. Qed.

Lemma up_same s s' k : (forall h, blk s' h = blk s h) -> forall b, up s' k b = up s k b.
Proof. intros H. induction k as [|k IH]; intros b; cbn [up]; [reflexivity|]. unfold parent. rewrite H. destruct (blk s _); [apply IH | reflexivity]. Qed.

Lemma hdr_local s s' h : store_get s' (headerNumberKey h) = store_get s (headerNumberKey h) -> (forall n, store_get s' (headerKey n h) = store_get s (headerKey n h)) -> hdr s' h = hdr s h.
Proof. intros H1 H2. unfold hdr, ReadHeaderNumber, ReadHeader. rewrite H1. destruct (store_get s (headerNumberKey h)) as [e|]; [|reflexivity]. destruct (len e =? 8); [rewrite H2|]; reflexivity. Qed.

Lemma hdr_same s s' : (forall k, namespace k = 78 \/ namespace k = 104 -> store_get s' k = store_get s k) -> forall h, hdr s' h = hdr s h.
Proof. intros H h. apply hdr_local; intros; apply H; [left | right]; reflexivity. Qed.

Lemma tree_same s s' g : (forall h, blk s' h = blk s h) -> (forall k, namespace k = 78 \/ namespace k = 104 -> store_get s' k = store_get s k) -> tree s g -> tree s' g.
Proof.
  intros H Hn [T1 T2 T3 T4]. constructor; intros h b; rewrite H; [apply T1 | apply T2| | rewrite (hdr_same s s' Hn); apply T4]. intros E. destruct (T3 h b E) as [|(p & Ep & En)]; [left; assumption|]. right. exists p. split; [|exact En].
  unfold parent. rewrite H. exact Ep.
Qed.

(** A new leaf. *)
Lemma tree_add s s' g b h p : tree s g -> blk s h = None -> (forall h', blk s' h' = if bool_decide (h' = h) then Some b else blk s h') ->
  (forall h', hdr s' h' = if bool_decide (h' = h) then Some (b_header b) else hdr s h') ->
  hash_of b = Some h -> length h = 32%nat -> hashable b -> h_number (b_header b) = Some (number_of b) /\ u64_ok (number_of b) -> parent s b = Some p -> number_of b = number_of p + 1 -> tree s' g /\ extends s s'.
Proof.
  intros [T1 T2 T3 T4] Hnew Hblk Hhdr Eh Hl Hh Hu Ep En. assert (extends s s') as He by (intros h' b' E; rewrite Hblk; case_bool_decide; [congruence | exact E]). split; [|exact He].
  constructor; intros h' b' E; rewrite Hblk in E; case_bool_decide as Ehh.
  - injection E as <-. subst. auto.
  - apply T1. exact E.
  - injection E as <-. exact Hu.
  - apply (T2 h'). exact E.
  - injection E as <-. right. exists p. split; [apply He; exact Ep | exact En].
  - destruct (T3 h' b' E) as [|(q & Eq & Enq)]; [left; assumption|]. right. exists q. split; [apply He; exact Eq | exact Enq].
  - injection E as <-. rewrite Hhdr, bool_decide_eq_true_2 by exact Ehh. reflexivity.
  - rewrite Hhdr, bool_decide_eq_false_2 by exact Ehh. apply T4. exact E.
Qed.

Lemma canonical_extends s s' top h : extends s s' -> (forall n, canon s' n = canon s n) -> (exists g, tree s g) -> stored s top h -> canonical s top -> canonical s' top.
Proof.
  intros He Hc (g & T) Ht Hcan n Hn. rewrite Hc, Hcan by exact Hn. destruct (Z.leb_spec n (number_of top)); [|reflexivity]. unfold u64_ok in Hn.
  destruct (up_stored s g T (Z.to_nat (number_of top - n)) top h Ht ltac:(lia)) as (x & hx & Ex & _). rewrite Ex, (up_extends s s' _ He _ _ Ex). reflexivity.
Qed.

End Extensions.

(** * Commits *)

Section Commits.
Context {CS : ChainStore} {SL : StoreLaws CS}.

(** State is written to the namespaces of trie nodes and of code. *)
Definition state_key (p : bytes * bytes) : Prop := namespace (fst p) = 110 \/ namespace (fst p) = 99.

Lemma commit_object_keys persist c addr c' : SDB.commit_object persist c addr = Some c' -> Forall state_key (snd c) -> Forall state_key (snd c').
Proof.
  unfold SDB.commit_object. destruct c as [w batch]. destruct (SDB.objects w !! addr) as [obj|]; [|intros [= <-] H; exact H]. destruct (SDB.o_deleted obj).
  { destruct (trie_delete _ _ _); [|discriminate]. intros [= <-] H. exact H. }
  cbn [snd]. intros E H. destruct (if bool_decide (SDB.o_dirty obj = ∅) then _ else _) as [[obj1 batch1]|] eqn:E1; [|discriminate]. cbn [obind] in E.
  assert (Forall state_key batch1) as H1.
  { destruct (bool_decide _); [injection E1 as _ <-; exact H|]. destruct (SDB.commitStorage _ _) as [[r nodes]|] eqn:Es; [|discriminate]. cbn [obind] in E1. injection E1 as _ <-. cbn [snd].
    apply Forall_app. split; [exact H|]. unfold SDB.commitStorage in Es. destruct (trie_new _ _); [|discriminate]. cbn [obind] in Es. destruct (SDB.foldM _ _ _); [|discriminate]. cbn [obind] in Es.
    destruct (trie_commit _ _) as [[[t' r'] ns]|] eqn:Et; [|discriminate]. injection Es as _ <-. eapply Forall_impl; [exact (commit_namespace _ _ _ _ _ Et)|]. intros p Hp. left. exact Hp. }
  destruct (SDB.EncodeAccount _); [|discriminate]. destruct (trie_update _ _ _ _); [|discriminate]. cbn [obind] in E. injection E as <-. cbn [snd].
  destruct (_ && _ && _); [|exact H1]. apply Forall_app. split; [exact H1|]. constructor; [right; reflexivity | constructor].
Qed.

Lemma commit_keys d persist d' root batch : SDB.commitTo d persist = Some (d', root, batch) -> Forall state_key batch.
Proof.
  unfold SDB.commitTo. destruct (SDB.err _); [discriminate|]. intros E. destruct (SDB.foldM _ _ _) as [[w b]|] eqn:Ef; [|discriminate]. cbn [obind] in E.
  destruct (trie_commit _ _) as [[[t r] nodes]|] eqn:Et; [|discriminate]. cbn [obind] in E. injection E as _ _ <-. apply Forall_app. split.
  - assert (forall l c c', SDB.foldM (SDB.commit_object persist) c l = Some c' -> Forall state_key (snd c) -> Forall state_key (snd c')) as H.
    { induction l as [|a l IH]; intros c c'; cbn [SDB.foldM]; [intros [= <-]; auto|]. destruct (SDB.commit_object persist c a) as [c1|] eqn:E1; [|discriminate]. cbn [obind]. intros E' Hc. eapply IH; [exact E'|]. eapply commit_object_keys; eassumption. }
    apply (H _ _ _ Ef). constructor.
  - eapply Forall_impl; [exact (commit_namespace _ _ _ _ _ Et)|]. intros p Hp. left. exact Hp.
Qed.

(** The records of the chain are elsewhere. *)
Lemma commit_elsewhere d persist d' root batch s k : SDB.commitTo d persist = Some (d', root, batch) -> namespace k <> 110 -> namespace k <> 99 -> store_get (store_write s batch) k = store_get s k.
Proof.
  intros E H1 H2. apply write_other. intros Hin. apply list_elem_of_fmap in Hin as (p & -> & Hp). pose proof (commit_keys _ _ _ _ _ E) as Hk. rewrite Forall_forall in Hk. destruct (Hk p Hp); congruence.
Qed.

End Commits.

(** * Descent *)

Lemma below_refl s b : below s b b.
Proof. split; [lia|]. rewrite Z.sub_diag. exists b. auto. Qed.

Lemma below_extends s s' b a : extends s s' -> below s b a -> below s' b a.
Proof. intros He (Hn & x & E & Eh). split; [exact Hn|]. exists x. split; [apply (up_extends s s' _ He), E | exact Eh]. Qed.

Lemma below_trans s g c b a hc hb : tree s g -> stored s c hc -> stored s b hb -> u64_ok (number_of a) -> below s c b -> below s b a -> below s c a.
Proof.
  intros T Hc Hb Ua (H1 & x & Ex & Ehx) (H2 & y & Ey & Ehy). split; [lia|]. pose proof (stored_number s g T b hb Hb) as Ub. unfold u64_ok in *.
  destruct (up_stored s g T (Z.to_nat (number_of c - number_of b)) c hc Hc ltac:(lia)) as (x' & hx & Ex' & Enx & Hx). rewrite Ex in Ex'. injection Ex' as <-.
  assert (hx = hb) as -> by (rewrite (st_hash _ _ _ Hx), (st_hash _ _ _ Hb) in Ehx; congruence). pose proof (same_hash s x b hb Hx Hb) as Eh.
  replace (Z.to_nat (number_of c - number_of a)) with (Z.to_nat (number_of c - number_of b) + Z.to_nat (number_of b - number_of a))%nat by lia. rewrite (up_add s _ _ c x Ex).
  destruct (Z.to_nat (number_of b - number_of a)) as [|k]; [exists x; split; [reflexivity|]; cbn [up] in Ey; injection Ey as <-; congruence|].
  exists y. cbn [up] in *. unfold parent in *. rewrite Eh. auto.
Qed.

(** * The invariant of the chain *)

Section Invariant.
Context {CS : ChainStore} {SL : StoreLaws CS} `{B : Bls} {BP : BlsPossession B}.

Record wf (g : Hash) (bc : BlockChain) : Prop := mkWf
  { wf_tree : tree (bc_store bc) g;
    wf_head : exists h, stored (bc_store bc) (bc_current bc) h;
    wf_canon : canonical (bc_store bc) (bc_current bc);
    wf_final : match bc_finalized bc with None => True | Some f => exists h, stored (bc_store bc) f h end;
    wf_genesis : stored (bc_store bc) (bc_genesis bc) g;
    wf_genesiskey : found (ReadGenesisHash (bc_store bc)) = Some g;
    wf_headkey : found (ReadHeadBlockHash (bc_store bc)) = hash_of (bc_current bc);
    wf_finalkey : found (ReadFinalizedHash (bc_store bc)) = match bc_finalized bc with None => None | Some f => hash_of f end }.

(** Finality moves forward along one branch. *)
Definition forward (bc bc' : BlockChain) : Prop :=
  match bc_finalized bc with None => True | Some f => exists f', bc_finalized bc' = Some f' /\ below (bc_store bc') f' f end.

Record progress (bc bc' : BlockChain) : Prop := mkProgress { pr_extends : extends (bc_store bc) (bc_store bc'); pr_forward : forward bc bc' }.

Lemma progress_refl bc : progress bc bc.
Proof. split; [apply extends_refl|]. unfold forward. destruct (bc_finalized bc) as [f|]; [|exact I]. exists f. split; [reflexivity | apply below_refl]. Qed.

Lemma progress_trans g bc1 bc2 bc3 : wf g bc1 -> wf g bc2 -> wf g bc3 -> progress bc1 bc2 -> progress bc2 bc3 -> progress bc1 bc3.
Proof.
  intros W1 W2 W3 [E1 F1] [E2 F2]. split; [eapply extends_trans; eassumption|]. unfold forward in *. pose proof (wf_final _ _ W1) as S1. pose proof (wf_final _ _ W2) as S2. pose proof (wf_final _ _ W3) as S3.
  destruct (bc_finalized bc1) as [f1|]; [|exact I]. destruct F1 as (f2 & E & B1). rewrite E in *. destruct F2 as (f3 & E3 & B2). rewrite E3 in *. exists f3. split; [reflexivity|].
  destruct S1 as [h1 S1], S2 as [h2 S2], S3 as [h3 S3]. eapply (below_trans _ g f3 f2 f1 h3 h2); [apply W3 | exact S3 | eapply kept_stored; eassumption | apply (stored_number _ g (wf_tree _ _ W1) f1 h1 S1) | exact B2 | eapply below_extends; eassumption].
Qed.

(** More blocks, and the index and the two marks as they were. *)
Lemma wf_store g bc s' : wf g bc -> tree s' g -> extends (bc_store bc) s' -> (forall k, namespace k = 70 \/ namespace k = 71 \/ namespace k = 72 \/ namespace k = 76 -> store_get s' k = store_get (bc_store bc) k) ->
  wf g (with_store bc s') /\ progress bc (with_store bc s').
Proof.
  intros W T' He Hk. destruct (wf_head _ _ W) as [h Hh]. split; [|split; [exact He|]].
  - constructor; cbn [with_store bc_store bc_current bc_finalized].
    + exact T'.
    + exists h. eapply kept_stored; eassumption.
    + apply (canonical_extends (bc_store bc) s' _ h); auto; [|exists g; apply W | apply W]. intros n. unfold canon, ReadCanonicalHash, read_hash. rewrite Hk by (do 2 right; left; reflexivity). reflexivity.
    + pose proof (wf_final _ _ W) as Hf. destruct (bc_finalized bc); [|exact I]. destruct Hf as [hf Hf]. exists hf. eapply kept_stored; eassumption.
    + eapply kept_stored; [exact He | apply W].
    + rewrite <- (wf_genesiskey _ _ W). unfold ReadGenesisHash, read_hash. rewrite Hk by (right; left; reflexivity). reflexivity.
    + rewrite <- (wf_headkey _ _ W). unfold ReadHeadBlockHash, read_hash. rewrite Hk by (do 3 right; reflexivity). reflexivity.
    + rewrite <- (wf_finalkey _ _ W). unfold ReadFinalizedHash, read_hash. rewrite Hk by (left; reflexivity). reflexivity.
  - unfold forward. cbn [with_store bc_finalized bc_store]. destruct (bc_finalized bc) as [f|]; [|exact I]. exists f. split; [reflexivity | apply below_refl].
Qed.

(** The chain reads nothing but its records. *)
Lemma same_records bc s' : (forall k, namespace k <> 110 -> namespace k <> 99 -> store_get s' k = store_get (bc_store bc) k) -> forall g, wf g bc -> wf g (with_store bc s') /\ progress bc (with_store bc s') /\
  (forall h, blk s' h = blk (bc_store bc) h).
Proof.
  intros H g W. assert (forall h, blk s' h = blk (bc_store bc) h) as Hb by (intros h; unfold blk, ReadBlock; rewrite H by (cbn; discriminate); reflexivity).
  destruct (wf_store g bc s' W (tree_same (bc_store bc) s' g Hb ltac:(intros k [E|E]; apply H; rewrite E; discriminate) (wf_tree _ _ W)) (same_extends _ _ Hb)) as [W' P']; [|auto]. intros k [E|[E|[E|E]]]; apply H; rewrite E; discriminate.
Qed.

(** * Finality *)

Lemma get_stored g bc h b : wf g bc -> GetBlockByHash bc h = Some b -> stored (bc_store bc) b h.
Proof. intros W E. apply (blk_stored _ g (wf_tree _ _ W)). exact E. Qed.

(** Marking a stored block final. *)
Lemma mark_final g bc b h : wf g bc -> stored (bc_store bc) b h -> (forall f, bc_finalized bc = Some f -> below (bc_store bc) b f) ->
  let bc' := with_finalized (write bc (WriteFinalizedHash [] h)) b in wf g bc' /\ progress bc bc' /\ forall h, blk (bc_store bc') h = blk (bc_store bc) h.
Proof.
  intros W Hb Hf bc'. set (s' := bc_store bc'). assert (forall k, namespace k <> 70 -> store_get s' k = store_get (bc_store bc) k) as H.
  { intros k Hk. unfold s', bc'. cbn [with_finalized write with_store bc_store]. rewrite get_apply. unfold WriteFinalizedHash. rewrite effect_put_other; [reflexivity|]. intros E. apply Hk. symmetry. exact E. }
  assert (forall h, blk s' h = blk (bc_store bc) h) as Hblk by (intros h'; unfold blk, ReadBlock; rewrite H by (cbn; discriminate); reflexivity).
  assert (forall n, canon s' n = canon (bc_store bc) n) as Hc by (intros n; unfold canon, ReadCanonicalHash, read_hash; rewrite H by (cbn; discriminate); reflexivity).
  pose proof (same_extends _ _ Hblk) as He. destruct (wf_head _ _ W) as [hc Hh]. split; [|split; [split; [exact He|] | exact Hblk]].
  - constructor; fold s'.
    + apply (tree_same (bc_store bc)); [exact Hblk | intros k [E|E]; apply H; rewrite E; discriminate | apply W].
    + exists hc. eapply kept_stored; eassumption.
    + apply (canonical_extends (bc_store bc) s' _ hc); auto; [exists g; apply W | apply W].
    + exists h. eapply kept_stored; eassumption.
    + eapply kept_stored; [exact He | apply W].
    + rewrite <- (wf_genesiskey _ _ W). unfold ReadGenesisHash, read_hash. rewrite H by (cbn; discriminate). reflexivity.
    + change (bc_current bc') with (bc_current bc). rewrite <- (wf_headkey _ _ W). unfold ReadHeadBlockHash, read_hash. rewrite H by (cbn; discriminate). reflexivity.
    + change (found (ReadFinalizedHash s') = hash_of b). rewrite (st_hash _ _ _ Hb). unfold ReadFinalizedHash, read_hash, s', bc'. cbn [with_finalized write with_store bc_store]. rewrite get_apply. unfold WriteFinalizedHash. rewrite effect_put, bool_decide_eq_true_2 by reflexivity.
      cbn [found]. f_equal. apply fit_right_id, (stored_length _ g (wf_tree _ _ W) b h Hb).
  - unfold forward. destruct (bc_finalized bc) as [f|]; [|exact I]. exists b. split; [reflexivity|]. eapply below_extends; [exact He | apply Hf; reflexivity].
Qed.

Lemma descendant_spec g bc b h f hf : wf g bc -> stored (bc_store bc) b h -> stored (bc_store bc) f hf -> number_of f <= number_of b ->
  exists r, isDescendantLocked bc b f = Some (Some r) /\ (r = true <-> below (bc_store bc) b f).
Proof.
  intros W Hb Hf Hn. destruct (descends_spec bc g (wf_tree _ _ W) f hf (Z.to_nat (number_of b)) (st_hash _ _ _ Hf) (stored_number _ g (wf_tree _ _ W) f hf Hf) b h Hb ltac:(lia)) as (r & E & Hr).
  exists r. split; [exact E | apply Hr, Hn].
Qed.

Lemma finalizeLocked_spec g bc qc : wf g bc -> exists bc', finalizeLocked bc qc = Some bc' /\ wf g bc' /\ progress bc bc' /\ bc_current bc' = bc_current bc /\ (forall h, blk (bc_store bc') h = blk (bc_store bc) h) /\
  (bc' = bc \/ exists b, stored (bc_store bc) b (Att.ag_hash qc) /\ number_of b = Att.ag_number qc /\ bc_finalized bc' = Some b).
Proof.
  intros W. assert (exists bc', Some bc = Some bc' /\ wf g bc' /\ progress bc bc' /\ bc_current bc' = bc_current bc /\ (forall h, blk (bc_store bc') h = blk (bc_store bc) h) /\
    (bc' = bc \/ exists b, stored (bc_store bc) b (Att.ag_hash qc) /\ number_of b = Att.ag_number qc /\ bc_finalized bc' = Some b)) as Hsame by (exists bc; auto 8 using progress_refl).
  unfold finalizeLocked. destruct (GetBlockByHash bc (Att.ag_hash qc)) as [b|] eqn:Eb; [|exact Hsame]. pose proof (get_stored g bc _ b W Eb) as Hb. destruct (Z.eqb_spec (number_of b) (Att.ag_number qc)) as [En|]; [|exact Hsame]. cbn [negb].
  rewrite (st_hash _ _ _ Hb). cbn [obind]. pose proof (wf_final _ _ W) as Sf. assert ((forall f, bc_finalized bc = Some f -> below (bc_store bc) b f) -> exists bc', Some (with_finalized (write bc (WriteFinalizedHash [] (Att.ag_hash qc))) b) = Some bc' /\ wf g bc' /\ progress bc bc' /\
    bc_current bc' = bc_current bc /\ (forall h, blk (bc_store bc') h = blk (bc_store bc) h) /\ (bc' = bc \/ exists b, stored (bc_store bc) b (Att.ag_hash qc) /\ number_of b = Att.ag_number qc /\ bc_finalized bc' = Some b)) as Hmark.
  { intros Hf. destruct (mark_final g bc b _ W Hb Hf) as (W' & P' & B'). eexists. split; [reflexivity|]. split; [exact W'|]. split; [exact P'|]. split; [reflexivity|]. split; [exact B'|]. right. exists b. auto. }
  destruct (bc_finalized bc) as [old|]; [|apply Hmark; discriminate]. destruct Sf as [ho So]. destruct (Z.leb_spec (number_of b) (number_of old)); [exact Hsame|].
  destruct (descendant_spec g bc b _ old ho W Hb So ltac:(lia)) as ([] & -> & Hr); cbn [obind]; [|exact Hsame]. apply Hmark. intros f [= <-]. apply Hr. reflexivity.
Qed.

(** * Reorganisation and import *)

Lemma reorg_wf g bc b h : wf g bc -> stored (bc_store bc) b h -> exists bc' old, reorgTo bc b = Some (bc', Ok old) /\ wf g bc' /\ progress bc bc' /\ bc_current bc' = b /\ bc_finalized bc' = bc_finalized bc /\
  (forall h, blk (bc_store bc') h = blk (bc_store bc) h) /\ exists j, old = path (bc_store bc) j (bc_current bc).
Proof.
  intros W Hb. destruct (reorg_spec bc g (wf_tree _ _ W) b h Hb (wf_head _ _ W) (wf_canon _ _ W)) as (bc' & old & E & Ec & Ef & Eg & _ & _ & Hblk & Hcan & Hold & Hhk & Hk).
  exists bc', old. split; [exact E|]. pose proof (same_extends _ _ Hblk) as He. split; [|split; [split; [exact He|]|auto]].
  - constructor.
    + apply (tree_same (bc_store bc)); [exact Hblk | intros k [Ek|Ek]; apply Hk; rewrite Ek; discriminate | apply W].
    + exists h. rewrite Ec. eapply kept_stored; eassumption.
    + intros n Hn. rewrite Hcan, Ec by exact Hn. rewrite (up_same _ _ _ Hblk). reflexivity.
    + rewrite Ef. pose proof (wf_final _ _ W) as Hf. destruct (bc_finalized bc); [|exact I]. destruct Hf as [hf Hf]. exists hf. eapply kept_stored; eassumption.
    + rewrite Eg. eapply kept_stored; [exact He | apply W].
    + rewrite <- (wf_genesiskey _ _ W). unfold ReadGenesisHash, read_hash. rewrite Hk by (cbn; discriminate). reflexivity.
    + rewrite Hhk, Ec. symmetry. apply Hb.
    + rewrite Ef, <- (wf_finalkey _ _ W). unfold ReadFinalizedHash, read_hash. rewrite Hk by (cbn; discriminate). reflexivity.
  - unfold forward. rewrite Ef. destruct (bc_finalized bc) as [f|]; [|exact I]. exists f. split; [reflexivity | apply below_refl].
Qed.

Lemma receipts_encode encs : exists enc, Rlp.Encode (Rlp.VPtr (Rlp.VStruct [Rlp.VSeq (map Rlp.bytes_value encs)])) (Rlp.TPtr stored_type) = Ok enc.
Proof.
  assert (exists p, Rlp.encodeValue (Rlp.VSeq (map Rlp.bytes_value encs)) (Rlp.TSlice Tx.bytes_type) = Ok p) as [p Ep].
  { cbn [Rlp.encodeValue]. destruct (Tx.sequence_ok (map (fun x => Rlp.encodeValue x Tx.bytes_type) (map Rlp.bytes_value encs))) as [e He]; [|cbn [Rlp.is_uint8]; rewrite He; eexists; reflexivity].
    rewrite map_map. induction encs; constructor; [rewrite Tx.encode_bytes; eauto | assumption]. }
  unfold Rlp.Encode, stored_type. cbn [Rlp.encodeValue]. cbn -[Rlp.encodeValue Tx.bytes_type]. rewrite Ep. eexists. reflexivity.
Qed.

(** A new block on a stored parent is stored, and nothing else of the chain changes. *)
Lemma store_block_spec g bc b h p receipts : wf g bc -> fine b -> hash_of b = Some h -> HasBlock bc h = false -> parent (bc_store bc) b = Some p -> number_of b = number_of p + 1 -> is_Some (EncodeReceiptsForRoot receipts) ->
  exists bc', store_block bc b receipts = Some (Ok bc') /\ wf g bc' /\ progress bc bc' /\ bc_current bc' = bc_current bc /\ bc_finalized bc' = bc_finalized bc /\ stored (bc_store bc') b h.
Proof.
  intros W Hf Eh Hnew Ep En [encs Ee]. destruct (WriteBlock_fine [] b h Hf Eh) as (e & he & Eu & Ed & Ew). destruct (receipts_encode encs) as [enc Er].
  unfold store_block, WriteReceipts. rewrite Ew. cbn [obind]. rewrite Eh. cbn [obind]. rewrite Ee. cbn [obind]. rewrite Er. cbn [obind]. eexists. split; [reflexivity|].
  set (batch := batch_Put _ (receiptsKey h) enc). set (s' := store_apply (bc_store bc) batch). assert (blk (bc_store bc) h = None) as Hn.
  { unfold HasBlock in Hnew. apply bool_decide_eq_false in Hnew. unfold blk, ReadBlock. destruct (store_get _ (bodyKey h)); [destruct Hnew; eauto | reflexivity]. }
  assert (forall k, namespace k <> 98 -> namespace k <> 104 -> namespace k <> 78 -> namespace k <> 114 -> store_get s' k = store_get (bc_store bc) k) as Hk.
  { intros k K1 K2 K3 K4. unfold s'. rewrite get_apply. unfold batch. rewrite !effect_put_other; [reflexivity|..]; intros E; first [apply K1; symmetry; exact E | apply K2; symmetry; exact E | apply K3; symmetry; exact E | apply K4; symmetry; exact E]. }
  assert (forall h', blk s' h' = if bool_decide (h' = h) then Some (decoded b) else blk (bc_store bc) h') as Hblk.
  { intros h'. unfold blk, ReadBlock, s'. rewrite get_apply. unfold batch. do 3 elsewhere. rewrite effect_put. destruct (decide (h' = h)) as [->|Hne].
    - rewrite !bool_decide_eq_true_2 by reflexivity. rewrite Eu. reflexivity.
    - rewrite !(bool_decide_eq_false_2 (_ = h)), (bool_decide_eq_false_2 (bodyKey h = _)) by (auto; intros E; apply Hne; symmetry; exact (body_inj _ _ E)). reflexivity. }
  assert (forall h', hdr s' h' = if bool_decide (h' = h) then Some (b_header b) else hdr (bc_store bc) h') as Hhdr.
  { intros h'. destruct (decide (h' = h)) as [->|Hne]; [rewrite bool_decide_eq_true_2 by reflexivity; apply (header_read b he s' Hf Ed) | rewrite bool_decide_eq_false_2 by exact Hne].
    - unfold s'. rewrite get_apply. unfold batch. elsewhere. rewrite effect_put, bool_decide_eq_true_2 by reflexivity. reflexivity.
    - unfold s'. rewrite get_apply. unfold batch. do 2 elsewhere. rewrite effect_put, bool_decide_eq_true_2 by reflexivity. reflexivity.
    - apply hdr_local; intros; unfold s'; rewrite get_apply; unfold batch; elsewhere.
      + rewrite effect_put, (bool_decide_eq_false_2 (headerNumberKey h = _)) by (intros E; apply Hne; symmetry; exact (header_number_inj _ _ E)). do 2 elsewhere. reflexivity.
      + elsewhere. rewrite effect_put, (bool_decide_eq_false_2 (headerKey _ h = _)) by (intros E; apply Hne; symmetry; exact (header_inj _ _ _ _ E)). elsewhere. reflexivity. }
  destruct (hash_fine b Hf) as (x & Ex & Ehh & Hl). assert (x = h) as -> by congruence. destruct (fine_hashable b Hf) as [Hh Hd].
  destruct (fine_number b Hf) as (n & En1 & Hu). assert (number_of b = n) as Enb by (unfold number_of, NumberU64; rewrite En1; apply wrap64_small; exact Hu).
  destruct (tree_add (bc_store bc) s' g (decoded b) h p (wf_tree _ _ W) Hn Hblk Hhdr ltac:(rewrite hash_decoded; exact Ehh) Hl Hd) as [T' He]; auto.
  { change (number_of (decoded b)) with (number_of b). rewrite Enb. auto. }
  destruct (wf_store g bc s' W T' He) as [W' P']; [intros k [E|[E|[E|E]]]; apply Hk; rewrite E; discriminate|]. do 2 (split; [assumption|]). do 2 (split; [reflexivity|]).
  constructor; [exact Eh | exact Hh|]. exists (decoded b). split; [|reflexivity]. change (blk s' h = Some (decoded b)). rewrite Hblk, bool_decide_eq_true_2 by reflexivity. reflexivity.
Qed.

Lemma justify_spec g bc b : wf g bc -> exists bc', justify bc b = Some bc' /\ wf g bc' /\ progress bc bc' /\ bc_current bc' = bc_current bc /\ (forall h, blk (bc_store bc') h = blk (bc_store bc) h) /\
  (bc' = bc \/ exists qc f, Proc.DecodeQuorumCert (h_justification (b_header b)) = Ok (Some qc) /\ verify_certificate bc qc = Ok tt /\ stored (bc_store bc) f (Att.ag_hash qc) /\ number_of f = Att.ag_number qc /\ bc_finalized bc' = Some f).
Proof.
  intros W. unfold justify. set (P := fun bc' => wf g bc' /\ progress bc bc' /\ bc_current bc' = bc_current bc /\ (forall h, blk (bc_store bc') h = blk (bc_store bc) h) /\
    (bc' = bc \/ exists qc f, Proc.DecodeQuorumCert (h_justification (b_header b)) = Ok (Some qc) /\ verify_certificate bc qc = Ok tt /\ stored (bc_store bc) f (Att.ag_hash qc) /\ number_of f = Att.ag_number qc /\ bc_finalized bc' = Some f)).
  assert (exists bc', Some bc = Some bc' /\ P bc') as Hsame by (exists bc; unfold P; auto 8 using progress_refl).
  destruct (Proc.DecodeQuorumCert _) as [[qc|]|e] eqn:Eq; [|exact Hsame..]. destruct (Att.IsEmpty qc); [exact Hsame|]. destruct (verify_certificate bc qc) as [[]|e] eqn:Ev; [|exact Hsame].
  destruct (finalizeLocked_spec g bc qc W) as (bc' & E & W' & P' & Ec & Hb & Hf). exists bc'. split; [exact E|]. unfold P. do 4 (split; [assumption|]). destruct Hf as [->|(f & Hs & Hn & Ef)]; [left; reflexivity|]. right. exists qc, f. auto 8.
Qed.

(** Everything after the execution succeeds. *)
Lemma adopt_spec g bc b h p receipts logs : wf g bc -> fine b -> hash_of b = Some h -> HasBlock bc h = false -> parent (bc_store bc) b = Some p -> number_of b = number_of p + 1 -> is_Some (EncodeReceiptsForRoot receipts) ->
  exists bc' ev, adopt bc b receipts logs = Some (bc', Ok ev) /\ wf g bc' /\ progress bc bc' /\ stored (bc_store bc') b h /\
    bc_current bc' = (if number_of (bc_current bc) <? number_of b then b else bc_current bc) /\ (ev = None <-> number_of b <= number_of (bc_current bc)).
Proof.
  intros W Hf Eh Hnew Ep En He. destruct (store_block_spec g bc b h p receipts W Hf Eh Hnew Ep En He) as (bc1 & E1 & W1 & P1 & Ec1 & Ef1 & Hs1). destruct (justify_spec g bc1 b W1) as (bc2 & E2 & W2 & P2 & Ec2 & Hb2 & _).
  unfold adopt. rewrite E1. cbn [obind]. rewrite E2. cbn [obind]. rewrite Ec2, Ec1. pose proof (progress_trans g _ _ _ W W1 W2 P1 P2) as P12. pose proof (kept_stored _ _ b h (pr_extends _ _ P2) Hs1) as Hs2.
  destruct (Z.ltb_spec (number_of (bc_current bc)) (number_of b)) as [Hlt|Hge].
  - destruct (reorg_wf g bc2 b h W2 Hs2) as (bc3 & old & E3 & W3 & P3 & Ec3 & _). rewrite E3. cbn [obind]. eexists _, _. split; [reflexivity|]. split; [exact W3|]. split; [exact (progress_trans g _ _ _ W W2 W3 P12 P3)|].
    split; [exact (kept_stored _ _ b h (pr_extends _ _ P3) Hs2)|]. split; [exact Ec3|]. split; [discriminate | lia].
  - eexists _, _. split; [reflexivity|]. do 3 (split; [assumption|]). split; [congruence|]. split; [lia | reflexivity].
Qed.

(** Execution writes state only. *)
Lemma execute_spec g bc b p bc' r : wf g bc -> execute bc b p = Some (bc', r) -> exists s', bc' = with_store bc s' /\ (forall k, namespace k <> 110 -> namespace k <> 99 -> store_get s' k = store_get (bc_store bc) k) /\
  (forall receipts logs, r = Ok (receipts, logs) -> is_Some (EncodeReceiptsForRoot receipts)).
Proof.
  intros W. assert (bc = with_store bc (bc_store bc)) as Hsame by (destruct bc; reflexivity). unfold execute. destruct (StateAt bc _) as [d|]; [|intros [= <- <-]; exists (bc_store bc); split; [exact Hsame|]; split; [auto | discriminate]].
  destruct (Proc.Process _ _ _ _ _) as [[d' [[[receipts logs] gas]|e]]|e]; [|intros [= <- <-]; exists (bc_store bc); split; [exact Hsame|]; split; [auto | discriminate]|discriminate].
  destruct (list_root _ _) as [want|] eqn:El; [|discriminate]. cbn [obind]. assert (is_Some (EncodeReceiptsForRoot receipts)) as Hr.
  { unfold list_root in El. destruct receipts; [exists []; reflexivity|]. cbn [is_empty] in El. destruct (EncodeReceiptsForRoot _); [eauto | discriminate]. }
  case_bool_decide; cbn [negb]; [|intros [= <- <-]; exists (bc_store bc); split; [exact Hsame|]; split; [auto | discriminate]].
  destruct (SDB.commitTo _ _) as [[[d2 root] batch]|] eqn:Ecm; [|intros [= <- <-]; exists (bc_store bc); split; [exact Hsame|]; split; [auto | discriminate]].
  intros [= <- <-]. exists (store_write (bc_store bc) batch). split; [reflexivity|]. split; [intros k K1 K2; exact (commit_elsewhere _ _ _ _ _ _ k Ecm K1 K2)|].
  case_bool_decide; [intros ? ? [= <- <-]; exact Hr | discriminate].
Qed.

(** The head descends from the finalized block. *)
Definition anchored (bc : BlockChain) : Prop := forall f, bc_finalized bc = Some f -> below (bc_store bc) (bc_current bc) f.

(** The head, finality, the blocks and the index are as they were. *)
Definition unchanged (bc bc' : BlockChain) : Prop :=
  bc_current bc' = bc_current bc /\ bc_finalized bc' = bc_finalized bc /\ (forall h, GetBlockByHash bc' h = GetBlockByHash bc h) /\ forall n, GetBlockByNumber bc' n = GetBlockByNumber bc n.

Lemma number_next bc b p now h : tree (bc_store bc) h -> parent (bc_store bc) b = Some p -> fine b -> verifyBlock bc b p now = Some (Ok tt) -> number_of b = number_of p + 1.
Proof.
  intros T Ep Hf. unfold verifyBlock. destruct (Poa.VerifyHeader _ _ _ _) as [[[]|e]|] eqn:Ev; [|discriminate..]. intros _. apply Poa.VerifyHeader_spec in Ev as (m & Em & En & _).
  destruct (tree_number _ _ T _ p Ep) as [En' _]. destruct (fine_number b Hf) as (n & Hn & Hu). unfold number_of at 1, NumberU64. rewrite Hn. rewrite wrap64_small by exact Hu. congruence.
Qed.

Lemma canon_stored g bc n h : wf g bc -> u64_ok n -> canon (bc_store bc) n = Some h -> exists x, stored (bc_store bc) x h /\ number_of x = n.
Proof.
  intros W Hn. rewrite (wf_canon _ _ W n Hn). destruct (Z.leb_spec n (number_of (bc_current bc))) as [Hle|]; [|discriminate]. destruct (wf_head _ _ W) as [hc Hc]. unfold u64_ok in Hn.
  destruct (up_stored _ g (wf_tree _ _ W) (Z.to_nat (number_of (bc_current bc) - n)) _ hc Hc ltac:(lia)) as (x & hx & -> & Ex & Hx). cbn [obind]. rewrite (st_hash _ _ _ Hx). intros [= <-]. exists x. split; [exact Hx | lia].
Qed.

(** A new block that passes the check descends from the finalized block, if the head does. *)
Lemma finality_checked g bc b h p f : wf g bc -> anchored bc -> bc_finalized bc = Some f -> hash_of b = Some h -> HasBlock bc h = false -> parent (bc_store bc) b = Some p -> number_of b = number_of p + 1 -> u64_ok (number_of b) ->
  checkFinalityLocked bc b = Some (Ok tt) -> below (bc_store bc) p f /\ number_of f < number_of b.
Proof.
  intros W A Ef Eh Hnew Ep En Hu. unfold checkFinalityLocked. rewrite Ef. pose proof (A f Ef) as [Hle _]. pose proof (wf_final _ _ W) as Sf. rewrite Ef in Sf. destruct Sf as [hf Sf].
  destruct (Z.leb_spec (number_of b) (number_of f)) as [Hb|Hb].
  - rewrite Eh. cbn [obind]. destruct (canon (bc_store bc) (number_of b)) as [hx|] eqn:Ec.
    + destruct (canon_stored g bc _ hx W Hu Ec) as (x & [_ _ (y & Ey & _)] & _). unfold canon, found in Ec. destruct (ReadCanonicalHash _ _) as [hx'|]; [|discriminate]. injection Ec as ->. case_bool_decide; [|discriminate]. subst.
      unfold HasBlock in Hnew. apply bool_decide_eq_false in Hnew. destruct Hnew. unfold blk, ReadBlock in Ey. destruct (store_get _ (bodyKey h)); [eauto | discriminate].
    + rewrite (wf_canon _ _ W _ Hu) in Ec. destruct (Z.leb_spec (number_of b) (number_of (bc_current bc))); [|lia]. destruct (wf_head _ _ W) as [hc Hc]. unfold u64_ok in Hu.
      destruct (up_stored _ g (wf_tree _ _ W) (Z.to_nat (number_of (bc_current bc) - number_of b)) _ hc Hc ltac:(lia)) as (x & hx & Ex & _ & Hx). rewrite Ex in Ec. cbn [obind] in Ec. rewrite (st_hash _ _ _ Hx) in Ec. discriminate.
  - pose proof (stored_number _ g (wf_tree _ _ W) f hf Sf) as Uf. unfold isDescendantLocked. unfold u64_ok in *. destruct (Z.to_nat (number_of b)) as [|n] eqn:Es; [lia|]. cbn [descends]. destruct (Z.ltb_spec (number_of f) (number_of b)); [|lia].
    change (GetBlockByHash bc (h_parentHash (b_header b))) with (parent (bc_store bc) b). rewrite Ep. destruct (descends_spec bc g (wf_tree _ _ W) f hf n (st_hash _ _ _ Sf) Uf p _ (blk_stored _ g (wf_tree _ _ W) _ p Ep) ltac:(lia)) as (r & -> & Hr).
    cbn [obind]. destruct r; [|discriminate]. intros _. split; [|assumption]. apply Hr; [lia | reflexivity].
Qed.

Lemma unchanged_refl bc : unchanged bc bc.
Proof. repeat split. Qed.

Lemma unchanged_store bc s' : (forall k, namespace k <> 110 -> namespace k <> 99 -> store_get s' k = store_get (bc_store bc) k) -> unchanged bc (with_store bc s').
Proof.
  intros H. assert (forall h, GetBlockByHash (with_store bc s') h = GetBlockByHash bc h) as Hb by (intros h; unfold GetBlockByHash, ReadBlock; cbn [with_store bc_store]; rewrite H by (cbn; discriminate); reflexivity).
  do 2 (split; [reflexivity|]). split; [exact Hb|]. intros n. unfold GetBlockByNumber, ReadCanonicalHash, read_hash. cbn [with_store bc_store]. rewrite H by (cbn; discriminate). destruct (store_get _ _); [|reflexivity]. cbn [found obind]. apply Hb.
Qed.

(** What an import leaves, whatever it returns. *)
Definition imported (bc bc' : BlockChain) (b : Block) (r : result error (option ChainEvent)) : Prop :=
  match r with
  | Err _ => unchanged bc bc'
  | Ok ev => (exists h, hash_of b = Some h /\ GetBlockByHash bc h = None /\ stored (bc_store bc') b h) /\
      bc_current bc' = (if number_of (bc_current bc) <? number_of b then b else bc_current bc) /\ (ev = None <-> number_of b <= number_of (bc_current bc))
  end.

Lemma below_parent s b p f : parent s b = Some p -> number_of b = number_of p + 1 -> below s p f -> below s b f.
Proof.
  intros Ep En (Hle & x & Ex & Eh). split; [lia|]. exists x. split; [|exact Eh]. replace (Z.to_nat (number_of b - number_of f)) with (Datatypes.S (Z.to_nat (number_of p - number_of f))) by lia. cbn [up]. rewrite Ep. exact Ex.
Qed.

Lemma import_spec g bc b now bc' r : wf g bc -> fine b -> insertLocked bc b now = Some (bc', r) ->
  wf g bc' /\ progress bc bc' /\ imported bc bc' b r /\ (anchored bc -> bc_finalized bc' = bc_finalized bc -> anchored bc').
Proof.
  intros W Hf. assert (forall e : error, wf g bc /\ progress bc bc /\ imported bc bc b (Err e) /\ (anchored bc -> bc_finalized bc = bc_finalized bc -> anchored bc)) as Hsame.
  { intros e. split; [exact W|]. split; [apply progress_refl|]. split; [apply unchanged_refl | auto]. }
  unfold insertLocked. destruct (hash_fine b Hf) as (h & Eh & _ & _). rewrite Eh. cbn [obind]. destruct (HasBlock bc h) eqn:Hnew; [intros [= <- <-]; apply Hsame|].
  destruct (GetBlockByHash bc (h_parentHash (b_header b))) as [p|] eqn:Ep; [|intros [= <- <-]; apply Hsame]. change (parent (bc_store bc) b = Some p) in Ep.
  destruct (verifyBlock bc b p now) as [[[]|e]|] eqn:Ev; [|intros [= <- <-]; apply Hsame | discriminate]. cbn [obind]. pose proof (number_next bc b p now g (wf_tree _ _ W) Ep Hf Ev) as En.
  destruct (checkFinalityLocked bc b) as [[[]|e]|] eqn:Ecf; [|intros [= <- <-]; apply Hsame | discriminate]. cbn [obind].
  destruct (execute bc b p) as [[bc1 r1]|] eqn:Ee; [|discriminate]. cbn [obind]. destruct (execute_spec g bc b p bc1 r1 W Ee) as (s' & -> & Hs & Hr). destruct (same_records bc s' Hs g W) as (W1 & P1 & Hb1).
  destruct r1 as [[receipts logs]|e]; intros E.
  - assert (HasBlock (with_store bc s') h = false) as Hnew1 by (revert Hnew; unfold HasBlock; cbn [with_store bc_store]; rewrite Hs by (cbn; discriminate); auto).
    destruct (adopt_spec g (with_store bc s') b h p receipts logs W1 Hf Eh Hnew1) as (bc2 & ev & E2 & W2 & P2 & Hst & Ec & Hev); auto; [unfold parent; cbn [with_store bc_store]; rewrite Hb1; exact Ep | eapply Hr; reflexivity|].
    rewrite E2 in E. injection E as <- <-. pose proof (progress_trans g _ _ _ W W1 W2 P1 P2) as P. split; [exact W2|]. split; [exact P|]. split.
    + split; [|split; [exact Ec | exact Hev]]. exists h. split; [exact Eh|]. split; [|exact Hst]. unfold HasBlock in Hnew. apply bool_decide_eq_false in Hnew. unfold GetBlockByHash, ReadBlock. destruct (store_get _ _); [destruct Hnew; eauto | reflexivity].
    + intros A Ef f Ef'. rewrite Ef in Ef'. rewrite Ec. cbn [with_store bc_current]. destruct (Z.ltb_spec (number_of (bc_current bc)) (number_of b)); [|eapply below_extends; [apply P | apply A; exact Ef']].
      destruct (fine_number b Hf) as (n & Hn & Hu). assert (u64_ok (number_of b)) as Ub by (unfold number_of, NumberU64; rewrite Hn, wrap64_small; exact Hu).
      destruct (finality_checked g bc b h p f W A Ef' Eh Hnew Ep En Ub Ecf) as [Hp _]. apply (below_parent _ b p); [|exact En | eapply below_extends; [apply P | exact Hp]]. apply (pr_extends _ _ P), Ep.
  - injection E as <- <-. split; [exact W1|]. split; [exact P1|]. split; [apply unchanged_store, Hs|]. intros A _ f Ef. eapply below_extends; [apply P1 | apply A; exact Ef].
Qed.

(** * Certificates *)

Lemma canon_below g bc b h : wf g bc -> stored (bc_store bc) b h -> canon (bc_store bc) (number_of b) = Some h -> below (bc_store bc) (bc_current bc) b.
Proof.
  intros W Hb. pose proof (stored_number _ g (wf_tree _ _ W) b h Hb) as Hu. rewrite (wf_canon _ _ W _ Hu). destruct (Z.leb_spec (number_of b) (number_of (bc_current bc))) as [Hle|]; [|discriminate].
  destruct (up _ _ _) as [x|] eqn:Ex; [|discriminate]. intros E. split; [exact Hle|]. exists x. split; [exact Ex|]. rewrite E. symmetry. apply Hb.
Qed.

(** [Finalize] always returns; an error changes nothing, and a block it accepts is final and canonical. *)
Definition settled (bc bc' : BlockChain) (qc : Att.AggregateAttestation) (r : result error unit) : Prop :=
  match r with
  | Err _ => bc' = bc
  | Ok _ => exists b, stored (bc_store bc) b (Att.ag_hash qc) /\ number_of b = Att.ag_number qc /\
      ((exists old, bc_finalized bc = Some old /\ number_of b <= number_of old /\ bc' = bc) \/ (bc_finalized bc' = Some b /\ below (bc_store bc') (bc_current bc') b))
  end.

Lemma finalize_block g bc b h : wf g bc -> stored (bc_store bc) b h -> h <> ZeroHash -> (forall f, bc_finalized bc = Some f -> below (bc_store bc) b f) ->
  exists bc', (let? r := (if bool_decide (default ZeroHash (found (ReadCanonicalHash (bc_store bc) (number_of b))) = h) then Some (bc, Ok []) else reorgTo bc b) in
     match r with (bc, Err e) => Some (bc, Err e) | (bc, Ok _) => Some (with_finalized (write bc (WriteFinalizedHash [] h)) b, Ok tt) end) = Some (bc', Ok tt : result error unit) /\
    wf g bc' /\ progress bc bc' /\ bc_finalized bc' = Some b /\ below (bc_store bc') (bc_current bc') b.
Proof.
  intros W Hb Hz Hf. case_bool_decide as Ec; cbn [obind].
  - destruct (mark_final g bc b h W Hb Hf) as (W' & P' & _). eexists. split; [reflexivity|]. do 2 (split; [assumption|]). split; [reflexivity|].
    eapply below_extends; [apply P'|]. apply (canon_below g bc b h W Hb). unfold canon. destruct (found (ReadCanonicalHash _ _)) as [hx|]; cbn [default] in Ec; [subst; reflexivity | congruence].
  - destruct (reorg_wf g bc b h W Hb) as (bc1 & old & E & W1 & P1 & Ec1 & Ef1 & Hb1 & _). rewrite E. cbn [obind]. pose proof (kept_stored _ _ b h (pr_extends _ _ P1) Hb) as Hs1.
    destruct (mark_final g bc1 b h W1 Hs1) as (W2 & P2 & _); [intros f Ef; rewrite Ef1 in Ef; eapply below_extends; [apply P1 | apply Hf; exact Ef]|].
    eexists. split; [reflexivity|]. split; [exact W2|]. split; [exact (progress_trans g _ _ _ W W1 W2 P1 P2)|]. split; [reflexivity|]. cbn [with_finalized write with_store bc_current]. rewrite Ec1. apply below_refl.
Qed.

Lemma finalize_spec g bc qc : wf g bc -> Att.ag_hash qc <> ZeroHash -> exists bc' r, Finalize bc qc = Some (bc', r) /\ wf g bc' /\ progress bc bc' /\ settled bc bc' qc r /\ (anchored bc -> anchored bc').
Proof.
  intros W Hz. assert (forall e : error, exists bc' r, Some (bc, Err e) = Some (bc', r : result error unit) /\ wf g bc' /\ progress bc bc' /\ settled bc bc' qc r /\ (anchored bc -> anchored bc')) as Hsame.
  { intros e. exists bc, (Err e). split; [reflexivity|]. split; [exact W|]. split; [apply progress_refl|]. split; [reflexivity | auto]. }
  unfold Finalize. destruct (Att.IsEmpty qc); [apply Hsame|]. destruct (verify_certificate bc qc) as [[]|]; [|apply Hsame]. destruct (GetBlockByHash bc (Att.ag_hash qc)) as [b|] eqn:Eb; [|apply Hsame].
  pose proof (get_stored g bc _ b W Eb) as Hb. destruct (Z.eqb_spec (number_of b) (Att.ag_number qc)) as [En|]; [|apply Hsame]. cbn [negb]. rewrite (st_hash _ _ _ Hb).
  assert ((forall f, bc_finalized bc = Some f -> below (bc_store bc) b f) -> exists bc' r, (let? hash := Some (Att.ag_hash qc) in let? r := (if bool_decide (default ZeroHash (found (ReadCanonicalHash (bc_store bc) (number_of b))) = hash) then Some (bc, Ok []) else reorgTo bc b) in
     match r with (bc, Err e) => Some (bc, Err e) | (bc, Ok _) => Some (with_finalized (write bc (WriteFinalizedHash [] hash)) b, Ok tt) end) = Some (bc', r : result error unit) /\ wf g bc' /\ progress bc bc' /\ settled bc bc' qc r /\ (anchored bc -> anchored bc')) as Hgo.
  { intros Hf. destruct (finalize_block g bc b _ W Hb Hz Hf) as (bc' & E & W' & P' & Ef' & Hbel). exists bc', (Ok tt). split; [exact E|]. do 2 (split; [assumption|]). split; [exists b; auto|]. intros _ f Ef. rewrite Ef' in Ef. injection Ef as <-. exact Hbel. }
  pose proof (wf_final _ _ W) as Sf. destruct (bc_finalized bc) as [old|] eqn:Eo; [|cbn [obind]; apply Hgo; discriminate]. destruct Sf as [ho So].
  destruct (Z.leb_spec (number_of b) (number_of old)) as [Hle|Hlt].
  - exists bc, (Ok tt). split; [reflexivity|]. split; [exact W|]. split; [apply progress_refl|]. split; [|auto]. exists b. split; [exact Hb|]. split; [exact En|]. left. exists old. auto.
  - destruct (descendant_spec g bc b _ old ho W Hb So ltac:(lia)) as ([] & -> & Hr); cbn [obind]; [|apply Hsame]. apply Hgo. intros f [= <-]. apply Hr. reflexivity.
Qed.

End Invariant.
End Tree.
End ChainFacts.
