(* ===== verification/Genesis.v ===== *)
(** The start of a chain (src/chain/genesis.go and [NewBlockChain] of
    src/chain/blockchain.go): the state and block a specification describes, and
    opening a store that is empty or holds a chain.

    The allocations are a list, in the order in which the code's range over its map
    visits them.  The key derived from a validator's address, the JSON text of the
    specification and the fresh in-memory store are arguments.  The JSON forms and
    the files they are read from are not modelled. *)

From Stdlib Require Import String.
From stdpp Require Import base list gmap.
From Stdlib Require Import ZArith Lia.
From S2P Require Import Prelude Common RLP Trie Attestation Registry Lifecycle StateDB Interpreter Precompiles Transaction CoreBlock Processor Poa Database RawDb Chain.
Local Open Scope Z_scope.
Local Open Scope go_scope.

Module Gen.
Import Db Blk Rcpt RawDb Chain.

Record GenesisAccount := mkAccount { ga_balance : option Z; ga_nonce : Z; ga_code : bytes; ga_storage : list (Hash * Hash) }.

Record Genesis := mkGenesis
  { ge_chainID : Z; ge_timestamp : Z; ge_gasLimit : Z; ge_baseFee : option Z; ge_extra : bytes; ge_coinbase : Address;
    ge_alloc : list (Address * GenesisAccount); ge_validators : list Address; ge_period : Z;
    ge_withdrawals : gmap Address Address; ge_blsKeys : gmap Address bytes }.

Definition DefaultGenesis (chainID : Z) (validators : list Address) : Genesis :=
  mkGenesis chainID 0 30000000 (Some 1000000000) (bytes_of_string "padi-chain genesis") ZeroAddress [] validators 2 ∅ ∅.

Inductive error :=
| ErrOpenState
| ErrStaking (e : Reg.error)
| ErrCommit
| ErrWrite (e : RawDb.error)
| ErrGenesisBlock (e : RawDb.error)
| ErrGenesisMismatch
| ErrHeadBlock (e : RawDb.error).

Section Genesis.
Context `{K : Keccak} {TS : TrieStore} {CS : ChainStore} `{C : NativeCrypto} `{B : Bls} {BP : BlsPossession B}.
#[local] Existing Instance SDB.statedb_access.

(** [DeriveGenesisBLSKey(v).PublicKey().Bytes()]. *)
Variable derived : Address -> bytes.

Definition seed_account (d : SDB.StateDB) (entry : Address * GenesisAccount) : SDB.StateDB :=
  let (addr, a) := entry in
  let d := match ga_balance a with Some x => SDB.add_balance d addr x | None => d end in
  let d := if ga_nonce a =? 0 then d else SDB.SetNonce d addr (ga_nonce a) in
  let d := if 0 <? len (ga_code a) then SDB.SetCode d addr (ga_code a) else d in
  fold_left (fun d kv => SDB.set_state d addr (fst kv) (snd kv)) (ga_storage a) d.

Definition seed_validator (g : Genesis) (d : SDB.StateDB) (v : Address) : result error SDB.StateDB :=
  let withdrawal := default v (ge_withdrawals g !! v) in
  let d := SDB.add_balance d Reg.StakingAddress Reg.MinDeposit in
  let listed := default [] (ge_blsKeys g !! v) in
  let blsKey := if len listed =? 0 then derived v else listed in
  match Life.Deposit d v withdrawal Reg.MinDeposit 0 with
  | (_, Err e) => Err (ErrStaking e)
  | (d, Ok x) => Ok (Reg.Put d (Life.with_activation (Life.with_status (Life.with_bls x blsKey) Reg.StatusActive) 0))
  end.

Fixpoint seed_validators (g : Genesis) (d : SDB.StateDB) (vs : list Address) : result error SDB.StateDB :=
  match vs with [] => Ok d | v :: r => let! d := seed_validator g d v in seed_validators g d r end.

(** The block and the store with its state; [None] is a panic in the roots. *)
Definition ToBlock (g : Genesis) (s : Store) : option (result error (Block * Store)) :=
  match SDB.New ZeroHash s with
  | None => Some (Err ErrOpenState)
  | Some d =>
      match seed_validators g (fold_left seed_account (ge_alloc g) d) (ge_validators g) with
      | Err e => Some (Err e)
      | Ok d =>
          match SDB.commitTo (SDB.Finalise d false) true with
          | None => Some (Err ErrCommit)
          | Some (_, root, batch) =>
              let header := mkHeader ZeroHash (ge_coinbase g) root Mpt.EmptyRoot Mpt.EmptyRoot Bloom.zero_bloom (Some 0) (ge_gasLimit g) 0 (ge_timestamp g) (ge_extra g) (ge_baseFee g) 0 [] [] [] in
              let? block := NewBlock header [] [] in
              Some (Ok (block, store_write s batch))
          end
      end
  end.

(** [Commit]: the store it leaves, error or not. *)
Definition Commit (g : Genesis) (config : bytes) (s : Store) : option (Store * result error Block) :=
  let? r := ToBlock g s in
  match r with
  | Err e => Some (s, Err e)
  | Ok (block, s) =>
      let? w := WriteBlock [] block in
      match w with
      | Err e => Some (s, Err (ErrWrite e))
      | Ok batch =>
          let? hash := hash_of block in
          let batch := WriteChainConfig (WriteGenesisHash (WriteHeadBlockHash (WriteCanonicalHash batch 0 hash) hash) hash) config in
          Some (store_apply s batch, Ok block)
      end
  end.

(** The genesis block of a store: the one it holds, if the specification derives it, or the one the specification describes. *)
Definition open_genesis (s memory : Store) (g : Genesis) (config : bytes) : option (Store * result error Block) :=
  match ReadGenesisHash s with
  | Ok hash =>
      match ReadBlock s hash with
      | Err e => Some (s, Err (ErrGenesisBlock e))
      | Ok block =>
          let? r := ToBlock g memory in
          match r with
          | Err e => Some (s, Err e)
          | Ok (expected, _) => let? h := hash_of expected in Some (s, if bool_decide (h = hash) then Ok block else Err ErrGenesisMismatch)
          end
      end
  | Err _ => Commit g config s
  end.

Definition NewBlockChain (s memory : Store) (g : Genesis) (config : bytes) (engine : Poa.PoA) : option (Store * result error BlockChain) :=
  let? r := open_genesis s memory g config in
  match r with
  | (s, Err e) => Some (s, Err e)
  | (s, Ok genesis) =>
      let finalized := let? hash := found (ReadFinalizedHash s) in found (ReadBlock s hash) in
      let chain current := mkChain s engine (Proc.DefaultConfig (ge_chainID g)) genesis current finalized in
      match ReadHeadBlockHash s with
      | Err _ => Some (s, Ok (chain genesis))
      | Ok head => match ReadBlock s head with Err e => Some (s, Err (ErrHeadBlock e)) | Ok block => Some (s, Ok (chain block)) end
      end
  end.

End Genesis.
End Gen.
