(* ===== verification/Backend.v ===== *)
(** The store and the tries a node runs on: the modelled trie of src/trie over the
    in-memory store of src/db is the backend the state and the chain are stated
    over.  It discharges [TrieStore], [ChainStore] and their laws [StoreLaws]. *)

From Stdlib Require Import String.
From stdpp Require Import base list gmap.
From Stdlib Require Import ZArith Lia.
From S2P Require Import Prelude Common RLP Trie StateDB Database RawDb.
Local Open Scope Z_scope.
Local Open Scope go_scope.

Module Backend.

Definition opt {E A} (r : result E A) : option A := match r with Ok a => Some a | Err _ => None end.

Section Backend.
Context `{K : Keccak}.

(** A trie reads from the store it was opened over; the nodes a lookup loads are a cache. *)
#[export] Instance mpt_store : TrieStore :=
  {| StateDB.Trie := Mpt.Trie; Store := gmap bytes bytes;
     trie_new r s := opt (Mpt.New r (Some s));
     trie_get s t k := option_map fst (opt (Mpt.Get (Some s) t k));
     trie_update s t k v := opt (Mpt.Update (Some s) t k v);
     trie_delete s t k := opt (Mpt.Delete (Some s) t k);
     trie_commit _ t := let '(r, t, b) := Mpt.Commit t in Some (t, r, b);
     store_get s k := s !! k;
     store_write := Mpt.write_batch |}.

#[export] Instance memory_store : ChainStore := fun s b => fst (Db.batch_Write s b).

Definition node_write (p : bytes * bytes) : Prop := namespace (fst p) = 110.

Lemma node_key h : namespace (Mpt.nodeKey h) = 110.
Proof. reflexivity. Qed.

(** A commit writes nodes and nothing else. *)
Lemma commit_writes_nodes : forall n, Forall node_write (snd (Mpt.commitNode n)).
Proof.
  fix IH 1. intros [|cs f|key c f|h|v]; cbn [Mpt.commitNode snd]; try apply Forall_nil_2.
  - destruct (if Mpt.stored_flag f then _ else _); [apply Forall_nil_2|]. set (rcs := map _ cs). assert (Forall node_write (concat (take 16 (map snd rcs)))) as Hb.
    { apply Forall_concat, Forall_take. unfold rcs. clear rcs. induction cs as [|c cs IHcs]; cbn [map]; [apply Forall_nil_2|]. apply Forall_cons_2; [|exact IHcs]. destruct (Mpt.is_nil c); [apply Forall_nil_2 | apply IH]. }
    destruct (Mpt.referenceFor _); cbn [snd]; [|exact Hb]. apply Forall_app. split; [exact Hb|]. apply Forall_cons_2; [apply node_key | apply Forall_nil_2].
  - destruct (if Mpt.stored_flag f then _ else _); [apply Forall_nil_2|]. pose proof (IH c) as Hc.
    destruct (if Mpt.is_value c then _ else _) as [[ref cached] b] eqn:E. assert (Forall node_write b) as Hb by (destruct (Mpt.is_value c); [injection E as _ _ <-; apply Forall_nil_2 | rewrite E in Hc; exact Hc]).
    destruct (Mpt.referenceFor _); cbn [snd]; [|exact Hb]. apply Forall_app. split; [exact Hb|]. apply Forall_cons_2; [apply node_key | apply Forall_nil_2].
Qed.

Lemma write_batch_other b : forall (s : gmap bytes bytes) k, k ∉ map fst b -> Mpt.write_batch s b !! k = s !! k.
Proof.
  induction b as [|[a v] b IH]; intros s k Hk; [reflexivity|]. cbn [map fst] in Hk. apply not_elem_of_cons in Hk as [H1 H2]. change (Mpt.write_batch (<[a := v]> s) b !! k = s !! k). rewrite IH by exact H2. apply lookup_insert_ne. congruence.
Qed.

Lemma batch_snoc (s : gmap bytes bytes) b op k : fst (Db.batch_Write s (b ++ [op])) !! k =
  if bool_decide (Db.op_key op = k) then (if Db.op_delete op then None else Some (Db.op_value op)) else fst (Db.batch_Write s b) !! k.
Proof.
  unfold Db.batch_Write. cbn [fst]. rewrite fold_left_app. cbn [fold_left]. unfold Db.apply_op at 1. destruct (Db.op_delete op); case_bool_decide as E; subst.
  - apply lookup_delete_eq.
  - apply lookup_delete_ne. congruence.
  - apply lookup_insert_eq.
  - apply lookup_insert_ne. congruence.
Qed.

#[export] Instance memory_laws : StoreLaws memory_store.
Proof.
  constructor.
  - reflexivity.
  - intros s b op k. apply batch_snoc.
  - intros s l k. apply write_batch_other.
  - intros s t t' r nodes. cbn [trie_commit mpt_store]. unfold Mpt.Commit. destruct (Mpt.is_nil _); [intros [= _ _ <-]; apply Forall_nil_2|].
    pose proof (commit_writes_nodes (Mpt.root t)) as Hb. destruct (Mpt.commitNode _) as [[hashed cached] b]. cbn [snd] in Hb. destruct hashed; intros [= _ _ <-]; first [exact Hb | apply Forall_app; split; [exact Hb | apply Forall_cons_2; [reflexivity | apply Forall_nil_2]]].
Qed.

End Backend.
End Backend.
