(* ===== verification/ChainSafety.v ===== *)
(** The life of a chain: opening an empty store, importing blocks, acting on
    certificates, and opening the store again (src/chain/blockchain.go, finality.go,
    genesis.go).  The runs of a chain are the closure of a step relation, and every
    property of this file holds along all of them.  At the end, a small chain whose
    blocks are executed, on which the properties are instantiated. *)

From Stdlib Require Import String.
From stdpp Require Import base list gmap relations.
From Stdlib Require Import ZArith Lia.
From S2P Require Import Prelude Common RLP Trie Attestation Registry Lifecycle StateDB Interpreter Precompiles Transaction CoreBlock CoreBlockFacts Processor Poa Database RawDb RawDbFacts Chain ChainFacts Genesis Backend.
Local Open Scope Z_scope.
Local Open Scope go_scope.

Module Safety.
Import Db Blk Rcpt RawDb RawFacts Chain ChainFacts Gen.

Section Runs.
Context `{K : Keccak} {TS : TrieStore} `{C : NativeCrypto} {CS : ChainStore} {SL : StoreLaws CS} `{B : Bls} {BP : BlsPossession B}.

(** * Opening *)

(** A store without records of a chain. *)
Definition fresh (s : Store) : Prop := forall k, namespace k <> 110 -> namespace k <> 99 -> store_get s k = None.

Lemma to_block derived spec s block s' : ToBlock derived spec s = Some (Ok (block, s')) ->
  number_of block = 0 /\ b_txs block = [] /\ forall k, namespace k <> 110 -> namespace k <> 99 -> store_get s' k = store_get s k.
Proof.
  unfold ToBlock. destruct (SDB.New _ _); [|discriminate]. destruct (seed_validators _ _ _ _); [|discriminate]. destruct (SDB.commitTo _ _) as [[[d root] batch]|] eqn:E; [|discriminate].
  cbn [NewBlock list_root is_empty obind map]. intros [= <- <-]. split; [reflexivity|]. split; [reflexivity|]. intros k K1 K2. exact (commit_elsewhere _ _ _ _ _ _ k E K1 K2).
Qed.

(** What [Commit] writes to a fresh store. *)
Lemma commit_fresh derived spec config s block s1 : fresh s -> ToBlock derived spec s = Some (Ok (block, s1)) -> fine block -> exists h s',
  hash_of block = Some h /\ length h = 32%nat /\ Commit derived spec config s = Some (s', Ok block) /\
  (forall h', blk s' h' = if bool_decide (h' = h) then Some (decoded block) else None) /\ (forall n, u64_ok n -> canon s' n = if bool_decide (n = 0) then Some h else None) /\
  ReadGenesisHash s' = Ok h /\ ReadHeadBlockHash s' = Ok h /\ ReadFinalizedHash s' = Err RawDb.ErrNotFound /\ hdr s' h = Some (b_header block).
Proof.
  intros Hs Et Hf. destruct (to_block _ _ _ _ _ Et) as (_ & _ & H1). assert (forall k, namespace k <> 110 -> namespace k <> 99 -> store_get s1 k = None) as Hs1 by (intros k K1 K2; rewrite H1 by assumption; apply Hs; assumption).
  destruct (hash_fine block Hf) as (h & Eh & _ & Hl). destruct (WriteBlock_fine [] block h Hf Eh) as (e & he & Eu & Ed & Ew). unfold Commit. rewrite Et. cbn [obind]. rewrite Ew. cbn [obind]. rewrite Eh. cbn [obind].
  eexists h, _. split; [reflexivity|]. split; [exact Hl|]. split; [reflexivity|].
  unfold ReadGenesisHash, ReadHeadBlockHash, ReadFinalizedHash, read_hash, blk, ReadBlock, canon, ReadCanonicalHash, read_hash, WriteChainConfig, WriteGenesisHash, WriteHeadBlockHash, WriteCanonicalHash.
  assert (BytesToHash h = h) as Eb by (apply fit_right_id, Hl). split; [|split; [|split; [|split; [|split]]]]; try intros h'; try (intros Hu); [rewrite get_apply..|].
  - do 6 elsewhere. rewrite effect_put. destruct (decide (h' = h)) as [->|Hne]; [rewrite !bool_decide_eq_true_2 by reflexivity; rewrite Eu; reflexivity|].
    rewrite (bool_decide_eq_false_2 (h' = h)), (bool_decide_eq_false_2 (bodyKey h = _)) by (auto; intros E; apply Hne; symmetry; exact (body_inj _ _ E)). cbn [effect fold_left]. rewrite Hs1 by (cbn; discriminate). reflexivity.
  - do 3 elsewhere. rewrite effect_put. destruct (decide (h' = 0)) as [->|Hne]; [rewrite !bool_decide_eq_true_2 by reflexivity; cbn [found]; rewrite Eb; reflexivity|].
    assert (canonicalKey 0 <> canonicalKey h') as Hk by (intros E; apply Hne; symmetry; exact (canonical_inj 0 h' ltac:(unfold u64_ok, two64; lia) Hu E)).
    rewrite (bool_decide_eq_false_2 (h' = 0)), (bool_decide_eq_false_2 (canonicalKey 0 = _)) by assumption.
    do 3 elsewhere. cbn [effect fold_left]. rewrite Hs1 by (cbn; discriminate). reflexivity.
  - elsewhere. rewrite effect_put, bool_decide_eq_true_2 by reflexivity. rewrite Eb. reflexivity.
  - do 2 elsewhere. rewrite effect_put, bool_decide_eq_true_2 by reflexivity. rewrite Eb. reflexivity.
  - do 7 elsewhere. cbn [effect fold_left]. rewrite Hs1 by (cbn; discriminate). reflexivity.
  - apply (header_read block he _ Hf Ed); rewrite get_apply; do 4 elsewhere; [|elsewhere]; rewrite effect_put, bool_decide_eq_true_2 by reflexivity; reflexivity.
Qed.

(** A fresh store opens on its genesis block. *)
Lemma opens derived spec config engine memory s block s1 : fresh s -> ToBlock derived spec s = Some (Ok (block, s1)) -> fine block -> exists h s' bc,
  hash_of block = Some h /\ NewBlockChain derived s memory spec config engine = Some (s', Ok bc) /\ wf h bc /\ bc_store bc = s' /\ bc_finalized bc = None /\ b_header (bc_current bc) = b_header block.
Proof.
  intros Hs Et Hf. destruct (commit_fresh derived spec config s block s1 Hs Et Hf) as (h & s' & Eh & Hl & Ec & Hb & Hc & Hg & Hh & Hfn & Hhd). destruct (to_block _ _ _ _ _ Et) as (En & _ & _).
  unfold NewBlockChain, open_genesis. unfold ReadGenesisHash, read_hash at 1. rewrite Hs by (cbn; discriminate). rewrite Ec. cbn [obind]. rewrite Hfn, Hh. cbn [found obind].
  assert (blk s' h = Some (decoded block)) as Hd by (rewrite Hb, bool_decide_eq_true_2 by reflexivity; reflexivity). unfold blk in Hd. destruct (ReadBlock s' h) as [d|] eqn:Er; [|discriminate]. injection Hd as ->.
  destruct (hash_fine block Hf) as (x & Ex & Ehh & _). assert (x = h) as -> by congruence. assert (hash_of (decoded block) = Some h) as Ed by (rewrite hash_decoded; exact Ehh). destruct (fine_hashable block Hf) as [Ht Htd].
  destruct (fine_number block Hf) as (n & En1 & Hu). assert (n = 0) as -> by (unfold number_of, NumberU64 in En; rewrite En1, wrap64_small in En; assumption).
  assert (tree s' h) as T.
  { constructor; intros h' b E; rewrite Hb in E; case_bool_decide; try discriminate; injection E as <-; subst; [auto | | left; auto | exact Hhd]. change (number_of (decoded block)) with (number_of block). rewrite En. split; [exact En1 | unfold u64_ok, two64; lia]. }
  assert (stored s' (decoded block) h) as Sd by (apply (blk_stored s' h T); unfold blk; rewrite Er; reflexivity).
  eexists h, s', _. split; [exact Eh|]. split; [reflexivity|]. split; [|auto]. constructor; cbn [bc_store bc_current bc_finalized bc_genesis].
  - exact T.
  - exists h. exact Sd.
  - intros m Hm. change (number_of (decoded block)) with (number_of block). rewrite Hc, En by exact Hm. unfold u64_ok in Hm. destruct (decide (m = 0)) as [->|Hne]; [rewrite bool_decide_eq_true_2 by reflexivity; cbn; symmetry; exact Ed|].
    rewrite bool_decide_eq_false_2 by exact Hne. destruct (Z.leb_spec m 0); [lia | reflexivity].
  - exact I.
  - constructor; [exact Eh | exact Ht|]. exists (decoded block). split; [unfold blk; rewrite Er; reflexivity | reflexivity].
  - rewrite Hg. reflexivity.
  - rewrite Hh. symmetry. exact Ed.
  - rewrite Hfn. reflexivity.
Qed.

(** A chain read back from a store holds the blocks that were in memory. *)
Definition same_chain (bc bc' : BlockChain) : Prop :=
  bc_store bc' = bc_store bc /\ b_header (bc_genesis bc') = b_header (bc_genesis bc) /\ b_header (bc_current bc') = b_header (bc_current bc) /\
  option_map b_header (bc_finalized bc') = option_map b_header (bc_finalized bc).

Lemma stored_again g bc b h : wf g bc -> stored (bc_store bc) b h -> exists b', ReadBlock (bc_store bc) h = Ok b' /\ b_header b' = b_header b /\ stored (bc_store bc) b' h.
Proof.
  intros W Hb. destruct Hb as [_ _ (b' & E & Eh)]. exists b'. pose proof E as E'. unfold blk in E'. destruct (ReadBlock _ h); [|discriminate]. injection E' as ->. split; [reflexivity|]. split; [exact Eh|]. exact (blk_stored _ g (wf_tree _ _ W) h b' E).
Qed.

Lemma found_ok {E A} (r : result E A) a : found r = Some a -> r = Ok a.
Proof. destruct r; [intros [= ->]; reflexivity | discriminate]. Qed.

Lemma reopened g bc derived spec config engine memory expected m' : wf g bc -> ToBlock derived spec memory = Some (Ok (expected, m')) -> hash_of expected = Some g ->
  exists bc', NewBlockChain derived (bc_store bc) memory spec config engine = Some (bc_store bc, Ok bc') /\ wf g bc' /\ progress bc bc' /\ same_chain bc bc' /\ (anchored bc -> anchored bc').
Proof.
  intros W Et Eg. destruct (wf_head _ _ W) as [hc Sc]. pose proof (wf_headkey _ _ W) as Ek. rewrite (st_hash _ _ _ Sc) in Ek. destruct (stored_again g bc _ hc W Sc) as (cur & Ecur & Ech & Scur).
  destruct (stored_again g bc _ g W (wf_genesis _ _ W)) as (gen & Egen & Egh & Sgen). unfold NewBlockChain, open_genesis. rewrite (found_ok _ _ (wf_genesiskey _ _ W)), Egen, Et. cbn [obind]. rewrite Eg. cbn [obind].
  rewrite bool_decide_eq_true_2 by reflexivity. rewrite (found_ok _ _ Ek), Ecur. eexists. split; [reflexivity|].
  assert (exists fin, (let? hash := found (ReadFinalizedHash (bc_store bc)) in found (ReadBlock (bc_store bc) hash)) = fin /\ match bc_finalized bc with None => fin = None | Some f => exists f' hf, fin = Some f' /\ b_header f' = b_header f /\ stored (bc_store bc) f hf /\ stored (bc_store bc) f' hf end) as (fin & -> & Hfin).
  { eexists. split; [reflexivity|]. rewrite (wf_finalkey _ _ W). pose proof (wf_final _ _ W) as Sf. destruct (bc_finalized bc) as [f|]; [|reflexivity]. destruct Sf as [hf Sf]. destruct (stored_again g bc f hf W Sf) as (f' & Ef' & Eh' & Sf'). exists f', hf.
    rewrite (st_hash _ _ _ Sf). cbn [obind]. rewrite Ef'. auto. }
  assert (forall b b' h k, b_header b' = b_header b -> stored (bc_store bc) b h -> stored (bc_store bc) b' h -> match up (bc_store bc) k b' with Some x => hash_of x | None => None end = match up (bc_store bc) k b with Some x => hash_of x | None => None end) as Hup.
  { intros b b' h k Eh Sb Sb'. apply (up_header bc); [exact Eh | rewrite (st_hash _ _ _ Sb), (st_hash _ _ _ Sb'); reflexivity]. }
  assert (number_of cur = number_of (bc_current bc)) as Encur by (unfold number_of; rewrite Ech; reflexivity). split; [|split; [split; [apply extends_refl|]|split]].
  - constructor; cbn [bc_store bc_current bc_finalized bc_genesis].
    + apply W.
    + exists hc. exact Scur.
    + intros n Hn. rewrite (wf_canon _ _ W n Hn), Encur, (Hup _ _ _ _ Ech Sc Scur). reflexivity.
    + destruct (bc_finalized bc); [destruct Hfin as (f' & hf & -> & _ & _ & Sf'); eauto | subst; exact I].
    + exact Sgen.
    + apply W.
    + rewrite Ek. symmetry. apply Scur.
    + rewrite (wf_finalkey _ _ W). destruct (bc_finalized bc); [destruct Hfin as (f' & hf & -> & _ & Sf & Sf'); rewrite (st_hash _ _ _ Sf), (st_hash _ _ _ Sf'); reflexivity | subst; reflexivity].
  - unfold forward. cbn [bc_finalized bc_store]. destruct (bc_finalized bc) as [f|]; [|exact I]. destruct Hfin as (f' & hf & -> & Eh & Sf & Sf'). exists f'. split; [reflexivity|]. unfold below, number_of. rewrite Eh, Z.sub_diag. split; [lia|]. exists f'.
    split; [reflexivity | rewrite (st_hash _ _ _ Sf), (st_hash _ _ _ Sf'); reflexivity].
  - do 3 (split; [first [reflexivity | assumption]|]). cbn [bc_finalized]. destruct (bc_finalized bc); [destruct Hfin as (f' & hf & -> & Eh & _); cbn; congruence | subst; reflexivity].
  - intros A f' Ef'. cbn [bc_finalized bc_store bc_current] in *. destruct (bc_finalized bc) as [f|] eqn:Ebf; [|congruence]. destruct Hfin as (f2 & hf & -> & Eh & Sf & Sf'). injection Ef' as ->. destruct (A f Ebf) as (Hle & x & Ex & Hx). unfold below.
    assert (number_of f' = number_of f) as Enf by (unfold number_of; rewrite Eh; reflexivity). rewrite Encur, Enf. split; [exact Hle|]. pose proof (Hup _ _ _ (Z.to_nat (number_of (bc_current bc) - number_of f)) Ech Sc Scur) as Hu. rewrite Ex in Hu.
    rewrite (st_hash _ _ _ Sf) in Hx. rewrite Hx in Hu. destruct (up _ _ cur) as [y|]; [|discriminate]. exists y. split; [reflexivity|]. rewrite Hu, (st_hash _ _ _ Sf'). reflexivity.
Qed.

(** * Runs *)

(** One operation on a chain: a block is imported, a certificate is acted on, or the store is opened again. *)
Inductive step (bc : BlockChain) : BlockChain -> Prop :=
| step_insert b now r bc' : fine b -> insertLocked bc b now = Some (bc', r) -> step bc bc'
| step_finalize qc r bc' : Att.ag_hash qc <> ZeroHash -> Finalize bc qc = Some (bc', r) -> step bc bc'
| step_restart derived spec config engine memory s bc' : NewBlockChain derived (bc_store bc) memory spec config engine = Some (s, Ok bc') -> step bc bc'.

Inductive reachable : BlockChain -> Prop :=
| reach_open derived spec config engine memory s block s1 s0 bc : fresh s -> ToBlock derived spec s = Some (Ok (block, s1)) -> fine block -> NewBlockChain derived s memory spec config engine = Some (s0, Ok bc) -> reachable bc
| reach_step bc bc' : reachable bc -> step bc bc' -> reachable bc'.

(** The steps in which an import leaves finality as it was. *)
Inductive quiet (bc : BlockChain) : BlockChain -> Prop :=
| quiet_insert b now r bc' : fine b -> insertLocked bc b now = Some (bc', r) -> bc_finalized bc' = bc_finalized bc -> quiet bc bc'
| quiet_finalize qc r bc' : Att.ag_hash qc <> ZeroHash -> Finalize bc qc = Some (bc', r) -> quiet bc bc'
| quiet_restart derived spec config engine memory s bc' : NewBlockChain derived (bc_store bc) memory spec config engine = Some (s, Ok bc') -> quiet bc bc'.

Lemma quiet_step bc bc' : quiet bc bc' -> step bc bc'.
Proof. destruct 1; [eapply step_insert | eapply step_finalize | eapply step_restart]; eassumption. Qed.

(** A store with a chain opens only with the specification it began with. *)
Lemma reopen_expected g bc derived spec config engine memory s bc' : wf g bc -> NewBlockChain derived (bc_store bc) memory spec config engine = Some (s, Ok bc') ->
  exists expected m', ToBlock derived spec memory = Some (Ok (expected, m')) /\ hash_of expected = Some g.
Proof.
  intros W. unfold NewBlockChain, open_genesis. rewrite (found_ok _ _ (wf_genesiskey _ _ W)). destruct (ReadBlock _ g); [|discriminate]. destruct (ToBlock _ _ _) as [[[expected m']|]|]; [|discriminate..]. cbn [obind].
  destruct (hash_of expected) as [h|] eqn:Eh; [|discriminate]. cbn [obind]. case_bool_decide; [|discriminate]. subst. intros _. eauto.
Qed.

Lemma restart_spec g bc derived spec config engine memory s bc' : wf g bc -> NewBlockChain derived (bc_store bc) memory spec config engine = Some (s, Ok bc') ->
  wf g bc' /\ progress bc bc' /\ same_chain bc bc' /\ (anchored bc -> anchored bc').
Proof.
  intros W E. destruct (reopen_expected g bc _ _ _ _ _ _ _ W E) as (expected & m' & Et & Eg). destruct (reopened g bc derived spec config engine memory expected m' W Et Eg) as (bc2 & E2 & H). rewrite E in E2. injection E2 as _ <-. exact H.
Qed.

Lemma step_wf g bc bc' : wf g bc -> step bc bc' -> wf g bc' /\ progress bc bc'.
Proof.
  intros W [b now r bc2 Hf E|qc r bc2 Hz E|derived spec config engine memory s bc2 E].
  - destruct (import_spec g bc b now bc2 r W Hf E) as (W' & P' & _). auto.
  - destruct (finalize_spec g bc qc W Hz) as (bc3 & r3 & E3 & W' & P' & _). rewrite E in E3. injection E3 as <- <-. auto.
  - destruct (restart_spec g bc _ _ _ _ _ _ _ W E) as (W' & P' & _). auto.
Qed.

Lemma quiet_anchored g bc bc' : wf g bc -> quiet bc bc' -> anchored bc -> anchored bc'.
Proof.
  intros W [b now r bc2 Hf E Ef|qc r bc2 Hz E|derived spec config engine memory s bc2 E] A.
  - destruct (import_spec g bc b now bc2 r W Hf E) as (_ & _ & _ & H). auto.
  - destruct (finalize_spec g bc qc W Hz) as (bc3 & r3 & E3 & _ & _ & _ & H). rewrite E in E3. injection E3 as <- <-. auto.
  - destruct (restart_spec g bc _ _ _ _ _ _ _ W E) as (_ & _ & _ & H). auto.
Qed.

Lemma reachable_wf bc : reachable bc -> exists g, wf g bc.
Proof.
  induction 1 as [derived spec config engine memory s block s1 s0 bc Hs Et Hf E|bc bc' _ [g W] Hstep].
  - destruct (opens derived spec config engine memory s block s1 Hs Et Hf) as (h & s' & bc2 & _ & E2 & W & _). rewrite E in E2. injection E2 as _ <-. eauto.
  - exists g. apply (step_wf g bc bc' W Hstep).
Qed.

Lemma run_wf g bc bc' : rtc step bc bc' -> wf g bc -> wf g bc' /\ progress bc bc'.
Proof.
  induction 1 as [bc|bc1 bc2 bc3 H _ IH]; intros W; [auto using progress_refl|]. destruct (step_wf g _ _ W H) as [W2 P2]. destruct (IH W2) as [W3 P3]. split; [exact W3|]. exact (progress_trans g _ _ _ W W2 W3 P2 P3).
Qed.

(** [InsertChain] is a run of imports. *)
Lemma insert_chain_run blocks : Forall (fun p => fine (fst p)) blocks -> forall bc i events bc' n r, InsertChain bc blocks i events = Some (bc', n, r) -> rtc step bc bc'.
Proof.
  induction 1 as [|[b now] blocks Hf _ IH]; intros bc i events bc' n r; cbn [InsertChain]; [intros [= <- _ _]; reflexivity|].
  destruct (insertLocked bc b now) as [[bc1 r1]|] eqn:E; [|discriminate]. cbn [obind]. pose proof (step_insert bc b now r1 bc1 Hf E) as Hs.
  destruct r1 as [ev|e]; [intros E2; eapply rtc_l; [exact Hs | eapply IH; exact E2]|]. destruct e; intros E2; first [injection E2 as <- _ _; apply rtc_once; exact Hs | eapply rtc_l; [exact Hs | eapply IH; exact E2]].
Qed.

(** * Main theorems *)

(** C10: on every run the canonical index is the branch of the head: no block above
    the head is indexed, and the block indexed at a height up to the head's has that
    height and is the head or one of its ancestors, the genesis block at height zero. *)
Theorem index_follows_head bc n : reachable bc -> u64_ok n ->
  (number_of (bc_current bc) < n -> GetBlockByNumber bc n = None) /\
  (n <= number_of (bc_current bc) -> exists b, GetBlockByNumber bc n = Some b /\ number_of b = n /\ below (bc_store bc) (bc_current bc) b /\ (n = 0 -> b_header b = b_header (bc_genesis bc))).
Proof.
  intros Hr Hn. destruct (reachable_wf bc Hr) as [g W]. unfold GetBlockByNumber. change (found (ReadCanonicalHash (bc_store bc) n)) with (canon (bc_store bc) n). rewrite (wf_canon _ _ W n Hn). split; intros H.
  - destruct (Z.leb_spec n (number_of (bc_current bc))); [lia | reflexivity].
  - destruct (Z.leb_spec n (number_of (bc_current bc))); [|lia]. destruct (wf_head _ _ W) as [hc Sc]. unfold u64_ok in Hn.
    destruct (up_stored _ g (wf_tree _ _ W) (Z.to_nat (number_of (bc_current bc) - n)) _ hc Sc ltac:(lia)) as (x & hx & Ex & Enx & Sx). rewrite Ex, (st_hash _ _ _ Sx). cbn [obind].
    destruct (stored_again g bc x hx W Sx) as (b & Eb & Eh & Sb). exists b. unfold GetBlockByHash. rewrite Eb. split; [reflexivity|]. assert (number_of b = n) as Enb by (unfold number_of in *; rewrite Eh; lia). split; [exact Enb|].
    split; [|intros ->; apply (same_hash (bc_store bc) _ _ g); [rewrite <- (stored_root _ g (wf_tree _ _ W) b hx Sb Enb); exact Sb | apply W]]. split; [lia|]. exists x. rewrite Enb. split; [exact Ex|]. rewrite (st_hash _ _ _ Sx), (st_hash _ _ _ Sb). reflexivity.
Qed.

(** C11: on every run finality only moves forward, along one branch: what was final
    stays final or becomes an ancestor of what is, and no stored block is lost. *)
Theorem finality_moves_forward bc bc' : reachable bc -> rtc step bc bc' ->
  (forall f, bc_finalized bc = Some f -> exists f', bc_finalized bc' = Some f' /\ below (bc_store bc') f' f) /\ (forall h b, GetBlockByHash bc h = Some b -> GetBlockByHash bc' h = Some b).
Proof.
  intros Hr Hs. destruct (reachable_wf bc Hr) as [g W]. destruct (run_wf g bc bc' Hs W) as [_ [He Hf]]. split; [|exact He]. intros f Ef. unfold forward in Hf. rewrite Ef in Hf. exact Hf.
Qed.

(** C13: an import takes effect as a whole: with an error the head, finality, every
    block and the index are as they were; without one a block that was not stored is,
    and it is the head exactly when it is higher than the head was. *)
Theorem import_all_or_nothing bc b now bc' r : reachable bc -> fine b -> insertLocked bc b now = Some (bc', r) -> imported bc bc' b r.
Proof. intros Hr Hf E. destruct (reachable_wf bc Hr) as [g W]. apply (import_spec g bc b now bc' r W Hf E). Qed.

(** C28: a reorganisation to a stored block always succeeds, whatever the two
    branches: the walks end at the common ancestor, the block becomes the head, the
    blocks that left are the top of the old branch, and nothing is lost. *)
Theorem reorganisation_succeeds bc b h : reachable bc -> stored (bc_store bc) b h -> exists bc' old, reorgTo bc b = Some (bc', Ok old) /\ bc_current bc' = b /\
  (forall n, u64_ok n -> canon (bc_store bc') n = if n <=? number_of b then match up (bc_store bc) (Z.to_nat (number_of b - n)) b with Some x => hash_of x | None => None end else None) /\
  (forall h, GetBlockByHash bc' h = GetBlockByHash bc h) /\ exists j, old = path (bc_store bc) j (bc_current bc).
Proof.
  intros Hr Hb. destruct (reachable_wf bc Hr) as [g W]. destruct (reorg_spec bc g (wf_tree _ _ W) b h Hb (wf_head _ _ W) (wf_canon _ _ W)) as (bc' & old & E & Ec & _ & _ & _ & _ & Hblk & Hcan & Hold & _). exists bc', old. auto 8.
Qed.

(** C29: a certificate from outside is always answered: with an error nothing
    changes, and otherwise the block it names is stored, and either finality was at or
    above its height or the block is final and the head descends from it. *)
Theorem certificates_settle bc qc : reachable bc -> Att.ag_hash qc <> ZeroHash -> exists bc' r, Finalize bc qc = Some (bc', r) /\ settled bc bc' qc r.
Proof. intros Hr Hz. destruct (reachable_wf bc Hr) as [g W]. destruct (finalize_spec g bc qc W Hz) as (bc' & r & E & _ & _ & H & _). eauto. Qed.

(** C15: while no import moves finality, the head descends from the finalized block:
    certificates from outside, imports on any branch and restarts all keep it so. *)
Theorem head_keeps_finalized bc bc' : reachable bc -> anchored bc -> rtc quiet bc bc' -> anchored bc'.
Proof.
  intros Hr A Hq. destruct (reachable_wf bc Hr) as [g W]. clear Hr. induction Hq as [bc|bc1 bc2 bc3 H _ IH]; [exact A|]. apply IH; [exact (quiet_anchored g bc1 bc2 W H A)|]. apply (step_wf g bc1 bc2 W), quiet_step, H.
Qed.

(** C30: opening the store of a chain again, with the specification it began with,
    gives the chain that was in memory: its genesis block, head and finalized block. *)
Theorem restart_recovers bc derived spec config engine memory expected m' : reachable bc -> ToBlock derived spec memory = Some (Ok (expected, m')) -> hash_of expected = hash_of (bc_genesis bc) ->
  exists bc', NewBlockChain derived (bc_store bc) memory spec config engine = Some (bc_store bc, Ok bc') /\ same_chain bc bc'.
Proof.
  intros Hr Et Eg. destruct (reachable_wf bc Hr) as [g W]. rewrite (st_hash _ _ _ (wf_genesis _ _ W)) in Eg. destruct (reopened g bc derived spec config engine memory expected m' W Et Eg) as (bc' & E & _ & _ & H & _). eauto.
Qed.

End Runs.
(** * A small chain *)

(** A store that is a map; a trie is kept whole, packed under its root. *)
#[local] Existing Instances Reg.toy_keccak Tx.one_key.

Fixpoint pack (l : list (bytes * bytes)) : bytes := match l with [] => [] | (k, v) :: r => len k :: len v :: k ++ v ++ pack r end.
Fixpoint unpack (n : nat) (b : bytes) : list (bytes * bytes) :=
  match n, b with
  | S n, k :: v :: r => (take (Z.to_nat k) r, take (Z.to_nat v) (drop (Z.to_nat k) r)) :: unpack n (drop (Z.to_nat (k + v)) r)
  | _, _ => []
  end.
Definition toy_root (b : bytes) : Hash := be_bytes 32 (fold_left (fun a x => (257 * a + x) mod 2 ^ 256) b 1).
#[local] Instance disk : TrieStore :=
  {| StateDB.Trie := gmap bytes bytes; Store := gmap bytes bytes;
     trie_new root s := if bool_decide (root = ZeroHash) || bool_decide (root = Mpt.EmptyRoot) then Some ∅ else let? b := s !! (110 :: root) in Some (list_to_map (unpack (length b) b));
     trie_get _ t k := Some (default [] (t !! k));
     trie_update _ t k v := Some (<[k := v]> t);
     trie_delete _ t k := Some (delete k t);
     trie_commit _ t := if bool_decide (t = ∅) then Some (t, Mpt.EmptyRoot, []) else let b := pack (map_to_list t) in Some (t, toy_root b, [(110 :: toy_root b, b)]);
     store_get s k := s !! k;
     store_write := Mpt.write_batch |}.
#[local] Instance disk_chain : ChainStore := fun s b => fst (Db.batch_Write s b).

#[local] Instance disk_laws : StoreLaws disk_chain.
Proof.
  constructor.
  - reflexivity.
  - intros s b op k. apply Backend.batch_snoc.
  - intros s l k. apply Backend.write_batch_other.
  - intros s t t' r nodes. cbn [trie_commit disk]. case_bool_decide; intros [= _ _ <-]; [apply Forall_nil_2 | apply Forall_cons_2; [reflexivity | apply Forall_nil_2]].
Qed.

(** Every signature is good. *)
#[local] Instance open_bls : Bls :=
  {| PublicKey := Z; Signature := Z; PublicKeyFromBytes b := Some (be_val b); SignatureFromBytes b := Some (be_val b); SignatureBytes s := be_bytes 96 s;
     BlsVerify _ _ _ := true; FastAggregateVerify _ _ _ := true; AggregateSignatures _ := Some 1 |}.
#[local] Instance open_possession : BlsPossession open_bls := fun _ _ => true.

Definition validator : Address := Poa.address_of [1].
Definition toy_key (_ : Address) : bytes := repeat 5 48.
Definition toy_spec : Genesis := DefaultGenesis 7 [validator].
Definition toy_engine : Poa.PoA := Poa.mkPoA [validator] 2 4 None.
Definition empty_disk : Store := (∅ : gmap bytes bytes).

Definition no_chain : BlockChain := mkChain empty_disk toy_engine (Proc.DefaultConfig 7) (mkBlock BlockFacts.sample_header [] None 0) (mkBlock BlockFacts.sample_header [] None 0) None.
Definition opened (r : option (Store * result Gen.error BlockChain)) : BlockChain := match r with Some (_, Ok bc) => bc | _ => no_chain end.
Definition chain0 : BlockChain := opened (NewBlockChain toy_key empty_disk empty_disk toy_spec [] toy_engine).

(** An empty block on [parent], told from its siblings by its seal. *)
Definition child (parent : Header) (id : Z) (justification : bytes) : Block :=
  mkBlock (mkHeader (default [] (HeaderHash parent)) validator (h_stateRoot parent) Mpt.EmptyRoot Mpt.EmptyRoot Bloom.zero_bloom (option_map (Z.add 1) (h_number parent)) 30000000 0 (h_time parent + 2) []
    (Proc.CalcBaseFee (Proc.DefaultConfig 7) (Some parent)) 0 [] justification (be_bytes 32 1 ++ be_bytes 32 id ++ [0])) [] None 0.
Definition cert (b : Block) : Att.AggregateAttestation := Att.mkAggregate (number_of b) (default [] (hash_of b)) [1] [7].
Definition proof_of (b : Block) : bytes := match Proc.EncodeQuorumCert (cert b) with Ok e => e | Err _ => [] end.

(** Two children of the genesis block, and a child of the first that carries a certificate of the second. *)
Definition block_a : Block := Eval vm_compute in child (b_header (bc_genesis chain0)) 1 [].
Definition block_b : Block := Eval vm_compute in child (b_header (bc_genesis chain0)) 2 [].
Definition block_c : Block := Eval vm_compute in child (b_header block_a) 3 (proof_of block_b).

Definition outcome (r : option (BlockChain * result Chain.error (option ChainEvent))) : BlockChain * result Chain.error (option ChainEvent) := default (no_chain, Ok None) r.
Definition succeeded (r : option (BlockChain * result Chain.error (option ChainEvent))) : bool := match r with Some (_, Ok _) => true | _ => false end.
Definition chain1 : BlockChain := fst (outcome (insertLocked chain0 block_a 1000)).
Definition chain2 : BlockChain := fst (outcome (insertLocked chain1 block_b 1000)).
Definition chain3 : BlockChain := fst (outcome (insertLocked chain2 block_c 1000)).

(** The second block is then made final and has a child. *)
Definition settled_at (r : option (BlockChain * result Chain.error unit)) : BlockChain := match r with Some (bc, Ok _) => bc | _ => no_chain end.
Definition chain4 : BlockChain := settled_at (Finalize chain2 (cert block_b)).
Definition block_d : Block := Eval vm_compute in child (b_header block_b) 4 [].
Definition chain5 : BlockChain := fst (outcome (insertLocked chain4 block_d 1000)).

Definition block_of (r : option (result Gen.error (Block * Store))) : option Block := match r with Some (Ok (b, _)) => Some b | _ => None end.
Definition genesis_block : Block := Eval vm_compute in default (mkBlock BlockFacts.sample_header [] None 0) (block_of (ToBlock toy_key toy_spec empty_disk)).

Lemma fine_block b : BlockFacts.header_ok (b_header b) -> b_txs b = [] -> b_hash b = None -> h_txRoot (b_header b) = Mpt.EmptyRoot -> (exists n, h_number (b_header b) = Some n /\ u64_ok n) ->
  match MarshalBlock b with Ok e => Rlp.fits e | Err _ => True end -> fine b.
Proof.
  intros Hh Ht Hc Hr Hn Hs. constructor; [|rewrite Hc; exact I | rewrite Ht; apply Forall_nil_2 | | exact Hn].
  - split; [exact Hh|]. unfold payloads. rewrite Ht. split; [apply Forall_nil_2|]. split; [vm_compute; discriminate | cbn; rewrite Hr; reflexivity].
  - intros e E. rewrite E in Hs. exact Hs.
Qed.

Ltac fine_here := apply fine_block;
  [BlockFacts.wellformed | reflexivity | reflexivity | vm_compute; reflexivity | eexists; split; [reflexivity | vm_compute; split; [discriminate | reflexivity]] | vm_compute; discriminate].

Lemma fine_a : fine block_a.
Proof. fine_here. Qed.
Lemma fine_b : fine block_b.
Proof. fine_here. Qed.
Lemma fine_c : fine block_c.
Proof. fine_here. Qed.

Lemma fine_genesis : fine genesis_block.
Proof. fine_here. Qed.

(** Everything that has to be computed, in one evaluation. *)
Definition is_final (bc : BlockChain) (b : Block) : bool := bool_decide (option_map hash_of (bc_finalized bc) = Some (hash_of b)).
Definition opens_well (r : option (Store * result Gen.error BlockChain)) : bool := match r with Some (_, Ok _) => true | _ => false end.
Definition settles_well (r : option (BlockChain * result Chain.error unit)) : bool := match r with Some (_, Ok _) => true | _ => false end.
Definition same_block (b b' : Block) : bool := bool_decide (hash_of b = hash_of b').

Definition not_final (bc : BlockChain) : bool := match bc_finalized bc with None => true | Some _ => false end.
Definition head_at (bc : BlockChain) (n : Z) : bool := number_of (bc_current bc) =? n.
Definition final_at (bc : BlockChain) (n : Z) : bool := match bc_finalized bc with Some f => number_of f =? n | None => false end.
Definition head_on (bc : BlockChain) (b : Block) : bool := bool_decide (option_map hash_of (up (bc_store bc) 1 (bc_current bc)) = Some (hash_of b)).

Definition scenario : bool :=
  opens_well (NewBlockChain toy_key empty_disk empty_disk toy_spec [] toy_engine) &&
  (succeeded (insertLocked chain0 block_a 1000) && (succeeded (insertLocked chain1 block_b 1000) && (succeeded (insertLocked chain2 block_c 1000) &&
  (settles_well (Finalize chain2 (cert block_b)) && (succeeded (insertLocked chain4 block_d 1000) &&
  (not_final chain2 && (is_final chain3 block_b && (is_final chain4 block_b &&
  (head_at chain2 1 && (final_at chain3 1 &&
  (head_on chain3 block_a && same_block genesis_block (bc_genesis chain4)))))))))))).

Lemma scenario_runs : scenario = true.
Proof. vm_compute. reflexivity. Qed.

Lemma all_true a b c d e f g h i j k l m : a && (b && (c && (d && (e && (f && (g && (h && (i && (j && (k && (l && m))))))))))) = true ->
  a = true /\ b = true /\ c = true /\ d = true /\ e = true /\ f = true /\ g = true /\ h = true /\ i = true /\ j = true /\ k = true /\ l = true /\ m = true.
Proof. rewrite !andb_true_iff. auto. Qed.

Lemma scenario_facts : opens_well (NewBlockChain toy_key empty_disk empty_disk toy_spec [] toy_engine) = true /\
  succeeded (insertLocked chain0 block_a 1000) = true /\ succeeded (insertLocked chain1 block_b 1000) = true /\ succeeded (insertLocked chain2 block_c 1000) = true /\
  settles_well (Finalize chain2 (cert block_b)) = true /\ succeeded (insertLocked chain4 block_d 1000) = true /\
  not_final chain2 = true /\ is_final chain3 block_b = true /\ is_final chain4 block_b = true /\ head_at chain2 1 = true /\ final_at chain3 1 = true /\
  head_on chain3 block_a = true /\ same_block genesis_block (bc_genesis chain4) = true.
Proof. exact (all_true _ _ _ _ _ _ _ _ _ _ _ _ _ scenario_runs). Qed.

Lemma is_final_spec bc b : is_final bc b = true -> option_map hash_of (bc_finalized bc) = Some (hash_of b).
Proof. apply bool_decide_eq_true. Qed.
Lemma head_on_spec bc b : head_on bc b = true -> option_map hash_of (up (bc_store bc) 1 (bc_current bc)) = Some (hash_of b).
Proof. apply bool_decide_eq_true. Qed.
Lemma same_block_spec b b' : same_block b b' = true -> hash_of b = hash_of b'.
Proof. apply bool_decide_eq_true. Qed.
Lemma not_final_spec bc : not_final bc = true -> bc_finalized bc = None.
Proof. unfold not_final. destruct (bc_finalized bc); [discriminate | reflexivity]. Qed.

Lemma succeeds r : succeeded r = true -> exists ev, r = Some (fst (outcome r), Ok ev).
Proof. destruct r as [[bc [ev|e]]|]; [eauto | discriminate..]. Qed.
Lemma open_ok r : opens_well r = true -> exists s, r = Some (s, Ok (opened r)).
Proof. destruct r as [[s [bc|e]]|]; [eauto | discriminate..]. Qed.
Lemma settles r : settles_well r = true -> r = Some (settled_at r, Ok tt).
Proof. destruct r as [[bc [[]|e]]|]; [reflexivity | discriminate..]. Qed.
Lemma block_of_ok r b : block_of r = Some b -> exists s, r = Some (Ok (b, s)).
Proof. destruct r as [[[b' s]|e]|]; cbn; [intros [= ->]; eauto | discriminate..]. Qed.

Lemma toy_block : exists s, ToBlock toy_key toy_spec empty_disk = Some (Ok (genesis_block, s)).
Proof. apply block_of_ok. vm_compute. reflexivity. Qed.

Lemma inserts1 : exists ev, insertLocked chain0 block_a 1000 = Some (chain1, Ok ev).
Proof. apply succeeds. destruct scenario_facts as (_ & H & _). exact H. Qed.
Lemma inserts2 : exists ev, insertLocked chain1 block_b 1000 = Some (chain2, Ok ev).
Proof. apply succeeds. destruct scenario_facts as (_ & _ & H & _). exact H. Qed.
Lemma inserts3 : exists ev, insertLocked chain2 block_c 1000 = Some (chain3, Ok ev).
Proof. apply succeeds. destruct scenario_facts as (_ & _ & _ & H & _). exact H. Qed.
Lemma finalizes4 : Finalize chain2 (cert block_b) = Some (chain4, Ok tt).
Proof. apply settles. destruct scenario_facts as (_ & _ & _ & _ & H & _). exact H. Qed.
Lemma inserts5 : exists ev, insertLocked chain4 block_d 1000 = Some (chain5, Ok ev).
Proof. apply succeeds. destruct scenario_facts as (_ & _ & _ & _ & _ & H & _). exact H. Qed.

Lemma reachable0 : reachable chain0.
Proof.
  destruct toy_block as [s1 Et]. destruct (open_ok (NewBlockChain toy_key empty_disk empty_disk toy_spec [] toy_engine)) as [s0 E]; [destruct scenario_facts as [H _]; exact H|].
  apply (reach_open toy_key toy_spec [] toy_engine empty_disk empty_disk genesis_block s1 s0); [|exact Et | exact fine_genesis | exact E]. intros k _ _. exact (lookup_empty (M := gmap bytes) k).
Qed.

Lemma reachable1 : reachable chain1.
Proof. destruct inserts1 as [e E]. exact (reach_step chain0 chain1 reachable0 (step_insert chain0 block_a 1000 _ chain1 fine_a E)). Qed.

Lemma reachable2 : reachable chain2.
Proof. destruct inserts2 as [e E]. exact (reach_step chain1 chain2 reachable1 (step_insert chain1 block_b 1000 _ chain2 fine_b E)). Qed.

Lemma unfinalized2 : bc_finalized chain2 = None.
Proof. apply not_final_spec. destruct scenario_facts as (_ & _ & _ & _ & _ & _ & H & _). exact H. Qed.

Lemma anchored2 : anchored chain2.
Proof. intros f. rewrite unfinalized2. discriminate. Qed.

Lemma final_spec bc b : is_final bc b = true -> exists f, bc_finalized bc = Some f /\ hash_of f = hash_of b.
Proof. intros H%is_final_spec. destruct (bc_finalized bc) as [f|]; [|discriminate]. injection H as H. eauto. Qed.

(** The head is on [a], the finalized block is its sibling [c]. *)
Lemma misplaced bc bc' b ev a c : reachable bc -> fine b -> insertLocked bc b 1000 = Some (bc', Ok ev) -> is_final bc' c = true -> head_at bc 1 = true -> final_at bc' 1 = true -> head_on bc' a = true ->
  number_of b = 2 -> hash_of a <> hash_of c -> exists f, bc_finalized bc' = Some f /\ hash_of f = hash_of c /\ bc_current bc' = b /\ ~ below (bc_store bc') (bc_current bc') f.
Proof.
  intros Hr Hb E Hf H2%Z.eqb_eq Hn Hu%head_on_spec Enb Hne. destruct (final_spec bc' c Hf) as (f & Ef & Hc). unfold final_at in Hn. rewrite Ef in Hn. apply Z.eqb_eq in Hn.
  destruct (reachable_wf bc Hr) as [g W]. destruct (import_spec g bc b 1000 bc' (Ok ev) W Hb E) as (_ & _ & (_ & Ec & _) & _). rewrite H2, Enb in Ec. change (1 <? 2) with true in Ec. cbv iota in Ec.
  exists f. do 3 (split; [assumption|]). intros (_ & x & Ex & Eh). rewrite Ec, Hn, Enb in Ex. change (Z.to_nat (2 - 1)) with 1%nat in Ex. rewrite Ec, Ex in Hu. injection Hu as Hu. congruence.
Qed.

(** C16: an import that moves finality can leave the head off the finalized branch.
    The chain below holds two children of the genesis block, the first of which is
    the head; a child of the first that carries a certificate of the second is
    accepted, the second becomes final, and the head moves to the new block, which
    does not descend from it. *)
Theorem justification_misplaces_head : exists bc b bc' ev f, reachable bc /\ anchored bc /\ fine b /\ insertLocked bc b 1000 = Some (bc', Ok ev) /\
  bc_finalized bc' = Some f /\ hash_of f = hash_of block_b /\ bc_current bc' = b /\ ~ below (bc_store bc') (bc_current bc') f.
Proof.
  destruct inserts3 as [ev E]. destruct scenario_facts as (_ & _ & _ & _ & _ & _ & _ & Hf & _ & H2 & Hn & Hu & _).
  destruct (misplaced chain2 chain3 block_c ev block_a block_b reachable2 fine_c E Hf H2 Hn Hu eq_refl) as (f & Ef & H); [vm_compute; discriminate|].
  exists chain2, block_c, chain3, ev, f. split; [exact reachable2|]. split; [exact anchored2|]. split; [exact fine_c|]. split; [exact E|]. split; [exact Ef | exact H].
Qed.

(** ** Witnesses *)

Lemma index_follows_head_witness : GetBlockByNumber chain2 2 = None /\ exists b, GetBlockByNumber chain2 1 = Some b /\ number_of b = 1 /\ below (bc_store chain2) (bc_current chain2) b.
Proof.
  destruct scenario_facts as (_ & _ & _ & _ & _ & _ & _ & _ & _ & En & _). apply Z.eqb_eq in En. split.
  - apply (index_follows_head chain2 2 reachable2); [vm_compute; split; [discriminate | reflexivity] | rewrite En; lia].
  - destruct (index_follows_head chain2 1 reachable2) as [_ H]; [vm_compute; split; [discriminate | reflexivity]|]. destruct (H ltac:(rewrite En; lia)) as (b & H1 & H2 & H3 & _). eauto.
Defined.

Lemma fine_d : fine block_d.
Proof. fine_here. Qed.
Lemma cert_named : Att.ag_hash (cert block_b) <> ZeroHash.
Proof. vm_compute. discriminate. Qed.
Lemma reachable4 : reachable chain4.
Proof. exact (reach_step chain2 chain4 reachable2 (step_finalize chain2 (cert block_b) _ chain4 cert_named finalizes4)). Qed.
Lemma final4 : exists f, bc_finalized chain4 = Some f /\ hash_of f = hash_of block_b.
Proof. apply final_spec. destruct scenario_facts as (_ & _ & _ & _ & _ & _ & _ & _ & H & _). exact H. Qed.

Lemma finality_moves_forward_witness : exists f f', bc_finalized chain4 = Some f /\ hash_of f = hash_of block_b /\ bc_finalized chain5 = Some f' /\ below (bc_store chain5) f' f.
Proof.
  destruct inserts5 as [ev E]. destruct (finality_moves_forward chain4 chain5 reachable4 (rtc_once _ _ (step_insert chain4 block_d 1000 _ chain5 fine_d E))) as [H _].
  destruct final4 as (f & Ef & Hf). destruct (H f Ef) as (f' & H1 & H2). exists f, f'. auto.
Defined.

Lemma import_all_or_nothing_witness : exists ev, insertLocked chain0 block_a 1000 = Some (chain1, Ok ev) /\ imported chain0 chain1 block_a (Ok ev).
Proof. destruct inserts1 as [ev E]. exists ev. split; [exact E|]. apply (import_all_or_nothing chain0 block_a 1000 chain1 (Ok ev) reachable0 fine_a E). Defined.

Definition hash_b : Hash := Eval vm_compute in default [] (hash_of block_b).
Lemma stored_b : stored (bc_store chain2) block_b hash_b.
Proof.
  destruct inserts2 as [ev E]. destruct (reachable_wf chain1 reachable1) as [g W]. destruct (import_spec g chain1 block_b 1000 chain2 (Ok ev) W fine_b E) as (_ & _ & ((h & Eh & _ & Hs) & _) & _).
  replace hash_b with h; [exact Hs|]. assert (hash_of block_b = Some hash_b) as E2 by (vm_compute; reflexivity). congruence.
Qed.

Lemma reorganisation_succeeds_witness : exists bc' old, reorgTo chain2 block_b = Some (bc', Ok old) /\ bc_current bc' = block_b.
Proof. destruct (reorganisation_succeeds chain2 block_b hash_b reachable2 stored_b) as (bc' & old & E & Ec & _). exists bc', old. auto. Defined.

Lemma certificates_settle_witness : exists bc' r, Finalize chain2 (cert block_b) = Some (bc', r) /\ settled chain2 bc' (cert block_b) r.
Proof. exact (certificates_settle chain2 (cert block_b) reachable2 cert_named). Defined.

Lemma head_keeps_finalized_witness : exists f, bc_finalized chain4 = Some f /\ below (bc_store chain4) (bc_current chain4) f.
Proof.
  pose proof (head_keeps_finalized chain2 chain4 reachable2 anchored2 (rtc_once _ _ (quiet_finalize chain2 (cert block_b) _ chain4 cert_named finalizes4))) as A.
  destruct final4 as (f & Ef & _). exists f. split; [exact Ef | apply A; exact Ef].
Defined.

Lemma restart_recovers_witness : exists bc', NewBlockChain toy_key (bc_store chain4) empty_disk toy_spec [] toy_engine = Some (bc_store chain4, Ok bc') /\ same_chain chain4 bc'.
Proof.
  destruct toy_block as [s Et]. apply (restart_recovers chain4 toy_key toy_spec [] toy_engine empty_disk genesis_block s reachable4 Et). apply same_block_spec. destruct scenario_facts as (_ & _ & _ & _ & _ & _ & _ & _ & _ & _ & _ & _ & H). exact H.
Defined.
End Safety.
