(* ===== verification/Builder.v ===== *)
(** The block builder (src/miner/builder.go): a block on the head of the chain from
    candidate transactions, sealed and, by [Commit], imported.

    The randomness reveal is an argument, a function of the epoch, since the signing
    of package bls12381 is not modelled; the readings of the clock are arguments too.
    [WaitUntilTurn], which only sleeps, is left out. *)

From Stdlib Require Import String.
From stdpp Require Import base list gmap.
From Stdlib Require Import ZArith Lia.
From S2P Require Import Prelude Common RLP Attestation VotePool Registry Lifecycle StateDB EvmData Interpreter Precompiles Transaction Transition CoreBlock Processor Poa Database RawDb Chain.
Local Open Scope Z_scope.
Local Open Scope go_scope.

Module Miner.
Import Vm Interp Blk Rcpt RawDb Chain.

Inductive reject := ErrGasLimitReached | ErrApply (e : Proc.error set_error).

Inductive error :=
| ErrNotOurTurn
| ErrPrepare (e : Poa.error)
| ErrCertificate (e : Rlp.error)
| ErrParentState
| ErrRandao (e : Proc.error set_error)
| ErrEpoch (e : Proc.error set_error)
| ErrCommit
| ErrSeal (e : Poa.error)
| ErrInsert (e : Chain.error).

Section Builder.
Context `{K : Keccak} {TS : TrieStore} {CS : ChainStore} `{C : NativeCrypto} `{B : Bls} {BP : BlsPossession B} `{S : !Signing}.

Record Builder := mkBuilder
  { bd_key : PrivateKey; bd_reveal : option (Z -> bytes); bd_coinbase : Address; bd_attestations : option Pool.AttestationPool }.

Definition NewBuilder (key : PrivateKey) : Builder := mkBuilder key None (Poa.address_of (Public key)) None.
Definition SetBLSKey (b : Builder) (reveal : Z -> bytes) : Builder := mkBuilder (bd_key b) (Some reveal) (bd_coinbase b) (bd_attestations b).
Definition SetAttestationPool (b : Builder) (pool : Pool.AttestationPool) : Builder := mkBuilder (bd_key b) (bd_reveal b) (bd_coinbase b) (Some pool).

Record Result := mkResult
  { rs_block : Block; rs_receipts : list Receipt; rs_state : SDB.StateDB; rs_included : list Tx.Transaction; rs_rejected : list (Tx.Transaction * reject) }.

(** * Transactions *)

Section Loop.
Variable config : Proc.Config.
Variable chain : Proc.ChainContext set_error.
Variable header : Header.

(** The pool after an attempt that failed: the code passes it by reference. *)
Definition pool_after (v : VM) (tx : Tx.Transaction) (gp : Z) : Z :=
  match Trans.MessageFromTx tx (Proc.c_chainID config) (h_baseFee header) with
  | (_, Err _) => gp
  | (_, Ok msg) =>
      match Proc.NewBlockContext config (Some chain) header (Trans.m_from msg) (Trans.m_gasPrice msg) with
      | None => gp
      | Some env => match Trans.ApplyMessage env false msg (Proc.ResetVM v (db v)) gp with Ok (st, _) => Trans.gasPool st | Err _ => gp end
      end
  end.

Record Building := mkBuilding
  { bg_vm : VM; bg_pool : Z; bg_used : Z; bg_included : list Tx.Transaction; bg_receipts : list Receipt; bg_rejected : list (Tx.Transaction * reject) }.

Definition rejected (s : Building) (tx : Tx.Transaction) (why : reject) : Building :=
  mkBuilding (bg_vm s) (bg_pool s) (bg_used s) (bg_included s) (bg_receipts s) (bg_rejected s ++ [(tx, why)]).

(** One candidate; [Err] is a panic. *)
Definition candidate (s : Building) (tx : Tx.Transaction) : result fault Building :=
  if bg_pool s <? Tx.gasLimit (Tx.inner tx) then Ok (rejected s tx ErrGasLimitReached)
  else
    let (d, snapshot) := SDB.Snapshot (db (bg_vm s)) in
    match Tx.TxHash tx with
    | None => Err GoPanic
    | Some (tx, h) =>
        let v := set_db (bg_vm s) (SDB.SetTxContext d h (len (bg_included s))) in
        let! (v', r) := Proc.applyTransaction config (Some chain) header (len (bg_included s)) v tx (bg_pool s) (bg_used s) in
        match r with
        | Err e =>
            match SDB.RevertToSnapshot (db v') snapshot with
            | None => Err GoPanic
            | Some d => Ok (rejected (mkBuilding (set_db v' d) (pool_after v tx (bg_pool s)) (bg_used s) (bg_included s) (bg_receipts s) (bg_rejected s)) tx (ErrApply e))
            end
        | Ok (gp, used, receipt) => Ok (mkBuilding v' gp used (bg_included s ++ [tx]) (bg_receipts s ++ [receipt]) (bg_rejected s))
        end
    end.

Fixpoint build_loop (s : Building) (candidates : list Tx.Transaction) : result fault Building :=
  match candidates with [] => Ok s | tx :: r => let! s := candidate s tx in build_loop s r end.

End Loop.

(** * Blocks *)

Definition with_base (h : Header) (reveal justification : bytes) : Header :=
  mkHeader (h_parentHash h) (h_coinbase h) (h_stateRoot h) (h_txRoot h) (h_receiptRoot h) (h_bloom h) (h_number h) (h_gasLimit h) (h_gasUsed h) (h_time h)
    (h_extra h) (h_baseFee h) (h_round h) reveal justification (h_seal h).
Definition with_result (h : Header) (root : Hash) (used : Z) : Header :=
  mkHeader (h_parentHash h) (h_coinbase h) root (h_txRoot h) (h_receiptRoot h) (h_bloom h) (h_number h) (h_gasLimit h) used (h_time h)
    (h_extra h) (h_baseFee h) (h_round h) (h_randaoReveal h) (h_justification h) (h_seal h).

(** The certificate the block carries, from the pool of votes on the parent. *)
Definition justification_of (b : Builder) (number : Z) (hash : Hash) : option (Builder * result error bytes) :=
  match bd_attestations b with
  | None => Some (b, Ok [])
  | Some pool =>
      let? (pool, qc) := Pool.Certificate pool number hash in
      let b := SetAttestationPool b pool in
      match qc with
      | None => Some (b, Ok [])
      | Some qc => Some (b, match Proc.EncodeQuorumCert qc with Ok e => Ok e | Err e => Err (ErrCertificate e) end)
      end
  end.

(** The header the transactions are executed under. *)
Definition start_header (bc : BlockChain) (b : Builder) (parentHash : Hash) (now now' : Z) : option (Builder * result error Header) :=
  let parent := b_header (bc_current bc) in
  let next := number_of (bc_current bc) +w 1 in
  let? baseFee := Proc.CalcBaseFee (bc_config bc) (Some parent) in
  let header := mkHeader parentHash ZeroAddress ZeroHash ZeroHash ZeroHash Bloom.zero_bloom (Some next) (h_gasLimit parent) 0 0 (bytes_of_string "padi-chain") (Some baseFee) 0 [] [] [] in
  match Poa.Prepare (engine_of bc) (GetHeaderByHash bc) header now now' with
  | (_, Err e) => Some (b, Err (ErrPrepare e))
  | (header, Ok _) =>
      let reveal := match bd_reveal b with Some sign => sign (Reg.EpochOf next) | None => [] end in
      let? (b, j) := justification_of b (number_of (bc_current bc)) parentHash in
      Some (b, let! j := j in Ok (with_base header reveal j))
  end.

(** What follows the transactions: randomness, the epoch boundary, the roots and the seal.  The state is written to the store of the chain. *)
Definition finish (bc : BlockChain) (b : Builder) (header : Header) (s : Building) : option (BlockChain * result error Result) :=
  let config := bc_config bc in
  let chain := Some (context_of bc) in
  let header := with_result header (h_stateRoot header) (bg_used s) in
  match Proc.applyRandao config (db (bg_vm s)) header with
  | (_, Err e) => Some (bc, Err (ErrRandao e))
  | (d, Ok _) =>
      match Proc.ProcessEpochBoundary chain d header (finalized_number bc) with
      | Err _ => None
      | Ok (_, Err e) => Some (bc, Err (ErrEpoch e))
      | Ok (d, Ok _) =>
          match SDB.commitTo (SDB.Finalise d true) true with
          | None => Some (bc, Err ErrCommit)
          | Some (d, root, batch) =>
              let bc := with_store bc (store_write (bc_store bc) batch) in
              let? block := NewBlock (with_result header root (bg_used s)) (bg_included s) (bg_receipts s) in
              let? r := Poa.Seal (engine_of bc) block (bd_key b) in
              Some (bc, match r with Err e => Err (ErrSeal e) | Ok sealed => Ok (mkResult sealed (bg_receipts s) d (bg_included s) (bg_rejected s)) end)
          end
      end
  end.

Definition BuildBlock (bc : BlockChain) (b : Builder) (candidates : list Tx.Transaction) (turn now now' : Z) : option (BlockChain * Builder * result error Result) :=
  let parent := bc_current bc in
  if negb (Poa.IsMyTurn (engine_of bc) (bd_coinbase b) (number_of parent +w 1) (h_time (b_header parent)) turn) then Some (bc, b, Err ErrNotOurTurn)
  else
    let? hash := hash_of parent in
    let? (b, h) := start_header bc b hash now now' in
    match h with
    | Err e => Some (bc, b, Err e)
    | Ok header =>
        match StateAt bc (h_stateRoot (b_header parent)) with
        | None => Some (bc, b, Err ErrParentState)
        | Some d =>
            let? _ := Proc.NewBlockContext (bc_config bc) (Some (context_of bc)) header ZeroAddress 0 in
            match build_loop (bc_config bc) (context_of bc) header (mkBuilding (Proc.NewEVM d) (Trans.AddGas 0 (h_gasLimit header)) 0 [] [] []) candidates with
            | Err _ => None
            | Ok s => let? (bc, r) := finish bc b header s in Some (bc, b, r)
            end
        end
    end.

Definition Commit (bc : BlockChain) (b : Builder) (candidates : list Tx.Transaction) (turn now now' now'' : Z) : option (BlockChain * Builder * result error Result) :=
  let? r := BuildBlock bc b candidates turn now now' in
  match r with
  | (bc, b, Err e) => Some (bc, b, Err e)
  | (bc, b, Ok result) =>
      let? (bc, r) := insertLocked bc (rs_block result) now'' in
      Some (bc, b, match r with Err e => Err (ErrInsert e) | Ok _ => Ok result end)
  end.

End Builder.
End Miner.
