(* ===== verification/BuilderFacts.v ===== *)
(** What the block builder promises (Builder.v): every candidate is either included or
    left without a trace, the gas of a block is accounted for, and the block it seals
    passes the checks of every chain that shares its view. *)

From Stdlib Require Import String.
From stdpp Require Import base list gmap relations.
From Stdlib Require Import ZArith Lia.
From S2P Require Import Prelude Common RLP UInt256 Attestation VotePool Registry Lifecycle StateDB EvmData Interpreter EvmState EvmSafety EvmExec EvmCalls EvmRun EvmEffects Precompiles Machine Transaction Transition TransitionFacts CoreBlock CoreBlockFacts Processor ProcessorFacts Poa Database RawDb RawDbFacts Chain ChainFacts Genesis Backend ChainSafety Builder.
Local Open Scope Z_scope.
Local Open Scope go_scope.

Module BuilderFacts.
Import SDB Interp Ev Safe Exec Calls Total Effects Trans Facts Rcpt Blk Proc ProcFacts.

Section Refusals.
Context `{K : Keccak} `{TS : TrieStore} `{C : NativeCrypto} `{B : Bls} {BP : BlsPossession B}.
#[local] Existing Instance contracts.
#[local] Existing Instance statedb_access.
Variable env : Env.
Variable msg : Message.

(** * A refused message can be taken back *)

Abbreviation db_of st := (db (st_vm st)).

Lemma st_query_moves {A} st (f : World -> World * A) : (forall w a, f (world (db_of st)) = (w, a) -> ext (world (db_of st)) w) -> rtc move (db_of st) (db_of (fst (st_query st f))).
Proof. intros H. unfold st_query. destruct (vm_query_ok (st_vm st) f H) as (w & a & -> & _ & He). apply rtc_once, move_load, He. Qed.

Lemma buyGas_moves st : wf (world (db_of st)) -> rtc move (db_of st) (db_of (fst (buyGas msg st))).
Proof.
  intros Hw. unfold buyGas. assert (rtc move (db_of st) (db_of (fst (if negb (m_skipChecks msg) then st_query st (fun w => get_balance w (m_from msg)) else (st, m_gasLimit msg * effectiveFeeCap msg + m_value msg))))) as Hm.
  { destruct (negb _); [apply st_query_moves; intros w a; apply get_balance_ext | reflexivity]. }
  destruct (if negb _ then _ else _) as [st1 have]. cbn [fst] in Hm. destruct (_ <? _); [exact Hm|]. destruct (SubGas _ _); [|exact Hm]. destruct (negb _); [|exact Hm].
  cbn [fst with_db st_vm set_db db]. etransitivity; [exact Hm|]. apply sub_balance_moves. eapply moves_wf; eassumption.
Qed.

Lemma preCheck_moves st : wf (world (db_of st)) -> rtc move (db_of st) (db_of (fst (preCheck env false msg st))).
Proof.
  intros Hw. unfold preCheck. destruct (m_skipChecks msg); [apply buyGas_moves, Hw|].
  pose proof (st_query_moves st (fun w => GetNonce w (m_from msg)) ltac:(intros w a; apply GetNonce_ext)) as H1. destruct (st_query st _) as [st1 n]. cbn [fst] in H1.
  destruct (n <? _); [exact H1|]. destruct (_ <? n); [exact H1|].
  pose proof (st_query_moves st1 (fun w => GetCodeHash w (m_from msg)) ltac:(intros w a; apply GetCodeHash_ext)) as H2. destruct (st_query st1 _) as [st2 h]. cbn [fst] in H2.
  assert (rtc move (db_of st) (db_of st2)) as H by (etransitivity; eassumption). destruct (_ && _); [exact H|]. destruct (match m_gasFeeCap msg, m_gasTipCap msg with Some _, Some _ => _ | _, _ => _ end); [exact H|].
  destruct (match BaseFee env, m_gasFeeCap msg with Some _, Some _ => _ | _, _ => _ end); [exact H|]. etransitivity; [exact H|]. apply buyGas_moves. eapply moves_wf; eassumption.
Qed.

Lemma finished {A} (x : result fault A) (f : A -> StateTransition) err out st e : (let! a := x in Ok (finish env false msg (f a) (err a) (out a))) <> Ok (st, Err e).
Proof. destruct x; cbn [rbind]; discriminate. Qed.

Lemma refusal_moves v gp st e : ApplyMessage env false msg v gp = Ok (st, Err e) -> wf (world (db v)) -> rtc move (db v) (db_of st).
Proof.
  intros E Hw. unfold ApplyMessage, run in E. pose proof (preCheck_moves (mkST v gp 0 0) Hw) as Hm. destruct (preCheck _ _ _ _) as [st1 [u|e1]]; cbn [fst st_vm] in Hm; [|injection E as <- _; exact Hm].
  destruct (IntrinsicGas _ _ _); [|injection E as <- _; exact Hm]. destruct (_ <? _); [injection E as <- _; exact Hm|]. destruct (_ && _); [injection E as <- _; exact Hm|].
  exfalso. destruct (IsStakingCall msg).
  - unfold runStakingCall in E. destruct (Snapshot _) as [d sn]. destruct (staking_op _ _ _ _) as [[st2 cost] opErr]. destruct (useGas _ _); [exact (finished _ (fun st => st) (fun _ => opErr) (fun _ => []) _ _ E)|].
    exact (finished _ (fun st => with_gas_left st 0) (fun _ => Some (ErrVm Vm.ErrOutOfGas)) (fun _ => []) _ _ E).
  - unfold run_evm in E. destruct (m_to msg).
    + destruct (Call _ _ _ _ _ _ _) as [[[[v' out] g] err]|]; discriminate.
    + destruct (Create _ _ _ _ _ _) as [[[[[v' out] ?] g] err]|]; discriminate.
Qed.

End Refusals.

(** * Candidates *)

Import Miner.

Section Loop.
Context `{K : Keccak} {TS : TrieStore} {CS : ChainStore} `{C : NativeCrypto} `{B : Bls} {BP : BlsPossession B}.
#[local] Existing Instance contracts.
#[local] Existing Instance statedb_access.
Variable config : Config.
Variable chain_ : ChainContext Chain.set_error.
Variable header : Header.
Hypothesis Hnumber : is_Some (h_number header).
Hypothesis Hfee : is_Some (h_baseFee header).

(** An attempt that failed: what it wrote can be taken back, and the pool has lost nothing or the limit of the transaction. *)
Lemma attempt_refused i v tx gp used v' e : startable v -> tx_ok tx -> u64_ok gp -> applyTransaction config (Some chain_) header i v tx gp used = Ok (v', Err e) ->
  rtc move (db v) (db v') /\ (pool_after config chain_ header v tx gp = gp \/ pool_after config chain_ header v tx gp = gp - Tx.gasLimit (Tx.inner tx)).
Proof.
  intros Hv Htx Hgp E. unfold applyTransaction in E. unfold pool_after. destruct Hfee as [fee Ef]. destruct Hnumber as [n En]. rewrite Ef in *.
  destruct (MessageFromTx tx (c_chainID config) (Some fee)) as [tx1 [msg|e1]] eqn:Em; [|injection E as <- _; split; [reflexivity | left; reflexivity]].
  destruct (message_of msg tx (c_chainID config) fee) as (Hm & _); [rewrite Em; reflexivity | apply Htx | apply Htx|].
  assert (m_gasLimit msg = Tx.gasLimit (Tx.inner tx)) as El.
  { unfold MessageFromTx in Em. pose proof (sender_inner (c_chainID config) tx) as H. destruct (Tx.Sender _ _) as [tx' [from|]]; [|discriminate]. injection Em as _ <-. cbn [fst m_gasLimit] in *. rewrite H. reflexivity. }
  unfold NewBlockContext in *. rewrite En, Ef in *. cbn [obind] in *. set (env := mkEnv _ _ _ _ _ _ _ _ _ _) in *.
  destruct (ApplyMessage_ok env false msg (ResetVM v (db v)) gp (startable_ready v gp Hv) Hgp Hm) as (st & r & Ea & Hr). rewrite Ea in *. cbn [rbind] in E.
  destruct r as [res|e1]; [destruct (Tx.TxHash tx1) as [[tx2 h]|]; discriminate|]. injection E as <- _. split.
  - apply (refusal_moves env msg (ResetVM v (db v)) gp st e1 Ea). apply inv_wf, Hv.
  - rewrite <- El. apply Hr.
Qed.

(** Where the loop stands. *)
Definition building_ok (s : Building) : Prop := startable (bg_vm s) /\ u64_ok (bg_pool s) /\ 0 <= bg_used s /\ bg_pool s + bg_used s < two64.

(** What became of a candidate: it is included with its receipt, or it is rejected and nothing that can be read of the state has changed. *)
Inductive outcome (s : Building) (tx : Tx.Transaction) (s' : Building) : Prop :=
| included_with (tx' : Tx.Transaction) (r : Receipt) : Tx.inner tx' = Tx.inner tx -> bg_included s' = bg_included s ++ [tx'] -> bg_receipts s' = bg_receipts s ++ [r] -> bg_rejected s' = bg_rejected s ->
    running (bg_used s) [r] -> bg_used s' = bg_used s + r_gasUsed r -> bg_pool s' = bg_pool s - r_gasUsed r -> outcome s tx s'
| rejected_for (tx' : Tx.Transaction) (why : reject) : Tx.inner tx' = Tx.inner tx -> bg_included s' = bg_included s -> bg_receipts s' = bg_receipts s -> bg_rejected s' = bg_rejected s ++ [(tx', why)] ->
    bg_used s' = bg_used s -> bg_pool s' = bg_pool s \/ bg_pool s' = bg_pool s - Tx.gasLimit (Tx.inner tx) -> same_reads (world (db (bg_vm s))) (world (db (bg_vm s'))) -> outcome s tx s'.

Lemma same_reads_context w w' h i : same_reads (set_context w h i) w' -> same_reads w w'.
Proof.
  intros (H1 & H2 & H3 & H4 & H5 & H6). split; [|split; [|split_and!; try assumption]].
  - intros a. destruct (H1 a) as (E1 & E2 & E3 & E4 & E5 & E6). rewrite E1, E2, E3, E4, E5, E6. unfold Exist, Empty, get_balance, GetNonce, GetCodeHash, HasSelfDestructed.
    destruct (getStateObject_spec w a) as (w1 & -> & _), (getStateObject_spec (set_context w h i) a) as (w2 & -> & _). change (live (set_context w h i) a) with (live w a). destruct (live w a); auto 8.
  - intros a k. destruct (H2 a k) as (E1 & E2 & E3 & E4). rewrite E1, E2, E3, E4, !get_state_value, !GetCommittedState_value. auto.
  - intros a. destruct (H6 a) as [[E1 E2]|H]; [left; rewrite E1, E2, !GetCodeSize_value, !GetCode_value; auto | right; exact H].
Qed.

Lemma candidate_ok s tx : building_ok s -> tx_ok tx -> exists s', candidate config chain_ header s tx = Ok s' /\ building_ok s' /\ outcome s tx s'.
Proof.
  intros (Hv & Hgp & Hu & Hsum) Htx. unfold candidate. destruct (Z.ltb_spec (bg_pool s) (Tx.gasLimit (Tx.inner tx))) as [|Hfit].
  { eexists. split; [reflexivity|]. split; [split; [exact Hv|]; split; [exact Hgp|]; split; assumption|]. eapply (rejected_for s tx _ tx ErrGasLimitReached); auto. apply ext_same_reads, ext_preorder. }
  destruct (Snapshot (db (bg_vm s))) as [d sn] eqn:Es. destruct (tx_hash tx Htx) as (tx1 & h & -> & Hin). assert (tx_ok tx1) as Htx1 by (unfold tx_ok; rewrite Hin; exact Htx).
  set (i := len (bg_included s)). set (v := set_db (bg_vm s) (SetTxContext d h i)). set (d0 := SetTxContext (db (bg_vm s)) h i).
  assert (inv d0) as Hi0 by (apply SetTxContext_inv, Hv). assert (db v = fst (Snapshot d0) /\ sn = snd (Snapshot d0)) as [Ed Esn] by (injection Es as <- <-; split; reflexivity).
  assert (startable v) as Hv1 by (apply startable_db; [exact Hv | change (SetTxContext d h i) with (db v); rewrite Ed; apply snapshot_inv, Hi0 | change (SetTxContext d h i) with (db v); rewrite Ed; apply Hv]).
  destruct (applyTransaction_ok config (Some chain_) header Hnumber Hfee i v tx1 (bg_pool s) (bg_used s) Hv1 Htx1 Hgp Hu Hsum) as (v2 & r & Ea & Hv2 & Hr). cbv zeta. rewrite Ea. cbn [rbind].
  destruct r as [[[gp' used'] receipt]|e].
  - destruct Hr as (Hgp' & -> & Hs' & Hrun). eexists. split; [reflexivity|]. split; [unfold building_ok, u64_ok in *; cbn [bg_vm bg_pool bg_used]; split; [exact Hv2|]; destruct Hrun; lia|].
    eapply (included_with s tx _ tx1 receipt); auto. cbn [bg_pool]. lia.
  - destruct (attempt_refused i v tx1 (bg_pool s) (bg_used s) v2 e Hv1 Htx1 Hgp Ea) as [Hm Hp]. rewrite Ed in Hm. destruct (moves_revert d0 (db v2) Hi0 Hm) as (d2 & Er & Hi2 & He). rewrite <- Esn in Er. rewrite Er.
    eexists. split; [reflexivity|]. rewrite Hin in Hp. destruct Htx as [Hpay _]. assert (u64_ok (Tx.gasLimit (Tx.inner tx))) as Hg by (destruct (Tx.inner tx); apply Hpay). split.
    + split; [apply startable_db; [exact Hv2 | exact Hi2 | rewrite (ex_refund _ _ He); apply Hv]|]. unfold u64_ok in *. cbn [rejected bg_pool bg_used]. destruct Hp as [-> | ->]; lia.
    + eapply (rejected_for s tx _ tx1 (ErrApply e)); auto. apply (same_reads_context _ _ h i). apply ext_same_reads. exact He.
Qed.

(** The candidates, told apart: both lists keep their order. *)
Inductive parted : list Tx.Transaction -> list Tx.Transaction -> list (Tx.Transaction * reject) -> Prop :=
| parted_nil : parted [] [] []
| parted_in tx tx' cs ins outs : Tx.inner tx' = Tx.inner tx -> parted cs ins outs -> parted (tx :: cs) (tx' :: ins) outs
| parted_out tx tx' why cs ins outs : Tx.inner tx' = Tx.inner tx -> parted cs ins outs -> parted (tx :: cs) ins ((tx', why) :: outs).

Lemma build_loop_ok cs : forall s, building_ok s -> Forall tx_ok cs -> exists s' ins rs outs, build_loop config chain_ header s cs = Ok s' /\ building_ok s' /\
  bg_included s' = bg_included s ++ ins /\ bg_receipts s' = bg_receipts s ++ rs /\ bg_rejected s' = bg_rejected s ++ outs /\ parted cs ins outs /\ length rs = length ins /\
  running (bg_used s) rs /\ bg_used s' = bg_used s + gas_of rs /\ bg_pool s' + bg_used s' <= bg_pool s + bg_used s.
Proof.
  induction cs as [|tx cs IH]; intros s Hs Hcs; cbn [build_loop].
  { exists s, [], [], []. rewrite !app_nil_r. unfold gas_of. cbn. split; [reflexivity|]. split; [exact Hs|]. do 3 (split; [reflexivity|]). split; [constructor|]. split; [reflexivity|]. split; [exact I | lia]. }
  inversion Hcs as [|? ? Htx Hrest]; subst. destruct (candidate_ok s tx Hs Htx) as (s1 & -> & Hs1 & Ho). cbn [rbind]. destruct (IH s1 Hs1 Hrest) as (s' & ins & rs & outs & -> & Hs' & Ei & Er & Ej & Hp & Hl & Hrun & Hu & Hsum).
  destruct Ho as [tx' r Hin O1 O2 O3 (Hr0 & Hc & Hb & _) O5 O6 | tx' why Hin O1 O2 O3 O4 O5 _].
  - exists s', (tx' :: ins), (r :: rs), outs. rewrite Ei, Er, Ej, O1, O2, O3, <- !app_assoc. split; [reflexivity|]. split; [exact Hs'|]. do 3 (split; [reflexivity|]). split; [constructor; assumption|]. split; [cbn; congruence|].
    change (gas_of (r :: rs)) with (r_gasUsed r + gas_of rs). cbn [running]. rewrite Hc, <- O5. auto 8 with lia.
  - exists s', ins, rs, ((tx', why) :: outs). rewrite Ei, Er, Ej, O1, O2, O3, <- !app_assoc. rewrite O4 in *. split; [reflexivity|]. split; [exact Hs'|]. do 3 (split; [reflexivity|]). split; [constructor; assumption|].
    assert (0 <= Tx.gasLimit (Tx.inner tx)) by (destruct Htx as [Hpay _]; destruct (Tx.inner tx); apply Hpay). do 3 (split; [assumption|]). lia.
Qed.

(** Where the loop starts. *)
Definition start (d : StateDB) : Building := mkBuilding (NewEVM d) (AddGas 0 (h_gasLimit header)) 0 [] [] [].

Lemma start_ok d : inv d -> 0 <= refund (world d) -> u64_ok (h_gasLimit header) -> building_ok (start d) /\ bg_pool (start d) = h_gasLimit header.
Proof.
  intros Hi H0 Hl. assert (AddGas 0 (h_gasLimit header) = h_gasLimit header) as E by (unfold AddGas; apply wrap64_small; exact Hl). unfold building_ok, start. cbn [bg_vm bg_pool bg_used]. rewrite E.
  split; [|reflexivity]. split; [split; [split; [exact Hi | constructor] | split; [reflexivity | exact H0]]|]. split; [exact Hl|]. unfold u64_ok in Hl. lia.
Qed.

(** C22: a candidate that is not included leaves no trace in the block.  Trying a
    transaction never panics, whatever it holds: either it is included with one
    receipt, and the pool loses what it used, or it is rejected and everything that
    can be read of the state is as before, the receipts and the gas used too (of
    code not yet loaded and missing or wrong where it is kept, only the hash is
    guaranteed).  The gas pool alone may not recover: a transaction refused after
    buying its gas takes its whole limit with it. *)
Theorem rejected_leaves_no_trace s tx : building_ok s -> tx_ok tx -> exists s', candidate config chain_ header s tx = Ok s' /\ building_ok s' /\ outcome s tx s'.
Proof. apply candidate_ok. Qed.

(** C23: the builder sorts every candidate.  On any state and with any candidates the
    loop ends without a panic; each candidate is included or rejected, both in their
    order; there is one receipt per included transaction, with the running total of
    gas and the filter of its logs; the gas used is what the receipts add up to, and
    no more than the limit of the block. *)
Theorem candidates_sorted d cs : inv d -> 0 <= refund (world d) -> u64_ok (h_gasLimit header) -> Forall tx_ok cs ->
  exists s', build_loop config chain_ header (start d) cs = Ok s' /\ inv (db (bg_vm s')) /\ parted cs (bg_included s') (bg_rejected s') /\
    length (bg_receipts s') = length (bg_included s') /\ running 0 (bg_receipts s') /\ bg_used s' = gas_of (bg_receipts s') /\ bg_used s' <= h_gasLimit header.
Proof.
  intros Hi H0 Hl Hcs. destruct (start_ok d Hi H0 Hl) as [Hs Ep]. destruct (build_loop_ok cs _ Hs Hcs) as (s' & ins & rs & outs & E & Hs' & Ei & Er & Ej & Hp & Hlen & Hrun & Hu & Hsum).
  exists s'. rewrite Ep in Hsum. rewrite Ei, Er, Ej. cbn [start bg_included bg_receipts bg_rejected bg_used app] in *. destruct Hs' as (Hv & Hg & _). unfold u64_ok in Hg. split; [exact E|]. split; [apply Hv|]. auto 8 with lia.
Qed.

End Loop.

(** * The block *)

Section Blocks.
Context `{K : Keccak} {TS : TrieStore} {CS : ChainStore} `{C : NativeCrypto} {SL : RawDb.StoreLaws CS} `{B : Bls} {BP : BlsPossession B} `{S : !Signing}.
#[local] Existing Instance statedb_access.
Import RawDb RawFacts Chain ChainFacts.

(** ** The proposers a chain draws *)





(** ** What was built *)







(** ** Certificates are read back *)






(** ** The checks of the chain *)










End Blocks.

(** ** Witnesses *)

Section Samples.
#[local] Existing Instances Reg.toy_keccak map_store Tx.one_key Facts.sample_bls Facts.sample_possession.

Definition alone : ChainContext Chain.set_error := Proc.mkChain (fun _ => None) None.
Definition open_header : Header := at_height 1 0 [].

(** A payment whose limit is below its intrinsic cost, between two good ones. *)
Definition short_payment : Tx.Transaction := Tx.NewTx (Tx.Legacy (Tx.mkLegacy 1 10 21000 (Some proposer) 5 [1; 2] 49 1 1)).
Definition sample_candidates : list Tx.Transaction := [payment 30000 proposer; short_payment; second_payment].

Lemma sample_candidates_ok : Forall tx_ok sample_candidates.
Proof. repeat (constructor; [split; [repeat split; try (vm_compute; discriminate); try (vm_compute; reflexivity); repeat constructor; vm_compute; discriminate | vm_compute; discriminate]|]). constructor. Qed.

Lemma sample_start_ok : building_ok (start open_header funded_db).
Proof. apply start_ok; [apply (funded_ready 0) | vm_compute; discriminate | vm_compute; split; [discriminate | reflexivity]]. Qed.

Definition tally (r : result fault Building) : option (Z * Z * nat * list bool) :=
  match r with Ok s => Some (bg_pool s, bg_used s, length (bg_included s), map (fun x => match snd x with ErrGasLimitReached => true | ErrApply _ => false end) (bg_rejected s)) | Err _ => None end.

(** The refused payment takes 21000 units of gas from the pool. *)
Lemma short_tally : tally (candidate (DefaultConfig 7) alone open_header (start open_header funded_db) (payment 21000 proposer)) = Some (79000, 0, 0%nat, [false]).
Proof. vm_compute. reflexivity. Qed.

(** It leaves no room for the last one, which would fit in the 78968 that are unused. *)
Lemma sample_tally : tally (build_loop (DefaultConfig 7) alone open_header (start open_header funded_db) sample_candidates) = Some (57968, 21032, 1%nat, [false; true]).
Proof. vm_compute. reflexivity. Qed.

Lemma rejected_leaves_no_trace_witness : exists s', candidate (DefaultConfig 7) alone open_header (start open_header funded_db) (payment 21000 proposer) = Ok s' /\ bg_pool s' = 79000 /\ bg_used s' = 0 /\
  same_reads (world funded_db) (world (db (bg_vm s'))).
Proof.
  destruct (rejected_leaves_no_trace (DefaultConfig 7) alone open_header (ex_intro _ 1 eq_refl) (ex_intro _ 3 eq_refl) (start open_header funded_db) (payment 21000 proposer)) as (s' & E & _ & Ho);
    [exact sample_start_ok | split; [repeat split; try (vm_compute; discriminate); try (vm_compute; reflexivity); repeat constructor; vm_compute; discriminate | vm_compute; discriminate]|].
  pose proof short_tally as Ht. rewrite E in Ht. injection Ht as Hp Hu Hl _. exists s'. split; [exact E|]. split; [exact Hp|]. split; [exact Hu|].
  destruct Ho as [tx' r _ Hi | tx' why _ _ _ _ _ _ H]; [rewrite Hi in Hl; discriminate | exact H].
Defined.

Lemma candidates_sorted_witness : exists s', build_loop (DefaultConfig 7) alone open_header (start open_header funded_db) sample_candidates = Ok s' /\ parted sample_candidates (bg_included s') (bg_rejected s') /\
  length (bg_receipts s') = 1%nat /\ gas_of (bg_receipts s') = 21032.
Proof.
  destruct (candidates_sorted (DefaultConfig 7) alone open_header (ex_intro _ 1 eq_refl) (ex_intro _ 3 eq_refl) funded_db sample_candidates) as (s' & E & _ & Hp & Hl & _ & Hu & _);
    [apply (funded_ready 0) | vm_compute; discriminate | vm_compute; split; [discriminate | reflexivity] | exact sample_candidates_ok|].
  pose proof sample_tally as Ht. rewrite E in Ht. injection Ht as _ Eu Ei _. exists s'. split; [exact E|]. split; [exact Hp|]. split; congruence.
Defined.

End Samples.

(** A builder with the key of the only validator, on the small chain of ChainSafety.v. *)
Section Sealed.
#[local] Existing Instances Reg.toy_keccak Tx.one_key Tx.one_signing Safety.disk Safety.disk_chain Safety.disk_laws Safety.open_bls Safety.open_possession.
Import RawDb Chain ChainFacts.












End Sealed.
End BuilderFacts.
